(* ===== verification/_CoqProject ===== *)
-Q . S2P
Prelude.v
Utf8.v
Utf8Props.v
Bits.v
BitsProps.v
Sort.v
StableSort.v
SortSpec.v
SortProofs.v
StableProofs.v
Cmp.v
SortVariants.v
SortProps.v
Heap.v
Rings.v
ListModel.v
ListProofs.v
ListProps.v
Ring.v
RingProps.v
Bytealg.v
Strconv.v
StrconvProofs.v
StrconvProps.v
Number.v
Threads.v
Mutex.v
MutexProofs.v
RWMutex.v
RWMutexProofs.v
Path.v
PathProofs.v
PathProps.v
Match.v
MatchProofs.v
MatchProps.v
Calendar.v
CalendarProofs.v
Zone.v
ZoneProofs.v
ZoneProps.v
Duration.v
DurationProofs.v
Time.v
TimeProofs.v
TimeRound.v
TimeDate.v
TimeProps.v
Chan.v
ChanQueue.v
ChanProofs.v
ChanSteps.v
ChanRecv.v
ChanClose.v
ChanInv.v
ChanReach.v
ChanCalls.v
ChanProps.v
BigHeap.v
BigArith.v
BigWords.v
BigVec.v
BigNat.v
BigRes.v
BigMul.v
BigBits.v
BigLen.v
BigDiv.v
BigLong.v
BigStack.v
BigDivide.v
BigMult.v
BigKara.v
BigKaratsuba.v
BigProduct.v
BigSquare.v
BigProps.v
