(* ===== verification/Prelude.v ===== *)
(** * Verification of core packages of the Go 1.26 source tree

    The repository is the Go distribution: the compiler and its tools (src/cmd),
    the runtime (src/runtime) and the standard library. This development models
    the parts of it that compute on their own, without the operating system or
    the memory of the machine, and that the rest is built on: text encoding, bit
    arithmetic, sorting and searching, containers, number conversion, big
    numbers, locks, channels, paths and time. Paths below are relative to src/go1.26/src. Each function of
    these packages is a definition under its own name (a method [m] of a type
    that shares its file with a function [m] has a longer one); a loop with a body
    of its own, a case of a switch or a part of a long function is a definition
    that the function calls, as the code runs through it.

    ** How Go is represented

    - An integer of [w] bits is the [Z] it denotes. [uwrap w] and [swrap w]
      ([u64], [i64], [i32], ...) are the wrap-around of arithmetic and the
      conversions; [Z.quot] and [Z.rem] are the division of signed numbers.
    - A string or a []byte is the list of its bytes; a slice the list of its
      elements, whose length [len] is a [Z]. [idx], [slice], [store] and the others
      panic out of range as Go does.
    - A function that can panic or loop returns [res]: [Ok] of a value, [Panic] of
      a reason, or [NoFuel]. A loop is [loop n body x]: at most [n] rounds of
      [body], which returns the next state or the result. The fuel of a loop is a
      bound on its rounds: the length of the input plus one ([fuel_of]), the bits
      of a word, the digits of the largest number. That it is enough is part of
      every theorem, since each shows that the result is [Ok] ([wp]): the code
      terminates and does not panic. [wp_loop] is the rule for loops: an invariant
      and a measure below the fuel.
    - Objects that are shared through pointers (container/list, container/ring) live
      in a store with a finite map per field. Elements of a heap or of a sort are
      behind the interface of the code, a class with laws.
    - The slices of math/big, whose results are written over their operands, are
      views (array, offset, length, capacity) of a heap of arrays (BigHeap).
    - Goroutines (Threads.v) are programs whose steps are single accesses to the
      shared state, or sections under a lock that nobody can see into; the steps of
      all goroutines interleave in any order.

    ** The files

    - Prelude: the above, with the tactics ([unwrap], [zcases], [ztests], [dlia])
      and the lemmas on integers, lists and loops that everything shares.
    - Utf8 (unicode/utf8/utf8.go, runtime/utf8.go, the lowering of range loops over
      strings in cmd/compile/internal/walk/range.go), Utf8Props: the two decoders
      and encoders against the definition of UTF-8; validity, counting, decoding
      backwards, and range loops.
    - Bits (math/bits/bits.go, bits_tables.go), BitsProps: Div64 and the other
      double-width operations are exact, counts and reversals are those of the bits.
    - Sort, StableSort (the template behind sort/zsort*.go and slices/zsort*.go),
      against the class [SortInterface]; SortSpec, SortProofs, StableProofs: both
      algorithms sort any lawful instance, in place and without a panic, the
      stable one stably. Cmp (cmp/cmp.go): the ordered types. SortVariants: the
      entry points of sort and slices as instances, and the binary searches;
      SortProps: their properties.
    - Heap (container/heap/heap.go): the heap invariant over any [heap.Interface].
    - Rings: rings of linked nodes. ListModel, ListProofs, ListProps
      (container/list/list.go): the operations refine those on sequences. Ring,
      RingProps (container/ring/ring.go): the same for cyclic sequences.
    - Bytealg (internal/bytealg: the portable scans). Strconv, StrconvProofs,
      StrconvProps (internal/strconv/atoi.go, itoa.go, atob.go) and Number
      (strconv/number.go): parsing with all its errors, formatting, and that the
      first inverts the second.
    - Threads; Mutex, MutexProofs (internal/sync/mutex.go): mutual
      exclusion, no lost wake-up, no fatal error; RWMutex, RWMutexProofs
      (sync/rwmutex.go), on top of an abstract lock in the place of its
      mutex: exclusion and freedom from deadlock.
    - Chan (runtime/chan.go, dequeueSudoG of runtime/select.go, the sudogs and the
      status of goroutines in runtime/proc.go and runtime2.go): the channel, its
      wait queues and the steps of the goroutines on it. ChanQueue: a wait queue is a
      sequence of sudogs. ChanProofs: the ring buffer as a sequence and the invariant
      of every point of every goroutine; ChanSteps (with sending), ChanRecv,
      ChanClose (with waking up): each section of the code keeps it; ChanInv: so does
      every step, and brings the operation nearer to its end; ChanReach: the
      reachable states, and that operations end; ChanCalls: the steps between a call
      and its return, and what the call may return and has done; ChanProps: the
      properties.
    - Path, PathProofs, PathProps (path/path.go): Clean computes the lexical rules.
      Match, MatchProofs, MatchProps (path/match.go), which calls Utf8: the grammar
      of patterns and their meaning.
    - Calendar, CalendarProofs (time/time.go): the conversions
      between days and dates are the proleptic Gregorian calendar. Zone,
      ZoneProofs, ZoneProps (time/zoneinfo.go), which calls Calendar and the range
      loops of Utf8: the zone in use at an instant, and the TZ strings. Duration,
      DurationProofs (time/time.go): rounding and text. Time (time/time.go), which
      calls all of these: instants with their packed words, TimeProofs (well-formed
      words, Add, Sub, comparison), TimeRound (the 128-bit division), TimeDate
      (monotonic readings, Unix times, Date and the accessors), TimeProps: the
      properties.

    - BigHeap: slices in memory, and what a write leaves alone. BigArith
      (math/big/arith.go), BigWords (one and two words: the reciprocal and the
      two-by-one division), BigVec (the value [val] of a vector; each loop over
      vectors, which may overlap, computes with the values). BigNat (math/big/nat.go,
      and the word operations of natmul.go and natdiv.go); BigRes (what a method may
      write and what it returns; sum, difference, order), BigMul, BigBits, BigLen:
      each method on the values. BigDiv (natdiv.go and the stack of nat.go), BigLong
      (a quotient digit guessed from the top digits is right or one too large; a
      step of the long division, and its loop), BigStack (temporaries), BigDivide
      (division of any numbers below the recursive threshold). BigMult (natmul.go,
      with the signed sums of int.go): multiplication and squaring; BigKara (signed
      numbers, what a multiplication may assume and promises, and the steps of
      Karatsuba's method as steps between states in which [z] and the stack are
      shared), BigKaratsuba, BigProduct (products of any lengths; the recursion
      ends), BigSquare. BigProps: the properties.

    ** What the groups of theorems show

    Functional correctness against an independent definition (UTF-8, the bits of a
    word, ordered permutations, sequences, digit values, lexical rules, the
    calendar, instants as unbounded numbers, the integers that vectors of words
    denote); refinement of abstract sequences by
    linked objects; invariants (heaps, the counters of the locks, the queues of a
    channel); safety and progress of the locks and channels over all interleavings, and what
    each call on a channel returns and moves; round trips (encoding and decoding,
    formatting and parsing, dates and instants); exactness of arithmetic
    on words, and where it saturates or wraps; every error branch of the parsers.
    Where the code departs from its documentation the theorem of the function
    contains the example: see ParseInt at bit size 1, Match with classes and
    multi-byte runes behind a star, Remove after Init of a list, TZ strings
    before 1970, rounding at the least seconds, and the length of a number with
    leading zeros. [nonblocking_send_gives_up] of
    ChanProps runs a schedule that a comment of chan.go rules out.

    ** Bounds and assumptions

    Sizes are below 2^62 or 2^63 where an [int] counts them. The lock theorems hold
    for numbers of goroutines below the width of their counters. The locations of
    the time theorems are well formed: at least one zone, indices in range, sorted
    transitions. [Date] is exact for arguments up to 2^34 in absolute value. The
    runtime semaphore is a counter of tokens; spinning, the clock of the starvation
    mode and the choice of who wakes are left to the environment. So are, for a
    channel, which free sudog a goroutine gets and when it runs; the size of memory
    and of the channel header are those of the platform. A comparison
    function, a heap or a sort interface is any with the laws its documentation
    asks for. Machines are 64-bit. The receiver of a math/big method is apart from
    an operand, begins where it begins, or lies as each theorem says. The capacity
    that [append] chooses is any that fits.

    ** Not modelled

    The compiler, linker and tools: their passes need the semantics of their
    intermediate languages, and most of their lines are generated rules and
    tables. The runtime's collector, allocator, scheduler and maps: raw memory and
    threads; selects on several channels, timer channels and synctest bubbles. Cryptography, networking, the operating-system interface,
    reflection and what works through it (fmt, most of encoding, templates).
    Floating-point conversion and quoting in strconv, formatting and parsing of
    times, timers, zone files. Generated and vendored code. Of the modelled
    packages: cmp.Or, Sort wrappers that only rename, NumError.Error (quoting),
    the float accessors of Duration, the binary and text encodings of Time; of
    math/big the recursive division (an argument of the model of [div]; the theorem
    is about shorter divisors), modular exponentiation, square roots, primes,
    conversions, the types Rat and Float, and of Int all but the sums and products
    that Karatsuba's method uses.

    Candidates for an extension, in order: select, sync.WaitGroup and Once, the encodings of Time and
    ParseDuration, unicode/utf16, the varints of encoding/binary, minimal version
    selection of cmd/go. *)

From stdpp Require Export prelude.
From Stdlib Require Export ZArith Lia.

#[export] Set Default Goal Selector "!".

Open Scope Z_scope.

(* ------------------------------------------------------------------ *)
(** ** Results of Go code: a value, a run-time panic, or exhausted fuel *)

Inductive panic_reason :=
  | IndexOutOfRange
  | SliceOutOfRange
  | NilDereference
  | DivideByZero
  | IntegerOverflow
  | PanicMsg (msg : list Z).

Inductive res (A : Type) : Type :=
  | Ok (a : A)
  | Panic (why : panic_reason)
  | NoFuel.
Arguments Ok {A} a.
Arguments Panic {A} why.
Arguments NoFuel {A}.

#[export] Instance res_ret : MRet res := λ A a, Ok a.
#[export] Instance res_bind : MBind res := λ A B k m,
  match m with Ok a => k a | Panic w => Panic w | NoFuel => NoFuel end.

(** Total correctness: [wp m Q] says that [m] returns a value satisfying [Q];
    it neither panics nor runs out of fuel. *)
Definition wp {A} (m : res A) (Q : A → Prop) : Prop :=
  match m with Ok a => Q a | _ => False end.

Section wp_rules.
  Context {A B : Type}.
  Implicit Types (m : res A) (Q : A → Prop).

Lemma wp_ok (a : A) Q : Q a → wp (Ok a) Q.
Proof. done. Qed.

Lemma wp_ret (a : A) Q : Q a → wp (mret a) Q.
Proof. done. Qed.

Lemma wp_bind m (k : A → res B) (Q : B → Prop) :
  wp m (λ a, wp (k a) Q) → wp (m ≫= k) Q.
Proof. by destruct m. Qed.

Lemma wp_mono m Q Q' : wp m Q → (∀ a, Q a → Q' a) → wp m Q'.
Proof. destruct m; simpl; auto. Qed.

Lemma wp_exists m Q : wp m Q ↔ ∃ a, m = Ok a ∧ Q a.
Proof.
  split; [destruct m; simpl; [by eexists|done..]|by intros (a & -> & ?)].
Qed.

Lemma wp_eq m (a : A) : wp m (λ x, x = a) ↔ m = Ok a.
Proof. split; [destruct m; simpl; [by intros ->|done..]|by intros ->]. Qed.

Lemma wp_and m Q Q' : wp m Q → wp m Q' → wp m (λ a, Q a ∧ Q' a).
Proof. destruct m; simpl; auto. Qed.
End wp_rules.

(** A Go [for] loop. The body continues with a new loop state ([inl]) or
    leaves the loop with a result ([inr]: a [break] or a [return]). *)
Fixpoint loop {S R} (fuel : nat) (body : S → res (S + R)) (s : S) : res R :=
  match fuel with
  | O => NoFuel
  | Datatypes.S n =>
      r ← body s;
      match r with
      | inl s' => loop n body s'
      | inr r => Ok r
      end
  end.

(** Fuel for a loop whose measure is the integer [n]. *)
Definition fuel_of (n : Z) : nat := S (Z.to_nat n).

(** Total correctness of loops: an invariant and a non-negative measure that
    each iteration decreases and that the fuel exceeds. The measure may be part
    of the invariant, or a function of the loop state. *)
Lemma wp_loop_measure {S R} (I : S → Z → Prop) (fuel : nat)
    (body : S → res (S + R)) (s : S) (m : Z) (Q : R → Prop) :
  I s m →
  (∀ s m, I s m → 0 ≤ m) →
  m < Z.of_nat fuel →
  (∀ s m, I s m → wp (body s) (λ r,
     match r with inl s' => ∃ m', I s' m' ∧ m' < m | inr r => Q r end)) →
  wp (loop fuel body s) Q.
Proof.
  intros HI Hpos Hfuel Hbody. revert s m HI Hfuel.
  induction fuel as [|fuel IH]; intros s m HI Hfuel.
  { specialize (Hpos s m HI). lia. }
  simpl. apply wp_bind. eapply wp_mono; [by eapply Hbody|].
  intros [s'|r]; simpl; [|done]. intros (m' & HI' & Hm). apply (IH s' m'); [done|lia].
Qed.

Lemma wp_loop {S R} (I : S → Prop) (m : S → Z) (fuel : nat)
    (body : S → res (S + R)) (s : S) (Q : R → Prop) :
  I s →
  (∀ s, I s → 0 ≤ m s) →
  m s < Z.of_nat fuel →
  (∀ s, I s → wp (body s) (λ r,
     match r with inl s' => I s' ∧ m s' < m s | inr r => Q r end)) →
  wp (loop fuel body s) Q.
Proof.
  intros HI Hpos Hfuel Hbody.
  apply (wp_loop_measure (λ s n, I s ∧ n = m s) _ _ _ (m s)); [done| |done|].
  - intros s' ? [? ->]. auto.
  - intros s' ? [HI' ->]. eapply wp_mono; [by apply Hbody|].
    intros [s''|r]; [|done]. intros [? ?]. by exists (m s'').
Qed.

Lemma loop_S {S R} fuel (body : S → res (S + R)) (s : S) :
  loop (Datatypes.S fuel) body s =
  (r ← body s; match r with inl s' => loop fuel body s' | inr r => Ok r end).
Proof. done. Qed.

Lemma loop_ext {S R} fuel (body body' : S → res (S + R)) (s : S) :
  (∀ s, body s = body' s) → loop fuel body s = loop fuel body' s.
Proof.
  intros Hb. revert s. induction fuel as [|fuel IH]; intros s; [done|].
  rewrite !loop_S, Hb. destruct (body' s) as [[s'|r]| |]; simpl; auto.
Qed.

(** More fuel never changes a result. *)
Lemma loop_more {S R} (fuel fuel' : nat) (body : S → res (S + R)) (s : S) r :
  (fuel ≤ fuel')%nat → loop fuel body s = Ok r → loop fuel' body s = Ok r.
Proof.
  revert fuel' s. induction fuel as [|fuel IH]; intros fuel' s Hle; [done|].
  destruct fuel' as [|fuel']; [lia|]. rewrite !loop_S.
  destruct (body s) as [[s'|r']| |]; simpl; auto with lia.
Qed.

#[global] Arguments loop : simpl never.

(** Go's short-circuit [c && m] and [c || m], where evaluating [m] can panic. *)
Definition andM (c : bool) (m : res bool) : res bool := if c then m else Ok false.
Definition orM (c : bool) (m : res bool) : res bool := if c then Ok true else m.

(** A monadic left fold: Go's [for _, x := range l]. *)
Fixpoint foldM {A S} (f : S → A → res S) (l : list A) (s : S) : res S :=
  match l with
  | [] => Ok s
  | x :: l => s' ← f s x; foldM f l s'
  end.

Lemma wp_foldM {A S} (I : list A → S → Prop) (f : S → A → res S) (l : list A) s :
  I [] s →
  (∀ done x rest s, l = done ++ x :: rest → I done s →
     wp (f s x) (I (done ++ [x]))) →
  wp (foldM f l s) (I l).
Proof.
  intros H0 Hstep.
  enough (∀ done rest s, l = done ++ rest → I done s → wp (foldM f rest s) (I l))
    as H by exact (H [] l s eq_refl H0).
  clear H0 s. intros done rest. revert done.
  induction rest as [|x rest IH]; intros done s Hl HI; simpl.
  { rewrite app_nil_r in Hl. by subst. }
  apply wp_bind. eapply wp_mono; [by eapply Hstep|].
  intros s' HI'. apply (IH (done ++ [x])); [|done]. by rewrite <-app_assoc.
Qed.

(* ------------------------------------------------------------------ *)
(** ** Machine integers

    A Go integer is the [Z] it denotes; every operation that can wrap is
    followed by one of these. *)

Definition uwrap (w x : Z) : Z := x mod 2 ^ w.
Definition swrap (w x : Z) : Z := (x + 2 ^ (w - 1)) mod 2 ^ w - 2 ^ (w - 1).

Abbreviation u8 := (uwrap 8).
Abbreviation u16 := (uwrap 16).
Abbreviation u32 := (uwrap 32).
Abbreviation u64 := (uwrap 64).
Abbreviation i32 := (swrap 32).
Abbreviation i64 := (swrap 64).

Definition is_uint (w x : Z) : Prop := 0 ≤ x < 2 ^ w.
Definition is_sint (w x : Z) : Prop := - 2 ^ (w - 1) ≤ x < 2 ^ (w - 1).

Abbreviation byte := (is_uint 8).

#[export] Instance is_uint_dec w x : Decision (is_uint w x).
Proof. unfold is_uint. apply _. Defined.

Lemma uwrap_small w x : is_uint w x → uwrap w x = x.
Proof. apply Z.mod_small. Qed.

Lemma uwrap_range w x : 0 ≤ w → is_uint w (uwrap w x).
Proof. intros Hw. apply Z.mod_pos_bound. by apply Z.pow_pos_nonneg. Qed.

Lemma swrap_small w x : is_sint w x → 0 < w → swrap w x = x.
Proof.
  unfold is_sint, swrap. intros Hx Hw.
  assert (2 ^ w = 2 * 2 ^ (w - 1)) as Hp.
  { rewrite <-Z.pow_succ_r by lia. f_equal. lia. }
  rewrite Z.mod_small; lia.
Qed.

Lemma i64_small x : - 9223372036854775808 ≤ x < 9223372036854775808 → i64 x = x.
Proof. intros. apply swrap_small; [done|lia]. Qed.

Lemma i32_small x : - 2147483648 ≤ x < 2147483648 → i32 x = x.
Proof. intros. apply swrap_small; [done|lia]. Qed.

Lemma swrap_range w x : 0 < w → is_sint w (swrap w x).
Proof.
  unfold is_sint, swrap. intros Hw.
  assert (2 ^ w = 2 * 2 ^ (w - 1)) as Hp.
  { rewrite <-Z.pow_succ_r by lia. f_equal. lia. }
  pose proof (Z.mod_pos_bound (x + 2 ^ (w - 1)) (2 ^ w)
    ltac:(apply Z.pow_pos_nonneg; lia)). lia.
Qed.

Lemma uwrap_add_l w x y : uwrap w (uwrap w x + y) = uwrap w (x + y).
Proof. apply Zplus_mod_idemp_l. Qed.
Lemma uwrap_add_r w x y : uwrap w (x + uwrap w y) = uwrap w (x + y).
Proof. apply Zplus_mod_idemp_r. Qed.
Lemma uwrap_mul_l w x y : uwrap w (uwrap w x * y) = uwrap w (x * y).
Proof. apply Zmult_mod_idemp_l. Qed.
Lemma uwrap_mul_r w x y : uwrap w (x * uwrap w y) = uwrap w (x * y).
Proof. apply Zmult_mod_idemp_r. Qed.
Lemma uwrap_uwrap w x : uwrap w (uwrap w x) = uwrap w x.
Proof. unfold uwrap. apply Zmod_mod. Qed.

(** Bit operations as arithmetic, the form [lia] reasons about. *)
Lemma land_mask x k : 0 ≤ k → Z.land x (2 ^ k - 1) = x mod 2 ^ k.
Proof.
  intros Hk. rewrite <-Z.land_ones by done. f_equal.
  rewrite Z.ones_equiv. lia.
Qed.

Lemma testbit_high b k n : 0 ≤ b < 2 ^ k → k ≤ n → Z.testbit b n = false.
Proof.
  intros Hb Hkn. destruct (decide (k < 0)).
  { rewrite Z.pow_neg_r in Hb by done. lia. }
  rewrite <-(Z.mod_small b (2 ^ k)) by done. apply Z.mod_pow2_bits_high. lia.
Qed.

Lemma land_disjoint a b k :
  0 ≤ k → 0 ≤ b < 2 ^ k → Z.land (a * 2 ^ k) b = 0.
Proof.
  intros Hk Hb. apply Z.bits_inj'. intros n Hn. rewrite Z.land_spec, Z.bits_0.
  destruct (decide (n < k)).
  - by rewrite Z.mul_pow2_bits_low by lia.
  - rewrite (testbit_high b k) by lia. apply andb_false_r.
Qed.

Lemma lor_disjoint_add a b k :
  0 ≤ k → 0 ≤ b < 2 ^ k → Z.lor (a * 2 ^ k) b = a * 2 ^ k + b.
Proof.
  intros Hk Hb. pose proof (land_disjoint a b k Hk Hb) as Hd.
  rewrite <-Z.lxor_lor by done. symmetry. by apply Z.add_nocarry_lxor.
Qed.

Lemma lxor_disjoint_add a b k :
  0 ≤ k → 0 ≤ b < 2 ^ k → Z.lxor (a * 2 ^ k) b = a * 2 ^ k + b.
Proof.
  intros Hk Hb. symmetry. apply Z.add_nocarry_lxor. by apply land_disjoint.
Qed.

Lemma lor_shiftl a b k :
  0 ≤ k → 0 ≤ b < 2 ^ k → Z.lor (Z.shiftl a k) b = a * 2 ^ k + b.
Proof. intros Hk Hb. rewrite Z.shiftl_mul_pow2 by done. by apply lor_disjoint_add. Qed.

(** Facts about all bytes, by evaluation. *)
Lemma forall_byte (P : Z → bool) :
  forallb P (seqZ 0 256) = true → ∀ b, byte b → P b = true.
Proof.
  intros H b Hb. rewrite forallb_forall in H. apply H.
  apply list_elem_of_In, elem_of_seqZ. unfold is_uint in Hb. lia.
Qed.

(* ------------------------------------------------------------------ *)
(** ** Slices and strings as lists, indexed by Go's [int] *)

Definition len {A} (l : list A) : Z := Z.of_nat (length l).

Definition zget {A} (l : list A) (i : Z) : option A :=
  if decide (0 ≤ i) then l !! Z.to_nat i else None.

Definition zset {A} (l : list A) (i : Z) (x : A) : list A :=
  <[Z.to_nat i := x]> l.

(** [l[i]] and [l[i] = x], which panic outside [0 <= i < len(l)]. *)
Definition idx {A} (l : list A) (i : Z) : res A :=
  match zget l i with Some x => Ok x | None => Panic IndexOutOfRange end.

Definition store {A} (l : list A) (i : Z) (x : A) : res (list A) :=
  if decide (0 ≤ i < len l) then Ok (zset l i x) else Panic IndexOutOfRange.

(** [s[i:j]] of a string, or of a slice whose capacity is its length. *)
Definition slice {A} (l : list A) (i j : Z) : res (list A) :=
  if decide (0 ≤ i ∧ i ≤ j ∧ j ≤ len l)
  then Ok (take (Z.to_nat (j - i)) (drop (Z.to_nat i) l))
  else Panic SliceOutOfRange.

Definition slice_from {A} (l : list A) (i : Z) : res (list A) :=
  if decide (0 ≤ i ≤ len l) then Ok (drop (Z.to_nat i) l)
  else Panic SliceOutOfRange.

Definition slice_to {A} (l : list A) (j : Z) : res (list A) :=
  if decide (0 ≤ j ≤ len l) then Ok (take (Z.to_nat j) l)
  else Panic SliceOutOfRange.

#[global] Arguments idx : simpl never.
#[global] Arguments store : simpl never.
#[global] Arguments slice : simpl never.
#[global] Arguments slice_from : simpl never.
#[global] Arguments slice_to : simpl never.
#[global] Arguments len : simpl never.
#[global] Arguments zset : simpl never.
#[global] Arguments zget : simpl never.

Section lists.
  Context {A : Type}.
  Implicit Types (l : list A) (i j : Z) (x y : A).

Lemma len_nonneg l : 0 ≤ len l.
Proof. unfold len. lia. Qed.
Lemma len_nil : len (@nil A) = 0.
Proof. done. Qed.
Lemma len_cons x l : len (x :: l) = 1 + len l.
Proof. unfold len. simpl. lia. Qed.
Lemma len_app l l' : len (l ++ l') = len l + len l'.
Proof. unfold len. rewrite length_app. lia. Qed.
Lemma len_zset l i x : len (zset l i x) = len l.
Proof. unfold len, zset. by rewrite length_insert. Qed.
Lemma len_take l n : len (take n l) = Z.of_nat n `min` len l.
Proof. unfold len. rewrite length_take. lia. Qed.
Lemma len_drop l n : len (drop n l) = (len l - Z.of_nat n) `max` 0.
Proof. unfold len. rewrite length_drop. lia. Qed.
Lemma len_0_nil l : len l = 0 → l = [].
Proof. destruct l; [done|]. rewrite len_cons. pose proof (len_nonneg l). lia. Qed.

Lemma zget_is_Some l i : is_Some (zget l i) ↔ 0 ≤ i < len l.
Proof.
  unfold zget, len. case_decide; rewrite ?lookup_lt_is_Some.
  - lia.
  - split; [by intros []|lia].
Qed.
Lemma zget_Some_range l i x : zget l i = Some x → 0 ≤ i < len l.
Proof. intros H. apply zget_is_Some. by eexists. Qed.
Lemma zget_lt l i : 0 ≤ i < len l → ∃ x, zget l i = Some x.
Proof. by rewrite <-zget_is_Some. Qed.
Lemma zget_None l i : zget l i = None ↔ i < 0 ∨ len l ≤ i.
Proof. rewrite eq_None_not_Some, zget_is_Some. lia. Qed.
Lemma zget_nil i : zget (@nil A) i = None.
Proof. unfold zget. by case_decide. Qed.
Lemma zget_cons_0 x l : zget (x :: l) 0 = Some x.
Proof. done. Qed.
Lemma zget_cons x l i : 0 < i → zget (x :: l) i = zget l (i - 1).
Proof.
  intros Hi. unfold zget. rewrite !decide_True by lia.
  replace (Z.to_nat i) with (S (Z.to_nat (i - 1))) by lia. done.
Qed.
Lemma zget_app_l l l' i : i < len l → zget (l ++ l') i = zget l i.
Proof.
  unfold zget, len. intros. case_decide; [|done].
  rewrite lookup_app_l; [done|lia].
Qed.
Lemma zget_app_r l l' i : len l ≤ i → zget (l ++ l') i = zget l' (i - len l).
Proof.
  unfold zget, len. intros. rewrite !decide_True by lia.
  rewrite lookup_app_r by lia. f_equal. lia.
Qed.
Lemma zget_mid l x l' : zget (l ++ x :: l') (len l) = Some x.
Proof. rewrite zget_app_r by lia. by rewrite Z.sub_diag. Qed.

Lemma zget_zset_eq l i x : 0 ≤ i < len l → zget (zset l i x) i = Some x.
Proof.
  unfold zget, zset, len. intros. rewrite decide_True by lia.
  apply list_lookup_insert_eq. lia.
Qed.
Lemma zget_zset_ne l i j x : 0 ≤ i → i ≠ j → zget (zset l i x) j = zget l j.
Proof.
  unfold zget, zset. intros. case_decide; [|done].
  apply list_lookup_insert_ne. lia.
Qed.
Lemma zget_zset l i j x : 0 ≤ i < len l →
  zget (zset l i x) j = if decide (i = j) then Some x else zget l j.
Proof.
  intros. case_decide; subst; [by apply zget_zset_eq|apply zget_zset_ne; lia].
Qed.
Lemma zget_ext l l' : len l = len l' →
  (∀ i, 0 ≤ i < len l → zget l i = zget l' i) → l = l'.
Proof.
  unfold len. intros Hlen H. apply list_eq. intros n.
  destruct (decide (n < length l)%nat).
  - specialize (H (Z.of_nat n) ltac:(lia)). unfold zget in H.
    rewrite !decide_True, !Nat2Z.id in H by lia. done.
  - rewrite !lookup_ge_None_2; [done|lia..].
Qed.
Lemma zget_elem_of l i x : zget l i = Some x → x ∈ l.
Proof. unfold zget. case_decide; [|done]. apply list_elem_of_lookup_2. Qed.
Lemma elem_of_zget l x : x ∈ l ↔ ∃ i, zget l i = Some x.
Proof.
  rewrite list_elem_of_lookup. split.
  - intros [n Hn]. exists (Z.of_nat n). unfold zget.
    by rewrite decide_True, Nat2Z.id by lia.
  - intros [i Hi]. unfold zget in Hi. case_decide; [|done]. by eexists.
Qed.
Lemma zget_take l i n : i < Z.of_nat n → zget (take n l) i = zget l i.
Proof.
  unfold zget. intros. case_decide; [|done]. rewrite lookup_take_lt; [done|lia].
Qed.
Lemma zget_drop l i n : 0 ≤ i → zget (drop n l) i = zget l (Z.of_nat n + i).
Proof.
  unfold zget. intros. rewrite !decide_True by lia. rewrite lookup_drop.
  f_equal. lia.
Qed.

Lemma idx_Ok l i x : idx l i = Ok x ↔ zget l i = Some x.
Proof. unfold idx. destruct (zget l i); naive_solver. Qed.
Lemma idx_0 x0 l : idx (x0 :: l) 0 = Ok x0.
Proof. done. Qed.
Lemma idx_1 x0 x1 l : idx (x0 :: x1 :: l) 1 = Ok x1.
Proof. done. Qed.
Lemma idx_2 x0 x1 x2 l : idx (x0 :: x1 :: x2 :: l) 2 = Ok x2.
Proof. done. Qed.
Lemma idx_3 x0 x1 x2 x3 l : idx (x0 :: x1 :: x2 :: x3 :: l) 3 = Ok x3.
Proof. done. Qed.
Lemma store_0 x0 l v : store (x0 :: l) 0 v = Ok (v :: l).
Proof.
  unfold store. rewrite decide_True; [done|]. rewrite len_cons.
  pose proof (len_nonneg l). lia.
Qed.
Lemma store_cons x0 l i v : 0 < i →
  store (x0 :: l) i v = (l' ← store l (i - 1) v; mret (x0 :: l')).
Proof.
  intros Hi. unfold store. rewrite len_cons.
  destruct (decide (0 ≤ i - 1 < len l)).
  - rewrite decide_True by lia. unfold zset. simpl.
    by replace (Z.to_nat i) with (S (Z.to_nat (i - 1))) by lia.
  - by rewrite decide_False by lia.
Qed.
Lemma store_1 x0 x1 l v : store (x0 :: x1 :: l) 1 v = Ok (x0 :: v :: l).
Proof. rewrite store_cons by lia. change (1 - 1) with 0. by rewrite store_0. Qed.
Lemma store_2 x0 x1 x2 l v :
  store (x0 :: x1 :: x2 :: l) 2 v = Ok (x0 :: x1 :: v :: l).
Proof. rewrite store_cons by lia. change (2 - 1) with 1. by rewrite store_1. Qed.
Lemma store_3 x0 x1 x2 x3 l v :
  store (x0 :: x1 :: x2 :: x3 :: l) 3 v = Ok (x0 :: x1 :: x2 :: v :: l).
Proof. rewrite store_cons by lia. change (3 - 1) with 2. by rewrite store_2. Qed.
Lemma idx_in l i x : zget l i = Some x → idx l i = Ok x.
Proof. by intros ?%idx_Ok. Qed.
Lemma wp_idx l i (Q : A → Prop) :
  0 ≤ i < len l → (∀ x, zget l i = Some x → Q x) → wp (idx l i) Q.
Proof.
  intros Hi HQ. unfold idx. destruct (zget_lt l i Hi) as [x Hx].
  rewrite Hx. simpl. auto.
Qed.
Lemma wp_store l i x (Q : list A → Prop) :
  0 ≤ i < len l → Q (zset l i x) → wp (store l i x) Q.
Proof. intros. unfold store. by rewrite decide_True. Qed.
End lists.

(* ------------------------------------------------------------------ *)
(** ** Automation *)

Create HintDb golib.
Create Rewrite HintDb golen.
#[export] Hint Resolve len_nonneg uwrap_range swrap_range : golib.
#[export] Hint Rewrite @len_nil @len_cons @len_app @len_zset : golen.
Create Rewrite HintDb goidx.
#[export] Hint Rewrite @idx_0 @idx_1 @idx_2 @idx_3 : goidx.
#[export] Hint Rewrite @store_0 @store_1 @store_2 @store_3 : goidx.

Ltac simpl_len := autorewrite with golen in *.
Ltac solve_len := simpl_len; unfold len in *; simpl in *; lia.

(** Evaluate powers of two with literal exponents. *)
Ltac pow2_consts :=
  repeat match goal with
  | |- context [Z.pow 2 ?k] =>
      lazymatch k with Zpos _ => idtac | Z0 => idtac end;
      let v := eval vm_compute in (Z.pow 2 k) in change (Z.pow 2 k) with v
  | H : context [Z.pow 2 ?k] |- _ =>
      lazymatch k with Zpos _ => idtac | Z0 => idtac end;
      let v := eval vm_compute in (Z.pow 2 k) in change (Z.pow 2 k) with v in H
  end.

(** [lia] on goals with [/] and [mod] by constants. *)
Ltac dlia := pow2_consts; Z.div_mod_to_equations; lia.

(** Drop the wrap-arounds, innermost first, of the integers that [tac] shows to
    be in range. *)
Ltac no_wrap t :=
  lazymatch t with
  | context [swrap _ _] => fail | context [uwrap _ _] => fail | _ => idtac
  end.
Ltac unwrap_with tac :=
  repeat match goal with
  | |- context [swrap 64 ?x] => no_wrap x; rewrite (i64_small x) by tac
  | |- context [swrap 32 ?x] => no_wrap x; rewrite (i32_small x) by tac
  | |- context [uwrap ?w ?x] =>
      no_wrap x; rewrite (uwrap_small w x) by (unfold is_uint; pow2_consts; tac)
  end.
Ltac unwrap := unwrap_with lia.

(** Equality of explicit lists, element by element. *)
Ltac cons_eq := repeat first [reflexivity | apply (f_equal2 cons); [dlia|]].

(** One step of a total-correctness proof, following the program. *)
Ltac wp_step :=
  lazymatch goal with
  | |- wp (mret _) _ => apply wp_ret
  | |- wp (Ok _) _ => apply wp_ok
  | |- wp (_ ≫= _) _ => apply wp_bind
  | |- wp (idx _ _) _ => apply wp_idx; [|intros ? ?]
  | |- wp (store _ _ _) _ => apply wp_store
  | |- wp (if Z.ltb ?a ?b then _ else _) _ =>
      let H := fresh "Hlt" in destruct (Z.ltb_spec a b) as [H|H]
  | |- wp (if Z.leb ?a ?b then _ else _) _ =>
      let H := fresh "Hle" in destruct (Z.leb_spec a b) as [H|H]
  | |- wp (if Z.eqb ?a ?b then _ else _) _ =>
      let H := fresh "Heq" in destruct (Z.eqb_spec a b) as [H|H]
  | |- wp (if decide _ then _ else _) _ => case_decide
  | |- wp (let '(_, _) := ?p in _) _ =>
      let a := fresh "a" in let b := fresh "b" in destruct p as [a b] eqn:?
  end.
Ltac wp_steps := repeat (wp_step; simpl).

(** Case analysis on the integer tests of the goal, innermost first. *)
Ltac no_if t := lazymatch t with context [if _ then _ else _] => fail | _ => idtac end.
Ltac zcase :=
  match goal with
  | |- context [Z.ltb ?a ?b] => no_if a; no_if b; destruct (Z.ltb_spec a b)
  | |- context [Z.leb ?a ?b] => no_if a; no_if b; destruct (Z.leb_spec a b)
  | |- context [Z.eqb ?a ?b] => no_if a; no_if b; destruct (Z.eqb_spec a b)
  end; try (exfalso; lia); simpl.
Ltac zcases := repeat zcase.

(** Evaluate the integer tests of the goal that the context decides. *)
Ltac ztest :=
  match goal with
  | |- context [Z.ltb ?a ?b] => no_if a; no_if b; first
      [rewrite (proj2 (Z.ltb_lt a b)) by lia | rewrite (proj2 (Z.ltb_ge a b)) by lia]
  | |- context [Z.leb ?a ?b] => no_if a; no_if b; first
      [rewrite (proj2 (Z.leb_le a b)) by lia | rewrite (proj2 (Z.leb_gt a b)) by lia]
  | |- context [Z.eqb ?a ?b] => no_if a; no_if b; first
      [rewrite (proj2 (Z.eqb_eq a b)) by lia | rewrite (proj2 (Z.eqb_neq a b)) by lia]
  end.
Ltac ztests := repeat (progress (repeat ztest; simpl)).

(** Run the accesses to explicit list cells. *)
Ltac go_eval :=
  repeat (progress (autorewrite with goidx; cbn [mbind mret res_bind res_ret])).
