(* ===== verification/Utf8.v ===== *)
(** * Package unicode/utf8 (src/unicode/utf8/utf8.go) and the runtime's own
    decoder and encoder (src/runtime/utf8.go)

    Strings and byte slices are lists of bytes; a rune is the [Z] its [int32]
    denotes.  The theorems relate both implementations to the definition of
    UTF-8: the encoding of a Unicode scalar value, given as arithmetic in
    [utf8_encode]. *)

From S2P Require Import Prelude.

Definition RuneError : Z := 0xFFFD.
Definition RuneSelf : Z := 0x80.
Definition MaxRune : Z := 0x10FFFF.
Definition UTFMax : Z := 4.
Definition surrogateMin : Z := 0xD800.
Definition surrogateMax : Z := 0xDFFF.

Definition t1 : Z := 0x00.
Definition tx : Z := 0x80.
Definition t2 : Z := 0xC0.
Definition t3 : Z := 0xE0.
Definition t4 : Z := 0xF0.
Definition t5 : Z := 0xF8.
Definition maskx : Z := 0x3F.
Definition mask2 : Z := 0x1F.
Definition mask3 : Z := 0x0F.
Definition mask4 : Z := 0x07.
Definition rune1Max : Z := 2 ^ 7 - 1.
Definition rune2Max : Z := 2 ^ 11 - 1.
Definition rune3Max : Z := 2 ^ 16 - 1.
Definition locb : Z := 0x80.
Definition hicb : Z := 0xBF.
Definition xx : Z := 0xF1.
Definition as_ : Z := 0xF0.
Definition s1 : Z := 0x02.
Definition s2 : Z := 0x13.
Definition s3 : Z := 0x03.
Definition s4 : Z := 0x23.
Definition s5 : Z := 0x34.
Definition s6 : Z := 0x04.
Definition s7 : Z := 0x44.
Definition runeErrorByte0 : Z := Z.lor t3 (Z.shiftr RuneError 12).
Definition runeErrorByte1 : Z := Z.lor tx (Z.land (Z.shiftr RuneError 6) maskx).
Definition runeErrorByte2 : Z := Z.lor tx (Z.land RuneError maskx).

Definition first : list Z := [
  as_; as_; as_; as_; as_; as_; as_; as_; as_; as_; as_; as_; as_; as_; as_; as_;
  as_; as_; as_; as_; as_; as_; as_; as_; as_; as_; as_; as_; as_; as_; as_; as_;
  as_; as_; as_; as_; as_; as_; as_; as_; as_; as_; as_; as_; as_; as_; as_; as_;
  as_; as_; as_; as_; as_; as_; as_; as_; as_; as_; as_; as_; as_; as_; as_; as_;
  as_; as_; as_; as_; as_; as_; as_; as_; as_; as_; as_; as_; as_; as_; as_; as_;
  as_; as_; as_; as_; as_; as_; as_; as_; as_; as_; as_; as_; as_; as_; as_; as_;
  as_; as_; as_; as_; as_; as_; as_; as_; as_; as_; as_; as_; as_; as_; as_; as_;
  as_; as_; as_; as_; as_; as_; as_; as_; as_; as_; as_; as_; as_; as_; as_; as_;
  xx; xx; xx; xx; xx; xx; xx; xx; xx; xx; xx; xx; xx; xx; xx; xx;
  xx; xx; xx; xx; xx; xx; xx; xx; xx; xx; xx; xx; xx; xx; xx; xx;
  xx; xx; xx; xx; xx; xx; xx; xx; xx; xx; xx; xx; xx; xx; xx; xx;
  xx; xx; xx; xx; xx; xx; xx; xx; xx; xx; xx; xx; xx; xx; xx; xx;
  xx; xx; s1; s1; s1; s1; s1; s1; s1; s1; s1; s1; s1; s1; s1; s1;
  s1; s1; s1; s1; s1; s1; s1; s1; s1; s1; s1; s1; s1; s1; s1; s1;
  s2; s3; s3; s3; s3; s3; s3; s3; s3; s3; s3; s3; s3; s4; s3; s3;
  s5; s6; s6; s6; s7; xx; xx; xx; xx; xx; xx; xx; xx; xx; xx; xx
].

Record acceptRange := AcceptRange { lo : Z; hi : Z }.

Definition acceptRanges : list acceptRange :=
  [AcceptRange locb hicb; AcceptRange 0xA0 hicb; AcceptRange locb 0x9F;
   AcceptRange 0x90 hicb; AcceptRange locb 0x8F] ++
  replicate 11 (AcceptRange 0 0).

(** [b < lo || hi < b] *)
Definition outside (b l h : Z) : bool := (b <? l) || (h <? b).

Definition FullRune (p : list Z) : res bool :=
  let n := len p in
  if n =? 0 then mret false else
  p0 ← idx p 0;
  x ← idx first p0;
  if Z.land x 7 <=? n then mret true else
  accept ← idx acceptRanges (Z.shiftr x 4);
  bad1 ← (if 1 <? n then p1 ← idx p 1; mret (outside p1 (lo accept) (hi accept))
          else mret false);
  if bad1 : bool then mret true else
  bad2 ← (if 2 <? n then p2 ← idx p 2; mret (outside p2 locb hicb)
          else mret false);
  if bad2 : bool then mret true else mret false.

Definition FullRuneInString (s : list Z) : res bool :=
  let n := len s in
  if n =? 0 then mret false else
  s0 ← idx s 0;
  x ← idx first s0;
  if Z.land x 7 <=? n then mret true else
  accept ← idx acceptRanges (Z.shiftr x 4);
  bad1 ← (if 1 <? n then b1 ← idx s 1; mret (outside b1 (lo accept) (hi accept))
          else mret false);
  if bad1 : bool then mret true else
  bad2 ← (if 2 <? n then b2 ← idx s 2; mret (outside b2 locb hicb)
          else mret false);
  if bad2 : bool then mret true else mret false.

(** The slow path of [DecodeRune]. [rune(x) << 31 >> 31] is a shift of an
    [int32]: all ones when the low bit of [x] is set, zero otherwise. *)
Definition decodeRuneSlow (p : list Z) : res (Z * Z) :=
  let n := len p in
  if n <? 1 then mret (RuneError, 0) else
  p0 ← idx p 0;
  x ← idx first p0;
  if as_ <=? x then
    let mask := Z.shiftr (i32 (Z.shiftl x 31)) 31 in
    mret (Z.lor (Z.land p0 (Z.lnot mask)) (Z.land RuneError mask), 1)
  else
  let sz := Z.land x 7 in
  accept ← idx acceptRanges (Z.shiftr x 4);
  if n <? sz then mret (RuneError, 1) else
  b1 ← idx p 1;
  if outside b1 (lo accept) (hi accept) then mret (RuneError, 1) else
  if sz <=? 2 then
    mret (Z.lor (Z.shiftl (Z.land p0 mask2) 6) (Z.land b1 maskx), 2)
  else
  b2 ← idx p 2;
  if outside b2 locb hicb then mret (RuneError, 1) else
  if sz <=? 3 then
    mret (Z.lor (Z.lor (Z.shiftl (Z.land p0 mask3) 12)
                       (Z.shiftl (Z.land b1 maskx) 6)) (Z.land b2 maskx), 3)
  else
  b3 ← idx p 3;
  if outside b3 locb hicb then mret (RuneError, 1) else
  mret (Z.lor (Z.lor (Z.lor (Z.shiftl (Z.land p0 mask4) 18)
                            (Z.shiftl (Z.land b1 maskx) 12))
                     (Z.shiftl (Z.land b2 maskx) 6)) (Z.land b3 maskx), 4).

Definition DecodeRune (p : list Z) : res (Z * Z) :=
  match p with
  | b :: _ => if b <? RuneSelf then mret (b, 1) else decodeRuneSlow p
  | [] => decodeRuneSlow p
  end.

Definition decodeRuneInStringSlow (s : list Z) : res (Z * Z) :=
  let n := len s in
  if n <? 1 then mret (RuneError, 0) else
  s0 ← idx s 0;
  x ← idx first s0;
  if as_ <=? x then
    let mask := Z.shiftr (i32 (Z.shiftl x 31)) 31 in
    mret (Z.lor (Z.land s0 (Z.lnot mask)) (Z.land RuneError mask), 1)
  else
  let sz := Z.land x 7 in
  accept ← idx acceptRanges (Z.shiftr x 4);
  if n <? sz then mret (RuneError, 1) else
  b1 ← idx s 1;
  if outside b1 (lo accept) (hi accept) then mret (RuneError, 1) else
  if sz <=? 2 then
    mret (Z.lor (Z.shiftl (Z.land s0 mask2) 6) (Z.land b1 maskx), 2)
  else
  b2 ← idx s 2;
  if outside b2 locb hicb then mret (RuneError, 1) else
  if sz <=? 3 then
    mret (Z.lor (Z.lor (Z.shiftl (Z.land s0 mask3) 12)
                       (Z.shiftl (Z.land b1 maskx) 6)) (Z.land b2 maskx), 3)
  else
  b3 ← idx s 3;
  if outside b3 locb hicb then mret (RuneError, 1) else
  mret (Z.lor (Z.lor (Z.lor (Z.shiftl (Z.land s0 mask4) 18)
                            (Z.shiftl (Z.land b1 maskx) 12))
                     (Z.shiftl (Z.land b2 maskx) 6)) (Z.land b3 maskx), 4).

Definition DecodeRuneInString (s : list Z) : res (Z * Z) :=
  if negb (len s =? 0) then
    s0 ← idx s 0;
    if s0 <? RuneSelf then mret (s0, 1) else decodeRuneInStringSlow s
  else decodeRuneInStringSlow s.

Definition RuneStart (b : Z) : bool := negb (Z.land b 0xC0 =? 0x80).

(** The backward scan of [DecodeLastRune]:
    [for start--; start >= lim; start-- { if RuneStart(p[start]) { break } }]. *)
Definition scan_start (p : list Z) (start lim : Z) : res Z :=
  loop (fuel_of (start + 1))
    (λ start,
      if lim <=? start then
        b ← idx p start;
        if RuneStart b then mret (inr start) else mret (inl (start - 1))
      else mret (inr start))
    (start - 1).

Definition DecodeLastRune (p : list Z) : res (Z * Z) :=
  let end_ := len p in
  if end_ =? 0 then mret (RuneError, 0) else
  let start := end_ - 1 in
  r ← idx p start;
  if r <? RuneSelf then mret (r, 1) else
  let lim := Z.max (end_ - UTFMax) 0 in
  start ← scan_start p start lim;
  let start := if start <? 0 then 0 else start in
  tail ← slice p start end_;
  '(r, size) ← DecodeRune tail;
  if negb (start + size =? end_) then mret (RuneError, 1) else mret (r, size).

Definition DecodeLastRuneInString (s : list Z) : res (Z * Z) :=
  let end_ := len s in
  if end_ =? 0 then mret (RuneError, 0) else
  let start := end_ - 1 in
  r ← idx s start;
  if r <? RuneSelf then mret (r, 1) else
  let lim := Z.max (end_ - UTFMax) 0 in
  start ← scan_start s start lim;
  let start := if start <? 0 then 0 else start in
  tail ← slice s start end_;
  '(r, size) ← DecodeRuneInString tail;
  if negb (start + size =? end_) then mret (RuneError, 1) else mret (r, size).

Definition RuneLen (r : Z) : Z :=
  if r <? 0 then -1
  else if r <=? rune1Max then 1
  else if r <=? rune2Max then 2
  else if (surrogateMin <=? r) && (r <=? surrogateMax) then -1
  else if r <=? rune3Max then 3
  else if r <=? MaxRune then 4
  else -1.

(** [byte(r >> k)], [byte(r>>k)&maskx] *)
Definition rbyte (r k : Z) : Z := u8 (Z.shiftr r k).

(** [EncodeRune] writes into [p] and returns the number of bytes written;
    the model returns the written slice with it. *)
Definition encodeRuneNonASCII (p : list Z) (r : Z) : res (Z * list Z) :=
  let i := u32 r in
  if i <=? rune2Max then
    _ ← idx p 1;
    p ← store p 0 (Z.lor t2 (rbyte r 6));
    p ← store p 1 (Z.lor tx (Z.land (rbyte r 0) maskx));
    mret (2, p)
  else if (i <? surrogateMin) || ((surrogateMax <? i) && (i <=? rune3Max)) then
    _ ← idx p 2;
    p ← store p 0 (Z.lor t3 (rbyte r 12));
    p ← store p 1 (Z.lor tx (Z.land (rbyte r 6) maskx));
    p ← store p 2 (Z.lor tx (Z.land (rbyte r 0) maskx));
    mret (3, p)
  else if (rune3Max <? i) && (i <=? MaxRune) then
    _ ← idx p 3;
    p ← store p 0 (Z.lor t4 (rbyte r 18));
    p ← store p 1 (Z.lor tx (Z.land (rbyte r 12) maskx));
    p ← store p 2 (Z.lor tx (Z.land (rbyte r 6) maskx));
    p ← store p 3 (Z.lor tx (Z.land (rbyte r 0) maskx));
    mret (4, p)
  else
    _ ← idx p 2;
    p ← store p 0 runeErrorByte0;
    p ← store p 1 runeErrorByte1;
    p ← store p 2 runeErrorByte2;
    mret (3, p).

Definition EncodeRune (p : list Z) (r : Z) : res (Z * list Z) :=
  if u32 r <=? rune1Max then
    p ← store p 0 (u8 r); mret (1, p)
  else encodeRuneNonASCII p r.

Definition appendRuneNonASCII (p : list Z) (r : Z) : list Z :=
  let i := u32 r in
  if i <=? rune2Max then
    p ++ [Z.lor t2 (rbyte r 6); Z.lor tx (Z.land (rbyte r 0) maskx)]
  else if (i <? surrogateMin) || ((surrogateMax <? i) && (i <=? rune3Max)) then
    p ++ [Z.lor t3 (rbyte r 12); Z.lor tx (Z.land (rbyte r 6) maskx);
          Z.lor tx (Z.land (rbyte r 0) maskx)]
  else if (rune3Max <? i) && (i <=? MaxRune) then
    p ++ [Z.lor t4 (rbyte r 18); Z.lor tx (Z.land (rbyte r 12) maskx);
          Z.lor tx (Z.land (rbyte r 6) maskx); Z.lor tx (Z.land (rbyte r 0) maskx)]
  else p ++ [runeErrorByte0; runeErrorByte1; runeErrorByte2].

Definition AppendRune (p : list Z) (r : Z) : list Z :=
  if u32 r <=? rune1Max then p ++ [u8 r] else appendRuneNonASCII p r.

Definition ValidRune (r : Z) : bool :=
  if (0 <=? r) && (r <? surrogateMin) then true
  else if (surrogateMax <? r) && (r <=? MaxRune) then true
  else false.

(** The word-at-a-time test of [Valid], for a 64-bit machine. *)
Definition ptrSize : Z := 8.
Definition hiBits : Z := 0x8080808080808080.

Definition word (s : list Z) : res Z :=
  c0 ← idx s 0; c1 ← idx s 1; c2 ← idx s 2; c3 ← idx s 3;
  c4 ← idx s 4; c5 ← idx s 5; c6 ← idx s 6; c7 ← idx s 7;
  mret (Z.lor (Z.lor (Z.lor (Z.lor (Z.lor (Z.lor (Z.lor c0
    (Z.shiftl c1 8)) (Z.shiftl c2 16)) (Z.shiftl c3 24)) (Z.shiftl c4 32))
    (Z.shiftl c5 40)) (Z.shiftl c6 48)) (Z.shiftl c7 56)).

(** [word(p[i:]) | word(p[j:]) ...] over the given offsets. *)
Definition words (p : list Z) (offs : list Z) : res Z :=
  foldM (λ acc o, q ← slice_from p o; w ← word q; mret (Z.lor acc w)) offs 0.

Definition skip_ascii4 (p : list Z) : res (list Z) :=
  loop (fuel_of (len p))
    (λ p,
      if 4 * ptrSize <? len p then
        w ← words p [0; ptrSize; 2 * ptrSize; 3 * ptrSize];
        if Z.land w hiBits =? 0
        then p ← slice_from p (4 * ptrSize); mret (inl p)
        else mret (inr p)
      else mret (inr p)) p.

Definition skip_ascii (p : list Z) : res (list Z) :=
  if ptrSize <? len p then
    w ← words p [0];
    if Z.land w hiBits =? 0 then
      p ← slice_from p ptrSize;
      if 2 * ptrSize <? len p then
        w ← words p [0; ptrSize];
        if Z.land w hiBits =? 0 then
          p ← slice_from p (2 * ptrSize);
          skip_ascii4 p
        else mret p
      else mret p
    else mret p
  else mret p.

(** The multi-byte case of [Valid]: [inr false] is [return false]. *)
Definition valid_multi (p : list Z) (p0 : Z) : res (list Z + bool) :=
  x ← idx first p0;
  let size := Z.land x 7 in
  accept ← idx acceptRanges (Z.shiftr x 4);
  if size =? 2 then
    if len p <? 2 then mret (inr false) else
    p1 ← idx p 1;
    if outside p1 (lo accept) (hi accept) then mret (inr false) else
    p ← slice_from p 2; mret (inl p)
  else if size =? 3 then
    if len p <? 3 then mret (inr false) else
    p1 ← idx p 1;
    if outside p1 (lo accept) (hi accept) then mret (inr false) else
    p2 ← idx p 2;
    if outside p2 locb hicb then mret (inr false) else
    p ← slice_from p 3; mret (inl p)
  else if size =? 4 then
    if len p <? 4 then mret (inr false) else
    p1 ← idx p 1;
    if outside p1 (lo accept) (hi accept) then mret (inr false) else
    p2 ← idx p 2;
    if outside p2 locb hicb then mret (inr false) else
    p3 ← idx p 3;
    if outside p3 locb hicb then mret (inr false) else
    p ← slice_from p 4; mret (inl p)
  else mret (inr false).

Definition valid_step (p : list Z) : res (list Z + bool) :=
  if 0 <? len p then
    p0 ← idx p 0;
    if p0 <? RuneSelf then
      p ← slice_from p 1;
      p ← skip_ascii p;
      mret (inl p)
    else valid_multi p p0
  else mret (inr true).

Definition Valid (p : list Z) : res bool :=
  loop (fuel_of (len p)) valid_step p.

(** Module-level copy of [Valid] on strings. *)
Definition ValidString (s : list Z) : res bool :=
  loop (fuel_of (len s)) valid_step s.

(** ** The runtime's decoder and the [range] loop over a string *)

Definition in_range (b l h : Z) : bool := (l <=? b) && (b <=? h).

Definition decoderune (s : list Z) (k : Z) : res (Z * Z) :=
  if len s <=? k then mret (RuneError, k + 1) else
  s ← slice_from s k;
  s0 ← idx s 0;
  if (t2 <=? s0) && (s0 <? t3) then
    if negb (1 <? len s) then mret (RuneError, k + 1) else
    b1 ← idx s 1;
    if negb (in_range b1 locb hicb) then mret (RuneError, k + 1) else
    let r := Z.lor (Z.shiftl (Z.land s0 mask2) 6) (Z.land b1 maskx) in
    if rune1Max <? r then mret (r, k + 2) else mret (RuneError, k + 1)
  else if (t3 <=? s0) && (s0 <? t4) then
    if negb (2 <? len s) then mret (RuneError, k + 1) else
    b1 ← idx s 1;
    if negb (in_range b1 locb hicb) then mret (RuneError, k + 1) else
    b2 ← idx s 2;
    if negb (in_range b2 locb hicb) then mret (RuneError, k + 1) else
    let r := Z.lor (Z.lor (Z.shiftl (Z.land s0 mask3) 12)
                          (Z.shiftl (Z.land b1 maskx) 6)) (Z.land b2 maskx) in
    if (rune2Max <? r) && negb (in_range r surrogateMin surrogateMax)
    then mret (r, k + 3) else mret (RuneError, k + 1)
  else if (t4 <=? s0) && (s0 <? t5) then
    if negb (3 <? len s) then mret (RuneError, k + 1) else
    b1 ← idx s 1;
    if negb (in_range b1 locb hicb) then mret (RuneError, k + 1) else
    b2 ← idx s 2;
    if negb (in_range b2 locb hicb) then mret (RuneError, k + 1) else
    b3 ← idx s 3;
    if negb (in_range b3 locb hicb) then mret (RuneError, k + 1) else
    let r := Z.lor (Z.lor (Z.lor (Z.shiftl (Z.land s0 mask4) 18)
                                 (Z.shiftl (Z.land b1 maskx) 12))
                          (Z.shiftl (Z.land b2 maskx) 6)) (Z.land b3 maskx) in
    if (rune3Max <? r) && (r <=? MaxRune)
    then mret (r, k + 4) else mret (RuneError, k + 1)
  else mret (RuneError, k + 1).

(** The loop the compiler generates for [for i, r := range s]: the rune at
    [i] and the next index. *)
Definition range_next (s : list Z) (i : Z) : res (Z * Z) :=
  c ← idx s i;
  if c <? RuneSelf then mret (c, i + 1) else decoderune s i.

(** The (index, rune) pairs a [range] loop visits. *)
Definition range_string (s : list Z) : res (list (Z * Z)) :=
  loop (fuel_of (len s))
    (λ '(i, acc),
      if i <? len s then
        '(r, i') ← range_next s i;
        mret (inl (i', acc ++ [(i, r)]))
      else mret (inr acc)) (0, []).

Definition RuneCountInString (s : list Z) : res Z :=
  its ← range_string s;
  mret (foldl (λ n _, n + 1) 0 its).

Definition RuneCount (p : list Z) : res Z :=
  let np := len p in
  loop (fuel_of np)
    (λ n,
      if n <? np then
        c ← idx p n;
        if RuneSelf <=? c then
          q ← slice_from p n;
          m ← RuneCountInString q;
          mret (inr (n + m))
        else mret (inl (n + 1))
      else mret (inr n)) 0.

Definition countrunes (s : list Z) : res Z :=
  its ← range_string s;
  mret (foldl (λ n _, n + 1) 0 its).

Definition encoderune (p : list Z) (r : Z) : res (Z * list Z) :=
  let i := u32 r in
  if i <=? rune1Max then p ← store p 0 (u8 r); mret (1, p)
  else if i <=? rune2Max then
    _ ← idx p 1;
    p ← store p 0 (Z.lor t2 (rbyte r 6));
    p ← store p 1 (Z.lor tx (Z.land (rbyte r 0) maskx));
    mret (2, p)
  else
    let bad := (MaxRune <? i) || ((surrogateMin <=? i) && (i <=? surrogateMax)) in
    let r := if bad then RuneError else r in
    if bad || (i <=? rune3Max) then
      _ ← idx p 2;
      p ← store p 0 (Z.lor t3 (rbyte r 12));
      p ← store p 1 (Z.lor tx (Z.land (rbyte r 6) maskx));
      p ← store p 2 (Z.lor tx (Z.land (rbyte r 0) maskx));
      mret (3, p)
    else
      _ ← idx p 3;
      p ← store p 0 (Z.lor t4 (rbyte r 18));
      p ← store p 1 (Z.lor tx (Z.land (rbyte r 12) maskx));
      p ← store p 2 (Z.lor tx (Z.land (rbyte r 6) maskx));
      p ← store p 3 (Z.lor tx (Z.land (rbyte r 0) maskx));
      mret (4, p).

(* ------------------------------------------------------------------ *)
(** ** The definition of UTF-8 *)

(** Unicode scalar values, and their encoding (RFC 3629, section 3). *)
Definition scalar (r : Z) : Prop :=
  0 ≤ r ≤ 0x10FFFF ∧ ¬ (0xD800 ≤ r ≤ 0xDFFF).

#[export] Instance scalar_dec r : Decision (scalar r).
Proof. unfold scalar. apply _. Defined.

Definition utf8_encode (r : Z) : list Z :=
  if r <? 0x80 then [r]
  else if r <? 0x800 then [0xC0 + r / 64; 0x80 + r mod 64]
  else if r <? 0x10000 then
    [0xE0 + r / 4096; 0x80 + r / 64 mod 64; 0x80 + r mod 64]
  else
    [0xF0 + r / 262144; 0x80 + r / 4096 mod 64; 0x80 + r / 64 mod 64;
     0x80 + r mod 64].

(** The decoders as arithmetic on the leading bytes: the scalar value whose
    two-, three- or four-byte encoding these bytes are, if there is one. *)
Definition cont (b : Z) : bool := (0x80 <=? b) && (b <? 0xC0).

Definition dec2 (b0 b1 : Z) : option Z :=
  if (0xC2 <=? b0) && (b0 <? 0xE0) && cont b1
  then Some ((b0 - 0xC0) * 64 + (b1 - 0x80)) else None.
Definition dec3 (b0 b1 b2 : Z) : option Z :=
  let r := (b0 - 0xE0) * 4096 + (b1 - 0x80) * 64 + (b2 - 0x80) in
  if (0xE0 <=? b0) && (b0 <? 0xF0) && cont b1 && cont b2 && (0x800 <=? r) &&
     negb (in_range r 0xD800 0xDFFF)
  then Some r else None.
Definition dec4 (b0 b1 b2 b3 : Z) : option Z :=
  let r := (b0 - 0xF0) * 262144 + (b1 - 0x80) * 4096 + (b2 - 0x80) * 64
           + (b3 - 0x80) in
  if (0xF0 <=? b0) && (b0 <? 0xF8) && cont b1 && cont b2 && cont b3 &&
     in_range r 0x10000 0x10FFFF
  then Some r else None.

Definition or_error (o : option Z) (n : Z) : Z * Z :=
  match o with Some r => (r, n) | None => (RuneError, 1) end.

Definition decode (p : list Z) : Z * Z :=
  match p with
  | [] => (RuneError, 0)
  | b0 :: p =>
      if b0 <? 0x80 then (b0, 1) else
      if b0 <? 0xE0 then
        match p with b1 :: _ => or_error (dec2 b0 b1) 2 | _ => (RuneError, 1) end
      else if b0 <? 0xF0 then
        match p with
        | b1 :: b2 :: _ => or_error (dec3 b0 b1 b2) 3 | _ => (RuneError, 1) end
      else
        match p with
        | b1 :: b2 :: b3 :: _ => or_error (dec4 b0 b1 b2 b3) 4
        | _ => (RuneError, 1) end
  end.

(* ------------------------------------------------------------------ *)
(** ** The tables and the bit operations as arithmetic *)

Lemma land_x b : Z.land b maskx = b mod 64.
Proof. apply (land_mask b 6). lia. Qed.
Lemma land_2 b : Z.land b mask2 = b mod 32.
Proof. apply (land_mask b 5). lia. Qed.
Lemma land_3 b : Z.land b mask3 = b mod 16.
Proof. apply (land_mask b 4). lia. Qed.
Lemma land_4 b : Z.land b mask4 = b mod 8.
Proof. apply (land_mask b 3). lia. Qed.

Lemma pack2 a b : 0 ≤ b < 64 → Z.lor (Z.shiftl a 6) b = a * 64 + b.
Proof. apply (lor_shiftl a b 6). lia. Qed.
Lemma pack3 a b c : 0 ≤ b < 64 → 0 ≤ c < 64 →
  Z.lor (Z.lor (Z.shiftl a 12) (Z.shiftl b 6)) c = a * 4096 + b * 64 + c.
Proof.
  intros. rewrite lor_shiftl by (rewrite ?Z.shiftl_mul_pow2; lia).
  rewrite Z.shiftl_mul_pow2 by lia.
  replace (a * 2 ^ 12 + b * 2 ^ 6) with ((a * 64 + b) * 2 ^ 6) by lia.
  rewrite lor_disjoint_add; lia.
Qed.
Lemma pack4 a b c d : 0 ≤ b < 64 → 0 ≤ c < 64 → 0 ≤ d < 64 →
  Z.lor (Z.lor (Z.lor (Z.shiftl a 18) (Z.shiftl b 12)) (Z.shiftl c 6)) d
  = a * 262144 + b * 4096 + c * 64 + d.
Proof.
  intros. rewrite (lor_shiftl a) by (rewrite ?Z.shiftl_mul_pow2; lia).
  rewrite !Z.shiftl_mul_pow2 by lia.
  replace (a * 2 ^ 18 + b * 2 ^ 12) with ((a * 64 + b) * 2 ^ 12) by lia.
  rewrite lor_disjoint_add by lia.
  replace ((a * 64 + b) * 2 ^ 12 + c * 2 ^ 6)
    with ((a * 4096 + b * 64 + c) * 2 ^ 6) by lia.
  rewrite lor_disjoint_add; lia.
Qed.

Lemma mask_as p0 : Z.lor (Z.land p0 (Z.lnot (Z.shiftr (i32 (Z.shiftl as_ 31)) 31)))
  (Z.land RuneError (Z.shiftr (i32 (Z.shiftl as_ 31)) 31)) = p0.
Proof.
  change (Z.shiftr (i32 (Z.shiftl as_ 31)) 31) with 0.
  by rewrite Z.land_0_r, Z.lor_0_r, Z.land_m1_r.
Qed.
Lemma mask_xx p0 : Z.lor (Z.land p0 (Z.lnot (Z.shiftr (i32 (Z.shiftl xx 31)) 31)))
  (Z.land RuneError (Z.shiftr (i32 (Z.shiftl xx 31)) 31)) = RuneError.
Proof.
  change (Z.shiftr (i32 (Z.shiftl xx 31)) 31) with (-1).
  by rewrite Z.land_m1_r, Z.land_0_r.
Qed.


Definition size_of (b : Z) : Z :=
  if b <? 0xE0 then 2 else if b <? 0xF0 then 3 else 4.
Definition lo_of (b : Z) : Z :=
  if b =? 0xE0 then 0xA0 else if b =? 0xF0 then 0x90 else 0x80.
Definition hi_of (b : Z) : Z :=
  if b =? 0xED then 0x9F else if b =? 0xF4 then 0x8F else 0xBF.

Variant lead_class (b x : Z) : Prop :=
  | lead_ascii : b < 0x80 → x = as_ → lead_class b x
  | lead_bad : 0x80 ≤ b < 0xC2 ∨ 0xF5 ≤ b → x = xx → lead_class b x
  | lead_multi : 0xC2 ≤ b < 0xF5 → (as_ <=? x) = false →
      Z.land x 7 = size_of b →
      idx acceptRanges (Z.shiftr x 4) = Ok (AcceptRange (lo_of b) (hi_of b)) →
      lead_class b x.

Lemma first_lookup b : byte b → ∃ x, idx first b = Ok x ∧ lead_class b x.
Proof.
  intros Hb.
  pose proof (forall_byte (λ b,
    match idx first b with
    | Ok x =>
        if b <? 0x80 then x =? as_
        else if (b <? 0xC2) || (0xF5 <=? b) then x =? xx
        else negb (as_ <=? x) && (Z.land x 7 =? size_of b) &&
             match idx acceptRanges (Z.shiftr x 4) with
             | Ok a => (lo a =? lo_of b) && (hi a =? hi_of b)
             | _ => false
             end
    | _ => false
    end) ltac:(vm_compute; reflexivity) b Hb) as H.
  cbv beta in H. destruct (idx first b) as [x| |]; [|done..].
  exists x. split; [done|]. unfold is_uint in Hb.
  destruct (Z.ltb_spec b 0x80); [constructor 1; lia|].
  destruct (Z.ltb_spec b 0xC2); [constructor 2; simpl in H; lia|].
  destruct (Z.leb_spec 0xF5 b); [constructor 2; simpl in H; lia|].
  simpl in H. apply andb_prop in H as [[Ha Hc]%andb_prop Hd].
  destruct (idx acceptRanges _) as [[l h]| |] eqn:E; [|done..]. simpl in Hd.
  constructor 3; [lia..|]. rewrite E. repeat f_equal; lia.
Qed.

Lemma size_of_cases b :
  size_of b = 2 ∧ b < 0xE0 ∨ size_of b = 3 ∧ 0xE0 ≤ b < 0xF0 ∨
  size_of b = 4 ∧ 0xF0 ≤ b.
Proof. unfold size_of. zcases; lia. Qed.

(** Unfold the byte tests of the decoders. *)
Ltac dec_tests :=
  unfold dec2, dec3, dec4, in_range, cont, outside, size_of, lo_of, hi_of, locb, hicb.

Lemma len4_2 {A} (x y : A) l n : n ≤ 2 → (len (x :: y :: l) <? n) = false.
Proof. rewrite !len_cons. pose proof (len_nonneg l). lia. Qed.
Lemma len4_3 {A} (x y z : A) l n : n ≤ 3 → (len (x :: y :: z :: l) <? n) = false.
Proof. rewrite !len_cons. pose proof (len_nonneg l). lia. Qed.
Lemma len4_4 {A} (x y z w : A) l n : n ≤ 4 → (len (x :: y :: z :: w :: l) <? n) = false.
Proof. rewrite !len_cons. pose proof (len_nonneg l). lia. Qed.
Lemma decodeRuneSlow_decode p :
  Forall byte p → decodeRuneSlow p = Ok (decode p).
Proof.
  intros Hp. unfold decodeRuneSlow. destruct p as [|b0 p]; [done|].
  apply Forall_cons in Hp as [Hb0 Hp]. 
  replace (len (b0 :: p) <? 1) with false by (rewrite len_cons; pose proof (len_nonneg p); lia).
  rewrite idx_0; simpl. destruct (first_lookup b0 Hb0) as (x & -> & Hx); simpl.
  unfold is_uint in Hb0.
  destruct Hx as [Hr ->|Hr ->|Hr Hx1 -> ->]. 
  { change (as_ <=? as_) with true. cbv iota. rewrite mask_as. unfold decode. zcases. done. }
  { change (as_ <=? xx) with true. cbv iota. rewrite mask_xx. unfold decode. 
    destruct p as [|b1 [|b2 [|b3 p]]]; unfold dec2, dec3, dec4, in_range, cont; zcases; done. }
  rewrite Hx1. simpl.
  pose proof (size_of_cases b0) as Hs.
  destruct p as [|b1 p]; [unfold size_of, decode; zcases; done|].
  apply Forall_cons in Hp as [Hb1 Hp]. rewrite idx_1; simpl.
  destruct Hs as [[-> Hs]|Hs].
  { rewrite ?len4_4, ?len4_3, ?len4_2 by lia; cbv iota. unfold decode. dec_tests. rewrite land_2, land_x, pack2 by dlia. zcases. all: try done; repeat f_equal; dlia. }
  destruct p as [|b2 p]; [destruct Hs as [[-> Hs]|[-> Hs]]; unfold decode; zcases; done|].
  apply Forall_cons in Hp as [Hb2 Hp]. rewrite idx_2; simpl.
  destruct Hs as [[-> Hs]|[-> Hs]].
  { rewrite ?len4_4, ?len4_3, ?len4_2 by lia; cbv iota. unfold decode. dec_tests. rewrite land_3, !land_x, pack3 by dlia. zcases. all: try done; repeat f_equal; dlia. }
  destruct p as [|b3 p]; [unfold decode; zcases; done|].
  apply Forall_cons in Hp as [Hb3 Hp]. rewrite idx_3; simpl.
  rewrite ?len4_4, ?len4_3, ?len4_2 by lia; cbv iota. unfold decode. dec_tests. rewrite land_4, !land_x, pack4 by dlia. zcases. all: try done; repeat f_equal; dlia.
Qed.


Lemma DecodeRune_decode p : Forall byte p → DecodeRune p = Ok (decode p).
Proof.
  intros Hp. unfold DecodeRune. destruct p as [|b p]; [done|].
  destruct (Z.ltb_spec b RuneSelf) as [H|H].
  - unfold RuneSelf in H. simpl. by rewrite (proj2 (Z.ltb_lt _ _) H).
  - by apply decodeRuneSlow_decode.
Qed.

Lemma DecodeRuneInString_DecodeRune s : DecodeRuneInString s = DecodeRune s.
Proof.
  unfold DecodeRuneInString, DecodeRune. destruct s as [|b s]; [done|].
  replace (len (b :: s) =? 0) with false
    by (rewrite len_cons; pose proof (len_nonneg s); lia).
  rewrite idx_0. done.
Qed.

Lemma FullRuneInString_FullRune s : FullRuneInString s = FullRune s.
Proof. done. Qed.

Lemma slice_from_drop {A} (l : list A) k :
  0 ≤ k ≤ len l → slice_from l k = Ok (drop (Z.to_nat k) l).
Proof. intros. unfold slice_from. by rewrite decide_True. Qed.

Lemma len_lt_2 {A} (x y : A) l n : n ≤ 1 → (n <? len (x :: y :: l)) = true.
Proof. rewrite !len_cons. pose proof (len_nonneg l). lia. Qed.
Lemma len_lt_3 {A} (x y z : A) l n : n ≤ 2 → (n <? len (x :: y :: z :: l)) = true.
Proof. rewrite !len_cons. pose proof (len_nonneg l). lia. Qed.
Lemma len_lt_4 {A} (x y z w : A) l n : n ≤ 3 → (n <? len (x :: y :: z :: w :: l)) = true.
Proof. rewrite !len_cons. pose proof (len_nonneg l). lia. Qed.

(** The runtime's decoder computes the same function. *)
Lemma decoderune_decode s k b0 q :
  Forall byte s → 0 ≤ k < len s → drop (Z.to_nat k) s = b0 :: q → 0x80 ≤ b0 →
  decoderune s k = Ok (let '(r, n) := decode (b0 :: q) in (r, k + n)).
Proof.
  intros Hs Hk Hd Hb. unfold decoderune.
  replace (len s <=? k) with false by lia.
  rewrite slice_from_drop, Hd by lia. simpl.
  assert (Forall byte (b0 :: q)) as Hq by (rewrite <-Hd; by apply Forall_drop).
  apply Forall_cons in Hq as [Hb0 Hq]. unfold is_uint in Hb0. clear Hs Hk Hd.
  replace (b0 <? 128) with false by lia.
  unfold t2, t3, t4, t5.
  destruct q as [|b1 q].
  { unfold or_error. zcases; done. }
  apply Forall_cons in Hq as [Hb1 Hq]. 
  destruct (Z.ltb_spec b0 0xE0).
  { ztests. unfold rune1Max. rewrite !len_lt_2 by lia. unfold or_error; dec_tests. rewrite ?idx_1. simpl.
    rewrite land_2, land_x, pack2 by dlia. zcases; try done; repeat f_equal; dlia. }
  destruct q as [|b2 q].
  { unfold or_error. zcases; try done. }
  apply Forall_cons in Hq as [Hb2 Hq].
  destruct (Z.ltb_spec b0 0xF0).
  { ztests. unfold rune2Max, surrogateMin, surrogateMax. rewrite !len_lt_3 by lia. unfold or_error; dec_tests. rewrite ?idx_1. simpl. rewrite ?idx_2. simpl.
    rewrite land_3, !land_x, pack3 by dlia. zcases; try done; repeat f_equal; dlia. }
  destruct q as [|b3 q].
  { unfold or_error. zcases; try done. }
  apply Forall_cons in Hq as [Hb3 Hq].
  ztests. unfold rune3Max, MaxRune. rewrite !len_lt_4 by lia. unfold or_error; dec_tests. rewrite ?idx_1. simpl. rewrite ?idx_2. simpl.
  rewrite ?idx_3. simpl.
  rewrite land_4, !land_x, pack4 by dlia. zcases; try done; repeat f_equal; dlia.
Qed.


(* ------------------------------------------------------------------ *)
(** ** Decoding inverts the definition of UTF-8 *)

Lemma utf8_encode_byte r : scalar r → Forall byte (utf8_encode r).
Proof.
  unfold scalar, utf8_encode, is_uint. intros Hr.
  zcases; repeat constructor; dlia.
Qed.

Lemma utf8_encode_len r : 1 ≤ len (utf8_encode r) ≤ 4.
Proof. unfold utf8_encode. zcases; unfold len; simpl; lia. Qed.

Lemma utf8_encode_nonempty r : utf8_encode r ≠ [].
Proof. unfold utf8_encode. zcases; done. Qed.

Lemma decode_encode r rest :
  scalar r → decode (utf8_encode r ++ rest) = (r, len (utf8_encode r)).
Proof.
  unfold scalar, utf8_encode. intros Hr.
  destruct (Z.ltb_spec r 0x80); [simpl; by ztests|].
  destruct (Z.ltb_spec r 0x800).
  { simpl. unfold or_error; dec_tests. rewrite (proj2 (Z.ltb_ge (192 + r / 64) 128)) by dlia.
    rewrite (proj2 (Z.ltb_lt (192 + r / 64) 224)) by dlia.
    zcases; try (exfalso; dlia). unfold len; simpl. f_equal. dlia. }
  destruct (Z.ltb_spec r 0x10000).
  { simpl. unfold or_error; dec_tests. rewrite (proj2 (Z.ltb_ge (224 + r / 4096) 128)) by dlia.
    rewrite (proj2 (Z.ltb_ge (224 + r / 4096) 224)) by dlia.
    rewrite (proj2 (Z.ltb_lt (224 + r / 4096) 240)) by dlia.
    zcases; try (exfalso; dlia). all: unfold len; simpl; f_equal; dlia. }
  simpl. unfold or_error; dec_tests. rewrite (proj2 (Z.ltb_ge (240 + r / 262144) 128)) by dlia.
  rewrite (proj2 (Z.ltb_ge (240 + r / 262144) 224)) by dlia.
  rewrite (proj2 (Z.ltb_ge (240 + r / 262144) 240)) by dlia.
  zcases; try (exfalso; dlia). all: unfold len; simpl; f_equal; dlia.
Qed.


Lemma dec2_encode b0 b1 r :
  dec2 b0 b1 = Some r → scalar r ∧ utf8_encode r = [b0; b1].
Proof.
  dec_tests. intros H. case_match eqn:E; [|done]. simplify_eq.
  rewrite !andb_true_iff in E. unfold scalar, utf8_encode.
  split; [lia|]. ztests. repeat f_equal; dlia.
Qed.

Lemma dec3_encode b0 b1 b2 r :
  dec3 b0 b1 b2 = Some r → scalar r ∧ utf8_encode r = [b0; b1; b2].
Proof.
  dec_tests. cbv zeta. intros H. case_match eqn:E; [|done]. simplify_eq.
  rewrite !andb_true_iff, negb_true_iff, andb_false_iff in E.
  unfold scalar, utf8_encode. split; [lia|]. ztests. repeat f_equal; dlia.
Qed.

Lemma dec4_encode b0 b1 b2 b3 r :
  dec4 b0 b1 b2 b3 = Some r → scalar r ∧ utf8_encode r = [b0; b1; b2; b3].
Proof.
  dec_tests. cbv zeta. intros H. case_match eqn:E; [|done]. simplify_eq.
  rewrite !andb_true_iff in E.
  unfold scalar, utf8_encode. split; [lia|]. ztests. repeat f_equal; dlia.
Qed.

(** The outcome of decoding a non-empty input. *)
Variant decode_outcome (p : list Z) : Z * Z → Prop :=
  | decode_scalar r rest : scalar r → p = utf8_encode r ++ rest →
      decode_outcome p (r, len (utf8_encode r))
  | decode_error : (∀ r rest, scalar r → p ≠ utf8_encode r ++ rest) →
      decode_outcome p (RuneError, 1).

Lemma decode_not_encoding p :
  decode p = (RuneError, 1) → ∀ r rest, scalar r → p ≠ utf8_encode r ++ rest.
Proof.
  intros Hd r rest Hr ->. rewrite decode_encode in Hd by done.
  injection Hd as -> Hl. by vm_compute in Hl.
Qed.

Lemma or_error_outcome p o n :
  decode p = or_error o n →
  (∀ r, o = Some r → scalar r ∧ ∃ rest, p = utf8_encode r ++ rest ∧
                                        len (utf8_encode r) = n) →
  decode_outcome p (or_error o n).
Proof.
  intros Hd Ho. destruct o as [r|].
  - destruct (Ho r eq_refl) as (Hr & rest & Hp & <-). by econstructor.
  - apply decode_error. by apply decode_not_encoding.
Qed.

Lemma decode_cases p :
  Forall byte p → p ≠ [] → decode_outcome p (decode p).
Proof.
  intros Hp Hne. destruct p as [|b0 p]; [done|].
  apply Forall_cons in Hp as [Hb0 Hp]. unfold is_uint in Hb0.
  assert (decode (b0 :: p) = (RuneError, 1) →
    decode_outcome (b0 :: p) (RuneError, 1)) as Herr.
  { intros. apply decode_error. by apply decode_not_encoding. }
  unfold decode at 1 in Herr. unfold decode at 1.
  destruct (Z.ltb_spec b0 0x80).
  { replace (b0, 1) with (b0, len (utf8_encode b0))
      by (unfold utf8_encode; by ztests).
    apply (decode_scalar _ _ p); [unfold scalar; lia|].
    unfold utf8_encode. by ztests. }
  destruct (Z.ltb_spec b0 0xE0) as [H1|H1].
  { destruct p as [|b1 p]; [by apply Herr|].
    apply or_error_outcome; [unfold decode; by ztests|].
    intros r [Hr He]%dec2_encode. split; [done|]. exists p. by rewrite He. }
  destruct (Z.ltb_spec b0 0xF0) as [H2|H2].
  { destruct p as [|b1 [|b2 p]]; [by apply Herr..|].
    apply or_error_outcome; [unfold decode; by ztests|].
    intros r [Hr He]%dec3_encode. split; [done|]. exists p. by rewrite He. }
  destruct p as [|b1 [|b2 [|b3 p]]]; [by apply Herr..|].
  apply or_error_outcome; [unfold decode; by ztests|].
  intros r [Hr He]%dec4_encode. split; [done|]. exists p. by rewrite He.
Qed.

(** An encoding is not a prefix of a different one. *)
Lemma utf8_encode_inj r r' rest rest' :
  scalar r → scalar r' →
  utf8_encode r ++ rest = utf8_encode r' ++ rest' → r = r' ∧ rest = rest'.
Proof.
  intros Hr Hr' Heq.
  assert (decode (utf8_encode r ++ rest) = decode (utf8_encode r' ++ rest'))
    as Hd by by rewrite Heq.
  rewrite !decode_encode in Hd by done. injection Hd as -> _.
  split; [done|]. by apply app_inv_head in Heq.
Qed.


(* ------------------------------------------------------------------ *)
(** ** Encoding *)

(** The scalar value actually encoded: invalid runes become [RuneError]. *)
Definition valid_or_error (r : Z) : Z := if decide (scalar r) then r else RuneError.

Lemma lor_t2 x : 0 ≤ x < 32 → Z.lor t2 x = 0xC0 + x.
Proof. apply (lor_disjoint_add 6 x 5). lia. Qed.
Lemma lor_t3 x : 0 ≤ x < 16 → Z.lor t3 x = 0xE0 + x.
Proof. apply (lor_disjoint_add 14 x 4). lia. Qed.
Lemma lor_t4 x : 0 ≤ x < 8 → Z.lor t4 x = 0xF0 + x.
Proof. apply (lor_disjoint_add 30 x 3). lia. Qed.
Lemma lor_tx x : Z.lor tx (Z.land x maskx) = 0x80 + x mod 64.
Proof. rewrite land_x. apply (lor_disjoint_add 2 (x mod 64) 6); dlia. Qed.
Lemma rbyte_eq r k : 0 ≤ k → rbyte r k = (r / 2 ^ k) mod 256.
Proof. intros. unfold rbyte, uwrap. by rewrite Z.shiftr_div_pow2. Qed.

Lemma u32_scalar r : is_sint 32 r →
  (0 ≤ r ∧ u32 r = r) ∨ (r < 0 ∧ ¬ scalar r ∧ MaxRune < u32 r).
Proof.
  unfold is_sint, scalar, uwrap, MaxRune. intros Hr.
  destruct (decide (0 ≤ r)); [left; split; [done|]|right]; dlia.
Qed.

(** The byte expressions of the encoders, as the definition of UTF-8. *)
Lemma enc2_bytes r : 0x80 ≤ r < 0x800 →
  [Z.lor t2 (rbyte r 6); Z.lor tx (Z.land (rbyte r 0) maskx)] = utf8_encode r.
Proof.
  intros. rewrite lor_tx, !rbyte_eq, lor_t2 by dlia.
  unfold utf8_encode. ztests. cons_eq.
Qed.
Lemma enc3_bytes r : 0x800 ≤ r < 0x10000 →
  [Z.lor t3 (rbyte r 12); Z.lor tx (Z.land (rbyte r 6) maskx);
   Z.lor tx (Z.land (rbyte r 0) maskx)] = utf8_encode r.
Proof.
  intros. rewrite !lor_tx, !rbyte_eq, lor_t3 by dlia.
  unfold utf8_encode. ztests. cons_eq.
Qed.
Lemma enc4_bytes r : 0x10000 ≤ r ≤ 0x10FFFF →
  [Z.lor t4 (rbyte r 18); Z.lor tx (Z.land (rbyte r 12) maskx);
   Z.lor tx (Z.land (rbyte r 6) maskx); Z.lor tx (Z.land (rbyte r 0) maskx)]
  = utf8_encode r.
Proof.
  intros. rewrite !lor_tx, !rbyte_eq, lor_t4 by dlia.
  unfold utf8_encode. ztests. cons_eq.
Qed.

Lemma AppendRune_encode p r :
  is_sint 32 r → AppendRune p r = p ++ utf8_encode (valid_or_error r).
Proof.
  intros Hr. unfold AppendRune, appendRuneNonASCII, valid_or_error.
  unfold rune1Max, rune2Max, rune3Max, surrogateMin, surrogateMax.
  destruct (u32_scalar r Hr) as [[H ->]|(H & Hs & Hu)].
  2:{ unfold MaxRune in *. rewrite decide_False by done. ztests. done. }
  unfold MaxRune. case_decide as Hs; unfold scalar in Hs.
  - destruct (Z.leb_spec r (2 ^ 7 - 1)).
    { unfold uwrap, utf8_encode. ztests. by rewrite Z.mod_small by lia. }
    zcases; f_equal; first [apply enc2_bytes|apply enc3_bytes|apply enc4_bytes]; lia.
  - zcases; done.
Qed.

Lemma RuneLen_spec r :
  RuneLen r = if decide (scalar r) then len (utf8_encode r) else -1.
Proof.
  unfold RuneLen, utf8_encode, rune1Max, rune2Max, rune3Max, surrogateMin,
    surrogateMax, MaxRune, scalar.
  case_decide; zcases; try done; lia.
Qed.

Lemma ValidRune_spec r : ValidRune r = bool_decide (scalar r).
Proof.
  unfold ValidRune, surrogateMin, surrogateMax, MaxRune, scalar.
  case_bool_decide; zcases; try done; lia.
Qed.


(** Writing [e] at the start of [p], the contract of the encoders. *)
Definition write_prefix (p e : list Z) : res (Z * list Z) :=
  if len e <=? len p then Ok (len e, e ++ drop (length e) p)
  else Panic IndexOutOfRange.

Lemma write2 p a b : 
  (_ ← idx p 1; p ← store p 0 a; p ← store p 1 b; mret (2, p))
  = write_prefix p [a; b].
Proof.
  unfold write_prefix. destruct p as [|x0 [|x1 p]]; [done..|].
  rewrite !len_cons. pose proof (len_nonneg p).
  rewrite (proj2 (Z.leb_le _ _)) by (rewrite len_nil; lia).
  by go_eval.
Qed.

Lemma write3 p a b c :
  (_ ← idx p 2; p ← store p 0 a; p ← store p 1 b; p ← store p 2 c; mret (3, p))
  = write_prefix p [a; b; c].
Proof.
  unfold write_prefix. destruct p as [|x0 [|x1 [|x2 p]]]; [done..|].
  rewrite !len_cons. pose proof (len_nonneg p).
  rewrite (proj2 (Z.leb_le _ _)) by (rewrite len_nil; lia).
  by go_eval.
Qed.

Lemma write4 p a b c d :
  (_ ← idx p 3; p ← store p 0 a; p ← store p 1 b; p ← store p 2 c;
   p ← store p 3 d; mret (4, p)) = write_prefix p [a; b; c; d].
Proof.
  unfold write_prefix. destruct p as [|x0 [|x1 [|x2 [|x3 p]]]]; [done..|].
  rewrite !len_cons. pose proof (len_nonneg p).
  rewrite (proj2 (Z.leb_le _ _)) by (rewrite len_nil; lia).
  by go_eval.
Qed.

Lemma write1 p a : (p ← store p 0 a; mret (1, p)) = write_prefix p [a].
Proof.
  unfold write_prefix. destruct p as [|x0 p]; [done|].
  rewrite !len_cons. pose proof (len_nonneg p).
  rewrite (proj2 (Z.leb_le _ _)) by (rewrite len_nil; lia).
  by rewrite store_0.
Qed.

Lemma EncodeRune_encode p r :
  is_sint 32 r → EncodeRune p r = write_prefix p (utf8_encode (valid_or_error r)).
Proof.
  intros Hr. unfold EncodeRune, encodeRuneNonASCII, valid_or_error.
  rewrite write1, write2, !write3, write4.
  unfold rune1Max, rune2Max, rune3Max, surrogateMin, surrogateMax.
  destruct (u32_scalar r Hr) as [[H ->]|(H & Hs & Hu)].
  2:{ unfold MaxRune in *. rewrite decide_False by done. ztests. done. }
  unfold MaxRune. case_decide as Hs; unfold scalar in Hs.
  - destruct (Z.leb_spec r (2 ^ 7 - 1)).
    { unfold uwrap, utf8_encode. ztests. by rewrite Z.mod_small by lia. }
    zcases; f_equal; first [apply enc2_bytes|apply enc3_bytes|apply enc4_bytes]; lia.
  - zcases; done.
Qed.

Lemma encoderune_encode p r :
  is_sint 32 r → encoderune p r = write_prefix p (utf8_encode (valid_or_error r)).
Proof.
  intros Hr. unfold encoderune, valid_or_error.
  rewrite write1, write2, !write3, write4.
  unfold rune1Max, rune2Max, rune3Max, surrogateMin, surrogateMax.
  destruct (u32_scalar r Hr) as [[H ->]|(H & Hs & Hu)].
  2:{ unfold MaxRune in *. rewrite decide_False by done. ztests. done. }
  unfold MaxRune. case_decide as Hs; unfold scalar in Hs.
  - destruct (Z.leb_spec r (2 ^ 7 - 1)).
    { unfold uwrap, utf8_encode. ztests. by rewrite Z.mod_small by lia. }
    zcases; f_equal; first [apply enc2_bytes|apply enc3_bytes|apply enc4_bytes]; lia.
  - zcases; done.
Qed.


(* ------------------------------------------------------------------ *)
(** ** Complete and incomplete inputs *)

(** [p] is cut short: more bytes could complete it to an encoding. *)
Definition truncated (p : list Z) : Prop :=
  ∃ r rest, scalar r ∧ rest ≠ [] ∧ utf8_encode r = p ++ rest.

Definition lead_ok (b0 : Z) : bool := (0xC2 <=? b0) && (b0 <? 0xF5).

Definition incomplete (p : list Z) : bool :=
  match p with
  | [] => true
  | [b0] => lead_ok b0
  | [b0; b1] =>
      lead_ok b0 && (2 <? size_of b0) && negb (outside b1 (lo_of b0) (hi_of b0))
  | [b0; b1; b2] =>
      lead_ok b0 && (3 <? size_of b0) && negb (outside b1 (lo_of b0) (hi_of b0))
      && cont b2
  | _ => false
  end.

Lemma outside_cont b : outside b locb hicb = negb (cont b).
Proof. unfold outside, cont, locb, hicb. zcases; lia. Qed.

Lemma FullRune_incomplete p :
  Forall byte p → FullRune p = Ok (negb (incomplete p)).
Proof.
  intros Hp. unfold FullRune. destruct p as [|b0 p]; [done|].
  apply Forall_cons in Hp as [Hb0 Hp].
  replace (len (b0 :: p) =? 0) with false
    by (rewrite len_cons; pose proof (len_nonneg p); lia).
  rewrite idx_0. cbn [mbind res_bind].
  destruct (first_lookup b0 Hb0) as (x & -> & Hx). cbn [mbind res_bind].
  assert (∀ n, n ≤ 1 → n <=? len (b0 :: p) = true) as Hlen
    by (intros; rewrite len_cons; pose proof (len_nonneg p); lia).
  destruct Hx as [Hr ->|Hr ->|Hr Hx1 -> ->].
  1,2: rewrite Hlen by (by vm_compute); unfold incomplete, lead_ok;
    destruct p as [|b1 [|b2 [|b3 p]]]; zcases; try done; exfalso; lia.
  pose proof (size_of_cases b0) as Hs. cbn [mbind res_bind].
  unfold incomplete, lead_ok.
  destruct p as [|b1 [|b2 [|b3 p]]]; autorewrite with golen; go_eval.
  - ztests. done.
  - rewrite (proj2 (Z.leb_le 194 b0)), (proj2 (Z.ltb_lt b0 245)) by lia.
    change (1 <? 1 + (1 + 0)) with true. change (2 <? 1 + (1 + 0)) with false.
    destruct (outside b1 _ _); go_eval; zcases; done.
  - rewrite (proj2 (Z.leb_le 194 b0)), (proj2 (Z.ltb_lt b0 245)) by lia.
    change (1 <? 1 + (1 + (1 + 0))) with true. change (2 <? 1 + (1 + (1 + 0))) with true.
    rewrite outside_cont.
    destruct (outside b1 _ _), (cont b2); go_eval; zcases; done.
  - pose proof (len_nonneg p). by rewrite (proj2 (Z.leb_le _ _)) by lia.
Qed.

Lemma truncated_dec2 b0 b1 : is_Some (dec2 b0 b1) → truncated [b0].
Proof. intros [r [Hr He]%dec2_encode]. by exists r, [b1]. Qed.
Lemma truncated_dec3 b0 b1 b2 :
  is_Some (dec3 b0 b1 b2) → truncated [b0] ∧ truncated [b0; b1].
Proof.
  intros [r [Hr He]%dec3_encode]. split; [by exists r, [b1; b2]|by exists r, [b2]].
Qed.
Lemma truncated_dec4 b0 b1 b2 b3 :
  is_Some (dec4 b0 b1 b2 b3) →
  truncated [b0] ∧ truncated [b0; b1] ∧ truncated [b0; b1; b2].
Proof.
  intros [r [Hr He]%dec4_encode].
  split_and!; [by exists r, [b1; b2; b3]|by exists r, [b2; b3]|by exists r, [b3]].
Qed.

(** The accepted second bytes are exactly those with a completion. *)
Lemma dec2_Some b0 : 0xC2 ≤ b0 < 0xE0 → is_Some (dec2 b0 0x80).
Proof. intros. unfold dec2, cont. ztests. by eexists. Qed.
Lemma dec3_Some b0 b1 : 0xE0 ≤ b0 < 0xF0 →
  outside b1 (lo_of b0) (hi_of b0) = false → is_Some (dec3 b0 b1 0x80).
Proof.
  unfold outside, lo_of, hi_of. intros H0 H1. apply orb_false_iff in H1 as [H1 H2].
  revert H1 H2. dec_tests. zcases; intros; try (exfalso; lia); by eexists.
Qed.
Lemma dec4_Some b0 b1 b2 : 0xF0 ≤ b0 < 0xF5 →
  outside b1 (lo_of b0) (hi_of b0) = false → cont b2 = true →
  is_Some (dec4 b0 b1 b2 0x80).
Proof.
  unfold outside, lo_of, hi_of. intros H0 H1. apply orb_false_iff in H1 as [H1 H2].
  revert H1 H2. dec_tests. zcases; intros; try (exfalso; lia); by eexists.
Qed.
Lemma second_ok b0 : outside (lo_of b0) (lo_of b0) (hi_of b0) = false.
Proof. unfold outside, lo_of, hi_of. by zcases. Qed.

Lemma incomplete_truncated p : incomplete p = true → truncated p.
Proof.
  unfold incomplete, lead_ok, size_of.
  destruct p as [|b0 [|b1 [|b2 [|b3 p]]]]; [..|done];
    rewrite ?andb_true_iff, ?negb_true_iff; intros Hc.
  - exists 0, [0]. split; [unfold scalar; lia|done].
  - destruct (decide (b0 < 0xE0)).
    { eapply truncated_dec2, dec2_Some. lia. }
    destruct (decide (b0 < 0xF0)).
    { eapply truncated_dec3, dec3_Some, second_ok. lia. }
    eapply truncated_dec4, (dec4_Some b0 _ 0x80), eq_refl; [lia|apply second_ok].
  - destruct Hc as [[Hb Hs] Ho].
    destruct (decide (b0 < 0xF0)).
    { eapply truncated_dec3, dec3_Some; [|done].
      destruct (Z.ltb_spec b0 0xE0); lia. }
    eapply truncated_dec4, (dec4_Some b0 _ 0x80), eq_refl; [lia|done].
  - destruct Hc as [[[Hb Hs] Ho] Hc].
    eapply truncated_dec4, dec4_Some; [|done..].
    destruct (Z.ltb_spec b0 0xE0), (Z.ltb_spec b0 0xF0); lia.
Qed.

Lemma truncated_incomplete p : truncated p → incomplete p = true.
Proof.
  intros (r & rest & Hr & Hne & He). unfold scalar in Hr. revert He. unfold utf8_encode.
  unfold incomplete, lead_ok.
  destruct (Z.ltb_spec r 0x80); [|destruct (Z.ltb_spec r 0x800); [|
    destruct (Z.ltb_spec r 0x10000)]]; 
  destruct p as [|b0 [|b1 [|b2 [|b3 p]]]]; simpl; intros He; simplify_eq; try done;
    unfold outside, size_of, lo_of, hi_of, cont.
  - zcases; try done; exfalso; dlia.
  - zcases; try done; exfalso; dlia.
  - zcases; try done; exfalso; dlia.
  - zcases; try done; exfalso; dlia.
  - zcases; try done; exfalso; dlia.
  - zcases; try done; exfalso; dlia.
  - destruct p; done.
Qed.

Lemma FullRune_spec p : Forall byte p →
  ∃ b, FullRune p = Ok b ∧ (b = false ↔ truncated p).
Proof.
  intros Hp. exists (negb (incomplete p)). split; [by apply FullRune_incomplete|].
  rewrite negb_false_iff. split; [apply incomplete_truncated|apply truncated_incomplete].
Qed.


