(* ===== verification/Utf8Props.v ===== *)
(** * Properties of unicode/utf8: validity, decoding backwards, counting, and
    the contracts of the decoders and encoders. *)

From S2P Require Import Prelude Utf8.

(* ------------------------------------------------------------------ *)
(** ** Validity of whole inputs *)

(** [p] is a sequence of encoded scalar values. *)
Definition valid_utf8 (p : list Z) : Prop :=
  ∃ rs, Forall scalar rs ∧ p = concat (utf8_encode <$> rs).

Lemma valid_utf8_nil : valid_utf8 [].
Proof. by exists []. Qed.

Lemma valid_utf8_encode r p :
  scalar r → valid_utf8 (utf8_encode r ++ p) ↔ valid_utf8 p.
Proof.
  intros Hr. split; intros (rs & Hrs & Hp).
  - destruct rs as [|r' rs].
    { pose proof (utf8_encode_nonempty r). by destruct (utf8_encode r). }
    apply Forall_cons in Hrs as [Hr' Hrs].
    apply utf8_encode_inj in Hp as [-> ->]; [|done..]. by exists rs.
  - exists (r :: rs). split; [by constructor|]. simpl. by rewrite Hp.
Qed.

Lemma valid_utf8_ascii a p :
  Forall (λ b, 0 ≤ b < 0x80) a → valid_utf8 (a ++ p) ↔ valid_utf8 p.
Proof.
  induction 1 as [|b a Hb _ IH]; simpl; [done|]. rewrite <-IH.
  replace (b :: a ++ p) with (utf8_encode b ++ (a ++ p))
    by (unfold utf8_encode; by ztests).
  apply valid_utf8_encode. unfold scalar. lia.
Qed.

Lemma hiBits_byte c k : byte c → k ∈ [0; 8; 16; 24; 32; 40; 48; 56] →
  Z.land (Z.shiftl c k) hiBits = 0 → c < 0x80.
Proof.
  intros Hc Hk. assert (∀ c, byte c → (Z.land (Z.shiftl c k) hiBits =? 0) = (c <? 0x80)) as H.
  { clear Hc c. intros c Hc. rewrite <-eqb_true_iff. revert c Hc. apply forall_byte.
    repeat (apply elem_of_cons in Hk as [->|Hk]; [vm_compute; reflexivity|]).
    by apply elem_of_nil in Hk. }
  specialize (H c Hc). lia.
Qed.

Lemma word_ascii p :
  Forall byte p → 8 ≤ len p →
  ∃ w, word p = Ok w ∧
       (Z.land w hiBits = 0 → Forall (λ b, 0 ≤ b < 0x80) (take 8 p)).
Proof.
  intros Hp Hlen.
  do 8 (destruct p as [|? p]; [exfalso; by apply Hlen|];
        apply Forall_cons in Hp as [? Hp]).
  eexists. split; [unfold word; reflexivity|].
  rewrite !Z.land_lor_distr_l, !Z.lor_eq_0_iff.
  intros [[[[[[[E0 E1] E2] E3] E4] E5] E6] E7].
  rewrite <-(Z.shiftl_0_r z) in E0.
  apply hiBits_byte in E0, E1, E2, E3, E4, E5, E6, E7; try done;
    [|by apply list_elem_of_In; simpl; tauto..].
  unfold is_uint in *. simpl. repeat constructor; lia.
Qed.

Lemma words_ascii p offs :
  Forall byte p → (∀ o, o ∈ offs → 0 ≤ o ∧ o + 8 ≤ len p) →
  wp (words p offs) (λ w, Z.land w hiBits = 0 →
    ∀ o, o ∈ offs → Forall (λ b, 0 ≤ b < 0x80) (take 8 (drop (Z.to_nat o) p))).
Proof.
  intros Hp Hoffs. unfold words.
  apply (wp_foldM (λ done w, Z.land w hiBits = 0 →
    ∀ o, o ∈ done → Forall (λ b, 0 ≤ b < 0x80) (take 8 (drop (Z.to_nat o) p)))).
  { intros _ o Ho. by apply elem_of_nil in Ho. }
  intros done o rest w -> IH.
  destruct (Hoffs o) as [Ho1 Ho2]; [set_solver|].
  rewrite slice_from_drop by lia. cbn [mbind res_bind].
  destruct (word_ascii (drop (Z.to_nat o) p)) as (w' & -> & Hw').
  { by apply Forall_drop. }
  { rewrite len_drop. lia. }
  simpl. rewrite Z.land_lor_distr_l, Z.lor_eq_0_iff. intros [Hw ?] o' Ho'.
  apply elem_of_app in Ho' as [Ho'|Ho']; [by apply IH|].
  apply list_elem_of_singleton in Ho' as ->. by apply Hw'.
Qed.

(** [q] is what remains of [p] after some ASCII bytes. *)
Definition ascii_suffix (p q : list Z) : Prop :=
  ∃ a, p = a ++ q ∧ Forall (λ b, 0 ≤ b < 0x80) a.

Lemma ascii_suffix_refl p : ascii_suffix p p.
Proof. by exists []. Qed.
Lemma ascii_suffix_trans p q r :
  ascii_suffix p q → ascii_suffix q r → ascii_suffix p r.
Proof.
  intros (a & -> & Ha) (b & -> & Hb). exists (a ++ b).
  split; [by rewrite app_assoc|by apply Forall_app].
Qed.
Lemma ascii_suffix_byte p q : ascii_suffix p q → Forall byte p → Forall byte q.
Proof. by intros (a & -> & _) [_ ?]%Forall_app. Qed.
Lemma ascii_suffix_len p q : ascii_suffix p q → len q ≤ len p.
Proof. intros (a & -> & _). rewrite len_app. pose proof (len_nonneg a). lia. Qed.
Lemma ascii_suffix_valid p q : ascii_suffix p q → valid_utf8 p ↔ valid_utf8 q.
Proof. intros (a & -> & Ha). by apply valid_utf8_ascii. Qed.

Lemma ascii_suffix_drop p n :
  Forall (λ b, 0 ≤ b < 0x80) (take n p) → ascii_suffix p (drop n p).
Proof. intros H. exists (take n p). split; [by rewrite take_drop|done]. Qed.

Lemma take_split {A} (l : list A) n m :
  take (n + m) l = take n l ++ take m (drop n l).
Proof.
  revert l. induction n as [|n IH]; intros [|x l]; simpl; [done..| |].
  - by rewrite take_nil.
  - by rewrite IH.
Qed.

Lemma skip_words p offs n :
  Forall byte p → n ≤ len p →
  offs = (λ k, 8 * Z.of_nat k) <$> seq 0 (Z.to_nat (n / 8)) → n mod 8 = 0 →
  wp (words p offs) (λ w, Z.land w hiBits = 0 →
    ascii_suffix p (drop (Z.to_nat n) p)).
Proof.
  intros Hp Hn -> Hm. eapply wp_mono.
  { apply words_ascii; [done|]. intros o (k & -> & Hk%elem_of_seq)%list_elem_of_fmap.
    pose proof (len_nonneg p). dlia. }
  intros w Hw H0. specialize (Hw H0). apply ascii_suffix_drop.
  destruct (decide (n < 0)) as [|Hpos].
  { replace (Z.to_nat n) with 0%nat by lia. constructor. }
  assert (∀ m, (m ≤ Z.to_nat (n / 8))%nat →
    Forall (λ b, 0 ≤ b < 0x80) (take (m * 8) p)) as Hall.
  { induction m as [|m IH]; intros Hle; [constructor|].
    replace (S m * 8)%nat with (m * 8 + 8)%nat by lia.
    rewrite take_split. apply Forall_app. split; [apply IH; lia|].
    specialize (Hw (8 * Z.of_nat m)).
    replace (Z.to_nat (8 * Z.of_nat m)) with (m * 8)%nat in Hw by lia.
    apply Hw, list_elem_of_fmap. exists m. split; [done|]. apply elem_of_seq. lia. }
  specialize (Hall (Z.to_nat (n / 8)) ltac:(lia)).
  by replace (Z.to_nat (n / 8) * 8)%nat with (Z.to_nat n) in Hall by dlia.
Qed.

Lemma skip_ascii4_spec p :
  Forall byte p → wp (skip_ascii4 p) (ascii_suffix p).
Proof.
  intros Hp. unfold skip_ascii4.
  apply (wp_loop (ascii_suffix p) len).
  - apply ascii_suffix_refl.
  - intros. apply len_nonneg.
  - unfold fuel_of. pose proof (len_nonneg p). lia.
  - intros q Hq. unfold ptrSize. wp_step; [|by wp_step].
    wp_step. eapply wp_mono; [apply (skip_words q _ 32)|].
    1: by eapply ascii_suffix_byte. 1: lia. 1,2: done.
    intros w Hw. wp_step; [|by wp_step].
    wp_step. rewrite slice_from_drop by lia. simpl. split.
    + eapply ascii_suffix_trans; [done|by apply Hw].
    + rewrite len_drop. lia.
Qed.

Lemma skip_ascii_spec p :
  Forall byte p → wp (skip_ascii p) (ascii_suffix p).
Proof.
  intros Hp. unfold skip_ascii, ptrSize.
  wp_step; [|apply ascii_suffix_refl].
  wp_step. eapply wp_mono; [apply (skip_words p _ 8)|]; [done|lia|done..|].
  intros w Hw. wp_step; [|apply ascii_suffix_refl].
  wp_step. rewrite slice_from_drop by lia. specialize (Hw Heq). simpl.
  set (q := drop _ p) in *. assert (Forall byte q) as Hq by by eapply ascii_suffix_byte.
  wp_step; [|done].
  wp_step. eapply wp_mono; [apply (skip_words q _ 16)|]; [done|lia|done..|].
  intros w' Hw'. wp_step; [|done].
  wp_step. rewrite slice_from_drop by lia. specialize (Hw' Heq0). simpl.
  eapply wp_mono; [apply skip_ascii4_spec; by eapply ascii_suffix_byte|].
  intros r Hr. by eapply ascii_suffix_trans, ascii_suffix_trans.
Qed.


Lemma valid_multi_decode b0 q :
  Forall byte (b0 :: q) → 0x80 ≤ b0 →
  valid_multi (b0 :: q) b0 =
  Ok (let n := snd (decode (b0 :: q)) in
      if n =? 1 then inr false else inl (drop (Z.to_nat n) (b0 :: q))).
Proof.
  intros [Hb0 Hq]%Forall_cons Hge. unfold valid_multi.
  destruct (first_lookup b0 Hb0) as (x & -> & Hx). cbn [mbind res_bind].
  unfold is_uint in Hb0. destruct Hx as [Hr ->|Hr ->|Hr Hx1 -> Ha]; [lia| |].
  { change (idx acceptRanges (Z.shiftr xx 4)) with (Ok (AcceptRange 0 0)). cbn [mbind res_bind].
    change (Z.land xx 7) with 1. simpl.
    destruct q as [|b1 [|b2 [|b3 q]]]; unfold or_error; dec_tests; zcases; done. }
  rewrite Ha. cbn [mbind res_bind lo hi].
  unfold decode. rewrite (proj2 (Z.ltb_ge b0 128)) by lia. 
  pose proof (size_of_cases b0) as Hs.
  destruct Hs as [[-> Hs]|[[-> Hs]|[-> Hs]]].
  - rewrite (proj2 (Z.ltb_lt b0 224)) by lia.
    destruct q as [|b1 q]; [done|]. apply Forall_cons in Hq as [Hb1 Hq].
    rewrite ?len4_2 by lia. go_eval. rewrite !slice_from_drop
      by (autorewrite with golen; pose proof (len_nonneg q); lia).
    unfold or_error; dec_tests. simpl. zcases; done.
  - rewrite (proj2 (Z.ltb_ge b0 224)), (proj2 (Z.ltb_lt b0 240)) by lia.
    destruct q as [|b1 [|b2 q]]; [done..|]. rewrite !Forall_cons in Hq.
    rewrite ?len4_3 by lia. go_eval. rewrite !slice_from_drop
      by (autorewrite with golen; pose proof (len_nonneg q); lia).
    unfold or_error; dec_tests. simpl. zcases; done.
  - rewrite (proj2 (Z.ltb_ge b0 224)), (proj2 (Z.ltb_ge b0 240)) by lia.
    destruct q as [|b1 [|b2 [|b3 q]]]; [done..|]. rewrite !Forall_cons in Hq.
    rewrite ?len4_4 by lia. go_eval. rewrite !slice_from_drop
      by (autorewrite with golen; pose proof (len_nonneg q); lia).
    unfold or_error; dec_tests. simpl. zcases; done.
Qed.

Lemma valid_step_spec p :
  Forall byte p →
  wp (valid_step p) (λ r, match r with
    | inl q => Forall byte q ∧ len q < len p ∧ (valid_utf8 p ↔ valid_utf8 q)
    | inr b => b = true ↔ valid_utf8 p
    end).
Proof.
  intros Hp. unfold valid_step. destruct p as [|b0 q].
  { simpl. split; [intros; apply valid_utf8_nil|done]. }
  rewrite (proj2 (Z.ltb_lt 0 _))
    by (rewrite len_cons; pose proof (len_nonneg q); lia).
  go_eval. unfold RuneSelf. destruct (Z.ltb_spec b0 0x80).
  - rewrite slice_from_drop by (rewrite len_cons; pose proof (len_nonneg q); lia).
    apply Forall_cons in Hp as [Hb0 Hq]. unfold is_uint in Hb0. simpl.
    apply wp_bind. eapply wp_mono; [by apply skip_ascii_spec|].
    intros r Hr. change (ascii_suffix q r) in Hr. simpl. rewrite len_cons. pose proof (ascii_suffix_len _ _ Hr).
    split_and!; [by eapply ascii_suffix_byte|lia|].
    rewrite <-(ascii_suffix_valid q r) by done.
    change (b0 :: q) with ([b0] ++ q). apply valid_utf8_ascii. repeat constructor; lia.
  - rewrite valid_multi_decode by done. cbn zeta.
    destruct (decode_cases (b0 :: q) Hp ltac:(done)) as [r rest Hr He|Herr].
    + simpl. assert (1 < len (utf8_encode r)) as Hlen.
      { unfold utf8_encode in *. revert He. zcases; [|done..].
        simpl. intros ?. simplify_eq. lia. }
      rewrite (proj2 (Z.eqb_neq _ 1)) by lia. simpl. rewrite He.
      replace (Z.to_nat (len (utf8_encode r))) with (length (utf8_encode r))
        by (unfold len; lia).
      rewrite drop_app_length.
      rewrite He in Hp. apply Forall_app in Hp as [_ Hrest].
      split_and!; [done|rewrite len_app; lia|by apply valid_utf8_encode].
    + simpl. split; [done|]. intros (rs & Hrs & Hp'). destruct rs as [|r rs]; [done|].
      apply Forall_cons in Hrs as [Hr Hrs]. by apply (Herr r (concat (utf8_encode <$> rs))) in Hr.
Qed.

Lemma Valid_total p : Forall byte p → wp (Valid p) (λ b, b = true ↔ valid_utf8 p).
Proof.
  intros Hp. unfold Valid.
  apply (wp_loop (λ q, Forall byte q ∧ (valid_utf8 p ↔ valid_utf8 q)) len); [done|..].
  - intros. apply len_nonneg.
  - unfold fuel_of. pose proof (len_nonneg p). lia.
  - intros q [Hq Hv]. eapply wp_mono; [by apply valid_step_spec|].
    intros [r|b]; [|by rewrite Hv]. intros (? & ? & Hr). split; [split; [done|by rewrite Hv, Hr]|done].
Qed.


(* ------------------------------------------------------------------ *)
(** ** Decoding backwards *)

Lemma RuneStart_cont b : byte b → RuneStart b = negb (cont b).
Proof.
  intros Hb. apply eqb_true_iff. revert b Hb. apply forall_byte.
  vm_compute. reflexivity.
Qed.

Lemma utf8_encode_shape r : scalar r → 0x80 ≤ r →
  ∃ b0 tl, utf8_encode r = b0 :: tl ∧ RuneStart b0 = true ∧
           Forall (λ b, RuneStart b = false) tl ∧ 1 ≤ len tl ≤ 3.
Proof.
  intros Hr Hge. pose proof (utf8_encode_byte r Hr) as Hb.
  assert (∀ l, Forall byte l → Forall (λ b, cont b = true) l →
    Forall (λ b, RuneStart b = false) l) as Hl.
  { intros l Hb' Hc. rewrite Forall_forall in Hb', Hc |- *. intros b Hin.
    rewrite RuneStart_cont by auto. by rewrite Hc. }
  unfold scalar in Hr. revert Hb. unfold utf8_encode.
  rewrite (proj2 (Z.ltb_ge r 0x80)) by lia.
  zcases; intros [Hb0 Hb]%Forall_cons; do 2 eexists; (split; [reflexivity|]);
    rewrite RuneStart_cont by done; unfold cont;
    (split; [zcases; try done; exfalso; dlia|]);
    (split; [apply Hl; [done|]; unfold cont;
       repeat constructor; zcases; try done; exfalso; dlia|]);
    autorewrite with golen; lia.
Qed.

Lemma scan_start_spec p start lim :
  0 ≤ lim ≤ start → start ≤ len p →
  wp (scan_start p start lim) (λ s, lim - 1 ≤ s < start ∧
    (∀ j x, s < j < start → zget p j = Some x → RuneStart x = false) ∧
    (s = lim - 1 ∨ ∃ x, zget p s = Some x ∧ RuneStart x = true)).
Proof.
  intros Hlim Hstart. unfold scan_start.
  apply (wp_loop (λ s, lim - 1 ≤ s < start ∧
    ∀ j x, s < j < start → zget p j = Some x → RuneStart x = false) (λ s, s + 1)).
  - split; [lia|]. intros j x Hj. lia.
  - intros s [Hs _]. lia.
  - unfold fuel_of. lia.
  - intros s [Hs Hcont]. wp_step.
    + wp_step. apply wp_idx; [lia|]. intros x Hx. destruct (RuneStart x) eqn:Ex.
      * simpl. split_and!; try lia; [done|]. right. by exists x.
      * simpl. split; [|lia]. split; [lia|]. intros j y Hj Hy.
        destruct (decide (j = s)) as [->|]; [congruence|]. apply (Hcont j); [lia|done].
    + simpl. split_and!; try lia; done.
Qed.

Lemma slice_drop {A} (l : list A) i :
  0 ≤ i ≤ len l → slice l i (len l) = Ok (drop (Z.to_nat i) l).
Proof.
  intros Hi. unfold slice. rewrite decide_True by lia. f_equal.
  rewrite take_ge; [done|]. rewrite length_drop. unfold len. lia.
Qed.

Definition ends_with (p : list Z) (r : Z) : Prop := ∃ q, p = q ++ utf8_encode r.

(** The scan finds the lead byte of a final multi-byte encoding. *)
Lemma scan_finds_lead q r s lim :
  scalar r → 0x80 ≤ r → lim ≤ len q →
  let p := q ++ utf8_encode r in
  s < len p - 1 →
  (∀ j x, s < j < len p - 1 → zget p j = Some x → RuneStart x = false) →
  (s = lim - 1 ∨ ∃ x, zget p s = Some x ∧ RuneStart x = true) →
  s = len q.
Proof.
  intros Hr Hge Hlim p Hs Hcont Hfound.
  destruct (utf8_encode_shape r Hr Hge) as (b0 & tl & He & Hb0 & Htl & Hlen).
  subst p. rewrite He, len_app, len_cons in *.
  assert (zget (q ++ b0 :: tl) (len q) = Some b0) as Hlead by apply zget_mid.
  assert (¬ s < len q) as Hge'.
  { intros Hlt. specialize (Hcont (len q) b0 ltac:(lia) Hlead). congruence. }
  destruct Hfound as [->|(x & Hx & Hxs)]; [lia|].
  destruct (decide (s = len q)); [done|].
  rewrite zget_app_r, zget_cons in Hx by lia.
  apply zget_elem_of in Hx. rewrite Forall_forall in Htl.
  rewrite (Htl x Hx) in Hxs. done.
Qed.

Lemma last_byte {A} (q : list A) x : zget (q ++ [x]) (len (q ++ [x]) - 1) = Some x.
Proof.
  rewrite len_app, len_cons, len_nil.
  replace (len q + (1 + 0) - 1) with (len q) by lia. apply zget_mid.
Qed.

Lemma ends_with_ascii p b :
  zget p (len p - 1) = Some b → 0 ≤ b < 0x80 → ends_with p b.
Proof.
  intros Hlast Hb. destruct p as [|b' q _] using rev_ind; [done|].
  rewrite last_byte in Hlast. simplify_eq. exists q. unfold utf8_encode. by ztests.
Qed.

Lemma ends_with_last p r b :
  scalar r → ends_with p r → zget p (len p - 1) = Some b → 0x80 ≤ b → 0x80 ≤ r.
Proof.
  intros [Hr _] [q ->] Hlast Hb. destruct (decide (0x80 ≤ r)); [done|].
  unfold utf8_encode in Hlast. rewrite (proj2 (Z.ltb_lt r _)) in Hlast by lia.
  rewrite last_byte in Hlast. by simplify_eq.
Qed.

Lemma DecodeLastRune_total p :
  Forall byte p → p ≠ [] →
  wp (DecodeLastRune p) (λ '(r, n),
    (scalar r ∧ n = len (utf8_encode r) ∧ ends_with p r) ∨
    (r = RuneError ∧ n = 1 ∧ ∀ r', scalar r' → ¬ ends_with p r')).
Proof.
  intros Hp Hne. unfold DecodeLastRune.
  assert (0 < len p) as Hpos by (destruct p; [done|rewrite len_cons; pose proof (len_nonneg p); lia]).
  rewrite (proj2 (Z.eqb_neq _ 0)) by lia.
  wp_step. apply wp_idx; [lia|]. intros last Hlast.
  assert (byte last) as Hb by (rewrite Forall_forall in Hp; eapply Hp, zget_elem_of, Hlast).
  unfold is_uint in Hb. unfold RuneSelf, UTFMax. wp_step.
  { simpl. left. unfold scalar, utf8_encode. ztests.
    split_and!; [lia..|done|]. apply ends_with_ascii; [done|lia]. }
  wp_step. eapply wp_mono; [apply scan_start_spec; lia|].
  intros s (Hs & Hcont & Hfound).
  set (start := if s <? 0 then 0 else s).
  assert (start = Z.max s 0) as Hst by (unfold start; zcases; lia). clearbody start.
  rewrite slice_drop by lia. wp_step. simpl.
  set (tail := drop (Z.to_nat start) p).
  assert (len tail = len p - start) as Htl by (unfold tail; rewrite len_drop; lia).
  assert (Forall byte tail) as Htb by by apply Forall_drop.
  assert (tail ≠ []) as Htne by (intros Hnil; rewrite Hnil, len_nil in Htl; lia).
  assert (p = take (Z.to_nat start) p ++ tail) as Hpt by (unfold tail; by rewrite take_drop).
  assert (∀ r', scalar r' → ends_with p r' → tail = utf8_encode r') as Hends.
  { intros r' Hr' Hend.
    pose proof (ends_with_last p r' last Hr' Hend Hlast ltac:(lia)) as Hge.
    destruct Hend as [q Hq].
    pose proof (utf8_encode_len r'). subst p. rewrite len_app in *.
    assert (s = len q) as ->.
    { apply (scan_finds_lead q r' s (Z.max (len q + len (utf8_encode r') - 4) 0));
        rewrite ?len_app; try done; try lia. 
        all: pose proof (len_nonneg q); lia. }
    pose proof (len_nonneg q).
    unfold tail. rewrite Hst, Z.max_l by lia. unfold len. by rewrite Nat2Z.id, drop_app_length. }
  rewrite DecodeRune_decode by done. simpl.
  destruct (decode_cases tail Htb Htne) as [r rest Hr He|Herr]; simpl.
  - destruct (Z.eqb_spec (start + len (utf8_encode r)) (len p)) as [Heq|Hneq]; simpl.
    + left. split_and!; [done..|]. assert (rest = []) as ->.
      { apply len_0_nil. rewrite He, len_app in Htl. lia. }
      rewrite app_nil_r in He. exists (take (Z.to_nat start) p). by rewrite <-He.
    + right. split_and!; [done..|]. intros r' Hr' Hend. apply Hends in Hend; [|done].
      rewrite Hend in He. rewrite <-(app_nil_r (utf8_encode r')) in He.
      apply utf8_encode_inj in He as [-> _]; [|done..].
      rewrite Hend in Htl. lia.
  - assert (∀ r' : Z, scalar r' → ¬ ends_with p r') as Hno.
    { intros r' Hr' Hend. apply (Herr r' []); [done|]. rewrite app_nil_r. by apply Hends. }
    case_match; simpl; right; done.
Qed.


(* ------------------------------------------------------------------ *)
(** ** Iterating over the runes of a string *)

(** The runes a decoder reads off [p] from left to right, with their sizes. *)
Inductive runes_of : list Z → list (Z * Z) → Prop :=
  | runes_nil : runes_of [] []
  | runes_step p r n its :
      p ≠ [] → decode p = (r, n) → runes_of (drop (Z.to_nat n) p) its →
      runes_of p ((r, n) :: its).

(** The index and rune a [range] loop sees for each of them. *)
Fixpoint offsets (i : Z) (its : list (Z * Z)) : list (Z * Z) :=
  match its with
  | [] => []
  | (r, n) :: its => (i, r) :: offsets (i + n) its
  end.

Lemma decode_size p : Forall byte p → p ≠ [] →
  1 ≤ snd (decode p) ≤ len p.
Proof.
  intros Hp Hne. destruct (decode_cases p Hp Hne) as [r rest Hr He|]; simpl.
  - pose proof (utf8_encode_len r). rewrite He, len_app.
    pose proof (len_nonneg rest). lia.
  - destruct p; [done|]. rewrite len_cons. pose proof (len_nonneg p). lia.
Qed.

Lemma range_next_decode s i :
  Forall byte s → 0 ≤ i < len s →
  range_next s i =
  Ok (let '(r, n) := decode (drop (Z.to_nat i) s) in (r, i + n)).
Proof.
  intros Hs Hi. unfold range_next. destruct (zget_lt s i Hi) as [b0 Hb0].
  assert (drop (Z.to_nat i) s = b0 :: drop (S (Z.to_nat i)) s) as Hd.
  { apply drop_S. unfold zget in Hb0. by rewrite decide_True in Hb0 by lia. }
  rewrite (idx_in s i b0 Hb0). cbn [mbind res_bind]. unfold RuneSelf.
  destruct (Z.ltb_spec b0 0x80).
  - rewrite Hd. unfold decode. by rewrite (proj2 (Z.ltb_lt b0 _)) by lia.
  - rewrite Hd. by apply decoderune_decode with (q := drop (S (Z.to_nat i)) s).
Qed.

Lemma offsets_app i its r n :
  offsets i (its ++ [(r, n)]) =
  offsets i its ++ [(i + foldr (λ it s, snd it + s) 0 its, r)].
Proof.
  revert i. induction its as [|[r' n'] its IH]; intros i; simpl.
  - do 2 f_equal. f_equal. lia.
  - rewrite IH. do 4 f_equal. lia.
Qed.

Lemma runes_of_exists p : Forall byte p → ∃ its, runes_of p its.
Proof.
  remember (length p) as n eqn:Hn. revert p Hn.
  induction n as [n IH] using lt_wf_ind. intros p -> Hp.
  destruct (decide (p = [])) as [->|Hne]; [exists []; constructor|].
  pose proof (decode_size p Hp Hne) as Hsz.
  destruct (decode p) as [r n] eqn:Hd. simpl in Hsz.
  destruct (IH (length (drop (Z.to_nat n) p))) with (p := drop (Z.to_nat n) p)
    as [its Hits]; [|done|by apply Forall_drop|].
  { rewrite length_drop. unfold len in Hsz. lia. }
  exists ((r, n) :: its). by apply runes_step.
Qed.

(** The compiled [range] loop visits exactly the decoded runes, in order. *)
Lemma range_string_runes s its :
  Forall byte s → runes_of s its → range_string s = Ok (offsets 0 its).
Proof.
  intros Hs Hits. unfold range_string.
  enough (∀ rest fuel i acc, Forall byte s →
    0 ≤ i → runes_of (drop (Z.to_nat i) s) rest → i ≤ len s →
    len s - i < Z.of_nat fuel →
    loop fuel (λ '(i, acc),
      if i <? len s then
        '(r, i') ← range_next s i; mret (inl (i', acc ++ [(i, r)]))
      else mret (inr acc)) (i, acc) = Ok (acc ++ offsets i rest)) as H.
  { apply (H its (fuel_of (len s)) 0 []); [done|lia|done|apply len_nonneg|].
    unfold fuel_of. pose proof (len_nonneg s). lia. }
  clear its Hits. intros rest fuel. revert rest.
  induction fuel as [|fuel IH]; intros rest i acc Hb Hi Hits Hle Hfuel; [lia|].
  rewrite loop_S. destruct (Z.ltb_spec i (len s)) as [Hlt|Hge].
  - rewrite range_next_decode by (done || lia). cbn [mbind res_bind].
    assert (drop (Z.to_nat i) s ≠ []) as Hne.
    { intros Hnil. pose proof (len_drop s (Z.to_nat i)) as Hl.
      rewrite Hnil, len_nil in Hl. lia. }
    pose proof (decode_size _ (Forall_drop _ _ _ Hb) Hne) as Hsz.
    rewrite len_drop in Hsz.
    inversion Hits as [Hnil|p r n rest' Hne' Hd Hrest Hp Hr]; [congruence|]. subst.
    rewrite Hd in *. cbn [mbind res_bind mret res_ret snd] in *. 
    rewrite (IH rest'); [by rewrite <-app_assoc|done|lia| |lia|lia].
    rewrite drop_drop in Hrest. 
    by replace (Z.to_nat (i + n)) with (Z.to_nat i + Z.to_nat n)%nat by lia.
  - simpl. rewrite drop_ge in Hits by (unfold len in *; lia).
    inversion Hits; [|done]. by rewrite app_nil_r.
Qed.


Lemma offsets_len i its : len (offsets i its) = len its.
Proof.
  revert i. induction its as [|[r n] its IH]; intros i; simpl; [done|].
  by rewrite !len_cons, IH.
Qed.

Lemma foldl_count {A} (l : list A) k : foldl (λ n _, n + 1) k l = k + len l.
Proof.
  revert k. induction l as [|x l IH]; intros k; simpl; [rewrite len_nil; lia|].
  rewrite IH, len_cons. lia.
Qed.

Lemma RuneCountInString_runes s its :
  Forall byte s → runes_of s its → RuneCountInString s = Ok (len its).
Proof.
  intros Hs Hits. unfold RuneCountInString.
  rewrite (range_string_runes s its) by done. simpl.
  by rewrite foldl_count, offsets_len.
Qed.

Lemma RuneCount_runes p its :
  Forall byte p → runes_of p its → RuneCount p = Ok (len its).
Proof.
  intros Hp Hits. apply wp_eq. unfold RuneCount.
  apply (wp_loop (λ n, 0 ≤ n ≤ len p ∧ ∃ rest,
    runes_of (drop (Z.to_nat n) p) rest ∧ len its = n + len rest) (λ n, len p - n)).
  - pose proof (len_nonneg p). split; [lia|]. by exists its.
  - intros n [Hn _]. lia.
  - unfold fuel_of. pose proof (len_nonneg p). lia.
  - intros n [Hn (rest & Hrest & Hlen)]. wp_step.
    + wp_step. apply wp_idx; [lia|]. intros c Hc. unfold RuneSelf. wp_step.
      * wp_step. rewrite slice_from_drop by lia. simpl. wp_step.
        rewrite (RuneCountInString_runes _ rest) by (done || by apply Forall_drop).
        simpl. lia.
      * simpl. assert (drop (Z.to_nat n) p = c :: drop (S (Z.to_nat n)) p) as Hd.
        { apply drop_S. unfold zget in Hc. by rewrite decide_True in Hc by lia. }
        rewrite Hd in Hrest.
        inversion Hrest as [|q r m rest' _ Hdec Hrest' Hq Hr]. subst.
        unfold decode in Hdec. rewrite (proj2 (Z.ltb_lt c 0x80)) in Hdec by lia.
        simplify_eq. simpl in Hrest'. split; [|lia]. split; [lia|].
        exists rest'. rewrite len_cons in Hlen. split; [|lia].
        by replace (Z.to_nat (n + 1)) with (S (Z.to_nat n)) by lia.
    + simpl. rewrite drop_ge in Hrest by (unfold len in *; lia).
      inversion Hrest; [|done]. subst. rewrite len_nil in Hlen. lia.
Qed.

(* ------------------------------------------------------------------ *)
(** ** The contracts of the package *)

(** C1: on any bytes [DecodeRune] (and its string form) returns, without a
    panic, [(RuneError, 0)] for the empty input, the scalar value and size of
    the encoding that starts the input if there is one, and [(RuneError, 1)]
    otherwise: overlong forms, surrogates and cut-off sequences are errors. *)
Theorem DecodeRune_correct (p : list Z) :
  Forall byte p →
  DecodeRuneInString p = DecodeRune p ∧
  wp (DecodeRune p) (λ o, if decide (p = []) then o = (RuneError, 0)
                          else decode_outcome p o).
Proof.
  intros Hp. split; [apply DecodeRuneInString_DecodeRune|].
  rewrite DecodeRune_decode by done. simpl. case_decide; [by subst|].
  by apply decode_cases.
Qed.

Example DecodeRune_correct_witness :
  DecodeRune [0xE4; 0xB8; 0x96; 0x21] = Ok (0x4E16, 3) ∧
  wp (DecodeRune [0xE4; 0xB8; 0x96; 0x21])
     (decode_outcome [0xE4; 0xB8; 0x96; 0x21]).
Proof.
  split; [vm_compute; reflexivity|].
  apply (DecodeRune_correct [0xE4; 0xB8; 0x96; 0x21]).
  repeat constructor; vm_compute; congruence.
Defined.

Lemma decoderune_DecodeRune (s : list Z) (k b0 : Z) :
  Forall byte s → zget s k = Some b0 → RuneSelf ≤ b0 →
  ∃ r n, DecodeRune (drop (Z.to_nat k) s) = Ok (r, n) ∧
         decoderune s k = Ok (r, k + n).
Proof.
  intros Hs Hk Hb. pose proof (zget_Some_range _ _ _ Hk) as Hr.
  assert (drop (Z.to_nat k) s = b0 :: drop (S (Z.to_nat k)) s) as Hd.
  { apply drop_S. unfold zget in Hk. by rewrite decide_True in Hk by lia. }
  rewrite DecodeRune_decode by by apply Forall_drop.
  rewrite (decoderune_decode s k b0 (drop (S (Z.to_nat k)) s)) by done.
  rewrite Hd. destruct (decode _) as [r n]. by exists r, n.
Qed.

Lemma multi_last q r :
  scalar r → 0x80 ≤ r →
  ∃ b, zget (q ++ utf8_encode r) (len (q ++ utf8_encode r) - 1) = Some b ∧ 0x80 ≤ b.
Proof.
  intros Hr Hge. unfold utf8_encode.
  rewrite (proj2 (Z.ltb_ge r 0x80)) by lia.
  case_match; [|case_match];
    lazymatch goal with
    | |- context [q ++ [?a; ?b]] =>
        replace (q ++ [a; b]) with ((q ++ [a]) ++ [b]) by by rewrite <-app_assoc
    | |- context [q ++ [?a; ?b; ?c]] =>
        replace (q ++ [a; b; c]) with ((q ++ [a; b]) ++ [c]) by by rewrite <-app_assoc
    | |- context [q ++ [?a; ?b; ?c; ?d]] =>
        replace (q ++ [a; b; c; d]) with ((q ++ [a; b; c]) ++ [d])
          by by rewrite <-app_assoc
    end;
    rewrite last_byte; eexists; (split; [reflexivity|]); dlia.
Qed.

(** An input ends with at most one encoding. *)
Lemma ends_with_inj p r r' :
  scalar r → scalar r' → ends_with p r → ends_with p r' → r = r'.
Proof.
  intros Hr Hr' [q Hq] [q' Hq'].
  assert (∀ b q, 0 ≤ b < 0x80 → zget (q ++ utf8_encode b) (len (q ++ utf8_encode b) - 1)
    = Some b) as Hasc.
  { intros b k Hb. assert (utf8_encode b = [b]) as -> by (unfold utf8_encode; by ztests).
    apply last_byte. }
  destruct (decide (0x80 ≤ r)) as [Hge|Hlt], (decide (0x80 ≤ r')) as [Hge'|Hlt'].
  - destruct (utf8_encode_shape r' Hr' Hge') as (b0 & tl & He & Hb0 & Htl & Hlen).
    assert (len q' = len q) as Hlq.
    { apply (scan_finds_lead q r (len q') 0); [done..|apply len_nonneg| | |];
        rewrite <-Hq, Hq', He.
      - rewrite len_app, len_cons. lia.
      - intros j x Hj Hx. rewrite zget_app_r, zget_cons in Hx by lia.
        apply zget_elem_of in Hx. rewrite Forall_forall in Htl. by apply Htl.
      - right. exists b0. by rewrite zget_mid. }
    assert (q = q' ∧ utf8_encode r = utf8_encode r') as [_ Heq].
    { apply app_inj_1; [unfold len in Hlq; lia|congruence]. }
    apply (f_equal (λ l, l ++ [])) in Heq. by apply utf8_encode_inj in Heq as [-> _].
  - destruct (multi_last q r) as (b & Hb & ?); [done..|]. unfold scalar in Hr'.
    rewrite <-Hq, Hq', Hasc in Hb by lia. simplify_eq. lia.
  - destruct (multi_last q' r') as (b & Hb & ?); [done..|]. unfold scalar in Hr.
    rewrite <-Hq', Hq, Hasc in Hb by lia. simplify_eq. lia.
  - unfold scalar in Hr, Hr'.
    pose proof (Hasc r q ltac:(lia)) as H1. pose proof (Hasc r' q' ltac:(lia)) as H2.
    rewrite <-Hq in H1. rewrite <-Hq' in H2. congruence.
Qed.

(** C2: the three encoders agree for every [int32]: they produce the UTF-8
    encoding of the rune, or of [RuneError] when the rune is not a scalar
    value; writing into a slice too short for it panics before any write;
    [RuneLen] and [ValidRune] tell the size and the validity; and decoding what
    was appended, from either end, gives the rune back. *)
Theorem AppendRune_correct (p rest : list Z) (r : Z) :
  is_sint 32 r → Forall byte p → Forall byte rest →
  let e := utf8_encode (valid_or_error r) in
  AppendRune p r = p ++ e ∧
  EncodeRune p r = write_prefix p e ∧
  encoderune p r = write_prefix p e ∧
  ValidRune r = bool_decide (scalar r) ∧
  (RuneLen r = if decide (scalar r) then len e else -1) ∧
  DecodeRune (AppendRune [] r ++ rest) = Ok (valid_or_error r, len e) ∧
  DecodeLastRune (AppendRune p r) = Ok (valid_or_error r, len e).
Proof.
  intros Hr Hp Hrest e.
  assert (scalar (valid_or_error r)) as Hv.
  { unfold valid_or_error. case_decide; [done|]. split; vm_compute; [split; congruence|intros [H1 H2]; by apply H1]. }
  pose proof (utf8_encode_byte _ Hv) as He.
  rewrite !AppendRune_encode by done. split_and!.
  - done.
  - by apply EncodeRune_encode.
  - by apply encoderune_encode.
  - apply ValidRune_spec.
  - rewrite RuneLen_spec. unfold e, valid_or_error. by case_decide.
  - rewrite DecodeRune_decode; [|by repeat apply Forall_app_2].
    f_equal. by apply decode_encode.
  - assert (ends_with (p ++ e) (valid_or_error r)) as Hend by by exists p.
    assert (wp (DecodeLastRune (p ++ e)) (λ o, o = (valid_or_error r, len e))) as Hw;
      [|by apply wp_eq in Hw].
    eapply wp_mono.
    { apply DecodeLastRune_total; [by apply Forall_app_2|].
      pose proof (utf8_encode_nonempty (valid_or_error r)).
      intros [_ ?]%app_nil. done. }
    intros [r' n] [(Hr' & -> & Hend')|(_ & _ & Hno)]; [|by apply Hno in Hend].
    by rewrite (ends_with_inj (p ++ e) r' (valid_or_error r)).
Qed.

Example AppendRune_correct_witness :
  is_sint 32 0x20AC ∧ AppendRune [0x61] 0x20AC = [0x61; 0xE2; 0x82; 0xAC] ∧
  DecodeLastRune (AppendRune [0x61] 0x20AC) = Ok (0x20AC, 3).
Proof.
  split; [by vm_compute|]. split; [vm_compute; reflexivity|].
  apply (AppendRune_correct [0x61] [] 0x20AC);
    [by vm_compute|repeat constructor; vm_compute; congruence|constructor].
Defined.

(** C3: [Valid] and [ValidString], with their word-at-a-time ASCII fast path,
    terminate on every input and hold exactly of the concatenations of encoded
    Unicode scalar values. *)
Theorem Valid_correct (p : list Z) :
  Forall byte p →
  ValidString p = Valid p ∧ ∃ b, Valid p = Ok b ∧
    (b = true ↔ ∃ rs, Forall scalar rs ∧ p = concat (utf8_encode <$> rs)).
Proof. intros Hp. split; [done|]. by apply wp_exists, Valid_total. Qed.

Example Valid_correct_witness :
  ∃ b, Valid (replicate 60 0x41 ++ [0xC3; 0xA9]) = Ok b ∧
    (b = true ↔ ∃ rs, Forall scalar rs ∧
       replicate 60 0x41 ++ [0xC3; 0xA9] = concat (utf8_encode <$> rs)).
Proof.
  apply (Valid_correct (replicate 60 0x41 ++ [0xC3; 0xA9])).
  repeat constructor; vm_compute; congruence.
Defined.

Lemma DecodeLastRuneInString_eq p : DecodeLastRuneInString p = DecodeLastRune p.
Proof.
  unfold DecodeLastRuneInString, DecodeLastRune. case_match; [done|].
  destruct (idx p _) as [r| |]; simpl; [|done..]. case_match; [done|].
  destruct (scan_start _ _ _) as [k| |]; simpl; [|done..].
  destruct (slice p _ _) as [q| |]; simpl; [|done..]. by rewrite DecodeRuneInString_DecodeRune.
Qed.

(** C4: whole inputs. [decoderune], which the compiler calls for [range] over a
    string, agrees with [utf8.DecodeRune] at every non-ASCII position; so a [range]
    loop as the compiler lowers it visits the runes that repeated [DecodeRune]
    reads off the string, each at its byte offset, and [RuneCount],
    [RuneCountInString] and the runtime's [countrunes] all return their number. At
    the cut ends of an input, [FullRune] (and its string form) is false exactly for
    the inputs that further bytes could still complete to an encoding, and
    [DecodeLastRune] (and its string form), which scans at most four bytes
    backwards, returns the scalar value whose encoding ends the input, with its
    size, if there is one, [(RuneError, 1)] exactly when there is none, and
    [(RuneError, 0)] for the empty input. *)
Theorem range_DecodeLastRune_correct (s : list Z) :
  Forall byte s →
  (∀ k b0, zget s k = Some b0 → RuneSelf ≤ b0 →
     ∃ r n, DecodeRune (drop (Z.to_nat k) s) = Ok (r, n) ∧ decoderune s k = Ok (r, k + n)) ∧
  (∃ its, runes_of s its ∧ range_string s = Ok (offsets 0 its) ∧
         RuneCount s = Ok (len its) ∧ RuneCountInString s = Ok (len its) ∧
         countrunes s = Ok (len its)) ∧
  (FullRuneInString s = FullRune s ∧
   ∃ b, FullRune s = Ok b ∧ (b = false ↔ truncated s)) ∧
  (DecodeLastRuneInString s = DecodeLastRune s ∧
   wp (DecodeLastRune s) (λ '(r, n),
     if decide (s = []) then (r, n) = (RuneError, 0) else
     (scalar r ∧ n = len (utf8_encode r) ∧ ends_with s r) ∨
     (r = RuneError ∧ n = 1 ∧ ∀ r', scalar r' → ¬ ends_with s r'))).
Proof.
  intros Hs. split_and!; [intros k b0; by apply decoderune_DecodeRune| |done|by apply FullRune_spec|apply DecodeLastRuneInString_eq|].
  - destruct (runes_of_exists s Hs) as [its Hits]. exists its.
    split_and!; [done|by apply range_string_runes|by apply RuneCount_runes| |];
      by apply RuneCountInString_runes.
  - case_decide; [by subst|]. by apply DecodeLastRune_total.
Qed.

Example range_DecodeLastRune_correct_witness :
  (∃ its, runes_of [0x61; 0xC3; 0xA9; 0xFF] its ∧
         range_string [0x61; 0xC3; 0xA9; 0xFF] = Ok (offsets 0 its) ∧
         RuneCount [0x61; 0xC3; 0xA9; 0xFF] = Ok (len its)) ∧
  (∃ b, FullRune [0xF0; 0x9F] = Ok b ∧ (b = false ↔ truncated [0xF0; 0x9F])) ∧
  wp (DecodeLastRune [0x61; 0xC3; 0xA9]) (λ '(r, n),
    (scalar r ∧ n = len (utf8_encode r) ∧ ends_with [0x61; 0xC3; 0xA9] r) ∨
    (r = RuneError ∧ n = 1 ∧
     ∀ r', scalar r' → ¬ ends_with [0x61; 0xC3; 0xA9] r')).
Proof.
  split; [|split].
  - destruct (range_DecodeLastRune_correct [0x61; 0xC3; 0xA9; 0xFF]) as (_ & (its & ? & ? & ? & _) & _).
    + repeat constructor; vm_compute; congruence.
    + by exists its.
  - apply (range_DecodeLastRune_correct [0xF0; 0x9F]). repeat constructor; vm_compute; congruence.
  - apply (range_DecodeLastRune_correct [0x61; 0xC3; 0xA9]). repeat constructor; vm_compute; congruence.
Defined.
