(* ===== verification/Bits.v ===== *)
(** * math/bits

    Bit counting and manipulation, and the full-width arithmetic, of
    math/bits/bits.go with the tables of bits_tables.go, for the 64-bit
    platforms ([UintSize] is 64). A table access is [idx], so that "the index
    is in range" is part of what the theorems show. *)

From S2P Require Import Prelude.

Definition UintSize : Z := 64.

(** ** Tables *)

Definition ntz8tab : list Z := [
  8; 0; 1; 0; 2; 0; 1; 0; 3; 0; 1; 0; 2; 0; 1; 0;
  4; 0; 1; 0; 2; 0; 1; 0; 3; 0; 1; 0; 2; 0; 1; 0;
  5; 0; 1; 0; 2; 0; 1; 0; 3; 0; 1; 0; 2; 0; 1; 0;
  4; 0; 1; 0; 2; 0; 1; 0; 3; 0; 1; 0; 2; 0; 1; 0;
  6; 0; 1; 0; 2; 0; 1; 0; 3; 0; 1; 0; 2; 0; 1; 0;
  4; 0; 1; 0; 2; 0; 1; 0; 3; 0; 1; 0; 2; 0; 1; 0;
  5; 0; 1; 0; 2; 0; 1; 0; 3; 0; 1; 0; 2; 0; 1; 0;
  4; 0; 1; 0; 2; 0; 1; 0; 3; 0; 1; 0; 2; 0; 1; 0;
  7; 0; 1; 0; 2; 0; 1; 0; 3; 0; 1; 0; 2; 0; 1; 0;
  4; 0; 1; 0; 2; 0; 1; 0; 3; 0; 1; 0; 2; 0; 1; 0;
  5; 0; 1; 0; 2; 0; 1; 0; 3; 0; 1; 0; 2; 0; 1; 0;
  4; 0; 1; 0; 2; 0; 1; 0; 3; 0; 1; 0; 2; 0; 1; 0;
  6; 0; 1; 0; 2; 0; 1; 0; 3; 0; 1; 0; 2; 0; 1; 0;
  4; 0; 1; 0; 2; 0; 1; 0; 3; 0; 1; 0; 2; 0; 1; 0;
  5; 0; 1; 0; 2; 0; 1; 0; 3; 0; 1; 0; 2; 0; 1; 0;
  4; 0; 1; 0; 2; 0; 1; 0; 3; 0; 1; 0; 2; 0; 1; 0].

Definition pop8tab : list Z := [
  0; 1; 1; 2; 1; 2; 2; 3; 1; 2; 2; 3; 2; 3; 3; 4;
  1; 2; 2; 3; 2; 3; 3; 4; 2; 3; 3; 4; 3; 4; 4; 5;
  1; 2; 2; 3; 2; 3; 3; 4; 2; 3; 3; 4; 3; 4; 4; 5;
  2; 3; 3; 4; 3; 4; 4; 5; 3; 4; 4; 5; 4; 5; 5; 6;
  1; 2; 2; 3; 2; 3; 3; 4; 2; 3; 3; 4; 3; 4; 4; 5;
  2; 3; 3; 4; 3; 4; 4; 5; 3; 4; 4; 5; 4; 5; 5; 6;
  2; 3; 3; 4; 3; 4; 4; 5; 3; 4; 4; 5; 4; 5; 5; 6;
  3; 4; 4; 5; 4; 5; 5; 6; 4; 5; 5; 6; 5; 6; 6; 7;
  1; 2; 2; 3; 2; 3; 3; 4; 2; 3; 3; 4; 3; 4; 4; 5;
  2; 3; 3; 4; 3; 4; 4; 5; 3; 4; 4; 5; 4; 5; 5; 6;
  2; 3; 3; 4; 3; 4; 4; 5; 3; 4; 4; 5; 4; 5; 5; 6;
  3; 4; 4; 5; 4; 5; 5; 6; 4; 5; 5; 6; 5; 6; 6; 7;
  2; 3; 3; 4; 3; 4; 4; 5; 3; 4; 4; 5; 4; 5; 5; 6;
  3; 4; 4; 5; 4; 5; 5; 6; 4; 5; 5; 6; 5; 6; 6; 7;
  3; 4; 4; 5; 4; 5; 5; 6; 4; 5; 5; 6; 5; 6; 6; 7;
  4; 5; 5; 6; 5; 6; 6; 7; 5; 6; 6; 7; 6; 7; 7; 8].

Definition rev8tab : list Z := [
  0; 128; 64; 192; 32; 160; 96; 224; 16; 144; 80; 208; 48; 176; 112; 240;
  8; 136; 72; 200; 40; 168; 104; 232; 24; 152; 88; 216; 56; 184; 120; 248;
  4; 132; 68; 196; 36; 164; 100; 228; 20; 148; 84; 212; 52; 180; 116; 244;
  12; 140; 76; 204; 44; 172; 108; 236; 28; 156; 92; 220; 60; 188; 124; 252;
  2; 130; 66; 194; 34; 162; 98; 226; 18; 146; 82; 210; 50; 178; 114; 242;
  10; 138; 74; 202; 42; 170; 106; 234; 26; 154; 90; 218; 58; 186; 122; 250;
  6; 134; 70; 198; 38; 166; 102; 230; 22; 150; 86; 214; 54; 182; 118; 246;
  14; 142; 78; 206; 46; 174; 110; 238; 30; 158; 94; 222; 62; 190; 126; 254;
  1; 129; 65; 193; 33; 161; 97; 225; 17; 145; 81; 209; 49; 177; 113; 241;
  9; 137; 73; 201; 41; 169; 105; 233; 25; 153; 89; 217; 57; 185; 121; 249;
  5; 133; 69; 197; 37; 165; 101; 229; 21; 149; 85; 213; 53; 181; 117; 245;
  13; 141; 77; 205; 45; 173; 109; 237; 29; 157; 93; 221; 61; 189; 125; 253;
  3; 131; 67; 195; 35; 163; 99; 227; 19; 147; 83; 211; 51; 179; 115; 243;
  11; 139; 75; 203; 43; 171; 107; 235; 27; 155; 91; 219; 59; 187; 123; 251;
  7; 135; 71; 199; 39; 167; 103; 231; 23; 151; 87; 215; 55; 183; 119; 247;
  15; 143; 79; 207; 47; 175; 111; 239; 31; 159; 95; 223; 63; 191; 127; 255].

Definition len8tab : list Z := [
  0; 1; 2; 2; 3; 3; 3; 3; 4; 4; 4; 4; 4; 4; 4; 4;
  5; 5; 5; 5; 5; 5; 5; 5; 5; 5; 5; 5; 5; 5; 5; 5;
  6; 6; 6; 6; 6; 6; 6; 6; 6; 6; 6; 6; 6; 6; 6; 6;
  6; 6; 6; 6; 6; 6; 6; 6; 6; 6; 6; 6; 6; 6; 6; 6;
  7; 7; 7; 7; 7; 7; 7; 7; 7; 7; 7; 7; 7; 7; 7; 7;
  7; 7; 7; 7; 7; 7; 7; 7; 7; 7; 7; 7; 7; 7; 7; 7;
  7; 7; 7; 7; 7; 7; 7; 7; 7; 7; 7; 7; 7; 7; 7; 7;
  7; 7; 7; 7; 7; 7; 7; 7; 7; 7; 7; 7; 7; 7; 7; 7;
  8; 8; 8; 8; 8; 8; 8; 8; 8; 8; 8; 8; 8; 8; 8; 8;
  8; 8; 8; 8; 8; 8; 8; 8; 8; 8; 8; 8; 8; 8; 8; 8;
  8; 8; 8; 8; 8; 8; 8; 8; 8; 8; 8; 8; 8; 8; 8; 8;
  8; 8; 8; 8; 8; 8; 8; 8; 8; 8; 8; 8; 8; 8; 8; 8;
  8; 8; 8; 8; 8; 8; 8; 8; 8; 8; 8; 8; 8; 8; 8; 8;
  8; 8; 8; 8; 8; 8; 8; 8; 8; 8; 8; 8; 8; 8; 8; 8;
  8; 8; 8; 8; 8; 8; 8; 8; 8; 8; 8; 8; 8; 8; 8; 8;
  8; 8; 8; 8; 8; 8; 8; 8; 8; 8; 8; 8; 8; 8; 8; 8].

Definition deBruijn32 : Z := 0x077CB531.
Definition deBruijn32tab : list Z := [
  0; 1; 28; 2; 29; 14; 24; 3; 30; 22; 20; 15; 25; 17; 4; 8;
  31; 27; 13; 23; 21; 19; 16; 7; 26; 12; 18; 6; 11; 5; 10; 9].

Definition deBruijn64 : Z := 0x03f79d71b4ca8b09.
Definition deBruijn64tab : list Z := [
  0; 1; 56; 2; 57; 49; 28; 3; 61; 58; 42; 50; 38; 29; 17; 4;
  62; 47; 59; 36; 45; 43; 51; 22; 53; 39; 33; 30; 24; 18; 12; 5;
  63; 55; 48; 27; 60; 41; 37; 16; 46; 35; 44; 21; 52; 32; 23; 11;
  54; 26; 40; 15; 34; 20; 31; 10; 25; 14; 19; 9; 13; 8; 7; 6].

Definition m0 : Z := 0x5555555555555555.
Definition m1 : Z := 0x3333333333333333.
Definition m2 : Z := 0x0f0f0f0f0f0f0f0f.
Definition m3 : Z := 0x00ff00ff00ff00ff.
Definition m4 : Z := 0x0000ffff0000ffff.

(** ** Len and LeadingZeros *)

Definition Len8 (x : Z) : res Z := idx len8tab x.

Definition Len16 (x : Z) : res Z :=
  let '(x, n) := if 2 ^ 8 <=? x then (Z.shiftr x 8, 8) else (x, 0) in
  l ← idx len8tab (u8 x); mret (n + l).

Definition Len32 (x : Z) : res Z :=
  let '(x, n) := if 2 ^ 16 <=? x then (Z.shiftr x 16, 16) else (x, 0) in
  let '(x, n) := if 2 ^ 8 <=? x then (Z.shiftr x 8, n + 8) else (x, n) in
  l ← idx len8tab (u8 x); mret (n + l).

Definition Len64 (x : Z) : res Z :=
  let '(x, n) := if 2 ^ 32 <=? x then (Z.shiftr x 32, 32) else (x, 0) in
  let '(x, n) := if 2 ^ 16 <=? x then (Z.shiftr x 16, n + 16) else (x, n) in
  let '(x, n) := if 2 ^ 8 <=? x then (Z.shiftr x 8, n + 8) else (x, n) in
  l ← idx len8tab (u8 x); mret (n + l).

Definition Len (x : Z) : res Z :=
  if UintSize =? 32 then Len32 (u32 x) else Len64 (u64 x).

Definition LeadingZeros (x : Z) : res Z := n ← Len x; mret (UintSize - n).
Definition LeadingZeros8 (x : Z) : res Z := n ← Len8 x; mret (8 - n).
Definition LeadingZeros16 (x : Z) : res Z := n ← Len16 x; mret (16 - n).
Definition LeadingZeros32 (x : Z) : res Z := n ← Len32 x; mret (32 - n).
Definition LeadingZeros64 (x : Z) : res Z := n ← Len64 x; mret (64 - n).

(** ** TrailingZeros *)

Definition TrailingZeros8 (x : Z) : res Z := idx ntz8tab x.

Definition TrailingZeros16 (x : Z) : res Z :=
  if x =? 0 then mret 16 else
  idx deBruijn32tab
    (Z.shiftr (u32 (u32 (Z.land x (u16 (- x))) * deBruijn32)) (32 - 5)).

Definition TrailingZeros32 (x : Z) : res Z :=
  if x =? 0 then mret 32 else
  idx deBruijn32tab (Z.shiftr (u32 (Z.land x (u32 (- x)) * deBruijn32)) (32 - 5)).

Definition TrailingZeros64 (x : Z) : res Z :=
  if x =? 0 then mret 64 else
  idx deBruijn64tab (Z.shiftr (u64 (Z.land x (u64 (- x)) * deBruijn64)) (64 - 6)).

Definition TrailingZeros (x : Z) : res Z :=
  if UintSize =? 32 then TrailingZeros32 (u32 x) else TrailingZeros64 (u64 x).

(** ** OnesCount *)

Definition OnesCount8 (x : Z) : res Z := idx pop8tab x.

Definition OnesCount16 (x : Z) : res Z :=
  a ← idx pop8tab (Z.shiftr x 8);
  b ← idx pop8tab (Z.land x 0xff);
  mret (u8 (a + b)).

Definition OnesCount32 (x : Z) : res Z :=
  a ← idx pop8tab (Z.shiftr x 24);
  b ← idx pop8tab (Z.land (Z.shiftr x 16) 0xff);
  c ← idx pop8tab (Z.land (Z.shiftr x 8) 0xff);
  d ← idx pop8tab (Z.land x 0xff);
  mret (u8 (u8 (u8 (a + b) + c) + d)).

Definition OnesCount64 (x : Z) : Z :=
  let m := 2 ^ 64 - 1 in
  let x := u64 (Z.land (Z.shiftr x 1) (Z.land m0 m) + Z.land x (Z.land m0 m)) in
  let x := u64 (Z.land (Z.shiftr x 2) (Z.land m1 m) + Z.land x (Z.land m1 m)) in
  let x := Z.land (u64 (Z.shiftr x 4 + x)) (Z.land m2 m) in
  let x := u64 (x + Z.shiftr x 8) in
  let x := u64 (x + Z.shiftr x 16) in
  let x := u64 (x + Z.shiftr x 32) in
  Z.land x (2 ^ 7 - 1).

Definition OnesCount (x : Z) : res Z :=
  if UintSize =? 32 then OnesCount32 (u32 x) else mret (OnesCount64 (u64 x)).

(** ** RotateLeft *)

Definition RotateLeft8 (x k : Z) : Z :=
  let n := 8 in let s := Z.land (u64 k) (n - 1) in
  Z.lor (u8 (Z.shiftl x s)) (Z.shiftr x (n - s)).

Definition RotateLeft16 (x k : Z) : Z :=
  let n := 16 in let s := Z.land (u64 k) (n - 1) in
  Z.lor (u16 (Z.shiftl x s)) (Z.shiftr x (n - s)).

Definition RotateLeft32 (x k : Z) : Z :=
  let n := 32 in let s := Z.land (u64 k) (n - 1) in
  Z.lor (u32 (Z.shiftl x s)) (Z.shiftr x (n - s)).

Definition RotateLeft64 (x k : Z) : Z :=
  let n := 64 in let s := Z.land (u64 k) (n - 1) in
  Z.lor (u64 (Z.shiftl x s)) (Z.shiftr x (n - s)).

Definition RotateLeft (x k : Z) : Z :=
  if UintSize =? 32 then RotateLeft32 (u32 x) k else RotateLeft64 (u64 x) k.

(** ** Reverse and ReverseBytes *)

Definition ReverseBytes16 (x : Z) : Z :=
  Z.lor (Z.shiftr x 8) (u16 (Z.shiftl x 8)).

Definition ReverseBytes32 (x : Z) : Z :=
  let m := 2 ^ 32 - 1 in
  let x := Z.lor (Z.land (Z.shiftr x 8) (Z.land m3 m))
                 (u32 (Z.shiftl (Z.land x (Z.land m3 m)) 8)) in
  Z.lor (Z.shiftr x 16) (u32 (Z.shiftl x 16)).

Definition ReverseBytes64 (x : Z) : Z :=
  let m := 2 ^ 64 - 1 in
  let x := Z.lor (Z.land (Z.shiftr x 8) (Z.land m3 m))
                 (u64 (Z.shiftl (Z.land x (Z.land m3 m)) 8)) in
  let x := Z.lor (Z.land (Z.shiftr x 16) (Z.land m4 m))
                 (u64 (Z.shiftl (Z.land x (Z.land m4 m)) 16)) in
  Z.lor (Z.shiftr x 32) (u64 (Z.shiftl x 32)).

Definition ReverseBytes (x : Z) : Z :=
  if UintSize =? 32 then ReverseBytes32 (u32 x) else ReverseBytes64 (u64 x).

Definition Reverse8 (x : Z) : res Z := idx rev8tab x.

Definition Reverse16 (x : Z) : res Z :=
  a ← idx rev8tab (Z.shiftr x 8);
  b ← idx rev8tab (Z.land x 0xff);
  mret (Z.lor a (u16 (Z.shiftl b 8))).

Definition Reverse32 (x : Z) : Z :=
  let m := 2 ^ 32 - 1 in
  let x := Z.lor (Z.land (Z.shiftr x 1) (Z.land m0 m))
                 (u32 (Z.shiftl (Z.land x (Z.land m0 m)) 1)) in
  let x := Z.lor (Z.land (Z.shiftr x 2) (Z.land m1 m))
                 (u32 (Z.shiftl (Z.land x (Z.land m1 m)) 2)) in
  let x := Z.lor (Z.land (Z.shiftr x 4) (Z.land m2 m))
                 (u32 (Z.shiftl (Z.land x (Z.land m2 m)) 4)) in
  ReverseBytes32 x.

Definition Reverse64 (x : Z) : Z :=
  let m := 2 ^ 64 - 1 in
  let x := Z.lor (Z.land (Z.shiftr x 1) (Z.land m0 m))
                 (u64 (Z.shiftl (Z.land x (Z.land m0 m)) 1)) in
  let x := Z.lor (Z.land (Z.shiftr x 2) (Z.land m1 m))
                 (u64 (Z.shiftl (Z.land x (Z.land m1 m)) 2)) in
  let x := Z.lor (Z.land (Z.shiftr x 4) (Z.land m2 m))
                 (u64 (Z.shiftl (Z.land x (Z.land m2 m)) 4)) in
  ReverseBytes64 x.

Definition Reverse (x : Z) : Z :=
  if UintSize =? 32 then Reverse32 (u32 x) else Reverse64 (u64 x).

(** ** Full-width addition, subtraction and multiplication *)

Definition Add32 (x y carry : Z) : Z * Z :=
  let sum64 := u64 (u64 (x + y) + carry) in
  (u32 sum64, u32 (Z.shiftr sum64 32)).

Definition Add64 (x y carry : Z) : Z * Z :=
  let sum := u64 (u64 (x + y) + carry) in
  let carryOut :=
    Z.shiftr (Z.lor (Z.land x y) (Z.ldiff (Z.lor x y) sum)) 63 in
  (sum, carryOut).

Definition Add (x y carry : Z) : Z * Z :=
  if UintSize =? 32 then Add32 (u32 x) (u32 y) (u32 carry)
  else Add64 (u64 x) (u64 y) (u64 carry).

Definition Sub32 (x y borrow : Z) : Z * Z :=
  let diff := u32 (u32 (x - y) - borrow) in
  let borrowOut :=
    Z.shiftr (Z.lor (Z.land (u32 (Z.lnot x)) y)
                    (Z.land (u32 (Z.lnot (Z.lxor x y))) diff)) 31 in
  (diff, borrowOut).

Definition Sub64 (x y borrow : Z) : Z * Z :=
  let diff := u64 (u64 (x - y) - borrow) in
  let borrowOut :=
    Z.shiftr (Z.lor (Z.land (u64 (Z.lnot x)) y)
                    (Z.land (u64 (Z.lnot (Z.lxor x y))) diff)) 63 in
  (diff, borrowOut).

Definition Sub (x y borrow : Z) : Z * Z :=
  if UintSize =? 32 then Sub32 (u32 x) (u32 y) (u32 borrow)
  else Sub64 (u64 x) (u64 y) (u64 borrow).

Definition Mul32 (x y : Z) : Z * Z :=
  let tmp := u64 (x * y) in (u32 (Z.shiftr tmp 32), u32 tmp).

Definition Mul64 (x y : Z) : Z * Z :=
  let mask32 := 2 ^ 32 - 1 in
  let x0 := Z.land x mask32 in
  let x1 := Z.shiftr x 32 in
  let y0 := Z.land y mask32 in
  let y1 := Z.shiftr y 32 in
  let w0 := u64 (x0 * y0) in
  let t := u64 (u64 (x1 * y0) + Z.shiftr w0 32) in
  let w1 := Z.land t mask32 in
  let w2 := Z.shiftr t 32 in
  let w1 := u64 (w1 + u64 (x0 * y1)) in
  let hi := u64 (u64 (u64 (x1 * y1) + w2) + Z.shiftr w1 32) in
  let lo := u64 (x * y) in
  (hi, lo).

Definition Mul (x y : Z) : Z * Z :=
  if UintSize =? 32 then Mul32 (u32 x) (u32 y) else Mul64 (u64 x) (u64 y).

(** ** Full-width division *)

Definition Div32 (hi lo y : Z) : res (Z * Z) :=
  if negb (y =? 0) && (y <=? hi) then Panic IntegerOverflow else
  let z := Z.lor (u64 (Z.shiftl hi 32)) lo in
  if y =? 0 then Panic DivideByZero else
  mret (u32 (z / y), u32 (z mod y)).

Definition two32 : Z := 2 ^ 32.
Definition mask32 : Z := two32 - 1.

(** The correction loop of one quotient digit; the state is (q, rhat). *)
Definition div_correct (yn1 yn0 un : Z) (s : Z * Z) : res (Z * Z + Z * Z) :=
  let '(q, rhat) := s in
  if (two32 <=? q) || (u64 (two32 * rhat + un) <? u64 (q * yn0)) then
    let q := u64 (q - 1) in
    let rhat := u64 (rhat + yn1) in
    if two32 <=? rhat then mret (inr (q, rhat)) else mret (inl (q, rhat))
  else mret (inr (q, rhat)).

Definition Div64 (hi lo y : Z) : res (Z * Z) :=
  if y =? 0 then Panic DivideByZero else
  if y <=? hi then Panic IntegerOverflow else
  if hi =? 0 then mret (lo / y, lo mod y) else
  s ← LeadingZeros64 y;
  let y := u64 (Z.shiftl y s) in
  let yn1 := Z.shiftr y 32 in
  let yn0 := Z.land y mask32 in
  let un32 := Z.lor (u64 (Z.shiftl hi s)) (Z.shiftr lo (64 - s)) in
  let un10 := u64 (Z.shiftl lo s) in
  let un1 := Z.shiftr un10 32 in
  let un0 := Z.land un10 mask32 in
  let q1 := un32 / yn1 in
  let rhat := u64 (un32 - u64 (q1 * yn1)) in
  '(q1, rhat) ← loop (fuel_of 2) (div_correct yn1 yn0 un1) (q1, rhat);
  let un21 := u64 (u64 (u64 (un32 * two32) + un1) - u64 (q1 * y)) in
  let q0 := un21 / yn1 in
  let rhat := u64 (un21 - u64 (q0 * yn1)) in
  '(q0, rhat) ← loop (fuel_of 2) (div_correct yn1 yn0 un0) (q0, rhat);
  mret (u64 (u64 (q1 * two32) + q0),
        Z.shiftr (u64 (u64 (u64 (un21 * two32) + un0) - u64 (q0 * y))) s).

Definition Div (hi lo y : Z) : res (Z * Z) :=
  if UintSize =? 32 then Div32 (u32 hi) (u32 lo) (u32 y)
  else Div64 (u64 hi) (u64 lo) (u64 y).

Definition Rem32 (hi lo y : Z) : res Z :=
  if y =? 0 then Panic DivideByZero else
  mret (u32 (Z.lor (u64 (Z.shiftl hi 32)) lo mod y)).

Definition Rem64 (hi lo y : Z) : res Z :=
  if y =? 0 then Panic DivideByZero else
  '(_, rem) ← Div64 (hi mod y) lo y;
  mret rem.

Definition Rem (hi lo y : Z) : res Z :=
  if UintSize =? 32 then Rem32 (u32 hi) (u32 lo) (u32 y)
  else Rem64 (u64 hi) (u64 lo) (u64 y).


(* ------------------------------------------------------------------ *)
(** ** Len: the position of the highest set bit *)

(** The minimum number of bits that represent [x]. *)
Definition bit_len (x : Z) : Z := if x =? 0 then 0 else Z.log2 x + 1.

Lemma bit_len_char x n : 0 < n → 2 ^ (n - 1) ≤ x < 2 ^ n → bit_len x = n.
Proof.
  intros Hn Hx. unfold bit_len. assert (0 < 2 ^ (n - 1)) by lia.
  destruct (Z.eqb_spec x 0); [lia|].
  rewrite (Z.log2_unique x (n - 1)); [lia|lia|]. split; [lia|].
  replace (Z.succ (n - 1)) with n by lia. lia.
Qed.

Lemma bit_len_bounds x : 0 < x → 2 ^ (bit_len x - 1) ≤ x < 2 ^ bit_len x.
Proof.
  intros Hx. unfold bit_len. destruct (Z.eqb_spec x 0); [lia|].
  pose proof (Z.log2_spec x Hx). replace (Z.log2 x + 1 - 1) with (Z.log2 x) by lia.
  by replace (Z.log2 x + 1) with (Z.succ (Z.log2 x)) by lia.
Qed.

Lemma bit_len_nonneg x : 0 ≤ bit_len x.
Proof. unfold bit_len. pose proof (Z.log2_nonneg x). case_match; lia. Qed.

Lemma bit_len_le x w : is_uint w x → 0 ≤ w → bit_len x ≤ w.
Proof.
  intros Hx Hw. unfold bit_len. destruct (Z.eqb_spec x 0); [lia|].
  destruct Hx. assert (Z.log2 x < w) by (apply Z.log2_lt_pow2; lia). lia.
Qed.

Lemma bit_len_shiftr x k :
  0 ≤ k → 2 ^ k ≤ x → bit_len x = k + bit_len (Z.shiftr x k).
Proof.
  intros Hk Hx. assert (0 < 2 ^ k) by (apply Z.pow_pos_nonneg; lia).
  rewrite Z.shiftr_div_pow2 by done.
  assert (1 ≤ x / 2 ^ k) by (apply Z.div_le_lower_bound; lia).
  pose proof (bit_len_bounds (x / 2 ^ k) ltac:(lia)) as [Hl Hu].
  assert (0 < bit_len (x / 2 ^ k)).
  { unfold bit_len. pose proof (Z.log2_nonneg (x / 2 ^ k)).
    destruct (Z.eqb_spec (x / 2 ^ k) 0); lia. }
  apply bit_len_char; [lia|].
  replace (k + bit_len (x / 2 ^ k) - 1) with (k + (bit_len (x / 2 ^ k) - 1)) by lia.
  rewrite !Z.pow_add_r by lia.
  pose proof (Z.mul_div_le x (2 ^ k) ltac:(lia)).
  pose proof (Z.mul_succ_div_gt x (2 ^ k) ltac:(lia)). nia.
Qed.

Lemma len8tab_bit_len x : byte x → idx len8tab x = Ok (bit_len x).
Proof.
  intros Hx. apply idx_Ok.
  pose proof (forall_byte (λ x, bool_decide (zget len8tab x = Some (bit_len x)))
    eq_refl x Hx) as H. by apply bool_decide_eq_true in H.
Qed.

(** One narrowing step of [Len16], [Len32] and [Len64]. *)
Lemma len_narrow x n k w :
  is_uint w x → 0 ≤ k → k ≤ w →
  let '(x', n') := if 2 ^ k <=? x then (Z.shiftr x k, n + k) else (x, n) in
  is_uint (Z.max k (w - k)) x' ∧ n' + bit_len x' = n + bit_len x.
Proof.
  intros Hx Hk Hw. destruct (Z.leb_spec (2 ^ k) x).
  - split; [|rewrite (bit_len_shiftr x k) by lia; lia].
    rewrite Z.shiftr_div_pow2 by done. unfold is_uint in *.
    assert (0 < 2 ^ k) by (apply Z.pow_pos_nonneg; lia).
    assert (2 ^ w = 2 ^ k * 2 ^ (w - k)) as Hp.
    { rewrite <-Z.pow_add_r by lia. f_equal. lia. }
    assert (2 ^ (w - k) ≤ 2 ^ (k `max` (w - k))) by (apply Z.pow_le_mono_r; lia).
    split; [apply Z.div_pos; lia|]. apply Z.div_lt_upper_bound; [lia|]. nia.
  - split; [|lia]. unfold is_uint in *.
    assert (2 ^ k ≤ 2 ^ (k `max` (w - k))) by (apply Z.pow_le_mono_r; lia). lia.
Qed.

Lemma Len16_spec x : is_uint 16 x → Len16 x = Ok (bit_len x).
Proof.
  intros Hx. unfold Len16.
  pose proof (len_narrow x 0 8 16 Hx) as H1.
  change (0 + 8) with 8 in H1. destruct (if 2 ^ 8 <=? x then _ else _) as [x1 n1].
  destruct H1 as [H1 E1]; [lia..|].
  rewrite uwrap_small, len8tab_bit_len by done. simpl. f_equal. lia.
Qed.

Lemma Len32_spec x : is_uint 32 x → Len32 x = Ok (bit_len x).
Proof.
  intros Hx. unfold Len32.
  pose proof (len_narrow x 0 16 32 Hx) as H1.
  change (0 + 16) with 16 in H1. destruct (if 2 ^ 16 <=? x then _ else _) as [x1 n1].
  destruct H1 as [H1 E1]; [lia..|].
  pose proof (len_narrow x1 n1 8 16 H1) as H2.
  destruct (if 2 ^ 8 <=? x1 then _ else _) as [x2 n2].
  destruct H2 as [H2 E2]; [lia..|].
  rewrite uwrap_small, len8tab_bit_len by done. simpl. f_equal. lia.
Qed.

Lemma Len64_spec x : is_uint 64 x → Len64 x = Ok (bit_len x).
Proof.
  intros Hx. unfold Len64.
  pose proof (len_narrow x 0 32 64 Hx) as H1.
  change (0 + 32) with 32 in H1. destruct (if 2 ^ 32 <=? x then _ else _) as [x1 n1].
  destruct H1 as [H1 E1]; [lia..|].
  pose proof (len_narrow x1 n1 16 32 H1) as H2.
  destruct (if 2 ^ 16 <=? x1 then _ else _) as [x2 n2].
  destruct H2 as [H2 E2]; [lia..|].
  pose proof (len_narrow x2 n2 8 16 H2) as H3.
  destruct (if 2 ^ 8 <=? x2 then _ else _) as [x3 n3].
  destruct H3 as [H3 E3]; [lia..|].
  rewrite uwrap_small, len8tab_bit_len by done. simpl. f_equal. lia.
Qed.

Lemma LeadingZeros64_spec x : is_uint 64 x → LeadingZeros64 x = Ok (64 - bit_len x).
Proof. intros. unfold LeadingZeros64. by rewrite Len64_spec. Qed.

(* ------------------------------------------------------------------ *)
(** ** Division: one quotient digit of Knuth's algorithm D *)

Section digit.
Context (yn1 yn0 un32 un1 : Z).
Let y := yn1 * two32 + yn0.
Context (Hyn1 : 2 ^ 31 ≤ yn1 < 2 ^ 32) (Hyn0 : 0 ≤ yn0 < 2 ^ 32)
  (Hun : 0 ≤ un32 < y) (Hun1 : 0 ≤ un1 < 2 ^ 32).
Let u := un32 * two32 + un1.

(** The trial quotient is at least the quotient; the loop leaves when it
    is the quotient. *)
Let digit_inv (s : Z * Z) : Prop :=
  let '(q, rhat) := s in
  q * yn1 + rhat = un32 ∧ 0 ≤ rhat < 2 ^ 32 ∧ u < (q + 1) * y ∧ 0 ≤ q ∧
  q ≤ 2 ^ 32 + 1.

Lemma digit_init : digit_inv (un32 / yn1, u64 (un32 - u64 (un32 / yn1 * yn1))).
Proof.
  assert (un32 / yn1 * yn1 ≤ un32) as Hle.
  { rewrite Z.mul_comm. apply Z.mul_div_le. lia. }
  pose proof (Z.mul_succ_div_gt un32 yn1 ltac:(lia)) as Hgt.
  assert (0 ≤ un32 / yn1) by (apply Z.div_pos; lia).
  unfold two32 in *. subst y u. change (2 ^ 32) with 4294967296 in *.
  change (2 ^ 31) with 2147483648 in *.
  rewrite (uwrap_small 64 (un32 / yn1 * yn1)) by (unfold is_uint; pow2_consts; nia).
  rewrite uwrap_small by (unfold is_uint; pow2_consts; nia).
  simpl. set (q := un32 / yn1) in *. split_and!; [lia|lia|lia| |lia|].
  - assert ((un32 + 1) * 4294967296 ≤ (q + 1) * yn1 * 4294967296) by nia. nia.
  - destruct (decide (q ≤ 4294967297)); [lia|].
    assert (4294967298 * yn1 ≤ q * yn1) by nia. nia.
Qed.

Lemma digit_step s : digit_inv s →
  wp (div_correct yn1 yn0 un1 s) (λ r, match r with
    | inl s' => digit_inv s' ∧ s'.2 = s.2 + yn1
    | inr r => r.1 * y ≤ u < (r.1 + 1) * y
    end).
Proof.
  destruct s as [q rhat]. intros (E & Hr & Hu & Hq0 & Hq1). unfold div_correct.
  simpl. subst y u. unfold two32 in *. change (2 ^ 32) with 4294967296 in *.
  change (2 ^ 31) with 2147483648 in *.
  rewrite (uwrap_small 64 (4294967296 * rhat + un1)) by (unfold is_uint; pow2_consts; nia).
  assert (q < 4294967296 → u64 (q * yn0) = q * yn0) as Hw.
  { intros. apply uwrap_small. unfold is_uint. pow2_consts. nia. }
  destruct (Z.leb_spec 4294967296 q) as [Hb|Hb]; simpl.
  2: rewrite Hw by done;
     destruct (Z.ltb_spec (4294967296 * rhat + un1) (q * yn0)) as [Hc|Hc]; simpl; [|nia].
  all: rewrite !uwrap_small by (unfold is_uint; pow2_consts; nia).
  all: assert (un32 * 4294967296 + un1 < q * (yn1 * 4294967296 + yn0)) as Hlt by nia.
  all: destruct (Z.leb_spec 4294967296 (rhat + yn1)) as [Hd|Hd]; simpl; [|nia].
  all: split; [|nia].
  - assert (q = 4294967296) by nia. subst q. nia.
  - nia.
Qed.

Lemma digit_correct : wp (loop (fuel_of 2) (div_correct yn1 yn0 un1)
    (un32 / yn1, u64 (un32 - u64 (un32 / yn1 * yn1))))
  (λ r, r.1 = u / y ∧ 0 ≤ u / y < 2 ^ 32).
Proof.
  assert (0 < y) as Hy by (subst y; unfold two32; lia).
  assert (0 ≤ u / y < 2 ^ 32) as Hq.
  { subst u. unfold two32 in *. split; [apply Z.div_pos; lia|].
    apply Z.div_lt_upper_bound; [lia|]. nia. }
  apply (wp_loop digit_inv (λ s, if 2 ^ 32 <=? s.2 + yn1 then 0 else
    if 2 ^ 32 <=? s.2 + 2 * yn1 then 1 else 2)).
  - apply digit_init.
  - intros [q rhat] _. simpl. repeat case_match; lia.
  - change (Z.of_nat (fuel_of 2)) with 3. repeat case_match; lia.
  - intros [q rhat] HI. eapply wp_mono; [by apply digit_step|].
    intros [[q' r']|[q' r']]; simpl.
    + intros [HI' ->]. split; [done|]. destruct HI as (_ & ? & _).
      destruct HI' as (_ & ? & _). zcases; lia.
    + intros Hq'. split; [|done]. apply Z.div_unique with (r := u - q' * y); lia.
Qed.
End digit.

Lemma land_mask32 x : Z.land x mask32 = x mod 2 ^ 32.
Proof. apply land_mask. lia. Qed.

Lemma lor_shiftl_shiftr hi lo s : 0 ≤ s ≤ 64 → is_uint 64 lo →
  hi * 2 ^ s < 2 ^ 64 → 0 ≤ hi →
  Z.lor (u64 (Z.shiftl hi s)) (Z.shiftr lo (64 - s)) = hi * 2 ^ s + lo / 2 ^ (64 - s).
Proof.
  intros Hs Hlo Hhi Hhi0. rewrite Z.shiftl_mul_pow2, Z.shiftr_div_pow2 by lia.
  assert (0 < 2 ^ s) by (apply Z.pow_pos_nonneg; lia).
  assert (0 < 2 ^ (64 - s)) by (apply Z.pow_pos_nonneg; lia).
  rewrite uwrap_small by (unfold is_uint; nia). apply lor_disjoint_add; [lia|].
  unfold is_uint in Hlo. split; [apply Z.div_pos; lia|].
  apply Z.div_lt_upper_bound; [lia|]. rewrite <-Z.pow_add_r by lia.
  replace (64 - s + s) with 64 by lia. lia.
Qed.

(** The two digits of a normalized division: [y] has its top bit set. *)
Lemma div_two_digits y un32 un1 un0 : 2 ^ 63 ≤ y < 2 ^ 64 → 0 ≤ un32 < y →
  is_uint 32 un1 → is_uint 32 un0 →
  let q1 := (un32 * two32 + un1) / y in
  let un21 := un32 * two32 + un1 - q1 * y in
  let q0 := (un21 * two32 + un0) / y in
  u64 (u64 (u64 (un32 * two32) + un1) - u64 (q1 * y)) = un21 ∧ 0 ≤ un21 < y ∧
  u64 (u64 (u64 (un21 * two32) + un0) - u64 (q0 * y)) = un21 * two32 + un0 - q0 * y ∧
  q1 * two32 + q0 = (un32 * 2 ^ 64 + un1 * two32 + un0) / y ∧
  un21 * two32 + un0 - q0 * y = (un32 * 2 ^ 64 + un1 * two32 + un0) mod y.
Proof.
  intros Hy Hun H1 H0 q1 un21 q0.
  assert (∀ a b, 0 ≤ a - b < y → u64 (u64 a - u64 b) = a - b) as Hw.
  { intros a b Hab. unfold uwrap. rewrite <-Zminus_mod. apply Z.mod_small. lia. }
  pose proof (Z.mod_pos_bound (un32 * two32 + un1) y ltac:(lia)) as Hm1.
  rewrite Zmod_eq_full in Hm1 by lia. fold q1 un21 in Hm1.
  pose proof (Z.mod_pos_bound (un21 * two32 + un0) y ltac:(lia)) as Hm0.
  rewrite Zmod_eq_full in Hm0 by lia. fold q0 in Hm0.
  assert (un32 * 2 ^ 64 + un1 * two32 + un0 =
    y * (q1 * two32 + q0) + (un21 * two32 + un0 - q0 * y)) as E.
  { subst un21. change (2 ^ 64) with (two32 * two32). ring. }
  split_and!.
  - rewrite uwrap_add_l. by apply Hw.
  - lia.
  - lia.
  - rewrite uwrap_add_l. by apply Hw.
  - by apply Z.div_unique with (r := un21 * two32 + un0 - q0 * y); [left|].
  - by apply Z.mod_unique with (q := q1 * two32 + q0); [left|].
Qed.

(** The normalized dividend. *)
Lemma norm_split hi lo s : 0 ≤ s ≤ 64 → is_uint 64 lo →
  let un10 := u64 (lo * 2 ^ s) in
  let un32 := hi * 2 ^ s + lo / 2 ^ (64 - s) in
  un32 * 2 ^ 64 + (un10 / 2 ^ 32) * two32 + un10 mod 2 ^ 32 = (hi * 2 ^ 64 + lo) * 2 ^ s ∧
  is_uint 32 (un10 / 2 ^ 32) ∧ is_uint 32 (un10 mod 2 ^ 32).
Proof.
  intros Hs Hlo un10 un32. assert (0 < 2 ^ s) by (apply Z.pow_pos_nonneg; lia).
  assert (0 < 2 ^ (64 - s)) by (apply Z.pow_pos_nonneg; lia).
  assert (2 ^ 64 = 2 ^ (64 - s) * 2 ^ s) as E.
  { rewrite <-Z.pow_add_r by lia. f_equal. lia. }
  assert (lo * 2 ^ s / 2 ^ 64 = lo / 2 ^ (64 - s)) as Hd.
  { rewrite E. apply Z.div_mul_cancel_r; lia. }
  pose proof (Z.div_mod (lo * 2 ^ s) (2 ^ 64) ltac:(lia)) as Hdm.
  pose proof (uwrap_range 64 (lo * 2 ^ s) ltac:(lia)) as Hr.
  fold (uwrap 64 (lo * 2 ^ s)) in Hdm. fold un10 in Hdm, Hr. rewrite Hd in Hdm.
  unfold is_uint, two32 in *. split_and!; [|dlia..].
  pose proof (Z.div_mod un10 (2 ^ 32) ltac:(lia)).
  transitivity (un32 * 2 ^ 64 + un10); [lia|]. subst un32.
  replace ((hi * 2 ^ 64 + lo) * 2 ^ s) with (hi * 2 ^ s * 2 ^ 64 + lo * 2 ^ s) by ring.
  rewrite Hdm. ring.
Qed.

(** Both digits: the part of [Div64] after normalization. *)
Lemma div_digits yn un32 un1 un0 s :
  2 ^ 63 ≤ yn < 2 ^ 64 → 0 ≤ un32 < yn → is_uint 32 un1 → is_uint 32 un0 →
  let yn1 := yn / 2 ^ 32 in let yn0 := yn mod 2 ^ 32 in
  let u := un32 * 2 ^ 64 + un1 * two32 + un0 in
  ('(q1, rhat) ← loop (fuel_of 2) (div_correct yn1 yn0 un1)
     (un32 / yn1, u64 (un32 - u64 (un32 / yn1 * yn1)));
   let un21 := u64 (u64 (u64 (un32 * two32) + un1) - u64 (q1 * yn)) in
   '(q0, rhat) ← loop (fuel_of 2) (div_correct yn1 yn0 un0)
     (un21 / yn1, u64 (un21 - u64 (un21 / yn1 * yn1)));
   mret (u64 (u64 (q1 * two32) + q0),
         Z.shiftr (u64 (u64 (u64 (un21 * two32) + un0) - u64 (q0 * yn))) s))
  = Ok (u / yn, Z.shiftr (u mod yn) s).
Proof.
  intros Hyn Hun H1 H0 yn1 yn0 u.
  pose proof (div_two_digits yn un32 un1 un0 Hyn Hun H1 H0) as D. cbv zeta in D.
  set (q1' := (un32 * two32 + un1) / yn) in *.
  set (un21' := un32 * two32 + un1 - q1' * yn) in *.
  set (q0' := (un21' * two32 + un0) / yn) in *.
  destruct D as (D1 & D2 & D3 & D4 & D5).
  assert (yn1 * two32 + yn0 = yn) as Ey.
  { unfold yn1, yn0, two32. pose proof (Z.div_mod yn (2 ^ 32) ltac:(lia)). lia. }
  assert (2 ^ 31 ≤ yn1 < 2 ^ 32 ∧ 0 ≤ yn0 < 2 ^ 32) as [Hyn1 Hyn0].
  { unfold yn1, yn0. dlia. }
  pose proof (digit_correct yn1 yn0 un32 un1 Hyn1 Hyn0) as L1.
  rewrite Ey in L1. specialize (L1 Hun H1). fold q1' in L1.
  apply wp_exists in L1 as ([q1 r1] & -> & Eq1 & Hq1). simpl in Eq1. subst q1.
  cbn [mbind res_bind]. rewrite D1.
  pose proof (digit_correct yn1 yn0 un21' un0 Hyn1 Hyn0) as L0.
  rewrite Ey in L0. specialize (L0 D2 H0). fold q0' in L0.
  apply wp_exists in L0 as ([q0 r0] & -> & Eq0 & Hq0). simpl in Eq0. subst q0.
  cbn [mbind res_bind mret res_ret]. rewrite D3, D5. do 2 f_equal. fold u in D4.
  rewrite <-D4. unfold two32 in *. rewrite uwrap_add_l, uwrap_small; [done|].
  clear -Hq1 Hq0. unfold is_uint. pow2_consts. lia.
Qed.

(** What [Div64] computes once the divisor is normalized. *)
Lemma Div64_ok hi lo y : is_uint 64 hi → is_uint 64 lo → is_uint 64 y →
  hi < y → Div64 hi lo y = Ok ((hi * 2 ^ 64 + lo) / y, (hi * 2 ^ 64 + lo) mod y).
Proof.
  intros Hhi Hlo Hy Hlt. unfold Div64. unfold is_uint in Hhi, Hy.
  rewrite (proj2 (Z.eqb_neq y 0)), (proj2 (Z.leb_gt y hi)) by lia.
  destruct (Z.eqb_spec hi 0) as [->|Hhi0]; [done|].
  rewrite LeadingZeros64_spec by done. cbn [mbind res_bind].
  pose proof (bit_len_bounds y ltac:(lia)) as Hb.
  assert (1 ≤ bit_len y ≤ 64) as Hbl.
  { pose proof (bit_len_le y 64 Hy ltac:(lia)). unfold bit_len in *.
    pose proof (Z.log2_nonneg y). destruct (Z.eqb_spec y 0); lia. }
  remember (64 - bit_len y) as s eqn:Es.
  assert (0 < 2 ^ s) as Hs by (apply Z.pow_pos_nonneg; lia).
  assert (2 ^ 63 ≤ y * 2 ^ s < 2 ^ 64) as Hyn.
  { assert (2 ^ 63 = 2 ^ (bit_len y - 1) * 2 ^ s) as ->.
    { rewrite <-Z.pow_add_r by lia. f_equal. lia. }
    assert (2 ^ 64 = 2 ^ bit_len y * 2 ^ s) as ->.
    { rewrite <-Z.pow_add_r by lia. f_equal. lia. }
    nia. }
  rewrite lor_shiftl_shiftr by (done || lia || nia).
  rewrite !(Z.shiftl_mul_pow2 _ s) by lia.
  rewrite (uwrap_small 64 (y * 2 ^ s)) by (unfold is_uint; lia).
  pose proof (norm_split hi lo s ltac:(lia) Hlo) as (Hn & H1 & H0). cbv zeta in Hn, H1, H0.
  rewrite !land_mask32, !(Z.shiftr_div_pow2 _ 32) by lia.
  set (un10 := u64 (lo * 2 ^ s)) in *.
  assert (0 ≤ hi * 2 ^ s + lo / 2 ^ (64 - s) < y * 2 ^ s) as Hun.
  { assert (0 ≤ lo / 2 ^ (64 - s)).
    { unfold is_uint in Hlo. apply Z.div_pos; [lia|]. apply Z.pow_pos_nonneg; lia. }
    split; [nia|]. unfold is_uint, two32 in *.
    assert ((hi * 2 ^ 64 + lo) * 2 ^ s < y * 2 ^ s * 2 ^ 64) by nia. nia. }
  set (un32 := hi * 2 ^ s + lo / 2 ^ (64 - s)) in *.
  rewrite div_digits by done. rewrite Hn, Z.div_mul_cancel_r by lia.
  rewrite Z.mul_mod_distr_r, Z.shiftr_div_pow2, Z.div_mul by lia. done.
Qed.


(* ------------------------------------------------------------------ *)
(** ** Addition, subtraction, multiplication *)

Lemma shiftr_top x k : is_uint (k + 1) x → 0 ≤ k →
  Z.shiftr x k = Z.b2z (Z.testbit x k).
Proof.
  intros Hx Hk. unfold is_uint in Hx. assert (0 < 2 ^ k) by (apply Z.pow_pos_nonneg; lia).
  rewrite Z.pow_add_r in Hx by lia. rewrite Z.shiftr_div_pow2 by done.
  assert (0 ≤ x / 2 ^ k < 2) as Hq.
  { split; [apply Z.div_pos; lia|apply Z.div_lt_upper_bound; lia]. }
  pose proof (Z.testbit_spec' x k Hk) as Hb. rewrite Hb, Z.mod_small; lia.
Qed.

(** The top bit of a machine word, as a comparison. *)
Lemma testbit_top x k : is_uint (k + 1) x → 0 ≤ k →
  Z.testbit x k = (2 ^ k <=? x).
Proof.
  intros Hx Hk. pose proof (shiftr_top x k Hx Hk) as H. unfold is_uint in Hx.
  assert (0 < 2 ^ k) by (apply Z.pow_pos_nonneg; lia).
  rewrite Z.pow_add_r in Hx by lia. rewrite Z.shiftr_div_pow2 in H by done.
  destruct (Z.leb_spec (2 ^ k) x).
  - assert (x / 2 ^ k = 1) as Hd.
    { symmetry. apply Z.div_unique with (r := x - 2 ^ k); lia. }
    rewrite Hd in H. by destruct (Z.testbit x k).
  - rewrite Z.div_small in H by lia. by destruct (Z.testbit x k).
Qed.

Lemma is_uint_lor w x y : 0 ≤ w → is_uint w x → is_uint w y → is_uint w (Z.lor x y).
Proof.
  intros Hw Hx Hy. rewrite <-(uwrap_small w x), <-(uwrap_small w y) by done.
  unfold uwrap. rewrite <-!Z.land_ones, <-Z.land_lor_distr_l, Z.land_ones by done.
  by apply uwrap_range.
Qed.

Lemma is_uint_land_l w x y : is_uint w x → 0 ≤ w → is_uint w (Z.land x y).
Proof.
  intros Hx Hw. rewrite <-(uwrap_small w x) by done. unfold uwrap.
  rewrite <-Z.land_ones, <-Z.land_assoc, (Z.land_comm _ y), Z.land_assoc, Z.land_ones by done.
  by apply uwrap_range.
Qed.

Lemma is_uint_land_r w x y : is_uint w y → 0 ≤ w → is_uint w (Z.land x y).
Proof. rewrite Z.land_comm. apply is_uint_land_l. Qed.

Lemma is_uint_ldiff w x y : is_uint w x → 0 ≤ w → is_uint w (Z.ldiff x y).
Proof. intros. rewrite Z.ldiff_land. by apply is_uint_land_l. Qed.

Lemma testbit_uwrap w x i : 0 ≤ i < w → Z.testbit (uwrap w x) i = Z.testbit x i.
Proof. intros. unfold uwrap. by rewrite Z.mod_pow2_bits_low by lia. Qed.

Lemma Add64_exact x y carry : is_uint 64 x → is_uint 64 y → 0 ≤ carry ≤ 1 →
  Add64 x y carry = ((x + y + carry) mod 2 ^ 64, (x + y + carry) / 2 ^ 64).
Proof.
  intros Hx Hy Hc. unfold Add64. rewrite uwrap_add_l. f_equal.
  pose proof (uwrap_range 64 (x + y + carry) ltac:(lia)) as Hs.
  rewrite shiftr_top; [|apply is_uint_lor; [lia|by apply is_uint_land_l|]|lia].
  2: apply is_uint_ldiff; [by apply is_uint_lor|lia].
  rewrite Z.lor_spec, Z.land_spec, Z.ldiff_spec, Z.lor_spec, !(testbit_top _ 63) by done || lia.
  set (sum := u64 (x + y + carry)) in *.
  assert (x + y + carry = 2 ^ 64 * ((x + y + carry) / 2 ^ 64) + sum) as E.
  { apply Z.div_mod. lia. }
  unfold is_uint in *. pow2_consts. generalize dependent ((x + y + carry) / 18446744073709551616).
  intros c E. zcases; lia.
Qed.

Lemma Sub64_exact x y borrow : is_uint 64 x → is_uint 64 y → 0 ≤ borrow ≤ 1 →
  Sub64 x y borrow = ((x - y - borrow) mod 2 ^ 64, if x - y - borrow <? 0 then 1 else 0).
Proof.
  intros Hx Hy Hc. unfold Sub64. rewrite <-(Z.add_opp_r (u64 (x - y))), uwrap_add_l, Z.add_opp_r.
  f_equal. pose proof (uwrap_range 64 (x - y - borrow) ltac:(lia)) as Hs.
  rewrite shiftr_top; [|apply is_uint_lor; [lia|by apply is_uint_land_r|by apply is_uint_land_r]|lia].
  rewrite Z.lor_spec, !Z.land_spec, !testbit_uwrap, !Z.lnot_spec, Z.lxor_spec by lia.
  rewrite <-(testbit_uwrap 64 (x - y - borrow)) by lia.
  rewrite !(testbit_top _ 63) by done || lia.
  set (d := u64 (x - y - borrow)) in *.
  assert (x - y - borrow = 2 ^ 64 * ((x - y - borrow) / 2 ^ 64) + d) as E.
  { apply Z.div_mod. lia. }
  unfold is_uint in *. pow2_consts. generalize dependent ((x - y - borrow) / 18446744073709551616).
  intros c E. zcases; lia.
Qed.

(** The schoolbook product of two 2-digit numbers to the base [B]. *)
Lemma mul_digits B x0 x1 y0 y1 :
  0 < B → 0 ≤ x0 < B → 0 ≤ x1 < B → 0 ≤ y0 < B → 0 ≤ y1 < B →
  let t := x1 * y0 + x0 * y0 / B in
  let w1 := t mod B + x0 * y1 in
  let hi := x1 * y1 + t / B + w1 / B in
  hi = (x1 * B + x0) * (y1 * B + y0) / (B * B) ∧
  x0 * y0 < B * B ∧ 0 ≤ t < B * B ∧ 0 ≤ w1 < B * B ∧ 0 ≤ hi < B * B ∧
  0 ≤ x1 * y1 + t / B < B * B.
Proof.
  intros HB H0 H1 H2 H3 t w1 hi.
  pose proof (Z.div_mod (x0 * y0) B ltac:(lia)) as E0.
  pose proof (Z.mod_pos_bound (x0 * y0) B HB) as R0.
  assert (0 ≤ x0 * y0 ≤ (B - 1) * (B - 1)) by nia.
  assert (0 ≤ x1 * y0 ≤ (B - 1) * (B - 1)) by nia.
  assert (0 ≤ x0 * y1 ≤ (B - 1) * (B - 1)) by nia.
  assert (0 ≤ x1 * y1 ≤ (B - 1) * (B - 1)) by nia.
  assert (0 ≤ x0 * y0 / B ≤ B - 1) as Hd0.
  { split; [apply Z.div_pos; lia|]. apply Z.lt_succ_r, Z.div_lt_upper_bound; nia. }
  assert (0 ≤ t < B * B) as Ht by nia.
  pose proof (Z.div_mod t B ltac:(lia)) as Et. pose proof (Z.mod_pos_bound t B HB) as Rt.
  assert (0 ≤ w1 < B * B) as Hw by nia.
  pose proof (Z.div_mod w1 B ltac:(lia)) as Ew. pose proof (Z.mod_pos_bound w1 B HB) as Rw.
  assert (0 ≤ t / B) by (apply Z.div_pos; lia).
  assert (0 ≤ w1 / B) by (apply Z.div_pos; lia).
  assert ((x1 * B + x0) * (y1 * B + y0)
    = B * B * hi + ((w1 mod B) * B + (x0 * y0) mod B)) as E.
  { transitivity (x1 * y1 * (B * B) + x1 * y0 * B + x0 * y1 * B + x0 * y0); [ring|].
    replace (x0 * y0) with (B * (x0 * y0 / B) + (x0 * y0) mod B) at 1 by lia.
    transitivity (x1 * y1 * (B * B) + t * B + x0 * y1 * B + (x0 * y0) mod B); [unfold t; ring|].
    replace (t * B) with ((B * (t / B) + t mod B) * B) by (f_equal; lia).
    transitivity ((x1 * y1 + t / B) * (B * B) + w1 * B + (x0 * y0) mod B); [unfold w1; ring|].
    replace (w1 * B) with ((B * (w1 / B) + w1 mod B) * B) by (f_equal; lia).
    unfold hi. ring. }
  assert (0 ≤ (x1 * B + x0) * (y1 * B + y0) < B * B * (B * B)) by (split; nia).
  assert (0 ≤ (w1 mod B) * B ≤ (B - 1) * B).
  { split; [apply Z.mul_nonneg_nonneg; lia|apply Z.mul_le_mono_nonneg_r; lia]. }
  assert (0 ≤ hi) by (clear E; unfold hi; lia).
  assert (0 ≤ (w1 mod B) * B + (x0 * y0) mod B < B * B) as Hr by (clear E; lia).
  revert E. generalize dependent ((w1 mod B) * B + (x0 * y0) mod B). intros r Hr E.
  assert (hi < B * B).
  { apply (Z.mul_lt_mono_pos_l (B * B)); [clear -HB; nia|]. rewrite E in *. clear E. lia. }
  split_and!; [by apply Z.div_unique with (r := r); [left|]|..].
  all: clear E; lia.
Qed.

Lemma Mul64_exact x y : is_uint 64 x → is_uint 64 y →
  Mul64 x y = (x * y / 2 ^ 64, (x * y) mod 2 ^ 64).
Proof.
  intros Hx Hy. unfold Mul64. rewrite !Z.shiftr_div_pow2, !land_mask by lia.
  f_equal. set (x0 := x mod 2 ^ 32). set (x1 := x / 2 ^ 32).
  set (y0 := y mod 2 ^ 32). set (y1 := y / 2 ^ 32).
  assert (x = x1 * 2 ^ 32 + x0 ∧ 0 ≤ x0 < 2 ^ 32 ∧ 0 ≤ x1 < 2 ^ 32) as (Ex & Hx0 & Hx1).
  { subst x0 x1. unfold is_uint in *. dlia. }
  assert (y = y1 * 2 ^ 32 + y0 ∧ 0 ≤ y0 < 2 ^ 32 ∧ 0 ≤ y1 < 2 ^ 32) as (Ey & Hy0 & Hy1).
  { subst y0 y1. unfold is_uint in *. dlia. }
  clearbody x0 x1 y0 y1. subst x y.
  pose proof (mul_digits (2 ^ 32) x0 x1 y0 y1 ltac:(lia) Hx0 Hx1 Hy0 Hy1) as D.
  cbv zeta in D. change (2 ^ 32 * 2 ^ 32) with (2 ^ 64) in D.
  destruct D as (D1 & D2 & D3 & D4 & D5 & D6).
  assert (∀ a b, 0 ≤ a < 2 ^ 32 → 0 ≤ b < 2 ^ 32 → u64 (a * b) = a * b) as Hm.
  { intros a b ??. apply uwrap_small. unfold is_uint. pow2_consts. nia. }
  rewrite !Hm by done. rewrite (uwrap_small 64 (x1 * y0 + _)) by done.
  rewrite (uwrap_small 64 (_ + x0 * y1)) by done.
  rewrite (uwrap_small 64 (x1 * y1 + _)) by done.
  by rewrite uwrap_small by done.
Qed.


(* ------------------------------------------------------------------ *)
(** ** Trailing zeros: the lowest set bit, and the de Bruijn tables *)

Lemma odd_part x : 0 < x → ∃ k q, 0 ≤ k ∧ 0 ≤ q ∧ x = 2 ^ k * (2 * q + 1).
Proof.
  intros Hx. induction x as [x IH] using (well_founded_induction (Z.lt_wf 0)).
  destruct (Z.Even_or_Odd x) as [[y Hy]|[q Hq]].
  - destruct (IH y) as (k & q & Hk & Hq & E); [lia..|]. exists (k + 1), q.
    split_and!; [lia..|]. rewrite Hy, E, Z.pow_add_r by lia. ring.
  - exists 0, q. split_and!; lia.
Qed.

Lemma land_lowest w k q : 0 ≤ k < w → 0 ≤ q →
  Z.land (2 ^ k * (2 * q + 1)) (uwrap w (- (2 ^ k * (2 * q + 1)))) = 2 ^ k.
Proof.
  intros Hk Hq. apply Z.bits_inj'. intros i Hi.
  rewrite Z.land_spec, Z.pow2_bits_eqb by lia.
  assert (- (2 ^ k * (2 * q + 1)) = 2 ^ k * (2 * (- q - 1) + 1)) as -> by ring.
  destruct (decide (i < k)) as [Hik|Hik].
  { rewrite (Z.mul_comm (2 ^ k)), Z.mul_pow2_bits_low by lia. simpl. symmetry.
    apply Z.eqb_neq. lia. }
  rewrite !(Z.mul_comm (2 ^ k)), Z.mul_pow2_bits by lia.
  destruct (decide (i < w)) as [Hiw|Hiw].
  2: { unfold uwrap. rewrite Z.mod_pow2_bits_high, andb_false_r by lia. symmetry.
    apply Z.eqb_neq. lia. }
  rewrite testbit_uwrap, Z.mul_pow2_bits by lia.
  destruct (Z.eqb_spec k i) as [->|].
  - rewrite Z.sub_diag, !Z.testbit_odd_0. done.
  - replace (i - k) with (Z.succ (i - k - 1)) by lia.
    rewrite !Z.testbit_odd_succ by lia.
    replace (- q - 1) with (Z.lnot q) by (unfold Z.lnot; lia).
    rewrite Z.lnot_spec by lia. apply andb_negb_r.
Qed.

(** [n] is the number of trailing zero bits of [x]. *)
Definition trailing_zeros (x n : Z) : Prop := ∃ q, 0 ≤ q ∧ 0 ≤ n ∧ x = 2 ^ n * (2 * q + 1).

Lemma trailing_zeros_bits x n : trailing_zeros x n →
  Z.testbit x n = true ∧ ∀ i, 0 ≤ i < n → Z.testbit x i = false.
Proof.
  intros (q & Hq & Hn & ->). rewrite Z.mul_comm. split.
  - by rewrite Z.mul_pow2_bits, Z.sub_diag, Z.testbit_odd_0 by lia.
  - intros i Hi. by rewrite Z.mul_pow2_bits_low by lia.
Qed.

Lemma trailing_zeros_exists w x : 0 ≤ w → is_uint w x → x ≠ 0 →
  ∃ n, trailing_zeros x n ∧ 0 ≤ n < w.
Proof.
  unfold is_uint. intros Hw Hx Hx0. destruct (odd_part x) as (k & q & Hk & Hq & E); [lia|].
  exists k. split; [by exists q|]. split; [done|].
  destruct (decide (k < w)); [done|].
  assert (2 ^ w ≤ 2 ^ k) by (apply Z.pow_le_mono_r; lia). nia.
Qed.

Lemma forall_range (P : Z → bool) n :
  forallb P (seqZ 0 n) = true → ∀ k, 0 ≤ k < n → P k = true.
Proof.
  intros H k Hk. rewrite forallb_forall in H. apply H.
  apply list_elem_of_In, elem_of_seqZ. lia.
Qed.

Lemma deBruijn64_lookup k : 0 ≤ k < 64 →
  idx deBruijn64tab (Z.shiftr (u64 (2 ^ k * deBruijn64)) (64 - 6)) = Ok k.
Proof.
  intros Hk. apply idx_Ok.
  pose proof (forall_range (λ k, bool_decide (zget deBruijn64tab
    (Z.shiftr (u64 (2 ^ k * deBruijn64)) (64 - 6)) = Some k)) 64 eq_refl k Hk) as H.
  by apply bool_decide_eq_true in H.
Qed.

Lemma deBruijn32_lookup k : 0 ≤ k < 32 →
  idx deBruijn32tab (Z.shiftr (u32 (2 ^ k * deBruijn32)) (32 - 5)) = Ok k.
Proof.
  intros Hk. apply idx_Ok.
  pose proof (forall_range (λ k, bool_decide (zget deBruijn32tab
    (Z.shiftr (u32 (2 ^ k * deBruijn32)) (32 - 5)) = Some k)) 32 eq_refl k Hk) as H.
  by apply bool_decide_eq_true in H.
Qed.

Lemma TrailingZeros64_spec x n : is_uint 64 x → trailing_zeros x n →
  TrailingZeros64 x = Ok n.
Proof.
  intros Hx (q & Hq & Hn & ->). unfold TrailingZeros64. unfold is_uint in Hx.
  assert (0 < 2 ^ n) by (apply Z.pow_pos_nonneg; lia).
  assert (n < 64).
  { destruct (decide (n < 64)); [done|].
    assert (2 ^ 64 ≤ 2 ^ n) by (apply Z.pow_le_mono_r; lia). nia. }
  rewrite (proj2 (Z.eqb_neq _ 0)) by nia. rewrite land_lowest by lia.
  by apply deBruijn64_lookup.
Qed.

Lemma TrailingZeros32_spec x n : is_uint 32 x → trailing_zeros x n →
  TrailingZeros32 x = Ok n.
Proof.
  intros Hx (q & Hq & Hn & ->). unfold TrailingZeros32. unfold is_uint in Hx.
  assert (0 < 2 ^ n) by (apply Z.pow_pos_nonneg; lia).
  assert (n < 32).
  { destruct (decide (n < 32)); [done|].
    assert (2 ^ 32 ≤ 2 ^ n) by (apply Z.pow_le_mono_r; lia). nia. }
  rewrite (proj2 (Z.eqb_neq _ 0)) by nia. rewrite land_lowest by lia.
  by apply deBruijn32_lookup.
Qed.

Lemma TrailingZeros16_spec x n : is_uint 16 x → trailing_zeros x n →
  TrailingZeros16 x = Ok n.
Proof.
  intros Hx (q & Hq & Hn & ->). unfold TrailingZeros16. unfold is_uint in Hx.
  assert (0 < 2 ^ n) by (apply Z.pow_pos_nonneg; lia).
  assert (n < 16).
  { destruct (decide (n < 16)); [done|].
    assert (2 ^ 16 ≤ 2 ^ n) by (apply Z.pow_le_mono_r; lia). nia. }
  rewrite (proj2 (Z.eqb_neq _ 0)) by nia. rewrite land_lowest by lia.
  rewrite (uwrap_small 32 (2 ^ n)); [apply deBruijn32_lookup; lia|].
  unfold is_uint. split; [lia|]. apply Z.pow_lt_mono_r; lia.
Qed.

(* ------------------------------------------------------------------ *)
(** ** Counting bits *)

(** The number of ones among the low [n] bits. *)
Fixpoint popcount (n : nat) (x : Z) : Z :=
  match n with
  | O => 0
  | S n => x mod 2 + popcount n (x / 2)
  end.

(** A number by its digits to the base [2 ^ w]. *)
Fixpoint digits (w : Z) (l : list Z) : Z :=
  match l with
  | [] => 0
  | d :: l => d + 2 ^ w * digits w l
  end.

Fixpoint pair_sums (l : list Z) : list Z :=
  match l with
  | a :: b :: l => (a + b) :: pair_sums l
  | _ => l
  end.

Lemma land_digit w d m r r' : 0 ≤ w → is_uint w d → is_uint w m →
  Z.land (d + 2 ^ w * r) (m + 2 ^ w * r') = Z.land d m + 2 ^ w * Z.land r r'.
Proof.
  intros Hw Hd Hm.
  assert (∀ d r, is_uint w d → d + 2 ^ w * r = Z.lor (Z.shiftl r w) d) as E.
  { intros. rewrite lor_shiftl by done. lia. }
  rewrite !E by (done || by apply is_uint_land_l).
  apply Z.bits_inj'. intros i Hi. rewrite Z.land_spec, !Z.lor_spec, Z.land_spec.
  rewrite !Z.shiftl_spec by done. destruct (decide (i < w)).
  - rewrite !(Z.testbit_neg_r _ (i - w)) by lia. done.
  - unfold is_uint in *. rewrite (testbit_high d w), (testbit_high m w) by lia.
    by rewrite !orb_false_r, Z.land_spec.
Qed.

Lemma digits_shiftr w d l : 0 < w → is_uint w d →
  Z.shiftr (digits w (d :: l)) w = digits w l.
Proof.
  intros Hw Hd. assert (0 < 2 ^ w) by (apply Z.pow_pos_nonneg; lia).
  rewrite Z.shiftr_div_pow2 by lia. symmetry. unfold is_uint in Hd.
  apply Z.div_unique with (r := d); [lia|simpl; lia].
Qed.

Lemma div_add_digit p a q : 0 ≤ a < p → (a + p * q) / p = q.
Proof. intros. symmetry. apply Z.div_unique with (r := a); lia. Qed.

Lemma mod_add_digit p a q : 0 ≤ a < p → (a + p * q) mod p = a.
Proof. intros. symmetry. apply Z.mod_unique with (q := q); lia. Qed.

(** The mask with every second field of [w] bits set. *)
Definition mask_of (w : Z) (n : nat) : Z := digits (2 * w) (repeat (2 ^ w - 1) n).

(** Masking a number keeps every second of its fields. *)
Lemma land_mask_of w n a b r : 0 < w → is_uint w a → is_uint w b →
  Z.land (a + 2 ^ w * (b + 2 ^ w * r)) (mask_of w (S n)) =
  a + 2 ^ (2 * w) * Z.land r (mask_of w n).
Proof.
  intros Hw Ha Hb. assert (0 < 2 ^ w) by (apply Z.pow_pos_nonneg; lia).
  assert (2 ^ (2 * w) = 2 ^ w * 2 ^ w) as E.
  { rewrite <-Z.pow_add_r by lia. f_equal. lia. }
  unfold mask_of. cbn [repeat digits]. unfold is_uint in *.
  replace (a + 2 ^ w * (b + 2 ^ w * r)) with ((a + 2 ^ w * b) + 2 ^ (2 * w) * r) by (rewrite E; ring).
  rewrite land_digit; [|lia|unfold is_uint; rewrite E; nia..].
  by rewrite land_mask, mod_add_digit by lia.
Qed.

Lemma digits_nonneg w l : 0 ≤ w → Forall (λ d, 0 ≤ d) l → 0 ≤ digits w l.
Proof.
  intros Hw. assert (0 < 2 ^ w) by (apply Z.pow_pos_nonneg; lia).
  induction 1; simpl; nia.
Qed.

(** The first field of a number: the one at the head of its digits. *)
Lemma digits_split w l : Forall (is_uint w) l → 0 < w →
  ∃ c r, is_uint w c ∧ digits w l = c + 2 ^ w * r ∧ Z.shiftr (digits w l) w = r ∧
    (c = 0 ∨ c ∈ l).
Proof.
  intros Hl Hw. assert (0 < 2 ^ w) by (apply Z.pow_pos_nonneg; lia).
  destruct Hl as [|c l Hc Hl].
  - exists 0, 0. simpl. rewrite Z.shiftr_0_l. unfold is_uint. split_and!; (lia || auto).
  - exists c, (digits w l). rewrite digits_shiftr by done.
    split_and!; [done..|right; constructor].
Qed.

(** One parallel step: neighbouring fields are added into fields of twice the
    width, after masking or, when the sums fit, before it. *)
Lemma swar_step w n l : 0 < w → Forall (is_uint w) l → length l = (n + n)%nat →
  Z.land (Z.shiftr (digits w l) w) (mask_of w n) + Z.land (digits w l) (mask_of w n)
  = digits (2 * w) (pair_sums l).
Proof.
  intros Hw. revert l. induction n as [|n IH]; intros l Hl Hlen.
  { destruct l; [|done]. unfold mask_of. simpl. by rewrite !Z.land_0_r. }
  destruct l as [|a [|b l]]; simpl in Hlen; [lia..|].
  inversion_clear Hl as [|?? Ha Hl']. inversion_clear Hl' as [|?? Hb Hl].
  specialize (IH l Hl ltac:(lia)).
  rewrite digits_shiftr by done. cbn [digits pair_sums].
  rewrite (land_mask_of w n a b) by done.
  destruct (digits_split w l Hl Hw) as (c & r & Hc & E & Es & _).
  rewrite Es in IH. rewrite <-IH, E at 1. rewrite land_mask_of by done.
  lia.
Qed.

Lemma swar_step_late w n l : 0 < w → Forall (λ d, 0 ≤ d < 2 ^ (w - 1)) l →
  length l = (n + n)%nat →
  Z.land (Z.shiftr (digits w l) w + digits w l) (mask_of w n)
  = digits (2 * w) (pair_sums l).
Proof.
  intros Hw. assert (2 ^ w = 2 * 2 ^ (w - 1)) as Ew.
  { rewrite <-Z.pow_succ_r by lia. f_equal. lia. }
  revert l. induction n as [|n IH]; intros l Hl Hlen.
  { destruct l; [|done]. unfold mask_of. simpl. by rewrite !Z.land_0_r. }
  destruct l as [|a [|b l]]; simpl in Hlen; [lia..|].
  inversion_clear Hl as [|?? Ha Hl']. inversion_clear Hl' as [|?? Hb Hl].
  specialize (IH l Hl ltac:(lia)).
  assert (Forall (is_uint w) l) as Hl'.
  { eapply Forall_impl; [done|]. intros d Hd. unfold is_uint. simpl in Hd. lia. }
  rewrite digits_shiftr by (unfold is_uint; lia). cbn [digits pair_sums].
  destruct (digits_split w l Hl' Hw) as (c & r & Hc & E & Es & Hcl).
  assert (0 ≤ c < 2 ^ (w - 1)) as Hc'.
  { destruct Hcl as [->|Hcl]; [lia|]. rewrite Forall_forall in Hl. exact (Hl c Hcl). }
  rewrite Es in IH. rewrite <-IH. rewrite E at 1.
  replace (b + 2 ^ w * (c + 2 ^ w * r) + (a + 2 ^ w * (b + 2 ^ w * digits w l)))
    with ((a + b) + 2 ^ w * ((b + c) + 2 ^ w * (r + digits w l))) by ring.
  rewrite land_mask_of by (unfold is_uint; lia). by rewrite E.
Qed.


Fixpoint bit_list (n : nat) (x : Z) : list Z :=
  match n with
  | O => []
  | S n => x mod 2 :: bit_list n (x / 2)
  end.

Definition sum_list_Z (l : list Z) : Z := foldr Z.add 0 l.

Lemma popcount_sum n x : popcount n x = sum_list_Z (bit_list n x).
Proof. revert x. induction n as [|n IH]; intros x; simpl; [done|]. by rewrite IH. Qed.

Lemma digits_bit_list n x : 0 ≤ x < 2 ^ Z.of_nat n → digits 1 (bit_list n x) = x.
Proof.
  revert x. induction n as [|n IH]; intros x Hx; simpl.
  { simpl in Hx. lia. }
  rewrite Nat2Z.inj_succ, Z.pow_succ_r in Hx by lia.
  rewrite IH by (split; [apply Z.div_pos|apply Z.div_lt_upper_bound]; lia).
  change (Z.pow_pos 2 1) with 2. pose proof (Z.div_mod x 2 ltac:(lia)). lia.
Qed.

Lemma length_bit_list n x : length (bit_list n x) = n.
Proof. revert x. induction n; intros; simpl; auto. Qed.

Lemma bit_list_bound n x : Forall (λ d, 0 ≤ d ≤ 1) (bit_list n x).
Proof.
  revert x. induction n as [|n IH]; intros x; constructor; [|done].
  pose proof (Z.mod_pos_bound x 2 ltac:(lia)). lia.
Qed.

Lemma pair_sums_sum n l : length l = (n + n)%nat →
  sum_list_Z (pair_sums l) = sum_list_Z l ∧ length (pair_sums l) = n.
Proof.
  revert l. induction n as [|n IH]; intros l Hl.
  { by destruct l. }
  destruct l as [|a [|b l]]; simpl in Hl; [lia..|].
  destruct (IH l) as [E El]; [lia|]. simpl. rewrite E, El. split; lia.
Qed.

Lemma pair_sums_bound n m l : length l = (n + n)%nat →
  Forall (λ d, 0 ≤ d ≤ m) l → Forall (λ d, 0 ≤ d ≤ 2 * m) (pair_sums l).
Proof.
  revert l. induction n as [|n IH]; intros l Hlen Hl.
  { by destruct l. }
  destruct l as [|a [|b l]]; simpl in Hlen; [lia..|].
  inversion_clear Hl as [|?? Ha Hl']. inversion_clear Hl' as [|?? Hb Hl].
  simpl. constructor; [lia|]. apply IH; [lia|done].
Qed.

Lemma digits_bound w n l : 0 ≤ w → length l = n → Forall (is_uint w) l →
  0 ≤ digits w l < 2 ^ (w * Z.of_nat n).
Proof.
  intros Hw <- Hl. assert (0 < 2 ^ w) by (apply Z.pow_pos_nonneg; lia).
  induction Hl as [|d l Hd Hl IH]; [simpl; by rewrite Z.mul_0_r|].
  cbn [digits length]. rewrite Nat2Z.inj_succ, Z.mul_succ_r, Z.pow_add_r by lia.
  unfold is_uint in Hd. nia.
Qed.

Lemma digits_le w m n l : 0 ≤ w → length l = n → Forall (λ d, 0 ≤ d ≤ m) l →
  digits w l * (2 ^ w - 1) ≤ m * (2 ^ (w * Z.of_nat n) - 1).
Proof.
  intros Hw <- Hl. assert (0 < 2 ^ w) by (apply Z.pow_pos_nonneg; lia).
  induction Hl as [|d l Hd Hl IH]; [simpl; rewrite Z.mul_0_r; simpl; lia|].
  cbn [digits length]. rewrite Nat2Z.inj_succ, Z.mul_succ_r, Z.pow_add_r by lia. nia.
Qed.

(** The last steps of [OnesCount64] add up the eight bytes. *)
Lemma byte_total l : length l = 8%nat → Forall (λ d, 0 ≤ d ≤ 8) l →
  (let x := digits 8 l in
   let x := u64 (x + Z.shiftr x 8) in
   let x := u64 (x + Z.shiftr x 16) in
   let x := u64 (x + Z.shiftr x 32) in
   Z.land x (2 ^ 7 - 1)) = sum_list_Z l.
Proof.
  intros Hlen Hl.
  destruct l as [|b0 [|b1 [|b2 [|b3 [|b4 [|b5 [|b6 [|b7 [|]]]]]]]]]; try done.
  rewrite !Forall_cons in Hl. destruct Hl as (H0 & H1 & H2 & H3 & H4 & H5 & H6 & H7 & _).
  cbv zeta. rewrite land_mask, !Z.shiftr_div_pow2 by lia.
  cbn [digits sum_list_Z foldr]. change (2 ^ 8) with 256.
  set (x := b0 + _). set (y := b1 + 256 * (b2 + 256 * (b3 + 256 * (b4 + 256 * (b5 + 256 * (b6 + 256 * (b7 + 256 * 0))))))).
  assert (x / 256 = y) as -> by (unfold x; apply div_add_digit; lia).
  rewrite (uwrap_small 64 (x + y)) by (unfold is_uint, x, y; pow2_consts; lia).
  set (z := (b2 + b3) + 256 * ((b3 + b4) + 256 * ((b4 + b5) + 256 * ((b5 + b6) + 256 * ((b6 + b7) + 256 * b7))))).
  assert ((x + y) / 2 ^ 16 = z) as ->.
  { symmetry. apply Z.div_unique with (r := (b0 + b1) + 256 * (b1 + b2)); unfold x, y, z; pow2_consts; lia. }
  rewrite (uwrap_small 64 (x + y + z)) by (unfold is_uint, x, y, z; pow2_consts; lia).
  set (t := (b4 + b5 + b6 + b7) + 256 * ((b5 + b6 + b7) + 256 * ((b6 + b7) + 256 * b7))).
  assert ((x + y + z) / 2 ^ 32 = t) as ->.
  { symmetry. apply Z.div_unique with (r := (b0 + b1 + b2 + b3) + 256 * ((b1 + b2 + b3 + b4) +
      256 * ((b2 + b3 + b4 + b5) + 256 * (b3 + b4 + b5 + b6)))); unfold x, y, z, t; pow2_consts; lia. }
  rewrite (uwrap_small 64 (x + y + z + t)) by (unfold is_uint, x, y, z, t; pow2_consts; lia).
  pow2_consts. unfold x, y, z, t. dlia.
Qed.

Lemma OnesCount64_popcount x : is_uint 64 x → OnesCount64 x = popcount 64 x.
Proof.
  intros Hx. unfold OnesCount64. change (2 ^ 64 - 1) with 0xffffffffffffffff.
  change (Z.land m0 0xffffffffffffffff) with (mask_of 1 32).
  change (Z.land m1 0xffffffffffffffff) with (mask_of 2 16).
  change (Z.land m2 0xffffffffffffffff) with (mask_of 4 8).
  rewrite popcount_sum. pose proof (digits_bit_list 64 x Hx) as Ex.
  pose proof (length_bit_list 64 x) as L0. pose proof (bit_list_bound 64 x) as B0.
  remember (bit_list 64 x) as l0 eqn:El0. clear El0 Hx. subst x.
  destruct (pair_sums_sum 32 l0 L0) as [S1 L1]. pose proof (pair_sums_bound 32 1 l0 L0 B0) as B1.
  remember (pair_sums l0) as l1 eqn:E1.
  destruct (pair_sums_sum 16 l1 L1) as [S2 L2]. pose proof (pair_sums_bound 16 2 l1 L1 B1) as B2.
  remember (pair_sums l1) as l2 eqn:E2.
  destruct (pair_sums_sum 8 l2 L2) as [S3 L3]. pose proof (pair_sums_bound 8 4 l2 L2 B2) as B3.
  remember (pair_sums l2) as l3 eqn:E3.
  assert (∀ w m l, 0 ≤ m < 2 ^ w → Forall (λ d, 0 ≤ d ≤ m) l → Forall (is_uint w) l) as HF.
  { intros w m l Hm Hl. eapply Forall_impl; [done|]. unfold is_uint. simpl. lia. }
  pose proof (HF 1 1 l0 ltac:(lia) B0) as F0.
  pose proof (HF 2 2 l1 ltac:(lia) B1) as F1.
  pose proof (HF 4 4 l2 ltac:(lia) B2) as F2.
  rewrite (swar_step 1 32), <-E1 by (done || lia). change (2 * 1) with 2.
  rewrite (uwrap_small 64 (digits 2 l1)) by (by apply (digits_bound 2 32)).
  rewrite (swar_step 2 16), <-E2 by (done || lia). change (2 * 2) with 4.
  rewrite (uwrap_small 64 (digits 4 l2)) by (by apply (digits_bound 4 16)).
  pose proof (digits_le 4 4 16 l2 ltac:(lia) L2 B2) as Hd2.
  pose proof (digits_nonneg 4 l2 ltac:(lia)) as Hd0.
  assert (Forall (λ d, 0 ≤ d) l2) as Hp2 by (eapply Forall_impl; [apply B2|]; intros d Hd; simpl in *; lia).
  specialize (Hd0 Hp2).
  rewrite (uwrap_small 64 (_ + digits 4 l2)).
  2: { unfold is_uint. rewrite Z.shiftr_div_pow2 by lia. clear -Hd2 Hd0. dlia. }
  rewrite (swar_step_late 4 8), <-E3.
  2: lia.
  2: { eapply Forall_impl; [apply B2|]. intros d Hd. simpl in *. lia. }
  2: done.
  change (4 * 2) with 8. rewrite <-S1, <-S2, <-S3. by apply byte_total.
Qed.


Lemma popcount_add n m x : popcount (n + m) x = popcount n x + popcount m (x / 2 ^ Z.of_nat n).
Proof.
  revert x. induction n as [|n IH]; intros x; cbn [popcount Nat.add].
  { by rewrite Z.div_1_r. }
  rewrite IH, Nat2Z.inj_succ, Z.pow_succ_r by lia.
  rewrite Z.div_div by lia. lia.
Qed.

Lemma popcount_mod n x : popcount n (x mod 2 ^ Z.of_nat n) = popcount n x.
Proof.
  revert x. induction n as [|n IH]; intros x; cbn [popcount]; [done|].
  rewrite Nat2Z.inj_succ, Z.pow_succ_r by lia.
  assert (0 < 2 ^ Z.of_nat n) by (apply Z.pow_pos_nonneg; lia).
  rewrite Z.rem_mul_r by lia.
  replace (x mod 2 + 2 * ((x / 2) mod 2 ^ Z.of_nat n)) with
    (((x / 2) mod 2 ^ Z.of_nat n) * 2 + x mod 2) by lia.
  pose proof (Z.mod_pos_bound x 2 ltac:(lia)).
  rewrite Z.div_add_l, (Z.div_small (x mod 2)), Z.add_0_r, IH by lia.
  f_equal. set (k := (x / 2) mod _). clearbody k. dlia.
Qed.

Lemma popcount_bound n x : 0 ≤ popcount n x ≤ Z.of_nat n.
Proof.
  revert x. induction n as [|n IH]; intros x; cbn [popcount]; [lia|].
  specialize (IH (x / 2)). pose proof (Z.mod_pos_bound x 2 ltac:(lia)). lia.
Qed.

Lemma pop8tab_popcount x : byte x → idx pop8tab x = Ok (popcount 8 x).
Proof.
  intros Hx. apply idx_Ok.
  pose proof (forall_byte (λ x, bool_decide (zget pop8tab x = Some (popcount 8 x)))
    eq_refl x Hx) as H. by apply bool_decide_eq_true in H.
Qed.

Lemma pop8tab_mask x : idx pop8tab (Z.land x 0xff) = Ok (popcount 8 x).
Proof.
  change 0xff with (2 ^ 8 - 1). rewrite land_mask by lia.
  rewrite pop8tab_popcount by (apply (uwrap_range 8); lia).
  f_equal. apply (popcount_mod 8).
Qed.

Lemma OnesCount16_popcount x : is_uint 16 x → OnesCount16 x = Ok (popcount 16 x).
Proof.
  intros Hx. unfold OnesCount16. rewrite pop8tab_mask, Z.shiftr_div_pow2 by lia.
  rewrite pop8tab_popcount by (unfold is_uint in *; dlia). cbn [mbind res_bind mret res_ret].
  change (popcount 16 x) with (popcount (8 + 8) x). rewrite popcount_add. change (2 ^ Z.of_nat 8) with (2 ^ 8).
  pose proof (popcount_bound 8 x). pose proof (popcount_bound 8 (x / 2 ^ 8)).
  rewrite uwrap_small by (unfold is_uint; pow2_consts; lia). f_equal. lia.
Qed.

Lemma OnesCount32_popcount x : is_uint 32 x → OnesCount32 x = Ok (popcount 32 x).
Proof.
  intros Hx. unfold OnesCount32. rewrite !pop8tab_mask, !Z.shiftr_div_pow2 by lia.
  rewrite pop8tab_popcount by (unfold is_uint in *; dlia). cbn [mbind res_bind mret res_ret].
  change (popcount 32 x) with (popcount (8 + (8 + (8 + 8))) x). rewrite !popcount_add.
  rewrite !Z.div_div by lia. change (2 ^ Z.of_nat 8) with (2 ^ 8).
  change (2 ^ 8 * 2 ^ 8 * 2 ^ 8) with (2 ^ 24). change (2 ^ 8 * 2 ^ 8) with (2 ^ 16).
  pose proof (popcount_bound 8 x). pose proof (popcount_bound 8 (x / 2 ^ 8)).
  pose proof (popcount_bound 8 (x / 2 ^ 16)). pose proof (popcount_bound 8 (x / 2 ^ 24)).
  rewrite (uwrap_small 8 (popcount 8 (x / 2 ^ 24) + popcount 8 (x / 2 ^ 16)))
    by (unfold is_uint; pow2_consts; lia).
  rewrite (uwrap_small 8 (_ + popcount 8 (x / 2 ^ 8))) by (unfold is_uint; pow2_consts; lia).
  rewrite uwrap_small by (unfold is_uint; pow2_consts; lia). f_equal. lia.
Qed.

(* ------------------------------------------------------------------ *)
(** ** Reversal and rotation, bit by bit *)

(** One step of the reversals exchanges the bits whose positions differ in
    one bit of the position's binary representation. *)
Definition swap_mask (w s m i : Z) : bool :=
  if Z.testbit m i then
    (Z.lxor i s =? i + s) && ((i <? s) || negb (Z.testbit m (i - s)))
  else (Z.lxor i s =? i - s) && (s <=? i) && Z.testbit m (i - s).

Lemma swap_bits_step w s m x :
  0 ≤ s → forallb (swap_mask w s m) (seqZ 0 w) = true →
  ∀ i, 0 ≤ i < w →
  Z.testbit (Z.lor (Z.land (Z.shiftr x s) m) (uwrap w (Z.shiftl (Z.land x m) s))) i
  = Z.testbit x (Z.lxor i s).
Proof.
  intros Hs Hm i Hi. pose proof (forall_range _ w Hm i Hi) as H. unfold swap_mask in H.
  rewrite Z.lor_spec, Z.land_spec, testbit_uwrap, Z.shiftr_spec, Z.shiftl_spec by lia.
  destruct (Z.testbit m i) eqn:E.
  - apply andb_true_iff in H as [->%Z.eqb_eq H]. rewrite andb_true_r.
    apply orb_true_iff in H as [H%Z.ltb_lt|H].
    + by rewrite (Z.testbit_neg_r _ (i - s)), orb_false_r by lia.
    + destruct (decide (i < s)); [by rewrite (Z.testbit_neg_r _ (i - s)), orb_false_r by lia|].
      rewrite Z.land_spec. destruct (Z.testbit m (i - s)); [done|].
      by rewrite andb_false_r, orb_false_r.
  - apply andb_true_iff in H as [[->%Z.eqb_eq Hsi%Z.leb_le]%andb_true_iff H].
    by rewrite andb_false_r, Z.land_spec, H, andb_true_r by lia.
Qed.

(** The last step of the byte reversals exchanges the two halves. *)
Lemma swap_halves w s x : 0 ≤ s → is_uint w x → w = 2 * s →
  forallb (λ i, Z.lxor i s =? if i <? s then i + s else i - s) (seqZ 0 w) = true →
  ∀ i, 0 ≤ i < w →
  Z.testbit (Z.lor (Z.shiftr x s) (uwrap w (Z.shiftl x s))) i = Z.testbit x (Z.lxor i s).
Proof.
  intros Hs Hx -> Hm i Hi. pose proof (forall_range _ _ Hm i Hi) as H%Z.eqb_eq.
  rewrite H. clear Hm H.
  rewrite Z.lor_spec, testbit_uwrap, Z.shiftr_spec, Z.shiftl_spec by lia.
  destruct (Z.ltb_spec i s).
  - by rewrite (Z.testbit_neg_r _ (i - s)), orb_false_r by lia.
  - by rewrite (testbit_high x (2 * s)) by (try done; lia).
Qed.

Lemma lxor_range i k w : 0 ≤ w → is_uint w i → is_uint w k → is_uint w (Z.lxor i k).
Proof.
  intros Hw Hi Hk. rewrite <-(uwrap_small w i), <-(uwrap_small w k) by done.
  unfold uwrap. rewrite <-!Z.land_ones by done.
  assert (Z.lxor (Z.land i (Z.ones w)) (Z.land k (Z.ones w)) = Z.land (Z.lxor i k) (Z.ones w)) as ->.
  { apply Z.bits_inj'. intros n Hn. rewrite Z.lxor_spec, !Z.land_spec, Z.lxor_spec.
    destruct (Z.testbit (Z.ones w) n); by rewrite ?andb_true_r, ?andb_false_r. }
  rewrite Z.land_ones by done. by apply uwrap_range.
Qed.

Lemma is_uint_shiftr w x k : is_uint w x → 0 ≤ k → is_uint w (Z.shiftr x k).
Proof.
  intros Hx Hk. unfold is_uint in *. rewrite Z.shiftr_div_pow2 by done.
  assert (0 < 2 ^ k) by (apply Z.pow_pos_nonneg; lia).
  split; [apply Z.div_pos; lia|]. apply Z.div_lt_upper_bound; [lia|]. nia.
Qed.

Lemma swap_step_range w s m x : 0 ≤ w → is_uint w m →
  is_uint w (Z.lor (Z.land (Z.shiftr x s) m) (uwrap w (Z.shiftl (Z.land x m) s))).
Proof.
  intros. apply is_uint_lor; [done|by apply is_uint_land_r|by apply uwrap_range].
Qed.

Lemma ReverseBytes64_bits x i : is_uint 64 x → 0 ≤ i < 64 →
  Z.testbit (ReverseBytes64 x) i = Z.testbit x (Z.lxor i 56).
Proof.
  intros Hx Hi. unfold ReverseBytes64.
  change (Z.land m3 (2 ^ 64 - 1)) with m3. change (Z.land m4 (2 ^ 64 - 1)) with m4.
  change 56 with (Z.lxor 32 (Z.lxor 16 8)).
  pose proof (lxor_range i 32 6 ltac:(lia) Hi ltac:(by compute)) as H1.
  pose proof (lxor_range _ 16 6 ltac:(lia) H1 ltac:(by compute)) as H2.
  rewrite swap_halves; [|lia|apply swap_step_range; [lia|by compute]|done|by vm_compute|done].
  rewrite swap_bits_step; [|lia|by vm_compute|done].
  rewrite swap_bits_step; [|lia|by vm_compute|done].
  by rewrite <-!Z.lxor_assoc.
Qed.
Lemma Reverse64_bits x i : is_uint 64 x → 0 ≤ i < 64 →
  Z.testbit (Reverse64 x) i = Z.testbit x (63 - i).
Proof.
  intros Hx Hi. unfold Reverse64.
  change (Z.land m0 (2 ^ 64 - 1)) with m0. change (Z.land m1 (2 ^ 64 - 1)) with m1.
  change (Z.land m2 (2 ^ 64 - 1)) with m2.
  assert (63 - i = Z.lxor i 63) as ->.
  { apply Z.eqb_eq. revert i Hi. apply forall_range. by vm_compute. }
  change 63 with (Z.lxor 56 (Z.lxor 4 (Z.lxor 2 1))).
  pose proof (lxor_range i 56 6 ltac:(lia) Hi ltac:(by compute)) as H1.
  pose proof (lxor_range _ 4 6 ltac:(lia) H1 ltac:(by compute)) as H2.
  pose proof (lxor_range _ 2 6 ltac:(lia) H2 ltac:(by compute)) as H3.
  rewrite ReverseBytes64_bits; [|apply swap_step_range; [lia|by compute]|done].
  rewrite swap_bits_step; [|lia|by vm_compute|done].
  rewrite swap_bits_step; [|lia|by vm_compute|done].
  rewrite swap_bits_step; [|lia|by vm_compute|done].
  by rewrite <-!Z.lxor_assoc.
Qed.


Lemma ReverseBytes32_bits x i : is_uint 32 x → 0 ≤ i < 32 →
  Z.testbit (ReverseBytes32 x) i = Z.testbit x (Z.lxor i 24).
Proof.
  intros Hx Hi. unfold ReverseBytes32. set (m := Z.land m3 (2 ^ 32 - 1)).
  vm_compute in m. subst m. change 24 with (Z.lxor 16 8).
  pose proof (lxor_range i 16 5 ltac:(lia) Hi ltac:(by compute)) as H1.
  rewrite swap_halves; [|lia|apply swap_step_range; [lia|by compute]|done|by vm_compute|done].
  rewrite swap_bits_step; [|lia|by vm_compute|done].
  by rewrite <-!Z.lxor_assoc.
Qed.

Lemma Reverse32_bits x i : is_uint 32 x → 0 ≤ i < 32 →
  Z.testbit (Reverse32 x) i = Z.testbit x (31 - i).
Proof.
  intros Hx Hi. unfold Reverse32.
  change (Z.land m0 (2 ^ 32 - 1)) with 0x55555555.
  change (Z.land m1 (2 ^ 32 - 1)) with 0x33333333.
  change (Z.land m2 (2 ^ 32 - 1)) with 0x0f0f0f0f.
  assert (31 - i = Z.lxor i 31) as ->.
  { apply Z.eqb_eq. revert i Hi. apply forall_range. by vm_compute. }
  change 31 with (Z.lxor 24 (Z.lxor 4 (Z.lxor 2 1))).
  pose proof (lxor_range i 24 5 ltac:(lia) Hi ltac:(by compute)) as H1.
  pose proof (lxor_range _ 4 5 ltac:(lia) H1 ltac:(by compute)) as H2.
  pose proof (lxor_range _ 2 5 ltac:(lia) H2 ltac:(by compute)) as H3.
  rewrite ReverseBytes32_bits; [|apply swap_step_range; [lia|by compute]|done].
  rewrite swap_bits_step; [|lia|by vm_compute|done].
  rewrite swap_bits_step; [|lia|by vm_compute|done].
  rewrite swap_bits_step; [|lia|by vm_compute|done].
  by rewrite <-!Z.lxor_assoc.
Qed.

Lemma ReverseBytes16_bits x i : is_uint 16 x → 0 ≤ i < 16 →
  Z.testbit (ReverseBytes16 x) i = Z.testbit x (Z.lxor i 8).
Proof.
  intros Hx Hi. unfold ReverseBytes16. by apply (swap_halves 16 8).
Qed.

Lemma Reverse8_bits x : byte x →
  ∃ r, Reverse8 x = Ok r ∧ byte r ∧ ∀ i, 0 ≤ i < 8 → Z.testbit r i = Z.testbit x (7 - i).
Proof.
  intros Hx. unfold Reverse8.
  pose proof (forall_byte (λ x, match zget rev8tab x with
    | Some r => bool_decide (byte r) &&
        forallb (λ i, eqb (Z.testbit r i) (Z.testbit x (7 - i))) (seqZ 0 8)
    | None => false end) eq_refl x Hx) as H. cbv beta in H.
  destruct (zget rev8tab x) as [r|] eqn:E; [|done]. exists r.
  apply andb_true_iff in H as [H1%bool_decide_eq_true H2].
  split_and!; [by apply idx_Ok|apply H1..|]. intros i Hi.
  by apply eqb_prop, (forall_range _ 8 H2 i Hi).
Qed.

Lemma Reverse16_bits x : is_uint 16 x →
  ∃ r, Reverse16 x = Ok r ∧ ∀ i, 0 ≤ i < 16 → Z.testbit r i = Z.testbit x (15 - i).
Proof.
  intros Hx. unfold Reverse16. change 0xff with (2 ^ 8 - 1).
  rewrite land_mask, Z.shiftr_div_pow2 by lia.
  destruct (Reverse8_bits (x / 2 ^ 8)) as (a & Ea & Ha & Ba); [unfold is_uint in *; dlia|].
  destruct (Reverse8_bits (x mod 2 ^ 8)) as (b & Eb & Hb & Bb); [apply (uwrap_range 8); lia|].
  unfold Reverse8 in *. rewrite Ea. cbn [mbind res_bind]. rewrite Eb.
  eexists. split; [done|]. intros i Hi.
  rewrite Z.lor_spec, testbit_uwrap, Z.shiftl_spec by lia. destruct (decide (i < 8)).
  - rewrite (Z.testbit_neg_r b), orb_false_r, Ba by lia.
    rewrite Z.div_pow2_bits by lia. f_equal. lia.
  - rewrite (testbit_high a 8) by (done || lia). rewrite orb_false_l, Bb by lia.
    rewrite Z.mod_pow2_bits_low by lia. f_equal. lia.
Qed.

(** Rotation by [s] of a word of [w] bits. *)
Lemma rotate_bits w s x i : 0 ≤ s < w → is_uint w x → 0 ≤ i < w →
  Z.testbit (Z.lor (uwrap w (Z.shiftl x s)) (Z.shiftr x (w - s))) i
  = Z.testbit x ((i - s) mod w).
Proof.
  intros Hs Hx Hi. rewrite Z.lor_spec, testbit_uwrap, Z.shiftl_spec, Z.shiftr_spec by lia.
  destruct (decide (s ≤ i)).
  - rewrite (Z.mod_small (i - s)) by lia. destruct (decide (s = 0)) as [->|].
    + rewrite (testbit_high x w (i + (w - 0))) by (done || lia). by rewrite orb_false_r.
    + rewrite (testbit_high x w (i + (w - s))) by (done || lia). by rewrite orb_false_r.
  - rewrite (Z.testbit_neg_r x (i - s)) by lia. rewrite orb_false_l. f_equal.
    apply Z.mod_unique with (q := -1); lia.
Qed.

Lemma rotate_range w s x : 0 ≤ s ≤ w → is_uint w x →
  is_uint w (Z.lor (uwrap w (Z.shiftl x s)) (Z.shiftr x (w - s))).
Proof.
  intros. apply is_uint_lor; [lia|apply uwrap_range; lia|apply is_uint_shiftr; [done|lia]].
Qed.

Lemma rotate_amount k n : 0 ≤ n ≤ 64 → Z.land (u64 k) (2 ^ n - 1) = k mod 2 ^ n.
Proof.
  intros Hn. rewrite land_mask by lia. unfold uwrap.
  assert (2 ^ 64 = 2 ^ n * 2 ^ (64 - n)) as ->.
  { rewrite <-Z.pow_add_r by lia. f_equal. lia. }
  assert (0 < 2 ^ n) by (apply Z.pow_pos_nonneg; lia).
  assert (0 < 2 ^ (64 - n)) by (apply Z.pow_pos_nonneg; lia).
  rewrite Z.rem_mul_r, Z.mul_comm, Z.mod_add, Zmod_mod by lia. done.
Qed.
