(* ===== verification/BitsProps.v ===== *)
(** * Properties of math/bits *)

From S2P Require Import Prelude Bits.


(** ** The 32-bit forms *)

Lemma Add32_exact x y carry : is_uint 32 x → is_uint 32 y → 0 ≤ carry ≤ 1 →
  Add32 x y carry = ((x + y + carry) mod 2 ^ 32, (x + y + carry) / 2 ^ 32).
Proof.
  intros Hx Hy Hc. unfold Add32, is_uint in *. rewrite uwrap_add_l.
  rewrite (uwrap_small 64) by (unfold is_uint; pow2_consts; lia).
  rewrite Z.shiftr_div_pow2 by lia. rewrite (uwrap_small 32 (_ / _)); [done|].
  unfold is_uint. dlia.
Qed.

Lemma Sub32_exact x y borrow : is_uint 32 x → is_uint 32 y → 0 ≤ borrow ≤ 1 →
  Sub32 x y borrow = ((x - y - borrow) mod 2 ^ 32, if x - y - borrow <? 0 then 1 else 0).
Proof.
  intros Hx Hy Hc. unfold Sub32. rewrite <-(Z.add_opp_r (u32 (x - y))), uwrap_add_l, Z.add_opp_r.
  f_equal. pose proof (uwrap_range 32 (x - y - borrow) ltac:(lia)) as Hs.
  rewrite shiftr_top; [|apply is_uint_lor; [lia|by apply is_uint_land_r|by apply is_uint_land_r]|lia].
  rewrite Z.lor_spec, !Z.land_spec, !testbit_uwrap, !Z.lnot_spec, Z.lxor_spec by lia.
  rewrite <-(testbit_uwrap 32 (x - y - borrow)) by lia.
  rewrite !(testbit_top _ 31) by done || lia.
  set (d := u32 (x - y - borrow)) in *.
  assert (x - y - borrow = 2 ^ 32 * ((x - y - borrow) / 2 ^ 32) + d) as E.
  { apply Z.div_mod. lia. }
  unfold is_uint in *. pow2_consts. generalize dependent ((x - y - borrow) / 4294967296).
  intros c E. zcases; lia.
Qed.

Lemma Mul32_exact x y : is_uint 32 x → is_uint 32 y →
  Mul32 x y = (x * y / 2 ^ 32, (x * y) mod 2 ^ 32).
Proof.
  intros Hx Hy. unfold Mul32, is_uint in *. pow2_consts.
  assert (0 ≤ x * y < 18446744073709551616) by nia.
  rewrite (uwrap_small 64) by (unfold is_uint; pow2_consts; lia).
  rewrite Z.shiftr_div_pow2 by lia. rewrite (uwrap_small 32 (_ / _)); [done|].
  unfold is_uint. generalize dependent (x * y). intros. dlia.
Qed.

Lemma join32 hi lo : is_uint 32 hi → is_uint 32 lo →
  Z.lor (u64 (Z.shiftl hi 32)) lo = hi * 2 ^ 32 + lo.
Proof.
  intros Hh Hl. rewrite Z.shiftl_mul_pow2 by lia. unfold is_uint in *.
  rewrite uwrap_small by (unfold is_uint; pow2_consts; lia).
  apply lor_disjoint_add; lia.
Qed.

Lemma div_range a y w : 0 < w → 0 < y → 0 ≤ a → a / 2 ^ w < y → is_uint w (a / y).
Proof.
  intros Hw Hy Ha H. assert (0 < 2 ^ w) by (apply Z.pow_pos_nonneg; lia).
  split; [apply Z.div_pos; lia|]. apply Z.div_lt_upper_bound; [done|].
  pose proof (Z.mul_succ_div_gt a (2 ^ w) ltac:(lia)). nia.
Qed.

(** The result of dividing the double-width [n] by [y] in [w]-bit words. *)
Definition div_result (w hi lo y : Z) (r : res (Z * Z)) : Prop :=
  if y =? 0 then r = Panic DivideByZero
  else if y <=? hi then r = Panic IntegerOverflow
  else ∃ q rem, r = Ok (q, rem) ∧ hi * 2 ^ w + lo = q * y + rem ∧
    0 ≤ rem < y ∧ is_uint w q.

Lemma div_result_ok w hi lo y : 0 < w → is_uint w hi → is_uint w lo →
  0 < y → hi < y →
  div_result w hi lo y (Ok ((hi * 2 ^ w + lo) / y, (hi * 2 ^ w + lo) mod y)).
Proof.
  intros Hw Hhi Hlo Hy Hlt. unfold div_result, is_uint in *.
  assert (0 < 2 ^ w) by (apply Z.pow_pos_nonneg; lia).
  rewrite (proj2 (Z.eqb_neq y 0)), (proj2 (Z.leb_gt y hi)) by lia.
  eexists _, _. split; [done|].
  pose proof (Z.div_mod (hi * 2 ^ w + lo) y ltac:(lia)).
  pose proof (Z.mod_pos_bound (hi * 2 ^ w + lo) y ltac:(lia)).
  split; [lia|]. split; [lia|]. apply div_range; [done|done|nia|].
  rewrite Z.div_add_l, Z.div_small by lia. lia.
Qed.

Lemma Div32_ok hi lo y : is_uint 32 hi → is_uint 32 lo → is_uint 32 y →
  div_result 32 hi lo y (Div32 hi lo y).
Proof.
  intros Hhi Hlo Hy. unfold Div32. rewrite join32 by done. unfold is_uint in Hy.
  destruct (Z.eqb_spec y 0) as [->|Hy0]; [done|].
  destruct (Z.leb_spec y hi) as [|Hlt]; simpl.
  { unfold div_result. rewrite (proj2 (Z.eqb_neq y 0)), (proj2 (Z.leb_le y hi)) by lia. done. }
  pose proof (div_result_ok 32 hi lo y ltac:(lia) Hhi Hlo ltac:(lia) Hlt) as H.
  rewrite !uwrap_small; [done| |].
  - unfold is_uint. pose proof (Z.mod_pos_bound (hi * 2 ^ 32 + lo) y ltac:(lia)). lia.
  - apply div_range; [lia|lia|unfold is_uint in *; lia|].
    unfold is_uint in *. rewrite Z.div_add_l, Z.div_small by lia. lia.
Qed.

Lemma Div64_result hi lo y : is_uint 64 hi → is_uint 64 lo → is_uint 64 y →
  div_result 64 hi lo y (Div64 hi lo y).
Proof.
  intros Hhi Hlo Hy. destruct (Z.eqb_spec y 0) as [->|Hy0]; [done|].
  destruct (Z.leb_spec y hi) as [|Hlt].
  - unfold Div64, div_result.
    rewrite (proj2 (Z.eqb_neq y 0)), (proj2 (Z.leb_le y hi)) by lia. done.
  - rewrite Div64_ok by done. unfold is_uint in Hy. by apply div_result_ok; try lia.
Qed.

Lemma Rem64_ok hi lo y : is_uint 64 hi → is_uint 64 lo → is_uint 64 y →
  Rem64 hi lo y =
    if y =? 0 then Panic DivideByZero else Ok ((hi * 2 ^ 64 + lo) mod y).
Proof.
  intros Hhi Hlo Hy. unfold Rem64. destruct (Z.eqb_spec y 0) as [->|Hy0]; [done|].
  unfold is_uint in Hhi, Hy. pose proof (Z.mod_pos_bound hi y ltac:(lia)).
  rewrite Div64_ok by (done || lia || unfold is_uint; lia).
  cbn [mbind res_bind mret res_ret]. f_equal.
  rewrite <-Zplus_mod_idemp_l, Zmult_mod_idemp_l, Zplus_mod_idemp_l. done.
Qed.

Lemma Rem32_ok hi lo y : is_uint 32 hi → is_uint 32 lo → is_uint 32 y →
  Rem32 hi lo y =
    if y =? 0 then Panic DivideByZero else Ok ((hi * 2 ^ 32 + lo) mod y).
Proof.
  intros Hhi Hlo Hy. unfold Rem32. rewrite join32 by done.
  destruct (Z.eqb_spec y 0) as [->|Hy0]; [done|]. simpl. f_equal. apply uwrap_small.
  unfold is_uint in *. pose proof (Z.mod_pos_bound (hi * 2 ^ 32 + lo) y ltac:(lia)). lia.
Qed.

(** ** The properties *)

Lemma Div_spec : ∀ hi lo y : Z,
  (is_uint 64 hi → is_uint 64 lo → is_uint 64 y →
    div_result 64 hi lo y (Div64 hi lo y) ∧ div_result 64 hi lo y (Div hi lo y) ∧
    Rem64 hi lo y = (if y =? 0 then Panic DivideByZero else Ok ((hi * 2 ^ 64 + lo) mod y)) ∧
    Rem hi lo y = Rem64 hi lo y) ∧
  (is_uint 32 hi → is_uint 32 lo → is_uint 32 y →
    div_result 32 hi lo y (Div32 hi lo y) ∧
    Rem32 hi lo y = (if y =? 0 then Panic DivideByZero else Ok ((hi * 2 ^ 32 + lo) mod y))).
Proof.
  intros hi lo y. split; intros Hhi Hlo Hy.
  - split_and!; [by apply Div64_result| |by apply Rem64_ok|].
    + unfold Div. simpl. rewrite !uwrap_small by done. by apply Div64_result.
    + unfold Rem. simpl. by rewrite !uwrap_small by done.
  - split; [by apply Div32_ok|by apply Rem32_ok].
Qed.

Lemma arith_spec : ∀ x y c : Z, 0 ≤ c ≤ 1 →
  (is_uint 64 x → is_uint 64 y →
    Add64 x y c = ((x + y + c) mod 2 ^ 64, (x + y + c) / 2 ^ 64) ∧
    Sub64 x y c = ((x - y - c) mod 2 ^ 64, if x - y - c <? 0 then 1 else 0) ∧
    Mul64 x y = (x * y / 2 ^ 64, (x * y) mod 2 ^ 64) ∧
    Add x y c = Add64 x y c ∧ Sub x y c = Sub64 x y c ∧ Mul x y = Mul64 x y) ∧
  (is_uint 32 x → is_uint 32 y →
    Add32 x y c = ((x + y + c) mod 2 ^ 32, (x + y + c) / 2 ^ 32) ∧
    Sub32 x y c = ((x - y - c) mod 2 ^ 32, if x - y - c <? 0 then 1 else 0) ∧
    Mul32 x y = (x * y / 2 ^ 32, (x * y) mod 2 ^ 32)).
Proof.
  intros x y c Hc. split; intros Hx Hy.
  - split_and!; [by apply Add64_exact|by apply Sub64_exact|by apply Mul64_exact|..].
    all: unfold Add, Sub, Mul; simpl; rewrite !uwrap_small; [done|..]; try done.
    all: unfold is_uint; pow2_consts; lia.
  - split_and!; [by apply Add32_exact|by apply Sub32_exact|by apply Mul32_exact].
Qed.

(** C5: the arithmetic on words. [Div64] (Knuth's Algorithm D on two 32-bit digits)
    and [Div32] panic with a division by zero when [y] is zero and with an overflow
    when the quotient does not fit; otherwise they return the exact quotient and
    remainder of the double-width dividend, and the correction loops end within
    their fuel. [Rem64] and [Rem32] panic only for [y = 0] and return the remainder
    even when the quotient does not fit. [Add64], [Sub64], [Mul64] and their 32-bit
    forms are exact: the results are the low word and the carry, borrow or high word
    of the unbounded result. The functions without a width are the 64-bit forms. *)
Theorem arithmetic_correct : ∀ hi x y c : Z,
  (is_uint 64 hi → is_uint 64 x → is_uint 64 y →
    div_result 64 hi x y (Div64 hi x y) ∧ div_result 64 hi x y (Div hi x y) ∧
    Rem64 hi x y = (if y =? 0 then Panic DivideByZero else Ok ((hi * 2 ^ 64 + x) mod y)) ∧
    Rem hi x y = Rem64 hi x y) ∧
  (is_uint 32 hi → is_uint 32 x → is_uint 32 y →
    div_result 32 hi x y (Div32 hi x y) ∧
    Rem32 hi x y = (if y =? 0 then Panic DivideByZero else Ok ((hi * 2 ^ 32 + x) mod y))) ∧
  (0 ≤ c ≤ 1 → is_uint 64 x → is_uint 64 y →
    Add64 x y c = ((x + y + c) mod 2 ^ 64, (x + y + c) / 2 ^ 64) ∧
    Sub64 x y c = ((x - y - c) mod 2 ^ 64, if x - y - c <? 0 then 1 else 0) ∧
    Mul64 x y = (x * y / 2 ^ 64, (x * y) mod 2 ^ 64) ∧
    Add x y c = Add64 x y c ∧ Sub x y c = Sub64 x y c ∧ Mul x y = Mul64 x y) ∧
  (0 ≤ c ≤ 1 → is_uint 32 x → is_uint 32 y →
    Add32 x y c = ((x + y + c) mod 2 ^ 32, (x + y + c) / 2 ^ 32) ∧
    Sub32 x y c = ((x - y - c) mod 2 ^ 32, if x - y - c <? 0 then 1 else 0) ∧
    Mul32 x y = (x * y / 2 ^ 32, (x * y) mod 2 ^ 32)).
Proof.
  intros hi x y c. destruct (Div_spec hi x y) as [H1 H2].
  split; [exact H1|]. split; [exact H2|]. split; intros Hc; by apply (arith_spec x y c Hc).
Qed.

Lemma arithmetic_correct_witness :
  Div64 (2 ^ 63) 7 (2 ^ 64 - 1) = Ok (9223372036854775808, 9223372036854775815) ∧
  Div64 5 0 5 = Panic IntegerOverflow ∧ Rem64 5 0 5 = Ok 0 ∧
  Add64 (2 ^ 64 - 1) 1 1 = (1, 1) ∧ Sub64 0 1 0 = (2 ^ 64 - 1, 1).
Proof.
  pose proof (arithmetic_correct (2 ^ 63) 7 (2 ^ 64 - 1) 0) as [H _].
  destruct H as (H & _); [by vm_compute..|].
  pose proof (arithmetic_correct 5 0 5 0) as [H' _].
  destruct H' as (H1 & _ & H2 & _); [by vm_compute..|].
  pose proof (arithmetic_correct 0 (2 ^ 64 - 1) 1 1) as (_ & _ & H3 & _).
  pose proof (arithmetic_correct 0 0 1 0) as (_ & _ & H4 & _).
  split_and!; [|exact H1|exact H2|by apply H3; vm_compute|by apply H4; vm_compute].
  destruct H as (q & rem & -> & E & Hr & Hq). unfold is_uint in Hq. pow2_consts.
  repeat f_equal; lia.
Defined.

(** [len] and [lz] are the position after the highest set bit of the [w]-bit
    word [x], and the number of bits above it. *)
Definition highest_bit (w x : Z) (len lz : res Z) : Prop :=
  ∃ n, len = Ok n ∧ lz = Ok (w - n) ∧ 0 ≤ n ≤ w ∧ x < 2 ^ n ∧ (x ≠ 0 → 2 ^ (n - 1) ≤ x).

(** [tz] is the position of the lowest set bit, [w] if there is none. *)
Definition lowest_bit (w x : Z) (tz : res Z) : Prop :=
  ∃ n, tz = Ok n ∧ (x = 0 → n = w) ∧ (x ≠ 0 → 0 ≤ n < w ∧ Z.testbit x n = true) ∧
    ∀ i, 0 ≤ i < n → Z.testbit x i = false.

Lemma bit_len_highest w x : 0 ≤ w → is_uint w x →
  highest_bit w x (Ok (bit_len x)) (Ok (w - bit_len x)).
Proof.
  intros Hw Hx. exists (bit_len x). split_and!; [done..| | | |].
  - apply bit_len_nonneg.
  - by apply bit_len_le.
  - unfold is_uint in Hx. destruct (decide (x = 0)) as [->|]; [done|].
    apply bit_len_bounds. lia.
  - intros. unfold is_uint in Hx. apply bit_len_bounds. lia.
Qed.

Lemma trailing_zeros_lowest w x (f : Z → res Z) : 0 ≤ w → is_uint w x →
  f 0 = Ok w → (∀ n, trailing_zeros x n → f x = Ok n) → lowest_bit w x (f x).
Proof.
  intros Hw Hx H0 Hf. destruct (decide (x = 0)) as [->|Hx0].
  - exists w. split_and!; [done..|]. intros. apply Z.bits_0.
  - destruct (trailing_zeros_exists w x Hw Hx Hx0) as (n & Hn & Hr). exists n.
    destruct (trailing_zeros_bits x n Hn). split_and!; [by apply Hf|done..].
Qed.

Lemma ntz8tab_lowest x : byte x → lowest_bit 8 x (TrailingZeros8 x).
Proof.
  intros Hx. apply (trailing_zeros_lowest 8); [lia|done..|]. intros n Hn.
  destruct (trailing_zeros_exists 8 x ltac:(lia) Hx) as (n' & Hn' & Hr).
  { destruct Hn as (q & ? & ? & ->). assert (0 < 2 ^ n) by (apply Z.pow_pos_nonneg; lia). nia. }
  destruct (trailing_zeros_bits x n Hn) as [Hb Hl].
  destruct (trailing_zeros_bits x n' Hn') as [Hb' Hl'].
  assert (n' = n) as ->.
  { destruct (Z.lt_trichotomy n n') as [H|[H|H]]; [|done|].
    - rewrite Hl' in Hb; [done|]. destruct Hn as (? & ? & ? & ?). lia.
    - rewrite Hl in Hb'; [done|lia]. }
  unfold TrailingZeros8. apply idx_Ok.
  pose proof (forall_byte (λ x, forallb (λ n, negb (Z.testbit x n) ||
    existsb (λ i, Z.testbit x i) (seqZ 0 n) || bool_decide (zget ntz8tab x = Some n))
    (seqZ 0 8)) eq_refl x Hx) as H. cbv beta in H.
  pose proof (forall_range _ 8 H n Hr) as H'. cbv beta in H'. rewrite Hb in H'.
  simpl negb in H'. rewrite orb_false_l in H'. apply orb_true_iff in H' as [H'|H'].
  - apply existsb_exists in H' as (i & Hi%list_elem_of_In%elem_of_seqZ & Hbi).
    rewrite Hl in Hbi; [done|lia].
  - by apply bool_decide_eq_true in H'.
Qed.

Lemma bit_counts_spec : ∀ x : Z,
  (is_uint 64 x → highest_bit 64 x (Len64 x) (LeadingZeros64 x) ∧
    highest_bit 64 x (Len x) (LeadingZeros x) ∧
    lowest_bit 64 x (TrailingZeros64 x) ∧ lowest_bit 64 x (TrailingZeros x) ∧
    OnesCount64 x = popcount 64 x ∧ OnesCount x = Ok (popcount 64 x)) ∧
  (is_uint 32 x → highest_bit 32 x (Len32 x) (LeadingZeros32 x) ∧
    lowest_bit 32 x (TrailingZeros32 x) ∧ OnesCount32 x = Ok (popcount 32 x)) ∧
  (is_uint 16 x → highest_bit 16 x (Len16 x) (LeadingZeros16 x) ∧
    lowest_bit 16 x (TrailingZeros16 x) ∧ OnesCount16 x = Ok (popcount 16 x)) ∧
  (is_uint 8 x → highest_bit 8 x (Len8 x) (LeadingZeros8 x) ∧
    lowest_bit 8 x (TrailingZeros8 x) ∧ OnesCount8 x = Ok (popcount 8 x)).
Proof.
  intros x. split_and!; intros Hx.
  - unfold LeadingZeros64, LeadingZeros, Len, TrailingZeros, OnesCount.
    change (UintSize =? 32) with false.
    cbv iota. rewrite uwrap_small, Len64_spec, OnesCount64_popcount by done.
    pose proof (bit_len_highest 64 x ltac:(lia) Hx).
    assert (lowest_bit 64 x (TrailingZeros64 x)); [|done].
    apply trailing_zeros_lowest; [done..|]. intros. by apply TrailingZeros64_spec.
  - unfold LeadingZeros32. rewrite Len32_spec by done.
    split_and!; [by apply bit_len_highest| |by apply OnesCount32_popcount].
    apply trailing_zeros_lowest; [done..|]. intros. by apply TrailingZeros32_spec.
  - unfold LeadingZeros16. rewrite Len16_spec by done.
    split_and!; [by apply bit_len_highest| |by apply OnesCount16_popcount].
    apply trailing_zeros_lowest; [done..|]. intros. by apply TrailingZeros16_spec.
  - unfold LeadingZeros8, Len8. rewrite len8tab_bit_len by done.
    split_and!; [by apply bit_len_highest|by apply ntz8tab_lowest|by apply pop8tab_popcount].
Qed.

Lemma Reverse_Rotate_spec : ∀ x k i : Z,
  (is_uint 64 x → 0 ≤ i < 64 →
    Z.testbit (Reverse64 x) i = Z.testbit x (63 - i) ∧
    Z.testbit (ReverseBytes64 x) i = Z.testbit x (8 * (7 - i / 8) + i mod 8) ∧
    Z.testbit (RotateLeft64 x k) i = Z.testbit x ((i - k) mod 64) ∧
    is_uint 64 (RotateLeft64 x k) ∧
    Reverse x = Reverse64 x ∧ ReverseBytes x = ReverseBytes64 x ∧
    RotateLeft x k = RotateLeft64 x k) ∧
  (is_uint 32 x → 0 ≤ i < 32 →
    Z.testbit (Reverse32 x) i = Z.testbit x (31 - i) ∧
    Z.testbit (ReverseBytes32 x) i = Z.testbit x (8 * (3 - i / 8) + i mod 8) ∧
    Z.testbit (RotateLeft32 x k) i = Z.testbit x ((i - k) mod 32)) ∧
  (is_uint 16 x → 0 ≤ i < 16 →
    (∃ r, Reverse16 x = Ok r ∧ Z.testbit r i = Z.testbit x (15 - i)) ∧
    Z.testbit (ReverseBytes16 x) i = Z.testbit x (8 * (1 - i / 8) + i mod 8) ∧
    Z.testbit (RotateLeft16 x k) i = Z.testbit x ((i - k) mod 16)) ∧
  (is_uint 8 x → 0 ≤ i < 8 →
    (∃ r, Reverse8 x = Ok r ∧ Z.testbit r i = Z.testbit x (7 - i)) ∧
    Z.testbit (RotateLeft8 x k) i = Z.testbit x ((i - k) mod 8)).
Proof.
  intros x k i.
  assert (∀ n, 0 ≤ n ≤ 6 → is_uint (2 ^ n) x → 0 ≤ i < 2 ^ n →
    let s := Z.land (u64 k) (2 ^ n - 1) in
    Z.testbit (Z.lor (uwrap (2 ^ n) (Z.shiftl x s)) (Z.shiftr x (2 ^ n - s))) i
    = Z.testbit x ((i - k) mod 2 ^ n) ∧
    is_uint (2 ^ n) (Z.lor (uwrap (2 ^ n) (Z.shiftl x s)) (Z.shiftr x (2 ^ n - s)))) as HR.
  { intros n Hn Hx Hi s. unfold s. rewrite rotate_amount by lia.
    assert (0 < 2 ^ n) by lia. pose proof (Z.mod_pos_bound k (2 ^ n) ltac:(lia)).
    split; [|apply rotate_range; [lia|done]].
    rewrite rotate_bits, Zminus_mod_idemp_r by (done || lia). done. }
  split_and!; intros Hx Hi.
  - destruct (HR 6 ltac:(lia) Hx Hi) as [HR1 HR2].
    split_and!; [by apply Reverse64_bits| |exact HR1|exact HR2|..].
    + rewrite ReverseBytes64_bits by done. f_equal. apply Z.eqb_eq. revert i Hi HR HR1 HR2.
      clear. intros i Hi _ _ _. revert i Hi. apply forall_range. by vm_compute.
    + unfold Reverse. simpl. by rewrite uwrap_small.
    + unfold ReverseBytes. simpl. by rewrite uwrap_small.
    + unfold RotateLeft. simpl. by rewrite uwrap_small.
  - split_and!; [by apply Reverse32_bits| |apply (HR 5 ltac:(lia) Hx Hi)].
    rewrite ReverseBytes32_bits by done. f_equal. apply Z.eqb_eq. clear -Hi.
    revert i Hi. apply forall_range. by vm_compute.
  - split; [|split; [|apply (HR 4 ltac:(lia) Hx Hi)]].
    + destruct (Reverse16_bits x Hx) as (r & Er & Hr). exists r. auto.
    + rewrite ReverseBytes16_bits by done. f_equal. apply Z.eqb_eq. clear -Hi.
      revert i Hi. apply forall_range. by vm_compute.
  - split; [|apply (HR 3 ltac:(lia) Hx Hi)].
    destruct (Reverse8_bits x Hx) as (r & Er & _ & Hr). exists r. auto.
Qed.

(** C6: counting bits. [Len8] ... [Len64] return the number of bits needed to
    represent the argument and [LeadingZeros] the rest of the word.
    [TrailingZeros16], [TrailingZeros32] and [TrailingZeros64] find the lowest
    set bit with the de Bruijn tables ([TrailingZeros8] with a table of its own):
    the bit [n] returned is set and all lower ones are clear; for zero they
    return the width of the word. [OnesCount64] (three parallel summation steps
    on fields of growing width and a sum of the bytes) and the table-driven
    [OnesCount8], [OnesCount16] and [OnesCount32] return the number of ones in
    the binary representation. No table access is out of range.
    [Reverse64], [Reverse32], [Reverse16] and [Reverse8] move bit [i] of a word to the mirrored
    position, [ReverseBytes64], [ReverseBytes32] and [ReverseBytes16] mirror the
    bytes and keep the bits inside them, and [RotateLeft8] ... [RotateLeft64]
    rotate by [k] modulo the width for every [int] [k], negative ones
    included. *)
Theorem bits_correct : ∀ x k i : Z,
  ((is_uint 64 x → highest_bit 64 x (Len64 x) (LeadingZeros64 x) ∧
      highest_bit 64 x (Len x) (LeadingZeros x) ∧
      lowest_bit 64 x (TrailingZeros64 x) ∧ lowest_bit 64 x (TrailingZeros x) ∧
      OnesCount64 x = popcount 64 x ∧ OnesCount x = Ok (popcount 64 x)) ∧
    (is_uint 32 x → highest_bit 32 x (Len32 x) (LeadingZeros32 x) ∧
      lowest_bit 32 x (TrailingZeros32 x) ∧ OnesCount32 x = Ok (popcount 32 x)) ∧
    (is_uint 16 x → highest_bit 16 x (Len16 x) (LeadingZeros16 x) ∧
      lowest_bit 16 x (TrailingZeros16 x) ∧ OnesCount16 x = Ok (popcount 16 x)) ∧
    (is_uint 8 x → highest_bit 8 x (Len8 x) (LeadingZeros8 x) ∧
      lowest_bit 8 x (TrailingZeros8 x) ∧ OnesCount8 x = Ok (popcount 8 x))) ∧
  (is_uint 64 x → 0 ≤ i < 64 →
    Z.testbit (Reverse64 x) i = Z.testbit x (63 - i) ∧
    Z.testbit (ReverseBytes64 x) i = Z.testbit x (8 * (7 - i / 8) + i mod 8) ∧
    Z.testbit (RotateLeft64 x k) i = Z.testbit x ((i - k) mod 64) ∧
    is_uint 64 (RotateLeft64 x k) ∧
    Reverse x = Reverse64 x ∧ ReverseBytes x = ReverseBytes64 x ∧
    RotateLeft x k = RotateLeft64 x k) ∧
  (is_uint 32 x → 0 ≤ i < 32 →
    Z.testbit (Reverse32 x) i = Z.testbit x (31 - i) ∧
    Z.testbit (ReverseBytes32 x) i = Z.testbit x (8 * (3 - i / 8) + i mod 8) ∧
    Z.testbit (RotateLeft32 x k) i = Z.testbit x ((i - k) mod 32)) ∧
  (is_uint 16 x → 0 ≤ i < 16 →
    (∃ r, Reverse16 x = Ok r ∧ Z.testbit r i = Z.testbit x (15 - i)) ∧
    Z.testbit (ReverseBytes16 x) i = Z.testbit x (8 * (1 - i / 8) + i mod 8) ∧
    Z.testbit (RotateLeft16 x k) i = Z.testbit x ((i - k) mod 16)) ∧
  (is_uint 8 x → 0 ≤ i < 8 →
    (∃ r, Reverse8 x = Ok r ∧ Z.testbit r i = Z.testbit x (7 - i)) ∧
    Z.testbit (RotateLeft8 x k) i = Z.testbit x ((i - k) mod 8)).
Proof. intros x k i. split; [apply bit_counts_spec|apply Reverse_Rotate_spec]. Qed.

Lemma bits_correct_witness :
  lowest_bit 64 (2 ^ 63 + 2 ^ 40) (TrailingZeros64 (2 ^ 63 + 2 ^ 40)) ∧
  TrailingZeros64 (2 ^ 63 + 2 ^ 40) = Ok 40 ∧ Len64 (2 ^ 40 + 1) = Ok 41 ∧
  OnesCount64 0xfedcba9876543210 = 32 ∧
  Z.testbit (Reverse64 1) 63 = true ∧ Z.testbit (RotateLeft64 1 (- 1)) 63 = true.
Proof.
  destruct (bits_correct (2 ^ 63 + 2 ^ 40) 0 0) as [[H _] _].
  destruct (bits_correct 1 (- 1) 63) as [_ [H' _]].
  destruct H' as (H1 & _ & H2 & _); [by compute..|]. rewrite H1, H2.
  split_and!; [by apply H|by vm_compute..].
Defined.
