(* ===== verification/Sort.v ===== *)
(** * The unstable sort: pattern-defeating quicksort

    The sorting template of sort/gen_sort_variants.go, of which the repository
    holds four generated copies: slices/zsortordered.go (elements compared by
    [cmp.Less]), slices/zsortanyfunc.go (by a function [cmp]),
    sort/zsortinterface.go (through [sort.Interface]) and sort/zsortfunc.go
    (through a [less] and a [swap] closure). The copies differ only in how
    two elements are compared and exchanged, which is the class
    [SortInterface] here: the algorithms are written once against it. *)

From S2P Require Import Prelude Bits.

(** What the algorithms need of the data: [data.Less(i, j)] and
    [data.Swap(i, j)]. *)
Class SortInterface (D : Type) := {
  Len : D → Z;
  Less : D → Z → Z → res bool;
  Swap : D → Z → Z → res D;
}.

Inductive sortedHint := unknownHint | increasingHint | decreasingHint.
#[export] Instance sortedHint_eq_dec : EqDecision sortedHint.
Proof. solve_decision. Defined.

(** xorshift: the state is the number returned. *)
Definition xorshift_Next (r : Z) : Z :=
  let r := Z.lxor r (u64 (Z.shiftl r 13)) in
  let r := Z.lxor r (Z.shiftr r 7) in
  Z.lxor r (u64 (Z.shiftl r 17)).

Definition nextPowerOfTwo (length : Z) : res Z :=
  shift ← Bits.Len (u64 length);
  mret (u64 (Z.shiftl 1 shift)).

Section algorithms.
  Context {D : Type} `{SortInterface D}.
  Implicit Types (data : D).

(** Sorts data[a:b] using insertion sort. *)
Definition insert_down data (a i : Z) : res D :=
  loop (fuel_of (i - a)) (λ '(data, j),
    c ← andM (a <? j) (Less data j (j - 1));
    if c : bool then
      data ← Swap data j (j - 1);
      mret (inl (data, j - 1))
    else mret (inr data)) (data, i).

Definition insertionSort data (a b : Z) : res D :=
  loop (fuel_of (b - a)) (λ '(data, i),
    if i <? b then
      data ← insert_down data a i;
      mret (inl (data, i + 1))
    else mret (inr data)) (data, a + 1).

(** Implements the heap property on data[lo:hi]; first is the offset of the
    root of the heap. *)
Definition siftDown data (lo hi first : Z) : res D :=
  loop (fuel_of (hi - lo)) (λ '(data, root),
    let child := i64 (2 * root + 1) in
    if hi <=? child then mret (inr data) else
    c ← andM (child + 1 <? hi) (Less data (first + child) (first + child + 1));
    let child := if c : bool then child + 1 else child in
    c ← Less data (first + root) (first + child);
    if negb c then mret (inr data) else
    data ← Swap data (first + root) (first + child);
    mret (inl (data, child))) (data, lo).

Definition heapSort data (a b : Z) : res D :=
  let first := a in
  let lo := 0 in
  let hi := b - a in
  data ← loop (fuel_of (hi + 1)) (λ '(data, i),
    if 0 <=? i then
      data ← siftDown data i hi first;
      mret (inl (data, i - 1))
    else mret (inr data)) (data, (hi - 1) ÷ 2);
  loop (fuel_of hi) (λ '(data, i),
    if 0 <=? i then
      data ← Swap data first (first + i);
      data ← siftDown data lo i first;
      mret (inl (data, i - 1))
    else mret (inr data)) (data, hi - 1).

(** The scans of the partitions: [for i <= j && test(data, i) { i++ }] and its
    mirror image. *)
Definition scan_up (test : Z → res bool) (i j : Z) : res Z :=
  loop (fuel_of (j - i + 1)) (λ i,
    c ← andM (i <=? j) (test i);
    if c : bool then mret (inl (i + 1)) else mret (inr i)) i.

Definition scan_down (test : Z → res bool) (i j : Z) : res Z :=
  loop (fuel_of (j - i + 1)) (λ j,
    c ← andM (i <=? j) (test j);
    if c : bool then mret (inl (j - 1)) else mret (inr j)) j.

Definition notM (m : res bool) : res bool := c ← m; mret (negb c).

(** One quicksort partition. *)
Definition partition data (a b pivot : Z) : res (D * Z * bool) :=
  data ← Swap data a pivot;
  let '(i, j) := (a + 1, b - 1) in
  i ← scan_up (λ i, Less data i a) i j;
  j ← scan_down (λ j, notM (Less data j a)) i j;
  if j <? i then
    data ← Swap data j a;
    mret (data, j, true)
  else
  data ← Swap data i j;
  '(data, j) ← loop (fuel_of (j - i)) (λ '(data, i, j),
    i ← scan_up (λ i, Less data i a) i j;
    j ← scan_down (λ j, notM (Less data j a)) i j;
    if j <? i then mret (inr (data, j)) else
    data ← Swap data i j;
    mret (inl (data, i + 1, j - 1))) (data, i + 1, j - 1);
  data ← Swap data j a;
  mret (data, j, false).

(** Partitions data[a:b] into elements equal to data[pivot] followed by
    elements greater than data[pivot]. *)
Definition partitionEqual data (a b pivot : Z) : res (D * Z) :=
  data ← Swap data a pivot;
  loop (fuel_of (b - a)) (λ '(data, i, j),
    i ← scan_up (λ i, notM (Less data a i)) i j;
    j ← scan_down (λ j, Less data a j) i j;
    if j <? i then mret (inr (data, i)) else
    data ← Swap data i j;
    mret (inl (data, i + 1, j - 1))) (data, a + 1, b - 1).

(** The two shifts of [partialInsertionSort]. *)
Definition shift_left data (i : Z) : res D :=
  loop (fuel_of (i - 1)) (λ '(data, j),
    if 1 <=? j then
      c ← Less data j (j - 1);
      if negb c then mret (inr data) else
      data ← Swap data j (j - 1);
      mret (inl (data, j - 1))
    else mret (inr data)) (data, i - 1).

Definition shift_right data (i b : Z) : res D :=
  loop (fuel_of (b - i)) (λ '(data, j),
    if j <? b then
      c ← Less data j (j - 1);
      if negb c then mret (inr data) else
      data ← Swap data j (j - 1);
      mret (inl (data, j + 1))
    else mret (inr data)) (data, i + 1).

Definition maxSteps : Z := 5.
Definition shortestShifting : Z := 50.

(** Partially sorts a slice; returns true if the slice is sorted at the end. *)
Definition partialInsertionSort data (a b : Z) : res (D * bool) :=
  loop (fuel_of maxSteps) (λ '(data, i, j),
    if j <? maxSteps then
      i ← loop (fuel_of (b - i)) (λ i,
        c ← andM (i <? b) (notM (Less data i (i - 1)));
        if c : bool then mret (inl (i + 1)) else mret (inr i)) i;
      if i =? b then mret (inr (data, true)) else
      if b - a <? shortestShifting then mret (inr (data, false)) else
      data ← Swap data i (i - 1);
      data ← (if 2 <=? i - a then shift_left data i else mret data);
      data ← (if 2 <=? b - i then shift_right data i b else mret data);
      mret (inl (data, i, j + 1))
    else mret (inr (data, false))) (data, a + 1, 0).

(** Scatters some elements around in an attempt to break some patterns. *)
Definition breakPatterns data (a b : Z) : res D :=
  let length := b - a in
  if 8 <=? length then
    let random := length in
    modulus ← nextPowerOfTwo length;
    '(data, _) ← foldM (λ '(data, random) idx,
      let random := xorshift_Next random in
      let other := Z.land random (u64 (modulus - 1)) in
      let other := if length <=? other then other - length else other in
      data ← Swap data idx (a + other);
      mret (data, random))
      (seqZ (a + (length ÷ 4) * 2 - 1) 3) (data, random);
    mret data
  else mret data.

Definition order2 data (a b swaps : Z) : res (Z * Z * Z) :=
  c ← Less data b a;
  if c : bool then mret (b, a, swaps + 1) else mret (a, b, swaps).

Definition median data (a b c swaps : Z) : res (Z * Z) :=
  '(a, b, swaps) ← order2 data a b swaps;
  '(b, c, swaps) ← order2 data b c swaps;
  '(a, b, swaps) ← order2 data a b swaps;
  mret (b, swaps).

Definition medianAdjacent data (a swaps : Z) : res (Z * Z) :=
  median data (a - 1) a (a + 1) swaps.

Definition shortestNinther : Z := 50.
Definition maxSwaps : Z := 4 * 3.

(** Chooses a pivot in data[a:b]. *)
Definition choosePivot data (a b : Z) : res (Z * sortedHint) :=
  let l := b - a in
  let swaps := 0 in
  let i := a + (l ÷ 4) * 1 in
  let j := a + (l ÷ 4) * 2 in
  let k := a + (l ÷ 4) * 3 in
  '(j, swaps) ← (if 8 <=? l then
    '(i, j, k, swaps) ← (if shortestNinther <=? l then
      '(i, swaps) ← medianAdjacent data i swaps;
      '(j, swaps) ← medianAdjacent data j swaps;
      '(k, swaps) ← medianAdjacent data k swaps;
      mret (i, j, k, swaps)
    else mret (i, j, k, swaps));
    median data i j k swaps
  else mret (j, swaps));
  if swaps =? 0 then mret (j, increasingHint)
  else if swaps =? maxSwaps then mret (j, decreasingHint)
  else mret (j, unknownHint).

Definition reverseRange data (a b : Z) : res D :=
  loop (fuel_of (b - a)) (λ '(data, i, j),
    if i <? j then
      data ← Swap data i j;
      mret (inl (data, i + 1, j - 1))
    else mret (inr data)) (data, a, b - 1).

(** The state of the loop of pdqsort. *)
Record pdq := Pdq {
  p_data : D; p_a : Z; p_b : Z; p_limit : Z;
  wasBalanced : bool; wasPartitioned : bool;
}.

Definition maxInsertion : Z := 12.

(** The body of the loop of pdqsort; [rec] is the recursive call. *)
Definition pdqsort_body (rec : D → Z → Z → Z → res D) (s : pdq) : res (pdq + D) :=
  let '(Pdq data a b limit wasBalanced wasPartitioned) := s in
  let length := b - a in
  if length <=? maxInsertion then
    data ← insertionSort data a b; mret (inr data)
  else if limit =? 0 then
    data ← heapSort data a b; mret (inr data)
  else
  '(data, limit) ← (if negb wasBalanced then
    data ← breakPatterns data a b; mret (data, limit - 1)
  else mret (data, limit));
  '(pivot, hint) ← choosePivot data a b;
  '(data, pivot, hint) ← (if decide (hint = decreasingHint) then
    data ← reverseRange data a b;
    mret (data, (b - 1) - (pivot - a), increasingHint)
  else mret (data, pivot, hint));
  '(data, sorted) ← (if wasBalanced && wasPartitioned && bool_decide (hint = increasingHint)
    then partialInsertionSort data a b else mret (data, false));
  if sorted : bool then mret (inr data) else
  c ← andM (0 <? a) (notM (Less data (a - 1) pivot));
  if c : bool then
    '(data, mid) ← partitionEqual data a b pivot;
    mret (inl (Pdq data mid b limit wasBalanced wasPartitioned))
  else
  '(data, mid, alreadyPartitioned) ← partition data a b pivot;
  let wasPartitioned := alreadyPartitioned in
  let '(leftLen, rightLen) := (mid - a, b - mid) in
  let balanceThreshold := length ÷ 8 in
  if leftLen <? rightLen then
    let wasBalanced := balanceThreshold <=? leftLen in
    data ← rec data a mid limit;
    mret (inl (Pdq data (mid + 1) b limit wasBalanced wasPartitioned))
  else
    let wasBalanced := balanceThreshold <=? rightLen in
    data ← rec data (mid + 1) b limit;
    mret (inl (Pdq data a mid limit wasBalanced wasPartitioned)).

(** Sorts data[a:b]. The fuel bounds the depth of the recursion. *)
Fixpoint pdqsort (fuel : nat) data (a b limit : Z) : res D :=
  match fuel with
  | O => NoFuel
  | S fuel =>
      loop (fuel_of (b - a)) (pdqsort_body (pdqsort fuel))
        (Pdq data a b limit true true)
  end.

#[global] Arguments pdqsort : simpl never.

Definition Sort data : res D :=
  let n := Len data in
  if n <=? 1 then mret data else
  limit ← Bits.Len (u64 n);
  pdqsort (fuel_of n) data 0 n limit.

Definition IsSorted data : res bool :=
  let n := Len data in
  loop (fuel_of n) (λ i,
    if 0 <? i then
      c ← Less data i (i - 1);
      if c : bool then mret (inr false) else mret (inl (i - 1))
    else mret (inr true)) (n - 1).
End algorithms.
