(* ===== verification/StableSort.v ===== *)
(** * The stable sort

    The other half of the sorting template: insertion sort on blocks of 20,
    then in-place merging with the SymMerge algorithm, whose blocks are
    exchanged by rotations. Written, like [Sort], against [SortInterface]. *)

From S2P Require Import Prelude Sort.

(** [int(uint(i+j) >> 1)] *)
Definition midpoint (i j : Z) : Z := i64 (Z.shiftr (u64 (i64 (i + j))) 1).

Section stable.
  Context {D : Type} `{SortInterface D}.
  Implicit Types (data : D).

Definition swapRange data (a b n : Z) : res D :=
  loop (fuel_of n) (λ '(data, i),
    if i <? n then
      data ← Swap data (a + i) (b + i);
      mret (inl (data, i + 1))
    else mret (inr data)) (data, 0).

(** Rotates two consecutive blocks u = data[a:m] and v = data[m:b]. *)
Definition rotate data (a m b : Z) : res D :=
  '(data, i, j) ← loop (fuel_of (b - a)) (λ '(data, i, j),
    if negb (i =? j) then
      if j <? i then
        data ← swapRange data (m - i) m j;
        mret (inl (data, i - j, j))
      else
        data ← swapRange data (m - i) (m + j - i) i;
        mret (inl (data, i, j - i))
    else mret (inr (data, i, j))) (data, m - a, b - m);
  swapRange data (m - i) m i.

(** The binary searches of symMerge: the first [h] in [i, j) without
    [before h], or [j]. *)
Definition merge_search (before : Z → res bool) (i j : Z) : res Z :=
  loop (fuel_of (j - i)) (λ '(i, j),
    if i <? j then
      let h := midpoint i j in
      c ← before h;
      if c : bool then mret (inl (h + 1, j)) else mret (inl (i, h))
    else mret (inr i)) (i, j).

(** The two shifts of symMerge. *)
Definition move_up data (a i : Z) : res D :=
  loop (fuel_of (i - a)) (λ '(data, k),
    if k <? i - 1 then
      data ← Swap data k (k + 1);
      mret (inl (data, k + 1))
    else mret (inr data)) (data, a).

Definition move_down data (m i : Z) : res D :=
  loop (fuel_of (m - i)) (λ '(data, k),
    if i <? k then
      data ← Swap data k (k - 1);
      mret (inl (data, k - 1))
    else mret (inr data)) (data, m).

(** Merges the two sorted subsequences data[a:m] and data[m:b]. The fuel bounds
    the depth of the recursion. *)
Fixpoint symMerge (fuel : nat) data (a m b : Z) : res D :=
  match fuel with
  | O => NoFuel
  | S fuel =>
  if m - a =? 1 then
    i ← merge_search (λ h, Less data h a) m b;
    move_up data a i
  else if b - m =? 1 then
    i ← merge_search (λ h, notM (Less data m h)) a m;
    move_down data m i
  else
  let mid := midpoint a b in
  let n := mid + m in
  let '(start, r) := if mid <? m then (n - b, mid) else (a, m) in
  let p := n - 1 in
  start ← merge_search (λ c, notM (Less data (p - c) c)) start r;
  let end_ := n - start in
  data ← (if (start <? m) && (m <? end_) then rotate data start m end_ else mret data);
  data ← (if (a <? start) && (start <? mid) then symMerge fuel data a start mid
          else mret data);
  if (mid <? end_) && (end_ <? b) then symMerge fuel data mid end_ b
  else mret data
  end.

Definition insertion_blocks data (blockSize n : Z) : res D :=
  '(data, a) ← loop (fuel_of n) (λ '(data, a, b),
    if b <=? n then
      data ← insertionSort data a b;
      mret (inl (data, b, i64 (b + blockSize)))
    else mret (inr (data, a))) (data, 0, blockSize);
  insertionSort data a n.

Definition merge_blocks data (blockSize n : Z) : res D :=
  '(data, a) ← loop (fuel_of n) (λ '(data, a, b),
    if b <=? n then
      data ← symMerge (fuel_of (b - a)) data a (a + blockSize) b;
      mret (inl (data, b, i64 (b + i64 (2 * blockSize))))
    else mret (inr (data, a))) (data, 0, i64 (2 * blockSize));
  let m := a + blockSize in
  if m <? n then symMerge (fuel_of (n - a)) data a m n else mret data.

Definition stable data (n : Z) : res D :=
  let blockSize := 20 in
  data ← insertion_blocks data blockSize n;
  loop (fuel_of n) (λ '(data, blockSize),
    if blockSize <? n then
      data ← merge_blocks data blockSize n;
      mret (inl (data, i64 (blockSize * 2)))
    else mret (inr data)) (data, blockSize).

Definition Stable data : res D := stable data (Len data).
End stable.
