(* ===== verification/SortSpec.v ===== *)
(** * What a sort promises

    The laws of the sorting interface, strict weak orders, permutations inside
    an index range, and sorted ranges: the vocabulary of the proofs about the
    sorting algorithms. *)

From S2P Require Import Prelude Sort.


(** The comparison describes a strict weak ordering (the contract stated by
    [sort.Interface] and [slices.SortFunc]). *)
Class StrictWeakOrder {E} (lt : E → E → bool) : Prop := {
  lt_asym x y : lt x y = true → lt y x = false;
  lt_negtrans x y z : lt x y = false → lt y z = false → lt x z = false;
}.

(** The contract of [sort.Interface]: the data is a sequence [view] of elements
    that [Less] compares and [Swap] exchanges. *)
Class SortLaws (D E : Type) `{SortInterface D} := {
  view : D → list E;
  lt : E → E → bool;
  Len_view d : Len d = len (view d);
  Less_view d i j x y :
    zget (view d) i = Some x → zget (view d) j = Some y → Less d i j = Ok (lt x y);
  Swap_view d i j x y :
    zget (view d) i = Some x → zget (view d) j = Some y →
    ∃ d', Swap d i j = Ok d' ∧ view d' = zset (zset (view d) i y) j x;
}.

Section ranges.
Context {E : Type} (lt : E → E → bool).
Implicit Types (l : list E) (a b : Z) (P : E → Prop).

(** [x] may stand before [y]. *)
Definition le (x y : E) : Prop := lt y x = false.

(** Swapping two positions of a list. *)
Definition swapped l i j l' : Prop := ∃ x y,
  zget l i = Some x ∧ zget l j = Some y ∧ l' = zset (zset l i y) j x.

(** [l'] is [l] after swaps of positions in [a, b). *)
Definition perm_in a b : list E → list E → Prop :=
  rtc (λ l l', ∃ i j, a ≤ i < b ∧ a ≤ j < b ∧ swapped l i j l').

(** All elements at positions in [a, b) satisfy [P]. *)
Definition all_in P l a b : Prop := ∀ i x, a ≤ i < b → zget l i = Some x → P x.

(** The elements at positions in [a, b) are in order. *)
Definition sorted_in l a b : Prop := ∀ i j x y,
  a ≤ i → i < j → j < b → zget l i = Some x → zget l j = Some y → le x y.

Lemma zget_swapped l i j x y k : zget l i = Some x → zget l j = Some y →
  zget (zset (zset l i y) j x) k =
  if decide (k = i) then Some y else if decide (k = j) then Some x else zget l k.
Proof.
  intros Hi Hj. pose proof (zget_Some_range _ _ _ Hi). pose proof (zget_Some_range _ _ _ Hj).
  rewrite zget_zset by (rewrite len_zset; lia). rewrite zget_zset by lia.
  repeat case_decide; subst; try done; congruence.
Qed.

Lemma swapped_Permutation l i j l' : swapped l i j l' → l' ≡ₚ l.
Proof.
  intros (x & y & Hi & Hj & ->).
  unfold zget in Hi, Hj. case_decide; [|done]. case_decide; [|done].
  by apply Permutation_insert_swap.
Qed.

Lemma perm_in_Permutation a b l l' : perm_in a b l l' → l' ≡ₚ l.
Proof.
  induction 1 as [|l1 l2 l3 (i & j & _ & _ & Hs) _ IH]; [done|].
  rewrite IH. by eapply swapped_Permutation.
Qed.

Lemma perm_in_len a b l l' : perm_in a b l l' → len l' = len l.
Proof. intros H%perm_in_Permutation. unfold len. by rewrite H. Qed.

Lemma perm_in_refl a b l : perm_in a b l l.
Proof. apply rtc_refl. Qed.

Lemma perm_in_trans a b l1 l2 l3 : perm_in a b l1 l2 → perm_in a b l2 l3 → perm_in a b l1 l3.
Proof. intros H1 H2. by etrans. Qed.

Lemma perm_in_swap a b l i j l' : a ≤ i < b → a ≤ j < b → swapped l i j l' → perm_in a b l l'.
Proof. intros. apply rtc_once. by exists i, j. Qed.

Lemma perm_in_mono a b a' b' l l' : a' ≤ a → b ≤ b' → perm_in a b l l' → perm_in a' b' l l'.
Proof.
  intros Ha Hb. induction 1 as [|l1 l2 l3 (i & j & Hi & Hj & Hs) _ IH]; [apply perm_in_refl|].
  eapply perm_in_trans; [|done]. apply (perm_in_swap _ _ _ i j); [lia..|done].
Qed.

(** Positions outside the range keep their element. *)
Lemma perm_in_outside a b l l' i : perm_in a b l l' → i < a ∨ b ≤ i → zget l' i = zget l i.
Proof.
  intros H Hi. induction H as [|l1 l2 l3 (i' & j' & Hi' & Hj' & (x & y & Hx & Hy & ->)) _ IH]; [done|].
  rewrite IH, (zget_swapped _ _ _ x y) by done. rewrite !decide_False by lia. done.
Qed.

(** A property of all elements of the range, or of a larger one, stays. *)
Lemma perm_in_all P a b a' b' l l' : perm_in a b l l' → a' ≤ a → b ≤ b' →
  all_in P l a' b' → all_in P l' a' b'.
Proof.
  intros H Ha Hb. induction H as [|l1 l2 l3 (i & j & Hi & Hj & (x & y & Hx & Hy & ->)) _ IH]; [done|].
  intros HP. apply IH. intros k z Hk. rewrite (zget_swapped _ _ _ x y) by done.
  intros Hz. repeat case_decide; simplify_eq; [apply (HP j)|apply (HP i)|apply (HP k)]; done || lia.
Qed.

Lemma perm_in_all_outside P a b a' b' l l' : perm_in a b l l' → b' ≤ a ∨ b ≤ a' →
  all_in P l a' b' → all_in P l' a' b'.
Proof.
  intros H Ho HP i x Hi. rewrite (perm_in_outside a b l l') by (done || lia).
  by apply HP.
Qed.

Lemma all_in_sub P l a b a' b' : all_in P l a b → a ≤ a' → b' ≤ b → all_in P l a' b'.
Proof. intros H ?? i x Hi. apply H. lia. Qed.

Lemma all_in_empty P l a b : b ≤ a → all_in P l a b.
Proof. intros ? i x. lia. Qed.

Lemma all_in_snoc P l a b x : zget l b = Some x → P x → all_in P l a b → all_in P l a (b + 1).
Proof.
  intros Hb HP H i y Hi Hy. destruct (decide (i = b)) as [->|].
  - by simplify_eq.
  - apply (H i); [lia|done].
Qed.

Lemma all_in_cons P l a b x : zget l a = Some x → P x → all_in P l (a + 1) b → all_in P l a b.
Proof.
  intros Ha HP H i y Hi Hy. destruct (decide (i = a)) as [->|].
  - by simplify_eq.
  - apply (H i); [lia|done].
Qed.

Lemma all_in_app P l a m b : all_in P l a m → all_in P l m b → all_in P l a b.
Proof.
  intros H1 H2 i x Hi. destruct (decide (i < m)); [apply H1|apply H2]; lia.
Qed.

Lemma all_in_impl P (Q : E → Prop) l a b : all_in P l a b → (∀ x, P x → Q x) → all_in Q l a b.
Proof. intros H HPQ i x Hi Hx. eapply HPQ, H; done. Qed.

Lemma sorted_in_empty l a b : b ≤ a + 1 → sorted_in l a b.
Proof. intros ? i j. lia. Qed.

Lemma sorted_in_sub l a b a' b' : sorted_in l a b → a ≤ a' → b' ≤ b → sorted_in l a' b'.
Proof. intros H ?? i j x y ???. apply H; lia. Qed.

Lemma sorted_in_outside a b l l' a' b' : perm_in a b l l' → b' ≤ a ∨ b ≤ a' →
  sorted_in l a' b' → sorted_in l' a' b'.
Proof.
  intros H Ho Hs i j x y Hi Hij Hj. rewrite !(perm_in_outside a b l l') by (done || lia).
  by apply Hs.
Qed.

(** Two sorted ranges with everything on the left before everything on the
    right. *)
Lemma sorted_in_app l a m b :
  sorted_in l a m → sorted_in l m b →
  (∀ i j x y, a ≤ i < m → m ≤ j < b → zget l i = Some x → zget l j = Some y → le x y) →
  sorted_in l a b.
Proof.
  intros H1 H2 H12 i j x y Hi Hij Hj Hx Hy.
  destruct (decide (j < m)); [by apply (H1 i j); try lia|].
  destruct (decide (m ≤ i)); [by apply (H2 i j); try lia|].
  apply (H12 i j); (done || lia).
Qed.
End ranges.

Section order.
Context {E : Type} (lt : E → E → bool) `{!StrictWeakOrder lt}.

Lemma le_refl x : le lt x x.
Proof. unfold le. destruct (lt x x) eqn:Hx; [|done]. by rewrite (lt_asym x x) in Hx. Qed.

Lemma lt_le x y : lt x y = true → le lt x y.
Proof. apply lt_asym. Qed.

Lemma le_trans x y z : le lt x y → le lt y z → le lt x z.
Proof. unfold le. intros H1 H2. by apply (lt_negtrans z y x). Qed.

Lemma lt_le_trans x y z : lt x y = true → le lt y z → lt x z = true.
Proof.
  unfold le. intros H1 H2. destruct (lt x z) eqn:H; [done|].
  by rewrite (lt_negtrans x z y) in H1.
Qed.

Lemma le_lt_trans x y z : le lt x y → lt y z = true → lt x z = true.
Proof.
  unfold le. intros H1 H2. destruct (lt x z) eqn:H; [done|].
  by rewrite (lt_negtrans y x z) in H2.
Qed.

(** Neighbours in order suffice. *)
Lemma sorted_in_adjacent l a b :
  (∀ i x y, a ≤ i → i + 1 < b → zget l i = Some x → zget l (i + 1) = Some y → le lt x y) →
  0 ≤ a → b ≤ len l → sorted_in lt l a b.
Proof.
  intros H Ha Hb i j. destruct (Z.lt_ge_cases i j) as [Hij|]; [|lia].
  replace j with (i + 1 + (j - i - 1)) by lia.
  assert (0 ≤ j - i - 1) as Hn by lia. revert Hn. generalize (j - i - 1). clear j Hij.
  intros n Hn. pattern n. revert n Hn. apply natlike_ind.
  - intros x y ?? Hj. rewrite Z.add_0_r in *. by apply H.
  - intros n Hn IH x y ?? Hj Hx Hy.
    destruct (zget_lt l (i + 1 + n)) as [z Hz]; [lia|].
    apply (le_trans x z); [apply IH; (done || lia)|].
    apply (H (i + 1 + n)); try done; try lia. by replace (i + 1 + n + 1) with (i + 1 + Z.succ n) by lia.
Qed.
End order.


(** ** Keeping the order of equal elements *)

Section stability.
Context {E : Type} (lt : E → E → bool) `{!StrictWeakOrder lt}.
Implicit Types (l : list E).

Definition eqv (e u : E) : bool := negb (lt e u) && negb (lt u e).

(** The elements equal to any given one stand in the same order in [l'] as in
    [l]. *)
Definition keeps_order l l' : Prop := ∀ e,
  filter (λ u, eqv e u = true) l' = filter (λ u, eqv e u = true) l.

(** Rearranged inside [a, b) without changing the order of equal elements. *)
Definition stable_in a b l l' : Prop := perm_in a b l l' ∧ keeps_order l l'.

Lemma stable_in_refl a b l : stable_in a b l l.
Proof. split; [apply perm_in_refl|done]. Qed.

Lemma stable_in_trans a b l1 l2 l3 :
  stable_in a b l1 l2 → stable_in a b l2 l3 → stable_in a b l1 l3.
Proof.
  intros [Hp Hk] [Hp' Hk']. split; [by eapply perm_in_trans|]. intros e. by rewrite Hk', Hk.
Qed.

Lemma stable_in_mono a b a' b' l l' : a' ≤ a → b ≤ b' → stable_in a b l l' → stable_in a' b' l l'.
Proof. intros ?? [Hp Hk]. split; [by apply (perm_in_mono a b)|done]. Qed.

Lemma eqv_lt e x y : eqv e x = true → eqv e y = true → lt y x = false.
Proof.
  unfold eqv. rewrite !andb_true_iff, !negb_true_iff. intros [H1 _] [_ H2].
  by apply (lt_negtrans y e x).
Qed.

(** Two blocks may change places when everything in the second is less than
    everything in the first. *)
Lemma keeps_order_blocks p u v s : (∀ x y, x ∈ u → y ∈ v → lt y x = true) →
  keeps_order (p ++ u ++ v ++ s) (p ++ v ++ u ++ s).
Proof.
  intros Hlt e. rewrite !filter_app. f_equal. rewrite !app_assoc. f_equal.
  set (P := λ u, eqv e u = true).
  assert (filter P u = [] ∨ filter P v = []) as [-> | ->]; [|by rewrite app_nil_r..].
  destruct (filter P u) as [|x fu] eqn:Hu; [by left|]. right.
  destruct (filter P v) as [|y fv] eqn:Hv; [done|].
  assert (x ∈ filter P u) as [Hx Hxu]%list_elem_of_filter by (rewrite Hu; constructor).
  assert (y ∈ filter P v) as [Hy Hyv]%list_elem_of_filter by (rewrite Hv; constructor).
  specialize (Hlt x y Hxu Hyv). by rewrite (eqv_lt e x y Hx Hy) in Hlt.
Qed.

(** [l'] is [l] with the blocks [a, m) and [m, b) exchanged. *)
Definition rotated l (a m b : Z) l' : Prop := len l' = len l ∧ ∀ k, 0 ≤ k < len l →
  zget l' k = if decide (a ≤ k < a + (b - m)) then zget l (k + (m - a))
    else if decide (a + (b - m) ≤ k < b) then zget l (k - (b - m)) else zget l k.

Lemma rotated_blocks l a m b l' : 0 ≤ a ≤ m → m ≤ b ≤ len l → rotated l a m b l' →
  ∃ p u v s, l = p ++ u ++ v ++ s ∧ l' = p ++ v ++ u ++ s ∧
    len p = a ∧ len u = m - a ∧ len v = b - m.
Proof.
  intros Ha Hb [Hlen Hk].
  exists (take (Z.to_nat a) l), (take (Z.to_nat (m - a)) (drop (Z.to_nat a) l)),
    (take (Z.to_nat (b - m)) (drop (Z.to_nat m) l)), (drop (Z.to_nat b) l).
  assert (len (take (Z.to_nat a) l) = a) as L1 by (rewrite len_take; lia).
  assert (len (take (Z.to_nat (m - a)) (drop (Z.to_nat a) l)) = m - a) as L2.
  { rewrite len_take, len_drop. lia. }
  assert (len (take (Z.to_nat (b - m)) (drop (Z.to_nat m) l)) = b - m) as L3.
  { rewrite len_take, len_drop. lia. }
  assert (len (drop (Z.to_nat b) l) = len l - b) as L4 by (rewrite len_drop; lia).
  split_and!; [| |done..].
  - apply zget_ext; [rewrite !len_app, L1, L2, L3, L4; lia|]. intros i Hi.
    destruct (decide (i < a)).
    { rewrite zget_app_l, zget_take by (rewrite ?L1; lia). done. }
    rewrite zget_app_r, L1 by (rewrite L1; lia). destruct (decide (i < m)).
    { rewrite zget_app_l, zget_take, zget_drop by (rewrite ?L2; lia). f_equal. lia. }
    rewrite zget_app_r, L2 by (rewrite L2; lia). destruct (decide (i < b)).
    { rewrite zget_app_l, zget_take, zget_drop by (rewrite ?L3; lia). f_equal. lia. }
    rewrite zget_app_r, L3, zget_drop by (rewrite ?L3; lia). f_equal. lia.
  - apply zget_ext; [rewrite !len_app, L1, L2, L3, L4; lia|]. intros i Hi.
    rewrite Hk by lia. destruct (decide (i < a)).
    { rewrite zget_app_l, zget_take by (rewrite ?L1; lia). by rewrite !decide_False by lia. }
    rewrite zget_app_r, L1 by (rewrite L1; lia). destruct (decide (i < a + (b - m))).
    { rewrite zget_app_l, zget_take, zget_drop by (rewrite ?L3; lia).
      rewrite decide_True by lia. f_equal. lia. }
    rewrite zget_app_r, L3 by (rewrite L3; lia). rewrite decide_False by lia.
    destruct (decide (i < b)).
    { rewrite zget_app_l, zget_take, zget_drop by (rewrite ?L2; lia).
      rewrite decide_True by lia. f_equal. lia. }
    rewrite zget_app_r, L2, zget_drop by (rewrite ?L2; lia). rewrite decide_False by lia.
    f_equal. lia.
Qed.

Lemma rotated_keeps_order l a m b l' : 0 ≤ a ≤ m → m ≤ b ≤ len l → rotated l a m b l' →
  (∀ i j x y, a ≤ i < m → m ≤ j < b → zget l i = Some x → zget l j = Some y → lt y x = true) →
  keeps_order l l'.
Proof.
  intros Ha Hb Hrot Hlt.
  destruct (rotated_blocks l a m b l' Ha Hb Hrot) as (p & u & v & s & -> & -> & Lp & Lu & Lv).
  apply keeps_order_blocks. intros x y [i Hi]%elem_of_zget [j Hj]%elem_of_zget.
  pose proof (zget_Some_range _ _ _ Hi). pose proof (zget_Some_range _ _ _ Hj).
  apply (Hlt (a + i) (m + j)); [lia|lia| |].
  - rewrite zget_app_r by lia. rewrite Lp. replace (a + i - a) with i by lia.
    by rewrite zget_app_l by lia.
  - rewrite zget_app_r, Lp by lia. rewrite zget_app_r, Lu by lia.
    replace (m + j - a - (m - a)) with j by lia. by rewrite zget_app_l by lia.
Qed.

(** Exchanging two neighbours out of order. *)
Lemma swap_keeps_order l i x y l' : zget l i = Some x → zget l (i + 1) = Some y → lt y x = true →
  len l' = len l → (∀ k, zget l' k = if decide (k = i) then Some y else
    if decide (k = i + 1) then Some x else zget l k) → keeps_order l l'.
Proof.
  intros Hx Hy Hlt Hlen Hk.
  pose proof (zget_Some_range _ _ _ Hx). pose proof (zget_Some_range _ _ _ Hy).
  apply (rotated_keeps_order l i (i + 1) (i + 2)); [lia|lia| |].
  - split; [done|]. intros k Hkr. rewrite Hk. repeat case_decide; try lia; subst; try done.
    + by replace (i + (i + 1 - i)) with (i + 1) by lia.
    + by replace (i + 1 - (i + 2 - (i + 1))) with i by lia.
  - intros i' j' x' y' Hi' Hj' Hx' Hy'. assert (i' = i) as -> by lia. assert (j' = i + 1) as -> by lia.
    by simplify_eq.
Qed.
End stability.
