(* ===== verification/SortProofs.v ===== *)
(** * Correctness of the unstable sort *)

From S2P Require Import Prelude Bits Sort SortSpec.


Section insertion.
Context {D E : Type} `{SortLaws D E} `{!StrictWeakOrder lt}.
Implicit Types (data : D).

Lemma wp_Less data i j (Q : bool → Prop) :
  0 ≤ i < len (view data) → 0 ≤ j < len (view data) →
  (∀ x y, zget (view data) i = Some x → zget (view data) j = Some y → Q (lt x y)) →
  wp (Less data i j) Q.
Proof.
  intros Hi Hj HQ. destruct (zget_lt _ _ Hi) as [x Hx]. destruct (zget_lt _ _ Hj) as [y Hy].
  rewrite (Less_view _ _ _ x y) by done. by apply HQ.
Qed.

Lemma wp_Swap data i j (Q : D → Prop) :
  0 ≤ i < len (view data) → 0 ≤ j < len (view data) →
  (∀ data' x y, zget (view data) i = Some x → zget (view data) j = Some y →
    view data' = zset (zset (view data) i y) j x → Q data') →
  wp (Swap data i j) Q.
Proof.
  intros Hi Hj HQ. destruct (zget_lt _ _ Hi) as [x Hx]. destruct (zget_lt _ _ Hj) as [y Hy].
  destruct (Swap_view data i j x y Hx Hy) as (data' & -> & Hv). by eapply HQ.
Qed.

(** Swapping positions of the range [a, b). *)
Lemma wp_Swap_in a b data i j (Q : D → Prop) :
  0 ≤ a → b ≤ len (view data) → a ≤ i < b → a ≤ j < b →
  (∀ data' x y, zget (view data) i = Some x → zget (view data) j = Some y →
    perm_in a b (view data) (view data') → len (view data') = len (view data) →
    (∀ k, zget (view data') k =
      if decide (k = i) then Some y else if decide (k = j) then Some x else zget (view data) k) →
    Q data') →
  wp (Swap data i j) Q.
Proof.
  intros Ha Hb Hi Hj HQ. apply wp_Swap; [lia..|]. intros data' x y Hx Hy Hv.
  assert (perm_in a b (view data) (view data')) as Hp.
  { apply (perm_in_swap a b _ i j); [done..|]. by exists x, y. }
  apply (HQ data' x y); [done..|by eapply perm_in_len|].
  intros k. rewrite Hv. by apply zget_swapped.
Qed.

(** Insertion: the element at [j] moves down through the sorted [a, i]. *)
Definition inserting (l : list E) (a j i : Z) : Prop :=
  sorted_in lt l a j ∧ sorted_in lt l j (i + 1) ∧
  ∀ p q x y, a ≤ p < j → j < q ≤ i → zget l p = Some x → zget l q = Some y → le lt x y.

Lemma inserting_done l a j i : inserting l a j i → a ≤ j ≤ i → 0 ≤ a → i < len l →
  (a < j → ∀ x y, zget l (j - 1) = Some x → zget l j = Some y → le lt x y) →
  sorted_in lt l a (i + 1).
Proof.
  intros (H1 & H2 & H3) Hj Ha Hi Hle. apply (sorted_in_app lt l a j (i + 1)); [done..|].
  intros p q x y Hp Hq Hx Hy. destruct (decide (q = j)) as [->|]; [|apply (H3 p q); (done || lia)].
  destruct (zget_lt l (j - 1)) as [z Hz]; [lia|].
  pose proof (Hle ltac:(lia) z y Hz Hy).
  destruct (decide (p = j - 1)) as [->|]; [by simplify_eq|].
  apply (le_trans lt x z); [apply (H1 p (j - 1)); (done || lia)|done].
Qed.

Lemma inserting_step l l' a j i x y : inserting l a j i → a < j ≤ i → 0 ≤ a → i < len l →
  zget l j = Some x → zget l (j - 1) = Some y → lt x y = true →
  (∀ k, zget l' k = if decide (k = j) then Some y else
    if decide (k = j - 1) then Some x else zget l k) →
  inserting l' a (j - 1) i.
Proof.
  intros (H1 & H2 & H3) Hj Ha Hi Hx Hy Hlt Hl'. split_and!.
  - intros p q u v ???. rewrite !Hl', !decide_False by lia. apply H1; lia.
  - intros p q u v Hp Hpq Hq. rewrite !Hl'. repeat case_decide; try lia; intros; simplify_eq.
    + apply (H3 (j - 1) q); (done || lia).
    + by apply lt_le.
    + apply (le_trans lt _ y); [by apply lt_le|]. apply (H3 (j - 1) q); (done || lia).
    + apply (H2 p q); (done || lia).
  - intros p q u v Hp Hq. rewrite !Hl'. repeat case_decide; try lia; intros; simplify_eq.
    + apply (H1 p (j - 1)); (done || lia).
    + apply (H3 p q); (done || lia).
Qed.

(** [insert_down] with the scan bound [lo]: below [a] the scan is stopped
    either by [lo] or by an element that is not greater. *)
Lemma insert_down_spec data lo a i :
  0 ≤ lo ≤ a → a ≤ i < len (view data) → sorted_in lt (view data) a i →
  (lo < a → ∀ z, zget (view data) (a - 1) = Some z →
     all_in (le lt z) (view data) a (i + 1)) →
  wp (insert_down data lo i) (λ data',
    stable_in lt a (i + 1) (view data) (view data') ∧ sorted_in lt (view data') a (i + 1)).
Proof.
  intros Hlo Hi Hs Hb. unfold insert_down.
  apply (wp_loop (λ '(data', j), stable_in lt a (i + 1) (view data) (view data') ∧
    a ≤ j ≤ i ∧ inserting (view data') a j i) (λ '(_, j), j - lo)).
  - split; [apply stable_in_refl|]. split; [lia|]. split; [done|]. split; [apply sorted_in_empty; lia|]. intros; lia.
  - intros [data' j] (_ & ? & _). lia.
  - unfold fuel_of. lia.
  - intros [data' j] (Hst & Hj & Hins). pose proof (proj1 Hst) as Hp.
    pose proof (perm_in_len _ _ _ _ Hp) as Hlen.
    destruct (Z.ltb_spec lo j) as [Hlt|Hge]; simpl.
    2: { split; [done|]. assert (j = a) as -> by lia. apply (inserting_done _ a a i); (done || lia || (intros; lia)). }
    apply wp_bind. apply wp_Less; [lia..|]. intros x y Hx Hy.
    destruct (lt x y) eqn:Hxy; simpl.
    + assert (a < j) as Haj.
      { destruct (decide (a < j)); [done|]. assert (j = a) as -> by lia.
        rewrite (perm_in_outside _ _ _ _ _ Hp) in Hy by lia.
        pose proof (perm_in_all _ _ _ _ _ _ _ Hp (Z.le_refl _) (Z.le_refl _) (Hb ltac:(lia) y Hy)) as Hall.
        pose proof (Hall a x ltac:(lia) Hx) as Hle. unfold le in Hle. congruence. }
      apply wp_bind. apply (wp_Swap_in a (i + 1)); [lia..|].
      intros data'' x' y' Hx' Hy' Hp' Hlen' Hget. simplify_eq. simpl.
      split; [|lia]. split; [|split; [lia|]].
      { eapply stable_in_trans; [done|]. split; [done|].
        apply (swap_keeps_order lt _ (j - 1) y x); [done|by replace (j - 1 + 1) with j by lia|done|done|].
        intros k. rewrite Hget. repeat case_decide; (done || lia). }
      apply (inserting_step (view data') _ a j i x y); (done || lia).
    + split; [done|]. apply inserting_done with j; [done|lia|lia|lia|].
      intros _ u v Hu Hv. simplify_eq. done.
Qed.

Lemma insertionSort_spec data a b :
  0 ≤ a → b ≤ len (view data) →
  wp (insertionSort data a b) (λ data',
    stable_in lt a b (view data) (view data') ∧ sorted_in lt (view data') a b).
Proof.
  intros Ha Hb. unfold insertionSort.
  destruct (decide (b ≤ a)) as [Hba|Hba].
  { unfold fuel_of. rewrite loop_S. simpl. destruct (Z.ltb_spec (a + 1) b); [lia|]. simpl.
    split; [apply stable_in_refl|]. apply sorted_in_empty. lia. }
  apply (wp_loop (λ '(data', i), stable_in lt a b (view data) (view data') ∧
    a + 1 ≤ i ≤ b ∧ sorted_in lt (view data') a i) (λ '(_, i), b - i)).
  - split; [apply stable_in_refl|]. split; [lia|]. apply sorted_in_empty. lia.
  - intros [data' i] (_ & ? & _). lia.
  - unfold fuel_of. lia.
  - intros [data' i] (Hp & Hi & Hs). pose proof (perm_in_len _ _ _ _ (proj1 Hp)) as Hlen.
    destruct (Z.ltb_spec i b) as [Hlt|Hge]; simpl.
    + apply wp_bind. eapply wp_mono.
      { apply (insert_down_spec data' a a i); [lia|lia|done|]. intros; lia. }
      intros data'' [Hp' Hs']. simpl. split; [|lia].
      split; [|split; [lia|done]].
      eapply stable_in_trans; [done|]. by apply (stable_in_mono lt a (i + 1)); [lia..|].
    + split; [done|]. by replace b with i by lia.
Qed.
End insertion.


Section partition.
Context {D E : Type} `{SortLaws D E} `{!StrictWeakOrder lt}.
Implicit Types (data : D).

(** The scans stop at the first position that fails the test. *)
Lemma scan_up_spec (test : Z → res bool) (P : Z → bool) i j :
  i ≤ j + 1 → (∀ k, i ≤ k ≤ j → test k = Ok (P k)) →
  wp (scan_up test i j) (λ i', i ≤ i' ≤ j + 1 ∧ (∀ k, i ≤ k < i' → P k = true) ∧
    (i' ≤ j → P i' = false)).
Proof.
  intros Hij Ht. unfold scan_up.
  apply (wp_loop (λ i', i ≤ i' ≤ j + 1 ∧ ∀ k, i ≤ k < i' → P k = true) (λ i', j + 1 - i')).
  - split; [lia|]. intros; lia.
  - intros i' [? _]. lia.
  - unfold fuel_of. lia.
  - intros i' [Hi' HP]. destruct (Z.leb_spec i' j) as [Hle|Hgt]; simpl.
    + rewrite Ht by lia. simpl. destruct (P i') eqn:HPi; simpl.
      * split; [split; [lia|]|lia]. intros k Hk. destruct (decide (k = i')) as [->|]; [done|].
        apply HP. lia.
      * done.
    + split_and!; [lia|lia|done|lia].
Qed.

Lemma scan_down_spec (test : Z → res bool) (P : Z → bool) i j :
  i ≤ j + 1 → (∀ k, i ≤ k ≤ j → test k = Ok (P k)) →
  wp (scan_down test i j) (λ j', i ≤ j' + 1 ≤ j + 1 ∧ (∀ k, j' < k ≤ j → P k = true) ∧
    (i ≤ j' → P j' = false)).
Proof.
  intros Hij Ht. unfold scan_down.
  apply (wp_loop (λ j', i ≤ j' + 1 ≤ j + 1 ∧ ∀ k, j' < k ≤ j → P k = true) (λ j', j' + 1 - i)).
  - split; [lia|]. intros; lia.
  - intros j' [? _]. lia.
  - unfold fuel_of. lia.
  - intros j' [Hj' HP]. destruct (Z.leb_spec i j') as [Hle|Hgt]; simpl.
    + rewrite Ht by lia. simpl. destruct (P j') eqn:HPj; simpl.
      * split; [split; [lia|]|lia]. intros k Hk. destruct (decide (k = j')) as [->|]; [done|].
        apply HP. lia.
      * done.
    + split_and!; [lia|lia|done|lia].
Qed.

(** The test of a position against the element [p] at [a], as a function. *)
Definition at_pos (f : E → bool) (l : list E) (k : Z) : bool :=
  match zget l k with Some x => f x | None => false end.

Lemma at_pos_all (f : E → bool) l i j v :
  (∀ k, i ≤ k < j → at_pos f l k = v) → all_in (λ x, f x = v) l i j.
Proof. intros HP k x Hk Hx. specialize (HP k Hk). unfold at_pos in HP. by rewrite Hx in HP. Qed.

Lemma Less_at_l data a p k : zget (view data) a = Some p → 0 ≤ k < len (view data) →
  Less data k a = Ok (at_pos (λ x, lt x p) (view data) k).
Proof.
  intros Hp Hk. destruct (zget_lt _ _ Hk) as [x Hx]. unfold at_pos. rewrite Hx.
  by apply Less_view.
Qed.

Lemma Less_at_r data a p k : zget (view data) a = Some p → 0 ≤ k < len (view data) →
  Less data a k = Ok (at_pos (λ x, lt p x) (view data) k).
Proof.
  intros Hp Hk. destruct (zget_lt _ _ Hk) as [x Hx]. unfold at_pos. rewrite Hx.
  by apply Less_view.
Qed.

Lemma notM_at f l k : 0 ≤ k < len l → notM (Ok (at_pos f l k)) = Ok (at_pos (λ x : E, negb (f x)) l k).
Proof. intros Hk. destruct (zget_lt _ _ Hk) as [x Hx]. unfold at_pos. by rewrite Hx. Qed.

Lemma at_pos_ext f g l k : (∀ x : E, f x = g x) → at_pos f l k = at_pos g l k.
Proof. intros Hfg. unfold at_pos. destruct (zget l k); auto. Qed.

(** Both scans of a partition, for the test [f] on the left and its negation
    on the right. *)
Lemma scans_spec {R} (up down : Z → res bool) (f : E → bool) data a b i j
    (K : Z → Z → res R) Q :
  0 ≤ a → b ≤ len (view data) → a ≤ i → j < b → i ≤ j + 1 →
  (∀ k, 0 ≤ k < len (view data) → up k = Ok (at_pos f (view data) k)) →
  (∀ k, 0 ≤ k < len (view data) → down k = Ok (at_pos (λ x, negb (f x)) (view data) k)) →
  (∀ i' j', i ≤ i' → i - 1 ≤ j' ≤ j → i' ≤ j' + 1 →
    all_in (λ x, f x = true) (view data) i i' →
    all_in (λ x, f x = false) (view data) (j' + 1) (j + 1) →
    (i' ≤ j' → i' < j' ∧ ∃ x y, zget (view data) i' = Some x ∧
      zget (view data) j' = Some y ∧ f x = false ∧ f y = true) →
    wp (K i' j') Q) →
  wp (i ← scan_up up i j; j ← scan_down down i j; K i j) Q.
Proof.
  intros Ha Hb Hi Hj Hij Hup Hdown HQ.
  apply wp_bind. eapply wp_mono.
  { apply (scan_up_spec up (at_pos f (view data))); [done|]. intros k Hk. apply Hup. lia. }
  intros i' (Hi' & Hall & Hstop). simpl. apply wp_bind. eapply wp_mono.
  { apply (scan_down_spec down (at_pos (λ x, negb (f x)) (view data))); [lia|].
    intros k Hk. apply Hdown. lia. }
  intros j' (Hj' & Hall' & Hstop'). simpl. apply HQ; [lia|lia|lia| | |].
  - by apply at_pos_all.
  - apply all_in_impl with (P := λ x, negb (f x) = true).
    + apply at_pos_all. intros k Hk. apply Hall'. lia.
    + intros x. by destruct (f x).
  - intros Hle. specialize (Hstop ltac:(lia)). specialize (Hstop' ltac:(lia)).
    destruct (zget_lt (view data) i') as [x Hx]; [lia|].
    destruct (zget_lt (view data) j') as [y Hy]; [lia|].
    unfold at_pos in *. rewrite Hx in Hstop. rewrite Hy in Hstop'.
    split; [|exists x, y; split_and!; try done; by destruct (f y)].
    destruct (decide (i' = j')) as [->|]; [|lia]. simplify_eq. by rewrite Hstop in Hstop'.
Qed.

(** The state of a partition of [a, b) around the element at [a]: [a+1, i)
    passes the test and [j+1, b) fails it. *)
Definition parting (f : E → bool) (l0 l : list E) (a b i j : Z) : Prop :=
  perm_in (a + 1) b l0 l ∧ a + 1 ≤ i ∧ j < b ∧ i ≤ j + 1 ∧
  all_in (λ x, f x = true) l (a + 1) i ∧ all_in (λ x, f x = false) l (j + 1) b.

Lemma parting_scan f l0 l a b i j i' j' : parting f l0 l a b i j →
  i ≤ i' → j' ≤ j → i' ≤ j' + 1 →
  all_in (λ x, f x = true) l i i' → all_in (λ x, f x = false) l (j' + 1) (j + 1) →
  parting f l0 l a b i' j'.
Proof.
  intros (Hp & Hi & Hj & Hij & H1 & H2) Hi' Hj' Hij' Hs1 Hs2. split_and!; try done; try lia.
  - by apply all_in_app with i.
  - by apply all_in_app with (j + 1).
Qed.

(** Exchanging the two positions where the scans stopped. *)
Lemma wp_parting_swap f data0 data a b i j x y Q :
  0 ≤ a → b ≤ len (view data) → parting f (view data0) (view data) a b i j → i < j →
  zget (view data) i = Some x → zget (view data) j = Some y → f x = false → f y = true →
  (∀ data', parting f (view data0) (view data') a b (i + 1) (j - 1) →
    zget (view data') a = zget (view data) a → len (view data') = len (view data) → Q data') →
  wp (Swap data i j) Q.
Proof.
  intros Ha Hb (Hp & Hi & Hj & Hij & H1 & H2) Hlt Hx Hy Hfx Hfy HQ.
  apply (wp_Swap_in (a + 1) b); [lia..|].
  intros data' x' y' Hx' Hy' Hp' Hlen Hget. simplify_eq. apply HQ; [|rewrite Hget|done].
  2: { by rewrite !decide_False by lia. }
  split; [by eapply perm_in_trans|]. split_and!; try lia.
  - intros k z Hk. rewrite Hget. repeat case_decide; intros; simplify_eq; [done|lia|].
    apply (H1 k); (done || lia).
  - intros k z Hk. rewrite Hget. repeat case_decide; intros; simplify_eq; [lia|done|].
    apply (H2 k); (done || lia).
Qed.

Lemma Less_down data a p k : zget (view data) a = Some p → 0 ≤ k < len (view data) →
  notM (Less data k a) = Ok (at_pos (λ x, negb (lt x p)) (view data) k).
Proof. intros. by rewrite (Less_at_l _ _ p), notM_at. Qed.

(** The common end of both returns of [partition]. *)
Lemma wp_partition_end data0 data a b i j p (al : bool) :
  0 ≤ a → b ≤ len (view data) → parting (λ x, lt x p) (view data0) (view data) a b i j →
  j < i → zget (view data) a = Some p →
  wp (data ← Swap data j a; mret (data, j, al)) (λ '(data', mid, _),
    perm_in a b (view data0) (view data') ∧ a ≤ mid < b ∧ zget (view data') mid = Some p ∧
    all_in (λ x, lt x p = true) (view data') a mid ∧
    all_in (λ x, lt x p = false) (view data') (mid + 1) b).
Proof.
  intros Ha Hb (Hp & Hi & Hj & Hij & H1 & H2) Hji Hpa. assert (j + 1 = i) as <- by lia.
  apply wp_bind. apply (wp_Swap_in a b); [lia..|].
  intros data' x y Hx Hy Hp' Hlen Hget. simplify_eq. simpl.
  split; [eapply perm_in_trans; [|done]; apply (perm_in_mono (a + 1) b); (done || lia)|].
  split; [lia|]. split; [by rewrite Hget, decide_True|]. split.
  - intros k z Hk. rewrite Hget. repeat case_decide; intros; simplify_eq; [lia| |].
    + apply (H1 j); (done || lia).
    + apply (H1 k); (done || lia).
  - intros k z Hk. rewrite Hget. rewrite !decide_False by lia. apply (H2 k). lia.
Qed.

Lemma partition_spec data a b pivot :
  0 ≤ a → b ≤ len (view data) → a ≤ pivot < b →
  wp (partition data a b pivot) (λ '(data', mid, _),
    perm_in a b (view data) (view data') ∧ a ≤ mid < b ∧ ∃ p, zget (view data') mid = Some p ∧
    all_in (λ x, lt x p = true) (view data') a mid ∧
    all_in (λ x, lt x p = false) (view data') (mid + 1) b).
Proof.
  intros Ha Hb Hpiv. unfold partition. apply wp_bind. apply (wp_Swap_in a b); [lia..|].
  intros data1 x0 p _ _ Hp1 Hlen1 Hget1.
  assert (zget (view data1) a = Some p) as Hpa by by rewrite Hget1, decide_True.
  eapply (wp_mono _ (λ '(data', mid, _),
    perm_in a b (view data1) (view data') ∧ a ≤ mid < b ∧ zget (view data') mid = Some p ∧
    all_in (λ x, lt x p = true) (view data') a mid ∧
    all_in (λ x, lt x p = false) (view data') (mid + 1) b)).
  2: { intros [[data' mid] al] (Hp & Hm & Hpm & H1 & H2). split; [by eapply perm_in_trans|].
    split; [done|]. by exists p. }
  clear x0 Hget1 Hp1. rewrite <-Hlen1 in Hb. assert (a < b) as Hab by lia. clear Hlen1 data Hpiv.
  assert (parting (λ x, lt x p) (view data1) (view data1) a b (a + 1) (b - 1)) as HI.
  { split_and!; try lia; [apply perm_in_refl|apply all_in_empty; lia..]. }
  eapply (scans_spec _ _ (λ x, lt x p) data1 a b); [done|done|lia|lia|lia| | |].
  { intros. by apply Less_at_l. }
  { intros. by apply Less_down. }
  intros i j Hi Hj Hij Hs1 Hs2 Hstop.
  pose proof (parting_scan _ _ _ _ _ _ _ _ _ HI Hi (proj2 Hj) Hij Hs1 Hs2) as HI'. clear HI Hs1 Hs2.
  destruct (Z.ltb_spec j i) as [Hlt|Hge].
  { by apply wp_partition_end with i. }
  destruct (Hstop ltac:(lia)) as (Hij' & x & y & Hx & Hy & Hfx & Hfy).
  apply wp_bind. eapply (wp_parting_swap _ data1 data1 a b i j x y); [done..|].
  intros data2 HI2 Ha2 Hlen2. apply wp_bind. rewrite Hpa in Ha2. clear HI' Hstop Hx Hy.
  eapply wp_mono.
  { apply (wp_loop (λ '(data', i, j), parting (λ x, lt x p) (view data1) (view data') a b i j ∧
      zget (view data') a = Some p ∧ len (view data') = len (view data1))
      (λ '(_, i, j), j + 1 - i) _ _ _ (λ '(data', j), ∃ i,
        parting (λ x, lt x p) (view data1) (view data') a b i j ∧ j < i ∧
        zget (view data') a = Some p ∧ len (view data') = len (view data1))).
    - done.
    - intros [[data' i'] j'] [(_ & _ & _ & ? & _) _]. lia.
    - unfold fuel_of. destruct HI2 as (_ & _ & _ & ? & _). lia.
    - clear i j Hi Hj Hij Hge Hij' HI2. intros [[data' i] j] (HI & Hpa' & Hlen').
      destruct HI as (Hp & Hi & Hj & Hij & H1 & H2).
      assert (parting (λ x, lt x p) (view data1) (view data') a b i j) as HI by done.
      eapply (scans_spec _ _ (λ x, lt x p) data' a b); [done|lia|lia|lia|lia| | |].
      { intros. by apply Less_at_l. }
      { intros. by apply Less_down. }
      intros i' j' Hi' Hj' Hij' Hs1 Hs2 Hstop.
      pose proof (parting_scan _ _ _ _ _ _ _ _ _ HI Hi' (proj2 Hj') Hij' Hs1 Hs2) as HI'.
      destruct (Z.ltb_spec j' i') as [Hlt|Hge]; simpl; [by exists i'|].
      destruct (Hstop ltac:(lia)) as (Hlt' & u & v & Hu & Hv & Hfu & Hfv).
      apply wp_bind. eapply (wp_parting_swap _ data1 data' a b i' j' u v); [done|lia|done..|].
      intros data'' HI'' Ha'' Hlen''. simpl. split; [|lia].
      split_and!; [done|congruence|congruence]. }
  intros [data' j'] (i' & HI3 & Hji & Hpa' & Hlen'). simpl.
  apply wp_partition_end with i'; [done|lia|done..].
Qed.
End partition.


Section ranges.
Context {D E : Type} `{SortLaws D E} `{!StrictWeakOrder lt}.
Implicit Types (data : D).

Lemma partitionEqual_spec data a b pivot :
  0 ≤ a → b ≤ len (view data) → a ≤ pivot < b →
  wp (partitionEqual data a b pivot) (λ '(data', mid),
    perm_in a b (view data) (view data') ∧ a < mid ≤ b ∧ ∃ p,
    zget (view data) pivot = Some p ∧
    all_in (λ x, lt p x = false) (view data') a mid ∧
    all_in (λ x, lt p x = true) (view data') mid b).
Proof.
  intros Ha Hb Hpiv. unfold partitionEqual. apply wp_bind. apply (wp_Swap_in a b); [lia..|].
  intros data1 x0 p _ Hp0 Hp1 Hlen1 Hget1.
  assert (zget (view data1) a = Some p) as Hpa by by rewrite Hget1, decide_True.
  clear Hget1. set (f := λ x, negb (lt p x)).
  apply (wp_loop (λ '(data', i, j), parting f (view data1) (view data') a b i j ∧
      zget (view data') a = Some p ∧ len (view data') = len (view data1))
      (λ '(_, i, j), j + 1 - i)).
  - split; [|done]. split_and!; try lia; [apply perm_in_refl|apply all_in_empty; lia..].
  - intros [[data' i'] j'] [(_ & _ & _ & ? & _) _]. lia.
  - unfold fuel_of. lia.
  - intros [[data' i] j] (HI & Hpa' & Hlen').
    assert (parting f (view data1) (view data') a b i j) as (Hp & Hi & Hj & Hij & H1 & H2) by done.
    eapply (scans_spec _ _ f data' a b); [lia|lia|lia|lia|lia| | |].
    { intros. rewrite (Less_at_r _ _ p) by done. by rewrite notM_at. }
    { intros. rewrite (Less_at_r _ _ p) by done. f_equal. apply at_pos_ext.
      intros x. unfold f. by rewrite negb_involutive. }
    intros i' j' Hi' Hj' Hij' Hs1 Hs2 Hstop.
    pose proof (parting_scan _ _ _ _ _ _ _ _ _ HI Hi' (proj2 Hj') Hij' Hs1 Hs2) as HI'.
    destruct (Z.ltb_spec j' i') as [Hlt|Hge]; simpl.
    + destruct HI' as (Hp' & _ & _ & _ & H1' & H2'). assert (j' + 1 = i') as E0 by lia.
      split; [eapply perm_in_trans; [done|]; apply (perm_in_mono (a + 1) b); (done || lia)|].
      split; [lia|]. exists p. split; [done|]. rewrite E0 in H2'. split.
      * apply all_in_cons with p; [done|by apply le_refl|].
        eapply all_in_impl; [done|]. unfold f. intros x Hx. by apply negb_true_iff in Hx.
      * eapply all_in_impl; [done|]. unfold f. intros x Hx. by apply negb_false_iff in Hx.
    + destruct (Hstop ltac:(lia)) as (Hlt' & u & v & Hu & Hv & Hfu & Hfv).
      apply wp_bind. eapply (wp_parting_swap f data1 data' a b i' j' u v); [done|lia|done..|].
      intros data'' HI'' Ha'' Hlen''. simpl. split; [|lia].
      split_and!; [done|congruence|congruence].
Qed.

Lemma reverseRange_spec data a b : 0 ≤ a ≤ b → b ≤ len (view data) →
  wp (reverseRange data a b) (λ data', perm_in a b (view data) (view data')).
Proof.
  intros Ha Hb. unfold reverseRange.
  apply (wp_loop (λ '(data', i, j), perm_in a b (view data) (view data') ∧
    a ≤ i ∧ j < b ∧ i ≤ j + 1) (λ '(_, i, j), j + 1 - i)).
  - split_and!; [apply perm_in_refl|lia..].
  - intros [[data' i] j]. lia.
  - unfold fuel_of. lia.
  - intros [[data' i] j] (Hp & Hi & Hj & Hij). pose proof (perm_in_len _ _ _ _ Hp).
    destruct (Z.ltb_spec i j); simpl; [|done].
    apply wp_bind. apply (wp_Swap_in a b); [lia..|]. intros data'' x y _ _ Hp' _ _. simpl.
    split; [|lia]. split_and!; [by eapply perm_in_trans|lia..].
Qed.

Lemma order2_spec data a b s : 0 ≤ a < len (view data) → 0 ≤ b < len (view data) →
  wp (order2 data a b s) (λ '(x, y, _), (x = a ∧ y = b) ∨ (x = b ∧ y = a)).
Proof.
  intros Ha Hb. unfold order2. apply wp_bind. apply wp_Less; [lia..|].
  intros x y _ _. destruct (lt x y); simpl; auto.
Qed.

Lemma median_spec data a b c s (P : Z → Prop) : P a → P b → P c →
  (∀ i, P i → 0 ≤ i < len (view data)) → wp (median data a b c s) (λ '(m, _), P m).
Proof.
  intros Ha Hb Hc HP. unfold median. apply wp_bind. eapply wp_mono.
  { apply order2_spec; auto. }
  intros [[a1 b1] s1] H1. simpl. apply wp_bind. eapply wp_mono.
  { apply order2_spec; [|auto]. destruct H1 as [[-> ->]|[-> ->]]; auto. }
  intros [[b2 c2] s2] H2. simpl. apply wp_bind. eapply wp_mono.
  { apply order2_spec.
    all: destruct H1 as [[-> ->]|[-> ->]]; destruct H2 as [[-> ->]|[-> ->]]; auto. }
  intros [[a3 b3] s3] H3. simpl.
  destruct H1 as [[-> ->]|[-> ->]]; destruct H2 as [[-> ->]|[-> ->]];
    destruct H3 as [[-> ->]|[-> ->]]; auto.
Qed.

(** The pivot is a position of the range; the data is only read. *)
Lemma choosePivot_spec data a b : 0 ≤ a → a + 8 ≤ b ≤ len (view data) →
  wp (choosePivot data a b) (λ '(pivot, _), a ≤ pivot < b).
Proof.
  intros Ha Hb. unfold choosePivot. set (l := b - a).
  assert (l ÷ 4 = l / 4) as -> by (apply Z.quot_div_nonneg; lia).
  rewrite (proj2 (Z.leb_le 8 l)) by lia.
  assert (∀ i, a ≤ i < b → 0 ≤ i < len (view data)) as HP by lia.
  apply wp_bind. apply (wp_mono _ (λ '(j, _), a ≤ j < b)).
  2: { intros [j s] Hj. simpl. repeat case_match; simpl; done. }
  apply wp_bind. apply (wp_mono _ (λ '(i, j, k, _), a ≤ i < b ∧ a ≤ j < b ∧ a ≤ k < b)).
  2: { intros [[[i j] k] s] (Hi & Hj & Hk). by apply (median_spec _ _ _ _ _ (λ i, a ≤ i < b)). }
  assert (l / 4 * 4 ≤ l ∧ 2 ≤ l / 4) as [??] by dlia.
  unfold shortestNinther. destruct (Z.leb_spec 50 l); simpl; [|lia].
  assert (12 ≤ l / 4) by dlia.
  apply wp_bind. eapply wp_mono.
  { apply (median_spec _ _ _ _ _ (λ i, a ≤ i < b)); (done || lia). }
  intros [i s1] Hi. simpl. apply wp_bind. eapply wp_mono.
  { apply (median_spec _ _ _ _ _ (λ i, a ≤ i < b)); (done || lia). }
  intros [j s2] Hj. simpl. apply wp_bind. eapply wp_mono.
  { apply (median_spec _ _ _ _ _ (λ i, a ≤ i < b)); (done || lia). }
  intros [k s3] Hk. done.
Qed.

(** The modulus of [breakPatterns] is a power of two above the length, and
    at most twice the length. *)
Lemma nextPowerOfTwo_spec n : 0 < n < 2 ^ 63 →
  ∃ k, nextPowerOfTwo n = Ok (2 ^ k) ∧ 0 ≤ k ∧ n < 2 ^ k ≤ 2 * n ∧ 2 ^ k < 2 ^ 64.
Proof.
  intros Hn. unfold nextPowerOfTwo.
  rewrite (uwrap_small 64 n) by (unfold is_uint; lia).
  unfold Bits.Len. change (UintSize =? 32) with false. cbv iota.
  rewrite uwrap_small, Len64_spec by (unfold is_uint; lia). cbn [mbind res_bind].
  pose proof (bit_len_bounds n ltac:(lia)) as [Hl Hu]. pose proof (bit_len_nonneg n).
  assert (bit_len n ≠ 0) by (intros E0; rewrite E0 in Hu; simpl in Hu; lia).
  assert (bit_len n ≤ 63) by (apply bit_len_le; [unfold is_uint; lia|lia]).
  assert (2 ^ bit_len n = 2 * 2 ^ (bit_len n - 1)) as E1.
  { rewrite <-Z.pow_succ_r by lia. f_equal. lia. }
  assert (2 ^ bit_len n < 2 ^ 64) by (apply Z.pow_lt_mono_r; lia).
  exists (bit_len n). rewrite Z.shiftl_mul_pow2, Z.mul_1_l by lia.
  rewrite uwrap_small by (unfold is_uint; lia). split_and!; (done || lia).
Qed.

Lemma xorshift_range r : is_uint 64 r → is_uint 64 (xorshift_Next r).
Proof.
  intros Hr. unfold xorshift_Next.
  apply lxor_range; [lia| |by apply uwrap_range].
  assert (is_uint 64 (Z.lxor r (u64 (Z.shiftl r 13)))) as H1.
  { apply lxor_range; [lia|done|by apply uwrap_range]. }
  apply lxor_range; [lia|done|]. apply is_uint_shiftr; [done|lia].
Qed.

Lemma breakPatterns_spec data a b : 0 ≤ a → b ≤ len (view data) → len (view data) < 2 ^ 63 →
  wp (breakPatterns data a b) (λ data', perm_in a b (view data) (view data')).
Proof.
  intros Ha Hb Hlen. unfold breakPatterns. set (n := b - a).
  destruct (Z.leb_spec 8 n) as [Hn|]; [|apply perm_in_refl].
  destruct (nextPowerOfTwo_spec n) as (k & -> & Hk & Hr & Hmax); [lia|].
  cbn [mbind res_bind]. apply wp_bind. eapply wp_mono.
  { apply (wp_foldM (λ _ '(data', random), perm_in a b (view data) (view data') ∧
      is_uint 64 random)).
    - split; [apply perm_in_refl|unfold is_uint; lia].
    - intros don idx rest [data' random] Hl [Hp Hrand]. pose proof (perm_in_len _ _ _ _ Hp).
      assert (idx ∈ seqZ (a + n ÷ 4 * 2 - 1) 3) as Hidx.
      { rewrite Hl. apply elem_of_app. right. left. }
      apply elem_of_seqZ in Hidx.
      assert (n ÷ 4 = n / 4) as E0 by (apply Z.quot_div_nonneg; lia). rewrite E0 in Hidx.
      assert (2 ≤ n / 4 ∧ n / 4 * 4 ≤ n) as [??] by dlia.
      pose proof (xorshift_range random Hrand) as Hrand'.
      set (other := Z.land _ _).
      assert (0 ≤ other < 2 ^ k) as Ho.
      { unfold other. rewrite (uwrap_small 64) by (unfold is_uint; lia).
        rewrite land_mask by done. apply Z.mod_pos_bound. lia. }
      apply wp_bind. apply (wp_Swap_in a b); [lia|lia|lia| |].
      { destruct (Z.leb_spec n other); lia. }
      intros data'' x y _ _ Hp' _ _. simpl. split; [by eapply perm_in_trans|done]. }
  intros [data' random'] [Hp _]. done.
Qed.
End ranges.


Section heap.
Context {D E : Type} `{SortLaws D E} `{!StrictWeakOrder lt}.
Implicit Types (data : D).

(** The child at [c] is not greater than its parent; positions are relative to
    [first]. *)
Definition child_le (l : list E) (first c : Z) : Prop := ∀ x y,
  zget l (first + c) = Some x → zget l (first + (c - 1) / 2) = Some y → le lt x y.

(** The heap property of the subtrees rooted at [lo] and above, within
    [0, hi). *)
Definition heap (l : list E) (first lo hi : Z) : Prop :=
  ∀ c, 0 < c < hi → lo ≤ (c - 1) / 2 → child_le l first c.

(** The same, where the element at [root] may be too small; its children are
    not greater than its parent. *)
Definition heap_except (l : list E) (first lo hi root : Z) : Prop :=
  (∀ c, 0 < c < hi → lo ≤ (c - 1) / 2 → (c - 1) / 2 ≠ root → child_le l first c) ∧
  (lo < root → lo ≤ (root - 1) / 2 → ∀ c x y, 0 < c < hi → (c - 1) / 2 = root →
    zget l (first + c) = Some x → zget l (first + (root - 1) / 2) = Some y → le lt x y).

Lemma heap_except_done l first lo hi root : heap_except l first lo hi root →
  (∀ c, 0 < c < hi → (c - 1) / 2 = root → child_le l first c) → heap l first lo hi.
Proof.
  intros [H1 _] H2 c Hc Hlo. destruct (decide ((c - 1) / 2 = root)); auto.
Qed.

(** Swapping the root with its greater child [c]. *)
Lemma heap_except_swap l l' first lo hi root c x y :
  heap_except l first lo hi root → 0 ≤ lo ≤ root → 0 < c < hi → (c - 1) / 2 = root →
  0 ≤ first → first + hi ≤ len l →
  zget l (first + root) = Some x → zget l (first + c) = Some y → lt x y = true →
  (∀ c' z, 0 < c' < hi → (c' - 1) / 2 = root → zget l (first + c') = Some z → le lt z y) →
  (∀ k, zget l' k = if decide (k = first + root) then Some y else
    if decide (k = first + c) then Some x else zget l k) →
  heap_except l' first lo hi c.
Proof.
  intros [H1 H2] Hlo Hc Hpc Hf Hlen Hx Hy Hxy Hmax Hl'.
  assert (root < c) by dlia. split.
  - intros c' Hc' Hlo' Hne u v. rewrite !Hl'.
    destruct (decide (first + c' = first + root)) as [E1|E1].
    + (* the root itself against its parent *)
      assert (c' = root) as -> by lia. rewrite !decide_False by dlia.
      intros [= <-] Hv. apply (H2 ltac:(dlia) Hlo' c); done.
    + destruct (decide (first + (c' - 1) / 2 = first + root)) as [E2|E2].
      * intros Hu [= <-]. destruct (decide (first + c' = first + c)) as [E3|E3].
        -- simplify_eq. by apply lt_le.
        -- apply (Hmax c'); (done || lia).
      * destruct (decide (first + c' = first + c)) as [E3|E3]; [exfalso; assert (c' = c) by lia; subst c'; lia|].
        rewrite (decide_False (P := first + (c' - 1) / 2 = first + c)) by lia.
        apply H1; lia.
  - intros _ _ c' u v Hc' Hpc'. rewrite !Hl', Hpc.
    rewrite (decide_False (P := first + c' = first + root)) by dlia.
    rewrite (decide_False (P := first + c' = first + c)) by dlia.
    rewrite decide_True by done. intros Hu [= <-].
    assert (child_le l first c') as Hcl by (apply H1; dlia).
    apply Hcl; [done|]. by rewrite Hpc'.
Qed.

(** Choosing the greater child: the first child [c1], or its sibling. *)
Lemma wp_greater_child data root hi first Q :
  0 ≤ first → first + hi ≤ len (view data) → 0 ≤ root → 2 * root + 1 < hi →
  (∀ c y, 0 < c < hi → (c - 1) / 2 = root → zget (view data) (first + c) = Some y →
    (∀ c' z, 0 < c' < hi → (c' - 1) / 2 = root → zget (view data) (first + c') = Some z →
      le lt z y) → Q c) →
  wp (c ← andM (2 * root + 1 + 1 <? hi)
        (Less data (first + (2 * root + 1)) (first + (2 * root + 1) + 1));
      mret (if c : bool then 2 * root + 1 + 1 else 2 * root + 1)) Q.
Proof.
  intros Hf Hlen Hr Hc1 HQ.
  assert (∀ c', 0 < c' → (c' - 1) / 2 = root → c' = 2 * root + 1 ∨ c' = 2 * root + 2) as Hch.
  { intros c' ??. dlia. }
  destruct (zget_lt (view data) (first + (2 * root + 1))) as [x Hx]; [lia|].
  destruct (Z.ltb_spec (2 * root + 1 + 1) hi) as [Hlt|Hge]; simpl.
  - apply wp_bind. apply wp_Less; [lia..|]. intros x' y Hx' Hy. simplify_eq. simpl.
    replace (first + (2 * root + 1) + 1) with (first + (2 * root + 2)) in Hy by lia.
    destruct (lt x y) eqn:Hxy.
    + apply (HQ _ y); [lia|dlia|by replace (2 * root + 1 + 1) with (2 * root + 2) by lia|].
      intros c' z Hc' Hpc' Hz. destruct (Hch c' ltac:(lia) Hpc') as [->| ->]; simplify_eq.
      * by apply lt_le.
      * by apply le_refl.
    + apply (HQ _ x); [lia|dlia|done|].
      intros c' z Hc' Hpc' Hz. destruct (Hch c' ltac:(lia) Hpc') as [->| ->]; simplify_eq.
      * by apply le_refl.
      * done.
  - apply (HQ _ x); [lia|dlia|done|].
    intros c' z Hc' Hpc' Hz. destruct (Hch c' ltac:(lia) Hpc') as [->| ->]; [|lia]. simplify_eq.
    by apply le_refl.
Qed.

Lemma siftDown_spec data lo hi first : 0 ≤ first → 0 ≤ lo ≤ hi →
  first + hi ≤ len (view data) → len (view data) < 2 ^ 62 →
  heap (view data) first (lo + 1) hi →
  wp (siftDown data lo hi first) (λ data',
    perm_in (first + lo) (first + hi) (view data) (view data') ∧
    heap (view data') first lo hi).
Proof.
  intros Hf Hlo Hlen Hmax Hheap. unfold siftDown.
  apply (wp_loop (λ '(data', root), perm_in (first + lo) (first + hi) (view data) (view data') ∧
    lo ≤ root ∧ (root < hi ∨ root = lo) ∧ heap_except (view data') first lo hi root)
    (λ '(_, root), Z.max 0 (hi - root))).
  - split_and!; [apply perm_in_refl|lia|lia|]. split; [|lia].
    intros c Hc Hl Hne. apply Hheap; [done|lia].
  - intros [data' root]. lia.
  - unfold fuel_of. lia.
  - intros [data' root] (Hp & Hr & Hr' & HI). pose proof (perm_in_len _ _ _ _ Hp) as Hl.
    rewrite i64_small by (pow2_consts; lia).
    set (c1 := 2 * root + 1). destruct (Z.leb_spec hi c1) as [Hge|Hlt]; simpl.
    { split; [done|]. eapply heap_except_done; [done|]. intros c Hc Hpc. dlia. }
    assert (root < hi) as Hrh by lia.
    pose proof (wp_greater_child data' root hi first) as Hg. fold c1 in Hg.
    destruct (andM _ _) as [b|w|]; simpl in *.
    2,3: by apply (Hg (λ _, True)); try lia.
    assert (∃ y, let c := if b then c1 + 1 else c1 in 0 < c < hi ∧ (c - 1) / 2 = root ∧
      zget (view data') (first + c) = Some y ∧
      ∀ c' z, 0 < c' < hi → (c' - 1) / 2 = root → zget (view data') (first + c') = Some z →
        le lt z y) as (y & Hc & Hpc & Hy & Hmaxc).
    { apply (Hg (λ c, ∃ y, 0 < c < hi ∧ (c - 1) / 2 = root ∧
        zget (view data') (first + c) = Some y ∧
        ∀ c' z, 0 < c' < hi → (c' - 1) / 2 = root →
          zget (view data') (first + c') = Some z → le lt z y)); [lia..|].
      intros c y ????. by exists y. }
    set (c := if b then c1 + 1 else c1) in *. clearbody c.
    destruct (zget_lt (view data') (first + root)) as [x Hx]; [lia|].
    rewrite (Less_view _ _ _ x y) by done. simpl. destruct (lt x y) eqn:Hxy; simpl.
    + apply wp_bind. apply (wp_Swap_in (first + lo) (first + hi)); [lia..| |].
      { dlia. }
      intros data'' x' y' Hx' Hy' Hp' Hlen' Hget. simplify_eq. simpl.
      split; [|dlia]. split; [by eapply perm_in_trans|]. split; [dlia|]. split; [lia|].
      eapply (heap_except_swap (view data')); try done; lia.
    + split; [done|]. eapply heap_except_done; [done|].
      intros c' Hc' Hpc' u v Hu Hv. rewrite Hpc' in Hv. simplify_eq.
      apply (le_trans lt _ y); [by apply (Hmaxc c')|done].
Qed.

(** The root of a heap is a greatest element. *)
Lemma heap_max l first n k x y : heap l first 0 n → 0 ≤ first → first + n ≤ len l →
  0 ≤ k < n → zget l (first + k) = Some x → zget l first = Some y → le lt x y.
Proof.
  intros Hh Hf Hlen. revert x. induction k as [k IH] using (well_founded_induction (Z.lt_wf 0)).
  intros x Hk Hx Hy. destruct (decide (k = 0)) as [->|].
  { rewrite Z.add_0_r in Hx. simplify_eq. by apply le_refl. }
  destruct (zget_lt l (first + (k - 1) / 2)) as [z Hz]; [dlia|].
  apply (le_trans lt _ z).
  - apply (Hh k); [lia|dlia|done..].
  - apply (IH ((k - 1) / 2)); [dlia|dlia|done..].
Qed.

(** The state of the second loop of heapSort: a heap, then the sorted rest. *)
Definition popping (l : list E) (a b i : Z) : Prop :=
  heap l a 0 (i + 1) ∧ sorted_in lt l (a + i + 1) b ∧
  ∀ p q x y, a ≤ p < a + i + 1 → a + i + 1 ≤ q < b →
    zget l p = Some x → zget l q = Some y → le lt x y.

Lemma popping_step l l1 l2 a b i x y : popping l a b i → 0 ≤ a → 0 ≤ i → a + i < b →
  b ≤ len l → zget l a = Some x → zget l (a + i) = Some y →
  (∀ k, zget l1 k = if decide (k = a) then Some y else
    if decide (k = a + i) then Some x else zget l k) →
  perm_in a (a + i) l1 l2 → heap l2 a 0 i → popping l2 a b (i - 1).
Proof.
  intros (Hh & Hs & Hle) Ha Hi Hib Hlen Hx Hy Hl1 Hp Hh2. unfold popping.
  replace (i - 1 + 1) with i by lia. replace (a + (i - 1) + 1) with (a + i) by lia.
  assert (∀ k, a + i ≤ k → zget l2 k = if decide (k = a + i) then Some x else zget l k) as Ht.
  { intros k Hk. rewrite (perm_in_outside _ _ _ _ _ Hp) by lia. rewrite Hl1.
    repeat case_decide; try done; try lia. subst. assert (i = 0) as -> by lia.
    rewrite Z.add_0_r in *. congruence. }
  assert (all_in (λ z, le lt z x) l1 a (a + i)) as Hmax.
  { intros k z Hk. rewrite Hl1. repeat case_decide; intros; simplify_eq; [|lia|].
    - apply (heap_max l a (i + 1) i); (done || lia).
    - apply (heap_max l a (i + 1) (k - a)); try done; try lia. by replace (a + (k - a)) with k by lia. }
  assert (∀ q w, a + i + 1 ≤ q < b → zget l q = Some w → all_in (λ z, le lt z w) l1 a (a + i)) as Hrest.
  { intros q w Hq Hw k z Hk. rewrite Hl1. repeat case_decide; intros; simplify_eq; [|lia|].
    - apply (Hle (a + i) q); (done || lia).
    - apply (Hle k q); (done || lia). }
  split_and!; [done| |].
  - intros p q u v Hpq1 Hpq Hq. rewrite !Ht by lia. repeat case_decide; intros; simplify_eq; try lia.
    + apply (Hle a q); (done || lia).
    + apply (Hs p q); (done || lia).
  - intros p q u v Hp' Hq Hu. rewrite Ht by lia. case_decide; intros; simplify_eq.
    + apply (perm_in_all _ _ _ _ _ _ _ Hp (Z.le_refl _) (Z.le_refl _) Hmax p); (done || lia).
    + apply (perm_in_all _ _ _ _ _ _ _ Hp (Z.le_refl _) (Z.le_refl _) (Hrest q v ltac:(lia) ltac:(done)) p);
        (done || lia).
Qed.

Lemma heapSort_spec data a b : 0 ≤ a ≤ b → b ≤ len (view data) → len (view data) < 2 ^ 62 →
  wp (heapSort data a b) (λ data',
    perm_in a b (view data) (view data') ∧ sorted_in lt (view data') a b).
Proof.
  intros Ha Hb Hmax. unfold heapSort. set (hi := b - a).
  apply wp_bind. eapply wp_mono.
  { apply (wp_loop (λ '(data', i), perm_in a b (view data) (view data') ∧
      -1 ≤ i ≤ hi ∧ (hi = 0 ∨ i < hi) ∧ heap (view data') a (i + 1) hi) (λ '(_, i), i + 1) _ _ _
      (λ data', perm_in a b (view data) (view data') ∧ heap (view data') a 0 hi)).
    - assert (-1 ≤ (hi - 1) ÷ 2 ≤ hi ∧ (hi = 0 ∨ (hi - 1) ÷ 2 < hi) ∧ hi ≤ 2 * ((hi - 1) ÷ 2) + 2)
        as (?&?&?).
      { destruct (decide (hi = 0)) as [->|].
        { change ((0 - 1) ÷ 2) with 0. lia. }
        rewrite Z.quot_div_nonneg by lia. dlia. }
      split_and!; [apply perm_in_refl|lia|lia|lia|]. intros c Hc Hc'. dlia.
    - intros [data' i]. lia.
    - unfold fuel_of. destruct (decide (hi = 0)) as [->|]; [done|].
      rewrite Z.quot_div_nonneg by lia. dlia.
    - intros [data' i] (Hp & Hi & Hi' & Hh). pose proof (perm_in_len _ _ _ _ Hp) as Hl.
      destruct (Z.leb_spec 0 i) as [Hge|]; simpl.
      + apply wp_bind. eapply wp_mono.
        { apply siftDown_spec; [lia|lia|lia|lia|done]. }
        intros data'' [Hp' Hh']. simpl. split; [|lia]. split_and!; [|lia|lia|lia|].
        * eapply perm_in_trans; [done|]. apply (perm_in_mono (a + i) (a + hi)); [lia|lia|done].
        * by replace (i - 1 + 1) with i by lia.
      + assert (i = -1) as -> by lia. done. }
  intros data1 [Hp1 Hh1]. simpl. pose proof (perm_in_len _ _ _ _ Hp1) as Hl1.
  apply (wp_loop (λ '(data', i), perm_in a b (view data) (view data') ∧
      -1 ≤ i < hi ∧ popping (view data') a b i) (λ '(_, i), i + 1)).
  - split_and!; [done|lia|lia|]. unfold popping. replace (hi - 1 + 1) with hi by lia.
    split_and!; [done|apply sorted_in_empty; lia|]. intros; lia.
  - intros [data' i]. lia.
  - unfold fuel_of. lia.
  - intros [data' i] (Hp & Hi & Hpop). pose proof (perm_in_len _ _ _ _ Hp) as Hl.
    destruct (Z.leb_spec 0 i) as [Hge|]; simpl.
    + apply wp_bind. apply (wp_Swap_in a b); [lia..|]. intros data2 x y Hx Hy Hp2 Hl2 Hget2.
      simpl. apply wp_bind. eapply wp_mono.
      { apply siftDown_spec; [lia|lia|lia|lia|]. destruct Hpop as (Hh & _).
        intros c Hc Hc' u v. rewrite !Hget2, !decide_False by dlia. apply (Hh c); lia. }
      intros data3 [Hp3 Hh3]. simpl. rewrite Z.add_0_r in Hp3. split; [|lia]. split_and!; [|lia|lia|].
      * eapply perm_in_trans; [done|]. eapply perm_in_trans; [done|].
        apply (perm_in_mono a (a + i)); [lia|lia|done].
      * eapply (popping_step (view data')); try done; lia.
    + assert (i = -1) as -> by lia. split; [done|]. destruct Hpop as (_ & Hs & _).
      by replace (a + -1 + 1) with a in Hs by lia.
Qed.
End heap.


Section pdqsort.
Context {D E : Type} `{SortLaws D E} `{!StrictWeakOrder lt}.
Implicit Types (data : D).

(** Everything left of [a] is not greater than everything in [a, b). *)
Definition left_bound (l : list E) (a b : Z) : Prop :=
  0 < a → ∀ z, zget l (a - 1) = Some z → all_in (le lt z) l a b.

Lemma left_bound_perm l l' a b : perm_in a b l l' → left_bound l a b → left_bound l' a b.
Proof.
  intros Hp Hb Ha z. rewrite (perm_in_outside _ _ _ _ _ Hp) by lia. intros Hz.
  eapply perm_in_all; [done|lia|lia|]. by apply Hb.
Qed.

(** [shift_left] is the inner loop of [insertionSort] with the bound 0. *)
Lemma shift_left_insert data i : shift_left data i = insert_down data 0 (i - 1).
Proof.
  unfold shift_left, insert_down. rewrite Z.sub_0_r. apply loop_ext. intros [data' j].
  destruct (Z.leb_spec 1 j), (Z.ltb_spec 0 j); try lia; [|done]. simpl.
  destruct (Less data' j (j - 1)) as [[]| |]; done.
Qed.

Lemma shift_right_spec data i b : 0 ≤ i → b ≤ len (view data) → i < b →
  wp (shift_right data i b) (λ data', perm_in i b (view data) (view data')).
Proof.
  intros Hi Hb Hib. unfold shift_right.
  apply (wp_loop (λ '(data', j), perm_in i b (view data) (view data') ∧ i < j ≤ b)
    (λ '(_, j), b - j)).
  - split; [apply perm_in_refl|lia].
  - intros [data' j]. lia.
  - unfold fuel_of. lia.
  - intros [data' j] [Hp Hj]. pose proof (perm_in_len _ _ _ _ Hp).
    destruct (Z.ltb_spec j b); simpl; [|done].
    apply wp_bind. apply wp_Less; [lia..|]. intros x y _ _.
    destruct (lt x y); simpl; [|done].
    apply wp_bind. apply (wp_Swap_in i b); [lia..|]. intros data'' u v _ _ Hp' _ _. simpl.
    split; [|lia]. split; [by eapply perm_in_trans|lia].
Qed.

(** The search for the next pair out of order. *)
Lemma next_unordered_spec data a i b : 0 ≤ a → a + 1 ≤ i ≤ b → b ≤ len (view data) →
  sorted_in lt (view data) a i →
  wp (loop (fuel_of (b - i)) (λ i,
      c ← andM (i <? b) (notM (Less data i (i - 1)));
      if c : bool then mret (inl (i + 1)) else mret (inr i)) i)
    (λ i', i ≤ i' ≤ b ∧ sorted_in lt (view data) a i').
Proof.
  intros Ha Hi Hb Hs.
  apply (wp_loop (λ i', i ≤ i' ≤ b ∧ sorted_in lt (view data) a i') (λ i', b - i')).
  - split; [lia|done].
  - lia.
  - unfold fuel_of. lia.
  - intros i' [Hi' Hs']. destruct (Z.ltb_spec i' b); simpl; [|done].
    apply wp_bind. unfold notM. apply wp_bind. apply wp_Less; [lia..|]. intros x y Hx Hy. simpl.
    destruct (lt x y) eqn:Hxy; simpl; [done|].
    split; [|lia]. split; [lia|]. apply sorted_in_adjacent; [done| |lia|lia].
    intros k u v Hk Hk' Hu Hv. destruct (decide (k + 1 = i')) as [<-|].
    + replace (k + 1 - 1) with k in Hy by lia. by simplify_eq.
    + apply (Hs' k (k + 1)); (done || lia).
Qed.

Lemma partialInsertionSort_spec data a b : 0 ≤ a < b → b ≤ len (view data) →
  left_bound (view data) a b →
  wp (partialInsertionSort data a b) (λ '(data', sorted),
    perm_in a b (view data) (view data') ∧ (sorted = true → sorted_in lt (view data') a b)).
Proof.
  intros Ha Hb Hlb. unfold partialInsertionSort.
  apply (wp_loop (λ '(data', i, j), perm_in a b (view data) (view data') ∧
    a + 1 ≤ i ≤ b ∧ 0 ≤ j ≤ 5 ∧ sorted_in lt (view data') a i) (λ '(_, _, j), 5 - j)).
  - split_and!; [apply perm_in_refl|lia..|]. apply sorted_in_empty. lia.
  - intros [[data' i] j]. lia.
  - unfold fuel_of, maxSteps. lia.
  - intros [[data' i] j] (Hp & Hi & Hj & Hs). pose proof (perm_in_len _ _ _ _ Hp) as Hl.
    unfold maxSteps. destruct (Z.ltb_spec j 5); [|done].
    apply wp_bind. eapply wp_mono; [apply (next_unordered_spec data' a i b); (done || lia)|].
    intros i' [Hi' Hs']. simpl. destruct (Z.eqb_spec i' b) as [->|Hne]; [done|].
    destruct (Z.ltb_spec (b - a) shortestShifting); [done|].
    apply wp_bind. apply (wp_Swap_in a b); [lia..|]. intros data1 x y Hx Hy Hp1 Hl1 Hget1.
    pose proof (perm_in_trans _ _ _ _ _ Hp Hp1) as Hp01. simpl.
    apply wp_bind. apply (wp_mono _ (λ data2, perm_in a b (view data) (view data2) ∧
      sorted_in lt (view data2) a i')).
    + destruct (Z.leb_spec 2 (i' - a)).
      * rewrite shift_left_insert. eapply wp_mono.
        { apply (insert_down_spec data1 0 a (i' - 1)); [lia|lia| |].
          - intros p q u v ???. rewrite !Hget1, !decide_False by lia. apply Hs'; lia.
          - intros H0a z Hz. apply all_in_sub with a b; [|lia|lia].
            by apply (left_bound_perm _ _ _ _ Hp01 Hlb). }
        intros data2 [[Hp2 _] Hs2]. replace (i' - 1 + 1) with i' in * by lia. split; [|done].
        eapply perm_in_trans; [done|]. by apply (perm_in_mono a i'); [lia..|].
      * split; [done|]. apply sorted_in_empty. lia.
    + intros data2 [Hp2 Hs2]. pose proof (perm_in_len _ _ _ _ Hp2) as Hl2. apply wp_bind.
      apply (wp_mono _ (λ data3, perm_in i' b (view data2) (view data3))).
      * destruct (Z.leb_spec 2 (b - i')); [apply shift_right_spec; lia|apply perm_in_refl].
      * intros data3 Hp3. simpl. split; [|lia]. split_and!; [|lia..|].
        -- eapply perm_in_trans; [done|]. by apply (perm_in_mono i' b); [lia..|].
        -- apply (sorted_in_outside _ _ _ _ _ _ _ Hp3); [lia|done].
Qed.

(** ** pdqsort *)

Definition sorts (a b : Z) (data data' : D) : Prop :=
  perm_in a b (view data) (view data') ∧ sorted_in lt (view data') a b.

(** After a partition, both sides sorted make the whole sorted. *)
Lemma sorted_partition l a mid b p : zget l mid = Some p → a ≤ mid < b →
  all_in (λ x, lt x p = true) l a mid → all_in (λ x, lt x p = false) l (mid + 1) b →
  sorted_in lt l a mid → sorted_in lt l (mid + 1) b → sorted_in lt l a b.
Proof.
  intros Hp Hm H1 H2 Hs1 Hs2 i j x y Hi Hij Hj Hx Hy.
  destruct (Z.lt_trichotomy j mid) as [Hjm|[->|Hjm]].
  - apply (Hs1 i j); (done || lia).
  - simplify_eq. apply (lt_le lt), (H1 i); (done || lia).
  - assert (le lt p y) as Hpy by (apply (H2 j); (done || lia)).
    destruct (Z.lt_trichotomy i mid) as [Him|[->|Him]]; [|by simplify_eq|].
    + apply (le_trans lt x p); [|done]. apply (lt_le lt), (H1 i); (done || lia).
    + apply (Hs2 i j); (done || lia).
Qed.

(** The invariant of the loop of pdqsort: sorting the remaining range sorts
    the whole range. *)
Definition pdq_ok (data0 : D) (a0 b0 : Z) (data : D) (a b : Z) : Prop :=
  perm_in a0 b0 (view data0) (view data) ∧ 0 ≤ a0 ≤ a ∧ a ≤ b ∧ b ≤ b0 ∧
  b0 ≤ len (view data0) ∧ left_bound (view data) a b ∧
  (∀ data', sorts a b data data' → sorted_in lt (view data') a0 b0).

Lemma pdq_ok_init data a b : 0 ≤ a ≤ b → b ≤ len (view data) →
  left_bound (view data) a b → pdq_ok data a b data a b.
Proof. intros. split_and!; try done; try lia; by intros ? [_ ?]. Qed.

Lemma pdq_ok_perm data0 a0 b0 data data' a b : pdq_ok data0 a0 b0 data a b →
  perm_in a b (view data) (view data') → pdq_ok data0 a0 b0 data' a b.
Proof.
  intros (Hp & Ha & Hab & Hb & Hl & Hlb & Hs) Hp'. split_and!; try done; try lia.
  - eapply perm_in_trans; [done|]. by apply (perm_in_mono a b); [lia..|].
  - by apply (left_bound_perm (view data)).
  - intros data'' [Hp'' Hs'']. apply Hs. split; [by eapply perm_in_trans|done].
Qed.

Lemma pdq_ok_done data0 a0 b0 data data' a b : pdq_ok data0 a0 b0 data a b →
  sorts a b data data' → sorts a0 b0 data0 data'.
Proof.
  intros (Hp & Ha & Hab & Hb & Hl & Hlb & Hs) Hd. split; [|by apply Hs].
  destruct Hd as [Hp' _]. eapply perm_in_trans; [done|]. by apply (perm_in_mono a b); [lia..|].
Qed.

Lemma pdq_ok_len data0 a0 b0 data a b : pdq_ok data0 a0 b0 data a b →
  len (view data) = len (view data0).
Proof. intros [Hp _]. by eapply perm_in_len. Qed.

(** After [partitionEqual]: the elements equal to the pivot are in place. *)
Lemma pdq_ok_equal data0 a0 b0 data data' a mid b z p :
  pdq_ok data0 a0 b0 data a b → 0 < a → zget (view data) (a - 1) = Some z → lt z p = false →
  perm_in a b (view data) (view data') → a < mid ≤ b →
  all_in (λ x, lt p x = false) (view data') a mid →
  all_in (λ x, lt p x = true) (view data') mid b →
  pdq_ok data0 a0 b0 data' mid b.
Proof.
  intros Hok Ha Hz Hzp Hp Hm H1 H2.
  pose proof (pdq_ok_len _ _ _ _ _ _ Hok) as Hl0. pose proof (perm_in_len _ _ _ _ Hp) as Hl1.
  pose proof (pdq_ok_perm _ _ _ _ _ _ _ Hok Hp) as Hok'.
  destruct Hok' as (Hp' & Ha0 & Hab & Hb & Hl & Hlb & Hs). split_and!; try done; try lia.
  - intros _ y Hy. assert (le lt y p) as Hyp by (apply (H1 (mid - 1)); (done || lia)).
    eapply all_in_impl; [done|]. intros x Hx. apply (le_trans lt y p); [done|by apply lt_le].
  - intros data'' [Hp'' Hs'']. apply Hs.
    split; [by apply (perm_in_mono mid b); [lia..|]|].
    assert (zget (view data') (a - 1) = Some z) as Hz'.
    { by rewrite (perm_in_outside _ _ _ _ _ Hp) by lia. }
    specialize (Hlb Ha z Hz').
    assert (∀ i x, a ≤ i < mid → zget (view data'') i = Some x → le lt p x ∧ le lt x p) as Heq.
    { intros i x Hi. rewrite (perm_in_outside _ _ _ _ _ Hp'') by lia. intros Hx. split.
      - apply (le_trans lt p z); [done|]. apply (Hlb i); (done || lia).
      - by apply (H1 i). }
    apply (sorted_in_app lt _ a mid b); [|done|].
    + intros i j x y Hi Hij Hj Hx Hy. apply (le_trans lt x p).
      * apply (Heq i); (done || lia).
      * apply (Heq j); (done || lia).
    + intros i j x y Hi Hj Hx Hy. apply (le_trans lt x p); [apply (Heq i); (done || lia)|].
      apply (lt_le lt). by apply (perm_in_all _ _ _ _ _ _ _ Hp'' (Z.le_refl _) (Z.le_refl _) H2 j).
Qed.

(** After [partition], with one side sorted. *)
Lemma pdq_ok_right data0 a0 b0 data data' a mid b p :
  pdq_ok data0 a0 b0 data a b → a ≤ mid < b → zget (view data) mid = Some p →
  all_in (λ x, lt x p = true) (view data) a mid →
  all_in (λ x, lt x p = false) (view data) (mid + 1) b →
  sorts a mid data data' → pdq_ok data0 a0 b0 data' (mid + 1) b.
Proof.
  intros (Hp & Ha0 & Hab & Hb & Hl & Hlb & Hs) Hm Hpm H1 H2 [Hp' Hs']. split_and!; try done; try lia.
  - eapply perm_in_trans; [done|]. by apply (perm_in_mono a mid); [lia..|].
  - intros _ y. replace (mid + 1 - 1) with mid by lia.
    rewrite (perm_in_outside _ _ _ _ _ Hp') by lia. intros Hy. simplify_eq.
    by apply (perm_in_all_outside _ _ _ _ _ _ _ Hp'); [lia|].
  - intros data'' [Hp'' Hs'']. apply Hs. split.
    { apply perm_in_trans with (view data').
      - by apply (perm_in_mono a mid); [lia..|].
      - by apply (perm_in_mono (mid + 1) b); [lia..|]. }
    apply (sorted_partition _ a mid b p); [|done| | | |done].
    + rewrite (perm_in_outside _ _ _ _ _ Hp''), (perm_in_outside _ _ _ _ _ Hp') by lia. done.
    + apply (perm_in_all_outside _ _ _ _ _ _ _ Hp''); [lia|].
      by apply (perm_in_all _ _ _ _ _ _ _ Hp'); [lia..|].
    + apply (perm_in_all _ _ _ _ _ _ _ Hp''); [lia..|].
      by apply (perm_in_all_outside _ _ _ _ _ _ _ Hp'); [lia|].
    + apply (sorted_in_outside _ _ _ _ _ _ _ Hp''); [lia|done].
Qed.

Lemma pdq_ok_left data0 a0 b0 data data' a mid b p :
  pdq_ok data0 a0 b0 data a b → a ≤ mid < b → zget (view data) mid = Some p →
  all_in (λ x, lt x p = true) (view data) a mid →
  all_in (λ x, lt x p = false) (view data) (mid + 1) b →
  sorts (mid + 1) b data data' → pdq_ok data0 a0 b0 data' a mid.
Proof.
  intros (Hp & Ha0 & Hab & Hb & Hl & Hlb & Hs) Hm Hpm H1 H2 [Hp' Hs']. split_and!; try done; try lia.
  - eapply perm_in_trans; [done|]. by apply (perm_in_mono (mid + 1) b); [lia..|].
  - intros Ha z. rewrite (perm_in_outside _ _ _ _ _ Hp') by lia. intros Hz.
    apply (perm_in_all_outside _ _ _ _ _ _ _ Hp'); [lia|].
    apply all_in_sub with a b; [by apply Hlb|lia..].
  - intros data'' [Hp'' Hs'']. apply Hs. split.
    { apply perm_in_trans with (view data').
      - by apply (perm_in_mono (mid + 1) b); [lia..|].
      - by apply (perm_in_mono a mid); [lia..|]. }
    apply (sorted_partition _ a mid b p); [|done| | |done|].
    + rewrite (perm_in_outside _ _ _ _ _ Hp''), (perm_in_outside _ _ _ _ _ Hp') by lia. done.
    + apply (perm_in_all _ _ _ _ _ _ _ Hp''); [lia..|].
      by apply (perm_in_all_outside _ _ _ _ _ _ _ Hp'); [lia|].
    + apply (perm_in_all_outside _ _ _ _ _ _ _ Hp''); [lia|].
      by apply (perm_in_all _ _ _ _ _ _ _ Hp'); [lia..|].
    + apply (sorted_in_outside _ _ _ _ _ _ _ Hp''); [lia|done].
Qed.

(** The recursive calls sort ranges of fewer than [n] elements. *)
Definition rec_ok (rec : D → Z → Z → Z → res D) (n : Z) : Prop := ∀ data a b limit,
  0 ≤ a ≤ b → b ≤ len (view data) → len (view data) < 2 ^ 62 → b - a < n →
  left_bound (view data) a b → wp (rec data a b limit) (sorts a b data).

(** The last part of the body, from the chosen pivot on. *)
Lemma pdq_partition_spec data0 a0 b0 rec data a b pivot limit :
  pdq_ok data0 a0 b0 data a b → len (view data0) < 2 ^ 62 → a ≤ pivot < b →
  rec_ok rec (b - a) →
  wp ('(data, mid, alreadyPartitioned) ← partition data a b pivot;
    let wasPartitioned := alreadyPartitioned in
    let '(leftLen, rightLen) := (mid - a, b - mid) in
    let balanceThreshold := (b - a) ÷ 8 in
    if leftLen <? rightLen then
      let wasBalanced := balanceThreshold <=? leftLen in
      data ← rec data a mid limit;
      mret (inl (Pdq data (mid + 1) b limit wasBalanced wasPartitioned))
    else
      let wasBalanced := balanceThreshold <=? rightLen in
      data ← rec data (mid + 1) b limit;
      mret (inl (Pdq data a mid limit wasBalanced wasPartitioned)))
   (λ r, match r with
    | inl s => pdq_ok data0 a0 b0 (p_data s) (p_a s) (p_b s) ∧ p_b s - p_a s < b - a
    | inr data' => sorts a0 b0 data0 data'
    end).
Proof.
  intros Hok Hmax Hpiv Hrec. pose proof (pdq_ok_len _ _ _ _ _ _ Hok) as Hl.
  assert (0 ≤ a ∧ b ≤ len (view data)) as [Ha Hb] by (destruct Hok as (_ & ? & ? & ? & ? & _); lia).
  apply wp_bind. eapply wp_mono; [by apply partition_spec|].
  intros [[data1 mid] al] (Hp1 & Hm & p & Hpm & H1 & H2).
  pose proof (pdq_ok_perm _ _ _ _ _ _ _ Hok Hp1) as Hok1.
  pose proof (pdq_ok_len _ _ _ _ _ _ Hok1) as Hl1.
  assert (left_bound (view data1) a b) as Hlb1 by (by destruct Hok1 as (_ & _ & _ & _ & _ & ? & _)).
  simpl. destruct (Z.ltb_spec (mid - a) (b - mid)).
  - apply wp_bind. eapply wp_mono.
    { apply Hrec; [lia|lia|lia|lia|]. intros Ha' z Hz. apply all_in_sub with a b; [|lia|lia].
      by apply Hlb1. }
    intros data2 Hs2. simpl. split; [|lia]. by apply (pdq_ok_right _ _ _ data1 _ a _ _ p).
  - apply wp_bind. eapply wp_mono.
    { apply Hrec; [lia|lia|lia|lia|]. intros _ z. replace (mid + 1 - 1) with mid by lia.
      intros Hz. by simplify_eq. }
    intros data2 Hs2. simpl. split; [|lia]. by apply (pdq_ok_left _ _ _ data1 _ a _ b p).
Qed.

Lemma pdqsort_body_spec data0 a0 b0 rec s :
  pdq_ok data0 a0 b0 (p_data s) (p_a s) (p_b s) → len (view data0) < 2 ^ 62 →
  rec_ok rec (p_b s - p_a s) →
  wp (pdqsort_body rec s) (λ r, match r with
    | inl s' => pdq_ok data0 a0 b0 (p_data s') (p_a s') (p_b s') ∧
        p_b s' - p_a s' < p_b s - p_a s
    | inr data' => sorts a0 b0 data0 data'
    end).
Proof.
  destruct s as [data a b limit wb wpart]. simpl. intros Hok Hmax Hrec.
  assert (0 ≤ a ≤ b ∧ b ≤ len (view data0)) as [Ha Hb] by (destruct Hok as (_ & ? & ? & ? & ? & _); lia).
  pose proof (pdq_ok_len _ _ _ _ _ _ Hok) as Hl. unfold maxInsertion.
  destruct (Z.leb_spec (b - a) 12).
  { apply wp_bind. eapply wp_mono; [apply insertionSort_spec; lia|]. intros data' [[Hp _] Hs]. simpl.
    by apply (pdq_ok_done _ _ _ _ _ _ _ Hok). }
  destruct (Z.eqb_spec limit 0).
  { apply wp_bind. eapply wp_mono; [apply heapSort_spec; lia|]. intros data' Hs. simpl.
    by apply (pdq_ok_done _ _ _ _ _ _ _ Hok). }
  (* breaking patterns *)
  apply wp_bind. apply (wp_mono _ (λ '(data', _), pdq_ok data0 a0 b0 data' a b)).
  { destruct (negb wb); [|done]. apply wp_bind. eapply wp_mono; [apply breakPatterns_spec; lia|].
    intros data' Hp. simpl. by eapply pdq_ok_perm. }
  intros [data1 limit1] Hok1. pose proof (pdq_ok_len _ _ _ _ _ _ Hok1) as Hl1.
  (* the pivot, and the reversal of a range that looks decreasing *)
  apply wp_bind. eapply wp_mono; [apply choosePivot_spec; lia|]. intros [pivot hint] Hpiv.
  simpl. apply wp_bind.
  apply (wp_mono _ (λ '(data', pivot', _), pdq_ok data0 a0 b0 data' a b ∧ a ≤ pivot' < b)).
  { destruct (decide (hint = decreasingHint)); [|done]. apply wp_bind.
    eapply wp_mono; [apply reverseRange_spec; lia|]. intros data' Hp. simpl.
    split; [by eapply pdq_ok_perm|lia]. }
  clear pivot hint Hpiv. intros [[data2 pivot] hint] [Hok2 Hpiv].
  pose proof (pdq_ok_len _ _ _ _ _ _ Hok2) as Hl2. simpl. apply wp_bind.
  (* the partial insertion sort *)
  apply (wp_mono _ (λ '(data', sorted), pdq_ok data0 a0 b0 data' a b ∧
    (sorted = true → sorts a0 b0 data0 data'))).
  { destruct (wb && wpart && bool_decide (hint = increasingHint)); [|done].
    eapply wp_mono; [apply partialInsertionSort_spec; [lia|lia|]|].
    { by destruct Hok2 as (_ & _ & _ & _ & _ & ? & _). }
    intros [data' sorted] [Hp Hs]. split; [by eapply pdq_ok_perm|].
    intros Ht. apply (pdq_ok_done _ _ _ _ _ _ _ Hok2). split; [done|by apply Hs]. }
  intros [data3 sorted] [Hok3 Hs3]. pose proof (pdq_ok_len _ _ _ _ _ _ Hok3) as Hl3.
  simpl. destruct sorted; [by apply Hs3|]. clear Hs3. apply wp_bind.
  (* many equal elements *)
  apply (wp_mono _ (λ c, c = true → 0 < a ∧ ∃ z p, zget (view data3) (a - 1) = Some z ∧
    zget (view data3) pivot = Some p ∧ lt z p = false)).
  { destruct (Z.ltb_spec 0 a) as [Ha0|]; simpl; [|done]. unfold notM. apply wp_bind.
    apply wp_Less; [lia..|]. intros z p Hz Hp. simpl. intros Ht%negb_true_iff.
    split; [done|]. by exists z, p. }
  intros [|] Hc; [|by apply pdq_partition_spec].
  destruct (Hc eq_refl) as (Ha0 & z & p & Hz & Hp & Hzp).
  apply wp_bind. eapply wp_mono; [apply partitionEqual_spec; lia|].
  intros [data4 mid] (Hp4 & Hm & p' & Hp' & HE1 & HE2). simplify_eq. simpl. split; [|lia].
  by eapply (pdq_ok_equal _ _ _ data3 _ a mid b z p).
Qed.

(** pdqsort terminates without a panic and sorts the range. *)
Lemma pdqsort_spec n : rec_ok (pdqsort n) (Z.of_nat n).
Proof.
  induction n as [|n IH]; intros data a b limit Ha Hb Hmax Hn Hlb; [lia|].
  cbn [pdqsort].
  apply (wp_loop (λ s, pdq_ok data a b (p_data s) (p_a s) (p_b s)) (λ s, p_b s - p_a s)).
  - simpl. by apply pdq_ok_init.
  - intros s (_ & ? & ? & _). lia.
  - unfold fuel_of. simpl. lia.
  - intros s Hok. apply (pdqsort_body_spec data a b (pdqsort n) s); [done|done|].
    intros data' a' b' limit' ?????. apply IH; try done.
    destruct Hok as (_ & ? & ? & ? & _). lia.
Qed.

Lemma IsSorted_spec data : ∃ c, IsSorted data = Ok c ∧
  (c = true ↔ sorted_in lt (view data) 0 (len (view data))).
Proof.
  cut (wp (IsSorted data) (λ c, c = true ↔ sorted_in lt (view data) 0 (len (view data)))).
  { intros (c & ? & ?)%wp_exists. eauto. }
  unfold IsSorted. rewrite Len_view. set (n := len (view data)).
  pose proof (len_nonneg (view data)).
  apply (wp_loop (λ i, i < n ∧ (0 ≤ i ∨ n = 0) ∧ ∀ k x y, i ≤ k → k + 1 < n →
    zget (view data) k = Some x → zget (view data) (k + 1) = Some y → le lt x y)
    (λ i, Z.max 0 i)).
  - split_and!; [lia|lia|]. intros; lia.
  - lia.
  - unfold fuel_of. lia.
  - intros i (Hi & Hi' & Hs). destruct (Z.ltb_spec 0 i) as [H0i|]; simpl.
    + apply wp_bind. apply wp_Less; [lia..|]. intros x y Hx Hy. destruct (lt x y) eqn:Hxy; simpl.
      * split; [done|]. intros Hall. assert (le lt y x) as Hle by (apply (Hall (i - 1) i); (done || lia)).
        unfold le in Hle. congruence.
      * split; [|lia]. split_and!; [lia|lia|]. intros k u v Hk Hk' Hu Hv.
        destruct (decide (k = i - 1)) as [->|]; [|by apply (Hs k); try lia].
        replace (i - 1 + 1) with i in Hv by lia. by simplify_eq.
    + split; [|done]. intros _. apply sorted_in_adjacent; [done| |lia|lia].
      intros k x y Hk Hk'. apply Hs; lia.
Qed.

(** Sort: the result is an ordered permutation of the data. *)
Lemma Sort_spec data : len (view data) < 2 ^ 62 →
  ∃ data', Sort data = Ok data' ∧ view data' ≡ₚ view data ∧
    sorted_in lt (view data') 0 (len (view data')).
Proof.
  intros Hmax. cut (wp (Sort data) (sorts 0 (len (view data)) data)).
  { intros (data' & ? & Hp & Hs)%wp_exists. exists data'.
    rewrite (perm_in_len _ _ _ _ Hp). split_and!; [done|by eapply perm_in_Permutation|done]. }
  unfold Sort. rewrite Len_view. pose proof (len_nonneg (view data)).
  destruct (Z.leb_spec (len (view data)) 1).
  { split; [apply perm_in_refl|]. apply sorted_in_empty. lia. }
  unfold Bits.Len. change (UintSize =? 32) with false. cbv iota.
  pose proof (i64_small (len (view data))).
  rewrite (uwrap_small 64 (len (view data))), uwrap_small, Len64_spec by (unfold is_uint; pow2_consts; lia).
  cbn [mbind res_bind]. apply pdqsort_spec; try lia.
  - unfold fuel_of. lia.
  - intros Hf; lia.
Qed.
End pdqsort.
