(* ===== verification/StableProofs.v ===== *)
(** * Correctness of the stable sort *)

From S2P Require Import Prelude Sort StableSort SortSpec SortProofs.


(** The midpoint does not overflow, even where [i+j] does. *)
Lemma midpoint_eq i j : 0 ≤ i ≤ j → j < 2 ^ 63 → midpoint i j = (i + j) / 2.
Proof.
  intros Hi Hj. unfold midpoint.
  assert (u64 (i64 (i + j)) = i + j) as ->.
  { unfold swrap, uwrap. change (64 - 1) with 63. pow2_consts. dlia. }
  rewrite Z.shiftr_div_pow2, i64_small by (try lia; dlia). done.
Qed.

Lemma midpoint_spec i j : 0 ≤ i < j → j < 2 ^ 63 → i ≤ midpoint i j < j.
Proof. intros. rewrite midpoint_eq by lia. dlia. Qed.

Section stable.
Context {D E : Type} `{SortLaws D E} `{!StrictWeakOrder lt}.
Implicit Types (data : D).

(** ** Rotation *)

(** Exchanging the ranges [a, a+n) and [b, b+n). *)
Definition swapped_ranges (l : list E) (a b n : Z) (l' : list E) : Prop :=
  ∀ k, zget l' k = if decide (a ≤ k < a + n) then zget l (k + (b - a))
    else if decide (b ≤ k < b + n) then zget l (k - (b - a)) else zget l k.

Lemma swapRange_spec data lo hi a b n :
  0 ≤ lo → hi ≤ len (view data) → lo ≤ a → a + n ≤ b → b + n ≤ hi → 0 ≤ n →
  wp (swapRange data a b n) (λ data', perm_in lo hi (view data) (view data') ∧
    swapped_ranges (view data) a b n (view data')).
Proof.
  intros Hlo Hhi Ha Hab Hb Hn. unfold swapRange.
  apply (wp_loop (λ '(data', i), perm_in lo hi (view data) (view data') ∧ 0 ≤ i ≤ n ∧
    swapped_ranges (view data) a b i (view data')) (λ '(_, i), n - i)).
  - split; [apply perm_in_refl|]. split; [lia|]. intros k. by rewrite !decide_False by lia.
  - intros [data' i]. lia.
  - unfold fuel_of. lia.
  - intros [data' i] (Hp & Hi & Hs). pose proof (perm_in_len _ _ _ _ Hp).
    destruct (Z.ltb_spec i n); simpl.
    + apply wp_bind. apply (wp_Swap_in lo hi); [lia..|]. intros data'' x y Hx Hy Hp' _ Hget.
      simpl. split; [|lia]. split; [by eapply perm_in_trans|]. split; [lia|].
      intros k. rewrite Hget. rewrite Hs in Hx, Hy.
      rewrite !decide_False in Hx by lia. rewrite !decide_False in Hy by lia.
      destruct (decide (k = a + i)) as [->|].
      { rewrite decide_True by lia. rewrite <-Hy. f_equal. lia. }
      destruct (decide (k = b + i)) as [->|].
      { rewrite decide_False, decide_True by lia. rewrite <-Hx. f_equal. lia. }
      rewrite Hs. repeat case_decide; (done || lia).
    + split; [done|]. by replace n with i by lia.
Qed.

Lemma rotate_spec data a m b :
  0 ≤ a → a < m < b → b ≤ len (view data) →
  wp (rotate data a m b) (λ data', perm_in a b (view data) (view data') ∧
    rotated (view data) a m b (view data')).
Proof.
  intros Ha Hm Hb. unfold rotate.
  (* what the finished rotation has to be, in terms of the current state *)
  set (I := λ '(data', i, j), perm_in a b (view data) (view data') ∧
    0 < i ≤ m - a ∧ 0 < j ≤ b - m ∧
    ∀ R, rotated (view data') (m - i) m (m + j) R → rotated (view data) a m b R).
  apply wp_bind. eapply wp_mono.
  { apply (wp_loop I (λ '(_, i, j), i + j) _ _ _ (λ s, I s ∧ s.1.2 = s.2)).
    - split; [apply perm_in_refl|]. split; [lia|]. split; [lia|]. intros R.
      by replace (m - (m - a)) with a by lia; replace (m + (b - m)) with b by lia.
    - intros [[data' i] j] (_ & ? & ? & _). lia.
    - unfold fuel_of. lia.
    - intros [[data' i] j] (Hp & Hi & Hj & HR). pose proof (perm_in_len _ _ _ _ Hp) as Hl.
      destruct (Z.eqb_spec i j) as [->|Hne]; simpl.
      { split; [|done]. split_and!; (done || lia). }
      destruct (Z.ltb_spec j i).
      + apply wp_bind. eapply wp_mono; [apply (swapRange_spec data' a b); lia|].
        intros data'' [Hp' Hs]. pose proof (perm_in_len _ _ _ _ Hp') as Hl'. simpl.
        split; [|lia]. split; [by eapply perm_in_trans|]. split; [lia|]. split; [lia|].
        intros R [HRl HRk]. apply HR. split; [congruence|]. intros k Hk.
        rewrite HRk by lia. rewrite !Hs. repeat case_decide; try lia; f_equal; lia.
      + apply wp_bind. eapply wp_mono; [apply (swapRange_spec data' a b); lia|].
        intros data'' [Hp' Hs]. pose proof (perm_in_len _ _ _ _ Hp') as Hl'. simpl.
        split; [|lia]. split; [by eapply perm_in_trans|]. split; [lia|]. split; [lia|].
        intros R [HRl HRk]. apply HR. split; [congruence|]. intros k Hk.
        rewrite HRk by lia. rewrite !Hs. repeat case_decide; try lia; f_equal; lia. }
  intros [[data' i] j] [(Hp & Hi & Hj & HR) Hij]. simpl in Hij. subst j.
  pose proof (perm_in_len _ _ _ _ Hp) as Hl.
  eapply wp_mono; [apply (swapRange_spec data' a b); lia|].
  intros data'' [Hp' Hs]. split; [by eapply perm_in_trans|]. apply HR.
  pose proof (perm_in_len _ _ _ _ Hp'). split; [done|]. intros k Hk. rewrite Hs.
  repeat case_decide; try lia; f_equal; lia.
Qed.

(** ** The searches *)

Lemma merge_search_spec before (P : Z → bool) i0 j0 : 0 ≤ i0 ≤ j0 → j0 < 2 ^ 63 →
  (∀ h, i0 ≤ h < j0 → before h = Ok (P h)) →
  wp (merge_search before i0 j0) (λ i, i0 ≤ i ≤ j0 ∧
    (i0 < i → P (i - 1) = true) ∧ (i < j0 → P i = false)).
Proof.
  intros Hij Hmax Hb. unfold merge_search.
  apply (wp_loop (λ '(i, j), i0 ≤ i ≤ j ∧ j ≤ j0 ∧ (i0 < i → P (i - 1) = true) ∧
    (j < j0 → P j = false)) (λ '(i, j), j - i)).
  - split_and!; (lia || (intros; lia)).
  - intros [i j]. lia.
  - unfold fuel_of. lia.
  - intros [i j] (Hi & Hj & H1 & H2). destruct (Z.ltb_spec i j); simpl.
    + pose proof (midpoint_spec i j ltac:(lia) ltac:(lia)) as Hm.
      rewrite Hb by lia. simpl. destruct (P (midpoint i j)) eqn:HP; simpl.
      * split; [|lia]. split_and!; [lia..| |done]. intros _.
        by replace (midpoint i j + 1 - 1) with (midpoint i j) by lia.
      * split; [|lia]. split_and!; [lia..|done|done].
    + assert (j = i) as -> by lia. split_and!; (done || lia).
Qed.
End stable.


Section merging.
Context {D E : Type} `{SortLaws D E} `{!StrictWeakOrder lt}.
Implicit Types (data : D).

(** The contract of symMerge and of the insertion sort. *)
Definition merges (a b : Z) data data' : Prop :=
  stable_in lt a b (view data) (view data') ∧ sorted_in lt (view data') a b.

(** Swapping neighbours out of order inside the range. *)
Lemma wp_Swap_stable lo hi data k (Q : D → Prop) :
  0 ≤ lo → hi ≤ len (view data) → lo ≤ k → k + 1 < hi →
  (∀ x y, zget (view data) k = Some x → zget (view data) (k + 1) = Some y → lt y x = true) →
  (∀ data' x y, zget (view data) k = Some x → zget (view data) (k + 1) = Some y →
    stable_in lt lo hi (view data) (view data') →
    (∀ q, zget (view data') q = if decide (q = k) then Some y
      else if decide (q = k + 1) then Some x else zget (view data) q) → Q data') →
  wp (Swap data k (k + 1)) Q ∧ wp (Swap data (k + 1) k) Q.
Proof.
  intros Hlo Hhi Hk Hk' Hlt HQ. split; (apply (wp_Swap_in lo hi); [lia..|]).
  - intros data' x y Hx Hy Hp Hlen Hget. apply (HQ data' x y); [done..| |done]. split; [done|].
    apply (swap_keeps_order lt _ k x y); auto.
  - intros data' y x Hy Hx Hp Hlen Hget.
    assert (∀ q, zget (view data') q = if decide (q = k) then Some y
      else if decide (q = k + 1) then Some x else zget (view data) q) as Hget'.
    { intros q. rewrite Hget. repeat case_decide; (done || lia). }
    apply (HQ data' x y); [done..| |done]. split; [done|].
    apply (swap_keeps_order lt _ k x y); auto.
Qed.

Lemma move_up_spec data a i b x0 : 0 ≤ a → a < i ≤ b → b ≤ len (view data) →
  zget (view data) a = Some x0 → all_in (λ y, lt y x0 = true) (view data) (a + 1) i →
  wp (move_up data a i) (λ data', stable_in lt a b (view data) (view data') ∧
    ∀ q, zget (view data') q = if decide (a ≤ q < i - 1) then zget (view data) (q + 1)
      else if decide (q = i - 1) then Some x0 else zget (view data) q).
Proof.
  intros Ha Hi Hb Hx0 Hall. unfold move_up.
  apply (wp_loop (λ '(data', k), stable_in lt a b (view data) (view data') ∧ a ≤ k ≤ i - 1 ∧
    ∀ q, zget (view data') q = if decide (a ≤ q < k) then zget (view data) (q + 1)
      else if decide (q = k) then Some x0 else zget (view data) q) (λ '(_, k), i - k)).
  - split; [apply stable_in_refl|]. split; [lia|]. intros q. rewrite decide_False by lia.
    case_decide; [by subst|done].
  - intros [data' k]. lia.
  - unfold fuel_of. lia.
  - intros [data' k] (Hst & Hk & Hq). pose proof (perm_in_len _ _ _ _ (proj1 Hst)) as Hl.
    destruct (Z.ltb_spec k (i - 1)); simpl.
    + apply wp_bind. eapply (proj1 (wp_Swap_stable a b data' k _ _ _ _ _ _ _)).
      Unshelve.
      all: try lia.
      * intros x y Hx Hy. rewrite Hq, decide_False, decide_True in Hx by lia. simplify_eq.
        rewrite Hq, !decide_False in Hy by lia. apply (Hall (k + 1)); (done || lia).
      * intros data'' x y Hx Hy Hst' Hq'. simpl. split; [|lia].
        split; [by eapply stable_in_trans|]. split; [lia|]. intros q. rewrite Hq'.
        rewrite Hq in Hx. rewrite decide_False, decide_True in Hx by lia. simplify_eq.
        rewrite Hq in Hy. rewrite !decide_False in Hy by lia.
        destruct (decide (q = k)) as [->|]; [by rewrite decide_True by lia|].
        destruct (decide (q = k + 1)) as [->|].
        { repeat case_decide; (done || lia). }
        rewrite Hq. repeat case_decide; (done || lia).
    + split; [done|]. by replace (i - 1) with k by lia.
Qed.

Lemma move_down_spec data a m b i x0 : 0 ≤ a → a ≤ i ≤ m → m < b → b ≤ len (view data) →
  zget (view data) m = Some x0 → all_in (λ y, lt x0 y = true) (view data) i m →
  wp (move_down data m i) (λ data', stable_in lt a b (view data) (view data') ∧
    ∀ q, zget (view data') q = if decide (i < q ≤ m) then zget (view data) (q - 1)
      else if decide (q = i) then Some x0 else zget (view data) q).
Proof.
  intros Ha Hi Hm Hb Hx0 Hall. unfold move_down.
  apply (wp_loop (λ '(data', k), stable_in lt a b (view data) (view data') ∧ i ≤ k ≤ m ∧
    ∀ q, zget (view data') q = if decide (k < q ≤ m) then zget (view data) (q - 1)
      else if decide (q = k) then Some x0 else zget (view data) q) (λ '(_, k), k - i)).
  - split; [apply stable_in_refl|]. split; [lia|]. intros q. rewrite decide_False by lia.
    case_decide; [by subst|done].
  - intros [data' k]. lia.
  - unfold fuel_of. lia.
  - intros [data' k] (Hst & Hk & Hq). pose proof (perm_in_len _ _ _ _ (proj1 Hst)) as Hl.
    destruct (Z.ltb_spec i k); simpl.
    + apply wp_bind. replace k with (k - 1 + 1) at 1 by lia.
      eapply (proj2 (wp_Swap_stable a b data' (k - 1) _ _ _ _ _ _ _)).
      Unshelve.
      all: try lia.
      * intros x y Hx Hy. replace (k - 1 + 1) with k in Hy by lia.
        rewrite Hq, decide_False, decide_True in Hy by lia. simplify_eq.
        rewrite Hq, !decide_False in Hx by lia. apply (Hall (k - 1)); (done || lia).
      * intros data'' x y Hx Hy Hst' Hq'. simpl. split; [|lia].
        split; [by eapply stable_in_trans|]. split; [lia|]. intros q. rewrite Hq'.
        replace (k - 1 + 1) with k in * by lia.
        rewrite Hq, decide_False, decide_True in Hy by lia. simplify_eq.
        rewrite Hq, !decide_False in Hx by lia.
        destruct (decide (q = k - 1)) as [->|]; [by rewrite decide_False by lia|].
        destruct (decide (q = k)) as [->|]; [by rewrite decide_True by lia|].
        rewrite Hq. repeat case_decide; (done || lia).
    + split; [done|]. by replace i with k by lia.
Qed.

(** Inserting the only element of the first run. *)
Lemma merge_one_left data a b : 0 ≤ a → a + 1 < b → b ≤ len (view data) →
  len (view data) < 2 ^ 62 → sorted_in lt (view data) (a + 1) b →
  wp (i ← merge_search (λ h, Less data h a) (a + 1) b; move_up data a i) (merges a b data).
Proof.
  intros Ha Hab Hb Hmax Hs. destruct (zget_lt (view data) a) as [x0 Hx0]; [lia|].
  apply wp_bind. eapply wp_mono.
  { apply (merge_search_spec _ (at_pos (λ x, lt x x0) (view data))); [lia|lia|].
    intros h Hh. apply Less_at_l; (done || lia). }
  intros i (Hi & H1 & H2). simpl.
  assert (all_in (λ y, lt y x0 = true) (view data) (a + 1) i) as Hlow.
  { intros k y Hk Hy. specialize (H1 ltac:(lia)). unfold at_pos in H1.
    destruct (zget_lt (view data) (i - 1)) as [z Hz]; [lia|]. rewrite Hz in H1.
    destruct (decide (k = i - 1)) as [->|]; [by simplify_eq|].
    apply (le_lt_trans lt y z); [apply (Hs k (i - 1)); (done || lia)|done]. }
  eapply wp_mono; [apply (move_up_spec data a i b x0); (done || lia)|].
  intros data' [Hst Hq]. split; [done|].
  assert (∀ k y, i ≤ k < b → zget (view data) k = Some y → le lt x0 y) as Hhigh.
  { intros k y Hk Hy. specialize (H2 ltac:(lia)). unfold at_pos in H2.
    destruct (zget_lt (view data) i) as [z Hz]; [lia|]. rewrite Hz in H2.
    destruct (decide (k = i)) as [->|]; [by simplify_eq|].
    apply (le_trans lt x0 z); [done|apply (Hs i k); (done || lia)]. }
  intros p q x y Hp Hpq Hqb. rewrite !Hq.
  repeat case_decide; try lia; intros; simplify_eq.
  - apply (Hs (p + 1) (q + 1)); (done || lia).
  - apply (lt_le lt). apply (Hlow (p + 1)); (done || lia).
  - apply (Hs (p + 1) q); (done || lia).
  - apply (Hhigh q); (done || lia).
  - apply (Hs p q); (done || lia).
Qed.

(** Inserting the only element of the second run. *)
Lemma merge_one_right data a m : 0 ≤ a → a < m → m + 1 ≤ len (view data) →
  len (view data) < 2 ^ 62 → sorted_in lt (view data) a m →
  wp (i ← merge_search (λ h, notM (Less data m h)) a m; move_down data m i)
    (merges a (m + 1) data).
Proof.
  intros Ha Ham Hm Hmax Hs. destruct (zget_lt (view data) m) as [x0 Hx0]; [lia|].
  apply wp_bind. eapply wp_mono.
  { apply (merge_search_spec _ (at_pos (λ x, negb (lt x0 x)) (view data))); [lia|lia|].
    intros h Hh. rewrite (Less_at_r _ _ x0) by (done || lia). apply notM_at. lia. }
  intros i (Hi & H1 & H2). simpl.
  assert (all_in (λ y, lt x0 y = true) (view data) i m) as Hhigh.
  { intros k y Hk Hy. specialize (H2 ltac:(lia)). unfold at_pos in H2.
    destruct (zget_lt (view data) i) as [z Hz]; [lia|]. rewrite Hz in H2.
    apply negb_false_iff in H2. destruct (decide (k = i)) as [->|]; [by simplify_eq|].
    apply (lt_le_trans lt x0 z); [done|apply (Hs i k); (done || lia)]. }
  eapply wp_mono; [apply (move_down_spec data a m (m + 1) i x0); (done || lia)|].
  intros data' [Hst Hq]. split; [done|].
  assert (∀ k y, a ≤ k < i → zget (view data) k = Some y → le lt y x0) as Hlow.
  { intros k y Hk Hy. specialize (H1 ltac:(lia)). unfold at_pos in H1.
    destruct (zget_lt (view data) (i - 1)) as [z Hz]; [lia|]. rewrite Hz in H1.
    apply negb_true_iff in H1. destruct (decide (k = i - 1)) as [->|]; [by simplify_eq|].
    apply (le_trans lt y z); [apply (Hs k (i - 1)); (done || lia)|done]. }
  intros p q x y Hp Hpq Hqb. rewrite !Hq.
  repeat case_decide; try lia; intros; simplify_eq.
  - apply (Hs (p - 1) (q - 1)); (done || lia).
  - apply (lt_le lt). apply (Hhigh (q - 1)); (done || lia).
  - apply (Hs p (q - 1)); (done || lia).
  - apply (Hlow p); (done || lia).
  - apply (Hs p q); (done || lia).
Qed.
End merging.


(** ** SymMerge: what the symmetric search finds *)

Section symmetric.
Context {E : Type} (lt : E → E → bool) `{!StrictWeakOrder lt}.
Context (l : list E) (a m b mid start : Z).
Let end_ := mid + m - start.

(** [start] and [end_] are symmetric around [mid]; the elements before [start]
    are not greater than those from [end_] on, and those of [start, m) are greater
    than those of [m, end_). *)
Record sym_cut : Prop := {
  cut_bounds : 0 ≤ a ∧ b ≤ len l ∧ a ≤ start ≤ m ∧ start ≤ mid ∧ m ≤ end_ ≤ b ∧ a < mid < b;
  cut_left : sorted_in lt l a m;
  cut_right : sorted_in lt l m b;
  cut_outer : ∀ x y, zget l (start - 1) = Some x → zget l end_ = Some y →
    a < start → end_ < b → le lt x y;
  cut_inner : ∀ x y, zget l start = Some x → zget l (end_ - 1) = Some y →
    start < m → m < end_ → lt y x = true;
}.
Context (Hcut : sym_cut).

Lemma cut_cross i j x y : start ≤ i < m → m ≤ j < end_ →
  zget l i = Some x → zget l j = Some y → lt y x = true.
Proof.
  destruct Hcut as [Hb Hl Hr _ Hin]. intros Hi Hj Hx Hy.
  destruct (zget_lt l start) as [u Hu]; [lia|]. destruct (zget_lt l (end_ - 1)) as [v Hv]; [lia|].
  specialize (Hin u v Hu Hv ltac:(lia) ltac:(lia)).
  assert (le lt u x) as Hux.
  { destruct (decide (i = start)) as [->|]; [simplify_eq; by apply le_refl|].
    apply (Hl start i); (done || lia). }
  assert (le lt y v) as Hyv.
  { destruct (decide (j = end_ - 1)) as [->|]; [simplify_eq; by apply le_refl|].
    apply (Hr j (end_ - 1)); (done || lia). }
  apply (le_lt_trans lt y v); [done|]. by apply (lt_le_trans lt v u).
Qed.

Lemma cut_ends i j x y : a ≤ i < start → end_ ≤ j < b →
  zget l i = Some x → zget l j = Some y → le lt x y.
Proof.
  destruct Hcut as [Hb Hl Hr Hout _]. intros Hi Hj Hx Hy.
  destruct (zget_lt l (start - 1)) as [u Hu]; [lia|]. destruct (zget_lt l end_) as [v Hv]; [lia|].
  specialize (Hout u v Hu Hv ltac:(lia) ltac:(lia)).
  assert (le lt x u) as Hux.
  { destruct (decide (i = start - 1)) as [->|]; [simplify_eq; by apply le_refl|].
    apply (Hl i (start - 1)); (done || lia). }
  assert (le lt v y) as Hyv.
  { destruct (decide (j = end_)) as [->|]; [simplify_eq; by apply le_refl|].
    apply (Hr end_ j); (done || lia). }
  apply (le_trans lt x u); [done|]. by apply (le_trans lt u v).
Qed.

(** After the rotation: four sorted runs, the first two before the others. *)
Lemma cut_rotated l1 : rotated l start m end_ l1 →
  sorted_in lt l1 a start ∧ sorted_in lt l1 start mid ∧ sorted_in lt l1 mid end_ ∧
  sorted_in lt l1 end_ b ∧
  ∀ i j x y, a ≤ i < mid → mid ≤ j < b → zget l1 i = Some x → zget l1 j = Some y → le lt x y.
Proof.
  pose proof cut_cross as Hcross. pose proof cut_ends as Hends.
  destruct Hcut as [Hb Hl Hr _ _]. intros [Hlen Hrot].
  assert (∀ k, 0 ≤ k < len l → zget l1 k = if decide (start ≤ k < mid) then zget l (k + (m - start))
    else if decide (mid ≤ k < end_) then zget l (k - (end_ - m)) else zget l k) as Hk.
  { intros k Hk. rewrite Hrot by done. replace (start + (end_ - m)) with mid by (unfold end_; lia). done. }
  split_and!.
  - intros i j x y ???. rewrite !Hk, !decide_False by lia. apply Hl; lia.
  - intros i j x y ???. rewrite !Hk, !decide_True by lia. apply Hr; unfold end_ in *; lia.
  - intros i j x y ???. rewrite !Hk by lia. repeat case_decide; try (unfold end_ in *; lia).
    apply Hl; unfold end_ in *; lia.
  - intros i j x y ???. rewrite !Hk, !decide_False by lia. apply Hr; lia.
  - intros i j x y Hi Hj. rewrite !Hk by lia.
    repeat case_decide; try lia; intros Hx Hy.
    + apply (lt_le lt). apply (Hcross (j - (end_ - m)) (i + (m - start))); (done || unfold end_ in *; lia).
    + apply (Hr (i + (m - start)) j); (done || unfold end_ in *; lia).
    + apply (Hl i (j - (end_ - m))); (done || unfold end_ in *; lia).
    + apply (Hends i j); (done || lia).
Qed.
End symmetric.

Section symMerge.
Context {D E : Type} `{SortLaws D E} `{!StrictWeakOrder lt}.
Implicit Types (data : D).

(** The binary search finds such a cut. *)
Lemma sym_search_spec data a m b : 0 ≤ a → a < m < b → b ≤ len (view data) →
  len (view data) < 2 ^ 62 → sorted_in lt (view data) a m → sorted_in lt (view data) m b →
  let mid := (a + b) / 2 in
  let n := mid + m in
  let '(start, r) := if mid <? m then (n - b, mid) else (a, m) in
  let p := n - 1 in
  wp (merge_search (λ c, notM (Less data (p - c) c)) start r)
    (λ start, sym_cut lt (view data) a m b mid start).
Proof.
  intros Ha Hm Hb Hmax Hs1 Hs2 mid n. assert (a < mid < b) as Hmid by (unfold mid; dlia).
  set (P := λ c, match zget (view data) (n - 1 - c), zget (view data) c with
    | Some y, Some x => negb (lt y x) | _, _ => false end).
  assert (∀ c, 0 ≤ c < len (view data) → 0 ≤ n - 1 - c < len (view data) →
    notM (Less data (n - 1 - c) c) = Ok (P c)) as HP.
  { intros c Hc Hc'. destruct (zget_lt _ _ Hc) as [x Hx]. destruct (zget_lt _ _ Hc') as [y Hy].
    rewrite (Less_view _ _ _ y x) by done. unfold P. by rewrite Hx, Hy. }
  assert (∀ start, 
    a ≤ start ≤ m → start ≤ mid → m ≤ n - start ≤ b →
    (a < start → n - start < b → P (start - 1) = true) →
    (start < m → m < n - start → P start = false) →
    sym_cut lt (view data) a m b mid start) as Hcut.
  { intros start H1 H2 H3 HP1 HP2. split; try done; cbv zeta; fold n.
    - intros x y Hx Hy Has Hnb. specialize (HP1 Has Hnb). unfold P in HP1.
      replace (n - 1 - (start - 1)) with (n - start) in HP1 by lia. rewrite Hx, Hy in HP1.
      by apply negb_true_iff in HP1.
    - intros x y Hx Hy Hsm Hmn. specialize (HP2 Hsm Hmn). unfold P in HP2.
      replace (n - 1 - start) with (n - start - 1) in HP2 by lia. rewrite Hx, Hy in HP2.
      by apply negb_false_iff in HP2. }
  destruct (Z.ltb_spec mid m).
  - assert (a ≤ n - b) by (unfold n, mid in *; dlia).
    eapply wp_mono; [apply (merge_search_spec _ P); [lia|lia|]|].
    { intros c Hc. apply HP; unfold n; lia. }
    intros start (Hst & HS1 & HS2). apply Hcut; [lia|lia|lia| |].
    + intros _ Hnb. apply HS1. lia.
    + intros Hsm Hmn. apply HS2. lia.
  - assert (mid + m - a ≤ b) by (unfold mid in *; dlia).
    eapply wp_mono; [apply (merge_search_spec _ P); [lia|lia|]|].
    { intros c Hc. apply HP; unfold n; lia. }
    intros start (Hst & HS1 & HS2). apply Hcut; [lia|lia|lia| |].
    + intros Has _. by apply HS1.
    + intros Hsm _. by apply HS2.
Qed.
End symMerge.


Section stable_sort.
Context {D E : Type} `{SortLaws D E} `{!StrictWeakOrder lt}.
Implicit Types (data : D).

Lemma merges_refl a b data : sorted_in lt (view data) a b → merges a b data data.
Proof. split; [apply stable_in_refl|done]. Qed.

(** The rotation in the middle of symMerge (skipped when a block is empty). *)
Lemma sym_rotate_spec data a m b mid start :
  sym_cut lt (view data) a m b mid start → len (view data) < 2 ^ 62 →
  wp (if (start <? m) && (m <? mid + m - start) then rotate data start m (mid + m - start)
      else mret data) (λ data',
    stable_in lt a b (view data) (view data') ∧
    rotated (view data) start m (mid + m - start) (view data')).
Proof.
  intros Hcut Hmax. destruct (cut_bounds _ _ _ _ _ _ _ Hcut) as (Ha & Hb & Hst & Hsm & Hend & Hmid).
  pose proof (cut_cross lt _ _ _ _ _ _ Hcut) as Hcross.
  destruct (Z.ltb_spec start m); [destruct (Z.ltb_spec m (mid + m - start))|]; simpl.
  - eapply wp_mono; [apply rotate_spec; lia|]. intros data' [Hp Hrot]. split; [|done].
    split; [by apply (perm_in_mono start (mid + m - start)); [lia..|]|].
    apply (rotated_keeps_order lt _ start m (mid + m - start)); [lia|lia|done|].
    intros i j x y Hi Hj Hx Hy. by apply (Hcross i j).
  - split; [apply stable_in_refl|]. split; [done|]. intros k Hk. replace (mid + m - start) with m by lia.
    repeat case_decide; try lia; try done. f_equal. lia.
  - split; [apply stable_in_refl|]. split; [done|]. intros k Hk. assert (start = m) as -> by lia.
    repeat case_decide; try lia; try done. f_equal. lia.
Qed.

(** Merging the two halves after the rotation. *)
Lemma merges_halves data a b mid data1 data2 :
  a ≤ mid ≤ b →
  (∀ i j x y, a ≤ i < mid → mid ≤ j < b → zget (view data) i = Some x →
    zget (view data) j = Some y → le lt x y) →
  merges a mid data data1 → merges mid b data1 data2 → merges a b data data2.
Proof.
  intros Hmid Hle [Hst1 Hs1] [Hst2 Hs2]. split.
  - eapply stable_in_trans; [by apply (stable_in_mono lt a mid); [lia..|]|].
    by apply (stable_in_mono lt mid b); [lia..|].
  - apply (sorted_in_app lt _ a mid b); [|done|].
    + apply (sorted_in_outside _ _ _ _ _ _ _ (proj1 Hst2)); [lia|done].
    + intros i j x y Hi Hj Hx Hy.
      rewrite (perm_in_outside _ _ _ _ _ (proj1 Hst2)) in Hx by lia.
      assert (all_in (λ y, all_in (λ x, le lt x y) (view data) a mid) (view data) mid b) as Hall.
      { intros j' y' Hj' Hy' i' x' Hi' Hx'. by apply (Hle i' j'). }
      assert (all_in (λ y, all_in (λ x, le lt x y) (view data) a mid) (view data2) mid b) as Hall2.
      { apply (perm_in_all _ _ _ _ _ _ _ (proj1 Hst2)); [lia..|].
        apply (perm_in_all_outside _ _ _ _ _ _ _ (proj1 Hst1)); [lia|done]. }
      specialize (Hall2 j y Hj Hy).
      by apply (perm_in_all _ _ _ _ _ _ _ (proj1 Hst1) (Z.le_refl _) (Z.le_refl _) Hall2 i).
Qed.

(** A recursive call of symMerge, skipped when a run is empty. *)
Lemma sym_half_spec (c : bool) (call : res D) data a m b :
  sorted_in lt (view data) a m → sorted_in lt (view data) m b → a ≤ m ≤ b →
  (c = true → a < m < b → wp call (merges a b data)) →
  (c = true ↔ a < m < b) →
  wp (if c then call else mret data) (merges a b data).
Proof.
  intros Hs1 Hs2 Hm Hcall Hc. destruct c; [apply Hcall; [done|by apply Hc]|].
  simpl. apply merges_refl.
  destruct (decide (a = m)) as [->|]; [done|]. destruct (decide (m = b)) as [->|]; [done|].
  exfalso. assert (false = true) by (apply Hc; lia). done.
Qed.

Lemma symMerge_spec fuel data a m b : 0 ≤ a → a < m < b → b ≤ len (view data) →
  len (view data) < 2 ^ 62 → sorted_in lt (view data) a m → sorted_in lt (view data) m b →
  b - a ≤ Z.of_nat fuel → wp (symMerge fuel data a m b) (merges a b data).
Proof.
  revert data a m b. induction fuel as [|fuel IH]; intros data a m b Ha Hm Hb Hmax Hs1 Hs2 Hf; [lia|].
  cbn [symMerge]. destruct (Z.eqb_spec (m - a) 1).
  { replace m with (a + 1) in * by lia. apply merge_one_left; (done || lia). }
  destruct (Z.eqb_spec (b - m) 1).
  { replace b with (m + 1) in * by lia. apply merge_one_right; (done || lia). }
  rewrite midpoint_eq by lia. set (mid := (a + b) / 2). cbv zeta.
  pose proof (sym_search_spec data a m b Ha Hm Hb Hmax Hs1 Hs2) as Hsearch. cbv zeta in Hsearch.
  fold mid in Hsearch. destruct (if mid <? m then (mid + m - b, mid) else (a, m)) as [start0 r0].
  apply wp_bind. eapply wp_mono; [exact Hsearch|]. clear Hsearch start0 r0. intros start Hcut.
  destruct (cut_bounds _ _ _ _ _ _ _ Hcut) as (_ & _ & Hst & Hsm & Hend & Hmid).
  apply wp_bind. eapply wp_mono; [by apply sym_rotate_spec|]. intros data1 [Hst1 Hrot].
  pose proof (perm_in_len _ _ _ _ (proj1 Hst1)) as Hl1.
  destruct (cut_rotated _ _ _ _ _ _ _ Hcut _ Hrot) as (R1 & R2 & R3 & R4 & R5).
  assert (∀ c a b : Z, (c <? a) && (a <? b) = true ↔ c < a < b) as Htest.
  { intros. rewrite andb_true_iff, !Z.ltb_lt. done. }
  apply wp_bind. eapply wp_mono.
  { eapply (sym_half_spec _ _ data1 a start mid); [done|done|lia| |apply Htest].
    intros _ Hr. apply IH; (done || lia). }
  intros data2 Hm2. pose proof (perm_in_len _ _ _ _ (proj1 (proj1 Hm2))) as Hl2.
  assert (∀ x y, mid ≤ x → sorted_in lt (view data1) x y → sorted_in lt (view data2) x y) as Hout.
  { intros x y ?. apply (sorted_in_outside _ _ _ _ _ _ _ (proj1 (proj1 Hm2))). lia. }
  eapply wp_mono.
  { eapply (sym_half_spec _ _ data2 mid (mid + m - start) b); [by apply Hout; [lia|]..|lia| |apply Htest].
    intros _ Hr. apply IH; try lia; [by apply Hout; [lia|]..]. }
  intros data3 Hm3. destruct (merges_halves data1 a b mid data2 data3 ltac:(lia) R5 Hm2 Hm3) as [? ?].
  split; [by eapply stable_in_trans|done].
Qed.
End stable_sort.


#[global] Arguments symMerge : simpl never.

Section blocks.
Context {D E : Type} `{SortLaws D E} `{!StrictWeakOrder lt}.
Implicit Types (data : D).

(** Every block of [bs] elements of [0, n) is sorted, from block [q0] on. *)
Definition runs_from (l : list E) (q0 bs n : Z) : Prop :=
  ∀ q, q0 ≤ q → sorted_in lt l (q * bs) (((q + 1) * bs) `min` n).

(** The blocks before block [q0] are complete and sorted. *)
Definition runs_upto (l : list E) (q0 bs : Z) : Prop :=
  ∀ q, 0 ≤ q < q0 → sorted_in lt l (q * bs) ((q + 1) * bs).

Lemma runs_upto_step l l' q bs b : stable_in lt (q * bs) b l l' → 0 ≤ q → 0 < bs →
  runs_upto l q bs → sorted_in lt l' (q * bs) ((q + 1) * bs) → runs_upto l' (q + 1) bs.
Proof.
  intros Hst Hq Hbs Hr Hs q' Hq'. destruct (decide (q' = q)) as [->|]; [done|].
  apply (sorted_in_outside _ _ _ _ _ _ _ (proj1 Hst)); [nia|]. apply Hr. lia.
Qed.

(** All blocks, when the last one ends at [n]. *)
Lemma runs_all l l' q bs n : stable_in lt (q * bs) n l l' → 0 ≤ q → 0 < bs → n < (q + 1) * bs →
  runs_upto l q bs → sorted_in lt l' (q * bs) n → runs_from l' 0 bs n.
Proof.
  intros Hst Hq Hbs Hn Hr Hs q' Hq'. destruct (Z.lt_trichotomy q' q) as [Hlt|[->|Hgt]].
  - apply (sorted_in_sub lt l' (q' * bs) ((q' + 1) * bs)); [|lia|lia].
    apply (sorted_in_outside _ _ _ _ _ _ _ (proj1 Hst)); [nia|]. apply Hr. lia.
  - by replace (((q + 1) * bs) `min` n) with n by lia.
  - apply sorted_in_empty. nia.
Qed.

Lemma insertion_blocks_spec data bs n : 0 < bs < 2 ^ 62 → 0 ≤ n < 2 ^ 62 → n ≤ len (view data) →
  wp (insertion_blocks data bs n) (λ data', stable_in lt 0 n (view data) (view data') ∧
    runs_from (view data') 0 bs n).
Proof.
  intros Hbs Hn Hlen. unfold insertion_blocks. apply wp_bind. eapply wp_mono.
  { apply (wp_loop (λ '(data', a, b), stable_in lt 0 n (view data) (view data') ∧
      ∃ q, 0 ≤ q ∧ a = q * bs ∧ b = a + bs ∧ a ≤ n ∧ runs_upto (view data') q bs)
      (λ '(_, a, _), n - a) _ _ _
      (λ '(data', a), stable_in lt 0 n (view data) (view data') ∧
      ∃ q, 0 ≤ q ∧ a = q * bs ∧ n < a + bs ∧ a ≤ n ∧ runs_upto (view data') q bs)).
    - split; [apply stable_in_refl|]. exists 0. split_and!; try lia. intros q Hq. lia.
    - intros [[data' a] b] (_ & q & ? & ? & ? & ? & _). lia.
    - unfold fuel_of. lia.
    - intros [[data' a] b] (Hst & q & Hq & -> & -> & Ha & Hr).
      pose proof (perm_in_len _ _ _ _ (proj1 Hst)) as Hl.
      destruct (Z.leb_spec (q * bs + bs) n).
      + apply wp_bind. eapply wp_mono; [apply insertionSort_spec; lia|].
        intros data'' [Hst' Hs']. simpl. pow2_consts. rewrite i64_small by lia.
        split; [|lia]. split.
        { eapply stable_in_trans; [done|]. apply (stable_in_mono lt (q * bs) (q * bs + bs)); (done || lia). }
        exists (q + 1). split_and!; try lia.
        eapply runs_upto_step; [done|lia|lia|done|].
        by replace ((q + 1) * bs) with (q * bs + bs) by lia.
      + simpl. split; [done|]. exists q. split_and!; (done || lia). }
  intros [data' a] (Hst & q & Hq & -> & Hqn & Ha & Hr).
  pose proof (perm_in_len _ _ _ _ (proj1 Hst)) as Hl.
  eapply wp_mono; [apply insertionSort_spec; lia|]. intros data'' [Hst' Hs']. split.
  - eapply stable_in_trans; [done|]. apply (stable_in_mono lt (q * bs) n); (done || lia).
  - eapply runs_all; [done|lia|lia|lia|done|done].
Qed.

(** A run that a change before it leaves alone. *)
Lemma runs_from_outside l l' a b q0 bs n : stable_in lt a b l l' → b ≤ q0 * bs → 0 < bs →
  runs_from l q0 bs n → runs_from l' q0 bs n.
Proof.
  intros Hst Hb Hbs Hr q Hq. apply (sorted_in_outside _ _ _ _ _ _ _ (proj1 Hst)); [nia|by apply Hr].
Qed.

Lemma merge_blocks_spec data bs n : 0 < bs < n → n < 2 ^ 61 → n ≤ len (view data) →
  len (view data) < 2 ^ 62 → runs_from (view data) 0 bs n →
  wp (merge_blocks data bs n) (λ data', stable_in lt 0 n (view data) (view data') ∧
    runs_from (view data') 0 (2 * bs) n).
Proof.
  intros Hbs Hn Hlen Hmax Hruns. unfold merge_blocks.
  assert (i64 (2 * bs) = 2 * bs) as -> by (apply i64_small; pow2_consts; lia).
  apply wp_bind. eapply wp_mono.
  { apply (wp_loop (λ '(data', a, b), stable_in lt 0 n (view data) (view data') ∧
      ∃ q, 0 ≤ q ∧ a = q * (2 * bs) ∧ b = a + 2 * bs ∧ a ≤ n ∧
        runs_upto (view data') q (2 * bs) ∧ runs_from (view data') (2 * q) bs n)
      (λ '(_, a, _), n - a) _ _ _
      (λ '(data', a), stable_in lt 0 n (view data) (view data') ∧
      ∃ q, 0 ≤ q ∧ a = q * (2 * bs) ∧ n < a + 2 * bs ∧ a ≤ n ∧
        runs_upto (view data') q (2 * bs) ∧ runs_from (view data') (2 * q) bs n)).
    - split; [apply stable_in_refl|]. exists 0. split_and!; try lia; try done. intros q Hq. lia.
    - intros [[data' a] b] (_ & q & ? & ? & ? & ? & _). lia.
    - unfold fuel_of. lia.
    - intros [[data' a] b] (Hst & q & Hq & -> & -> & Ha & Hr & Hrest).
      pose proof (perm_in_len _ _ _ _ (proj1 Hst)) as Hl.
      destruct (Z.leb_spec (q * (2 * bs) + 2 * bs) n).
      + apply wp_bind. eapply wp_mono.
        { apply symMerge_spec; [lia|lia|lia|lia| | |].
          - pose proof (Hrest (2 * q) ltac:(lia)) as Hs. 
            replace (2 * q * bs) with (q * (2 * bs)) in Hs by lia.
            by replace (((2 * q + 1) * bs) `min` n) with (q * (2 * bs) + bs) in Hs by lia.
          - pose proof (Hrest (2 * q + 1) ltac:(lia)) as Hs.
            replace ((2 * q + 1) * bs) with (q * (2 * bs) + bs) in Hs by lia.
            by replace (((2 * q + 1 + 1) * bs) `min` n) with (q * (2 * bs) + 2 * bs) in Hs by lia.
          - unfold fuel_of. lia. }
        intros data'' [Hst' Hs']. simpl. pow2_consts. rewrite i64_small by lia.
        split; [|lia]. split.
        { eapply stable_in_trans; [done|].
          apply (stable_in_mono lt (q * (2 * bs)) (q * (2 * bs) + 2 * bs)); (done || lia). }
        exists (q + 1). split_and!; try lia.
        * eapply runs_upto_step; [done|lia|lia|done|].
          by replace ((q + 1) * (2 * bs)) with (q * (2 * bs) + 2 * bs) by lia.
        * eapply (runs_from_outside _ _ _ _ _ _ _ Hst'); [lia|lia|]. intros q' Hq'. apply Hrest. lia.
      + simpl. split; [done|]. exists q. split_and!; (done || lia). }
  intros [data' a] (Hst & q & Hq & -> & Hqn & Ha & Hr & Hrest).
  pose proof (perm_in_len _ _ _ _ (proj1 Hst)) as Hl. simpl.
  pose proof (Hrest (2 * q) ltac:(lia)) as Hs1. pose proof (Hrest (2 * q + 1) ltac:(lia)) as Hs2.
  replace (2 * q * bs) with (q * (2 * bs)) in Hs1 by lia.
  replace ((2 * q + 1) * bs) with (q * (2 * bs) + bs) in Hs1, Hs2 by lia.
  replace (((2 * q + 1 + 1) * bs) `min` n) with n in Hs2 by lia.
  apply (wp_mono _ (merges (q * (2 * bs)) n data')).
  - destruct (Z.ltb_spec (q * (2 * bs) + bs) n).
    + apply symMerge_spec; [lia|lia|lia|lia| |done|unfold fuel_of; lia].
      by replace ((q * (2 * bs) + bs) `min` n) with (q * (2 * bs) + bs) in Hs1 by lia.
    + apply merges_refl. by replace ((q * (2 * bs) + bs) `min` n) with n in Hs1 by lia.
  - intros data'' [Hst' Hs']. split.
    + eapply stable_in_trans; [done|]. apply (stable_in_mono lt (q * (2 * bs)) n); (done || lia).
    + eapply runs_all; [done|lia|lia|lia|done|done].
Qed.

(** The stable sort terminates without a panic; the result is ordered, and
    elements that compare equal keep their order. *)
Lemma stable_spec data n : n = len (view data) → n < 2 ^ 61 →
  wp (stable data n) (merges 0 n data).
Proof.
  intros Hn Hmax. pose proof (len_nonneg (view data)). unfold stable. apply wp_bind.
  eapply wp_mono; [apply insertion_blocks_spec; lia|]. intros data1 [Hst1 Hr1].
  apply (wp_loop (λ '(data', bs), stable_in lt 0 n (view data) (view data') ∧ 0 < bs < 2 ^ 62 ∧
    runs_from (view data') 0 bs n) (λ '(_, bs), Z.max 0 (n - bs))).
  - split; [done|]. split; [lia|done].
  - intros [data' bs]. lia.
  - unfold fuel_of. lia.
  - intros [data' bs] (Hst & Hbs & Hr). pose proof (perm_in_len _ _ _ _ (proj1 Hst)) as Hl.
    destruct (Z.ltb_spec bs n).
    + apply wp_bind. eapply wp_mono; [apply merge_blocks_spec; (done || lia)|].
      intros data'' [Hst' Hr']. simpl.
      assert (i64 (bs * 2) = 2 * bs) as -> by (rewrite i64_small by (pow2_consts; lia); lia).
      split; [|lia]. split; [by eapply stable_in_trans|]. split; [lia|done].
    + simpl. split; [done|]. specialize (Hr 0 ltac:(lia)).
      by replace (((0 + 1) * bs) `min` n) with n in Hr by lia.
Qed.
End blocks.
