(* ===== verification/Cmp.v ===== *)
(** * The package cmp

    [cmp.Less] and [cmp.Compare] over the ordered types. An ordered type is a
    type with the operators [<] and [==] ([Ordered]); the laws say that they
    order all values but those that are not equal to themselves, the NaNs. The
    instances are the integers, the strings (compared bytewise) and the
    IEEE-754 floating-point numbers. *)

From S2P Require Import Prelude.
From Stdlib Require Import SpecFloat.

Class Ordered (T : Type) := {
  ord_lt : T → T → bool;
  ord_eq : T → T → bool;
}.

Section cmp.
  Context {T : Type} `{Ordered T}.

Definition isNaN (x : T) : bool := negb (ord_eq x x).

Definition Less (x y : T) : bool :=
  (isNaN x && negb (isNaN y)) || ord_lt x y.

Definition Compare (x y : T) : Z :=
  let xNaN := isNaN x in
  let yNaN := isNaN y in
  if xNaN then (if yNaN then 0 else -1)
  else if yNaN then 1
  else if ord_lt x y then -1
  else if ord_lt y x then 1
  else 0.
End cmp.

(** What the language says of the operators of an ordered type: [<] is a strict
    weak order on the values that are not NaN, false on NaN, and [==] on them
    means that neither is less. *)
Class OrderedLaws (T : Type) `{Ordered T} : Prop := {
  ord_nan x y : isNaN x = true →
    ord_lt x y = false ∧ ord_lt y x = false ∧ ord_eq x y = false ∧ ord_eq y x = false;
  ord_eq_lt x y : isNaN x = false → isNaN y = false →
    ord_eq x y = negb (ord_lt x y) && negb (ord_lt y x);
  ord_asym x y : ord_lt x y = true → ord_lt y x = false;
  ord_negtrans x y z : isNaN x = false → isNaN y = false → isNaN z = false →
    ord_lt x y = false → ord_lt y z = false → ord_lt x z = false;
}.

(** ** Integers *)

#[export] Instance Z_ordered : Ordered Z := {| ord_lt := Z.ltb; ord_eq := Z.eqb |}.
#[export] Instance Z_ordered_laws : OrderedLaws Z.
Proof.
  split.
  - intros x y. unfold isNaN. simpl. by rewrite Z.eqb_refl.
  - intros x y _ _. simpl. zcases; try done; lia.
  - intros x y. simpl. rewrite Z.ltb_lt, Z.ltb_ge. lia.
  - intros x y z _ _ _. simpl. rewrite !Z.ltb_ge. lia.
Qed.

(** ** Strings: the first difference decides, and a prefix is less *)

Fixpoint string_lt (s t : list Z) : bool :=
  match s, t with
  | _, [] => false
  | [], _ :: _ => true
  | x :: s, y :: t => (x <? y) || ((x =? y) && string_lt s t)
  end.

Fixpoint string_eq (s t : list Z) : bool :=
  match s, t with
  | [], [] => true
  | x :: s, y :: t => (x =? y) && string_eq s t
  | _, _ => false
  end.

#[export] Instance string_ordered : Ordered (list Z) :=
  {| ord_lt := string_lt; ord_eq := string_eq |}.

Lemma string_eq_spec s t : string_eq s t = bool_decide (s = t).
Proof.
  revert t. induction s as [|x s IH]; intros [|y t]; simpl; try done.
  rewrite IH. destruct (Z.eqb_spec x y) as [->|Hne]; simpl.
  - apply bool_decide_ext. split; [by intros ->|by intros [=]].
  - symmetry. apply bool_decide_eq_false. by intros [=].
Qed.

Lemma string_lt_irrefl s : string_lt s s = false.
Proof. induction s as [|x s IH]; simpl; [done|]. by rewrite Z.ltb_irrefl, Z.eqb_refl. Qed.

Lemma string_lt_total s t : string_lt s t = false → string_lt t s = false → s = t.
Proof.
  revert t. induction s as [|x s IH]; intros [|y t]; simpl; try done.
  zcases; try done; try lia. intros. f_equal; auto.
Qed.

#[export] Instance string_ordered_laws : OrderedLaws (list Z).
Proof.
  split.
  - intros x y. unfold isNaN. simpl. by rewrite string_eq_spec, bool_decide_eq_true_2.
  - intros x y _ _. simpl. rewrite string_eq_spec.
    destruct (string_lt x y) eqn:H1; simpl.
    { apply bool_decide_eq_false. intros ->. by rewrite string_lt_irrefl in H1. }
    destruct (string_lt y x) eqn:H2; simpl.
    { apply bool_decide_eq_false. intros ->. by rewrite string_lt_irrefl in H2. }
    apply bool_decide_eq_true. by apply string_lt_total.
  - simpl. intros x. induction x as [|a x IH]; intros [|b y]; simpl; try done.
    zcases; try done; lia || auto.
  - simpl. intros x y z _ _ _. revert y z.
    induction x as [|a x IH]; intros [|b y] [|c z]; simpl; try done.
    zcases; try done; try lia. apply IH.
Qed.

(** ** Floating-point numbers: IEEE-754 comparison, where NaN compares false *)

#[export] Instance float_ordered : Ordered spec_float :=
  {| ord_lt := SFltb; ord_eq := SFeqb |}.

(** The position of a number that is not NaN in the order, as a triple. *)
Definition float_key (x : spec_float) : Z * Z * Z :=
  match x with
  | S754_zero _ | S754_nan => (0, 0, 0)
  | S754_infinity s => (if s then -2 else 2, 0, 0)
  | S754_finite s m e => if s then (-1, - e, Zneg m) else (1, e, Zpos m)
  end.

Definition key_lt (a b : Z * Z * Z) : bool :=
  let '(a1, a2, a3) := a in let '(b1, b2, b3) := b in
  (a1 <? b1) || ((a1 =? b1) && ((a2 <? b2) || ((a2 =? b2) && (a3 <? b3)))).

Lemma float_lt_key x y : x ≠ S754_nan → y ≠ S754_nan →
  SFltb x y = key_lt (float_key x) (float_key y) ∧
  SFeqb x y = negb (key_lt (float_key x) (float_key y)) && negb (key_lt (float_key y) (float_key x)).
Proof.
  intros Hx Hy. unfold SFltb, SFeqb.
  destruct x as [s|s| |s m e], y as [t|t| |t n f]; try done.
  all: try (by destruct s); try (by destruct t); try (by destruct s, t).
  destruct s, t; simpl; try done.
  all: destruct (Z.compare_spec e f); simpl; zcases; try done; try lia.
  all: change (Pos.compare_cont Eq m n) with (Z.pos m ?= Z.pos n).
  all: destruct (Z.compare_spec (Z.pos m) (Z.pos n)); simpl; try done; lia.
Qed.

#[export] Instance spec_float_eq_dec : EqDecision spec_float.
Proof. solve_decision. Defined.

Lemma float_isNaN x : isNaN x = bool_decide (x = S754_nan).
Proof.
  case_bool_decide as Hx; [by subst|]. unfold isNaN. simpl.
  rewrite (proj2 (float_lt_key x x Hx Hx)). unfold key_lt.
  destruct (float_key x) as [[a b] c]. by rewrite !Z.ltb_irrefl, !Z.eqb_refl.
Qed.

#[export] Instance float_ordered_laws : OrderedLaws spec_float.
Proof.
  split.
  - intros x y. rewrite float_isNaN, bool_decide_eq_true. intros ->. by destruct y.
  - intros x y. rewrite !float_isNaN, !bool_decide_eq_false. intros Hx Hy. simpl.
    destruct (float_lt_key x y Hx Hy) as [-> ->]. by destruct (float_lt_key y x Hy Hx) as [-> _].
  - intros x y. simpl. destruct (decide (x = S754_nan)) as [->|Hx]; [done|].
    destruct (decide (y = S754_nan)) as [->|Hy]; [by destruct x|].
    destruct (float_lt_key x y Hx Hy) as [-> _], (float_lt_key y x Hy Hx) as [-> _].
    unfold key_lt. destruct (float_key x) as [[a1 a2] a3], (float_key y) as [[b1 b2] b3].
    zcases; try done; lia.
  - intros x y z. rewrite !float_isNaN, !bool_decide_eq_false. intros Hx Hy Hz. simpl.
    destruct (float_lt_key x y Hx Hy) as [-> _], (float_lt_key y z Hy Hz) as [-> _],
      (float_lt_key x z Hx Hz) as [-> _].
    unfold key_lt. destruct (float_key x) as [[a1 a2] a3], (float_key y) as [[b1 b2] b3],
      (float_key z) as [[c1 c2] c3].
    zcases; try done; lia.
Qed.
