(* ===== verification/SortVariants.v ===== *)
(** * The sorting entry points and their generated variants

    [slices.Sort] and [slices.SortFunc] sort a slice, compared by [cmp.Less] or by a
    function [cmp]; [sort.Slice] sorts with a closure [less] and a generated
    swap; [sort.Sort] sorts any [sort.Interface]. Each generated copy of the
    template (zsortordered.go, zsortanyfunc.go, zsortfunc.go) is the template at
    an instance of [SortInterface]. Then the implementations of [sort.Interface]
    in sort.go, [Reverse], and the binary searches of sort/search.go and
    slices/sort.go. *)

From S2P Require Import Prelude Bits Cmp Sort StableSort.

(** [data[i], data[j] = data[j], data[i]]. *)
Definition slice_swap {E} (data : list E) (i j : Z) : res (list E) :=
  x ← idx data j;
  y ← idx data i;
  data ← store data i x;
  store data j y.

(** ** slices.Sort: zsortordered.go *)

Section ordered.
  Context {E : Type} `{Ordered E}.

Definition ordered_slice : SortInterface (list E) := {|
  Len := len;
  Less data i j := x ← idx data i; y ← idx data j; mret (Cmp.Less x y);
  Swap := slice_swap;
|}.

Definition insertionSortOrdered := insertionSort (H := ordered_slice).
Definition siftDownOrdered := siftDown (H := ordered_slice).
Definition heapSortOrdered := heapSort (H := ordered_slice).
Definition pdqsortOrdered := pdqsort (H := ordered_slice).
Definition partitionOrdered := partition (H := ordered_slice).
Definition partitionEqualOrdered := partitionEqual (H := ordered_slice).
Definition partialInsertionSortOrdered := partialInsertionSort (H := ordered_slice).
Definition breakPatternsOrdered := breakPatterns (H := ordered_slice).
Definition choosePivotOrdered := choosePivot (H := ordered_slice).
Definition order2Ordered := order2 (H := ordered_slice).
Definition medianOrdered := median (H := ordered_slice).
Definition medianAdjacentOrdered := medianAdjacent (H := ordered_slice).
Definition reverseRangeOrdered := reverseRange (H := ordered_slice).
Definition swapRangeOrdered := swapRange (H := ordered_slice).
Definition rotateOrdered := rotate (H := ordered_slice).
Definition symMergeOrdered := symMerge (H := ordered_slice).
Definition stableOrdered := stable (H := ordered_slice).

Definition slices_Sort (x : list E) : res (list E) :=
  let n := len x in
  limit ← Bits.Len (u64 n);
  pdqsortOrdered (fuel_of n) x 0 n limit.

Definition slices_IsSorted (x : list E) : res bool :=
  loop (fuel_of (len x)) (λ i,
    if 0 <? i then
      a ← idx x i; b ← idx x (i - 1);
      if Cmp.Less a b then mret (inr false) else mret (inl (i - 1))
    else mret (inr true)) (len x - 1).
End ordered.

(** ** slices.SortFunc: zsortanyfunc.go *)

Section cmp_func.
  Context {E : Type} (cmp : E → E → Z).

Definition cmp_slice : SortInterface (list E) := {|
  Len := len;
  Less data i j := x ← idx data i; y ← idx data j; mret (cmp x y <? 0);
  Swap := slice_swap;
|}.

Definition insertionSortCmpFunc := insertionSort (H := cmp_slice).
Definition siftDownCmpFunc := siftDown (H := cmp_slice).
Definition heapSortCmpFunc := heapSort (H := cmp_slice).
Definition pdqsortCmpFunc := pdqsort (H := cmp_slice).
Definition partitionCmpFunc := partition (H := cmp_slice).
Definition partitionEqualCmpFunc := partitionEqual (H := cmp_slice).
Definition partialInsertionSortCmpFunc := partialInsertionSort (H := cmp_slice).
Definition breakPatternsCmpFunc := breakPatterns (H := cmp_slice).
Definition choosePivotCmpFunc := choosePivot (H := cmp_slice).
Definition order2CmpFunc := order2 (H := cmp_slice).
Definition medianCmpFunc := median (H := cmp_slice).
Definition medianAdjacentCmpFunc := medianAdjacent (H := cmp_slice).
Definition reverseRangeCmpFunc := reverseRange (H := cmp_slice).
Definition swapRangeCmpFunc := swapRange (H := cmp_slice).
Definition rotateCmpFunc := rotate (H := cmp_slice).
Definition symMergeCmpFunc := symMerge (H := cmp_slice).
Definition stableCmpFunc := stable (H := cmp_slice).

Definition slices_SortFunc (x : list E) : res (list E) :=
  let n := len x in
  limit ← Bits.Len (u64 n);
  pdqsortCmpFunc (fuel_of n) x 0 n limit.

Definition SortStableFunc (x : list E) : res (list E) := stableCmpFunc x (len x).

Definition slices_IsSortedFunc (x : list E) : res bool :=
  loop (fuel_of (len x)) (λ i,
    if 0 <? i then
      a ← idx x i; b ← idx x (i - 1);
      if cmp a b <? 0 then mret (inr false) else mret (inl (i - 1))
    else mret (inr true)) (len x - 1).
End cmp_func.

(** ** sort.Slice: zsortfunc.go

    The closure [less] compares two positions of the current contents of the
    slice; [reflectlite.Swapper] exchanges two elements. *)

Section less_swap.
  Context {E : Type} (less : list E → Z → Z → res bool).

Definition lessSwap : SortInterface (list E) := {|
  Len := len;
  Less := less;
  Swap := slice_swap;
|}.

Definition insertionSort_func := insertionSort (H := lessSwap).
Definition siftDown_func := siftDown (H := lessSwap).
Definition heapSort_func := heapSort (H := lessSwap).
Definition pdqsort_func := pdqsort (H := lessSwap).
Definition partition_func := partition (H := lessSwap).
Definition partitionEqual_func := partitionEqual (H := lessSwap).
Definition partialInsertionSort_func := partialInsertionSort (H := lessSwap).
Definition breakPatterns_func := breakPatterns (H := lessSwap).
Definition choosePivot_func := choosePivot (H := lessSwap).
Definition order2_func := order2 (H := lessSwap).
Definition median_func := median (H := lessSwap).
Definition medianAdjacent_func := medianAdjacent (H := lessSwap).
Definition reverseRange_func := reverseRange (H := lessSwap).
Definition swapRange_func := swapRange (H := lessSwap).
Definition rotate_func := rotate (H := lessSwap).
Definition symMerge_func := symMerge (H := lessSwap).
Definition stable_func := stable (H := lessSwap).

Definition sort_Slice (x : list E) : res (list E) :=
  let length := len x in
  limit ← Bits.Len (u64 length);
  pdqsort_func (fuel_of length) x 0 length limit.

Definition SliceStable (x : list E) : res (list E) := stable_func x (len x).

Definition SliceIsSorted (x : list E) : res bool :=
  let n := len x in
  loop (fuel_of n) (λ i,
    if 0 <? i then
      c ← less x i (i - 1);
      if c : bool then mret (inr false) else mret (inl (i - 1))
    else mret (inr true)) (n - 1).
End less_swap.

(** ** Implementations of sort.Interface *)

(** [IntSlice] and [StringSlice] compare by [<]. *)
Definition lt_slice {E} (lt : E → E → bool) : SortInterface (list E) := {|
  Len := len;
  Less x i j := a ← idx x i; b ← idx x j; mret (lt a b);
  Swap := slice_swap;
|}.

Definition IntSlice : SortInterface (list Z) := lt_slice (ord_lt (T := Z)).
Definition StringSlice : SortInterface (list (list Z)) := lt_slice (ord_lt (T := list Z)).
Definition Float64Slice : SortInterface (list SpecFloat.spec_float) :=
  lt_slice (λ x y, ord_lt x y || (isNaN x && negb (isNaN y))).

(** [Reverse] embeds an Interface and exchanges the arguments of Less. *)
Definition Reverse {D} (data : SortInterface D) : SortInterface D := {|
  Len := @Len D data;
  Less d i j := @Less D data d j i;
  Swap := @Swap D data;
|}.

Definition Ints (x : list Z) : res (list Z) := slices_Sort x.
Definition Strings (x : list (list Z)) : res (list (list Z)) := slices_Sort x.
Definition Float64s (x : list SpecFloat.spec_float) : res (list SpecFloat.spec_float) :=
  slices_Sort x.

(** ** Binary search *)

(** The loop of the binary searches: [before h] holds of the positions left of
    the result. *)
Definition search_loop (n : Z) (before : Z → res bool) : res Z :=
  loop (fuel_of n) (λ '(i, j),
    if i <? j then
      let h := midpoint i j in
      c ← before h;
      if c : bool then mret (inl (h + 1, j)) else mret (inl (i, h))
    else mret (inr i)) (0, n).

Definition Search (n : Z) (f : Z → res bool) : res Z :=
  search_loop n (λ h, c ← f h; mret (negb c)).

Definition Find (n : Z) (cmp : Z → res Z) : res (Z * bool) :=
  i ← search_loop n (λ h, c ← cmp h; mret (0 <? c));
  found ← andM (i <? n) (c ← cmp i; mret (c =? 0));
  mret (i, found).

Definition BinarySearch {E} `{Ordered E} (x : list E) (target : E) : res (Z * bool) :=
  i ← search_loop (len x) (λ h, y ← idx x h; mret (Cmp.Less y target));
  found ← andM (i <? len x)
    (y ← idx x i; mret (ord_eq y target || (isNaN y && isNaN target)));
  mret (i, found).

Definition BinarySearchFunc {E T} (cmp : E → T → Z) (x : list E) (target : T) : res (Z * bool) :=
  i ← search_loop (len x) (λ h, y ← idx x h; mret (cmp y target <? 0));
  found ← andM (i <? len x) (y ← idx x i; mret (cmp y target =? 0));
  mret (i, found).

Definition SearchInts (a : list Z) (x : Z) : res Z :=
  Search (len a) (λ i, y ← idx a i; mret (x <=? y)).
Definition SearchStrings (a : list (list Z)) (x : list Z) : res Z :=
  Search (len a) (λ i, y ← idx a i; mret (negb (ord_lt y x))).
