(* ===== verification/SortProps.v ===== *)
(** * Properties of sort, slices (sorting and searching) and cmp *)

From S2P Require Import Prelude Bits Cmp Sort StableSort SortSpec SortProofs StableProofs SortVariants.


(** ** The comparison of cmp *)

Section compare.
Context {T : Type} `{OrderedLaws T}.

Lemma ord_irrefl (x : T) : ord_lt x x = false.
Proof. destruct (ord_lt x x) eqn:Hx; [|done]. by rewrite (ord_asym x x) in Hx. Qed.

#[export] Instance Less_swo : StrictWeakOrder (Cmp.Less (T := T)).
Proof.
  unfold Cmp.Less. split.
  - intros x y. destruct (isNaN x) eqn:Hx, (isNaN y) eqn:Hy; simpl; try done.
    + by destruct (ord_nan x y Hx) as (-> & _).
    + intros _. by destruct (ord_nan x y Hx) as (_ & -> & _).
    + by destruct (ord_nan y x Hy) as (_ & -> & _).
    + apply ord_asym.
  - intros x y z. destruct (isNaN x) eqn:Hx, (isNaN y) eqn:Hy, (isNaN z) eqn:Hz; simpl; try done.
    all: try (intros _ _; first [by destruct (ord_nan x z Hx) as (-> & _)
      | by destruct (ord_nan z x Hz) as (_ & -> & _)]).
    by apply ord_negtrans.
Qed.

Lemma Compare_Less (x y : T) :
  Compare x y = if Cmp.Less x y then -1 else if Cmp.Less y x then 1 else 0.
Proof.
  unfold Compare, Cmp.Less. destruct (isNaN x) eqn:Hx, (isNaN y) eqn:Hy; simpl; try done.
  all: first [destruct (ord_nan x y Hx) as (H1 & H2 & _)
    | destruct (ord_nan y x Hy) as (H2 & H1 & _)]; by rewrite ?H1, ?H2.
Qed.
End compare.

(** ** Slices implement the sorting interface *)

Section slices.
Context {E : Type}.
Implicit Types (x : list E).

Lemma slice_swap_ok x i j u v : zget x i = Some u → zget x j = Some v →
  slice_swap x i j = Ok (zset (zset x i v) j u).
Proof.
  intros Hu Hv. pose proof (zget_Some_range _ _ _ Hu). pose proof (zget_Some_range _ _ _ Hv).
  unfold slice_swap. rewrite (idx_in _ _ _ Hv), (idx_in _ _ _ Hu). cbn [mbind res_bind].
  unfold store. rewrite decide_True by done. cbn [mbind res_bind].
  by rewrite decide_True by (by rewrite len_zset).
Qed.

#[refine] Definition slice_laws (S : SortInterface (list E)) (lt0 : E → E → bool)
  (HLen : @Len _ S = len) (HSwap : @Swap _ S = slice_swap)
  (HLess : ∀ x i j u v, zget x i = Some u → zget x j = Some v →
    @Less _ S x i j = Ok (lt0 u v)) : @SortLaws (list E) E S :=
  {| view := id; lt := lt0 |}.
Proof.
  - intros d. by rewrite HLen.
  - done.
  - intros d i j u v Hu Hv. rewrite HSwap. eexists. split; [by apply slice_swap_ok|done].
Defined.

Definition ordered_laws `{Ordered E} : @SortLaws (list E) E ordered_slice.
Proof.
  refine (slice_laws ordered_slice Cmp.Less eq_refl eq_refl _). intros x i j u v Hu Hv. simpl.
  by rewrite (idx_in _ _ _ Hu), (idx_in _ _ _ Hv).
Defined.

Definition cmp_laws (cmp : E → E → Z) : @SortLaws (list E) E (cmp_slice cmp).
Proof.
  refine (slice_laws (cmp_slice cmp) (λ u v, cmp u v <? 0) eq_refl eq_refl _).
  intros x i j u v Hu Hv. simpl. by rewrite (idx_in _ _ _ Hu), (idx_in _ _ _ Hv).
Defined.

Definition lt_laws (lt0 : E → E → bool) : @SortLaws (list E) E (lt_slice lt0).
Proof.
  refine (slice_laws (lt_slice lt0) lt0 eq_refl eq_refl _).
  intros x i j u v Hu Hv. simpl. by rewrite (idx_in _ _ _ Hu), (idx_in _ _ _ Hv).
Defined.

(** The contract of the closure passed to [sort.Slice]. *)
Definition less_of (less : list E → Z → Z → res bool) (lt0 : E → E → bool) : Prop :=
  ∀ x i j u v, zget x i = Some u → zget x j = Some v → less x i j = Ok (lt0 u v).

Definition less_laws less lt0 (Hless : less_of less lt0) : @SortLaws (list E) E (lessSwap less) :=
  slice_laws (lessSwap less) lt0 eq_refl eq_refl Hless.
End slices.

Definition Reverse_laws {D E} (S : SortInterface D) (L : @SortLaws D E S) :
  @SortLaws D E (Reverse S).
Proof.
  refine (@Build_SortLaws D E (Reverse S) (@view D E S L) (λ x y, lt y x) (@Len_view D E S L) _ (@Swap_view D E S L)).
  intros d i j x y Hx Hy. simpl. exact (@Less_view D E S L d j i y x Hy Hx).
Defined.

Lemma Reverse_swo {E} (lt0 : E → E → bool) : StrictWeakOrder lt0 → StrictWeakOrder (λ x y, lt0 y x).
Proof.
  intros H. split.
  - intros x y. apply lt_asym.
  - intros x y z H1 H2. by apply (lt_negtrans z y x).
Qed.

(** ** Sorting *)

(** The entry points that sort a slice call pdqsort like [Sort]. *)
Lemma pdqsort_entry {D E} (S : SortInterface D) (L : @SortLaws D E S) data :
  StrictWeakOrder lt → len (view data) < 2 ^ 62 →
  ∃ data', (limit ← Bits.Len (u64 (len (view data)));
    pdqsort (fuel_of (len (view data))) data 0 (len (view data)) limit) = Ok data' ∧
    view data' ≡ₚ view data ∧ sorted_in lt (view data') 0 (len (view data')).
Proof.
  intros Hswo Hmax.
  cut (wp (limit ← Bits.Len (u64 (len (view data)));
    pdqsort (fuel_of (len (view data))) data 0 (len (view data)) limit)
    (sorts 0 (len (view data)) data)).
  { intros (data' & ? & Hp & Hs)%wp_exists. exists data'.
    rewrite (perm_in_len _ _ _ _ Hp). split_and!; [done|by eapply perm_in_Permutation|done]. }
  pose proof (len_nonneg (view data)). unfold Bits.Len.
  change (UintSize =? 32) with false. cbv iota.
  rewrite (uwrap_small 64 (len (view data))), uwrap_small, Len64_spec
    by (unfold is_uint; pow2_consts; lia).
  cbn [mbind res_bind]. apply pdqsort_spec; try lia.
  - unfold fuel_of. lia.
  - intros Hf; lia.
Qed.

(** [y] is [x] sorted. *)
Definition sorted_perm {E} (lt0 : E → E → bool) (x y : list E) : Prop :=
  y ≡ₚ x ∧ sorted_in lt0 y 0 (len y).

Lemma entry_wp {E} (S : SortInterface (list E)) lt0 (L : @SortLaws (list E) E S) x :
  StrictWeakOrder lt0 → view = id → @lt _ _ _ L = lt0 → len x < 2 ^ 62 →
  ∃ y, (limit ← Bits.Len (u64 (len x)); pdqsort (fuel_of (len x)) x 0 (len x) limit) = Ok y ∧
    sorted_perm lt0 x y.
Proof.
  intros Hswo Hview <- Hmax.
  pose proof (pdqsort_entry S L x) as H. rewrite Hview in H. unfold id in H.
  destruct H as (y & Hy & Hp & Hs); [done..|]. by exists y.
Qed.

(** The [IsSorted] functions on slices are [IsSorted] of the slice. *)
Lemma slices_IsSorted_eq {E} `{Ordered E} (x : list E) :
  slices_IsSorted x = IsSorted (H := ordered_slice) x.
Proof.
  unfold slices_IsSorted, IsSorted. simpl. apply loop_ext. intros i.
  destruct (0 <? i); [|done]. destruct (idx x i) as [a| |]; [|done..]. simpl.
  by destruct (idx x (i - 1)).
Qed.

Lemma slices_IsSortedFunc_eq {E} (cmp : E → E → Z) (x : list E) :
  slices_IsSortedFunc cmp x = IsSorted (H := cmp_slice cmp) x.
Proof.
  unfold slices_IsSortedFunc, IsSorted. simpl. apply loop_ext. intros i.
  destruct (0 <? i); [|done]. destruct (idx x i) as [a| |]; [|done..]. simpl.
  by destruct (idx x (i - 1)).
Qed.

(** C7: [sort.Sort] on any implementation of [sort.Interface] whose Less is a
    strict weak ordering terminates without a panic (whatever pivots are
    chosen), and leaves an ordered permutation of the elements: pdqsort with
    its insertion sort, heap sort, partitions, partial insertion sort and
    pattern breaking. [sort.IsSorted] decides whether data is in order, and
    sorting with [sort.Reverse] gives the opposite order. *)
Theorem Sort_correct : ∀ (D E : Type) (S : SortInterface D) (L : SortLaws D E),
  StrictWeakOrder lt → ∀ data : D, len (view data) < 2 ^ 62 →
  (∃ data', Sort data = Ok data' ∧ sorted_perm lt (view data) (view data') ∧
    IsSorted data' = Ok true) ∧
  (∃ data', Sort (H := Reverse S) data = Ok data' ∧
    sorted_perm (λ x y, lt y x) (view data) (view data')) ∧
  (∃ c, IsSorted data = Ok c ∧ (c = true ↔ sorted_in lt (view data) 0 (len (view data)))).
Proof.
  intros D E S L Hswo data Hmax. split_and!.
  - destruct (Sort_spec data Hmax) as (data' & Hs & Hp & Hsorted). exists data'.
    split; [done|]. split; [done|].
    destruct (IsSorted_spec data') as (c & -> & Hc). f_equal. by apply Hc.
  - pose proof (Reverse_swo lt Hswo) as Hswo'.
    by apply (@Sort_spec D E (Reverse S) (Reverse_laws S L) Hswo' data).
  - apply IsSorted_spec.
Qed.

Lemma Sort_correct_witness :
  ∃ y, Sort (H := IntSlice) [3; -1; 2; 3; 0] = Ok y ∧
    sorted_perm Z.ltb [3; -1; 2; 3; 0] y.
Proof.
  pose proof (Sort_correct (list Z) Z IntSlice (lt_laws Z.ltb)) as H.
  destruct (H ltac:(split; intros *; rewrite ?Z.ltb_lt, ?Z.ltb_ge; lia) [3; -1; 2; 3; 0]
    ltac:(done)) as [(y & Hy & Hs & _) _].
  by exists y.
Defined.

(** [slices.Sort] on an ordered type, and the order that [slices.IsSorted] decides. *)
Lemma slices_Sort_spec : ∀ (E : Type) (ops : Ordered E), OrderedLaws E →
  ∀ x : list E, len x < 2 ^ 62 →
  (∃ y, slices_Sort x = Ok y ∧ sorted_perm Cmp.Less x y ∧ slices_IsSorted y = Ok true) ∧
  (∃ c, slices_IsSorted x = Ok c ∧ (c = true ↔ sorted_in Cmp.Less x 0 (len x))).
Proof.
  intros E ops Hlaws x Hmax.
  assert (∀ x : list E, ∃ c, slices_IsSorted x = Ok c ∧ (c = true ↔ sorted_in Cmp.Less x 0 (len x))) as HS.
  { intros z. rewrite slices_IsSorted_eq.
    apply (@IsSorted_spec (list E) E ordered_slice ordered_laws Less_swo z). }
  split; [|apply HS].
  destruct (entry_wp ordered_slice Cmp.Less ordered_laws x Less_swo eq_refl eq_refl Hmax)
    as (y & Hy & Hs).
  exists y. split; [exact Hy|]. split; [done|].
  destruct (HS y) as (c & -> & Hc). f_equal. apply Hc. apply Hs.
Qed.

(** By a comparison function or a closure. *)
Lemma SortFunc_Slice_sorts : ∀ (E : Type) (cmp : E → E → Z)
    (less : list E → Z → Z → res bool) (x : list E),
  StrictWeakOrder (λ a b, cmp a b <? 0) → less_of less (λ a b, cmp a b <? 0) →
  len x < 2 ^ 62 →
  (∃ y, slices_SortFunc cmp x = Ok y ∧ sorted_perm (λ a b, cmp a b <? 0) x y) ∧
  (∃ y, sort_Slice less x = Ok y ∧ sorted_perm (λ a b, cmp a b <? 0) x y) ∧
  (∃ c, slices_IsSortedFunc cmp x = Ok c ∧ SliceIsSorted less x = Ok c ∧
    (c = true ↔ sorted_in (λ a b, cmp a b <? 0) x 0 (len x))).
Proof.
  intros E cmp less x Hswo Hless Hmax. split_and!.
  - by apply (entry_wp (cmp_slice cmp) _ (cmp_laws cmp) x Hswo eq_refl eq_refl).
  - by apply (entry_wp (lessSwap less) _ (less_laws less _ Hless) x Hswo eq_refl eq_refl).
  - destruct (@IsSorted_spec (list E) E (cmp_slice cmp) (cmp_laws cmp) Hswo x) as (c & Hc & Hs).
    destruct (@IsSorted_spec (list E) E (lessSwap less) (less_laws less _ Hless) Hswo x)
      as (c' & Hc' & Hs').
    exists c. rewrite slices_IsSortedFunc_eq. split; [done|]. split; [|done].
    change (SliceIsSorted less x) with (IsSorted (H := lessSwap less) x). rewrite Hc'.
    f_equal. simpl in *. unfold id in *. destruct c, c'; try done; intuition congruence.
Qed.

(** [cmp.Less] is a strict weak order, [cmp.Compare] its three-way form. *)
Lemma cmp_Compare_spec : ∀ (T : Type) (ops : Ordered T), OrderedLaws T →
  StrictWeakOrder (Cmp.Less (T := T)) ∧
  ∀ x y : T, Compare x y = (if Cmp.Less x y then -1 else if Cmp.Less y x then 1 else 0) ∧
    Compare y x = - Compare x y ∧
    (isNaN x = true → Cmp.Less x y = negb (isNaN y) ∧ Cmp.Less y x = false) ∧
    (isNaN x = false → isNaN y = false → (Compare x y = 0 ↔ ord_eq x y = true)).
Proof.
  intros T ops Hlaws. split; [apply Less_swo|]. intros x y.
  pose proof (lt_asym (lt := Cmp.Less) x y) as Ha.
  split_and!.
  - apply Compare_Less.
  - rewrite !Compare_Less. destruct (Cmp.Less x y) eqn:Hxy; [by rewrite Ha|].
    by destruct (Cmp.Less y x).
  - intros Hx. unfold Cmp.Less. rewrite Hx. destruct (ord_nan x y Hx) as (-> & -> & _).
    simpl. by rewrite andb_false_r, orb_false_r.
  - intros Hx Hy. rewrite Compare_Less, (ord_eq_lt x y Hx Hy). unfold Cmp.Less.
    rewrite Hx, Hy. simpl. by destruct (ord_lt x y), (ord_lt y x).
Qed.


(** ** Binary search *)

(** The loop finds a boundary of the predicate. *)
Lemma search_loop_spec n before (P : Z → bool) : 0 ≤ n < 2 ^ 63 →
  (∀ h, 0 ≤ h < n → before h = Ok (P h)) →
  ∃ i, search_loop n before = Ok i ∧ 0 ≤ i ≤ n ∧
    (0 < i → P (i - 1) = true) ∧ (i < n → P i = false).
Proof.
  intros Hn Hb. cut (wp (search_loop n before) (λ i, 0 ≤ i ≤ n ∧
    (0 < i → P (i - 1) = true) ∧ (i < n → P i = false))).
  { intros (i & ? & ?)%wp_exists. eauto. }
  unfold search_loop.
  apply (wp_loop (λ '(i, j), 0 ≤ i ≤ j ∧ j ≤ n ∧ (0 < i → P (i - 1) = true) ∧
    (j < n → P j = false)) (λ '(i, j), j - i)).
  - split_and!; (lia || (intros; lia)).
  - intros [i j]. lia.
  - unfold fuel_of. lia.
  - intros [i j] (Hi & Hj & H1 & H2). destruct (Z.ltb_spec i j); simpl.
    + pose proof (midpoint_spec i j ltac:(lia) ltac:(lia)) as Hm.
      rewrite Hb by lia. simpl. destruct (P (midpoint i j)) eqn:HP; simpl.
      * split; [|lia]. split_and!; [lia..| |done]. intros _.
        by replace (midpoint i j + 1 - 1) with (midpoint i j) by lia.
      * split; [|lia]. split_and!; [lia..|done|done].
    + assert (j = i) as -> by lia. split_and!; (done || lia).
Qed.

(** For a predicate that never turns true again the boundary separates. *)
Lemma boundary_separates n (P : Z → bool) i : 0 ≤ i ≤ n →
  (∀ k l, 0 ≤ k → k ≤ l → l < n → P l = true → P k = true) →
  (0 < i → P (i - 1) = true) → (i < n → P i = false) →
  (∀ k, 0 ≤ k < i → P k = true) ∧ (∀ k, i ≤ k < n → P k = false).
Proof.
  intros Hi Hmono H1 H2. split; intros k Hk.
  - apply (Hmono k (i - 1)); [lia..|]. apply H1. lia.
  - destruct (P k) eqn:HP; [|done].
    rewrite (Hmono i k) in H2 by (done || lia). by rewrite H2 by lia.
Qed.

(** [sort.Search] and [sort.Find]. *)
Lemma Search_Find_spec : ∀ (n : Z) (f : Z → res bool) (F : Z → bool)
    (cmp : Z → res Z) (C : Z → Z),
  0 ≤ n < 2 ^ 63 → (∀ h, 0 ≤ h < n → f h = Ok (F h)) → (∀ h, 0 ≤ h < n → cmp h = Ok (C h)) →
  (∃ i, Search n f = Ok i ∧ 0 ≤ i ≤ n ∧ (0 < i → F (i - 1) = false) ∧ (i < n → F i = true) ∧
    ((∀ k l, 0 ≤ k → k ≤ l → l < n → F k = true → F l = true) →
      ∀ k, 0 ≤ k < n → (F k = true ↔ i ≤ k))) ∧
  (∃ i found, Find n cmp = Ok (i, found) ∧ 0 ≤ i ≤ n ∧
    ((∀ k l, 0 ≤ k → k ≤ l → l < n → C l ≤ C k) →
      (∀ k, 0 ≤ k < n → (C k ≤ 0 ↔ i ≤ k)) ∧
      (found = true ↔ ∃ k, 0 ≤ k < n ∧ C k = 0))).
Proof.
  intros n f F cmp C Hn Hf Hc. split.
  - destruct (search_loop_spec n (λ h, c ← f h; mret (negb c)) (λ h, negb (F h)) Hn)
      as (i & Hs & Hi & H1 & H2).
    { intros h Hh. by rewrite Hf. }
    exists i. split; [done|]. split; [done|].
    split; [intros; by apply negb_true_iff, H1|]. split; [intros; by apply negb_false_iff, H2|].
    intros Hmono k Hk.
    destruct (boundary_separates n (λ h, negb (F h)) i Hi) as [Hl Hr]; [|done..|].
    { intros k' l ??? HFl. destruct (F k') eqn:HF; [|done].
      by rewrite (Hmono k' l) in HFl. }
    split.
    + intros HF. destruct (decide (i ≤ k)); [done|]. specialize (Hl k ltac:(lia)). by rewrite HF in Hl.
    + intros Hik. apply negb_false_iff, Hr. lia.
  - destruct (search_loop_spec n (λ h, c ← cmp h; mret (0 <? c)) (λ h, 0 <? C h) Hn)
      as (i & Hs & Hi & H1 & H2).
    { intros h Hh. by rewrite Hc. }
    unfold Find. rewrite Hs. cbn [mbind res_bind].
    assert (∃ found, andM (i <? n) (c ← cmp i; mret (c =? 0)) = Ok found ∧
      (found = true ↔ i < n ∧ C i = 0)) as (found & -> & Hfound).
    { exists ((i <? n) && (C i =? 0)). rewrite andb_true_iff, Z.ltb_lt, Z.eqb_eq.
      split; [|done]. destruct (Z.ltb_spec i n); [|done]. simpl. by rewrite Hc by lia. }
    exists i, found. split; [done|]. split; [done|]. intros Hmono.
    destruct (boundary_separates n (λ h, 0 <? C h) i Hi) as [Hl Hr]; [|done..|].
    { intros k l ???. rewrite !Z.ltb_lt. specialize (Hmono k l). lia. }
    assert (∀ k, 0 ≤ k < n → (C k ≤ 0 ↔ i ≤ k)) as Hiff.
    { intros k Hk. split.
      - intros HC. destruct (decide (i ≤ k)); [done|]. specialize (Hl k ltac:(lia)).
        apply Z.ltb_lt in Hl. lia.
      - intros Hik. specialize (Hr k ltac:(lia)). by apply Z.ltb_ge in Hr. }
    split; [done|]. rewrite Hfound. split.
    + intros [Hin HC]. exists i. split; [lia|done].
    + intros (k & Hk & HC). assert (i ≤ k) as Hik by (apply Hiff; lia).
      split; [lia|]. assert (C i ≤ 0) by (apply Hiff; lia).
      specialize (Hmono i k ltac:(lia) Hik ltac:(lia)). lia.
Qed.



(** The common core of the searches in a sorted slice, for the predicate
    [before] ("is before the target") and [found] ("matches it"). *)
Lemma slice_search {E} (x : list E) (before found : E → bool) : len x < 2 ^ 63 →
  (∀ k l u v, 0 ≤ k → k ≤ l → l < len x → zget x k = Some u → zget x l = Some v →
    before v = true → before u = true) →
  ∃ i, search_loop (len x) (λ h, y ← idx x h; mret (before y)) = Ok i ∧ 0 ≤ i ≤ len x ∧
    all_in (λ u, before u = true) x 0 i ∧ all_in (λ u, before u = false) x i (len x) ∧
    ∃ c, andM (i <? len x) (y ← idx x i; mret (found y)) = Ok c ∧
      (c = true ↔ ∃ u, zget x i = Some u ∧ found u = true).
Proof.
  intros Hmax Hmono. pose proof (len_nonneg x).
  destruct (search_loop_spec (len x) (λ h, y ← idx x h; mret (before y)) (at_pos before x))
    as (i & Hs & Hi & H1 & H2); [lia| |].
  { intros h Hh. destruct (zget_lt x h Hh) as [u Hu]. rewrite (idx_in _ _ _ Hu).
    unfold at_pos. by rewrite Hu. }
  destruct (boundary_separates (len x) (at_pos before x) i Hi) as [Hl Hr]; [|done..|].
  { intros k l Hk Hkl Hl. unfold at_pos.
    destruct (zget_lt x k) as [u Hu]; [lia|]. destruct (zget_lt x l) as [v Hv]; [lia|].
    rewrite Hu, Hv. by apply (Hmono k l). }
  exists i. split_and!; [done|lia|lia|by apply at_pos_all|by apply at_pos_all|].
  destruct (Z.ltb_spec i (len x)) as [Hlt|Hge]; simpl.
  - destruct (zget_lt x i) as [u Hu]; [lia|]. rewrite (idx_in _ _ _ Hu). simpl.
    eexists. split; [done|]. split; [by exists u|]. intros (v & Hv & Hf). by simplify_eq.
  - exists false. split; [done|]. split; [done|]. intros (u & Hu%zget_Some_range & _). lia.
Qed.

(** [sort.Search] for the first element of an ordered slice not before a
    target. *)
Lemma sorted_search {E} (a : list E) (before test : E → bool) (lt0 : E → E → bool) :
  len a < 2 ^ 63 → sorted_in lt0 a 0 (len a) → (∀ u, test u = negb (before u)) →
  (∀ u v, le lt0 u v → before v = true → before u = true) →
  ∃ i, Search (len a) (λ i, y ← idx a i; mret (test y)) = Ok i ∧ 0 ≤ i ≤ len a ∧
    all_in (λ u, before u = true) a 0 i ∧ all_in (λ u, before u = false) a i (len a).
Proof.
  intros Ha Hs Ht Hmono.
  destruct (slice_search a before before Ha) as (i & Hi & Hr & H1 & H2 & _).
  { intros k l u v Hk Hkl Hl Hu Hv. destruct (decide (k = l)) as [->|]; [by simplify_eq|].
    apply Hmono. apply (Hs k l); (done || lia). }
  exists i. split; [|done]. rewrite <-Hi. unfold Search, search_loop. apply loop_ext.
  intros [i' j']. destruct (i' <? j'); [|done]. destruct (idx a _) as [y| |]; [|done..].
  simpl. by rewrite Ht, negb_involutive.
Qed.

(** The binary searches of package slices. *)
Lemma BinarySearch_spec {E} `{OrderedLaws E} (x : list E) (target : E) :
  len x < 2 ^ 63 → sorted_in Cmp.Less x 0 (len x) →
  ∃ i found, BinarySearch x target = Ok (i, found) ∧ 0 ≤ i ≤ len x ∧
    all_in (λ u, Cmp.Less u target = true) x 0 i ∧
    all_in (λ u, Cmp.Less u target = false) x i (len x) ∧
    (found = true ↔ ∃ u, u ∈ x ∧ Compare u target = 0).
Proof.
  intros Hmax Hsorted.
  destruct (slice_search x (λ y, Cmp.Less y target)
    (λ y, ord_eq y target || (isNaN y && isNaN target)) Hmax)
    as (i & Hs & Hi & Hl & Hr & found & Hf & Hfound).
  { intros k l u v Hk Hkl Hl Hu Hv Hlt. destruct (decide (k = l)) as [->|]; [by simplify_eq|].
    apply (le_lt_trans Cmp.Less u v); [apply (Hsorted k l); (done || lia)|done]. }
  assert (∀ u, Cmp.Less u target = false →
    (ord_eq u target || (isNaN u && isNaN target) = true ↔ Compare u target = 0)) as Heq.
  { intros u Hu. rewrite Compare_Less, Hu. unfold Cmp.Less in *.
    destruct (isNaN u) eqn:Hnu, (isNaN target) eqn:Hnt; simpl in *.
    - destruct (ord_nan u target Hnu) as (_ & -> & _). by rewrite orb_true_r.
    - done.
    - destruct (ord_nan target u Hnt) as (_ & _ & _ & ->). done.
    - rewrite (ord_eq_lt u target), Hu by done. by destruct (ord_lt target u). }
  exists i, found. unfold BinarySearch. rewrite Hs. cbn [mbind res_bind]. rewrite Hf.
  split_and!; [done|lia|lia|done|done|]. rewrite Hfound. split.
  + intros (u & Hu & Hm). exists u. split; [by eapply zget_elem_of|].
    apply Heq; [|done]. pose proof (zget_Some_range _ _ _ Hu). apply (Hr i); (done || lia).
  + intros (u & (k & Hk)%elem_of_zget & Hc). pose proof (zget_Some_range _ _ _ Hk).
    assert (Cmp.Less u target = false ∧ Cmp.Less target u = false) as [Hlt1 Hge].
    { rewrite Compare_Less in Hc. destruct (Cmp.Less u target), (Cmp.Less target u); done. }
    assert (i ≤ k) as Hik.
    { destruct (decide (i ≤ k)); [done|]. pose proof (Hl k u ltac:(lia) Hk). simpl in *. congruence. }
    destruct (zget_lt x i) as [w Hw]; [lia|]. exists w. split; [done|].
    pose proof (Hr i w ltac:(lia) Hw) as Hwt. simpl in Hwt. apply Heq; [done|].
    rewrite Compare_Less, Hwt. destruct (decide (i = k)) as [->|]; [simplify_eq; by rewrite Hge|].
    assert (le Cmp.Less w u) as Hwu by (apply (Hsorted i k); (done || lia)).
    assert (le Cmp.Less w target) as Hle by (by apply (le_trans Cmp.Less w u)).
    unfold le in Hle. by rewrite Hle.
Qed.

Lemma BinarySearchFunc_spec {E T} (x : list E) (cmp : E → T → Z) (t : T) : len x < 2 ^ 63 →
  (∀ k l u v, 0 ≤ k → k ≤ l → l < len x → zget x k = Some u → zget x l = Some v →
    cmp u t ≤ cmp v t) →
  ∃ i found, BinarySearchFunc cmp x t = Ok (i, found) ∧ 0 ≤ i ≤ len x ∧
    all_in (λ u, cmp u t < 0) x 0 i ∧ all_in (λ u, 0 ≤ cmp u t) x i (len x) ∧
    (found = true ↔ ∃ u, u ∈ x ∧ cmp u t = 0).
Proof.
  intros Hmax Hmono.
  destruct (slice_search x (λ y, cmp y t <? 0) (λ y, cmp y t =? 0) Hmax)
    as (i & Hs & Hi & Hl & Hr & found & Hf & Hfound).
  { intros k l u v Hk1 Hk2 Hk3 Hk4 Hk5. rewrite !Z.ltb_lt.
    pose proof (Hmono k l u v Hk1 Hk2 Hk3 Hk4 Hk5). lia. }
  exists i, found. unfold BinarySearchFunc. rewrite Hs. cbn [mbind res_bind]. rewrite Hf.
  split_and!; [done|lia|lia| | |].
  + eapply all_in_impl; [done|]. intros u. simpl. by rewrite Z.ltb_lt.
  + eapply all_in_impl; [done|]. intros u. simpl. by rewrite Z.ltb_ge.
  + rewrite Hfound. split.
    * intros (u & Hu & Hm%Z.eqb_eq). exists u. split; [by eapply zget_elem_of|done].
    * intros (u & (k & Hk)%elem_of_zget & Hc). pose proof (zget_Some_range _ _ _ Hk).
      assert (i ≤ k) as Hik.
      { destruct (decide (i ≤ k)); [done|]. pose proof (Hl k u ltac:(lia) Hk) as Hlt. simpl in Hlt.
        apply Z.ltb_lt in Hlt. lia. }
      destruct (zget_lt x i) as [w Hw]; [lia|]. exists w. split; [done|].
      pose proof (Hr i w ltac:(lia) Hw) as Hwt. simpl in Hwt. apply Z.ltb_ge in Hwt.
      specialize (Hmono i k w u ltac:(lia) Hik ltac:(lia) Hw Hk). apply Z.eqb_eq. lia.
Qed.

(** C9: [sort.Search(n, f)] calls [f] only on [0, n), never overflows its
    midpoint and returns some [i] in [0, n] with [f(i-1)] false and [f(i)] true
    (where those exist); if [f] is monotone that is the smallest index at which it
    is true, or [n]. [sort.Find] likewise returns the smallest index at which
    [cmp <= 0], and whether [cmp] is 0 there. On a slice in [cmp.Less] order [slices.BinarySearch] returns the number
    of elements before the target, which is the earliest position of an element
    equal to it, and reports whether there is one (a NaN target finds NaNs).
    [slices.BinarySearchFunc] does the same for a comparison function whose
    negative results form a prefix. [sort.SearchInts] and [sort.SearchStrings]
    return the same position on ordered slices. *)
Theorem Search_BinarySearch_correct : ∀ (E : Type) (ops : Ordered E), OrderedLaws E →
  ∀ (x : list E) (target : E), len x < 2 ^ 63 → sorted_in Cmp.Less x 0 (len x) →
  (∃ i found, BinarySearch x target = Ok (i, found) ∧ 0 ≤ i ≤ len x ∧
    all_in (λ u, Cmp.Less u target = true) x 0 i ∧
    all_in (λ u, Cmp.Less u target = false) x i (len x) ∧
    (found = true ↔ ∃ u, u ∈ x ∧ Compare u target = 0)) ∧
  (∀ (T : Type) (cmp : E → T → Z) (t : T),
    (∀ k l u v, 0 ≤ k → k ≤ l → l < len x → zget x k = Some u → zget x l = Some v →
      cmp u t ≤ cmp v t) →
    ∃ i found, BinarySearchFunc cmp x t = Ok (i, found) ∧ 0 ≤ i ≤ len x ∧
      all_in (λ u, cmp u t < 0) x 0 i ∧ all_in (λ u, 0 ≤ cmp u t) x i (len x) ∧
      (found = true ↔ ∃ u, u ∈ x ∧ cmp u t = 0)) ∧
  (∀ (a : list Z) (t : Z), len a < 2 ^ 63 → sorted_in Z.ltb a 0 (len a) →
    ∃ i, SearchInts a t = Ok i ∧ 0 ≤ i ≤ len a ∧
      all_in (λ u, u < t) a 0 i ∧ all_in (λ u, t ≤ u) a i (len a)) ∧
  (∀ (a : list (list Z)) (t : list Z), len a < 2 ^ 63 → sorted_in string_lt a 0 (len a) →
    ∃ i, SearchStrings a t = Ok i ∧ 0 ≤ i ≤ len a ∧
      all_in (λ u, string_lt u t = true) a 0 i ∧ all_in (λ u, string_lt u t = false) a i (len a)) ∧
  (∀ (n : Z) (f : Z → res bool) (F : Z → bool)
    (cmp : Z → res Z) (C : Z → Z),
  0 ≤ n < 2 ^ 63 → (∀ h, 0 ≤ h < n → f h = Ok (F h)) → (∀ h, 0 ≤ h < n → cmp h = Ok (C h)) →
    (∃ i, Search n f = Ok i ∧ 0 ≤ i ≤ n ∧ (0 < i → F (i - 1) = false) ∧ (i < n → F i = true) ∧
      ((∀ k l, 0 ≤ k → k ≤ l → l < n → F k = true → F l = true) →
        ∀ k, 0 ≤ k < n → (F k = true ↔ i ≤ k))) ∧
    (∃ i found, Find n cmp = Ok (i, found) ∧ 0 ≤ i ≤ n ∧
      ((∀ k l, 0 ≤ k → k ≤ l → l < n → C l ≤ C k) →
        (∀ k, 0 ≤ k < n → (C k ≤ 0 ↔ i ≤ k)) ∧
        (found = true ↔ ∃ k, 0 ≤ k < n ∧ C k = 0)))).
Proof.
  intros E ops Hlaws x target Hmax Hsorted.
  split_and!; [by apply BinarySearch_spec|intros; by apply BinarySearchFunc_spec|..].
  - intros a t Ha Hs.
    destruct (sorted_search a (λ u, u <? t) (λ u, t <=? u) Z.ltb Ha Hs) as (i & Hi & Hr & H1 & H2).
    { intros u. zcases; lia. }
    { intros u v. unfold le. rewrite Z.ltb_ge, !Z.ltb_lt. lia. }
    exists i. split_and!; [done|lia|lia|..]; (eapply all_in_impl; [done|]; intros u; simpl;
      rewrite ?Z.ltb_lt, ?Z.ltb_ge; done).
  - intros a t Ha Hs.
    destruct (sorted_search a (λ u, string_lt u t) (λ u, negb (string_lt u t)) string_lt Ha Hs)
      as (i & Hi & Hr & H1 & H2); [done| |by exists i].
    intros u v Hle Hv. apply not_false_iff_true. intros Hu.
    pose proof (ord_negtrans (T := list Z) v u t) as Hn. unfold isNaN in Hn. simpl in Hn.
    rewrite !string_eq_spec, !bool_decide_eq_true_2 in Hn by done.
    unfold le in Hle. by rewrite Hn in Hv.
  - apply Search_Find_spec.
Qed.

Lemma Search_BinarySearch_correct_witness :
  (∃ i, Search 100 (λ h, Ok (30 <=? h)) = Ok i ∧ 0 ≤ i ≤ 100) ∧
  ∃ i, BinarySearch [1; 3; 3; 7] 3 = Ok (i, true) ∧ 0 ≤ i ≤ 4.
Proof.
  split.
  { destruct (Search_BinarySearch_correct Z Z_ordered Z_ordered_laws [] 3 ltac:(done))
      as (_ & _ & _ & _ & H); [clear; intros i j x y _ _ _ Hi; by rewrite zget_nil in Hi|].
    destruct (H 100 (λ h, Ok (30 <=? h)) (λ h, 30 <=? h) (λ h, Ok 0) (λ _, 0)) as [(i & Hi & Hr & _) _];
      [done..|]. by exists i. }
  destruct (Search_BinarySearch_correct Z Z_ordered Z_ordered_laws [1; 3; 3; 7] 3 ltac:(done))
    as [(i & found & Hb & Hi & _ & _ & Hf) _].
  - destruct (slices_IsSorted_eq [1; 3; 3; 7]).
    destruct (@IsSorted_spec (list Z) Z ordered_slice ordered_laws Less_swo [1; 3; 3; 7]) as (c & Hc & Hs).
    vm_compute in Hc. injection Hc as <-. by apply Hs.
  - exists i. rewrite Hb. split; [|done]. repeat f_equal. apply Hf. exists 3.
    split; [by apply list_elem_of_In; right; left|done].
Defined.


(** ** Stable sorting *)

Lemma Stable_spec {D E} (S : SortInterface D) (L : @SortLaws D E S) data :
  StrictWeakOrder lt → len (view data) < 2 ^ 61 →
  ∃ data', stable data (len (view data)) = Ok data' ∧ sorted_perm lt (view data) (view data') ∧
    keeps_order lt (view data) (view data').
Proof.
  intros Hswo Hmax.
  pose proof (stable_spec data (len (view data)) eq_refl Hmax) as (data' & Hs & [[Hp Hk] Hsorted])%wp_exists.
  exists data'. split; [done|]. split; [|done]. split; [by eapply perm_in_Permutation|].
  by rewrite (perm_in_len _ _ _ _ Hp).
Qed.

(** C10: the stable sorts ([sort.Stable] on any Interface, [slices.SortStableFunc],
    [sort.SliceStable]) terminate without a panic and leave an ordered
    permutation in which elements that compare equal stand in their original
    order: insertion sort on blocks, then SymMerge with its symmetric binary
    search and block rotations. *)
Theorem Stable_correct : ∀ (E : Type) (cmp : E → E → Z),
  StrictWeakOrder (λ a b, cmp a b <? 0) →
  (∀ (D : Type) (S : SortInterface D) (L : @SortLaws D E S),
    @lt D E S L = (λ a b, cmp a b <? 0) → ∀ data : D, len (view data) < 2 ^ 61 →
    ∃ data', Stable data = Ok data' ∧
      sorted_perm (λ a b, cmp a b <? 0) (view data) (view data') ∧
      keeps_order (λ a b, cmp a b <? 0) (view data) (view data')) ∧
  (∀ (less : list E → Z → Z → res bool) (x : list E),
    less_of less (λ a b, cmp a b <? 0) → len x < 2 ^ 61 →
    (∃ y, SortStableFunc cmp x = Ok y ∧ sorted_perm (λ a b, cmp a b <? 0) x y ∧
      keeps_order (λ a b, cmp a b <? 0) x y) ∧
    (∃ y, SliceStable less x = Ok y ∧ sorted_perm (λ a b, cmp a b <? 0) x y ∧
      keeps_order (λ a b, cmp a b <? 0) x y)).
Proof.
  intros E cmp Hswo. split; [|intros less x Hless Hmax; split].
  - intros D S L Hlt data Hmax. unfold Stable. rewrite Len_view. rewrite <-Hlt in *.
    by apply Stable_spec.
  - apply (Stable_spec (cmp_slice cmp) (cmp_laws cmp) x Hswo Hmax).
  - apply (Stable_spec (lessSwap less) (less_laws less _ Hless) x Hswo Hmax).
Qed.

Lemma Stable_correct_witness :
  ∃ y, SortStableFunc (λ a b, a / 10 - b / 10) [23; 11; 21; 12; 10] = Ok y ∧
    filter (λ u, eqv (λ a b, a / 10 - b / 10 <? 0) 10 u = true) y = [11; 12; 10].
Proof.
  destruct (Stable_correct Z (λ a b, a / 10 - b / 10)) as [_ H].
  { split; intros *; rewrite ?Z.ltb_lt, ?Z.ltb_ge; lia. }
  destruct (H (λ x i j, u ← idx x i; v ← idx x j; mret (u / 10 - v / 10 <? 0)) [23; 11; 21; 12; 10])
    as [(y & Hy & _ & Hk) _].
  { intros x i j u v Hu Hv. by rewrite (idx_in _ _ _ Hu), (idx_in _ _ _ Hv). }
  { done. }
  exists y. split; [done|]. apply Hk.
Defined.

(** A slice type whose Less agrees with [cmp.Less]. *)
Section lt_slice.
Context {E : Type} `{OrderedLaws E} (lt0 : E → E → bool).

Definition lt_slice_laws (Hlt : ∀ u v, lt0 u v = Cmp.Less u v) :
  @SortLaws (list E) E (lt_slice lt0).
Proof.
  refine (slice_laws (lt_slice lt0) Cmp.Less eq_refl eq_refl _).
  intros x i j u v Hu Hv. simpl. rewrite (idx_in _ _ _ Hu), (idx_in _ _ _ Hv). simpl.
  by rewrite Hlt.
Defined.

Lemma lt_slice_Sort (x : list E) : (∀ u v, lt0 u v = Cmp.Less u v) → len x < 2 ^ 62 →
  ∃ y, Sort (H := lt_slice lt0) x = Ok y ∧ sorted_perm Cmp.Less x y.
Proof.
  intros Hlt Hmax.
  destruct (@Sort_spec (list E) E (lt_slice lt0) (lt_slice_laws Hlt) Less_swo x Hmax)
    as (y & Hy & Hp & Hs). by exists y.
Qed.

Lemma lt_slice_Stable (x : list E) : (∀ u v, lt0 u v = Cmp.Less u v) → len x < 2 ^ 61 →
  ∃ y, Stable (H := lt_slice lt0) x = Ok y ∧ sorted_perm Cmp.Less x y.
Proof.
  intros Hlt Hmax.
  destruct (Stable_spec (lt_slice lt0) (lt_slice_laws Hlt) x Less_swo Hmax)
    as (y & Hy & Hs & _). by exists y.
Qed.

Lemma slices_Sort_sorts (x : list E) : len x < 2 ^ 62 →
  ∃ y, slices_Sort x = Ok y ∧ sorted_perm Cmp.Less x y.
Proof.
  intros Hmax.
  destruct (entry_wp ordered_slice Cmp.Less ordered_laws x Less_swo eq_refl eq_refl Hmax)
    as (y & Hy & Hs). exists y. split; [exact Hy|done].
Qed.
End lt_slice.

(** C8: sorting slices. [slices.Sort] sorts every slice of an ordered type, integers,
    strings and floating-point numbers with NaNs (which come first) alike: it
    terminates without a panic with a permutation in which no element is
    [cmp.Less] than an earlier one; [slices.IsSorted] decides that order. The
    convenience types of sort.go, [IntSlice], [StringSlice] and [Float64Slice],
    implement the interface with the same order (for floats the explicit NaN test
    makes it that), so [Sort] and [Stable] on them, and [Ints], [Strings] and
    [Float64s], all leave an ordered permutation of the slice. [cmp.Less] is a
    strict weak ordering of every ordered type, NaNs included (below everything
    else, equal to each other), and [cmp.Compare] is its three-way form.
    [slices.SortFunc] and [sort.Slice] sort by the comparison they are given: if
    [cmp(a, b) < 0], respectively the closure [less], is a strict weak ordering of
    the elements, the result is an ordered permutation, and [slices.IsSortedFunc]
    and [sort.SliceIsSorted] accept exactly the ordered slices. *)
Theorem slices_Sort_correct :
  (∀ (E : Type) (ops : Ordered E), OrderedLaws E → ∀ x : list E, len x < 2 ^ 62 →
    (∃ y, slices_Sort x = Ok y ∧ sorted_perm Cmp.Less x y ∧ slices_IsSorted y = Ok true) ∧
    (∃ c, slices_IsSorted x = Ok c ∧ (c = true ↔ sorted_in Cmp.Less x 0 (len x)))) ∧
  (∀ (x : list Z) (s : list (list Z)) (f : list SpecFloat.spec_float),
    len x < 2 ^ 61 → len s < 2 ^ 61 → len f < 2 ^ 61 →
    (∃ y, Sort (H := IntSlice) x = Ok y ∧ sorted_perm Cmp.Less x y) ∧
    (∃ y, Sort (H := StringSlice) s = Ok y ∧ sorted_perm Cmp.Less s y) ∧
    (∃ y, Sort (H := Float64Slice) f = Ok y ∧ sorted_perm Cmp.Less f y) ∧
    (∃ y, Stable (H := Float64Slice) f = Ok y ∧ sorted_perm Cmp.Less f y) ∧
    (∃ y, Ints x = Ok y ∧ sorted_perm Cmp.Less x y) ∧
    (∃ y, Strings s = Ok y ∧ sorted_perm Cmp.Less s y) ∧
    (∃ y, Float64s f = Ok y ∧ sorted_perm Cmp.Less f y)) ∧
  (∀ (T : Type) (ops : Ordered T), OrderedLaws T →
    StrictWeakOrder (Cmp.Less (T := T)) ∧
    ∀ x y : T, Compare x y = (if Cmp.Less x y then -1 else if Cmp.Less y x then 1 else 0) ∧
      Compare y x = - Compare x y ∧
      (isNaN x = true → Cmp.Less x y = negb (isNaN y) ∧ Cmp.Less y x = false) ∧
      (isNaN x = false → isNaN y = false → (Compare x y = 0 ↔ ord_eq x y = true))) ∧
  (∀ (E : Type) (cmp : E → E → Z)
      (less : list E → Z → Z → res bool) (x : list E),
    StrictWeakOrder (λ a b, cmp a b <? 0) → less_of less (λ a b, cmp a b <? 0) →
    len x < 2 ^ 62 →
    (∃ y, slices_SortFunc cmp x = Ok y ∧ sorted_perm (λ a b, cmp a b <? 0) x y) ∧
    (∃ y, sort_Slice less x = Ok y ∧ sorted_perm (λ a b, cmp a b <? 0) x y) ∧
    (∃ c, slices_IsSortedFunc cmp x = Ok c ∧ SliceIsSorted less x = Ok c ∧
      (c = true ↔ sorted_in (λ a b, cmp a b <? 0) x 0 (len x)))).
Proof.
  split; [intros; by apply slices_Sort_spec|]. split; [|split; [exact cmp_Compare_spec|exact SortFunc_Slice_sorts]].
  intros x s f Hx Hs Hf. assert (2 ^ 61 < 2 ^ 62) as Hlt by done.
  split_and!.
  - apply (lt_slice_Sort ord_lt x); [|lia]. intros u v. unfold Cmp.Less, isNaN. simpl.
    by rewrite !Z.eqb_refl.
  - apply (lt_slice_Sort ord_lt s); [|lia]. intros u v. unfold Cmp.Less, isNaN. simpl.
    by rewrite !string_eq_spec, !bool_decide_eq_true_2.
  - apply (lt_slice_Sort _ f); [|lia]. intros u v. apply orb_comm.
  - apply (lt_slice_Stable _ f); [|lia]. intros u v. apply orb_comm.
  - apply slices_Sort_sorts. lia.
  - apply slices_Sort_sorts. lia.
  - apply slices_Sort_sorts. lia.
Qed.

Lemma slices_Sort_correct_witness :
  (∃ y, slices_Sort [SpecFloat.S754_finite false 1 0; SpecFloat.S754_nan; SpecFloat.S754_zero true] = Ok y ∧
    sorted_perm Cmp.Less
      [SpecFloat.S754_finite false 1 0; SpecFloat.S754_nan; SpecFloat.S754_zero true] y) ∧
  (∃ y, Sort (H := StringSlice) [[98]; [97; 98]; [97]] = Ok y ∧
    sorted_perm Cmp.Less [[98]; [97; 98]; [97]] y) ∧
  (∃ y, slices_SortFunc (λ a b, a mod 10 - b mod 10) [13; 22; 31] = Ok y ∧
    sorted_perm (λ a b, a mod 10 - b mod 10 <? 0) [13; 22; 31] y).
Proof.
  destruct slices_Sort_correct as (H1 & H2 & _ & H4). split; [|split].
  - destruct (H1 SpecFloat.spec_float float_ordered float_ordered_laws
      [SpecFloat.S754_finite false 1 0; SpecFloat.S754_nan; SpecFloat.S754_zero true]
      ltac:(done)) as [(y & Hy & Hs & _) _]. by exists y.
  - destruct (H2 [] [[98]; [97; 98]; [97]] []) as (_ & ? & _); done.
  - apply (H4 Z (λ a b, a mod 10 - b mod 10)
      (λ x i j, u ← idx x i; v ← idx x j; mret (u mod 10 - v mod 10 <? 0)) [13; 22; 31]).
    + split; intros *; rewrite ?Z.ltb_lt, ?Z.ltb_ge; lia.
    + intros x i j u v Hu Hv. by rewrite (idx_in _ _ _ Hu), (idx_in _ _ _ Hv).
    + done.
Defined.
