(* ===== verification/Heap.v ===== *)
(** * container/heap

    The heap operations over any [heap.Interface]: a sorting interface with
    [Push] and [Pop] at the end. The invariant, that no element is less than
    its parent, is established by [Init] and kept by [Push], [Pop], [Remove]
    and [Fix]. *)

From S2P Require Import Prelude Sort SortSpec SortProofs SortVariants SortProps.

Class HeapInterface (D X : Type) `{SortInterface D} := {
  h_Push : D → X → res D;
  h_Pop : D → res (D * X);
}.

Section operations.
  Context {D X : Type} `{HeapInterface D X}.
  Implicit Types (h : D).

Definition up h (j : Z) : res D :=
  loop (fuel_of j) (λ '(h, j),
    let i := (j - 1) ÷ 2 in
    c ← (if i =? j then mret true else notM (Less h j i));
    if c : bool then mret (inr h) else
    h ← Swap h i j;
    mret (inl (h, i))) (h, j).

Definition down h (i0 n : Z) : res (D * bool) :=
  '(h, i) ← loop (fuel_of (n - i0)) (λ '(h, i),
    let j1 := i64 (2 * i + 1) in
    if (n <=? j1) || (j1 <? 0) then mret (inr (h, i)) else
    let j2 := j1 + 1 in
    c ← andM (j2 <? n) (Less h j2 j1);
    let j := if c : bool then j2 else j1 in
    c ← Less h j i;
    if negb c then mret (inr (h, i)) else
    h ← Swap h i j;
    mret (inl (h, j))) (h, i0);
  mret (h, i0 <? i).

Definition Init h : res D :=
  let n := Len h in
  loop (fuel_of n) (λ '(h, i),
    if 0 <=? i then
      '(h, _) ← down h i n;
      mret (inl (h, i - 1))
    else mret (inr h)) (h, n ÷ 2 - 1).

Definition Push h (x : X) : res D :=
  h ← h_Push h x;
  up h (Len h - 1).

Definition Pop h : res (D * X) :=
  let n := Len h - 1 in
  h ← Swap h 0 n;
  '(h, _) ← down h 0 n;
  h_Pop h.

Definition Remove h (i : Z) : res (D * X) :=
  let n := Len h - 1 in
  h ← (if negb (n =? i) then
    h ← Swap h i n;
    '(h, moved) ← down h i n;
    if negb moved then up h i else mret h
  else mret h);
  h_Pop h.

Definition Fix h (i : Z) : res D :=
  '(h, moved) ← down h i (Len h);
  if negb moved then up h i else mret h.
End operations.

(** The contract of [heap.Interface]. *)
Class HeapLaws (D X : Type) `{HeapInterface D X} := {
  heap_sort_laws :: SortLaws D X;
  Push_view h x : ∃ h', h_Push h x = Ok h' ∧ view h' = view h ++ [x];
  Pop_view h l x : view h = l ++ [x] → ∃ h', h_Pop h = Ok (h', x) ∧ view h' = l;
}.

(** ** The heap invariant *)

Section invariant.
Context {X : Type} (lt : X → X → bool) `{!StrictWeakOrder lt}.
Implicit Types (l : list X).

Abbreviation parent c := ((c - 1) / 2).

(** The element at [c] is not less than its parent. *)
Definition edge_ok l c : Prop := ∀ x y,
  zget l (parent c) = Some x → zget l c = Some y → le lt x y.

(** The first [n] elements form a heap, below the positions [lo]. *)
Definition heap_from l lo n : Prop := ∀ c, 0 < c < n → lo ≤ parent c → edge_ok l c.

(** A heap but for the element at [i]: its children fit below its parent. *)
Definition hole l lo n i : Prop :=
  (∀ c, 0 < c < n → lo ≤ parent c → c ≠ i → parent c ≠ i → edge_ok l c) ∧
  (0 < i → lo ≤ parent i → ∀ c x y, 0 < c < n → parent c = i →
    zget l (parent i) = Some x → zget l c = Some y → le lt x y).

Lemma hole_filled l lo n i : hole l lo n i →
  (∀ c, 0 < c < n → parent c = i → edge_ok l c) →
  (0 < i < n → lo ≤ parent i → edge_ok l i) → heap_from l lo n.
Proof.
  intros [H1 _] Hc Hi c Hcn Hlo. destruct (decide (parent c = i)); [by apply Hc|].
  destruct (decide (c = i)) as [->|]; [by apply Hi|by apply H1].
Qed.

(** The hole moves down to the least child [j] of [i]. *)
Lemma hole_down l l' lo n i j x y : hole l lo n i → 0 ≤ lo ≤ i → 0 < j < n → parent j = i →
  n ≤ len l → zget l i = Some x → zget l j = Some y → lt y x = true →
  (∀ c z, 0 < c < n → parent c = i → zget l c = Some z → le lt y z) →
  (∀ k, zget l' k = if decide (k = i) then Some y else if decide (k = j) then Some x else zget l k) →
  hole l' lo n j ∧ edge_ok l' j.
Proof.
  intros [H1 H2] Hi Hj Hpj Hn Hx Hy Hlt Hmin Hk. assert (i < j) by dlia. split.
  - split.
    + intros c Hc Hlo Hcj Hpc u v. rewrite !Hk.
      destruct (decide (parent c = i)) as [Epc|Epc].
      * rewrite (decide_False (P := c = i)) by dlia. rewrite decide_False by done.
        intros [= <-]. by apply (Hmin c).
      * rewrite (decide_False (P := parent c = j)) by done.
        destruct (decide (c = i)) as [->|Eci].
        -- intros Hu [= <-]. apply (H2 ltac:(lia) Hlo j); done.
        -- rewrite decide_False by done. by apply H1.
    + intros _ _ c u v Hc Hpc. rewrite !Hk, Hpj, decide_True by done.
      rewrite !decide_False by dlia. intros [= <-] Hv.
      assert (edge_ok l c) as He by (apply H1; dlia). apply He; [by rewrite Hpc|done].
  - intros u v. rewrite !Hk, Hpj, decide_True by done.
    rewrite decide_False, decide_True by lia. intros [= <-] [= <-]. by apply lt_le.
Qed.

(** The hole moves up to its parent [i]; its children stay below it. *)
Lemma hole_up l l' n i j x y : hole l 0 n j → 0 < j < n → i = parent j →
  (∀ c, 0 < c < n → parent c = j → edge_ok l c) → n ≤ len l →
  zget l i = Some x → zget l j = Some y → lt y x = true →
  (∀ k, zget l' k = if decide (k = i) then Some y else if decide (k = j) then Some x else zget l k) →
  hole l' 0 n i ∧ (∀ c, 0 < c < n → parent c = i → edge_ok l' c).
Proof.
  intros [H1 H2] Hj -> Hch Hn Hx Hy Hlt Hk. assert (parent j < j) by dlia.
  assert (∀ c z, 0 < c < n → parent c = parent j → c ≠ j → zget l c = Some z → le lt x z) as Hsib.
  { intros c z Hc Hpc Hcj Hz. assert (edge_ok l c) as He by (apply H1; dlia).
    apply He; [by rewrite Hpc|done]. }
  split.
  - split.
    + intros c Hc _ Hci Hpc u v. rewrite !Hk.
      rewrite (decide_False (P := parent c = parent j)) by done.
      rewrite (decide_False (P := c = parent j)) by done.
      destruct (decide (parent c = j)) as [Epj|Epj].
      * rewrite decide_False by dlia. intros [= <-] Hv.
        apply (H2 ltac:(lia) ltac:(dlia) c); done.
      * destruct (decide (c = j)) as [->|]; [done|]. apply H1; (done || dlia).
    + intros Hi0 _ c u v Hc Hpc. rewrite !Hk.
      rewrite !(decide_False (P := parent (parent j) = _)) by dlia.
      rewrite (decide_False (P := c = parent j)) by dlia. intros Hu.
      assert (edge_ok l (parent j)) as He by (apply H1; dlia). specialize (He u x Hu Hx).
      destruct (decide (c = j)) as [->|Hcj]; [by intros [= <-]|]. intros Hv.
      apply (le_trans lt u x); [done|by apply (Hsib c)].
  - intros c Hc Hpc u v. rewrite !Hk, Hpc, decide_True by done.
    rewrite (decide_False (P := c = parent j)) by dlia. intros [= <-].
    destruct (decide (c = j)) as [->|Hcj]; [intros [= <-]; by apply lt_le|]. intros Hv.
    apply (le_trans lt y x); [by apply lt_le|by apply (Hsib c)].
Qed.

(** The first element of a heap is a least one. *)
Lemma heap_min l n k x y : heap_from l 0 n → n ≤ len l → 0 ≤ k < n →
  zget l 0 = Some x → zget l k = Some y → le lt x y.
Proof.
  intros Hh Hn. revert y. induction k as [k IH] using (well_founded_induction (Z.lt_wf 0)).
  intros y Hk Hx Hy. destruct (decide (k = 0)) as [->|]; [simplify_eq; by apply le_refl|].
  destruct (zget_lt l (parent k)) as [z Hz]; [dlia|].
  apply (le_trans lt x z); [apply (IH (parent k)); (done || dlia)|].
  by apply (Hh k ltac:(lia) ltac:(dlia)).
Qed.
End invariant.


(** ** The operations *)

Section correctness.
Context {D X : Type} `{HeapLaws D X} `{!StrictWeakOrder lt}.
Implicit Types (h : D).

(** [2*i+1] either is right or has wrapped to a negative number. *)
Lemma left_child i n : 0 ≤ i < 2 ^ 63 → n < 2 ^ 63 →
  ((n <=? i64 (2 * i + 1)) || (i64 (2 * i + 1) <? 0) = true ∧ n ≤ 2 * i + 1) ∨
  ((n <=? i64 (2 * i + 1)) || (i64 (2 * i + 1) <? 0) = false ∧ 2 * i + 1 < n ∧
    i64 (2 * i + 1) = 2 * i + 1).
Proof.
  intros Hi Hn. destruct (decide (2 * i + 1 < 2 ^ 63)) as [Hs|Hs].
  - rewrite i64_small by (pow2_consts; lia).
    destruct (Z.leb_spec n (2 * i + 1)); [left|right]; simpl; [done|].
    rewrite (proj2 (Z.ltb_ge (2 * i + 1) 0)) by lia. split; [done|lia].
  - left. split; [|lia].
    assert (i64 (2 * i + 1) = 2 * i + 1 - 2 ^ 64) as ->.
    { unfold swrap. change (64 - 1) with 63. pow2_consts. dlia. }
    apply orb_true_iff. right. apply Z.ltb_lt. pow2_consts. lia.
Qed.

(** The child that [down] compares with: a least one. *)
Lemma wp_least_child {R} h i n (K : Z → res R) Q :
  0 ≤ i → 2 * i + 1 < n → n ≤ len (view h) →
  (∀ j y, 0 < j < n → (j - 1) / 2 = i → zget (view h) j = Some y →
    (∀ c z, 0 < c < n → (c - 1) / 2 = i → zget (view h) c = Some z → le lt y z) →
    wp (K j) Q) →
  wp (c ← andM (2 * i + 1 + 1 <? n) (Less h (2 * i + 1 + 1) (2 * i + 1));
      let j := if c : bool then 2 * i + 1 + 1 else 2 * i + 1 in K j) Q.
Proof.
  intros Hi Hn Hlen HK.
  assert (∀ c, 0 < c → (c - 1) / 2 = i → c = 2 * i + 1 ∨ c = 2 * i + 1 + 1) as Hch.
  { intros c ??. dlia. }
  destruct (zget_lt (view h) (2 * i + 1)) as [x Hx]; [lia|].
  destruct (Z.ltb_spec (2 * i + 1 + 1) n); simpl.
  - apply wp_bind. apply wp_Less; [lia..|]. intros y x' Hy Hx'. simplify_eq.
    destruct (lt y x) eqn:Hyx.
    + apply (HK _ y); [lia|dlia|done|]. intros c z Hc Hpc Hz.
      destruct (Hch c ltac:(lia) Hpc) as [-> | ->]; simplify_eq; [by apply lt_le|by apply le_refl].
    + apply (HK _ x); [lia|dlia|done|]. intros c z Hc Hpc Hz.
      destruct (Hch c ltac:(lia) Hpc) as [-> | ->]; simplify_eq; [by apply le_refl|done].
  - apply (HK _ x); [lia|dlia|done|]. intros c z Hc Hpc Hz.
    destruct (Hch c ltac:(lia) Hpc) as [-> | ->]; simplify_eq; [by apply le_refl|lia].
Qed.

Lemma down_spec h lo i0 n : 0 ≤ lo ≤ i0 → i0 < 2 ^ 63 → n ≤ len (view h) → n < 2 ^ 63 →
  hole lt (view h) lo n i0 →
  wp (down h i0 n) (λ '(h', moved), perm_in 0 n (view h) (view h') ∧
    if moved : bool then heap_from lt (view h') lo n
    else h' = h ∧ ∀ c, 0 < c < n → (c - 1) / 2 = i0 → edge_ok lt (view h) c).
Proof.
  intros Hlo Hi0 Hn Hmax Hhole. unfold down. apply wp_bind. eapply wp_mono.
  { apply (wp_loop (λ '(h', i), perm_in 0 n (view h) (view h') ∧ i0 ≤ i ∧ (i = i0 ∨ i < n) ∧
      hole lt (view h') lo n i ∧ (i = i0 → h' = h) ∧ (i0 < i → edge_ok lt (view h') i))
      (λ '(_, i), Z.max 0 (n - i)) _ _ _
      (λ '(h', i), perm_in 0 n (view h) (view h') ∧ i0 ≤ i ∧
        hole lt (view h') lo n i ∧ (i = i0 → h' = h) ∧ (i0 < i → edge_ok lt (view h') i) ∧
        ∀ c, 0 < c < n → (c - 1) / 2 = i → edge_ok lt (view h') c)).
    - split; [apply perm_in_refl|]. split; [lia|]. split; [by left|]. split; [done|].
      split; [done|]. intros; lia.
    - intros [h' i]. lia.
    - unfold fuel_of. lia.
    - intros [h' i] (Hp & Hi & Hin & Hh & Hsame & Hedge). pose proof (perm_in_len _ _ _ _ Hp) as Hl.
      destruct (left_child i n) as [[-> Hge]|(-> & Hlt & E)]; [lia|lia| |].
      { simpl. split_and!; try done. intros c Hc Hpc. dlia. }
      rewrite E. apply (wp_least_child h' i n (λ j, c ← Less h' j i;
        if negb c then mret (inr (h', i)) else h ← Swap h' i j; mret (inl (h, j))));
        [lia|lia|lia|]. intros j y Hj Hpj Hy Hmin.
      destruct (zget_lt (view h') i) as [x Hx]; [dlia|].
      apply wp_bind. apply wp_Less; [lia|dlia|]. intros y' x' Hy' Hx'. simplify_eq.
      destruct (lt y x) eqn:Hyx; simpl.
      + apply wp_bind. apply (wp_Swap_in 0 n); [lia|lia|dlia|lia|].
        intros h'' x' y' Hx' Hy' Hp' Hl' Hget. simplify_eq. simpl.
        destruct (hole_down lt (view h') (view h'') lo n ((j - 1) / 2) j x y) as [Hh'' He''];
          try done; try lia.
        split; [|dlia]. split; [by eapply perm_in_trans|]. split; [dlia|]. split; [lia|].
        split; [done|]. split; [intros; dlia|done].
      + split_and!; try done. intros c Hc Hpc u v Hu Hv. rewrite Hpc in Hu. simplify_eq.
        apply (le_trans lt x y); [done|by apply (Hmin c)]. }
  intros [h' i] (Hp & Hi & Hh & Hsame & Hedge & Hch). simpl. split; [done|].
  destruct (Z.ltb_spec i0 i).
  - eapply hole_filled; [done|done|]. intros _ _. by apply Hedge.
  - assert (i = i0) as -> by lia. rewrite Hsame in Hch by done. split; [by apply Hsame|done].
Qed.

Lemma up_spec h j n : 0 ≤ j < n → n ≤ len (view h) → hole lt (view h) 0 n j →
  (∀ c, 0 < c < n → (c - 1) / 2 = j → edge_ok lt (view h) c) →
  wp (up h j) (λ h', perm_in 0 n (view h) (view h') ∧ heap_from lt (view h') 0 n).
Proof.
  intros Hj Hn Hhole Hch. unfold up.
  apply (wp_loop (λ '(h', j), perm_in 0 n (view h) (view h') ∧ 0 ≤ j < n ∧
    hole lt (view h') 0 n j ∧ (∀ c, 0 < c < n → (c - 1) / 2 = j → edge_ok lt (view h') c))
    (λ '(_, j), j)).
  - split; [apply perm_in_refl|done].
  - intros [h' j']. lia.
  - unfold fuel_of. lia.
  - clear j Hj Hhole Hch. intros [h' j] (Hp & Hj & Hh & Hch).
    pose proof (perm_in_len _ _ _ _ Hp) as Hl.
    destruct (decide (j = 0)) as [->|Hj0].
    { change ((0 - 1) ÷ 2 =? 0) with true. simpl. split; [done|].
      eapply hole_filled; [done|done|]. intros; lia. }
    rewrite (Z.quot_div_nonneg (j - 1) 2) by lia.
    rewrite (proj2 (Z.eqb_neq _ _)) by dlia. unfold notM. apply wp_bind, wp_bind.
    apply wp_Less; [lia|dlia|]. intros y x Hy Hx. simpl. destruct (lt y x) eqn:Hyx; simpl.
    + apply wp_bind. apply (wp_Swap_in 0 n); [lia|lia|dlia|lia|].
      intros h'' x' y' Hx' Hy' Hp' Hl' Hget. simplify_eq. simpl.
      destruct (hole_up lt (view h') (view h'') n ((j - 1) / 2) j x y) as [Hh'' Hch''];
        try done; try lia.
      split; [|dlia]. split; [by eapply perm_in_trans|]. split; [dlia|]. done.
    + split; [done|]. eapply hole_filled; [done|done|].
      intros _ _ u v Hu Hv. by simplify_eq.
Qed.

(** Restoring a heap with a hole: [down], and if nothing moved, [up]. *)
Lemma fix_spec h i n : 0 ≤ i < n → n ≤ len (view h) → n < 2 ^ 63 → hole lt (view h) 0 n i →
  wp ('(h, moved) ← down h i n; if negb moved then up h i else mret h)
    (λ h', perm_in 0 n (view h) (view h') ∧ heap_from lt (view h') 0 n).
Proof.
  intros Hi Hn Hmax Hh. apply wp_bind. eapply wp_mono; [apply (down_spec h 0); (done || lia)|].
  intros [h' [|]] [Hp Hd]; simpl; [done|]. destruct Hd as [-> Hch].
  by apply up_spec.
Qed.

(** The first [n] elements of a heap, with the element at [i] replaced. *)
Lemma hole_replaced l l' n i : heap_from lt l 0 (n + 1) → n < len l → 0 ≤ i < n →
  (∀ k, 0 ≤ k < n → k ≠ i → zget l' k = zget l k) → hole lt l' 0 n i.
Proof.
  intros Hh Hn Hi Hk. split.
  - intros c Hc Hlo Hci Hpc u v. rewrite !Hk by dlia. apply Hh; [lia|done].
  - intros Hi0 Hlo c u v Hc Hpc. rewrite !Hk by dlia. intros Hu Hv.
    destruct (zget_lt l i) as [z Hz]; [lia|].
    apply (le_trans lt u z).
    + by apply (Hh i ltac:(lia) ltac:(dlia)).
    + assert (edge_ok lt l c) as He by (apply Hh; dlia). apply He; [by rewrite Hpc|done].
Qed.
End correctness.


(** ** Properties *)

Section properties.
Context {D X : Type} `{HeapLaws D X} `{!StrictWeakOrder lt}.
Implicit Types (h : D).

(** The documented invariant of container/heap. *)
Definition heap_inv h : Prop := heap_from lt (view h) 0 (len (view h)).

Lemma split_last (v : list X) n x : len v = n + 1 → zget v n = Some x →
  ∃ l, v = l ++ [x] ∧ len l = n.
Proof.
  intros Hlen Hx. pose proof (zget_Some_range _ _ _ Hx).
  destruct v as [|y v _] using rev_ind; [by rewrite len_nil in *; lia|].
  rewrite len_app, len_cons, len_nil in Hlen. exists v.
  assert (n = len v) as -> by lia. rewrite zget_mid in Hx. by simplify_eq.
Qed.

Lemma heap_from_app l s n : n ≤ len l → heap_from lt (l ++ s) 0 n ↔ heap_from lt l 0 n.
Proof.
  intros Hn. split; intros Hh c Hc Hlo u v.
  - intros Hu Hv. apply (Hh c Hc Hlo); rewrite zget_app_l by dlia; done.
  - rewrite !zget_app_l by dlia. by apply Hh.
Qed.

(** [h.Pop()] after the element to return was moved to the end. *)
Lemma h_Pop_spec h n x (v0 : list X) : view h ≡ₚ v0 → len (view h) = n + 1 →
  zget (view h) n = Some x → heap_from lt (view h) 0 n →
  ∃ h', h_Pop h = Ok (h', x) ∧ x :: view h' ≡ₚ v0 ∧ heap_inv h'.
Proof.
  intros Hperm Hlen Hx Hh. destruct (split_last _ _ _ Hlen Hx) as (l & El & Hl).
  destruct (Pop_view h l x El) as (h' & Hpop & Ev). exists h'. split; [done|].
  unfold heap_inv. rewrite Ev. split.
  - rewrite <-Hperm, El. by rewrite <-Permutation_cons_append.
  - rewrite El in Hh. rewrite Hl. eapply heap_from_app; [|done]. lia.
Qed.

Lemma Init_spec h : len (view h) < 2 ^ 63 →
  wp (Init h) (λ h', perm_in 0 (len (view h)) (view h) (view h') ∧
    heap_from lt (view h') 0 (len (view h))).
Proof.
  intros Hmax. unfold Init. rewrite Len_view. set (n := len (view h)).
  pose proof (len_nonneg (view h)). assert (0 ≤ n) by done.
  assert (n ÷ 2 = n / 2) as -> by (apply Z.quot_div_nonneg; lia).
  apply (wp_loop (λ '(h', i), perm_in 0 n (view h) (view h') ∧ -1 ≤ i < n ∧
    heap_from lt (view h') (i + 1) n) (λ '(_, i), i + 1)).
  - split; [apply perm_in_refl|]. split; [dlia|]. intros c Hc Hlo. dlia.
  - intros [h' i]. lia.
  - unfold fuel_of. dlia.
  - intros [h' i] (Hp & Hi & Hh). pose proof (perm_in_len _ _ _ _ Hp) as Hl.
    destruct (Z.leb_spec 0 i); simpl.
    + apply wp_bind. eapply wp_mono.
      { apply (down_spec h' i i n); [lia|lia|lia|lia|]. split.
        - intros c Hc Hlo Hci Hpc. apply Hh; [lia|lia].
        - intros. dlia. }
      intros [h'' moved] [Hp' Hm]. simpl. split; [|lia].
      split; [by eapply perm_in_trans|]. split; [lia|]. replace (i - 1 + 1) with i by lia.
      destruct moved; [done|]. destruct Hm as [-> Hch]. intros c Hc Hlo.
      destruct (decide ((c - 1) / 2 = i)); [by apply Hch|]. apply Hh; lia.
    + split; [done|]. by assert (i = -1) as -> by lia.
Qed.
(** What the operations do to a heap. *)
Lemma Push_heap h (x : X) : len (view h) + 1 < 2 ^ 63 → heap_inv h →
  ∃ h', Push h x = Ok h' ∧ view h' ≡ₚ x :: view h ∧ heap_inv h'.
Proof.
  pose proof (len_nonneg (view h)).
  intros Hmax Hh. unfold Push. destruct (Push_view h x) as (h1 & Hp1 & Ev). rewrite Hp1.
  cbn [mbind res_bind]. rewrite Len_view, Ev, len_app, len_cons, len_nil.
  set (n := len (view h)) in *. replace (n + (1 + 0) - 1) with n by lia.
  pose proof (up_spec h1 n (n + 1)) as Hup.
  destruct (wp_exists (up h1 n) (λ h', perm_in 0 (n + 1) (view h1) (view h') ∧
    heap_from lt (view h') 0 (n + 1))) as [Hw _].
  destruct Hw as (h' & Hu & Hp & Hh').
  { apply Hup; [lia|rewrite Ev, len_app, len_cons, len_nil; fold n; lia| |intros c Hc Hpc; dlia].
    rewrite Ev. split; [|intros; dlia]. intros c Hc Hlo Hcn Hpc u v.
    rewrite !zget_app_l by (fold n; dlia). apply Hh; [fold n; lia|done]. }
  exists h'. split; [done|]. apply perm_in_Permutation in Hp as Hperm. split.
  + rewrite Hperm, Ev. symmetry. apply Permutation_cons_append.
  + unfold heap_inv. replace (len (view h')) with (n + 1); [done|].
    rewrite (perm_in_len _ _ _ _ Hp), Ev, len_app, len_cons, len_nil. fold n. lia.
Qed.

Lemma Pop_heap h : len (view h) + 1 < 2 ^ 63 → heap_inv h → view h ≠ [] →
  ∃ h' m, Pop h = Ok (h', m) ∧ m :: view h' ≡ₚ view h ∧ heap_inv h' ∧ ∀ y, y ∈ view h → le lt m y.
Proof.
  pose proof (len_nonneg (view h)).
  intros Hmax Hh Hne. unfold Pop. rewrite Len_view. set (n := len (view h) - 1).
  assert (0 ≤ n) as Hn0.
  { destruct (view h) as [|z l]; [done|]. unfold n. rewrite len_cons. pose proof (len_nonneg l). lia. }
  destruct (zget_lt (view h) 0) as [m Hm]; [lia|].
  assert (wp (h ← Swap h 0 n; '(h, _) ← down h 0 n; h_Pop h) (λ '(h', m'), m' = m ∧
    m :: view h' ≡ₚ view h ∧ heap_inv h')) as Hwp.
  { apply wp_bind. apply (wp_Swap_in 0 (n + 1)); [lia..|].
    intros h1 m' z Hm' Hz Hp1 Hl1 Hget1. simplify_eq.
    apply wp_bind. eapply wp_mono.
    { apply (down_spec h1 0 0 n); [lia|lia|lia|lia|].
      destruct (decide (n = 0)) as [E0|].
      - split; intros; lia.
      - apply (hole_replaced (view h)); [by replace (n + 1) with (len (view h)) by lia|lia|lia|].
        intros k Hk Hk0. rewrite Hget1, !decide_False by lia. done. }
    intros [h2 moved] [Hp2 Hm2]. pose proof (perm_in_len _ _ _ _ Hp2) as Hl2.
    destruct (h_Pop_spec h2 n m (view h)) as (h' & Hpop & Hperm & Hh').
    - rewrite (perm_in_Permutation _ _ _ _ Hp2). by apply (perm_in_Permutation 0 (n + 1)).
    - lia.
    - rewrite (perm_in_outside _ _ _ _ _ Hp2), Hget1 by lia.
      case_decide as E0; [|by rewrite decide_True]. rewrite E0 in Hz. congruence.
    - destruct moved; [done|]. destruct Hm2 as [-> Hch]. intros c Hc Hlo.
      destruct (decide ((c - 1) / 2 = 0)); [by apply Hch|]. intros u v. rewrite !Hget1.
      rewrite !decide_False by dlia. apply Hh; lia.
    - by rewrite Hpop. }
  apply wp_exists in Hwp as ([h' m'] & Hpop & -> & Hperm & Hh').
  exists h', m. split; [done|]. split; [done|]. split; [done|].
  intros y (k & Hk)%elem_of_zget. pose proof (zget_Some_range _ _ _ Hk).
  by apply (heap_min lt (view h) (len (view h)) k).
Qed.

Lemma Remove_heap h i : 0 ≤ i < len (view h) → len (view h) < 2 ^ 63 → heap_inv h →
  ∃ h' x, Remove h i = Ok (h', x) ∧ zget (view h) i = Some x ∧ x :: view h' ≡ₚ view h ∧ heap_inv h'.
Proof.
  intros Hi Hmax Hh. unfold Remove. rewrite Len_view. set (n := len (view h) - 1).
  destruct (zget_lt (view h) i Hi) as [x Hx].
  assert (wp (h ← (if negb (n =? i) then
      h ← Swap h i n;
      '(h, moved) ← down h i n;
      if negb moved then up h i else mret h
    else mret h); h_Pop h) (λ '(h', x'), x' = x ∧ x :: view h' ≡ₚ view h ∧ heap_inv h')) as Hwp.
  { apply wp_bind. apply (wp_mono _ (λ h2, view h2 ≡ₚ view h ∧ len (view h2) = n + 1 ∧
      zget (view h2) n = Some x ∧ heap_from lt (view h2) 0 n)).
    - destruct (Z.eqb_spec n i) as [E0|Hne]; simpl.
      + split_and!; [done|lia|by rewrite E0|]. intros c Hc Hlo. apply Hh; [lia|done].
      + apply wp_bind. apply (wp_Swap_in 0 (n + 1)); [lia..|].
        intros h1 x' z Hx' Hz Hp1 Hl1 Hget1. simplify_eq.
        eapply wp_mono; [apply (fix_spec h1 i n); [lia|lia|lia|]|].
        * apply (hole_replaced (view h)); [by replace (n + 1) with (len (view h)) by lia|lia|lia|].
          intros k Hk Hki. rewrite Hget1, !decide_False by lia. done.
        * intros h2 [Hp2 Hh2]. split; [|split; [|split; [|done]]].
          -- rewrite (perm_in_Permutation _ _ _ _ Hp2). by apply (perm_in_Permutation 0 (n + 1)).
          -- rewrite (perm_in_len _ _ _ _ Hp2). lia.
          -- rewrite (perm_in_outside _ _ _ _ _ Hp2), Hget1 by lia.
             by rewrite decide_False, decide_True by lia.
    - intros h2 (Hperm & Hl2 & Hx2 & Hh2).
      destruct (h_Pop_spec h2 n x (view h) Hperm Hl2 Hx2 Hh2) as (h' & -> & ? & ?). done. }
  apply wp_exists in Hwp as ([h' x'] & Hr & -> & Hperm & Hh').
  by exists h', x.
Qed.

Lemma Fix_heap h h0 i : 0 ≤ i < len (view h) → len (view h) < 2 ^ 63 → heap_inv h0 →
  len (view h0) = len (view h) → (∀ k, k ≠ i → zget (view h) k = zget (view h0) k) →
  ∃ h', Fix h i = Ok h' ∧ view h' ≡ₚ view h ∧ heap_inv h'.
Proof.
  intros Hi Hmax Hh0 Hl0 Hk0. unfold Fix. rewrite Len_view.
  assert (wp ('(h, moved) ← down h i (len (view h)); if negb moved then up h i else mret h)
    (λ h', perm_in 0 (len (view h)) (view h) (view h') ∧
      heap_from lt (view h') 0 (len (view h)))) as Hwp.
  { apply fix_spec; [done|lia|done|]. split.
    - intros c Hc Hlo Hci Hpc u v. rewrite !Hk0 by done. apply Hh0; [lia|done].
    - intros Hi0 Hlo c u v Hc Hpc. rewrite !Hk0 by dlia. intros Hu Hv.
      destruct (zget_lt (view h0) i) as [z Hz]; [lia|].
      apply (le_trans lt u z).
      + by apply (Hh0 i ltac:(lia) ltac:(dlia)).
      + assert (edge_ok lt (view h0) c) as He by (apply Hh0; dlia).
        apply He; [by rewrite Hpc|done]. }
  apply wp_exists in Hwp as (h' & Hr & Hp & Hh').
  exists h'. split; [done|]. split; [by eapply perm_in_Permutation|].
  unfold heap_inv. by rewrite (perm_in_len _ _ _ _ Hp).
Qed.
End properties.

(** C11: [heap.Init] turns any data into a heap, and [heap.Push], [heap.Pop],
    [heap.Remove] and [heap.Fix] keep it one: none of them panics or runs
    forever, the wrap-around of [2*i+1] on huge heaps included. The elements are
    those of before with the one added or removed: [Pop] returns one that no other
    is less than, [Remove(h, i)] exactly the one at [i]. [Fix(h, i)], after that
    element was changed to anything, keeps the elements and restores the
    invariant: the element is moved down, or else up. *)
Theorem heap_correct : ∀ (D X : Type) (S : SortInterface D) (I : HeapInterface D X)
    (L : HeapLaws D X), StrictWeakOrder lt → ∀ (h : D), len (view h) + 1 < 2 ^ 63 →
  (∃ h', Init h = Ok h' ∧ view h' ≡ₚ view h ∧ heap_inv h') ∧
  (∀ x, heap_inv h → ∃ h', Push h x = Ok h' ∧ view h' ≡ₚ x :: view h ∧ heap_inv h') ∧
  (heap_inv h → view h ≠ [] → ∃ h' m, Pop h = Ok (h', m) ∧ m :: view h' ≡ₚ view h ∧
    heap_inv h' ∧ ∀ y, y ∈ view h → le lt m y) ∧
  (∀ i, 0 ≤ i < len (view h) → heap_inv h → ∃ h' x, Remove h i = Ok (h', x) ∧
    zget (view h) i = Some x ∧ x :: view h' ≡ₚ view h ∧ heap_inv h') ∧
  (∀ i h0, 0 ≤ i < len (view h) → heap_inv h0 → len (view h0) = len (view h) →
    (∀ k, k ≠ i → zget (view h) k = zget (view h0) k) →
    ∃ h', Fix h i = Ok h' ∧ view h' ≡ₚ view h ∧ heap_inv h').
Proof.
  intros D X S I L Hswo h Hmax. assert (len (view h) < 2 ^ 63) as Hlt by lia. split_and!.
  - pose proof (Init_spec h Hlt) as (h' & Hi & Hp & Hh)%wp_exists.
    exists h'. split; [done|]. split; [by eapply perm_in_Permutation|].
    unfold heap_inv. by rewrite (perm_in_len _ _ _ _ Hp).
  - intros x Hh. by apply Push_heap.
  - by apply Pop_heap.
  - intros i Hi Hh. by apply Remove_heap.
  - intros i h0 Hi Hh ??. by apply (Fix_heap h h0).
Qed.

(** The heap of the package documentation: a slice of ints, [append] and
    reslicing. *)
#[export] Instance IntHeap : HeapInterface (H := IntSlice) (list Z) Z := {
  h_Push h x := Ok (h ++ [x]);
  h_Pop h := x ← idx h (len h - 1); l ← slice_to h (len h - 1); mret (l, x);
}.

#[export] Instance IntHeap_laws : HeapLaws (H := IntSlice) (list Z) Z.
Proof.
  refine (@Build_HeapLaws _ _ _ _ (lt_laws Z.ltb) _ _); simpl; unfold id.
  - intros h x. by eexists.
  - intros h l x ->. exists l. rewrite len_app, len_cons, len_nil.
    pose proof (len_nonneg l). replace (len l + (1 + 0) - 1) with (len l) by lia.
    rewrite (idx_in _ _ _ (zget_mid l x [])). unfold slice_to.
    pose proof (len_app l [x]) as Ha. rewrite len_cons, len_nil in Ha.
    destruct (decide (0 ≤ len l ≤ len (l ++ [x]))) as [|Hd]; [|exfalso; lia]. split; [|done].
    unfold len. simpl. rewrite Nat2Z.id. by rewrite take_app_length.
Defined.

Lemma Z_ltb_swo : StrictWeakOrder Z.ltb.
Proof. split; intros *; rewrite ?Z.ltb_lt, ?Z.ltb_ge; lia. Qed.

Lemma heap_correct_witness :
  (∃ h h', Init (H := IntSlice) [5; 2; 8; 1] = Ok h ∧ Pop (H := IntSlice) h = Ok (h', 1)) ∧
  (∃ h, Fix (H := IntSlice) [1; 9; 3; 4] 1 = Ok h ∧ h ≡ₚ [1; 9; 3; 4]).
Proof.
  split.
  - destruct (heap_correct (list Z) Z IntSlice IntHeap IntHeap_laws Z_ltb_swo [5; 2; 8; 1])
      as [(h & Hi & Hp & Hh) _]; [done|].
    destruct (heap_correct (list Z) Z IntSlice IntHeap IntHeap_laws Z_ltb_swo h)
      as (_ & _ & H & _).
    { vm_compute in Hi. injection Hi as <-. done. }
    exists h. destruct (H Hh) as (h' & m & Hpop & Hperm & _ & Hmin).
    { vm_compute in Hi. injection Hi as <-. done. }
    exists h'. split; [done|]. rewrite Hpop. repeat f_equal.
    vm_compute in Hi. injection Hi as <-. vm_compute in Hpop. by injection Hpop as _ <-.
  - destruct (heap_correct (list Z) Z IntSlice IntHeap IntHeap_laws Z_ltb_swo [1; 9; 3; 4])
      as (_ & _ & _ & _ & H); [done|].
    destruct (H 1 [1; 2; 3; 4]) as (h & Hf & Hp & _); [done| |done| |by exists h].
    + intros c Hc _. assert (0 < c < 4) by exact Hc.
      assert (c = 1 ∨ c = 2 ∨ c = 3) as [-> | [-> | ->]] by lia;
        intros x y [= <-] [= <-]; done.
    + intros k Hk. simpl. unfold id.
      destruct (Z.lt_trichotomy k 0) as [|[->|]]; [unfold zget; by rewrite !decide_False by lia|done|].
      rewrite !(zget_cons _ _ k) by lia. by rewrite !(zget_cons _ _ (k - 1)) by lia.
Defined.
