(* ===== verification/Rings.v ===== *)
(** * Circular doubly linked structures

    The shape that container/list and container/ring share: nodes of any type
    [R], linked by a next and a prev pointer, as a function from nodes to
    nodes. [ring nx pv x rs] says that the nodes [x :: rs] form a ring, in this
    order. *)

From stdpp Require Import gmap.
From S2P Require Import Prelude.

(** ** Rings, given the next and prev pointers *)

Section rings.
Context {R : Type} `{!EqDecision R}.
Implicit Types (nx pv : R → option R) (x y e : R) (rs : list R).

Definition linked nx pv x y : Prop := nx x = Some y ∧ pv y = Some x.

(** The path from [x] through [rs] to [y]. *)
Fixpoint seg nx pv x rs y : Prop :=
  match rs with
  | [] => linked nx pv x y
  | r :: rs => linked nx pv x r ∧ seg nx pv r rs y
  end.

Definition ring nx pv x rs : Prop := seg nx pv x rs x ∧ NoDup (x :: rs).

Lemma seg_app nx pv x rs1 m rs2 y :
  seg nx pv x (rs1 ++ m :: rs2) y ↔ seg nx pv x rs1 m ∧ seg nx pv m rs2 y.
Proof.
  revert x. induction rs1 as [|r rs1 IH]; intros x; simpl; [done|]. rewrite IH. tauto.
Qed.

(** A path only depends on the next pointers of its sources and the prev
    pointers of its targets. *)
Lemma seg_ext nx pv nx' pv' x rs y : seg nx pv x rs y →
  (∀ r, r ∈ x :: rs → nx' r = nx r) → (∀ r, r ∈ rs ++ [y] → pv' r = pv r) →
  seg nx' pv' x rs y.
Proof.
  revert x. induction rs as [|r rs IH]; simpl; intros x Hs Hn Hp.
  - destruct Hs. split; [rewrite Hn|rewrite Hp]; (done || set_solver).
  - destruct Hs as [[H1 H2] Hs]. split; [split; [rewrite Hn|rewrite Hp]; (done || set_solver)|].
    apply IH; [done|..]; set_solver.
Qed.

Lemma ring_ext nx pv nx' pv' x rs : ring nx pv x rs →
  (∀ r, r ∈ x :: rs → nx' r = nx r ∧ pv' r = pv r) → ring nx' pv' x rs.
Proof.
  intros [Hs Hnd] H. split; [|done]. apply (seg_ext nx pv); [done|..].
  - intros r Hr. by apply H.
  - intros r Hr. apply H. set_solver.
Qed.

(** A ring read from another of its members. *)
Lemma ring_rotate nx pv x rs1 m rs2 :
  ring nx pv x (rs1 ++ m :: rs2) → ring nx pv m (rs2 ++ x :: rs1).
Proof.
  intros [Hs Hnd]. split.
  - apply seg_app in Hs as [H1 H2]. by apply seg_app.
  - assert ((m :: rs2) ++ x :: rs1 ≡ₚ (x :: rs1) ++ m :: rs2) as E by apply Permutation_app_comm.
    simpl in E. by rewrite E.
Qed.

Definition upd {A} (f : R → A) x (v : A) : R → A := λ r, if decide (r = x) then v else f r.

Lemma upd_eq {A} (f : R → A) x v : upd f x v x = v.
Proof. unfold upd. by rewrite decide_True. Qed.
Lemma upd_ne {A} (f : R → A) x v r : r ≠ x → upd f x v r = f r.
Proof. intros. unfold upd. by rewrite decide_False. Qed.

(** What the pointer assignments of [insert] do to a ring. *)
Lemma ring_insert nx pv x rs e n : ring nx pv x rs → e ∉ x :: rs → nx x = Some n →
  ring (upd (upd nx e (Some n)) x (Some e)) (upd (upd pv e (Some x)) n (Some e)) x (e :: rs).
Proof.
  intros [Hs Hnd] He Hn. split.
  2: { apply NoDup_cons in Hnd as [Hx Hnd]. rewrite !NoDup_cons. set_solver. }
  assert (e ≠ x) as Hex by set_solver. cbn [seg]. split.
  { split; [by rewrite upd_eq|]. rewrite upd_ne; [by rewrite upd_eq|].
    intros <-. destruct rs as [|r rs]; simpl in Hs; destruct Hs as [H1 H2];
      [|destruct H1 as [H1 _]]; rewrite H1 in Hn; set_solver. }
  destruct rs as [|r rs]; simpl in *.
  - destruct Hs as [H1 H2]. rewrite H1 in Hn. injection Hn as <-. split.
    + by rewrite upd_ne, upd_eq by done.
    + by rewrite upd_eq.
  - destruct Hs as [[H1 H2] Hs]. rewrite H1 in Hn. injection Hn as <-. split.
    + split; [by rewrite upd_ne, upd_eq by done|by rewrite upd_eq].
    + apply (seg_ext nx pv); [done|..].
      * intros q Hq. rewrite !upd_ne; [done|set_solver|].
        intros ->. apply NoDup_cons in Hnd as [Hx _]. set_solver.
      * intros q Hq. rewrite !upd_ne; [done|set_solver|]. intros ->.
        apply NoDup_cons in Hnd as [Hx Hnd]. apply NoDup_cons in Hnd as [Hr _].
        apply elem_of_app in Hq as [Hq|Hq]; set_solver.
Qed.

(** What the pointer assignments of [remove] do. *)
Lemma ring_remove nx pv e r rs p nx' pv' : ring nx pv e (r :: rs) → pv e = Some p →
  (∀ q, q ≠ e → nx' q = upd nx p (Some r) q) → (∀ q, q ≠ e → pv' q = upd pv r (Some p) q) →
  ring nx' pv' r rs.
Proof.
  intros [Hs Hnd] Hp Hnx Hpv. apply NoDup_cons in Hnd as [He Hnd']. split; [|done].
  simpl in Hs. destruct Hs as [[H1 H2] Hs].
  assert (e ≠ r) by set_solver.
  destruct rs as [|z rs' _] using rev_ind.
  - simpl in Hs. destruct Hs as [H3 H4]. rewrite H4 in Hp. injection Hp as <-.
    split; [rewrite Hnx by done|rewrite Hpv by done]; by rewrite upd_eq.
  - apply seg_app in Hs as [Hs1 [H3 H4]]. rewrite H4 in Hp. injection Hp as <-.
    apply NoDup_cons in Hnd' as [Hr Hnd'']. apply NoDup_app in Hnd'' as (Hn1 & Hn2 & _).
    apply seg_app. split.
    + apply (seg_ext nx pv); [done|..].
      * intros q Hq. rewrite Hnx by set_solver. rewrite upd_ne; [done|]. intros ->.
        apply elem_of_cons in Hq as [->|Hq]; [set_solver|]. apply (Hn2 z); [done|set_solver].
      * intros q Hq. rewrite Hpv by set_solver. rewrite upd_ne; [done|]. set_solver.
    + split; [rewrite Hnx by set_solver|rewrite Hpv by done]; by rewrite upd_eq.
Qed.

(** The neighbours of a member. *)
Lemma ring_next nx pv x rs : ring nx pv x rs → nx x = Some (default x (head rs)).
Proof. intros [Hs _]. destruct rs; simpl in *; [by destruct Hs|by destruct Hs as [[? _] _]]. Qed.

Lemma ring_prev nx pv x rs : ring nx pv x rs → pv x = Some (default x (last rs)).
Proof.
  intros [Hs _]. destruct rs as [|z rs _] using rev_ind; simpl in *; [by destruct Hs|].
  rewrite last_snoc. apply seg_app in Hs as [_ [_ ?]]. done.
Qed.
End rings.


Section ring_positions.
Context {R : Type} `{!EqDecision R}.
Implicit Types (nx pv : R → option R) (x e : R) (es : list R).

(** The member before position [es2]: the last of [es1], or the sentinel. *)
Definition before x es1 : R := default x (last es1).

Lemma before_case x es1 : (es1 = [] ∧ before x es1 = x) ∨
  ∃ r, es1 = r ++ [before x es1].
Proof.
  destruct es1 as [|a r _] using rev_ind; [by left|]. right. exists r.
  unfold before. by rewrite last_snoc.
Qed.

Lemma ring_insert_at nx pv x es1 es2 e n : ring nx pv x (es1 ++ es2) → e ∉ x :: es1 ++ es2 →
  nx (before x es1) = Some n →
  ring (upd (upd nx e (Some n)) (before x es1) (Some e))
    (upd (upd pv e (Some (before x es1))) n (Some e)) x (es1 ++ e :: es2).
Proof.
  intros Hr He Hn. destruct (before_case x es1) as [[-> E]|[r E]].
  - simpl in *. by apply ring_insert.
  - remember (before x es1) as a eqn:Ea. clear Ea. subst es1.
    rewrite <-app_assoc in Hr |- *. simpl in Hr |- *. apply ring_rotate in Hr.
    apply (ring_insert _ _ _ _ e n) in Hr; [|set_solver|done].
    change (e :: es2 ++ x :: r) with ((e :: es2) ++ x :: r) in Hr. by apply ring_rotate in Hr.
Qed.

Lemma ring_remove_at nx pv x es1 e es2 p r nx' pv' : ring nx pv x (es1 ++ e :: es2) →
  pv e = Some p → nx e = Some r →
  (∀ q, q ≠ e → nx' q = upd nx p (Some r) q) → (∀ q, q ≠ e → pv' q = upd pv r (Some p) q) →
  ring nx' pv' x (es1 ++ es2).
Proof.
  intros Hring Hp Hr Hnx Hpv. apply ring_rotate in Hring.
  pose proof (ring_next _ _ _ _ Hring) as Hr'. rewrite Hr in Hr'. injection Hr' as Er.
  destruct es2 as [|r' t]; simpl in Er, Hring.
  - subst r. rewrite app_nil_r. by eapply ring_remove.
  - subst r'. eapply ring_remove in Hring; [|done..]. by apply ring_rotate in Hring.
Qed.

(** The pointers of the members of a ring. *)
Lemma ring_before nx pv x es1 e es2 : ring nx pv x (es1 ++ e :: es2) →
  pv e = Some (before x es1) ∧ nx e = Some (default x (head es2)).
Proof.
  intros Hr%ring_rotate. rewrite (ring_next _ _ _ _ Hr), (ring_prev _ _ _ _ Hr).
  unfold before. split; f_equal; [|by destruct es2].
  destruct es1 as [|a r _] using rev_ind.
  - simpl. by rewrite last_snoc.
  - change (es2 ++ x :: r ++ [a]) with (es2 ++ (x :: r) ++ [a]).
    by rewrite app_assoc, !last_snoc.
Qed.

Lemma ring_after nx pv x es1 es2 : ring nx pv x (es1 ++ es2) →
  nx (before x es1) = Some (default x (head es2)).
Proof.
  intros Hr. destruct (before_case x es1) as [[-> ->]|[r E]].
  - by apply ring_next in Hr.
  - remember (before x es1) as a eqn:Ea. clear Ea. subst es1.
    rewrite <-app_assoc in Hr. simpl in Hr. apply ring_rotate, ring_next in Hr.
    rewrite Hr. by destruct es2.
Qed.
End ring_positions.


(** ** Cycles: a ring as the list of its nodes, from any of them *)

Section cycles.
Context {R : Type} `{!EqDecision R}.
Implicit Types (nx pv : R → option R) (x y z f r s n p : R) (l : list R).

Fixpoint chain nx pv l : Prop :=
  match l with
  | x :: (y :: _) as t => linked nx pv x y ∧ chain nx pv t
  | _ => True
  end.

Definition cyc nx pv l : Prop :=
  NoDup l ∧ chain nx pv l ∧ ∃ f z, head l = Some f ∧ last l = Some z ∧ linked nx pv z f.

Lemma chain_cons nx pv x l : chain nx pv (x :: l) ↔
  chain nx pv l ∧ ∀ y, head l = Some y → linked nx pv x y.
Proof.
  destruct l as [|y l]; simpl; [done|]. split.
  - intros [H1 H2]. split; [done|]. by intros ? [= <-].
  - intros [H1 H2]. split; [by apply H2|done].
Qed.

Lemma chain_app nx pv l1 l2 : chain nx pv (l1 ++ l2) ↔ chain nx pv l1 ∧ chain nx pv l2 ∧
  ∀ z f, last l1 = Some z → head l2 = Some f → linked nx pv z f.
Proof.
  induction l1 as [|x l1 IH]; [simpl; split; [intros H; split_and!; done|tauto]|].
  change ((x :: l1) ++ l2) with (x :: (l1 ++ l2)). rewrite !chain_cons, IH.
  destruct l1 as [|y l1].
  - simpl. split.
    + intros [(_ & H1 & _) H2]. split_and!; [done..|]. intros z f [= <-]. apply H2.
    + intros (_ & H1 & H2). split_and!; [done..|]. intros y Hy. by apply H2.
  - cbn [head app]. rewrite (last_cons x). split.
    + intros [(H1 & H2 & H3) H4]. split_and!; [done|by apply H4|done|].
      intros z f Hz. apply H3. destruct (last (y :: l1)) eqn:E; [done|].
      by apply last_None in E.
    + intros ((H1 & H4) & H2 & H3). split_and!; [done|done| |done].
      intros z f Hz. apply H3. by rewrite Hz.
Qed.

Lemma chain_ext nx pv nx' pv' l : NoDup l → chain nx pv l →
  (∀ x, x ∈ l → last l ≠ Some x → nx' x = nx x) →
  (∀ x, x ∈ l → head l ≠ Some x → pv' x = pv x) → chain nx' pv' l.
Proof.
  induction l as [|x l IH]; [done|]. intros [Hx Hnd]%NoDup_cons [Hc Hl]%chain_cons Hn Hp.
  assert (∀ z, last l = Some z → last (x :: l) = Some z) as Hlast.
  { intros z Hz. rewrite last_cons. by rewrite Hz. }
  apply chain_cons. split.
  - apply IH; [done|done|..].
    + intros z Hz Hne. apply Hn; [by right|]. rewrite last_cons.
      destruct (last l) eqn:E; [done|]. apply last_None in E as ->. set_solver.
    + intros z Hz Hne. apply Hp; [by right|]. simpl. intros [= ->]. done.
  - intros y Hy. destruct (Hl y Hy) as [H1 H2]. destruct l as [|y' l]; [done|]. injection Hy as ->. split.
    + rewrite Hn; [done|by left|]. rewrite last_cons.
      destruct (last (y :: l)) as [z|] eqn:E; [|by apply last_None in E].
      intros [= ->]. apply Hx. apply last_Some in E as [l' E]. rewrite E. set_solver.
    + rewrite Hp; [done|set_solver|]. simpl. intros [= ->]. set_solver.
Qed.

Lemma seg_chain nx pv x rs y : seg nx pv x rs y ↔
  chain nx pv (x :: rs) ∧ ∀ z, last (x :: rs) = Some z → linked nx pv z y.
Proof.
  revert x. induction rs as [|a rs IH]; intros x.
  - simpl. split; [intros H; split; [done|by intros ? [= <-]]|intros [_ H]; by apply H].
  - cbn [seg]. rewrite IH, (chain_cons _ _ x), (last_cons x).
    destruct (last (a :: rs)) as [z|] eqn:E; [|by apply last_None in E]. split.
    + intros (H1 & H2 & H3). split_and!; [done| |done]. by intros ? [= <-].
    + intros ((H1 & H2) & H3). split_and!; [by apply H2|done|done].
Qed.

Lemma ring_cyc nx pv x rs : ring nx pv x rs ↔ cyc nx pv (x :: rs).
Proof.
  unfold ring, cyc. rewrite seg_chain.
  destruct (last (x :: rs)) as [z|] eqn:E; [|by apply last_None in E]. split.
  - intros [(H1 & H2) H3]. split_and!; [done..|]. exists x, z. split_and!; [done..|]. by apply H2.
  - intros (H1 & H2 & f & z' & [= <-] & [= <-] & H3). split_and!; [done| |done]. by intros ? [= <-].
Qed.

Lemma cyc_rotate nx pv l1 l2 : cyc nx pv (l1 ++ l2) → cyc nx pv (l2 ++ l1).
Proof.
  destruct l1 as [|x l1]; [by rewrite app_nil_r|]. destruct l2 as [|y l2]; [by rewrite app_nil_r|].
  simpl. rewrite <-!ring_cyc. apply ring_rotate.
Qed.

(** What [r.next = s; s.prev = r; n.prev = p; p.next = n] does. *)
Definition relink_next nx r s p n : R → option R := upd (upd nx r (Some s)) p (Some n).
Definition relink_prev pv r s p n : R → option R := upd (upd pv s (Some r)) n (Some p).

(** The two parts of a cycle become cycles ... *)
Lemma cyc_split nx pv l1 l2 r s p n : cyc nx pv (l1 ++ l2) →
  head l1 = Some s → last l1 = Some r → head l2 = Some n → last l2 = Some p →
  cyc (relink_next nx r s p n) (relink_prev pv r s p n) l1 ∧
  cyc (relink_next nx r s p n) (relink_prev pv r s p n) l2.
Proof.
  intros (Hnd & Hc & _) Hs Hr Hn Hp. apply NoDup_app in Hnd as (Hnd1 & Hd & Hnd2).
  apply chain_app in Hc as (Hc1 & Hc2 & _).
  assert (s ∈ l1 ∧ r ∈ l1 ∧ n ∈ l2 ∧ p ∈ l2) as (Is & Ir & In & Ip).
  { split_and!; [by apply head_Some_elem_of|by apply last_Some_elem_of|
      by apply head_Some_elem_of|by apply last_Some_elem_of]. }
  assert (∀ x y, x ∈ l1 → y ∈ l2 → x ≠ y) as Hne by (intros x y H1 H2 ->; by apply (Hd y)).
  unfold relink_next, relink_prev. split.
  - split_and!; [done| |exists s, r; split_and!; [done|done|]].
    + apply (chain_ext nx pv); [done|done|..]; intros x Hx Hx'; rewrite !upd_ne; congruence || by auto.
    + split; [rewrite upd_ne, upd_eq by auto|rewrite upd_ne, upd_eq by auto]; done.
  - split_and!; [done| |exists n, p; split_and!; [done|done|]].
    + apply (chain_ext nx pv); [done|done|..]; intros x Hx Hx'; rewrite !upd_ne;
        congruence || (apply not_eq_sym; by auto) || idtac; done.
    + split; by rewrite upd_eq.
Qed.

(** ... and two cycles become one. *)
Lemma cyc_merge nx pv l1 l2 r s p n : cyc nx pv l1 → cyc nx pv l2 → (∀ x, x ∈ l1 → x ∉ l2) →
  head l1 = Some n → last l1 = Some r → head l2 = Some s → last l2 = Some p →
  cyc (relink_next nx r s p n) (relink_prev pv r s p n) (l1 ++ l2).
Proof.
  intros (Hnd1 & Hc1 & _) (Hnd2 & Hc2 & _) Hd Hn Hr Hs Hp.
  assert (n ∈ l1 ∧ r ∈ l1 ∧ s ∈ l2 ∧ p ∈ l2) as (In & Ir & Is & Ip).
  { split_and!; [by apply head_Some_elem_of|by apply last_Some_elem_of|
      by apply head_Some_elem_of|by apply last_Some_elem_of]. }
  assert (∀ x y, x ∈ l1 → y ∈ l2 → x ≠ y) as Hne by (intros x y H1 H2 ->; by apply (Hd y)).
  assert (∀ x y, x ∈ l2 → y ∈ l1 → x ≠ y) as Hne' by (intros x y H1 H2 ->; by apply (Hd y)).
  unfold relink_next, relink_prev. split_and!.
  - by apply NoDup_app.
  - apply chain_app. split_and!.
    + apply (chain_ext nx pv); [done|done|..]; intros x Hx Hx'; rewrite !upd_ne; congruence || by auto.
    + apply (chain_ext nx pv); [done|done|..]; intros x Hx Hx'; rewrite !upd_ne; congruence || by auto.
    + rewrite Hr, Hs. intros ? ? [= <-] [= <-].
      split; [rewrite upd_ne, upd_eq by auto|rewrite upd_ne, upd_eq by auto]; done.
  - exists n, p. rewrite head_app, Hn, last_app, Hp. split_and!; [done|done|]. split; by rewrite upd_eq.
Qed.

(** ** Positions *)

Lemma zget_split l j x : zget l j = Some x → ∃ a b, l = a ++ x :: b ∧ len a = j.
Proof.
  unfold zget. case_decide; [|done]. intros Hx. exists (take (Z.to_nat j) l), (drop (S (Z.to_nat j)) l).
  split; [by rewrite take_drop_middle|]. apply lookup_lt_Some in Hx.
  rewrite len_take. unfold len. lia.
Qed.

Lemma mod_next k L : 0 < L → (k + 1) mod L = if decide (k mod L = L - 1) then 0 else k mod L + 1.
Proof.
  intros HL. pose proof (Z.mod_pos_bound k L HL). rewrite <-Zplus_mod_idemp_l. case_decide as E.
  - rewrite E. replace (L - 1 + 1) with L by lia. apply Z.mod_same. lia.
  - apply Z.mod_small. lia.
Qed.
Lemma mod_prev k L : 0 < L → (k - 1) mod L = if decide (k mod L = 0) then L - 1 else k mod L - 1.
Proof.
  intros HL. pose proof (Z.mod_pos_bound k L HL). rewrite <-Zminus_mod_idemp_l. case_decide as E.
  - rewrite E. replace (0 - 1) with (L - 1 + (-1) * L) by lia. rewrite Z.mod_add by lia.
    apply Z.mod_small. lia.
  - apply Z.mod_small. lia.
Qed.

Lemma cyc_at nx pv l k x : cyc nx pv l → zget l (k mod len l) = Some x →
  nx x = zget l ((k + 1) mod len l) ∧ pv x = zget l ((k - 1) mod len l).
Proof.
  intros Hc Hx. destruct (zget_split _ _ _ Hx) as (a & b & -> & Ha).
  apply cyc_rotate in Hc. simpl in Hc. apply ring_cyc in Hc.
  assert (0 < len (a ++ x :: b)) as HL.
  { rewrite len_app, len_cons. pose proof (len_nonneg a). pose proof (len_nonneg b). lia. }
  rewrite mod_next, mod_prev, <-Ha by done.
  rewrite (ring_next _ _ _ _ Hc), (ring_prev _ _ _ _ Hc), len_app, len_cons. split.
  - case_decide as E.
    + assert (b = []) as -> by (apply len_0_nil; lia). rewrite head_app. by destruct a.
    + destruct b as [|y b]; [rewrite len_nil in E; lia|].
      rewrite zget_app_r by lia. by replace (len a + 1 - len a) with 1 by lia.
  - case_decide as E.
    + apply len_0_nil in E as ->. rewrite app_nil_r. simpl.
      destruct b as [|z b _] using rev_ind; [done|]. rewrite last_snoc. simpl.
      change (x :: b ++ [z]) with ((x :: b) ++ [z]).
      transitivity (zget ((x :: b) ++ [z]) (len (x :: b))); [by rewrite zget_mid|].
      f_equal. rewrite len_app, !len_cons, !len_nil. lia.
    + destruct a as [|z a _] using rev_ind; [done|]. rewrite app_assoc, last_snoc. simpl.
      rewrite len_app, len_cons, len_nil. replace (len a + (1 + 0) - 1) with (len a) by lia.
      rewrite <-app_assoc. simpl. by rewrite zget_mid.
Qed.
End cycles.
