(* ===== verification/ListModel.v ===== *)
(** * container/list: the program

    A doubly linked list with a sentinel. The objects live in a store: a
    pointer to an [Element] is a [ref], either the sentinel [&l.root] of a list
    or an element allocated by a push; every field of the structs is a finite
    map from references, in which an absent entry is the zero value (a nil
    pointer, a zero length). Following a nil pointer panics. *)

From stdpp Require Import gmap.
From S2P Require Import Prelude.

Inductive ref := Root (l : Z) | Elem (e : Z).

#[export] Instance ref_eq_dec : EqDecision ref.
Proof. solve_decision. Defined.
#[export] Instance ref_countable : Countable ref.
Proof.
  refine (inj_countable' (λ r, match r with Root l => inl l | Elem e => inr e end)
    (λ x, match x with inl l => Root l | inr e => Elem e end) _).
  by intros [].
Defined.

Section list.
  Context {V : Type}.

Record store := Store {
  f_next : gmap ref ref;
  f_prev : gmap ref ref;
  f_list : gmap ref Z;
  f_Value : gmap ref V;
  f_len : gmap Z Z;
  next_id : Z;  (* the allocator: ids from here on are unused *)
}.

Implicit Types (σ : store) (l : Z) (e pos mark : ref).

(** Reading and writing the fields. *)
Definition next σ e : option ref := f_next σ !! e.
Definition prev σ e : option ref := f_prev σ !! e.
Definition elist σ e : option Z := f_list σ !! e.
Definition llen σ l : Z := default 0 (f_len σ !! l).

Definition set_next σ e (v : option ref) : store :=
  Store (partial_alter (λ _, v) e (f_next σ)) (f_prev σ) (f_list σ) (f_Value σ) (f_len σ) (next_id σ).
Definition set_prev σ e (v : option ref) : store :=
  Store (f_next σ) (partial_alter (λ _, v) e (f_prev σ)) (f_list σ) (f_Value σ) (f_len σ) (next_id σ).
Definition set_list σ e (v : option Z) : store :=
  Store (f_next σ) (f_prev σ) (partial_alter (λ _, v) e (f_list σ)) (f_Value σ) (f_len σ) (next_id σ).
Definition set_len σ l (n : Z) : store :=
  Store (f_next σ) (f_prev σ) (f_list σ) (f_Value σ) (<[l:=n]> (f_len σ)) (next_id σ).

(** [&Element{Value: v}] and [new(List)]: all other fields are zero. *)
Definition new_elem σ (v : V) : store * ref :=
  (Store (f_next σ) (f_prev σ) (f_list σ) (<[Elem (next_id σ):=v]> (f_Value σ)) (f_len σ)
    (next_id σ + 1), Elem (next_id σ)).
Definition new_list σ : store * Z :=
  (Store (f_next σ) (f_prev σ) (f_list σ) (f_Value σ) (f_len σ) (next_id σ + 1), next_id σ).

(** Dereferencing a pointer. *)
Definition deref (p : option ref) : res ref :=
  match p with Some r => Ok r | None => Panic NilDereference end.

(** The value of an element; reading through a nil pointer panics. *)
Definition Value σ e : res V :=
  match f_Value σ !! e with Some v => Ok v | None => Panic NilDereference end.

(** ** Element *)

Definition Next σ e : option ref :=
  let p := next σ e in
  match elist σ e with
  | Some l => if decide (p = Some (Root l)) then None else p
  | None => None
  end.

Definition Prev σ e : option ref :=
  let p := prev σ e in
  match elist σ e with
  | Some l => if decide (p = Some (Root l)) then None else p
  | None => None
  end.

(** ** List *)

Definition Init σ l : store :=
  let σ := set_next σ (Root l) (Some (Root l)) in
  let σ := set_prev σ (Root l) (Some (Root l)) in
  set_len σ l 0.

Definition New σ : store * Z :=
  let '(σ, l) := new_list σ in (Init σ l, l).

Definition Len σ l : Z := llen σ l.

Definition Front σ l : option ref :=
  if llen σ l =? 0 then None else next σ (Root l).

Definition Back σ l : option ref :=
  if llen σ l =? 0 then None else prev σ (Root l).

Definition lazyInit σ l : store :=
  match next σ (Root l) with None => Init σ l | Some _ => σ end.

Definition insert σ l e pos : res (store * ref) :=
  let σ := set_prev σ e (Some pos) in
  let σ := set_next σ e (next σ pos) in
  p ← deref (prev σ e);
  let σ := set_next σ p (Some e) in
  n ← deref (next σ e);
  let σ := set_prev σ n (Some e) in
  let σ := set_list σ e (Some l) in
  let σ := set_len σ l (i64 (llen σ l + 1)) in
  mret (σ, e).

Definition insertValue σ l (v : V) (pos : option ref) : res (store * ref) :=
  let '(σ, e) := new_elem σ v in
  pos ← deref pos;
  insert σ l e pos.

Definition remove σ l e : res store :=
  p ← deref (prev σ e);
  let σ := set_next σ p (next σ e) in
  n ← deref (next σ e);
  let σ := set_prev σ n (prev σ e) in
  let σ := set_next σ e None in
  let σ := set_prev σ e None in
  let σ := set_list σ e None in
  mret (set_len σ l (i64 (llen σ l - 1))).

Definition move σ e pos : res store :=
  if decide (e = pos) then mret σ else
  p ← deref (prev σ e);
  let σ := set_next σ p (next σ e) in
  n ← deref (next σ e);
  let σ := set_prev σ n (prev σ e) in
  let σ := set_prev σ e (Some pos) in
  let σ := set_next σ e (next σ pos) in
  p ← deref (prev σ e);
  let σ := set_next σ p (Some e) in
  n ← deref (next σ e);
  let σ := set_prev σ n (Some e) in
  mret σ.

Definition Remove σ l e : res (store * V) :=
  σ ← (if decide (elist σ e = Some l) then remove σ l e else mret σ);
  v ← Value σ e;
  mret (σ, v).

Definition PushFront σ l (v : V) : res (store * ref) :=
  let σ := lazyInit σ l in
  insertValue σ l v (Some (Root l)).

Definition PushBack σ l (v : V) : res (store * ref) :=
  let σ := lazyInit σ l in
  insertValue σ l v (prev σ (Root l)).

Definition InsertBefore σ l (v : V) mark : res (store * option ref) :=
  if negb (bool_decide (elist σ mark = Some l)) then mret (σ, None) else
  '(σ, e) ← insertValue σ l v (prev σ mark);
  mret (σ, Some e).

Definition InsertAfter σ l (v : V) mark : res (store * option ref) :=
  if negb (bool_decide (elist σ mark = Some l)) then mret (σ, None) else
  '(σ, e) ← insertValue σ l v (Some mark);
  mret (σ, Some e).

Definition MoveToFront σ l e : res store :=
  if negb (bool_decide (elist σ e = Some l)) || bool_decide (next σ (Root l) = Some e)
  then mret σ else move σ e (Root l).

Definition MoveToBack σ l e : res store :=
  if negb (bool_decide (elist σ e = Some l)) || bool_decide (prev σ (Root l) = Some e)
  then mret σ else
  pos ← deref (prev σ (Root l));
  move σ e pos.

Definition MoveBefore σ l e mark : res store :=
  if negb (bool_decide (elist σ e = Some l)) || bool_decide (e = mark)
    || negb (bool_decide (elist σ mark = Some l))
  then mret σ else
  pos ← deref (prev σ mark);
  move σ e pos.

Definition MoveAfter σ l e mark : res store :=
  if negb (bool_decide (elist σ e = Some l)) || bool_decide (e = mark)
    || negb (bool_decide (elist σ mark = Some l))
  then mret σ else move σ e mark.

(** [for i, e := other.Len(), other.Front(); i > 0; i, e = i-1, e.Next()] *)
Definition PushBackList σ l (other : Z) : res store :=
  let σ := lazyInit σ l in
  loop (fuel_of (Len σ other)) (λ '(σ, i, e),
    if 0 <? i then
      e ← deref e;
      v ← Value σ e;
      '(σ, _) ← insertValue σ l v (prev σ (Root l));
      mret (inl (σ, i - 1, Next σ e))
    else mret (inr σ)) (σ, Len σ other, Front σ other).

Definition PushFrontList σ l (other : Z) : res store :=
  let σ := lazyInit σ l in
  loop (fuel_of (Len σ other)) (λ '(σ, i, e),
    if 0 <? i then
      e ← deref e;
      v ← Value σ e;
      '(σ, _) ← insertValue σ l v (Some (Root l));
      mret (inl (σ, i - 1, Prev σ e))
    else mret (inr σ)) (σ, Len σ other, Back σ other).
End list.
Arguments store : clear implicits.
