(* ===== verification/ListProofs.v ===== *)
(** * container/list: correctness *)

From stdpp Require Import gmap.
From S2P Require Import Prelude Rings ListModel.

(** ** The invariant of the store *)

Section invariant.
Context {V : Type}.
Implicit Types (σ : store V) (l : Z) (e : ref) (es : list ref) (A : gmap Z (list ref)).

(** List [l] represents the sequence [es]: a ring through the sentinel, or
    the zero value of an unused list. *)
Definition list_ok σ l es : Prop :=
  ((next σ (Root l) = None ∧ es = []) ∨ ring (next σ) (prev σ) (Root l) es) ∧
  llen σ l = len es.

(** All lists of the store represent the sequences [A], and the [list] field
    of an element tells exactly which one it is in. *)
Record wf σ A : Prop := {
  wf_lists : ∀ l es, A !! l = Some es → list_ok σ l es;
  wf_owner : ∀ l e, elist σ e = Some l ↔ ∃ es, A !! l = Some es ∧ e ∈ es;
  wf_root : ∀ l, elist σ (Root l) = None;
  wf_value : ∀ e, is_Some (elist σ e) → is_Some (f_Value σ !! e);
  wf_fresh : ∀ k, next_id σ ≤ k → f_Value σ !! Elem k = None ∧ A !! k = None ∧
    next σ (Root k) = None ∧ llen σ k = 0;
}.

Lemma next_set_next σ x v r : next (set_next σ x v) r = upd (next σ) x v r.
Proof.
  unfold next, set_next, upd. simpl. case_decide; subst.
  - apply lookup_partial_alter_eq.
  - by apply lookup_partial_alter_ne.
Qed.
Lemma prev_set_prev σ x v r : prev (set_prev σ x v) r = upd (prev σ) x v r.
Proof.
  unfold prev, set_prev, upd. simpl. case_decide; subst.
  - apply lookup_partial_alter_eq.
  - by apply lookup_partial_alter_ne.
Qed.
Lemma elist_set_list σ x v r : elist (set_list σ x v) r = upd (elist σ) x v r.
Proof.
  unfold elist, set_list, upd. simpl. case_decide; subst.
  - apply lookup_partial_alter_eq.
  - by apply lookup_partial_alter_ne.
Qed.
Lemma llen_set_len σ l n l' : llen (set_len σ l n) l' = if decide (l' = l) then n else llen σ l'.
Proof.
  unfold llen, set_len. simpl. case_decide; subst; [by rewrite lookup_insert_eq|].
  by rewrite lookup_insert_ne.
Qed.

(** Changing the list [l] from [es] to [es'], and nothing else. *)
Lemma wf_update σ σ' A l es es' : wf σ A → A !! l = Some es → list_ok σ' l es' →
  (∀ r, r ∉ Root l :: es ++ es' → next σ' r = next σ r ∧ prev σ' r = prev σ r) →
  (∀ l', l' ≠ l → llen σ' l' = llen σ l') →
  (∀ e, e ∈ es' → e ∈ es ∨ elist σ e = None) →
  (∀ e, elist σ' e = if decide (e ∈ es') then Some l else
     if decide (e ∈ es) then None else elist σ e) →
  (∀ l', Root l' ∉ es') → (∀ e, e ∈ es' → is_Some (f_Value σ' !! e)) →
  (∀ e, is_Some (f_Value σ !! e) → is_Some (f_Value σ' !! e)) →
  (∀ k, next_id σ' ≤ k → next_id σ ≤ k ∧ f_Value σ' !! Elem k = None) →
  wf σ' (<[l := es']> A).
Proof.
  intros [Hlists Howner Hroot Hval Hfresh] Hl Hok Hptr Hlen Hnew Hel Hr' Hv' Hv Hf. split.
  - intros l' es0 H. destruct (decide (l' = l)) as [->|Hne].
    { rewrite lookup_insert_eq in H. by injection H as <-. }
    rewrite lookup_insert_ne in H by done. destruct (Hlists l' es0 H) as [Hring Hlen0].
    assert (∀ e, e ∈ es0 → elist σ e = Some l') as Hmem by (intros; apply Howner; eauto).
    assert (∀ e, e ∈ es → elist σ e = Some l) as Hmem' by (intros; apply Howner; eauto).
    assert (∀ r, r ∈ Root l' :: es0 → r ∉ Root l :: es ++ es') as Hdis.
    { intros r Hr Hr2. rewrite elem_of_cons in Hr. rewrite elem_of_cons, elem_of_app in Hr2.
      destruct Hr as [->|Hr], Hr2 as [E|[Hr2|Hr2]].
      - congruence.
      - apply Hmem' in Hr2. by rewrite Hroot in Hr2.
      - by apply Hr' in Hr2.
      - subst r. apply Hmem in Hr. by rewrite Hroot in Hr.
      - apply Hmem in Hr. apply Hmem' in Hr2. congruence.
      - apply Hmem in Hr. destruct (Hnew r Hr2) as [Hr3|Hr3]; [|congruence].
        apply Hmem' in Hr3. congruence. }
    split; [|by rewrite Hlen].
    destruct Hring as [[Hz ->]|Hring].
    + left. split; [|done]. rewrite (proj1 (Hptr (Root l') (Hdis _ ltac:(left)))). done.
    + right. eapply ring_ext; [done|]. intros r Hr. by apply Hptr, Hdis.
  - intros l' e. rewrite Hel. destruct (decide (l' = l)) as [->|Hne].
    + rewrite lookup_insert_eq. repeat case_decide.
      * split; [eauto|done].
      * split; [done|]. intros (? & [= <-] & ?). done.
      * rewrite Howner. split.
        -- intros (es0 & HA0 & Hin). rewrite Hl in HA0. injection HA0 as <-. done.
        -- intros (? & [= <-] & ?). done.
    + rewrite lookup_insert_ne by done. destruct (decide (e ∈ es')) as [Hin|Hin];
        [|destruct (decide (e ∈ es)) as [Hin2|Hin2]].
      * split; [by intros [= ->]|]. intros (es0 & HA0 & Hin0).
        destruct (Hnew e Hin) as [Hin1|Hin1].
        -- assert (elist σ e = Some l') by (apply Howner; eauto).
           assert (elist σ e = Some l) by (apply Howner; eauto). congruence.
        -- assert (elist σ e = Some l') by (apply Howner; eauto). congruence.
      * split; [done|]. intros Hin0. apply Howner in Hin0.
        assert (elist σ e = Some l) by (apply Howner; eauto). congruence.
      * apply Howner.
  - intros l'. rewrite Hel, decide_False by done. case_decide; [done|apply Hroot].
  - intros e. rewrite Hel. repeat case_decide; [by intros _; apply Hv'|by intros []|].
    intros Hs. by apply Hv, Hval.
  - intros k Hk. destruct (Hf k Hk) as [Hk' Hvk].
    destruct (Hfresh k Hk') as (_ & HA & Hn & H0). assert (k ≠ l) as Hkl by congruence.
    rewrite lookup_insert_ne, Hlen by done. split_and!; [done|done| |done].
    rewrite <-Hn. apply Hptr.
    rewrite elem_of_cons, elem_of_app. intros [E|[H|H]]; [congruence| |by apply Hr' in H].
    assert (elist σ (Root k) = Some l) as H1 by (apply Howner; eauto). by rewrite Hroot in H1.
Qed.
End invariant.


(** ** What the four internal operations do to the fields *)

Section effects.
Context {V : Type}.
Implicit Types (σ : store V) (l : Z) (e pos p n : ref).

(** [σ'] differs from [σ] in the fields given. *)
Definition fields_are σ' (nx pv : ref → option ref) (li : ref → option Z) : Prop :=
  ∀ r, next σ' r = nx r ∧ prev σ' r = pv r ∧ elist σ' r = li r.

Lemma next_prev σ x v : next (set_prev σ x v) = next σ.
Proof. done. Qed.
Lemma prev_next σ x v : prev (set_next σ x v) = prev σ.
Proof. done. Qed.

Lemma insert_run σ l e pos n : e ≠ pos → next σ pos = Some n →
  ∃ σ', insert σ l e pos = Ok (σ', e) ∧
    fields_are σ' (upd (upd (next σ) e (Some n)) pos (Some e))
      (upd (upd (prev σ) e (Some pos)) n (Some e)) (upd (elist σ) e (Some l)) ∧
    (∀ l', llen σ' l' = if decide (l' = l) then i64 (llen σ l + 1) else llen σ l') ∧
    f_Value σ' = f_Value σ ∧ next_id σ' = next_id σ.
Proof.
  intros Hne Hn. unfold insert. cbv zeta.
  rewrite prev_next, prev_set_prev. rewrite upd_eq, next_prev, Hn. simpl.
  rewrite next_set_next, upd_ne, next_set_next, upd_eq by done. simpl.
  eexists. split; [done|]. split_and!; [|intros l'; by rewrite llen_set_len|done|done].
  intros r. split_and!.
  - change (next (set_next (set_next σ e (Some n)) pos (Some e)) r =
      upd (upd (next σ) e (Some n)) pos (Some e) r).
    rewrite next_set_next. unfold upd. by rewrite next_set_next.
  - change (prev (set_prev (set_prev σ e (Some pos)) n (Some e)) r =
      upd (upd (prev σ) e (Some pos)) n (Some e) r).
    rewrite prev_set_prev. unfold upd. by rewrite prev_set_prev.
  - apply (elist_set_list σ).
Qed.

Lemma remove_run σ l e p n : prev σ e = Some p → next σ e = Some n → p ≠ e → n ≠ e →
  ∃ σ', remove σ l e = Ok σ' ∧
    fields_are σ' (upd (upd (next σ) p (Some n)) e None) (upd (upd (prev σ) n (Some p)) e None)
      (upd (elist σ) e None) ∧
    (∀ l', llen σ' l' = if decide (l' = l) then i64 (llen σ l - 1) else llen σ l') ∧
    f_Value σ' = f_Value σ ∧ next_id σ' = next_id σ.
Proof.
  intros Hp Hn Hpe Hne. unfold remove. cbv zeta. rewrite Hp. simpl.
  rewrite next_set_next, upd_ne, Hn, prev_next, Hp by done. simpl.
  eexists. split; [done|]. split_and!; [|intros l'; by rewrite llen_set_len|done|done].
  intros r. split_and!.
  - change (next (set_next (set_next σ p (Some n)) e None) r =
      upd (upd (next σ) p (Some n)) e None r).
    rewrite next_set_next. unfold upd. by rewrite next_set_next.
  - change (prev (set_prev (set_prev σ n (Some p)) e None) r =
      upd (upd (prev σ) n (Some p)) e None r).
    rewrite prev_set_prev. unfold upd. by rewrite prev_set_prev.
  - apply (elist_set_list σ).
Qed.

Lemma move_run σ e pos p n n' : e ≠ pos → prev σ e = Some p → next σ e = Some n →
  p ≠ e → n ≠ e → upd (next σ) p (Some n) pos = Some n' →
  ∃ σ', move σ e pos = Ok σ' ∧
    fields_are σ' (upd (upd (upd (next σ) p (Some n)) e (Some n')) pos (Some e))
      (upd (upd (upd (prev σ) n (Some p)) e (Some pos)) n' (Some e)) (elist σ) ∧
    (∀ l', llen σ' l' = llen σ l') ∧ f_Value σ' = f_Value σ ∧ next_id σ' = next_id σ.
Proof.
  intros Hpos Hp Hn Hpe Hne Hn'. unfold move. cbv zeta. rewrite decide_False, Hp by done. simpl.
  rewrite next_set_next, upd_ne, Hn, prev_next, Hp by done. simpl.
  rewrite prev_next, prev_set_prev, upd_eq. simpl.
  rewrite !next_prev, next_set_next, Hn'.
  rewrite next_set_next, upd_ne, next_set_next, upd_eq by done. simpl.
  eexists. split; [done|]. split_and!; [|done..].
  intros r. split_and!; [..|done].
  - change (next (set_next (set_next (set_next σ p (Some n)) e (Some n')) pos (Some e)) r =
      upd (upd (upd (next σ) p (Some n)) e (Some n')) pos (Some e) r).
    rewrite next_set_next. unfold upd at 1 2. rewrite next_set_next. unfold upd at 1 2.
    by rewrite next_set_next.
  - change (prev (set_prev (set_prev (set_prev σ n (Some p)) e (Some pos)) n' (Some e)) r =
      upd (upd (upd (prev σ) n (Some p)) e (Some pos)) n' (Some e) r).
    rewrite prev_set_prev. unfold upd at 1 2. rewrite prev_set_prev. unfold upd at 1 2.
    by rewrite prev_set_prev.
Qed.
End effects.


(** ** The operations on the sequences *)

Section specs.
Context {V : Type}.
Implicit Types (σ : store V) (l : Z) (x e pos : ref) (es : list ref) (A : gmap Z (list ref)).

Lemma before_in x es : before x es ∈ x :: es.
Proof.
  destruct (before_case x es) as [[_ ->]|[r E]]; [left|].
  right. rewrite E at 2. set_solver.
Qed.
Lemma head_in x es : default x (head es) ∈ x :: es.
Proof. destruct es; set_solver. Qed.

Definition is_ring σ l es : Prop := ring (next σ) (prev σ) (Root l) es.

Lemma wf_member σ A l es e : wf σ A → A !! l = Some es → elist σ e = Some l ↔ e ∈ es.
Proof.
  intros Hwf HA. rewrite (wf_owner σ A Hwf). split; [|by eauto].
  intros (es' & HA' & He). congruence.
Qed.
Lemma wf_len σ A l es : wf σ A → A !! l = Some es → llen σ l = len es.
Proof. intros Hwf HA. by destruct (wf_lists σ A Hwf l es HA). Qed.
Lemma wf_not_root σ A l es l' : wf σ A → A !! l = Some es → Root l' ∉ es.
Proof. intros Hwf HA H%(wf_member σ A l es _ Hwf HA). by rewrite (wf_root σ A Hwf) in H. Qed.
Lemma wf_ring σ A l es e : wf σ A → A !! l = Some es → e ∈ es → is_ring σ l es.
Proof.
  intros Hwf HA He. destruct (wf_lists σ A Hwf l es HA) as [[[_ ->]|?] _]; [set_solver|done].
Qed.

(** Assigning the fields of nothing but the references of one ring. *)
Lemma wf_fields σ σ' A l es es' nx pv li : wf σ A → A !! l = Some es →
  fields_are σ' nx pv li → ring nx pv (Root l) es' →
  (∀ r, r ∉ Root l :: es ++ es' → nx r = next σ r ∧ pv r = prev σ r) →
  (∀ l', llen σ' l' = if decide (l' = l) then len es' else llen σ l') →
  (∀ e, e ∈ es' → e ∈ es ∨ elist σ e = None) →
  (∀ e, li e = if decide (e ∈ es') then Some l else
     if decide (e ∈ es) then None else elist σ e) →
  (∀ l', Root l' ∉ es') → (∀ e, e ∈ es' → is_Some (f_Value σ !! e)) →
  f_Value σ' = f_Value σ → next_id σ' = next_id σ →
  wf σ' (<[l := es']> A) ∧ is_ring σ' l es'.
Proof.
  intros Hwf HA Hf Hr Hptr Hlen Hnew Hel Hroot Hval Hv Hid.
  assert (is_ring σ' l es').
  { eapply ring_ext; [done|]. intros r _. by destruct (Hf r) as (-> & -> & _). }
  split; [|done]. eapply wf_update; [done|done|..].
  - split; [by right|]. rewrite Hlen. by rewrite decide_True.
  - intros r Hr'. destruct (Hf r) as (-> & -> & _). auto.
  - intros l' Hl'. rewrite Hlen. by rewrite decide_False.
  - done.
  - intros e. by destruct (Hf e) as (_ & _ & ->).
  - done.
  - by rewrite Hv.
  - by rewrite Hv.
  - rewrite Hid, Hv. intros k Hk. split; [done|]. by apply (wf_fresh σ A Hwf).
Qed.

Lemma insert_spec σ A l es1 es2 e : wf σ A → A !! l = Some (es1 ++ es2) →
  is_ring σ l (es1 ++ es2) → elist σ e = None → (∀ l', e ≠ Root l') →
  is_Some (f_Value σ !! e) → len (es1 ++ es2) < 2 ^ 63 - 1 →
  ∃ σ', insert σ l e (before (Root l) es1) = Ok (σ', e) ∧
    wf σ' (<[l := es1 ++ e :: es2]> A) ∧ is_ring σ' l (es1 ++ e :: es2) ∧
    f_Value σ' = f_Value σ.
Proof.
  intros Hwf HA Hring Hfree Hnr Hval Hlen.
  assert (e ∉ es1 ++ es2) as Hni.
  { intros H%(wf_member σ A l _ _ Hwf HA). congruence. }
  pose proof (ring_after _ _ _ _ _ Hring) as Hn.
  pose proof (before_in (Root l) es1) as Hb.
  pose proof (head_in (Root l) es2) as Hn'.
  set (n := default (Root l) (head es2)) in Hn, Hn'.
  assert (e ≠ before (Root l) es1) as Hne.
  { intros ->. apply elem_of_cons in Hb as [Hb|Hb]; [by apply Hnr in Hb|set_solver]. }
  destruct (insert_run σ l e _ _ Hne Hn) as (σ' & Hrun & Hf & Hl & Hv & Hid).
  exists σ'. rewrite Hrun, Hv. split; [done|]. rewrite assoc by apply _. split; [|done].
  eapply wf_fields; [done|done|done|..|done|done].
  - apply ring_insert_at; [done| |done]. rewrite elem_of_cons. intros [H|H]; [by apply Hnr in H|done].
  - intros r Hr. rewrite !upd_ne; [done|set_solver..].
  - intros l'. rewrite Hl. case_decide; [|done]. rewrite (wf_len _ _ _ _ Hwf HA).
    rewrite i64_small.
    + rewrite !len_app, len_cons. lia.
    + pose proof (len_nonneg (es1 ++ es2)). lia.
  - intros e' He'. destruct (decide (e' = e)) as [->|]; [by right|left]. set_solver.
  - intros e'. unfold upd. destruct (decide (e' = e)) as [->|Hee].
    { rewrite decide_True; [done|set_solver]. }
    destruct (decide (e' ∈ es1 ++ es2)) as [Hin|Hin].
    + rewrite decide_True; [|set_solver]. by apply (wf_member σ A l _ _ Hwf HA).
    + rewrite decide_False; [done|set_solver].
  - intros l'. pose proof (wf_not_root σ A l _ l' Hwf HA).
    rewrite elem_of_app, elem_of_cons. specialize (Hnr l'). set_solver.
  - intros e' He'. destruct (decide (e' = e)) as [->|]; [done|].
    apply (wf_value σ A Hwf). exists l. apply (wf_member σ A l _ _ Hwf HA). set_solver.
Qed.

(** The neighbours of a member are not the member. *)
Lemma ring_neighbours σ l es1 e es2 : is_ring σ l (es1 ++ e :: es2) →
  before (Root l) es1 ≠ e ∧ default (Root l) (head es2) ≠ e ∧ e ≠ Root l ∧
  e ∉ es1 ++ es2 ∧ before (Root l) es1 ∈ Root l :: es1 ∧
  default (Root l) (head es2) ∈ Root l :: es2.
Proof.
  intros [_ Hnd]. apply NoDup_cons in Hnd as [Hr Hnd].
  apply NoDup_app in Hnd as (_ & Hd & Hnd). apply NoDup_cons in Hnd as [He _].
  pose proof (before_in (Root l) es1) as Hb.
  pose proof (head_in (Root l) es2) as Ha.
  assert (e ∉ es1) as He1 by (intros H; apply (Hd e H); left).
  assert (e ≠ Root l) as Her by (intros ->; set_solver).
  split_and!; [| |done|set_solver|done|done]; intros E; set_solver.
Qed.

Lemma remove_spec σ A l es1 e es2 : wf σ A → A !! l = Some (es1 ++ e :: es2) →
  len (es1 ++ e :: es2) < 2 ^ 63 →
  ∃ σ', remove σ l e = Ok σ' ∧ wf σ' (<[l := es1 ++ es2]> A) ∧ f_Value σ' = f_Value σ ∧
    next σ' e = None ∧ prev σ' e = None ∧ elist σ' e = None.
Proof.
  intros Hwf HA Hlen.
  assert (is_ring σ l (es1 ++ e :: es2)) as Hring by (apply (wf_ring σ A l _ e); [done|done|set_solver]).
  destruct (ring_before _ _ _ _ _ _ Hring) as [Hp Hn].
  destruct (ring_neighbours _ _ _ _ _ Hring) as (Hpe & Hne & Her & Hni & Hb & Ha).
  destruct (remove_run σ l e _ _ Hp Hn Hpe Hne) as (σ' & Hrun & Hf & Hl & Hv & Hid).
  exists σ'. rewrite Hrun, Hv. split; [done|]. split_and!; [|done|..];
    [|destruct (Hf e) as (H1 & H2 & H3); by rewrite ?H1, ?H2, ?H3, upd_eq..].
  eapply wf_fields; [done|done|done|..|done|done].
  - eapply ring_remove_at; [done..| |]; intros q Hq; by rewrite upd_ne.
  - intros r Hr. rewrite !upd_ne; [done|set_solver..].
  - intros l'. rewrite Hl. case_decide; [|done]. rewrite (wf_len _ _ _ _ Hwf HA).
    rewrite i64_small.
    + rewrite !len_app, len_cons. lia.
    + pose proof (len_nonneg (es1 ++ e :: es2)). lia.
  - intros e' He'. left. set_solver.
  - intros e'. unfold upd. destruct (decide (e' = e)) as [->|Hee].
    { by rewrite decide_False, decide_True by set_solver. }
    destruct (decide (e' ∈ es1 ++ es2)) as [Hin|Hin].
    + apply (wf_member σ A l _ _ Hwf HA). set_solver.
    + rewrite decide_False; [done|set_solver].
  - intros l'. pose proof (wf_not_root σ A l _ l' Hwf HA). set_solver.
  - intros e' He'. apply (wf_value σ A Hwf). exists l.
    apply (wf_member σ A l _ _ Hwf HA). set_solver.
Qed.

Lemma move_spec σ A l es1 e es2 fs1 fs2 : wf σ A → A !! l = Some (es1 ++ e :: es2) →
  es1 ++ es2 = fs1 ++ fs2 →
  ∃ σ', move σ e (before (Root l) fs1) = Ok σ' ∧ wf σ' (<[l := fs1 ++ e :: fs2]> A) ∧
    f_Value σ' = f_Value σ.
Proof.
  intros Hwf HA Hfs.
  assert (is_ring σ l (es1 ++ e :: es2)) as Hring by (apply (wf_ring σ A l _ e); [done|done|set_solver]).
  destruct (ring_before _ _ _ _ _ _ Hring) as [Hp Hn].
  destruct (ring_neighbours _ _ _ _ _ Hring) as (Hpe & Hne & Her & Hni & Hb & Ha).
  pose proof (before_in (Root l) fs1) as Hbf.
  assert (∀ r, r ∈ fs1 ++ fs2 ↔ r ∈ es1 ++ es2) as Hmem by (by rewrite Hfs).
  assert (e ≠ before (Root l) fs1) as Hpos by (intros E; rewrite Hfs in Hni; set_solver).
  set (nx1 := upd (next σ) (before (Root l) es1) (Some (default (Root l) (head es2)))).
  set (pv1 := upd (prev σ) (default (Root l) (head es2)) (Some (before (Root l) es1))).
  assert (ring nx1 pv1 (Root l) (es1 ++ es2)) as Hring1 by by eapply ring_remove_at.
  rewrite Hfs in Hring1. pose proof (ring_after _ _ _ _ _ Hring1) as Hn'.
  pose proof (head_in (Root l) fs2) as Haf.
  destruct (move_run σ e _ _ _ _ Hpos Hp Hn Hpe Hne Hn') as (σ' & Hrun & Hf & Hl & Hv & Hid).
  exists σ'. rewrite Hrun, Hv. split; [done|]. split; [|done].
  assert (∀ r, r ∈ fs1 ++ e :: fs2 ↔ r ∈ es1 ++ e :: es2) as Hmem'.
  { intros r. specialize (Hmem r). clear -Hmem.
    rewrite !elem_of_app in *. rewrite !elem_of_cons. tauto. }
  eapply wf_fields; [done|done|done|..|done|done].
  - apply ring_insert_at; [done| |done]. rewrite <-Hfs, elem_of_cons. set_solver.
  - intros r Hr. assert (∀ x, x ∈ Root l :: es1 ++ e :: es2 → r ≠ x) as Hx.
    { intros x Hx ->. apply Hr. by rewrite app_comm_cons, elem_of_app; left. }
    assert (∀ x, x ∈ Root l :: fs1 ++ fs2 → r ≠ x) as Hx'.
    { intros x Hx1. apply Hx. clear -Hx1 Hmem.
      apply elem_of_cons in Hx1 as [->|Hx1%Hmem%elem_of_app]; [left|right].
      rewrite elem_of_app, elem_of_cons. tauto. }
    unfold nx1, pv1. clear -Hx Hx' Hb Ha Hbf Haf.
    rewrite !upd_ne; [done|..];
      first [apply Hx; clear -Hb Ha; set_solver|apply Hx'; clear -Hbf Haf; set_solver].
  - intros l'. rewrite Hl. case_decide; [|done]. subst. rewrite (wf_len _ _ _ _ Hwf HA).
    apply (f_equal len) in Hfs. rewrite !len_app, ?len_cons in *. lia.
  - intros e' He'. left. by apply Hmem'.
  - intros e'. destruct (decide (e' ∈ fs1 ++ e :: fs2)) as [Hin|Hin].
    + apply (wf_member σ A l _ _ Hwf HA). by apply Hmem'.
    + rewrite decide_False; [done|]. by rewrite <-Hmem'.
  - intros l'. rewrite Hmem'. by eapply wf_not_root.
  - intros e' He'. apply (wf_value σ A Hwf). exists l.
    apply (wf_member σ A l _ _ Hwf HA). by apply Hmem'.
Qed.
End specs.


(** ** Allocation and initialisation *)

Section alloc.
Context {V : Type}.
Implicit Types (σ : store V) (l : Z) (x e pos : ref) (es : list ref) (A : gmap Z (list ref)).

Lemma list_Init_spec σ A l : wf σ A → A !! l = Some [] →
  wf (Init σ l) A ∧ is_ring (Init σ l) l [].
Proof.
  intros Hwf HA. rewrite <-(insert_id A l []) by done.
  eapply (wf_fields σ (Init σ l) A l [] []
    (upd (next σ) (Root l) (Some (Root l))) (upd (prev σ) (Root l) (Some (Root l)))
    (elist σ)); [done|done|..|done|done].
  - intros r. split_and!;
      [|exact (prev_set_prev (set_next σ (Root l) (Some (Root l))) _ _ r)|done].
    change (next (set_next σ (Root l) (Some (Root l))) r = upd (next σ) (Root l) (Some (Root l)) r).
    apply next_set_next.
  - split; [|apply NoDup_singleton]. split; by rewrite upd_eq.
  - intros r Hr. rewrite !upd_ne; [done|set_solver..].
  - intros l'. unfold Init. by rewrite llen_set_len.
  - set_solver.
  - intros e. rewrite decide_False by set_solver. by rewrite decide_False by set_solver.
  - set_solver.
  - set_solver.
Qed.

Lemma lazyInit_spec σ A l es : wf σ A → A !! l = Some es →
  wf (lazyInit σ l) A ∧ is_ring (lazyInit σ l) l es ∧
  f_Value (lazyInit σ l) = f_Value σ ∧ next_id (lazyInit σ l) = next_id σ.
Proof.
  intros Hwf HA. unfold lazyInit. destruct (wf_lists σ A Hwf l es HA) as [[[Hz ->]|Hr] Hl].
  - rewrite Hz. rewrite assoc by apply _. split; [by apply list_Init_spec|done].
  - unfold is_ring. pose proof (ring_next _ _ _ _ Hr) as ->. done.
Qed.

(** A new list object: the zero value of the type [List]. *)
Lemma new_list_spec σ A : wf σ A →
  A !! next_id σ = None ∧ wf (new_list σ).1 (<[next_id σ := []]> A).
Proof.
  intros Hwf. destruct (wf_fresh σ A Hwf (next_id σ)) as (Hv & HA & Hn & H0); [lia|].
  split; [done|]. destruct Hwf as [Hlists Howner Hroot Hval Hfresh]. split; simpl.
  - intros l es. destruct (decide (l = next_id σ)) as [->|Hne].
    + rewrite lookup_insert_eq. intros [= <-]. split; [by left|done].
    + rewrite lookup_insert_ne by done. apply Hlists.
  - intros l e. split.
    + intros (es & HAl & He)%Howner. exists es. split; [|done].
      rewrite lookup_insert_ne; [done|congruence].
    + destruct (decide (l = next_id σ)) as [->|Hne].
      * rewrite lookup_insert_eq. intros (? & [= <-] & ?). set_solver.
      * rewrite lookup_insert_ne by done. apply Howner.
  - done.
  - done.
  - intros k Hk. destruct (Hfresh k) as (? & ? & ? & ?); [lia|].
    rewrite lookup_insert_ne by lia. done.
Qed.

(** A new element, in no list yet. *)
Lemma new_elem_spec σ A v : wf σ A →
  wf (new_elem σ v).1 A ∧ f_Value σ !! Elem (next_id σ) = None ∧
  elist σ (Elem (next_id σ)) = None.
Proof.
  intros Hwf. destruct (wf_fresh σ A Hwf (next_id σ)) as (Hv & HA & Hn & H0); [lia|].
  assert (elist σ (Elem (next_id σ)) = None) as Hfree.
  { apply eq_None_not_Some. intros Hs%(wf_value σ A Hwf). rewrite Hv in Hs. by destruct Hs. }
  split; [|done]. destruct Hwf as [Hlists Howner Hroot Hval Hfresh]. split; simpl; [done..| |].
  - intros e He. apply Hval in He. destruct (decide (e = Elem (next_id σ))) as [->|].
    + by rewrite lookup_insert_eq.
    + by rewrite lookup_insert_ne.
  - intros k Hk. destruct (Hfresh k) as (? & ? & ? & ?); [lia|].
    rewrite lookup_insert_ne; [done|]. intros [=]. lia.
Qed.

Lemma insertValue_spec σ A l es1 es2 v (pos : option ref) : wf σ A → A !! l = Some (es1 ++ es2) →
  is_ring σ l (es1 ++ es2) → len (es1 ++ es2) < 2 ^ 63 - 1 → pos = Some (before (Root l) es1) →
  ∃ σ' e, insertValue σ l v pos = Ok (σ', e) ∧ f_Value σ !! e = None ∧
    wf σ' (<[l := es1 ++ e :: es2]> A) ∧ is_ring σ' l (es1 ++ e :: es2) ∧
    f_Value σ' = <[e := v]> (f_Value σ).
Proof.
  intros Hwf HA Hr Hlen ->. destruct (new_elem_spec σ A v Hwf) as (Hwf' & Hv & Hfree).
  destruct (insert_spec (new_elem σ v).1 A l es1 es2 (Elem (next_id σ)))
    as (σ' & Hrun & Hwf2 & Hr2 & Hv2); [done..| |done|].
  { simpl. by rewrite lookup_insert_eq. }
  exists σ', (Elem (next_id σ)). split; [exact Hrun|done].
Qed.
End alloc.
