(* ===== verification/ListProps.v ===== *)
(** * container/list: the properties

    The sequences that the lists of a store represent, and what every exported
    operation does to them. *)

From stdpp Require Import gmap.
From S2P Require Import Prelude Rings ListModel ListProofs.


Section list_props.
Context {V : Type}.
Implicit Types (σ : store V) (l : Z) (e mark : ref) (es : list ref) (A : gmap Z (list ref)).

(** The list [l] now represents [es]; nothing else changed. *)
Definition becomes σ A l es σ' : Prop := wf σ' (<[l := es]> A) ∧ f_Value σ' = f_Value σ.

(** ..., with the new element [e] holding [v]. *)
Definition becomes_with σ A l es e (v : V) σ' : Prop :=
  f_Value σ !! e = None ∧ wf σ' (<[l := es]> A) ∧ f_Value σ' = <[e := v]> (f_Value σ).

Lemma bool_decide_member σ A l es e : wf σ A → A !! l = Some es →
  bool_decide (elist σ e = Some l) = bool_decide (e ∈ es).
Proof. intros Hwf HA. apply bool_decide_ext. by apply (wf_member σ A). Qed.

Lemma PushFront_spec σ A l es v : wf σ A → A !! l = Some es → len es < 2 ^ 63 - 1 →
  ∃ σ' e, PushFront σ l v = Ok (σ', e) ∧ becomes_with σ A l (e :: es) e v σ'.
Proof.
  intros Hwf HA Hlen. destruct (lazyInit_spec σ A l es Hwf HA) as (Hwf' & Hr & Hv & _).
  destruct (insertValue_spec (lazyInit σ l) A l [] es v (Some (Root l)))
    as (σ' & e & Hrun & Hn & Hwf2 & _ & Hv2); [done..|].
  exists σ', e. rewrite Hv in Hn, Hv2. done.
Qed.

Lemma PushBack_spec σ A l es v : wf σ A → A !! l = Some es → len es < 2 ^ 63 - 1 →
  ∃ σ' e, PushBack σ l v = Ok (σ', e) ∧ becomes_with σ A l (es ++ [e]) e v σ'.
Proof.
  intros Hwf HA Hlen. destruct (lazyInit_spec σ A l es Hwf HA) as (Hwf' & Hr & Hv & _).
  destruct (insertValue_spec (lazyInit σ l) A l es [] v (prev (lazyInit σ l) (Root l)))
    as (σ' & e & Hrun & Hn & Hwf2 & _ & Hv2); rewrite ?app_nil_r; [done..| |].
  { exact (ring_prev _ _ _ _ Hr). }
  exists σ', e. rewrite Hv in Hn, Hv2. done.
Qed.

Lemma Insert_spec σ A l es1 mark es2 v : wf σ A → A !! l = Some (es1 ++ mark :: es2) →
  len (es1 ++ mark :: es2) < 2 ^ 63 - 1 →
  (∃ σ' e, InsertBefore σ l v mark = Ok (σ', Some e) ∧
    becomes_with σ A l (es1 ++ e :: mark :: es2) e v σ') ∧
  (∃ σ' e, InsertAfter σ l v mark = Ok (σ', Some e) ∧
    becomes_with σ A l (es1 ++ mark :: e :: es2) e v σ').
Proof.
  intros Hwf HA Hlen.
  assert (is_ring σ l (es1 ++ mark :: es2)) as Hr.
  { apply (wf_ring σ A l _ mark); [done|done|set_solver]. }
  unfold InsertBefore, InsertAfter. rewrite (bool_decide_member _ _ _ _ _ Hwf HA).
  rewrite bool_decide_true by set_solver. cbn [negb]. split.
  - destruct (insertValue_spec σ A l es1 (mark :: es2) v (prev σ mark))
      as (σ' & e & -> & Hn & Hwf2 & _ & Hv2); [done..| |by exists σ', e].
    by destruct (ring_before _ _ _ _ _ _ Hr).
  - destruct (insertValue_spec σ A l (es1 ++ [mark]) es2 v (Some mark))
      as (σ' & e & -> & Hn & Hwf2 & _ & Hv2); rewrite <-?app_assoc; [done..| |].
    { unfold before. by rewrite last_snoc. }
    rewrite <-app_assoc in Hwf2. by exists σ', e.
Qed.

Lemma becomes_id σ A l es : wf σ A → A !! l = Some es → becomes σ A l es σ.
Proof. intros Hwf HA. split; [|done]. by rewrite insert_id. Qed.

Lemma Remove_spec σ A l es1 e es2 : wf σ A → A !! l = Some (es1 ++ e :: es2) →
  len (es1 ++ e :: es2) < 2 ^ 63 →
  ∃ σ' v, Remove σ l e = Ok (σ', v) ∧ Value σ e = Ok v ∧ becomes σ A l (es1 ++ es2) σ' ∧
    next σ' e = None ∧ prev σ' e = None ∧ elist σ' e = None.
Proof.
  intros Hwf HA Hlen. assert (elist σ e = Some l) as He.
  { apply (wf_member σ A l _ e Hwf HA). set_solver. }
  destruct (wf_value σ A Hwf e (mk_is_Some _ _ He)) as [v Hv].
  destruct (remove_spec σ A l es1 e es2 Hwf HA Hlen) as (σ' & Hrun & Hwf' & HV & Hf).
  exists σ', v. unfold Remove, Value. rewrite decide_True, Hrun by done. simpl.
  rewrite HV, Hv. done.
Qed.

Section moves.
Context (σ : store V) (A : gmap Z (list ref)) (l : Z) (es1 : list ref) (e : ref) (es2 : list ref).
Hypothesis Hwf : wf σ A.
Hypothesis HA : A !! l = Some (es1 ++ e :: es2).

Lemma e_member : bool_decide (elist σ e = Some l) = true.
Proof. rewrite (bool_decide_member _ _ _ _ _ Hwf HA). apply bool_decide_true. set_solver. Qed.

Lemma moves_ring : is_ring σ l (es1 ++ e :: es2).
Proof. apply (wf_ring σ A l _ e); [done|done|set_solver]. Qed.

Lemma e_unique : e ∉ es1 ++ es2.
Proof. by destruct (ring_neighbours _ _ _ _ _ moves_ring) as (_ & _ & _ & ? & _). Qed.

Lemma MoveToFront_spec :
  ∃ σ', MoveToFront σ l e = Ok σ' ∧ becomes σ A l (e :: es1 ++ es2) σ'.
Proof.
  unfold MoveToFront. rewrite e_member. simpl.
  pose proof e_unique as Hu. pose proof (becomes_id σ A l _ Hwf HA) as Hid.
  case_bool_decide as Hn.
  - exists σ. split; [done|]. rewrite (ring_next _ _ _ _ moves_ring) in Hn.
    clear HA. destruct es1 as [|x r]; [done|]. simpl in Hn. injection Hn as ->. set_solver.
  - destruct (move_spec σ A l es1 e es2 [] (es1 ++ es2)) as (σ' & Hrun & Hb); [done..|].
    by exists σ'.
Qed.

Lemma MoveToBack_spec :
  ∃ σ', MoveToBack σ l e = Ok σ' ∧ becomes σ A l (es1 ++ es2 ++ [e]) σ'.
Proof.
  unfold MoveToBack. rewrite e_member. simpl.
  pose proof e_unique as Hu. pose proof HA as HA'.
  pose proof (ring_prev _ _ _ _ moves_ring) as Hp. rewrite Hp.
  destruct es2 as [|x r _] eqn:E2 using rev_ind.
  - rewrite last_snoc. simpl. rewrite bool_decide_true by done.
    exists σ. split; [done|]. by apply becomes_id.
  - rewrite app_comm_cons, app_assoc, last_snoc in Hp |- *. simpl.
    rewrite bool_decide_false by (intros [= ->]; set_solver).
    destruct (move_spec σ A l es1 e (r ++ [x]) (es1 ++ r ++ [x]) [] Hwf HA')
      as (σ' & Hrun & Hb); [by rewrite app_nil_r|].
    exists σ'. rewrite <-app_assoc in Hb. split; [|done].
    unfold before in Hrun. by rewrite app_assoc, last_snoc in Hrun.
Qed.

Lemma MoveBefore_After_spec mark fs1 fs2 : es1 ++ es2 = fs1 ++ mark :: fs2 →
  (∃ σ', MoveBefore σ l e mark = Ok σ' ∧ becomes σ A l (fs1 ++ e :: mark :: fs2) σ') ∧
  (∃ σ', MoveAfter σ l e mark = Ok σ' ∧ becomes σ A l (fs1 ++ mark :: e :: fs2) σ').
Proof.
  intros Hfs. pose proof e_unique as Hu. pose proof moves_ring as Hr.
  pose proof (becomes_id σ A l _ Hwf HA) as Hid. rewrite Hfs in Hu.
  assert (mark ∈ es1 ++ es2) as Hm by (rewrite Hfs; set_solver).
  unfold MoveBefore, MoveAfter. rewrite e_member.
  rewrite (bool_decide_member σ A l _ mark Hwf HA), (bool_decide_true (mark ∈ _)) by set_solver.
  rewrite (bool_decide_false (e = mark)) by set_solver. simpl. split.
  - apply app_eq_inv in Hfs as Hfs'. destruct Hfs' as [(k & E1 & E2)|(k & E1 & E2)].
    + assert (k = [] ∨ ∃ k', k = mark :: k') as [->|[k' ->]].
      { destruct k as [|y k']; [by left|]. injection E2 as <- _. right. by exists k'. }
      * simpl in E2. subst es2. rewrite app_nil_r in E1. subst fs1.
        rewrite (cons_middle e), app_assoc in Hr.
        destruct (ring_before _ _ _ _ _ _ Hr) as [Hp _].
        unfold before in Hp. rewrite last_snoc in Hp. simpl in Hp. rewrite Hp. simpl.
        exists σ. unfold move. rewrite decide_True by done. by split.
      * injection E2 as E2. rewrite E1, <-app_assoc in Hr.
        destruct (ring_before _ _ _ _ _ _ Hr) as [Hp _]. rewrite Hp. simpl.
        apply (move_spec σ A l es1 e es2 fs1 (mark :: fs2) Hwf HA Hfs).
    + rewrite E2, app_comm_cons, app_assoc in Hr.
      destruct (ring_before _ _ _ _ _ _ Hr) as [Hp _]. rewrite Hp. simpl.
      destruct k as [|y k _] using rev_ind.
      * unfold before. rewrite last_snoc. simpl. rewrite app_nil_r in E1. simpl in E2.
        exists σ. unfold move. rewrite decide_True by done. split; [done|]. by subst.
      * replace (before (Root l) (es1 ++ e :: k ++ [y])) with (before (Root l) fs1).
        { apply (move_spec σ A l es1 e es2 fs1 (mark :: fs2) Hwf HA Hfs). }
        unfold before. by rewrite E1, app_comm_cons, !app_assoc, !last_snoc.
  - destruct (move_spec σ A l es1 e es2 (fs1 ++ [mark]) fs2 Hwf HA) as (σ' & Hrun & Hb).
    { by rewrite <-app_assoc. }
    unfold before in Hrun. rewrite last_snoc in Hrun. rewrite <-app_assoc in Hb.
    by exists σ'.
Qed.
End moves.
End list_props.


Section list_loops.
Context {V : Type}.
Implicit Types (σ : store V) (l : Z) (e mark : ref) (es ns : list ref) (A : gmap Z (list ref)).

Lemma observe_spec σ A l es : wf σ A → A !! l = Some es →
  Len σ l = len es ∧ Front σ l = head es ∧ Back σ l = last es.
Proof.
  intros Hwf HA. destruct (wf_lists σ A Hwf l es HA) as [Hr Hl].
  unfold Len, Front, Back. rewrite Hl. split; [done|].
  destruct Hr as [[_ ->]|Hr]; [done|].
  rewrite (ring_next _ _ _ _ Hr), (ring_prev _ _ _ _ Hr).
  destruct es as [|x t _] using rev_ind; [done|].
  pose proof (len_nonneg t). rewrite len_app, len_cons, len_nil.
  rewrite (proj2 (Z.eqb_neq _ _)) by lia. rewrite last_snoc. split; [|done]. by destruct t.
Qed.

Lemma element_spec σ A l es1 e es2 : wf σ A → A !! l = Some (es1 ++ e :: es2) →
  Next σ e = head es2 ∧ Prev σ e = last es1 ∧ ∃ v, Value σ e = Ok v ∧ f_Value σ !! e = Some v.
Proof.
  intros Hwf HA.
  assert (elist σ e = Some l) as He by (apply (wf_member σ A l _ e Hwf HA); set_solver).
  pose proof (wf_ring σ A l _ e Hwf HA ltac:(set_solver)) as Hr.
  destruct (ring_before _ _ _ _ _ _ Hr) as [Hp Hn].
  pose proof (wf_not_root σ A l _ l Hwf HA) as Hroot.
  split_and!.
  - unfold Next. rewrite Hn, He. destruct es2 as [|x es2]; simpl; [by rewrite decide_True|].
    rewrite decide_False; [done|]. intros [= ->]. set_solver.
  - unfold Prev. rewrite Hp, He. unfold before.
    destruct es1 as [|x es1 _] using rev_ind; [by rewrite decide_True|].
    rewrite last_snoc. simpl. rewrite decide_False; [done|]. intros [= ->]. set_solver.
  - destruct (wf_value σ A Hwf e (mk_is_Some _ _ He)) as [v Hv]. exists v.
    unfold Value. by rewrite Hv.
Qed.

Lemma New_spec σ A : wf σ A → let '(σ', l) := New σ in
  A !! l = None ∧ becomes σ A l [] σ'.
Proof.
  intros Hwf. unfold New. simpl. destruct (new_list_spec σ A Hwf) as [HA Hwf'].
  split; [done|]. split; [|done].
  apply (list_Init_spec _ _ _ Hwf'), lookup_insert_eq.
Qed.

(** What [PushBackList] and [PushFrontList] add: copies of the values. *)
Definition copies σ σ' os ns : Prop :=
  f_Value σ ⊆ f_Value σ' ∧
  Forall2 (λ o n, f_Value σ !! n = None ∧ ∃ v, f_Value σ !! o = Some v ∧ f_Value σ' !! n = Some v) os ns.

Lemma copies_nil σ σ' : f_Value σ' = f_Value σ → copies σ σ' [] [].
Proof. intros H. split; [by rewrite H|done]. Qed.

Lemma copies_step σ σ1 σ2 os ns o n v : copies σ σ1 os ns → f_Value σ1 !! n = None →
  is_Some (f_Value σ !! o) → f_Value σ1 !! o = Some v → f_Value σ2 = <[n := v]> (f_Value σ1) →
  f_Value σ ⊆ f_Value σ2 ∧
  Forall2 (λ o n, f_Value σ !! n = None ∧ ∃ v, f_Value σ !! o = Some v ∧ f_Value σ2 !! n = Some v) os ns ∧
  f_Value σ !! n = None ∧ f_Value σ !! o = Some v ∧ f_Value σ2 !! n = Some v.
Proof.
  intros [Hsub Hall] Hn [v' Ho] Hv ->.
  assert (f_Value σ !! n = None) by by eapply lookup_weaken_None.
  rewrite lookup_insert_eq. split_and!; [by apply insert_subseteq_r| |done| |done].
  - eapply Forall2_impl; [done|]. intros o' n' [? (v0 & ? & ?)]. split; [done|].
    exists v0. split; [done|]. rewrite lookup_insert_ne; [done|]. congruence.
  - rewrite Ho. pose proof (lookup_weaken _ _ _ _ Ho Hsub). congruence.
Qed.

(** The sequence of [other] once [ns] is part of [l], which may be the same list. *)
Definition also l other ns : list ref := if decide (other = l) then ns else [].

Lemma other_back A l other es os ns : A !! l = Some es → A !! other = Some os →
  (<[l := es ++ ns]> A) !! other = Some (os ++ also l other ns).
Proof.
  intros HA HO. unfold also. destruct (decide (other = l)) as [->|Hne].
  - rewrite lookup_insert_eq. congruence.
  - by rewrite lookup_insert_ne, app_nil_r.
Qed.
Lemma other_front A l other es os ns : A !! l = Some es → A !! other = Some os →
  (<[l := ns ++ es]> A) !! other = Some (also l other ns ++ os).
Proof.
  intros HA HO. unfold also. destruct (decide (other = l)) as [->|Hne].
  - rewrite lookup_insert_eq. congruence.
  - by rewrite lookup_insert_ne.
Qed.
Lemma also_nil l other : also l other [] = [].
Proof. unfold also. by case_decide. Qed.

Lemma copies_length σ σ' os ns : copies σ σ' os ns → len os = len ns.
Proof. intros [_ H]. unfold len. by rewrite (Forall2_length _ _ _ H). Qed.

Lemma PushBackList_spec σ A l es other os : wf σ A → A !! l = Some es → A !! other = Some os →
  len es + len os < 2 ^ 63 →
  ∃ σ' ns, PushBackList σ l other = Ok σ' ∧ wf σ' (<[l := es ++ ns]> A) ∧ copies σ σ' os ns.
Proof.
  intros Hwf HA HO Hlen. destruct (lazyInit_spec σ A l es Hwf HA) as (Hwf0 & Hr0 & HV0 & _).
  assert (wp (PushBackList σ l other) (λ σ', ∃ ns, wf σ' (<[l := es ++ ns]> A) ∧ copies σ σ' os ns))
    as Hwp.
  2: { apply wp_exists in Hwp as (σ' & Hrun & ns & H). by exists σ', ns. }
  unfold PushBackList. destruct (observe_spec _ _ _ _ Hwf0 HO) as (-> & -> & _).
  apply (wp_loop (λ '(σ1, i, e), ∃ os1 os2 ns, os = os1 ++ os2 ∧ i = len os2 ∧
      wf σ1 (<[l := es ++ ns]> A) ∧ is_ring σ1 l (es ++ ns) ∧ copies σ σ1 os1 ns ∧
      e = head (os2 ++ also l other ns)) (λ '(_, i, _), i)).
  - exists [], os, []. rewrite !app_nil_r, insert_id by done.
    split_and!; [done..|by apply copies_nil|]. by rewrite also_nil, app_nil_r.
  - intros [[σ1 i] e] (? & os2 & ? & ? & -> & ?). apply len_nonneg.
  - unfold fuel_of. pose proof (len_nonneg os). lia.
  - intros [[σ1 i] e] (os1 & os2 & ns & -> & -> & Hwf1 & Hr1 & Hc & ->).
    zcase; [|destruct os2; [|rewrite len_cons in *; pose proof (len_nonneg os2); lia]].
    2: { apply wp_ret. exists ns. by rewrite app_nil_r. }
    destruct os2 as [|o os2]; [rewrite len_nil in *; lia|]. simpl.
    assert ((<[l := es ++ ns]> A) !! other = Some (os1 ++ o :: os2 ++ also l other ns)) as HO1.
    { rewrite (other_back A l other es (os1 ++ o :: os2)) by done. by rewrite <-app_assoc. }
    destruct (element_spec _ _ _ _ _ _ Hwf1 HO1) as (_ & _ & v & Hv & Hv').
    rewrite Hv. simpl.
    pose proof (copies_length _ _ _ _ Hc) as Hlns. pose proof (len_nonneg os2).
    destruct (insertValue_spec σ1 (<[l := es ++ ns]> A) l (es ++ ns) [] v (prev σ1 (Root l)))
      as (σ2 & e & -> & Hn & Hwf2 & Hr2 & HV2); rewrite ?app_nil_r.
    + done.
    + by rewrite lookup_insert_eq.
    + done.
    + rewrite len_app in *. rewrite len_cons in *. lia.
    + exact (ring_prev _ _ _ _ Hr1).
    + apply wp_ret. simpl. rewrite insert_insert_eq, <-app_assoc in Hwf2.
      rewrite <-app_assoc in Hr2. split; [|rewrite len_cons; lia].
      assert (is_Some (f_Value σ !! o)) as Ho.
      { apply (wf_value σ A Hwf). exists other. apply (wf_member σ A other _ o Hwf HO). set_solver. }
      destruct (copies_step _ _ _ _ _ _ _ _ Hc Hn Ho Hv' HV2) as (? & ? & ? & ? & ?).
      exists (os1 ++ [o]), os2, (ns ++ [e]). rewrite <-app_assoc. 
        split_and!; [done|rewrite len_cons; lia|done|done|..].
      { split; [done|]. apply Forall2_app; [done|]. by repeat econstructor. }
      apply (element_spec σ2 (<[l := es ++ ns ++ [e]]> A) other os1 o); [done|].
      rewrite (other_back A l other es (os1 ++ o :: os2)) by done. by rewrite <-app_assoc.
Qed.

Lemma PushFrontList_spec σ A l es other os : wf σ A → A !! l = Some es → A !! other = Some os →
  len es + len os < 2 ^ 63 →
  ∃ σ' ns, PushFrontList σ l other = Ok σ' ∧ wf σ' (<[l := ns ++ es]> A) ∧ copies σ σ' os ns.
Proof.
  intros Hwf HA HO Hlen. destruct (lazyInit_spec σ A l es Hwf HA) as (Hwf0 & Hr0 & HV0 & _).
  assert (wp (PushFrontList σ l other) (λ σ', ∃ ns, wf σ' (<[l := ns ++ es]> A) ∧ copies σ σ' os ns))
    as Hwp.
  2: { apply wp_exists in Hwp as (σ' & Hrun & ns & H). by exists σ', ns. }
  unfold PushFrontList. destruct (observe_spec _ _ _ _ Hwf0 HO) as (-> & _ & ->).
  apply (wp_loop (λ '(σ1, i, e), ∃ os1 os2 ns, os = os1 ++ os2 ∧ i = len os1 ∧
      wf σ1 (<[l := ns ++ es]> A) ∧ is_ring σ1 l (ns ++ es) ∧ copies σ σ1 os2 ns ∧
      e = last (also l other ns ++ os1)) (λ '(_, i, _), i)).
  - exists os, [], []. rewrite app_nil_r, insert_id, also_nil by done.
    split_and!; [done..|by apply copies_nil|done].
  - intros [[σ1 i] e] (os1 & ? & ? & ? & -> & ?). apply len_nonneg.
  - unfold fuel_of. pose proof (len_nonneg os). lia.
  - intros [[σ1 i] e] (os1 & os2 & ns & -> & -> & Hwf1 & Hr1 & Hc & ->).
    zcase; [|destruct os1; [|rewrite len_cons in *; pose proof (len_nonneg os1); lia]].
    2: { apply wp_ret. by exists ns. }
    destruct os1 as [|o os1 _] using rev_ind; [rewrite len_nil in *; lia|].
    rewrite app_assoc, last_snoc. simpl. rewrite <-app_assoc in HO |- *. simpl in HO |- *.
    assert ((<[l := ns ++ es]> A) !! other = Some ((also l other ns ++ os1) ++ o :: os2)) as HO1.
    { rewrite (other_front A l other es (os1 ++ o :: os2)) by done. by rewrite <-app_assoc. }
    destruct (element_spec _ _ _ _ _ _ Hwf1 HO1) as (_ & _ & v & Hv & Hv').
    rewrite Hv. simpl.
    pose proof (copies_length _ _ _ _ Hc) as Hlns. pose proof (len_nonneg os1).
    destruct (insertValue_spec σ1 (<[l := ns ++ es]> A) l [] (ns ++ es) v (Some (Root l)))
      as (σ2 & e & -> & Hn & Hwf2 & Hr2 & HV2).
    + done.
    + by rewrite lookup_insert_eq.
    + done.
    + revert Hlen. simpl. rewrite !len_app, len_cons, len_nil. lia.
    + done.
    + apply wp_ret. simpl. rewrite insert_insert_eq in Hwf2.
      split; [|rewrite len_app, len_cons, len_nil; lia].
      assert (is_Some (f_Value σ !! o)) as Ho.
      { apply (wf_value σ A Hwf). exists other. apply (wf_member σ A other _ o Hwf HO). set_solver. }
      destruct (copies_step _ _ _ _ _ _ _ _ Hc Hn Ho Hv' HV2) as (? & ? & ? & ? & ?).
      exists os1, (o :: os2), (e :: ns).
      split_and!; [done|rewrite len_app, len_cons, len_nil; lia|done|done|..].
      { split; [done|]. constructor; [eauto|done]. }
      apply (element_spec σ2 (<[l := (e :: ns) ++ es]> A) other _ o os2); [done|].
      rewrite (other_front A l other es (os1 ++ o :: os2)) by done. by rewrite app_assoc.
Qed.
End list_loops.


(** ** A store with one list, for the witnesses *)

Lemma wf_empty {V} : wf (Store (V:=V) ∅ ∅ ∅ ∅ ∅ 0) ∅.
Proof.
  split; [done| |done| |done].
  - intros l e. split; [done|]. by intros (? & ? & ?).
  - intros e [? ?]. done.
Qed.

Definition store0 : store Z := (New (Store ∅ ∅ ∅ ∅ ∅ 0)).1.
Definition push0 (σ : store Z) (v : Z) : store Z :=
  match PushBack σ 0 v with Ok (σ', _) => σ' | _ => σ end.
Definition store2 : store Z := push0 (push0 store0 10) 20.

Lemma wf_store0 : wf store0 {[0 := []]}.
Proof. exact (proj1 (proj2 (New_spec _ _ wf_empty))). Qed.

Lemma wf_push0 σ es v e : wf σ {[0 := es]} → len es < 2 ^ 63 - 1 →
  PushBack σ 0 v = Ok (push0 σ v, e) → wf (push0 σ v) {[0 := es ++ [e]]}.
Proof.
  intros Hwf Hlen Hrun.
  destruct (PushBack_spec σ _ 0 es v Hwf) as (σ' & e' & Hrun' & _ & Hwf' & _); [done..|].
  rewrite Hrun in Hrun'. injection Hrun' as -> ->. by rewrite insert_singleton_eq in Hwf'.
Qed.

Lemma wf_store2 : wf store2 {[0 := [Elem 1; Elem 2]]}.
Proof.
  apply (wf_push0 _ [Elem 1] 20 (Elem 2)); [|done|vm_compute; reflexivity].
  apply (wf_push0 _ [] 10 (Elem 1)); [apply wf_store0|done|vm_compute; reflexivity].
Qed.

(** A member of a list that [Init] has cleared is still removed from it. *)
Lemma Init_stale_Remove {V} (σ : store V) A l es e : wf σ A → A !! l = Some es → e ∈ es →
  ∃ σ' v, Remove (Init σ l) l e = Ok (σ', v) ∧ Len σ' l = -1.
Proof.
  intros Hwf HA He. apply list_elem_of_split in He as (es1 & es2 & ->).
  assert (elist σ e = Some l) as Hel by (apply (wf_member σ A l _ e Hwf HA); set_solver).
  destruct (wf_value σ A Hwf e (mk_is_Some _ _ Hel)) as [v Hv].
  pose proof (wf_ring σ A l _ e Hwf HA ltac:(set_solver)) as Hr.
  destruct (ring_before _ _ _ _ _ _ Hr) as [Hp Hn].
  destruct (ring_neighbours _ _ _ _ _ Hr) as (Hpe & Hne & Her & _).
  assert (next (Init σ l) e = next σ e ∧ prev (Init σ l) e = prev σ e) as [En Ep].
  { unfold next, prev, Init. simpl. by rewrite !lookup_partial_alter_ne. }
  destruct (remove_run (Init σ l) l e _ _ (eq_trans Ep Hp) (eq_trans En Hn) Hpe Hne)
    as (σ' & Hrun & _ & Hlen & HV & _).
  exists σ', v. unfold Remove, Value. rewrite decide_True by done. rewrite Hrun. simpl.
  rewrite HV. change (f_Value (Init σ l)) with (f_Value σ). rewrite Hv. split; [done|].
  unfold Len. rewrite Hlen, decide_True by done. unfold Init. by rewrite llen_set_len, decide_True.
Qed.

(** ** The properties *)

(** C12: A list is the sequence of its elements. [Len], [Front], [Back], [Next] and
    [Prev] read it; an element in no list has no neighbours. [PushFront],
    [PushBack], [InsertBefore] and [InsertAfter] allocate a fresh element holding
    the value, put it at the front, the back, before or after the mark in the
    sequence, and return it; the [Insert] methods return nil and change nothing
    when the mark is in another list or in none. No other list and no existing
    element changes. [New] makes an empty list, [Init] re-initialises an empty one
    and leaves any list empty; but it does not touch the elements that were in it:
    each still names the list as its own, and [Remove] of one leaves the length
    at -1. [PushBackList] and [PushFrontList] terminate and add, at the back or the
    front, fresh elements with the values of the other list, in its order; the two
    lists may be the same one, which then holds every value twice. *)
Theorem list_sequence_correct {V} (σ : store V) (A : gmap Z (list ref)) :
  wf σ A →
  (∀ l es, A !! l = Some es → Len σ l = len es ∧ Front σ l = head es ∧ Back σ l = last es ∧
    ∀ es1 e es2, es = es1 ++ e :: es2 →
      Next σ e = head es2 ∧ Prev σ e = last es1 ∧ ∃ v, Value σ e = Ok v) ∧
  (∀ e, (∀ l es, A !! l = Some es → e ∉ es) → Next σ e = None ∧ Prev σ e = None) ∧
  (let '(σ', l) := New σ in A !! l = None ∧ becomes σ A l [] σ') ∧
  (∀ l, A !! l = Some [] → wf (Init σ l) A) ∧
  (∀ l, Len (Init σ l) l = 0 ∧ Front (Init σ l) l = None ∧ Back (Init σ l) l = None) ∧
  (∀ l es e, A !! l = Some es → e ∈ es →
    ∃ σ' v, Remove (Init σ l) l e = Ok (σ', v) ∧ Len σ' l = -1) ∧
  (∀ l es v, A !! l = Some es → len es < 2 ^ 63 - 1 →
    (∃ σ' e, PushFront σ l v = Ok (σ', e) ∧ becomes_with σ A l (e :: es) e v σ') ∧
    (∃ σ' e, PushBack σ l v = Ok (σ', e) ∧ becomes_with σ A l (es ++ [e]) e v σ') ∧
    (∀ mark, mark ∉ es →
      InsertBefore σ l v mark = Ok (σ, None) ∧ InsertAfter σ l v mark = Ok (σ, None)) ∧
    (∀ es1 mark es2, es = es1 ++ mark :: es2 →
      (∃ σ' e, InsertBefore σ l v mark = Ok (σ', Some e) ∧
        becomes_with σ A l (es1 ++ e :: mark :: es2) e v σ') ∧
      (∃ σ' e, InsertAfter σ l v mark = Ok (σ', Some e) ∧
        becomes_with σ A l (es1 ++ mark :: e :: es2) e v σ'))) ∧
  (∀ l es other os, A !! l = Some es → A !! other = Some os → len es + len os < 2 ^ 63 →
    (∃ σ' ns, PushBackList σ l other = Ok σ' ∧ wf σ' (<[l := es ++ ns]> A) ∧ copies σ σ' os ns) ∧
    (∃ σ' ns, PushFrontList σ l other = Ok σ' ∧ wf σ' (<[l := ns ++ es]> A) ∧ copies σ σ' os ns)).
Proof.
  intros Hwf. split_and!.
  - intros l es HA. destruct (observe_spec σ A l es Hwf HA) as (? & ? & ?).
    split_and!; [done..|]. intros es1 e es2 ->.
    destruct (element_spec σ A l es1 e es2 Hwf HA) as (? & ? & v & ? & _). eauto.
  - intros e He. assert (elist σ e = None) as Hn.
    { apply eq_None_not_Some. intros [l Hl]. apply (wf_owner σ A Hwf) in Hl as (es & HA & Hin).
      by apply (He l es). }
    unfold Next, Prev. by rewrite Hn.
  - by apply New_spec.
  - intros l HA. by apply list_Init_spec.
  - intros l. assert (llen (Init σ l) l = 0) as H0.
    { unfold Init. rewrite llen_set_len. by rewrite decide_True. }
    unfold Len, Front, Back. by rewrite H0.
  - intros l es e HA He. by eapply Init_stale_Remove.
  - intros l es v HA Hlen. split_and!; [by apply PushFront_spec|by apply PushBack_spec|..].
    + intros mark Hm. unfold InsertBefore, InsertAfter.
      by rewrite (bool_decide_member _ _ _ _ _ Hwf HA), bool_decide_false.
    + intros es1 mark es2 ->. by apply (Insert_spec σ A).
  - intros. split; [by apply PushBackList_spec|by apply PushFrontList_spec].
Qed.

Lemma list_sequence_correct_witness :
  (∃ σ' e, InsertAfter store2 0 30 (Elem 1) = Ok (σ', Some e) ∧
    becomes_with store2 {[0 := [Elem 1; Elem 2]]} 0 [Elem 1; e; Elem 2] e 30 σ') ∧
  Next store2 (Elem 1) = Some (Elem 2) ∧ Len store2 0 = 2 ∧ Back store2 0 = Some (Elem 2) ∧
  (∃ σ' ns, PushFrontList store2 0 0 = Ok σ' ∧ wf σ' {[0 := ns ++ [Elem 1; Elem 2]]} ∧
    copies store2 σ' [Elem 1; Elem 2] ns).
Proof.
  destruct (list_sequence_correct store2 {[0 := [Elem 1; Elem 2]]} wf_store2)
    as (H & _ & _ & _ & _ & _ & HI & HP).
  destruct (H 0 [Elem 1; Elem 2] (lookup_singleton_eq _ _)) as (HL & _ & HB & HE).
  split; [|split; [apply (HE [] (Elem 1) [Elem 2] eq_refl)|split; [done|split; [done|]]]].
  2: { destruct (HP 0 [Elem 1; Elem 2] 0 [Elem 1; Elem 2] (lookup_singleton_eq _ _) (lookup_singleton_eq _ _)
         ltac:(done)) as [_ (σ' & ns & H1 & H2 & H3)].
       exists σ', ns. rewrite insert_singleton_eq in H2. split_and!; assumption. }
  destruct (HI 0 [Elem 1; Elem 2] 30 (lookup_singleton_eq _ _) ltac:(done)) as (_ & _ & _ & H4).
  apply (H4 [] (Elem 1) [Elem 2]). reflexivity.
Defined.

(** C13: [Remove] unlinks exactly the element, clears its fields and returns its
    value; the four moves put it at the front, the back, before or after the
    mark and leave the order of the others. An element of another list (or of
    none) is left alone by all of them, as is one with a foreign mark or that is
    its own mark. *)
Theorem list_Remove_Move_correct {V} (σ : store V) (A : gmap Z (list ref)) l es :
  wf σ A → A !! l = Some es → len es < 2 ^ 63 →
  (∀ e, e ∉ es → Remove σ l e = (v ← Value σ e; mret (σ, v)) ∧
    MoveToFront σ l e = Ok σ ∧ MoveToBack σ l e = Ok σ ∧
    (∀ mark, MoveBefore σ l e mark = Ok σ ∧ MoveAfter σ l e mark = Ok σ ∧
      MoveBefore σ l mark e = Ok σ ∧ MoveAfter σ l mark e = Ok σ)) ∧
  (∀ e, MoveBefore σ l e e = Ok σ ∧ MoveAfter σ l e e = Ok σ) ∧
  (∀ es1 e es2, es = es1 ++ e :: es2 →
    (∃ σ' v, Remove σ l e = Ok (σ', v) ∧ Value σ e = Ok v ∧ becomes σ A l (es1 ++ es2) σ' ∧
      next σ' e = None ∧ prev σ' e = None ∧ elist σ' e = None) ∧
    (∃ σ', MoveToFront σ l e = Ok σ' ∧ becomes σ A l (e :: es1 ++ es2) σ') ∧
    (∃ σ', MoveToBack σ l e = Ok σ' ∧ becomes σ A l (es1 ++ es2 ++ [e]) σ') ∧
    (∀ mark fs1 fs2, es1 ++ es2 = fs1 ++ mark :: fs2 →
      (∃ σ', MoveBefore σ l e mark = Ok σ' ∧ becomes σ A l (fs1 ++ e :: mark :: fs2) σ') ∧
      (∃ σ', MoveAfter σ l e mark = Ok σ' ∧ becomes σ A l (fs1 ++ mark :: e :: fs2) σ'))).
Proof.
  intros Hwf HA Hlen. split_and!.
  - intros e He. pose proof (bool_decide_member σ A l es e Hwf HA) as Hb.
    rewrite (bool_decide_false (e ∈ es)) in Hb by done.
    assert (elist σ e ≠ Some l) as Hne by by eapply bool_decide_eq_false.
    unfold Remove, MoveToFront, MoveToBack, MoveBefore, MoveAfter.
    rewrite decide_False, Hb by done. split_and!; [done..|].
    intros mark. change (negb false) with true. by rewrite !orb_true_r.
  - intros e. unfold MoveBefore, MoveAfter. by rewrite (bool_decide_true (e = e)), orb_true_r.
  - intros es1 e es2 ->. split_and!.
    + by apply Remove_spec.
    + by apply (MoveToFront_spec σ A).
    + by apply (MoveToBack_spec σ A).
    + intros mark fs1 fs2 Hfs. by apply (MoveBefore_After_spec σ A l es1 e es2).
Qed.

Lemma list_Remove_Move_correct_witness :
  (∃ σ', MoveToBack store2 0 (Elem 1) = Ok σ' ∧
    becomes store2 {[0 := [Elem 1; Elem 2]]} 0 [Elem 2; Elem 1] σ') ∧
  (∃ σ', MoveToBack store2 0 (Elem 1) = Ok σ' ∧ Back σ' 0 = Some (Elem 1)).
Proof.
  split.
  - apply (list_Remove_Move_correct store2 {[0 := [Elem 1; Elem 2]]} 0 [Elem 1; Elem 2]
      wf_store2 (lookup_singleton_eq _ _) ltac:(done)) with (es1 := []) (es2 := [Elem 2]).
    reflexivity.
  - eexists. split; vm_compute; reflexivity.
Defined.
