(* ===== verification/Ring.v ===== *)
(** * container/ring

    Circular lists without a sentinel: every element is a [*Ring], and the zero
    value is a ring of one element that the first method call links to itself.
    The elements live in a store with one finite map per field; an absent entry
    is a nil pointer (or the nil [Value]). *)

From stdpp Require Import gmap.
From S2P Require Import Prelude Rings.

Section ring_model.
Context {V : Type}.

Record rstore := RStore {
  r_next : gmap Z Z;
  r_prev : gmap Z Z;
  r_Value : gmap Z V;
  r_fresh : Z;  (* the allocator: ids from here on are unused *)
}.

Implicit Types (σ : rstore) (r s p n : Z).

Definition rnext σ r : option Z := r_next σ !! r.
Definition rprev σ r : option Z := r_prev σ !! r.

Definition set_rnext σ r n : rstore :=
  RStore (<[r:=n]> (r_next σ)) (r_prev σ) (r_Value σ) (r_fresh σ).
Definition set_rprev σ r n : rstore :=
  RStore (r_next σ) (<[r:=n]> (r_prev σ)) (r_Value σ) (r_fresh σ).

(** [new(Ring)] *)
Definition new_ring σ : rstore * Z :=
  (RStore (r_next σ) (r_prev σ) (r_Value σ) (r_fresh σ + 1), r_fresh σ).

Definition rderef (p : option Z) : res Z :=
  match p with Some r => Ok r | None => Panic NilDereference end.

Definition init σ r : rstore * Z :=
  let σ := set_rnext σ r r in
  let σ := set_rprev σ r r in
  (σ, r).

Definition Next σ r : rstore * option Z :=
  match rnext σ r with
  | None => let '(σ, r) := init σ r in (σ, Some r)
  | Some n => (σ, Some n)
  end.

Definition Prev σ r : rstore * option Z :=
  match rnext σ r with
  | None => let '(σ, r) := init σ r in (σ, Some r)
  | Some _ => (σ, rprev σ r)
  end.

Definition Move σ r (n : Z) : res (rstore * option Z) :=
  match rnext σ r with
  | None => let '(σ, r) := init σ r in mret (σ, Some r)
  | Some _ =>
      r ← (if n <? 0 then
             loop (fuel_of (- n)) (λ '(r, n),
               if n <? 0 then x ← rderef r; mret (inl (rprev σ x, n + 1)) else mret (inr r)) (Some r, n)
           else if 0 <? n then
             loop (fuel_of n) (λ '(r, n),
               if 0 <? n then x ← rderef r; mret (inl (rnext σ x, n - 1)) else mret (inr r)) (Some r, n)
           else mret (Some r));
      mret (σ, r)
  end.

(** [for i := 1; i < n; i++ { p.next = &Ring{prev: p}; p = p.next }] *)
Definition New σ (n : Z) : res (rstore * option Z) :=
  if n <=? 0 then mret (σ, None) else
  let '(σ, r) := new_ring σ in
  '(σ, p) ← loop (fuel_of n) (λ '(σ, p, i),
    if i <? n then
      let '(σ, q) := new_ring σ in
      let σ := set_rprev σ q p in
      let σ := set_rnext σ p q in
      mret (inl (σ, q, i + 1))
    else mret (inr (σ, p))) (σ, r, 1);
  let σ := set_rnext σ p r in
  let σ := set_rprev σ r p in
  mret (σ, Some r).

Definition Link σ r (s : option Z) : res (rstore * option Z) :=
  let '(σ, n) := Next σ r in
  match s with
  | Some s =>
      let '(σ, p) := Prev σ s in
      let σ := set_rnext σ r s in
      let σ := set_rprev σ s r in
      n' ← rderef n;
      σ ← (match p with
           | Some p => mret (set_rprev σ n' p)
           | None => mret (RStore (r_next σ) (delete n' (r_prev σ)) (r_Value σ) (r_fresh σ))
           end);
      p ← rderef p;
      mret (set_rnext σ p n', n)
  | None => mret (σ, n)
  end.

Definition Unlink σ r (n : Z) : res (rstore * option Z) :=
  if n <=? 0 then mret (σ, None) else
  '(σ, s) ← Move σ r (i64 (n + 1));
  Link σ r s.

(** A loop over a ring visits every element once: as many rounds as there are
    linked elements are enough. *)
Definition ring_fuel σ : nat := S (size (r_next σ)).

Definition Len σ (r : option Z) : res (rstore * Z) :=
  match r with
  | None => mret (σ, 0)
  | Some r =>
      let '(σ, p) := Next σ r in
      n ← loop (ring_fuel σ) (λ '(p, n),
        if bool_decide (p = Some r) then mret (inr n)
        else x ← rderef p; mret (inl (rnext σ x, i64 (n + 1)))) (p, 1);
      mret (σ, n)
  end.

(** [f] works on a state of its own and leaves the ring alone. *)
Definition Do {S} σ (r : option Z) (f : S → option V → S) (acc : S) : res (rstore * S) :=
  match r with
  | None => mret (σ, acc)
  | Some r =>
      let acc := f acc (r_Value σ !! r) in
      let '(σ, p) := Next σ r in
      acc ← loop (ring_fuel σ) (λ '(p, acc),
        if bool_decide (p = Some r) then mret (inr acc)
        else x ← rderef p; mret (inl (rnext σ x, f acc (r_Value σ !! x)))) (p, acc);
      mret (σ, acc)
  end.
End ring_model.
Arguments rstore : clear implicits.
