(* ===== verification/RingProps.v ===== *)
(** * container/ring: correctness

    A ring is represented by the cyclic sequence of its elements; every method
    is related to that sequence. *)

From stdpp Require Import gmap.
From S2P Require Import Prelude Rings Ring.


Section ring_specs.
Context {V : Type}.
Implicit Types (σ : rstore V) (r s p n : Z) (l : list Z).

(** The elements [l] are linked in a ring. *)
Definition linked_ring σ l : Prop := cyc (rnext σ) (rprev σ) l.

(** The elements [l] form a ring: linked, or a single zero value. *)
Definition Rep σ l : Prop := (∃ r, l = [r] ∧ rnext σ r = None) ∨ linked_ring σ l.

(** Nothing but the links of [l] has changed. *)
Definition only_links σ σ' l : Prop :=
  (∀ x, x ∉ l → rnext σ' x = rnext σ x ∧ rprev σ' x = rprev σ x) ∧
  r_Value σ' = r_Value σ ∧ r_fresh σ' = r_fresh σ.

(** The element at position [k] of the cyclic sequence [l]. *)
Definition at_ l (k : Z) : option Z := zget l (k mod len l).

(** The store after the first use of [r]. *)
Definition touched σ r : rstore V :=
  match rnext σ r with None => (init σ r).1 | Some _ => σ end.

Lemma rnext_set σ x v y : rnext (set_rnext σ x v) y = upd (rnext σ) x (Some v) y.
Proof.
  unfold rnext, set_rnext, upd. simpl. case_decide; subst;
    [apply lookup_insert_eq|by apply lookup_insert_ne].
Qed.
Lemma rprev_set σ x v y : rprev (set_rprev σ x v) y = upd (rprev σ) x (Some v) y.
Proof.
  unfold rprev, set_rprev, upd. simpl. case_decide; subst;
    [apply lookup_insert_eq|by apply lookup_insert_ne].
Qed.

Lemma cyc_ext nx pv nx' pv' l : cyc nx pv l →
  (∀ x, x ∈ l → nx' x = nx x ∧ pv' x = pv x) → cyc nx' pv' l.
Proof.
  destruct l as [|x l]; [by intros (_ & _ & ? & ? & ? & _)|]. rewrite <-!ring_cyc. apply ring_ext.
Qed.

Lemma linked_ext σ σ' l l' : linked_ring σ l → only_links σ σ' l' → (∀ x, x ∈ l → x ∉ l') →
  linked_ring σ' l.
Proof. intros Hc [Hf _] Hd. eapply cyc_ext; [done|]. auto. Qed.

Lemma only_links_refl σ l : only_links σ σ l.
Proof. done. Qed.
Lemma only_links_trans σ1 σ2 σ3 l : only_links σ1 σ2 l → only_links σ2 σ3 l → only_links σ1 σ3 l.
Proof.
  intros (H1 & HV1 & Hi1) (H2 & HV2 & Hi2). split; [|by rewrite HV2, Hi2].
  intros x Hx. destruct (H2 x Hx) as [-> ->]. by apply H1.
Qed.
Lemma only_links_mono σ σ' l l' : only_links σ σ' l → (∀ x, x ∈ l → x ∈ l') → only_links σ σ' l'.
Proof. intros (H & ?) Hs. split; [|done]. intros x Hx. apply H. auto. Qed.

Lemma cyc_len nx pv l : cyc nx pv l → 0 < len l.
Proof.
  intros (_ & _ & f & z & Hf & _). destruct l; [done|]. rewrite len_cons. pose proof (len_nonneg l). lia.
Qed.

Lemma Rep_len σ l : Rep σ l → 0 < len l.
Proof. intros [(r & -> & _)|H]; [done|by eapply cyc_len]. Qed.

Lemma at_Some σ l k : Rep σ l → ∃ x, at_ l k = Some x ∧ x ∈ l.
Proof.
  intros Hl%Rep_len. destruct (zget_lt l (k mod len l)) as [x Hx]; [by apply Z.mod_pos_bound|].
  exists x. split; [done|]. by eapply zget_elem_of.
Qed.

Lemma touch σ l k r : Rep σ l → at_ l k = Some r →
  linked_ring (touched σ r) l ∧ only_links σ (touched σ r) l ∧
  Next σ r = (touched σ r, at_ l (k + 1)) ∧ Prev σ r = (touched σ r, at_ l (k - 1)).
Proof.
  intros [(r' & -> & Hn)|Hc] Hr.
  - assert (r' = r) as -> by (apply zget_elem_of in Hr; set_solver).
    unfold touched, Next, Prev. rewrite Hn. simpl.
    assert (∀ j, at_ [r] j = Some r) as Hat.
    { intros j. unfold at_. change (len [r]) with 1. by rewrite Z.mod_1_r. }
    rewrite !Hat. split_and!; [|split; [|done]|done|done].
    + apply ring_cyc. split; [|apply NoDup_singleton]. split.
      * change (rnext (set_rnext σ r r) r = Some r). by rewrite rnext_set, upd_eq.
      * by rewrite rprev_set, upd_eq.
    + intros x Hx. assert (x ≠ r) by set_solver. split.
      * change (rnext (set_rnext σ r r) x = rnext σ x). by rewrite rnext_set, upd_ne.
      * by rewrite rprev_set, upd_ne.
  - destruct (cyc_at _ _ _ _ _ Hc Hr) as [Hn Hp].
    assert (is_Some (rnext σ r)) as [n Hn'].
    { rewrite Hn. apply zget_is_Some, Z.mod_pos_bound. by eapply cyc_len. }
    unfold touched, Next, Prev. rewrite Hn', Hp. split_and!; [done..| |done].
    by rewrite <-Hn', Hn.
Qed.

(** ** Walking *)

Lemma Move_spec σ l k r n : Rep σ l → at_ l k = Some r →
  Move σ r n = Ok (touched σ r, at_ l (k + n)).
Proof.
  intros Hrep Hr. destruct (touch σ l k r Hrep Hr) as (Hc & _ & Hnext & _).
  unfold Move, touched in *. destruct (rnext σ r) as [x|] eqn:Hx.
  2: { destruct Hrep as [(r' & -> & _)|Hl].
       - assert (r' = r) as -> by (apply zget_elem_of in Hr; set_solver). unfold at_.
         change (len [r]) with 1. by rewrite Z.mod_1_r.
       - destruct (cyc_at _ _ _ _ _ Hl Hr) as [Hn _]. rewrite Hx in Hn.
         symmetry in Hn. apply zget_None in Hn.
         pose proof (Z.mod_pos_bound (k + 1) (len l) (cyc_len _ _ _ Hl)). lia. }
  destruct (Z.ltb_spec n 0) as [Hn|Hn]; [|destruct (Z.ltb_spec 0 n) as [Hn'|Hn']].
  - assert (wp (loop (fuel_of (- n)) (λ '(r, n), if n <? 0 then x ← rderef r;
      mret (inl (rprev σ x, n + 1)) else mret (inr r)) (Some r, n)) (λ x, x = at_ l (k + n))) as H.
    2: { apply wp_eq in H. by rewrite H. }
    apply (wp_loop (λ '(x, m), n ≤ m ≤ 0 ∧ x = at_ l (k + n - m)) (λ '(_, m), - m)).
    + split; [lia|]. by replace (k + n - n) with k by lia.
    + intros [y m] [? _]. lia.
    + unfold fuel_of. lia.
    + intros [y m] [Hm ->]. destruct (at_Some σ l (k + n - m) Hrep) as (y & Hy & _).
      rewrite Hy. destruct (Z.ltb_spec m 0); apply wp_ret.
      * simpl. split; [|lia]. split; [lia|]. destruct (cyc_at _ _ _ _ _ Hc Hy) as [_ ->].
        unfold at_. f_equal. f_equal. lia.
      * rewrite <-Hy. f_equal. lia.
  - assert (wp (loop (fuel_of n) (λ '(r, n), if 0 <? n then x ← rderef r;
      mret (inl (rnext σ x, n - 1)) else mret (inr r)) (Some r, n)) (λ x, x = at_ l (k + n))) as H.
    2: { apply wp_eq in H. by rewrite H. }
    apply (wp_loop (λ '(x, m), 0 ≤ m ≤ n ∧ x = at_ l (k + n - m)) (λ '(_, m), m)).
    + split; [lia|]. by replace (k + n - n) with k by lia.
    + intros [y m] [? _]. lia.
    + unfold fuel_of. lia.
    + intros [y m] [Hm ->]. destruct (at_Some σ l (k + n - m) Hrep) as (y & Hy & _).
      rewrite Hy. destruct (Z.ltb_spec 0 m); apply wp_ret.
      * simpl. split; [|lia]. split; [lia|]. destruct (cyc_at _ _ _ _ _ Hc Hy) as [-> _].
        unfold at_. f_equal. f_equal. lia.
      * rewrite <-Hy. f_equal. lia.
  - replace (k + n) with k by lia. by rewrite Hr.
Qed.
End ring_specs.


Section ring_loops.
Context {V : Type}.
Implicit Types (σ : rstore V) (r s p n : Z) (l : list Z).

Lemma at_inj l j k r : NoDup l → at_ l j = Some r → at_ l k = Some r → j mod len l = k mod len l.
Proof.
  unfold at_, zget. intros Hnd Hj Hk. do 2 case_decide; try done.
  pose proof (NoDup_lookup _ _ _ _ Hnd Hj Hk). lia.
Qed.

(** A full turn from the element at [k]. *)
Lemma turn l k r n : NoDup l → at_ l k = Some r → 1 ≤ n ≤ len l →
  at_ l (k + n) = Some r ↔ n = len l.
Proof.
  intros Hnd Hr Hn. split.
  - intros Hr'. pose proof (at_inj _ _ _ _ Hnd Hr' Hr) as E.
    destruct (decide (n = len l)); [done|]. exfalso.
    assert ((k + n - k) mod len l = 0) as E'.
    { rewrite Zminus_mod, E, Z.sub_diag. apply Z.mod_0_l. lia. }
    replace (k + n - k) with n in E' by lia. rewrite Z.mod_small in E' by lia. lia.
  - intros ->. unfold at_ in *. rewrite <-Hr. f_equal.
    replace (k + len l) with (k + 1 * len l) by lia. apply Z.mod_add. lia.
Qed.

Lemma ring_fuel_enough σ l : linked_ring σ l → len l < Z.of_nat (ring_fuel σ).
Proof.
  intros Hc. unfold ring_fuel. destruct Hc as (Hnd & Hcyc).
  assert (list_to_set l ⊆ dom (r_next σ)) as Hsub.
  { intros x Hx%elem_of_list_to_set. apply elem_of_dom.
    apply elem_of_zget in Hx as [i Hi]. pose proof (zget_Some_range _ _ _ Hi) as Hr.
    destruct (cyc_at (rnext σ) (rprev σ) l i x) as [Hn _].
    - done.
    - by rewrite Z.mod_small.
    - change (is_Some (rnext σ x)). rewrite Hn. apply zget_is_Some, Z.mod_pos_bound. lia. }
  apply subseteq_size in Hsub. rewrite size_list_to_set, size_dom in Hsub by done.
  unfold len. lia.
Qed.

Lemma Len_spec σ l k r : Rep σ l → at_ l k = Some r → len l < 2 ^ 63 →
  Len σ (Some r) = Ok (touched σ r, len l).
Proof.
  intros Hrep Hr Hlen. destruct (touch σ l k r Hrep Hr) as (Hc & _ & Hnext & _).
  unfold Len. rewrite Hnext. set (σ' := touched σ r) in *.
  pose proof (ring_fuel_enough σ' l Hc) as Hfuel. pose proof (cyc_len _ _ _ Hc) as Hpos.
  pose proof Hc as (Hnd & _). pose proof (or_intror Hc : Rep σ' l) as Hrep'.
  assert (wp (loop (ring_fuel σ') (λ '(p, n), if bool_decide (p = Some r) then mret (inr n)
    else x ← rderef p; mret (inl (rnext σ' x, i64 (n + 1)))) (at_ l (k + 1), 1)) (λ n, n = len l)) as H.
  2: { apply wp_eq in H. by rewrite H. }
  apply (wp_loop (λ '(p, n), 1 ≤ n ≤ len l ∧ p = at_ l (k + n)) (λ '(_, n), len l - n)).
  - split; [lia|done].
  - intros [p n] [? _]. lia.
  - lia.
  - intros [p n] [Hn ->]. pose proof (turn l k r n Hnd Hr Hn) as Ht.
    case_bool_decide as Hp; [apply wp_ret; by apply Ht|].
    destruct (at_Some σ' l (k + n) Hrep') as (x & Hx & _). rewrite Hx. apply wp_ret.
    assert (n ≠ len l) by (intros ->; by apply Hp, Ht).
    rewrite i64_small by lia. split; [|lia]. split; [lia|].
    destruct (cyc_at _ _ _ _ _ Hc Hx) as [-> _]. unfold at_. do 2 f_equal. lia.
Qed.

Lemma Do_spec {S} σ l r (f : S → option V → S) acc : Rep σ l → head l = Some r →
  Do σ (Some r) f acc = Ok (touched σ r, fold_left (λ acc x, f acc (r_Value σ !! x)) l acc).
Proof.
  intros Hrep Hh. pose proof (Rep_len _ _ Hrep) as Hpos.
  assert (at_ l 0 = Some r) as Hr by (unfold at_; rewrite Z.mod_0_l by lia; by destruct l).
  destruct (touch σ l 0 r Hrep Hr) as (Hc & (_ & HV & _) & Hnext & _).
  unfold Do. rewrite Hnext. set (σ' := touched σ r) in *.
  pose proof (ring_fuel_enough σ' l Hc) as Hfuel.
  pose proof Hc as (Hnd & _). pose proof (or_intror Hc : Rep σ' l) as Hrep'.
  set (g := λ acc x, f acc (r_Value σ !! x)).
  assert (wp (loop (ring_fuel σ') (λ '(p, acc), if bool_decide (p = Some r) then mret (inr acc)
    else x ← rderef p; mret (inl (rnext σ' x, f acc (r_Value σ' !! x))))
    (at_ l (0 + 1), f acc (r_Value σ !! r))) (λ a, a = fold_left g l acc)) as H.
  2: { apply wp_eq in H. by rewrite H. }
  apply (wp_loop_measure (λ '(p, a) m, ∃ n, 1 ≤ n ≤ len l ∧ m = len l - n ∧ p = at_ l (0 + n) ∧
      fold_left g (drop (Z.to_nat n) l) a = fold_left g l acc) _ _ _ (len l - 1)).
  - exists 1. split_and!; [lia|lia|done|done|]. destruct l as [|x l]; [done|]. injection Hh as ->. done.
  - intros [p a] m (n & ? & -> & _). lia.
  - lia.
  - intros [p a] m (n & Hn & -> & -> & Ha). pose proof (turn l 0 r n Hnd Hr Hn) as Ht.
    case_bool_decide as Hp.
    + apply Ht in Hp. apply wp_ret. rewrite <-Ha, Hp. unfold len.
      by rewrite Nat2Z.id, drop_all.
    + assert (n ≠ len l) by (intros ->; by apply Hp, Ht).
      destruct (at_Some σ' l (0 + n) Hrep') as (x & Hx & _). rewrite Hx. apply wp_ret.
      exists (len l - (n + 1)). split; [|lia]. exists (n + 1). split_and!; [lia|lia|lia| |].
      * destruct (cyc_at _ _ _ _ _ Hc Hx) as [-> _]. unfold at_. by replace (0 + (n + 1)) with (0 + n + 1) by lia.
      * rewrite <-Ha. unfold at_ in Hx. rewrite Z.mod_small in Hx by lia.
        destruct (zget_split _ _ _ Hx) as (a1 & b1 & E & Hla). rewrite HV, E.
        replace (Z.to_nat (n + 1)) with (length (a1 ++ [x])) by (rewrite length_app; unfold len in *; simpl; lia).
        replace (Z.to_nat n) with (length a1) by (unfold len in *; lia).
        rewrite drop_app_length. change (x :: b1) with ([x] ++ b1).
        by rewrite app_assoc, drop_app_length.
Qed.
End ring_loops.


Section ring_linking.
Context {V : Type}.
Implicit Types (σ : rstore V) (r s p n : Z) (l : list Z).

Lemma Link_run σ σ1 σ2 r s n p : Next σ r = (σ1, Some n) → Prev σ1 s = (σ2, Some p) →
  ∃ σ', Link σ r (Some s) = Ok (σ', Some n) ∧
    (∀ x, rnext σ' x = relink_next (rnext σ2) r s p n x ∧
      rprev σ' x = relink_prev (rprev σ2) r s p n x) ∧
    r_Value σ' = r_Value σ2 ∧ r_fresh σ' = r_fresh σ2.
Proof.
  intros Hn Hp. unfold Link. rewrite Hn, Hp. cbn [rderef mbind res_bind mret res_ret].
  eexists. split; [done|]. split; [|done]. intros x. split.
  - change (rnext (set_rnext (set_rnext σ2 r s) p n) x = relink_next (rnext σ2) r s p n x).
    rewrite rnext_set. unfold relink_next, upd at 1 2. by rewrite rnext_set.
  - change (rprev (set_rprev (set_rprev σ2 s r) n p) x = relink_prev (rprev σ2) r s p n x).
    rewrite rprev_set. unfold relink_prev, upd at 1 2. by rewrite rprev_set.
Qed.

Lemma relink_frame σ σ' r s p n l : r ∈ l → s ∈ l → p ∈ l → n ∈ l →
  (∀ x, rnext σ' x = relink_next (rnext σ) r s p n x ∧ rprev σ' x = relink_prev (rprev σ) r s p n x) →
  r_Value σ' = r_Value σ ∧ r_fresh σ' = r_fresh σ → only_links σ σ' l.
Proof.
  intros Hr Hs Hp Hn Hf ?. split; [|done]. intros x Hx. destruct (Hf x) as [-> ->].
  unfold relink_next, relink_prev. rewrite !upd_ne; [done|congruence..].
Qed.

Lemma relinked σ σ' r s p n l :
  (∀ x, rnext σ' x = relink_next (rnext σ) r s p n x ∧ rprev σ' x = relink_prev (rprev σ) r s p n x) →
  cyc (relink_next (rnext σ) r s p n) (relink_prev (rprev σ) r s p n) l → linked_ring σ' l.
Proof. intros Hf Hc. eapply cyc_ext; [done|]. intros x _. apply Hf. Qed.

Lemma at_0 l x : head l = Some x → at_ l 0 = Some x.
Proof. unfold at_. rewrite Zmod_0_l. by destruct l. Qed.

Lemma at_last l x : last l = Some x → at_ l (len l - 1) = Some x.
Proof.
  intros Hx. destruct l as [|z l _] using rev_ind; [done|]. rewrite last_snoc in Hx.
  injection Hx as ->. unfold at_. rewrite len_app, len_cons, len_nil. pose proof (len_nonneg l).
  replace (len l + (1 + 0) - 1) with (len l) by lia.
  rewrite Z.mod_small by lia. apply zget_mid.
Qed.

Lemma at_prev_0 l x : last l = Some x → at_ l (0 - 1) = Some x.
Proof.
  intros Hx. rewrite <-(at_last l x Hx). unfold at_. f_equal.
  replace (0 - 1) with (len l - 1 + (-1) * len l) by lia. apply Z.mod_add.
  intros ?%len_0_nil. by subst.
Qed.

Lemma at_wrap l x : head l = Some x → at_ l (len l - 1 + 1) = Some x.
Proof.
  intros Hx. replace (len l - 1 + 1) with (0 + 1 * len l) by lia. unfold at_.
  rewrite Z.mod_add; [by apply at_0|]. intros ?%len_0_nil. by subst.
Qed.

Lemma at_mid l1 l2 r n : last l1 = Some r → head l2 = Some n →
  at_ (l1 ++ l2) (len l1 - 1) = Some r ∧ at_ (l1 ++ l2) (len l1 - 1 + 1) = Some n.
Proof.
  intros Hr Hn. destruct l1 as [|z l1 _] using rev_ind; [done|]. rewrite last_snoc in Hr.
  injection Hr as ->. destruct l2 as [|y l2]; [done|]. injection Hn as ->.
  pose proof (len_nonneg l1). pose proof (len_nonneg l2). unfold at_.
  rewrite !len_app, !len_cons, !len_nil. split; rewrite Z.mod_small by lia.
  - rewrite <-app_assoc. replace (len l1 + (1 + 0) - 1) with (len l1) by lia. apply zget_mid.
  - replace (len l1 + (1 + 0) - 1 + 1) with (len (l1 ++ [r])) by (rewrite len_app, len_cons, len_nil; lia).
    apply zget_mid.
Qed.

Lemma linked_touched σ l r k : linked_ring σ l → at_ l k = Some r → touched σ r = σ.
Proof.
  intros Hc Hr. unfold touched. destruct (cyc_at _ _ _ _ _ Hc Hr) as [Hn _].
  destruct (rnext σ r) eqn:E; [done|]. symmetry in Hn. apply zget_None in Hn.
  pose proof (Z.mod_pos_bound (k + 1) (len l) (cyc_len _ _ _ Hc)). lia.
Qed.

(** Linking inside one ring takes out the elements between [r] and [s]. *)
Lemma Link_split σ l1 l2 r s : Rep σ (l1 ++ l2) → last l1 = Some r → head l1 = Some s → l2 ≠ [] →
  ∃ σ', Link σ r (Some s) = Ok (σ', head l2) ∧ linked_ring σ' l1 ∧ linked_ring σ' l2 ∧
    only_links σ σ' (l1 ++ l2).
Proof.
  intros Hrep Hr Hs Hne. destruct (head l2) as [n|] eqn:Hn; [|by destruct l2].
  destruct (last l2) as [p|] eqn:Hp; [|by apply last_None in Hp].
  destruct (at_mid l1 l2 r n Hr Hn) as [Hat Hat'].
  assert (head (l1 ++ l2) = Some s) as Hs' by (by rewrite head_app, Hs).
  assert (last (l1 ++ l2) = Some p) as Hp' by (by rewrite last_app, Hp).
  destruct (touch σ _ _ _ Hrep Hat) as (Hc & Ho & HN & _). rewrite Hat' in HN.
  destruct (touch (touched σ r) _ 0 s (or_intror Hc) (at_0 _ _ Hs')) as (_ & _ & _ & HP).
  rewrite (linked_touched _ _ _ _ Hc (at_0 _ _ Hs')), (at_prev_0 _ _ Hp') in HP.
  destruct (Link_run _ _ _ _ _ _ _ HN HP) as (σ' & Hrun & Hf & HV).
  destruct (cyc_split _ _ _ _ _ _ _ _ Hc Hs Hr Hn Hp) as [H1 H2].
  exists σ'. split; [done|]. split_and!; [by eapply relinked|by eapply relinked|].
  eapply only_links_trans; [done|]. eapply relink_frame; [..|done|done]; apply elem_of_app;
    (left; by apply last_Some_elem_of) || (left; by apply head_Some_elem_of) ||
    (right; by apply last_Some_elem_of) || (right; by apply head_Some_elem_of).
Qed.

(** Linking to the next element changes nothing. *)
Lemma Link_next σ l r s : Rep σ l → last l = Some r → head l = Some s →
  ∃ σ', Link σ r (Some s) = Ok (σ', Some s) ∧ linked_ring σ' l ∧ only_links σ σ' l.
Proof.
  intros Hrep Hr Hs. pose proof (at_last _ _ Hr) as Hat.
  destruct (touch σ _ _ _ Hrep Hat) as (Hc & Ho & HN & _). rewrite (at_wrap _ _ Hs) in HN.
  destruct (touch (touched σ r) _ 0 s (or_intror Hc) (at_0 _ _ Hs)) as (_ & _ & _ & HP).
  rewrite (linked_touched _ _ _ _ Hc (at_0 _ _ Hs)), (at_prev_0 _ _ Hr) in HP.
  destruct (Link_run _ _ _ _ _ _ _ HN HP) as (σ' & Hrun & Hf & HV).
  assert (rnext (touched σ r) r = Some s ∧ rprev (touched σ r) s = Some r) as [Hrs Hsr].
  { destruct (cyc_at _ _ _ _ _ Hc Hat) as [-> _].
    destruct (cyc_at _ _ _ _ _ Hc (at_0 _ _ Hs)) as [_ ->].
    split; [exact (at_wrap _ _ Hs)|exact (at_prev_0 _ _ Hr)]. }
  exists σ'. split; [done|]. split.
  - eapply cyc_ext; [exact Hc|]. intros x _. destruct (Hf x) as [-> ->].
    unfold relink_next, relink_prev, upd. split; repeat case_decide; congruence.
  - eapply only_links_trans; [done|].
    eapply relink_frame; [..|done|done]; (by apply last_Some_elem_of) || (by apply head_Some_elem_of).
Qed.

Lemma Rep_frame σ σ' l l' : Rep σ l → only_links σ σ' l' → (∀ x, x ∈ l → x ∉ l') → Rep σ' l.
Proof.
  intros [(r & -> & Hr)|Hc] Ho Hd; [left; exists r|right; by eapply linked_ext].
  split; [done|]. destruct Ho as [Ho _]. destruct (Ho r) as [-> _]; [|done]. apply Hd. set_solver.
Qed.

(** Linking two rings makes one of them. *)
Lemma Link_merge σ l1 l2 r s : Rep σ l1 → Rep σ l2 → (∀ x, x ∈ l1 → x ∉ l2) →
  last l1 = Some r → head l2 = Some s →
  ∃ σ', Link σ r (Some s) = Ok (σ', head l1) ∧ linked_ring σ' (l1 ++ l2) ∧
    only_links σ σ' (l1 ++ l2).
Proof.
  intros Hrep1 Hrep2 Hd Hr Hs.
  destruct (head l1) as [n|] eqn:Hn; [|by destruct l1].
  destruct (last l2) as [p|] eqn:Hp; [|apply last_None in Hp; by subst].
  destruct (touch σ _ _ _ Hrep1 (at_last _ _ Hr)) as (Hc1 & Ho1 & HN & _).
  rewrite (at_wrap _ _ Hn) in HN.
  assert (∀ x, x ∈ l2 → x ∉ l1) as Hd' by (intros x ? ?; by apply (Hd x)).
  pose proof (Rep_frame _ _ _ _ Hrep2 Ho1 Hd') as Hrep2'.
  destruct (touch (touched σ r) _ 0 s Hrep2' (at_0 _ _ Hs)) as (Hc2 & Ho2 & _ & HP).
  rewrite (at_prev_0 _ _ Hp) in HP.
  pose proof (linked_ext _ _ _ _ Hc1 Ho2 Hd) as Hc1'.
  destruct (Link_run _ _ _ _ _ _ _ HN HP) as (σ' & Hrun & Hf & HV).
  exists σ'. split; [done|]. split; [eapply relinked; [done|]; by apply cyc_merge|].
  eapply only_links_trans; [eapply only_links_mono; [exact Ho1|set_solver]|].
  eapply only_links_trans; [eapply only_links_mono; [exact Ho2|set_solver]|].
  eapply relink_frame; [..|done|done]; apply elem_of_app;
    (left; by apply last_Some_elem_of) || (left; by apply head_Some_elem_of) ||
    (right; by apply last_Some_elem_of) || (right; by apply head_Some_elem_of).
Qed.
End ring_linking.


Section ring_alloc.
Context {V : Type}.
Implicit Types (σ : rstore V) (r s p n : Z) (l : list Z).

Lemma Unlink_spec σ l r n : Rep σ l → last l = Some r → 1 ≤ n < 2 ^ 63 - 1 →
  let k := Z.to_nat (n mod len l) in
  ∃ σ', Unlink σ r n = Ok (σ', head l) ∧ only_links σ σ' l ∧
    (if decide (k = 0%nat) then linked_ring σ' l
     else linked_ring σ' (drop k l) ∧ linked_ring σ' (take k l)).
Proof.
  intros Hrep Hr Hn k. pose proof (Rep_len _ _ Hrep) as Hpos.
  pose proof (Z.mod_pos_bound n (len l) Hpos) as Hmod.
  destruct (touch σ _ _ _ Hrep (at_last _ _ Hr)) as (Hc & Ho & _).
  unfold Unlink. rewrite (proj2 (Z.leb_gt n 0)), i64_small by lia.
  rewrite (Move_spec σ l _ r (n + 1) Hrep (at_last _ _ Hr)). cbn [mbind res_bind].
  assert (at_ l (len l - 1 + (n + 1)) = at_ l n) as ->.
  { unfold at_. f_equal. replace (len l - 1 + (n + 1)) with (n + 1 * len l) by lia. apply Z.mod_add. lia. }
  destruct (decide (k = 0%nat)) as [Hk|Hk].
  - destruct (head l) as [s|] eqn:Hs; [|by destruct l].
    assert (at_ l n = Some s) as ->.
    { rewrite <-(at_0 _ _ Hs). unfold at_. f_equal. rewrite Zmod_0_l. lia. }
    destruct (Link_next (touched σ r) l r s (or_intror Hc) Hr Hs) as (σ' & -> & Hc' & Ho').
    exists σ'. split_and!; [done|by eapply only_links_trans|done].
  - assert (∃ s, at_ l n = Some s) as [s Hs] by (destruct (at_Some _ _ n Hrep) as (s & ? & _); eauto).
    rewrite Hs. unfold at_ in Hs. destruct (zget_split _ _ _ Hs) as (a & b & -> & Ha).
    assert (k = length a) as -> by (unfold k, len in *; lia).
    rewrite drop_app_length, take_app_length.
    assert (Rep (touched σ r) ((s :: b) ++ a)) as Hrep2 by (right; by apply cyc_rotate).
    rewrite last_app in Hr. destruct (last (s :: b)) as [r'|] eqn:Er; [|by apply last_None in Er].
    injection Hr as ->.
    destruct (Link_split _ (s :: b) a r s Hrep2 Er eq_refl) as (σ' & -> & H1 & H2 & Ho').
    { by intros ->. }
    exists σ'. split; [|split; [|done]].
    + do 2 f_equal. rewrite head_app. by destruct a.
    + eapply only_links_trans; [done|]. eapply only_links_mono; [done|].
      intros x. rewrite !elem_of_app. tauto.
Qed.

(** No unused id is linked. *)
Definition fresh_ok σ : Prop := ∀ x, r_fresh σ ≤ x → rnext σ x = None.

(** Everything below [b] is as it was. *)
Definition old_links σ σ' (b : Z) : Prop :=
  (∀ x, x < b → rnext σ' x = rnext σ x ∧ rprev σ' x = rprev σ x) ∧ r_Value σ' = r_Value σ.

Definition building σ0 σ p i : Prop :=
  p = r_fresh σ0 + i - 1 ∧ r_fresh σ = r_fresh σ0 + i ∧
  chain (rnext σ) (rprev σ) (seqZ (r_fresh σ0) i) ∧
  old_links σ0 σ (r_fresh σ0) ∧ fresh_ok σ.

Lemma seqZ_snoc b i : 0 ≤ i → seqZ b (i + 1) = seqZ b i ++ [b + i].
Proof. intros. by rewrite seqZ_app by lia. Qed.

Lemma last_seqZ b i : 0 < i → last (seqZ b i) = Some (b + i - 1).
Proof.
  intros. replace i with (i - 1 + 1) by lia. rewrite seqZ_snoc, last_snoc by lia. f_equal. lia.
Qed.

Lemma build_step σ0 σ p i : 1 ≤ i → building σ0 σ p i →
  let '(σ1, q) := new_ring σ in
  building σ0 (set_rnext (set_rprev σ1 q p) p q) q (i + 1).
Proof.
  intros Hi (-> & Hfr & Hc & [Hold HV] & Hok). simpl. rewrite Hfr.
  set (p := r_fresh σ0 + i - 1). set (q := r_fresh σ0 + i).
  set (σ' := set_rnext _ p q).
  assert (∀ x, rnext σ' x = upd (rnext σ) p (Some q) x) as Hn.
  { intros x. exact (rnext_set (set_rprev (RStore _ _ _ _) q p) p q x). }
  assert (∀ x, rprev σ' x = upd (rprev σ) q (Some p) x) as Hp.
  { intros x. exact (rprev_set (RStore (r_next σ) (r_prev σ) (r_Value σ) (q + 1)) q p x). }
  split_and!.
  - unfold q. lia.
  - change (q + 1 = r_fresh σ0 + (i + 1)). unfold q. lia.
  - rewrite seqZ_snoc by lia. apply chain_app. split_and!; [|done|].
    + apply (chain_ext (rnext σ) (rprev σ)); [apply NoDup_seqZ|done|..]; intros x Hx Hx'.
      * rewrite Hn, upd_ne; [done|]. intros ->. apply Hx'. by apply last_seqZ; lia.
      * rewrite Hp, upd_ne; [done|]. intros ->. apply elem_of_seqZ in Hx. unfold q in Hx. lia.
    + rewrite last_seqZ by lia. intros ? ? [= <-] [= <-]. fold p q.
      split; [by rewrite Hn, upd_eq|by rewrite Hp, upd_eq].
  - split; [|done]. intros x Hx. rewrite Hn, Hp, !upd_ne by (unfold p, q; lia). by apply Hold.
  - intros x Hx. rewrite Hn. change (q + 1 ≤ x) in Hx. unfold q in Hx.
    rewrite upd_ne by (unfold p; lia). apply Hok. lia.
Qed.

Lemma New_ring_spec σ n : fresh_ok σ → 1 ≤ n →
  ∃ σ', New σ n = Ok (σ', Some (r_fresh σ)) ∧ linked_ring σ' (seqZ (r_fresh σ) n) ∧
    old_links σ σ' (r_fresh σ) ∧ fresh_ok σ'.
Proof.
  intros Hok Hn. unfold New. rewrite (proj2 (Z.leb_gt n 0)) by lia.
  destruct (new_ring σ) as [σ1 r] eqn:Hnew. injection Hnew as <- <-. set (r := r_fresh σ).
  match goal with |- ∃ σ', (?m ≫= _) = _ ∧ _ =>
    assert (wp m (λ '(σ2, p), building σ σ2 p n)) as H end.
  { apply (wp_loop (λ '(σ2, p, i), 1 ≤ i ≤ n ∧ building σ σ2 p i) (λ '(_, _, i), n - i)).
    - split; [lia|]. split_and!; [unfold r; lia|done|done|done|]. intros x Hx. apply Hok. simpl in Hx. lia.
    - intros [[σ2 p] i] [? _]. lia.
    - unfold fuel_of. lia.
    - intros [[σ2 p] i] [Hi Hb]. destruct (Z.ltb_spec i n).
      + pose proof (build_step _ _ _ _ (proj1 Hi) Hb) as Hb'. destruct (new_ring σ2) as [σ3 q].
        apply wp_ret. split; [|lia]. split; [lia|done].
      + apply wp_ret. by replace n with i by lia. }
  apply wp_exists in H as ([σ2 p] & -> & (Hp & Hfr & Hc & [Hold HV] & Hok2)).
  cbn [mbind res_bind mret res_ret]. fold r in Hp, Hfr, Hc, Hold.
  set (σ' := set_rprev (set_rnext σ2 p r) r p).
  assert (∀ x, rnext σ' x = upd (rnext σ2) p (Some r) x) as HN by (intros x; exact (rnext_set σ2 p r x)).
  assert (∀ x, rprev σ' x = upd (rprev σ2) r (Some p) x) as HP.
  { intros x. exact (rprev_set (set_rnext σ2 p r) r p x). }
  exists σ'. split; [done|]. split_and!.
  - assert (head (seqZ r n) = Some r) as Hh by by rewrite seqZ_cons by lia.
    assert (last (seqZ r n) = Some p) as Hl by (rewrite last_seqZ by lia; f_equal; lia).
    split_and!; [apply NoDup_seqZ| |].
    + apply (chain_ext (rnext σ2) (rprev σ2)); [apply NoDup_seqZ|done|..]; intros x Hx Hx'.
      * rewrite HN, upd_ne; [done|congruence].
      * rewrite HP, upd_ne; [done|congruence].
    + exists r, p. split_and!; [done..|]. split; [by rewrite HN, upd_eq|by rewrite HP, upd_eq].
  - split; [|done]. intros x Hx. rewrite HN, HP, !upd_ne by lia. by apply Hold.
  - intros x Hx. rewrite HN. simpl in Hx. rewrite upd_ne by lia. by apply Hok2.
Qed.
End ring_alloc.

(** ** The properties *)

(** A store with a ring of three elements and a single element. *)
Definition ring3 : rstore Z :=
  match New (RStore ∅ ∅ {[0 := 10; 1 := 11; 2 := 12]} 0) 3 with Ok (σ, _) => σ | _ => RStore ∅ ∅ ∅ 0 end.

Lemma ring3_linked : linked_ring ring3 [0; 1; 2] ∧ Rep ring3 [7].
Proof.
  destruct (New_ring_spec (RStore ∅ ∅ {[0 := 10; 1 := 11; 2 := 12]} 0 : rstore Z) 3) as (σ' & H & Hc & _);
    [done|lia|].
  unfold ring3. rewrite H. split; [done|]. left. exists 7. split; [done|].
  vm_compute in H. injection H as <-. done.
Qed.

(** C18: rings. On a ring of any size, the zero value included, [Next], [Prev] and
    [Move] return the element one or [n] places on or back in the cyclic sequence
    (for any [n], modulo the length), [Len] returns the length and [Do] calls the
    function on every value once, in order; the loops of [Len] and [Do] end after
    one turn. [r.Link(s)] on two rings makes one ring of them, with [s] and what
    follows it inserted after [r]; inside one ring it takes out the elements
    between [r] and [s], which form a ring of their own, and it changes nothing
    when [s] follows [r]; it returns the old [r.Next()]. [Unlink(n)] takes out the
    [n] modulo [Len] elements after [r]; [New(n)] makes a ring of [n] new elements.
    No link outside of the rings involved changes. *)
Theorem ring_correct {V S} (σ : rstore V) :
  (∀ l k r n (f : S → option V → S) acc, Rep σ l → at_ l k = Some r → len l < 2 ^ 63 →
    let σ' := touched σ r in
    linked_ring σ' l ∧ only_links σ σ' l ∧
    Next σ r = (σ', at_ l (k + 1)) ∧ Prev σ r = (σ', at_ l (k - 1)) ∧
    Move σ r n = Ok (σ', at_ l (k + n)) ∧
    Len σ (Some r) = Ok (σ', len l) ∧ Len σ None = Ok (σ, 0) ∧
    (head l = Some r → Do σ (Some r) f acc =
      Ok (σ', fold_left (λ acc x, f acc (r_Value σ !! x)) l acc)) ∧
    Do σ None f acc = Ok (σ, acc)) ∧
  (∀ l1 l2 r s, Rep σ l1 → Rep σ l2 → (∀ x, x ∈ l1 → x ∉ l2) → last l1 = Some r → head l2 = Some s →
    ∃ σ', Link σ r (Some s) = Ok (σ', head l1) ∧ linked_ring σ' (l1 ++ l2) ∧
      only_links σ σ' (l1 ++ l2)) ∧
  (∀ l1 l2 r s, Rep σ (l1 ++ l2) → last l1 = Some r → head l1 = Some s → l2 ≠ [] →
    ∃ σ', Link σ r (Some s) = Ok (σ', head l2) ∧ linked_ring σ' l1 ∧ linked_ring σ' l2 ∧
      only_links σ σ' (l1 ++ l2)) ∧
  (∀ l r s, Rep σ l → last l = Some r → head l = Some s →
    ∃ σ', Link σ r (Some s) = Ok (σ', Some s) ∧ linked_ring σ' l ∧ only_links σ σ' l) ∧
  (∀ l r n, Rep σ l → last l = Some r → 1 ≤ n < 2 ^ 63 - 1 →
    let k := Z.to_nat (n mod len l) in
    ∃ σ', Unlink σ r n = Ok (σ', head l) ∧ only_links σ σ' l ∧
      (if decide (k = 0%nat) then linked_ring σ' l
       else linked_ring σ' (drop k l) ∧ linked_ring σ' (take k l))) ∧
  (∀ r n, n ≤ 0 → Unlink σ r n = Ok (σ, None) ∧ New σ n = Ok (σ, None)) ∧
  (∀ n, fresh_ok σ → 1 ≤ n →
    ∃ σ', New σ n = Ok (σ', Some (r_fresh σ)) ∧ linked_ring σ' (seqZ (r_fresh σ) n) ∧
      old_links σ σ' (r_fresh σ) ∧ fresh_ok σ').
Proof.
  split_and!.
  - intros l k r n f acc Hrep Hr Hlen σ'. destruct (touch σ l k r Hrep Hr) as (? & ? & ? & ?).
    split_and!; try done; [by apply Move_spec|by eapply Len_spec|by apply Do_spec].
  - intros. by apply Link_merge.
  - intros. by apply Link_split.
  - intros. by apply Link_next.
  - intros. by apply Unlink_spec.
  - intros r n Hn. unfold Unlink, New. by rewrite (proj2 (Z.leb_le n 0)).
  - intros. by apply New_ring_spec.
Qed.

Lemma ring_correct_witness :
  Move ring3 1 (-5) = Ok (ring3, Some 2) ∧
  Do ring3 (Some 0) (λ acc v, acc ++ [v]) [] = Ok (ring3, [Some 10; Some 11; Some 12]) ∧
  (∃ σ', Link ring3 2 (Some 7) = Ok (σ', Some 0) ∧ linked_ring σ' [0; 1; 2; 7]) ∧
  (∃ σ', Unlink ring3 2 4 = Ok (σ', Some 0) ∧ linked_ring σ' [1; 2] ∧ linked_ring σ' [0]).
Proof.
  destruct ring3_linked as [Hc H7].
  destruct (ring_correct (S := list (option Z)) ring3) as (HW & HL & _ & _ & HU & _). split; [|split; [|split]].
  - apply (HW [0; 1; 2] 1 1 (-5) (λ a _, a) [] (or_intror Hc)); [reflexivity|vm_compute; reflexivity].
  - apply (HW [0; 1; 2] 0 0 0 (λ acc v, acc ++ [v]) [] (or_intror Hc)); [reflexivity|vm_compute; reflexivity|reflexivity].
  - destruct (HL [0; 1; 2] [7] 2 7 (or_intror Hc) H7) as (σ' & ? & ? & _);
      [set_solver|reflexivity|reflexivity|by exists σ'].
  - destruct (HU [0; 1; 2] 2 4 (or_intror Hc) eq_refl ltac:(lia)) as (σ' & ? & _ & ? & ?). by exists σ'.
Defined.
