(* ===== verification/Bytealg.v ===== *)
(** * Byte strings: constants and scans

    The bytes of string, rune and byte constants, and the scans of
    internal/bytealg for one byte (the portable versions of indexbyte and
    lastindexbyte; the assembly of the architectures is documented to do the
    same). *)

From Stdlib Require Import Ascii String.
From stdpp Require Import base.
From S2P Require Import Prelude.

(** The bytes of a string constant. *)
Definition str (s : String.string) : list Z :=
  List.map (λ c, Z.of_nat (nat_of_ascii c)) (list_ascii_of_string s).

(** A rune or byte constant. *)
Definition chr (s : String.string) : Z := default 0 (head (str s)).

Definition LastIndexByteString (s : list Z) (c : Z) : res Z :=
  loop (fuel_of (len s)) (λ i,
    if 0 <=? i then
      x ← idx s i;
      if x =? c then mret (inr i) else mret (inl (i - 1))
    else mret (inr (-1))) (len s - 1).

Definition IndexByteString (s : list Z) (c : Z) : res Z :=
  loop (fuel_of (len s)) (λ i,
    if i <? len s then
      x ← idx s i;
      if x =? c then mret (inr i) else mret (inl (i + 1))
    else mret (inr (-1))) 0.

(** ** What the scans find *)

Lemma zget_split_at {A} (l : list A) i x : zget l i = Some x →
  ∃ a b, l = a ++ x :: b ∧ len a = i.
Proof.
  intros H. pose proof (zget_Some_range _ _ _ H) as Hr. unfold zget in H.
  rewrite decide_True in H by lia. exists (take (Z.to_nat i) l), (drop (S (Z.to_nat i)) l).
  split; [by rewrite take_drop_middle|]. rewrite len_take. lia.
Qed.

Lemma LastIndexByteString_spec s c :
  wp (LastIndexByteString s c) (λ i,
    (i = -1 ∧ c ∉ s) ∨ ∃ a b, s = a ++ c :: b ∧ c ∉ b ∧ i = len a).
Proof.
  unfold LastIndexByteString.
  apply (wp_loop (λ i, -1 ≤ i < len s ∧ ∀ j, i < j → zget s j ≠ Some c) (λ i, i + 1)).
  - pose proof (len_nonneg s). split; [lia|]. intros j Hj. rewrite (proj2 (zget_None s j)); [done|lia].
  - lia.
  - unfold fuel_of. pose proof (len_nonneg s). lia.
  - intros i [Hi Hno]. destruct (Z.leb_spec 0 i).
    + apply wp_bind, wp_idx; [lia|]. intros x Hx. destruct (Z.eqb_spec x c) as [->|].
      * simpl. right. destruct (zget_split_at _ _ _ Hx) as (a & b & -> & <-). exists a, b.
        split_and!; [done| |done]. intros [k Hk]%elem_of_zget. pose proof (zget_Some_range _ _ _ Hk).
        apply (Hno (len a + 1 + k)); [lia|]. rewrite zget_app_r by lia. rewrite zget_cons by lia.
        rewrite <-Hk. f_equal. lia.
      * simpl. split; [|lia]. split; [lia|]. intros j Hj. destruct (decide (j = i)) as [->|].
        { congruence. } apply Hno. lia.
    + simpl. left. split; [done|]. intros [k Hk]%elem_of_zget. pose proof (zget_Some_range _ _ _ Hk).
      apply (Hno k); [lia|done].
Qed.

Lemma IndexByteString_spec s c :
  wp (IndexByteString s c) (λ i,
    (i = -1 ∧ c ∉ s) ∨ ∃ a b, s = a ++ c :: b ∧ c ∉ a ∧ i = len a).
Proof.
  unfold IndexByteString.
  apply (wp_loop (λ i, 0 ≤ i ≤ len s ∧ ∀ j, j < i → zget s j ≠ Some c) (λ i, len s - i)).
  - pose proof (len_nonneg s). split; [lia|]. intros j Hj. rewrite (proj2 (zget_None s j)); [done|lia].
  - lia.
  - unfold fuel_of. pose proof (len_nonneg s). lia.
  - intros i [Hi Hno]. destruct (Z.ltb_spec i (len s)).
    + apply wp_bind, wp_idx; [lia|]. intros x Hx. destruct (Z.eqb_spec x c) as [->|].
      * simpl. right. destruct (zget_split_at _ _ _ Hx) as (a & b & -> & <-). exists a, b.
        split_and!; [done| |done]. intros [k Hk]%elem_of_zget. pose proof (zget_Some_range _ _ _ Hk).
        apply (Hno k); [lia|]. by rewrite zget_app_l by lia.
      * simpl. split; [|lia]. split; [lia|]. intros j Hj. destruct (decide (j = i)) as [->|].
        { congruence. } apply Hno. lia.
    + simpl. left. split; [done|]. intros [k Hk]%elem_of_zget. pose proof (zget_Some_range _ _ _ Hk).
      apply (Hno k); [lia|done].
Qed.
