(* ===== verification/Strconv.v ===== *)
(** * internal/strconv: integers and booleans

    The integer and boolean conversions of internal/strconv (atoi.go, itoa.go,
    atob.go) for 64-bit machines. A string is the list of its bytes; a buffer
    that the code fills is a list threaded through the loops. *)

From Stdlib Require Import Ascii String.
From stdpp Require Import base.
From S2P Require Import Prelude Bits Bytealg.

Inductive Error := ErrRange | ErrSyntax | ErrBase | ErrBitSize.

#[export] Instance Error_eq_dec : EqDecision Error.
Proof. solve_decision. Defined.

Definition Error_Error (e : Error) : list Z :=
  match e with
  | ErrRange => str "value out of range"
  | ErrSyntax => str "invalid syntax"
  | ErrBase => str "invalid base"
  | ErrBitSize => str "invalid bit size"
  end.

Definition lower (c : Z) : Z := Z.lor c (chr "x" - chr "X").

Definition intSize : Z := 64.
Definition IntSize : Z := intSize.
Definition maxUint64 : Z := 2 ^ 64 - 1.

(** ** Parsing *)

(** The character classes [saw] tracks. *)
Definition underscoreOK_loop (hex : bool) (s : list Z) (i saw : Z) : res bool :=
  loop (fuel_of (len s)) (λ '(i, saw),
    if i <? len s then
      c ← idx s i;
      if (chr "0" <=? c) && (c <=? chr "9")
        || hex && (chr "a" <=? lower c) && (lower c <=? chr "f")
      then mret (inl (i + 1, chr "0"))
      else if c =? chr "_" then
        if negb (saw =? chr "0") then mret (inr false) else mret (inl (i + 1, chr "_"))
      else if saw =? chr "_" then mret (inr false)
      else mret (inl (i + 1, chr "!"))
    else mret (inr (negb (saw =? chr "_")))) (i, saw).

Definition underscoreOK (s : list Z) : res bool :=
  let saw := chr "^" in
  let i := 0 in
  signed ← andM (1 <=? len s) (c ← idx s 0; mret ((c =? chr "-") || (c =? chr "+")));
  s ← (if signed : bool then slice_from s 1 else mret s);
  prefixed ← andM (2 <=? len s)
    (c0 ← idx s 0; c1 ← idx s 1;
     mret ((c0 =? chr "0") && ((lower c1 =? chr "b") || (lower c1 =? chr "o") || (lower c1 =? chr "x"))));
  if prefixed : bool then
    c1 ← idx s 1;
    underscoreOK_loop (lower c1 =? chr "x") s 2 (chr "0")
  else underscoreOK_loop false s i saw.

(** [for _, c := range []byte(s)] of [ParseUint]: an early return ([inl]), or
    the number and whether an underscore was seen. *)
Fixpoint ParseUint_loop (base : Z) (base0 : bool) (cutoff maxVal : Z) (s : list Z)
    (n : Z) (underscores : bool) : (Z * Error) + (Z * bool) :=
  match s with
  | [] => inr (n, underscores)
  | c :: s =>
      if (c =? chr "_") && base0 then ParseUint_loop base base0 cutoff maxVal s n true
      else
        let d :=
          if (chr "0" <=? c) && (c <=? chr "9") then Some (u8 (c - chr "0"))
          else if (chr "a" <=? lower c) && (lower c <=? chr "z")
          then Some (u8 (lower c - chr "a" + 10))
          else None in
        match d with
        | None => inl (0, ErrSyntax)
        | Some d =>
            if u8 base <=? d then inl (0, ErrSyntax)
            else if cutoff <=? n then inl (maxVal, ErrRange)
            else
              let n := u64 (n * base) in
              let n1 := u64 (n + d) in
              if (n1 <? n) || (maxVal <? n1) then inl (maxVal, ErrRange)
              else ParseUint_loop base base0 cutoff maxVal s n1 underscores
        end
  end.

(** The base a prefix selects, and the rest of the string. *)
Definition ParseUint_prefix (s : list Z) : res (Z * list Z) :=
  c0 ← idx s 0;
  if c0 =? chr "0" then
    b ← andM (3 <=? len s) (c ← idx s 1; mret (lower c =? chr "b"));
    if b : bool then s ← slice_from s 2; mret (2, s) else
    o ← andM (3 <=? len s) (c ← idx s 1; mret (lower c =? chr "o"));
    if o : bool then s ← slice_from s 2; mret (8, s) else
    x ← andM (3 <=? len s) (c ← idx s 1; mret (lower c =? chr "x"));
    if x : bool then s ← slice_from s 2; mret (16, s) else
    s ← slice_from s 1; mret (8, s)
  else mret (10, s).

Definition ParseUint (s : list Z) (base bitSize : Z) : res (Z * option Error) :=
  if len s =? 0 then mret (0, Some ErrSyntax) else
  let base0 := base =? 0 in
  let s0 := s in
  if negb ((2 <=? base) && (base <=? 36)) && negb (base =? 0) then mret (0, Some ErrBase) else
  '(base, s) ← (if (2 <=? base) && (base <=? 36) then mret (base, s) else ParseUint_prefix s);
  if negb (bitSize =? 0) && ((bitSize <? 0) || (64 <? bitSize))
  then mret (0, Some ErrBitSize) else
  let bitSize := if bitSize =? 0 then IntSize else bitSize in
  let cutoff :=
    if base =? 10 then maxUint64 / 10 + 1
    else if base =? 16 then maxUint64 / 16 + 1
    else u64 (maxUint64 / u64 base + 1) in
  let maxVal := u64 (u64 (Z.shiftl 1 bitSize) - 1) in
  match ParseUint_loop base base0 cutoff maxVal s 0 false with
  | inl (v, err) => mret (v, Some err)
  | inr (n, underscores) =>
      bad ← andM underscores (ok ← underscoreOK s0; mret (negb ok));
      if bad : bool then mret (0, Some ErrSyntax) else mret (n, None)
  end.

Definition ParseInt (s : list Z) (base bitSize : Z) : res (Z * option Error) :=
  if len s =? 0 then mret (0, Some ErrSyntax) else
  c ← idx s 0;
  '(s, neg) ←
    (if c =? chr "+" then s ← slice_from s 1; mret (s, false)
     else if c =? chr "-" then s ← slice_from s 1; mret (s, true)
     else mret (s, false));
  '(un, err) ← ParseUint s base bitSize;
  if negb (bool_decide (err = None)) && negb (bool_decide (err = Some ErrRange))
  then mret (0, err) else
  let bitSize := if bitSize =? 0 then IntSize else bitSize in
  let cutoff := u64 (Z.shiftl 1 (u64 (bitSize - 1))) in
  if negb neg && (cutoff <=? un) then mret (i64 (u64 (cutoff - 1)), Some ErrRange) else
  if neg && (cutoff <? un) then mret (i64 (- i64 cutoff), Some ErrRange) else
  let n := i64 un in
  let n := if neg : bool then i64 (- n) else n in
  mret (n, None).

(** The digits of the fast path of [Atoi]. *)
Fixpoint Atoi_loop (s : list Z) (n : Z) : option Z :=
  match s with
  | [] => Some n
  | ch :: s =>
      let ch := u8 (ch - chr "0") in
      if 9 <? ch then None else Atoi_loop s (i64 (i64 (n * 10) + ch))
  end.

Definition Atoi (s : list Z) : res (Z * option Error) :=
  let sLen := len s in
  if (intSize =? 32) && ((0 <? sLen) && (sLen <? 10))
     || (intSize =? 64) && ((0 <? sLen) && (sLen <? 19))
  then
    let s0 := s in
    c ← idx s 0;
    s ← (if (c =? chr "-") || (c =? chr "+") then slice_from s 1 else mret s);
    if ((c =? chr "-") || (c =? chr "+")) && (len s <? 1) then mret (0, Some ErrSyntax) else
    match Atoi_loop s 0 with
    | None => mret (0, Some ErrSyntax)
    | Some n =>
        c ← idx s0 0;
        let n := if c =? chr "-" then i64 (- n) else n in
        mret (n, None)
    end
  else
    '(i, err) ← ParseInt s 10 0;
    mret (i64 i, err).

(** ** Formatting *)

Definition digits : list Z := str "0123456789abcdefghijklmnopqrstuvwxyz".

Definition nSmalls : Z := 100.

Definition smalls : list Z :=
  str "00010203040506070809" ++
  str "10111213141516171819" ++
  str "20212223242526272829" ++
  str "30313233343536373839" ++
  str "40414243444546474849" ++
  str "50515253545556575859" ++
  str "60616263646566676869" ++
  str "70717273747576777879" ++
  str "80818283848586878889" ++
  str "90919293949596979899".

Definition host64bit : bool := negb (Z.shiftr maxUint64 32 =? 0).

Definition isPowerOfTwo (x : Z) : bool := Z.land x (i64 (x - 1)) =? 0.

Definition small (i : Z) : res (list Z) :=
  if i <? 10 then slice digits i (i + 1)
  else slice smalls (i * 2) (i * 2 + 2).

(** [a[i+0], a[i+1] = smalls[dd+0], smalls[dd+1]] *)
Definition put2 (a : list Z) (i dd : Z) : res (list Z) :=
  x0 ← idx smalls (u32 (dd + 0));
  x1 ← idx smalls (u32 (dd + 1));
  a ← store a (i + 0) x0;
  store a (i + 1) x1.

(** Every digit loop at least halves a 64-bit number: 65 rounds are enough. *)

(** The nine digits of one chunk. *)
Definition put9 (a : list Z) (i lo : Z) : res (list Z * Z) :=
  '(a, i, lo) ← foldM (λ '(a, i, lo) _,
    let dd := u32 ((lo mod 100) * 2) in
    let lo := lo / 100 in
    let i := i - 2 in
    a ← put2 a i dd;
    mret (a, i, lo)) (seqZ 0 4) (a, i, lo);
  let i := i - 1 in
  x ← idx smalls (u32 (u32 (lo * 2) + 1));
  a ← store a i x;
  mret (a, i).

(** The final chunk. *)
Definition put_last (a : list Z) (i lo : Z) : res (list Z * Z) :=
  '(a, i, lo) ← loop (fuel_of 64) (λ '(a, i, lo),
    if 100 <=? lo then
      let dd := u32 ((lo mod 100) * 2) in
      let lo := lo / 100 in
      let i := i - 2 in
      a ← put2 a i dd;
      mret (inl (a, i, lo))
    else mret (inr (a, i, lo))) (a, i, lo);
  let i := i - 1 in
  let dd := u32 (lo * 2) in
  x ← idx smalls (u32 (dd + 1));
  a ← store a i x;
  if 10 <=? lo then
    let i := i - 1 in
    x ← idx smalls (u32 (dd + 0));
    a ← store a i x;
    mret (a, i)
  else mret (a, i).

(** The buffer the code fills is returned beside the offset. *)
Definition formatBase10 (a : list Z) (u : Z) : res (list Z * Z) :=
  r ← loop (fuel_of 64) (λ '(a, i, u),
    if (host64bit && negb (Z.shiftr u 29 =? 0))
       || (negb host64bit && negb (Z.lor (Z.shiftr (u32 u) 29) (u32 (Z.shiftr u 32)) =? 0))
    then
      let lo := u32 (u mod 1000000000) in
      let u := u / 1000000000 in
      '(a, i) ← put9 a i lo;
      if u =? 0 then mret (inr (inl (a, i))) else mret (inl (a, i, u))
    else mret (inr (inr (a, i, u)))) (a, len a, u);
  match r with
  | inl (a, i) => mret (a, i)
  | inr (a, i, u) => put_last a i (u32 u)
  end.

(** The two digit loops of [formatBits]. *)
Definition bits_shift (a : list Z) (i u base : Z) : res (list Z * Z) :=
  shift ← TrailingZeros (u64 base);
  let b := u64 base in
  let m := u64 (u64 base - 1) in
  '(a, i, u) ← loop (fuel_of 64) (λ '(a, i, u),
    if b <=? u then
      let i := i - 1 in
      x ← idx digits (Z.land (u64 u) m);
      a ← store a i x;
      mret (inl (a, i, Z.shiftr u (u64 shift)))
    else mret (inr (a, i, u))) (a, i, u);
  let i := i - 1 in
  x ← idx digits (u64 u);
  a ← store a i x;
  mret (a, i).

Definition bits_div (a : list Z) (i u base : Z) : res (list Z * Z) :=
  let b := u64 base in
  '(a, i, u) ← loop (fuel_of 64) (λ '(a, i, u),
    if b <=? u then
      let i := i - 1 in
      let q := u / b in
      x ← idx digits (u64 (u - u64 (q * b)));
      a ← store a i x;
      mret (inl (a, i, q))
    else mret (inr (a, i, u))) (a, i, u);
  let i := i - 1 in
  x ← idx digits (u64 u);
  a ← store a i x;
  mret (a, i).

Definition formatBits (dst : list Z) (u base : Z) (neg append_ : bool) : res (list Z * list Z) :=
  if (base <? 2) || (base =? 10) || (len digits <? base)
  then Panic (PanicMsg (str "strconv: illegal AppendInt/FormatInt base")) else
  let a := replicate 65 0 in
  let i := len a in
  let u := if neg then u64 (- u) else u in
  '(a, i) ← (if isPowerOfTwo base then bits_shift a i u base else bits_div a i u base);
  '(a, i) ← (if neg then let i := i - 1 in a ← store a i (chr "-"); mret (a, i) else mret (a, i));
  t ← slice_from a i;
  if append_ then mret (dst ++ t, []) else mret ([], t).

Definition FormatUint (i base : Z) : res (list Z) :=
  if base =? 10 then
    if i <? nSmalls then small (i64 i) else
    let a := replicate 24 0 in
    '(a, j) ← formatBase10 a i;
    slice_from a j
  else
    '(_, s) ← formatBits [] i base false false;
    mret s.

Definition FormatInt (i base : Z) : res (list Z) :=
  if base =? 10 then
    if (0 <=? i) && (i <? nSmalls) then small i else
    let a := replicate 24 0 in
    let u := u64 i in
    let u := if i <? 0 then u64 (- u) else u in
    '(a, j) ← formatBase10 a u;
    '(a, j) ← (if i <? 0 then let j := j - 1 in a ← store a j (chr "-"); mret (a, j) else mret (a, j));
    slice_from a j
  else
    '(_, s) ← formatBits [] (u64 i) base (i <? 0) false;
    mret s.

Definition Itoa (i : Z) : res (list Z) := FormatInt (i64 i) 10.

Definition AppendUint (dst : list Z) (i base : Z) : res (list Z) :=
  if base =? 10 then
    if i <? nSmalls then s ← small (i64 i); mret (dst ++ s) else
    let a := replicate 24 0 in
    '(a, j) ← formatBase10 a i;
    t ← slice_from a j;
    mret (dst ++ t)
  else
    '(dst, _) ← formatBits dst i base false true;
    mret dst.

Definition AppendInt (dst : list Z) (i base : Z) : res (list Z) :=
  let u := u64 i in
  let '(dst, u) := if i <? 0 then (dst ++ [chr "-"], u64 (- u)) else (dst, u) in
  AppendUint dst u base.

(** ** Booleans *)

Definition is_one_of (s : list Z) (l : list (list Z)) : bool := existsb (λ t, bool_decide (s = t)) l.

Definition ParseBool (s : list Z) : bool * option Error :=
  if is_one_of s [str "1"; str "t"; str "T"; str "true"; str "TRUE"; str "True"]
  then (true, None)
  else if is_one_of s [str "0"; str "f"; str "F"; str "false"; str "FALSE"; str "False"]
  then (false, None)
  else (false, Some ErrSyntax).

Definition FormatBool (b : bool) : list Z := if b then str "true" else str "false".

Definition AppendBool (dst : list Z) (b : bool) : list Z :=
  if b then dst ++ str "true" else dst ++ str "false".
