(* ===== verification/StrconvProofs.v ===== *)
(** * internal/strconv: lemmas

    The value of a digit string, the scanning loops of the parsers, and the
    buffers the formatters fill from the right. *)

From Stdlib Require Import String.
From stdpp Require Import base.
From S2P Require Import Prelude Bits Bytealg Strconv.


(** ** Digit strings *)

(** The number the digits [ds] denote, most significant first. *)
Definition value (base : Z) (ds : list Z) : Z := fold_left (λ n d, n * base + d) ds 0.

(** The canonical digits of [u]. *)
Definition numeral (base u : Z) (ds : list Z) : Prop :=
  value base ds = u ∧ Forall (λ d, 0 ≤ d < base) ds ∧ (ds = [0] ∨ ∃ d r, ds = d :: r ∧ 0 < d).

(** The digit a character stands for, in any base. *)
Definition digit_of (c : Z) : option Z :=
  if decide (48 ≤ c ≤ 57) then Some (c - 48)
  else if decide (97 ≤ c ≤ 122) then Some (c - 87)
  else if decide (65 ≤ c ≤ 90) then Some (c - 55)
  else None.

Definition is_digit (base c d : Z) : Prop := digit_of c = Some d ∧ d < base.

Section value.
Context (base : Z).
Hypothesis Hbase : 2 ≤ base.
Implicit Types (ds : list Z) (u d : Z).

Lemma value_from n ds : fold_left (λ n d, n * base + d) ds n = n * base ^ len ds + value base ds.
Proof.
  unfold value. revert n. induction ds as [|d ds IH]; intros n; simpl.
  - rewrite len_nil. lia.
  - rewrite IH, (IH (0 * base + d)), len_cons, Z.pow_add_r by (pose proof (len_nonneg ds); lia). lia.
Qed.
Lemma value_cons d ds : value base (d :: ds) = d * base ^ len ds + value base ds.
Proof. unfold value at 1. simpl. by rewrite value_from. Qed.
Lemma value_app ds ds' : value base (ds ++ ds') = value base ds * base ^ len ds' + value base ds'.
Proof. unfold value at 1. rewrite fold_left_app. by rewrite value_from. Qed.
Lemma value_snoc ds d : value base (ds ++ [d]) = value base ds * base + d.
Proof. rewrite value_app, value_cons, len_cons, len_nil. change (value base []) with 0. lia. Qed.

Lemma value_range ds : Forall (λ d, 0 ≤ d < base) ds → 0 ≤ value base ds < base ^ len ds.
Proof.
  induction 1 as [|d ds Hd _ IH]; [done|].
  pose proof (len_nonneg ds).
  rewrite value_cons, len_cons, Z.pow_add_r, Z.pow_1_r by lia. nia.
Qed.

Lemma is_digit_range c d : is_digit base c d → 0 ≤ d < base.
Proof. unfold is_digit, digit_of. intros [H ?]. repeat case_decide; simplify_eq; lia. Qed.

Lemma digits_range s ds : Forall2 (is_digit base) s ds → Forall (λ d, 0 ≤ d < base) ds.
Proof. induction 1; constructor; [by eapply is_digit_range|done]. Qed.

(** Every string is all digits or has a first character that is none. *)
Lemma first_bad_digit s : (∃ ds, Forall2 (is_digit base) s ds) ∨
  ∃ p c r ds, s = p ++ c :: r ∧ Forall2 (is_digit base) p ds ∧ ∀ d, ¬ is_digit base c d.
Proof.
  induction s as [|c s IH]; [by left; exists []|].
  destruct (digit_of c) as [d|] eqn:Hd.
  2: { right. exists [], c, s, []. split_and!; [done..|]. intros d [? ?]. congruence. }
  destruct (decide (d < base)) as [Hlt|Hge].
  2: { right. exists [], c, s, []. split_and!; [done..|]. intros d' [? ?].
       assert (d = d') by congruence. lia. }
  destruct IH as [[ds H]|(p & c' & r & ds & -> & H & Hc)].
  - left. exists (d :: ds). by constructor.
  - right. exists (c :: p), c', r, (d :: ds). split_and!; [done|by constructor|done].
Qed.
End value.

(** The code's digit test, for bytes. *)
Lemma digit_code c : byte c →
  (if (chr "0" <=? c) && (c <=? chr "9") then Some (u8 (c - chr "0"))
   else if (chr "a" <=? lower c) && (lower c <=? chr "z")
   then Some (u8 (lower c - chr "a" + 10)) else None) = digit_of c.
Proof.
  intros Hc. apply (forall_byte (λ c, bool_decide
    ((if (chr "0" <=? c) && (c <=? chr "9") then Some (u8 (c - chr "0"))
      else if (chr "a" <=? lower c) && (lower c <=? chr "z")
      then Some (u8 (lower c - chr "a" + 10)) else None) = digit_of c))) in Hc;
    [by apply bool_decide_eq_true in Hc|]. vm_compute. reflexivity.
Qed.

(** ** The digit loop of [ParseUint] *)

Section parse_loop.
Context (base bits : Z).
Hypothesis Hbase : 2 ≤ base ≤ 36.
Hypothesis Hbits : 1 ≤ bits ≤ 64.
Let cutoff := maxUint64 / base + 1.
Let maxVal := 2 ^ bits - 1.

Lemma maxVal_range : 1 ≤ maxVal ≤ maxUint64.
Proof.
  unfold maxVal, maxUint64.
  pose proof (Z.pow_le_mono_r 2 bits 64 ltac:(lia) ltac:(lia)).
  pose proof (Z.pow_le_mono_r 2 1 bits ltac:(lia) ltac:(lia)). lia.
Qed.

(** One valid digit. *)
Lemma parse_step s n d us : 0 ≤ n ≤ maxVal → 0 ≤ d < base →
  (if u8 base <=? d then inl (0, ErrSyntax)
   else if cutoff <=? n then inl (maxVal, ErrRange)
   else if (u64 (u64 (n * base) + d) <? u64 (n * base)) || (maxVal <? u64 (u64 (n * base) + d))
   then inl (maxVal, ErrRange)
   else ParseUint_loop base false cutoff maxVal s (u64 (u64 (n * base) + d)) us) =
  (if n * base + d <=? maxVal then ParseUint_loop base false cutoff maxVal s (n * base + d) us
   else inl (maxVal, ErrRange)).
Proof.
  intros Hn Hd. pose proof maxVal_range as HM. rewrite (uwrap_small 8 base) by (unfold is_uint; lia).
  rewrite (proj2 (Z.leb_gt base d)) by lia.
  pose proof (Z.div_mod maxUint64 base ltac:(lia)) as Hdm.
  pose proof (Z.mod_pos_bound maxUint64 base ltac:(lia)).
  destruct (Z.leb_spec cutoff n) as [Hc|Hc].
  - rewrite (proj2 (Z.leb_gt _ _)); [done|]. unfold cutoff in Hc. nia.
  - assert (0 ≤ n * base ≤ maxUint64) as Hnb by (unfold cutoff in Hc; nia).
    unfold maxUint64 in *. rewrite (uwrap_small 64 (n * base)) by (unfold is_uint; lia).
    destruct (decide (n * base + d < 2 ^ 64)) as [Hlt|Hge].
    + rewrite uwrap_small by (unfold is_uint; lia).
      rewrite (proj2 (Z.ltb_ge _ _)) by lia. simpl.
      destruct (Z.leb_spec (n * base + d) maxVal), (Z.ltb_spec maxVal (n * base + d)); (lia || done).
    + rewrite (proj2 (Z.leb_gt _ _)) by lia.
      assert (u64 (n * base + d) = n * base + d - 2 ^ 64) as ->.
      { unfold uwrap. rewrite <-(Z.mod_small (n * base + d - 2 ^ 64) (2 ^ 64)) by lia.
        rewrite <-Zminus_mod_idemp_r, Z.mod_same, Z.sub_0_r by done. done. }
      by rewrite (proj2 (Z.ltb_lt _ _)) by lia.
Qed.

(** Digits, then anything. *)
Lemma parse_digits p ds s n us : Forall byte p → Forall2 (is_digit base) p ds → 0 ≤ n ≤ maxVal →
  ParseUint_loop base false cutoff maxVal (p ++ s) n us =
  if n * base ^ len ds + value base ds <=? maxVal
  then ParseUint_loop base false cutoff maxVal s (n * base ^ len ds + value base ds) us
  else inl (maxVal, ErrRange).
Proof.
  intros Hb Hds. revert n Hb. induction Hds as [|c d p ds Hd Hds IH]; intros n Hb Hn.
  { rewrite len_nil. change (value base []) with 0. replace (n * base ^ 0 + 0) with n by lia.
    by rewrite (proj2 (Z.leb_le _ _)) by lia. }
  apply Forall_cons in Hb as [Hc Hb]. pose proof (is_digit_range _ _ _ Hd) as Hr.
  cbn [app ParseUint_loop]. rewrite andb_false_r, digit_code by done. destruct Hd as [-> _].
  rewrite parse_step by done.
  rewrite value_cons, len_cons, Z.pow_add_r, Z.pow_1_r by (pose proof (len_nonneg ds); lia).
  pose proof (digits_range base p ds Hds) as Hrs.
  pose proof (value_range base ltac:(lia) ds Hrs) as Hv.
  assert (1 ≤ base ^ len ds) by (pose proof (Z.pow_pos_nonneg base (len ds) ltac:(lia) (len_nonneg ds)); lia).
  destruct (Z.leb_spec (n * base + d) maxVal) as [Hle|Hgt].
  - rewrite IH by (done || nia).
    replace ((n * base + d) * base ^ len ds + value base ds)
      with (n * (base * base ^ len ds) + (d * base ^ len ds + value base ds)) by lia. done.
  - rewrite (proj2 (Z.leb_gt _ _)); [done|].
    assert ((n * base + d) * 1 ≤ (n * base + d) * base ^ len ds) by nia. nia.
Qed.

Lemma parse_bad c s n us : byte c → (∀ d, ¬ is_digit base c d) →
  ParseUint_loop base false cutoff maxVal (c :: s) n us = inl (0, ErrSyntax).
Proof.
  intros Hc Hbad. cbn [ParseUint_loop]. rewrite andb_false_r, digit_code by done.
  destruct (digit_of c) as [d|] eqn:Hd; [|done].
  rewrite (uwrap_small 8 base) by (unfold is_uint; lia).
  rewrite (proj2 (Z.leb_le _ _)); [done|]. destruct (decide (d < base)); [|lia].
  destruct (Hbad d). done.
Qed.
End parse_loop.

(** With base 0, underscores are skipped and noted. *)
Lemma parse_flag base cutoff maxVal s n us :
  ParseUint_loop base false cutoff maxVal s n us =
  match ParseUint_loop base false cutoff maxVal s n false with
  | inl e => inl e
  | inr (v, _) => inr (v, us)
  end.
Proof.
  revert n. induction s as [|c s IH]; intros n; [done|]. cbn [ParseUint_loop].
  rewrite andb_false_r. case_match; [|done]. repeat (case_match; try done); auto.
Qed.

Lemma parse_underscores base cutoff maxVal s n us :
  ParseUint_loop base true cutoff maxVal s n us =
  match ParseUint_loop base false cutoff maxVal (filter (λ c, c ≠ chr "_") s) n false with
  | inl e => inl e
  | inr (v, _) => inr (v, us || existsb (λ c, c =? chr "_") s)
  end.
Proof.
  revert n us. induction s as [|c s IH]; intros n us; [by simpl; rewrite orb_false_r|].
  cbn [existsb]. destruct (Z.eqb_spec c (chr "_")) as [->|Hne].
  - rewrite filter_cons_False by (intros H; by apply H). cbn [ParseUint_loop].
    rewrite Z.eqb_refl. cbn [andb]. rewrite IH. cbn [orb]. by rewrite orb_true_r.
  - rewrite filter_cons_True by done. cbn [ParseUint_loop].
    rewrite andb_false_r, andb_true_r, (proj2 (Z.eqb_neq _ _) Hne). cbn [orb].
    match goal with |- match ?x with _ => _ end = _ => destruct x as [d|]; [|done] end.
    repeat case_match; try done; rewrite IH in *; repeat case_match; congruence.
Qed.


(** ** Underscores *)

(** An underscore of [rest] stands between two digits, or between the base
    prefix [pre] and a digit. *)
Definition underscores_ok (pre rest : list Z) : Prop :=
  ∀ p r, rest = p ++ chr "_" :: r →
    (p = [] → pre ≠ []) ∧ last p ≠ Some (chr "_") ∧ r ≠ [] ∧ head r ≠ Some (chr "_").

(** What the scan of [underscoreOK] computes on digits and underscores. *)
Fixpoint us_scan (saw : Z) (t : list Z) : bool :=
  match t with
  | [] => negb (saw =? chr "_")
  | c :: t => if c =? chr "_" then (saw =? chr "0") && us_scan (chr "_") t
              else us_scan (chr "0") t
  end.

Lemma us_scan_spec saw t : us_scan saw t = true ↔
  (saw = chr "_" → t ≠ [] ∧ head t ≠ Some (chr "_")) ∧
  ∀ p r, t = p ++ chr "_" :: r →
    (p = [] → saw = chr "0") ∧ last p ≠ Some (chr "_") ∧ r ≠ [] ∧ head r ≠ Some (chr "_").
Proof.
  revert saw. induction t as [|c t IH]; intros saw; cbn [us_scan].
  { rewrite negb_true_iff, Z.eqb_neq. split; [|by intros [H _] E; destruct (H E)].
    intros Hne. split; [done|]. by intros [|? ?] r E. }
  destruct (Z.eqb_spec c (chr "_")) as [->|Hne].
  - rewrite andb_true_iff, IH, Z.eqb_eq. split.
    + intros (-> & H1 & H2). destruct (H1 eq_refl) as [Ht Hh]. split; [done|].
      intros [|x p] r E; [injection E as <-; done|]. injection E as <- E.
      destruct (H2 p r E) as (Hp & Hl & ? & ?). split_and!; [done| |done..].
      destruct p as [|y p]; [by discriminate (Hp eq_refl)|done].
    + intros [H1 H2]. destruct (H2 [] t eq_refl) as (Hs & _ & Ht & Hh).
      split; [by apply Hs|]. split; [done|]. intros p r E.
      destruct (H2 (chr "_" :: p) r) as (_ & Hl & ? & ?); [by rewrite E|].
      split_and!; [intros ->; by destruct Hl| |done..].
      destruct p as [|y p]; done.
  - rewrite IH. split.
    + intros [_ H2]. split; [intros _; split; [done|by intros [= ?]]|].
      intros [|x p] r E; [by injection E as ->|]. injection E as <- E.
      destruct (H2 p r E) as (Hp & Hl & ? & ?). split_and!; [done| |done..].
      destruct p as [|y p]; [by intros [= ->]|done].
    + intros [_ H2]. split; [done|]. intros p r E.
      destruct (H2 (c :: p) r) as (_ & Hl & ? & ?); [by rewrite E|].
      split_and!; [done| |done..]. destruct p as [|y p]; done.
Qed.

Lemma us_scan_ok pre rest : us_scan (if decide (pre = []) then chr "^" else chr "0") rest = true ↔
  underscores_ok pre rest.
Proof.
  rewrite us_scan_spec. unfold underscores_ok. split.
  - intros [_ H] p r E. destruct (H p r E) as (Hp & ?). split; [|done].
    intros E'. specialize (Hp E'). by case_decide.
  - intros H. split; [by case_decide|]. intros p r E. destruct (H p r E) as (Hp & ?).
    split; [|done]. intros E'. by rewrite decide_False by auto.
Qed.

Definition digit_class (hex : bool) (c : Z) : bool :=
  (chr "0" <=? c) && (c <=? chr "9") || hex && (chr "a" <=? lower c) && (lower c <=? chr "f").

Lemma underscoreOK_loop_spec hex a t saw :
  Forall (λ c, digit_class hex c = true ∨ c = chr "_") t →
  underscoreOK_loop hex (a ++ t) (len a) saw = Ok (us_scan saw t).
Proof.
  unfold underscoreOK_loop. intros Ht.
  assert (∀ n, (length t < n)%nat → loop n (λ '(i, saw),
    if i <? len (a ++ t) then
      c ← idx (a ++ t) i;
      if (chr "0" <=? c) && (c <=? chr "9")
        || hex && (chr "a" <=? lower c) && (lower c <=? chr "f")
      then mret (inl (i + 1, chr "0"))
      else if c =? chr "_" then
        if negb (saw =? chr "0") then mret (inr false) else mret (inl (i + 1, chr "_"))
      else if saw =? chr "_" then mret (inr false)
      else mret (inl (i + 1, chr "!"))
    else mret (inr (negb (saw =? chr "_")))) (len a, saw) = Ok (us_scan saw t)) as H.
  2: { apply H. unfold fuel_of, len. rewrite length_app. lia. }
  revert a saw. induction Ht as [|c t Hc Ht IH]; intros a saw n Hn;
    (destruct n as [|n]; [simpl in Hn; lia|]); rewrite loop_S.
  - rewrite app_nil_r, Z.ltb_irrefl. done.
  - assert (len a < len (a ++ c :: t)) as Hlt.
    { rewrite len_app, len_cons. pose proof (len_nonneg t). lia. }
    rewrite (proj2 (Z.ltb_lt _ _) Hlt), (idx_in _ _ _ (zget_mid a c t)).
    replace (a ++ c :: t) with ((a ++ [c]) ++ t) by by rewrite <-app_assoc.
    replace (len a + 1) with (len (a ++ [c])) by (rewrite len_app, len_cons, len_nil; lia).
    cbn [mbind res_bind us_scan]. fold (digit_class hex c).
    simpl in Hn. specialize (IH (a ++ [c])).
    destruct (digit_class hex c) eqn:Hd.
    + rewrite (proj2 (Z.eqb_neq c (chr "_"))).
      * cbn [mbind res_bind mret res_ret]. apply IH. lia.
      * intros ->. by destruct hex.
    + destruct Hc as [Hc| ->]; [congruence|]. rewrite Z.eqb_refl.
      destruct (Z.eqb_spec saw (chr "0")); [|done].
      cbn [negb mbind res_bind mret res_ret andb]. apply IH. lia.
Qed.


(** ** Prefixes *)

(** The base, the prefix and the rest of an unsigned literal. *)
Definition split_prefix (s : list Z) : Z * list Z * list Z :=
  match s with
  | c0 :: c1 :: c2 :: r =>
      if negb (c0 =? chr "0") then (10, [], s)
      else if lower c1 =? chr "b" then (2, [c0; c1], c2 :: r)
      else if lower c1 =? chr "o" then (8, [c0; c1], c2 :: r)
      else if lower c1 =? chr "x" then (16, [c0; c1], c2 :: r)
      else (8, [c0], c1 :: c2 :: r)
  | c0 :: r => if c0 =? chr "0" then (8, [c0], r) else (10, [], s)
  | [] => (10, [], s)
  end.

Lemma ParseUint_prefix_spec s : s ≠ [] →
  ParseUint_prefix s = Ok (let '(b, _, rest) := split_prefix s in (b, rest)).
Proof.
  intros Hs. unfold ParseUint_prefix. destruct s as [|c0 s]; [done|].
  rewrite idx_0. cbn [mbind res_bind split_prefix].
  destruct s as [|c1 [|c2 r]].
  - by destruct (c0 =? chr "0").
  - by destruct (c0 =? chr "0").
  - rewrite idx_1. replace (3 <=? len (c0 :: c1 :: c2 :: r)) with true.
    2: { symmetry. apply Z.leb_le. rewrite !len_cons. pose proof (len_nonneg r). lia. }
    assert (slice_from (c0 :: c1 :: c2 :: r) 2 = Ok (c2 :: r)) as H2.
    { unfold slice_from. rewrite decide_True; [done|].
      rewrite !len_cons. pose proof (len_nonneg r). lia. }
    assert (slice_from (c0 :: c1 :: c2 :: r) 1 = Ok (c1 :: c2 :: r)) as H1.
    { unfold slice_from. rewrite decide_True; [done|].
      rewrite !len_cons. pose proof (len_nonneg r). lia. }
    rewrite H1, H2. cbn [mbind res_bind andM negb mret res_ret]. destruct (c0 =? chr "0"); [|done]. cbn [mbind res_bind andM negb mret res_ret].
    destruct (lower c1 =? chr "b"); [done|]. cbn [mbind res_bind andM negb mret res_ret].
    destruct (lower c1 =? chr "o"); [done|]. cbn [mbind res_bind andM negb mret res_ret].
    by destruct (lower c1 =? chr "x").
Qed.

Lemma digit_class_spec b (hex : bool) c d : byte c → is_digit b c d → b ≤ (if hex then 16 else 10) →
  digit_class hex c = true.
Proof.
  intros Hc [Hd Hlt] Hb.
  pose proof (forall_byte (λ c, match digit_of c with
    | Some d => implb (d <? 10) (digit_class false c) && implb (d <? 16) (digit_class true c)
    | None => true end) ltac:(vm_compute; reflexivity) c Hc) as H.
  simpl in H. rewrite Hd in H. apply andb_true_iff in H as [H1 H2].
  destruct hex.
  - by rewrite (proj2 (Z.ltb_lt d 16)) in H2 by lia.
  - by rewrite (proj2 (Z.ltb_lt d 10)) in H1 by lia.
Qed.

Lemma classes b hex s ds : Forall byte s → b ≤ (if hex : bool then 16 else 10) →
  Forall2 (is_digit b) (filter (λ c, c ≠ chr "_") s) ds →
  Forall (λ c, digit_class hex c = true ∨ c = chr "_") s.
Proof.
  intros Hs Hb. revert ds. induction Hs as [|c s Hc Hs IH]; intros ds H; [done|].
  destruct (decide (c = chr "_")) as [->|Hne].
  - rewrite filter_cons_False in H by auto. constructor; [by right|by eapply IH].
  - rewrite filter_cons_True in H by done. apply Forall2_cons_inv_l in H as (d & ds' & Hd & H & ->).
    constructor; [left; by eapply digit_class_spec|by eapply IH].
Qed.

(** No sign and no prefix that the parser did not see. *)
Lemma class_first c : digit_class false c = true ∨ c = chr "_" →
  (c =? chr "-") || (c =? chr "+") = false.
Proof.
  intros H. destruct (Z.eqb_spec c (chr "-")) as [->|]; [by destruct H|].
  destruct (Z.eqb_spec c (chr "+")) as [->|]; [by destruct H|done].
Qed.
Lemma class_second c : digit_class false c = true ∨ c = chr "_" →
  (lower c =? chr "b") || (lower c =? chr "o") || (lower c =? chr "x") = false.
Proof.
  intros [H| ->]; [|done]. unfold digit_class in H. cbn [andb] in H.
  rewrite orb_false_r, andb_true_iff, !Z.leb_le in H.
  assert (forallb (λ c, negb ((lower c =? chr "b") || (lower c =? chr "o") || (lower c =? chr "x")))
    (seqZ 48 10) = true) as Hall by (vm_compute; reflexivity).
  rewrite forallb_forall in Hall. apply negb_true_iff, Hall, list_elem_of_In, elem_of_seqZ.
  vm_compute chr in H. lia.
Qed.

Lemma underscoreOK_plain s : Forall (λ c, digit_class false c = true ∨ c = chr "_") s →
  underscoreOK s = Ok (us_scan (chr "^") s).
Proof.
  intros Hs. unfold underscoreOK.
  assert ((signed ← andM (1 <=? len s) (c ← idx s 0; mret ((c =? chr "-") || (c =? chr "+")));
    if (signed : bool) then slice_from s 1 else mret s) = Ok s) as H1.
  { destruct Hs as [|c s Hc Hs]; [done|]. rewrite idx_0. cbn [mbind res_bind mret res_ret].
    rewrite class_first by done. by destruct (1 <=? _). }
  assert (andM (2 <=? len s) (c0 ← idx s 0; c1 ← idx s 1;
     mret ((c0 =? chr "0") && ((lower c1 =? chr "b") || (lower c1 =? chr "o") || (lower c1 =? chr "x"))))
     = Ok false) as H2.
  { destruct Hs as [|c s Hc Hs]; [done|]. destruct Hs as [|c' s Hc' Hs]; [done|].
    rewrite idx_0, idx_1. cbn [mbind res_bind mret res_ret].
    rewrite class_second, andb_false_r by done. by destruct (2 <=? _). }
  revert H1. destruct (andM (1 <=? len s) _) as [signed| |]; [|done..]. cbn [mbind res_bind].
  intros ->. cbn [mbind res_bind]. rewrite H2. cbn [mbind res_bind].
  by apply (underscoreOK_loop_spec false []).
Qed.

Lemma underscoreOK_prefixed c0 c1 t hex : c0 = chr "0" →
  ((lower c1 =? chr "b") || (lower c1 =? chr "o") || (lower c1 =? chr "x")) = true →
  hex = (lower c1 =? chr "x") →
  Forall (λ c, digit_class hex c = true ∨ c = chr "_") t →
  underscoreOK (c0 :: c1 :: t) = Ok (us_scan (chr "0") t).
Proof.
  intros -> H1 -> Ht. unfold underscoreOK. rewrite !len_cons.
  pose proof (len_nonneg t). rewrite (proj2 (Z.leb_le _ _)), !idx_0 by lia. cbn [andM].
  cbn [mbind res_bind mret res_ret].
  change ((chr "0" =? chr "-") || (chr "0" =? chr "+")) with false. cbn [mbind res_bind mret res_ret].
  rewrite !len_cons, (proj2 (Z.leb_le _ _)), !idx_0, !idx_1 by lia. cbn [andM mbind res_bind mret res_ret].
  rewrite Z.eqb_refl, H1. cbn [andb].
  by apply (underscoreOK_loop_spec _ [chr "0"; c1]).
Qed.


(** ** [ParseUint] *)

(** The width [bitSize] asks for. *)
Definition width (bitSize : Z) : Z := if bitSize =? 0 then 64 else bitSize.

Lemma width_range bitSize : 0 ≤ bitSize ≤ 64 → 1 ≤ width bitSize ≤ 64.
Proof. unfold width. intros. destruct (Z.eqb_spec bitSize 0); lia. Qed.

Lemma maxVal_code w : 1 ≤ w ≤ 64 → u64 (u64 (Z.shiftl 1 w) - 1) = 2 ^ w - 1.
Proof.
  intros Hw. rewrite Z.shiftl_mul_pow2, Z.mul_1_l by lia.
  pose proof (Z.pow_le_mono_r 2 1 w ltac:(lia) ltac:(lia)).
  destruct (decide (w = 64)) as [->|Hne]; [done|].
  pose proof (Z.pow_lt_mono_r 2 w 64 ltac:(lia) ltac:(lia) ltac:(lia)).
  rewrite (uwrap_small 64 (2 ^ w)), uwrap_small by (unfold is_uint; lia). done.
Qed.

Lemma cutoff_code base : 2 ≤ base ≤ 36 →
  (if base =? 10 then maxUint64 / 10 + 1
   else if base =? 16 then maxUint64 / 16 + 1
   else u64 (maxUint64 / u64 base + 1)) = maxUint64 / base + 1.
Proof.
  intros Hb. destruct (Z.eqb_spec base 10) as [->|_]; [done|].
  destruct (Z.eqb_spec base 16) as [->|_]; [done|].
  rewrite (uwrap_small 64 base) by (unfold is_uint; lia). apply uwrap_small.
  unfold is_uint. pose proof (Z.div_le_upper_bound maxUint64 base (2 ^ 63) ltac:(lia)).
  pose proof (Z.div_pos maxUint64 base). unfold maxUint64 in *. lia.
Qed.

(** The result of the digit loop as the parser returns it. *)
Definition loop_result (r : (Z * Error) + (Z * bool)) : Z * option Error :=
  match r with inl (v, e) => (v, Some e) | inr (n, _) => (n, None) end.

Lemma ParseUint_base s base bitSize : s ≠ [] → 2 ≤ base ≤ 36 → 0 ≤ bitSize ≤ 64 →
  ParseUint s base bitSize = Ok (loop_result
    (ParseUint_loop base false (maxUint64 / base + 1) (2 ^ width bitSize - 1) s 0 false)).
Proof.
  intros Hs Hb Hbits. unfold ParseUint. pose proof (width_range _ Hbits) as Hw.
  rewrite (proj2 (Z.eqb_neq (len s) 0)) by (intros ?%len_0_nil; done).
  rewrite (proj2 (Z.leb_le 2 base)), (proj2 (Z.leb_le base 36)) by lia.
  cbn [andb negb mbind res_bind mret res_ret].
  rewrite (proj2 (Z.ltb_ge bitSize 0)), (proj2 (Z.ltb_ge 64 bitSize)), andb_false_r by lia.
  rewrite cutoff_code, (proj2 (Z.eqb_neq base 0)) by lia.
  change (if bitSize =? 0 then IntSize else bitSize) with (width bitSize).
  rewrite maxVal_code by done. rewrite parse_flag.
  by destruct (ParseUint_loop _ _ _ _ _ _ _) as [[v e]|[n us]].
Qed.

Lemma split_prefix_spec s : let '(b, pre, rest) := split_prefix s in
  s = pre ++ rest ∧ (b = 2 ∨ b = 8 ∨ b = 10 ∨ b = 16).
Proof.
  unfold split_prefix. destruct s as [|c0 [|c1 [|c2 r]]]; repeat case_match; simplify_eq; (split; [done|lia]).
Qed.

Lemma underscoreOK_spec s ds : Forall byte s → let '(b, pre, rest) := split_prefix s in
  Forall2 (is_digit b) (filter (λ c, c ≠ chr "_") rest) ds →
  ∃ ok, underscoreOK s = Ok ok ∧ (ok = true ↔ underscores_ok pre rest).
Proof.
  intros Hs. unfold split_prefix.
  assert (∀ c0 b rest, Forall byte rest → b ≤ 10 → c0 = chr "0" →
    Forall2 (is_digit b) (filter (λ c, c ≠ chr "_") rest) ds →
    ∃ ok, underscoreOK (c0 :: rest) = Ok ok ∧ (ok = true ↔ underscores_ok [c0] rest)) as Hoct.
  { intros c0 b rest Hr Hb -> Hds. exists (us_scan (chr "0") rest).
    split; [|by rewrite <-us_scan_ok]. pose proof (classes b false rest ds Hr Hb Hds).
    rewrite underscoreOK_plain; [done|]. constructor; [by left|done]. }
  assert (∀ s, Forall byte s → Forall2 (is_digit 10) (filter (λ c, c ≠ chr "_") s) ds →
    ∃ ok, underscoreOK s = Ok ok ∧ (ok = true ↔ underscores_ok [] s)) as Hdec.
  { intros s' Hs' Hds. exists (us_scan (chr "^") s').
    split; [|by rewrite <-us_scan_ok]. apply underscoreOK_plain. by apply (classes 10 false s' ds). }
  assert (∀ c0 c1 b rest, Forall byte rest → c0 = chr "0" →
    ((lower c1 =? chr "b") || (lower c1 =? chr "o") || (lower c1 =? chr "x")) = true →
    b ≤ (if lower c1 =? chr "x" then 16 else 10) →
    Forall2 (is_digit b) (filter (λ c, c ≠ chr "_") rest) ds →
    ∃ ok, underscoreOK (c0 :: c1 :: rest) = Ok ok ∧ (ok = true ↔ underscores_ok [c0; c1] rest)) as Hpre.
  { intros c0 c1 b rest Hr -> H1 Hb Hds. exists (us_scan (chr "0") rest).
    split; [|by rewrite <-us_scan_ok]. pose proof (classes b _ rest ds Hr Hb Hds).
    by eapply underscoreOK_prefixed. }
  destruct s as [|c0 [|c1 [|c2 r]]].
  - by apply Hdec.
  - destruct (Z.eqb_spec c0 (chr "0")); [|by apply Hdec]. by apply Hoct with (b := 8).
  - destruct (Z.eqb_spec c0 (chr "0")); [|by apply Hdec].
    apply Forall_cons in Hs as [_ Hs]. by apply Hoct with (b := 8).
  - destruct (Z.eqb_spec c0 (chr "0")) as [->|]; cbn [negb]; [|by apply Hdec].
    apply Forall_cons in Hs as [_ Hs]. pose proof Hs as [_ Hs']%Forall_cons.
    destruct (Z.eqb_spec (lower c1) (chr "b")) as [Hl|]; [|
    destruct (Z.eqb_spec (lower c1) (chr "o")) as [Hl|]; [|
    destruct (Z.eqb_spec (lower c1) (chr "x")) as [Hl|]]].
    + apply Hpre; [done|done|by rewrite Hl|by rewrite Hl].
    + apply Hpre; [done|done|by rewrite Hl|by rewrite Hl].
    + apply Hpre; [done|done|by rewrite Hl|by rewrite Hl].
    + by apply Hoct.
Qed.

Lemma ParseUint_base0 s bitSize : s ≠ [] → 0 ≤ bitSize ≤ 64 →
  ParseUint s 0 bitSize =
    let '(b, _, rest) := split_prefix s in
    match ParseUint_loop b false (maxUint64 / b + 1) (2 ^ width bitSize - 1)
        (filter (λ c, c ≠ chr "_") rest) 0 false with
    | inl (v, e) => Ok (v, Some e)
    | inr (n, _) =>
        bad ← andM (existsb (λ c, c =? chr "_") rest) (ok ← underscoreOK s; mret (negb ok));
        if (bad : bool) then Ok (0, Some ErrSyntax) else Ok (n, None)
    end.
Proof.
  intros Hs Hbits. unfold ParseUint. pose proof (width_range _ Hbits) as Hw.
  rewrite (proj2 (Z.eqb_neq (len s) 0)) by (intros ?%len_0_nil; done).
  change ((2 <=? 0) && (0 <=? 36)) with false. rewrite Z.eqb_refl. cbn [andb negb].
  rewrite ParseUint_prefix_spec by done. pose proof (split_prefix_spec s) as Hsp.
  destruct (split_prefix s) as [[b pre] rest]. destruct Hsp as [_ Hb].
  cbn [andb negb mbind res_bind mret res_ret].
  rewrite (proj2 (Z.ltb_ge bitSize 0)), (proj2 (Z.ltb_ge 64 bitSize)), andb_false_r by lia.
  rewrite cutoff_code by lia.
  change (if bitSize =? 0 then IntSize else bitSize) with (width bitSize).
  rewrite maxVal_code, parse_underscores by done.
  by destruct (ParseUint_loop _ _ _ _ _ _ _) as [[v e]|[n us]].
Qed.


(** The value of a string of digits, and the first character that is none. *)
Lemma ParseUint_digits s base bitSize ds : s ≠ [] → Forall byte s → 2 ≤ base ≤ 36 →
  0 ≤ bitSize ≤ 64 → Forall2 (is_digit base) s ds →
  ParseUint s base bitSize = Ok (if value base ds <? 2 ^ width bitSize then (value base ds, None)
    else (2 ^ width bitSize - 1, Some ErrRange)).
Proof.
  intros Hne Hs Hb Hbits Hds. rewrite ParseUint_base by done.
  pose proof (width_range _ Hbits) as Hw.
  pose proof (maxVal_range base _ Hw). rewrite <-(app_nil_r s).
  rewrite (parse_digits base _ Hb Hw s ds []) by (done || lia).
  replace (0 * base ^ len ds + value base ds) with (value base ds) by lia.
  destruct (Z.leb_spec (value base ds) (2 ^ width bitSize - 1)),
    (Z.ltb_spec (value base ds) (2 ^ width bitSize)); (lia || done).
Qed.

Lemma ParseUint_bad base bitSize p c r ds : Forall byte (p ++ c :: r) → 2 ≤ base ≤ 36 →
  0 ≤ bitSize ≤ 64 → Forall2 (is_digit base) p ds → (∀ d, ¬ is_digit base c d) →
  ParseUint (p ++ c :: r) base bitSize = Ok (if value base ds <? 2 ^ width bitSize
    then (0, Some ErrSyntax) else (2 ^ width bitSize - 1, Some ErrRange)).
Proof.
  intros Hs Hb Hbits Hds Hc. rewrite ParseUint_base by (done || by destruct p).
  pose proof (width_range _ Hbits) as Hw. apply Forall_app in Hs as [Hp [Hcb _]%Forall_cons].
  pose proof (maxVal_range base _ Hw).
  rewrite (parse_digits base _ Hb Hw p ds (c :: r)) by (done || lia).
  rewrite (parse_bad base _ Hb c r) by done.
  replace (0 * base ^ len ds + value base ds) with (value base ds) by lia.
  destruct (Z.leb_spec (value base ds) (2 ^ width bitSize - 1)),
    (Z.ltb_spec (value base ds) (2 ^ width bitSize)); (lia || done).
Qed.

(** ** [ParseInt] and [Atoi] *)

Definition split_sign (s : list Z) : bool * list Z :=
  match s with
  | c :: t => if c =? chr "+" then (false, t) else if c =? chr "-" then (true, t) else (false, s)
  | [] => (false, [])
  end.

Definition signed (neg : bool) (u : Z) : Z := if neg then - u else u.

(** The nearest integer of [w] bits, with the error when it is another one. *)
Definition clamp (w x : Z) : Z * option Error :=
  if x <? - 2 ^ (w - 1) then (- 2 ^ (w - 1), Some ErrRange)
  else if 2 ^ (w - 1) - 1 <? x then (2 ^ (w - 1) - 1, Some ErrRange)
  else (x, None).

Lemma half_width w : 1 ≤ w ≤ 64 → 1 ≤ 2 ^ (w - 1) ≤ 2 ^ 63.
Proof.
  intros. pose proof (Z.pow_le_mono_r 2 0 (w - 1) ltac:(lia) ltac:(lia)).
  pose proof (Z.pow_le_mono_r 2 (w - 1) 63 ltac:(lia) ltac:(lia)). lia.
Qed.

Lemma ParseInt_spec s base bitSize u e : s ≠ [] → let '(neg, t) := split_sign s in
  ParseUint t base bitSize = Ok (u, e) →
  (e ≠ None → e ≠ Some ErrRange → ParseInt s base bitSize = Ok (0, e)) ∧
  (e = None ∨ e = Some ErrRange → 0 ≤ bitSize ≤ 64 → is_uint 64 u →
    ParseInt s base bitSize = Ok (clamp (width bitSize) (signed neg u))).
Proof.
  intros Hs. destruct (split_sign s) as [neg t] eqn:Hsp. intros Hp.
  destruct s as [|c0 s]; [done|]. unfold ParseInt. rewrite len_cons, idx_0.
  rewrite (proj2 (Z.eqb_neq _ _)) by (pose proof (len_nonneg s); lia). cbn [mbind res_bind].
  assert (slice_from (c0 :: s) 1 = Ok s) as Hsl.
  { unfold slice_from. rewrite decide_True; [done|]. rewrite len_cons. pose proof (len_nonneg s). lia. }
  rewrite !Hsl. cbn [mbind res_bind mret res_ret].
  assert ((if c0 =? chr "+" then mret (s, false) else
    if c0 =? chr "-" then mret (s, true) else mret (c0 :: s, false)) = Ok (t, neg)) as ->.
  { unfold split_sign in Hsp. repeat case_match; by simplify_eq. }
  cbn [mbind res_bind]. rewrite Hp. cbn [mbind res_bind].
  split.
  - intros H1 H2. by rewrite !bool_decide_false.
  - intros He Hb Hu.
    replace (negb (bool_decide (e = None)) && negb (bool_decide (e = Some ErrRange))) with false
      by (by destruct He as [-> | ->]).
    change (if bitSize =? 0 then IntSize else bitSize) with (width bitSize).
    pose proof (width_range _ Hb) as Hw. pose proof (half_width _ Hw) as Hh.
    rewrite (uwrap_small 64 (width bitSize - 1)) by (unfold is_uint; lia).
    rewrite Z.shiftl_mul_pow2, Z.mul_1_l by lia. set (h := 2 ^ (width bitSize - 1)) in *.
    rewrite (uwrap_small 64 h), (uwrap_small 64 (h - 1)) by (unfold is_uint; lia).
    unfold clamp, signed. fold h. unfold is_uint in Hu.
    destruct neg; cbn [negb andb].
    + destruct (Z.ltb_spec h u), (Z.ltb_spec (- u) (- h)); try lia.
      * do 2 f_equal. destruct (decide (h = 2 ^ 63)) as [->|]; [done|].
        rewrite (i64_small h), i64_small by lia. done.
      * destruct (Z.ltb_spec (h - 1) (- u)); [lia|]. do 2 f_equal.
        destruct (decide (u = 2 ^ 63)) as [->|]; [done|].
        rewrite (i64_small u), i64_small by lia. done.
    + destruct (Z.leb_spec h u), (Z.ltb_spec (h - 1) u); try lia;
        destruct (Z.ltb_spec u (- h)); try lia; rewrite i64_small by lia; done.
Qed.

Lemma ParseInt_digits s base bitSize ds : let '(neg, t) := split_sign s in
  t ≠ [] → Forall byte s → 2 ≤ base ≤ 36 → 0 ≤ bitSize ≤ 64 → Forall2 (is_digit base) t ds →
  value base ds < 2 ^ width bitSize ∨ bitSize ≠ 1 →
  ParseInt s base bitSize = Ok (clamp (width bitSize) (signed neg (value base ds))).
Proof.
  destruct (split_sign s) as [neg t] eqn:Hsp. intros Ht Hs Hb Hbits Hds Hone.
  assert (s ≠ [] ∧ Forall byte t) as [Hne Ht'].
  { unfold split_sign in Hsp. destruct s as [|c s]; [by simplify_eq|]. split; [done|].
    pose proof Hs as [_ Hs']%Forall_cons. repeat case_match; by simplify_eq. }
  pose proof (width_range _ Hbits) as Hw.
  pose proof (ParseUint_digits t base bitSize ds Ht Ht' Hb Hbits Hds) as Hu.
  pose proof (value_range base ltac:(lia) ds (digits_range _ _ _ Hds)) as Hv.
  pose proof (Z.pow_le_mono_r 2 (width bitSize) 64 ltac:(lia) ltac:(lia)) as H64.
  destruct (Z.ltb_spec (value base ds) (2 ^ width bitSize)) as [Hlt|Hge].
  - pose proof (ParseInt_spec s base bitSize (value base ds) None Hne) as H. rewrite Hsp in H.
    apply (H Hu); [by left|done|unfold is_uint; lia].
  - destruct Hone as [?|Hone]; [lia|].
    pose proof (ParseInt_spec s base bitSize (2 ^ width bitSize - 1) (Some ErrRange) Hne) as H.
    rewrite Hsp in H. destruct (H Hu) as [_ H'].
    rewrite H' by (by right || done || (unfold is_uint; lia)).
    assert (2 ≤ width bitSize) as H2 by (unfold width in *; destruct (Z.eqb_spec bitSize 0); lia).
    assert (2 ^ width bitSize = 2 * 2 ^ (width bitSize - 1)) as Hd.
    { rewrite <-Z.pow_succ_r by lia. f_equal. lia. }
    pose proof (Z.pow_le_mono_r 2 1 (width bitSize - 1) ltac:(lia) ltac:(lia)).
    unfold clamp, signed. destruct neg; zcases; (lia || done).
Qed.


Lemma ParseInt_bad s base bitSize p c r ds : let '(neg, t) := split_sign s in
  t = p ++ c :: r → Forall byte s → 2 ≤ base ≤ 36 → 0 ≤ bitSize ≤ 64 →
  Forall2 (is_digit base) p ds → (∀ d, ¬ is_digit base c d) →
  value base ds < 2 ^ width bitSize → ParseInt s base bitSize = Ok (0, Some ErrSyntax).
Proof.
  destruct (split_sign s) as [neg t] eqn:Hsp. intros -> Hs Hb Hbits Hds Hc Hv.
  assert (s ≠ [] ∧ Forall byte (p ++ c :: r)) as [Hne Ht'].
  { unfold split_sign in Hsp. destruct s as [|c0 s]; [by destruct p|]. split; [done|].
    pose proof Hs as [_ Hs']%Forall_cons. repeat case_match; by injection Hsp as _ <-. }
  pose proof (ParseUint_bad base bitSize p c r ds Ht' Hb Hbits Hds Hc) as Hu.
  rewrite (proj2 (Z.ltb_lt _ _)) in Hu by done.
  pose proof (ParseInt_spec s base bitSize 0 (Some ErrSyntax) Hne) as H. rewrite Hsp in H.
  destruct (H Hu) as [H' _]. by apply H'.
Qed.

(** The digits of the fast path. *)
Lemma Atoi_digit c : byte c → (9 <? u8 (c - chr "0")) = true ∧ (∀ d, ¬ is_digit 10 c d) ∨
  is_digit 10 c (u8 (c - chr "0")) ∧ (9 <? u8 (c - chr "0")) = false.
Proof.
  intros Hc. pose proof (forall_byte (λ c, match digit_of c with
    | Some d => if d <? 10 then (d =? u8 (c - chr "0")) && negb (9 <? u8 (c - chr "0"))
        else 9 <? u8 (c - chr "0")
    | None => 9 <? u8 (c - chr "0") end) ltac:(vm_compute; reflexivity) c Hc) as H.
  cbv beta in H. unfold is_digit. destruct (digit_of c) as [d|] eqn:E.
  - destruct (Z.ltb_spec d 10).
    + apply andb_true_iff in H as [->%Z.eqb_eq H%negb_true_iff]. right. auto.
    + left. split; [done|]. intros d' [? ?]. simplify_eq. lia.
  - left. split; [done|]. by intros d' [? ?].
Qed.

Lemma Atoi_loop_spec s n : Forall byte s → 0 ≤ n → (n + 1) * 10 ^ len s ≤ 10 ^ 18 →
  (∀ ds, Forall2 (is_digit 10) s ds → Atoi_loop s n = Some (n * 10 ^ len ds + value 10 ds)) ∧
  (∀ p c r ds, s = p ++ c :: r → Forall2 (is_digit 10) p ds → (∀ d, ¬ is_digit 10 c d) →
    Atoi_loop s n = None).
Proof.
  intros Hs. revert n. induction Hs as [|c s Hc Hs IH]; intros n Hn Hmax.
  { split.
    - intros ds ->%Forall2_nil_inv_l. rewrite len_nil. change (value 10 []) with 0. cbn. f_equal. lia.
    - by intros [|??] ????. }
  rewrite len_cons, Z.pow_add_r in Hmax by (pose proof (len_nonneg s); lia).
  pose proof (Z.pow_pos_nonneg 10 (len s) ltac:(lia) (len_nonneg s)) as Hpos.
  assert (∀ d, is_digit 10 c d → u8 (c - chr "0") = d →
    Atoi_loop (c :: s) n = Atoi_loop s (n * 10 + d) ∧ 0 ≤ n * 10 + d ∧
    (n * 10 + d + 1) * 10 ^ len s ≤ 10 ^ 18) as Hstep.
  { intros d Hd E. cbn [Atoi_loop]. rewrite E. pose proof (is_digit_range 10 _ _ Hd) as Hr.
    rewrite (proj2 (Z.ltb_ge 9 d)) by lia.
    assert ((n * 10 + d + 1) * 10 ^ len s ≤ 10 ^ 18) by nia.
    assert (n * 10 + d + 1 ≤ 10 ^ 18) by nia.
    rewrite (i64_small (n * 10)), i64_small by lia. split_and!; [done|lia|done]. }
  destruct (Atoi_digit c Hc) as [[Hb Hbad]|[Hd Hb]].
  - split.
    + intros ds H. apply Forall2_cons_inv_l in H as (d & ? & Hd & _). by destruct (Hbad d).
    + intros. cbn [Atoi_loop]. by rewrite Hb.
  - destruct (Hstep _ Hd eq_refl) as (-> & Hn' & Hmax').
    destruct (IH _ Hn' Hmax') as [IH1 IH2]. split.
    + intros ds H. apply Forall2_cons_inv_l in H as (d & ds' & Hd' & H & ->).
      assert (d = u8 (c - chr "0")) as -> by (destruct Hd, Hd'; congruence).
      rewrite (IH1 ds') by done. rewrite value_cons, len_cons, Z.pow_add_r
        by (pose proof (len_nonneg ds'); lia). f_equal. lia.
    + intros p c' r ds E Hp Hc'. destruct p as [|x p]; injection E as <- E.
      { by destruct (Hc' (u8 (c - chr "0"))). }
      apply Forall2_cons_inv_l in Hp as (? & ds' & _ & Hp & ->). by eapply IH2.
Qed.

Lemma ParseInt_i64 s base bitSize x e : ParseInt s base bitSize = Ok (x, e) → i64 x = x.
Proof.
  assert (∀ y, i64 (i64 y) = i64 y) as Hi.
  { intros y. apply swrap_small; [by apply swrap_range|done]. }
  unfold ParseInt. intros H.
  destruct (len s =? 0); [by cbv [mret res_ret] in H; injection H as <- <-|].
  destruct (idx s 0) as [c| |]; [|done..]. cbn [mbind res_bind] in H.
  match type of H with (?m ≫= _) = _ => destruct m as [[t neg]| |]; [|done..] end.
  cbn [mbind res_bind] in H.
  destruct (ParseUint t base bitSize) as [[un err]| |]; [|done..]. cbn [mbind res_bind] in H.
  repeat case_match; cbv [mret res_ret] in H; injection H as <- <-; done.
Qed.

Lemma Atoi_eq s : Forall byte s → Atoi s = ParseInt s 10 0.
Proof.
  intros Hs. unfold Atoi. change (intSize =? 32) with false. change (intSize =? 64) with true.
  cbn [andb orb]. destruct (Z.ltb_spec 0 (len s)) as [H0|H0].
  2: { cbn [andb]. destruct (ParseInt s 10 0) as [[x e]| |] eqn:E; [|done..].
       cbn [mbind res_bind mret res_ret]. by rewrite (ParseInt_i64 _ _ _ _ _ E). }
  destruct (Z.ltb_spec (len s) 19) as [H19|H19]; cbn [andb].
  2: { destruct (ParseInt s 10 0) as [[x e]| |] eqn:E; [|done..].
       cbn [mbind res_bind mret res_ret]. by rewrite (ParseInt_i64 _ _ _ _ _ E). }
  destruct s as [|c s]; [done|]. rewrite idx_0. cbn [mbind res_bind].
  assert (slice_from (c :: s) 1 = Ok s) as Hsl.
  { unfold slice_from. rewrite decide_True; [done|]. rewrite len_cons. pose proof (len_nonneg s). lia. }
  rewrite Hsl. clear Hsl.
  set (signed_ := (c =? chr "-") || (c =? chr "+")). set (neg := c =? chr "-").
  set (t := if signed_ then s else c :: s).
  replace (if signed_ then Ok s else mret (c :: s)) with (Ok t) by by unfold t; destruct signed_.
  assert (split_sign (c :: s) = (neg, t)) as Hsp.
  { unfold split_sign, neg, t, signed_. destruct (Z.eqb_spec c (chr "+")) as [->|]; [done|].
    rewrite orb_false_r. by destruct (c =? chr "-"). }
  assert (Forall byte t) as Ht.
  { unfold t. destruct signed_; [|done]. by apply Forall_cons in Hs as [_ ?]. }
  assert (len t ≤ 18) as Hlen.
  { unfold t. rewrite len_cons in *. destruct signed_; rewrite ?len_cons; lia. }
  clearbody t. cbn [mbind res_bind]. destruct (decide (t = [])) as [->|Hne].
  - pose proof (ParseInt_spec (c :: s) 10 0 0 (Some ErrSyntax) ltac:(done)) as H. rewrite Hsp in H.
    destruct (H eq_refl) as [-> _]; [|done..].
    replace signed_ with true; [done|]. unfold split_sign in Hsp. unfold signed_.
    destruct (c =? chr "+"); [by rewrite orb_true_r|]. by destruct (c =? chr "-").
  - rewrite (proj2 (Z.ltb_ge (len t) 1)), andb_false_r
      by (destruct t; [done|rewrite len_cons; pose proof (len_nonneg t); lia]).
    assert ((0 + 1) * 10 ^ len t ≤ 10 ^ 18) as Hmax.
    { pose proof (Z.pow_le_mono_r 10 (len t) 18 ltac:(lia) Hlen). change (0 + 1) with 1. lia. }
    destruct (Atoi_loop_spec t 0 Ht ltac:(lia) Hmax) as [Hok Hbad].
    destruct (first_bad_digit 10 t) as [[ds Hds]|(p & c' & r & ds & E & Hds & Hc')].
    + rewrite (Hok ds Hds). cbn [mbind res_bind mret res_ret]. fold neg.
      pose proof (value_range 10 ltac:(lia) ds (digits_range _ _ _ Hds)) as Hv.
      assert (len ds = len t) as Hlds by (unfold len; by rewrite (Forall2_length _ _ _ Hds)).
      rewrite Hlds in *.
      pose proof (ParseInt_digits (c :: s) 10 0 ds) as H. rewrite Hsp in H.
      rewrite H by (done || lia || by right). unfold clamp, signed. change (width 0) with 64.
      replace (0 * 10 ^ len t + value 10 ds) with (value 10 ds) by lia.
      assert (value 10 ds < 10 ^ 18) by lia.
      destruct neg; [rewrite i64_small by lia|]; by zcases.
    + rewrite (Hbad p c' r ds E Hds Hc').
      pose proof (ParseInt_bad (c :: s) 10 0 p c' r ds) as H. rewrite Hsp in H.
      rewrite H; [done..|]. change (width 0) with 64.
      pose proof (value_range 10 ltac:(lia) ds (digits_range _ _ _ Hds)) as Hv.
      assert (len ds ≤ len t) as Hlds.
      { subst t. unfold len. rewrite <-(Forall2_length _ _ _ Hds), length_app. lia. }
      pose proof (Z.pow_le_mono_r 10 (len ds) 18 ltac:(lia) ltac:(lia)). lia.
Qed.


(** ** Buffers filled from the right *)

(** The character of a digit. *)
Definition digit_char (d : Z) : Z := if decide (d < 10) then 48 + d else 87 + d.
Definition text (ds : list Z) : list Z := map digit_char ds.

Lemma text_app ds ds' : text (ds ++ ds') = text ds ++ text ds'.
Proof. apply map_app. Qed.
Lemma len_text ds : len (text ds) = len ds.
Proof. unfold len, text. by rewrite length_map. Qed.

Lemma digits_idx d : 0 ≤ d < 36 → idx digits d = Ok (digit_char d).
Proof.
  intros Hd. apply idx_in.
  assert (forallb (λ d, bool_decide (zget digits d = Some (digit_char d))) (seqZ 0 36) = true) as H
    by (vm_compute; reflexivity).
  rewrite forallb_forall in H. apply (bool_decide_unpack _), Is_true_true, H.
  apply list_elem_of_In, elem_of_seqZ. lia.
Qed.

Lemma smalls_idx d : 0 ≤ d < 100 → idx smalls (d * 2) = Ok (digit_char (d / 10)) ∧
  idx smalls (d * 2 + 1) = Ok (digit_char (d mod 10)).
Proof.
  intros Hd.
  assert (forallb (λ d, bool_decide (zget smalls (d * 2) = Some (digit_char (d / 10)) ∧
    zget smalls (d * 2 + 1) = Some (digit_char (d mod 10)))) (seqZ 0 100) = true) as H
    by (vm_compute; reflexivity).
  rewrite forallb_forall in H.
  assert (zget smalls (d * 2) = Some (digit_char (d / 10)) ∧
    zget smalls (d * 2 + 1) = Some (digit_char (d mod 10))) as [H1 H2].
  { apply (bool_decide_unpack _), Is_true_true, H, list_elem_of_In, elem_of_seqZ. lia. }
  split; by apply idx_in.
Qed.

Lemma store_mid (h : list Z) y t x : store (h ++ y :: t) (len h) x = Ok (h ++ x :: t).
Proof.
  unfold store. rewrite decide_True.
  - f_equal. unfold zset, len. rewrite Nat2Z.id.
    rewrite insert_app_r_alt, Nat.sub_diag by lia. done.
  - rewrite len_app, len_cons. pose proof (len_nonneg h). pose proof (len_nonneg t). lia.
Qed.

(** The buffer [a] holds the text of [ds] and then [t] from [i] on; what is
    before [i] is what was there before the formatter ran on [a0]. *)
Definition filled (a0 a : list Z) (i : Z) (t : list Z) : Prop :=
  ∃ h g, a0 = h ++ g ∧ a = h ++ t ∧ len h = i ∧ len g = len t.

Lemma filled_start a0 : filled a0 a0 (len a0) [].
Proof. exists a0, []. by rewrite app_nil_r. Qed.

Lemma filled_range a0 a i t : filled a0 a i t → 0 ≤ i ∧ len a = len a0 ∧ i + len t = len a0.
Proof.
  intros (h & g & -> & -> & <- & Hg). rewrite !len_app. pose proof (len_nonneg h). lia.
Qed.

(** One byte to the left. *)
Lemma filled_store a0 a i t x : filled a0 a i t → 0 < i →
  ∃ a', store a (i - 1) x = Ok a' ∧ filled a0 a' (i - 1) (x :: t).
Proof.
  intros (h & g & -> & -> & <- & Hg) Hi.
  destruct h as [|y h _] using rev_ind; [unfold len in Hi; simpl in Hi; lia|].
  rewrite len_app, len_cons, len_nil in *. exists (h ++ x :: t).
  replace (len h + (1 + 0) - 1) with (len h) by lia. rewrite <-app_assoc. simpl.
  rewrite store_mid. split; [done|]. exists h, (y :: g). rewrite <-app_assoc, !len_cons. by rewrite Hg.
Qed.

Lemma filled_slice a0 a i t : filled a0 a i t → slice_from a i = Ok t.
Proof.
  intros (h & g & -> & -> & <- & Hg). unfold slice_from. rewrite len_app.
  pose proof (len_nonneg h). pose proof (len_nonneg t). rewrite decide_True by lia.
  unfold len. by rewrite Nat2Z.id, drop_app_length.
Qed.

(** The two digits of [d]. *)
Definition two (d : Z) : list Z := [d / 10; d mod 10].

Lemma put2_spec a0 a i t d : filled a0 a i t → 2 ≤ i → 0 ≤ d < 100 →
  ∃ a', put2 a (i - 2) (u32 (d * 2)) = Ok a' ∧ filled a0 a' (i - 2) (text (two d) ++ t).
Proof.
  intros Hf Hi Hd. unfold put2. rewrite (uwrap_small 32 (d * 2)) by (unfold is_uint; lia).
  rewrite (Z.add_0_r (d * 2)), !(uwrap_small 32) by (unfold is_uint; lia).
  destruct (smalls_idx d Hd) as [-> ->]. cbn [mbind res_bind].
  destruct Hf as (h & g & -> & -> & <- & Hg).
  destruct h as [|y h _] using rev_ind; [unfold len in Hi; simpl in Hi; lia|].
  destruct h as [|y' h _] using rev_ind; [unfold len in Hi; simpl in Hi; lia|].
  rewrite !len_app, !len_cons, !len_nil in *. rewrite <-!app_assoc. simpl.
  replace (len h + (1 + 0) + (1 + 0) - 2) with (len h) by lia. rewrite ?Z.add_0_r, store_mid.
  cbn [mbind res_bind]. eexists. split.
  - rewrite (cons_middle _ h), (app_assoc h).
    replace (len h + 1) with (len (h ++ [digit_char (d / 10)]))
      by (rewrite len_app, len_cons, len_nil; lia).
    apply store_mid.
  - exists h, (y' :: y :: g). rewrite <-!app_assoc. simpl. rewrite !len_cons. split_and!; [done|done|done|lia].
Qed.


(** ** Reading off digits *)

(** [ds] are the last digits of [u0] and [u] is what remains. *)
Definition reads (base u0 u : Z) (ds : list Z) : Prop :=
  u0 = u * base ^ len ds + value base ds ∧ Forall (λ d, 0 ≤ d < base) ds ∧ 0 ≤ u.

Section reads.
Context (base : Z).
Hypothesis Hbase : 2 ≤ base.

Lemma reads_start u : 0 ≤ u → reads base u u [].
Proof. intros. split; [|done]. rewrite len_nil. change (value base []) with 0. lia. Qed.

Lemma reads_div u0 u ds : reads base u0 u ds → reads base u0 (u / base) (u mod base :: ds).
Proof.
  intros (-> & Hds & Hu). pose proof (Z.mod_pos_bound u base ltac:(lia)).
  split_and!; [|by constructor|by apply Z.div_pos; lia].
  rewrite value_cons, len_cons, Z.pow_add_r, Z.pow_1_r by (pose proof (len_nonneg ds); lia).
  pose proof (Z.div_mod u base ltac:(lia)). nia.
Qed.

Lemma reads_end u0 u ds : reads base u0 u ds → u < base → (u = 0 → ds = []) →
  numeral base u0 (u :: ds).
Proof.
  intros (-> & Hds & Hu) Hlt H0. split_and!; [by rewrite value_cons|by constructor|].
  destruct (decide (u = 0)) as [->|]; [left; by rewrite H0|right; exists u, ds]. split; [done|lia].
Qed.

(** The last round of a loop: all digits are read. *)
Lemma reads_done u0 d r : reads base u0 0 (d :: r) → 0 < d → numeral base u0 (d :: r).
Proof.
  intros (-> & Hds & _) Hd. split_and!; [lia|done|right; by exists d, r].
Qed.

Lemma log2_div u b : 2 ≤ b ≤ u → Z.log2 (u / b) < Z.log2 u.
Proof.
  intros Hb. pose proof (Z.log2_spec u ltac:(lia)) as [_ Hu].
  apply Z.log2_lt_pow2; [by apply Z.div_str_pos; lia|].
  apply Z.div_lt_upper_bound; [lia|]. rewrite Z.pow_succ_r in Hu by apply Z.log2_nonneg. nia.
Qed.
End reads.

Lemma reads_two u0 u ds : reads 10 u0 u ds → reads 10 u0 (u / 100) (two (u mod 100) ++ ds).
Proof.
  intros H. apply reads_div, reads_div in H; [|lia..].
  replace (u / 100) with (u / 10 / 10) by (by rewrite Z.div_div by lia).
  replace (two (u mod 100)) with [(u / 10) mod 10; u mod 10]; [done|].
  unfold two. apply (f_equal2 cons); [|apply (f_equal2 cons); [|done]]; dlia.
Qed.

(** ** [formatBase10] *)

Lemma put9_spec a0 a i t lo : filled a0 a i t → 9 ≤ i → 0 ≤ lo < 1000000000 →
  ∃ a' ds, put9 a i lo = Ok (a', i - 9) ∧ filled a0 a' (i - 9) (text ds ++ t) ∧
    reads 10 lo 0 ds ∧ ∃ r, ds = lo / 100000000 :: r.
Proof.
  intros Hf Hi Hlo. unfold put9.
  change (seqZ 0 4) with [0; 1; 2; 3]. cbn [foldM].
  assert (∀ x, 0 ≤ x → 0 ≤ x mod 100 < 100) as Hm by (intros; apply Z.mod_pos_bound; lia).
  destruct (put2_spec a0 a i t (lo mod 100) Hf ltac:(lia) ltac:(apply Hm; lia)) as (a1 & -> & H1).
  cbn [mbind res_bind mret res_ret].
  destruct (put2_spec a0 a1 _ _ (lo / 100 mod 100) H1 ltac:(lia) ltac:(apply Hm, Z.div_pos; lia))
    as (a2 & -> & H2). cbn [mbind res_bind mret res_ret].
  destruct (put2_spec a0 a2 _ _ (lo / 100 / 100 mod 100) H2 ltac:(lia)
    ltac:(apply Hm; dlia)) as (a3 & -> & H3). cbn [mbind res_bind mret res_ret].
  destruct (put2_spec a0 a3 _ _ (lo / 100 / 100 / 100 mod 100) H3 ltac:(lia)
    ltac:(apply Hm; dlia)) as (a4 & -> & H4). cbn [mbind res_bind mret res_ret].
  set (d := lo / 100 / 100 / 100 / 100) in *.
  assert (d = lo / 100000000) as Hd by (unfold d; rewrite !Z.div_div; [done|lia..]).
  assert (0 ≤ d < 10) as Hd10 by dlia.
  rewrite (uwrap_small 32 (d * 2)), uwrap_small by (unfold is_uint; lia).
  destruct (smalls_idx d ltac:(lia)) as [_ ->]. cbn [mbind res_bind].
  destruct (filled_store a0 a4 _ _ (digit_char (d mod 10)) H4 ltac:(lia)) as (a5 & -> & H5).
  cbn [mbind res_bind mret res_ret].
  pose proof (reads_start 10 lo ltac:(lia)) as R.
  do 4 apply reads_two in R. apply reads_div in R; [|lia]. fold d in R.
  rewrite (Z.mod_small d), (Z.div_small d) in * by lia.
  eexists a5, _. split; [f_equal; f_equal; lia|]. split; [|split; [exact R|]].
  - replace (i - 9) with (i - 2 - 2 - 2 - 2 - 1) by lia. exact H5.
  - eexists. by rewrite Hd.
Qed.


(** The state of a formatter: the digits read so far are in the buffer. *)
Definition formatting (base : Z) (a0 : list Z) (u0 : Z) (a : list Z) (i u : Z) : Prop :=
  ∃ ds, filled a0 a i (text ds) ∧ reads base u0 u ds ∧ u < base ^ i ∧ 1 ≤ i ∧ (u = 0 → ds = []).

(** The text of [u0] is in the buffer from [i] on. *)
Definition formatted (base : Z) (a0 : list Z) (u0 : Z) (a : list Z) (i : Z) : Prop :=
  ∃ ds, filled a0 a i (text ds) ∧ numeral base u0 ds.

Lemma formatting_start base a u : 2 ≤ base → 0 ≤ u < base ^ len a → 1 ≤ len a →
  formatting base a u a (len a) u.
Proof.
  intros. exists []. split_and!; [apply filled_start|apply reads_start; lia|lia|done|done].
Qed.

Lemma pow10_digits i k lo : 0 ≤ k → 10 ^ k ≤ lo → lo < 10 ^ i → k < i.
Proof.
  intros Hk Hlo Hi. apply (Z.pow_lt_mono_r_iff 10); [lia| |lia].
  destruct (decide (0 ≤ i)); [done|]. rewrite (Z.pow_neg_r 10 i) in Hi by lia.
  pose proof (Z.pow_pos_nonneg 10 k ltac:(lia) Hk). lia.
Qed.

Lemma div_pow base u i k : 2 ≤ base → 0 ≤ k ≤ i → 0 ≤ u < base ^ i → u / base ^ k < base ^ (i - k).
Proof.
  intros Hb Hk Hu. apply Z.div_lt_upper_bound; [apply Z.pow_pos_nonneg; lia|].
  rewrite <-Z.pow_add_r by lia. replace (k + (i - k)) with i by lia. lia.
Qed.

Lemma put_last_spec a0 u0 a i lo : formatting 10 a0 u0 a i lo → lo < 2 ^ 32 →
  wp (put_last a i lo) (λ '(a', i'), formatted 10 a0 u0 a' i').
Proof.
  intros Hf Hlo. unfold put_last. apply wp_bind.
  apply (wp_loop (λ '(a, i, lo), formatting 10 a0 u0 a i lo ∧ lo < 2 ^ 32) (λ '(_, _, lo), Z.log2 lo)).
  - by split.
  - intros [[a1 i1] lo1] _. apply Z.log2_nonneg.
  - destruct Hf as (ds & _ & (_ & _ & H0) & _). destruct (decide (lo = 0)) as [->|]; [done|].
    pose proof (proj1 (Z.log2_lt_pow2 lo 32 ltac:(lia)) Hlo). unfold fuel_of. lia.
  - clear Hf Hlo a i lo. intros [[a i] lo] [(ds & Hf & Hr & Hi & Hi1 & Hz) Hlo].
    pose proof Hr as (_ & _ & H0).
    destruct (Z.leb_spec 100 lo) as [H100|H100].
    + pose proof (pow10_digits i 2 lo ltac:(lia) H100 Hi).
      destruct (put2_spec a0 a i (text ds) (lo mod 100) Hf ltac:(lia)
        ltac:(apply Z.mod_pos_bound; lia)) as (a' & -> & Hf').
      apply wp_ret. split; [|apply log2_div; lia]. split; [|dlia].
      exists (two (lo mod 100) ++ ds). rewrite text_app. split_and!.
      * done.
      * by apply reads_two.
      * apply (div_pow 10 lo i 2); lia.
      * lia.
      * intros Hd. exfalso. dlia.
    + apply wp_ret. cbn beta zeta.
      rewrite (uwrap_small 32 (lo * 2)), Z.add_0_r, !(uwrap_small 32) by (unfold is_uint; lia).
      destruct (smalls_idx lo ltac:(lia)) as [E1 E2]. rewrite E2. cbn [mbind res_bind].
      destruct (filled_store a0 a i (text ds) (digit_char (lo mod 10)) Hf ltac:(lia)) as (a1 & -> & H1).
      cbn [mbind res_bind]. destruct (Z.leb_spec 10 lo) as [H10|H10].
      * pose proof (pow10_digits i 1 lo ltac:(lia) H10 Hi). rewrite E1. cbn [mbind res_bind].
        destruct (filled_store a0 a1 _ _ (digit_char (lo / 10)) H1 ltac:(lia)) as (a2 & -> & H2).
        apply wp_ret. exists (two lo ++ ds). split; [done|]. apply (reads_done 10); [|dlia].
        apply reads_two in Hr. rewrite (Z.mod_small lo), (Z.div_small lo 100) in Hr by lia. done.
      * apply wp_ret. exists (lo :: ds). split; [|by apply reads_end].
        rewrite Z.mod_small in H1 by lia. done.
Qed.

Lemma formatBase10_spec a u : is_uint 64 u → u < 10 ^ len a → 1 ≤ len a →
  wp (formatBase10 a u) (λ '(a', i), formatted 10 a u a' i).
Proof.
  intros Hu Hlen H1. unfold formatBase10. unfold is_uint in Hu. apply wp_bind.
  apply (wp_loop (λ '(a', i, u'), formatting 10 a u a' i u' ∧ u' < 2 ^ 64) (λ '(_, _, u), Z.log2 u)).
  - split; [apply formatting_start; lia|lia].
  - intros [[a1 i1] u1] _. apply Z.log2_nonneg.
  - destruct (decide (u = 0)) as [->|]; [done|].
    pose proof (proj1 (Z.log2_lt_pow2 u 64 ltac:(lia)) ltac:(lia)). unfold fuel_of. lia.
  - intros [[a1 i] u1] [(ds & Hf & Hr & Hi & Hi1 & Hz) Hu1]. pose proof Hr as (_ & _ & H0).
    change host64bit with true. cbn [negb andb orb]. rewrite orb_false_r, Z.shiftr_div_pow2 by lia.
    destruct (Z.eqb_spec (u1 / 2 ^ 29) 0) as [Hs|Hs]; cbn [negb].
    + apply wp_ret. cbn beta. assert (u1 < 2 ^ 29) by dlia.
      rewrite uwrap_small by (unfold is_uint; lia).
      apply put_last_spec; [by exists ds|lia].
    + assert (2 ^ 29 ≤ u1) as H29 by dlia.
      pose proof (pow10_digits i 8 u1 ltac:(lia) ltac:(lia) Hi).
      pose proof (Z.mod_pos_bound u1 1000000000 ltac:(lia)) as Hm.
      rewrite uwrap_small by (unfold is_uint; lia).
      destruct (put9_spec a a1 i (text ds) (u1 mod 1000000000) Hf ltac:(lia) Hm)
        as (a2 & ds9 & -> & Hf2 & (Hv9 & Hr9 & _) & r & Hhead). cbn [mbind res_bind].
      rewrite <-text_app in Hf2.
      assert (len ds9 = 9) as Hl9.
      { apply filled_range in Hf as (_ & _ & Hf), Hf2 as (_ & _ & Hf2).
        rewrite len_text in *. rewrite len_app in Hf2. lia. }
      assert (reads 10 u (u1 / 1000000000) (ds9 ++ ds)) as Hr2.
      { destruct Hr as (-> & Hr & _). split_and!; [|by apply Forall_app|by apply Z.div_pos; lia].
        rewrite value_app, len_app, Hl9, Z.pow_add_r by (pose proof (len_nonneg ds); lia).
        pose proof (Z.div_mod u1 1000000000 ltac:(lia)). change (10 ^ 9) with 1000000000. nia. }
      destruct (Z.eqb_spec (u1 / 1000000000) 0) as [Hz1|Hz1]; apply wp_ret.
      * apply wp_ret. exists (ds9 ++ ds). split; [done|]. rewrite Hz1 in Hr2. subst ds9.
        apply (reads_done 10); [done|]. rewrite Z.mod_small by dlia. dlia.
      * assert (0 < u1 / 1000000000) as Hp by (pose proof (Z.div_pos u1 1000000000); lia).
        split; [split|].
        -- exists (ds9 ++ ds).
           assert (u1 / 1000000000 < 10 ^ (i - 9)) as Hlt by (apply (div_pow 10 u1 i 9); lia).
           pose proof (pow10_digits (i - 9) 0 (u1 / 1000000000) ltac:(lia) ltac:(lia) Hlt).
           split_and!; [done..|lia|lia].
        -- dlia.
        -- apply log2_div. split; [lia|]. dlia.
Qed.


(** ** Canonical digits are unique *)

Section numeral.
Context (base : Z).
Hypothesis Hbase : 2 ≤ base.

Lemma value_inj ds ds' : length ds = length ds' → Forall (λ d, 0 ≤ d < base) ds →
  Forall (λ d, 0 ≤ d < base) ds' → value base ds = value base ds' → ds = ds'.
Proof.
  revert ds'. induction ds as [|d ds IH]; intros [|d' ds'] Hl H H' Hv; try done.
  apply Forall_cons in H as [Hd H], H' as [Hd' H']. injection Hl as Hl.
  rewrite !value_cons in Hv. assert (len ds' = len ds) as E by (unfold len; lia).
  rewrite E in Hv. pose proof (value_range base Hbase ds H) as Hr.
  pose proof (value_range base Hbase ds' H') as Hr'. rewrite E in Hr'.
  assert (d = d') as -> by nia. f_equal. apply IH; [done..|lia].
Qed.

Lemma numeral_pos u ds : numeral base u ds → 1 ≤ len ds.
Proof.
  intros (_ & _ & [-> |(d & r & -> & _)]); [done|]. rewrite len_cons. pose proof (len_nonneg r). lia.
Qed.

Lemma numeral_bound u ds k : numeral base u ds → u < base ^ k → 1 ≤ k → len ds ≤ k.
Proof.
  intros (Hv & Hds & [-> |(d & r & -> & Hd)]) Hu Hk; [done|].
  apply Forall_cons in Hds as [_ Hr]. pose proof (value_range base Hbase r Hr).
  rewrite value_cons in Hv. rewrite len_cons.
  assert (base ^ len r < base ^ k) as Hlt by nia.
  apply Z.pow_lt_mono_r_iff in Hlt; [lia|lia|lia].
Qed.

Lemma numeral_range u ds : numeral base u ds → 0 ≤ u < base ^ len ds.
Proof. intros (<- & Hds & _). by apply value_range. Qed.

Lemma numeral_unique u ds ds' : numeral base u ds → numeral base u ds' → ds = ds'.
Proof.
  intros H H'. pose proof (numeral_bound u ds (len ds') H) as Hb.
  pose proof (numeral_bound u ds' (len ds) H') as Hb'.
  pose proof (numeral_range u ds H) as Hr. pose proof (numeral_range u ds' H') as Hr'.
  pose proof (numeral_pos u ds H). pose proof (numeral_pos u ds' H').
  destruct H as (Hv & Hd & _), H' as (Hv' & Hd' & _). apply value_inj; [|done..|lia].
  unfold len in *. lia.
Qed.
End numeral.

(** ** [formatBits] *)

Section digit_loop.
Context (base : Z).
Hypothesis Hbase : 2 ≤ base ≤ 36.

Lemma base_digits i u : base ≤ u → u < base ^ i → 1 < i.
Proof.
  intros Hu Hi. destruct (decide (1 < i)); [done|].
  destruct (decide (i < 0)); [rewrite Z.pow_neg_r in Hi by done; lia|].
  pose proof (Z.pow_le_mono_r base i 1 ltac:(lia) ltac:(lia)). lia.
Qed.

(** Both digit loops, then the leading digit. *)
Lemma digit_loop_spec (body : list Z * Z * Z → res (list Z * Z * Z + list Z * Z * Z)) a u :
  (∀ a i u, 0 ≤ u < 2 ^ 64 → body (a, i, u) =
    if base <=? u then a ← store a (i - 1) (digit_char (u mod base)); mret (inl (a, i - 1, u / base))
    else mret (inr (a, i, u))) →
  is_uint 64 u → u < base ^ len a → 1 ≤ len a →
  wp ('(a, i, u) ← loop (fuel_of 64) body (a, len a, u);
      let i := i - 1 in
      x ← idx digits (u64 u);
      a ← store a i x;
      mret (a, i)) (λ '(a', i), formatted base a u a' i).
Proof.
  intros Hbody Hu Hlen H1. unfold is_uint in Hu. apply wp_bind.
  apply (wp_loop (λ '(a', i, u'), formatting base a u a' i u' ∧ u' < 2 ^ 64) (λ '(_, _, u), Z.log2 u)).
  - split; [apply formatting_start; lia|lia].
  - intros [[a1 i1] u1] _. apply Z.log2_nonneg.
  - destruct (decide (u = 0)) as [->|]; [done|].
    pose proof (proj1 (Z.log2_lt_pow2 u 64 ltac:(lia)) ltac:(lia)). unfold fuel_of. lia.
  - intros [[a1 i] u1] [(ds & Hf & Hr & Hi & Hi1 & Hz) Hu1]. pose proof Hr as (_ & _ & H0).
    rewrite Hbody by lia. destruct (Z.leb_spec base u1) as [Hb|Hb].
    + pose proof (base_digits i u1 Hb Hi).
      destruct (filled_store a a1 i _ (digit_char (u1 mod base)) Hf ltac:(lia)) as (a2 & -> & Hf2).
      apply wp_ret. split; [split|apply log2_div; lia].
      * exists (u1 mod base :: ds). split_and!; [done|by apply reads_div; [lia|]| |lia|].
        -- pose proof (div_pow base u1 i 1 ltac:(lia) ltac:(lia) ltac:(lia)) as Hdp.
           by rewrite Z.pow_1_r in Hdp.
        -- pose proof (Z.div_str_pos u1 base ltac:(lia)). lia.
      * apply Z.div_lt_upper_bound; nia.
    + apply wp_ret. cbn beta. rewrite uwrap_small by (unfold is_uint; lia).
      rewrite digits_idx by lia. cbn [mbind res_bind].
      destruct (filled_store a a1 i _ (digit_char u1) Hf ltac:(lia)) as (a2 & -> & Hf2).
      apply wp_ret. exists (u1 :: ds). split; [done|]. by apply reads_end.
Qed.

Lemma bits_div_spec a u : is_uint 64 u → u < base ^ len a → 1 ≤ len a →
  wp (bits_div a (len a) u base) (λ '(a', i), formatted base a u a' i).
Proof.
  intros. unfold bits_div. rewrite (uwrap_small 64 base) by (unfold is_uint; lia).
  apply digit_loop_spec; [|done..]. intros a1 i u1 Hu1.
  destruct (Z.leb_spec base u1); [|done].
  pose proof (Z.div_mod u1 base ltac:(lia)). pose proof (Z.mod_pos_bound u1 base ltac:(lia)).
  pose proof (Z.div_pos u1 base ltac:(lia) ltac:(lia)).
  rewrite (uwrap_small 64 (u1 / base * base)) by (unfold is_uint; nia).
  replace (u1 - u1 / base * base) with (u1 mod base) by lia.
  rewrite uwrap_small by (unfold is_uint; lia). by rewrite digits_idx by lia.
Qed.

Lemma bits_shift_spec a u : isPowerOfTwo base = true →
  is_uint 64 u → u < base ^ len a → 1 ≤ len a →
  wp (bits_shift a (len a) u base) (λ '(a', i), formatted base a u a' i).
Proof.
  intros Hp ???.
  assert (∃ k, base = 2 ^ k ∧ 0 ≤ k ≤ 5 ∧ TrailingZeros (u64 base) = Ok k) as (k & Hk & Hk5 & Htz).
  { assert (forallb (λ b, implb (isPowerOfTwo b) (existsb (λ k, (b =? 2 ^ k) &&
      match TrailingZeros (u64 b) with Ok k' => k' =? k | _ => false end) (seqZ 0 6))) (seqZ 2 35) = true) as Hall
      by (vm_compute; reflexivity).
    rewrite forallb_forall in Hall.
    specialize (Hall base ltac:(apply list_elem_of_In, elem_of_seqZ; lia)). rewrite Hp in Hall.
    apply existsb_exists in Hall as (k & Hin & [E1%Z.eqb_eq E2]%andb_true_iff).
    apply list_elem_of_In, elem_of_seqZ in Hin. exists k.
    split_and!; [done|lia|lia|]. destruct (TrailingZeros _); [|done..]. by apply Z.eqb_eq in E2 as ->. }
  unfold bits_shift. rewrite Htz. cbn [mbind res_bind].
  rewrite (uwrap_small 64 base), (uwrap_small 64 (base - 1)), (uwrap_small 64 k)
    by (unfold is_uint; lia).
  apply digit_loop_spec; [|done..]. intros a1 i u1 Hu1.
  destruct (Z.leb_spec base u1); [|done].
  rewrite (uwrap_small 64 u1) by (unfold is_uint; lia).
  replace (Z.land u1 (base - 1)) with (u1 mod base) by (by rewrite Hk, land_mask by lia).
  pose proof (Z.mod_pos_bound u1 base ltac:(lia)).
  rewrite digits_idx by lia. cbn [mbind res_bind].
  by rewrite Z.shiftr_div_pow2, <-Hk by lia.
Qed.
End digit_loop.


(** ** The exported formatters *)

Lemma small_spec i : 0 ≤ i < 100 → ∃ ds, numeral 10 i ds ∧ small i = Ok (text ds).
Proof.
  intros Hi. exists (if i <? 10 then [i] else two i). split.
  - destruct (Z.ltb_spec i 10).
    + split_and!; [unfold value; cbn; lia|constructor; [lia|done]|].
      destruct (decide (i = 0)) as [->|]; [by left|right; exists i, []; split; [done|lia]].
    + split_and!; [unfold two, value; cbn [fold_left]; dlia|unfold two; repeat constructor; dlia|].
      right. exists (i / 10), [i mod 10]. split; [done|dlia].
  - assert (forallb (λ i, match small i with
      | Ok s => bool_decide (s = text (if i <? 10 then [i] else two i)) | _ => false end)
      (seqZ 0 100) = true) as H by (vm_compute; reflexivity).
    rewrite forallb_forall in H.
    specialize (H i ltac:(apply list_elem_of_In, elem_of_seqZ; lia)).
    destruct (small i) as [s| |]; [|done..]. by apply bool_decide_eq_true in H as ->.
Qed.

(** The 64 digits of the smallest base and a sign fit the buffer of 65 bytes. *)
Lemma formatBits_spec dst u base neg append_ : 2 ≤ base ≤ 36 → base ≠ 10 → is_uint 64 u →
  ∃ ds, numeral base (if neg : bool then u64 (- u) else u) ds ∧
    let s := (if neg then [chr "-"] else []) ++ text ds in
    formatBits dst u base neg append_ = Ok (if append_ then (dst ++ s, []) else ([], s)).
Proof.
  intros Hb H10 Hu. set (u' := if neg then u64 (- u) else u).
  assert (is_uint 64 u') as Hu' by (unfold u'; destruct neg; [by apply uwrap_range|done]).
  unfold formatBits. fold u'.
  rewrite (proj2 (Z.ltb_ge base 2)), (proj2 (Z.eqb_neq base 10)) by lia.
  change (len digits) with 36. rewrite (proj2 (Z.ltb_ge 36 base)) by lia. cbn [orb].
  set (a := replicate 65 0).
  assert (u' < base ^ 64) as H64.
  { pose proof (Z.pow_le_mono_l 2 base 64 ltac:(lia)). unfold is_uint in Hu'. lia. }
  assert (len a = 65) as Ha by done.
  assert (wp (if isPowerOfTwo base then bits_shift a (len a) u' base else bits_div a (len a) u' base)
    (λ '(a', i), formatted base a u' a' i)) as Hwp.
  { assert (u' < base ^ len a).
    { rewrite Ha. pose proof (Z.pow_le_mono_r base 64 65 ltac:(lia) ltac:(lia)). lia. }
    destruct (isPowerOfTwo base) eqn:Hp; [apply bits_shift_spec|apply bits_div_spec]; (done || lia). }
  apply wp_exists in Hwp as ([a' i] & -> & ds & Hf & Hn). cbn [mbind res_bind].
  exists ds. split; [done|].
  pose proof (numeral_bound base ltac:(lia) u' ds 64 Hn H64 ltac:(lia)) as Hl.
  pose proof (filled_range _ _ _ _ Hf) as (_ & _ & Hi). rewrite len_text, Ha in Hi.
  destruct neg; cbn [mbind res_bind mret res_ret app].
  - destruct (filled_store a a' i _ (chr "-") Hf ltac:(lia)) as (a2 & -> & Hf2).
    cbn [mbind res_bind mret res_ret]. rewrite (filled_slice _ _ _ _ Hf2). by destruct append_.
  - rewrite (filled_slice _ _ _ _ Hf). by destruct append_.
Qed.

Lemma buffer24_spec u : is_uint 64 u → ∃ a' i ds, formatBase10 (replicate 24 0) u = Ok (a', i) ∧
  filled (replicate 24 0) a' i (text ds) ∧ numeral 10 u ds ∧ 4 ≤ i.
Proof.
  intros Hu. unfold is_uint in Hu.
  assert (wp (formatBase10 (replicate 24 0) u) (λ '(a', i), formatted 10 (replicate 24 0) u a' i)) as Hwp.
  { apply formatBase10_spec; [done|change (len (replicate 24 0)) with 24; lia|done]. }
  apply wp_exists in Hwp as ([a' i] & Hrun & ds & Hf & Hn). exists a', i, ds.
  split_and!; [done..|].
  pose proof (numeral_bound 10 ltac:(lia) u ds 20 Hn ltac:(lia) ltac:(lia)).
  pose proof (filled_range _ _ _ _ Hf) as (_ & _ & Hi). rewrite len_text in Hi.
  change (len (replicate 24 0)) with 24 in Hi. lia.
Qed.

Lemma FormatUint_spec u base : is_uint 64 u → 2 ≤ base ≤ 36 →
  ∃ ds, numeral base u ds ∧ FormatUint u base = Ok (text ds).
Proof.
  intros Hu Hb. unfold FormatUint. destruct (Z.eqb_spec base 10) as [->|H10].
  - unfold is_uint in Hu. destruct (Z.ltb_spec u nSmalls) as [Hs|Hs].
    + unfold nSmalls in Hs. rewrite i64_small by lia. apply small_spec. lia.
    + destruct (buffer24_spec u Hu) as (a' & i & ds & -> & Hf & Hn & _). exists ds.
      split; [done|]. exact (filled_slice _ _ _ _ Hf).
  - destruct (formatBits_spec [] u base false false Hb H10 Hu) as (ds & Hn & ->).
    by exists ds.
Qed.

Lemma AppendUint_spec dst u base : is_uint 64 u → 2 ≤ base ≤ 36 →
  ∃ ds, numeral base u ds ∧ AppendUint dst u base = Ok (dst ++ text ds).
Proof.
  intros Hu Hb. unfold AppendUint. destruct (Z.eqb_spec base 10) as [->|H10].
  - unfold is_uint in Hu. destruct (Z.ltb_spec u nSmalls) as [Hs|Hs].
    + unfold nSmalls in Hs. rewrite i64_small by lia.
      destruct (small_spec u ltac:(lia)) as (ds & Hn & ->). by exists ds.
    + destruct (buffer24_spec u Hu) as (a' & i & ds & -> & Hf & Hn & _). exists ds.
      split; [done|]. cbn [mbind res_bind]. by rewrite (filled_slice _ _ _ _ Hf).
  - destruct (formatBits_spec dst u base false true Hb H10 Hu) as (ds & Hn & ->).
    by exists ds.
Qed.

(** The magnitude of an [int64], minus [2^63] included. *)
Lemma magnitude i : is_sint 64 i → i < 0 → u64 (- u64 i) = - i.
Proof.
  unfold is_sint. intros Hi H0.
  assert (u64 i = i + 2 ^ 64) as ->.
  { unfold uwrap. rewrite <-(Z.mod_small (i + 2 ^ 64) (2 ^ 64)) by lia.
    by rewrite <-Zplus_mod_idemp_r, Z.mod_same, Z.add_0_r. }
  unfold uwrap. replace (- (i + 2 ^ 64)) with (- i + (-1) * 2 ^ 64) by lia.
  rewrite Z.mod_add by done. apply Z.mod_small. lia.
Qed.

Definition sign_text (i : Z) : list Z := if i <? 0 then [chr "-"] else [].

Lemma FormatInt_spec i base : is_sint 64 i → 2 ≤ base ≤ 36 →
  ∃ ds, numeral base (Z.abs i) ds ∧ FormatInt i base = Ok (sign_text i ++ text ds).
Proof.
  intros Hi Hb. pose proof (magnitude i Hi) as Hm. unfold is_sint in Hi. unfold FormatInt, sign_text.
  assert (is_uint 64 (u64 i)) as Hu by by apply uwrap_range.
  destruct (Z.eqb_spec base 10) as [->|H10].
  - destruct (Z.leb_spec 0 i) as [H0|H0]; cbn [andb].
    + rewrite (proj2 (Z.ltb_ge i 0)), Z.abs_eq by lia.
      destruct (Z.ltb_spec i nSmalls) as [Hs|Hs]; [apply small_spec; unfold nSmalls in Hs; lia|].
      rewrite uwrap_small by (unfold is_uint; lia).
      destruct (buffer24_spec i ltac:(unfold is_uint; lia)) as (a' & j & ds & -> & Hf & Hn & _).
      exists ds. split; [done|]. exact (filled_slice _ _ _ _ Hf).
    + rewrite (proj2 (Z.ltb_lt i 0)), Hm, Z.abs_neq by lia.
      destruct (buffer24_spec (- i) ltac:(unfold is_uint; lia)) as (a' & j & ds & -> & Hf & Hn & Hj).
      cbn [mbind res_bind]. exists ds. split; [done|].
      destruct (filled_store _ _ _ _ (chr "-") Hf ltac:(lia)) as (a2 & -> & Hf2).
      exact (filled_slice _ _ _ _ Hf2).
  - destruct (formatBits_spec [] (u64 i) base (i <? 0) false Hb H10 Hu) as (ds & Hn & ->).
    exists ds. split; [|done]. destruct (Z.ltb_spec i 0).
    + rewrite Hm in Hn by done. by rewrite Z.abs_neq by lia.
    + rewrite uwrap_small in Hn by (unfold is_uint; lia). by rewrite Z.abs_eq by lia.
Qed.

Lemma AppendInt_spec dst i base : is_sint 64 i → 2 ≤ base ≤ 36 →
  ∃ ds, numeral base (Z.abs i) ds ∧ AppendInt dst i base = Ok (dst ++ sign_text i ++ text ds).
Proof.
  intros Hi Hb. pose proof (magnitude i Hi) as Hm. unfold is_sint in Hi. unfold AppendInt, sign_text.
  destruct (Z.ltb_spec i 0).
  - rewrite Hm, Z.abs_neq by lia. 
    destruct (AppendUint_spec (dst ++ [chr "-"]) (- i) base ltac:(unfold is_uint; lia) Hb)
      as (ds & Hn & ->). exists ds. by rewrite <-app_assoc.
  - rewrite Z.abs_eq, uwrap_small by (try unfold is_uint; lia).
    apply AppendUint_spec; [unfold is_uint; lia|done].
Qed.

(** The text of a numeral is read back. *)
Lemma text_digits base ds : base ≤ 36 → Forall (λ d, 0 ≤ d < base) ds →
  Forall2 (is_digit base) (text ds) ds ∧ Forall byte (text ds).
Proof.
  intros Hb. induction 1 as [|d ds Hd _ [IH1 IH2]]; [done|]. simpl. split; constructor; try done.
  - unfold is_digit, digit_of, digit_char. repeat case_decide; split; (lia || f_equal; lia).
  - unfold digit_char, is_uint. case_decide; lia.
Qed.
