(* ===== verification/StrconvProps.v ===== *)
(** * internal/strconv: the properties of the integer conversions *)

From Stdlib Require Import String.
From stdpp Require Import base.
From S2P Require Import Prelude Bits Bytealg Strconv StrconvProofs.

(** What a parser of [w]-bit unsigned numbers returns for the value [v]: for a
    well-formed number, and for a number cut off by a syntax error. *)
Definition uint_result (w v : Z) : Z * option Error :=
  if v <? 2 ^ w then (v, None) else (2 ^ w - 1, Some ErrRange).
Definition uint_bad (w v : Z) : Z * option Error :=
  if v <? 2 ^ w then (0, Some ErrSyntax) else (2 ^ w - 1, Some ErrRange).


Lemma no_underscore pre rest : existsb (λ c, c =? chr "_") rest = false → underscores_ok pre rest.
Proof.
  intros H p r ->. rewrite existsb_app in H. simpl in H. by rewrite orb_true_r in H.
Qed.

Lemma ParseUint_literal s bitSize : Forall byte s → s ≠ [] → 0 ≤ bitSize ≤ 64 →
  let '(b, pre, rest) := split_prefix s in
  let t := filter (λ c, c ≠ chr "_") rest in
  (∀ ds, Forall2 (is_digit b) t ds →
    (underscores_ok pre rest →
      ParseUint s 0 bitSize = Ok (uint_result (width bitSize) (value b ds))) ∧
    (¬ underscores_ok pre rest →
      ParseUint s 0 bitSize = Ok (uint_bad (width bitSize) (value b ds)))) ∧
  (∀ p c r ds, t = p ++ c :: r → Forall2 (is_digit b) p ds → (∀ d, ¬ is_digit b c d) →
    ParseUint s 0 bitSize = Ok (uint_bad (width bitSize) (value b ds))).
Proof.
  intros Hs Hne Hbits. pose proof (width_range _ Hbits) as Hw.
  pose proof (ParseUint_base0 s bitSize Hne Hbits) as Hp.
  pose proof (λ ds, underscoreOK_spec s ds Hs) as Hus.
  pose proof (split_prefix_spec s) as Hsp.
  destruct (split_prefix s) as [[b pre] rest]. destruct Hsp as [-> Hb].
  assert (2 ≤ b ≤ 36) as Hb' by lia. set (t := filter _ rest) in *. cbv zeta.
  assert (Forall byte t) as Ht by (apply Forall_app in Hs as [_ Hs]; rewrite Forall_forall in *;
    intros x [_ Hx]%list_elem_of_filter; auto).
  pose proof (maxVal_range b _ Hw). split.
  - intros ds Hds. rewrite Hp, <-(app_nil_r t).
    rewrite (parse_digits b _ Hb' Hw t ds []) by (done || lia). cbn [ParseUint_loop].
    replace (0 * b ^ len ds + value b ds) with (value b ds) by lia.
    destruct (Hus ds Hds) as (ok & -> & Hok). unfold uint_result, uint_bad.
    destruct (Z.leb_spec (value b ds) (2 ^ width bitSize - 1)),
      (Z.ltb_spec (value b ds) (2 ^ width bitSize)); [|lia|lia|done].
    cbn [mbind res_bind mret res_ret]. split; intros Hu.
    + rewrite (proj2 Hok Hu). by destruct (existsb _ _).
    + destruct ok; [by destruct Hu; apply Hok|].
      destruct (existsb _ rest) eqn:He; [done|]. by destruct Hu; apply no_underscore.
  - intros p c r ds -> Hds Hc. rewrite Hp.
    apply Forall_app in Ht as [Hpb [Hcb _]%Forall_cons].
    rewrite (parse_digits b _ Hb' Hw p ds (c :: r)) by (done || lia).
    rewrite (parse_bad b _ Hb' c r) by done. unfold uint_bad.
    replace (0 * b ^ len ds + value b ds) with (value b ds) by lia.
    destruct (Z.leb_spec (value b ds) (2 ^ width bitSize - 1)),
      (Z.ltb_spec (value b ds) (2 ^ width bitSize)); (lia || done).
Qed.

(** C14: [ParseUint] returns on every input without a panic. For a base from 2
    to 36, a string of digits gives its value, or the largest [bitSize]-bit
    number with [ErrRange] when the value does not fit, through the wrapping
    64-bit arithmetic of the loop; any other string gives [ErrSyntax], unless
    the digits before the first bad character are already out of range. For base
    0 the prefix selects the base and underscores are accepted exactly where an
    integer literal allows them. Empty strings, bases and bit sizes out of range
    give their own errors. *)
Theorem ParseUint_correct s bitSize : Forall byte s → s ≠ [] → 0 ≤ bitSize ≤ 64 →
  (∀ base ds, 2 ≤ base ≤ 36 → Forall2 (is_digit base) s ds →
    ParseUint s base bitSize = Ok (uint_result (width bitSize) (value base ds))) ∧
  (∀ base p c r ds, 2 ≤ base ≤ 36 → s = p ++ c :: r → Forall2 (is_digit base) p ds →
    (∀ d, ¬ is_digit base c d) →
    ParseUint s base bitSize = Ok (uint_bad (width bitSize) (value base ds))) ∧
  (let '(b, pre, rest) := split_prefix s in
   let t := filter (λ c, c ≠ chr "_") rest in
   (∀ ds, Forall2 (is_digit b) t ds →
     (underscores_ok pre rest →
       ParseUint s 0 bitSize = Ok (uint_result (width bitSize) (value b ds))) ∧
     (¬ underscores_ok pre rest →
       ParseUint s 0 bitSize = Ok (uint_bad (width bitSize) (value b ds)))) ∧
   (∀ p c r ds, t = p ++ c :: r → Forall2 (is_digit b) p ds → (∀ d, ¬ is_digit b c d) →
     ParseUint s 0 bitSize = Ok (uint_bad (width bitSize) (value b ds)))) ∧
  (∀ base bits, base ≠ 0 → ¬ 2 ≤ base ≤ 36 → ParseUint s base bits = Ok (0, Some ErrBase)) ∧
  (∀ base bits, base = 0 ∨ 2 ≤ base ≤ 36 → ¬ 0 ≤ bits ≤ 64 →
    ParseUint s base bits = Ok (0, Some ErrBitSize)) ∧
  (∀ base bits, ParseUint [] base bits = Ok (0, Some ErrSyntax)).
Proof.
  intros Hs Hne Hbits. split_and!.
  - intros base ds Hb Hds. unfold uint_result. by apply ParseUint_digits.
  - intros base p c r ds Hb -> Hds Hc. by apply ParseUint_bad.
  - by apply ParseUint_literal.
  - intros base bits H0 Hb. unfold ParseUint.
    rewrite (proj2 (Z.eqb_neq (len s) 0)) by (intros ?%len_0_nil; done).
    rewrite (proj2 (Z.eqb_neq base 0)) by done.
    destruct (Z.leb_spec 2 base), (Z.leb_spec base 36); (lia || done).
  - intros base bits Hb Hbad. unfold ParseUint.
    rewrite (proj2 (Z.eqb_neq (len s) 0)) by (intros ?%len_0_nil; done).
    replace (negb ((2 <=? base) && (base <=? 36)) && negb (base =? 0)) with false.
    2: { destruct (Z.leb_spec 2 base), (Z.leb_spec base 36), (Z.eqb_spec base 0); (lia || done). }
    replace (negb (bits =? 0) && ((bits <? 0) || (64 <? bits))) with true.
    2: { destruct (Z.eqb_spec bits 0), (Z.ltb_spec bits 0), (Z.ltb_spec 64 bits); (lia || done). }
    rewrite ParseUint_prefix_spec by done. destruct (split_prefix s) as [[b pre] rest].
    by destruct ((2 <=? base) && (base <=? 36)).
  - done.
Qed.

Lemma ParseUint_correct_witness :
  ParseUint (str "300") 10 8 = Ok (255, Some ErrRange) ∧
  ParseUint (str "0x_Ff") 0 8 = Ok (255, None) ∧ ParseUint (str "1__0") 0 8 = Ok (0, Some ErrSyntax).
Proof.
  split; [|split; vm_compute; reflexivity].
  apply (ParseUint_correct (str "300") 8 ltac:(by vm_compute; repeat constructor) ltac:(done)
    ltac:(lia)) with (base := 10) (ds := [3; 0; 0]); [lia|].
  repeat constructor.
Defined.


(** C15: [ParseInt] is [ParseUint] of the text after the sign, negated after a
    minus sign and range-checked: errors other than [ErrRange] are passed on with
    value 0, a value that fits the signed [bitSize]-bit integers is returned and
    any other one gives the nearest bound and [ErrRange], with no overflow for
    the least integer. [Atoi], with its fast path for short strings, is
    [ParseInt] in base 10 at 64 bits. The exception to the range check is bit
    size 1, where a negative number below -1 is returned as -1 without an error. *)
Theorem ParseInt_Atoi_correct s base bitSize : Forall byte s → s ≠ [] →
  (let '(neg, t) := split_sign s in
   (∀ u e, ParseUint t base bitSize = Ok (u, e) →
     (e ≠ None → e ≠ Some ErrRange → ParseInt s base bitSize = Ok (0, e)) ∧
     (e = None → 0 ≤ bitSize ≤ 64 → is_uint 64 u →
       ParseInt s base bitSize = Ok (clamp (width bitSize) (signed neg u)))) ∧
   (∀ ds, t ≠ [] → 2 ≤ base ≤ 36 → 0 ≤ bitSize ≤ 64 → Forall2 (is_digit base) t ds →
     value base ds < 2 ^ width bitSize ∨ bitSize ≠ 1 →
     ParseInt s base bitSize = Ok (clamp (width bitSize) (signed neg (value base ds))))) ∧
  Atoi s = ParseInt s 10 0 ∧
  ParseInt (str "-5") 10 1 = Ok (-1, None).
Proof.
  intros Hs Hne. split_and!; [|by apply Atoi_eq|by vm_compute].
  pose proof (λ u e, ParseInt_spec s base bitSize u e Hne) as H1.
  pose proof (λ ds, ParseInt_digits s base bitSize ds) as H2.
  destruct (split_sign s) as [neg t]. split; [|by auto].
  intros u e Hu. destruct (H1 u e Hu) as [Ha Hb]. split; [done|]. intros. apply Hb; auto.
Qed.

Lemma ParseInt_Atoi_correct_witness :
  ParseInt (str "-129") 10 8 = Ok (-128, Some ErrRange) ∧
  Atoi (str "-77") = ParseInt (str "-77") 10 0 ∧ Atoi (str "-77") = Ok (-77, None).
Proof.
  split; [|split; [|vm_compute; reflexivity]].
  - apply (ParseInt_Atoi_correct (str "-129") 10 8 ltac:(by vm_compute; repeat constructor)
      ltac:(done)) with (ds := [1; 2; 9]); [done|lia|lia|repeat constructor|by right].
  - apply (ParseInt_Atoi_correct (str "-77") 10 0 ltac:(by vm_compute; repeat constructor) ltac:(done)).
Defined.

(** What was formatted is read back, at a width of 0 or 64. *)
Lemma format_parse i u base : is_sint 64 i → is_uint 64 u → 2 ≤ base ≤ 36 →
  (s ← FormatInt i base; ParseInt s base 64) = Ok (i, None) ∧
  (s ← FormatUint u base; ParseUint s base 64) = Ok (u, None) ∧
  (s ← Itoa i; Atoi s) = Ok (i, None).
Proof.
  intros Hi Hu Hb.
  assert (∀ b n, 2 ≤ b ≤ 36 → n = 0 ∨ n = 64 →
    ∃ s, FormatInt i b = Ok s ∧ Forall byte s ∧ ParseInt s b n = Ok (i, None)) as HI.
  { clear base Hb. intros b n Hb Hw. destruct (FormatInt_spec i b Hi Hb) as (ds & Hn & HF).
    destruct (text_digits b ds ltac:(lia) ltac:(by destruct Hn as (_ & ? & _))) as [Hds Hbytes].
    exists (sign_text i ++ text ds). assert (Forall byte (sign_text i ++ text ds)) as Hall.
    { apply Forall_app. split; [|done]. unfold sign_text. case_match; by repeat constructor. }
    split_and!; [done..|].
    pose proof (numeral_pos b _ _ Hn) as Hpos.
    pose proof (ParseInt_digits (sign_text i ++ text ds) b n ds) as HP.
    assert (split_sign (sign_text i ++ text ds) = (i <? 0, text ds)) as Hsp.
    { unfold sign_text. destruct (i <? 0); [done|]. simpl.
      destruct Hds as [|c d s ds' Hd Hds]; [by rewrite len_nil in Hpos|]. unfold split_sign.
      destruct Hd as [Hd _]. destruct (Z.eqb_spec c (chr "+")) as [->|]; [done|].
      by destruct (Z.eqb_spec c (chr "-")) as [->|]. }
    rewrite Hsp in HP. destruct Hn as (Hv & Hr & _).
    rewrite HP; [|by intros ?%(f_equal len); rewrite len_text, len_nil in *; lia|done|lia|lia|done|right; lia].
    unfold clamp, signed. replace (width n) with 64 by (by destruct Hw as [-> | ->]). rewrite Hv. unfold is_sint in Hi.
    destruct (Z.ltb_spec i 0); zcases; do 2 f_equal; lia. }
  split_and!.
  - by destruct (HI base 64 Hb ltac:(by right)) as (s & -> & _ & H).
  - destruct (FormatUint_spec u base Hu Hb) as (ds & Hn & ->). cbn [mbind res_bind].
    destruct (text_digits base ds ltac:(lia) ltac:(by destruct Hn as (_ & ? & _))) as [Hds Hbytes].
    pose proof (numeral_pos base _ _ Hn) as Hpos.
    rewrite (ParseUint_digits (text ds) base 64 ds);
      [|by intros ?%(f_equal len); rewrite len_text, len_nil in *; lia|done|lia|lia|done].
    destruct Hn as (-> & _). unfold is_uint in Hu. change (width 64) with 64.
    by rewrite (proj2 (Z.ltb_lt _ _)) by lia.
  - unfold Itoa. rewrite i64_small by (unfold is_sint in Hi; lia).
    destruct (HI 10 0 ltac:(lia) ltac:(by left)) as (s & -> & Hs & H).
    cbn [mbind res_bind]. by rewrite Atoi_eq.
Qed.

(** C16: The formatters write the canonical digits of the number (no leading
    zeros, lower-case letters) after the sign: two digits at a time through the
    table of [00] to [99] in base 10, with shifts for the powers of two, with
    divisions otherwise, all inside their fixed buffers. [AppendInt] and
    [AppendUint] append the same text, [Itoa] is base 10, and bases below 2 or
    above 36 panic. Parsing undoes formatting: [ParseInt], [ParseUint] and [Atoi]
    read back at 64 bits what was printed, without an error. *)
Theorem Format_Parse_correct i u base : is_sint 64 i → is_uint 64 u →
  (2 ≤ base ≤ 36 → ∃ ds es, numeral base (Z.abs i) ds ∧ numeral base u es ∧
    FormatInt i base = Ok (sign_text i ++ text ds) ∧
    (∀ dst, AppendInt dst i base = Ok (dst ++ sign_text i ++ text ds)) ∧
    FormatUint u base = Ok (text es) ∧
    (∀ dst, AppendUint dst u base = Ok (dst ++ text es))) ∧
  (base < 2 ∨ 36 < base →
    let p := Panic (PanicMsg (str "strconv: illegal AppendInt/FormatInt base")) in
    FormatInt i base = p ∧ FormatUint u base = p ∧
    ∀ dst, AppendInt dst i base = p ∧ AppendUint dst u base = p) ∧
  Itoa i = FormatInt i 10 ∧
  (2 ≤ base ≤ 36 →
    (s ← FormatInt i base; ParseInt s base 64) = Ok (i, None) ∧
    (s ← FormatUint u base; ParseUint s base 64) = Ok (u, None) ∧
    (s ← Itoa i; Atoi s) = Ok (i, None)).
Proof.
  intros Hi Hu. split_and!.
  - intros Hb. destruct (FormatInt_spec i base Hi Hb) as (ds & Hn & HF).
    destruct (FormatUint_spec u base Hu Hb) as (es & Hn' & HF').
    exists ds, es. split_and!; [done..| |done|].
    + intros dst. destruct (AppendInt_spec dst i base Hi Hb) as (ds' & Hn2 & ->).
      by rewrite (numeral_unique base ltac:(lia) _ _ _ Hn Hn2).
    + intros dst. destruct (AppendUint_spec dst u base Hu Hb) as (ds' & Hn2 & ->).
      by rewrite (numeral_unique base ltac:(lia) _ _ _ Hn' Hn2).
  - intros Hb. unfold FormatInt, FormatUint, AppendInt, AppendUint, formatBits.
    change (len digits) with 36. rewrite (proj2 (Z.eqb_neq base 10)) by lia.
    replace ((base <? 2) || false || (36 <? base)) with true.
    2: { destruct (Z.ltb_spec base 2), (Z.ltb_spec 36 base); (lia || done). }
    split_and!; [done..|]. intros dst. by destruct (i <? 0).
  - unfold Itoa. f_equal. apply i64_small. unfold is_sint in Hi. lia.
  - intros Hb. by apply format_parse.
Qed.

Lemma Format_Parse_correct_witness :
  (∃ ds, numeral 7 (Z.abs (-100)) ds ∧ FormatInt (-100) 7 = Ok (sign_text (-100) ++ text ds)) ∧
  FormatInt (-100) 7 = Ok (str "-202") ∧ FormatUint 100 16 = Ok (str "64") ∧
  (s ← FormatInt (-9223372036854775808) 36; ParseInt s 36 64) = Ok (-9223372036854775808, None).
Proof.
  split; [|split; [vm_compute; reflexivity|split; [vm_compute; reflexivity|]]].
  2: { apply (Format_Parse_correct (-9223372036854775808) 0 36 ltac:(done) ltac:(done)). lia. }
  destruct (proj1 (Format_Parse_correct (-100) 0 7 ltac:(done) ltac:(done)) ltac:(lia))
    as (ds & es & Hn & _ & HF & _).
  by exists ds.
Defined.

