(* ===== verification/Number.v ===== *)
(** * strconv: the exported integer and boolean conversions (strconv/number.go)

    The package wraps internal/strconv and turns its error numbers into
    [*NumError] values that name the function and carry the input. *)

From Stdlib Require Import String.
From stdpp Require Import base.
From S2P Require Import Prelude Bits Bytealg Strconv StrconvProofs StrconvProps.

(** An error value: one of internal/strconv, one of the two variables of the
    package, the result of a call of [errors.New], or a [*NumError]. *)
Inductive error :=
  | InternalError (e : Strconv.Error)
  | ErrRange
  | ErrSyntax
  | errorsNew (text : list Z)
  | NumError (Func Num : list Z) (Err : error).

Definition Unwrap (e : error) : option error :=
  match e with NumError _ _ err => Some err | _ => None end.

Definition IntSize : Z := Strconv.IntSize.

(** [stringslite.Clone] copies the bytes of the string. *)
Definition syntaxError (fn str : list Z) : res error := mret (NumError fn str ErrSyntax).
Definition rangeError (fn str : list Z) : res error := mret (NumError fn str ErrRange).
Definition baseError (fn s : list Z) (base : Z) : res error :=
  b ← Strconv.Itoa base; mret (NumError fn s (errorsNew (str "invalid base " ++ b))).
Definition bitSizeError (fn s : list Z) (bitSize : Z) : res error :=
  b ← Strconv.Itoa bitSize; mret (NumError fn s (errorsNew (str "invalid bit size " ++ b))).

Definition toError (fn s : list Z) (base bitSize : Z) (err : error) : res error :=
  match err with
  | InternalError Strconv.ErrSyntax => syntaxError fn s
  | InternalError Strconv.ErrRange => rangeError fn s
  | InternalError Strconv.ErrBase => baseError fn s base
  | InternalError Strconv.ErrBitSize => bitSizeError fn s bitSize
  | _ => mret err
  end.

Definition ParseBool (s : list Z) : res (bool * option error) :=
  let '(x, err) := Strconv.ParseBool s in
  match err with
  | Some err => e ← toError (str "ParseBool") s 0 0 (InternalError err); mret (x, Some e)
  | None => mret (x, None)
  end.

Definition FormatBool (b : bool) : list Z := Strconv.FormatBool b.
Definition AppendBool (dst : list Z) (b : bool) : list Z := Strconv.AppendBool dst b.

Definition ParseUint (s : list Z) (base bitSize : Z) : res (Z * option error) :=
  '(x, err) ← Strconv.ParseUint s base bitSize;
  match err with
  | Some err => e ← toError (str "ParseUint") s base bitSize (InternalError err); mret (x, Some e)
  | None => mret (x, None)
  end.

Definition ParseInt (s : list Z) (base bitSize : Z) : res (Z * option error) :=
  '(x, err) ← Strconv.ParseInt s base bitSize;
  match err with
  | Some err => e ← toError (str "ParseInt") s base bitSize (InternalError err); mret (x, Some e)
  | None => mret (x, None)
  end.

Definition Atoi (s : list Z) : res (Z * option error) :=
  '(x, err) ← Strconv.Atoi s;
  match err with
  | Some err => e ← toError (str "Atoi") s 0 0 (InternalError err); mret (x, Some e)
  | None => mret (x, None)
  end.

Definition FormatUint (i base : Z) : res (list Z) := Strconv.FormatUint i base.
Definition FormatInt (i base : Z) : res (list Z) := Strconv.FormatInt i base.
Definition Itoa (i : Z) : res (list Z) := Strconv.Itoa i.
Definition AppendInt (dst : list Z) (i base : Z) : res (list Z) := Strconv.AppendInt dst i base.
Definition AppendUint (dst : list Z) (i base : Z) : res (list Z) := Strconv.AppendUint dst i base.

(** ** Properties *)

(** The reason of the failure, in the terms of the package. *)
Definition reason (base bitSize : Z) (e : Strconv.Error) (err : error) : Prop :=
  match e with
  | Strconv.ErrRange => err = ErrRange
  | Strconv.ErrSyntax => err = ErrSyntax
  | Strconv.ErrBase => ∃ t, Strconv.Itoa base = Ok t ∧ err = errorsNew (str "invalid base " ++ t)
  | Strconv.ErrBitSize => ∃ t, Strconv.Itoa bitSize = Ok t ∧ err = errorsNew (str "invalid bit size " ++ t)
  end.

(** The outcome [r] of a function of this package is the outcome [m] of the
    internal one, with a [*NumError] for its error. *)
Definition wraps {A} (fn s : list Z) (base bitSize : Z) (m : res (A * option Strconv.Error))
    (r : res (A * option error)) : Prop :=
  match m with
  | Ok (x, None) => r = Ok (x, None)
  | Ok (x, Some e) => ∃ err, reason base bitSize e err ∧ r = Ok (x, Some (NumError fn s err))
  | Panic w => r = Panic w
  | NoFuel => r = NoFuel
  end.

Lemma Itoa_total i : is_sint 64 i → ∃ t, Strconv.Itoa i = Ok t.
Proof.
  intros Hi. unfold Strconv.Itoa. rewrite i64_small by (unfold is_sint in Hi; lia).
  destruct (FormatInt_spec i 10 Hi ltac:(lia)) as (ds & _ & ->). by eexists.
Qed.

Lemma wraps_toError {A} fn s base bitSize (m : res (A * option Strconv.Error)) :
  is_sint 64 base → is_sint 64 bitSize →
  wraps fn s base bitSize m ('(x, err) ← m;
    match err with
    | Some err => e ← toError fn s base bitSize (InternalError err); mret (x, Some e)
    | None => mret (x, None)
    end).
Proof.
  intros Hb Hs. destruct m as [[x [e|]]| |]; [|done..]. destruct e; simpl.
  - by exists ErrRange.
  - by exists ErrSyntax.
  - destruct (Itoa_total base Hb) as [t Ht]. unfold baseError. rewrite Ht. simpl. eauto.
  - destruct (Itoa_total bitSize Hs) as [t Ht]. unfold bitSizeError. rewrite Ht. simpl. eauto.
Qed.

(** The spellings [ParseBool] accepts. *)
Definition spellings (b : bool) : list (list Z) :=
  map str (if b then ["1"; "t"; "T"; "true"; "TRUE"; "True"]%string
    else ["0"; "f"; "F"; "false"; "FALSE"; "False"]%string).

Lemma is_one_of_spec s l : is_one_of s l = true ↔ s ∈ l.
Proof.
  unfold is_one_of. rewrite existsb_exists. split.
  - by intros (t & ?%list_elem_of_In & ->%bool_decide_eq_true).
  - intros ?. exists s. by rewrite <-list_elem_of_In, bool_decide_eq_true.
Qed.

Lemma ParseBool_cases s : ParseBool s =
  if is_one_of s (spellings true) then Ok (true, None)
  else if is_one_of s (spellings false) then Ok (false, None)
  else Ok (false, Some (NumError (str "ParseBool") s ErrSyntax)).
Proof.
  unfold ParseBool, Strconv.ParseBool. change [str "1"; str "t"; str "T"; str "true"; str "TRUE"; str "True"] with (spellings true).
  change [str "0"; str "f"; str "F"; str "false"; str "FALSE"; str "False"] with (spellings false).
  destruct (is_one_of s (spellings true)); [done|]. by destruct (is_one_of s (spellings false)).
Qed.

Lemma spellings_disjoint s : s ∈ spellings false → is_one_of s (spellings true) = false.
Proof.
  intros Hs. assert (forallb (λ t, negb (is_one_of t (spellings true))) (spellings false) = true) as H
    by (vm_compute; reflexivity).
  rewrite forallb_forall in H. by apply negb_true_iff, H, list_elem_of_In.
Qed.

(** C17: Every parser of the package returns the value of the internal parser,
    and for each of its errors a [*NumError] with the name of the function, the
    whole input and the documented reason; no internal error escapes. [ParseBool]
    accepts exactly the twelve spellings and reads back what [FormatBool] and
    [AppendBool] write. *)
Theorem NumError_correct s base bitSize : is_sint 64 base → is_sint 64 bitSize →
  wraps (str "ParseUint") s base bitSize (Strconv.ParseUint s base bitSize) (ParseUint s base bitSize) ∧
  wraps (str "ParseInt") s base bitSize (Strconv.ParseInt s base bitSize) (ParseInt s base bitSize) ∧
  wraps (str "Atoi") s 0 0 (Strconv.Atoi s) (Atoi s) ∧
  (∀ b, ParseBool s = Ok (b, None) ↔ s ∈ spellings b) ∧
  ((∀ b, ParseBool s ≠ Ok (b, None)) →
    ParseBool s = Ok (false, Some (NumError (str "ParseBool") s ErrSyntax))) ∧
  (∀ b dst, ParseBool (FormatBool b) = Ok (b, None) ∧ AppendBool dst b = dst ++ FormatBool b).
Proof.
  intros Hb Hs. split_and!.
  - by apply wraps_toError.
  - by apply wraps_toError.
  - by apply wraps_toError.
  - intros b. rewrite ParseBool_cases, <-is_one_of_spec. split.
    + destruct (is_one_of s (spellings true)) eqn:E1; [by intros [= <-]|].
      destruct (is_one_of s (spellings false)) eqn:E2; [by intros [= <-]|done].
    + intros H. destruct b; [by rewrite H|].
      by rewrite spellings_disjoint, H by by apply is_one_of_spec.
  - rewrite ParseBool_cases. intros H. destruct (is_one_of s (spellings true)); [by destruct (H true)|].
    by destruct (is_one_of s (spellings false)); [destruct (H false)|].
  - intros b dst. by destruct b.
Qed.

Lemma NumError_correct_witness :
  (∃ err, reason 1 8 Strconv.ErrBase err ∧
    ParseInt (str "12") 1 8 = Ok (0, Some (NumError (str "ParseInt") (str "12") err))) ∧
  ParseInt (str "12") 1 8 =
    Ok (0, Some (NumError (str "ParseInt") (str "12") (errorsNew (str "invalid base 1")))).
Proof.
  split; [|vm_compute; reflexivity].
  destruct (NumError_correct (str "12") 1 8 ltac:(done) ltac:(done)) as (_ & H & _). exact H.
Defined.
