(* ===== verification/Threads.v ===== *)
(** * Interleavings

    Goroutines that share a state: each runs its own program, and the steps of
    the whole are the steps of one goroutine at a time, in any order. A step is
    one access to the shared state, with the computation on local variables that
    follows it. [tstep s p a] is the step of a goroutine at point [p] when the
    world outside of the program (a caller, or a function of the runtime) acts
    as [a] says; [None] when it cannot step, because it is blocked. *)

From stdpp Require Import relations.
From S2P Require Import Prelude.

Section interleaving.
Context {S P A : Type} (tstep : S → P → A → option (S * P)).

Record config := Config { shared : S; threads : list P }.

Inductive step : config → config → Prop :=
  | step_thread s ts i p a s' p' :
      ts !! i = Some p → tstep s p a = Some (s', p') →
      step (Config s ts) (Config s' (<[i:=p']> ts)).

Definition reachable (c0 c : config) : Prop := rtc step c0 c.

Lemma invariant (I : config → Prop) c0 c :
  I c0 → (∀ c c', I c → step c c' → I c') → reachable c0 c → I c.
Proof.
  intros H0 Hstep. apply (rtc_ind_r (λ c, I c)); [done|]. intros c1 c2 _ ??. by eapply Hstep.
Qed.

Lemma step_length c c' : step c c' → length (threads c') = length (threads c).
Proof. destruct 1. simpl. apply length_insert. Qed.

(** A schedule: which goroutine steps next, and what the world outside answers. *)
Fixpoint run (sched : list (nat * A)) (c : config) : option config :=
  match sched with
  | [] => Some c
  | (i, a) :: sched =>
      p ← threads c !! i; '(s', p') ← tstep (shared c) p a;
      run sched (Config s' (<[i:=p']> (threads c)))
  end.

Lemma run_reachable sched c c' : run sched c = Some c' → reachable c c'.
Proof.
  revert c. induction sched as [|[i a] sched IH]; intros [s ts] H; simpl in H.
  - injection H as ->. apply rtc_refl.
  - destruct (ts !! i) as [p|] eqn:Hi; [|done]. simpl in H.
    destruct (tstep s p a) as [[s' p']|] eqn:Hp; [|done]. simpl in H.
    eapply rtc_l; [by apply (step_thread s ts i p a)|by apply IH].
Qed.
End interleaving.
Arguments Config {S P} _ _.
Arguments shared {S P} _.
Arguments threads {S P} _.
Arguments config : clear implicits.

(** ** Sums over the goroutines *)

Section total.
Context {P : Type}.
Implicit Types (f g : P → Z) (ts : list P) (p : P).

Fixpoint total f ts : Z :=
  match ts with [] => 0 | p :: ts => f p + total f ts end.

Lemma total_insert f ts i p q : ts !! i = Some p →
  total f (<[i:=q]> ts) = total f ts - f p + f q.
Proof.
  revert i. induction ts as [|x ts IH]; intros [|i] H; simplify_eq/=; [lia|].
  rewrite (IH i) by done. lia.
Qed.

Lemma total_mono f g ts : (∀ p, f p ≤ g p) → total f ts ≤ total g ts.
Proof. intros H. induction ts as [|p ts IH]; simpl; [lia|]. pose proof (H p). lia. Qed.

Lemma total_nonneg f ts : (∀ p, 0 ≤ f p) → 0 ≤ total f ts.
Proof. intros H. induction ts as [|p ts IH]; simpl; [lia|]. pose proof (H p). lia. Qed.

Lemma total_at f ts i p : (∀ p, 0 ≤ f p) → ts !! i = Some p → f p ≤ total f ts.
Proof.
  intros H. revert i. induction ts as [|x ts IH]; intros [|i] Hi; simplify_eq/=.
  - pose proof (total_nonneg f ts H). lia.
  - specialize (IH i Hi). pose proof (H x). lia.
Qed.

Lemma total_len ts : total (λ _, 1) ts = len ts.
Proof. induction ts as [|p ts IH]; [done|]. simpl. rewrite IH, len_cons. done. Qed.

Lemma total_plus f g ts : total (λ p, f p + g p) ts = total f ts + total g ts.
Proof. induction ts as [|p ts IH]; simpl; lia. Qed.

(** A positive sum has a positive member. *)
Lemma total_pos f ts : 0 < total f ts → ∃ i p, ts !! i = Some p ∧ 0 < f p.
Proof.
  induction ts as [|x ts IH]; simpl; [lia|]. intros H. destruct (decide (0 < f x)).
  - by exists 0%nat, x.
  - destruct IH as (i & p & Hi & Hp); [lia|]. by exists (Datatypes.S i), p.
Qed.

Lemma total_replicate f n p : total f (replicate n p) = Z.of_nat n * f p.
Proof. induction n as [|n IH]; [done|]. simpl replicate. cbn [total]. rewrite IH. lia. Qed.

Lemma total_two f ts i j p q : (∀ p, 0 ≤ f p) → i ≠ j → ts !! i = Some p → ts !! j = Some q →
  f p + f q ≤ total f ts.
Proof.
  intros H. revert i j. induction ts as [|x ts IH]; intros [|i] [|j] Hij Hi Hj; simplify_eq/=; try done.
  - pose proof (total_at f ts j q H Hj). lia.
  - pose proof (total_at f ts i p H Hi). lia.
  - specialize (IH i j ltac:(congruence) Hi Hj). pose proof (H x). lia.
Qed.
End total.
