(* ===== verification/Mutex.v ===== *)
(** * internal/sync: Mutex

    The mutual exclusion lock (internal/sync/mutex.go) as the steps of its
    goroutines. The shared state is the word [state] and the number of tokens of
    the runtime semaphore [sema]; a goroutine is at one of the points between two
    accesses to them, with its local variables. What the runtime answers
    ([runtime_canSpin], the clock that decides whether a waiter starves) is
    chosen by the outside world, and so is the goroutine that takes a token. *)

From S2P Require Import Prelude Threads.

Definition mutexLocked : Z := 1.
Definition mutexWoken : Z := 2.
Definition mutexStarving : Z := 4.
Definition mutexWaiterShift : Z := 3.

Record Mutex := MkMutex { state : Z; sema : Z }.

Definition set_state (m : Mutex) (v : Z) : Mutex := MkMutex v (sema m).

Inductive pc :=
  | Idle
  | LockFast                                    (* Lock: the fast path *)
  | SlowLoad (starving awoke : bool)            (* lockSlow: [old = m.state] *)
  | Slow (starving awoke : bool) (old : Z)      (* lockSlow: the head of the loop *)
  | SemWait (starving : bool)                   (* in runtime_SemacquireMutex *)
  | Woken (starving : bool)                     (* returned from it *)
  | WokenAdd (delta : Z)                        (* about to take the handed-off lock *)
  | TryLoad | TryCAS (old : Z)                  (* TryLock *)
  | Held                                        (* Lock or TryLock has returned *)
  | UnlockSlow (old : Z)                        (* unlockSlow: the loop *)
  | UnlockLoad                                  (* unlockSlow: [old = m.state] *)
  | Release (handoff : bool)                    (* about to call runtime_Semrelease *)
  | Fatal.                                      (* fatal or throw *)

(** What the outside world does: a call of a method, or an answer of the runtime
    to the running goroutine. *)
Inductive act := CallLock | CallTryLock | CallUnlock | Run (answer : bool).

(** The state a goroutine of [lockSlow] tries to install. *)
Definition lock_new (starving awoke : bool) (old : Z) : option Z :=
  let new := old in
  let new := if Z.land old mutexStarving =? 0 then Z.lor new mutexLocked else new in
  let new := if negb (Z.land old (Z.lor mutexLocked mutexStarving) =? 0)
    then i32 (new + Z.shiftl 1 mutexWaiterShift) else new in
  let new := if starving && negb (Z.land old mutexLocked =? 0) then Z.lor new mutexStarving else new in
  if awoke then
    if Z.land new mutexWoken =? 0 then None else Some (Z.ldiff new mutexWoken)
  else Some new.

(** One round of the loop of [lockSlow]. *)
Definition lock_round (m : Mutex) (starving awoke : bool) (old : Z) (canSpin : bool) : Mutex * pc :=
  if (Z.land old (Z.lor mutexLocked mutexStarving) =? mutexLocked) && canSpin then
    if negb awoke && (Z.land old mutexWoken =? 0) && negb (Z.shiftr old mutexWaiterShift =? 0)
       && (state m =? old)
    then (set_state m (Z.lor old mutexWoken), SlowLoad starving true)
    else (m, SlowLoad starving awoke)
  else
    match lock_new starving awoke old with
    | None => (m, Fatal)
    | Some new =>
        if state m =? old then
          if Z.land old (Z.lor mutexLocked mutexStarving) =? 0 then (set_state m new, Held)
          else (set_state m new, SemWait starving)
        else (m, SlowLoad starving awoke)
    end.

(** After the semaphore was acquired: [old = m.state] and what follows. *)
Definition woken_step (m : Mutex) (starving : bool) : pc :=
  let old := state m in
  if negb (Z.land old mutexStarving =? 0) then
    if negb (Z.land old (Z.lor mutexLocked mutexWoken) =? 0) || (Z.shiftr old mutexWaiterShift =? 0)
    then Fatal
    else
      let delta := i32 (mutexLocked - Z.shiftl 1 mutexWaiterShift) in
      let delta := if negb starving || (Z.shiftr old mutexWaiterShift =? 1)
        then i32 (delta - mutexStarving) else delta in
      WokenAdd delta
  else Slow starving true old.

Definition unlock_step (m : Mutex) : Mutex * pc :=
  let new := i32 (state m - mutexLocked) in
  let m := set_state m new in
  if new =? 0 then (m, Idle)
  else if Z.land (i32 (new + mutexLocked)) mutexLocked =? 0 then (m, Fatal)
  else if Z.land new mutexStarving =? 0 then (m, UnlockSlow new)
  else (m, Release true).

Definition unlock_round (m : Mutex) (old : Z) : Mutex * pc :=
  if (Z.shiftr old mutexWaiterShift =? 0)
     || negb (Z.land old (Z.lor mutexLocked (Z.lor mutexWoken mutexStarving)) =? 0)
  then (m, Idle)
  else
    let new := Z.lor (i32 (old - Z.shiftl 1 mutexWaiterShift)) mutexWoken in
    if state m =? old then (set_state m new, Release false) else (m, UnlockLoad).

Definition tstep (m : Mutex) (p : pc) (a : act) : option (Mutex * pc) :=
  match p, a with
  | Idle, CallLock => Some (m, LockFast)
  | Idle, CallTryLock => Some (m, TryLoad)
  | Held, CallUnlock => Some (unlock_step m)
  | LockFast, Run _ =>
      if state m =? 0 then Some (set_state m mutexLocked, Held) else Some (m, SlowLoad false false)
  | SlowLoad starving awoke, Run _ => Some (m, Slow starving awoke (state m))
  | Slow starving awoke old, Run canSpin => Some (lock_round m starving awoke old canSpin)
  | SemWait starving, Run late =>
      if 0 <? sema m then Some (MkMutex (state m) (sema m - 1), Woken (starving || late)) else None
  | Woken starving, Run _ => Some (m, woken_step m starving)
  | WokenAdd delta, Run _ => Some (set_state m (i32 (state m + delta)), Held)
  | TryLoad, Run _ =>
      let old := state m in
      if negb (Z.land old (Z.lor mutexLocked mutexStarving) =? 0) then Some (m, Idle)
      else Some (m, TryCAS old)
  | TryCAS old, Run _ =>
      if state m =? old then Some (set_state m (Z.lor old mutexLocked), Held) else Some (m, Idle)
  | UnlockSlow old, Run _ => Some (unlock_round m old)
  | UnlockLoad, Run _ => Some (m, UnlockSlow (state m))
  | Release _, Run _ => Some (MkMutex (state m) (sema m + 1), Idle)
  | _, _ => None
  end.

(** [n] goroutines and the zero value of the lock. *)
Definition start (n : nat) : config Mutex pc := Config (MkMutex 0 0) (replicate n Idle).
