(* ===== verification/MutexProofs.v ===== *)
(** * Mutex: the invariant of its goroutines

    The arithmetic of the state word, and the invariant that ties the word and
    the semaphore to the number of goroutines at each point: it holds at the
    start and every step of a goroutine keeps it. From it follows what the lock
    promises to the goroutines that follow its contract (only the holder calls
    Unlock), for every number of goroutines below the width of the waiter count
    and for every interleaving of their steps. *)

From stdpp Require Import relations.
From S2P Require Import Prelude Threads Mutex.


(** ** The state word *)

(** The word with the three flags and [n] waiters. *)
Definition enc (l w s : bool) (n : Z) : Z := Z.b2z l + 2 * Z.b2z w + 4 * Z.b2z s + 8 * n.

Lemma low_land c n k : 0 ≤ k < 8 → Z.land (c + 8 * n) k = Z.land (c mod 8) k.
Proof.
  intros Hk. replace k with (Z.land 7 k) at 1.
  - rewrite Z.land_assoc. f_equal. change 7 with (2 ^ 3 - 1). rewrite land_mask by lia.
    change (2 ^ 3) with 8. rewrite (Z.mul_comm 8). by apply Z.mod_add.
  - rewrite Z.land_comm. change 7 with (2 ^ 3 - 1). rewrite land_mask by lia. by apply Z.mod_small.
Qed.

Lemma low_lor c n k : 0 ≤ c < 8 → 0 ≤ k < 8 → Z.lor (c + 8 * n) k = Z.lor c k + 8 * n.
Proof.
  intros Hc Hk. assert (∀ d, 0 ≤ d < 8 → d + 8 * n = Z.lor (n * 2 ^ 3) d) as E.
  { intros d Hd. rewrite lor_disjoint_add by lia. lia. }
  rewrite (E c) by done. rewrite <-Z.lor_assoc. symmetry. apply E.
  assert (forallb (λ c, forallb (λ k, (0 <=? Z.lor c k) && (Z.lor c k <? 8)) (seqZ 0 8)) (seqZ 0 8) = true)
    as H by (vm_compute; reflexivity).
  rewrite forallb_forall in H. specialize (H c ltac:(apply list_elem_of_In, elem_of_seqZ; lia)).
  rewrite forallb_forall in H. specialize (H k ltac:(apply list_elem_of_In, elem_of_seqZ; lia)). lia.
Qed.

Lemma ldiff_sub x k : Z.ldiff x k = x - Z.land x k.
Proof.
  rewrite Z.sub_nocarry_ldiff; apply Z.bits_inj'; intros i _;
    rewrite ?Z.bits_0, !Z.ldiff_spec, !Z.land_spec; by destruct (Z.testbit x i), (Z.testbit k i).
Qed.

Section word.
Context (l w s : bool) (n : Z).

Lemma enc_land k : 0 ≤ k < 8 → Z.land (enc l w s n) k = Z.land (enc l w s 0) k.
Proof.
  intros Hk. unfold enc. rewrite low_land by done.
  rewrite Z.mul_0_r, Z.add_0_r, Z.mod_small; [done|]. destruct l, w, s; simpl; lia.
Qed.
Lemma enc_locked : Z.land (enc l w s n) mutexLocked = Z.b2z l.
Proof. rewrite enc_land by (unfold mutexLocked; lia). by destruct l, w, s. Qed.
Lemma enc_woken : Z.land (enc l w s n) mutexWoken = 2 * Z.b2z w.
Proof. rewrite enc_land by (unfold mutexWoken; lia). by destruct l, w, s. Qed.
Lemma enc_starving : Z.land (enc l w s n) mutexStarving = 4 * Z.b2z s.
Proof. rewrite enc_land by (unfold mutexStarving; lia). by destruct l, w, s. Qed.
Lemma enc_locked_starving :
  Z.land (enc l w s n) (Z.lor mutexLocked mutexStarving) = Z.b2z l + 4 * Z.b2z s.
Proof. rewrite enc_land by (vm_compute; split; congruence). by destruct l, w, s. Qed.
Lemma enc_locked_woken :
  Z.land (enc l w s n) (Z.lor mutexLocked mutexWoken) = Z.b2z l + 2 * Z.b2z w.
Proof. rewrite enc_land by (vm_compute; split; congruence). by destruct l, w, s. Qed.
Lemma enc_flags :
  Z.land (enc l w s n) (Z.lor mutexLocked (Z.lor mutexWoken mutexStarving)) =
  Z.b2z l + 2 * Z.b2z w + 4 * Z.b2z s.
Proof. rewrite enc_land by (vm_compute; split; congruence). by destruct l, w, s. Qed.
Lemma enc_waiters : Z.shiftr (enc l w s n) mutexWaiterShift = n.
Proof.
  rewrite Z.shiftr_div_pow2 by done. unfold enc. change (2 ^ mutexWaiterShift) with 8.
  rewrite (Z.mul_comm 8), Z.div_add by done. destruct l, w, s; done.
Qed.
Lemma enc_lor k : 0 ≤ k < 8 → Z.lor (enc l w s n) k = Z.lor (enc l w s 0) k + 8 * n.
Proof.
  intros Hk. unfold enc. rewrite low_lor by (destruct l, w, s; simpl; lia).
  by rewrite Z.mul_0_r, Z.add_0_r.
Qed.
Lemma enc_set_locked : Z.lor (enc l w s n) mutexLocked = enc true w s n.
Proof. rewrite enc_lor by (unfold mutexLocked; lia). by destruct l, w, s. Qed.
Lemma enc_set_woken : Z.lor (enc l w s n) mutexWoken = enc l true s n.
Proof. rewrite enc_lor by (unfold mutexWoken; lia). by destruct l, w, s. Qed.
Lemma enc_set_starving : Z.lor (enc l w s n) mutexStarving = enc l w true n.
Proof. rewrite enc_lor by (unfold mutexStarving; lia). by destruct l, w, s. Qed.
Lemma enc_clear_woken : Z.ldiff (enc l w s n) mutexWoken = enc l false s n.
Proof. rewrite ldiff_sub, enc_woken. unfold enc. destruct w; simpl; lia. Qed.

Lemma enc_range : 0 ≤ n < 2 ^ 28 → 0 ≤ enc l w s n < 2 ^ 31.
Proof. unfold enc. destruct l, w, s; simpl; lia. Qed.
End word.

Lemma enc_inj l w s n l' w' s' n' : enc l w s n = enc l' w' s' n' → l = l' ∧ w = w' ∧ s = s' ∧ n = n'.
Proof. unfold enc. destruct l, w, s, l', w', s'; simpl; intros; split_and!; (lia || done). Qed.

Create Rewrite HintDb word.
#[export] Hint Rewrite enc_locked enc_woken enc_starving enc_locked_starving enc_locked_woken enc_flags
  enc_waiters enc_set_locked enc_set_woken enc_set_starving enc_clear_woken : word.


(** ** How many goroutines are where *)

Definition held (p : pc) : Z := match p with Held => 1 | _ => 0 end.
Definition queued (p : pc) : Z := match p with SemWait _ => 1 | _ => 0 end.
Definition woken (p : pc) : Z := match p with Woken _ => 1 | _ => 0 end.
Definition taking (p : pc) : Z := match p with WokenAdd _ => 1 | _ => 0 end.
Definition waking (p : pc) : Z := match p with Release false => 1 | _ => 0 end.
Definition handing (p : pc) : Z := match p with Release true => 1 | _ => 0 end.
Definition awake (p : pc) : Z := match p with SlowLoad _ a | Slow _ a _ => Z.b2z a | _ => 0 end.

(** The word, the tokens and the counts: in the normal mode the semaphore wakes
    one waiter at a time, and the flag [mutexWoken] says so; in the starvation
    mode the lock, held or on its way to a waiter, exists exactly once. *)
Definition balanced (l w s : bool) (n t : Z) (ts : list pc) : Prop :=
  0 ≤ n ∧ 0 ≤ t ∧
  if s then
    total held ts = Z.b2z l ∧ Z.b2z w = 0 ∧ total awake ts = 0 ∧ total waking ts = 0 ∧
    total held ts + total handing ts + t + total woken ts + total taking ts = 1 ∧
    n = total queued ts + total woken ts + total taking ts
  else
    total held ts = Z.b2z l ∧ total taking ts = 0 ∧ total handing ts = 0 ∧
    t + total waking ts + total woken ts + total awake ts = Z.b2z w ∧
    total queued ts = n + t + total waking ts.

(** What a goroutine remembers. *)
Definition local (k : Z) (p : pc) : Prop :=
  match p with
  | SlowLoad st aw => st = true → aw = true
  | Slow st aw old => (st = true → aw = true) ∧
      ∃ l w s n, old = enc l w s n ∧ 0 ≤ n ≤ k ∧ (aw = true → w = true ∧ s = false)
  | WokenAdd delta => delta = -7 ∨ delta = -11
  | TryCAS old => ∃ w n, old = enc false w false n ∧ 0 ≤ n ≤ k
  | UnlockSlow old => ∃ l w s n, old = enc l w s n ∧ 0 ≤ n ≤ k
  | Fatal => False
  | _ => True
  end.

(** A goroutine that will wake a waiter of the state it is about to see. *)
Definition waker (p : pc) : Prop :=
  match p with
  | UnlockLoad => True
  | UnlockSlow old => ∃ n, old = enc false false false n ∧ 0 < n
  | _ => False
  end.

Record consistent (k : Z) (m : Mutex) (ts : list pc) (l w s : bool) (n : Z) : Prop := {
  con_word : state m = enc l w s n;
  con_bal : balanced l w s n (sema m) ts;
  con_local : ∀ i p, ts !! i = Some p → local k p;
  con_waker : l = false → w = false → s = false → 0 < n → ∃ i p, ts !! i = Some p ∧ waker p }.
Arguments con_word {k m ts l w s n} _.
Arguments con_bal {k m ts l w s n} _.
Arguments con_local {k m ts l w s n} _.
Arguments con_waker {k m ts l w s n} _.


Lemma counts_at ts i p : ts !! i = Some p →
  held p ≤ total held ts ∧ queued p ≤ total queued ts ∧ woken p ≤ total woken ts ∧
  taking p ≤ total taking ts ∧ waking p ≤ total waking ts ∧ handing p ≤ total handing ts ∧
  awake p ≤ total awake ts.
Proof.
  intros Hi. split_and!; apply (total_at _ _ i); try done; intros q; destruct q as [| |? []|? [] ?| | | | | | | | |[]|]; simpl; lia.
Qed.

Lemma counts_nonneg ts :
  0 ≤ total held ts ∧ 0 ≤ total queued ts ∧ 0 ≤ total woken ts ∧ 0 ≤ total taking ts ∧
  0 ≤ total waking ts ∧ 0 ≤ total handing ts ∧ 0 ≤ total awake ts.
Proof.
  split_and!; apply total_nonneg; intros q; destruct q as [| |? []|? [] ?| | | | | | | | |[]|]; simpl; lia.
Qed.

Lemma counts_len ts : total queued ts + total woken ts + total taking ts ≤ len ts.
Proof.
  rewrite <-total_len, <-!total_plus. apply total_mono. intros p. destruct p; simpl; lia.
Qed.

Lemma balanced_waiters l w s n t ts : balanced l w s n t ts → 0 ≤ n ≤ len ts.
Proof.
  intros (Hn & Ht & H). pose proof (counts_nonneg ts). pose proof (counts_len ts).
  destruct s; simpl in H; lia.
Qed.

(** A step of one goroutine keeps the invariant when it keeps the balance. *)
Lemma consistent_step k m m' ts i p q l w s n l' w' s' n' :
  consistent k m ts l w s n → ts !! i = Some p →
  state m' = enc l' w' s' n' → balanced l' w' s' n' (sema m') (<[i:=q]> ts) → local k q →
  (l' = false → w' = false → s' = false → 0 < n' →
    waker q ∨ (l = false ∧ w = false ∧ s = false ∧ 0 < n ∧ ¬ waker p)) →
  consistent k m' (<[i:=q]> ts) l' w' s' n'.
Proof.
  intros [_ _ Hloc Hwk] Hi Hw Hb Hq Hwk'. pose proof (lookup_lt_Some _ _ _ Hi) as Hlt. split; try done.
  - intros j r. destruct (decide (i = j)) as [<-|].
    + rewrite list_lookup_insert_eq by done. intros. by simplify_eq.
    + rewrite list_lookup_insert_ne by done. apply Hloc.
  - intros Hl Hw0 Hs Hn. destruct (Hwk' Hl Hw0 Hs Hn) as [|(?&?&?&?&Hp)].
    + exists i, q. by rewrite list_lookup_insert_eq.
    + destruct Hwk as (j & r & Hj & Hr); [done..|]. exists j, r. split; [|done].
      rewrite list_lookup_insert_ne; [done|]. intros ->. by simplify_eq.
Qed.

Ltac bal Hi :=
  unfold balanced in *; rewrite ?(total_insert _ _ _ _ _ Hi);
  match type of Hi with ?ts !! ?i = Some ?p =>
    let H := fresh in pose proof (counts_at ts i p Hi) as H; cbn [held queued woken taking waking handing awake] in H |- *;
    let H := fresh in pose proof (counts_nonneg ts) as H
  end;
  repeat match goal with b : bool |- _ => destruct b end; cbn [Z.b2z negb andb orb] in *; try done; try lia.

(** ** The steps *)

(** What [lockSlow] installs. *)
Lemma lock_new_spec st aw l w s n : 0 ≤ n < 2 ^ 28 - 1 → (aw = true → w = true) →
  lock_new st aw (enc l w s n) =
  Some (enc (l || negb s) (w && negb aw) (s || (st && l)) (n + Z.b2z (l || s))).
Proof.
  intros Hn Haw. unfold lock_new. autorewrite with word.
  assert (∀ l w s, i32 (enc l w s n + Z.shiftl 1 mutexWaiterShift) = enc l w s (n + 1)) as E.
  { intros l' w' s'. change (Z.shiftl 1 mutexWaiterShift) with 8.
    replace (enc l' w' s' n + 8) with (enc l' w' s' (n + 1)) by (unfold enc; lia).
    pose proof (enc_range l' w' s' (n + 1)). apply swrap_small; [unfold is_sint; lia|lia]. }
  destruct aw; [rewrite Haw by done|]; destruct l, s, st; simpl; rewrite ?E; autorewrite with word;
    rewrite ?Z.add_0_r, ?andb_true_r; reflexivity.
Qed.

Lemma enc_eqb l w s n l' w' s' n' : enc l w s n = enc l' w' s' n' →
  l' = l ∧ w' = w ∧ s' = s ∧ n' = n.
Proof. intros E. by destruct (enc_inj _ _ _ _ _ _ _ _ E) as (-> & -> & -> & ->). Qed.

Definition inv (m : Mutex) (ts : list pc) : Prop := ∃ l w s n, consistent (len ts) m ts l w s n.

Section steps.
Context (m : Mutex) (ts : list pc) (i : nat).
Hypothesis Hk : len ts < 2 ^ 28 - 1.
Hypothesis Hinv : inv m ts.

(** The step gives a consistent state. *)
Definition good (r : Mutex * pc) : Prop := inv r.1 (<[i:=r.2]> ts).

Lemma good_consistent m' p q l w s n l' w' s' n' :
  consistent (len ts) m ts l w s n → ts !! i = Some p →
  state m' = enc l' w' s' n' → balanced l' w' s' n' (sema m') (<[i:=q]> ts) → local (len ts) q →
  (l' = false → w' = false → s' = false → 0 < n' →
    waker q ∨ (l = false ∧ w = false ∧ s = false ∧ 0 < n ∧ ¬ waker p)) →
  good (m', q).
Proof.
  intros. exists l', w', s', n'. cbn [fst snd]. unfold len. rewrite length_insert. by eapply consistent_step.
Qed.

(** A step that leaves the lock as it is and the balance. *)
Lemma good_local p q : ts !! i = Some p → ¬ waker p → local (len ts) q →
  held q = held p → queued q = queued p → woken q = woken p → taking q = taking p →
  waking q = waking p → handing q = handing p → awake q = awake p → good (m, q).
Proof.
  intros Hi Hp Hq ???????. destruct Hinv as (l & w & s & n & Hc).
  eapply good_consistent; [done|done|apply Hc| |done|tauto].
  destruct Hc as [_ Hb _ _]. unfold balanced in *. rewrite !(total_insert _ _ _ _ _ Hi).
  destruct s; simpl in *; lia.
Qed.

Ltac same := eapply good_local; [eassumption|simpl; tauto|simpl|reflexivity..].

Lemma LockFast_good : ts !! i = Some LockFast →
  good (if state m =? 0 then (set_state m mutexLocked, Held) else (m, SlowLoad false false)).
Proof.
  intros Hi. destruct (Z.eqb_spec (state m) 0) as [E|]; [|by same].
  destruct Hinv as (l & w & s & n & Hc). pose proof (con_bal Hc).
  rewrite (con_word Hc) in E. change 0 with (enc false false false 0) in E.
  destruct (enc_inj _ _ _ _ _ _ _ _ E) as (-> & -> & -> & ->).
  apply (good_consistent _ _ _ _ _ _ _ true false false 0 Hc Hi); [done| |done|done]. simpl. bal Hi.
Qed.

Lemma SlowLoad_good st aw : ts !! i = Some (SlowLoad st aw) → good (m, Slow st aw (state m)).
Proof.
  intros Hi. same. destruct Hinv as (l & w & s & n & Hc). pose proof (con_local Hc _ _ Hi) as Hl.
  pose proof (con_bal Hc). split; [done|]. exists l, w, s, n.
  split_and!; [apply Hc|eapply balanced_waiters, Hc..|].
  intros ->. bal Hi.
Qed.

Lemma Slow_good st aw old b : ts !! i = Some (Slow st aw old) → good (lock_round m st aw old b).
Proof.
  intros Hi. destruct Hinv as (l & w & s & n & Hc). pose proof (con_bal Hc) as Hb.
  destruct (con_local Hc _ _ Hi) as (Hst & lo & wo & so & no & -> & Hno & Haw). pose proof (con_word Hc) as Hw.
  unfold lock_round. rewrite (lock_new_spec st aw lo wo so no) by (lia || apply Haw). autorewrite with word.
  destruct (Z.eqb_spec (state m) (enc lo wo so no)) as [E|]; cycle 1.
  { rewrite andb_false_r. repeat case_match; by same. }
  rewrite Hw in E. destruct (enc_inj _ _ _ _ _ _ _ _ E) as (-> & -> & -> & ->).
  destruct (_ && b) eqn:Hspin.
  - destruct (negb aw && _ && _ && _) eqn:Hset; simpl; [|by same].
    apply (good_consistent _ _ _ _ _ _ _ lo true so no Hc Hi); [done| |done|done].
    simpl. assert (aw = false ∧ wo = false ∧ so = false) as (-> & -> & ->) by (destruct aw, wo, lo, so; done).
    bal Hi.
  - destruct (_ =? 0) eqn:Hfree; simpl.
    + assert (lo = false ∧ so = false) as (-> & ->) by (destruct lo, so; done).
      apply (good_consistent _ _ _ _ _ _ _ true (wo && negb aw) false (no + 0) Hc Hi); [by destruct st| |done|done].
      simpl. bal Hi.
    + eapply (good_consistent _ _ _ _ _ _ _ _ _ _ _ Hc Hi); [done| |done|]; simpl.
      * bal Hi.
      * destruct lo, so; done.
Qed.

Lemma SemWait_good st late : ts !! i = Some (SemWait st) → 0 < sema m →
  good (MkMutex (state m) (sema m - 1), Woken (st || late)).
Proof.
  intros Hi Ht. destruct Hinv as (l & w & s & n & Hc). pose proof (con_bal Hc) as Hb.
  apply (good_consistent _ _ _ _ _ _ _ l w s n Hc Hi); [apply Hc| |done|tauto]. simpl. bal Hi.
Qed.

(** A goroutine that wakes up in the starvation mode finds the lock free and itself a waiter. *)
Lemma Woken_word st l w s n : consistent (len ts) m ts l w s n → ts !! i = Some (Woken st) →
  if s then l = false ∧ w = false ∧ 0 < n else w = true.
Proof. intros Hc Hi. pose proof (con_bal Hc) as Hb. bal Hi. Qed.

Lemma Woken_good st : ts !! i = Some (Woken st) → good (m, woken_step m st).
Proof.
  intros Hi. destruct Hinv as (l & w & s & n & Hc). pose proof (con_bal Hc) as Hb.
  pose proof (Woken_word _ _ _ _ _ Hc Hi) as Hs. pose proof (balanced_waiters _ _ _ _ _ _ Hb).
  unfold woken_step. rewrite (con_word Hc). autorewrite with word. destruct s; simpl.
  - destruct Hs as (-> & -> & Hn). simpl. destruct (Z.eqb_spec n 0); [lia|].
    apply (good_consistent _ _ _ _ _ _ _ false false true n Hc Hi); [apply Hc| | |done].
    + simpl. bal Hi.
    + destruct (negb st || _); [right|left]; reflexivity.
  - subst w. apply (good_consistent _ _ _ _ _ _ _ l true false n Hc Hi); [apply Hc| | |done].
    + simpl. bal Hi.
    + split; [done|]. exists l, true, false, n. split_and!; (done || lia).
Qed.

Lemma WokenAdd_good delta : ts !! i = Some (WokenAdd delta) →
  good (set_state m (i32 (state m + delta)), Held).
Proof.
  intros Hi. destruct Hinv as (l & w & s & n & Hc). pose proof (con_bal Hc) as Hb.
  pose proof (balanced_waiters _ _ _ _ _ _ Hb) as Hn. rewrite (con_word Hc).
  assert (l = false ∧ w = false ∧ s = true ∧ 0 < n) as (-> & -> & -> & Hn0) by (clear Hc; bal Hi).
  assert (∀ x, enc false false true n + delta = x → 0 ≤ x < 2 ^ 31 → i32 (enc false false true n + delta) = x) as Hi32.
  { intros x -> Hx. apply swrap_small; [unfold is_sint; lia|lia]. }
  pose proof (enc_range true false true (n - 1)). pose proof (enc_range true false false (n - 1)).
  destruct (con_local Hc _ _ Hi) as [-> | ->].
  - apply (good_consistent _ _ _ _ _ _ _ true false true (n - 1) Hc Hi); [| |done|done].
    + simpl. apply Hi32; [unfold enc; simpl|]; lia.
    + simpl. bal Hi.
  - apply (good_consistent _ _ _ _ _ _ _ true false false (n - 1) Hc Hi); [| |done|done].
    + simpl. apply Hi32; [unfold enc; simpl|]; lia.
    + simpl. bal Hi.
Qed.

Lemma TryLoad_good : ts !! i = Some TryLoad →
  good (if negb (Z.land (state m) (Z.lor mutexLocked mutexStarving) =? 0) then (m, Idle)
        else (m, TryCAS (state m))).
Proof.
  intros Hi. case_match eqn:E; [by same|]. same. destruct Hinv as (l & w & s & n & Hc).
  rewrite (con_word Hc) in E |- *. autorewrite with word in E. exists w, n.
  split; [by destruct l, s|]. eapply balanced_waiters, Hc.
Qed.

Lemma TryCAS_good old : ts !! i = Some (TryCAS old) →
  good (if state m =? old then (set_state m (Z.lor old mutexLocked), Held) else (m, Idle)).
Proof.
  intros Hi. destruct (Z.eqb_spec (state m) old) as [E|]; [|by same].
  destruct Hinv as (l & w & s & n & Hc). pose proof (con_bal Hc) as Hb.
  destruct (con_local Hc _ _ Hi) as (wo & no & -> & Hno). rewrite (con_word Hc) in E.
  destruct (enc_inj _ _ _ _ _ _ _ _ E) as (-> & -> & -> & ->). autorewrite with word.
  apply (good_consistent _ _ _ _ _ _ _ true wo false no Hc Hi); [done| |done|done]. simpl. bal Hi.
Qed.

(** [Unlock] clears the bit of the lock. *)
Lemma unlock_word w s n : 0 ≤ n < 2 ^ 28 - 1 → state m = enc true w s n →
  unlock_step m = (set_state m (enc false w s n),
    if (n =? 0) && negb w && negb s then Idle
    else if s then Release true else UnlockSlow (enc false w s n)).
Proof.
  intros Hn Hw. unfold unlock_step. rewrite Hw.
  pose proof (enc_range false w s n). pose proof (enc_range true w s n).
  assert (i32 (enc true w s n - mutexLocked) = enc false w s n) as ->.
  { assert (enc true w s n - mutexLocked = enc false w s n) as -> by (unfold enc, mutexLocked; simpl; lia).
    apply swrap_small; [unfold is_sint; lia|lia]. }
  assert (i32 (enc false w s n + mutexLocked) = enc true w s n) as ->.
  { assert (enc false w s n + mutexLocked = enc true w s n) as -> by (unfold enc, mutexLocked; simpl; lia).
    apply swrap_small; [unfold is_sint; lia|lia]. }
  autorewrite with word.
  assert ((enc false w s n =? 0) = (n =? 0) && negb w && negb s) as ->.
  { unfold enc. destruct w, s; simpl; lia. }
  destruct (_ && negb s); [done|]. by destruct s.
Qed.

Lemma unlock_good : ts !! i = Some Held → good (unlock_step m).
Proof.
  intros Hi. destruct Hinv as (l & w & s & n & Hc). pose proof (con_bal Hc) as Hb.
  pose proof (balanced_waiters _ _ _ _ _ _ Hb) as Hn.
  assert (l = true) as -> by (clear Hc; bal Hi).
  rewrite (unlock_word w s n) by (apply Hc || lia).
  eapply (good_consistent _ _ _ _ _ _ _ false w s n Hc Hi); [done| | |].
  - simpl. clear Hc. destruct (n =? 0) eqn:E; destruct w, s; simpl; bal Hi.
  - destruct (_ && negb s), s; try done; exists false, w, false, n; split; (done || lia).
  - intros _ -> -> ?. left. destruct (Z.eqb_spec n 0); [lia|]. simpl. by exists n.
Qed.

Lemma UnlockLoad_good : ts !! i = Some UnlockLoad → good (m, UnlockSlow (state m)).
Proof.
  intros Hi. destruct Hinv as (l & w & s & n & Hc). pose proof (con_bal Hc) as Hb.
  pose proof (balanced_waiters _ _ _ _ _ _ Hb) as Hn. rewrite (con_word Hc).
  apply (good_consistent _ _ _ _ _ _ _ l w s n Hc Hi); [apply Hc| | |].
  - simpl. bal Hi.
  - by exists l, w, s, n.
  - intros -> -> -> ?. left. by exists n.
Qed.

Lemma UnlockSlow_good old : ts !! i = Some (UnlockSlow old) → good (unlock_round m old).
Proof.
  intros Hi. destruct Hinv as (l & w & s & n & Hc). pose proof (con_bal Hc) as Hb.
  destruct (con_local Hc _ _ Hi) as (lo & wo & so & no & -> & Hno). pose proof (con_word Hc) as Hw.
  unfold unlock_round. autorewrite with word. destruct (_ || _) eqn:E.
  { eapply good_local; [done| |done..]. intros (no' & Eo & ?).
    destruct (enc_inj _ _ _ _ _ _ _ _ Eo) as (-> & -> & -> & ->). simpl in E. lia. }
  assert (lo = false ∧ wo = false ∧ so = false ∧ 0 < no) as (-> & -> & -> & Hno0).
  { destruct lo, wo, so; simpl in E; split_and!; (done || lia). }
  assert (i32 (enc false false false no - Z.shiftl 1 mutexWaiterShift) = enc false false false (no - 1)) as ->.
  { pose proof (enc_range false false false (no - 1)). change (Z.shiftl 1 mutexWaiterShift) with 8.
    replace (enc false false false no - 8) with (enc false false false (no - 1)) by (unfold enc; lia).
    apply swrap_small; [unfold is_sint; lia|lia]. }
  autorewrite with word. destruct (Z.eqb_spec (state m) (enc false false false no)) as [Ew|].
  - rewrite Hw in Ew. destruct (enc_inj _ _ _ _ _ _ _ _ Ew) as (-> & -> & -> & ->).
    apply (good_consistent _ _ _ _ _ _ _ false true false (no - 1) Hc Hi); [done| |done|done].
    simpl. bal Hi.
  - apply (good_consistent _ _ _ _ _ _ _ l w s n Hc Hi); [done| |done|by left].
    simpl. clear Hc. bal Hi.
Qed.

Lemma Release_good h : ts !! i = Some (Release h) → good (MkMutex (state m) (sema m + 1), Idle).
Proof.
  intros Hi. destruct Hinv as (l & w & s & n & Hc). pose proof (con_bal Hc) as Hb.
  apply (good_consistent _ _ _ _ _ _ _ l w s n Hc Hi); [apply Hc| |done|].
  - simpl. clear Hc. bal Hi.
  - intros -> -> -> ?. right. tauto.
Qed.

(** Every step of a goroutine keeps the invariant. *)
Lemma tstep_good p a r : ts !! i = Some p → tstep m p a = Some r → good r.
Proof.
  intros Hi Ht. destruct p, a; simpl in Ht; try discriminate; try (injection Ht as <-; by same).
  - pose proof (LockFast_good Hi) as H. case_match; injection Ht as <-; done.
  - injection Ht as <-. by apply SlowLoad_good.
  - injection Ht as <-. by apply Slow_good.
  - case_match; [|done]. injection Ht as <-. apply SemWait_good; [done|lia].
  - injection Ht as <-. by apply Woken_good.
  - injection Ht as <-. by apply WokenAdd_good.
  - pose proof (TryLoad_good Hi) as H. case_match; injection Ht as <-; done.
  - pose proof (TryCAS_good _ Hi) as H. case_match; injection Ht as <-; done.
  - injection Ht as <-. by apply unlock_good.
  - injection Ht as <-. by apply UnlockSlow_good.
  - injection Ht as <-. by apply UnlockLoad_good.
  - injection Ht as <-. by eapply Release_good.
Qed.
End steps.


(** ** Every reachable state *)

Section reachable.
Context (N : nat) (c : config Mutex pc).
Hypothesis HN : Z.of_nat N < 2 ^ 28 - 1.
Hypothesis Hc : reachable tstep (start N) c.

Lemma start_inv : inv (shared (start N)) (threads (start N)).
Proof.
  exists false, false, false, 0. split; try done.
  - unfold balanced. simpl. rewrite !total_replicate. simpl. lia.
  - intros i p [-> _]%lookup_replicate. done.
Qed.

Lemma reachable_inv : inv (shared c) (threads c) ∧ length (threads c) = N.
Proof.
  revert Hc. apply (invariant tstep (λ c, inv (shared c) (threads c) ∧ length (threads c) = N)).
  - split; [apply start_inv|]. apply length_replicate.
  - intros c1 c2 [Hinv Hl] Hstep. destruct Hstep as [m ts i p a m' p' Hi Ht]. simpl in *.
    rewrite length_insert. split; [|done].
    apply (tstep_good m ts i ltac:(unfold len; lia) Hinv p a (m', p') Hi Ht).
Qed.

Lemma reachable_consistent : ∃ l w s n, consistent (Z.of_nat N) (shared c) (threads c) l w s n.
Proof.
  destruct reachable_inv as [(l & w & s & n & H) Hl]. exists l, w, s, n. revert H. unfold len. by rewrite Hl.
Qed.

Lemma held_once i j : threads c !! i = Some Held → threads c !! j = Some Held → i = j.
Proof.
  intros Hi Hj. destruct (decide (i = j)) as [|Hij]; [done|].
  destruct reachable_consistent as (l & w & s & n & H). pose proof (con_bal H) as Hb.
  pose proof (total_two held _ _ _ _ _ ltac:(by intros []) Hij Hi Hj) as H2. simpl in H2.
  unfold balanced in Hb. destruct l, s; simpl in Hb; lia.
Qed.

Lemma unlock_unlocked : (∀ i, threads c !! i ≠ Some Held) → (unlock_step (shared c)).2 = Fatal.
Proof.
  intros Hno. destruct reachable_consistent as (l & w & s & n & H).
  pose proof (con_bal H) as Hb. pose proof (balanced_waiters _ _ _ _ _ _ Hb) as Hn.
  assert (total held (threads c) = 0) as Ht.
  { pose proof (counts_nonneg (threads c)). destruct (decide (0 < total held (threads c))) as [Hp|]; [|lia].
    destruct (total_pos _ _ Hp) as (i & p & Hi & ?). destruct p; try done. by destruct (Hno i). }
  assert (l = false) as -> by (unfold balanced in Hb; destruct l, s; simpl in Hb; done || lia).
  unfold unlock_step. rewrite (con_word H). pose proof (enc_range false w s n) as Hr.
  assert (len (threads c) = Z.of_nat N) as Hl by (unfold len; by rewrite (proj2 reachable_inv)).
  assert (i32 (enc false w s n - mutexLocked) = enc false w s n - 1) as ->.
  { apply swrap_small; [unfold is_sint, mutexLocked; lia|lia]. }
  assert (i32 (enc false w s n - 1 + mutexLocked) = enc false w s n) as ->.
  { unfold mutexLocked. rewrite Z.sub_add. apply swrap_small; [unfold is_sint; lia|lia]. }
  autorewrite with word.
  assert ((enc false w s n - 1 =? 0) = false) as -> by (unfold enc; destruct w, s; simpl; lia). done.
Qed.

(** Who can wake a waiter. *)
Definition runs (p : pc) : Prop := p = Held ∨ is_Some (tstep (shared c) p (Run true)).

Lemma counted_runs f : 0 < total f (threads c) → (∀ p, 0 < f p → runs p) →
  ∃ j q, threads c !! j = Some q ∧ runs q.
Proof. intros (j & q & Hj & Hq)%total_pos Hf. eauto. Qed.

Lemma waiter_wakes i st : threads c !! i = Some (SemWait st) → sema (shared c) = 0 →
  ∃ j q, threads c !! j = Some q ∧ runs q.
Proof.
  intros Hi Ht. destruct reachable_consistent as (l & w & s & n & H). pose proof (con_bal H) as Hb.
  destruct (counts_at _ _ _ Hi) as (Hh & Hq & Hwo & Hta & Hwa & Hha & Haw).
  destruct (decide (0 < total held (threads c))); [eapply counted_runs; [done|]; intros []; by try (by left)|].
  destruct (decide (0 < total woken (threads c))); [eapply counted_runs; [done|]; intros []; by try (by right)|].
  destruct (decide (0 < total taking (threads c))); [eapply counted_runs; [done|]; intros []; by try (by right)|].
  destruct (decide (0 < total waking (threads c))); [eapply counted_runs; [done|]; intros []; by try (by right)|].
  destruct (decide (0 < total handing (threads c))); [eapply counted_runs; [done|]; intros []; by try (by right)|].
  destruct (decide (0 < total awake (threads c))); [eapply counted_runs; [done|]; intros []; by try (by right)|].
  unfold balanced in Hb. simpl in *. rewrite Ht in Hb. destruct l, w, s; simpl in Hb; try lia.
  destruct (con_waker H) as (j & q & Hj & Hwk); [done..|lia|]. exists j, q. split; [done|]. right.
  destruct q; simpl in Hwk; try done.
Qed.
End reachable.

(** * Mutual exclusion and progress *)

(** C19: [Mutex] is safe in every state that any number of goroutines reach by any
    interleaving of [Lock], [TryLock] and [Unlock], in its normal and in its
    starvation mode: at most one of them holds the lock; none of them ever meets
    the inconsistent states for which the code throws; and when nobody holds the
    lock, an [Unlock] is the fatal error "unlock of unlocked mutex", whatever the
    number of waiters and the mode. *)
Theorem Mutex_exclusion (N : nat) (c : config Mutex pc) :
  Z.of_nat N < 2 ^ 28 - 1 → reachable tstep (start N) c →
  (∀ i j, threads c !! i = Some Held → threads c !! j = Some Held → i = j) ∧
  (∀ i, threads c !! i ≠ Some Fatal) ∧
  ((∀ i, threads c !! i ≠ Some Held) → (unlock_step (shared c)).2 = Fatal).
Proof.
  intros HN Hc. split_and!.
  - by eapply held_once.
  - intros i Hi. destruct (reachable_consistent N c HN Hc) as (l & w & s & n & H).
    by apply (con_local H) in Hi.
  - by eapply unlock_unlocked.
Qed.

(** C20: No wake-up is lost: when a goroutine sleeps in [Lock] on the semaphore and
    no token is there for it, some other goroutine holds the lock (and its
    [Unlock] is still to come) or is inside a method and can take a step; the
    goroutines never all sleep while the lock is free. *)
Theorem Mutex_progress (N : nat) (c : config Mutex pc) i st :
  Z.of_nat N < 2 ^ 28 - 1 → reachable tstep (start N) c →
  threads c !! i = Some (SemWait st) → sema (shared c) = 0 →
  ∃ j q, j ≠ i ∧ threads c !! j = Some q ∧
    (q = Held ∨ is_Some (tstep (shared c) q (Run true))).
Proof.
  intros HN Hc Hi Ht. destruct (waiter_wakes N c HN Hc i st Hi Ht) as (j & q & Hj & Hq).
  exists j, q. split_and!; [|done|done]. intros ->. rewrite Hi in Hj. injection Hj as <-.
  destruct Hq as [|[r Hr]]; [done|]. simpl in Hr. by rewrite Ht in Hr.
Qed.

(** Two goroutines: the second one goes to sleep while the first one holds the lock. *)
Definition contended : list (nat * act) :=
  [(0%nat, CallLock); (0%nat, Run false); (1%nat, CallLock); (1%nat, Run false); (1%nat, Run false);
   (1%nat, Run false)].

(** Then the lock is released, the sleeper is woken late, loses the race against
    the first goroutine, and switches the lock to the starvation mode; it gets the
    lock from the next [Unlock]. *)
Definition starved : list (nat * act) :=
  contended ++
  [(0%nat, CallUnlock); (0%nat, Run true); (0%nat, Run true); (0%nat, CallTryLock); (0%nat, Run true);
   (0%nat, Run true); (1%nat, Run true); (1%nat, Run true); (1%nat, Run false);
   (0%nat, CallUnlock); (0%nat, Run true); (1%nat, Run true); (1%nat, Run true); (1%nat, Run true)].

Lemma Mutex_exclusion_witness :
  run tstep starved (start 2) = Some (Config (MkMutex 1 0) [Idle; Held]) ∧
  [Idle; Held] !! 1%nat = Some Held ∧ 1%nat = 1%nat.
Proof.
  assert (run tstep starved (start 2) = Some (Config (MkMutex 1 0) [Idle; Held])) as H
    by (vm_compute; reflexivity).
  split; [exact H|]. split; [reflexivity|].
  apply (Mutex_exclusion 2 (Config (MkMutex 1 0) [Idle; Held])); [lia| |reflexivity..].
  by apply (run_reachable tstep starved).
Defined.

Lemma Mutex_progress_witness :
  ∃ j q, j ≠ 1%nat ∧ [Held; SemWait false] !! j = Some q ∧
    (q = Held ∨ is_Some (tstep (MkMutex 9 0) q (Run true))).
Proof.
  apply (Mutex_progress 2 (Config (MkMutex 9 0) [Held; SemWait false]) 1%nat false); [lia| |reflexivity..].
  apply (run_reachable tstep contended). vm_compute. reflexivity.
Defined.
