(* ===== verification/RWMutex.v ===== *)
(** * sync: RWMutex

    The reader/writer lock (sync/rwmutex.go) as the steps of its goroutines. The
    shared state is the mutex [w], the two counters and the tokens of the two
    semaphores. [w] is the abstract lock that [MutexProofs.Mutex_exclusion] shows
    Mutex to be: [Lock] waits until it is free, [TryLock] may fail for any reason,
    [Unlock] frees it. A goroutine is at one of the points between two accesses
    to the shared state. *)

From S2P Require Import Prelude Threads.

Record RWMutex := MkRW {
  w : bool; writerSem : Z; readerSem : Z; readerCount : Z; readerWait : Z }.

Definition set_w (m : RWMutex) (v : bool) : RWMutex :=
  MkRW v (writerSem m) (readerSem m) (readerCount m) (readerWait m).
Definition set_writerSem (m : RWMutex) (v : Z) : RWMutex :=
  MkRW (w m) v (readerSem m) (readerCount m) (readerWait m).
Definition set_readerSem (m : RWMutex) (v : Z) : RWMutex :=
  MkRW (w m) (writerSem m) v (readerCount m) (readerWait m).
Definition set_readerCount (m : RWMutex) (v : Z) : RWMutex :=
  MkRW (w m) (writerSem m) (readerSem m) v (readerWait m).
Definition set_readerWait (m : RWMutex) (v : Z) : RWMutex :=
  MkRW (w m) (writerSem m) (readerSem m) (readerCount m) v.

Definition rwmutexMaxReaders : Z := Z.shiftl 1 30.

Inductive rwpc :=
  | RIdle
  | RLockAdd                          (* RLock: [readerCount.Add(1)] *)
  | RSemWait                          (* in runtime_SemacquireRWMutexR *)
  | Reading                           (* RLock or TryRLock has returned *)
  | RWaitDec                          (* rUnlockSlow: [readerWait.Add(-1)] *)
  | RRelease                          (* about to release [writerSem] *)
  | TryRLoad | TryRCAS (c : Z)        (* TryRLock *)
  | WLock                             (* Lock: in [w.Lock()] *)
  | WAnnounce                         (* Lock: [readerCount.Add(-rwmutexMaxReaders)] *)
  | WAddWait (r : Z)                  (* Lock: [readerWait.Add(r)] *)
  | WSemWait                          (* in runtime_SemacquireRWMutex *)
  | Writing                           (* Lock or TryLock has returned *)
  | WRelease (i r : Z)                (* Unlock: the loop *)
  | TryWLock | TryWCAS | TryWUnlock   (* TryLock *)
  | RWFatal.

(** A call of a method, or a step of the running goroutine; [answer] decides
    whether [w.TryLock] succeeds on a free lock. *)
Inductive rwact := CallRLock | CallTryRLock | CallRUnlock | CallLock | CallTryLock | CallUnlock
  | Run (answer : bool).

Definition RLock_add (m : RWMutex) : RWMutex * rwpc :=
  let r := i32 (readerCount m + 1) in
  (set_readerCount m r, if r <? 0 then RSemWait else Reading).

Definition TryRLock_load (m : RWMutex) : RWMutex * rwpc :=
  let c := readerCount m in (m, if c <? 0 then RIdle else TryRCAS c).

Definition TryRLock_cas (m : RWMutex) (c : Z) : RWMutex * rwpc :=
  if readerCount m =? c then (set_readerCount m (i32 (c + 1)), Reading) else (m, TryRLoad).

Definition rUnlockSlow (r : Z) : rwpc :=
  if (i32 (r + 1) =? 0) || (i32 (r + 1) =? - rwmutexMaxReaders) then RWFatal else RWaitDec.

Definition RUnlock_add (m : RWMutex) : RWMutex * rwpc :=
  let r := i32 (readerCount m - 1) in
  (set_readerCount m r, if r <? 0 then rUnlockSlow r else RIdle).

Definition rUnlockSlow_wait (m : RWMutex) : RWMutex * rwpc :=
  let r := i32 (readerWait m - 1) in
  (set_readerWait m r, if r =? 0 then RRelease else RIdle).

Definition Lock_announce (m : RWMutex) : RWMutex * rwpc :=
  let c := i32 (readerCount m - rwmutexMaxReaders) in
  let r := i32 (c + rwmutexMaxReaders) in
  (set_readerCount m c, if negb (r =? 0) then WAddWait r else Writing).

Definition Lock_wait (m : RWMutex) (r : Z) : RWMutex * rwpc :=
  let v := i32 (readerWait m + r) in
  (set_readerWait m v, if negb (v =? 0) then WSemWait else Writing).

Definition TryLock_cas (m : RWMutex) : RWMutex * rwpc :=
  if readerCount m =? 0 then (set_readerCount m (- rwmutexMaxReaders), Writing) else (m, TryWUnlock).

Definition Unlock_add (m : RWMutex) : RWMutex * rwpc :=
  let r := i32 (readerCount m + rwmutexMaxReaders) in
  (set_readerCount m r, if rwmutexMaxReaders <=? r then RWFatal else WRelease 0 r).

Definition Unlock_round (m : RWMutex) (i r : Z) : RWMutex * rwpc :=
  if i <? r then (set_readerSem m (readerSem m + 1), WRelease (i + 1) r)
  else (set_w m false, RIdle).

Definition rwstep (m : RWMutex) (p : rwpc) (a : rwact) : option (RWMutex * rwpc) :=
  match p, a with
  | RIdle, CallRLock => Some (m, RLockAdd)
  | RIdle, CallTryRLock => Some (m, TryRLoad)
  | Reading, CallRUnlock => Some (RUnlock_add m)
  | RIdle, CallLock => Some (m, WLock)
  | RIdle, CallTryLock => Some (m, TryWLock)
  | Writing, CallUnlock => Some (Unlock_add m)
  | RLockAdd, Run _ => Some (RLock_add m)
  | RSemWait, Run _ =>
      if 0 <? readerSem m then Some (set_readerSem m (readerSem m - 1), Reading) else None
  | RWaitDec, Run _ => Some (rUnlockSlow_wait m)
  | RRelease, Run _ => Some (set_writerSem m (writerSem m + 1), RIdle)
  | TryRLoad, Run _ => Some (TryRLock_load m)
  | TryRCAS c, Run _ => Some (TryRLock_cas m c)
  | WLock, Run _ => if w m then None else Some (set_w m true, WAnnounce)
  | WAnnounce, Run _ => Some (Lock_announce m)
  | WAddWait r, Run _ => Some (Lock_wait m r)
  | WSemWait, Run _ =>
      if 0 <? writerSem m then Some (set_writerSem m (writerSem m - 1), Writing) else None
  | WRelease i r, Run _ => Some (Unlock_round m i r)
  | TryWLock, Run answer =>
      if w m || negb answer then Some (m, RIdle) else Some (set_w m true, TryWCAS)
  | TryWCAS, Run _ => Some (TryLock_cas m)
  | TryWUnlock, Run _ => Some (set_w m false, RIdle)
  | _, _ => None
  end.

Definition syscall_hasWaitingReaders (m : RWMutex) : bool :=
  let r := readerCount m in (r <? 0) && (0 <? i32 (r + rwmutexMaxReaders)).

(** [n] goroutines and the zero value of the lock. *)
Definition rwstart (n : nat) : config RWMutex rwpc :=
  Config (MkRW false 0 0 0 0) (replicate n RIdle).
