(* ===== verification/RWMutexProofs.v ===== *)
(** * RWMutex: the invariant of its goroutines

    The counters of the lock as counts of goroutines: which readers a writer
    still waits for, which ones wait for the writer, and who owes whom a token. *)

From stdpp Require Import relations.
From S2P Require Import Prelude Threads RWMutex.


(** ** How many goroutines are where *)

Definition reading (p : rwpc) : Z := match p with Reading => 1 | _ => 0 end.
Definition blocked (p : rwpc) : Z := match p with RSemWait => 1 | _ => 0 end.
Definition departing (p : rwpc) : Z := match p with RWaitDec => 1 | _ => 0 end.
Definition releasing (p : rwpc) : Z := match p with RRelease => 1 | _ => 0 end.
Definition starting (p : rwpc) : Z := match p with WAnnounce | TryWCAS | TryWUnlock => 1 | _ => 0 end.
Definition adding (p : rwpc) : Z := match p with WAddWait _ => 1 | _ => 0 end.
Definition sleeping (p : rwpc) : Z := match p with WSemWait => 1 | _ => 0 end.
Definition writing (p : rwpc) : Z := match p with Writing => 1 | _ => 0 end.
Definition freeing (p : rwpc) : Z := match p with WRelease _ _ => 1 | _ => 0 end.

(** The readers an announced writer must wait for, less the count that says so;
    the readers that sleep without a token; the tokens for the writer. *)
Definition debt (m : RWMutex) (ts : list rwpc) : Z :=
  total reading ts + readerSem m + total departing ts - readerWait m.
Definition unserved (m : RWMutex) (ts : list rwpc) : Z := total blocked ts - readerSem m.
Definition tokens (m : RWMutex) (ts : list rwpc) : Z := writerSem m + total releasing ts.

(** Where the goroutine is that owns [w], if there is one. *)
Inductive phase := NoWriter | Starting | Adding | Sleeping | InWrite | Freeing.
#[export] Instance phase_eq_dec : EqDecision phase.
Proof. solve_decision. Defined.

Definition writers (ts : list rwpc) (s a sl wr f : Z) : Prop :=
  total starting ts = s ∧ total adding ts = a ∧ total sleeping ts = sl ∧
  total writing ts = wr ∧ total freeing ts = f.

(** No writer is announced: nobody departs and there is no token for a writer. *)
Definition open (m : RWMutex) (ts : list rwpc) : Prop :=
  readerCount m = total reading ts + total blocked ts ∧
  readerWait m = 0 ∧ total departing ts = 0 ∧ tokens m ts = 0.
Definition closed (m : RWMutex) (ts : list rwpc) : Prop :=
  readerCount m = total reading ts + total blocked ts - 2 ^ 30.

Definition balanced (h : phase) (m : RWMutex) (ts : list rwpc) : Prop :=
  0 ≤ writerSem m ∧ 0 ≤ readerSem m ∧ 0 ≤ unserved m ts ∧
  match h with
  | NoWriter => Z.b2z (w m) = 0 ∧ writers ts 0 0 0 0 0 ∧ open m ts ∧ unserved m ts = 0
  | Starting => Z.b2z (w m) = 1 ∧ writers ts 1 0 0 0 0 ∧ open m ts ∧ unserved m ts = 0
  | Adding => Z.b2z (w m) = 1 ∧ writers ts 0 1 0 0 0 ∧ closed m ts ∧
      tokens m ts = 0 ∧ readerWait m ≤ 0 ∧ 0 < debt m ts ≤ len ts
  | Sleeping => Z.b2z (w m) = 1 ∧ writers ts 0 0 1 0 0 ∧ closed m ts ∧ debt m ts = 0 ∧
      ((0 < readerWait m ∧ tokens m ts = 0) ∨ (readerWait m = 0 ∧ tokens m ts = 1))
  | InWrite => Z.b2z (w m) = 1 ∧ writers ts 0 0 0 1 0 ∧ closed m ts ∧ debt m ts = 0 ∧
      readerWait m = 0 ∧ tokens m ts = 0
  | Freeing => Z.b2z (w m) = 1 ∧ writers ts 0 0 0 0 1 ∧ open m ts
  end.

Definition local (m : RWMutex) (ts : list rwpc) (p : rwpc) : Prop :=
  match p with
  | TryRCAS c => 0 ≤ c < 2 ^ 30
  | WAddWait r => r = debt m ts
  | WRelease i r => r - i = unserved m ts ∧ 0 ≤ i ≤ r
  | RWFatal => False
  | _ => True
  end.

Definition inv (m : RWMutex) (ts : list rwpc) : Prop :=
  (∃ h, balanced h m ts) ∧ ∀ i p, ts !! i = Some p → local m ts p.

Lemma rw_counts_at ts i p : ts !! i = Some p →
  (reading p ≤ total reading ts ∧ blocked p ≤ total blocked ts ∧ departing p ≤ total departing ts ∧
   releasing p ≤ total releasing ts ∧ starting p ≤ total starting ts) ∧
  (adding p ≤ total adding ts ∧ sleeping p ≤ total sleeping ts ∧ writing p ≤ total writing ts ∧
   freeing p ≤ total freeing ts).
Proof.
  intros Hi. split_and!; apply (total_at _ _ i); try done; intros q; destruct q; simpl; lia.
Qed.

Lemma rw_counts_nonneg ts :
  0 ≤ total reading ts ∧ 0 ≤ total blocked ts ∧ 0 ≤ total departing ts ∧ 0 ≤ total releasing ts.
Proof. split_and!; apply total_nonneg; intros q; destruct q; simpl; lia. Qed.

Lemma rw_counts_len ts : total reading ts + total blocked ts + total departing ts ≤ len ts.
Proof.
  rewrite <-total_len, <-!total_plus. apply total_mono. intros p. destruct p; simpl; lia.
Qed.

(** The only goroutine at a point. *)
Lemma others (f : rwpc → Z) ts i j p q : (∀ p, 0 ≤ f p) → i ≠ j → ts !! i = Some p → ts !! j = Some q →
  total f ts = f p → f q ≤ 0.
Proof. intros Hf Hij Hi Hj. pose proof (total_two f ts i j p q Hf Hij Hi Hj). lia. Qed.

Ltac unfold_counts := unfold local, balanced, writers, open, closed, tokens, debt, unserved in *.

Lemma count_range h m ts : balanced h m ts →
  - 2 ^ 30 ≤ readerCount m ≤ len ts ∧ - len ts ≤ readerWait m ≤ len ts.
Proof.
  intros Hb. pose proof (rw_counts_nonneg ts). pose proof (rw_counts_len ts).
  unfold_counts. destruct h; simpl in *; lia.
Qed.

Lemma i32_id x : - 2 ^ 31 ≤ x < 2 ^ 31 → i32 x = x.
Proof. intros. apply swrap_small; [unfold is_sint; lia|lia]. Qed.

Section steps.
Context (m : RWMutex) (ts : list rwpc) (i : nat).
Hypothesis Hk : len ts < 2 ^ 30 - 1.
Hypothesis Hinv : inv m ts.

Definition good (r : RWMutex * rwpc) : Prop := inv r.1 (<[i:=r.2]> ts).

(** A step of one goroutine keeps the invariant when it keeps the balance and
    does not touch what the others remember. *)
Lemma good_balanced h m' p q : ts !! i = Some p →
  balanced h m' (<[i:=q]> ts) → local m' (<[i:=q]> ts) q →
  (total adding ts = adding p ∨ debt m' (<[i:=q]> ts) = debt m ts) →
  (total freeing ts = freeing p ∨ unserved m' (<[i:=q]> ts) = unserved m ts) →
  good (m', q).
Proof.
  intros Hi Hb Hq Ha Hf. pose proof (lookup_lt_Some _ _ _ Hi). split; [by exists h|]. cbn [fst snd].
  intros j r. destruct (decide (i = j)) as [<-|Hij].
  - rewrite list_lookup_insert_eq by done. intros [= <-]. done.
  - rewrite list_lookup_insert_ne by done. intros Hj. pose proof (proj2 Hinv _ _ Hj) as Hr.
    destruct r; simpl in *; try done.
    + destruct Ha as [Ha|Ha]; [|by rewrite Ha].
      pose proof (others adding _ _ _ _ _ ltac:(intros []; simpl; lia) Hij Hi Hj Ha). simpl in *. lia.
    + destruct Hf as [Hf|Hf]; [|by rewrite Hf].
      pose proof (others freeing _ _ _ _ _ ltac:(intros []; simpl; lia) Hij Hi Hj Hf). simpl in *. lia.
Qed.

(** Arithmetic on the counts before and after the step of the goroutine [Hi] is about. *)
Ltac arith Hb Hi :=
  pose proof (rw_counts_at ts i _ Hi); pose proof (rw_counts_nonneg ts); pose proof (rw_counts_len ts);
  unfold_counts; unfold len in *; rewrite ?length_insert in *; rewrite ?(total_insert _ _ _ _ _ Hi); 
  simpl in *; lia.

Ltac good_in h Hb Hi := apply (good_balanced h _ _ _ Hi); (done || arith Hb Hi).

Lemma RLock_good : ts !! i = Some RLockAdd → good (RLock_add m).
Proof.
  intros Hi. destruct (proj1 Hinv) as [h Hb]. pose proof (count_range _ _ _ Hb). unfold RLock_add.
  rewrite i32_id by lia. destruct (Z.ltb_spec (readerCount m + 1) 0).
  all: destruct h; try (exfalso; arith Hb Hi).
  - good_in Adding Hb Hi.
  - good_in Sleeping Hb Hi.
  - good_in InWrite Hb Hi.
  - good_in NoWriter Hb Hi.
  - good_in Starting Hb Hi.
  - good_in Freeing Hb Hi.
Qed.

(** Steps that change neither the lock nor a count. *)
Definition outside (p : rwpc) : Prop :=
  match p with RIdle | RLockAdd | TryRLoad | TryRCAS _ | WLock | TryWLock => True | _ => False end.

Lemma outside_total f p q : ts !! i = Some p → f q = f p → total f (<[i:=q]> ts) = total f ts.
Proof. intros Hi E. rewrite (total_insert _ _ _ _ _ Hi), E. lia. Qed.

Lemma outside_good p q : ts !! i = Some p → outside p → outside q →
  local m (<[i:=q]> ts) q → good (m, q).
Proof.
  intros Hi Hp Hq Hl. destruct (proj1 Hinv) as [h Hb].
  assert (∀ f, f = reading ∨ f = blocked ∨ f = departing ∨ f = releasing ∨ f = starting ∨ f = adding ∨
    f = sleeping ∨ f = writing ∨ f = freeing → total f (<[i:=q]> ts) = total f ts) as E.
  { intros f Hf. apply (outside_total f p q Hi). 
    destruct Hf as [->|[->|[->|[->|[->|[->|[->|[->| ->]]]]]]]]; by destruct p, q. }
  apply (good_balanced h _ _ _ Hi); [|done|right|right]; unfold_counts; rewrite ?E by tauto; try done.
  unfold len in *. by rewrite length_insert.
Qed.

Lemma TryRLock_load_good : ts !! i = Some TryRLoad → good (TryRLock_load m).
Proof.
  intros Hi. destruct (proj1 Hinv) as [h Hb]. pose proof (count_range _ _ _ Hb). unfold TryRLock_load.
  apply (outside_good _ _ Hi); [done|by case_match|]. destruct (Z.ltb_spec (readerCount m) 0); simpl; [done|lia].
Qed.

Lemma TryRLock_cas_good c : ts !! i = Some (TryRCAS c) → good (TryRLock_cas m c).
Proof.
  intros Hi. pose proof (proj2 Hinv _ _ Hi) as Hc. simpl in Hc. unfold TryRLock_cas.
  destruct (Z.eqb_spec (readerCount m) c) as [<-|]; [|by apply (outside_good _ _ Hi)].
  rewrite i32_id by lia. destruct (proj1 Hinv) as [h Hb].
  destruct h; try (exfalso; arith Hb Hi).
  - good_in NoWriter Hb Hi.
  - good_in Starting Hb Hi.
  - good_in Freeing Hb Hi.
Qed.

Lemma RSemWait_good : ts !! i = Some RSemWait → 0 < readerSem m →
  good (set_readerSem m (readerSem m - 1), Reading).
Proof.
  intros Hi Ht. destruct (proj1 Hinv) as [h Hb]. apply (good_balanced h _ _ _ Hi); [|done|..].
  all: destruct h; arith Hb Hi.
Qed.

Lemma RUnlock_good : ts !! i = Some Reading → good (RUnlock_add m).
Proof.
  intros Hi. destruct (proj1 Hinv) as [h Hb]. pose proof (count_range _ _ _ Hb).
  unfold RUnlock_add, rUnlockSlow. rewrite !i32_id by lia. change rwmutexMaxReaders with (2 ^ 30).
  assert ((readerCount m - 1 + 1 =? - 2 ^ 30) = false) as -> by (destruct h; arith Hb Hi).
  assert ((readerCount m - 1 <? 0) = true → (readerCount m - 1 + 1 =? 0) = false) as Hz
    by (destruct h; arith Hb Hi).
  destruct (readerCount m - 1 <? 0) eqn:Hr; [rewrite Hz by done; simpl|].
  - destruct h; try (exfalso; arith Hb Hi); [good_in Adding Hb Hi|good_in Sleeping Hb Hi].
  - destruct h; try (exfalso; arith Hb Hi);
      [good_in NoWriter Hb Hi|good_in Starting Hb Hi|good_in Freeing Hb Hi].
Qed.

Lemma rUnlockSlow_good : ts !! i = Some RWaitDec → good (rUnlockSlow_wait m).
Proof.
  intros Hi. destruct (proj1 Hinv) as [h Hb]. pose proof (count_range _ _ _ Hb).
  unfold rUnlockSlow_wait. rewrite !i32_id by lia.
  destruct (Z.eqb_spec (readerWait m - 1) 0).
  all: destruct h; try (exfalso; arith Hb Hi).
  - good_in Sleeping Hb Hi.
  - good_in Adding Hb Hi.
  - good_in Sleeping Hb Hi.
Qed.

Lemma RRelease_good : ts !! i = Some RRelease → good (set_writerSem m (writerSem m + 1), RIdle).
Proof.
  intros Hi. destruct (proj1 Hinv) as [h Hb]. destruct h; try (exfalso; arith Hb Hi).
  good_in Sleeping Hb Hi.
Qed.

(** A goroutine takes [w]. *)
Lemma WLock_good p q : ts !! i = Some p → p = WLock ∧ q = WAnnounce ∨ p = TryWLock ∧ q = TryWCAS →
  w m = false → good (set_w m true, q).
Proof.
  intros Hi Hpq Hw. destruct (proj1 Hinv) as [h Hb]. destruct Hpq as [[-> ->]|[-> ->]].
  all: apply (good_balanced Starting _ _ _ Hi); [|done|..].
  all: destruct h; unfold balanced in Hb; rewrite Hw in Hb; clear Hw; arith Hb Hi.
Qed.

Lemma WAnnounce_good : ts !! i = Some WAnnounce → good (Lock_announce m).
Proof.
  intros Hi. destruct (proj1 Hinv) as [h Hb]. pose proof (count_range _ _ _ Hb).
  unfold Lock_announce. change rwmutexMaxReaders with (2 ^ 30).
  rewrite (i32_id (readerCount m - 2 ^ 30)) by lia. rewrite Z.sub_add, i32_id by lia.
  destruct h; try (exfalso; arith Hb Hi). destruct (Z.eqb_spec (readerCount m) 0); simpl.
  - apply (good_balanced InWrite _ _ _ Hi); [|done|..]; arith Hb Hi.
  - apply (good_balanced Adding _ _ _ Hi); arith Hb Hi.
Qed.

Lemma WAddWait_good r : ts !! i = Some (WAddWait r) → good (Lock_wait m r).
Proof.
  intros Hi. destruct (proj1 Hinv) as [h Hb]. pose proof (count_range _ _ _ Hb).
  pose proof (proj2 Hinv _ _ Hi) as Hr. simpl in Hr. unfold Lock_wait.
  destruct h; try (exfalso; arith Hb Hi). rewrite i32_id by (unfold balanced in Hb; lia).
  destruct (Z.eqb_spec (readerWait m + r) 0); simpl.
  - apply (good_balanced InWrite _ _ _ Hi); [|done|..]; arith Hb Hi.
  - apply (good_balanced Sleeping _ _ _ Hi); [|done|..]; arith Hb Hi.
Qed.

Lemma WSemWait_good : ts !! i = Some WSemWait → 0 < writerSem m →
  good (set_writerSem m (writerSem m - 1), Writing).
Proof.
  intros Hi Ht. destruct (proj1 Hinv) as [h Hb]. destruct h; try (exfalso; arith Hb Hi).
  apply (good_balanced InWrite _ _ _ Hi); [|done|..]; arith Hb Hi.
Qed.

Lemma Unlock_good : ts !! i = Some Writing → good (Unlock_add m).
Proof.
  intros Hi. destruct (proj1 Hinv) as [h Hb]. pose proof (count_range _ _ _ Hb).
  unfold Unlock_add. change rwmutexMaxReaders with (2 ^ 30). rewrite i32_id by lia.
  destruct h; try (exfalso; arith Hb Hi).
  destruct (Z.leb_spec (2 ^ 30) (readerCount m + 2 ^ 30)); [exfalso; arith Hb Hi|].
  apply (good_balanced Freeing _ _ _ Hi); arith Hb Hi.
Qed.

Lemma WRelease_good j r : ts !! i = Some (WRelease j r) → good (Unlock_round m j r).
Proof.
  intros Hi. destruct (proj1 Hinv) as [h Hb]. pose proof (proj2 Hinv _ _ Hi) as Hr. simpl in Hr.
  unfold Unlock_round. destruct h; try (exfalso; arith Hb Hi). destruct (Z.ltb_spec j r).
  - apply (good_balanced Freeing _ _ _ Hi); arith Hb Hi.
  - apply (good_balanced NoWriter _ _ _ Hi); [|done|..]; arith Hb Hi.
Qed.

Lemma TryWCAS_good : ts !! i = Some TryWCAS → good (TryLock_cas m).
Proof.
  intros Hi. destruct (proj1 Hinv) as [h Hb]. unfold TryLock_cas. change rwmutexMaxReaders with (2 ^ 30).
  destruct h; try (exfalso; arith Hb Hi). destruct (Z.eqb_spec (readerCount m) 0).
  - apply (good_balanced InWrite _ _ _ Hi); [|done|..]; arith Hb Hi.
  - apply (good_balanced Starting _ _ _ Hi); [|done|..]; arith Hb Hi.
Qed.

Lemma TryWUnlock_good : ts !! i = Some TryWUnlock → good (set_w m false, RIdle).
Proof.
  intros Hi. destruct (proj1 Hinv) as [h Hb]. destruct h; try (exfalso; arith Hb Hi).
  apply (good_balanced NoWriter _ _ _ Hi); [|done|..]; arith Hb Hi.
Qed.

(** Every step of a goroutine keeps the invariant. *)
Lemma rwstep_good p a r : ts !! i = Some p → rwstep m p a = Some r → good r.
Proof.
  intros Hi Ht. destruct p, a; simpl in Ht; try discriminate;
    try (injection Ht as <-; by apply (outside_good _ _ Hi)).
  - injection Ht as <-. by apply RLock_good.
  - case_match; [|done]. injection Ht as <-. apply RSemWait_good; [done|lia].
  - injection Ht as <-. by apply RUnlock_good.
  - injection Ht as <-. by apply rUnlockSlow_good.
  - injection Ht as <-. by apply RRelease_good.
  - injection Ht as <-. by apply TryRLock_load_good.
  - injection Ht as <-. by apply TryRLock_cas_good.
  - case_match; [done|]. injection Ht as <-. by apply (WLock_good _ _ Hi); [left|].
  - injection Ht as <-. by apply WAnnounce_good.
  - injection Ht as <-. by apply WAddWait_good.
  - case_match; [|done]. injection Ht as <-. apply WSemWait_good; [done|lia].
  - injection Ht as <-. by apply Unlock_good.
  - injection Ht as <-. by apply WRelease_good.
  - destruct (w m) eqn:Hw; simpl in Ht; [injection Ht as <-; by apply (outside_good _ _ Hi)|].
    case_match; injection Ht as <-; [by apply (outside_good _ _ Hi)|].
    by apply (WLock_good _ _ Hi); [right|].
  - injection Ht as <-. by apply TryWCAS_good.
  - injection Ht as <-. by apply TryWUnlock_good.
Qed.
End steps.


(** ** Every reachable state *)

Section reachable.
Context (N : nat) (c : config RWMutex rwpc).
Hypothesis HN : Z.of_nat N < 2 ^ 30 - 1.
Hypothesis Hc : reachable rwstep (rwstart N) c.
Notation m := (shared c).
Notation ts := (threads c).

Lemma rwstart_inv : inv (shared (rwstart N)) (threads (rwstart N)).
Proof.
  split.
  - exists NoWriter. unfold_counts. simpl. rewrite !total_replicate. simpl. lia.
  - intros i p [-> _]%lookup_replicate. done.
Qed.

Lemma rw_reachable_inv : inv m ts ∧ length ts = N.
Proof.
  revert Hc. apply (invariant rwstep (λ c, inv (shared c) (threads c) ∧ length (threads c) = N)).
  - split; [apply rwstart_inv|]. apply length_replicate.
  - intros c1 c2 [Hinv Hl] Hstep. destruct Hstep as [m0 ts0 i p a m' p' Hi Ht]. simpl in *.
    rewrite length_insert. split; [|done].
    apply (rwstep_good m0 ts0 i ltac:(unfold len; lia) Hinv p a (m', p') Hi Ht).
Qed.

Lemma reachable_phase : ∃ h, balanced h m ts.
Proof. apply rw_reachable_inv. Qed.

(** A goroutine that writes is the only one inside. *)
Lemma writing_phase i : ts !! i = Some Writing → balanced InWrite m ts.
Proof.
  intros Hi. destruct reachable_phase as [h Hb]. pose proof (rw_counts_at _ _ _ Hi).
  destruct h; try done; exfalso; unfold_counts; simpl in *; lia.
Qed.

Lemma writing_alone i j p : ts !! i = Some Writing → ts !! j = Some p →
  p = Reading ∨ p = Writing → i = j.
Proof.
  intros Hi Hj Hp. pose proof (writing_phase _ Hi) as Hb. destruct (decide (i = j)) as [|Hij]; [done|].
  exfalso. pose proof (rw_counts_at _ _ _ Hj). pose proof (rw_counts_nonneg ts).
  pose proof (total_two writing _ _ _ _ _ ltac:(intros []; simpl; lia) Hij Hi Hj).
  unfold_counts. destruct Hp as [-> | ->]; simpl in *; lia.
Qed.

Lemma waiting_readers i : ts !! i = Some Writing →
  syscall_hasWaitingReaders m = true ↔ ∃ j, ts !! j = Some RSemWait.
Proof.
  intros Hi. pose proof (writing_phase _ Hi) as Hb. pose proof (rw_counts_nonneg ts).
  pose proof (count_range _ _ _ Hb). pose proof (rw_counts_len ts).
  assert (len ts < 2 ^ 30 - 1) by (unfold len; rewrite (proj2 rw_reachable_inv); lia).
  unfold syscall_hasWaitingReaders. change rwmutexMaxReaders with (2 ^ 30). rewrite i32_id by lia.
  split.
  - intros Hw. destruct (total_pos blocked ts) as (j & p & Hj & Hp); [unfold_counts; lia|].
    exists j. by destruct p.
  - intros [j Hj]. pose proof (rw_counts_at _ _ _ Hj). unfold_counts. simpl in *. lia.
Qed.

(** Who moves. *)
Definition moves (p : rwpc) : Prop :=
  p = Reading ∨ p = Writing ∨ is_Some (rwstep m p (Run true)).

Lemma counted_moves f : 0 < total f ts → (∀ p, 0 < f p → moves p) → ∃ j q, ts !! j = Some q ∧ moves q.
Proof. intros (j & q & Hj & Hq)%total_pos Hf. eauto. Qed.

Ltac movers := eapply counted_moves; [eassumption|]; intros []; simpl; intros; try lia;
  unfold moves; simpl; eauto.

Lemma sleeping_moves : balanced Sleeping m ts → ∃ j q, ts !! j = Some q ∧ moves q.
Proof.
  intros Hb. pose proof (rw_counts_nonneg ts).
  destruct (decide (0 < total releasing ts)); [movers|].
  destruct (decide (0 < total reading ts)); [movers|].
  destruct (decide (0 < total departing ts)); [movers|].
  destruct (decide (0 < readerSem m)) as [Ht|].
  - assert (0 < total blocked ts) by (unfold_counts; lia). eapply counted_moves; [done|].
    intros [] ?; try done. right. right. simpl. rewrite (proj2 (Z.ltb_lt _ _)) by done. eauto.
  - assert (0 < writerSem m) by (unfold_counts; lia).
    assert (0 < total sleeping ts) by (unfold_counts; lia). eapply counted_moves; [done|].
    intros [] ?; try done. right. right. simpl. rewrite (proj2 (Z.ltb_lt _ _)) by done. eauto.
Qed.

Lemma owner_moves h : h ≠ NoWriter → balanced h m ts → ∃ j q, ts !! j = Some q ∧ moves q.
Proof.
  intros Hh Hb. destruct h; [done|..|by apply sleeping_moves| |].
  - assert (0 < total starting ts) by (unfold_counts; lia). movers.
  - assert (0 < total adding ts) by (unfold_counts; lia). movers.
  - assert (0 < total writing ts) by (unfold_counts; lia). movers.
  - assert (0 < total freeing ts) by (unfold_counts; lia). movers.
Qed.

Lemma someone_moves i p : ts !! i = Some p → p ≠ RIdle → ∃ j q, ts !! j = Some q ∧ moves q.
Proof.
  intros Hi Hp. destruct reachable_phase as [h Hb]. pose proof (rw_counts_at _ _ _ Hi).
  destruct (rwstep m p (Run true)) eqn:Hs; [exists i, p; split; [done|]; right; right; by rewrite Hs|].
  destruct (decide (h = NoWriter)) as [->|Hh]; [|by eapply owner_moves].
  unfold_counts. destruct p; simpl in *; try done; try lia.
  - destruct (Z.ltb_spec 0 (readerSem m)); [done|lia].
  - exists i, Reading. split; [done|by left].
  - destruct (w m); [simpl in *; lia|done].
  - by destruct (w m).
  - destruct (proj2 (proj1 rw_reachable_inv) _ _ Hi).
Qed.
End reachable.

(** * Exclusion and progress *)

(** C21: [RWMutex] is safe in every state that any number of goroutines reach by
    any interleaving of its six methods: a goroutine that holds the write lock is
    alone, no other one writes or reads; no call ends in a fatal error; and
    while the write lock is held, [syscall_hasWaitingReaders] says exactly whether
    a goroutine sleeps in [RLock]. *)
Theorem RWMutex_exclusion (N : nat) (c : config RWMutex rwpc) :
  Z.of_nat N < 2 ^ 30 - 1 → reachable rwstep (rwstart N) c →
  (∀ i j p, threads c !! i = Some Writing → threads c !! j = Some p →
    p = Reading ∨ p = Writing → i = j) ∧
  (∀ i, threads c !! i ≠ Some RWFatal) ∧
  (∀ i, threads c !! i = Some Writing →
    syscall_hasWaitingReaders (shared c) = true ↔ ∃ j, threads c !! j = Some RSemWait).
Proof.
  intros HN Hc. split_and!.
  - intros i j p. by eapply writing_alone.
  - intros i Hi. by destruct (proj2 (proj1 (rw_reachable_inv N c HN Hc)) i _ Hi).
  - intros i. by eapply waiting_readers.
Qed.

(** C22: The reader/writer lock never deadlocks: whenever some goroutine is inside
    a method (waiting for [w], asleep as a reader or as a writer, or anywhere
    else), some goroutine holds the lock (and its unlock is still to come) or can
    take a step. The tokens of the two semaphores are always enough to wake those
    who are entitled to run. *)
Theorem RWMutex_progress (N : nat) (c : config RWMutex rwpc) i p :
  Z.of_nat N < 2 ^ 30 - 1 → reachable rwstep (rwstart N) c →
  threads c !! i = Some p → p ≠ RIdle →
  ∃ j q, threads c !! j = Some q ∧
    (q = Reading ∨ q = Writing ∨ is_Some (rwstep (shared c) q (Run true))).
Proof. intros HN Hc Hi Hp. by eapply someone_moves. Qed.

(** A reader reads; a writer announces itself and sleeps; a second reader sleeps. *)
Definition queue : list (nat * rwact) :=
  [(0%nat, CallRLock); (0%nat, Run true); (1%nat, CallLock); (1%nat, Run true); (1%nat, Run true);
   (1%nat, Run true); (2%nat, CallRLock); (2%nat, Run true)].

(** The reader leaves and wakes the writer. *)
Definition handover : list (nat * rwact) :=
  queue ++ [(0%nat, CallRUnlock); (0%nat, Run true); (0%nat, Run true); (1%nat, Run true)].

Lemma RWMutex_exclusion_witness :
  let c := Config (MkRW true 0 0 (1 - 2 ^ 30) 0) [RIdle; Writing; RSemWait] in
  run rwstep handover (rwstart 3) = Some c ∧
  (syscall_hasWaitingReaders (shared c) = true ↔ ∃ j, threads c !! j = Some RSemWait).
Proof.
  intros c. assert (run rwstep handover (rwstart 3) = Some c) as H by (vm_compute; reflexivity).
  split; [exact H|]. apply (proj2 (proj2 (RWMutex_exclusion 3 c ltac:(lia)
    (run_reachable rwstep handover _ _ H))) 1%nat). reflexivity.
Defined.

Lemma RWMutex_progress_witness :
  let c := Config (MkRW true 0 0 (2 - 2 ^ 30) 1) [Reading; WSemWait; RSemWait] in
  ∃ j q, threads c !! j = Some q ∧
    (q = Reading ∨ q = Writing ∨ is_Some (rwstep (shared c) q (Run true))).
Proof.
  intros c. assert (run rwstep queue (rwstart 3) = Some c) as H by (vm_compute; reflexivity).
  apply (RWMutex_progress 3 c 2%nat RSemWait ltac:(lia) (run_reachable rwstep queue _ _ H));
    [reflexivity|discriminate].
Defined.
