(* ===== verification/Path.v ===== *)
(** * path: lexical processing of slash-separated paths

    The functions of path/path.go. A path is the list of its bytes. [Clean] fills
    a lazily allocated buffer, which is threaded through its loops. *)

From Stdlib Require Import String.
From stdpp Require Import base.
From S2P Require Import Prelude Bytealg.

(** ** The buffer of Clean *)

Record lazybuf := Lazybuf { s : list Z; buf : option (list Z); w : Z }.

Definition set_w (b : lazybuf) (w : Z) : lazybuf := Lazybuf (s b) (buf b) w.

Definition index (b : lazybuf) (i : Z) : res Z :=
  match buf b with Some buf => idx buf i | None => idx (s b) i end.

Definition append (b : lazybuf) (c : Z) : res lazybuf :=
  match buf b with
  | Some buf => buf ← store buf (w b) c; mret (Lazybuf (s b) (Some buf) (w b + 1))
  | None =>
      same ← andM (w b <? len (s b)) (x ← idx (s b) (w b); mret (x =? c));
      if same : bool then mret (set_w b (w b + 1)) else
      pre ← slice_to (s b) (w b);
      let buf := pre ++ replicate (Z.to_nat (len (s b) - w b)) 0 in
      buf ← store buf (w b) c;
      mret (Lazybuf (s b) (Some buf) (w b + 1))
  end.

Definition string (b : lazybuf) : res (list Z) :=
  match buf b with Some buf => slice_to buf (w b) | None => slice_to (s b) (w b) end.

(** ** Clean *)

(** [for out.w > dotdot && out.index(out.w) != '/' { out.w-- }] *)
Definition Clean_backtrack (out : lazybuf) (dotdot : Z) : res lazybuf :=
  loop (fuel_of (w out)) (λ out,
    more ← andM (dotdot <? w out) (c ← index out (w out); mret (negb (c =? chr "/")));
    if more : bool then mret (inl (set_w out (w out - 1))) else mret (inr out)) out.

(** [for ; r < n && path[r] != '/'; r++ { out.append(path[r]) }] *)
Definition Clean_copy (path : list Z) (out : lazybuf) (r : Z) : res (lazybuf * Z) :=
  loop (fuel_of (len path - r)) (λ '(out, r),
    more ← andM (r <? len path) (c ← idx path r; mret (negb (c =? chr "/")));
    if more : bool then
      c ← idx path r; out ← append out c; mret (inl (out, r + 1))
    else mret (inr (out, r))) (out, r).

(** One round of the main loop, which consumes a part of the path. *)
Definition Clean_round (path : list Z) (rooted : bool) (out : lazybuf) (r dotdot : Z) :
    res (lazybuf * Z * Z) :=
  let n := len path in
  c ← idx path r;
  if c =? chr "/" then mret (out, r + 1, dotdot) else
  dot ← andM (c =? chr ".") (orM (r + 1 =? n) (c1 ← idx path (r + 1); mret (c1 =? chr "/")));
  if dot : bool then mret (out, r + 1, dotdot) else
  dots ← andM (c =? chr ".")
    (c1 ← idx path (r + 1);
     andM (c1 =? chr ".") (orM (r + 2 =? n) (c2 ← idx path (r + 2); mret (c2 =? chr "/"))));
  if dots : bool then
    let r := r + 2 in
    if dotdot <? w out then
      out ← Clean_backtrack (set_w out (w out - 1)) dotdot;
      mret (out, r, dotdot)
    else if negb rooted then
      out ← (if 0 <? w out then append out (chr "/") else mret out);
      out ← append out (chr ".");
      out ← append out (chr ".");
      mret (out, r, w out)
    else mret (out, r, dotdot)
  else
    out ← (if rooted && negb (w out =? 1) || negb rooted && negb (w out =? 0)
           then append out (chr "/") else mret out);
    '(out, r) ← Clean_copy path out r;
    mret (out, r, dotdot).

Definition Clean (path : list Z) : res (list Z) :=
  if bool_decide (path = []) then mret (str ".") else
  c ← idx path 0;
  let rooted := c =? chr "/" in
  let n := len path in
  let out := Lazybuf path None 0 in
  '(out, r, dotdot) ← (if rooted then out ← append out (chr "/"); mret (out, 1, 1) else mret (out, 0, 0));
  out ← loop (fuel_of n) (λ '(out, r, dotdot),
    if r <? n then s' ← Clean_round path rooted out r dotdot; mret (inl s')
    else mret (inr out)) (out, r, dotdot);
  if w out =? 0 then mret (str ".") else string out.

(** ** The other functions *)

Definition Split (path : list Z) : res (list Z * list Z) :=
  i ← LastIndexByteString path (chr "/");
  dir ← slice_to path (i + 1); file ← slice_from path (i + 1);
  mret (dir, file).

Definition Join_loop (elem : list (list Z)) (buf : list Z) : list Z :=
  fold_left (λ buf e,
    if (0 <? len buf) || negb (bool_decide (e = [])) then
      (if 0 <? len buf then buf ++ str "/" else buf) ++ e
    else buf) elem buf.

Definition Join (elem : list (list Z)) : res (list Z) :=
  let size := fold_left (λ size e, size + len e) elem 0 in
  if size =? 0 then mret [] else Clean (Join_loop elem []).

Definition Ext (path : list Z) : res (list Z) :=
  loop (fuel_of (len path)) (λ i,
    more ← andM (0 <=? i) (c ← idx path i; mret (negb (c =? chr "/")));
    if more : bool then
      c ← idx path i;
      if c =? chr "." then e ← slice_from path i; mret (inr e) else mret (inl (i - 1))
    else mret (inr [])) (len path - 1).

(** [for len(path) > 0 && path[len(path)-1] == '/' { path = path[0 : len(path)-1] }] *)
Definition strip_slashes (path : list Z) : res (list Z) :=
  loop (fuel_of (len path)) (λ path,
    more ← andM (0 <? len path) (c ← idx path (len path - 1); mret (c =? chr "/"));
    if more : bool then p ← slice path 0 (len path - 1); mret (inl p) else mret (inr path)) path.

Definition Base (path : list Z) : res (list Z) :=
  if bool_decide (path = []) then mret (str ".") else
  path ← strip_slashes path;
  i ← LastIndexByteString path (chr "/");
  path ← (if 0 <=? i then slice_from path (i + 1) else mret path);
  if bool_decide (path = []) then mret (str "/") else mret path.

Definition IsAbs (path : list Z) : res bool :=
  andM (0 <? len path) (c ← idx path 0; mret (c =? chr "/")).

Definition Dir (path : list Z) : res (list Z) :=
  '(dir, _) ← Split path; Clean dir.
