(* ===== verification/PathProofs.v ===== *)
(** * path.Clean: elements, the buffer, and the loops

    The lexical specification of [Clean] on lists of path elements, and the proof
    that the code, with its buffer shared with the input, computes it. *)

From Stdlib Require Import String.
From stdpp Require Import base.
From S2P Require Import Prelude Bytealg Path.


(** ** Paths as lists of elements *)

Abbreviation slash := 47.
Abbreviation dot := [46].
Abbreviation dots := [46; 46].

(** The elements between the slashes. *)
Fixpoint elements (p : list Z) : list (list Z) :=
  match p with
  | [] => [[]]
  | c :: p =>
      if c =? slash then [] :: elements p
      else match elements p with e :: es => (c :: e) :: es | [] => [[c]] end
  end.

Fixpoint join (es : list (list Z)) : list Z :=
  match es with
  | [] => []
  | [e] => e
  | e :: es => e ++ slash :: join es
  end.

(** What an element does to the elements before it. *)
Definition clean_step (rooted : bool) (st : list (list Z)) (e : list Z) : list (list Z) :=
  if bool_decide (e = [] ∨ e = dot) then st
  else if bool_decide (e = dots) then
    match last st with
    | Some e' => if bool_decide (e' = dots) then st ++ [dots] else removelast st
    | None => if rooted then st else [dots]
    end
  else st ++ [e].

Definition is_rooted (p : list Z) : bool :=
  match p with c :: _ => c =? slash | [] => false end.

Definition render (rooted : bool) (st : list (list Z)) : list Z :=
  if rooted then slash :: join st else join st.

Definition nonempty (p : list Z) : list Z := match p with [] => dot | q => q end.

(** The lexical specification of [Clean]. *)
Definition clean_spec (p : list Z) : list Z :=
  nonempty (render (is_rooted p) (fold_left (clean_step (is_rooted p)) (elements p) [])).

(** ** Elements *)

Definition noslash (e : list Z) : Prop := slash ∉ e.

Lemma elements_ne p : elements p ≠ [].
Proof. destruct p as [|c p]; simpl; [done|]. by destruct (c =? slash), (elements p). Qed.

Lemma elements_slash p : elements (slash :: p) = [] :: elements p.
Proof. done. Qed.

(** The first element. *)
Lemma elements_app e p : noslash e → (p = [] ∨ ∃ p', p = slash :: p') →
  elements (e ++ p) = e :: match p with [] => [] | _ :: p' => elements p' end.
Proof.
  intros He Hp. induction e as [|c e IH].
  - destruct Hp as [->|[p' ->]]; done.
  - simpl. destruct (Z.eqb_spec c slash) as [->|]; [by destruct He; left|].
    rewrite IH; [done|]. intros ?. apply He. by right.
Qed.

Lemma clean_step_nil r st : clean_step r st [] = st.
Proof. done. Qed.
Lemma clean_step_dot r st : clean_step r st dot = st.
Proof. done. Qed.

(** Consuming an element, the separator left for later. *)
Lemma fold_element r st e p : noslash e → (p = [] ∨ ∃ p', p = slash :: p') →
  fold_left (clean_step r) (elements (e ++ p)) st =
  fold_left (clean_step r) (elements p) (clean_step r st e).
Proof.
  intros He Hp. rewrite elements_app by done. destruct Hp as [->|[p' ->]]; done.
Qed.

Lemma fold_slash r st p :
  fold_left (clean_step r) (elements (slash :: p)) st = fold_left (clean_step r) (elements p) st.
Proof. done. Qed.

Lemma join_snoc es e : es ≠ [] → join (es ++ [e]) = join es ++ slash :: e.
Proof.
  induction es as [|x es IH]; [done|]. intros _. destruct es as [|y es]; [done|].
  change ((x :: y :: es) ++ [e]) with (x :: ((y :: es) ++ [e])).
  assert (join (x :: ((y :: es) ++ [e])) = x ++ slash :: join ((y :: es) ++ [e])) as -> by done.
  rewrite IH by done. simpl. by rewrite <-app_assoc.
Qed.

(** ** The stack of elements *)

Definition real (e : list Z) : Prop := e ≠ [] ∧ e ≠ dot ∧ e ≠ dots ∧ noslash e.

Lemma clean_step_real r st e : real e → clean_step r st e = st ++ [e].
Proof.
  intros (? & ? & ? & ?). unfold clean_step. rewrite !bool_decide_false; [done|done|tauto].
Qed.

Lemma clean_step_pop r st e : e ≠ dots → clean_step r (st ++ [e]) dots = st.
Proof.
  intros He. unfold clean_step. rewrite bool_decide_false by (intros [|]; done).
  rewrite bool_decide_true by done. rewrite last_snoc, bool_decide_false by done.
  apply removelast_last.
Qed.

Lemma clean_step_up r k : clean_step r (replicate k dots) dots =
  if r && bool_decide (k = 0%nat) then [] else replicate (S k) dots.
Proof.
  unfold clean_step. rewrite bool_decide_false by (intros [|]; done). rewrite bool_decide_true by done.
  destruct k as [|k]; [by destruct r|]. rewrite (bool_decide_false (S k = 0%nat)), andb_false_r by done.
  replace (S k) with (k + 1)%nat at 1 by lia. rewrite replicate_add. simpl replicate at 2.
  rewrite last_snoc, bool_decide_true by done.
  replace (S (S k)) with (S k + 1)%nat by lia. by rewrite (replicate_add (S k) 1).
Qed.

(** ** The buffer *)

Definition contents (b : lazybuf) : list Z := default (s b) (buf b).

(** The buffer of the path [p] in which [o] has been written. *)
Definition holds (b : lazybuf) (p o : list Z) : Prop :=
  s b = p ∧ len (contents b) = len p ∧ w b = len o ∧ ∃ rest, contents b = o ++ rest.

Lemma holds_start p : holds (Lazybuf p None 0) p [].
Proof. split_and!; [done..|]. by exists p. Qed.

Lemma holds_len b p o : holds b p o → len o ≤ len p.
Proof.
  intros (_ & Hl & _ & rest & E). rewrite E, len_app in Hl. pose proof (len_nonneg rest). lia.
Qed.

Lemma store_app (o rest : list Z) c : rest ≠ [] → ∃ rest',
  store (o ++ rest) (len o) c = Ok ((o ++ [c]) ++ rest') ∧ len rest' = len rest - 1.
Proof.
  intros Hne. destruct rest as [|x rest]; [done|]. exists rest. split; [|rewrite len_cons; lia].
  unfold store. rewrite decide_True by (rewrite len_app, len_cons; pose proof (len_nonneg o);
    pose proof (len_nonneg rest); lia).
  unfold zset, len. rewrite Nat2Z.id. rewrite insert_app_r_alt by lia. rewrite Nat.sub_diag.
  simpl. by rewrite <-app_assoc.
Qed.

Lemma slice_to_app {A} (a b : list A) : slice_to (a ++ b) (len a) = Ok a.
Proof.
  unfold slice_to. rewrite decide_True by (rewrite len_app; pose proof (len_nonneg a);
    pose proof (len_nonneg b); lia).
  unfold len. by rewrite Nat2Z.id, take_app_length.
Qed.

Lemma slice_from_app {A} (a b : list A) : slice_from (a ++ b) (len a) = Ok b.
Proof.
  unfold slice_from. rewrite decide_True by (rewrite len_app; pose proof (len_nonneg a);
    pose proof (len_nonneg b); lia).
  unfold len. by rewrite Nat2Z.id, drop_app_length.
Qed.

Lemma append_spec b p o c : holds b p o → len o < len p →
  wp (append b c) (λ b', holds b' p (o ++ [c])).
Proof.
  intros (Hs & Hl & Hw & rest & E) Hlt. unfold append, holds. rewrite Hw. unfold contents in *.
  assert (rest ≠ []) as Hne. { intros ->. rewrite app_nil_r in E. rewrite E in Hl. lia. }
  destruct b as [s0 [buf0|] w0]; simpl in *; subst s0.
  - rewrite E. destruct (store_app o rest c Hne) as (rest' & -> & Hr). simpl.
    split_and!; [done| |rewrite len_app, len_cons, len_nil; lia|by exists rest'].
    simpl. rewrite E, len_app in Hl. rewrite !len_app, len_cons, len_nil. lia.
  - rewrite (proj2 (Z.ltb_lt _ _)) by lia. simpl. subst p. destruct rest as [|x rest]; [done|].
    rewrite (idx_in (o ++ x :: rest) (len o) x) by apply zget_mid. simpl.
    destruct (Z.eqb_spec x c) as [->|]; simpl.
    + split_and!; [done|done|rewrite len_app, len_cons, len_nil; lia|]. exists rest. simpl. by rewrite <-app_assoc.
    + rewrite slice_to_app. simpl.
      replace (Z.to_nat (len (o ++ x :: rest) - len o)) with (S (length rest))
        by (rewrite len_app, len_cons; unfold len; lia).
      destruct (store_app o (replicate (S (length rest)) 0) c) as (rest' & -> & Hr); [done|]. simpl.
      split_and!; [done| |rewrite len_app, len_cons, len_nil; lia|by exists rest']. simpl.
      assert (len (replicate (S (length rest)) 0) = 1 + len rest) as Hrep
        by (unfold len; rewrite length_replicate; lia).
      rewrite !len_app, !len_cons, len_nil. lia.
Qed.

Lemma string_spec b p o : holds b p o → string b = Ok o.
Proof.
  intros (Hs & Hl & Hw & rest & E). unfold string. rewrite Hw. unfold contents in E.
  destruct b as [s0 [buf0|] w0]; simpl in *; rewrite E; apply slice_to_app.
Qed.

Lemma set_w_spec b p o o' : holds b p (o ++ o') → holds (set_w b (len o)) p o.
Proof.
  intros (Hs & Hl & Hw & rest & E). split_and!; [done|done|done|]. exists (o' ++ rest).
  change (contents (set_w b (len o))) with (contents b). by rewrite E, <-app_assoc.
Qed.

Lemma index_spec b p o x o' : holds b p (o ++ x :: o') → index b (len o) = Ok x.
Proof.
  intros (Hs & Hl & Hw & rest & E). unfold index, contents in *. rewrite <-app_assoc in E. simpl in E.
  destruct b as [s0 [buf0|] w0]; simpl in *; rewrite E; apply idx_in, zget_mid.
Qed.


(** ** The loops *)

Lemma idx_mid (a : list Z) x p : idx (a ++ x :: p) (len a) = Ok x.
Proof. apply idx_in, zget_mid. Qed.

Lemma Clean_copy_spec a e p out o :
  noslash e → (p = [] ∨ ∃ p', p = slash :: p') →
  holds out (a ++ e ++ p) o → len o ≤ len a →
  wp (Clean_copy (a ++ e ++ p) out (len a)) (λ '(out', r'),
    holds out' (a ++ e ++ p) (o ++ e) ∧ r' = len (a ++ e)).
Proof.
  intros He Hp Ho Hlen. unfold Clean_copy.
  apply (wp_loop (λ '(b, r), ∃ e1 e2, e = e1 ++ e2 ∧ holds b (a ++ e ++ p) (o ++ e1) ∧ r = len (a ++ e1))
    (λ '(b, r), len (a ++ e ++ p) - r)).
  - exists [], e. by rewrite !app_nil_r.
  - intros [b r] (e1 & e2 & -> & _ & ->). rewrite !len_app. pose proof (len_nonneg e2). pose proof (len_nonneg p). lia.
  - unfold fuel_of. rewrite !len_app. pose proof (len_nonneg e). pose proof (len_nonneg p). lia.
  - intros [b r] (e1 & e2 & -> & Hb & ->). destruct e2 as [|x e2].
    + rewrite app_nil_r in *. assert (wp (andM (len (a ++ e1) <? len (a ++ e1 ++ p))
        (c ← idx (a ++ e1 ++ p) (len (a ++ e1)); mret (negb (c =? chr "/")))) (λ b, b = false)) as Hstop.
      { destruct Hp as [->|[p' ->]].
        - rewrite app_nil_r, Z.ltb_irrefl. done.
        - rewrite app_assoc, (proj2 (Z.ltb_lt _ _)), idx_mid; [done|].
          rewrite (len_app (a ++ e1)), len_cons. pose proof (len_nonneg p'). lia. }
      apply wp_bind. eapply wp_mono; [exact Hstop|]. intros ? ->. simpl. done.
    + assert (a ++ (e1 ++ x :: e2) ++ p = (a ++ e1) ++ x :: (e2 ++ p)) as E by (by rewrite <-!app_assoc).
      rewrite E in *. rewrite (proj2 (Z.ltb_lt _ _)) by
        (rewrite (len_app (a ++ e1)), len_cons; pose proof (len_nonneg (e2 ++ p)); lia).
      assert (x ≠ slash) as Hx by (intros ->; apply He; set_solver).
      cbn [andM]. rewrite !idx_mid. cbn [mbind res_bind mret res_ret].
      rewrite (proj2 (Z.eqb_neq x (chr "/"))) by done. cbn [negb].
      apply wp_bind. eapply wp_mono; [apply (append_spec _ _ _ x Hb)|].
      { rewrite !len_app, len_cons. pose proof (len_nonneg (e2 ++ p)). lia. }
      intros b' Hb'. simpl. rewrite !len_app, len_cons. split; [|pose proof (len_nonneg (e2 ++ p)); lia].
      exists (e1 ++ [x]), e2. rewrite <-!app_assoc in *. split_and!; [done..|]. rewrite !len_app, len_cons, len_nil. lia.
Qed.

Lemma Clean_backtrack_spec out path o sep e dotdot :
  holds out path (o ++ sep ++ e) → e ≠ [] → noslash e →
  (sep = [] ∧ dotdot = len o) ∨ (sep = [slash] ∧ dotdot ≤ len o) →
  wp (Clean_backtrack (set_w out (w out - 1)) dotdot) (λ out', holds out' path o).
Proof.
  intros Ho He Hns Hsep. unfold Clean_backtrack. change (chr "/") with slash.
  assert (∀ t1 x t2, sep ++ e = t1 ++ x :: t2 → x = slash → t1 = []) as Hslash.
  { intros t1 x t2 E ->. destruct t1 as [|y t1]; [done|]. exfalso. apply Hns.
    destruct Hsep as [[-> _]|[-> _]]; simpl in E; [rewrite E; set_solver|].
    injection E as _ ->. set_solver. }
  apply (wp_loop (λ b, ∃ t1 x t2, sep ++ e = t1 ++ x :: t2 ∧ b = set_w out (len (o ++ t1))) w).
  - destruct (exists_last He) as (e' & x & ->). exists (sep ++ e'), x, [].
    split; [by rewrite app_assoc|]. f_equal. destruct Ho as (_ & _ & -> & _).
    rewrite !len_app, len_cons, len_nil. lia.
  - intros b (t1 & x & t2 & _ & ->). simpl. apply len_nonneg.
  - unfold fuel_of. simpl. destruct Ho as (_ & _ & -> & _). pose proof (len_nonneg (o ++ sep ++ e)). lia.
  - intros b (t1 & x & t2 & E & ->). rewrite E in Ho.
    rewrite app_assoc in Ho. pose proof (index_spec _ _ _ _ _ Ho) as Hi. cbn [w set_w].
    assert (index (set_w out (len (o ++ t1))) (len (o ++ t1)) = Ok x) as -> by done.
    rewrite len_app in *. pose proof (len_nonneg t1) as Ht1.
    assert (t1 = [] → holds (set_w out (len o + len t1)) path o) as Hdone.
    { intros ->. rewrite len_nil, Z.add_0_r. rewrite app_nil_r in Ho. eapply set_w_spec, Ho. }
    destruct (Z.ltb_spec dotdot (len o + len t1)); cbn.
    + destruct (Z.eqb_spec x 47) as [->|Hx]; cbn.
      * apply Hdone. by eapply Hslash.
      * assert (t1 ≠ []) as Hne.
        { intros ->. destruct Hsep as [[-> ->]|[-> _]]; [rewrite len_nil in *; lia|].
          injection E as E1 _. congruence. }
        destruct (exists_last Hne) as (t1' & y & ->). rewrite len_app, len_cons, len_nil in *. split; [|lia].
        exists t1', y, (x :: t2). split; [by rewrite E, <-app_assoc|]. rewrite len_app. f_equal. lia.
    + apply Hdone. apply len_0_nil. destruct Hsep as [[-> ->]|[-> ?]]; lia.
Qed.


(** ** One round *)

Lemma idx_app_r {A} (a l : list A) i : 0 ≤ i → idx (a ++ l) (len a + i) = idx l i.
Proof.
  intros Hi. unfold idx. rewrite zget_app_r by lia. by replace (len a + i - len a) with i by lia.
Qed.

Definition ends (q : list Z) : Prop := q = [] ∨ ∃ q', q = slash :: q'.

(** The tests of the code for the elements [.] and [..]. *)
Lemma dot_test a e q : e ≠ [] → noslash e → ends q →
  let path := a ++ e ++ q in let r := len a in
  (c ← idx path r;
   andM (c =? chr ".") (orM (r + 1 =? len path) (c1 ← idx path (r + 1); mret (c1 =? chr "/")))) =
  Ok (bool_decide (e = dot)).
Proof.
  intros He Hns Hq. cbv zeta. change (chr ".") with 46. change (chr "/") with slash.
  destruct e as [|c e]; [done|]. simpl. rewrite idx_mid. simpl. rewrite idx_app_r, len_app, len_cons by lia.
  destruct (Z.eqb_spec c 46) as [->|]; simpl; [|by rewrite bool_decide_false by congruence].
  destruct e as [|c1 e]; simpl.
  - rewrite ?bool_decide_true by done. destruct Hq as [->|[q' ->]].
    + rewrite len_nil, (proj2 (Z.eqb_eq _ _)) by lia. done.
    + rewrite ?idx_1. simpl. by destruct (_ =? _).
  - rewrite ?bool_decide_false by done. simpl. rewrite ?idx_1, len_cons. simpl.
    pose proof (len_nonneg (e ++ q)). rewrite (proj2 (Z.eqb_neq _ _)) by lia. simpl.
    rewrite (proj2 (Z.eqb_neq c1 slash)); [done|]. intros ->. apply Hns. by right; left.
Qed.

Lemma dots_test a e q : e ≠ [] → e ≠ dot → noslash e → ends q →
  let path := a ++ e ++ q in let r := len a in
  (c ← idx path r;
   andM (c =? chr ".")
    (c1 ← idx path (r + 1);
     andM (c1 =? chr ".") (orM (r + 2 =? len path) (c2 ← idx path (r + 2); mret (c2 =? chr "/"))))) =
  Ok (bool_decide (e = dots)).
Proof.
  intros He Hdot Hns Hq. cbv zeta. change (chr ".") with 46. change (chr "/") with slash.
  destruct e as [|c e]; [done|]. simpl. rewrite idx_mid. simpl. rewrite !idx_app_r, len_app, len_cons by lia.
  destruct (Z.eqb_spec c 46) as [->|]; simpl; [|by rewrite bool_decide_false by congruence].
  destruct e as [|c1 e]; [done|]. simpl. rewrite ?idx_1, len_cons. simpl.
  destruct (Z.eqb_spec c1 46) as [->|]; simpl; [|by rewrite bool_decide_false by congruence].
  destruct e as [|c2 e]; simpl.
  - rewrite ?bool_decide_true by done. destruct Hq as [->|[q' ->]].
    + rewrite len_nil, (proj2 (Z.eqb_eq _ _)) by lia. done.
    + rewrite ?idx_2. simpl. by destruct (_ =? _).
  - rewrite ?bool_decide_false by done. simpl. rewrite ?idx_2, len_cons. simpl.
    pose proof (len_nonneg (e ++ q)). rewrite (proj2 (Z.eqb_neq _ _)) by lia. simpl.
    rewrite (proj2 (Z.eqb_neq c2 slash)); [done|]. intros ->. apply Hns. set_solver.
Qed.

(** The first element of a path that does not start with a slash. *)
Lemma first_element q : q ≠ [] → is_rooted q = false →
  ∃ e q', q = e ++ q' ∧ e ≠ [] ∧ noslash e ∧ ends q'.
Proof.
  induction q as [|c q IH]; [done|]. simpl. intros _ Hc.
  assert (c ≠ slash) as Hcs by (intros ->; done).
  destruct (decide (q = [])) as [->|Hq].
  { exists [c], []. split_and!; [done|done| |by left]. intros H. apply list_elem_of_singleton in H. done. }
  destruct (is_rooted q) eqn:Hr.
  - exists [c], q. split_and!; [done|done| |].
    + intros H. apply list_elem_of_singleton in H. done.
    + right. destruct q as [|d q]; [done|]. simpl in Hr. exists q. f_equal. lia.
  - destruct (IH Hq eq_refl) as (e & q' & -> & _ & Hns & He). exists (c :: e), q'.
    split_and!; [done|done| |done]. intros [E|]%elem_of_cons; [congruence|done].
Qed.

(** The state of the main loop: [a] is read, [q] is left, the stack is written. *)
Definition point (path : list Z) (R : bool) (st : list (list Z)) (q : list Z)
    (out : lazybuf) (r dotdot : Z) : Prop :=
  ∃ a k es, path = a ++ q ∧ r = len a ∧ holds out path (render R st) ∧
    len (render R st) ≤ r ∧ (st = [] ∨ len (render R st) < r ∨ ends q) ∧
    st = replicate k dots ++ es ∧ (R = true → k = 0%nat) ∧ Forall real es ∧
    dotdot = len (render R (replicate k dots)).

(** A round consumes a part of the path and does to the stack what it says. *)
Definition round_post (path : list Z) (R : bool) (st : list (list Z)) (q : list Z) (r : Z)
    (s' : lazybuf * Z * Z) : Prop :=
  let '(out', r', dotdot') := s' in
  ∃ st' q', point path R st' q' out' r' dotdot' ∧ r < r' ∧
    fold_left (clean_step R) (elements q') st' = fold_left (clean_step R) (elements q) st.

(** An element that adds nothing. *)
Lemma point_skip path R st e q out r dotdot :
  point path R st (e ++ q) out r dotdot → e ≠ [] → ends q ∨ e = [slash] →
  point path R st q out (r + len e) dotdot.
Proof.
  intros (a & k & es & -> & -> & Ho & Hroom & Hsep & Hst) He Hq.
  exists (a ++ e), k, es. rewrite len_app. pose proof (len_nonneg e).
  assert (len e ≠ 0) by (by intros ?%len_0_nil). rewrite <-app_assoc.
  split_and!; try done; [lia| |apply Hst..]. destruct Hq as [Hq| ->]; [by right; right|].
  right. left. lia.
Qed.

Lemma join_len st : st ≠ [] → Forall (λ e, e ≠ []) st → 0 < len (join st).
Proof.
  destruct st as [|e st]; [done|]. intros _ [He _]%Forall_cons.
  assert (0 < len e). { destruct e; [done|]. rewrite len_cons. pose proof (len_nonneg e). lia. }
  destruct st; simpl; [done|]. rewrite len_app, len_cons.
  match goal with |- context [len (?x)] => pose proof (len_nonneg x) end.
  pose proof (len_nonneg (match st with [] => l | _ => l ++ 47 :: join st end)). lia.
Qed.

Lemma stack_ne k es : Forall real es → Forall (λ e, e ≠ []) (replicate k dots ++ es).
Proof.
  intros H. apply Forall_app. split; [by apply Forall_replicate|].
  eapply Forall_impl; [done|]. by intros e [].
Qed.

(** What is written when an element is pushed. *)
Lemma render_snoc R st e :
  render R (st ++ [e]) =
  render R st ++ (if bool_decide (st = []) then [] else [slash]) ++ e.
Proof.
  unfold render. case_bool_decide as Hst; [subst; by destruct R|].
  rewrite join_snoc by done. by destruct R; simpl; rewrite <-?app_assoc.
Qed.

Lemma render_empty R st : Forall (λ e, e ≠ []) st →
  len (render R st) = Z.b2z R ↔ st = [].
Proof.
  intros Hne. split; [|intros ->; by destruct R]. intros H.
  destruct (decide (st = [])) as [|Hst]; [done|]. pose proof (join_len st Hst Hne).
  destruct R; simpl in H; [rewrite len_cons in H|]; simpl in H; lia.
Qed.


Lemma render_mono R st es : len (render R st) ≤ len (render R (st ++ es)).
Proof.
  induction es as [|e es IH] using rev_ind; [rewrite app_nil_r; lia|].
  rewrite app_assoc, render_snoc, !len_app. pose proof (len_nonneg e).
  pose proof (len_nonneg (if bool_decide (st ++ es = []) then [] else [slash])). lia.
Qed.

(** Writing a separator, when there is something to separate. *)
Lemma append_sep path R st out r :
  holds out path (render R st) → r ≤ len path → (st = [] ∨ len (render R st) < r) →
  wp (if bool_decide (st = []) then mret out else append out (chr "/"))
    (λ out', holds out' path (render R st ++ if bool_decide (st = []) then [] else [slash])).
Proof.
  intros Ho Hr Hst. case_bool_decide as E.
  - simpl. by rewrite app_nil_r.
  - change (chr "/") with slash. apply append_spec; [done|]. destruct Hst; [done|lia].
Qed.

Lemma list_rev_case {A} (l : list A) : l = [] ∨ ∃ l' x, l = l' ++ [x].
Proof. induction l as [|x l IH] using rev_ind; [by left|right; eauto]. Qed.

(** Before the code reads the element [e], which is [.], [..] or a real one. *)
Record situation (path : list Z) (R : bool) (a e q : list Z) (out : lazybuf) (k : nat)
    (es : list (list Z)) : Prop := {
  si_path : path = a ++ e ++ q;
  si_ne : e ≠ [];
  si_ns : noslash e;
  si_q : ends q;
  si_out : holds out path (render R (replicate k dots ++ es));
  si_room : len (render R (replicate k dots ++ es)) ≤ len a;
  si_sep : replicate k dots ++ es = [] ∨ len (render R (replicate k dots ++ es)) < len a;
  si_R : R = true → k = 0%nat;
  si_real : Forall real es }.

Section round.
Context (path : list Z) (R : bool) (a e q : list Z) (out : lazybuf) (k : nat).
Notation up := (replicate k dots).

Lemma path_len es : situation path R a e q out k es → len path = len a + len e + len q.
Proof. intros [-> ????????]. rewrite !len_app. lia. Qed.

Lemma point_after es k' es' out' dd : situation path R a e q out k es →
  holds out' path (render R (replicate k' dots ++ es')) →
  len (render R (replicate k' dots ++ es')) ≤ len (a ++ e) →
  (R = true → k' = 0%nat) → Forall real es' → dd = len (render R (replicate k' dots)) →
  replicate k' dots ++ es' = clean_step R (up ++ es) e →
  round_post path R (up ++ es) (e ++ q) (len a) (out', len a + len e, dd).
Proof.
  intros [Hpath He Hns Hq ?????] Ho Hl HR' Hes' -> Hf. exists (replicate k' dots ++ es'), q.
  split_and!; [|assert (len e ≠ 0) by (by intros ?%len_0_nil); pose proof (len_nonneg e); lia|].
  - exists (a ++ e), k', es'. rewrite <-len_app, <-app_assoc. split_and!; try done. by right; right.
  - by rewrite fold_element, Hf by done.
Qed.

Lemma round_pop es x : situation path R a e q out k (es ++ [x]) → e = dots →
  len (render R up) < w out ∧
  wp (Clean_backtrack (set_w out (w out - 1)) (len (render R up)))
    (λ out', round_post path R (up ++ es ++ [x]) (e ++ q) (len a) (out', len a + 2, len (render R up))).
Proof.
  intros Hsi Hdots. pose proof (si_real _ _ _ _ _ _ _ _ Hsi) as [Hes [Hx _]%Forall_cons]%Forall_app.
  destruct Hx as (Hx0 & _ & Hx2 & Hxs). pose proof (si_out _ _ _ _ _ _ _ _ Hsi) as Ho.
  pose proof (si_room _ _ _ _ _ _ _ _ Hsi) as Hroom.
  rewrite app_assoc, render_snoc in Ho, Hroom. pose proof (render_mono R up es) as Hmono.
  set (sep := if bool_decide (up ++ es = []) then [] else [slash]) in *.
  assert (0 < len x) by (pose proof (len_nonneg x); assert (len x ≠ 0) by (by intros ?%len_0_nil); lia).
  pose proof (len_nonneg sep). pose proof (len_nonneg e). rewrite !len_app in Hroom. split.
  { destruct Ho as (_ & _ & -> & _). rewrite !len_app. lia. }
  eapply wp_mono; [apply (Clean_backtrack_spec _ _ _ sep x _ Ho Hx0 Hxs)|].
  { unfold sep. case_bool_decide as E; [left|right; done]. split; [done|].
    apply app_eq_nil in E as [E1 ->]. by rewrite app_nil_r. }
  intros out' Ho'. replace 2 with (len e) by (by rewrite Hdots).
  apply (point_after _ k es); try done; [rewrite len_app; lia|apply Hsi|].
  by rewrite app_assoc, Hdots, clean_step_pop.
Qed.

Lemma round_up_rooted : situation path R a e q out k [] → R = true → e = dots →
  round_post path R (up ++ []) (e ++ q) (len a) (out, len a + 2, len (render R up)).
Proof.
  intros Hsi HRe Hdots. replace 2 with (len e) by (by rewrite Hdots).
  pose proof (si_R _ _ _ _ _ _ _ _ Hsi HRe) as Hk.
  apply (point_after _ k []); try done; [apply Hsi| |].
  - rewrite len_app. pose proof (si_room _ _ _ _ _ _ _ _ Hsi). pose proof (len_nonneg e). lia.
  - by rewrite Hk, HRe, Hdots.
Qed.

Lemma round_up_dots : situation path R a e q out k [] → R = false → e = dots →
  wp (out ← (if 0 <? w out then append out (chr "/") else mret out);
      out ← append out (chr ".");
      out ← append out (chr ".");
      mret (out, len a + 2, w out))
    (round_post path R (up ++ []) (e ++ q) (len a)).
Proof.
  intros Hsi HRe Hdots. pose proof (path_len _ Hsi) as Hpl. pose proof (len_nonneg q).
  pose proof Hsi as [Hpath He Hns Hq Ho Hroom Hsep HR' Hes].
  rewrite app_nil_r in *. pose proof Ho as (_ & _ & Hw & _). rewrite Hw.
  assert ((0 <? len (render R up)) = negb (bool_decide (up = []))) as ->.
  { rewrite HRe. case_bool_decide as E; [by rewrite E|]. apply Z.ltb_lt.
    apply join_len; [done|]. by apply Forall_replicate. }
  change (chr ".") with 46. pose proof (len_nonneg a). assert (len e = 2) as Hle by (by rewrite Hdots).
  apply wp_bind. rewrite if_negb. eapply wp_mono; [apply (append_sep _ _ _ _ (len a) Ho); [lia|done]|].
  set (sep := if bool_decide (up = []) then [] else [slash]) in *. intros o1 Ho1.
  assert (len (render R up ++ sep) ≤ len a) as Hl1.
  { unfold sep. rewrite len_app. case_bool_decide as E; [rewrite len_nil; lia|].
    rewrite len_cons, len_nil. destruct Hsep; [done|lia]. }
  apply wp_bind. eapply wp_mono; [apply (append_spec _ _ _ 46 Ho1); lia|]. intros o2 Ho2.
  apply wp_bind. eapply wp_mono; [apply (append_spec _ _ _ 46 Ho2); rewrite len_app, len_cons, len_nil; lia|].
  intros o3 Ho3. apply wp_ret. rewrite <-!app_assoc in Ho3. simpl app in Ho3.
  assert (render R (replicate (S k) dots) = render R up ++ sep ++ dots) as E.
  { unfold sep. rewrite <-render_snoc. f_equal. replace (S k) with (k + 1)%nat by lia. by rewrite replicate_add. }
  replace 2 with (len e). rewrite <-(app_nil_r up). apply (point_after [] (S k) []); rewrite ?app_nil_r; try done.
  - by rewrite E.
  - rewrite E, app_assoc, len_app, (len_app a), Hle. change (len dots) with 2. lia.
  - by rewrite HRe.
  - destruct Ho3 as (_ & _ & -> & _). by rewrite E.
  - by rewrite Hdots, clean_step_up, HRe.
Qed.

Lemma round_real es : situation path R a e q out k es → e ≠ dot → e ≠ dots →
  wp (out ← (if R && negb (w out =? 1) || negb R && negb (w out =? 0)
             then append out (chr "/") else mret out);
      '(out, r) ← Clean_copy path out (len a);
      mret (out, r, len (render R up)))
    (round_post path R (up ++ es) (e ++ q) (len a)).
Proof.
  intros Hsi Hdot Hdots. pose proof (path_len _ Hsi) as Hpl.
  pose proof Hsi as [Hpath He Hns Hq Ho Hroom Hsep HR' Hes].
  pose proof Ho as (_ & _ & Hw & _). pose proof (len_nonneg q). pose proof (len_nonneg e).
  pose proof (render_empty R (up ++ es) (stack_ne k es Hes)) as Hemp. rewrite <-Hw in Hemp.
  assert (R && negb (w out =? 1) || negb R && negb (w out =? 0) = negb (bool_decide (up ++ es = []))) as ->.
  { case_bool_decide as E.
    - rewrite (proj2 Hemp E). by destruct R.
    - assert (w out ≠ Z.b2z R) as Hw' by tauto. destruct R; simpl in *; apply Z.eqb_neq in Hw'; by rewrite Hw'. }
  apply wp_bind. rewrite if_negb. eapply wp_mono; [apply (append_sep _ _ _ _ (len a) Ho); [lia|done]|].
  set (sep := if bool_decide (up ++ es = []) then [] else [slash]) in *. intros o1 Ho1.
  assert (len (render R (up ++ es) ++ sep) ≤ len a) as Hl1.
  { unfold sep. rewrite len_app. case_bool_decide as E; [rewrite len_nil; lia|].
    rewrite len_cons, len_nil. destruct Hsep; [done|lia]. }
  apply wp_bind. rewrite Hpath in Ho1 |- *. eapply wp_mono; [by apply (Clean_copy_spec a e q _ _ Hns Hq Ho1)|].
  intros [o2 r] [Ho2 ->]. apply wp_ret. rewrite <-Hpath in *. rewrite (len_app a e).
  assert (real e) as Hreal by (by split_and!).
  assert (render R (up ++ es ++ [e]) = (render R (up ++ es) ++ sep) ++ e) as E.
  { unfold sep. by rewrite app_assoc, render_snoc, app_assoc. }
  apply (point_after es k (es ++ [e])); try done; rewrite ?E; [done| | |].
  - rewrite !len_app in *. lia.
  - apply Forall_app. by split; [|constructor].
  - by rewrite clean_step_real, app_assoc by done.
Qed.
End round.

Lemma Clean_round_spec path R st q out r dotdot :
  point path R st q out r dotdot → q ≠ [] →
  wp (Clean_round path R out r dotdot) (round_post path R st q r).
Proof.
  intros Hpt Hq. destruct (is_rooted q) eqn:Hr.
  - destruct q as [|c q]; [done|]. simpl in Hr. apply Z.eqb_eq in Hr as ->. unfold Clean_round.
    pose proof Hpt as (a & k & es & Hpath & -> & _). rewrite Hpath at 1. rewrite idx_mid. simpl.
    exists st, q. split_and!; [|lia|done].
    change 1 with (len [slash]). by apply (point_skip _ _ _ [slash]); [|done|right].
  - destruct (first_element q Hq Hr) as (e & q' & -> & He & Hns & Hq').
    pose proof Hpt as (a & k & es & Hpath & -> & Ho & Hroom & Hsep & -> & HR & Hes & ->).
    assert (situation path R a e q' out k es) as Hsi.
    { split; try done. destruct Hsep as [|[|[Hsep|[q'' Hsep]]]]; [by left|by right|..]; exfalso.
      - apply app_eq_nil in Hsep as [? _]. done.
      - destruct e as [|c e]; [done|]. injection Hsep as -> _. apply Hns. by left. }
    unfold Clean_round. pose proof (dot_test a e q' He Hns Hq') as Hdot. cbv zeta in Hdot. rewrite Hpath.
    destruct (idx (a ++ e ++ q') (len a)) as [c| |] eqn:Hc;
      cbn [mbind res_bind] in Hdot |- *; [|discriminate Hdot..].
    assert (c ≠ slash) as Hcs.
    { destruct e as [|c' e]; [done|]. simpl in Hc. rewrite idx_mid in Hc. injection Hc as ->.
      intros ->. apply Hns. by left. }
    rewrite (proj2 (Z.eqb_neq c (chr "/"))) by done. rewrite Hdot. cbn [mbind res_bind].
    case_bool_decide as Edot.
    { exists (replicate k dots ++ es), q'. rewrite <-Hpath. split_and!; [|lia|].
      - replace 1 with (len e) by (by rewrite Edot). apply point_skip; [done|done|by left].
      - by rewrite fold_element, Edot by done. }
    pose proof (dots_test a e q' He Edot Hns Hq') as Hdots. cbv zeta in Hdots. rewrite Hc in Hdots. cbn [mbind res_bind] in Hdots.
    rewrite Hdots. cbn [mbind res_bind]. rewrite <-Hpath. case_bool_decide as Edots; [|by apply round_real].
    destruct (list_rev_case es) as [->|(es' & x & ->)].
    + rewrite app_nil_r in Ho. pose proof Ho as (_ & _ & Hw & _). rewrite (proj2 (Z.ltb_ge _ (w out))) by lia.
      destruct R eqn:HRe; simpl negb.
      * apply wp_ret. by apply round_up_rooted.
      * by apply round_up_dots.
    + destruct (round_pop _ _ _ _ _ _ _ _ _ Hsi Edots) as [Hlt Hwp]. rewrite (proj2 (Z.ltb_lt _ _)) by done.
      apply wp_bind. eapply wp_mono; [exact Hwp|]. by intros out' H.
Qed.

(** ** The whole function *)

Lemma point_start path : path ≠ [] → is_rooted path = false →
  point path false [] path (Lazybuf path None 0) 0 0.
Proof.
  intros Hne Hr. exists [], 0%nat, []. split_and!; try done; [apply holds_start|by left].
Qed.

Lemma point_rooted path p out : path = slash :: p → holds out path [slash] →
  point path true [] p out 1 1.
Proof.
  intros -> Ho. exists [slash], 0%nat, []. split_and!; (done || by left).
Qed.

(** The main loop ends after at most one round per byte. *)
Lemma Clean_loop_spec path R st q out r dotdot :
  point path R st q out r dotdot →
  wp (loop (fuel_of (len path)) (λ '(out, r, dotdot),
        if r <? len path then s' ← Clean_round path R out r dotdot; mret (inl s')
        else mret (inr out)) (out, r, dotdot))
    (λ out', holds out' path (render R (fold_left (clean_step R) (elements q) st)) ∧
       ∃ k es, fold_left (clean_step R) (elements q) st = replicate k dots ++ es ∧ Forall real es).
Proof.
  intros Hpt.
  assert (∀ st q out r dotdot, point path R st q out r dotdot → r = len path - len q) as Hr.
  { intros ????? (a & ? & ? & -> & -> & _). rewrite len_app. lia. }
  apply (wp_loop (λ '(out', r', dd'), ∃ st' q', point path R st' q' out' r' dd' ∧
    fold_left (clean_step R) (elements q') st' = fold_left (clean_step R) (elements q) st)
    (λ '(_, r', _), len path - r')).
  - by exists st, q.
  - intros [[out' r'] dd'] (st' & q' & Hpt' & _). rewrite (Hr _ _ _ _ _ Hpt'). pose proof (len_nonneg q'). lia.
  - unfold fuel_of. pose proof (len_nonneg path). pose proof (Hr _ _ _ _ _ Hpt).
    destruct Hpt as (a & ? & ? & _ & -> & _). pose proof (len_nonneg a). lia.
  - intros [[out' r'] dd'] (st' & q' & Hpt' & Hf). pose proof (Hr _ _ _ _ _ Hpt') as Hr'.
    destruct (Z.ltb_spec r' (len path)).
    + apply wp_bind. eapply wp_mono; [apply (Clean_round_spec _ _ _ _ _ _ _ Hpt')|].
      { intros ->. rewrite len_nil in Hr'. lia. }
      intros [[out2 r2] dd2] (st2 & q2 & Hpt2 & Hlt & Hf2). simpl. split; [|lia].
      exists st2, q2. by rewrite Hf2.
    + assert (q' = []) as -> by (apply len_0_nil; pose proof (len_nonneg q'); lia).
      simpl in Hf |- *. rewrite clean_step_nil in Hf. rewrite <-Hf.
      destruct Hpt' as (a & k & es & _ & _ & Ho & _ & _ & Hst & _ & Hes & _). split; [done|by exists k, es].
Qed.

Lemma Clean_ok path : Clean path = Ok (clean_spec path).
Proof.
  apply wp_eq. unfold Clean. case_bool_decide as Hne; [by subst|].
  destruct path as [|c p]; [done|]. rewrite idx_0. cbn [mbind res_bind].
  assert ((c =? chr "/") = is_rooted (c :: p)) as -> by done.
  set (path := c :: p) in *. set (R := is_rooted path).
  assert (wp (if R then out ← append (Lazybuf path None 0) (chr "/"); mret (out, 1, 1)
    else mret (Lazybuf path None 0, 0, 0)) (λ '(out, r, dotdot), ∃ q, point path R [] q out r dotdot ∧
      fold_left (clean_step R) (elements q) [] = fold_left (clean_step R) (elements path) [])) as Hstart.
  { destruct R eqn:HR; unfold R in HR; simpl in HR.
    - apply Z.eqb_eq in HR. apply wp_bind.
      eapply wp_mono; [apply (append_spec _ _ _ _ (holds_start path))|].
      { unfold path. rewrite len_cons, len_nil. pose proof (len_nonneg p). lia. }
      intros out Ho. exists p. split; [|by rewrite <-fold_slash; unfold path; rewrite HR].
      apply (point_rooted path p); [by unfold path; rewrite HR|done].
    - exists path. split; [by apply point_start|done]. }
  apply wp_bind. eapply wp_mono; [exact Hstart|]. intros [[out r] dotdot] (q & Hpt & Hq).
  apply wp_bind. eapply wp_mono; [apply (Clean_loop_spec _ _ _ _ _ _ _ Hpt)|].
  rewrite Hq. intros out' [Ho _]. pose proof Ho as (_ & _ & Hw & _). unfold clean_spec.
  fold R. destruct (render R _) as [|x l] eqn:E.
  - by rewrite Hw.
  - rewrite (proj2 (Z.eqb_neq (w out') 0)) by (rewrite Hw, len_cons; pose proof (len_nonneg l); lia).
    by rewrite (string_spec _ _ _ Ho).
Qed.


(** ** Canonical paths *)

(** The stack of elements of a clean path. *)
Definition canonical (R : bool) (st : list (list Z)) : Prop :=
  ∃ k es, st = replicate k dots ++ es ∧ (R = true → k = 0%nat) ∧ Forall real es.

Lemma elements_noslash p : Forall noslash (elements p).
Proof.
  induction p as [|c p IH]; simpl; [by constructor; [apply not_elem_of_nil|]|].
  destruct (Z.eqb_spec c slash) as [->|Hc].
  { constructor; [apply not_elem_of_nil|done]. }
  destruct (elements p) as [|e es]; simpl.
  - constructor; [|done]. intros H%list_elem_of_singleton. done.
  - apply Forall_cons in IH as [He Hes]. constructor; [|done].
    intros [E|]%elem_of_cons; [congruence|done].
Qed.

Lemma step_canonical R st e : noslash e → canonical R st → canonical R (clean_step R st e).
Proof.
  intros He (k & es & -> & HR & Hes).
  destruct (decide (e = [])) as [->|H0]; [by exists k, es|].
  destruct (decide (e = dot)) as [->|H1]; [by exists k, es|].
  destruct (decide (e = dots)) as [->|H2].
  - destruct (list_rev_case es) as [->|(es' & x & ->)].
    + rewrite app_nil_r, clean_step_up. destruct R; simpl.
      * rewrite HR by done. by exists 0%nat, [].
      * exists (S k), []. by rewrite app_nil_r.
    + apply Forall_app in Hes as [Hes' [Hx _]%Forall_cons]. rewrite app_assoc, clean_step_pop by apply Hx.
      by exists k, es'.
  - rewrite clean_step_real by done. exists k, (es ++ [e]). rewrite app_assoc. split_and!; [done..|].
    apply Forall_app. split; [done|]. by constructor.
Qed.

Lemma fold_canonical R p st : canonical R st → canonical R (fold_left (clean_step R) (elements p) st).
Proof.
  pose proof (elements_noslash p) as H. revert st. induction (elements p) as [|e es IH]; [done|].
  apply Forall_cons in H as [He Hes]. intros st Hst. simpl. apply IH; [done|]. by apply step_canonical.
Qed.

Lemma canonical_nil R : canonical R [].
Proof. by exists 0%nat, []. Qed.

Lemma canonical_elements R st : canonical R st → Forall (λ e, e ≠ [] ∧ noslash e) st.
Proof.
  intros (k & es & -> & _ & Hes). apply Forall_app. split.
  - apply Forall_replicate. split; [done|]. intros H. set_solver.
  - eapply Forall_impl; [done|]. by intros e (? & _ & _ & ?).
Qed.

(** Reading the elements of a canonical path gives them back. *)
Lemma fold_ups k j : fold_left (clean_step false) (replicate k dots) (replicate j dots) = replicate (k + j) dots.
Proof.
  revert j. induction k as [|k IH]; intros j; [done|]. simpl replicate. simpl fold_left.
  rewrite clean_step_up. simpl. change (dots :: replicate j dots) with (replicate (S j) dots).
  rewrite IH. by rewrite Nat.add_succ_r.
Qed.

Lemma fold_reals R es st : Forall real es → fold_left (clean_step R) es st = st ++ es.
Proof.
  revert st. induction es as [|e es IH]; intros st; [by rewrite app_nil_r|].
  intros [He Hes]%Forall_cons. simpl. rewrite clean_step_real, IH by done. by rewrite <-app_assoc.
Qed.

Lemma fold_stack R st : canonical R st → fold_left (clean_step R) st [] = st.
Proof.
  intros (k & es & -> & HR & Hes). rewrite fold_left_app. destruct R.
  - rewrite HR by done. by apply fold_reals.
  - pose proof (fold_ups k 0) as E. rewrite Nat.add_0_r in E. simpl in E. rewrite E. by apply fold_reals.
Qed.

Lemma elements_join_slash p q : elements (p ++ slash :: q) = elements p ++ elements q.
Proof.
  induction p as [|c p IH]; [done|]. simpl. rewrite IH. destruct (c =? slash); [done|].
  pose proof (elements_ne p). by destruct (elements p).
Qed.

Lemma elements_single e : noslash e → elements e = [e].
Proof. intros He. rewrite <-(app_nil_r e) at 1. rewrite elements_app; [done..|by left]. Qed.

Lemma elements_join st : Forall noslash st → st ≠ [] → elements (join st) = st.
Proof.
  induction st as [|e st IH]; [done|]. intros [He Hst]%Forall_cons _.
  destruct st as [|e' st]; [by apply elements_single|].
  change (join (e :: e' :: st)) with (e ++ slash :: join (e' :: st)).
  rewrite elements_join_slash, IH, elements_single by done. done.
Qed.

Lemma join_rooted R st : canonical R st → is_rooted (join st) = false.
Proof.
  intros H%canonical_elements. destruct st as [|e st]; [done|].
  apply Forall_cons in H as [[He Hns] _]. destruct e as [|c e]; [done|].
  assert (c ≠ slash) by (intros ->; apply Hns; by left).
  destruct st; simpl; by apply Z.eqb_neq.
Qed.

Lemma join_nil st : Forall (λ e, e ≠ []) st → join st = [] → st = [].
Proof.
  intros H E. destruct (decide (st = [])) as [|Hst]; [done|].
  pose proof (join_len st Hst H) as Hl. rewrite E in Hl. done.
Qed.

(** The clean path of a stack, which cleaning leaves alone. *)
Lemma clean_render R st : canonical R st → clean_spec (nonempty (render R st)) = nonempty (render R st).
Proof.
  intros Hst. pose proof (canonical_elements _ _ Hst) as Hel.
  assert (Forall noslash st) as Hns by (eapply Forall_impl; [exact Hel|]; by intros ? []).
  assert (Forall (λ e, e ≠ []) st) as Hne by (eapply Forall_impl; [exact Hel|]; by intros ? []).
  destruct R.
  - simpl. unfold clean_spec. change (is_rooted (slash :: join st)) with true. rewrite elements_slash. simpl fold_left. rewrite clean_step_nil.
    destruct (decide (st = [])) as [->|]; [done|]. rewrite elements_join, fold_stack by done. done.
  - simpl. destruct (decide (st = [])) as [->|Hst0]; [done|].
    destruct (join st) as [|c p] eqn:E; [by destruct Hst0; apply join_nil|]. simpl nonempty. rewrite <-E.
    unfold clean_spec. rewrite (join_rooted false) by done. rewrite elements_join, fold_stack by done.
    simpl. by rewrite E.
Qed.

Lemma clean_spec_render p : ∃ st, canonical (is_rooted p) st ∧
  clean_spec p = nonempty (render (is_rooted p) st).
Proof.
  exists (fold_left (clean_step (is_rooted p)) (elements p) []). split; [|reflexivity].
  apply fold_canonical, canonical_nil.
Qed.

Lemma clean_idempotent p : clean_spec (clean_spec p) = clean_spec p.
Proof. destruct (clean_spec_render p) as (st & Hst & ->). by apply (clean_render (is_rooted p)). Qed.

(** A clean path ends in a slash only when it is the root. *)
Lemma join_ends st p : Forall (λ e, e ≠ [] ∧ noslash e) st → join st ≠ p ++ [slash].
Proof.
  intros H E. destruct (list_rev_case st) as [->|(st' & e & ->)]; [by destruct p|].
  apply Forall_app in H as [_ [[He Hns] _]%Forall_cons].
  destruct (list_rev_case e) as [->|(e' & x & ->)]; [done|].
  assert (∃ u, join (st' ++ [e' ++ [x]]) = u ++ [x]) as [u Eu].
  { destruct (decide (st' = [])) as [->|]; [by exists e'|]. rewrite join_snoc by done.
    exists (join st' ++ slash :: e'). by rewrite <-app_assoc. }
  rewrite Eu in E. apply app_inj_tail in E as [_ ->]. apply Hns. set_solver.
Qed.

Lemma clean_ends p q : clean_spec p = q ++ [slash] → q = [].
Proof.
  intros E. destruct (clean_spec_render p) as (st & Hst & E'). rewrite E' in E.
  apply canonical_elements in Hst. destruct (is_rooted p); simpl in E.
  - destruct q as [|c q]; [done|]. injection E as _ E. by apply join_ends in E.
  - destruct (join st) as [|c l] eqn:Ej; [by destruct q as [|? []]|].
    simpl in E. rewrite <-Ej in E. by apply join_ends in E.
Qed.


(** ** Split and Join *)

(** [Split] cuts behind the last slash. *)
Lemma Split_spec p : ∃ d f, Split p = Ok (d, f) ∧ p = d ++ f ∧ noslash f ∧
  (d = [] ∨ ∃ d', d = d' ++ [slash]).
Proof.
  unfold Split. change (chr "/") with slash.
  destruct (proj1 (wp_exists _ _) (LastIndexByteString_spec p slash)) as (i & -> & [[-> Hp]|(a & b & -> & Hb & ->)]).
  - exists [], p. split_and!; [|done|done|by left].
    cbn [mbind res_bind]. change (-1 + 1) with 0.
    assert (slice_to p 0 = Ok []) as -> by apply (slice_to_app [] p).
    assert (slice_from p 0 = Ok p) as -> by apply (slice_from_app [] p). done.
  - exists (a ++ [slash]), b. split_and!; [|by rewrite <-app_assoc|done|right; eauto]. simpl.
    replace (len a + 1) with (len (a ++ [slash])) by (rewrite len_app, len_cons, len_nil; lia).
    replace (a ++ slash :: b) with ((a ++ [slash]) ++ b) by (by rewrite <-app_assoc).
    rewrite slice_to_app. simpl. by rewrite slice_from_app.
Qed.

(** Two paths that clean to the same one. *)
Definition same (p q : list Z) : Prop :=
  is_rooted p = is_rooted q ∧
  ∀ R st, fold_left (clean_step R) (elements p) st = fold_left (clean_step R) (elements q) st.

Lemma same_clean p q : same p q → clean_spec p = clean_spec q.
Proof. intros [Hr He]. unfold clean_spec. by rewrite Hr, He. Qed.

Lemma same_refl p : same p p.
Proof. done. Qed.

Lemma rooted_app p q : p ≠ [] → is_rooted (p ++ q) = is_rooted p.
Proof. by destruct p. Qed.

Lemma same_slash p q : p ≠ [] → same p q → same (p ++ [slash]) q.
Proof.
  intros Hp [Hr He]. split; [by rewrite rooted_app|]. intros R st.
  rewrite elements_join_slash, fold_left_app, He. done.
Qed.

Lemma same_element p q e : p ≠ [] → q ≠ [] → same p q → same (p ++ slash :: e) (q ++ slash :: e).
Proof.
  intros Hp Hq [Hr He]. split; [by rewrite !rooted_app|]. intros R st.
  by rewrite !elements_join_slash, !fold_left_app, He.
Qed.

(** Joining the elements that are not empty. *)
Definition join_more (p : list Z) (es : list (list Z)) : list Z :=
  fold_left (λ p e, p ++ slash :: e) es p.

Lemma Join_loop_more es p q : p ≠ [] → q ≠ [] → same p q →
  same (Join_loop es p) (join_more q (filter (λ e, e ≠ []) es)).
Proof.
  revert p q. induction es as [|e es IH]; intros p q Hp Hq Hpq; [done|].
  assert ((0 <? len p) = true) as Hlen.
  { destruct p as [|c p]; [done|]. rewrite len_cons. pose proof (len_nonneg p). lia. }
  unfold Join_loop, join_more. simpl. rewrite Hlen. simpl.
  change (str "/") with [slash]. destruct e as [|c e].
  - rewrite app_nil_r. rewrite filter_cons_False by (intros H; by apply H). apply IH; [by destruct p|done|].
    by apply same_slash.
  - rewrite filter_cons_True by done. simpl. rewrite <-app_assoc. simpl.
    apply IH; [by destruct p|by destruct q|]. by apply same_element.
Qed.

Definition join_spec (elem : list (list Z)) : list Z :=
  match filter (λ e, e ≠ []) elem with
  | [] => []
  | e :: es => clean_spec (join_more e es)
  end.

Lemma size_zero elem n : 0 ≤ n → (fold_left (λ size e, size + len e) elem n =? 0) =
  (n =? 0) && bool_decide (filter (λ e : list Z, e ≠ []) elem = []).
Proof.
  revert n. induction elem as [|e elem IH]; intros n Hn; [by rewrite andb_true_r|]. simpl.
  rewrite IH by (pose proof (len_nonneg e); lia). destruct e as [|c e].
  - rewrite len_nil, Z.add_0_r, filter_cons_False by (intros H; by apply H). done.
  - rewrite filter_cons_True by done. rewrite len_cons. pose proof (len_nonneg e).
    rewrite (proj2 (Z.eqb_neq _ _)) by lia. by rewrite andb_false_r.
Qed.

Lemma Join_loop_spec elem : filter (λ e, e ≠ []) elem ≠ [] →
  clean_spec (Join_loop elem []) = join_spec elem.
Proof.
  unfold join_spec. induction elem as [|e elem IH]; [done|]. destruct e as [|c e].
  - rewrite filter_cons_False by (intros H; by apply H). exact IH.
  - rewrite filter_cons_True by done. intros _. apply same_clean.
    by apply (Join_loop_more elem (c :: e) (c :: e)).
Qed.

Lemma Join_ok elem : Join elem = Ok (join_spec elem).
Proof.
  unfold Join. rewrite size_zero by done. case_bool_decide as E.
  - unfold join_spec. by rewrite E.
  - simpl. by rewrite Clean_ok, Join_loop_spec.
Qed.

(** Joining what [Split] cut gives the clean path. *)
Lemma Join_Split p d f : p ≠ [] → Split p = Ok (d, f) → Join [d; f] = Clean p.
Proof.
  intros Hp H. destruct (Split_spec p) as (d' & f' & H' & -> & Hf & Hd). rewrite H in H'. injection H' as <- <-.
  rewrite Join_ok, Clean_ok. f_equal. unfold join_spec.
  destruct (decide (d = [])) as [->|Hd0].
  - rewrite filter_cons_False by (intros H1; by apply H1). simpl in Hp. by rewrite filter_cons_True.
  - rewrite filter_cons_True by done. destruct Hd as [|[d' ->]]; [done|].
    destruct (decide (f = [])) as [->|Hf0].
    + rewrite filter_cons_False by (intros H1; by apply H1). by rewrite app_nil_r.
    + rewrite filter_cons_True by done. simpl. apply same_clean. unfold join_more. simpl.
      rewrite <-!app_assoc. simpl. split.
      * destruct d'; done.
      * intros R st. rewrite !elements_join_slash, !fold_left_app. done.
Qed.

(** ** Base, Dir, Ext and IsAbs *)

Lemma IsAbs_ok p : IsAbs p = Ok (is_rooted p).
Proof.
  unfold IsAbs. destruct p as [|c p]; [done|]. rewrite len_cons. pose proof (len_nonneg p).
  by rewrite (proj2 (Z.ltb_lt _ _)) by lia.
Qed.

Lemma idx_last (a : list Z) x : idx (a ++ [x]) (len (a ++ [x]) - 1) = Ok x.
Proof.
  replace (len (a ++ [x]) - 1) with (len a) by (rewrite len_app, len_cons, len_nil; lia).
  apply idx_mid.
Qed.

Lemma slice_last (a : list Z) x : slice (a ++ [x]) 0 (len (a ++ [x]) - 1) = Ok a.
Proof.
  replace (len (a ++ [x]) - 1) with (len a) by (rewrite len_app, len_cons, len_nil; lia).
  unfold slice. rewrite decide_True.
  - rewrite Z.sub_0_r. unfold len. by rewrite Nat2Z.id, drop_0, take_app_length.
  - pose proof (len_nonneg a). simpl_len. lia.
Qed.

Lemma strip_slashes_spec p n : (∀ q, p ≠ q ++ [slash]) →
  strip_slashes (p ++ replicate n slash) = Ok p.
Proof.
  intros Hp. apply wp_eq. unfold strip_slashes. change (chr "/") with slash.
  apply (wp_loop (λ q, ∃ m, q = p ++ replicate m slash) len).
  - by exists n.
  - intros q _. apply len_nonneg.
  - unfold fuel_of. pose proof (len_nonneg (p ++ replicate n slash)). lia.
  - intros q [m ->]. destruct m as [|m].
    + simpl. rewrite app_nil_r. destruct (list_rev_case p) as [->|(p' & x & ->)]; [done|].
      rewrite idx_last. rewrite (proj2 (Z.ltb_lt _ _)) by (pose proof (len_nonneg p'); simpl_len; lia).
      simpl. rewrite (proj2 (Z.eqb_neq x slash)); [done|]. intros ->. by eapply Hp.
    + replace (S m) with (m + 1)%nat by lia. rewrite replicate_add, app_assoc. simpl replicate.
      rewrite idx_last, slice_last. rewrite (proj2 (Z.ltb_lt _ _)) by
        (pose proof (len_nonneg (p ++ replicate m slash)); simpl_len; lia).
      simpl. split; [by exists m|]. simpl_len. lia.
Qed.


Lemma slash_inj (a b a' b' : list Z) : noslash b → noslash b' →
  a ++ slash :: b = a' ++ slash :: b' → a = a' ∧ b = b'.
Proof.
  revert a'. induction a as [|x a IH]; intros [|x' a'] Hb Hb' E.
  - by injection E as ->.
  - injection E as Ex E. exfalso. apply Hb. rewrite E. apply elem_of_app. right. by left.
  - injection E as Ex E. exfalso. apply Hb'. rewrite <-E. apply elem_of_app. right. by left.
  - injection E as -> E. by destruct (IH a' Hb Hb' E) as [-> ->].
Qed.

(** What follows the last slash. *)
Lemma LastIndex_last a b : noslash b → (a = [] ∨ ∃ a', a = a' ++ [slash]) →
  LastIndexByteString (a ++ b) slash = Ok (len a - 1).
Proof.
  intros Hb Ha. apply wp_eq. eapply wp_mono; [apply LastIndexByteString_spec|].
  intros i [[-> Hs]|(u & v & E & Hv & ->)]; destruct Ha as [->|[a' ->]].
  - done.
  - destruct Hs. set_solver.
  - exfalso. apply Hb. simpl in E. rewrite E. set_solver.
  - rewrite <-app_assoc in E. apply slash_inj in E as [-> _]; [|done..]. simpl_len. lia.
Qed.

Lemma Base_element a b n : noslash b → b ≠ [] → (a = [] ∨ ∃ a', a = a' ++ [slash]) →
  Base (a ++ b ++ replicate n slash) = Ok b.
Proof.
  intros Hb Hne Ha. unfold Base. change (chr "/") with slash.
  rewrite bool_decide_false by (destruct a, b; done).
  rewrite app_assoc, strip_slashes_spec.
  - cbn [mbind res_bind]. rewrite LastIndex_last by done. cbn [mbind res_bind].
    rewrite Z.sub_add. destruct (Z.leb_spec 0 (len a - 1)) as [Hle|Hle].
    + rewrite slice_from_app. simpl. by rewrite bool_decide_false.
    + assert (a = []) as -> by (apply len_0_nil; pose proof (len_nonneg a); lia). simpl.
      by rewrite bool_decide_false.
  - intros q E. destruct (list_rev_case b) as [->|(b' & x & ->)]; [done|].
    rewrite app_assoc in E. apply app_inj_tail in E as [_ ->]. apply Hb. set_solver.
Qed.

Lemma Base_root n : Base (replicate (S n) slash) = Ok [slash].
Proof.
  unfold Base. rewrite bool_decide_false by done. change (chr "/") with slash.
  pose proof (strip_slashes_spec [] (S n)) as E. rewrite app_nil_l in E. rewrite E by (by intros []).
  done.
Qed.

(** Every path is of one of these forms. *)
Lemma Base_cases p : p = [] ∨ (∃ n, p = replicate (S n) slash) ∨
  ∃ a b n, p = a ++ b ++ replicate n slash ∧ noslash b ∧ b ≠ [] ∧ (a = [] ∨ ∃ a', a = a' ++ [slash]).
Proof.
  induction p as [|x p IH] using rev_ind; [by left|]. right. destruct (decide (x = slash)) as [->|Hx].
  - destruct IH as [->|[[n ->]|(a & b & n & -> & Hb)]].
    + left. by exists 0%nat.
    + left. exists (S n). rewrite <-replicate_S_end. done.
    + right. exists a, b, (S n). rewrite replicate_S_end, <-!app_assoc. done.
  - right. destruct (Split_spec p) as (d & f & _ & -> & Hf & Hd). exists d, (f ++ [x]), 0%nat.
    rewrite app_nil_r, app_assoc. split_and!; [done| |by destruct f|done].
    intros [|E%list_elem_of_singleton]%elem_of_app; done.
Qed.

Lemma Ext_run p (Q : list Z → Prop) :
  (∀ u v, p = u ++ v → noslash v → 46 ∉ v → u = [] ∨ (∃ u', u = u' ++ [slash]) → Q []) →
  (∀ u v, p = u ++ 46 :: v → noslash v → 46 ∉ v → Q (46 :: v)) →
  wp (Ext p) Q.
Proof.
  intros Hnone Hsome. unfold Ext. change (chr "/") with slash. change (chr ".") with 46.
  apply (wp_loop (λ i, ∃ u v, p = u ++ v ∧ noslash v ∧ 46 ∉ v ∧ i = len u - 1) (λ i, i + 1)).
  - exists p, []. split_and!; [by rewrite app_nil_r|apply not_elem_of_nil..|done].
  - intros i (u & v & _ & _ & _ & ->). pose proof (len_nonneg u). lia.
  - unfold fuel_of. pose proof (len_nonneg p). lia.
  - intros i (u & v & -> & Hv & Hd & ->). destruct (list_rev_case u) as [->|(u' & x & ->)].
    { simpl. eapply Hnone; [done..|by left]. }
    replace (len (u' ++ [x]) - 1) with (len u') by (simpl_len; lia).
    rewrite (proj2 (Z.leb_le _ _)) by apply len_nonneg. rewrite <-app_assoc. simpl. rewrite idx_mid. simpl.
    destruct (Z.eqb_spec x slash) as [->|Hx]; simpl.
    { apply (Hnone (u' ++ [slash]) v); [by rewrite <-app_assoc|done..|right; eauto]. }
    destruct (Z.eqb_spec x 46) as [->|Hx'].
    + rewrite slice_from_app. simpl. by apply (Hsome u' v); [rewrite <-app_assoc|..].
    + simpl. split; [|lia]. exists u', (x :: v). split_and!; [by rewrite <-?app_assoc| | |done].
      * intros [E|]%elem_of_cons; [congruence|done].
      * intros [E|]%elem_of_cons; [congruence|done].
Qed.

(** The extension starts at the last dot behind the last slash. *)
Definition ext_spec (p e : list Z) : Prop :=
  (∃ u v, p = u ++ 46 :: v ∧ noslash v ∧ 46 ∉ v ∧ e = 46 :: v) ∨
  (∃ u v, p = u ++ v ∧ noslash v ∧ 46 ∉ v ∧ (u = [] ∨ ∃ u', u = u' ++ [slash]) ∧ e = []).

Lemma Ext_ok p : ∃ e, Ext p = Ok e ∧ ext_spec p e.
Proof.
  apply wp_exists. apply Ext_run.
  - intros u v. right. by exists u, v.
  - intros u v. left. by exists u, v.
Qed.
