(* ===== verification/PathProps.v ===== *)
(** * path: what the lexical functions promise *)

From Stdlib Require Import String.
From stdpp Require Import base.
From S2P Require Import Prelude Bytealg Path PathProofs.

(** C23: The functions of the package, for every byte string and without a panic.
    [Clean] returns what the lexical
    rules of its documentation give: the elements between the slashes are read
    from the left, empty ones and [.] are dropped, [..] removes the element
    before it, is dropped at the root and kept at the beginning of a path that is
    not rooted; what is left is joined by single slashes behind the root slash,
    and the empty path becomes ["."]. The result consists of leading [..]
    elements (none under a root) and real elements, it is cleaned to itself, and
    it ends in a slash only when it is the root.
    [Split] cuts behind the last slash, so that the parts concatenate to the path
    and the file part has no slash; [Dir] is the cleaned first part; [Join] cleans
    its non-empty elements joined by slashes and is empty when there is none, and
    it inverts [Split] up to [Clean]; [Base] is the last element without the
    slashes behind it, ["."] for the empty path and ["/"] for slashes only; [Ext]
    starts at the last dot behind the last slash; [IsAbs] tells rooted paths. *)
Theorem path_correct (p : list Z) :
  (Clean p = Ok (clean_spec p) ∧
   (∃ st, canonical (is_rooted p) st ∧ clean_spec p = nonempty (render (is_rooted p) st)) ∧
   Clean (clean_spec p) = Ok (clean_spec p) ∧
   (∀ q, clean_spec p = q ++ str "/" → q = [])) ∧
  (∃ d f, Split p = Ok (d, f) ∧ p = d ++ f ∧ noslash f ∧ (d = [] ∨ ∃ d', d = d' ++ str "/") ∧
    Dir p = Ok (clean_spec d) ∧ (p ≠ [] → Join [d; f] = Clean p)) ∧
  (∀ elem, Join elem = Ok (join_spec elem)) ∧
  (Base [] = Ok (str ".") ∧ (∀ n, Base (replicate (S n) (chr "/")) = Ok (str "/")) ∧
   ∀ a b n, noslash b → b ≠ [] → (a = [] ∨ ∃ a', a = a' ++ str "/") →
     Base (a ++ b ++ replicate n (chr "/")) = Ok b) ∧
  (p = [] ∨ (∃ n, p = replicate (S n) (chr "/")) ∨
   ∃ a b n, p = a ++ b ++ replicate n (chr "/") ∧ noslash b ∧ b ≠ [] ∧
     (a = [] ∨ ∃ a', a = a' ++ str "/")) ∧
  (∃ e, Ext p = Ok e ∧ ext_spec p e) ∧
  IsAbs p = Ok (is_rooted p).
Proof.
  split_and!.
  - apply Clean_ok.
  - apply clean_spec_render.
  - by rewrite Clean_ok, clean_idempotent.
  - intros q. apply clean_ends.
  - destruct (Split_spec p) as (d & f & H & Hp & Hf & Hd). exists d, f.
    split_and!; [done..| |by intros ?; eapply Join_Split].
    unfold Dir. rewrite H. simpl. apply Clean_ok.
  - apply Join_ok.
  - done.
  - apply Base_root.
  - apply Base_element.
  - apply Base_cases.
  - apply Ext_ok.
  - apply IsAbs_ok.
Qed.

Lemma path_correct_witness :
  Split (str "/a//b.c") = Ok (str "/a//", str "b.c") ∧
  Base (str "/a//" ++ str "b.c" ++ replicate 2 (chr "/")) = Ok (str "b.c") ∧
  Join [str ""; str "/a/"; str ""; str "../b"] = Ok (str "/b") ∧
  Ext (str "/a.b/c.d.e") = Ok (str ".e") ∧ Ext (str "/a.b/c") = Ok [].
Proof.
  split; [vm_compute; reflexivity|]. split; [|split_and!; vm_compute; reflexivity].
  destruct (path_correct []) as (_ & _ & _ & (_ & _ & H) & _). apply H; clear H.
  - unfold noslash. vm_compute. intros H. repeat (apply elem_of_cons in H as [H|H]; [discriminate|]).
    by apply elem_of_nil in H.
  - discriminate.
  - right. exists (str "/a/"). reflexivity.
Defined.
