(* ===== verification/Match.v ===== *)
(** * path: Match

    The shell pattern matcher of path/match.go. A pattern and a name are the lists
    of their bytes; the only error is [ErrBadPattern]. *)

From Stdlib Require Import String.
From stdpp Require Import base.
From S2P Require Import Prelude Bytealg Utf8.

Inductive error := ErrBadPattern.

(** [err != nil] *)
Definition is_err (err : option error) : bool := match err with Some _ => true | None => false end.

(** [getEsc] returns the character, the rest of the chunk and the error. *)
Definition getEsc (chunk : list Z) : res (Z * list Z * option error) :=
  bad ← orM (len chunk =? 0) (c ← idx chunk 0; mret ((c =? chr "-") || (c =? chr "]")));
  if bad : bool then mret (0, [], Some ErrBadPattern) else
  c ← idx chunk 0;
  chunk ← (if c =? chr "\" then slice_from chunk 1 else mret chunk);
  if (c =? chr "\") && (len chunk =? 0) then mret (0, chunk, Some ErrBadPattern) else
  '(r, n) ← DecodeRuneInString chunk;
  let err := if (r =? RuneError) && (n =? 1) then Some ErrBadPattern else None in
  nchunk ← slice_from chunk n;
  mret (r, nchunk, if len nchunk =? 0 then Some ErrBadPattern else err).

(** The ranges of a class, up to its end; [None] is an error. *)
Definition class_loop (chunk : list Z) (r : Z) : res (option (list Z * bool)) :=
  loop (fuel_of (len chunk)) (λ '(chunk, match_, nrange),
    stop ← andM (0 <? len chunk) (c ← idx chunk 0; mret ((c =? chr "]") && (0 <? nrange)));
    if stop : bool then chunk ← slice_from chunk 1; mret (inr (Some (chunk, match_))) else
    '(lo, chunk, err) ← getEsc chunk;
    if is_err err then mret (inr None) else
    let hi := lo in
    c ← idx chunk 0;
    if c =? chr "-" then
      chunk ← slice_from chunk 1;
      '(hi, chunk, err) ← getEsc chunk;
      if is_err err then mret (inr None) else
      mret (inl (chunk, match_ || (lo <=? r) && (r <=? hi), nrange + 1))
    else mret (inl (chunk, match_ || (lo <=? r) && (r <=? hi), nrange + 1)))
    (chunk, false, 0).

(** The case ['['] of the loop of [matchChunk]. *)
Definition match_class (chunk s : list Z) (failed : bool) : res (option (list Z * list Z * bool)) :=
  '(r, s) ← (if negb failed then '(r, n) ← DecodeRuneInString s; s ← slice_from s n; mret (r, s)
             else mret (0, s));
  chunk ← slice_from chunk 1;
  negated ← andM (0 <? len chunk) (c ← idx chunk 0; mret (c =? chr "^"));
  chunk ← (if negated : bool then slice_from chunk 1 else mret chunk);
  o ← class_loop chunk r;
  match o with
  | None => mret None
  | Some (chunk, match_) => mret (Some (chunk, s, failed || Bool.eqb match_ negated))
  end.

(** The default case, for a chunk that is not empty. *)
Definition match_byte (chunk s : list Z) (failed : bool) : res (list Z * list Z * bool) :=
  '(s, failed) ← (if negb failed then
      c ← idx chunk 0; x ← idx s 0; s ← slice_from s 1; mret (s, negb (c =? x))
    else mret (s, failed));
  chunk ← slice_from chunk 1;
  mret (chunk, s, failed).

(** One round of the loop of [matchChunk]; [None] is an error. *)
Definition match_round (chunk s : list Z) (failed : bool) : res (option (list Z * list Z * bool)) :=
  let failed := failed || (len s =? 0) in
  c ← idx chunk 0;
  if c =? chr "[" then match_class chunk s failed
  else if c =? chr "?" then
    '(s, failed) ← (if negb failed then
        x ← idx s 0; '(_, n) ← DecodeRuneInString s; s ← slice_from s n; mret (s, x =? chr "/")
      else mret (s, failed));
    chunk ← slice_from chunk 1;
    mret (Some (chunk, s, failed))
  else if c =? chr "\" then
    chunk ← slice_from chunk 1;
    if len chunk =? 0 then mret None
    else o ← match_byte chunk s failed; mret (Some o)
  else o ← match_byte chunk s failed; mret (Some o).

(** [matchChunk] returns the rest of [s], whether it matched, and the error. *)
Definition matchChunk (chunk s : list Z) : res (list Z * bool * option error) :=
  loop (fuel_of (len chunk)) (λ '(chunk, s, failed),
    if 0 <? len chunk then
      o ← match_round chunk s failed;
      match o with
      | None => mret (inr ([], false, Some ErrBadPattern))
      | Some st => mret (inl st)
      end
    else if failed : bool then mret (inr ([], false, None)) else mret (inr (s, true, None)))
    (chunk, s, false).

Definition strip_stars (pattern : list Z) : res (bool * list Z) :=
  loop (fuel_of (len pattern)) (λ '(star, pattern),
    more ← andM (0 <? len pattern) (c ← idx pattern 0; mret (c =? chr "*"));
    if more : bool then pattern ← slice_from pattern 1; mret (inl (true, pattern))
    else mret (inr (star, pattern))) (false, pattern).

Definition scanChunk (pattern : list Z) : res (bool * list Z * list Z) :=
  '(star, pattern) ← strip_stars pattern;
  loop (fuel_of (len pattern)) (λ '(i, inrange),
    if i <? len pattern then
      c ← idx pattern i;
      if c =? chr "\" then
        let i := if i + 1 <? len pattern then i + 1 else i in mret (inl (i + 1, inrange))
      else if c =? chr "[" then mret (inl (i + 1, true))
      else if c =? chr "]" then mret (inl (i + 1, false))
      else if (c =? chr "*") && negb inrange then
        chunk ← slice_to pattern i; rest ← slice_from pattern i; mret (inr (star, chunk, rest))
      else mret (inl (i + 1, inrange))
    else mret (inr (star, pattern, []))) (0, false).

(** The attempts to match a chunk behind a star: the name that is left after the
    first success ([inl]), or nothing. An error is [inr]. *)
Definition star_loop (chunk name : list Z) (last : bool) : res (option (list Z) + error) :=
  loop (fuel_of (len name)) (λ i,
    more ← andM (i <? len name) (c ← idx name i; mret (negb (c =? chr "/")));
    if more : bool then
      s ← slice_from name (i + 1);
      '(t, ok, err) ← matchChunk chunk s;
      if (ok : bool) && negb (last && (0 <? len t)) then mret (inr (inl (Some t)))
      else if ok then mret (inl (i + 1))
      else if is_err err then mret (inr (inr ErrBadPattern))
      else mret (inl (i + 1))
    else mret (inr (inl None))) 0.

(** The rest of the pattern is only checked for errors. *)
Definition check_rest (pattern : list Z) : res (bool * option error) :=
  loop (fuel_of (len pattern)) (λ pattern,
    if 0 <? len pattern then
      '(_, chunk, pattern) ← scanChunk pattern;
      '(_, _, err) ← matchChunk chunk [];
      if is_err err then mret (inr (false, err)) else mret (inl pattern)
    else mret (inr (false, None))) pattern.

Definition Match (pattern name : list Z) : res (bool * option error) :=
  loop (fuel_of (len pattern)) (λ '(pattern, name),
    if 0 <? len pattern then
      '(star, chunk, pattern) ← scanChunk pattern;
      if (star : bool) && (len chunk =? 0) then
        i ← IndexByteString name (chr "/"); mret (inr (i <? 0, None))
      else
      '(t, ok, err) ← matchChunk chunk name;
      if (ok : bool) && ((len t =? 0) || (0 <? len pattern)) then mret (inl (pattern, t))
      else if is_err err then mret (inr (false, err))
      else
        o ← (if star then star_loop chunk name (len pattern =? 0) else mret (inl None));
        match o with
        | inr e => mret (inr (false, Some e))
        | inl (Some t) => mret (inl (pattern, t))
        | inl None => r ← check_rest pattern; mret (inr r)
        end
    else mret (inr (len name =? 0, None))) (pattern, name).
