(* ===== verification/MatchProofs.v ===== *)
(** * path.Match: the pattern grammar and the matcher

    The documented grammar of patterns as relations on byte strings, the meaning
    of a pattern, and the proof that the code reads patterns by the grammar. *)

From Stdlib Require Import String.
From stdpp Require Import base.
From S2P Require Import Prelude Bytealg Utf8 Match.


(** ** The grammar *)

Abbreviation slash := 47.
Abbreviation star := 42.
Abbreviation question := 63.
Abbreviation open_ := 91.
Abbreviation close := 93.
Abbreviation backslash := 92.
Abbreviation caret := 94.
Abbreviation dash := 45.

Inductive term :=
  | Star
  | Any
  | Lit (c : Z)
  | Class (negated : bool) (ranges : list (Z * Z)).

(** A character of a class, with something behind it. *)
Inductive esc : list Z → Z → list Z → Prop :=
  | esc_char r q : scalar r → r ≠ dash → r ≠ close → r ≠ backslash → q ≠ [] →
      esc (utf8_encode r ++ q) r q
  | esc_quoted r q : scalar r → q ≠ [] → esc (backslash :: utf8_encode r ++ q) r q.

(** The ranges of a class and what follows it. *)
Inductive ranges : list Z → list (Z * Z) → list Z → Prop :=
  | ranges_end q : ranges (close :: q) [] q
  | ranges_one p lo q rs t : esc p lo q → head q ≠ Some dash → ranges q rs t →
      ranges p ((lo, lo) :: rs) t
  | ranges_pair p lo q hi q' rs t : esc p lo (dash :: q) → esc q hi q' → ranges q' rs t →
      ranges p ((lo, hi) :: rs) t.

(** One term of a pattern, other than a star, and what follows it. *)
Inductive item : list Z → term → list Z → Prop :=
  | item_any q : item (question :: q) Any q
  | item_lit c q : c ≠ question → c ≠ open_ → c ≠ backslash → item (c :: q) (Lit c) q
  | item_quoted c q : item (backslash :: c :: q) (Lit c) q
  | item_class p rs q : head p ≠ Some caret → rs ≠ [] → ranges p rs q →
      item (open_ :: p) (Class false rs) q
  | item_negated p rs q : rs ≠ [] → ranges p rs q →
      item (open_ :: caret :: p) (Class true rs) q.

Inductive parses : list Z → list term → Prop :=
  | parses_nil : parses [] []
  | parses_star p ts : parses p ts → parses (star :: p) (Star :: ts)
  | parses_item p t q ts : head p ≠ Some star → item p t q → parses q ts → parses p (t :: ts).

(** ** The meaning of a pattern *)

Definition in_ranges (r : Z) (rs : list (Z * Z)) : bool :=
  existsb (λ '(lo, hi), (lo <=? r) && (r <=? hi)) rs.

(** What a term takes from the front of a name. *)
Definition eat (t : term) (s : list Z) : option (list Z) :=
  match t, s with
  | Lit c, x :: s' => if c =? x then Some s' else None
  | Any, x :: _ => if x =? slash then None else Some (drop (Z.to_nat (snd (decode s))) s)
  | Class neg rs, _ :: _ =>
      if Bool.eqb (in_ranges (fst (decode s)) rs) neg then None
      else Some (drop (Z.to_nat (snd (decode s))) s)
  | _, _ => None
  end.

Inductive matches : list term → list Z → Prop :=
  | matches_nil : matches [] []
  | matches_star a s ts : slash ∉ a → matches ts s → matches (Star :: ts) (a ++ s)
  | matches_eat t ts s s' : eat t s = Some s' → matches ts s' → matches (t :: ts) s.

(** ** Characters of a class *)

Lemma encode_bytes r : scalar r →
  (r < 0x80 ∧ utf8_encode r = [r]) ∨ (0x80 ≤ r ∧ Forall (λ b, 0x80 ≤ b) (utf8_encode r)).
Proof.
  unfold scalar, utf8_encode. intros Hr. zcases; [by left| | |]; right; split; try lia;
    repeat constructor; dlia.
Qed.

Lemma encode_head r q : scalar r → ∃ b t, utf8_encode r ++ q = b :: t ∧ (b = r ∨ 0x80 ≤ b ∧ 0x80 ≤ r).
Proof.
  intros Hr. destruct (encode_bytes r Hr) as [[? ->]|[Hge H]]; [exists r, q; auto|].
  pose proof (utf8_encode_nonempty r) as Hne. destruct (utf8_encode r) as [|b t]; [done|].
  apply Forall_cons in H as [Hb _]. exists b, (t ++ q). auto.
Qed.

Lemma esc_det p r q r' q' : esc p r q → esc p r' q' → r = r' ∧ q = q'.
Proof.
  intros H. revert r' q'. destruct H as [r q Hr H1 H2 H3 Hq|r q Hr Hq]; intros r' q' H'.
  - inversion H' as [r1 q1 Hr1 ???? E|r1 q1 Hr1 ? E]; subst.
    + by apply utf8_encode_inj in E as [-> ->].
    + destruct (encode_head r q Hr) as (b & t & Eb & Hb). rewrite Eb in E. injection E as <- _. lia.
  - inversion H' as [r1 q1 Hr1 ???? E|r1 q1 Hr1 ? E]; subst.
    + destruct (encode_head r' q' Hr1) as (b & t & Eb & Hb). rewrite Eb in E. injection E as -> _. lia.
    + by apply utf8_encode_inj in E as [-> ->].
Qed.

Lemma esc_len p r q : esc p r q → len q < len p.
Proof.
  intros H. destruct H as [r q|r q]; [|rewrite len_cons]; rewrite len_app; pose proof (utf8_encode_len r); lia.
Qed.

Lemma esc_bytes p r q : esc p r q → Forall byte p → Forall byte q.
Proof. intros H. destruct H; [|rewrite Forall_cons; intros [_ H']; revert H']; rewrite Forall_app; tauto. Qed.

Lemma slice_from_1 {A} (x : A) l : slice_from (x :: l) 1 = Ok l.
Proof. unfold slice_from. rewrite decide_True by (rewrite len_cons; pose proof (len_nonneg l); lia). done. Qed.

Lemma DecodeRuneInString_decode s : Forall byte s → DecodeRuneInString s = Ok (decode s).
Proof. intros. rewrite DecodeRuneInString_DecodeRune. by apply DecodeRune_decode. Qed.

Lemma slice_app_from {A} (a b : list A) : slice_from (a ++ b) (len a) = Ok b.
Proof.
  unfold slice_from. rewrite decide_True by (rewrite len_app; pose proof (len_nonneg a);
    pose proof (len_nonneg b); lia).
  unfold len. by rewrite Nat2Z.id, drop_app_length.
Qed.

(** Behind an optional backslash: the code decodes one rune. *)
Lemma getEsc_rune p : Forall byte p → p ≠ [] →
  wp ('(r, n) ← DecodeRuneInString p;
      let err := if (r =? RuneError) && (n =? 1) then Some ErrBadPattern else None in
      nchunk ← slice_from p n;
      mret (r, nchunk, if len nchunk =? 0 then Some ErrBadPattern else err))
    (λ '(r, q, err), match err with
       | None => scalar r ∧ p = utf8_encode r ++ q ∧ q ≠ []
       | Some _ => ∀ r q, scalar r → q ≠ [] → p ≠ utf8_encode r ++ q end).
Proof.
  intros Hp Hne. rewrite DecodeRuneInString_decode by done. cbn [mbind res_bind].
  destruct (decode_cases p Hp Hne) as [r rest Hr ->|Herr].
  - rewrite slice_app_from. simpl.
    assert ((r =? RuneError) && (len (utf8_encode r) =? 1) = false) as ->.
    { destruct (Z.eqb_spec r RuneError) as [->|]; [by vm_compute|done]. }
    destruct (Z.eqb_spec (len rest) 0) as [E|E].
    + apply len_0_nil in E as ->. intros r' q Hr' Hq E. rewrite app_nil_r in E.
      rewrite <-(app_nil_r (utf8_encode r)) in E. by apply utf8_encode_inj in E as [-> <-].
    + split_and!; [done..|]. by intros ->.
  - unfold slice_from. rewrite decide_True.
    + simpl.
      destruct (_ =? 0); intros r q Hr _; by apply Herr.
    + destruct p; [done|]. rewrite len_cons. pose proof (len_nonneg p). lia.
Qed.

Lemma getEsc_spec p : Forall byte p →
  wp (getEsc p) (λ '(r, q, err), match err with
    | None => esc p r q
    | Some _ => ∀ r q, ¬ esc p r q end).
Proof.
  intros Hp. unfold getEsc. change (chr "-") with dash. change (chr "]") with close.
  change (chr "\") with backslash. destruct p as [|c p].
  { simpl. intros r q H. inversion H as [? ? ? ? ? ? ? E|]. by apply app_eq_nil in E as [E _]; apply utf8_encode_nonempty in E. }
  rewrite (proj2 (Z.eqb_neq (len (c :: p)) 0)) by (rewrite len_cons; pose proof (len_nonneg p); lia).
  simpl orM. rewrite idx_0. cbn [mbind res_bind mret res_ret].
  destruct ((c =? dash) || (c =? close)) eqn:Hc.
  { simpl. intros r q H. inversion H as [? ? Hr ? ? ? ? E|? ? ? ? E]; subst.
    - destruct (encode_head r q Hr) as (b & t & Eb & Hb). rewrite Eb in E. injection E as E1 _.
      lia.
    - by simpl in Hc. }
  destruct (Z.eqb_spec c backslash) as [->|Hb]; simpl andb.
  - rewrite slice_from_1. cbn [mbind res_bind]. destruct p as [|c p].
    { simpl. intros r q H. inversion H as [? ? Hr ? ? ? ? E|? ? ? ? E]; subst.
      - destruct (encode_head r q Hr) as (b & t & Eb & Hb). rewrite Eb in E. injection E as E1 _. lia.
      - by apply app_eq_nil in E as [E _]; apply utf8_encode_nonempty in E. }
    rewrite (proj2 (Z.eqb_neq (len (c :: p)) 0)) by (rewrite len_cons; pose proof (len_nonneg p); lia).
    apply Forall_cons in Hp as [_ Hp]. eapply wp_mono; [by apply getEsc_rune|].
    intros [[r q] [e|]].
    + intros Hno r' q' H. inversion H as [? ? Hr ? ? ? ? E|? ? ? ? E]; subst.
      * destruct (encode_head r' q' Hr) as (b & t & Eb & Hb). rewrite Eb in E. injection E as E1 _. lia.
      * by eapply Hno.
    + intros (Hr & -> & Hq). by apply esc_quoted.
  - cbn [mbind res_bind mret res_ret]. eapply wp_mono; [by apply getEsc_rune|].
    intros [[r q] [e|]].
    + intros Hno r' q' H. inversion H as [? ? Hr ? ? ? ? E|? ? ? ? E]; subst; [by eapply Hno|done].
    + intros (Hr & E & Hq). rewrite E. destruct (encode_head r q Hr) as (b & t & Eb & Hb'). rewrite Eb in E.
      injection E as -> ->. apply esc_char; try done; intros ->; lia.
Qed.


(** ** Classes *)

Lemma esc_ne p r q : esc p r q → p ≠ [] ∧ q ≠ [].
Proof.
  intros H. destruct H as [r q Hr|r q]; [|done]. split; [|done].
  intros [E _]%app_eq_nil. by apply utf8_encode_nonempty in E.
Qed.

Lemma not_esc_close q r t : ¬ esc (close :: q) r t.
Proof.
  intros H. inversion H as [? ? Hr ? ? ? ? E|]; subst.
  destruct (encode_head r t Hr) as (b & u & Eb & Hb). rewrite Eb in E. injection E as E1 _. lia.
Qed.

(** A class read from [p], after the ranges [rs1], is one read from [chunk]. *)
Definition continues (chunk p : list Z) (rs1 : list (Z * Z)) : Prop :=
  (∀ rs q, ranges p rs q → ranges chunk (rs1 ++ rs) q) ∧
  (∀ rs' q, ranges chunk rs' q → ∃ rs, rs' = rs1 ++ rs ∧ ranges p rs q).

Lemma continues_refl p : continues p p [].
Proof. split; eauto. Qed.

Lemma ranges_single p lo q x rs' t : esc p lo (x :: q) → x ≠ dash → ranges p rs' t →
  ∃ rs, rs' = (lo, lo) :: rs ∧ ranges (x :: q) rs t.
Proof.
  intros He Hx H. destruct H as [q0|p lo' q' rs t He' Hh Hr|p lo' q' hi q'' rs t He' Hhi Hr].
  - by apply not_esc_close in He.
  - destruct (esc_det _ _ _ _ _ He He') as [-> <-]. eauto.
  - destruct (esc_det _ _ _ _ _ He He') as [-> E]. injection E as -> _. done.
Qed.

Lemma ranges_double p lo q hi q' rs' t : esc p lo (dash :: q) → esc q hi q' → ranges p rs' t →
  ∃ rs, rs' = (lo, hi) :: rs ∧ ranges q' rs t.
Proof.
  intros He He2 H. destruct H as [q0|p lo' q1 rs t He' Hh Hr|p lo' q1 hi' q'' rs t He' Hhi Hr].
  - by apply not_esc_close in He.
  - destruct (esc_det _ _ _ _ _ He He') as [-> <-]. done.
  - destruct (esc_det _ _ _ _ _ He He') as [-> E]. injection E as <-.
    destruct (esc_det _ _ _ _ _ He2 Hhi) as [-> <-]. eauto.
Qed.

Lemma continues_one chunk p rs1 lo x q : continues chunk p rs1 → esc p lo (x :: q) → x ≠ dash →
  continues chunk (x :: q) (rs1 ++ [(lo, lo)]).
Proof.
  intros [H1 H2] He Hx. split.
  - intros rs t Hr. rewrite <-app_assoc. apply H1. eapply ranges_one; [done| |done]. intros [= ->]. done.
  - intros rs' t Hr. destruct (H2 _ _ Hr) as (rs & -> & Hp).
    destruct (ranges_single _ _ _ _ _ _ He Hx Hp) as (rs2 & -> & ?). exists rs2. by rewrite <-app_assoc.
Qed.

Lemma continues_pair chunk p rs1 lo q hi q' : continues chunk p rs1 → esc p lo (dash :: q) → esc q hi q' →
  continues chunk q' (rs1 ++ [(lo, hi)]).
Proof.
  intros [H1 H2] He Hhi. split.
  - intros rs t Hr. rewrite <-app_assoc. apply H1. by eapply ranges_pair.
  - intros rs' t Hr. destruct (H2 _ _ Hr) as (rs & -> & Hp).
    destruct (ranges_double _ _ _ _ _ _ _ He Hhi Hp) as (rs2 & -> & ?). exists rs2. by rewrite <-app_assoc.
Qed.

(** No class can be read on when a character cannot. *)
Lemma no_ranges p rs q : (∀ r q, ¬ esc p r q) → ranges p rs q → rs = [] ∧ p = close :: q.
Proof. intros Hno H. destruct H; [done|..]; exfalso; by eapply Hno. Qed.

Lemma no_ranges_hi p lo q rs t : esc p lo (dash :: q) → (∀ r q', ¬ esc q r q') → ¬ ranges p rs t.
Proof.
  intros He Hno H. destruct H as [q0|p lo' q1 rs t He' Hh Hr|p lo' q1 hi' q'' rs t He' Hhi Hr].
  - by apply not_esc_close in He.
  - destruct (esc_det _ _ _ _ _ He He') as [-> <-]. done.
  - destruct (esc_det _ _ _ _ _ He He') as [-> E]. injection E as <-. by eapply Hno.
Qed.

Lemma in_ranges_snoc r rs lo hi :
  in_ranges r (rs ++ [(lo, hi)]) = in_ranges r rs || (lo <=? r) && (r <=? hi).
Proof. unfold in_ranges. rewrite existsb_app. simpl. by rewrite orb_false_r. Qed.

(** The state of the loop over the ranges. *)
Definition class_state (chunk : list Z) (r : Z) (p : list Z) (m : bool) (n : Z) : Prop :=
  Forall byte p ∧ ∃ rs1, continues chunk p rs1 ∧ m = in_ranges r rs1 ∧ n = len rs1.

Definition class_result (chunk : list Z) (r : Z) (o : option (list Z * bool)) : Prop :=
  match o with
  | Some (q, m) => Forall byte q ∧ ∃ rs, rs ≠ [] ∧ ranges chunk rs q ∧ m = in_ranges r rs
  | None => ∀ rs q, rs ≠ [] → ¬ ranges chunk rs q
  end.

(** The code stops at a closing bracket behind at least one range. *)
Lemma class_stop chunk r p m n : class_state chunk r p m n →
  (∃ q, p = close :: q ∧ 0 < n ∧ class_result chunk r (Some (q, m))) ∨
  (andM (0 <? len p) (c ← idx p 0; mret ((c =? close) && (0 <? n))) = Ok false ∧
   ((∀ r q, ¬ esc p r q) → class_result chunk r None)).
Proof.
  intros (Hp & rs1 & [H1 H2] & Hm & Hn).
  assert (n ≤ 0 ∨ head p ≠ Some close → (∀ r q, ¬ esc p r q) → class_result chunk r None) as Hnone.
  { intros Hd Hno rs q Hrs H. destruct (H2 _ _ H) as (rs2 & -> & H').
    destruct (no_ranges _ _ _ Hno H') as [-> ->]. rewrite app_nil_r in Hrs. destruct Hd as [Hd|Hd].
    - destruct rs1; [done|]. rewrite len_cons in Hn. pose proof (len_nonneg rs1). lia.
    - by destruct Hd. }
  destruct p as [|c p]; [right; split; [done|]; apply Hnone; by right|].
  rewrite len_cons. pose proof (len_nonneg p). rewrite (proj2 (Z.ltb_lt 0 _)) by lia. simpl andM. rewrite ?idx_0.
  cbn [mbind res_bind]. destruct (Z.eqb_spec c close) as [->|Hc]; simpl.
  - destruct (Z.ltb_spec 0 n).
    + left. exists p. split; [done|]. split; [done|]. apply Forall_cons in Hp as [_ Hp]. split; [done|].
      exists rs1. split_and!; [intros ->; rewrite len_nil in Hn; lia| |done].
      rewrite <-(app_nil_r rs1). apply H1. constructor.
    + right. split; [done|]. apply Hnone. left. lia.
  - right. split; [done|]. apply Hnone. right. intros [= ->]. done.
Qed.

Lemma class_loop_spec chunk r : Forall byte chunk → wp (class_loop chunk r) (class_result chunk r).
Proof.
  intros Hc. unfold class_loop. change (chr "]") with close. change (chr "-") with dash.
  apply (wp_loop (λ '(p, m, n), class_state chunk r p m n) (λ '(p, _, _), len p)).
  - split; [done|]. exists []. split; [apply continues_refl|done].
  - intros [[p m] n] _. apply len_nonneg.
  - unfold fuel_of. pose proof (len_nonneg chunk). lia.
  - intros [[p m] n] Hst. pose proof (class_stop _ _ _ _ _ Hst) as [(q & -> & Hn & Hres)|[-> Hnone]].
    { rewrite len_cons. pose proof (len_nonneg q). rewrite (proj2 (Z.ltb_lt 0 _)) by lia. simpl andM.
      rewrite ?idx_0, slice_from_1. simpl. rewrite (proj2 (Z.ltb_lt 0 _)) by done. done. }
    destruct Hst as (Hp & rs1 & Hcont & Hm & Hn). cbn [mbind res_bind].
    apply wp_bind. eapply wp_mono; [by apply getEsc_spec|]. intros [[lo q] [e|]]; simpl; [by apply Hnone|].
    intros He. pose proof (esc_len _ _ _ He) as Hlen. pose proof (esc_bytes _ _ _ He Hp) as Hq.
    destruct (esc_ne _ _ _ He) as [_ Hqne]. destruct q as [|x q]; [done|]. rewrite idx_0. simpl.
    destruct (Z.eqb_spec x dash) as [->|Hx].
    + rewrite slice_from_1. simpl. rewrite len_cons in Hlen. apply Forall_cons in Hq as [_ Hq].
      apply wp_bind. eapply wp_mono; [by apply getEsc_spec|]. intros [[hi q'] [e|]]; simpl.
      { intros Hno rs t Hrs H. destruct (proj2 Hcont _ _ H) as (rs2 & -> & H').
        by eapply no_ranges_hi. }
      intros Hhi. pose proof (esc_len _ _ _ Hhi). split; [|lia]. split; [by eapply esc_bytes|].
      exists (rs1 ++ [(lo, hi)]). rewrite in_ranges_snoc, len_app, len_cons, len_nil, <-Hm.
      split_and!; [by eapply continues_pair|done|lia].
    + simpl. split; [|lia]. split; [done|].
      exists (rs1 ++ [(lo, lo)]). rewrite in_ranges_snoc, len_app, len_cons, len_nil, <-Hm.
      split_and!; [by eapply continues_one|done|lia].
Qed.


(** ** One term *)

Lemma ranges_det p rs q rs' q' : ranges p rs q → ranges p rs' q' → rs = rs' ∧ q = q'.
Proof.
  intros H. revert rs' q'. induction H as [q|p lo q rs t He Hh Hr IH|p lo q hi q1 rs t He Hhi Hr IH]; intros rs' q' H'.
  - inversion H'; subst; [done|..]; by match goal with E : esc (close :: _) _ _ |- _ => apply not_esc_close in E end.
  - destruct (esc_ne _ _ _ He) as [_ Hq]. destruct q as [|x q]; [done|].
    destruct (ranges_single p lo q x rs' q' He ltac:(intros ->; done) H') as (rs2 & -> & H2).
    by destruct (IH _ _ H2) as [-> ->].
  - destruct (ranges_double p lo q hi q1 rs' q' He Hhi H') as (rs2 & -> & H2).
    by destruct (IH _ _ H2) as [-> ->].
Qed.

Lemma item_det p t q t' q' : item p t q → item p t' q' → t = t' ∧ q = q'.
Proof.
  intros H H'. destruct H; inversion H'; subst; try done;
    try match goal with H1 : ranges ?p _ _, H2 : ranges ?p _ _ |- _ =>
      destruct (ranges_det _ _ _ _ _ H1 H2) as [-> ->]; done end.
Qed.

Lemma item_ne p t q : item p t q → p ≠ [].
Proof. by destruct 1. Qed.

Lemma eat_bytes t s s' : eat t s = Some s' → Forall byte s → Forall byte s'.
Proof.
  destruct t as [| |c|neg rs], s as [|x s]; simpl; try done.
  - case_match; [done|]. intros [= <-]. by apply Forall_drop.
  - case_match; [|done]. intros [= <-]. by intros [_ ?]%Forall_cons.
  - case_match; [done|]. intros [= <-]. by apply Forall_drop.
Qed.

(** What one round makes of the chunk and the name. *)
Definition round_result (chunk s : list Z) (failed : bool) (o : option (list Z * list Z * bool)) : Prop :=
  match o with
  | None => ∀ t q, ¬ item chunk t q
  | Some (q, s', failed') => Forall byte q ∧ Forall byte s' ∧ ∃ t, item chunk t q ∧
      (if failed then failed' = true
       else match eat t s with Some s'' => failed' = false ∧ s' = s'' | None => failed' = true end)
  end.

Lemma decode_slice s : Forall byte s → s ≠ [] →
  slice_from s (snd (decode s)) = Ok (drop (Z.to_nat (snd (decode s))) s).
Proof.
  intros Hs Hne. unfold slice_from. rewrite decide_True; [done|].
  destruct (decode_cases s Hs Hne) as [r rest Hr ->|_]; simpl.
  - rewrite len_app. pose proof (len_nonneg (utf8_encode r)). pose proof (len_nonneg rest). lia.
  - destruct s; [done|]. rewrite len_cons. pose proof (len_nonneg s). lia.
Qed.

(** The rest of the case ['['], when the rune of the name is [r]. *)
Lemma class_case (p s' : list Z) r failed :
  Forall byte p →
  wp (negated ← andM (0 <? len p) (c ← idx p 0; mret (c =? chr "^"));
      chunk ← (if negated : bool then slice_from p 1 else mret p);
      o ← class_loop chunk r;
      match o with
      | None => mret None
      | Some (chunk, match_) => mret (Some (chunk, s', failed || Bool.eqb match_ negated))
      end)
    (λ o : option (list Z * list Z * bool), match o with
     | None => ∀ t q, ¬ item (open_ :: p) t q
     | Some (q, s1, failed') => Forall byte q ∧ s1 = s' ∧ ∃ neg rs, item (open_ :: p) (Class neg rs) q ∧
         failed' = failed || Bool.eqb (in_ranges r rs) neg
     end).
Proof.
  intros Hp. change (chr "^") with caret.
  assert (∃ neg p1, (negated ← andM (0 <? len p) (c ← idx p 0; mret (c =? caret));
      chunk ← (if negated : bool then slice_from p 1 else mret p); mret (negated, chunk)) = Ok (neg, p1) ∧
    Forall byte p1 ∧ (∀ rs q, rs ≠ [] → ranges p1 rs q → item (open_ :: p) (Class neg rs) q) ∧
    (∀ t q, item (open_ :: p) t q → ∃ rs, rs ≠ [] ∧ t = Class neg rs ∧ ranges p1 rs q)) as (neg & p1 & E & Hp1 & Hto & Hfrom).
  { destruct p as [|c p].
    - exists false, []. split_and!; [done..| |]; intros; [by apply item_class|].
      match goal with H : item _ _ _ |- _ => inversion H; subst end; [done|eauto].
    - rewrite len_cons. pose proof (len_nonneg p). rewrite (proj2 (Z.ltb_lt 0 _)) by lia. simpl andM. rewrite ?idx_0.
      cbn [mbind res_bind mret res_ret]. destruct (Z.eqb_spec c caret) as [->|Hc].
      + rewrite slice_from_1. exists true, p. apply Forall_cons in Hp as [_ Hp].
        split_and!; [done..| |]; intros; [by apply item_negated|].
        match goal with H : item _ _ _ |- _ => inversion H; subst end; [done..|eauto].
      + exists false, (c :: p). split_and!; [done..| |]; intros.
        * apply item_class; [|done..]. simpl. congruence.
        * match goal with H : item _ _ _ |- _ => inversion H; subst end; [done|eauto|done]. }
  destruct (andM _ _) as [neg'| |]; cbn [mbind res_bind] in E |- *; [|done..].
  destruct (if neg' : bool then _ else _) as [p1'| |]; cbn [mbind res_bind] in E |- *; [|done..].
  injection E as -> ->. apply wp_bind. eapply wp_mono; [by apply class_loop_spec|].
  intros [[q m]|]; simpl.
  - intros (Hq & rs & Hrs & Hr & ->). split_and!; [done|done|]. exists neg, rs. split; [by apply Hto|done].
  - intros Hno t q Hi. destruct (Hfrom _ _ Hi) as (rs & Hrs & -> & Hr). by eapply Hno.
Qed.


Lemma match_byte_spec c p s failed : Forall byte p → Forall byte s → (failed = false → s ≠ []) →
  ∃ s' failed', match_byte (c :: p) s failed = Ok (p, s', failed') ∧ Forall byte s' ∧
    (if failed then failed' = true
     else match eat (Lit c) s with Some s'' => failed' = false ∧ s' = s'' | None => failed' = true end).
Proof.
  intros Hp Hbs Hs. unfold match_byte. destruct failed; simpl.
  - rewrite slice_from_1. simpl. eauto.
  - destruct s as [|x s]; [by destruct Hs|]. rewrite ?idx_0, slice_from_1. simpl. rewrite slice_from_1. simpl.
    exists s, (negb (c =? x)). split; [done|]. apply Forall_cons in Hbs as [_ Hbs]. split; [done|]. by destruct (c =? x).
Qed.

(** The bytes the round treats in its default case. *)
Lemma round_literal c p s failed o : Forall byte p → Forall byte s → (failed = false → s ≠ []) →
  item o (Lit c) p → wp (b ← match_byte (c :: p) s failed; mret (Some b)) (round_result o s failed).
Proof.
  intros Hp Hbs Hs Hi. destruct (match_byte_spec c p s failed Hp Hbs Hs) as (s' & failed' & -> & Hs' & H). simpl.
  split; [done|]. split; [done|]. by exists (Lit c).
Qed.

Lemma match_class_spec p s failed : Forall byte p → Forall byte s → (failed = false → s ≠ []) →
  wp (match_class (open_ :: p) s failed) (round_result (open_ :: p) s failed).
Proof.
  intros Hp Hs Hne. unfold match_class. destruct failed; cbn [negb mbind res_bind mret res_ret].
  - rewrite slice_from_1. cbn [mbind res_bind]. eapply wp_mono; [by apply class_case|].
    intros [[[q s1] failed']|]; [|done]. intros (Hq & -> & neg & rs & Hi & ->). split; [done|]. split; [done|].
    by exists (Class neg rs).
  - rewrite DecodeRuneInString_decode by done. destruct (decode s) as [r n] eqn:Ed. cbn [mbind res_bind].
    pose proof (decode_slice s Hs (Hne eq_refl)) as Hsl. rewrite Ed in Hsl. simpl in Hsl. rewrite Hsl.
    cbn [mbind res_bind mret res_ret]. rewrite slice_from_1. cbn [mbind res_bind].
    eapply wp_mono; [by apply class_case|].
    intros [[[q s1] failed']|]; [|done]. intros (Hq & -> & neg & rs & Hi & ->). split; [done|].
    split; [by apply Forall_drop|]. exists (Class neg rs). split; [done|]. destruct s as [|x s]; [by destruct Hne|].
    cbn [eat]. rewrite Ed. cbn [fst snd]. simpl orb. by destruct (Bool.eqb _ _).
Qed.

Lemma eat_nil t : eat t [] = None.
Proof. by destruct t. Qed.

(** A failed match stays failed: nothing of the empty name is eaten. *)
Lemma round_failed chunk s o : s = [] → round_result chunk s true o → round_result chunk s false o.
Proof.
  intros ->. destruct o as [[[q s'] failed']|]; [|done]. intros (Hq & Hs & t & Hi & ->). split; [done|]. split; [done|].
  exists t. by rewrite eat_nil.
Qed.

Lemma match_round_spec chunk s failed : Forall byte chunk → Forall byte s → chunk ≠ [] →
  wp (match_round chunk s failed) (round_result chunk s failed).
Proof.
  intros Hc Hs Hne. destruct chunk as [|c p]; [done|]. apply Forall_cons in Hc as [_ Hp].
  set (failed1 := failed || (len s =? 0)).
  assert (failed1 = false → s ≠ []) as Hs1.
  { unfold failed1. intros [_ H]%orb_false_iff ->. done. }
  assert (∀ o, round_result (c :: p) s failed1 o → round_result (c :: p) s failed o) as Hf.
  { unfold failed1. intros o. destruct failed; [done|]. simpl. destruct (Z.eqb_spec (len s) 0) as [E|]; [|done].
    apply round_failed, len_0_nil, E. }
  unfold match_round. fold failed1. rewrite idx_0. cbn [mbind res_bind]. eapply wp_mono; [|exact Hf].
  change (chr "[") with open_. change (chr "?") with question. change (chr "\") with backslash.
  change (chr "/") with slash. destruct (Z.eqb_spec c open_) as [->|Ho]; [by apply match_class_spec|].
  destruct (Z.eqb_spec c question) as [->|Hq].
  { assert (∃ s' failed', (if negb failed1 then
        x ← idx s 0; '(_, n) ← DecodeRuneInString s; s ← slice_from s n; mret (s, x =? slash)
      else mret (s, failed1)) = Ok (s', failed') ∧ Forall byte s' ∧
      (if failed1 then failed' = true
       else match eat Any s with Some s'' => failed' = false ∧ s' = s'' | None => failed' = true end))
      as (s' & failed' & -> & Hs' & H).
    { destruct failed1; simpl; [eauto|]. rewrite DecodeRuneInString_decode by done.
      destruct s as [|x s]; [by destruct Hs1|]. rewrite ?idx_0.
      destruct (decode (x :: s)) as [r n] eqn:Ed. cbn [mbind res_bind].
      pose proof (decode_slice (x :: s) Hs ltac:(done)) as Hsl. rewrite Ed in Hsl. simpl in Hsl. rewrite Hsl.
      exists (drop (Z.to_nat n) (x :: s)), (x =? slash). split; [done|]. split; [by apply Forall_drop|]. cbn [eat].
      by destruct (x =? slash). }
    cbn [mbind res_bind]. rewrite slice_from_1. split; [done|]. split; [done|]. exists Any. split; [constructor|done]. }
  destruct (Z.eqb_spec c backslash) as [->|Hb].
  - rewrite slice_from_1. cbn [mbind res_bind]. destruct p as [|c p].
    + simpl. intros t q H. inversion H; subst; done.
    + rewrite (proj2 (Z.eqb_neq (len (c :: p)) 0)) by (rewrite len_cons; pose proof (len_nonneg p); lia).
      apply Forall_cons in Hp as [_ Hp]. apply round_literal; [done..|]. constructor.
  - apply round_literal; [done..|]. by constructor.
Qed.

(** ** A chunk *)

(** The terms of a chunk, in which a star has no meaning of its own. *)
Inductive items : list Z → list term → Prop :=
  | items_nil : items [] []
  | items_cons p t q ts : item p t q → items q ts → items p (t :: ts).

Fixpoint consume (ts : list term) (s : list Z) : option (list Z) :=
  match ts with
  | [] => Some s
  | t :: ts => s' ← eat t s; consume ts s'
  end.

Lemma consume_app ts ts' s : consume (ts ++ ts') s = (s' ← consume ts s; consume ts' s').
Proof.
  revert s. induction ts as [|t ts IH]; intros s; [done|]. simpl. by destruct (eat t s); simpl.
Qed.

Lemma item_len p t q : item p t q → len q < len p.
Proof.
  assert (∀ p rs q, ranges p rs q → len q < len p) as Hr.
  { clear. intros p rs q H. induction H as [q|p lo q rs t He ? ? IH|p lo q hi q' rs t He Hhi ? IH].
    - rewrite len_cons. lia.
    - pose proof (esc_len _ _ _ He). lia.
    - pose proof (esc_len _ _ _ He). pose proof (esc_len _ _ _ Hhi). rewrite len_cons in *. lia. }
  destruct 1 as [q|c q|c q|p rs q ? ? H|p rs q ? H]; rewrite ?len_cons; try lia; apply Hr in H; lia.
Qed.

(** What [matchChunk] returns. *)
Definition chunk_result (chunk s : list Z) (o : list Z * bool * option error) : Prop :=
  let '(t, ok, err) := o in
  match err with
  | Some _ => ok = false ∧ ∀ ts, ¬ items chunk ts
  | None => ∃ ts, items chunk ts ∧ consume ts s = if (ok : bool) then Some t else None
  end.

Lemma matchChunk_spec chunk s : Forall byte chunk → Forall byte s →
  wp (matchChunk chunk s) (chunk_result chunk s).
Proof.
  intros Hc Hs. unfold matchChunk.
  apply (wp_loop (λ '(p, s', failed), Forall byte p ∧ Forall byte s' ∧ ∃ ts1,
      (∀ ts, items p ts → items chunk (ts1 ++ ts)) ∧
      (∀ ts, items chunk ts → ∃ ts2, items p ts2) ∧
      consume ts1 s = if (failed : bool) then None else Some s') (λ '(p, _, _), len p)).
  - split_and!; [done..|]. exists []. split_and!; [done|eauto|done].
  - intros [[p s'] failed] _. apply len_nonneg.
  - unfold fuel_of. pose proof (len_nonneg chunk). lia.
  - intros [[p s'] failed] (Hp & Hs' & ts1 & H1 & H2 & Hcons). destruct p as [|c p].
    + simpl. destruct failed; exists ts1; (split; [|done]); rewrite <-(app_nil_r ts1); apply H1; constructor.
    + rewrite (proj2 (Z.ltb_lt 0 _)) by (rewrite len_cons; pose proof (len_nonneg p); lia).
      apply wp_bind. eapply wp_mono; [by apply match_round_spec|].
      intros [[[q s2] failed2]|]; simpl.
      * intros (Hq & Hs2 & t & Hi & Hres). split; [|by eapply item_len]. split; [done|]. split; [done|].
        exists (ts1 ++ [t]). split_and!.
        { intros ts Hts. rewrite <-app_assoc. apply H1. by econstructor. }
        { intros ts Hts. destruct (H2 _ Hts) as [ts2 Hts2].
          inversion Hts2 as [|p' t' q' ts' Hi' Hts']; subst.
          destruct (item_det _ _ _ _ _ Hi Hi') as [_ <-]. eauto. }
        rewrite consume_app, Hcons. destruct failed; simpl; [by subst|].
        destruct (eat t s') as [s''|]; simpl; [by destruct Hres as [-> ->]|by subst].
      * intros Hno. split; [done|]. intros ts Hts. destruct (H2 _ Hts) as [ts2 Hts2].
        inversion Hts2; subst. by eapply Hno.
Qed.


(** ** Cutting a pattern into chunks *)

(** The chunk before the first star that [scanChunk] takes for one, and the rest. *)
Fixpoint cut (inrange : bool) (p : list Z) : list Z * list Z :=
  match p with
  | [] => ([], [])
  | c :: p' =>
      if c =? backslash then
        match p' with
        | [] => ([c], [])
        | d :: p'' => (c :: d :: (cut inrange p'').1, (cut inrange p'').2)
        end
      else if (c =? star) && negb inrange then ([], p)
      else
        let inrange := if c =? open_ then true else if c =? close then false else inrange in
        (c :: (cut inrange p').1, (cut inrange p').2)
  end.

Lemma cut_app b p : (cut b p).1 ++ (cut b p).2 = p.
Proof.
  revert b. induction p as [p IH] using (induction_ltof1 _ length). unfold ltof in IH. intros b.
  destruct p as [|c p]; [done|]. simpl. destruct (c =? backslash).
  { destruct p as [|d p]; [done|]. simpl. by rewrite IH by (simpl; lia). }
  destruct (_ && _); [done|]. simpl. by rewrite IH by (simpl; lia).
Qed.

Lemma cut_rest b p : (cut b p).2 = [] ∨ ∃ r, (cut b p).2 = star :: r.
Proof.
  revert b. induction p as [p IH] using (induction_ltof1 _ length). unfold ltof in IH. intros b.
  destruct p as [|c p]; [by left|]. simpl. destruct (c =? backslash).
  { destruct p as [|d p]; [by left|]. simpl. apply IH. simpl; lia. }
  destruct (Z.eqb_spec c star) as [->|]; simpl; [destruct (negb b); simpl; [right; eauto|]|]; apply IH; simpl; lia.
Qed.

(** Reading [e] takes the scan from [b] to [b']. *)
Definition sync (b : bool) (e : list Z) (b' : bool) : Prop :=
  ∀ x, cut b (e ++ x) = (e ++ (cut b' x).1, (cut b' x).2).

Lemma sync_nil b : sync b [] b.
Proof. intros x. simpl. by destruct (cut b x). Qed.

Lemma sync_app b e b' e' b'' : sync b e b' → sync b' e' b'' → sync b (e ++ e') b''.
Proof. intros H H' x. rewrite <-app_assoc, H, H'. simpl. by rewrite app_assoc. Qed.

Lemma sync_byte b c : c ≠ backslash → (c = star → b = true) →
  sync b [c] (if c =? open_ then true else if c =? close then false else b).
Proof.
  intros Hb Hs x. simpl. rewrite (proj2 (Z.eqb_neq c backslash)) by done.
  destruct (Z.eqb_spec c star) as [->|]; [by rewrite Hs|done].
Qed.

Lemma sync_quoted b c : sync b [backslash; c] b.
Proof. intros x. done. Qed.

Lemma sync_high b l : Forall (λ c, 0x80 ≤ c) l → sync b l b.
Proof.
  induction 1 as [|c l Hc _ IH]; [apply sync_nil|]. apply (sync_app b [c] b l b); [|done].
  pose proof (sync_byte b c ltac:(lia) ltac:(lia)) as H.
  rewrite (proj2 (Z.eqb_neq c open_)), (proj2 (Z.eqb_neq c close)) in H by lia. done.
Qed.

Lemma esc_sync p r q : esc p r q → ∃ e, p = e ++ q ∧ sync true e true ∧ ∀ x, x ≠ [] → esc (e ++ x) r x.
Proof.
  intros [r' q' Hr H1 H2 H3 Hq|r' q' Hr Hq].
  - exists (utf8_encode r'). split_and!; [done| |intros; by apply esc_char].
    destruct (encode_bytes r' Hr) as [[? ->]|[_ H]]; [|by apply sync_high].
    pose proof (sync_byte true r' H3 ltac:(done)) as Hb.
    rewrite (proj2 (Z.eqb_neq r' close)) in Hb by done. by destruct (r' =? open_).
  - exists (backslash :: utf8_encode r'). split_and!; [done| |intros; by apply esc_quoted].
    destruct (encode_bytes r' Hr) as [[? ->]|[_ H]]; [apply sync_quoted|].
    pose proof (utf8_encode_nonempty r') as Hne. destruct (utf8_encode r') as [|b t]; [done|].
    apply Forall_cons in H as [_ H]. apply (sync_app _ [backslash; b] true t); [apply sync_quoted|by apply sync_high].
Qed.

Lemma ranges_sync p rs q : ranges p rs q →
  ∃ e, e ≠ [] ∧ p = e ++ q ∧ sync true e false ∧ ∀ x, ranges (e ++ x) rs x.
Proof.
  induction 1 as [q|p lo q rs t He Hh Hr IH|p lo q hi q' rs t He Hhi Hr IH].
  - exists [close]. split_and!; [done|done|done|]. intros x. constructor.
  - destruct (esc_sync _ _ _ He) as (e & -> & Hs & Hx). destruct IH as (e' & Hne & -> & Hs' & Hx').
    exists (e ++ e'). split_and!; [by destruct e|by rewrite app_assoc|by eapply sync_app|].
    intros x. rewrite <-app_assoc. apply (ranges_one _ _ (e' ++ x)); [apply Hx; by destruct e'| |done].
    by destruct e'.
  - destruct (esc_sync _ _ _ He) as (e & -> & Hs & Hx). destruct (esc_sync _ _ _ Hhi) as (e2 & -> & Hs2 & Hx2).
    destruct IH as (e' & Hne & -> & Hs' & Hx').
    exists (e ++ [dash] ++ e2 ++ e'). split_and!; [by destruct e|by rewrite <-!app_assoc| |].
    + eapply sync_app; [done|]. eapply (sync_app true [dash] true); [done|]. by eapply sync_app.
    + intros x. rewrite <-!app_assoc. eapply ranges_pair; [apply Hx; done|apply Hx2; by destruct e'|done].
Qed.

Lemma item_sync p t q : item p t q → head p ≠ Some star →
  ∃ e, e ≠ [] ∧ head e ≠ Some star ∧ p = e ++ q ∧ sync false e false ∧ ∀ x, item (e ++ x) t x.
Proof.
  intros [q'|c q' H1 H2 H3|c q'|p' rs q' Hh Hne H|p' rs q' Hne H] Hp.
  - exists [question]. split_and!; [done..|]. intros. constructor.
  - exists [c]. split_and!; [done..| |intros; by constructor].
    pose proof (sync_byte false c H3 ltac:(intros ->; done)) as H.
    rewrite (proj2 (Z.eqb_neq c open_)) in H by done. by destruct (c =? close).
  - exists [backslash; c]. split_and!; [done..|]. intros. constructor.
  - destruct (ranges_sync _ _ _ H) as (e & He & -> & Hs & Hx). exists (open_ :: e).
    split_and!; [done..| |].
    + by apply (sync_app false [open_] true).
    + intros x. apply item_class; [by destruct e|done..].
  - destruct (ranges_sync _ _ _ H) as (e & He & -> & Hs & Hx). exists (open_ :: caret :: e).
    split_and!; [done..| |].
    + apply (sync_app false [open_] true); [done|]. by apply (sync_app true [caret] true).
    + intros x. by apply item_negated.
Qed.

Lemma cut_parses p ts : parses p ts →
  ∃ ts1 ts2, ts = ts1 ++ ts2 ∧ items (cut false p).1 ts1 ∧ parses (cut false p).2 ts2.
Proof.
  induction 1 as [|p ts H IH|p t q ts Hp Hi H IH].
  - exists [], []. split_and!; constructor.
  - exists [], (Star :: ts). split_and!; [done|constructor|by constructor].
  - destruct (item_sync _ _ _ Hi Hp) as (e & He & _ & -> & Hs & Hx). destruct IH as (ts1 & ts2 & -> & H1 & H2).
    exists (t :: ts1), ts2. rewrite Hs. simpl. split_and!; [done| |done]. by econstructor.
Qed.

Lemma parses_cut p ts1 ts2 : items (cut false p).1 ts1 → parses (cut false p).2 ts2 →
  parses p (ts1 ++ ts2).
Proof.
  intros H1 H2. remember (cut false p).1 as chunk eqn:Ec. remember (cut false p).2 as rest eqn:Er.
  assert (cut false p = (chunk, rest)) as E by (rewrite Ec, Er; by destruct (cut false p)). clear Ec Er.
  revert p E. induction H1 as [|chunk t q ts Hi Hts IH]; intros p E; pose proof (cut_app false p) as Happ;
    rewrite E in Happ; simpl in Happ; subst p; [done|].
  assert (head chunk ≠ Some star) as Hh.
  { destruct chunk as [|c chunk]; [done|]. intros [= ->]. done. }
  destruct (item_sync _ _ _ Hi Hh) as (e & He & Hhe & -> & Hs & Hx).
  rewrite <-app_assoc in E |- *. rewrite Hs in E.
  assert (cut false (q ++ rest) = (q, rest)) as E'.
  { injection E as E1 E2. apply app_inv_head in E1. destruct (cut false (q ++ rest)); simpl in *. congruence. }
  simpl. eapply parses_item; [by destruct e|apply Hx|by apply IH].
Qed.


Lemma strip_stars_spec p :
  wp (strip_stars p) (λ '(st, p'), ∃ k, p = replicate k star ++ p' ∧ head p' ≠ Some star ∧
    st = negb (k =? 0)%nat).
Proof.
  unfold strip_stars. change (chr "*") with star.
  apply (wp_loop (λ '(st, p'), ∃ k, p = replicate k star ++ p' ∧ st = negb (k =? 0)%nat) (λ '(_, p'), len p')).
  - by exists 0%nat.
  - intros [st p'] _. apply len_nonneg.
  - unfold fuel_of. pose proof (len_nonneg p). lia.
  - intros [st p'] (k & -> & ->). destruct p' as [|c p']; [by exists k|].
    rewrite (proj2 (Z.ltb_lt 0 _)) by (rewrite len_cons; pose proof (len_nonneg p'); lia).
    simpl andM. rewrite ?idx_0. cbn [mbind res_bind mret res_ret]. destruct (Z.eqb_spec c star) as [->|Hc].
    + rewrite slice_from_1. simpl. split; [|rewrite len_cons; lia]. exists (S k).
      split; [|done]. by rewrite replicate_S_end, <-app_assoc.
    + simpl. exists k. split_and!; [done| |done]. congruence.
Qed.

Lemma scan_spec st p :
  wp (loop (fuel_of (len p)) (λ '(i, inrange),
    if i <? len p then
      c ← idx p i;
      if c =? chr "\" then
        let i := if i + 1 <? len p then i + 1 else i in mret (inl (i + 1, inrange))
      else if c =? chr "[" then mret (inl (i + 1, true))
      else if c =? chr "]" then mret (inl (i + 1, false))
      else if (c =? chr "*") && negb inrange then
        chunk ← slice_to p i; rest ← slice_from p i; mret (inr (st : bool, chunk, rest))
      else mret (inl (i + 1, inrange))
    else mret (inr (st, p, []))) (0, false))
  (λ '(st', chunk, rest), st' = st ∧ cut false p = (chunk, rest)).
Proof.
  change (chr "\") with backslash. change (chr "[") with open_. change (chr "]") with close.
  change (chr "*") with star.
  apply (wp_loop (λ '(i, b), ∃ a q, p = a ++ q ∧ i = len a ∧ cut false p = (a ++ (cut b q).1, (cut b q).2))
    (λ '(i, _), len p - i)).
  - exists [], p. split_and!; [done..|]. simpl. by destruct (cut false p).
  - intros [i b] (a & q & -> & -> & _). rewrite len_app. pose proof (len_nonneg q). lia.
  - unfold fuel_of. pose proof (len_nonneg p). lia.
  - intros [i b] (a & q & -> & -> & E). destruct q as [|c q].
    { rewrite app_nil_r, Z.ltb_irrefl. simpl in *. rewrite app_nil_r in *. done. }
    pose proof (len_nonneg q) as Hq. assert (len (a ++ c :: q) = len a + 1 + len q) as Hl by (rewrite len_app, len_cons; lia).
    assert (∀ d, (a ++ [c]) ++ d = a ++ c :: d) as Ea by (intros; by rewrite <-app_assoc).
    rewrite (proj2 (Z.ltb_lt _ _)) by lia. rewrite idx_in with (x := c) by apply zget_mid. cbn [mbind res_bind].
    simpl in E. destruct (Z.eqb_spec c backslash) as [->|Hb].
    { destruct q as [|d q].
      - rewrite Hl, len_nil, (proj2 (Z.ltb_ge _ _)) by lia. simpl. split; [|lia].
        exists (a ++ [backslash]), []. rewrite app_nil_r. simpl. rewrite app_nil_r. split_and!; [done| |done].
        rewrite len_app, len_cons, len_nil. lia.
      - rewrite len_cons in *. pose proof (len_nonneg q). rewrite Hl, (proj2 (Z.ltb_lt _ _)) by lia. simpl.
        split; [|lia]. exists (a ++ [backslash; d]), q. rewrite <-!app_assoc. simpl. split_and!; [done| |done].
        rewrite len_app, !len_cons, len_nil. lia. }
    assert (∀ b', cut false (a ++ c :: q) = (a ++ c :: (cut b' q).1, (cut b' q).2) →
      (∃ a0 q0, a ++ c :: q = a0 ++ q0 ∧ len a + 1 = len a0 ∧
        cut false (a ++ c :: q) = (a0 ++ (cut b' q0).1, (cut b' q0).2)) ∧
      len (a ++ c :: q) - (len a + 1) < len (a ++ c :: q) - len a) as Hnext.
    { intros b' E'. split; [|lia]. exists (a ++ [c]), q. rewrite !Ea, len_app, len_cons, len_nil.
      split_and!; [done|lia|done]. }
    destruct (Z.eqb_spec c open_) as [->|Ho]; [by apply Hnext|].
    destruct (Z.eqb_spec c close) as [->|Hc]; [by apply Hnext|].
    destruct ((c =? star) && negb b); [|by apply Hnext].
    simpl in E. rewrite app_nil_r in E. assert (slice_to (a ++ c :: q) (len a) = Ok a) as ->.
    { unfold slice_to. rewrite decide_True by (pose proof (len_nonneg a); lia).
      unfold len. by rewrite Nat2Z.id, take_app_length. }
    cbn [mbind res_bind]. rewrite slice_app_from. simpl. done.
Qed.

(** What [scanChunk] returns. *)
Definition scanned (p : list Z) (st : bool) (chunk rest : list Z) : Prop :=
  ∃ k p', p = replicate k star ++ p' ∧ head p' ≠ Some star ∧ st = negb (k =? 0)%nat ∧
    cut false p' = (chunk, rest).

Lemma scanChunk_spec p : wp (scanChunk p) (λ '(st, chunk, rest), scanned p st chunk rest).
Proof.
  unfold scanChunk. apply wp_bind. eapply wp_mono; [apply strip_stars_spec|].
  intros [st p'] (k & -> & Hh & ->). eapply wp_mono; [apply scan_spec|].
  intros [[st' chunk] rest] [-> E]. by exists k, p'.
Qed.

Lemma scanned_bytes p st chunk rest : scanned p st chunk rest → Forall byte p →
  Forall byte chunk ∧ Forall byte rest.
Proof.
  intros (k & p' & -> & _ & _ & E) [_ H]%Forall_app. pose proof (cut_app false p') as Ea.
  rewrite E in Ea. simpl in Ea. rewrite <-Ea in H. by apply Forall_app in H.
Qed.

Lemma scanned_shorter p st chunk rest : scanned p st chunk rest → p ≠ [] → len rest < len p.
Proof.
  intros (k & p' & -> & Hh & _ & E) Hne. pose proof (cut_app false p') as Ea. rewrite E in Ea. simpl in Ea.
  rewrite <-Ea, !len_app. assert (len (replicate k star) = Z.of_nat k) as -> by (unfold len; by rewrite length_replicate).
  pose proof (len_nonneg chunk). destruct k as [|k]; [|lia].
  destruct chunk as [|c chunk]; [|rewrite len_cons; pose proof (len_nonneg chunk); lia].
  simpl in Ea. subst p'. exfalso. pose proof (cut_rest false rest) as Hr. rewrite E in Hr. simpl in Hr.
  destruct Hr as [->|[r ->]]; done.
Qed.

Lemma parses_stars k p ts : head p ≠ Some star →
  parses (replicate k star ++ p) ts ↔ ∃ ts', ts = replicate k Star ++ ts' ∧ parses p ts'.
Proof.
  intros Hh. revert ts. induction k as [|k IH]; intros ts; simpl; [split; [eauto|by intros (? & -> & ?)]|].
  split.
  - intros H. inversion H as [|p1 ts1 H1|p1 t q ts1 Hp Hi H1]; subst; [|done].
    apply IH in H1 as (ts' & -> & H1). eauto.
  - intros (ts' & -> & H). constructor. apply IH. eauto.
Qed.



(** The parses of a pattern are those of its first chunk and of its rest. *)
Lemma scanned_parses p st chunk rest : scanned p st chunk rest →
  ∃ k, st = negb (k =? 0)%nat ∧
  (∀ ts, parses p ts → ∃ ts1 ts2, ts = replicate k Star ++ ts1 ++ ts2 ∧ items chunk ts1 ∧ parses rest ts2) ∧
  (∀ ts1 ts2, items chunk ts1 → parses rest ts2 → parses p (replicate k Star ++ ts1 ++ ts2)).
Proof.
  intros (k & p' & -> & Hh & -> & E). exists k. split; [done|]. split.
  - intros ts H. apply parses_stars in H as (ts' & -> & H); [|done].
    destruct (cut_parses _ _ H) as (ts1 & ts2 & -> & H1 & H2). rewrite E in *. by exists ts1, ts2.
  - intros ts1 ts2 H1 H2. apply parses_stars; [done|]. exists (ts1 ++ ts2). split; [done|].
    apply parses_cut; by rewrite E.
Qed.

Lemma items_det p ts ts' : items p ts → items p ts' → ts = ts'.
Proof.
  intros H. revert ts'. induction H as [|p t q ts Hi H IH]; intros ts' H'.
  - inversion H' as [|? ? ? ? Hi]; [done|]. by apply item_ne in Hi.
  - inversion H' as [|? t' q' ts2 Hi' H2]; subst; [by apply item_ne in Hi|].
    destruct (item_det _ _ _ _ _ Hi Hi') as [-> ->]. f_equal. by apply IH.
Qed.

(** The rest begins with a star. *)
Lemma scanned_rest p st chunk rest ts : scanned p st chunk rest → parses rest ts →
  (rest = [] ∧ ts = []) ∨ (rest ≠ [] ∧ ∃ ts', ts = Star :: ts').
Proof.
  intros (k & p' & -> & Hh & -> & E) H. pose proof (cut_rest false p') as Hr. rewrite E in Hr. simpl in Hr.
  destruct Hr as [->|[r ->]]; [left|right].
  - inversion H as [| |? ? ? ? ? Hi]; [done|]. by apply item_ne in Hi.
  - split; [done|]. inversion H as [|? ts' H'|? ? ? ? Hp]; subst; [eauto|done].
Qed.

(** ** Matching chunk by chunk *)

Lemma matches_stars k ts s : matches (replicate k Star ++ ts) s ↔
  ∃ a b, s = a ++ b ∧ slash ∉ a ∧ (k = 0%nat → a = []) ∧ matches ts b.
Proof.
  revert s. induction k as [|k IH]; intros s; simpl.
  - split; [intros H; exists [], s; split_and!; [done|apply not_elem_of_nil|done..]|].
    intros (a & b & -> & _ & Ha & H). by rewrite Ha.
  - split.
    + intros H. inversion H as [|a s0 ts0 Ha H0|]; subst; [|done]. apply IH in H0 as (a' & b & -> & Ha' & _ & H0).
      exists (a ++ a'), b. split_and!; [by rewrite app_assoc| |done..]. set_solver.
    + intros (a & b & -> & Ha & _ & H). constructor; [done|]. apply IH. exists [], b.
      split_and!; [done|apply not_elem_of_nil|done..].
Qed.

Lemma item_not_star p t q : item p t q → t ≠ Star.
Proof. by destruct 1. Qed.

Lemma matches_items p ts1 ts2 s : items p ts1 →
  matches (ts1 ++ ts2) s ↔ ∃ t, consume ts1 s = Some t ∧ matches ts2 t.
Proof.
  intros H. revert s. induction H as [|p t q ts Hi H IH]; intros s; simpl.
  - split; [eauto|]. by intros (? & [= ->] & ?).
  - split.
    + intros Hm. inversion Hm as [|a s0 ts0|t0 ts0 s0 s' He Hm']; subst.
      { by apply item_not_star in Hi. }
      apply IH in Hm' as (u & Hu & Hm'). exists u. by rewrite He.
    + intros (u & Hu & Hm). destruct (eat t s) as [s'|] eqn:He; [|done]. simpl in Hu.
      eapply matches_eat; [done|]. apply IH. eauto.
Qed.

(** ** Why the leftmost match of a chunk is enough

    For an ASCII name and classes that reject the slash. *)

Definition plain_term (t : term) : Prop :=
  match t with Class neg rs => in_ranges slash rs = neg | _ => True end.

Definition plain (ts : list term) (s : list Z) : Prop :=
  Forall plain_term ts ∧ Forall (λ x, 0 ≤ x < 0x80) s.

Lemma eat_plain t s s' : plain_term t → Forall (λ x, 0 ≤ x < 0x80) s → eat t s = Some s' →
  ∃ x, s = x :: s' ∧ (x = slash ↔ t = Lit slash).
Proof.
  intros Ht Hs. destruct s as [|x s]; [by rewrite eat_nil|]. apply Forall_cons in Hs as [Hx Hs].
  assert (decode (x :: s) = (x, 1)) as Hd by (simpl; by rewrite (proj2 (Z.ltb_lt _ _)) by lia).
  destruct t as [| |c|neg rs]; cbn [eat]; rewrite ?Hd; cbn [fst snd]; [done|..].
  - destruct (Z.eqb_spec x slash); [done|]. intros [= <-]. by exists x.
  - destruct (Z.eqb_spec c x) as [->|]; [|done]. intros [= <-]. exists x. split; [done|]. split; congruence.
  - destruct (Bool.eqb (in_ranges x rs) neg) eqn:Hb; [done|]. intros [= <-]. exists x. split; [done|].
    split; [|done]. intros ->. simpl in Ht. rewrite Ht in Hb. by destruct neg.
Qed.

Lemma consume_plain ts s t : Forall plain_term ts → Forall (λ x, 0 ≤ x < 0x80) s → consume ts s = Some t →
  ∃ u, s = u ++ t ∧ length u = length ts ∧ ∀ m : nat, u !! m = Some slash ↔ ts !! m = Some (Lit slash).
Proof.
  revert s. induction ts as [|tm ts IH]; intros s Ht Hs H; simpl in H.
  - injection H as ->. by exists [].
  - apply Forall_cons in Ht as [Htm Ht]. destruct (eat tm s) as [s'|] eqn:He; [|done].
    destruct (eat_plain _ _ _ Htm Hs He) as (x & -> & Hx). apply Forall_cons in Hs as [_ Hs].
    destruct (IH s' Ht Hs H) as (u & -> & Hl & Hu). exists (x :: u). split_and!; [done|by simpl; rewrite Hl|].
    intros [|m]; simpl; [|done]. split; intros [= E]; f_equal; by apply Hx.
Qed.

Lemma leftmost ts d b t t' : Forall plain_term ts → Forall (λ x, 0 ≤ x < 0x80) (d ++ b) → slash ∉ d →
  consume ts (d ++ b) = Some t → consume ts b = Some t' → ∃ v, t = v ++ t' ∧ slash ∉ v.
Proof.
  intros Ht Hs Hd H H'. destruct (consume_plain _ _ _ Ht Hs H) as (u & E & Hl & Hu).
  apply Forall_app in Hs as [_ Hb]. destruct (consume_plain _ _ _ Ht Hb H') as (u' & -> & Hl' & Hu').
  destruct (decide (d = [])) as [->|Hne].
  { simpl in H. rewrite H in H'. injection H' as ->. exists []. split; [done|apply not_elem_of_nil]. }
  assert (∀ m : nat, (d ++ u') !! m ≠ Some slash) as Hno.
  { intros m. induction m as [m IH] using lt_wf_ind. intros Hm.
    assert (0 < length d)%nat by (destruct d; [done|simpl; lia]).
    destruct (decide (m < length d)%nat) as [Hlt|Hge].
    - rewrite lookup_app_l in Hm by done. apply Hd. by eapply list_elem_of_lookup_2.
    - rewrite lookup_app_r in Hm by lia. apply Hu', Hu in Hm. apply (IH (m - length d)%nat); [lia|].
      pose proof (lookup_lt_Some _ _ _ Hm). assert ((d ++ u' ++ t') !! (m - length d)%nat = Some slash) as Hm'.
      { rewrite E. by apply lookup_app_l_Some. }
      rewrite app_assoc in Hm'. by rewrite lookup_app_l in Hm' by (rewrite length_app; lia). }
  rewrite app_assoc in E. apply app_eq_inv in E as [(v & E1 & E2)|(v & E1 & E2)].
  - exists v. split; [done|]. intros [m Hm]%list_elem_of_lookup. apply (Hno (length u + m)%nat).
    rewrite E1, lookup_app_r by lia. by replace (length u + m - length u)%nat with m by lia.
  - exists []. apply (f_equal length) in E1. rewrite !length_app in E1. destruct v; [|simpl in *; lia].
    by split; [|apply not_elem_of_nil].
Qed.


(** ** The result of Match *)

Definition match_result (p name : list Z) (o : bool * option error) : Prop :=
  match o.2 with
  | Some _ => o.1 = false ∧ ∀ ts, ¬ parses p ts
  | None => ∃ ts, parses p ts ∧ (o.1 = true → matches ts name) ∧
      (plain ts name → matches ts name → o.1 = true)
  end.

(** The chunk matches at the front of [b] and leaves [t], all of it when the
    pattern ends there. *)
Definition accepts (ts1 : list term) (rest b t : list Z) : Prop :=
  consume ts1 b = Some t ∧ (rest = [] → t = []).

(** Going on behind the first place where the chunk matches. *)
Lemma match_continue p st chunk rest ts1 a b t o :
  scanned p st chunk rest → items chunk ts1 →
  slash ∉ a → (st = false → a = []) → accepts ts1 rest b t →
  (∀ a' b', a ++ b = a' ++ b' → len a' < len a → ∀ t', ¬ accepts ts1 rest b' t') →
  match_result rest t o → match_result p (a ++ b) o.
Proof.
  intros Hsc Hi Ha Hst [Hcons Hrest] Hfirst Ho.
  destruct (scanned_parses _ _ _ _ Hsc) as (k & Hk & Hto & Hfrom). unfold match_result in *.
  destruct (o.2) as [e|].
  { destruct Ho as [Hb Hno]. split; [done|]. intros ts Hts. destruct (Hto _ Hts) as (? & ? & _ & _ & H).
    by eapply Hno. }
  destruct Ho as (ts2 & Hp2 & Hsound & Hcompl). exists (replicate k Star ++ ts1 ++ ts2).
  split_and!; [by apply Hfrom|intros Hb|].
  - apply matches_stars. exists a, b. split_and!; [done..| |].
    + intros ->. by apply Hst.
    + apply (matches_items _ _ _ _ Hi). eauto.
  - intros [Hpl Hs] Hm. apply Forall_app in Hpl as [_ [Hpl1 Hpl2]%Forall_app].
    apply matches_stars in Hm as (a' & b' & E & Ha' & Hk' & Hm).
    apply (matches_items _ _ _ _ Hi) in Hm as (t' & Ht' & Hm).
    assert (accepts ts1 rest b' t') as Hacc.
    { split; [done|]. intros ->. destruct (scanned_rest _ _ _ _ _ Hsc Hp2) as [[_ ->]|[? _]]; [|done].
      by inversion Hm. }
    assert (len a ≤ len a') as Hle.
    { destruct (decide (len a' < len a)); [|lia]. exfalso. by eapply Hfirst. }
    assert (∃ d, b = d ++ b' ∧ slash ∉ d) as (d & -> & Hd).
    { apply app_eq_inv in E as [(d & -> & E)|(d & -> & ->)].
      - exists []. rewrite len_app in Hle. pose proof (len_nonneg d).
        assert (d = []) as -> by (apply len_0_nil; lia). split; [by symmetry|apply not_elem_of_nil].
      - exists d. split; [done|]. set_solver. }
    apply Forall_app in Hs as [Hsa Hs].
    destruct (leftmost _ _ _ _ _ Hpl1 Hs Hd Hcons Ht') as (v & -> & Hv).
    apply Hcompl; [split; [done|]|].
    + destruct (consume_plain _ _ _ Hpl1 Hs Hcons) as (u & E' & _). rewrite E' in Hs.
      by apply Forall_app in Hs as [_ Hs].
    + destruct (scanned_rest _ _ _ _ _ Hsc Hp2) as [[-> ->]|[_ [ts' ->]]].
      * inversion Hm; subst. rewrite Hrest by done. constructor.
      * inversion Hm as [|a1 s1 ts3 Ha1 H1|]; subst; [|done]. rewrite app_assoc. constructor; [set_solver|done].
Qed.

(** Nowhere does the chunk match. *)
Lemma match_stop p st chunk rest ts1 name o :
  scanned p st chunk rest → items chunk ts1 →
  (∀ a b, name = a ++ b → slash ∉ a → (st = false → a = []) → ∀ t, ¬ accepts ts1 rest b t) →
  o.1 = false → match o.2 with Some _ => ∀ ts, ¬ parses rest ts | None => ∃ ts, parses rest ts end →
  match_result p name o.
Proof.
  intros Hsc Hi Hno Hb Ho. destruct (scanned_parses _ _ _ _ Hsc) as (k & Hk & Hto & Hfrom).
  unfold match_result. rewrite Hb. destruct (o.2) as [e|].
  { split; [done|]. intros ts Hts. destruct (Hto _ Hts) as (? & ? & _ & _ & H). by eapply Ho. }
  destruct Ho as [ts2 Hp2]. exists (replicate k Star ++ ts1 ++ ts2). split_and!; [by apply Hfrom|done|].
  intros _ Hm. exfalso. apply matches_stars in Hm as (a & b & E & Ha & Hk' & Hm).
  apply (matches_items _ _ _ _ Hi) in Hm as (t & Ht & Hm).
  apply (Hno a b E Ha) with t; [|split; [done|]].
  - rewrite Hk. intros H. apply Hk'. by destruct k.
  - intros ->. destruct (scanned_rest _ _ _ _ _ Hsc Hp2) as [[_ ->]|[? _]]; [|done]. by inversion Hm.
Qed.

Lemma match_error p st chunk rest name e :
  scanned p st chunk rest → (∀ ts, ¬ items chunk ts) → match_result p name (false, Some e).
Proof.
  intros Hsc Hno. destruct (scanned_parses _ _ _ _ Hsc) as (k & Hk & Hto & _). split; [done|].
  intros ts Hts. destruct (Hto _ Hts) as (? & ? & _ & H & _). by eapply Hno.
Qed.

(** ** The loops of Match *)

Lemma slice_from_cons {A} (a : list A) x b : slice_from (a ++ x :: b) (len a + 1) = Ok b.
Proof.
  replace (a ++ x :: b) with ((a ++ [x]) ++ b) by (by rewrite <-app_assoc).
  replace (len a + 1) with (len (a ++ [x])) by (rewrite len_app, len_cons, len_nil; lia).
  apply slice_app_from.
Qed.

(** What the attempts behind a star find. *)
Definition star_result (ts1 : list term) (name rest : list Z) (o : option (list Z) + error) : Prop :=
  match o with
  | inl (Some t) => ∃ a b, name = a ++ b ∧ slash ∉ a ∧ accepts ts1 rest b t ∧
      ∀ a' b', name = a' ++ b' → 0 < len a' < len a → ∀ t', ¬ accepts ts1 rest b' t'
  | inl None => ∀ a b, name = a ++ b → slash ∉ a → 0 < len a → ∀ t, ¬ accepts ts1 rest b t
  | inr _ => False
  end.

Lemma chunk_accepts chunk ts1 rest b t ok err : items chunk ts1 → chunk_result chunk b (t, ok, err) →
  err = None ∧ (if (ok : bool) && negb ((len rest =? 0) && (0 <? len t)) then accepts ts1 rest b t
                else ∀ t', ¬ accepts ts1 rest b t').
Proof.
  intros Hi. unfold chunk_result. destruct err as [e|]; [intros [_ Hno]; by destruct (Hno ts1)|].
  intros (ts & Hi' & Hc). split; [done|]. rewrite <-(items_det _ _ _ Hi Hi') in Hc. destruct ok; simpl.
  - destruct ((len rest =? 0) && (0 <? len t)) eqn:E; simpl.
    + apply andb_true_iff in E as [E1 E2]. intros t' [Hc' Hr]. rewrite Hc in Hc'. injection Hc' as <-.
      assert (rest = []) as Hr0 by (apply len_0_nil; lia). rewrite (Hr Hr0) in E2. done.
    + split; [done|]. intros ->. rewrite len_nil in E. simpl in E. apply len_0_nil. pose proof (len_nonneg t). lia.
  - intros t' [Hc' _]. congruence.
Qed.

Lemma star_loop_spec chunk ts1 name rest : items chunk ts1 → Forall byte chunk → Forall byte name →
  wp (star_loop chunk name (len rest =? 0)) (star_result ts1 name rest).
Proof.
  intros Hi Hc Hn. unfold star_loop. change (chr "/") with slash.
  apply (wp_loop (λ i, ∃ a b, name = a ++ b ∧ i = len a ∧ slash ∉ a ∧
    ∀ a' b', name = a' ++ b' → 0 < len a' ≤ len a → ∀ t', ¬ accepts ts1 rest b' t') (λ i, len name - i)).
  - exists [], name. split_and!; [done..|apply not_elem_of_nil|]. intros a' b' _ H. change (len (@nil Z)) with 0 in H. lia.
  - intros i (a & b & -> & -> & _). rewrite len_app. pose proof (len_nonneg b). lia.
  - unfold fuel_of. pose proof (len_nonneg name). lia.
  - intros i (a & b & E & -> & Ha & Hno).
    assert (∀ a' b', name = a' ++ b' → slash ∉ a' → b = [] ∨ head b = Some slash → len a' ≤ len a) as Hmax.
    { intros a' b' E' Ha' Hb. destruct (decide (len a' ≤ len a)) as [|Hgt]; [done|]. exfalso.
      rewrite E in E'. apply app_eq_inv in E' as [(d & -> & _)|(d & -> & ->)].
      - rewrite len_app in Hgt. pose proof (len_nonneg d). lia.
      - destruct d as [|x d]; [rewrite app_nil_r in Hgt; lia|]. destruct Hb as [|[= ->]]; [done|]. set_solver. }
    destruct b as [|x b].
    { rewrite E, app_nil_r, Z.ltb_irrefl. simpl. rewrite <-(app_nil_r a), <-E. intros a' b' E' Ha' Hl.
      apply (Hno a' b' E'). split; [done|]. apply (Hmax a' b'); auto. }
    rewrite E at 1 2. rewrite (proj2 (Z.ltb_lt _ _)) by (rewrite len_app, len_cons; pose proof (len_nonneg b); lia).
    simpl andM. rewrite idx_in with (x := x) by apply zget_mid. cbn [mbind res_bind mret res_ret].
    destruct (Z.eqb_spec x slash) as [->|Hx]; simpl negb.
    { simpl. intros a' b' E' Ha' Hl. apply (Hno a' b' E'). split; [done|]. apply (Hmax a' b'); auto. }
    assert (slice_from name (len a + 1) = Ok b) as -> by (rewrite E; apply slice_from_cons). cbn [mbind res_bind]. assert (Forall byte b) as Hb.
    { rewrite E in Hn. apply Forall_app in Hn as [_ [_ Hn]%Forall_cons]. done. }
    apply wp_bind. eapply wp_mono; [by apply matchChunk_spec|]. intros [[t ok] err] Hres.
    destruct (chunk_accepts _ ts1 rest _ _ _ _ Hi Hres) as [-> Hacc].
    assert (slash ∉ a ++ [x]) as Hax by set_solver.
    assert (name = (a ++ [x]) ++ b) as E' by (by rewrite <-app_assoc).
    assert (len (a ++ [x]) = len a + 1) as Hl by (rewrite len_app, len_cons, len_nil; lia).
    destruct ((ok : bool) && negb ((len rest =? 0) && (0 <? len t))) eqn:Hok.
    + simpl. exists (a ++ [x]), b. split_and!; [done..|]. intros a' b' E1 Hl' t'. apply (Hno a' b' E1). lia.
    + assert (wp (mret (inl (len a + 1)) : res (Z + (option (list Z) + error))) (λ r, match r with
        | inl s' => (∃ a0 b0, name = a0 ++ b0 ∧ s' = len a0 ∧ slash ∉ a0 ∧
            ∀ a' b', name = a' ++ b' → 0 < len a' ≤ len a0 → ∀ t', ¬ accepts ts1 rest b' t') ∧
            len name - s' < len name - len a
        | inr r => star_result ts1 name rest r end)) as Hnext.
      { simpl. split; [|lia]. exists (a ++ [x]), b. split_and!; [done|lia|done|]. intros a' b' E1 Hl' t'.
        destruct (decide (len a' ≤ len a)); [apply (Hno a' b' E1); lia|].
        assert (a' = a ++ [x] ∧ b' = b) as [-> ->]; [|by apply Hacc].
        rewrite E' in E1. apply app_inj_1 in E1 as [-> ->]; [done|]. unfold len in *. lia. }
      destruct ok; exact Hnext.
Qed.


(** The rest of a pattern is checked for errors. *)
Definition rest_result (p : list Z) (o : bool * option error) : Prop :=
  o.1 = false ∧ match o.2 with Some _ => ∀ ts, ¬ parses p ts | None => ∃ ts, parses p ts end.

Lemma rest_continue p st chunk rest ts1 o : scanned p st chunk rest → items chunk ts1 →
  rest_result rest o → rest_result p o.
Proof.
  intros Hsc Hi [Hb Ho]. destruct (scanned_parses _ _ _ _ Hsc) as (k & _ & Hto & Hfrom). split; [done|].
  destruct (o.2) as [e|].
  - intros ts Hts. destruct (Hto _ Hts) as (? & ? & _ & _ & H). by eapply Ho.
  - destruct Ho as [ts2 H2]. eexists. by apply Hfrom.
Qed.

Lemma check_rest_spec p : Forall byte p → wp (check_rest p) (rest_result p).
Proof.
  intros Hp. unfold check_rest.
  apply (wp_loop (λ q, Forall byte q ∧ ∀ o, rest_result q o → rest_result p o) len).
  - done.
  - intros q _. apply len_nonneg.
  - unfold fuel_of. pose proof (len_nonneg p). lia.
  - intros q [Hq Hcont]. destruct (decide (q = [])) as [->|Hne].
    { simpl. apply Hcont. split; [done|]. exists []. constructor. }
    rewrite (proj2 (Z.ltb_lt 0 _)) by (destruct q; [done|]; rewrite len_cons; pose proof (len_nonneg q); lia).
    apply wp_bind. eapply wp_mono; [apply scanChunk_spec|]. intros [[st chunk] rest] Hsc.
    destruct (scanned_bytes _ _ _ _ Hsc Hq) as [Hc Hr].
    apply wp_bind. eapply wp_mono; [by apply matchChunk_spec|]. intros [[t ok] [e|]] Hres; simpl.
    + destruct Hres as [_ Hno]. apply Hcont. split; [done|]. intros ts Hts.
      destruct (scanned_parses _ _ _ _ Hsc) as (k & _ & Hto & _).
      destruct (Hto _ Hts) as (? & ? & _ & H & _). by eapply Hno.
    + destruct Hres as (ts1 & Hi & _). split; [|by eapply scanned_shorter]. split; [done|].
      intros o Ho. apply Hcont. by eapply rest_continue.
Qed.

(** A pattern that ends in stars. *)
Lemma match_stars p rest name i : scanned p true [] rest →
  (i = -1 ∧ slash ∉ name) ∨ (∃ a b, name = a ++ slash :: b ∧ slash ∉ a ∧ i = len a) →
  match_result p name (i <? 0, None).
Proof.
  intros (k & p' & -> & Hh & Hk & E) Hi.
  assert (p' = [] ∧ rest = []) as [-> ->].
  { pose proof (cut_app false p') as Ea. pose proof (cut_rest false p') as Hr. rewrite E in Ea, Hr. simpl in Ea, Hr.
    subst p'. by destruct Hr as [->|[r ->]]. }
  rewrite app_nil_r. exists (replicate k Star). simpl. split_and!.
  - pose proof (parses_stars k [] (replicate k Star) ltac:(done)) as H. rewrite app_nil_r in H. apply H.
    exists []. rewrite app_nil_r. split; [done|constructor].
  - intros Hlt. destruct Hi as [[-> Hs]|(a & b & _ & _ & ->)]; [|pose proof (len_nonneg a); lia].
    rewrite <-(app_nil_r (replicate k Star)). apply matches_stars. exists name, []. rewrite app_nil_r.
    split_and!; [done..| |constructor]. intros ->. done.
  - intros _ Hm. rewrite <-(app_nil_r (replicate k Star)) in Hm. apply matches_stars in Hm as (a & b & -> & Ha & _ & Hm).
    inversion Hm; subst. rewrite app_nil_r in Hi. destruct Hi as [[-> _]|(a' & b' & -> & _ & _)]; [done|].
    exfalso. set_solver.
Qed.

(** The test of the code for the last chunk. *)
Lemma last_test (ok : bool) (t rest : list Z) :
  ok && ((len t =? 0) || (0 <? len rest)) = ok && negb ((len rest =? 0) && (0 <? len t)).
Proof.
  f_equal. pose proof (len_nonneg t). pose proof (len_nonneg rest). zcases; try done; lia.
Qed.

Lemma accepts_bytes ts1 rest b t : Forall byte b → accepts ts1 rest b t → Forall byte t.
Proof.
  intros Hb [H _]. revert b Hb H. induction ts1 as [|tm ts1 IH]; intros b Hb H; simpl in H; [by injection H as <-|].
  destruct (eat tm b) eqn:He; [|done]. eapply IH; [by eapply eat_bytes|done].
Qed.

Lemma Match_ok p name : Forall byte p → Forall byte name → wp (Match p name) (match_result p name).
Proof.
  intros Hp Hname. unfold Match. change (chr "/") with slash.
  apply (wp_loop (λ '(q, s), Forall byte q ∧ Forall byte s ∧ ∀ o, match_result q s o → match_result p name o)
    (λ '(q, _), len q)).
  - done.
  - intros [q s] _. apply len_nonneg.
  - unfold fuel_of. pose proof (len_nonneg p). lia.
  - intros [q s] (Hq & Hs & Hcont). destruct (decide (q = [])) as [->|Hne].
    { simpl. apply Hcont. exists []. split_and!; [constructor| |]; simpl.
      - intros E. assert (s = []) as -> by (apply len_0_nil; lia). constructor.
      - intros _ Hm. by inversion Hm. }
    rewrite (proj2 (Z.ltb_lt 0 _)) by (destruct q; [done|]; rewrite len_cons; pose proof (len_nonneg q); lia).
    apply wp_bind. eapply wp_mono; [apply scanChunk_spec|]. intros [[st chunk] rest] Hsc.
    destruct (scanned_bytes _ _ _ _ Hsc Hq) as [Hc Hr]. pose proof (scanned_shorter _ _ _ _ Hsc Hne) as Hlen.
    destruct (st && (len chunk =? 0)) eqn:Hend.
    { apply andb_true_iff in Hend as [-> E]. assert (chunk = []) as -> by (apply len_0_nil; lia).
      apply wp_bind. eapply wp_mono; [apply IndexByteString_spec|]. intros i Hi. apply wp_ret, Hcont.
      by eapply match_stars. }
    apply wp_bind. eapply wp_mono; [by apply matchChunk_spec|]. intros [[t ok] err] Hres.
    destruct (match err with Some _ => true | None => false end) eqn:Herr.
    { destruct err as [e|]; [|done]. destruct Hres as [-> Hno]. simpl. apply Hcont. by eapply match_error. }
    destruct err; [done|]. clear Herr. pose proof Hres as (ts1 & Hi & _).
    destruct (chunk_accepts _ ts1 rest _ _ _ _ Hi Hres) as [_ Hacc].
    assert (∀ s' b, s = s' ++ b → Forall byte b) as Hbs.
    { intros s' b ->. by apply Forall_app in Hs as [_ ?]. }
    rewrite (last_test ok t rest).
    destruct (ok && negb ((len rest =? 0) && (0 <? len t))) eqn:Hok.
    { apply wp_ret. split; [|done]. split_and!; [done|exact (accepts_bytes _ _ _ _ Hs Hacc)|]. intros o Ho. apply Hcont.
      apply (match_continue q st chunk rest ts1 [] s t o Hsc Hi); try done; [apply not_elem_of_nil|].
      intros a' b' _ H. pose proof (len_nonneg a'). change (len (@nil Z)) with 0 in H. lia. }
    simpl is_err. cbn iota. destruct st.
    + apply wp_bind. eapply wp_mono; [by apply star_loop_spec|]. intros [[t'|]|e] Hstar; [| |done]; simpl in Hstar.
      * apply wp_ret. destruct Hstar as (a & b & -> & Ha & Hab & Hfirst).
        split; [|done]. split_and!; [done|eapply accepts_bytes, Hab; by eapply Hbs|].
        intros o Ho. apply Hcont. apply (match_continue q true chunk rest ts1 a b t' o Hsc Hi); try done.
        intros a' b' E Hl t''. destruct (decide (a' = [])) as [->|Hne'].
        { simpl in E. rewrite <-E. apply Hacc. }
        apply (Hfirst a' b' E). pose proof (len_nonneg a'). assert (len a' ≠ 0) by (by intros ?%len_0_nil). lia.
      * apply wp_bind. eapply wp_mono; [by apply check_rest_spec|]. intros o [Hob Ho]. apply wp_ret, Hcont.
        eapply match_stop; [done..| |done|done]. intros a b -> Ha _ t'. destruct (decide (a = [])) as [->|Hne'].
        { apply Hacc. }
        apply (Hstar a b eq_refl Ha). pose proof (len_nonneg a). assert (len a ≠ 0) by (by intros ?%len_0_nil). lia.
    + cbn [mbind res_bind mret res_ret].
      apply wp_bind. eapply wp_mono; [by apply check_rest_spec|]. intros o [Hob Ho]. apply wp_ret, Hcont.
      eapply match_stop; [done..| |done|done]. intros a b -> Ha Hst t'. assert (a = []) as -> by auto. apply Hacc.
Qed.

(** A pattern has one parse. *)
Lemma parses_det p ts ts' : parses p ts → parses p ts' → ts = ts'.
Proof.
  intros H. revert ts'. induction H as [|p ts H IH|p t q ts Hp Hi H IH]; intros ts' H'.
  - inversion H' as [| |? ? ? ? _ Hi]; [done|]. by apply item_ne in Hi.
  - inversion H' as [|? ts2 H2|? ? ? ? Hh]; subst; [f_equal; by apply IH|done].
  - inversion H' as [|p' ts2 H2|? t' q' ts2 _ Hi' H2]; subst; [by apply item_ne in Hi|done|].
    destruct (item_det _ _ _ _ _ Hi Hi') as [-> ->]. f_equal. by apply IH.
Qed.
