(* ===== verification/MatchProps.v ===== *)
(** * path.Match: what the matcher promises, and where it does not *)

From Stdlib Require Import String.
From stdpp Require Import base.
From S2P Require Import Prelude Bytealg Utf8 Match MatchProofs.

(** The pattern [*a[^x]*b]. *)
Definition slash_pattern : list term := [Star; Lit (chr "a"); Class true [(chr "x", chr "x")]; Star; Lit (chr "b")].

Lemma slash_parses : parses (str "*a[^x]*b") slash_pattern.
Proof.
  assert (∀ q, ranges (120 :: close :: q) [(120, 120)] q) as Hr.
  { intros q. apply (ranges_one _ _ (close :: q)); [|done|constructor].
    apply (esc_char 120 (close :: q)); try done. unfold scalar; lia. }
  apply parses_star. eapply parses_item; [done|by constructor|].
  eapply parses_item; [done|by apply item_negated|]. apply parses_star.
  eapply parses_item; [done|by constructor|]. constructor.
Qed.

Lemma slash_matches : matches slash_pattern (str "aa/b").
Proof.
  apply (matches_star [97]); [by intros H%list_elem_of_singleton|].
  eapply matches_eat; [done|]. eapply matches_eat; [done|].
  apply (matches_star []); [apply not_elem_of_nil|]. eapply matches_eat; [done|]. constructor.
Qed.

(** C24: [Match] reads every pattern by the documented grammar and never panics:
    it reports [ErrBadPattern], with false, exactly for the strings that are not
    patterns, whatever the name is and wherever the mistake is. For a pattern,
    true is returned only when the name is a concatenation of what its terms
    match; and, for an ASCII name and a pattern whose classes reject the slash,
    always then: taking the leftmost match of each chunk behind a star loses
    nothing. Beyond these bounds it does: ["*a[^x]*b"] matches ["aa/b"], but
    [Match] says no; and a star may end inside of a character, so that
    [Match] says that a name of one character matches [*[^c]] for that character. *)
Theorem Match_correct (p name : list Z) :
  Forall byte p → Forall byte name →
  (∃ b err, Match p name = Ok (b, err) ∧
    (err = Some ErrBadPattern ↔ ¬ ∃ ts, parses p ts) ∧
    (err = Some ErrBadPattern → b = false) ∧
    ∀ ts, parses p ts →
      (b = true → matches ts name) ∧ (plain ts name → matches ts name → b = true)) ∧
  (parses (str "*a[^x]*b") slash_pattern ∧ matches slash_pattern (str "aa/b") ∧
   Match (str "*a[^x]*b") (str "aa/b") = Ok (false, None)) ∧
  Match (str "*[^" ++ AppendRune [] 0xE9 ++ str "]") (AppendRune [] 0xE9) = Ok (true, None).
Proof.
  intros Hp Hn. split_and!; [|apply slash_parses|apply slash_matches|by vm_compute..].
  destruct (proj1 (wp_exists _ _) (Match_ok p name Hp Hn)) as ([b err] & H & Hres).
  exists b, err. split; [done|]. unfold match_result in Hres. simpl in Hres. destruct err as [[]|].
  - destruct Hres as [-> Hno]. split_and!; [|done|intros ts Hts; by destruct (Hno ts)].
    split; [|done]. intros _ [ts Hts]. by destruct (Hno ts).
  - destruct Hres as (ts & Hts & Hsound & Hcompl). split_and!; [|done|].
    + split; [done|]. intros Hno. destruct Hno. eauto.
    + intros ts' Hts'. by rewrite (parses_det _ _ _ Hts' Hts).
Qed.

Lemma Match_correct_witness :
  Match (str "a*[b-d]?\*") (str "axyc0*") = Ok (true, None) ∧
  (∃ b err, Match (str "a*[b-d]?\*") (str "axyc0*") = Ok (b, err) ∧
    ∀ ts, parses (str "a*[b-d]?\*") ts → b = true → matches ts (str "axyc0*")) ∧
  Match (str "a[") (str "x") = Ok (false, Some ErrBadPattern).
Proof.
  split; [vm_compute; reflexivity|]. split; [|vm_compute; reflexivity].
  destruct (proj1 (Match_correct (str "a*[b-d]?\*") (str "axyc0*")
    ltac:(repeat constructor; vm_compute; congruence) ltac:(repeat constructor; vm_compute; congruence)))
    as (b & err & H & _ & _ & Hts).
  exists b, err. split; [exact H|]. intros ts Hp Hb. exact (proj1 (Hts ts Hp) Hb).
Defined.
