(* ===== verification/Calendar.v ===== *)
(** * time: the calendar

    The conversions of time/time.go between days counted from the absolute zero
    (March 1 of the year -292277022400), dates, days of the year, weekdays and
    clock readings, with the multiply-and-shift arithmetic of the code on 32 and
    64 bits. An [absSeconds] or [absDays] is the [uint64] it holds, a [Month], a
    [Weekday] and the other units the [int]. *)

From S2P Require Import Prelude Bits.

Definition secondsPerMinute : Z := 60.
Definition secondsPerHour : Z := 60 * secondsPerMinute.
Definition secondsPerDay : Z := 24 * secondsPerHour.
Definition marchThruDecember : Z := 31 + 30 + 31 + 30 + 31 + 31 + 30 + 31 + 30 + 31.
Definition absoluteYears : Z := 292277022400.
Definition absoluteToInternal : Z :=
  - (absoluteYears * 3652425 / 10000 + marchThruDecember) * secondsPerDay.
Definition internalToAbsolute : Z := - absoluteToInternal.
Definition unixToInternal : Z := (1969 * 365 + 1969 / 4 - 1969 / 100 + 1969 / 400) * secondsPerDay.
Definition internalToUnix : Z := - unixToInternal.
Definition absoluteToUnix : Z := absoluteToInternal + internalToUnix.
Definition unixToAbsolute : Z := unixToInternal + internalToAbsolute.
Definition wallToInternal : Z := (1884 * 365 + 1884 / 4 - 1884 / 100 + 1884 / 400) * secondsPerDay.

Definition February : Z := 2.
Definition March : Z := 3.
Definition Wednesday : Z := 3.
Definition Thursday : Z := 4.

Definition dateToAbsDays (year month day : Z) : Z :=
  let amonth := u32 month in
  let janFeb := if amonth <? 3 then 1 else 0 in
  let amonth := u32 (amonth + 12 * janFeb) in
  let y := u64 (u64 (u64 year - janFeb) + absoluteYears) in
  let ayday := Z.shiftr (u32 (u32 (979 * amonth) - 2919)) 5 in
  let century := y / 100 in
  let cyear := u32 (y mod 100) in
  let cday := u32 (1461 * cyear) / 4 in
  let centurydays := u64 (146097 * century) / 4 in
  u64 (centurydays + u64 (i64 (i64 (u32 (cday + ayday) + day) - 1))).

Definition days (abs : Z) : Z := abs / secondsPerDay.

(** [absDays.split] *)
Definition days_split (days : Z) : Z * Z * Z :=
  let d := u64 (u64 (4 * days) + 3) in
  let century := d / 146097 in
  let cd := Z.lor (u32 (d mod 146097)) 3 in
  let '(hi, lo) := Mul32 2939745 cd in
  (century, hi, lo / 2939745 / 4).

(** [absYday.split] *)
Definition ayday_split (ayday : Z) : Z * Z :=
  let d := u32 (u32 (2141 * u32 ayday) + 197913) in
  (Z.shiftr d 16, 1 + Z.land d 0xFFFF / 2141).

Definition janFeb (ayday : Z) : Z := if marchThruDecember <=? ayday then 1 else 0.

Definition month (m janFeb : Z) : Z := i64 (m - i64 (janFeb * 12)).

Definition leap (century cyear : Z) : Z :=
  let y4ok := if Z.rem cyear 4 =? 0 then 1 else 0 in
  let y100ok := if negb (cyear =? 0) then 1 else 0 in
  let y400ok := if century mod 4 =? 0 then 1 else 0 in
  Z.land y4ok (Z.lor y100ok y400ok).

Definition year (century cyear janFeb : Z) : Z :=
  i64 (i64 (i64 (u64 (u64 (century * 100) - absoluteYears)) + cyear) + janFeb).

Definition yday (ayday janFeb leap : Z) : Z :=
  i64 (i64 (i64 (ayday + (1 + 31 + 28)) + Z.ldiff leap janFeb) - i64 (365 * janFeb)).

Definition date (days : Z) : Z * Z * Z :=
  let '(century, cyear, ayday) := days_split days in
  let '(amonth, day) := ayday_split ayday in
  let jf := janFeb ayday in
  (year century cyear jf, month amonth jf, day).

Definition yearYday (days : Z) : Z * Z :=
  let '(century, cyear, ayday) := days_split days in
  let jf := janFeb ayday in
  (year century cyear jf, yday ayday jf (leap century cyear)).

Definition weekday (days : Z) : Z := u64 (days + Wednesday) mod 7.

(** The computation of [Time.ISOWeek] on a day. *)
Definition isoWeek (days : Z) : Z * Z :=
  let thu := u64 (days + u64 (i64 (Thursday - i64 (weekday (u64 (days - 1)) + 1)))) in
  let '(year, yday) := yearYday thu in
  (year, i64 (Z.quot (i64 (yday - 1)) 7 + 1)).

(** [absSeconds.clock] *)
Definition clock (abs : Z) : Z * Z * Z :=
  let sec := abs mod secondsPerDay in
  let hour := Z.quot sec secondsPerHour in
  let sec := i64 (sec - i64 (hour * secondsPerHour)) in
  let min := Z.quot sec secondsPerMinute in
  let sec := i64 (sec - i64 (min * secondsPerMinute)) in
  (hour, min, sec).

Definition isLeap (year : Z) : bool :=
  let mask := if negb (Z.rem year 25 =? 0) then 3 else 0xf in
  Z.land year mask =? 0.

Definition daysBefore (m : Z) : Z :=
  let adj := if March <=? m then -2 else 0 in
  i64 (Z.quot (i64 (i64 (214 * m) - 211)) 7 + adj).

Definition daysIn (m year : Z) : Z :=
  if m =? February then if isLeap year then 29 else 28
  else i64 (30 + Z.land (i64 (m + Z.shiftr m 3)) 1).

Definition norm (hi lo base : Z) : Z * Z :=
  let '(hi, lo) :=
    if lo <? 0 then
      let n := i64 (Z.quot (i64 (i64 (- lo) - 1)) base + 1) in
      (i64 (hi - n), i64 (lo + i64 (n * base)))
    else (hi, lo) in
  if base <=? lo then
    let n := Z.quot lo base in
    (i64 (hi + n), i64 (lo - i64 (n * base)))
  else (hi, lo).

(** The conversions that other packages reach through go:linkname, counted from
    a January 1. *)
Definition legacyAbsClock (abs : Z) : Z * Z * Z :=
  clock (u64 (abs + marchThruDecember * secondsPerDay)).

Definition legacyAbsDate (abs : Z) (full : bool) : Z * Z * Z * Z :=
  let d := days (u64 (abs + marchThruDecember * secondsPerDay)) in
  let '(year, month, day) := date d in
  let '(_, yday) := yearYday d in
  (year, month, day, i64 (yday - 1)).
