(* ===== verification/CalendarProofs.v ===== *)
(** * time: the calendar conversions against the civil calendar

    The proleptic Gregorian calendar by its rules (leap years, lengths of
    months, the day after), the days from the zero to a date in closed form, and
    the proof that the multiply-and-shift arithmetic of the code computes them;
    at the end the property of all conversions. *)

From S2P Require Import Prelude Bits Calendar.


(** ** The civil calendar *)

Definition leap_year (y : Z) : bool :=
  (y mod 4 =? 0) && (negb (y mod 100 =? 0) || (y mod 400 =? 0)).

Definition month_len (y m : Z) : Z :=
  if m =? 2 then if leap_year y then 29 else 28
  else if (m =? 4) || (m =? 6) || (m =? 9) || (m =? 11) then 30 else 31.

Definition valid_date (c : Z * Z * Z) : Prop :=
  let '(y, m, d) := c in 1 ≤ m ≤ 12 ∧ 1 ≤ d ≤ month_len y m.

(** The day after. *)
Definition next_date (c : Z * Z * Z) : Z * Z * Z :=
  let '(y, m, d) := c in
  if d <? month_len y m then (y, m, d + 1)
  else if m <? 12 then (y, m + 1, 1) else (y + 1, 1, 1).

(** The days of the year before the month. *)
Definition days_before (y m : Z) : Z :=
  foldr (λ i n, month_len y i + n) 0 (seqZ 1 (m - 1)).

(** The years whose dates the conversions handle. *)
Definition maxYear : Z := 2 ^ 53.

(** ** The arithmetic without the tricks

    Years start in March and are counted from [absoluteYears] before Christ; [j]
    is 1 in January and February. *)

Definition jan_feb (m : Z) : Z := if m <? 3 then 1 else 0.

(** The days from the zero to the first of March of the year [100*c+cy]. *)
Definition year_start (c cy : Z) : Z := 146097 * c / 4 + 1461 * cy / 4.

(** The days from the first of March to the first of the month [m], 3 to 14. *)
Definition month_start (m : Z) : Z := (153 * m - 457) / 5.

Definition rata (y m d : Z) : Z :=
  let Y := y - jan_feb m + absoluteYears in
  year_start (Y / 100) (Y mod 100) + month_start (m + 12 * jan_feb m) + d - 1.

Lemma month_cases m : 1 ≤ m ≤ 12 →
  m = 1 ∨ m = 2 ∨ m = 3 ∨ m = 4 ∨ m = 5 ∨ m = 6 ∨
  m = 7 ∨ m = 8 ∨ m = 9 ∨ m = 10 ∨ m = 11 ∨ m = 12.
Proof. lia. Qed.

(** A leap year ends the March year [Y]. *)
Lemma leap_year_len Y :
  year_start ((Y + 1) / 100) ((Y + 1) mod 100) - year_start (Y / 100) (Y mod 100)
  = if leap_year (Y + 1 - absoluteYears) then 366 else 365.
Proof.
  unfold year_start, leap_year, absoluteYears.
  destruct (Z.eqb_spec ((Y + 1 - 292277022400) mod 4) 0) as [H4|H4];
    destruct (Z.eqb_spec ((Y + 1 - 292277022400) mod 100) 0) as [H100|H100];
    destruct (Z.eqb_spec ((Y + 1 - 292277022400) mod 400) 0) as [H400|H400];
    simpl; Z.div_mod_to_equations; lia.
Qed.

Lemma rata_next y m d : valid_date (y, m, d) →
  let '(y', m', d') := next_date (y, m, d) in rata y' m' d' = rata y m d + 1.
Proof.
  intros [Hm Hd]. pose proof (leap_year_len (y - 1 + absoluteYears)) as Hy.
  replace (y - 1 + absoluteYears + 1) with (y + absoluteYears) in Hy by lia.
  replace (y + absoluteYears - absoluteYears) with y in Hy by lia.
  unfold next_date. destruct (Z.ltb_spec d (month_len y m)) as [Hlt|Hge].
  { unfold rata. lia. }
  assert (d = month_len y m) as -> by lia. clear Hd Hge.
  unfold rata, jan_feb, month_start.
  destruct (month_cases m Hm) as [->|[->|[->|[->|[->|[->|[->|[->|[->|[->|[->| ->]]]]]]]]]]];
    unfold month_len; simpl; rewrite ?Z.add_simpl_r, ?Z.sub_0_r;
    try dlia; destruct (leap_year y); dlia.
Qed.

Lemma lor_3 r : Z.lor r 3 = 4 * (r / 4) + 3.
Proof.
  rewrite (Z.div_mod (Z.lor r 3) 4) by done.
  change 4 with (2 ^ 2). rewrite <-!Z.shiftr_div_pow2, <-!Z.land_ones by done.
  change (Z.ones 2) with 3. rewrite Z.shiftr_lor, Z.land_lor_distr_l.
  change (Z.shiftr 3 2) with 0. rewrite Z.lor_0_r, Z.lor_comm.
  change (Z.land 3 3) with 3. f_equal. apply Z.bits_inj'. intros k _.
  rewrite Z.lor_spec, Z.land_spec. by destruct (Z.testbit r k), (Z.testbit 3 k).
Qed.

(** The multiply-and-shift divisions. *)
Lemma div_1461 x : 0 ≤ x < 146100 →
  2939745 * x / 2 ^ 32 = x / 1461 ∧ (2939745 * x) mod 2 ^ 32 / 2939745 = x mod 1461.
Proof.
  intros Hx. pose proof (Z.div_mod x 1461 ltac:(lia)) as E.
  pose proof (Z.mod_pos_bound x 1461 ltac:(lia)) as Hr.
  assert (0 ≤ x / 1461 < 100) as Hq by dlia.
  revert Hq Hr E. generalize (x / 1461), (x mod 1461). intros q r Hq Hr ->.
  replace (2939745 * (1461 * q + r)) with (149 * q + 2939745 * r + q * 2 ^ 32) by lia.
  assert (0 ≤ 149 * q + 2939745 * r < 2 ^ 32) by lia.
  rewrite Z.div_add, Z.mod_add, Z.div_small, Z.mod_small by lia.
  split; [lia|]. rewrite (Z.mul_comm 2939745 r), Z.div_add, Z.div_small by lia. lia.
Qed.

Lemma div_153 x : 0 ≤ x ≤ 366 →
  (2141 * x + 197913) / 2 ^ 16 = (5 * x + 461) / 153 ∧
  (2141 * x + 197913) mod 2 ^ 16 / 2141 = (5 * x + 461) mod 153 / 5.
Proof. dlia. Qed.

Lemma days_split_spec n : 0 ≤ n < 2 ^ 62 - 1 →
  days_split n =
  let c := (4 * n + 3) / 146097 in
  let cd := (4 * n + 3) mod 146097 / 4 in
  (c, (4 * cd + 3) / 1461, (4 * cd + 3) mod 1461 / 4).
Proof.
  intros Hn. unfold days_split, Mul32, uwrap.
  rewrite !(Z.mod_small (4 * n)) by lia.
  rewrite !(Z.mod_small (4 * n + 3)) by lia.
  pose proof (Z.mod_pos_bound (4 * n + 3) 146097 ltac:(lia)) as Hr.
  rewrite (Z.mod_small ((4 * n + 3) mod 146097) (2 ^ 32)), lor_3 by lia.
  generalize dependent ((4 * n + 3) mod 146097). intros r Hr.
  assert (0 ≤ 4 * (r / 4) + 3 < 146100) as Hx by dlia.
  destruct (div_1461 _ Hx) as [E1 E2]. revert E1 E2.
  generalize (4 * (r / 4) + 3) Hx. intros x Hx' E1 E2.
  rewrite (Z.mod_small (2939745 * x) (2 ^ 64)) by lia.
  rewrite Z.shiftr_div_pow2, E1, E2 by lia.
  rewrite (Z.mod_small (x / 1461)) by dlia. done.
Qed.

Lemma ayday_split_spec a : 0 ≤ a ≤ 366 →
  ayday_split a = ((5 * a + 461) / 153, 1 + (5 * a + 461) mod 153 / 5).
Proof.
  intros Ha. unfold ayday_split, uwrap. destruct (div_153 a Ha) as [E1 E2].
  rewrite (Z.mod_small a), (Z.mod_small (2141 * a)), Z.mod_small by lia.
  change 0xFFFF with (2 ^ 16 - 1). rewrite land_mask, Z.shiftr_div_pow2, E1, E2 by lia. done.
Qed.

(** The day in its year. *)
Lemma split_year n c cd Y a : 
  c = (4 * n + 3) / 146097 → cd = (4 * n + 3) mod 146097 / 4 →
  Y = 100 * c + (4 * cd + 3) / 1461 → a = (4 * cd + 3) mod 1461 / 4 →
  Y / 100 = c ∧ Y mod 100 = (4 * cd + 3) / 1461 ∧
  year_start (Y / 100) (Y mod 100) + a = n ∧
  0 ≤ a < if leap_year (Y + 1 - absoluteYears) then 366 else 365.
Proof.
  intros Hc Hcd HY Ha.
  assert (0 ≤ cd < 36525 ∧ n = 146097 * c / 4 + cd ∧ n < 146097 * (c + 1) / 4) as (Hcd' & Hn & Hn1) by dlia.
  remember ((4 * cd + 3) / 1461) as cy eqn:Hcy.
  assert (0 ≤ cy < 100 ∧ cd = 1461 * cy / 4 + a ∧ cd < 1461 * (cy + 1) / 4 ∧ 0 ≤ a)
    as (Hcy' & Hcda & Hcd1 & Ha0) by dlia.
  clear Hc Hcd Ha Hcy. pose proof (leap_year_len Y) as HL.
  assert (Y / 100 = c ∧ Y mod 100 = cy) as [-> E2] by dlia. rewrite E2 in *.
  split_and!; [done..|unfold year_start; lia|done|]. rewrite <-HL. clear HL. unfold year_start.
  destruct (decide (cy = 99)) as [->|Hne].
  - assert ((Y + 1) / 100 = c + 1 ∧ (Y + 1) mod 100 = 0) as [-> ->] by dlia. dlia.
  - assert ((Y + 1) / 100 = c ∧ (Y + 1) mod 100 = cy + 1) as [-> ->] by dlia. dlia.
Qed.

(** The month and the day in the year. *)
Lemma split_month y a mo : mo = (5 * a + 461) / 153 →
  0 ≤ a < (if leap_year (y + 1) then 366 else 365) →
  let d := 1 + (5 * a + 461) mod 153 / 5 in
  3 ≤ mo ≤ 14 ∧ month_start mo + d - 1 = a ∧
  (if marchThruDecember <=? a then 13 ≤ mo ∧ valid_date (y + 1, mo - 12, d)
   else mo ≤ 12 ∧ valid_date (y, mo, d)).
Proof.
  intros Hmo Ha d. unfold month_start. change marchThruDecember with 306.
  assert (0 ≤ a ≤ 365) as Ha' by (destruct (leap_year (y + 1)); lia).
  assert (3 ≤ mo ≤ 14 ∧ (153 * mo - 457) / 5 + d - 1 = a) as [Hm E] by (unfold d; dlia).
  split; [done|]. split; [done|].
  assert (1 ≤ d ∧ a < (153 * (mo + 1) - 457) / 5) as [Hd Ha1] by (unfold d; dlia).
  clearbody d. clear Hmo.
  destruct (Z.leb_spec 306 a); split; try dlia; unfold valid_date, month_len.
  - assert (mo = 13 ∨ mo = 14) as [-> | ->] by dlia; simpl; [dlia|].
    destruct (leap_year (y + 1)); dlia.
  - assert (mo = 3 ∨ mo = 4 ∨ mo = 5 ∨ mo = 6 ∨ mo = 7 ∨ mo = 8 ∨ mo = 9 ∨ mo = 10 ∨
            mo = 11 ∨ mo = 12) as Hc by dlia.
    repeat (destruct Hc as [->|Hc]; [simpl; dlia|]). subst. simpl. dlia.
Qed.

(** ** The conversions *)

Lemma i64_u64 x : i64 (u64 x) = i64 x.
Proof. unfold swrap, uwrap. pow2_consts. dlia. Qed.

Lemma year_spec c cy jf : 0 ≤ c < 2 ^ 50 → 0 ≤ cy < 100 → 0 ≤ jf ≤ 1 →
  year c cy jf = 100 * c + cy + jf - absoluteYears.
Proof.
  intros Hc Hcy Hjf. unfold year. rewrite i64_u64. unfold absoluteYears. unwrap. lia.
Qed.

Lemma leap_spec c cy : 0 ≤ cy < 100 →
  leap c cy = if leap_year (100 * c + cy - absoluteYears) then 1 else 0.
Proof.
  intros Hcy. unfold leap, leap_year, absoluteYears. rewrite Z.rem_mod_nonneg by lia.
  assert ((100 * c + cy - 292277022400) mod 4 = cy mod 4) as -> by dlia.
  assert ((100 * c + cy - 292277022400) mod 100 = cy) as -> by dlia.
  destruct (Z.eqb_spec (cy mod 4) 0), (Z.eqb_spec cy 0), (Z.eqb_spec (c mod 4) 0),
    (Z.eqb_spec ((100 * c + cy - 292277022400) mod 400) 0); try done; simpl; exfalso; dlia.
Qed.

(** The first two months have 59 or 60 days. *)
Lemma days_before_cases y m : 1 ≤ m ≤ 12 →
  days_before y m =
  if m <? 3 then 31 * (m - 1) else 59 + (if leap_year y then 1 else 0) + month_start m.
Proof.
  intros Hm. unfold month_start.
  destruct (month_cases m Hm) as [->|[->|[->|[->|[->|[->|[->|[->|[->|[->|[->| ->]]]]]]]]]]];
    try done; unfold days_before; simpl; unfold month_len; simpl; destruct (leap_year y); done.
Qed.

(** What the day [n] is, in the calendar. *)
Definition is_date (n y m d : Z) : Prop :=
  valid_date (y, m, d) ∧ rata y m d = n.

Lemma rata_of c cy y m d : 0 ≤ cy < 100 → y - jan_feb m + absoluteYears = 100 * c + cy →
  rata y m d = year_start c cy + month_start (m + 12 * jan_feb m) + d - 1.
Proof.
  intros Hcy HY. unfold rata. rewrite HY.
  assert ((100 * c + cy) / 100 = c ∧ (100 * c + cy) mod 100 = cy) as [-> ->] by dlia. done.
Qed.

Lemma split_date n c cy a : days_split n = (c, cy, a) →
  0 ≤ c < 2 ^ 50 → 0 ≤ cy < 100 → year_start c cy + a = n →
  0 ≤ a < (if leap_year (100 * c + cy + 1 - absoluteYears) then 366 else 365) →
  ∃ y m d, date n = (y, m, d) ∧ yearYday n = (y, days_before y m + d) ∧ is_date n y m d.
Proof.
  intros Hs Hc Hcy En Ha. unfold date, yearYday. rewrite Hs.
  assert (0 ≤ a ≤ 365) as Ha' by (destruct (leap_year _); lia).
  destruct (split_month (100 * c + cy - absoluteYears) a _ eq_refl) as (Hmo & Ea & Hv).
  { by replace (100 * c + cy - absoluteYears + 1) with (100 * c + cy + 1 - absoluteYears) by lia. }
  rewrite ayday_split_spec by lia.
  set (mo := (5 * a + 461) / 153) in *. set (d := 1 + (5 * a + 461) mod 153 / 5) in *.
  clearbody mo d. unfold janFeb, month, yday. rewrite leap_spec by done.
  destruct (Z.leb_spec marchThruDecember a) as [Hj|Hj]; destruct Hv as [Hm Hv];
    unfold marchThruDecember in Hj; rewrite year_spec by (done || lia);
    eexists _, _, _; (split; [reflexivity|]); unfold is_date.
  - assert (i64 (mo - i64 (1 * 12)) = mo - 12) as -> by (unwrap; lia).
    rewrite days_before_cases by lia.
    assert (∀ b : bool, Z.ldiff (if b then 1 else 0) 1 = 0) as -> by (by intros []).
    rewrite (rata_of c cy) by (unfold jan_feb; ztests; lia). unfold jan_feb. ztests.
    replace (mo - 12 + 12 * 1) with mo by lia. unwrap.
    split; [f_equal; unfold month_start in *; dlia|]. split; [|lia].
    by replace (100 * c + cy + 1 - absoluteYears) with (100 * c + cy - absoluteYears + 1) by lia.
  - assert (i64 (mo - i64 (0 * 12)) = mo) as -> by (unwrap; lia).
    replace (100 * c + cy + 0 - absoluteYears) with (100 * c + cy - absoluteYears) by lia.
    rewrite days_before_cases by lia. 
    rewrite (rata_of c cy) by (unfold jan_feb; ztests; lia). unfold jan_feb. ztests.
    rewrite Z.add_0_r, Z.ldiff_0_r.
    split; [|split; [done|lia]]. unfold month_start in *.
    f_equal. destruct (leap_year (100 * c + cy - absoluteYears)); unwrap; dlia.
Qed.

Lemma date_yearYday n : 0 ≤ n < 2 ^ 62 - 1 →
  ∃ y m d, date n = (y, m, d) ∧ yearYday n = (y, days_before y m + d) ∧ is_date n y m d.
Proof.
  intros Hn. 
  set (cd := (4 * n + 3) mod 146097 / 4).
  destruct (split_year n _ cd _ _ eq_refl eq_refl eq_refl eq_refl) as (EY1 & EY2 & En & Ha).
  rewrite EY1, EY2 in En.
  eapply split_date; [by apply days_split_spec|..]; [unfold cd; dlia..|done|done].
Qed.


(** ** A day is one date *)

Definition ystart (Y : Z) : Z := year_start (Y / 100) (Y mod 100).

Lemma ystart_mono Y Y' : Y ≤ Y' → ystart Y ≤ ystart Y'.
Proof. unfold ystart, year_start. intros H. dlia. Qed.

(** The place of a valid date in its March year. *)
Lemma rata_place y m d : valid_date (y, m, d) →
  ∃ a, rata y m d = ystart (y - jan_feb m + absoluteYears) + a ∧
    0 ≤ a < ystart (y - jan_feb m + absoluteYears + 1) - ystart (y - jan_feb m + absoluteYears) ∧
    month_start (m + 12 * jan_feb m) + d - 1 = a ∧
    a < month_start (m + 12 * jan_feb m + 1) ∧
    3 ≤ m + 12 * jan_feb m ≤ 14 ∧ 1 ≤ d.
Proof.
  intros [Hm Hd]. eexists. split; [unfold rata; rewrite <-!Z.add_assoc, <-Z.add_sub_assoc; reflexivity|].
  pose proof (leap_year_len (y - jan_feb m + absoluteYears)) as HL.
  fold (ystart (y - jan_feb m + absoluteYears)) in HL.
  fold (ystart (y - jan_feb m + absoluteYears + 1)) in HL. rewrite HL.
  replace (y - jan_feb m + absoluteYears + 1 - absoluteYears) with (y + 1 - jan_feb m) by lia.
  clear HL. unfold month_start, jan_feb, month_len in *.
  destruct (month_cases m Hm) as [->|[->|[->|[->|[->|[->|[->|[->|[->|[->|[->| ->]]]]]]]]]]];
    simpl in *; rewrite ?Z.add_simpl_r.
  2: destruct (leap_year y); dlia.
  all: destruct (leap_year _); dlia.
Qed.

Lemma rata_inj y m d y' m' d' : valid_date (y, m, d) → valid_date (y', m', d') →
  rata y m d = rata y' m' d' → (y, m, d) = (y', m', d').
Proof.
  intros Hv Hv' E.
  destruct (rata_place y m d Hv) as (a & Ea & Ha & Em & Hm1 & Hm & Hd).
  destruct (rata_place y' m' d' Hv') as (a' & Ea' & Ha' & Em' & Hm1' & Hm' & Hd').
  set (Y := y - jan_feb m + absoluteYears) in *.
  set (Y' := y' - jan_feb m' + absoluteYears) in *.
  assert (Y = Y') as HY.
  { destruct (Z.lt_trichotomy Y Y') as [Hlt|[Heq|Hlt]]; [exfalso|done|exfalso].
    - pose proof (ystart_mono (Y + 1) Y' ltac:(lia)). lia.
    - pose proof (ystart_mono (Y' + 1) Y ltac:(lia)). lia. }
  rewrite HY in *. assert (a = a') as <- by lia.
  assert (m + 12 * jan_feb m = m' + 12 * jan_feb m') as Emm by (unfold month_start in *; dlia).
  rewrite Emm in *. destruct Hv as [Hv1 _], Hv' as [Hv1' _].
  unfold Y, Y', jan_feb in *. destruct (Z.ltb_spec m 3), (Z.ltb_spec m' 3); f_equal; try f_equal; lia.
Qed.

(** ** From a date to its day *)

Lemma u64_i64 x : u64 (i64 x) = u64 x.
Proof. unfold swrap, uwrap. pow2_consts. simpl. dlia. Qed.

(** Any day, out of the month and negative ones too. *)
Lemma dateToAbsDays_rata y m d : 1 ≤ m ≤ 12 →
  0 ≤ y - jan_feb m + absoluteYears < 2 ^ 53 →
  dateToAbsDays y m d = u64 (rata y m d).
Proof.
  intros Hm HY. unfold dateToAbsDays, rata.
  rewrite (uwrap_small 32 m) by (unfold is_uint; lia). fold (jan_feb m).
  assert (0 ≤ jan_feb m ≤ 1 ∧ 3 ≤ m + 12 * jan_feb m ≤ 14) as [Hj Hmo]
    by (unfold jan_feb; zcases; lia).
  assert (u64 (u64 (u64 y - jan_feb m) + absoluteYears) = y - jan_feb m + absoluteYears) as ->
    by (unfold uwrap; dlia).
  set (Y := y - jan_feb m + absoluteYears) in *. clearbody Y. clear y.
  set (mo := m + 12 * jan_feb m) in *. clearbody mo. clear m Hm Hj.
  assert (0 ≤ Y mod 100 < 100 ∧ 0 ≤ 146097 * (Y / 100) < 2 ^ 64) as [Hcy Hc] by dlia.
  rewrite (uwrap_small 64 (146097 * _)) by done.
  rewrite (uwrap_small 32 (Y mod 100)), (uwrap_small 32 (1461 * _)) by (unfold is_uint; lia).
  rewrite (uwrap_small 32 mo), (uwrap_small 32 (979 * mo)) by (unfold is_uint; lia).
  rewrite (uwrap_small 32 (_ - 2919)), Z.shiftr_div_pow2 by (unfold is_uint; lia).
  assert ((979 * mo - 2919) / 2 ^ 5 = month_start mo) as -> by (unfold month_start; dlia).
  assert (0 ≤ month_start mo < 400) by (unfold month_start; dlia).
  rewrite (uwrap_small 32 (_ / 4 + _)) by (unfold is_uint; dlia).
  rewrite u64_i64, uwrap_add_r. unfold year_start, swrap, uwrap. pow2_consts. simpl. dlia.
Qed.


Lemma rata_range y m d : valid_date (y, m, d) → 0 ≤ y - jan_feb m + absoluteYears < 2 ^ 53 →
  0 ≤ rata y m d < 2 ^ 62 - 2.
Proof.
  intros Hv HY. destruct (rata_place y m d Hv) as (a & -> & Ha & _).
  unfold ystart, year_start in *. generalize dependent (y - jan_feb m + absoluteYears).
  intros Y HY Ha. dlia.
Qed.

Lemma date_rata y m d : valid_date (y, m, d) → 0 ≤ y - jan_feb m + absoluteYears < 2 ^ 53 →
  date (rata y m d) = (y, m, d).
Proof.
  intros Hv HY. pose proof (rata_range y m d Hv HY) as Hr.
  destruct (date_yearYday (rata y m d) ltac:(lia)) as (y' & m' & d' & -> & _ & Hv' & E).
  by apply rata_inj.
Qed.

Lemma date_dateToAbsDays y m d : valid_date (y, m, d) →
  0 ≤ y - jan_feb m + absoluteYears < 2 ^ 53 →
  date (dateToAbsDays y m d) = (y, m, d).
Proof.
  intros Hv HY. rewrite dateToAbsDays_rata by (done || apply Hv).
  pose proof (rata_range y m d Hv HY). rewrite uwrap_small by (unfold is_uint; lia).
  by apply date_rata.
Qed.

(** A day of the zero or later is in a March year that is not negative. *)
Lemma date_year n y m d : 0 ≤ n < 2 ^ 60 → is_date n y m d →
  0 ≤ y - jan_feb m + absoluteYears < 2 ^ 53.
Proof.
  intros Hn [Hv E]. destruct (rata_place y m d Hv) as (a & Ea & Ha & _).
  rewrite E in Ea. generalize dependent (y - jan_feb m + absoluteYears). intros Y Ea Ha.
  unfold ystart, year_start in *. clear E. dlia.
Qed.

Lemma dateToAbsDays_date n : 0 ≤ n < 2 ^ 60 →
  let '(y, m, d) := date n in dateToAbsDays y m d = n.
Proof.
  intros Hn. destruct (date_yearYday n ltac:(lia)) as (y & m & d & -> & _ & Hd).
  rewrite dateToAbsDays_rata by (apply Hd || by eapply date_year). destruct Hd as [_ ->].
  apply uwrap_small. unfold is_uint. lia.
Qed.

Lemma next_date_valid c : valid_date c → valid_date (next_date c).
Proof.
  destruct c as [[y m] d]. intros [Hm Hd]. unfold next_date.
  assert (∀ y m, 28 ≤ month_len y m) as Hl.
  { intros. unfold month_len. repeat case_match; lia. }
  pose proof (Hl y (m + 1)). pose proof (Hl (y + 1) 1).
  destruct (Z.ltb_spec d (month_len y m)); [|destruct (Z.ltb_spec m 12)]; simpl; lia.
Qed.

Lemma date_next n : 0 ≤ n < 2 ^ 62 - 2 →
  valid_date (date n) ∧ date (n + 1) = next_date (date n).
Proof.
  intros Hn. destruct (date_yearYday n ltac:(lia)) as (y & m & d & -> & _ & Hv & E).
  destruct (date_yearYday (n + 1) ltac:(lia)) as (y' & m' & d' & -> & _ & Hv' & E').
  split; [done|]. pose proof (rata_next y m d Hv) as Hx. pose proof (next_date_valid _ Hv) as Hvn.
  destruct (next_date (y, m, d)) as [[y1 m1] d1]. apply rata_inj; [done..|lia].
Qed.

(** ** Weekdays, weeks, and the other tables *)

Lemma weekday_spec n : 0 ≤ n < 2 ^ 63 → weekday n = (n + 3) mod 7.
Proof. intros Hn. unfold weekday, Wednesday. unwrap. done. Qed.

(** The Monday of the week of [n]. *)
Definition monday (n : Z) : Z := n - (n + 2) mod 7.

Lemma days_before_rata y m d : 1 ≤ m ≤ 12 → rata y m d = rata y 1 1 + (days_before y m + d) - 1.
Proof.
  intros Hm. rewrite days_before_cases by done.
  pose proof (leap_year_len (y - 1 + absoluteYears)) as Hy.
  replace (y - 1 + absoluteYears + 1) with (y + absoluteYears) in Hy by lia.
  replace (y + absoluteYears - absoluteYears) with y in Hy by lia.
  unfold rata, jan_feb, month_start. simpl.
  destruct (Z.ltb_spec m 3); rewrite ?Z.sub_0_r; [dlia|].
  rewrite Z.mul_0_r, Z.add_0_r. destruct (leap_year y); dlia.
Qed.

Lemma yday_range y m d : valid_date (y, m, d) → 1 ≤ days_before y m + d ≤ 366.
Proof.
  intros [Hm Hd]. rewrite days_before_cases by done. revert Hd. unfold month_start, month_len.
  destruct (month_cases m Hm) as [->|[->|[->|[->|[->|[->|[->|[->|[->|[->|[->| ->]]]]]]]]]]];
    simpl; destruct (leap_year y); dlia.
Qed.

Lemma isoWeek_spec n : 0 ≤ n < 2 ^ 61 →
  let '(y, w) := isoWeek n in
  1 ≤ w ≤ 53 ∧ monday n = monday (rata y 1 4) + 7 * (w - 1) ∧
  ∃ m d, date (monday n + 3) = (y, m, d).
Proof.
  intros Hn. unfold isoWeek.
  assert (weekday (u64 (n - 1)) = (n + 2) mod 7) as ->.
  { destruct (decide (n = 0)) as [->|]; [done|]. rewrite uwrap_small by (unfold is_uint; lia).
    rewrite weekday_spec by lia. f_equal. lia. }
  assert (u64 (n + u64 (i64 (Thursday - i64 ((n + 2) mod 7 + 1)))) = monday n + 3) as ->.
  { pose proof (Z.mod_pos_bound (n + 2) 7 ltac:(lia)). unfold Thursday. unwrap.
    rewrite uwrap_add_r. unfold monday. rewrite uwrap_small; [lia|]. unfold is_uint. dlia. }
  assert (0 ≤ monday n + 3 < 2 ^ 62 - 1) as Ht by (unfold monday; dlia).
  destruct (date_yearYday _ Ht) as (y & m & d & -> & -> & Hv & E).
  pose proof (days_before_rata y m d (proj1 Hv)) as Hd.
  pose proof (days_before_rata y 1 4 ltac:(lia)) as H4. change (days_before y 1) with 0 in H4.
  pose proof (yday_range y m d Hv) as Hyd.
  set (yd := days_before y m + d) in *. clearbody yd.
  rewrite Z.quot_div_nonneg by (unwrap; lia). unwrap_with dlia.
  split; [dlia|]. split; [|by exists m, d]. unfold monday in *. dlia.
Qed.

Lemma isLeap_spec y : is_sint 64 y → isLeap y = leap_year y.
Proof.
  intros _. unfold isLeap, leap_year.
  assert ((Z.rem y 25 =? 0) = (y mod 25 =? 0)) as ->.
  { apply Bool.eq_iff_eq_true. rewrite !Z.eqb_eq.
    rewrite Z.rem_divide, Z.mod_divide by done. done. }
  destruct (Z.eqb_spec (y mod 25) 0); simpl.
  - change 0xf with (2 ^ 4 - 1). rewrite land_mask by done.
    destruct (Z.eqb_spec (y mod 2 ^ 4) 0), (Z.eqb_spec (y mod 4) 0),
      (Z.eqb_spec (y mod 100) 0), (Z.eqb_spec (y mod 400) 0); try done; simpl; exfalso; dlia.
  - change 3 with (2 ^ 2 - 1). rewrite land_mask by done. change (2 ^ 2) with 4.
    destruct (Z.eqb_spec (y mod 4) 0), (Z.eqb_spec (y mod 100) 0); try done. exfalso; dlia.
Qed.

Lemma daysIn_spec m y : 1 ≤ m ≤ 12 → is_sint 64 y → daysIn m y = month_len y m.
Proof.
  intros Hm Hy. unfold daysIn, month_len, February. rewrite isLeap_spec by done.
  by destruct (month_cases m Hm) as [->|[->|[->|[->|[->|[->|[->|[->|[->|[->|[->| ->]]]]]]]]]]].
Qed.

(** The days before a month of a common year. *)
Lemma daysBefore_spec m y : 1 ≤ m ≤ 12 → leap_year y = false →
  daysBefore m = days_before y m.
Proof.
  intros Hm Hy. rewrite days_before_cases, Hy by done.
  by destruct (month_cases m Hm) as [->|[->|[->|[->|[->|[->|[->|[->|[->|[->|[->| ->]]]]]]]]]]].
Qed.

Lemma norm_spec hi lo base : 0 < base ≤ 2 ^ 60 → - 2 ^ 61 ≤ hi ≤ 2 ^ 61 → - 2 ^ 61 ≤ lo ≤ 2 ^ 61 →
  norm hi lo base = (hi + lo / base, lo mod base).
Proof.
  intros Hb Hhi Hlo. unfold norm. pow2_consts.
  pose proof (Z.div_mod lo base ltac:(lia)) as E. pose proof (Z.mod_pos_bound lo base ltac:(lia)) as Hr.
  set (q := lo / base) in *. set (r := lo mod base) in *. clearbody q r.
  destruct (Z.ltb_spec lo 0) as [Hneg|Hpos].
  - assert (- 2305843009213693952 ≤ q < 0) as Hq by nia.
    assert (Z.quot (i64 (i64 (- lo) - 1)) base + 1 = - q) as ->.
    { unwrap. rewrite Z.quot_div_nonneg by lia.
      replace (- lo - 1) with (base - 1 - r + (- q - 1) * base) by lia.
      rewrite Z.div_add, Z.div_small by lia. lia. }
    rewrite (i64_small (- q)) by lia. rewrite (i64_small (- q * base)) by nia.
    replace (lo + - q * base) with r by lia. unwrap.
    rewrite (proj2 (Z.leb_gt _ _)) by lia. f_equal; lia.
  - destruct (Z.leb_spec base lo) as [Hge|Hlt].
    + assert (0 < q ≤ 2305843009213693952) by nia.
      rewrite Z.quot_div_nonneg by lia. replace lo with (r + q * base) by lia.
      rewrite Z.div_add, Z.div_small by lia. rewrite Z.add_0_l.
      rewrite (i64_small (q * base)) by lia. replace (r + q * base - q * base) with r by lia.
      unwrap. done.
    + assert (q = 0) by nia. subst. f_equal; lia.
Qed.

Lemma clock_spec abs : 0 ≤ abs < 2 ^ 64 →
  clock abs = (abs mod 86400 / 3600, abs mod 3600 / 60, abs mod 60).
Proof.
  intros Ha. unfold clock. change secondsPerDay with 86400. change secondsPerHour with 3600.
  change secondsPerMinute with 60.
  assert (0 ≤ abs mod 86400 < 86400) by dlia.
  rewrite (Z.quot_div_nonneg _ 3600) by lia. unwrap_with dlia.
  rewrite Z.quot_div_nonneg by dlia. unwrap_with dlia. repeat f_equal; dlia.
Qed.

(** * The properties *)

(** The conversions that count from January 1, 306 days before March 1. *)
Lemma legacy_spec n s full : 0 ≤ n < 2 ^ 46 → 0 ≤ s < 86400 →
  legacyAbsClock (86400 * n + s) = (s / 3600, s mod 3600 / 60, s mod 60) ∧
  ∃ y m d, date (n + 306) = (y, m, d) ∧
    legacyAbsDate (86400 * n + s) full = (y, m, d, days_before y m + d - 1).
Proof.
  intros Hn Hs. unfold legacyAbsClock, legacyAbsDate. change (marchThruDecember * secondsPerDay) with (306 * 86400).
  rewrite uwrap_small by (unfold is_uint; lia). split.
  - rewrite clock_spec by lia. replace (86400 * n + s + 306 * 86400) with (s + (n + 306) * 86400) by lia.
    rewrite Z_mod_plus_full, (Z.mod_small s 86400) by done.
    replace ((n + 306) * 86400) with ((n + 306) * 24 * 3600) by lia. rewrite Z_mod_plus_full.
    replace ((n + 306) * 24 * 3600) with ((n + 306) * 1440 * 60) by lia. by rewrite Z_mod_plus_full.
  - assert (days (86400 * n + s + 306 * 86400) = n + 306) as ->.
    { unfold days. change secondsPerDay with 86400.
      replace (86400 * n + s + 306 * 86400) with (s + (n + 306) * 86400) by lia.
      rewrite Z.div_add, Z.div_small by done. lia. }
    destruct (date_yearYday (n + 306) ltac:(lia)) as (y & m & d & E & Ey & Hv & _).
    rewrite E, Ey. exists y, m, d. split; [done|]. pose proof (yday_range y m d Hv).
    by rewrite i64_small by lia.
Qed.

(** C30: The days counted from the zero enumerate the proleptic Gregorian calendar:
    day 0 is March 1 of the year -292277022400 and a Wednesday, and the date and
    the weekday of every day are the ones after those of the day before it.
    [dateToAbsDays] goes back from the date to the day, [yearYday] tells the days
    of the year up to it, and [isoWeek] the ISO 8601 week: its Thursday is in the
    year that is returned, and the week that contains January 4 is the first. And
    every valid date in the range of the conversions is the date of its day. The
    tables of leap years and month lengths are the ones of the calendar, and the
    conversions kept for other packages count from the January 1 before. *)
Theorem date_correct (n : Z) : 0 ≤ n < 2 ^ 60 →
  (date 0 = (- absoluteYears, 3, 1) ∧ weekday 0 = Wednesday) ∧
  valid_date (date n) ∧
  date (n + 1) = next_date (date n) ∧
  weekday (n + 1) = (weekday n + 1) mod 7 ∧
  (∀ y m d, date n = (y, m, d) →
    dateToAbsDays y m d = n ∧ yearYday n = (y, days_before y m + d)) ∧
  (let '(y, w) := isoWeek n in
    1 ≤ w ≤ 53 ∧ monday n = monday (rata y 1 4) + 7 * (w - 1) ∧
    ∃ m d, date (monday n + 3) = (y, m, d)) ∧
  (∀ y m d, valid_date (y, m, d) → 0 ≤ y - jan_feb m + absoluteYears < 2 ^ 53 →
    date (dateToAbsDays y m d) = (y, m, d)) ∧
  (∀ y m, 1 ≤ m ≤ 12 → is_sint 64 y →
    isLeap y = leap_year y ∧ daysIn m y = month_len y m ∧
    (leap_year y = false → daysBefore m = days_before y m)) ∧
  (∀ s full, n < 2 ^ 46 → 0 ≤ s < 86400 →
    legacyAbsClock (86400 * n + s) = (s / 3600, s mod 3600 / 60, s mod 60) ∧
    ∃ y m d, date (n + 306) = (y, m, d) ∧
      legacyAbsDate (86400 * n + s) full = (y, m, d, days_before y m + d - 1)).
Proof.
  intros Hn. destruct (date_next n ltac:(lia)) as [Hv Hnext].
  split_and!; [done|done|done|done| | |by apply isoWeek_spec; lia|
    by apply date_dateToAbsDays| |].
  - rewrite !weekday_spec by lia. rewrite Zplus_mod_idemp_l. f_equal. lia.
  - intros y m d E. pose proof (dateToAbsDays_date n Hn) as Hd. rewrite E in Hd.
    destruct (date_yearYday n ltac:(lia)) as (y' & m' & d' & E' & Ey & _).
    split; [done|]. congruence.
  - intros y m Hm Hy. split; [by apply isLeap_spec|]. split; [by apply daysIn_spec|].
    by apply daysBefore_spec.
  - intros s full Hn1 Hs. apply legacy_spec; [lia|done].
Qed.

(** The day of 1970-01-01. *)
Lemma date_correct_witness : let n := 106751991073400 in
  0 ≤ n < 2 ^ 60 ∧ date n = (1970, 1, 1) ∧ date (n + 1) = next_date (date n) ∧
  dateToAbsDays 1970 1 1 = n.
Proof.
  intros n. split; [done|]. split; [vm_compute; reflexivity|].
  destruct (date_correct n ltac:(done)) as (_ & _ & H & _ & Hd & _).
  split; [exact H|]. apply (Hd 1970 1 1). vm_compute. reflexivity.
Defined.
