(* ===== verification/Zone.v ===== *)
(** * time: locations and time zones

    The lookup of the zone in use at an instant (time/zoneinfo.go): the one-entry
    cache, the table of transitions, the zone before the first of them, and the
    TZ string that rules after the last one. Instants are seconds since 1970;
    strings are the lists of their bytes, read rune by rune as the [range] loops
    of the code do. *)

From Stdlib Require Import String.
From stdpp Require Import base.
From S2P Require Import Prelude Bits Bytealg Utf8 Calendar.

Record zone := Zone { zone_name : list Z; offset : Z; isDST : bool }.

Record zoneTrans := ZoneTrans { when : Z; index : Z; isstd : bool; isutc : bool }.

Record Location := MkLocation {
  name : list Z;
  zones : list zone;
  tx : list zoneTrans;
  extend : list Z;
  cacheStart : Z;
  cacheEnd : Z;
  cacheZone : option zone;
}.

Definition alpha : Z := - 2 ^ 63.
Definition omega : Z := 2 ^ 63 - 1.

Definition utcLoc : Location := MkLocation (str "UTC") [] [] [] 0 0 None.

Definition fixedZone (name : list Z) (offset : Z) : Location :=
  let z := Zone name offset false in
  MkLocation name [z] [ZoneTrans alpha 0 false false] [] alpha omega (Some z).

(** What [lookup] returns: name, offset, start, end, isDST. *)
Definition zone_info : Type := list Z * Z * Z * Z * bool.

Definition info (z : zone) (start end_ : Z) : zone_info :=
  (zone_name z, offset z, start, end_, isDST z).

(** ** TZ strings *)

Definition is_name_end (r : Z) : bool :=
  ((chr "0" <=? r) && (r <=? chr "9")) || (r =? chr ",") || (r =? chr "-") || (r =? chr "+").

(** The scans of [tzsetName]: the unquoted and the quoted form. *)
Definition plain_name (s : list Z) : res (option (list Z * list Z)) :=
  loop (fuel_of (len s))
    (λ i,
      if i <? len s then
        '(r, i') ← range_next s i;
        if is_name_end r then
          if i <? 3 then mret (inr None) else
          n ← slice_to s i; rest ← slice_from s i; mret (inr (Some (n, rest)))
        else mret (inl i')
      else mret (inr (if len s <? 3 then None else Some (s, [])))) 0.

Definition quoted_name (s : list Z) : res (option (list Z * list Z)) :=
  loop (fuel_of (len s))
    (λ i,
      if i <? len s then
        '(r, i') ← range_next s i;
        if r =? chr ">" then
          n ← slice s 1 i; rest ← slice_from s (i + 1); mret (inr (Some (n, rest)))
        else mret (inl i')
      else mret (inr None)) 0.

Definition tzsetName (s : list Z) : res (option (list Z * list Z)) :=
  if len s =? 0 then mret None else
  c ← idx s 0;
  if negb (c =? chr "<") then plain_name s else quoted_name s.

Definition tzsetNum (s : list Z) (min max : Z) : res (option (Z * list Z)) :=
  if len s =? 0 then mret None else
  loop (fuel_of (len s))
    (λ '(i, num),
      if i <? len s then
        '(r, i') ← range_next s i;
        if (r <? chr "0") || (chr "9" <? r) then
          if (i =? 0) || (num <? min) then mret (inr None) else
          rest ← slice_from s i; mret (inr (Some (num, rest)))
        else
          let num := i64 (i64 (num * 10) + i64 (r - chr "0")) in
          if max <? num then mret (inr None) else mret (inl (i', num))
      else mret (inr (if num <? min then None else Some (num, [])))) (0, 0).

(** Does the string start with the byte? *)
Definition starts (s : list Z) (c : Z) : res bool :=
  andM (negb (len s =? 0)) (b ← idx s 0; mret (b =? c)).

(** A failed part of a parser ends it. *)
Definition try {A B} (m : res (option A)) (k : A → res (option B)) : res (option B) :=
  o ← m; match o with Some a => k a | None => mret None end.

Definition tzsetOffset (s : list Z) : res (option (Z * list Z)) :=
  if len s =? 0 then mret None else
  c ← idx s 0;
  rest ← slice_from s 1;
  let '(neg, s) :=
    if c =? chr "+" then (false, rest) else if c =? chr "-" then (true, rest) else (false, s) in
  let signed off := if neg : bool then i64 (- off) else off in
  try (tzsetNum s 0 (24 * 7)) (λ '(hours, s),
  let off := i64 (hours * secondsPerHour) in
  colon ← starts s (chr ":");
  if negb colon then mret (Some (signed off, s)) else
  s ← slice_from s 1;
  try (tzsetNum s 0 59) (λ '(mins, s),
  let off := i64 (off + i64 (mins * secondsPerMinute)) in
  colon ← starts s (chr ":");
  if negb colon then mret (Some (signed off, s)) else
  s ← slice_from s 1;
  try (tzsetNum s 0 59) (λ '(secs, s),
  let off := i64 (off + secs) in
  mret (Some (signed off, s))))).

Inductive ruleKind := ruleJulian | ruleDOY | ruleMonthWeekDay.

Record rule := Rule { kind : ruleKind; day : Z; week : Z; mon : Z; time : Z }.

(** The part of [tzsetRule] before the time of the transition. *)
Definition tzsetDay (s : list Z) : res (option (rule * list Z)) :=
  c ← idx s 0;
  if c =? chr "J" then
    s ← slice_from s 1;
    try (tzsetNum s 1 365) (λ '(jday, s), mret (Some (Rule ruleJulian jday 0 0 0, s)))
  else if c =? chr "M" then
    s ← slice_from s 1;
    try (tzsetNum s 1 12) (λ '(mon, s),
    dot ← starts s (chr ".");
    if negb dot then mret None else
    s ← slice_from s 1;
    try (tzsetNum s 1 5) (λ '(week, s),
    dot ← starts s (chr ".");
    if negb dot then mret None else
    s ← slice_from s 1;
    try (tzsetNum s 0 6) (λ '(day, s),
    mret (Some (Rule ruleMonthWeekDay day week mon 0, s)))))
  else
    try (tzsetNum s 0 365) (λ '(day, s), mret (Some (Rule ruleDOY day 0 0 0, s))).

Definition set_time (r : rule) (t : Z) : rule := Rule (kind r) (day r) (week r) (mon r) t.

Definition tzsetRule (s : list Z) : res (option (rule * list Z)) :=
  if len s =? 0 then mret None else
  try (tzsetDay s) (λ '(r, s),
  slash ← starts s (chr "/");
  if negb slash then mret (Some (set_time r (2 * secondsPerHour), s)) else
  s ← slice_from s 1;
  try (tzsetOffset s) (λ '(offset, s), mret (Some (set_time r offset, s)))).

(** Zeller's congruence in [tzruleTime]: the weekday of the first of a month. *)
Definition first_weekday (year mon : Z) : Z :=
  let m1 := i64 (Z.rem (i64 (mon + 9)) 12 + 1) in
  let yy0 := if mon <=? 2 then i64 (year - 1) else year in
  let yy1 := Z.quot yy0 100 in
  let yy2 := Z.rem yy0 100 in
  let dow := Z.rem (i64 (i64 (i64 (i64 (i64 (Z.quot (i64 (i64 (26 * m1) - 2)) 10 + 1) + yy2)
               + Z.quot yy2 4) + Z.quot yy1 4) - i64 (2 * yy1))) 7 in
  if dow <? 0 then i64 (dow + 7) else dow.

(** The loop of [tzruleTime] to the asked week of the month. *)
Definition rule_week (year : Z) (r : rule) (d : Z) : res Z :=
  loop (fuel_of (week r))
    (λ '(i, d),
      if i <? week r then
        if daysIn (mon r) year <=? i64 (d + 7) then mret (inr d)
        else mret (inl (i64 (i + 1), i64 (d + 7)))
      else mret (inr d)) (1, d).

Definition tzruleTime (year : Z) (r : rule) (off : Z) : res Z :=
  s ← match kind r with
      | ruleJulian =>
          let s := i64 (i64 (day r - 1) * secondsPerDay) in
          mret (if isLeap year && (60 <=? day r) then i64 (s + secondsPerDay) else s)
      | ruleDOY => mret (i64 (day r * secondsPerDay))
      | ruleMonthWeekDay =>
          let d := i64 (day r - first_weekday year (mon r)) in
          let d := if d <? 0 then i64 (d + 7) else d in
          d ← rule_week year r d;
          let d := i64 (d + daysBefore (mon r)) in
          let d := if isLeap year && (2 <? mon r) then i64 (d + 1) else d in
          mret (i64 (d * secondsPerDay))
      end;
  mret (i64 (i64 (s + time r) - off)).

(** The two zones of a TZ string, and its rules unless it has no daylight
    saving time. *)
Definition tzset_dst (stdName : list Z) (stdOffset : Z) (s : list Z) :
    res (option (list Z * Z * rule * rule)) :=
  try (tzsetName s) (λ '(dstName, s),
  comma ← starts s (chr ",");
  try (if (len s =? 0) || comma then mret (Some (i64 (stdOffset + secondsPerHour), s))
       else try (tzsetOffset s) (λ '(dstOffset, s), mret (Some (i64 (- dstOffset), s))))
      (λ '(dstOffset, s),
  let s := if len s =? 0 then str ",M3.2.0,M11.1.0" else s in
  c ← idx s 0;
  if negb (c =? chr ",") && negb (c =? chr ";") then mret None else
  s ← slice_from s 1;
  try (tzsetRule s) (λ '(startRule, s),
  comma ← starts s (chr ",");
  if negb comma then mret None else
  s ← slice_from s 1;
  try (tzsetRule s) (λ '(endRule, s),
  if 0 <? len s then mret None else
  mret (Some (dstName, dstOffset, startRule, endRule)))))).

(** The zone that the rules put in use at [sec]. *)
Definition tzset_rules (stdName : list Z) (stdOffset : Z) (dstName : list Z) (dstOffset : Z)
    (startRule endRule : rule) (sec : Z) : res zone_info :=
  let '(year, yday) := yearYday (days (u64 (i64 (i64 (sec + unixToInternal) + internalToAbsolute)))) in
  let ysec := i64 (i64 (i64 (yday - 1) * secondsPerDay) + Z.rem sec secondsPerDay) in
  let ystart := i64 (sec - ysec) in
  startSec ← tzruleTime year startRule stdOffset;
  endSec ← tzruleTime year endRule dstOffset;
  let '(startSec, endSec, std, dst) :=
    if endSec <? startSec
    then (endSec, startSec, Zone dstName dstOffset true, Zone stdName stdOffset false)
    else (startSec, endSec, Zone stdName stdOffset false, Zone dstName dstOffset true) in
  mret (if ysec <? startSec then info std ystart (i64 (startSec + ystart))
        else if endSec <=? ysec then
          info std (i64 (endSec + ystart)) (i64 (ystart + 365 * secondsPerDay))
        else info dst (i64 (startSec + ystart)) (i64 (endSec + ystart))).

Definition tzset (s : list Z) (lastTxSec sec : Z) : res (option zone_info) :=
  try (tzsetName s) (λ '(stdName, s),
  try (tzsetOffset s) (λ '(stdOffset, s),
  let stdOffset := i64 (- stdOffset) in
  comma ← starts s (chr ",");
  if (len s =? 0) || comma then
    mret (Some (stdName, stdOffset, lastTxSec, omega, false))
  else
    try (tzset_dst stdName stdOffset s) (λ '(dstName, dstOffset, startRule, endRule),
    z ← tzset_rules stdName stdOffset dstName dstOffset startRule endRule sec;
    mret (Some z)))).

(** ** The lookup *)

Definition firstZoneUsed (l : Location) : bool := existsb (λ t, index t =? 0) (tx l).

(** The first zone that is not daylight saving time, among those at [i], [i-1],
    ... and among those at [i], [i+1], ... *)
Definition std_below (zs : list zone) (i : Z) : res (option Z) :=
  loop (fuel_of (i + 1)) (λ zi,
    if 0 <=? zi then
      z ← idx zs zi; mret (if isDST z then inl (zi - 1) else inr (Some zi))
    else mret (inr None)) i.

Definition std_from (zs : list zone) (i : Z) : res (option Z) :=
  loop (fuel_of (len zs)) (λ zi,
    if zi <? len zs then
      z ← idx zs zi; mret (if isDST z then inl (zi + 1) else inr (Some zi))
    else mret (inr None)) i.

Definition lookupFirstZone (l : Location) : res Z :=
  if negb (firstZoneUsed l) then mret 0 else
  before ← (if 0 <? len (tx l) then
              t ← idx (tx l) 0; z ← idx (zones l) (index t);
              if isDST z then std_below (zones l) (index t - 1) else mret None
            else mret None);
  match before with
  | Some zi => mret zi
  | None => zi ← std_from (zones l) 0; mret (default 0 zi)
  end.

(** The binary search for the last transition at or before [sec], and the time
    of the next one. *)
Definition lookup_search (tx : list zoneTrans) (sec : Z) : res (Z * Z) :=
  loop (fuel_of (len tx))
    (λ '(lo, hi, end_),
      if 1 <? hi - lo then
        let m := Z.shiftr (u64 (i64 (lo + hi))) 1 in
        t ← idx tx m;
        mret (inl (if sec <? when t then (lo, m, when t) else (m, hi, end_)))
      else mret (inr (lo, end_))) (0, len tx, omega).

(** [lookup] without the cache. *)
Definition lookup_table (l : Location) (sec : Z) : res zone_info :=
  first ← orM (len (tx l) =? 0) (t ← idx (tx l) 0; mret (sec <? when t));
  if first : bool then
    zi ← lookupFirstZone l;
    z ← idx (zones l) zi;
    end_ ← (if 0 <? len (tx l) then t ← idx (tx l) 0; mret (when t) else mret omega);
    mret (info z alpha end_)
  else
    '(lo, end_) ← lookup_search (tx l) sec;
    t ← idx (tx l) lo;
    z ← idx (zones l) (index t);
    ext ← (if (lo =? len (tx l) - 1) && negb (bool_decide (extend l = []))
           then tzset (extend l) (when t) sec else mret None);
    mret (default (info z (when t) end_) ext).

(** The cached zone, if it is in use at [sec]. *)
Definition cached (l : Location) (sec : Z) : option zone :=
  match cacheZone l with
  | Some z => if (cacheStart l <=? sec) && (sec <? cacheEnd l) then Some z else None
  | None => None
  end.

Definition lookup (l : Location) (sec : Z) : res zone_info :=
  if len (zones l) =? 0 then mret (str "UTC", 0, alpha, omega, false) else
  match cached l sec with
  | Some z => mret (info z (cacheStart l) (cacheEnd l))
  | None => lookup_table l sec
  end.
