(* ===== verification/ZoneProofs.v ===== *)
(** * time: correctness of the zone lookup *)

From Stdlib Require Import String.
From stdpp Require Import base.
From S2P Require Import Prelude Bits Bytealg Utf8 Utf8Props Calendar CalendarProofs Zone.

(** ** The parsers of TZ strings return *)

Lemma decode_ascii b p : Forall byte (b :: p) → 0x80 ≤ b → 0x80 ≤ fst (decode (b :: p)).
Proof.
  intros Hp Hb. destruct (decode_cases (b :: p) Hp ltac:(done)) as [r rest Hr He|]; [|done].
  simpl. unfold utf8_encode in He. destruct (Z.ltb_spec r 0x80); [|done].
  injection He as -> _. lia.
Qed.

Lemma decode_of_ascii b p : b < 0x80 → decode (b :: p) = (b, 1).
Proof. intros Hb. unfold decode. by rewrite (proj2 (Z.ltb_lt b 0x80)). Qed.

(** A step of a [range] loop: it moves on, and the ASCII runes are the bytes. *)
Lemma range_step s i : Forall byte s → 0 ≤ i < len s →
  wp (range_next s i) (λ '(r, i'), i < i' ≤ len s ∧
    ∃ b, zget s i = Some b ∧ (b < 0x80 → r = b ∧ i' = i + 1) ∧ (0x80 ≤ b → 0x80 ≤ r)).
Proof.
  intros Hs Hi. rewrite range_next_decode by done.
  destruct (zget_lt s i Hi) as [b Hb].
  assert (drop (Z.to_nat i) s = b :: drop (S (Z.to_nat i)) s) as Hd.
  { apply drop_S. unfold zget in Hb. by rewrite decide_True in Hb by lia. }
  pose proof (decode_size (drop (Z.to_nat i) s) (Forall_drop _ _ _ Hs)) as Hsz.
  rewrite Hd in Hsz. specialize (Hsz ltac:(done)). rewrite <-Hd, len_drop in Hsz.
  rewrite Hd in *. pose proof (zget_elem_of _ _ _ Hb) as Hin.
  assert (byte b) as Hbyte by by (rewrite Forall_forall in Hs; apply Hs). unfold is_uint in Hbyte.
  destruct (decode (b :: _)) as [r n] eqn:E. simpl in Hsz. apply wp_ok. split; [lia|].
  exists b. split; [done|]. split.
  - intros Hlt. rewrite decode_of_ascii in E by done. by simplify_eq.
  - intros Hge.
    pose proof (decode_ascii b (drop (S (Z.to_nat i)) s)) as Ha. rewrite E in Ha. simpl in Ha.
    apply Ha; [|done]. rewrite <-Hd. by apply Forall_drop.
Qed.

(** A parser returns, and what it leaves is part of the string. *)
Definition parses {A} (P : A → Prop) (m : res (option (A * list Z))) (s : list Z) : Prop :=
  wp m (λ o, ∀ a rest, o = Some (a, rest) → P a ∧ suffix rest s).

Lemma suffix_bytes rest s : Forall byte s → suffix rest s → Forall byte rest.
Proof. intros Hs [p ->]. by apply Forall_app in Hs as [_ ?]. Qed.

Lemma slice_from_suffix {A} (s : list A) i : 0 ≤ i ≤ len s →
  ∃ rest, slice_from s i = Ok rest ∧ suffix rest s ∧ len rest = len s - i.
Proof.
  intros Hi. unfold slice_from. rewrite decide_True by done. eexists. split; [done|].
  split; [|rewrite len_drop; lia]. exists (take (Z.to_nat i) s). by rewrite take_drop.
Qed.

Lemma wp_slice_from {A} (s : list A) i (Q : list A → Prop) : 0 ≤ i ≤ len s →
  (∀ rest, suffix rest s → len rest = len s - i → Q rest) → wp (slice_from s i) Q.
Proof.
  intros Hi HQ. destruct (slice_from_suffix s i Hi) as (rest & -> & ? & ?). by apply HQ.
Qed.

Lemma wp_slice {A} (s : list A) i j (Q : list A → Prop) : 0 ≤ i ≤ j → j ≤ len s →
  (∀ r, Q r) → wp (slice s i j) Q.
Proof. intros Hi Hj HQ. unfold slice. rewrite decide_True by lia. apply HQ. Qed.

Lemma starts_spec s c : wp (starts s c) (λ b, b = true → 1 ≤ len s).
Proof.
  unfold starts. pose proof (len_nonneg s). destruct (Z.eqb_spec (len s) 0); simpl; [done|].
  apply wp_bind, wp_idx; [lia|]. intros b _. simpl. lia.
Qed.

Lemma plain_name_parses s : Forall byte s → parses (λ _, True) (plain_name s) s.
Proof.
  intros Hs. unfold plain_name, parses.
  apply (wp_loop (λ i, 0 ≤ i ≤ len s) (λ i, len s - i)); pose proof (len_nonneg s);
    [lia|lia|unfold fuel_of; lia|].
  intros i Hi. destruct (Z.ltb_spec i (len s)).
  - apply wp_bind. eapply wp_mono; [apply range_step; [done|lia]|]. intros [r i'] [Hi' _].
    destruct (is_name_end r); [|simpl; lia]. destruct (i <? 3); [done|].
    apply wp_bind. unfold slice_to. rewrite decide_True by lia. apply wp_ok, wp_bind.
    apply wp_slice_from; [lia|]. intros rest Hr _ n rest' [= <- <-]. done.
  - simpl. destruct (len s <? 3); [done|]. intros n rest [= <- <-]. split; [done|apply suffix_nil].
Qed.

Lemma quoted_name_parses s : Forall byte s → zget s 0 = Some (chr "<") →
  parses (λ _, True) (quoted_name s) s.
Proof.
  intros Hs H0. unfold quoted_name, parses.
  apply (wp_loop (λ i, 0 ≤ i ≤ len s) (λ i, len s - i)); pose proof (len_nonneg s);
    [lia|lia|unfold fuel_of; lia|].
  intros i Hi. destruct (Z.ltb_spec i (len s)); [|done].
  apply wp_bind. eapply wp_mono; [apply range_step; [done|lia]|].
  intros [r i'] (Hi' & b & Hb & Hr & Hr').
  destruct (Z.eqb_spec r (chr ">")) as [->|]; [|simpl; lia].
  assert (1 ≤ i).
  { destruct (decide (i = 0)) as [->|]; [|lia]. rewrite H0 in Hb. injection Hb as <-.
    destruct (Hr ltac:(done)) as [Hx _]. done. }
  apply wp_bind, wp_slice; [lia|lia|]. intros n. apply wp_bind, wp_slice_from; [lia|].
  intros rest Hrest _ n' rest' [= <- <-]. done.
Qed.

Lemma tzsetName_parses s : Forall byte s → parses (λ _, True) (tzsetName s) s.
Proof.
  intros Hs. unfold tzsetName, parses. pose proof (len_nonneg s).
  destruct (Z.eqb_spec (len s) 0); [done|]. apply wp_bind, wp_idx; [lia|]. intros c Hc.
  destruct (Z.eqb_spec c (chr "<")) as [->|]; simpl;
    [by apply quoted_name_parses|by apply plain_name_parses].
Qed.

Lemma tzsetNum_parses s min max : Forall byte s → 0 ≤ max < 2 ^ 31 →
  parses (λ n, min ≤ n ≤ max ∧ 0 ≤ n) (tzsetNum s min max) s.
Proof.
  intros Hs Hmax. unfold tzsetNum, parses. pose proof (len_nonneg s).
  destruct (Z.eqb_spec (len s) 0); [done|].
  apply (wp_loop (λ '(i, num), 0 ≤ i ≤ len s ∧ 0 ≤ num ≤ max) (λ '(i, _), len s - i));
    [lia|intros []; lia|unfold fuel_of; lia|].
  intros [i num] [Hi Hnum]. destruct (Z.ltb_spec i (len s)).
  - apply wp_bind. eapply wp_mono; [apply range_step; [done|lia]|]. intros [r i'] [Hi' _].
    change (chr "0") with 48. change (chr "9") with 57.
    destruct (Z.ltb_spec r 48), (Z.ltb_spec 57 r); cbn [orb]; try (exfalso; lia).
    1-2: destruct (Z.eqb_spec i 0); [done|]; destruct (Z.ltb_spec num min); [done|];
      apply wp_bind, wp_slice_from; [lia|]; intros rest Hr _ nn rest' [= <- <-]; split; [lia|done].
    assert (i64 (i64 (num * 10) + i64 (r - 48)) = num * 10 + (r - 48)) as -> by (unwrap; done).
    destruct (Z.ltb_spec max (num * 10 + (r - 48))); simpl; [done|lia].
  - simpl. destruct (Z.ltb_spec num min); [done|]. intros n' rest [= <- <-].
    split; [lia|apply suffix_nil].
Qed.

Lemma parses_bind {A B} (P : A → Prop) m (k : A * list Z → res (option B)) s Q :
  parses P m s → Forall byte s → Q None →
  (∀ a rest, P a → suffix rest s → Forall byte rest → wp (k (a, rest)) Q) →
  wp (try m k) Q.
Proof.
  intros Hm Hs HQ Hk. unfold try. apply wp_bind. eapply wp_mono; [exact Hm|].
  intros [[a rest]|] Hp; [|done]. destruct (Hp a rest eq_refl) as [Ha Hr].
  apply Hk; [done|done|by eapply suffix_bytes].
Qed.

(** A separator and what follows it. *)
Lemma starts_then {B} s c (k : bool → res (option B)) Q :
  wp (k false) Q → (1 ≤ len s → wp (k true) Q) → wp (b ← starts s c; k b) Q.
Proof.
  intros Hf Ht. apply wp_bind. eapply wp_mono; [apply starts_spec|]. intros [] H; auto.
Qed.

Lemma skip_one {B} (s s0 : list Z) (k : list Z → res (option B)) Q :
  1 ≤ len s → suffix s s0 → Forall byte s →
  (∀ rest, suffix rest s0 → Forall byte rest → wp (k rest) Q) → wp (rest ← slice_from s 1; k rest) Q.
Proof.
  intros Hl Hs Hb Hk. apply wp_bind, wp_slice_from; [lia|]. intros rest Hr _.
  apply Hk; [by etrans|by eapply suffix_bytes].
Qed.

Definition offset_small (o : Z) : Prop := - 2 ^ 20 < o < 2 ^ 20.
Definition offset_ok (o : Z) : Prop := - 2 ^ 21 < o < 2 ^ 21.

Lemma offset_small_ok o : offset_small o → offset_ok o.
Proof. unfold offset_small, offset_ok. lia. Qed.

Lemma offset_small_opp o : offset_small o → offset_small (i64 (- o)).
Proof. unfold offset_small. intros Ho. unwrap. lia. Qed.

Lemma tzsetOffset_parses s : Forall byte s → parses offset_small (tzsetOffset s) s.
Proof.
  intros Hs. unfold tzsetOffset, parses. pose proof (len_nonneg s).
  destruct (Z.eqb_spec (len s) 0); [done|]. apply wp_bind, wp_idx; [lia|]. intros c _.
  apply wp_bind, wp_slice_from; [lia|]. intros r1 Hr1 _.
  set (p := if c =? chr "+" then (false, r1) else _).
  assert (suffix p.2 s) as Hp by (unfold p; repeat case_match; simpl; [done..|reflexivity]).
  destruct p as [neg s1]. simpl in Hp. assert (Forall byte s1) as Hs1 by by eapply suffix_bytes.
  assert (∀ off, offset_small off → offset_small (if neg then i64 (- off) else off)) as Hsigned.
  { unfold offset_small. intros off Ho. destruct neg; [unwrap; lia|done]. }
  eapply parses_bind; [by apply (tzsetNum_parses s1 0 (24 * 7))|done|done|].
  intros hours s2 [Hh _] Hs2 Hb2. unfold secondsPerHour, secondsPerMinute.
  apply starts_then; [|intros Hl2]; simpl.
  { intros a rest [= <- <-]. split; [|by etrans]. apply Hsigned. unfold offset_small. unwrap. lia. }
  apply (skip_one s2 s1); [done..|]. intros s3 Hs3 Hb3.
  eapply parses_bind; [by apply (tzsetNum_parses s3 0 59)|done|done|].
  intros mins s4 [Hm _] Hs4 Hb4. apply starts_then; [|intros Hl4]; simpl.
  { intros a rest [= <- <-]. split; [|by repeat (etrans; [done|])].
    apply Hsigned. unfold offset_small. unwrap. lia. }
  apply (skip_one s4 s3); [done..|]. intros s5 Hs5 Hb5.
  eapply parses_bind; [by apply (tzsetNum_parses s5 0 59)|done|done|].
  intros secs s6 [Hse _] Hs6 Hb6. apply wp_ret. intros a rest [= <- <-].
  split; [|by repeat (etrans; [done|])]. apply Hsigned. unfold offset_small. unwrap. lia.
Qed.

(** The fields of a parsed rule. *)
Definition rule_ok (r : rule) : Prop :=
  match kind r with
  | ruleJulian => 1 ≤ day r ≤ 365
  | ruleDOY => 0 ≤ day r ≤ 365
  | ruleMonthWeekDay => 0 ≤ day r ≤ 6 ∧ 1 ≤ week r ≤ 5 ∧ 1 ≤ mon r ≤ 12
  end ∧ offset_ok (time r).

Lemma tzsetDay_parses s : Forall byte s → 1 ≤ len s → parses rule_ok (tzsetDay s) s.
Proof.
  intros Hs Hl. unfold tzsetDay, parses. apply wp_bind, wp_idx; [lia|]. intros c _.
  destruct (c =? chr "J"); [|destruct (c =? chr "M")].
  - apply (skip_one s s); [done..|]. intros s1 Hs1 Hb1.
    eapply parses_bind; [by apply (tzsetNum_parses s1 1 365)|done|done|].
    intros d s2 [Hd _] Hs2 Hb2. apply wp_ret. intros a rest [= <- <-].
    split; [split; [done|by split]|by etrans].
  - apply (skip_one s s); [done..|]. intros s1 Hs1 Hb1.
    eapply parses_bind; [by apply (tzsetNum_parses s1 1 12)|done|done|].
    intros mon s2 [Hm _] Hs2 Hb2. apply starts_then; [done|intros Hl2].
    apply (skip_one s2 s1); [done..|]. intros s3 Hs3 Hb3.
    eapply parses_bind; [by apply (tzsetNum_parses s3 1 5)|done|done|].
    intros week s4 [Hw _] Hs4 Hb4. apply starts_then; [done|intros Hl4].
    apply (skip_one s4 s3); [done..|]. intros s5 Hs5 Hb5.
    eapply parses_bind; [by apply (tzsetNum_parses s5 0 6)|done|done|].
    intros d s6 [Hd _] Hs6 Hb6. apply wp_ret. intros a rest [= <- <-].
    split; [split; [done|by split]|by repeat (etrans; [done|])].
  - eapply parses_bind; [by apply (tzsetNum_parses s 0 365)|done|done|].
    intros d s2 [Hd _] Hs2 Hb2. apply wp_ret. intros a rest [= <- <-].
    split; [split; [done|by split]|done].
Qed.

Lemma tzsetRule_parses s : Forall byte s → parses rule_ok (tzsetRule s) s.
Proof.
  intros Hs. unfold tzsetRule, parses. pose proof (len_nonneg s).
  destruct (Z.eqb_spec (len s) 0); [done|].
  eapply parses_bind; [apply tzsetDay_parses; [done|lia]|done|done|].
  intros r s1 [Hr _] Hs1 Hb1. apply starts_then; [|intros Hl1]; simpl.
  { intros a rest [= <- <-]. split; [by split|done]. }
  apply (skip_one s1 s); [done..|]. intros s2 Hs2 Hb2.
  eapply parses_bind; [by apply tzsetOffset_parses|done|done|].
  intros off s3 Hoff Hs3 Hb3. apply wp_ret. intros a rest [= <- <-].
  split; [by split; [|apply offset_small_ok]|by etrans].
Qed.

(** ** The zone lookup returns *)

Lemma rule_week_total y r d : 1 ≤ week r ≤ 5 → wp (rule_week y r d) (λ _, True).
Proof.
  intros Hw. unfold rule_week.
  apply (wp_loop (λ '(i, _), 1 ≤ i ≤ week r) (λ '(i, _), week r - i)).
  - lia.
  - intros [i d']. lia.
  - unfold fuel_of. lia.
  - intros [i d'] Hi. destruct (Z.ltb_spec i (week r)); [|done].
    destruct (_ <=? _); [done|]. simpl. rewrite i64_small by lia. lia.
Qed.

Lemma tzruleTime_total y r off : rule_ok r → wp (tzruleTime y r off) (λ _, True).
Proof.
  intros [Hr _]. unfold tzruleTime. apply wp_bind. destruct (kind r); [done..|].
  destruct Hr as (_ & Hw & _). simpl. apply wp_bind.
  eapply wp_mono; [by apply rule_week_total|]. done.
Qed.

Lemma tzset_rules_total sn so dn doff r1 r2 sec : rule_ok r1 → rule_ok r2 →
  wp (tzset_rules sn so dn doff r1 r2 sec) (λ _, True).
Proof.
  intros H1 H2. unfold tzset_rules. destruct (yearYday _) as [y yd].
  apply wp_bind. eapply wp_mono; [by apply tzruleTime_total|]. intros s1 _.
  apply wp_bind. eapply wp_mono; [by apply tzruleTime_total|]. intros s2 _.
  by destruct (s2 <? s1).
Qed.

Lemma tzset_dst_total sn so s : Forall byte s → offset_small so →
  wp (tzset_dst sn so s) (λ o, ∀ dn doff r1 r2, o = Some (dn, doff, r1, r2) →
    rule_ok r1 ∧ rule_ok r2 ∧ offset_ok doff).
Proof.
  intros Hs Hso. unfold tzset_dst. eapply parses_bind; [by apply tzsetName_parses|done|done|].
  intros dn s1 _ Hs1 Hb1.
  assert (∀ comma : bool, parses offset_ok
    (if (len s1 =? 0) || comma then mret (Some (i64 (so + secondsPerHour), s1))
     else try (tzsetOffset s1) (λ '(o, s), mret (Some (i64 (- o), s)))) s1) as Hoff.
  { intros comma. unfold parses. destruct ((len s1 =? 0) || comma).
    { apply wp_ret. intros a rest [= <- <-]. unfold offset_small, offset_ok, secondsPerHour, secondsPerMinute in *.
      split; [unwrap; lia|done]. }
    eapply parses_bind; [by apply tzsetOffset_parses|done|done|].
    intros o s2 Ho Hs2 _. apply wp_ret. intros a rest [= <- <-].
    split; [by apply offset_small_ok, offset_small_opp|done]. }
  apply wp_bind. eapply wp_mono; [apply starts_spec|]. intros comma _.
  eapply parses_bind; [by apply Hoff|done|done|]. intros doff s2 Hdoff Hs2 Hb2.
  set (s3 := if len s2 =? 0 then _ else s2).
  assert (Forall byte s3 ∧ 1 ≤ len s3) as [Hb3 Hl3].
  { unfold s3. pose proof (len_nonneg s2). destruct (Z.eqb_spec (len s2) 0); [|split; [done|lia]].
    split; [by repeat constructor; vm_compute|by vm_compute]. }
  clearbody s3. apply wp_bind, wp_idx; [lia|]. intros c _. destruct (_ && _); [done|].
  apply (skip_one s3 s3); [done..|]. intros s4 Hs4 Hb4.
  eapply parses_bind; [by apply tzsetRule_parses|done|done|]. intros r1 s5 Hr1 Hs5 Hb5.
  apply starts_then; [done|intros Hl5]. apply (skip_one s5 s5); [done..|]. intros s6 Hs6 Hb6.
  eapply parses_bind; [by apply tzsetRule_parses|done|done|]. intros r2 s7 Hr2 Hs7 Hb7.
  destruct (0 <? len s7); [done|]. apply wp_ret. by intros dn' doff' r1' r2' [= <- <- <- <-].
Qed.

Lemma tzset_total s last sec : Forall byte s → wp (tzset s last sec) (λ _, True).
Proof.
  intros Hs. unfold tzset. eapply parses_bind; [by apply tzsetName_parses|done|done|].
  intros sn s1 _ Hs1 Hb1. eapply parses_bind; [by apply tzsetOffset_parses|done|done|].
  intros so s2 Hso Hs2 Hb2. apply wp_bind. eapply wp_mono; [apply starts_spec|]. intros comma _.
  destruct (_ || _); [done|]. unfold try. apply wp_bind.
  eapply wp_mono; [by apply tzset_dst_total; [|apply offset_small_opp]|].
  intros [[[[dn doff] r1] r2]|] Ho; [|done].
  destruct (Ho _ _ _ _ eq_refl) as (Hr1 & Hr2 & _). apply wp_bind.
  eapply wp_mono; [by apply tzset_rules_total|]. done.
Qed.


(** ** The table of transitions *)

Record wf_location (l : Location) : Prop := {
  wl_zones : zones l ≠ [];
  wl_index : Forall (λ t, 0 ≤ index t < len (zones l)) (tx l);
  wl_sorted : ∀ i j t u, zget (tx l) i = Some t → zget (tx l) j = Some u → i < j → when t < when u;
  wl_len : len (tx l) < 2 ^ 62;
  wl_extend : Forall byte (extend l);
}.

(** The time of the transition at [k], the end of time when there is none. *)
Definition when_at (txs : list zoneTrans) (k : Z) : Z :=
  match zget txs k with Some t => when t | None => omega end.

(** The transition at [k] is the last one at or before [sec]. *)
Definition in_force (txs : list zoneTrans) (sec k : Z) (t : zoneTrans) : Prop :=
  zget txs k = Some t ∧ when t ≤ sec ∧ ∀ t', zget txs (k + 1) = Some t' → sec < when t'.

Lemma lookup_search_spec txs sec t0 : len txs < 2 ^ 62 → zget txs 0 = Some t0 → when t0 ≤ sec →
  wp (lookup_search txs sec) (λ '(lo, end_), ∃ t, in_force txs sec lo t ∧ end_ = when_at txs (lo + 1)).
Proof.
  intros Hlen H0 Hw. pose proof (zget_Some_range _ _ _ H0) as Hpos. unfold lookup_search.
  apply (wp_loop (λ '(lo, hi, end_), 0 ≤ lo < hi ∧ hi ≤ len txs ∧ end_ = when_at txs hi ∧
    (∃ t, zget txs lo = Some t ∧ when t ≤ sec) ∧ ∀ t', zget txs hi = Some t' → sec < when t')
    (λ '(lo, hi, _), hi - lo)).
  - assert (zget txs (len txs) = None) as Hn by (apply zget_None; lia).
    split_and!; [lia..| |by exists t0|by rewrite Hn]. unfold when_at. by rewrite Hn.
  - intros [[lo hi] e]. lia.
  - unfold fuel_of. lia.
  - intros [[lo hi] e] (Hlo & Hhi & -> & (t & Ht & Htw) & Hnext).
    destruct (Z.ltb_spec 1 (hi - lo)) as [Hgap|Hgap].
    + assert (Z.shiftr (u64 (i64 (lo + hi))) 1 = (lo + hi) / 2) as ->
        by (unwrap; by rewrite Z.shiftr_div_pow2).
      assert (lo < (lo + hi) / 2 < hi) as Hm by dlia. set (m := (lo + hi) / 2) in *. clearbody m.
      apply wp_bind, wp_idx; [lia|]. intros tm Htm. apply wp_ret.
      destruct (Z.ltb_spec sec (when tm)).
      * split; [|lia]. split_and!; [lia..| |by exists t|].
        -- unfold when_at. by rewrite Htm.
        -- intros t' Ht'. rewrite Htm in Ht'. by injection Ht' as <-.
      * split; [|lia]. split_and!; [lia..|done|by exists tm|done].
    + apply wp_ret. assert (hi = lo + 1) as -> by lia. exists t. split; [|done]. by split_and!.
Qed.

(** In a sorted table it is the only one. *)
Lemma in_force_unique l sec k t k' t' : wf_location l →
  in_force (tx l) sec k t → in_force (tx l) sec k' t' → k = k' ∧ t = t'.
Proof.
  intros Hl.
  assert (∀ k t k' t', in_force (tx l) sec k t → in_force (tx l) sec k' t' → ¬ k < k') as Hno.
  { intros i u j v (Hu & Hus & Hunext) (Hv & Hvs & _) Hij.
    pose proof (zget_Some_range _ _ _ Hv). pose proof (zget_Some_range _ _ _ Hu).
    destruct (zget_lt (tx l) (i + 1) ltac:(lia)) as [w Hw]. specialize (Hunext w Hw).
    destruct (decide (j = i + 1)) as [->|Hne]; [rewrite Hw in Hv; injection Hv as ->; lia|].
    pose proof (wl_sorted l Hl _ _ _ _ Hw Hv ltac:(lia)). lia. }
  intros H H'. assert (k = k') as <-.
  { pose proof (Hno _ _ _ _ H H'). pose proof (Hno _ _ _ _ H' H). lia. }
  split; [done|]. destruct H as [H _], H' as [H' _]. congruence.
Qed.

(** ** The zone before the first transition *)

Definition std_at (zs : list zone) (i : Z) : Prop := ∃ z, zget zs i = Some z ∧ isDST z = false.

Lemma std_below_spec zs i : -1 ≤ i < len zs →
  wp (std_below zs i) (λ o, match o with
    | Some k => 0 ≤ k ≤ i ∧ std_at zs k ∧ ∀ j, k < j ≤ i → ¬ std_at zs j
    | None => ∀ j, 0 ≤ j ≤ i → ¬ std_at zs j end).
Proof.
  intros Hi. unfold std_below.
  apply (wp_loop (λ k, -1 ≤ k ≤ i ∧ ∀ j, k < j ≤ i → ¬ std_at zs j) (λ k, k + 1)).
  - split; [lia|]. intros j Hj. lia.
  - lia.
  - unfold fuel_of. lia.
  - intros k [Hk Hno]. destruct (Z.leb_spec 0 k).
    + apply wp_bind, wp_idx; [lia|]. intros z Hz. apply wp_ret. destruct (isDST z) eqn:Hd.
      * split; [|lia]. split; [lia|]. intros j Hj. destruct (decide (j = k)) as [->|].
        { intros (z' & Hz' & Hd'). congruence. } apply Hno. lia.
      * split_and!; [lia..|by exists z|done].
    + apply wp_ret. intros j Hj. apply Hno. lia.
Qed.

Lemma std_from_spec zs :
  wp (std_from zs 0) (λ o, match o with
    | Some k => 0 ≤ k < len zs ∧ std_at zs k ∧ ∀ j, 0 ≤ j < k → ¬ std_at zs j
    | None => ∀ j, ¬ std_at zs j end).
Proof.
  unfold std_from. pose proof (len_nonneg zs).
  apply (wp_loop (λ k, 0 ≤ k ≤ len zs ∧ ∀ j, 0 ≤ j < k → ¬ std_at zs j) (λ k, len zs - k)).
  - split; [lia|]. intros j Hj. lia.
  - lia.
  - unfold fuel_of. lia.
  - intros k [Hk Hno]. destruct (Z.ltb_spec k (len zs)).
    + apply wp_bind, wp_idx; [lia|]. intros z Hz. apply wp_ret. destruct (isDST z) eqn:Hd.
      * split; [|lia]. split; [lia|]. intros j Hj. destruct (decide (j = k)) as [->|].
        { intros (z' & Hz' & Hd'). congruence. } apply Hno. lia.
      * split_and!; [lia..|by exists z|done].
    + apply wp_ret. intros j Hj. pose proof Hj as (z & Hz & _). apply zget_Some_range in Hz.
      apply (Hno j); [lia|done].
Qed.

(** The documented choice. *)
Definition is_first_zone (l : Location) (zi : Z) : Prop :=
  if decide (Exists (λ t, index t = 0) (tx l)) then
    (∃ t z, zget (tx l) 0 = Some t ∧ zget (zones l) (index t) = Some z ∧ isDST z = true ∧
       0 ≤ zi < index t ∧ std_at (zones l) zi ∧ ∀ j, zi < j < index t → ¬ std_at (zones l) j) ∨
    ((∀ t z, zget (tx l) 0 = Some t → zget (zones l) (index t) = Some z → isDST z = true →
        ∀ j, 0 ≤ j < index t → ¬ std_at (zones l) j) ∧
     ((std_at (zones l) zi ∧ ∀ j, 0 ≤ j < zi → ¬ std_at (zones l) j) ∨
      (zi = 0 ∧ ∀ j, ¬ std_at (zones l) j)))
  else zi = 0.

Lemma firstZoneUsed_spec l : firstZoneUsed l = bool_decide (Exists (λ t, index t = 0) (tx l)).
Proof.
  unfold firstZoneUsed. apply Bool.eq_iff_eq_true.
  rewrite existsb_exists, bool_decide_eq_true, Exists_exists.
  split; intros (t & Ht & E); exists t; (split; [by apply list_elem_of_In|]); by apply Z.eqb_eq.
Qed.

Lemma lookupFirstZone_spec l : wf_location l →
  wp (lookupFirstZone l) (λ zi, is_first_zone l zi ∧ 0 ≤ zi < len (zones l)).
Proof.
  intros Hl. unfold lookupFirstZone, is_first_zone. rewrite firstZoneUsed_spec.
  assert (0 < len (zones l)) as Hz.
  { pose proof (wl_zones l Hl). destruct (zones l); [done|]. rewrite len_cons.
    pose proof (len_nonneg l0). lia. }
  destruct (decide (Exists _ _)) as [He|He].
  2: { rewrite bool_decide_eq_false_2 by done. simpl. split; [done|lia]. }
  rewrite bool_decide_eq_true_2 by done. simpl.
  apply wp_bind.
  apply wp_mono with (λ o, match o with
    | Some zi => (∃ t z, zget (tx l) 0 = Some t ∧ zget (zones l) (index t) = Some z ∧
        isDST z = true ∧ 0 ≤ zi < index t ∧ std_at (zones l) zi ∧
        ∀ j, zi < j < index t → ¬ std_at (zones l) j)
    | None => ∀ t z, zget (tx l) 0 = Some t → zget (zones l) (index t) = Some z →
        isDST z = true → ∀ j, 0 ≤ j < index t → ¬ std_at (zones l) j end).
  - destruct (Z.ltb_spec 0 (len (tx l))) as [Hlen|Hlen].
    2: { apply wp_ret. intros t z Ht. apply zget_Some_range in Ht. lia. }
    apply wp_bind, wp_idx; [lia|]. intros t Ht.
    pose proof (wl_index l Hl) as Hi. rewrite Forall_forall in Hi.
    specialize (Hi t (zget_elem_of _ _ _ Ht)).
    apply wp_bind, wp_idx; [lia|]. intros z Hzt. destruct (isDST z) eqn:Hd.
    + eapply wp_mono; [apply std_below_spec; lia|]. intros [k|].
      * intros (Hk & Hs & Hno). exists t, z. split_and!; try done; [lia..|].
        intros j Hj. apply Hno. lia.
      * intros Hno t' z' Ht' Hz' _ j Hj. assert (t' = t) as -> by congruence. apply Hno. lia.
    + apply wp_ret. intros t' z' Ht' Hz' Hd'. congruence.
  - intros [zi|] H.
    + apply wp_ret. split; [by left|]. destruct H as (t & z & _ & Hzt & _ & Hr & _).
      apply zget_Some_range in Hzt. lia.
    + apply wp_bind. eapply wp_mono; [apply std_from_spec|].
      intros [k|] Hk; apply wp_ret; simpl.
      * destruct Hk as (Hr & Hs & Hno). split; [|lia]. right. split; [done|by left].
      * split; [|lia]. right. split; [done|by right].
Qed.

(** ** The lookup *)

Lemma lookup_table_before l sec : wf_location l →
  (∀ t, zget (tx l) 0 = Some t → sec < when t) →
  ∃ zi z, is_first_zone l zi ∧ zget (zones l) zi = Some z ∧
    lookup_table l sec = Ok (info z alpha (when_at (tx l) 0)).
Proof.
  intros Hl Hb. unfold lookup_table. pose proof (len_nonneg (tx l)) as Hn.
  assert (orM (len (tx l) =? 0) (t ← idx (tx l) 0; mret (sec <? when t)) = Ok true) as ->.
  { unfold orM. destruct (Z.eqb_spec (len (tx l)) 0); [done|].
    destruct (zget_lt (tx l) 0 ltac:(lia)) as [t Ht]. rewrite (idx_in _ _ _ Ht). simpl.
    by rewrite (proj2 (Z.ltb_lt _ _)) by by apply Hb. }
  cbn [mbind res_bind].
  pose proof (lookupFirstZone_spec l Hl) as Hf. apply wp_exists in Hf as (zi & -> & Hf & Hr).
  destruct (zget_lt (zones l) zi Hr) as [z Hz]. exists zi, z. split_and!; [done..|].
  cbn [mbind res_bind]. rewrite (idx_in _ _ _ Hz). cbn [mbind res_bind]. unfold when_at.
  destruct (Z.ltb_spec 0 (len (tx l))).
  - destruct (zget_lt (tx l) 0 ltac:(lia)) as [t Ht]. by rewrite (idx_in _ _ _ Ht), Ht.
  - by rewrite (proj2 (zget_None (tx l) 0)) by lia.
Qed.

Lemma lookup_table_in_force l sec k t : wf_location l → in_force (tx l) sec k t →
  ∃ z o, zget (zones l) (index t) = Some z ∧
    lookup_table l sec = Ok (default (info z (when t) (when_at (tx l) (k + 1))) o) ∧
    (if decide (k = len (tx l) - 1 ∧ extend l ≠ []) then tzset (extend l) (when t) sec = Ok o
     else o = None).
Proof.
  intros Hl Hk. pose proof Hk as (Ht & Hts & Hnext). pose proof (zget_Some_range _ _ _ Ht) as Hr.
  unfold lookup_table. destruct (zget_lt (tx l) 0 ltac:(lia)) as [t0 Ht0].
  assert (when t0 ≤ sec) as Hle.
  { destruct (decide (k = 0)) as [->|]; [congruence|].
    pose proof (wl_sorted l Hl 0 k _ _ Ht0 Ht ltac:(lia)). lia. }
  assert (orM (len (tx l) =? 0) (t ← idx (tx l) 0; mret (sec <? when t)) = Ok false) as ->.
  { unfold orM. rewrite (proj2 (Z.eqb_neq _ _)) by lia. rewrite (idx_in _ _ _ Ht0). simpl.
    by rewrite (proj2 (Z.ltb_ge _ _)). }
  cbn [mbind res_bind].
  pose proof (lookup_search_spec (tx l) sec t0 (wl_len l Hl) Ht0 Hle) as Hs.
  apply wp_exists in Hs as ([lo e] & -> & t' & Hf & ->).
  destruct (in_force_unique l sec _ _ _ _ Hl Hf Hk) as [-> ->].
  cbn [mbind res_bind]. rewrite (idx_in _ _ _ Ht). cbn [mbind res_bind].
  pose proof (wl_index l Hl) as Hi. rewrite Forall_forall in Hi.
  specialize (Hi t (zget_elem_of _ _ _ Ht)). destruct (zget_lt (zones l) _ Hi) as [z Hz].
  rewrite (idx_in _ _ _ Hz). cbn [mbind res_bind]. exists z.
  destruct (decide (k = len (tx l) - 1 ∧ extend l ≠ [])) as [[-> He]|Hne].
  - rewrite Z.eqb_refl, bool_decide_eq_false_2 by done. cbn [andb negb].
    pose proof (tzset_total (extend l) (when t) sec (wl_extend l Hl)) as Htz.
    apply wp_exists in Htz as (o & -> & _). by exists o.
  - exists None. split_and!; [done| |done].
    destruct (Z.eqb_spec k (len (tx l) - 1)) as [->|]; [|done].
    rewrite bool_decide_eq_true_2; [done|]. destruct (decide (extend l = [])); [done|].
    by destruct Hne.
Qed.

(** One of the two cases applies. *)
Lemma in_force_cases l sec : wf_location l →
  (∀ t, zget (tx l) 0 = Some t → sec < when t) ∨ ∃ k t, in_force (tx l) sec k t.
Proof.
  intros Hl. destruct (zget (tx l) 0) as [t0|] eqn:H0; [|by left].
  destruct (Z.lt_ge_cases sec (when t0)); [left; by intros ? [= <-]|right].
  pose proof (lookup_search_spec (tx l) sec t0 (wl_len l Hl) H0 ltac:(lia)) as Hs.
  apply wp_exists in Hs as ([lo e] & _ & t & Hf & _). by exists lo, t.
Qed.

Lemma lookup_total l sec : wf_location l → ∃ i, lookup l sec = Ok i.
Proof.
  intros Hl. unfold lookup. destruct (len (zones l) =? 0); [by eexists|].
  destruct (cached l sec); [by eexists|].
  destruct (in_force_cases l sec Hl) as [Hb|(k & t & Hk)].
  - destruct (lookup_table_before l sec Hl Hb) as (zi & z & _ & _ & ->). by eexists.
  - destruct (lookup_table_in_force l sec k t Hl Hk) as (z & o & _ & -> & _). by eexists.
Qed.


(** ** The rules of TZ strings *)

(** Zeller's term for the month. *)
Lemma zeller_month m : 1 ≤ m ≤ 12 →
  let K := Z.quot (i64 (i64 (26 * i64 (Z.rem (i64 (m + 9)) 12 + 1)) - 2)) 10 in
  0 ≤ K ≤ 40 ∧ (K + 1) mod 7 = (month_start (m + 12 * jan_feb m) + 3) mod 7.
Proof.
  intros Hm. unfold month_start.
  destruct (month_cases m Hm) as [->|[->|[->|[->|[->|[->|[->|[->|[->|[->|[->| ->]]]]]]]]]]];
    by vm_compute.
Qed.

Lemma first_weekday_spec y m : 1 ≤ y < 2 ^ 40 → 1 ≤ m ≤ 12 →
  first_weekday y m = (rata y m 1 + 3) mod 7.
Proof.
  intros Hy Hm. unfold first_weekday. destruct (zeller_month m Hm) as [HK EK].
  set (K := Z.quot (i64 _) 10) in *. clearbody K.
  assert (∃ q r, 0 ≤ q < 2 ^ 40 ∧ 0 ≤ r < 100 ∧ y - jan_feb m = 100 * q + r)
    as (q & r & Hq & Hr & E).
  { exists ((y - jan_feb m) / 100), ((y - jan_feb m) mod 100). unfold jan_feb. zcases; dlia. }
  rewrite (rata_of (q + 2922770224) r) by (unfold absoluteYears; lia).
  assert ((if m <=? 2 then i64 (y - 1) else y) = 100 * q + r) as ->.
  { rewrite <-E. unfold jan_feb. unwrap. zcases; lia. }
  rewrite (Z.quot_div_nonneg (100 * q + r)), (Z.rem_mod_nonneg (100 * q + r)) by lia.
  assert ((100 * q + r) / 100 = q ∧ (100 * q + r) mod 100 = r) as [-> ->] by dlia.
  rewrite (Z.quot_div_nonneg r), (Z.quot_div_nonneg q) by lia.
  assert (0 ≤ q / 4 < 2 ^ 40 ∧ 0 ≤ r / 4 < 100) as [Hq4 Hr4] by dlia. unwrap.
  unfold year_start. revert EK. generalize (month_start (m + 12 * jan_feb m)). intros ms EK.
  set (x := K + 1 + r + r / 4 + q / 4 - 2 * q).
  pose proof (Z.rem_bound_abs x 7 ltac:(done)) as Hb. pose proof (Z.quot_rem x 7 ltac:(done)) as Ex.
  assert ((146097 * (q + 2922770224) / 4 + 1461 * r / 4 + ms + 1 - 1 + 3) mod 7 = x mod 7) as ->
    by (unfold x; dlia).
  clearbody x. destruct (Z.ltb_spec (Z.rem x 7) 0); [unwrap|]; dlia.
Qed.

(** ** The second of the year of a rule *)

(** The day of the month that a rule names: the [week]-th weekday [day], the last
    one for week 5. *)
Definition month_day (y : Z) (r : rule) (d : Z) : Prop :=
  1 ≤ d ≤ month_len y (mon r) ∧ (rata y (mon r) d + 3) mod 7 = day r ∧
  (if week r =? 5 then month_len y (mon r) < d + 7 else 7 * (week r - 1) < d ≤ 7 * week r).

(** The day of the year, from 0. *)
Definition rule_day (y : Z) (r : rule) (n : Z) : Prop :=
  match kind r with
  | ruleJulian => n = day r - 1 + (if leap_year y && (60 <=? day r) then 1 else 0)
  | ruleDOY => n = day r
  | ruleMonthWeekDay => ∃ d, month_day y r d ∧ n = days_before y (mon r) + d - 1
  end.

Lemma month_len_range y m : 28 ≤ month_len y m ≤ 31.
Proof. unfold month_len. repeat case_match; lia. Qed.

Lemma rata_day y m d : rata y m d = rata y m 1 + d - 1.
Proof. unfold rata. lia. Qed.

Lemma rule_week_spec y r d : rule_ok r → kind r = ruleMonthWeekDay → is_sint 64 y → 0 ≤ d ≤ 6 →
  wp (rule_week y r d) (λ d', (d' - d) mod 7 = 0 ∧ 0 ≤ d' < month_len y (mon r) ∧
    (if week r =? 5 then month_len y (mon r) < d' + 8
     else 7 * (week r - 1) ≤ d' < 7 * week r)).
Proof.
  intros [Hr _] Hk Hy Hd. rewrite Hk in Hr. destruct Hr as (_ & Hw & Hm). unfold rule_week.
  pose proof (month_len_range y (mon r)) as Hl. rewrite daysIn_spec by done.
  apply (wp_loop (λ '(i, d'), 1 ≤ i ≤ week r ∧ (d' - d) mod 7 = 0 ∧ 0 ≤ d' < month_len y (mon r) ∧
    7 * (i - 1) ≤ d' < 7 * i) (λ '(i, _), week r - i)).
  - rewrite Z.sub_diag. split_and!; (done || lia).
  - intros [i d']. lia.
  - unfold fuel_of. lia.
  - intros [i d'] (Hi & Hmod & Hd' & Hir). destruct (Z.ltb_spec i (week r)).
    + rewrite i64_small by lia. destruct (Z.leb_spec (month_len y (mon r)) (d' + 7)).
      * apply wp_ret. split; [done|]. split; [done|].
        assert (week r = 5) as -> by lia. simpl. lia.
      * apply wp_ret. rewrite i64_small by lia. split; [|lia]. split_and!; try lia. dlia.
    + apply wp_ret. split; [done|]. split; [done|]. assert (i = week r) as -> by lia.
      destruct (Z.eqb_spec (week r) 5) as [E|]; [|done]. rewrite E in *. lia.
Qed.

Lemma leap_days_before y m : 1 ≤ m ≤ 12 →
  days_before y m = daysBefore m + (if leap_year y && (2 <? m) then 1 else 0).
Proof.
  intros Hm. rewrite days_before_cases by done.
  destruct (month_cases m Hm) as [->|[->|[->|[->|[->|[->|[->|[->|[->|[->|[->| ->]]]]]]]]]]];
    by destruct (leap_year y).
Qed.

Lemma days_before_range y m : 1 ≤ m ≤ 12 → 0 ≤ days_before y m ≤ 335.
Proof.
  intros Hm. rewrite days_before_cases by done.
  destruct (month_cases m Hm) as [->|[->|[->|[->|[->|[->|[->|[->|[->|[->|[->| ->]]]]]]]]]]];
    by destruct (leap_year y).
Qed.

Lemma tzruleTime_spec y r off : 1 ≤ y < 2 ^ 40 → rule_ok r → offset_ok off →
  wp (tzruleTime y r off) (λ s, ∃ n, rule_day y r n ∧ 0 ≤ n ≤ 366 ∧ s = n * 86400 + time r - off).
Proof.
  intros Hy Hr Hoff. pose proof Hr as [Hk Ht]. unfold offset_ok in *.
  assert (isLeap y = leap_year y) as Hleap by (apply isLeap_spec; unfold is_sint; lia).
  unfold tzruleTime. rewrite Hleap. change secondsPerDay with 86400. unfold rule_day.
  destruct (kind r) eqn:Ek.
  - apply wp_ok. exists (day r - 1 + (if leap_year y && (60 <=? day r) then 1 else 0)).
    split; [done|]. destruct (leap_year y && (60 <=? day r)); unwrap; lia.
  - apply wp_ok. exists (day r). split; [done|]. unwrap. lia.
  - destruct Hk as (Hd & Hw & Hm).
    pose proof (first_weekday_spec y (mon r) Hy Hm) as Hf.
    pose proof (Z.mod_pos_bound (rata y (mon r) 1 + 3) 7 ltac:(done)) as Hb. rewrite <-Hf in Hb.
    set (w := first_weekday y (mon r)) in *. clearbody w. rewrite (i64_small (day r - w)) by lia.
    set (d0 := if day r - w <? 0 then i64 (day r - w + 7) else day r - w).
    assert (0 ≤ d0 ≤ 6 ∧ (d0 - (day r - w)) mod 7 = 0) as [Hd0 Ed0].
    { unfold d0. destruct (Z.ltb_spec (day r - w) 0); [unwrap|]; dlia. }
    clearbody d0. apply wp_bind, wp_bind.
    eapply wp_mono; [apply (rule_week_spec y r d0 Hr Ek ltac:(unfold is_sint; lia) Hd0)|].
    intros d' (Hd7 & Hd' & Hwk). apply wp_ret, wp_ret.
    pose proof (month_len_range y (mon r)) as Hl. pose proof (days_before_range y (mon r) Hm) as Hdb.
    exists (days_before y (mon r) + (d' + 1) - 1). rewrite leap_days_before in * by done.
    split; [|split; [lia|]].
    + exists (d' + 1). split; [|done]. split; [lia|]. split.
      * rewrite rata_day. dlia.
      * destruct (week r =? 5); lia.
    + set (db := daysBefore (mon r)) in *. clearbody db.
      rewrite (i64_small (d' + db)) by (destruct (_ && _); lia).
      destruct (leap_year y && (2 <? mon r)); unwrap; lia.
Qed.


(** ** The zone by the rules *)

(** 1970-01-01, and the first second of a year, counted from it. *)
Definition unix_day : Z := 106751991073400.
Definition year_second (y : Z) : Z := 86400 * (rata y 1 1 - unix_day).

(** Is daylight saving time in force at [sec], when it starts at [s] and ends at
    [e] in this year? In the south it is in force at both ends of the year. *)
Definition dst_in_force (sec s e : Z) : bool :=
  if e <? s then (sec <? e) || (s <=? sec) else (s <=? sec) && (sec <? e).

(** Since 1970 the years are positive. *)
Lemma year_positive n y m d : unix_day ≤ n < 2 ^ 48 → is_date n y m d → 1 ≤ y < 2 ^ 40.
Proof.
  intros Hn [Hv En]. destruct (rata_place y m d Hv) as (a & Ea & Ha & _). rewrite En in Ea.
  assert (0 ≤ jan_feb m ≤ 1) as Hj by (unfold jan_feb; destruct (m <? 3); lia).
  unfold ystart, year_start, absoluteYears, unix_day in *.
  assert (y - 1 ≤ y - jan_feb m ≤ y) as Hy by lia. clear En Hj Hv. revert Ea Ha Hy.
  generalize (y - jan_feb m). intros Y Ea Ha Hy. dlia.
Qed.

(** The second of the year, as the code computes it from 1970 on. *)
Lemma ysec_spec sec y yd : 0 ≤ sec < 2 ^ 50 → 1 ≤ yd ≤ 366 →
  rata y 1 1 + yd - 1 = (sec + 86400 * unix_day) / 86400 →
  i64 (i64 (i64 (yd - 1) * 86400) + Z.rem sec 86400) = sec - year_second y ∧
  - 2 ^ 51 ≤ year_second y ∧ sec - 366 * 86400 ≤ year_second y ≤ sec ∧
  (365 * 86400 ≤ sec - year_second y → yd = 366).
Proof.
  intros Hsec Hyd E. rewrite Z.rem_mod_nonneg by lia.
  pose proof (Z.mod_pos_bound sec 86400 ltac:(done)). unwrap.
  unfold year_second, unix_day in *. split_and!; dlia.
Qed.

Lemma tzset_rules_spec sn so dn doff r1 r2 sec : 0 ≤ sec < 2 ^ 50 →
  rule_ok r1 → rule_ok r2 → offset_ok so → offset_ok doff →
  ∃ y m d n1 n2 start end_,
    date (days (sec + unixToAbsolute)) = (y, m, d) ∧ rule_day y r1 n1 ∧ rule_day y r2 n2 ∧
    (let s := year_second y + n1 * 86400 + time r1 - so in
     let e := year_second y + n2 * 86400 + time r2 - doff in
     tzset_rules sn so dn doff r1 r2 sec =
       Ok (if dst_in_force sec s e then (dn, doff, start, end_, true)
           else (sn, so, start, end_, false))) ∧
    start ≤ sec ∧ (sec < end_ ∨ days_before y m + d = 366).
Proof.
  intros Hsec Hr1 Hr2 Hso Hdo. unfold tzset_rules.
  assert (u64 (i64 (i64 (sec + unixToInternal) + internalToAbsolute)) = sec + unixToAbsolute) as ->.
  { rewrite u64_i64, (i64_small (sec + unixToInternal)) by (change unixToInternal with 62135596800; lia).
    change unixToInternal with 62135596800. change internalToAbsolute with 9223371966606163200.
    change unixToAbsolute with 9223372028741760000. rewrite uwrap_small; [lia|unfold is_uint; lia]. }
  change unixToAbsolute with (86400 * unix_day). unfold days. change secondsPerDay with 86400.
  set (n := (sec + 86400 * unix_day) / 86400).
  assert (unix_day ≤ n < 2 ^ 48) as Hn by (unfold n, unix_day; dlia).
  destruct (date_yearYday n) as (y & m & d & Ed & -> & Hd); [unfold unix_day in Hn; lia|].
  pose proof (year_positive n y m d Hn Hd) as Hy. destruct Hd as [Hv En].
  rewrite days_before_rata in En by apply Hv.
  destruct (ysec_spec sec y _ Hsec (yday_range y m d Hv) En) as (-> & Hys & Hys' & H366).
  pose proof (tzruleTime_spec y r1 so Hy Hr1 Hso) as H1.
  apply wp_exists in H1 as (? & -> & n1 & Hn1 & Hr1' & ->).
  pose proof (tzruleTime_spec y r2 doff Hy Hr2 Hdo) as H2.
  apply wp_exists in H2 as (? & -> & n2 & Hn2 & Hr2' & ->). cbn [mbind res_bind].
  exists y, m, d, n1, n2. cbv zeta. destruct Hr1 as [_ Ht1], Hr2 as [_ Ht2]. unfold offset_ok in *.
  set (Y := year_second y) in *. clearbody Y. clear En Hn. clearbody n.
  set (s1 := n1 * 86400 + time r1 - so). set (s2 := n2 * 86400 + time r2 - doff).
  rewrite (i64_small (sec - (sec - Y))) by lia. replace (sec - (sec - Y)) with Y by lia.
  assert (- 2 ^ 40 < s1 < 2 ^ 40 ∧ - 2 ^ 40 < s2 < 2 ^ 40) as [Hs1 Hs2] by (unfold s1, s2; lia).
  replace (Y + n1 * 86400 + time r1 - so) with (Y + s1) by (unfold s1; lia).
  replace (Y + n2 * 86400 + time r2 - doff) with (Y + s2) by (unfold s2; lia).
  clearbody s1 s2. clear Ht1 Ht2 Hr1' Hr2'. unfold dst_in_force.
  destruct (Z.ltb_spec s2 s1) as [Hlt|Hlt].
  - rewrite (proj2 (Z.ltb_lt (Y + s2) (Y + s1))) by lia.
    destruct (Z.ltb_spec (sec - Y) s2); [|destruct (Z.leb_spec s1 (sec - Y))].
    + exists Y, (i64 (s2 + Y)). ztests. split_and!; [done..|lia|left; unwrap; lia].
    + exists (i64 (s1 + Y)), (i64 (Y + 365 * 86400)). ztests.
      split_and!; [done..|unwrap; lia|]. unwrap. 
      destruct (Z.lt_ge_cases sec (Y + 365 * 86400)); [by left|right]. apply H366. lia.
    + exists (i64 (s2 + Y)), (i64 (s1 + Y)). ztests. unwrap. split_and!; [done..|lia|left; lia].
  - rewrite (proj2 (Z.ltb_ge (Y + s2) (Y + s1))) by lia.
    destruct (Z.ltb_spec (sec - Y) s1); [|destruct (Z.leb_spec s2 (sec - Y))].
    + exists Y, (i64 (s1 + Y)). ztests. split_and!; [done..|lia|left; unwrap; lia].
    + exists (i64 (s2 + Y)), (i64 (Y + 365 * 86400)). ztests.
      split_and!; [done..|unwrap; lia|]. unwrap.
      destruct (Z.lt_ge_cases sec (Y + 365 * 86400)); [by left|right]. apply H366. lia.
    + exists (i64 (s1 + Y)), (i64 (s2 + Y)). ztests. unwrap. split_and!; [done..|lia|left; lia].
Qed.
