(* ===== verification/ZoneProps.v ===== *)
(** * time: what the zone lookup promises *)

From Stdlib Require Import String.
From stdpp Require Import base.
From S2P Require Import Prelude Bits Bytealg Utf8 Utf8Props Calendar CalendarProofs Zone ZoneProofs.

(** C31: [lookup] returns for every instant of a well-formed location. The cached
    zone answers where the cache holds. Elsewhere, the binary search finds the
    last transition at or before the instant, and the answer is its zone, valid
    until the next transition, unless it is the last one and the TZ string of the
    location gives a better answer; before the first transition the answer is the
    first zone, chosen as the comment of [lookupFirstZone] says. A fixed zone
    answers with its offset. *)
Theorem lookup_correct (l : Location) (sec : Z) : wf_location l →
  (∃ i, lookup l sec = Ok i) ∧
  (∀ z, cached l sec = Some z → lookup l sec = Ok (info z (cacheStart l) (cacheEnd l))) ∧
  (cached l sec = None →
    ((∀ t, zget (tx l) 0 = Some t → sec < when t) ∧
     ∃ zi z, is_first_zone l zi ∧ zget (zones l) zi = Some z ∧
       lookup l sec = Ok (info z alpha (when_at (tx l) 0))) ∨
    (∃ k t z o, in_force (tx l) sec k t ∧ zget (zones l) (index t) = Some z ∧
       lookup l sec = Ok (default (info z (when t) (when_at (tx l) (k + 1))) o) ∧
       if decide (k = len (tx l) - 1 ∧ extend l ≠ []) then tzset (extend l) (when t) sec = Ok o
       else o = None)) ∧
  (∀ name off, alpha ≤ sec < omega →
    lookup (fixedZone name off) sec = Ok (name, off, alpha, omega, false)).
Proof.
  intros Hl.
  assert (len (zones l) =? 0 = false) as Hz.
  { apply Z.eqb_neq. intros Hz. by apply (wl_zones l Hl), len_0_nil. }
  split_and!; [by apply lookup_total| | |].
  - intros z Hc. unfold lookup. by rewrite Hz, Hc.
  - intros Hc. assert (lookup l sec = lookup_table l sec) as -> by (unfold lookup; by rewrite Hz, Hc).
    destruct (in_force_cases l sec Hl) as [Hb|(k & t & Hk)].
    + left. split; [done|]. by apply lookup_table_before.
    + right. destruct (lookup_table_in_force l sec k t Hl Hk) as (z & o & H). by exists k, t, z, o.
  - intros nm off Hs. unfold lookup, cached, fixedZone. cbn [zones cacheZone cacheStart cacheEnd].
    change (len [Zone nm off false] =? 0) with false. by ztests.
Qed.

Definition two_zones : Location :=
  MkLocation (str "X") [Zone (str "AAA") 3600 false; Zone (str "BBB") 7200 true]
    [ZoneTrans 100 1 false false; ZoneTrans 200 0 false false] [] 0 0 None.

Lemma two_zones_wf : wf_location two_zones.
Proof.
  split; [done|repeat constructor; done| |done|constructor].
  intros i j t u Hi Hj Hij. pose proof (zget_Some_range _ _ _ Hi) as Hri.
  pose proof (zget_Some_range _ _ _ Hj) as Hrj. change (len (tx two_zones)) with 2 in *.
  assert (i = 0 ∧ j = 1) as [-> ->] by lia.
  vm_compute in Hi, Hj. by injection Hi as <-; injection Hj as <-.
Qed.

Lemma lookup_correct_witness :
  lookup two_zones 150 = Ok (str "BBB", 7200, 100, 200, true) ∧
  lookup two_zones 50 = Ok (str "AAA", 3600, alpha, 100, false) ∧
  ∃ i, lookup two_zones 250 = Ok i.
Proof.
  split; [vm_compute; reflexivity|]. split; [vm_compute; reflexivity|].
  apply (proj1 (lookup_correct two_zones 250 two_zones_wf)).
Defined.

(** C32: [tzset] returns for every string. From 1970 on, when the string has rules
    for daylight saving time, the zone it answers with is the one in force by the
    rules: they start and end on the days of the year that the three forms of
    rules name ([Jn] that skips February 29, [n], and the [w]-th weekday [d] of
    the month [m] for [Mm.w.d], the last one for [w] = 5), at the time of the rule
    by the clock then in use; the interval it returns contains the instant, but
    for the last day of a leap year. Before 1970 it can be a day off: the last
    example is an instant after the end of daylight saving time in 1969. *)
Theorem tzset_correct (s : list Z) (last sec : Z) : Forall byte s → 0 ≤ sec < 2 ^ 50 →
  (∃ o, tzset s last sec = Ok o) ∧
  (∀ sn so s1 s2 dn doff r1 r2,
    tzsetName s = Ok (Some (sn, s1)) → tzsetOffset s1 = Ok (Some (so, s2)) →
    s2 ≠ [] → head s2 ≠ Some (chr ",") →
    tzset_dst sn (i64 (- so)) s2 = Ok (Some (dn, doff, r1, r2)) →
    ∃ y m d n1 n2 start end_,
      date (days (sec + unixToAbsolute)) = (y, m, d) ∧ rule_day y r1 n1 ∧ rule_day y r2 n2 ∧
      (let starts := year_second y + n1 * 86400 + time r1 - i64 (- so) in
       let ends := year_second y + n2 * 86400 + time r2 - doff in
       tzset s last sec =
         Ok (Some (if dst_in_force sec starts ends then (dn, doff, start, end_, true)
                   else (sn, i64 (- so), start, end_, false)))) ∧
      start ≤ sec ∧ (sec < end_ ∨ days_before y m + d = 366)) ∧
  (∃ start end_,
    tzset (str "PST8PDT,M3.2.0,M11.1.0") 0 (-5140800) =
      Ok (Some (str "PDT", -25200, start, end_, true)) ∧
    date (days (-5140800 + unixToAbsolute)) = (1969, 11, 2) ∧
    rule_day 1969 (Rule ruleMonthWeekDay 0 1 11 7200) 305 ∧
    year_second 1969 + 305 * 86400 + 7200 - (-25200) < -5140800).
Proof.
  intros Hs Hsec. split_and!.
  - pose proof (tzset_total s last sec Hs) as H. apply wp_exists in H as (o & Ho & _). by exists o.
  - intros sn so s1 s2 dn doff r1 r2 E1 E2 Hne Hhd E3.
    pose proof (tzsetName_parses s Hs) as P1. unfold parses in P1. rewrite E1 in P1.
    destruct (P1 _ _ eq_refl) as [_ Hs1]. pose proof (suffix_bytes _ _ Hs Hs1) as Hb1.
    pose proof (tzsetOffset_parses s1 Hb1) as P2. unfold parses in P2. rewrite E2 in P2.
    destruct (P2 _ _ eq_refl) as [Hso Hs2]. pose proof (suffix_bytes _ _ Hb1 Hs2) as Hb2.
    apply offset_small_opp in Hso.
    pose proof (tzset_dst_total sn (i64 (- so)) s2 Hb2 Hso) as P3. rewrite E3 in P3.
    destruct (P3 _ _ _ _ eq_refl) as (Hr1 & Hr2 & Hdo).
    destruct (tzset_rules_spec sn _ dn _ _ _ sec Hsec Hr1 Hr2 (offset_small_ok _ Hso) Hdo)
      as (y & m & d & n1 & n2 & st & en & H1 & H2 & H3 & H4 & H5).
    exists y, m, d, n1, n2, st, en.
    split; [done|]. split; [done|]. split; [done|]. split; [|done]. cbv zeta in *.
    unfold tzset, try. rewrite E1. cbn [mbind res_bind]. rewrite E2. cbn [mbind res_bind].
    assert (starts s2 (chr ",") = Ok false) as ->.
    { unfold starts. destruct s2 as [|c s2]; [done|]. rewrite (proj2 (Z.eqb_neq (len _) 0))
        by (rewrite len_cons; pose proof (len_nonneg s2); lia).
      cbn [negb andM]. rewrite idx_0. cbn [mbind res_bind mret res_ret]. f_equal. apply Z.eqb_neq. intros ->. by apply Hhd. }
    cbn [mbind res_bind]. destruct (Z.eqb_spec (len s2) 0) as [Hl|_].
    { by apply len_0_nil in Hl. }
    cbn [orb]. rewrite E3. cbn [mbind res_bind]. rewrite H4. done.
  - eexists _, _. split; [vm_compute; reflexivity|]. split; [vm_compute; reflexivity|].
    split; [|by vm_compute]. exists 2. split; [|by vm_compute].
    split_and!; by vm_compute.
Qed.

Lemma tzset_correct_witness :
  (∃ o, tzset (str "PST8PDT,M3.2.0,M11.1.0") 0 1700000000 = Ok o) ∧
  tzset (str "PST8PDT,M3.2.0,M11.1.0") 0 1700000000 =
    Ok (Some (str "PST", -28800, 1699174800, 1704067200, false)).
Proof.
  split; [|vm_compute; reflexivity].
  apply (tzset_correct (str "PST8PDT,M3.2.0,M11.1.0") 0 1700000000); [|done].
  by vm_compute; repeat constructor.
Defined.
