(* ===== verification/Duration.v ===== *)
(** * time: Duration

    The arithmetic of durations and their text form (time/time.go). A [Duration]
    is its [int64] number of nanoseconds. The text is written from the end of a
    buffer of 32 bytes to the front: the functions take the buffer with the
    index of the last byte written and return both. *)

From Stdlib Require Import String.
From stdpp Require Import base.
From S2P Require Import Prelude Bytealg.

Definition minDuration : Z := - 2 ^ 63.
Definition maxDuration : Z := 2 ^ 63 - 1.

Definition Nanosecond : Z := 1.
Definition Microsecond : Z := 1000 * Nanosecond.
Definition Millisecond : Z := 1000 * Microsecond.
Definition Second : Z := 1000 * Millisecond.

(** ** Rounding *)

Definition Truncate (d m : Z) : Z := if m <=? 0 then d else i64 (d - Z.rem d m).

Definition lessThanHalf (x y : Z) : bool := u64 (u64 x + u64 x) <? u64 y.

Definition Round (d m : Z) : Z :=
  if m <=? 0 then d else
  let r := Z.rem d m in
  if d <? 0 then
    let r := i64 (- r) in
    if lessThanHalf r m then i64 (d + r) else
    let d1 := i64 (i64 (d - m) + r) in
    if d1 <? d then d1 else minDuration
  else
    if lessThanHalf r m then i64 (d - r) else
    let d1 := i64 (i64 (d + m) - r) in
    if d <? d1 then d1 else maxDuration.

Definition Abs (d : Z) : Z :=
  if 0 <=? d then d else if d =? minDuration then maxDuration else i64 (- d).

Definition Nanoseconds (d : Z) : Z := d.
Definition Microseconds (d : Z) : Z := Z.quot d 1000.
Definition Milliseconds (d : Z) : Z := Z.quot d 1000000.

(** [time.subMono] *)
Definition subMono (t u : Z) : Z :=
  let d := i64 (t - u) in
  if (d <? 0) && (u <? t) then maxDuration
  else if (0 <? d) && (t <? u) then minDuration
  else d.

(** ** The text form *)

(** [w--; buf[w] = c] *)
Definition put (b : list Z * Z) (c : Z) : res (list Z * Z) :=
  let '(buf, w) := b in
  buf ← store buf (w - 1) c; mret (buf, w - 1).

Definition fmtInt (b : list Z * Z) (v : Z) : res (list Z * Z) :=
  if v =? 0 then put b (chr "0") else
  loop 21 (λ '(b, v),
    if 0 <? v then
      b ← put b (uwrap 8 (u8 (v mod 10) + chr "0")); mret (inl (b, v / 10))
    else mret (inr b)) (b, v).

Definition fmtFrac (b : list Z * Z) (v prec : Z) : res ((list Z * Z) * Z) :=
  '(b, v, print) ←
    loop (fuel_of prec) (λ '(i, b, v, print),
      if i <? prec then
        let digit := v mod 10 in
        let print := print || negb (digit =? 0) in
        b ← (if print : bool then put b (uwrap 8 (u8 digit + chr "0")) else mret b);
        mret (inl (i + 1, b, v / 10, print))
      else mret (inr (b, v, print))) (0, b, v, false);
  b ← (if print : bool then put b (chr ".") else mret b);
  mret (b, v).

(** A duration of less than a second: the unit, the number of decimal places. *)
Definition format_small (b : list Z * Z) (u : Z) : res (list Z * Z) :=
  b ← put b (chr "s");
  if u =? 0 then put b (chr "0") else
  '(b, prec) ←
    (if u <? u64 Microsecond then b ← put b (chr "n"); mret (b, 0)
     else if u <? u64 Millisecond then b ← put b 0xB5; b ← put b 0xC2; mret (b, 3)
     else b ← put b (chr "m"); mret (b, 6));
  '(b, u) ← fmtFrac b u prec;
  fmtInt b u.

(** Hours, minutes and seconds. *)
Definition format_large (b : list Z * Z) (u : Z) : res (list Z * Z) :=
  b ← put b (chr "s");
  '(b, u) ← fmtFrac b u 9;
  b ← fmtInt b (u mod 60);
  let u := u / 60 in
  if 0 <? u then
    b ← put b (chr "m");
    b ← fmtInt b (u mod 60);
    let u := u / 60 in
    if 0 <? u then
      b ← put b (chr "h"); fmtInt b u
    else mret b
  else mret b.

Definition format (d : Z) (buf : list Z) : res (list Z * Z) :=
  let b := (buf, len buf) in
  let neg := d <? 0 in
  let u := if neg then u64 (- u64 d) else u64 d in
  b ← (if u <? u64 Second then format_small b u else format_large b u);
  if neg then put b (chr "-") else mret b.

Definition String (d : Z) : res (list Z) :=
  '(buf, n) ← format d (replicate 32 0);
  slice_from buf n.
