(* ===== verification/DurationProofs.v ===== *)
(** * time: the text of a duration

    The documented form of durations as a relation between a number and a text,
    and the proof that the code, which writes into the end of a buffer, prints
    it and never reaches the front. *)

From Stdlib Require Import String.
From stdpp Require Import base.
From S2P Require Import Prelude Bits Bytealg Strconv StrconvProofs Duration.

(** ** The documented form *)

(** The digits behind the decimal point of [v / 10^prec]: without trailing
    zeros, none for a whole number. *)
Definition fraction (prec v : Z) (fs : list Z) : Prop :=
  Forall (λ d, 0 ≤ d < 10) fs ∧ len fs ≤ prec ∧
  value 10 fs * 10 ^ (prec - len fs) = v mod 10 ^ prec ∧
  (fs = [] ∨ ∃ p d, fs = p ++ [d] ∧ d ≠ 0).

Definition dot (fs : list Z) : list Z := if decide (fs = []) then [] else chr "." :: text fs.

(** [v / 10^prec] in decimal. *)
Definition decimal (prec v : Z) (t : list Z) : Prop :=
  ∃ ds fs, numeral 10 (v / 10 ^ prec) ds ∧ fraction prec v fs ∧ t = text ds ++ dot fs.

(** An integer followed by its unit. *)
Definition counted (v : Z) (unit t : list Z) : Prop :=
  ∃ ds, numeral 10 v ds ∧ t = text ds ++ unit.

(** The text of [u] nanoseconds. *)
Definition duration_text (u : Z) (t : list Z) : Prop :=
  if u =? 0 then t = str "0s"
  else if u <? 1000 then ∃ x, decimal 0 u x ∧ t = x ++ str "ns"
  else if u <? 1000000 then ∃ x, decimal 3 u x ∧ t = x ++ [0xC2; 0xB5; chr "s"]
  else if u <? 1000000000 then ∃ x, decimal 6 u x ∧ t = x ++ str "ms"
  else
    let s := u / 1000000000 in
    let m := s / 60 in
    ∃ hours mins secs,
      (if m / 60 =? 0 then hours = [] else counted (m / 60) (str "h") hours) ∧
      (if m =? 0 then mins = [] else counted (m mod 60) (str "m") mins) ∧
      decimal 9 (u mod 60000000000) secs ∧
      t = hours ++ mins ++ secs ++ str "s".

(** ** The writers *)

Lemma put_spec a0 a w t c : filled a0 a w t → 0 < w →
  wp (put (a, w) c) (λ '(a', w'), filled a0 a' w' (c :: t) ∧ w' = w - 1).
Proof.
  intros Hf Hw. destruct (filled_store _ _ _ _ c Hf Hw) as (a' & Ha & Hf').
  unfold put. rewrite Ha. done.
Qed.

Lemma digit_put d : 0 ≤ d < 10 → uwrap 8 (u8 d + chr "0") = digit_char d.
Proof.
  intros Hd. change (chr "0") with 48. rewrite (uwrap_small 8 d) by (unfold is_uint; lia).
  rewrite uwrap_small by (unfold is_uint; lia). unfold digit_char. rewrite decide_True by lia. lia.
Qed.

Lemma fmtInt_spec a0 a w t v k : filled a0 a w t → 0 ≤ v < 10 ^ k → 1 ≤ k ≤ 20 → k ≤ w →
  wp (fmtInt (a, w) v) (λ '(a', w'),
    ∃ ds, numeral 10 v ds ∧ filled a0 a' w' (text ds ++ t) ∧ w - k ≤ w').
Proof.
  intros Hf Hv Hk Hw. unfold fmtInt. destruct (Z.eqb_spec v 0) as [->|Hne].
  { eapply wp_mono; [apply put_spec; [done|lia]|]. intros [a' w'] [Hf' ->]. exists [0].
    split; [by split_and!; [|repeat constructor|left]|]. split; [done|lia]. }
  eapply (wp_loop_measure (λ '((a', w'), u) m, 0 ≤ m ∧ 0 ≤ u < 10 ^ m ∧ m + (w - k) ≤ w' ∧
    ∃ ds, reads 10 v u ds ∧ filled a0 a' w' (text ds ++ t) ∧
      (u = 0 → ∃ d r, ds = d :: r ∧ 0 < d)) _ _ _ k).
  - split_and!; try lia. exists []. split_and!; [by apply reads_start; lia|done|lia].
  - intros [[? ?] ?]. naive_solver.
  - lia.
  - intros [[a' w'] u] m (Hm & Hu & Hw' & ds & Hr & Hf' & H0).
    destruct (Z.ltb_spec 0 u) as [Hpos|Hz].
    + assert (m ≠ 0) by (intros ->; lia).
      rewrite digit_put by (apply Z.mod_pos_bound; done).
      apply wp_bind. eapply wp_mono; [apply put_spec; [done|lia]|].
      intros [a2 w2] [Hf2 ->]. apply wp_ret. exists (m - 1). split; [|lia].
      assert (10 ^ m = 10 * 10 ^ (m - 1)) as Ep.
      { rewrite <-Z.pow_succ_r by lia. f_equal. lia. }
      split_and!; try lia; [apply Z.div_pos; lia|apply Z.div_lt_upper_bound; lia|].
      exists (u mod 10 :: ds). split_and!; [by apply reads_div|done|].
      intros Hd. exists (u mod 10), ds. split; [done|]. dlia.
    + assert (u = 0) as -> by lia. destruct (H0 eq_refl) as (d & r & -> & Hd).
      apply wp_ret. exists (d :: r). split_and!; [by apply reads_done|done|lia].
Qed.

(** One more digit of the fraction, at its front. *)
Lemma fraction_step i v fs d : 0 ≤ i → 0 ≤ v → d = v / 10 ^ i mod 10 → fraction i v fs →
  fraction (i + 1) v (if bool_decide (fs ≠ []) || negb (d =? 0) then d :: fs else []).
Proof.
  intros Hi Hv Hd (Hfs & Hlen & Hval & Hlast).
  assert (v mod 10 ^ (i + 1) = d * 10 ^ i + v mod 10 ^ i) as E.
  { pose proof (Z.pow_pos_nonneg 10 i ltac:(done) Hi).
    rewrite Hd, Z.pow_add_r, Z.pow_1_r by lia. rewrite Z.rem_mul_r by lia. lia. }
  assert (0 ≤ d < 10) as Hd' by (rewrite Hd; by apply Z.mod_pos_bound).
  assert (len fs ≤ i → value 10 (d :: fs) * 10 ^ (i - len fs) = d * 10 ^ i + v mod 10 ^ i) as Ev.
  { intros _. rewrite value_cons, Z.mul_add_distr_r, Hval, <-Z.mul_assoc.
    rewrite <-Z.pow_add_r by (pose proof (len_nonneg fs); lia). repeat f_equal. lia. }
  unfold fraction. rewrite E. case_bool_decide as Hne; simpl.
  - rewrite len_cons. replace (i + 1 - (1 + len fs)) with (i - len fs) by lia.
    split_and!; [by constructor|lia|by apply Ev|right].
    destruct Hlast as [->|(p & x & -> & Hx)]; [done|]. by exists (d :: p), x.
  - assert (fs = []) as -> by (destruct fs; [done|by destruct Hne]).
    destruct (Z.eqb_spec d 0) as [E0|E0]; simpl.
    + split_and!; [done|rewrite len_nil; lia| |by left].
      change (value 10 []) with 0 in *. rewrite E0. lia.
    + change (len [d]) with 1. rewrite len_nil in *. replace (i + 1 - 1) with (i - 0) by lia.
      split_and!; [by constructor|lia|by apply Ev|right; by exists [], d].
Qed.

Lemma fmtFrac_spec a0 a w t v p : filled a0 a w t → 0 ≤ v → 0 ≤ p → p + 1 ≤ w →
  wp (fmtFrac (a, w) v p) (λ '((a', w'), v'),
    v' = v / 10 ^ p ∧ ∃ fs, fraction p v fs ∧ filled a0 a' w' (dot fs ++ t) ∧ w - p - 1 ≤ w').
Proof.
  intros Hf Hv Hp Hw. unfold fmtFrac. apply wp_bind.
  apply wp_mono with (λ '((a', w'), v', print),
    v' = v / 10 ^ p ∧ ∃ fs, fraction p v fs ∧ filled a0 a' w' (text fs ++ t) ∧
      w' = w - len fs ∧ print = bool_decide (fs ≠ [])).
  - apply (wp_loop (λ '(i, (a', w'), u, print), 0 ≤ i ≤ p ∧ u = v / 10 ^ i ∧
      ∃ fs, fraction i v fs ∧ filled a0 a' w' (text fs ++ t) ∧ w' = w - len fs ∧
        print = bool_decide (fs ≠ [])) (λ '(i, _, _, _), p - i)).
    + split; [lia|]. split; [by rewrite Z.div_1_r|]. exists [].
      change (len []) with 0. split_and!; [|done|lia|done].
      split_and!; [done|done|by rewrite Z.mod_1_r|by left].
    + intros [[[i []] u] print]. naive_solver lia.
    + unfold fuel_of. lia.
    + intros [[[i [a' w']] u] print] (Hi & -> & fs & Hfr & Hf' & -> & ->).
      destruct (Z.ltb_spec i p) as [Hlt|Hge].
      * pose proof (fraction_step i v fs _ ltac:(lia) Hv eq_refl Hfr) as Hst.
        set (d := v / 10 ^ i mod 10) in *.
        assert (0 ≤ d < 10) as Hd by by apply Z.mod_pos_bound.
        assert (v / 10 ^ i / 10 = v / 10 ^ (i + 1)) as Eu
          by by rewrite Z.pow_add_r, Z.pow_1_r, Z.div_div by lia.
        destruct Hfr as (_ & Hlen & _ & _). rewrite digit_put by done.
        apply wp_bind. destruct (bool_decide (fs ≠ []) || negb (d =? 0)) eqn:Hpr.
        -- eapply wp_mono; [apply put_spec; [done|lia]|]. intros [a2 w2] [Hf2 ->].
           apply wp_ret. split; [|lia]. split; [lia|]. split; [done|]. exists (d :: fs).
           rewrite len_cons. split_and!; [done|done|lia|done].
        -- apply wp_ret, wp_ret. split; [|lia]. split; [lia|]. split; [done|].
           apply orb_false_iff in Hpr as [Hpr _]. apply bool_decide_eq_false in Hpr.
           assert (fs = []) as -> by (destruct fs; [done|by destruct Hpr]). by exists [].
      * assert (i = p) as -> by lia. apply wp_ret. split; [done|]. by exists fs.
  - intros [[[a' w'] v'] print] (-> & fs & Hfr & Hf' & -> & ->). apply wp_bind.
    destruct Hfr as (H1 & Hlen & H2). case_bool_decide as Hne.
    + eapply wp_mono; [apply put_spec; [done|lia]|]. intros [a2 w2] [Hf2 ->]. apply wp_ret.
      split; [done|]. exists fs. unfold dot. rewrite decide_False by done. split_and!; [done..|lia].
    + assert (fs = []) as -> by (destruct fs; [done|by destruct Hne]). apply wp_ret, wp_ret.
      split; [done|]. exists []. rewrite len_nil in *. split_and!; [done..|lia].
Qed.

(** ** The parts together *)

(** A number with a fraction, before the unit [t]. *)
Lemma decimal_spec a0 a w t v p k : filled a0 a w t → 0 ≤ p → 1 ≤ k ≤ 20 → k + p + 1 ≤ w →
  0 ≤ v → v / 10 ^ p < 10 ^ k →
  wp ('(b, u) ← fmtFrac (a, w) v p; fmtInt b u) (λ '(a', w'),
    ∃ x, decimal p v x ∧ filled a0 a' w' (x ++ t) ∧ w - p - 1 - k ≤ w').
Proof.
  intros Hf Hp Hk Hw Hv Hlt. apply wp_bind.
  eapply wp_mono; [by apply fmtFrac_spec; [|lia|lia|lia]|].
  intros [[a1 w1] u] (-> & fs & Hfr & Hf1 & Hw1).
  eapply wp_mono; [apply (fmtInt_spec a0 _ _ _ _ k Hf1); [|done|lia]|].
  - split; [|done]. apply Z.div_pos; lia.
  - intros [a2 w2] (ds & Hds & Hf2 & Hw2). exists (text ds ++ dot fs).
    split; [by exists ds, fs|]. rewrite <-app_assoc. split; [done|lia].
Qed.

(** An integer before its unit. *)
Lemma counted_spec a0 a w t v c k : filled a0 a w t → 1 ≤ k ≤ 20 → k + 1 ≤ w → 0 ≤ v < 10 ^ k →
  wp (b ← put (a, w) c; fmtInt b v) (λ '(a', w'),
    ∃ x, counted v [c] x ∧ filled a0 a' w' (x ++ t) ∧ w - 1 - k ≤ w').
Proof.
  intros Hf Hk Hw Hv. apply wp_bind. eapply wp_mono; [by apply put_spec; [|lia]|].
  intros [a1 w1] [Hf1 ->]. eapply wp_mono; [apply (fmtInt_spec a0 _ _ _ _ k Hf1); [done|done|lia]|].
  intros [a2 w2] (ds & Hds & Hf2 & Hw2). exists (text ds ++ [c]).
  split; [by exists ds|]. rewrite <-app_assoc. split; [done|lia].
Qed.

(** The same, with more to come. *)
Lemma counted_then a0 a w t v c k (K : list Z * Z → res (list Z * Z)) Q :
  filled a0 a w t → 1 ≤ k ≤ 20 → k + 1 ≤ w → 0 ≤ v < 10 ^ k →
  (∀ a' w' x, counted v [c] x → filled a0 a' w' (x ++ t) → w - 1 - k ≤ w' → wp (K (a', w')) Q) →
  wp (b ← put (a, w) c; b ← fmtInt b v; K b) Q.
Proof.
  intros Hf Hk Hw Hv HK.
  assert (wp ((b ← put (a, w) c; fmtInt b v) ≫= K) Q) as H.
  { apply wp_bind. eapply wp_mono; [by apply (counted_spec a0)|].
    intros [a' w'] (x & Hx & Hf' & Hw'). by apply (HK a' w' x). }
  revert H. by destruct (put (a, w) c).
Qed.

Lemma format_small_spec a0 a u : filled a0 a 32 [] → 0 ≤ u < 1000000000 →
  wp (format_small (a, 32) u) (λ '(a', w'),
    ∃ x, duration_text u x ∧ filled a0 a' w' x ∧ 1 ≤ w').
Proof.
  intros Hf Hu. unfold format_small, duration_text.
  change (u64 Microsecond) with 1000. change (u64 Millisecond) with 1000000.
  apply wp_bind. eapply wp_mono; [by apply put_spec|]. intros [a1 w1] [Hf1 ->].
  change (32 - 1) with 31 in *. destruct (Z.eqb_spec u 0) as [->|Hne].
  { eapply wp_mono; [by apply put_spec|]. intros [a2 w2] [Hf2 ->]. by exists (str "0s"). }
  destruct (Z.ltb_spec u 1000); [|destruct (Z.ltb_spec u 1000000)].
  - apply wp_bind, wp_bind. eapply wp_mono; [by apply put_spec|]. intros [a2 w2] [Hf2 ->].
    apply wp_ret. eapply wp_mono; [apply (decimal_spec a0 a2 _ _ u 0 3 Hf2); try lia|].
    { rewrite Z.div_1_r. lia. }
    intros [a3 w3] (x & Hx & Hf3 & Hw). exists (x ++ str "ns"). split; [by exists x|].
    split; [done|lia].
  - apply wp_bind, wp_bind. eapply wp_mono; [by apply put_spec|]. intros [a2 w2] [Hf2 ->].
    apply wp_bind. eapply wp_mono; [by apply put_spec|]. intros [a3 w3] [Hf3 ->].
    apply wp_ret. eapply wp_mono; [apply (decimal_spec a0 a3 _ _ u 3 3 Hf3); try lia|].
    { dlia. }
    intros [a4 w4] (x & Hx & Hf4 & Hw). eexists. split; [by exists x|]. split; [done|lia].
  - rewrite (proj2 (Z.ltb_lt u 1000000000)) by lia.
    apply wp_bind, wp_bind. eapply wp_mono; [by apply put_spec|]. intros [a2 w2] [Hf2 ->].
    apply wp_ret. eapply wp_mono; [apply (decimal_spec a0 a2 _ _ u 6 3 Hf2); try lia|].
    { dlia. }
    intros [a3 w3] (x & Hx & Hf3 & Hw). eexists. split; [by exists x|]. split; [done|lia].
Qed.

(** The seconds of a minute keep the fraction of the whole. *)
Lemma fraction_mod v fs : 0 ≤ v → fraction 9 v fs → fraction 9 (v mod 60000000000) fs.
Proof.
  intros Hv (H1 & H2 & H3 & H4). split_and!; [done..| |done]. rewrite H3.
  change (10 ^ 9) with 1000000000. dlia.
Qed.

Lemma format_large_spec a0 a u : filled a0 a 32 [] → 1000000000 ≤ u ≤ 2 ^ 63 →
  wp (format_large (a, 32) u) (λ '(a', w'),
    ∃ x, duration_text u x ∧ filled a0 a' w' x ∧ 1 ≤ w').
Proof.
  intros Hf Hu. unfold format_large, duration_text. ztests.
  apply wp_bind. eapply wp_mono; [by apply put_spec|]. intros [a1 w1] [Hf1 ->].
  change (32 - 1) with 31 in *. apply wp_bind.
  eapply wp_mono; [apply (fmtFrac_spec a0 a1 31 _ u 9 Hf1); lia|].
  intros [[a2 w2] s] (-> & fs & Hfr & Hf2 & Hw2). change (10 ^ 9) with 1000000000.
  apply fraction_mod in Hfr; [|lia]. set (s := u / 1000000000) in *.
  assert (s mod 60 = u mod 60000000000 / 1000000000) as Es by (unfold s; dlia).
  assert (1 ≤ s < 10 ^ 10) as Hs by (unfold s; dlia).
  apply wp_bind. eapply wp_mono; [apply (fmtInt_spec a0 a2 w2 _ _ 2 Hf2); [dlia|lia|lia]|].
  intros [a3 w3] (ds & Hds & Hf3 & Hw3). rewrite Es in Hds.
  assert (decimal 9 (u mod 60000000000) (text ds ++ dot fs)) as Hsec by by exists ds, fs.
  rewrite app_assoc in Hf3. set (m := s / 60) in *.
  assert (0 ≤ m < 10 ^ 9) as Hm by (unfold m; dlia). clearbody m s.
  destruct (Z.ltb_spec 0 m) as [Hm1|Hm1].
  2: { assert (m = 0) as -> by lia. apply wp_ret. eexists. split; [|split; [done|lia]].
       by exists [], [], (text ds ++ dot fs). }
  rewrite (proj2 (Z.eqb_neq m 0)) by lia.
  apply (counted_then a0 _ _ _ _ _ 2 _ _ Hf3); [lia|lia|dlia|].
  intros a4 w4 mins Hmins Hf4 Hw4.
  destruct (Z.ltb_spec 0 (m / 60)) as [Hh|Hh].
  - rewrite (proj2 (Z.eqb_neq (m / 60) 0)) by lia.
    eapply wp_mono; [apply (counted_spec a0 _ _ _ (m / 60) _ 8 Hf4); [lia|lia|dlia]|].
    intros [a5 w5] (hours & Hhours & Hf5 & Hw5). eexists. split; [|split; [done|lia]].
    by exists hours, mins, (text ds ++ dot fs).
  - assert (m / 60 = 0) as -> by dlia. apply wp_ret. eexists. split; [|split; [done|lia]].
    by exists [], mins, (text ds ++ dot fs).
Qed.

Lemma String_spec d : is_sint 64 d →
  ∃ t, duration_text (Z.abs d) t ∧
    String d = Ok ((if d <? 0 then str "-" else []) ++ t).
Proof.
  intros Hd. unfold is_sint in Hd. pow2_consts. simpl in Hd.
  set (a0 := replicate 32 0). pose proof (filled_start a0) as Hf. change (len a0) with 32 in Hf.
  assert ((if d <? 0 then u64 (- u64 d) else u64 d) = Z.abs d) as Eu.
  { unfold uwrap. destruct (Z.ltb_spec d 0); dlia. }
  assert (wp (if Z.abs d <? u64 Second then format_small (a0, 32) (Z.abs d)
              else format_large (a0, 32) (Z.abs d))
    (λ '(a', w'), ∃ x, duration_text (Z.abs d) x ∧ filled a0 a' w' x ∧ 1 ≤ w')) as Hw.
  { change (u64 Second) with 1000000000. destruct (Z.ltb_spec (Z.abs d) 1000000000).
    - apply format_small_spec; [done|lia].
    - apply format_large_spec; [done|]. pow2_consts. lia. }
  apply wp_exists in Hw as ([a' w'] & E & x & Hx & Hf' & Hw').
  exists x. split; [done|]. unfold String, format. fold a0. change (len a0) with 32.
  rewrite Eu, E. simpl. destruct (d <? 0); simpl.
  - destruct (filled_store _ _ _ _ (chr "-") Hf' ltac:(lia)) as (a2 & -> & Hf2). simpl.
    by apply (filled_slice a0).
  - by apply (filled_slice a0).
Qed.
