(* ===== verification/Time.v ===== *)
(** * time: Time

    Instants, their arithmetic and their presentation in a location
    (time/time.go). A [Time] has the two packed words of the code: [wall] with
    the flag of the monotonic clock reading, 33 bits of seconds and 30 bits of
    nanoseconds, and [ext]. A location pointer is nil, [&utcLoc], [&localLoc] or
    the address of another location; [localLoc] is what the system's settings
    say, a parameter of the functions that look at it. *)

From Stdlib Require Import String.
From stdpp Require Import base.
From S2P Require Import Prelude Bytealg Calendar Zone Duration.

Inductive locptr := UtcLoc | LocalLoc | LocAt (l : Location).

Record Time := MkTime { wall : Z; ext : Z; loc : option locptr }.

Definition hasMonotonic : Z := Z.shiftl 1 63.
Definition maxWall : Z := wallToInternal + (Z.shiftl 1 33 - 1).
Definition minWall : Z := wallToInternal.
Definition nsecMask : Z := Z.shiftl 1 30 - 1.
Definition nsecShift : Z := 30.

Definition set_wall (t : Time) (w : Z) : Time := MkTime w (ext t) (loc t).
Definition set_ext (t : Time) (e : Z) : Time := MkTime (wall t) e (loc t).

(** [t.wall & hasMonotonic != 0] *)
Definition monotonic (t : Time) : bool := negb (Z.land (wall t) hasMonotonic =? 0).

(** The packed seconds, [t.wall << 1 >> (nsecShift + 1)]. *)
Definition wall_sec (t : Time) : Z := i64 (Z.shiftr (u64 (Z.shiftl (wall t) 1)) (nsecShift + 1)).

Definition nsec (t : Time) : Z := i32 (Z.land (wall t) nsecMask).

Definition sec (t : Time) : Z :=
  if monotonic t then i64 (wallToInternal + wall_sec t) else ext t.

Definition unixSec (t : Time) : Z := i64 (sec t + internalToUnix).

Definition stripMono (t : Time) : Time :=
  if monotonic t then MkTime (Z.land (wall t) nsecMask) (sec t) (loc t) else t.

(** The end of [addSec]: the sum that saturates. *)
Definition add_ext (t : Time) (d : Z) : Time :=
  let sum := i64 (ext t + d) in
  if Bool.eqb (ext t <? sum) (0 <? d) then set_ext t sum
  else if 0 <? d then set_ext t (2 ^ 63 - 1) else set_ext t (- (2 ^ 63 - 1)).

Definition addSec (t : Time) (d : Z) : Time :=
  if monotonic t then
    let dsec := i64 (wall_sec t + d) in
    if (0 <=? dsec) && (dsec <=? Z.shiftl 1 33 - 1) then
      set_wall t (Z.lor (Z.lor (Z.land (wall t) nsecMask) (u64 (Z.shiftl (u64 dsec) nsecShift)))
                        hasMonotonic)
    else add_ext (stripMono t) d
  else add_ext t d.

Definition setLoc (t : Time) (l : option locptr) : Time :=
  let l := match l with Some UtcLoc => None | _ => l end in
  let t := stripMono t in MkTime (wall t) (ext t) l.

Definition setMono (t : Time) (m : Z) : Time :=
  if negb (monotonic t) then
    let sec := ext t in
    if (sec <? minWall) || (maxWall <? sec) then t else
    MkTime (Z.lor (wall t) (Z.lor hasMonotonic (u64 (Z.shiftl (u64 (i64 (sec - minWall))) nsecShift))))
           m (loc t)
  else set_ext t m.

Definition mono (t : Time) : Z := if negb (monotonic t) then 0 else ext t.

(** ** Comparison *)

(** [t.wall & u.wall & hasMonotonic != 0] *)
Definition both_mono (t u : Time) : bool :=
  negb (Z.land (Z.land (wall t) (wall u)) hasMonotonic =? 0).

Definition IsZero (t : Time) : bool := (wall t =? 0) && (ext t =? 0).

Definition After (t u : Time) : bool :=
  if both_mono t u then ext u <? ext t else
  let ts := sec t in let us := sec u in
  (us <? ts) || ((ts =? us) && (nsec u <? nsec t)).

Definition Before (t u : Time) : bool :=
  if both_mono t u then ext t <? ext u else
  let ts := sec t in let us := sec u in
  (ts <? us) || ((ts =? us) && (nsec t <? nsec u)).

Definition Compare (t u : Time) : Z :=
  let '(tc, uc) :=
    if both_mono t u then (ext t, ext u) else
    let '(tc, uc) := (sec t, sec u) in
    if tc =? uc then (nsec t, nsec u) else (tc, uc) in
  if tc <? uc then -1 else if uc <? tc then 1 else 0.

Definition Equal (t u : Time) : bool :=
  if both_mono t u then ext t =? ext u
  else (sec t =? sec u) && (nsec t =? nsec u).

(** ** Arithmetic *)

Definition Add (t : Time) (d : Z) : Time :=
  let dsec := Z.quot d 1000000000 in
  let ns := i32 (nsec t + i32 (Z.rem d 1000000000)) in
  let '(dsec, ns) :=
    if 1000000000 <=? ns then (i64 (dsec + 1), i32 (ns - 1000000000))
    else if ns <? 0 then (i64 (dsec - 1), i32 (ns + 1000000000))
    else (dsec, ns) in
  let t := set_wall t (Z.lor (Z.ldiff (wall t) nsecMask) (u64 ns)) in
  let t := addSec t dsec in
  if monotonic t then
    let te := i64 (ext t + d) in
    if ((d <? 0) && (ext t <? te)) || ((0 <? d) && (te <? ext t))
    then stripMono t else set_ext t te
  else t.

Definition Sub (t u : Time) : Z :=
  if both_mono t u then subMono (ext t) (ext u) else
  let d := i64 (i64 (i64 (sec t - sec u) * Second) + i32 (nsec t - nsec u)) in
  if Equal (Add u d) t then d
  else if Before t u then minDuration else maxDuration.

(** The 128-bit division in [div]: the product of the seconds, the multiples of
    the divisor from the top. *)
Definition nanoseconds (sec nsec : Z) : Z * Z :=
  let tmp := u64 (Z.shiftr sec 32 * 1000000000) in
  let u1 := Z.shiftr tmp 32 in
  let u0 := u64 (Z.shiftl tmp 32) in
  let tmp := u64 (Z.land sec 0xFFFFFFFF * 1000000000) in
  let '(u0x, u0) := (u0, u64 (u0 + tmp)) in
  let u1 := if u0 <? u0x then u64 (u1 + 1) else u1 in
  let '(u0x, u0) := (u0, u64 (u0 + u64 nsec)) in
  let u1 := if u0 <? u0x then u64 (u1 + 1) else u1 in
  (u1, u0).

Definition top_multiple (d : Z) : res Z :=
  loop 65 (λ d1, if negb (Z.shiftr d1 63 =? 1) then mret (inl (u64 (Z.shiftl d1 1)))
                 else mret (inr d1)) (u64 d).

Definition long_division (u1 u0 d1 d : Z) : res (Z * Z) :=
  loop 129 (λ '(u1, u0, d1, d0),
    let '(qmod2, u1, u0) :=
      if (d1 <? u1) || ((u1 =? d1) && (d0 <=? u0)) then
        let '(u0x, u0) := (u0, u64 (u0 - d0)) in
        let u1 := if u0x <? u0 then u64 (u1 - 1) else u1 in
        (1, u64 (u1 - d1), u0)
      else (0, u1, u0) in
    if (d1 =? 0) && (d0 =? u64 d) then mret (inr (qmod2, i64 u0)) else
    let d0 := Z.shiftr d0 1 in
    let d0 := Z.lor d0 (u64 (Z.shiftl (Z.land d1 1) 63)) in
    let d1 := Z.shiftr d1 1 in
    mret (inl (u1, u0, d1, d0))) (u1, u0, d1, 0).

(** The three cases of [div], on the absolute value of the time. *)
Definition div_abs (sec nsec d : Z) : res (Z * Z) :=
  if (d <? Second) && (Z.rem Second (i64 (d + d)) =? 0) then
    mret (Z.land (Z.quot nsec (i32 d)) 1, Z.rem nsec (i32 d))
  else if Z.rem d Second =? 0 then
    let d1 := Z.quot d Second in
    mret (Z.land (Z.quot sec d1) 1, i64 (i64 (Z.rem sec d1 * Second) + nsec))
  else
    let '(u1, u0) := nanoseconds (u64 sec) nsec in
    d1 ← top_multiple d;
    long_division u1 u0 d1 d.

Definition div (t : Time) (d : Z) : res (Z * Z) :=
  let '(neg, nsec, sec) :=
    if sec t <? 0 then
      let sec := i64 (- sec t) in
      let nsec := i32 (- nsec t) in
      if nsec <? 0 then (true, i32 (nsec + 1000000000), i64 (sec - 1)) else (true, nsec, sec)
    else (false, nsec t, sec t) in
  '(qmod2, r) ← div_abs sec nsec d;
  mret (if neg && negb (r =? 0) then (Z.lxor qmod2 1, i64 (d - r)) else (qmod2, r)).

Definition Truncate (t : Time) (d : Z) : res Time :=
  let t := stripMono t in
  if d <=? 0 then mret t else
  '(_, r) ← div t d;
  mret (Add t (i64 (- r))).

Definition Round (t : Time) (d : Z) : res Time :=
  let t := stripMono t in
  if d <=? 0 then mret t else
  '(_, r) ← div t d;
  mret (if lessThanHalf r d then Add t (i64 (- r)) else Add t (i64 (d - r))).

(** ** Unix times *)

Definition unixTime (sec nsec : Z) : Time :=
  MkTime (u64 nsec) (i64 (sec + unixToInternal)) (Some LocalLoc).

Definition Unix_time (sec nsec : Z) : Time :=
  let '(sec, nsec) :=
    if (nsec <? 0) || (1000000000 <=? nsec) then
      let n := Z.quot nsec 1000000000 in
      let sec := i64 (sec + n) in
      let nsec := i64 (nsec - i64 (n * 1000000000)) in
      if nsec <? 0 then (i64 (sec - 1), i64 (nsec + 1000000000)) else (sec, nsec)
    else (sec, nsec) in
  unixTime sec (i32 nsec).

Definition UnixMilli_time (msec : Z) : Time :=
  Unix_time (Z.quot msec 1000) (i64 (Z.rem msec 1000 * 1000000)).

Definition UnixMicro_time (usec : Z) : Time :=
  Unix_time (Z.quot usec 1000000) (i64 (Z.rem usec 1000000 * 1000)).

Definition Unix (t : Time) : Z := unixSec t.
Definition UnixMilli (t : Time) : Z := i64 (i64 (unixSec t * 1000) + Z.quot (nsec t) 1000000).
Definition UnixMicro (t : Time) : Z := i64 (i64 (unixSec t * 1000000) + Z.quot (nsec t) 1000).
Definition UnixNano (t : Time) : Z := i64 (i64 (unixSec t * 1000000000) + nsec t).

(** ** Presentation in a location *)

Definition UTC (t : Time) : Time := setLoc t (Some UtcLoc).
Definition Local (t : Time) : Time := setLoc t (Some LocalLoc).

Definition In (t : Time) (l : option locptr) : res Time :=
  match l with
  | None => Panic (PanicMsg (str "time: missing Location in call to Time.In"))
  | Some _ => mret (setLoc t l)
  end.

Definition Location_of (t : Time) : option locptr :=
  match loc t with None => Some UtcLoc | l => l end.

Section presentation.
Variable localLoc : Location.

(** [Location.get], with [nil] as [&utcLoc]. *)
Definition get (l : option locptr) : Location :=
  match l with
  | None | Some UtcLoc => utcLoc
  | Some LocalLoc => localLoc
  | Some (LocAt l) => l
  end.

Definition is_utc (l : option locptr) : bool :=
  match l with None | Some UtcLoc => true | _ => false end.

Definition absSec (t : Time) : res Z :=
  let l := get (loc t) in
  let sec := unixSec t in
  sec ← (if negb (is_utc (loc t)) then
           match cached l sec with
           | Some z => mret (i64 (sec + offset z))
           | None => '(_, off, _, _, _) ← lookup l sec; mret (i64 (sec + off))
           end
         else mret sec);
  mret (u64 (i64 (sec + (unixToInternal + internalToAbsolute)))).

Definition Time_Date (t : Time) : res (Z * Z * Z) := abs ← absSec t; mret (date (days abs)).

Definition Time_Year (t : Time) : res Z :=
  abs ← absSec t;
  let '(century, cyear, ayday) := days_split (days abs) in
  mret (year century cyear (janFeb ayday)).

Definition Time_Month (t : Time) : res Z :=
  abs ← absSec t;
  let '(_, _, ayday) := days_split (days abs) in
  let '(amonth, _) := ayday_split ayday in
  mret (month amonth (janFeb ayday)).

Definition Time_Day (t : Time) : res Z :=
  abs ← absSec t;
  let '(_, _, ayday) := days_split (days abs) in
  let '(_, day) := ayday_split ayday in
  mret day.

Definition Time_Weekday (t : Time) : res Z := abs ← absSec t; mret (weekday (days abs)).

Definition Time_ISOWeek (t : Time) : res (Z * Z) := abs ← absSec t; mret (isoWeek (days abs)).

Definition Time_YearDay (t : Time) : res Z :=
  abs ← absSec t; let '(_, yday) := yearYday (days abs) in mret yday.

Definition Time_Clock (t : Time) : res (Z * Z * Z) := abs ← absSec t; mret (clock abs).

Definition Time_Hour (t : Time) : res Z :=
  abs ← absSec t; mret (Z.quot (abs mod secondsPerDay) secondsPerHour).
Definition Time_Minute (t : Time) : res Z :=
  abs ← absSec t; mret (Z.quot (abs mod secondsPerHour) secondsPerMinute).
Definition Time_Second (t : Time) : res Z := abs ← absSec t; mret (abs mod secondsPerMinute).
Definition Time_Nanosecond (t : Time) : Z := nsec t.

Definition Zone_of (t : Time) : res (list Z * Z) :=
  '(name, off, _, _, _) ← lookup (get (loc t)) (unixSec t); mret (name, off).

Definition IsDST (t : Time) : res bool :=
  '(_, _, _, _, isDST) ← lookup (get (loc t)) (Unix t); mret isDST.

Definition ZoneBounds (t : Time) : res (Time * Time) :=
  '(_, _, startSec, endSec, _) ← lookup (get (loc t)) (unixSec t);
  let zero := MkTime 0 0 None in
  mret ((if negb (startSec =? alpha) then setLoc (unixTime startSec 0) (loc t) else zero),
        (if negb (endSec =? omega) then setLoc (unixTime endSec 0) (loc t) else zero)).

(** The absolute time of the date and clock reading, normalized: the seconds
    since 1970 and the nanoseconds of [Date] before it looks at the location. *)
Definition Date_unix (year month day hour min sec nsec : Z) : Z * Z :=
  let m := i64 (month - 1) in
  let '(year, m) := norm year m 12 in
  let month := i64 (m + 1) in
  let '(sec, nsec) := norm sec nsec 1000000000 in
  let '(min, sec) := norm min sec 60 in
  let '(hour, min) := norm hour min 60 in
  let '(day, hour) := norm day hour 24 in
  let unix :=
    i64 (i64 (i64 (i64 (dateToAbsDays year month day) * secondsPerDay) +
              i64 (i64 (i64 (hour * secondsPerHour) + i64 (min * secondsPerMinute)) + sec)) +
         absoluteToUnix) in
  (unix, nsec).

Definition Date (year month day hour min sec nsec : Z) (loc : option locptr) : res Time :=
  match loc with
  | None => Panic (PanicMsg (str "time: missing Location in call to Date"))
  | Some _ =>
      let '(unix, nsec) := Date_unix year month day hour min sec nsec in
      '(_, off, start, end_, _) ← lookup (get loc) unix;
      unix ← (if negb (off =? 0) then
                let utc := i64 (unix - off) in
                off ← (if (utc <? start) || (end_ <=? utc) then
                         '(_, off, _, _, _) ← lookup (get loc) utc; mret off
                       else mret off);
                mret (i64 (unix - off))
              else mret unix);
      mret (setLoc (unixTime unix (i32 nsec)) loc)
  end.

Definition AddDate (t : Time) (years months days : Z) : res Time :=
  '(year, month, day) ← Time_Date t;
  '(hour, min, sec) ← Time_Clock t;
  Date (i64 (year + years)) (i64 (month + months)) (i64 (day + days))
    hour min sec (nsec t) (Location_of t).
End presentation.
