(* ===== verification/TimeProofs.v ===== *)
(** * time: instants and their arithmetic

    A time is well formed when its words are as the comments of the struct say.
    Its instant is the number of nanoseconds since January 1 of the year 1. The
    packed words are taken apart into their fields, and every operation is
    related to instants. *)

From Stdlib Require Import String.
From stdpp Require Import base.
From S2P Require Import Prelude Bytealg Calendar CalendarProofs Zone Duration Time.

Lemma sint64 x : is_sint 64 x ↔ - 9223372036854775808 ≤ x < 9223372036854775808.
Proof. done. Qed.

Lemma i64_eq x :
  i64 x = (x + 9223372036854775808) mod 18446744073709551616 - 9223372036854775808.
Proof. done. Qed.

(** ** The fields of the words *)

Record packed (w m s n : Z) : Prop := {
  pk_word : w = m * 2 ^ 63 + s * 2 ^ 30 + n;
  pk_mono : 0 ≤ m ≤ 1;
  pk_secs : 0 ≤ s < 2 ^ 33;
  pk_plain : m = 0 → s = 0;
  pk_nsec : 0 ≤ n < 1000000000;
}.

Definition wf (t : Time) : Prop :=
  (∃ m s n, packed (wall t) m s n) ∧ is_sint 64 (ext t).

Definition instant (t : Time) : Z := sec t * 1000000000 + nsec t.

Lemma land_top w : 0 ≤ w < 2 ^ 64 → Z.land w hasMonotonic = w / 2 ^ 63 * 2 ^ 63.
Proof.
  intros Hw. unfold hasMonotonic. rewrite Z.shiftl_mul_pow2, Z.mul_1_l by done.
  apply Z.bits_inj'. intros k Hk. rewrite Z.land_spec, <-Z.shiftl_mul_pow2 by done.
  rewrite <-Z.shiftr_div_pow2, Z.shiftl_spec by done.
  destruct (decide (k = 63)) as [->|Hne].
  - rewrite Z.pow2_bits_true, Z.shiftr_spec, andb_true_r by done. done.
  - rewrite Z.pow2_bits_false, andb_false_r by lia.
    destruct (decide (k < 63)); [by rewrite Z.testbit_neg_r by lia|].
    rewrite Z.shiftr_spec, Z.sub_add by lia. symmetry. apply (testbit_high w 64); lia.
Qed.

Section packed.
Context {t : Time} {m s n : Z} (H : packed (wall t) m s n).

Lemma packed_range : 0 ≤ wall t < 2 ^ 64.
Proof. destruct H. lia. Qed.

Lemma packed_monotonic : monotonic t = (m =? 1).
Proof.
  unfold monotonic. rewrite land_top by apply packed_range. destruct H as [E Hm Hs Hp Hn].
  assert (wall t / 2 ^ 63 = m) as -> by dlia.
  destruct (Z.eqb_spec (m * 2 ^ 63) 0), (Z.eqb_spec m 1); try done; lia.
Qed.

Lemma packed_wall_sec : wall_sec t = s.
Proof.
  unfold wall_sec. change (nsecShift + 1) with 31.
  rewrite Z.shiftl_mul_pow2, Z.shiftr_div_pow2 by done. destruct H as [E Hm Hs Hp Hn].
  assert (u64 (wall t * 2 ^ 1) / 2 ^ 31 = s) as -> by (unfold uwrap; dlia). unwrap. done.
Qed.

Lemma packed_land : Z.land (wall t) nsecMask = n.
Proof.
  change nsecMask with (2 ^ 30 - 1). rewrite land_mask by done.
  destruct H as [E Hm Hs Hp Hn]. dlia.
Qed.

Lemma packed_nsec_eq : nsec t = n.
Proof. unfold nsec. rewrite packed_land. destruct H as [E Hm Hs Hp Hn]. unwrap. done. Qed.

Lemma packed_sec : sec t = if m =? 1 then wallToInternal + s else ext t.
Proof.
  unfold sec. rewrite packed_monotonic, packed_wall_sec. destruct H as [E Hm Hs Hp Hn].
  destruct (m =? 1); [|done]. change wallToInternal with 59453308800. unwrap. done.
Qed.

Lemma packed_clear : Z.ldiff (wall t) nsecMask = m * 2 ^ 63 + s * 2 ^ 30.
Proof.
  change nsecMask with (Z.ones 30). rewrite Z.ldiff_ones_r, Z.shiftl_mul_pow2 by done.
  rewrite Z.shiftr_div_pow2 by done. destruct H as [E Hm Hs Hp Hn]. dlia.
Qed.
End packed.

Lemma wf_packed t : wf t → ∃ m s n, packed (wall t) m s n.
Proof. by intros [H _]. Qed.

Lemma wf_ext t : wf t → - 9223372036854775808 ≤ ext t < 9223372036854775808.
Proof. intros [_ H]. exact H. Qed.

Lemma wf_nsec t : wf t → 0 ≤ nsec t < 1000000000.
Proof. intros [(m & s & n & H) _]. rewrite (packed_nsec_eq H). apply H. Qed.

Lemma wf_sec t : wf t → - 9223372036854775808 ≤ sec t < 9223372036854775808.
Proof.
  intros Hw. destruct (wf_packed t Hw) as (m & s & n & H). pose proof (wf_ext t Hw).
  rewrite (packed_sec H). destruct H as [E Hm Hs Hp Hn]. change wallToInternal with 59453308800.
  destruct (m =? 1); lia.
Qed.

(** A time with no monotonic reading. *)
Lemma packed_plain w n : w = n → 0 ≤ n < 1000000000 → packed w 0 0 n.
Proof. intros -> Hn. split; lia. Qed.

Lemma plain_time n e l : 0 ≤ n < 1000000000 → is_sint 64 e →
  wf (MkTime n e l) ∧ monotonic (MkTime n e l) = false ∧
  sec (MkTime n e l) = e ∧ nsec (MkTime n e l) = n.
Proof.
  intros Hn He. pose proof (packed_plain n n eq_refl Hn) as H.
  split_and!; [split; [by eexists _, _, _|done]|..].
  - by rewrite (packed_monotonic (t := MkTime n e l) H).
  - by rewrite (packed_sec (t := MkTime n e l) H).
  - by rewrite (packed_nsec_eq (t := MkTime n e l) H).
Qed.

Lemma mono_time s n e l : 0 ≤ s < 2 ^ 33 → 0 ≤ n < 1000000000 → is_sint 64 e →
  let t := MkTime (2 ^ 63 + s * 2 ^ 30 + n) e l in
  wf t ∧ monotonic t = true ∧ sec t = wallToInternal + s ∧ nsec t = n.
Proof.
  intros Hs Hn He t. assert (packed (wall t) 1 s n) as H by (split; simpl; lia).
  split_and!; [split; [by eexists _, _, _|done]|..].
  - by rewrite (packed_monotonic H).
  - by rewrite (packed_sec H).
  - by rewrite (packed_nsec_eq H).
Qed.

(** Every well-formed time is one of the two. *)
Lemma wf_cases t : wf t →
  (monotonic t = false ∧ t = MkTime (nsec t) (sec t) (loc t)) ∨
  (monotonic t = true ∧ ∃ s, 0 ≤ s < 2 ^ 33 ∧ sec t = wallToInternal + s ∧
     wall_sec t = s ∧ t = MkTime (2 ^ 63 + s * 2 ^ 30 + nsec t) (ext t) (loc t)).
Proof.
  intros [(m & s & n & H) _].
  rewrite (packed_monotonic H), (packed_nsec_eq H), (packed_sec H), (packed_wall_sec H).
  destruct H as [E Hm Hs Hp Hn]. destruct t as [w e l]; simpl in *.
  destruct (decide (m = 0)) as [->|Hne].
  - left. split; [done|]. f_equal. lia.
  - right. assert (m = 1) as -> by lia. split; [done|]. exists s. split; [done|]. split; [done|].
    split; [done|]. f_equal. lia.
Qed.

Lemma stripMono_eq t : wf t → stripMono t = MkTime (nsec t) (sec t) (loc t).
Proof.
  intros Hw. destruct (wf_packed t Hw) as (m & s & n & H). unfold stripMono.
  destruct (wf_cases t Hw) as [[-> E]|[-> _]]; [done|].
  by rewrite (packed_land H), (packed_nsec_eq H).
Qed.

(** The seconds that [addSec] can hold. *)
Definition clamp_sec (x : Z) : Z :=
  if 2 ^ 63 <=? x then 2 ^ 63 - 1 else if x <? - 2 ^ 63 then - (2 ^ 63 - 1) else x.

Lemma add_ext_eq n e l d : is_sint 64 e → is_sint 64 d →
  add_ext (MkTime n e l) d = MkTime n (clamp_sec (e + d)) l.
Proof.
  rewrite !sint64. intros He Hd. unfold add_ext, clamp_sec, set_ext. simpl. pow2_consts.
  destruct (Z.leb_spec 9223372036854775808 (e + d)) as [Ho|Ho].
  - assert (i64 (e + d) = e + d - 18446744073709551616) as -> by (rewrite i64_eq; dlia).
    by ztests.
  - destruct (Z.ltb_spec (e + d) (- 9223372036854775808)) as [Hu|Hu].
    + assert (i64 (e + d) = e + d + 18446744073709551616) as ->
        by (rewrite i64_eq; dlia).
      by ztests.
    + unwrap. ztests. destruct (Z.ltb_spec e (e + d)), (Z.ltb_spec 0 d); try done; exfalso; lia.
Qed.

Lemma clamp_sec_range x : is_sint 64 (clamp_sec x).
Proof. apply sint64. unfold clamp_sec. pow2_consts. zcases; lia. Qed.

(** What a step of the seconds does. *)
Record stepped (t t' : Time) (d ns : Z) : Prop := {
  st_wf : wf t';
  st_sec : sec t' = clamp_sec (sec t + d);
  st_nsec : nsec t' = ns;
  st_loc : loc t' = loc t;
  st_mono : monotonic t' = true → monotonic t = true ∧ ext t' = ext t;
}.

Lemma plain_stepped t n d : wf t → 0 ≤ n < 1000000000 → is_sint 64 d →
  stepped t (add_ext (MkTime n (sec t) (loc t)) d) d n.
Proof.
  intros Hw Hn Hd. pose proof (wf_sec t Hw). rewrite add_ext_eq by (done || by apply sint64).
  destruct (plain_time n (clamp_sec (sec t + d)) (loc t) Hn (clamp_sec_range _)) as (? & E & ? & ?).
  split; try done. by rewrite E.
Qed.

(** The first part of [Add]: new nanoseconds, and a step of the seconds. *)
Lemma addSec_spec t d ns : wf t → - 2 ^ 62 ≤ d ≤ 2 ^ 62 → 0 ≤ ns < 1000000000 →
  stepped t (addSec (set_wall t (Z.lor (Z.ldiff (wall t) nsecMask) (u64 ns))) d) d ns.
Proof.
  intros Hw Hd Hn. destruct (wf_packed t Hw) as (m & s & n & H).
  rewrite (packed_clear H), (uwrap_small 64 ns) by (unfold is_uint; lia).
  replace (m * 2 ^ 63 + s * 2 ^ 30) with ((m * 2 ^ 33 + s) * 2 ^ 30) by lia.
  rewrite lor_disjoint_add by lia.
  pose proof (proj2 (sint64 _) (wf_ext t Hw)) as He. pose proof (wf_sec t Hw) as Hsec.
  assert (is_sint 64 d) as Hd' by (apply sint64; lia).
  destruct H as [E Hm Hs Hp Hn0].
  assert (packed (wall (set_wall t ((m * 2 ^ 33 + s) * 2 ^ 30 + ns))) m s ns) as H'
    by (split; simpl; lia).
  assert (packed (wall t) m s n) as H by done.
  unfold addSec. rewrite (packed_monotonic H'), (packed_wall_sec H').
  pose proof (packed_monotonic H) as Hmt. pose proof (packed_sec H) as Est.
  destruct (Z.eqb_spec m 1) as [->|Hne].
  - unwrap. change (Z.shiftl 1 33) with (2 ^ 33).
    destruct (Z.leb_spec 0 (s + d)); [destruct (Z.leb_spec (s + d) (2 ^ 33 - 1))|]; cbn [andb].
    + rewrite (packed_land H'). rewrite (uwrap_small 64 (s + d)) by (unfold is_uint; lia).
      change nsecShift with 30. rewrite Z.shiftl_mul_pow2 by done.
      rewrite (uwrap_small 64 (_ * _)) by (unfold is_uint; lia).
      rewrite (Z.lor_comm ns), lor_disjoint_add by lia.
      rewrite Z.lor_comm. change hasMonotonic with (1 * 2 ^ 63). rewrite lor_disjoint_add by lia.
      replace (1 * 2 ^ 63 + ((s + d) * 2 ^ 30 + ns)) with (2 ^ 63 + (s + d) * 2 ^ 30 + ns) by lia.
      unfold set_wall. simpl.
      destruct (mono_time (s + d) ns (ext t) (loc t)) as (? & ? & E1 & E2); [lia..|done|].
      split; try done. rewrite E1, Est. unfold clamp_sec. change wallToInternal with 59453308800.
      ztests. lia.
    + rewrite stripMono_eq; [|by split; [eexists _, _, _|]].
      rewrite (packed_nsec_eq H'), (packed_sec H'). simpl. rewrite <-Est. by apply plain_stepped.
    + rewrite stripMono_eq; [|by split; [eexists _, _, _|]].
      rewrite (packed_nsec_eq H'), (packed_sec H'). simpl. rewrite <-Est. by apply plain_stepped.
  - assert (m = 0) as -> by lia. rewrite Hp by done. unfold set_wall.
    replace ((0 * 2 ^ 33 + 0) * 2 ^ 30 + ns) with ns by lia. rewrite <-Est.
    by apply plain_stepped.
Qed.

(** The quotient and the remainder of [Add], rounded down. *)
Lemma Add_split n d : 0 ≤ n < 1000000000 → is_sint 64 d →
  let dsec := Z.quot d 1000000000 in
  let ns := i32 (n + i32 (Z.rem d 1000000000)) in
  (if 1000000000 <=? ns then (i64 (dsec + 1), i32 (ns - 1000000000))
   else if ns <? 0 then (i64 (dsec - 1), i32 (ns + 1000000000))
   else (dsec, ns)) = ((n + d) / 1000000000, (n + d) mod 1000000000).
Proof.
  rewrite sint64. intros Hn Hd dsec ns.
  pose proof (Z.quot_rem d 1000000000 ltac:(done)) as E. fold dsec in E.
  assert (ns = n + Z.rem d 1000000000 ∧ - 1000000000 < Z.rem d 1000000000 < 1000000000 ∧
          - 9223372040 < dsec < 9223372040) as (-> & Hr & Hq).
  { pose proof (Z.rem_bound_abs d 1000000000 ltac:(done)) as Hb. unfold ns.
    assert (- 1000000000 < Z.rem d 1000000000 < 1000000000) by lia. split; [|lia].
    unwrap. done. }
  clearbody dsec. revert E Hr. generalize (Z.rem d 1000000000). intros r E Hr.
  destruct (Z.leb_spec 1000000000 (n + r)); [|destruct (Z.ltb_spec (n + r) 0)];
    unwrap; f_equal; dlia.
Qed.

Lemma sint64_of_wf t : wf t → is_sint 64 (ext t).
Proof. by intros []. Qed.

(** What [Add] does to a time. *)
Record added (t t' : Time) (d : Z) : Prop := {
  ad_wf : wf t';
  ad_sec : sec t' = clamp_sec (sec t + (nsec t + d) / 1000000000);
  ad_nsec : nsec t' = (nsec t + d) mod 1000000000;
  ad_loc : loc t' = loc t;
  ad_mono : monotonic t' = true → monotonic t = true ∧ ext t' = ext t + d;
}.

Lemma stripMono_spec t : wf t →
  wf (stripMono t) ∧ monotonic (stripMono t) = false ∧ sec (stripMono t) = sec t ∧
  nsec (stripMono t) = nsec t ∧ loc (stripMono t) = loc t.
Proof.
  intros Hw. rewrite stripMono_eq by done.
  destruct (plain_time (nsec t) (sec t) (loc t)) as (? & ? & ? & ?);
    [by apply wf_nsec|by apply sint64, wf_sec|]. done.
Qed.

(** The end of [Add]: the monotonic reading follows, or is dropped. *)
Lemma Add_mono_spec t d : wf t → is_sint 64 d → monotonic t = true →
  let te := i64 (ext t + d) in
  let t' := if ((d <? 0) && (ext t <? te)) || ((0 <? d) && (te <? ext t))
            then stripMono t else set_ext t te in
  wf t' ∧ sec t' = sec t ∧ nsec t' = nsec t ∧ loc t' = loc t ∧
  (monotonic t' = true → ext t' = ext t + d).
Proof.
  intros Hw Hd Hm te t'.
  destruct (stripMono_spec t Hw) as (Hw' & Hm' & Hs' & Hn' & Hl').
  destruct (((d <? 0) && (ext t <? te)) || ((0 <? d) && (te <? ext t))) eqn:Hc.
  { unfold t'. split_and!; try done. by rewrite Hm'. }
  assert (te = ext t + d) as E.
  { pose proof (wf_ext t Hw) as He. rewrite sint64 in Hd.
    assert (te = (ext t + d + 9223372036854775808) mod 18446744073709551616
                 - 9223372036854775808) as Ete by apply i64_eq.
    clear t'. clearbody te. destruct (Z.ltb_spec d 0), (Z.ltb_spec 0 d); simpl in Hc;
      rewrite ?orb_false_r, ?Z.ltb_ge in Hc; dlia. }
  destruct (wf_cases t Hw) as [[Hx _]|[_ (s & Hs & Esec & _ & Et)]]; [congruence|].
  unfold t', set_ext. assert (is_sint 64 te) as Hte by by apply swrap_range.
  destruct (mono_time s (nsec t) te (loc t)) as (? & ? & ? & ?); [lia|by apply wf_nsec|done|].
  rewrite E in *. rewrite Et at 1. simpl.
  assert (wall t = 2 ^ 63 + s * 2 ^ 30 + nsec t) as -> by by rewrite Et at 1.
  split_and!; try done. by rewrite Esec.
Qed.

Lemma Add_spec t d : wf t → is_sint 64 d → added t (Add t d) d.
Proof.
  intros Hw Hd. pose proof (wf_nsec t Hw) as Hn. unfold Add.
  pose proof (Add_split (nsec t) d Hn Hd) as E. simpl in E. rewrite E. clear E.
  assert (Hd' := Hd). rewrite sint64 in Hd'.
  assert (- 2 ^ 62 ≤ (nsec t + d) / 1000000000 ≤ 2 ^ 62) as Hq by dlia.
  pose proof (Z.mod_pos_bound (nsec t + d) 1000000000 ltac:(done)) as Hr.
  destruct (addSec_spec t _ _ Hw Hq Hr) as [Hw1 Hs1 Hn1 Hl1 Hm1].
  destruct (monotonic (addSec _ _)) eqn:Hm; [|by split; try done; rewrite Hm].
  destruct (Hm1 eq_refl) as [Hmt Hext].
  destruct (Add_mono_spec _ d Hw1 Hd Hm) as (Hw2 & Hs2 & Hn2 & Hl2 & Hm2).
  split; [done|congruence..|]. intros H. split; [done|]. rewrite Hm2 by done. by rewrite Hext.
Qed.

(** ** Comparisons and differences *)

Lemma both_mono_eq t u : wf t → wf u → both_mono t u = monotonic t && monotonic u.
Proof.
  intros Ht Hu. destruct (wf_packed t Ht) as (m & s & n & H).
  destruct (wf_packed u Hu) as (m' & s' & n' & H').
  rewrite (packed_monotonic H), (packed_monotonic H'). unfold both_mono.
  assert (Z.land (Z.land (wall t) (wall u)) hasMonotonic =
          Z.land (Z.land (wall t) hasMonotonic) (Z.land (wall u) hasMonotonic)) as ->.
  { apply Z.bits_inj'. intros k _. rewrite !Z.land_spec.
    by destruct (Z.testbit (wall t) k), (Z.testbit (wall u) k), (Z.testbit hasMonotonic k). }
  rewrite !land_top by (by eapply packed_range).
  destruct H as [E Hm Hs Hp Hn], H' as [E' Hm' Hs' Hp' Hn'].
  assert (wall t / 2 ^ 63 = m ∧ wall u / 2 ^ 63 = m') as [-> ->] by dlia.
  assert (m = 0 ∨ m = 1) as [-> | ->] by lia; assert (m' = 0 ∨ m' = 1) as [-> | ->] by lia; done.
Qed.

(** The clock that two times are compared by. *)
Definition reading (t u : Time) : Z := if both_mono t u then ext t else instant t.

Lemma both_mono_comm t u : both_mono t u = both_mono u t.
Proof. unfold both_mono. by rewrite (Z.land_comm (wall t)). Qed.

Lemma Compare_spec t u : wf t → wf u →
  Compare t u = Z.sgn (reading t u - reading u t) ∧
  Before t u = (reading t u <? reading u t) ∧
  After t u = (reading u t <? reading t u) ∧
  Equal t u = (reading t u =? reading u t).
Proof.
  intros Ht Hu. unfold Compare, Before, After, Equal, reading, instant.
  rewrite (both_mono_comm u t). pose proof (wf_nsec t Ht). pose proof (wf_nsec u Hu).
  destruct (both_mono t u); [split_and!; zcases; lia|].
  destruct (Z.eqb_spec (sec t) (sec u)) as [E|E]; simpl;
    destruct (Z.ltb_spec (sec t) (sec u)); try lia;
    destruct (Z.ltb_spec (sec u) (sec t)); try lia; simpl;
    split_and!; zcases; try done; lia.
Qed.

Definition clamp_duration (x : Z) : Z := Z.max minDuration (Z.min maxDuration x).

Lemma subMono_spec t u : is_sint 64 t → is_sint 64 u → subMono t u = clamp_duration (t - u).
Proof.
  rewrite !sint64. intros Ht Hu. unfold subMono, clamp_duration, minDuration, maxDuration.
  pow2_consts. rewrite i64_eq.
  pose proof (Z.mod_pos_bound (t - u + 9223372036854775808) 18446744073709551616 ltac:(done)).
  assert (t - u < - 9223372036854775808 ∨ - 9223372036854775808 ≤ t - u < 9223372036854775808 ∨
          9223372036854775808 ≤ t - u) as [Hd|[Hd|Hd]] by lia.
  - replace ((t - u + 9223372036854775808) mod 18446744073709551616)
      with (t - u + 9223372036854775808 + 18446744073709551616) by dlia. ztests. lia.
  - rewrite Z.mod_small by lia. zcases; lia.
  - replace ((t - u + 9223372036854775808) mod 18446744073709551616)
      with (t - u + 9223372036854775808 - 18446744073709551616) by dlia. ztests. lia.
Qed.

Lemma instant_mono t u : wf t → wf u → sec t < sec u → instant t < instant u.
Proof.
  intros Ht Hu. pose proof (wf_nsec t Ht). pose proof (wf_nsec u Hu). unfold instant. lia.
Qed.

(** When [Add] does not saturate it is exact. *)
Lemma added_instant t t' d : added t t' d →
  - 2 ^ 63 ≤ sec t + (nsec t + d) / 1000000000 < 2 ^ 63 → instant t' = instant t + d.
Proof.
  intros [Hw Hs Hn Hl Hm] Hr. unfold instant. rewrite Hs, Hn. unfold clamp_sec. ztests. dlia.
Qed.

Lemma i64_cong x y k : x = y + k * 18446744073709551616 → i64 x = i64 y.
Proof. intros ->. rewrite !i64_eq. dlia. Qed.

Lemma i64_mod x : ∃ k, i64 x = x + k * 18446744073709551616.
Proof.
  rewrite i64_eq. exists (- ((x + 9223372036854775808) / 18446744073709551616)). dlia.
Qed.

Lemma i64_range x : - 9223372036854775808 ≤ i64 x < 9223372036854775808.
Proof. rewrite <-sint64. by apply swrap_range. Qed.

(** The exact difference is what the wrapped one leads back to. *)
Lemma Sub_exact t u u' D d : wf t → wf u → D = instant t - instant u → d = i64 D →
  added u u' d → (instant u' = instant t ↔ is_sint 64 D).
Proof.
  intros Ht Hu ED Ed [Hw Hs Hn _ _]. rewrite sint64.
  destruct (i64_mod D) as [k Hk]. pose proof (i64_range D) as Hd. rewrite <-Ed in *. clear Ed.
  pose proof (wf_sec t Ht). pose proof (wf_sec u Hu).
  pose proof (wf_nsec t Ht). pose proof (wf_nsec u Hu).
  unfold instant in *. rewrite Hs, Hn. clear Hs Hn Hw. unfold clamp_sec.
  generalize dependent (sec t). generalize dependent (sec u).
  generalize dependent (nsec t). generalize dependent (nsec u). pow2_consts.
  intros n Hn n' Hn' s Hs s' HD Hs'.
  assert (n + d = 1000000000 * ((n + d) / 1000000000) + (n + d) mod 1000000000) as E
    by by apply Z.div_mod.
  pose proof (Z.mod_pos_bound (n + d) 1000000000 ltac:(done)) as Hr.
  revert E Hr. generalize ((n + d) / 1000000000) ((n + d) mod 1000000000). intros q r E Hr.
  assert (- 9223372036854775808 ≤ D < 9223372036854775808 → d = D) as Hk1 by lia.
  assert (D < - 9223372036854775808 → d > D) as Hk2 by lia.
  assert (9223372036854775808 ≤ D → d < D) as Hk3 by lia.
  clear Hk k.
  destruct (Z.leb_spec 9223372036854775808 (s + q));
    [|destruct (Z.ltb_spec (s + q) (Z.opp 9223372036854775808))]; lia.
Qed.

Lemma Sub_spec t u : wf t → wf u →
  Sub t u = clamp_duration (reading t u - reading u t).
Proof.
  intros Ht Hu. unfold Sub, reading. rewrite (both_mono_comm u t).
  destruct (both_mono t u) eqn:Hb.
  { apply subMono_spec; by apply sint64_of_wf. }
  assert (i64 (i64 (i64 (sec t - sec u) * Second) + i32 (nsec t - nsec u))
          = i64 (instant t - instant u)) as ->.
  { pose proof (wf_nsec t Ht). pose proof (wf_nsec u Hu).
    rewrite (i32_small (_ - _)) by lia. unfold instant.
    destruct (i64_mod (sec t - sec u)) as [k ->]. change Second with 1000000000.
    destruct (i64_mod ((sec t - sec u + k * 18446744073709551616) * 1000000000)) as [k' ->].
    apply (i64_cong _ _ (k * 1000000000 + k')). lia. }
  set (D := instant t - instant u). pose proof (swrap_range 64 D ltac:(done)) as Hd.
  pose proof (Add_spec u (i64 D) Hu Hd) as Ha.
  pose proof (Sub_exact t u _ D _ Ht Hu eq_refl eq_refl Ha) as Hex.
  assert (both_mono (Add u (i64 D)) t = false) as Hb'.
  { rewrite both_mono_eq in Hb |- * by (done || apply Ha). pose proof (ad_mono _ _ _ Ha) as Hm.
    destruct (monotonic (Add u (i64 D))); [|done]. destruct (Hm eq_refl) as [Hmu _].
    by rewrite Hmu, andb_true_r in Hb. }
  destruct (Compare_spec _ _ (ad_wf _ _ _ Ha) Ht) as (_ & _ & _ & ->).
  destruct (Compare_spec t u Ht Hu) as (_ & -> & _).
  unfold reading. rewrite (both_mono_comm u t), (both_mono_comm t), Hb, Hb'.
  unfold clamp_duration, minDuration, maxDuration. rewrite sint64 in Hex.
  destruct (Z.eqb_spec (instant (Add u (i64 D))) (instant t)) as [E|E].
  - apply Hex in E. rewrite i64_small by done. pow2_consts. lia.
  - assert (¬ (- 9223372036854775808 ≤ D < 9223372036854775808)) by (by intros ?%Hex).
    pow2_consts. destruct (Z.ltb_spec (instant t) (instant u)); lia.
Qed.
