(* ===== verification/TimeRound.v ===== *)
(** * time: rounding of instants

    The 128-bit division of the code, and [Truncate] and [Round] on instants. *)

From Stdlib Require Import String.
From stdpp Require Import base.
From S2P Require Import Prelude Bytealg Calendar CalendarProofs Zone Duration Time TimeProofs.

(** ** The division *)

Lemma nanoseconds_spec s n : 0 ≤ s < 2 ^ 64 → 0 ≤ n < 1000000000 →
  let '(u1, u0) := nanoseconds s n in
  u1 * 2 ^ 64 + u0 = s * 1000000000 + n ∧ 0 ≤ u1 < 2 ^ 30 ∧ 0 ≤ u0 < 2 ^ 64.
Proof.
  intros Hs Hn. unfold nanoseconds. change 0xFFFFFFFF with (2 ^ 32 - 1).
  rewrite land_mask, !Z.shiftr_div_pow2, Z.shiftl_mul_pow2 by done.
  rewrite (uwrap_small 64 n) by (unfold is_uint; lia).
  pose proof (Z.div_mod s (2 ^ 32) ltac:(done)) as E.
  pose proof (Z.mod_pos_bound s (2 ^ 32) ltac:(done)) as Hl.
  assert (0 ≤ s / 2 ^ 32 < 2 ^ 32) as Hh by dlia.
  revert E Hl Hh. generalize (s / 2 ^ 32) (s mod 2 ^ 32). intros h l -> Hl Hh. clear Hs.
  rewrite !(uwrap_small 64 (_ * 1000000000)) by (unfold is_uint; lia).
  unfold uwrap. zcases; dlia.
Qed.

Lemma top_multiple_spec d : 0 < d < 2 ^ 63 →
  wp (top_multiple d) (λ d1, 2 ^ 63 ≤ d1 < 2 ^ 64 ∧ ∃ k, 0 ≤ k ≤ 63 ∧ d1 = d * 2 ^ k).
Proof.
  intros Hd. unfold top_multiple. rewrite uwrap_small by (unfold is_uint; lia).
  apply (wp_loop (λ d1, 0 < d1 < 2 ^ 64 ∧ ∃ k, 0 ≤ k ∧ d1 = d * 2 ^ k) (λ d1, 64 - Z.log2 d1)).
  - split; [lia|]. exists 0. lia.
  - intros d1 [Hr _]. pose proof (Z.log2_lt_pow2 d1 64 ltac:(lia)). lia.
  - pose proof (Z.log2_nonneg d). lia.
  - intros d1 [Hr (k & Hk & E)]. rewrite Z.shiftr_div_pow2 by done.
    destruct (Z.eqb_spec (d1 / 2 ^ 63) 1) as [E1|E1]; simpl.
    + split; [dlia|]. exists k. split; [|done]. split; [done|].
      apply Z.lt_succ_r, (Z.pow_lt_mono_r_iff 2); [done..|]. simpl. nia.
    + assert (d1 < 2 ^ 63) as Hlt by dlia.
      rewrite Z.shiftl_mul_pow2, uwrap_small by (done || (unfold is_uint; lia)).
      split; [split; [lia|]|].
      * exists (k + 1). split; [lia|]. rewrite Z.pow_add_r by done. lia.
      * rewrite Z.mul_comm. change (2 ^ 1) with 2. rewrite Z.log2_double by lia. lia.
Qed.

(** One round of the long division: the top multiple is taken off, if it fits. *)
Lemma division_round u1 u0 d1 d0 :
  0 ≤ u1 < 2 ^ 64 → 0 ≤ u0 < 2 ^ 64 → 0 ≤ d1 < 2 ^ 64 → 0 ≤ d0 < 2 ^ 64 →
  let V := u1 * 2 ^ 64 + u0 in
  let W := d1 * 2 ^ 64 + d0 in
  let '(q, u1', u0') :=
    if (d1 <? u1) || ((u1 =? d1) && (d0 <=? u0)) then
      let '(u0x, u0) := (u0, u64 (u0 - d0)) in
      let u1 := if u0x <? u0 then u64 (u1 - 1) else u1 in
      (1, u64 (u1 - d1), u0)
    else (0, u1, u0) in
  0 ≤ u1' < 2 ^ 64 ∧ 0 ≤ u0' < 2 ^ 64 ∧
  u1' * 2 ^ 64 + u0' = V - q * W ∧ (if W <=? V then q = 1 else q = 0).
Proof.
  intros Hu1 Hu0 Hd1 Hd0 V W.
  destruct ((d1 <? u1) || ((u1 =? d1) && (d0 <=? u0))) eqn:Hc.
  - assert (W ≤ V) as Hle.
    { unfold V, W. apply orb_true_iff in Hc as [Hc|Hc]; [apply Z.ltb_lt in Hc; nia|].
      apply andb_true_iff in Hc as [Hc1%Z.eqb_eq Hc2%Z.leb_le]. lia. }
    rewrite (proj2 (Z.leb_le W V)) by done. clear Hc. unfold V, W in *.
    destruct (Z.leb_spec d0 u0).
    + rewrite (uwrap_small 64 (u0 - d0)) by (unfold is_uint; lia). ztests.
      rewrite uwrap_small by (unfold is_uint; lia). lia.
    + assert (u64 (u0 - d0) = u0 - d0 + 2 ^ 64) as -> by (unfold uwrap; dlia). 
      destruct (Z.ltb_spec u0 (u0 - d0 + 2 ^ 64)); [|lia].
      rewrite (uwrap_small 64 (u1 - 1)) by (unfold is_uint; lia).
      rewrite uwrap_small by (unfold is_uint; lia). lia.
  - assert (V < W) as Hlt.
    { unfold V, W. apply orb_false_iff in Hc as [Hc1%Z.ltb_ge Hc2].
      apply andb_false_iff in Hc2 as [Hc2%Z.eqb_neq|Hc2%Z.leb_gt]; lia. }
    rewrite (proj2 (Z.leb_gt W V)) by done. lia.
Qed.

(** The next smaller multiple. *)
Lemma division_shift d1 d0 W : 0 ≤ d1 < 2 ^ 64 → 0 ≤ d0 < 2 ^ 64 →
  d1 * 2 ^ 64 + d0 = 2 * W →
  let d0' := Z.lor (Z.shiftr d0 1) (u64 (Z.shiftl (Z.land d1 1) 63)) in
  let d1' := Z.shiftr d1 1 in
  0 ≤ d1' < 2 ^ 64 ∧ 0 ≤ d0' < 2 ^ 64 ∧ d1' * 2 ^ 64 + d0' = W.
Proof.
  intros Hd1 Hd0 E. simpl. assert (Z.land d1 1 = d1 mod 2) as -> by by apply (land_mask d1 1).
  rewrite !Z.shiftr_div_pow2, Z.shiftl_mul_pow2 by done.
  rewrite uwrap_small by (unfold is_uint; dlia).
  rewrite Z.lor_comm, lor_disjoint_add by (done || dlia). dlia.
Qed.

(** The rest of a round, when the multiple is not the divisor itself. *)
Lemma division_next T d a q v1 v0 e1 e0 j :
  0 ≤ v1 < 2 ^ 64 → 0 ≤ v0 < 2 ^ 64 → 0 ≤ e1 < 2 ^ 64 → 0 ≤ e0 < 2 ^ 64 →
  0 < d < 2 ^ 63 → 0 ≤ j →
  ¬ (e1 = 0 ∧ e0 = d) → e1 * 2 ^ 64 + e0 = d * 2 ^ j →
  v1 * 2 ^ 64 + v0 < d * 2 ^ j →
  T = (2 * a + q) * (d * 2 ^ j) + (v1 * 2 ^ 64 + v0) →
  let e0' := Z.lor (Z.shiftr e0 1) (u64 (Z.shiftl (Z.land e1 1) 63)) in
  let e1' := Z.shiftr e1 1 in
  0 ≤ j - 1 ∧ 0 ≤ v1 < 2 ^ 64 ∧ 0 ≤ v0 < 2 ^ 64 ∧ 0 ≤ e1' < 2 ^ 64 ∧ 0 ≤ e0' < 2 ^ 64 ∧
  e1' * 2 ^ 64 + e0' = d * 2 ^ (j - 1) ∧ v1 * 2 ^ 64 + v0 < 2 * (d * 2 ^ (j - 1)) ∧
  ∃ a, T = a * (d * 2 ^ (j - 1)) * 2 + (v1 * 2 ^ 64 + v0).
Proof.
  intros Hv1 Hv0 He1 He0 Hd Hj Hne EW HV ET.
  assert (j ≠ 0) by (intros ->; apply Hne; lia).
  assert (2 ^ j = 2 * 2 ^ (j - 1)) as Ep.
  { rewrite <-Z.pow_succ_r by lia. f_equal. lia. }
  assert (e1 * 2 ^ 64 + e0 = 2 * (d * 2 ^ (j - 1))) as EW' by lia.
  destruct (division_shift e1 e0 _ He1 He0 EW') as (? & ? & ?).
  split_and!; try lia. exists (2 * a + q). rewrite ET, Ep. lia.
Qed.

Lemma long_division_spec u1 u0 d1 d k : 0 ≤ u1 < 2 ^ 64 → 0 ≤ u0 < 2 ^ 64 →
  0 < d < 2 ^ 63 → 0 ≤ k ≤ 63 → d1 = d * 2 ^ k → d1 < 2 ^ 64 → u1 < 2 * d1 →
  wp (long_division u1 u0 d1 d) (λ '(q, r),
    r = (u1 * 2 ^ 64 + u0) mod d ∧ q = (u1 * 2 ^ 64 + u0) / d mod 2).
Proof.
  intros Hu1 Hu0 Hd Hk E Hd1 Hlt. unfold long_division.
  set (T := u1 * 2 ^ 64 + u0).
  apply (wp_loop_measure (λ '(u1, u0, d1, d0) j,
    0 ≤ j ∧ 0 ≤ u1 < 2 ^ 64 ∧ 0 ≤ u0 < 2 ^ 64 ∧ 0 ≤ d1 < 2 ^ 64 ∧ 0 ≤ d0 < 2 ^ 64 ∧
    d1 * 2 ^ 64 + d0 = d * 2 ^ j ∧ u1 * 2 ^ 64 + u0 < 2 * (d * 2 ^ j) ∧
    ∃ a, T = a * (d * 2 ^ j) * 2 + (u1 * 2 ^ 64 + u0)) _ _ _ (64 + k)).
  - rewrite Z.pow_add_r by lia. split_and!; try lia. exists 0. lia.
  - intros [[[]]]. naive_solver lia.
  - lia.
  - intros [[[v1 v0] e1] e0] j (Hj & Hv1 & Hv0 & He1 & He0 & EW & HV & (a & ET)).
    pose proof (division_round v1 v0 e1 e0 Hv1 Hv0 He1 He0) as Hround. cbv zeta in Hround.
    destruct (if (e1 <? v1) || _ then _ else _) as [[q v1'] v0'].
    destruct Hround as (Hv1' & Hv0' & EV & Hq). rewrite EW in EV, Hq.
    assert (0 < d * 2 ^ j) as HW by lia.
    assert (v1' * 2 ^ 64 + v0' < d * 2 ^ j ∧ 0 ≤ q ≤ 1) as [HV' Hq'] by (destruct (Z.leb_spec (d * 2 ^ j) (v1 * 2 ^ 64 + v0)); subst q; lia).
    rewrite (uwrap_small 64 d) by (unfold is_uint; lia).
    destruct ((e1 =? 0) && (e0 =? d)) eqn:Hend.
    + apply andb_true_iff in Hend as [->%Z.eqb_eq ->%Z.eqb_eq].
      apply wp_ret. assert (d * 2 ^ j = d) as Ej by lia. rewrite Ej in *.
      assert (T = (2 * a + q) * d + (v1' * 2 ^ 64 + v0')) as -> by lia.
      assert (v1' = 0) by lia. subst v1'.
      rewrite i64_small by lia. rewrite Z.add_comm, Z.mod_add, Z.div_add by lia.
      rewrite Z.mod_small, Z.div_small by lia. split; [lia|]. dlia.
    + apply wp_ret. exists (j - 1). split; [|lia].
      eapply (division_next T d a q); try done; [|lia].
      intros [-> ->]. by rewrite !Z.eqb_refl in Hend.
Qed.

Lemma land_1 x : Z.land x 1 = x mod 2.
Proof. apply (land_mask x 1). done. Qed.

Lemma div_abs_spec s n d : 0 ≤ s < 2 ^ 63 → 0 ≤ n < 1000000000 → 0 < d < 2 ^ 63 →
  wp (div_abs s n d) (λ '(q, r),
    r = (s * 1000000000 + n) mod d ∧ q = (s * 1000000000 + n) / d mod 2).
Proof.
  intros Hs Hn Hd. unfold div_abs. change Second with 1000000000.
  destruct ((d <? 1000000000) && (Z.rem 1000000000 (i64 (d + d)) =? 0)) eqn:Hc.
  - apply andb_true_iff in Hc as [Hlt%Z.ltb_lt Hrem%Z.eqb_eq].
    rewrite i64_small in Hrem by lia. apply Z.rem_divide in Hrem as [c Hc]; [|lia].
    apply wp_ret. rewrite (i32_small d) by lia. rewrite Z.quot_div_nonneg, Z.rem_mod_nonneg by lia.
    rewrite land_1.
    assert (s * 1000000000 + n = n + (s * c * 2) * d) as -> by (rewrite Hc; lia).
    rewrite Z.div_add, Z.mod_add by lia. rewrite Z.mod_add by lia. done.
  - clear Hc. destruct (Z.eqb_spec (Z.rem d 1000000000) 0) as [Hrem|Hrem].
    + apply Z.rem_divide in Hrem as [c Hc]; [|done].
      assert (0 < c < 2 ^ 34) as Hc' by lia. rewrite Hc, Z.quot_mul by done.
      apply wp_ret. rewrite Z.quot_div_nonneg, Z.rem_mod_nonneg, land_1 by lia.
      pose proof (Z.div_mod s c ltac:(lia)) as E. pose proof (Z.mod_pos_bound s c ltac:(lia)) as Hr.
      revert E Hr. generalize (s / c) (s mod c). intros q r E Hr. unwrap.
      assert (s * 1000000000 + n = (r * 1000000000 + n) + q * (c * 1000000000)) as -> by lia.
      rewrite Z.div_add, Z.mod_add by lia. rewrite Z.mod_small, Z.div_small by lia. done.
    + rewrite (uwrap_small 64 s) by (unfold is_uint; lia).
      pose proof (nanoseconds_spec s n ltac:(lia) Hn) as Hns.
      destruct (nanoseconds s n) as [u1 u0]. destruct Hns as (<- & Hu1 & Hu0).
      apply wp_bind. eapply wp_mono; [by apply top_multiple_spec|].
      intros d1 [Hd1 (k & Hk & ->)]. by apply (long_division_spec u1 u0 _ d k); lia.
Qed.

Lemma div_neg A d : 0 < d →
  (- A) mod d = (if negb (A mod d =? 0) then d - A mod d else A mod d) ∧
  (- A) / d mod 2 = (if negb (A mod d =? 0) then Z.lxor (A / d mod 2) 1 else A / d mod 2).
Proof.
  intros Hd. destruct (Z.eqb_spec (A mod d) 0) as [E|E]; simpl.
  - rewrite Z.mod_opp_l_z, Z.div_opp_l_z by lia. split; [lia|].
    generalize (A / d). intros q. dlia.
  - rewrite Z.mod_opp_l_nz, Z.div_opp_l_nz by lia. split; [done|].
    generalize (A / d). intros q. assert (q mod 2 = 0 ∨ q mod 2 = 1) as [E2|E2] by dlia;
      rewrite E2; [change (Z.lxor 0 1) with 1|change (Z.lxor 1 1) with 0]; dlia.
Qed.

Lemma div_spec t d : wf t → - 2 ^ 63 < sec t → 0 < d < 2 ^ 63 →
  wp (div t d) (λ '(q, r), r = instant t mod d ∧ q = instant t / d mod 2).
Proof.
  intros Hw Hs Hd. pose proof (wf_sec t Hw) as Hsec. pose proof (wf_nsec t Hw) as Hn.
  unfold div, instant. destruct (Z.ltb_spec (sec t) 0) as [Hneg|Hpos].
  - set (A := - (sec t * 1000000000 + nsec t)).
    assert (∃ s n, 0 ≤ s < 2 ^ 63 ∧ 0 ≤ n < 1000000000 ∧ s * 1000000000 + n = A ∧
      (if i32 (- nsec t) <? 0 then (true, i32 (i32 (- nsec t) + 1000000000), i64 (i64 (- sec t) - 1))
       else (true, i32 (- nsec t), i64 (- sec t))) = (true, n, s)) as (s & n & Hs' & Hn' & EA & ->).
    { unwrap. destruct (Z.ltb_spec (- nsec t) 0); eexists _, _;
        (split_and!; [..|f_equal]); try reflexivity; unfold A; lia. }
    apply wp_bind. eapply wp_mono; [by apply div_abs_spec|]. intros [q r] [-> ->].
    rewrite EA. apply wp_ret. replace (sec t * 1000000000 + nsec t) with (- A) by (unfold A; lia).
    destruct (div_neg A d ltac:(lia)) as [-> ->]. cbn [andb].
    pose proof (Z.mod_pos_bound A d ltac:(lia)).
    destruct (negb (A mod d =? 0)); [|done]. unwrap. done.
  - apply wp_bind. eapply wp_mono; [apply div_abs_spec; lia|]. intros [q r] [-> ->].
    apply wp_ret. done.
Qed.

(** ** Rounding *)

(** The multiple of [d] nearest to [x], halfway cases up. *)
Definition nearest (x d : Z) : Z := d * ((2 * x + d) / (2 * d)).

Lemma lessThanHalf_spec r d : 0 ≤ r < d → d < 2 ^ 63 → lessThanHalf r d = (2 * r <? d).
Proof.
  intros Hr Hd. unfold lessThanHalf. unwrap.
  replace (r + r) with (2 * r) by lia. done.
Qed.

Lemma nearest_down x d : 0 < d → 2 * (x mod d) < d → nearest x d = x - x mod d.
Proof.
  intros Hd Hr. unfold nearest. pose proof (Z.div_mod x d ltac:(lia)) as E.
  pose proof (Z.mod_pos_bound x d Hd) as Hb. revert E Hr Hb. generalize (x / d) (x mod d).
  intros q r -> Hr Hb. replace (2 * (d * q + r) + d) with (2 * r + d + q * (2 * d)) by lia.
  rewrite Z.div_add, Z.div_small by lia. lia.
Qed.

Lemma nearest_up x d : 0 < d → d ≤ 2 * (x mod d) → nearest x d = x + (d - x mod d).
Proof.
  intros Hd Hr. unfold nearest. pose proof (Z.div_mod x d ltac:(lia)) as E.
  pose proof (Z.mod_pos_bound x d Hd) as Hb. revert E Hr Hb. generalize (x / d) (x mod d).
  intros q r -> Hr Hb.
  replace (2 * (d * q + r) + d) with (2 * r - d + (q + 1) * (2 * d)) by lia.
  rewrite Z.div_add, Z.div_small by lia. lia.
Qed.

(** An instant that a time can hold. *)
Definition representable (x : Z) : Prop := - 2 ^ 63 ≤ x / 1000000000 < 2 ^ 63.

Lemma instant_div t x : wf t →
  (instant t + x) / 1000000000 = sec t + (nsec t + x) / 1000000000.
Proof.
  intros Hw. unfold instant.
  replace (sec t * 1000000000 + nsec t + x) with (nsec t + x + sec t * 1000000000) by lia.
  rewrite Z.div_add by done. lia.
Qed.

(** [Add] behind [stripMono]: what both end with. *)
Lemma strip_Add t x : wf t → is_sint 64 x → representable (instant t + x) →
  let t' := Add (stripMono t) x in
  wf t' ∧ monotonic t' = false ∧ loc t' = loc t ∧ instant t' = instant t + x.
Proof.
  intros Hw Hx Hr t'. destruct (stripMono_spec t Hw) as (Hw1 & Hm1 & Hs1 & Hn1 & Hl1).
  pose proof (Add_spec _ x Hw1 Hx) as Ha. fold t' in Ha.
  assert (instant (stripMono t) = instant t) as Ei by (unfold instant; congruence).
  unfold representable in Hr. rewrite <-Ei, instant_div in Hr by done.
  split_and!; [apply Ha| |rewrite (ad_loc _ _ _ Ha); done|].
  - destruct (monotonic t') eqn:Hm; [|done]. destruct (ad_mono _ _ _ Ha Hm). congruence.
  - rewrite <-Ei. by apply added_instant.
Qed.

Lemma Truncate_spec t d : wf t → - 2 ^ 63 < sec t → 0 < d < 2 ^ 63 →
  representable (instant t - instant t mod d) →
  wp (Truncate t d) (λ t', wf t' ∧ monotonic t' = false ∧ loc t' = loc t ∧
    instant t' = instant t - instant t mod d).
Proof.
  intros Hw Hs Hd Hr. unfold Truncate. ztests.
  destruct (stripMono_spec t Hw) as (Hw1 & Hm1 & Hs1 & Hn1 & Hl1).
  assert (instant (stripMono t) = instant t) as Ei by (unfold instant; congruence).
  apply wp_bind. eapply wp_mono; [apply div_spec; [done|lia|done]|].
  intros [q r] [-> _]. rewrite Ei. pose proof (Z.mod_pos_bound (instant t) d ltac:(lia)).
  rewrite i64_small by lia. apply strip_Add; [done|apply sint64; lia|done].
Qed.

Lemma Round_spec t d : wf t → - 2 ^ 63 < sec t → 0 < d < 2 ^ 63 →
  representable (nearest (instant t) d) →
  wp (Round t d) (λ t', wf t' ∧ monotonic t' = false ∧ loc t' = loc t ∧
    instant t' = nearest (instant t) d).
Proof.
  intros Hw Hs Hd Hr. unfold Round. ztests.
  destruct (stripMono_spec t Hw) as (Hw1 & Hm1 & Hs1 & Hn1 & Hl1).
  assert (instant (stripMono t) = instant t) as Ei by (unfold instant; congruence).
  apply wp_bind. eapply wp_mono; [apply div_spec; [done|lia|done]|].
  intros [q r] [-> _]. rewrite Ei. pose proof (Z.mod_pos_bound (instant t) d ltac:(lia)).
  rewrite lessThanHalf_spec by lia. apply wp_ret.
  destruct (Z.ltb_spec (2 * (instant t mod d)) d).
  - rewrite nearest_down in * by lia. rewrite i64_small by lia.
    apply strip_Add; [done|apply sint64; lia|done].
  - rewrite nearest_up in * by lia. rewrite i64_small by lia.
    apply strip_Add; [done|apply sint64; lia|done].
Qed.

(** ** Rounding of durations *)

Lemma Duration_Truncate_spec d m : is_sint 64 d → is_sint 64 m → 0 < m →
  Duration.Truncate d m = m * Z.quot d m.
Proof.
  rewrite !sint64. intros Hd Hm Hpos. unfold Duration.Truncate. ztests.
  pose proof (Z.quot_rem d m ltac:(lia)). pose proof (Z.rem_bound_abs d m ltac:(lia)).
  destruct (Z.le_gt_cases 0 d).
  - pose proof (Z.rem_nonneg d m ltac:(lia) ltac:(lia)). pose proof (Z.rem_le d m).
    rewrite i64_small; lia.
  - pose proof (Z.rem_nonpos d m ltac:(lia) ltac:(lia)).
    assert (- m < Z.rem d m) by lia. rewrite i64_small; [lia|].
    pose proof (Z.quot_opp_l d m ltac:(lia)).
    pose proof (Z.quot_pos (- d) m ltac:(lia) ltac:(lia)). nia.
Qed.

(** The nearest multiple, halfway cases away from zero, in the range. *)
Definition nearest_abs (d m : Z) : Z := Z.sgn d * nearest (Z.abs d) m.

Lemma Round_neg d m : - 9223372036854775808 ≤ d < 0 → 0 < m < 9223372036854775808 →
  Duration.Round d m = Z.max minDuration (- nearest (- d) m).
Proof.
  intros Hd Hm. unfold Duration.Round, minDuration. pow2_consts. ztests.
  assert (Z.rem d m = - (- d mod m)) as ->.
  { rewrite <-Z.rem_mod_nonneg by lia. rewrite Z.rem_opp_l by lia. lia. }
  pose proof (Z.mod_pos_bound (- d) m ltac:(lia)) as Hb.
  pose proof (Z.mod_le (- d) m ltac:(lia) ltac:(lia)) as Hle.
  rewrite (i64_small (- - _)) by lia. rewrite Z.opp_involutive.
  rewrite lessThanHalf_spec by lia.
  destruct (Z.ltb_spec (2 * (- d mod m)) m) as [Hh|Hh].
  { rewrite nearest_down by lia. rewrite i64_small by lia. lia. }
  rewrite nearest_up by lia. set (r := - d mod m) in *. clearbody r.
  destruct (i64_mod (d - m)) as [k ->].
  rewrite (i64_cong _ (d - m + r) k) by lia. rewrite i64_eq.
  destruct (Z.ltb_spec (d - m + r) (- 9223372036854775808)).
  - replace ((d - m + r + 9223372036854775808) mod 18446744073709551616)
      with (d - m + r + 9223372036854775808 + 18446744073709551616) by dlia. zcases; lia.
  - rewrite Z.mod_small by lia. zcases; lia.
Qed.

Lemma Round_nonneg d m : 0 ≤ d < 9223372036854775808 → 0 < m < 9223372036854775808 →
  Duration.Round d m = Z.min maxDuration (nearest d m).
Proof.
  intros Hd Hm. unfold Duration.Round, maxDuration. pow2_consts. ztests.
  rewrite Z.rem_mod_nonneg by lia.
  pose proof (Z.mod_pos_bound d m ltac:(lia)) as Hb.
  pose proof (Z.mod_le d m ltac:(lia) ltac:(lia)) as Hle.
  rewrite lessThanHalf_spec by lia.
  destruct (Z.ltb_spec (2 * (d mod m)) m) as [Hh|Hh].
  { rewrite nearest_down by lia. rewrite i64_small by lia. lia. }
  rewrite nearest_up by lia. set (r := d mod m) in *. clearbody r.
  destruct (i64_mod (d + m)) as [k ->].
  rewrite (i64_cong _ (d + m - r) k) by lia. rewrite i64_eq.
  destruct (Z.leb_spec 9223372036854775808 (d + m - r)).
  - replace ((d + m - r + 9223372036854775808) mod 18446744073709551616)
      with (d + m - r + 9223372036854775808 - 18446744073709551616) by dlia. zcases; lia.
  - rewrite Z.mod_small by lia. zcases; lia.
Qed.

Lemma nearest_nonneg x d : 0 ≤ x → 0 < d → 0 ≤ nearest x d.
Proof.
  intros Hx Hd. unfold nearest. pose proof (Z.div_pos (2 * x + d) (2 * d) ltac:(lia) ltac:(lia)). nia.
Qed.

Lemma nearest_0 d : 0 < d → nearest 0 d = 0.
Proof. intros Hd. unfold nearest. rewrite Z.div_small by lia. lia. Qed.

Lemma Duration_Round_spec d m : is_sint 64 d → is_sint 64 m → 0 < m →
  Duration.Round d m = clamp_duration (nearest_abs d m).
Proof.
  rewrite !sint64. intros Hd Hm Hpos. unfold nearest_abs, clamp_duration.
  pose proof (nearest_nonneg (Z.abs d) m ltac:(lia) Hpos) as Hn.
  destruct (Z.lt_trichotomy d 0) as [Hlt|[->|Hgt]].
  - rewrite Round_neg, Z.abs_neq, Z.sgn_neg by lia. rewrite Z.abs_neq in Hn by lia.
    unfold minDuration, maxDuration. lia.
  - rewrite Round_nonneg, nearest_0 by lia. done.
  - rewrite Round_nonneg, Z.abs_eq, Z.sgn_pos by lia. rewrite Z.abs_eq in Hn by lia.
    unfold minDuration, maxDuration. lia.
Qed.

Lemma Abs_spec d : is_sint 64 d → Abs d = Z.min maxDuration (Z.abs d).
Proof.
  rewrite sint64. intros Hd. unfold Abs, maxDuration, minDuration. pow2_consts.
  destruct (Z.leb_spec 0 d); [lia|]. destruct (Z.eqb_spec d (Z.opp 9223372036854775808)); [lia|].
  rewrite i64_small; lia.
Qed.
