(* ===== verification/TimeDate.v ===== *)
(** * time: dates and clock readings of instants

    [Date] and its inverse, the presentation of a time in a location. *)

From Stdlib Require Import String.
From stdpp Require Import base.
From S2P Require Import Prelude Bits Bytealg Calendar CalendarProofs Zone ZoneProofs Duration DurationProofs Time TimeProofs TimeRound.

(** * The monotonic reading and Unix times *)

(** ** The monotonic reading *)

(** The seconds that the wall word can hold. *)
Definition wall_secs (s : Z) : Prop := minWall ≤ s ≤ maxWall.

Lemma mono_word s n : 0 ≤ s < 2 ^ 33 → 0 ≤ n < 1000000000 →
  Z.lor n (Z.lor hasMonotonic (u64 (Z.shiftl (u64 (i64 s)) nsecShift))) = 2 ^ 63 + s * 2 ^ 30 + n.
Proof.
  intros Hs Hn. rewrite (i64_small s) by lia. rewrite (uwrap_small 64 s) by (unfold is_uint; lia).
  change nsecShift with 30. rewrite Z.shiftl_mul_pow2, uwrap_small by (unfold is_uint; lia).
  change hasMonotonic with (1 * 2 ^ 63).
  rewrite (Z.lor_comm (1 * 2 ^ 63)), (Z.lor_comm (_ * 2 ^ 30)), lor_disjoint_add by lia.
  rewrite Z.lor_comm. replace (1 * 2 ^ 63 + s * 2 ^ 30) with ((2 ^ 33 + s) * 2 ^ 30) by lia.
  rewrite lor_disjoint_add by lia. lia.
Qed.

Lemma setMono_spec t m : wf t → is_sint 64 m →
  wf (setMono t m) ∧ instant (setMono t m) = instant t ∧ loc (setMono t m) = loc t ∧
  (wall_secs (sec t) → monotonic (setMono t m) = true ∧ mono (setMono t m) = m) ∧
  (¬ wall_secs (sec t) → setMono t m = t).
Proof.
  intros Hw Hm. pose proof (wf_nsec t Hw) as Hn.
  assert (0 ≤ wallToInternal < 2 ^ 40) as HW by done. unfold setMono, wall_secs, mono, instant.
  change minWall with wallToInternal. change maxWall with (wallToInternal + (2 ^ 33 - 1)).
  destruct (wf_cases t Hw) as [[Ht E]|[Ht (s & Hs & Es & _ & E)]]; rewrite Ht; cbn [negb].
  - assert (wall t = nsec t) as Ewall by by rewrite E at 1.
    assert (ext t = sec t) as Eext by by rewrite E at 1.
    rewrite Eext, Ewall.
    destruct ((sec t <? wallToInternal) || (wallToInternal + (2 ^ 33 - 1) <? sec t)) eqn:Hr.
    { apply orb_true_iff in Hr. rewrite !Z.ltb_lt in Hr. rewrite Ht. cbn [negb].
      split_and!; [done..| |done]. lia. }
    apply orb_false_iff in Hr as [H1%Z.ltb_ge H2%Z.ltb_ge].
    rewrite mono_word by lia.
    destruct (mono_time (sec t - wallToInternal) (nsec t) m (loc t)) as (Hw' & Hm' & Hs' & Hn');
      [lia|done|done|].
    rewrite Hm', Hs', Hn'. cbn [negb ext loc]. split_and!; [done|lia|done|done|lia].
  - destruct (mono_time s (nsec t) m (loc t)) as (Hw' & Hm' & Hs' & Hn'); [lia|done|done|].
    assert (set_ext t m = MkTime (2 ^ 63 + s * 2 ^ 30 + nsec t) m (loc t)) as -> by by rewrite E at 1.
    rewrite Hm', Hs', Hn', Es. cbn [negb ext loc]. split_and!; [done..|lia].
Qed.

(** ** Unix times *)

(** The nanoseconds since 1970. *)
Definition unix_nano (t : Time) : Z := instant t - unixToInternal * 1000000000.

Lemma unixSec_mod t : ∃ k, unixSec t = sec t - unixToInternal + k * 18446744073709551616.
Proof. unfold unixSec. change internalToUnix with (- unixToInternal). apply i64_mod. Qed.

(** The unit has [c] to the second, of [q] nanoseconds each. *)
Lemma unix_units t c q : wf t → 0 < q → c * q = 1000000000 →
  i64 (i64 (unixSec t * c) + Z.quot (nsec t) q) = i64 (unix_nano t / q).
Proof.
  intros Hw Hq Hc. pose proof (wf_nsec t Hw) as Hn. destruct (unixSec_mod t) as [k ->].
  destruct (i64_mod ((sec t - unixToInternal + k * 18446744073709551616) * c)) as [k1 ->].
  rewrite Z.quot_div_nonneg by lia. apply (i64_cong _ _ (k * c + k1)). unfold unix_nano, instant.
  replace (sec t * 1000000000 + nsec t - unixToInternal * 1000000000)
    with ((sec t - unixToInternal) * c * q + nsec t) by (rewrite <-Hc; lia).
  rewrite Z.div_add_l by lia. lia.
Qed.

Lemma unix_fields t : wf t →
  Unix t = i64 (unix_nano t / 1000000000) ∧ UnixMilli t = i64 (unix_nano t / 1000000) ∧
  UnixMicro t = i64 (unix_nano t / 1000) ∧ UnixNano t = i64 (unix_nano t).
Proof.
  intros Hw. unfold UnixMilli, UnixMicro, UnixNano, Unix. split_and!.
  - destruct (unixSec_mod t) as [k Hk]. pose proof (wf_nsec t Hw) as Hn.
    rewrite <-(i64_small (unixSec t)) by (rewrite <-sint64; by apply swrap_range).
    apply (i64_cong _ _ k). rewrite Hk. unfold unix_nano, instant.
    replace (sec t * 1000000000 + nsec t - unixToInternal * 1000000000)
      with ((sec t - unixToInternal) * 1000000000 + nsec t) by lia.
    rewrite Z.div_add_l, Z.div_small by lia. lia.
  - by rewrite (unix_units t 1000 1000000).
  - by rewrite (unix_units t 1000000 1000).
  - rewrite <-(Z.div_1_r (unix_nano t)), <-(unix_units t 1000000000 1) by done. by rewrite Z.quot_1_r.
Qed.

Lemma Unix_time_spec s n : is_sint 64 s → is_sint 64 n →
  Unix_time s n = unixTime (i64 (s + n / 1000000000)) (n mod 1000000000).
Proof.
  rewrite !sint64. intros Hs Hn. unfold Unix_time.
  destruct ((n <? 0) || (1000000000 <=? n)) eqn:Hc.
  - pose proof (Z.quot_rem' n 1000000000) as E. 
    pose proof (Z.rem_bound_abs n 1000000000 ltac:(lia)) as Hr.
    assert (0 ≤ n ∧ 0 ≤ Z.rem n 1000000000 ∨ n < 0 ∧ Z.rem n 1000000000 ≤ 0) as Hsg.
    { destruct (Z.le_gt_cases 0 n); [left; split; [done|by apply Z.rem_nonneg]|].
      right. split; [lia|]. apply Z.rem_nonpos; lia. }
    set (q := Z.quot n 1000000000) in *. set (r := Z.rem n 1000000000) in *. clearbody q r.
    rewrite (i64_small (q * 1000000000)) by lia. replace (n - q * 1000000000) with r by lia. rewrite (i64_small r) by lia.
    destruct (Z.ltb_spec r 0) as [Hneg|Hpos].
    + assert (n / 1000000000 = q - 1 ∧ n mod 1000000000 = r + 1000000000) as [-> ->] by dlia.
      rewrite (i64_small (r + _)), i32_small by lia. f_equal.
      destruct (i64_mod (s + q)) as [k ->]. apply (i64_cong _ _ k). lia.
    + assert (n / 1000000000 = q ∧ n mod 1000000000 = r) as [-> ->] by dlia.
      by rewrite i32_small by lia.
  - apply orb_false_iff in Hc as [H1%Z.ltb_ge H2%Z.leb_gt].
    rewrite Z.div_small, Z.mod_small, Z.add_0_r, i64_small, i32_small by lia. done.
Qed.

Lemma Unix_time_nano s n : is_sint 64 s → is_sint 64 n →
  let t := Unix_time s n in
  wf t ∧ monotonic t = false ∧ nsec t = n mod 1000000000 ∧ loc t = Some LocalLoc ∧
  ∃ k, unix_nano t = s * 1000000000 + n + k * 1000000000 * 18446744073709551616.
Proof.
  intros Hs Hn t. unfold t. rewrite Unix_time_spec by done. clear t.
  pose proof (Z.mod_pos_bound n 1000000000 ltac:(done)) as Hm.
  unfold unixTime. rewrite uwrap_small by (unfold is_uint; lia).
  destruct (plain_time (n mod 1000000000) (i64 (i64 (s + n / 1000000000) + unixToInternal))
    (Some LocalLoc) Hm) as (Hw & Hmo & Hsec & Hns); [by apply swrap_range|].
  split_and!; [done..|]. unfold unix_nano, instant. rewrite Hsec, Hns.
  destruct (i64_mod (s + n / 1000000000)) as [k ->].
  destruct (i64_mod (s + n / 1000000000 + k * 18446744073709551616 + unixToInternal)) as [k1 ->].
  exists (k + k1). pose proof (Z.div_mod n 1000000000 ltac:(done)). lia.
Qed.

(** Counting in a unit of [q] nanoseconds, [c] of which make a second. *)
Lemma unix_unit_roundtrip x c q : is_sint 64 x → 0 < q → 0 < c → c * q = 1000000000 →
  let t := Unix_time (Z.quot x c) (i64 (Z.rem x c * q)) in
  wf t ∧ i64 (unix_nano t / q) = x.
Proof.
  intros Hx Hq Hc Hcq. rewrite sint64 in Hx. pose proof (Z.quot_rem' x c) as E.
  pose proof (Z.rem_bound_abs x c ltac:(lia)) as Hr.
  assert (- 9223372036854775808 ≤ Z.quot x c < 9223372036854775808) as Hs.
  { assert (1 ≤ c) by lia. destruct (Z.le_gt_cases 0 x).
    - pose proof (Z.quot_pos x c ltac:(lia) ltac:(lia)). pose proof (Z.quot_le_upper_bound x c x). nia.
    - pose proof (Z.quot_opp_l x c ltac:(lia)). pose proof (Z.quot_pos (- x) c ltac:(lia) ltac:(lia)).
      pose proof (Z.quot_le_upper_bound (- x) c (- x)). nia. }
  assert (- 1000000000 < Z.rem x c * q < 1000000000) as Hn by nia.
  rewrite (i64_small (_ * q)) by lia.
  destruct (Unix_time_nano (Z.quot x c) (Z.rem x c * q)) as (Hw & _ & _ & _ & k & Hk);
    [apply sint64; lia..|]. split; [done|]. rewrite Hk.
  clear Hk Hw Hs Hn Hr. revert E. generalize (Z.quot x c) (Z.rem x c). intros a r E.
  replace (a * 1000000000 + r * q + k * 1000000000 * 18446744073709551616)
    with ((x + k * c * 18446744073709551616) * q) by (rewrite <-Hcq, E; lia).
  rewrite Z.div_mul by lia. rewrite (i64_cong _ x (k * c)) by lia. by apply i64_small.
Qed.

Lemma Unix_roundtrips x n : is_sint 64 x → is_sint 64 n →
  Unix (Unix_time x n) = i64 (x + n / 1000000000) ∧ nsec (Unix_time x n) = n mod 1000000000 ∧
  UnixMilli (UnixMilli_time x) = x ∧ UnixMicro (UnixMicro_time x) = x ∧
  UnixNano (Unix_time 0 x) = x.
Proof.
  intros Hx Hn. split_and!.
  - destruct (Unix_time_nano x n Hx Hn) as (Hw & _ & _ & _ & k & Hk).
    rewrite (proj1 (unix_fields _ Hw)), Hk. apply (i64_cong _ _ k).
    replace (x * 1000000000 + n + k * 1000000000 * 18446744073709551616)
      with ((x + k * 18446744073709551616) * 1000000000 + n) by lia.
    rewrite Z.div_add_l by lia. lia.
  - apply (Unix_time_nano x n Hx Hn).
  - destruct (unix_unit_roundtrip x 1000 1000000) as [Hw Hr]; [done..|].
    destruct (unix_fields _ Hw) as (_ & E & _). unfold UnixMilli_time. by rewrite E.
  - destruct (unix_unit_roundtrip x 1000000 1000) as [Hw Hr]; [done..|].
    destruct (unix_fields _ Hw) as (_ & _ & E & _). unfold UnixMicro_time. by rewrite E.
  - destruct (Unix_time_nano 0 x) as (Hw & _ & _ & _ & k & Hk); [done..|].
    destruct (unix_fields _ Hw) as (_ & _ & _ & E). rewrite E, Hk.
    rewrite (i64_cong _ x (k * 1000000000)) by lia. by apply i64_small, sint64.
Qed.

(** * Dates and clock readings of instants *)

(** ** Normalization *)

(** The seconds since 1970 of a date and a clock reading, in or out of the usual
    ranges. *)
Definition civil_unix (year month day hour min sec nsec : Z) : Z :=
  86400 * (rata (year + (month - 1) / 12) ((month - 1) mod 12 + 1) 1 - unix_day + day - 1)
  + 3600 * hour + 60 * min + sec + nsec / 1000000000.

(** The arguments that the conversion is exact for. *)
Definition usual (x : Z) : Prop := - 2 ^ 34 ≤ x ≤ 2 ^ 34.

Lemma rata_first_range y m : - 2 ^ 35 ≤ y ≤ 2 ^ 35 → 1 ≤ m ≤ 12 →
  0 ≤ y - jan_feb m + absoluteYears < 2 ^ 53 ∧ 0 ≤ rata y m 1 < 2 ^ 47 ∧
  - 2 ^ 44 ≤ rata y m 1 - unix_day ≤ 2 ^ 44.
Proof.
  intros Hy Hm. unfold rata, year_start, month_start, unix_day, absoluteYears.
  assert (0 ≤ jan_feb m ≤ 1 ∧ 3 ≤ m + 12 * jan_feb m ≤ 14) as [Hj Hmo]
    by (unfold jan_feb; destruct (Z.ltb_spec m 3); lia).
  split; [lia|]. revert Hmo. generalize (m + 12 * jan_feb m). intros mo Hmo.
  assert (- 2 ^ 35 - 1 ≤ y - jan_feb m ≤ 2 ^ 35) as HY by lia.
  revert HY. generalize (y - jan_feb m). intros Y HY. clear Hy Hj Hm. dlia.
Qed.

(** The sum of the code, modulo the wrap-around of its parts. *)
Lemma unix_sum a b c : is_sint 64 (a * 86400 + b + c) →
  i64 (i64 (i64 (i64 a * 86400) + i64 b) + c) = a * 86400 + b + c.
Proof.
  intros Hr. rewrite sint64 in Hr.
  destruct (i64_mod a) as [k ->]. destruct (i64_mod b) as [k1 ->].
  destruct (i64_mod ((a + k * 18446744073709551616) * 86400)) as [k2 ->].
  destruct (i64_mod ((a + k * 18446744073709551616) * 86400 + k2 * 18446744073709551616
                     + (b + k1 * 18446744073709551616))) as [k3 ->].
  rewrite (i64_cong _ (a * 86400 + b + c) (k * 86400 + k2 + k1 + k3)) by lia.
  by apply i64_small.
Qed.

(** One carry: the sum is kept. *)
Lemma carry hi lo base : 2 ≤ base ≤ 2 ^ 30 → - 2 ^ 40 ≤ hi ≤ 2 ^ 40 → - 2 ^ 40 ≤ lo ≤ 2 ^ 40 →
  ∃ hi' lo', norm hi lo base = (hi', lo') ∧ hi' * base + lo' = hi * base + lo ∧
    0 ≤ lo' < base ∧ hi' = hi + lo / base ∧ lo' = lo mod base ∧ - 2 ^ 40 ≤ lo / base ≤ 2 ^ 40.
Proof.
  intros Hb Hhi Hlo. rewrite norm_spec by lia. eexists _, _. split; [done|].
  pose proof (Z.div_mod lo base ltac:(lia)) as E. pose proof (Z.mod_pos_bound lo base ltac:(lia)).
  split; [lia|]. split; [done|]. split; [done|]. split; [done|].
  revert E. generalize (lo / base). intros q E. nia.
Qed.

Lemma Date_unix_spec year month day hour min sec nsec :
  usual year → usual month → usual day → usual hour → usual min → usual sec → usual nsec →
  Date_unix year month day hour min sec nsec =
    (civil_unix year month day hour min sec nsec, nsec mod 1000000000) ∧
  - 2 ^ 61 ≤ civil_unix year month day hour min sec nsec ≤ 2 ^ 61.
Proof.
  unfold usual. intros Hy Hmo Hd Hh Hmi Hs Hn. unfold Date_unix, civil_unix.
  rewrite (i64_small (month - 1)) by lia. rewrite (norm_spec year) by lia.
  assert (0 ≤ (month - 1) mod 12 < 12 ∧ - 2 ^ 35 ≤ year + (month - 1) / 12 ≤ 2 ^ 35) as [Hm Hyr] by dlia.
  rewrite (i64_small (_ mod 12 + 1)) by lia.
  revert Hm Hyr. generalize (year + (month - 1) / 12) ((month - 1) mod 12). clear Hy Hmo.
  intros y m Hm Hy.
  destruct (carry sec nsec 1000000000) as (sec1 & ns & -> & _ & _ & Esec & -> & _); [lia..|].
  assert (- 2 ^ 35 ≤ sec1 ≤ 2 ^ 35) as Hs1 by (rewrite Esec; dlia).
  rewrite <-(Z.add_assoc _ sec), <-Esec. clear Esec.
  destruct (carry min sec1 60) as (min1 & sec2 & -> & E1 & B1 & _); [lia..|].
  destruct (carry hour min1 60) as (hour1 & min2 & -> & E2 & B2 & _); [lia..|].
  destruct (carry day hour1 24) as (day1 & hour2 & -> & E3 & B3 & _); [lia..|].
  destruct (rata_first_range y (m + 1) ltac:(lia) ltac:(lia)) as (HY & Hra & Hru).
  rewrite dateToAbsDays_rata by (done || lia). rewrite rata_day.
  assert (2 ^ 45 ≤ rata y (m + 1) 1) as Hbig by (unfold unix_day in Hru; lia).
  rewrite uwrap_small by (unfold is_uint; lia).
  change secondsPerHour with 3600. change secondsPerMinute with 60. change secondsPerDay with 86400.
  change absoluteToUnix with (- (86400 * unix_day)).
  assert (i64 (i64 (i64 (hour2 * 3600) + i64 (min2 * 60)) + sec2) = hour2 * 3600 + min2 * 60 + sec2) as ->
    by (unwrap; done).
  rewrite <-(i64_small (hour2 * 3600 + min2 * 60 + sec2)) by lia.
  rewrite unix_sum by (apply sint64; lia). split; [f_equal|]; lia.
Qed.

(** ** The time that [Date] makes *)

(** [Unix] undoes [unixTime], and a shift of the seconds goes through it. *)
Lemma unixTime_spec u n : is_sint 64 u → 0 ≤ n < 1000000000 →
  wf (unixTime u n) ∧ Unix (unixTime u n) = u ∧ nsec (unixTime u n) = n ∧
  monotonic (unixTime u n) = false.
Proof.
  intros Hu Hn. unfold unixTime. rewrite (uwrap_small 64 n) by (unfold is_uint; lia).
  destruct (plain_time n (i64 (u + unixToInternal)) (Some LocalLoc) Hn) as (Hw & Hm & Hs & Hns);
    [by apply swrap_range|].
  split_and!; [done| |done|done]. unfold Unix, unixSec. rewrite Hs.
  destruct (i64_mod (u + unixToInternal)) as [k ->]. change internalToUnix with (- unixToInternal).
  rewrite (i64_cong _ u k) by lia. apply i64_small. by apply sint64.
Qed.

Lemma setLoc_spec t l : wf t →
  wf (setLoc t l) ∧ sec (setLoc t l) = sec t ∧ nsec (setLoc t l) = nsec t ∧
  monotonic (setLoc t l) = false ∧
  loc (setLoc t l) = match l with Some UtcLoc => None | _ => l end.
Proof.
  intros Hw. unfold setLoc. rewrite stripMono_eq by done. simpl.
  destruct (plain_time (nsec t) (sec t) (match l with Some UtcLoc => None | _ => l end)
    (wf_nsec t Hw)) as (? & ? & ? & ?); [apply sint64; by apply wf_sec|]. done.
Qed.

(** The offset that a location has at an instant. *)
Definition offset_at (l : Location) (u off : Z) : Prop :=
  ∃ nm start end_ dst, lookup l u = Ok (nm, off, start, end_, dst).

Lemma get_setLoc ll l : get ll (match l with Some UtcLoc => None | _ => l end) = get ll l.
Proof. by destruct l as [[]|]. Qed.

(** The second of the presentation, which all accessors show: [U] seconds since
    1970 on the clock of the location. *)
Lemma absSec_shift U x k : - 2 ^ 61 ≤ U ≤ 2 ^ 61 → x = U + k * 18446744073709551616 →
  u64 (i64 (x + (unixToInternal + internalToAbsolute))) = U + 86400 * unix_day.
Proof.
  intros HU ->. change (unixToInternal + internalToAbsolute) with (86400 * unix_day).
  rewrite u64_i64. unfold unix_day, uwrap. dlia.
Qed.

(** A location without zones has nothing cached. *)
Definition cache_ok (l : Location) : Prop := zones l = [] → cacheZone l = None.

Lemma absSec_spec ll t off U : cache_ok (get ll (loc t)) →
  offset_at (get ll (loc t)) (Unix t) off → Unix t = i64 (U - off) → - 2 ^ 61 ≤ U ≤ 2 ^ 61 →
  absSec ll t = Ok (U + 86400 * unix_day).
Proof.
  intros Hc (nm & st & en & dst & Hl) HU Hr. unfold absSec. fold (Unix t).
  destruct (i64_mod (U - off)) as [k Hk]. rewrite <-HU in Hk.
  destruct (is_utc (loc t)) eqn:Hutc; simpl.
  { assert (get ll (loc t) = utcLoc) as Eg by by destruct (loc t) as [[]|].
    rewrite Eg in Hl. injection Hl as <- <- <- <- <-. f_equal. apply (absSec_shift U _ k); lia. }
  destruct (cached (get ll (loc t)) (Unix t)) as [z|] eqn:Ec.
  - assert (len (zones (get ll (loc t))) ≠ 0) as Hz.
    { intros Hz%len_0_nil%Hc. unfold cached in Ec. by rewrite Hz in Ec. }
    unfold lookup in Hl. rewrite (proj2 (Z.eqb_neq _ _)), Ec in Hl by done.
    injection Hl as <- <- <- <- <-. simpl. destruct (i64_mod (Unix t + offset z)) as [k1 ->].
    f_equal. apply (absSec_shift U _ (k + k1)); lia.
  - rewrite Hl. simpl. destruct (i64_mod (Unix t + off)) as [k1 ->].
    f_equal. apply (absSec_shift U _ (k + k1)); lia.
Qed.

(** The offset that [Date] settles for: that of the location at the clock reading
    taken as UTC, if it is in use at the instant it leads to; otherwise the one
    in use there. *)
Definition date_offset (l : Location) (U off : Z) : Prop :=
  ∃ nm off1 start end_ dst, lookup l U = Ok (nm, off1, start, end_, dst) ∧
    if decide (off1 = 0) then off = 0
    else if decide (start ≤ i64 (U - off1) < end_) then off = off1
    else offset_at l (i64 (U - off1)) off.

(** What [Date] returns at the instant [u]. *)
Definition at_instant (u ns : Z) (l : locptr) : Time := setLoc (unixTime u (i32 ns)) (Some l).

Lemma at_instant_spec ll u ns l : is_sint 64 u → 0 ≤ ns < 1000000000 →
  wf (at_instant u ns l) ∧ nsec (at_instant u ns l) = ns ∧ Unix (at_instant u ns l) = u ∧
  get ll (loc (at_instant u ns l)) = get ll (Some l) ∧ monotonic (at_instant u ns l) = false.
Proof.
  intros Hu Hns. unfold at_instant. rewrite i32_small by lia.
  destruct (unixTime_spec u ns Hu Hns) as (Hw & HU & Hn & _).
  destruct (setLoc_spec _ (Some l) Hw) as (Hw' & Hs' & Hn' & Hm' & Hl').
  split_and!; [done|by rewrite Hn'| |rewrite Hl'; by destruct l|done].
  unfold Unix, unixSec in *. by rewrite Hs'.
Qed.

Lemma Date_offset ll l year month day hour min sec nsec U ns :
  Date_unix year month day hour min sec nsec = (U, ns) → is_sint 64 U →
  (∀ u, ∃ i, lookup (get ll (Some l)) u = Ok i) →
  ∃ off, Date ll year month day hour min sec nsec (Some l) = Ok (at_instant (i64 (U - off)) ns l) ∧
    date_offset (get ll (Some l)) U off.
Proof.
  intros E Hr Hlook. unfold Date. rewrite E. cbv iota.
  destruct (Hlook U) as [[[[[nm off1] st] en] dst] Hl1]. rewrite Hl1.
  cbn [mbind res_bind mret res_ret]. unfold date_offset. rewrite Hl1.
  destruct (Z.eqb_spec off1 0) as [->|Hoff]; cbn [negb].
  { exists 0. rewrite Z.sub_0_r, i64_small by (by apply sint64). split; [done|].
    by eexists _, _, _, _, _. }
  destruct ((i64 (U - off1) <? st) || (en <=? i64 (U - off1))) eqn:Hin.
  - destruct (Hlook (i64 (U - off1))) as [[[[[nm2 off2] st2] en2] dst2] Hl2]. rewrite Hl2.
    exists off2. split; [done|]. eexists _, _, _, _, _. split; [done|].
    rewrite decide_False by done. rewrite decide_False; [by exists nm2, st2, en2, dst2|].
    apply orb_true_iff in Hin as [Hin%Z.ltb_lt|Hin%Z.leb_le]; lia.
  - exists off1. split; [done|]. eexists _, _, _, _, _. split; [done|].
    apply orb_false_iff in Hin as [Hin1%Z.ltb_ge Hin2%Z.leb_gt].
    rewrite decide_False by done. by rewrite decide_True.
Qed.

(** What the accessors show. *)
Lemma clock_shift U : - 2 ^ 61 ≤ U ≤ 2 ^ 61 →
  clock (U + 86400 * unix_day) = (U mod 86400 / 3600, U mod 3600 / 60, U mod 60).
Proof.
  intros HU. rewrite clock_spec by (unfold unix_day; lia).
  rewrite (Z.mul_comm 86400 unix_day), Z_mod_plus_full.
  replace (unix_day * 86400) with (unix_day * 24 * 3600) by lia. rewrite Z_mod_plus_full.
  replace (unix_day * 24 * 3600) with (unix_day * 1440 * 60) by lia. by rewrite Z_mod_plus_full.
Qed.

Lemma presentation ll t off U : cache_ok (get ll (loc t)) →
  offset_at (get ll (loc t)) (Unix t) off → Unix t = i64 (U - off) → - 2 ^ 61 ≤ U ≤ 2 ^ 61 →
  Time_Date ll t = Ok (date (U / 86400 + unix_day)) ∧
  Time_Clock ll t = Ok (U mod 86400 / 3600, U mod 3600 / 60, U mod 60).
Proof.
  intros Hc Hoff HU Hr. unfold Time_Date, Time_Clock. rewrite (absSec_spec ll t off U) by done.
  cbn [mbind res_bind mret res_ret]. rewrite clock_shift by done. split; [|done].
  unfold days. change secondsPerDay with 86400. by rewrite (Z.mul_comm 86400), Z.div_add.
Qed.

(** A date and a clock reading in their ranges. *)
Lemma civil_unix_valid y m d h mi s n : valid_date (y, m, d) → 0 ≤ h < 24 → 0 ≤ mi < 60 →
  0 ≤ s < 60 → 0 ≤ n < 1000000000 →
  let U := civil_unix y m d h mi s n in
  U / 86400 + unix_day = rata y m d ∧ U mod 86400 / 3600 = h ∧ U mod 3600 / 60 = mi ∧ U mod 60 = s.
Proof.
  intros [Hm Hd] Hh Hmi Hs Hn. unfold civil_unix.
  assert ((m - 1) / 12 = 0 ∧ (m - 1) mod 12 = m - 1 ∧ n / 1000000000 = 0) as (-> & -> & ->) by dlia.
  rewrite Z.sub_add, !Z.add_0_r, (rata_day y m d). clear Hm Hd Hn.
  remember (rata y m 1 - unix_day + d - 1) as q eqn:Hq.
  assert (0 ≤ 3600 * h + 60 * mi + s < 86400) as Hr by lia. cbv zeta.
  replace (86400 * q + 3600 * h + 60 * mi + s) with (3600 * h + 60 * mi + s + q * 86400) by lia.
  rewrite Z.div_add, Z_mod_plus_full, Z.div_small, Z.mod_small by lia.
  replace (q * 86400) with (q * 24 * 3600) by lia.
  replace (3600 * h + 60 * mi + s + q * 24 * 3600) with (60 * mi + s + (h + q * 24) * 3600) by lia.
  rewrite Z_mod_plus_full, (Z.mod_small (60 * mi + s)) by lia.
  replace (60 * mi + s + (h + q * 24) * 3600) with (s + (mi + (h + q * 24) * 60) * 60) by lia.
  rewrite Z_mod_plus_full, (Z.mod_small s) by lia. clear -Hq Hh Hmi Hs.
  split_and!; [lia|dlia|dlia|done].
Qed.

(** ** Locations that can be looked at *)

Definition usable (l : Location) : Prop := l = utcLoc ∨ wf_location l.

Lemma usable_lookup l u : usable l → ∃ i, lookup l u = Ok i.
Proof. intros [->|Hl]; [by eexists|by apply lookup_total]. Qed.

Lemma usable_cache l : usable l → cache_ok l.
Proof. intros [->|Hl] Hz; [done|]. by destruct (wl_zones l Hl). Qed.

Lemma usable_offset l u : usable l → ∃ off, offset_at l u off.
Proof.
  intros Hl. destruct (usable_lookup l u Hl) as [[[[[nm off] st] en] dst] E].
  exists off. by exists nm, st, en, dst.
Qed.

(** ** The accessors *)

(** What a presentation on the day [n], at the second [s] of it, shows. *)
Record shows (ll : Location) (t : Time) (n s : Z) : Prop := {
  sh_date : Time_Date ll t = Ok (date n);
  sh_year : Time_Year ll t = Ok (fst (fst (date n)));
  sh_month : Time_Month ll t = Ok (snd (fst (date n)));
  sh_day : Time_Day ll t = Ok (snd (date n));
  sh_yday : Time_YearDay ll t = Ok (snd (yearYday n));
  sh_weekday : Time_Weekday ll t = Ok ((n + 3) mod 7);
  sh_week : Time_ISOWeek ll t = Ok (isoWeek n);
  sh_clock : Time_Clock ll t = Ok (s / 3600, s mod 3600 / 60, s mod 60);
  sh_hour : Time_Hour ll t = Ok (s / 3600);
  sh_minute : Time_Minute ll t = Ok (s mod 3600 / 60);
  sh_second : Time_Second ll t = Ok (s mod 60);
}.

(** The unit divides the day, so that the epoch is a multiple of it. *)
Lemma mod_unix_day U k : (k | 86400) → (U + 86400 * unix_day) mod k = U mod k.
Proof.
  intros [c E]. rewrite E. replace (U + c * k * unix_day) with (U + c * unix_day * k) by lia.
  apply Z_mod_plus_full.
Qed.

Lemma absSec_shows ll t U : absSec ll t = Ok (U + 86400 * unix_day) → - 2 ^ 61 ≤ U ≤ 2 ^ 61 →
  shows ll t (U / 86400 + unix_day) (U mod 86400).
Proof.
  intros E HU.
  assert (days (U + 86400 * unix_day) = U / 86400 + unix_day) as Ed.
  { unfold days. change secondsPerDay with 86400. by rewrite (Z.mul_comm 86400), Z.div_add. }
  assert (0 ≤ U / 86400 + unix_day < 2 ^ 60) as Hn by (unfold unix_day; dlia).
  assert (U mod 86400 mod 3600 = U mod 3600) as E1
    by (symmetry; apply Znumtheory.Zmod_div_mod; [done|done|by exists 24]).
  assert (U mod 86400 mod 60 = U mod 60) as E2
    by (symmetry; apply Znumtheory.Zmod_div_mod; [done|done|by exists 1440]).
  split; unfold Time_Date, Time_Year, Time_Month, Time_Day, Time_YearDay, Time_Weekday,
    Time_ISOWeek, Time_Clock, Time_Hour, Time_Minute, Time_Second; rewrite E;
    cbn [mbind res_bind mret res_ret]; rewrite ?Ed, ?E1, ?E2.
  - done.
  - unfold date. destruct (days_split _) as [[c cy] a], (ayday_split a). cbn [mret res_ret fst snd]. reflexivity.
  - unfold date. destruct (days_split _) as [[c cy] a], (ayday_split a). cbn [mret res_ret fst snd]. reflexivity.
  - unfold date. destruct (days_split _) as [[c cy] a], (ayday_split a). cbn [mret res_ret fst snd]. reflexivity.
  - by destruct (yearYday _).
  - by rewrite weekday_spec by lia.
  - done.
  - by rewrite clock_shift.
  - rewrite (mod_unix_day U secondsPerDay) by (by exists 1).
    by rewrite Z.quot_div_nonneg by (done || by apply Z.mod_pos_bound).
  - rewrite (mod_unix_day U secondsPerHour) by (by exists 24).
    by rewrite Z.quot_div_nonneg by (done || by apply Z.mod_pos_bound).
  - by rewrite (mod_unix_day U secondsPerMinute) by (by exists 1440).
Qed.

Lemma offset_shows ll t off U : usable (get ll (loc t)) →
  offset_at (get ll (loc t)) (Unix t) off → Unix t = i64 (U - off) → - 2 ^ 61 ≤ U ≤ 2 ^ 61 →
  shows ll t (U / 86400 + unix_day) (U mod 86400).
Proof.
  intros Hl Ho HU Hr. apply absSec_shows; [|done].
  apply (absSec_spec ll t off); [by apply usable_cache|done..].
Qed.

(** The date and the clock reading that a date in range leads to. *)
Lemma shows_valid ll t y m d h mi s ns : valid_date (y, m, d) → - 2 ^ 34 ≤ y ≤ 2 ^ 34 →
  0 ≤ h < 24 → 0 ≤ mi < 60 → 0 ≤ s < 60 → 0 ≤ ns < 1000000000 →
  let U := civil_unix y m d h mi s ns in
  shows ll t (U / 86400 + unix_day) (U mod 86400) →
  Time_Date ll t = Ok (y, m, d) ∧ Time_Clock ll t = Ok (h, mi, s).
Proof.
  intros Hv Hy Hh Hmi Hs Hns U [Hd _ _ _ _ _ _ Hc _ _ _].
  destruct (civil_unix_valid y m d h mi s ns) as (E1 & E2 & E3 & E4); [done..|]. fold U in E1, E2, E3, E4.
  rewrite Hd, Hc, E1, E2.
  rewrite <-(Znumtheory.Zmod_div_mod 3600 86400), E3 by (done || by exists 24).
  rewrite <-(Znumtheory.Zmod_div_mod 60 86400), E4 by (done || by exists 1440).
  rewrite date_rata; [done|done|].
  destruct (rata_first_range y m) as [H _]; [lia|apply Hv|done].
Qed.
