(* ===== verification/TimeProps.v ===== *)
(** * time: what instants, durations and their presentation promise *)

From Stdlib Require Import String.
From stdpp Require Import base.
From S2P Require Import Prelude Bits Bytealg Calendar CalendarProofs Zone ZoneProofs ZoneProps.
From S2P Require Import Duration DurationProofs Time TimeProofs TimeRound TimeDate.

(*BEGIN*)
Lemma IsZero_spec t : wf t → IsZero t = true ↔ monotonic t = false ∧ instant t = 0.
Proof.
  intros Hw. pose proof (wf_nsec t Hw) as Hn. unfold IsZero, instant.
  destruct (wf_cases t Hw) as [[Hm E]|[Hm (s & Hs & _ & _ & E)]].
  - assert (wall t = nsec t) as -> by by rewrite E at 1. assert (ext t = sec t) as -> by by rewrite E at 1.
    rewrite andb_true_iff, !Z.eqb_eq. split; [|lia]. intros [-> ->]. done.
  - assert (wall t = 2 ^ 63 + s * 2 ^ 30 + nsec t) as -> by by rewrite E at 1.
    rewrite Hm, andb_true_iff, Z.eqb_eq. split; [lia|by intros []].
Qed.

(** C25: [Add] adds the duration to the instant exactly whenever the sum is an
    instant a time can hold, otherwise it stops at the largest or smallest
    seconds; it keeps the location and moves the monotonic reading, or drops it
    when that would overflow. [Sub] is the difference of the monotonic readings,
    or of the instants when one of the times has none, clamped to the range of
    durations, and the comparisons decide the order of the same readings.
    [IsZero] holds of the zero instant without a reading only. *)
Theorem Time_Add_Sub_correct (t u : Time) (d : Z) : wf t → wf u → is_sint 64 d →
  added t (Add t d) d ∧
  (representable (instant t + d) → instant (Add t d) = instant t + d) ∧
  Sub t u = clamp_duration (reading t u - reading u t) ∧
  Compare t u = Z.sgn (reading t u - reading u t) ∧
  Before t u = (reading t u <? reading u t) ∧
  After t u = (reading u t <? reading t u) ∧
  Equal t u = (reading t u =? reading u t) ∧
  (IsZero t = true ↔ monotonic t = false ∧ instant t = 0).
Proof.
  intros Ht Hu Hd. pose proof (Add_spec t d Ht Hd) as Ha.
  split; [done|]. split.
  { intros Hr. apply (added_instant _ _ _ Ha). unfold representable in Hr.
    by rewrite <-instant_div. }
  split; [by apply Sub_spec|]. destruct (Compare_spec t u Ht Hu) as (? & ? & ? & ?).
  do 4 (split; [done|]). by apply IsZero_spec.
Qed.

Definition t_mono (e : Z) : Time := MkTime (2 ^ 63 + 5 * 2 ^ 30 + 7) e None.

Lemma t_mono_wf e : is_sint 64 e → wf (t_mono e).
Proof. intros He. by apply (mono_time 5 7 e None). Qed.

Lemma Time_Add_Sub_correct_witness :
  Sub (t_mono 100) (t_mono 30) = 70 ∧
  Sub (MkTime 5 (2 ^ 62) None) (MkTime 7 0 None) = maxDuration ∧
  ext (Add (t_mono 100) (-30)) = 70 ∧
  instant (Add (MkTime 5 0 None) (-6)) = -1.
Proof.
  assert (wf (MkTime 5 0 None)) as H5 by (by apply plain_time).
  assert (wf (MkTime 5 (2 ^ 62) None)) as H5' by (by apply plain_time).
  assert (wf (MkTime 7 0 None)) as H7 by (by apply plain_time).
  split; [|split; [|split]].
  - destruct (Time_Add_Sub_correct (t_mono 100) (t_mono 30) 0) as (_ & _ & -> & _);
      [by apply t_mono_wf..|done|]. vm_compute. reflexivity.
  - destruct (Time_Add_Sub_correct (MkTime 5 (2 ^ 62) None) (MkTime 7 0 None) 0)
      as (_ & _ & -> & _); [done..|]. vm_compute. reflexivity.
  - vm_compute. reflexivity.
  - destruct (Time_Add_Sub_correct (MkTime 5 0 None) (MkTime 7 0 None) (-6))
      as (_ & -> & _); first [done | by split | vm_compute; reflexivity].
Defined.


(** C26: The times of the package are well formed: the nanoseconds of the wall
    word stay below a second, its seconds are zero without the monotonic flag,
    and [ext] is an [int64]. Dropping or setting the monotonic reading and
    changing the location keep that and the instant; [Add], [Truncate] and
    [Round] keep it; the conversions from Unix times make such times, from any
    arguments. [Unix], [UnixMilli], [UnixMicro] and [UnixNano] count the whole
    units since 1970, up to the wrap-around, and undo those conversions. *)
Theorem Time_type_correct (t : Time) (l : locptr) (x n : Z) : wf t → is_sint 64 x → is_sint 64 n →
  (∀ t', t' ∈ [stripMono t; setLoc t (Some l); UTC t; Local t; setMono t x] →
    wf t' ∧ instant t' = instant t) ∧
  (monotonic (stripMono t) = false ∧ loc (stripMono t) = loc t) ∧
  (wall_secs (sec t) → monotonic (setMono t x) = true ∧ mono (setMono t x) = x) ∧
  (In t None = Panic (PanicMsg (str "time: missing Location in call to Time.In")) ∧
   In t (Some l) = Ok (setLoc t (Some l)) ∧ Location_of (setLoc t (Some l)) = Some l) ∧
  wf (Add t x) ∧ wf (Unix_time x n) ∧ wf (UnixMilli_time x) ∧ wf (UnixMicro_time x) ∧
  (Unix t = i64 (unix_nano t / 1000000000) ∧ UnixMilli t = i64 (unix_nano t / 1000000) ∧
   UnixMicro t = i64 (unix_nano t / 1000) ∧ UnixNano t = i64 (unix_nano t)) ∧
  Unix (Unix_time x n) = i64 (x + n / 1000000000) ∧ nsec (Unix_time x n) = n mod 1000000000 ∧
  UnixMilli (UnixMilli_time x) = x ∧ UnixMicro (UnixMicro_time x) = x ∧
  UnixNano (Unix_time 0 x) = x.
Proof.
  intros Hw Hx Hn. destruct (setMono_spec t x Hw Hx) as (Hm1 & Hm2 & _ & Hm3 & _).
  destruct (stripMono_spec t Hw) as (Hs1 & Hs2 & Hs3 & Hs4 & Hs5).
  assert (∀ l, wf (setLoc t l) ∧ instant (setLoc t l) = instant t) as Hl.
  { intros l'. destruct (setLoc_spec t l' Hw) as (? & E1 & E2 & _). unfold instant.
    by rewrite E1, E2. }
  split; [|split; [done|split; [done|split; [by destruct l|]]]].
  { intros t' Ht'. rewrite !elem_of_cons, elem_of_nil in Ht'.
    destruct Ht' as [->|[->|[->|[->|[->|[]]]]]]; [|apply Hl|apply Hl|apply Hl|done].
    split; [done|]. unfold instant. by rewrite Hs3, Hs4. }
  split; [by apply Add_spec|]. split; [by apply Unix_time_nano|].
  split; [by apply (unix_unit_roundtrip x 1000 1000000)|].
  split; [by apply (unix_unit_roundtrip x 1000000 1000)|].
  split; [by apply unix_fields|]. by apply Unix_roundtrips.
Qed.

Lemma Time_type_correct_witness :
  wf (UTC (t_mono 9)) ∧ UnixMilli (UnixMilli_time (- (2 ^ 63))) = - (2 ^ 63) ∧
  mono (setMono (MkTime 5 wallToInternal None) 44) = 44.
Proof.
  assert (wf (MkTime 5 wallToInternal None)) as H5 by (by apply plain_time).
  split; [|split].
  - apply (Time_type_correct (t_mono 9) UtcLoc 0 0); [by apply t_mono_wf|done..|].
    rewrite !elem_of_cons. auto.
  - apply (Time_type_correct (t_mono 9) UtcLoc (- (2 ^ 63)) 0); [by apply t_mono_wf|done..].
  - apply (Time_type_correct (MkTime 5 wallToInternal None) UtcLoc 44 0); done.
Defined.


Lemma nearest_near x d : 0 < d → 2 * Z.abs (nearest x d - x) ≤ d.
Proof.
  intros Hd. pose proof (Z.mod_pos_bound x d Hd).
  destruct (Z.lt_ge_cases (2 * (x mod d)) d); [rewrite nearest_down|rewrite nearest_up]; lia.
Qed.

Lemma nearest_abs_near x d : 0 < d → 2 * Z.abs (nearest_abs x d - x) ≤ d.
Proof.
  intros Hd. pose proof (nearest_near (Z.abs x) d Hd) as H. unfold nearest_abs.
  destruct (Z.lt_trichotomy x 0) as [Hx|[->|Hx]].
  - rewrite Z.sgn_neg by done. lia.
  - change (Z.sgn 0) with 0. lia.
  - rewrite Z.sgn_pos by done. lia.
Qed.

(** C28: [Time.Truncate] and [Time.Round] drop the monotonic reading; for a
    positive duration they return the multiple of it since the zero time that is
    at or before the instant, and the nearest one (the later one at half), through
    each of the three algorithms of [div], whenever a time can hold it and the
    seconds are not the least [int64]. [Duration.Truncate] rounds toward zero and
    [Duration.Round] to the nearest multiple (away from zero at half), clamped to
    the range; [Abs] is clamped at the most negative duration. At the least
    seconds, which have no negation, [div] returns a remainder larger than the
    divisor: the last equation. *)
Theorem Round_Truncate_correct (t : Time) (x d : Z) :
  wf t → - 2 ^ 63 < sec t → is_sint 64 x → is_sint 64 d →
  (d ≤ 0 → Truncate t d = Ok (stripMono t) ∧ Round t d = Ok (stripMono t) ∧
    Duration.Truncate x d = x ∧ Duration.Round x d = x) ∧
  (0 < d →
    (representable (instant t - instant t mod d) → ∃ t', Truncate t d = Ok t' ∧
      wf t' ∧ monotonic t' = false ∧ loc t' = loc t ∧ instant t' = instant t - instant t mod d) ∧
    (representable (nearest (instant t) d) → ∃ t', Round t d = Ok t' ∧
      wf t' ∧ monotonic t' = false ∧ loc t' = loc t ∧ instant t' = nearest (instant t) d) ∧
    Duration.Truncate x d = d * Z.quot x d ∧
    Duration.Round x d = clamp_duration (nearest_abs x d) ∧
    (d | nearest_abs x d) ∧ 2 * Z.abs (nearest_abs x d - x) ≤ d) ∧
  Abs x = Z.min maxDuration (Z.abs x) ∧
  (Nanoseconds x = x ∧ Duration.Truncate x Microsecond = 1000 * Microseconds x ∧
   Duration.Truncate x Millisecond = 1000000 * Milliseconds x) ∧
  (let least := MkTime 0 (- 2 ^ 63) None in
   div least 7000000000 = Ok (0, 8000000000) ∧ instant least mod 7000000000 = 6000000000).
Proof.
  intros Hw Hs Hx Hd. assert (Hd' := Hd). rewrite sint64 in Hd'. split_and!.
  - intros Hneg. unfold Truncate, Round, Duration.Truncate, Duration.Round. by ztests.
  - intros Hpos. assert (0 < d < 2 ^ 63) as Hd2 by lia. split_and!.
    + intros Hr. by apply wp_exists, Truncate_spec.
    + intros Hr. by apply wp_exists, Round_spec.
    + by apply Duration_Truncate_spec.
    + by apply Duration_Round_spec.
    + unfold nearest_abs, nearest. apply Z.divide_mul_r, Z.divide_factor_l.
    + by apply nearest_abs_near.
  - by apply Abs_spec.
  - done.
  - by apply Duration_Truncate_spec.
  - by apply Duration_Truncate_spec.
  - by vm_compute.
Qed.

Lemma Round_Truncate_correct_witness :
  (∃ t', Round (MkTime 5 100 None) 3000000000 = Ok t' ∧ instant t' = 99000000000) ∧
  (∃ t', Truncate (MkTime 5 (-1) None) 7 = Ok t' ∧ instant t' = -1000000001) ∧
  Duration.Round (-1500) 1000 = -2000 ∧
  Truncate (MkTime 5 100 None) 0 = Ok (MkTime 5 100 None).
Proof.
  assert (∀ e, is_sint 64 e → wf (MkTime 5 e None)) as Hw by (intros e He; by apply plain_time).
  split; [|split; [|split]].
  - destruct (Round_Truncate_correct (MkTime 5 100 None) 0 3000000000) as (_ & H & _);
      [by apply Hw|done..|]. destruct (H ltac:(done)) as (_ & H1 & _).
    destruct H1 as (t' & E & _ & _ & _ & Hi); [by split|]. exists t'. split; [done|].
    rewrite Hi. vm_compute. reflexivity.
  - destruct (Round_Truncate_correct (MkTime 5 (-1) None) 0 7) as (_ & H & _);
      [by apply Hw|done..|]. destruct (H ltac:(done)) as (H1 & _).
    destruct H1 as (t' & E & _ & _ & _ & Hi); [by split|]. exists t'. split; [done|].
    rewrite Hi. vm_compute. reflexivity.
  - destruct (Round_Truncate_correct (MkTime 5 100 None) (-1500) 1000) as (_ & H & _);
      [by apply Hw|done..|]. destruct (H ltac:(done)) as (_ & _ & _ & -> & _).
    vm_compute. reflexivity.
  - destruct (Round_Truncate_correct (MkTime 5 100 None) 0 0) as (H & _);
      [by apply Hw|done..|]. destruct (H ltac:(done)) as (-> & _). vm_compute. reflexivity.
Defined.


(** C29: [Duration.String] never runs out of its 32 bytes and returns the text of
    the duration: the sign, and "0s", or a decimal number of the largest of the
    units ns, µs and ms that gives it a non-zero whole part, or, from a second
    on, the hours and the minutes that are needed with the decimal number of
    seconds; whole parts have no leading zeros, fractions no trailing ones. *)
Theorem Duration_String_correct (d : Z) : is_sint 64 d →
  ∃ t, duration_text (Z.abs d) t ∧
    Duration.String d = Ok ((if d <? 0 then str "-" else []) ++ t).
Proof. apply String_spec. Qed.

Lemma Duration_String_correct_witness :
  (∃ t, duration_text (2 ^ 63) t ∧ Duration.String minDuration = Ok (str "-" ++ t)) ∧
  Duration.String minDuration = Ok (str "-2562047h47m16.854775808s") ∧
  Duration.String (5400 * Second) = Ok (str "1h30m0s") ∧
  Duration.String 1500000 = Ok (str "1.5ms") ∧ Duration.String 0 = Ok (str "0s").
Proof.
  split; [|vm_compute; done].
  apply (Duration_String_correct minDuration). done.
Defined.

(** What the accessors of the zone show: the name and offset that [lookup] finds,
    and the times at its bounds, the zero time for an open one. *)
Definition zone_shown (ll : Location) (t : Time) : Prop :=
  ∃ nm off st en dst, lookup (get ll (loc t)) (Unix t) = Ok (nm, off, st, en, dst) ∧
    Zone_of ll t = Ok (nm, off) ∧ IsDST ll t = Ok dst ∧
    ∃ s e, ZoneBounds ll t = Ok (s, e) ∧
      (if decide (st = alpha) then IsZero s = true
       else Unix s = i64 st ∧ get ll (loc s) = get ll (loc t)) ∧
      (if decide (en = omega) then IsZero e = true
       else Unix e = i64 en ∧ get ll (loc e) = get ll (loc t)).

Lemma unixTime_shown ll u l : let t := setLoc (unixTime u 0) l in
  Unix t = i64 u ∧ get ll (loc t) = get ll l.
Proof.
  destruct (i64_mod u) as [k Hk].
  assert (unixTime u 0 = unixTime (i64 u) 0) as ->.
  { unfold unixTime. f_equal. rewrite Hk. symmetry. apply (i64_cong _ _ k). lia. }
  destruct (unixTime_spec (i64 u) 0) as (Hw & HU & _); [by apply swrap_range|done|].
  destruct (setLoc_spec _ l Hw) as (_ & Hs & _ & _ & Hl). split.
  - unfold Unix, unixSec in *. by rewrite Hs.
  - rewrite Hl. apply get_setLoc.
Qed.

Lemma zone_shown_ok ll t : usable (get ll (loc t)) → zone_shown ll t.
Proof.
  intros Hl. destruct (usable_lookup _ (Unix t) Hl) as [[[[[nm off] st] en] dst] E].
  exists nm, off, st, en, dst. split; [done|].
  unfold Zone_of, IsDST, ZoneBounds. fold (Unix t).
  rewrite E. cbn [mbind res_bind]. split; [done|]. split; [done|]. eexists _, _. split; [done|].
  split; [destruct (Z.eqb_spec st alpha)|destruct (Z.eqb_spec en omega)]; cbn [negb];
    (rewrite decide_True by done; done) || (rewrite decide_False by done; apply unixTime_shown).
Qed.

(** C27: [Date] panics on a nil location and otherwise returns, for arguments in
    and out of their ranges, the instant whose clock in the location shows the
    normalized date, as its comment says: at the offset of the reading taken as
    UTC if that is in use at the instant it leads to, else at the one in use
    there. Where the offset is the one of the location, all the accessors show
    the day of the calendar and the second of the day of that reading: a valid
    date and clock reading comes back, always so in UTC. [AddDate] adds to the
    fields that the accessors show; [Zone], [IsDST] and [ZoneBounds] show what the lookup
    of the location finds at the instant. *)
Theorem Date_correct (ll : Location) (l : locptr) (y mo d h mi s ns : Z) :
  usable (get ll (Some l)) →
  usual y → usual mo → usual d → usual h → usual mi → usual s → usual ns →
  let U := civil_unix y mo d h mi s ns in
  Date ll y mo d h mi s ns None =
    Panic (PanicMsg (str "time: missing Location in call to Date")) ∧
  ∃ t off, Date ll y mo d h mi s ns (Some l) = Ok t ∧
    wf t ∧ monotonic t = false ∧ get ll (loc t) = get ll (Some l) ∧
    Unix t = i64 (U - off) ∧ Time_Nanosecond t = ns mod 1000000000 ∧
    date_offset (get ll (Some l)) U off ∧
    (get ll (Some l) = utcLoc → off = 0) ∧
    (offset_at (get ll (Some l)) (Unix t) off →
      shows ll t (U / 86400 + unix_day) (U mod 86400) ∧
      (valid_date (y, mo, d) → 0 ≤ h < 24 → 0 ≤ mi < 60 → 0 ≤ s < 60 → 0 ≤ ns < 1000000000 →
        Time_Date ll t = Ok (y, mo, d) ∧ Time_Clock ll t = Ok (h, mi, s) ∧
        ∀ y' mo' d', is_sint 64 (y + y') → is_sint 64 (mo + mo') → is_sint 64 (d + d') →
          AddDate ll t y' mo' d' =
            Date ll (y + y') (mo + mo') (d + d') h mi s ns (Location_of t))) ∧
    zone_shown ll t.
Proof.
  intros Hl Hy Hmo Hd Hh Hmi Hs Hns U. split; [done|].
  destruct (Date_unix_spec y mo d h mi s ns) as [E HU]; [done..|]. fold U in E, HU.
  assert (is_sint 64 U) as HUr by (apply sint64; lia).
  destruct (Date_offset ll l y mo d h mi s ns U _ E HUr) as (off & -> & Hoff);
    [intros u; by apply usable_lookup|].
  destruct (at_instant_spec ll (i64 (U - off)) (ns mod 1000000000) l) as (Hw & Hn & Hu & Hg & Hm);
    [by apply swrap_range|by apply Z.mod_pos_bound|].
  set (t := at_instant _ _ _) in *. exists t, off. do 7 (split; [done|]). split.
  { intros Eg. rewrite Eg in Hoff. destruct Hoff as (nm & o & st & en & dst & Ho & Hoff).
    injection Ho as <- <- <- <- <-. by rewrite decide_True in Hoff. }
  rewrite <-Hg in Hl. split; [|by apply zone_shown_ok]. intros Ho. rewrite <-Hg in Ho.
  pose proof (offset_shows ll t off U Hl Ho Hu HU) as Hshow. split; [done|].
  intros Hv Hh' Hmi' Hs' Hns'. destruct (shows_valid ll t y mo d h mi s ns) as [ED EC]; [done..|].
  split; [done|]. split; [done|]. intros y' mo' d' Hy' Hmo' Hd'. unfold AddDate. rewrite ED, EC.
  cbn [mbind res_bind]. rewrite Hn, Z.mod_small by done.
  by rewrite !i64_small by (by apply sint64).
Qed.

(** A leap day in UTC, and a reading in the second of two zones. *)
Lemma Date_correct_witness :
  (∃ t, Date utcLoc 2024 2 29 13 5 7 250 (Some UtcLoc) = Ok t ∧ Unix t = 1709211907 ∧
    Time_Date utcLoc t = Ok (2024, 2, 29) ∧ Time_Clock utcLoc t = Ok (13, 5, 7)) ∧
  (∃ t off, Date utcLoc 1970 1 1 2 2 30 0 (Some (LocAt two_zones)) = Ok t ∧
    Unix t = i64 (7350 - off) ∧ date_offset two_zones 7350 off).
Proof.
  split.
  - destruct (Date_correct utcLoc UtcLoc 2024 2 29 13 5 7 250)
      as (_ & t & off & E & _ & _ & Hg & HU & _ & _ & Hoff & Hshow & _); [by left|done..|].
    rewrite (Hoff eq_refl) in HU, Hshow. exists t. split; [exact E|].
    split; [rewrite HU; vm_compute; reflexivity|].
    destruct Hshow as [_ H]; [eexists _, _, _, _; reflexivity|].
    destruct H as (HD & HC & _); [split; by vm_compute|lia..|]. by split.
  - destruct (Date_correct utcLoc (LocAt two_zones) 1970 1 1 2 2 30 0)
      as (_ & t & off & E & _ & _ & _ & HU & _ & Ho & _); [right; apply two_zones_wf|done..|].
    exists t, off. split; [exact E|]. split; [exact HU|exact Ho].
Defined.
