(* ===== verification/Chan.v ===== *)
(** * runtime: channels

    The channels of runtime/chan.go as the steps of the goroutines that use one
    of them. The shared state is the channel, the sudogs of its wait queues with
    their links, the part of the goroutines that others write, and the variables
    that values are sent from and received into. A section of the code under the
    lock of the channel is one step where only one word of it can be seen without
    the lock; [closechan], where several can, keeps the lock over its steps. What
    follows the unlock is a step of its own. The address of a sudog, which
    [acquireSudog] takes from a pool, is chosen by the environment among the free
    ones; [gopark] and [goready] are the status "waiting" of a goroutine. The
    variable of a goroutine has the goroutine's number as its address.

    Channels of timers, the race detector, synctest bubbles and profiling are
    left out: [c.timer] and [c.bubble] are nil. [sent] and [received] are history:
    no code reads them. *)

From Stdlib Require Import String.
From stdpp Require Import gmap.
From S2P Require Import Prelude Bytealg Threads.

(** A nil pointer is an absent entry. *)
Definition put_ptr (m : gmap Z Z) (k : Z) (p : option Z) : gmap Z Z := partial_alter (λ _, p) k m.

Record waitq := Waitq { first : option Z; last : option Z }.

(** The sudogs, a map per field. *)
Record sudogs := Sudogs {
  sg_g : gmap Z Z; sg_next : gmap Z Z; sg_prev : gmap Z Z; sg_elem : gmap Z Z;
  isSelect : gset Z; success : gset Z; inuse : gset Z }.

Definition set_g (σ : sudogs) (s : Z) (g : Z) : sudogs :=
  Sudogs (<[s:=g]> (sg_g σ)) (sg_next σ) (sg_prev σ) (sg_elem σ) (isSelect σ) (success σ) (inuse σ).
Definition set_next (σ : sudogs) (s : Z) (p : option Z) : sudogs :=
  Sudogs (sg_g σ) (put_ptr (sg_next σ) s p) (sg_prev σ) (sg_elem σ) (isSelect σ) (success σ) (inuse σ).
Definition set_prev (σ : sudogs) (s : Z) (p : option Z) : sudogs :=
  Sudogs (sg_g σ) (sg_next σ) (put_ptr (sg_prev σ) s p) (sg_elem σ) (isSelect σ) (success σ) (inuse σ).
Definition set_elem (σ : sudogs) (s : Z) (p : option Z) : sudogs :=
  Sudogs (sg_g σ) (sg_next σ) (sg_prev σ) (put_ptr (sg_elem σ) s p) (isSelect σ) (success σ) (inuse σ).
Definition set_isSelect (σ : sudogs) (s : Z) (b : bool) : sudogs :=
  Sudogs (sg_g σ) (sg_next σ) (sg_prev σ) (sg_elem σ)
    (if b then {[s]} ∪ isSelect σ else isSelect σ ∖ {[s]}) (success σ) (inuse σ).
Definition set_success (σ : sudogs) (s : Z) (b : bool) : sudogs :=
  Sudogs (sg_g σ) (sg_next σ) (sg_prev σ) (sg_elem σ) (isSelect σ)
    (if b then {[s]} ∪ success σ else success σ ∖ {[s]}) (inuse σ).
Definition set_inuse (σ : sudogs) (s : Z) (b : bool) : sudogs :=
  Sudogs (sg_g σ) (sg_next σ) (sg_prev σ) (sg_elem σ) (isSelect σ) (success σ)
    (if b then {[s]} ∪ inuse σ else inuse σ ∖ {[s]}).

(** [sgp.g], which is never nil. *)
Definition g_of (σ : sudogs) (s : Z) : res Z :=
  match sg_g σ !! s with Some g => Ok g | None => Panic NilDereference end.

(** ** Wait queues *)

Definition enqueue (σ : sudogs) (q : waitq) (sgp : Z) : sudogs * waitq :=
  let σ := set_next σ sgp None in
  match last q with
  | None => (set_prev σ sgp None, Waitq (Some sgp) (Some sgp))
  | Some x =>
      let σ := set_prev σ sgp (Some x) in
      (set_next σ x (Some sgp), Waitq (first q) (Some sgp))
  end.

(** [selectDone] of the goroutines goes through, for the compare-and-swap. *)
Definition dequeue (σ : sudogs) (done : gmap Z Z) (q : waitq) :
    res (gmap Z Z * sudogs * waitq * option Z) :=
  loop (S (S (size (inuse σ)))) (λ '(done, σ, q),
    match first q with
    | None => mret (inr (done, σ, q, None))
    | Some sgp =>
        let '(σ, q) :=
          match sg_next σ !! sgp with
          | None => (σ, Waitq None None)
          | Some y => (set_next (set_prev σ y None) sgp None, Waitq (Some y) (last q))
          end in
        if bool_decide (sgp ∈ isSelect σ) then
          g ← g_of σ sgp;
          if default 0 (done !! g) =? 0 then mret (inr (<[g:=1]> done, σ, q, Some sgp))
          else mret (inl (done, σ, q))
        else mret (inr (done, σ, q, Some sgp))
    end) (done, σ, q).

(** [dequeueSudoG] of runtime/select.go. *)
Definition dequeueSudoG (σ : sudogs) (q : waitq) (sgp : Z) : sudogs * waitq :=
  match sg_prev σ !! sgp, sg_next σ !! sgp with
  | Some x, Some y =>
      (set_prev (set_next (set_prev (set_next σ x (Some y)) y (Some x)) sgp None) sgp None, q)
  | Some x, None => (set_prev (set_next σ x None) sgp None, Waitq (first q) (Some x))
  | None, Some y => (set_next (set_prev σ y None) sgp None, Waitq (Some y) (last q))
  | None, None => (σ, if bool_decide (first q = Some sgp) then Waitq None None else q)
  end.

(** ** The channel *)

Section channel.
Context {V : Type} (zero : V).

Record hchan := Hchan {
  qcount : Z; dataqsiz : Z; buf : list V; closed : Z; sendx : Z; recvx : Z;
  recvq : waitq; sendq : waitq; lock : bool }.

(** What the code changes: the channel, the sudogs, of each goroutine [param],
    [waiting], [selectDone] and the status, the memory, and the history. *)
Record world := World {
  ch : hchan; sgs : sudogs;
  param : gmap Z Z; waiting : gmap Z Z; selectDone : gmap Z Z; parked : gset Z;
  mem : gmap Z V; sent : list (Z * V); received : list (Z * V) }.

Definition set_ch (w : world) (c : hchan) : world :=
  World c (sgs w) (param w) (waiting w) (selectDone w) (parked w) (mem w) (sent w) (received w).
Definition set_sgs (w : world) (σ : sudogs) : world :=
  World (ch w) σ (param w) (waiting w) (selectDone w) (parked w) (mem w) (sent w) (received w).
Definition set_param (w : world) (g : Z) (p : option Z) : world :=
  World (ch w) (sgs w) (put_ptr (param w) g p) (waiting w) (selectDone w) (parked w) (mem w)
    (sent w) (received w).
Definition set_waiting (w : world) (g : Z) (p : option Z) : world :=
  World (ch w) (sgs w) (param w) (put_ptr (waiting w) g p) (selectDone w) (parked w) (mem w)
    (sent w) (received w).
Definition set_parked (w : world) (s : gset Z) : world :=
  World (ch w) (sgs w) (param w) (waiting w) (selectDone w) s (mem w) (sent w) (received w).
Definition set_mem (w : world) (a : Z) (v : V) : world :=
  World (ch w) (sgs w) (param w) (waiting w) (selectDone w) (parked w) (<[a:=v]> (mem w))
    (sent w) (received w).
Definition note_sent (w : world) (g : Z) (v : V) : world :=
  World (ch w) (sgs w) (param w) (waiting w) (selectDone w) (parked w) (mem w)
    (sent w ++ [(g, v)]) (received w).
Definition note_received (w : world) (g : Z) (v : V) : world :=
  World (ch w) (sgs w) (param w) (waiting w) (selectDone w) (parked w) (mem w)
    (sent w) (received w ++ [(g, v)]).

Definition set_closed (c : hchan) : hchan :=
  Hchan (qcount c) (dataqsiz c) (buf c) 1 (sendx c) (recvx c) (recvq c) (sendq c) (lock c).
Definition set_lock (c : hchan) (b : bool) : hchan :=
  Hchan (qcount c) (dataqsiz c) (buf c) (closed c) (sendx c) (recvx c) (recvq c) (sendq c) b.
Definition set_recvq (c : hchan) (q : waitq) : hchan :=
  Hchan (qcount c) (dataqsiz c) (buf c) (closed c) (sendx c) (recvx c) q (sendq c) (lock c).
Definition set_sendq (c : hchan) (q : waitq) : hchan :=
  Hchan (qcount c) (dataqsiz c) (buf c) (closed c) (sendx c) (recvx c) (recvq c) q (lock c).
(** The ring buffer: the elements, the two indices, the count. *)
Definition set_ring (c : hchan) (b : list V) (s r n : Z) : hchan :=
  Hchan n (dataqsiz c) b (closed c) s r (recvq c) (sendq c) (lock c).

(** [*a], of the variable at [a]. *)
Definition value (w : world) (a : Z) : V := default zero (mem w !! a).

(** [typedmemmove(c.elemtype, ep, v)] and [typedmemclr(c.elemtype, ep)] unless [ep] is nil. *)
Definition write (w : world) (ep : option Z) (v : V) : world :=
  match ep with Some a => set_mem w a v | None => w end.

(** [internal/runtime/math.MulUintptr] *)
Definition MulUintptr (a b : Z) : Z * bool :=
  if (Z.lor a b <? Z.shiftl 1 (4 * 8)) || (a =? 0) then (u64 (a * b), false)
  else (u64 (a * b), (2 ^ 64 - 1) / a <? b).

(** The size and the alignment of an element, of the type descriptor. *)
Record elemtype := Elemtype { Size_ : Z; Align_ : Z }.

Definition maxAlign : Z := 8.

(** [maxAlloc] and [hchanSize] are those of the platform. *)
Definition makechan (maxAlloc hchanSize : Z) (elem : elemtype) (size : Z) : res hchan :=
  if Z.shiftl 1 16 <=? Size_ elem then Panic (PanicMsg (str "makechan: invalid channel element type")) else
  if negb (hchanSize mod maxAlign =? 0) || (maxAlign <? Align_ elem) then
    Panic (PanicMsg (str "makechan: bad alignment")) else
  let '(mem, overflow) := MulUintptr (Size_ elem) (u64 size) in
  if overflow || (u64 (maxAlloc - hchanSize) <? mem) || (size <? 0) then
    Panic (PanicMsg (str "makechan: size out of range")) else
  let nil := Waitq None None in
  mret (Hchan 0 (u64 size) (replicate (Z.to_nat (u64 size)) zero) 0 0 0 nil nil false).

Definition is_nil (p : option Z) : bool := match p with None => true | Some _ => false end.

Definition full (c : hchan) : bool :=
  if dataqsiz c =? 0 then is_nil (first (recvq c)) else qcount c =? dataqsiz c.

Definition empty (c : hchan) : bool :=
  if dataqsiz c =? 0 then is_nil (first (sendq c)) else qcount c =? 0.

Definition chanlen (c : option hchan) : Z :=
  match c with None => 0 | Some c => i64 (qcount c) end.
Definition chancap (c : option hchan) : Z :=
  match c with None => 0 | Some c => i64 (dataqsiz c) end.

(** ** The points of the goroutines *)

(** What an operation returns to its goroutine: [chansend], [chanrecv] (with the
    variable it was given) and [closechan], and the panics of closed and nil
    channels. *)
Inductive outcome :=
  | Sent (ok : bool) | SendPanic
  | Received (ep : option Z) (selected ok : bool)
  | Closed | ClosePanic | CloseNilPanic.

Inductive chanpc :=
  | Idle
  | SendFast | SendFull               (* the test without the lock: [c.closed], [full(c)] *)
  | SendLock (block : bool)           (* at [lock(&c.lock)] *)
  | SendParked (sg : Z)               (* in [gopark] *)
  | RecvEmpty (ep : option Z) | RecvClosed (ep : option Z) | RecvEmpty2 (ep : option Z)
  | RecvLock (ep : option Z) (block : bool)
  | RecvParked (sg : Z) (ep : option Z)
  | CloseLock
  | CloseRecvs (glist : list Z) | CloseSends (glist : list Z)  (* the loops under the lock *)
  | CloseWake (glist : list Z)
  | Wake (g sg : Z) (o : outcome)     (* [send] and [recv] after the unlock *)
  | Forever                           (* parked on a nil channel *)
  | Return (o : outcome)
  | Throw.

(** A call, on a nil channel or on the one of the state, or a step of the running
    goroutine with the sudog it is given. *)
Inductive chanact :=
  | CallSend (isnil : bool) (v : V) (block : bool)
  | CallRecv (isnil want block : bool)
  | CallClose (isnil : bool)
  | Run (sg : Z).

(** ** Scheduling *)

(** The status must be waiting. *)
Definition goready (w : world) (g : Z) : res world :=
  if bool_decide (g ∈ parked w) then mret (set_parked w (parked w ∖ {[g]}))
  else Panic (PanicMsg (str "bad g->status in ready")).

Definition gopark (w : world) (g : Z) : world := set_parked w ({[g]} ∪ parked w).

(** The checks of [releaseSudog] (runtime/proc.go) on the fields that the model has. *)
Definition releaseSudog (w : world) (g s : Z) : res world :=
  let σ := sgs w in
  let throw m := Panic (PanicMsg m) in
  if negb (is_nil (sg_elem σ !! s)) then throw (str "runtime: sudog with non-nil elem") else
  if bool_decide (s ∈ isSelect σ) then throw (str "runtime: sudog with non-false isSelect") else
  if negb (is_nil (sg_next σ !! s)) then throw (str "runtime: sudog with non-nil next") else
  if negb (is_nil (sg_prev σ !! s)) then throw (str "runtime: sudog with non-nil prev") else
  if negb (is_nil (param w !! g)) then throw (str "runtime: releaseSudog with non-nil gp.param") else
  mret (set_sgs w (set_inuse σ s false)).

(** The sudog that [chansend] and [chanrecv] fill before they park. *)
Definition acquireSudog (w : world) (g s : Z) (ep : option Z) : world :=
  let σ := set_inuse (sgs w) s true in
  let σ := set_elem (set_g (set_isSelect σ s false) s g) s ep in
  set_param (set_waiting (set_sgs w σ) g (Some s)) g None.

(** [dequeue] on one of the two queues. *)
Definition dequeue_recvq (w : world) : res (world * option Z) :=
  '(done, σ, q, sg) ← dequeue (sgs w) (selectDone w) (recvq (ch w));
  mret (World (set_recvq (ch w) q) σ (param w) (waiting w) done (parked w) (mem w)
          (sent w) (received w), sg).
Definition dequeue_sendq (w : world) : res (world * option Z) :=
  '(done, σ, q, sg) ← dequeue (sgs w) (selectDone w) (sendq (ch w));
  mret (World (set_sendq (ch w) q) σ (param w) (waiting w) done (parked w) (mem w)
          (sent w) (received w), sg).

(** [c.sendx++; if c.sendx == c.dataqsiz { c.sendx = 0 }], or [c.recvx]. *)
Definition next_index (c : hchan) (x : Z) : Z :=
  let x := u64 (x + 1) in if x =? dataqsiz c then 0 else x.

(** ** Sending *)

(** [send] up to the unlock: the receiver that is handed the value. *)
Definition send (w : world) (sg ep : Z) : res (world * Z) :=
  let v := value w ep in
  let w := match sg_elem (sgs w) !! sg with
           | Some dst => set_sgs (set_mem w dst v) (set_elem (sgs w) sg None)
           | None => w
           end in
  gp ← g_of (sgs w) sg;
  mret (note_received (note_sent w ep v) gp v, gp).

(** [chansend] of the goroutine [gp] from the lock to the unlock. *)
Definition chansend (w : world) (gp : Z) (block : bool) (mysg : Z) : res (world * chanpc) :=
  if negb (closed (ch w) =? 0) then mret (w, Return SendPanic) else
  '(w, sg) ← dequeue_recvq w;
  match sg with
  | Some sg => '(w, g) ← send w sg gp; mret (w, Wake g sg (Sent true))
  | None =>
      let c := ch w in
      if qcount c <? dataqsiz c then
        b ← store (buf c) (sendx c) (value w gp);
        let c := set_ring c b (next_index c (sendx c)) (recvx c) (u64 (qcount c + 1)) in
        mret (note_sent (set_ch w c) gp (value w gp), Return (Sent true))
      else if negb block then mret (w, Return (Sent false)) else
        let w := acquireSudog w gp mysg (Some gp) in
        let '(σ, q) := enqueue (sgs w) (sendq (ch w)) mysg in
        mret (gopark (set_sgs (set_ch w (set_sendq (ch w) q)) σ) gp, SendParked mysg)
  end.

(** What follows [gopark] in both: the result of the wake-up. *)
Definition unpark (w : world) (gp mysg : Z) : res (world * bool) :=
  if bool_decide (waiting w !! gp = Some mysg) then
    let ok := bool_decide (mysg ∈ success (sgs w)) in
    let w := set_param (set_waiting w gp None) gp None in
    w ← releaseSudog w gp mysg; mret (w, ok)
  else Panic (PanicMsg (str "G waiting list is corrupted")).

Definition chansend_resume (w : world) (gp mysg : Z) : res (world * chanpc) :=
  '(w, ok) ← unpark w gp mysg;
  if negb ok then
    if closed (ch w) =? 0 then Panic (PanicMsg (str "chansend: spurious wakeup"))
    else mret (w, Return SendPanic)
  else mret (w, Return (Sent true)).

(** The end of [send] and [recv]. *)
Definition wake (w : world) (gp sg : Z) : res world :=
  goready (set_sgs (set_param w gp (Some sg)) (set_success (sgs w) sg true)) gp.

(** ** Receiving *)

(** [recv] up to the unlock: the sender whose value is taken. *)
Definition recv (w : world) (sg gp : Z) (ep : option Z) : res (world * Z) :=
  src ← match sg_elem (sgs w) !! sg with Some a => mret a | None => Panic NilDereference end;
  let v := value w src in
  w ← (if dataqsiz (ch w) =? 0 then mret (note_received (write w ep v) gp v)
       else
         let c := ch w in
         x ← idx (buf c) (recvx c);
         b ← store (buf c) (recvx c) v;
         let r := next_index c (recvx c) in
         mret (note_received (write (set_ch w (set_ring c b r r (qcount c))) ep x) gp x));
  let w := set_sgs w (set_elem (sgs w) sg None) in
  g ← g_of (sgs w) sg;
  mret (note_sent w g v, g).

(** [chanrecv] of the goroutine [gp] from the lock to the unlock. *)
Definition chanrecv (w : world) (gp : Z) (ep : option Z) (block : bool) (mysg : Z) :
    res (world * chanpc) :=
  if negb (closed (ch w) =? 0) && (qcount (ch w) =? 0) then
    mret (write w ep zero, Return (Received ep true false))
  else
    '(w, sg) ← (if negb (closed (ch w) =? 0) then mret (w, None) else dequeue_sendq w);
    match sg with
    | Some sg => '(w, g) ← recv w sg gp ep; mret (w, Wake g sg (Received ep true true))
    | None =>
        let c := ch w in
        if 0 <? qcount c then
          x ← idx (buf c) (recvx c);
          b ← store (buf c) (recvx c) zero;
          let c := set_ring c b (sendx c) (next_index c (recvx c)) (u64 (qcount c - 1)) in
          mret (note_received (write (set_ch w c) ep x) gp x, Return (Received ep true true))
        else if negb block then mret (w, Return (Received ep false false)) else
          let w := acquireSudog w gp mysg ep in
          let '(σ, q) := enqueue (sgs w) (recvq (ch w)) mysg in
          mret (gopark (set_sgs (set_ch w (set_recvq (ch w) q)) σ) gp, RecvParked mysg ep)
    end.

Definition chanrecv_resume (w : world) (gp mysg : Z) (ep : option Z) : res (world * chanpc) :=
  '(w, ok) ← unpark w gp mysg; mret (w, Return (Received ep true ok)).

(** ** Closing *)

Definition closechan (w : world) : world * chanpc :=
  if negb (closed (ch w) =? 0) then (w, Return ClosePanic)
  else (set_ch w (set_lock (set_closed (ch w)) true), CloseRecvs []).

(** [gp.param = sg; sg.success = false; glist.push(gp)] *)
Definition release_waiter (w : world) (sg : Z) (glist : list Z) : res (world * list Z) :=
  gp ← g_of (sgs w) sg;
  mret (set_sgs (set_param w gp (Some sg)) (set_success (sgs w) sg false), gp :: glist).

Definition closechan_recvs (w : world) (glist : list Z) : res (world * chanpc) :=
  '(w, sg) ← dequeue_recvq w;
  match sg with
  | None => mret (w, CloseSends glist)
  | Some sg =>
      let w := match sg_elem (sgs w) !! sg with
               | Some a => set_sgs (set_mem w a zero) (set_elem (sgs w) sg None)
               | None => w
               end in
      '(w, glist) ← release_waiter w sg glist; mret (w, CloseRecvs glist)
  end.

Definition closechan_sends (w : world) (glist : list Z) : res (world * chanpc) :=
  '(w, sg) ← dequeue_sendq w;
  match sg with
  | None => mret (set_ch w (set_lock (ch w) false), CloseWake glist)
  | Some sg =>
      let w := set_sgs w (set_elem (sgs w) sg None) in
      '(w, glist) ← release_waiter w sg glist; mret (w, CloseSends glist)
  end.

Definition closechan_wake (w : world) (glist : list Z) : res (world * chanpc) :=
  match glist with
  | [] => mret (w, Return Closed)
  | gp :: glist => w ← goready w gp; mret (w, CloseWake glist)
  end.

(** ** The steps *)

(** A panic inside of the runtime ends in [Throw]. *)
Definition caught (w : world) (gp : Z) (m : res (world * chanpc)) : option (world * (Z * chanpc)) :=
  Some match m with Ok (w', p) => (w', (gp, p)) | _ => (w, (gp, Throw)) end.

Definition chancall (w : world) (gp : Z) (a : chanact) : option (world * (Z * chanpc)) :=
  match a with
  | CallSend isnil v block =>
      Some (set_mem w gp v, (gp, if isnil then if block then Forever else Return (Sent false)
                                 else if block then SendLock true else SendFast))
  | CallRecv isnil want block =>
      let ep := if want then Some gp else None in
      Some (w, (gp, if isnil then if block then Forever else Return (Received ep false false)
                    else if block then RecvLock ep true else RecvEmpty ep))
  | CallClose isnil => Some (w, (gp, if isnil then Return CloseNilPanic else CloseLock))
  | Run _ => None
  end.

Definition chanrun (w : world) (gp : Z) (p : chanpc) (sg : Z) : option (world * (Z * chanpc)) :=
  let c := ch w in
  let to p := Some (w, (gp, p)) in
  let locked m := if lock c then None else caught w gp m in
  match p with
  | Idle | Forever | Throw => None
  | SendFast => to (if closed c =? 0 then SendFull else SendLock false)
  | SendFull => to (if full c then Return (Sent false) else SendLock false)
  | SendLock block => locked (chansend w gp block sg)
  | SendParked sg => if bool_decide (gp ∈ parked w) then None else caught w gp (chansend_resume w gp sg)
  | RecvEmpty ep => to (if empty c then RecvClosed ep else RecvLock ep false)
  | RecvClosed ep => to (if closed c =? 0 then Return (Received ep false false) else RecvEmpty2 ep)
  | RecvEmpty2 ep =>
      if empty c then Some (write w ep zero, (gp, Return (Received ep true false)))
      else to (RecvLock ep false)
  | RecvLock ep block => locked (chanrecv w gp ep block sg)
  | RecvParked sg ep => if bool_decide (gp ∈ parked w) then None else caught w gp (chanrecv_resume w gp sg ep)
  | CloseLock => if lock c then None else let '(w, p) := closechan w in Some (w, (gp, p))
  | CloseRecvs glist => caught w gp (closechan_recvs w glist)
  | CloseSends glist => caught w gp (closechan_sends w glist)
  | CloseWake glist => caught w gp (closechan_wake w glist)
  | Wake g sg o => caught w gp (w ← wake w g sg; mret (w, Return o))
  | Return _ => to Idle
  end.

(** One step of a goroutine, which is given a sudog that is not in use. *)
Definition chanstep (w : world) (t : Z * chanpc) (a : chanact) : option (world * (Z * chanpc)) :=
  let '(gp, p) := t in
  match p, a with
  | Idle, a => chancall w gp a
  | p, Run sg => if bool_decide (sg ∈ inuse (sgs w)) then None else chanrun w gp p sg
  | _, _ => None
  end.

(** [n] goroutines and a channel. *)
Definition chanstart (c : hchan) (n : nat) : config world (Z * chanpc) :=
  Config (World c (Sudogs ∅ ∅ ∅ ∅ ∅ ∅ ∅) ∅ ∅ ∅ ∅ ∅ [] [])
    (imap (λ i _, (Z.of_nat i, Idle)) (replicate n ())).
End channel.
Arguments hchan : clear implicits.
Arguments world : clear implicits.
Arguments chanact : clear implicits.
