(* ===== verification/ChanQueue.v ===== *)
(** * runtime: the wait queues of channels

    The sudogs of a queue in order, and what the three operations on it do to
    that sequence and to the links. *)

From stdpp Require Import gmap.
From S2P Require Import Prelude Threads Chan.


Lemma put_ptr_eq m k p : put_ptr m k p !! k = p.
Proof. unfold put_ptr. by rewrite lookup_partial_alter_eq. Qed.

Lemma put_ptr_ne m k p k' : k ≠ k' → put_ptr m k p !! k' = m !! k'.
Proof. intros H. unfold put_ptr. by rewrite lookup_partial_alter_ne. Qed.

Fixpoint linked (nx pv : gmap Z Z) (p : option Z) (ids : list Z) : Prop :=
  match ids with
  | [] => True
  | a :: r => pv !! a = p ∧ nx !! a = head r ∧ linked nx pv (Some a) r
  end.

Fixpoint final (p : option Z) (ids : list Z) : option Z :=
  match ids with [] => p | a :: r => final (Some a) r end.

(** The queue holds the sudogs [ids], the first of them in front. *)
Record holds (σ : sudogs) (q : waitq) (ids : list Z) : Prop := {
  h_first : first q = head ids;
  h_last : Chan.last q = final None ids;
  h_linked : linked (sg_next σ) (sg_prev σ) None ids;
  h_nodup : NoDup ids;
}.

(** Nothing changes but the links of [ids]. *)
Record only_links (σ σ' : sudogs) (ids : list Z) : Prop := {
  ol_g : sg_g σ' = sg_g σ;
  ol_elem : sg_elem σ' = sg_elem σ;
  ol_select : isSelect σ' = isSelect σ;
  ol_success : success σ' = success σ;
  ol_inuse : inuse σ' = inuse σ;
  ol_links : ∀ b, b ∉ ids → sg_next σ' !! b = sg_next σ !! b ∧ sg_prev σ' !! b = sg_prev σ !! b;
}.

Lemma queue_linked_ext nx pv nx' pv' p ids : linked nx pv p ids →
  (∀ a, a ∈ ids → nx' !! a = nx !! a ∧ pv' !! a = pv !! a) → linked nx' pv' p ids.
Proof.
  revert p. induction ids as [|a r IH]; intros p; simpl; [done|]. intros (H1 & H2 & H3) He.
  destruct (He a ltac:(apply elem_of_cons; by left)) as [-> ->]. split_and!; [done..|]. apply IH; [done|].
  intros b Hb. apply He. apply elem_of_cons. by right.
Qed.

Lemma final_nonempty p p' ids : ids ≠ [] → final p ids = final p' ids.
Proof. by destruct ids. Qed.

Lemma final_elem p ids a : final p ids = Some a → p = Some a ∨ a ∈ ids.
Proof.
  revert p. induction ids as [|b r IH]; intros p; simpl; [by left|].
  intros [[= ->]|H]%IH; right; apply elem_of_cons; [by left|by right].
Qed.

Lemma final_app p l1 l2 : final p (l1 ++ l2) = final (final p l1) l2.
Proof. revert p. induction l1 as [|a l1 IH]; intros p; simpl; [done|apply IH]. Qed.

Lemma head_app_cons (l1 l2 : list Z) : l1 ≠ [] → head (l1 ++ l2) = head l1.
Proof. by destruct l1. Qed.

Lemma final_in ids a : final None ids = Some a → a ∈ ids.
Proof. by intros [?|]%final_elem. Qed.

Lemma final_none ids : final None ids = None → ids = [].
Proof.
  destruct ids as [|b r]; [done|]. simpl. revert b.
  induction r as [|c r IH]; [done|]. intros b H. by apply IH in H.
Qed.

Lemma final_cons x ids : ids ≠ [] → final (Some x) ids = final None ids.
Proof. by apply final_nonempty. Qed.

(** An element at the end: the links of the others stay, but for the next of the
    last one. *)
Lemma linked_snoc nx pv nx' pv' p ids a : linked nx pv p ids → NoDup ids →
  (∀ b, b ∈ ids → pv' !! b = pv !! b) →
  (∀ b, b ∈ ids → final None ids ≠ Some b → nx' !! b = nx !! b) →
  (∀ b, final None ids = Some b → nx' !! b = Some a) →
  pv' !! a = final p ids → nx' !! a = None → linked nx' pv' p (ids ++ [a]).
Proof.
  revert p. induction ids as [|x r IH]; intros p; simpl.
  { intros _ _ _ _ _ -> ->. done. }
  intros (H1 & H2 & H3) [Hx Hr]%NoDup_cons Hpv Hnx Hl Ha Hn.
  assert (∀ b, b ∈ r → b ∈ x :: r) as Hin by (intros; by apply elem_of_cons; right).
  destruct (decide (r = [])) as [->|Hne].
  { simpl in *. split_and!; [|by apply Hl|done|done|done].
    rewrite Hpv; [done|]. apply elem_of_cons. by left. }
  rewrite (final_cons x r Hne) in *.
  split; [rewrite Hpv; [done|apply elem_of_cons; by left]|]. split.
  - rewrite head_app_cons, Hnx; [done|apply elem_of_cons; by left| |done]. by intros ?%final_in.
  - apply IH; try done; [intros b Hb; by apply Hpv, Hin|intros b Hb; by apply Hnx, Hin|].
    by rewrite final_cons.
Qed.

(** Without an element: its neighbours are linked to each other. *)
Lemma linked_remove nx pv nx' pv' p l1 a l2 : linked nx pv p (l1 ++ a :: l2) →
  NoDup (l1 ++ a :: l2) →
  (∀ b, b ∈ l1 ++ l2 → head l2 ≠ Some b → pv' !! b = pv !! b) →
  (∀ b, head l2 = Some b → pv' !! b = final p l1) →
  (∀ b, b ∈ l1 ++ l2 → final None l1 ≠ Some b → nx' !! b = nx !! b) →
  (∀ b, final None l1 = Some b → nx' !! b = head l2) →
  linked nx' pv' p (l1 ++ l2).
Proof.
  revert p. induction l1 as [|x r IH]; intros p; simpl.
  - intros (_ & _ & H) [Ha Hd]%NoDup_cons Hpv Hh Hnx _. destruct l2 as [|b l2]; [done|].
    simpl in *. destruct H as (H1 & H2 & H3). split; [by apply Hh|].
    split; [rewrite Hnx; [done|apply elem_of_cons; by left|done]|].
    apply NoDup_cons in Hd as [Hb _]. apply (queue_linked_ext nx pv); [done|].
    intros c Hc. split; [apply Hnx|apply Hpv]; rewrite ?elem_of_cons; auto; congruence.
  - intros (H1 & H2 & H3) [Hx Hd]%NoDup_cons Hpv Hh Hnx Hf.
    assert (x ∉ r ∧ x ≠ a ∧ x ∉ l2) as (Hxr & Hxa & Hx2)
      by (rewrite elem_of_app, elem_of_cons in Hx; tauto).
    assert (∀ b, b ∈ r ++ l2 → b ∈ x :: r ++ l2) as Hin by (intros; by apply elem_of_cons; right).
    assert (x ∈ x :: r ++ l2) as Hxin by (apply elem_of_cons; by left).
    split; [rewrite Hpv; [done..|]; destruct l2; [done|]; rewrite elem_of_cons in Hx2; simpl; naive_solver|].
    destruct (decide (r = [])) as [->|Hne].
    + simpl in *. split; [by apply Hf|]. apply (IH (Some x)); try done.
      * intros b Hb. by apply Hpv, Hin.
      * intros b Hb _. apply Hnx; [by apply Hin|]. congruence.
    + rewrite (final_cons x r Hne) in *. split.
      * rewrite head_app_cons, Hnx, H2, head_app_cons; try done. by intros ?%final_in.
      * apply IH; try done; [intros b Hb; by apply Hpv, Hin|intros b Hb; rewrite final_cons by done; by apply Hh|
          intros b Hb; by apply Hnx, Hin].
Qed.

(** Reading a link behind writes to others. *)
Ltac links :=
  repeat match goal with
  | |- context [put_ptr ?m ?k ?p !! ?k] => rewrite (put_ptr_eq m k p)
  | H : ?k ≠ ?k' |- context [put_ptr ?m ?k ?p !! ?k'] => rewrite (put_ptr_ne m k p k' H)
  | H : ?k' ≠ ?k |- context [put_ptr ?m ?k ?p !! ?k'] => rewrite (put_ptr_ne m k p k' (not_eq_sym H))
  end.

Lemma enqueue_spec σ q ids a : holds σ q ids → a ∉ ids →
  let '(σ', q') := enqueue σ q a in
  holds σ' q' (ids ++ [a]) ∧ only_links σ σ' (a :: ids).
Proof.
  intros [Hf Hl Hlk Hd] Ha. unfold enqueue. rewrite Hl.
  assert (NoDup (ids ++ [a])) as Hd'.
  { apply NoDup_app. split; [done|]. split; [|apply NoDup_singleton].
    intros b Hb ->%list_elem_of_singleton. done. }
  assert (∀ b, b ∈ ids → a ≠ b) as Hne by congruence.
  destruct (final None ids) as [x|] eqn:Hx.
  - pose proof (final_in _ _ Hx) as Hin. pose proof (Hne x Hin). split; [split|].
    + simpl. rewrite Hf. destruct ids; [by apply elem_of_nil in Hin|done].
    + simpl. by rewrite final_app.
    + apply (linked_snoc (sg_next σ) (sg_prev σ)); simpl; try done.
      * intros b Hb. pose proof (Hne b Hb). by links.
      * intros b Hb Hxb. pose proof (Hne b Hb). assert (x ≠ b) by congruence. by links.
      * rewrite Hx. intros b [= <-]. by links.
      * links. by rewrite Hx.
      * by links.
    + done.
    + split; simpl; try done. intros b Hb. rewrite elem_of_cons in Hb.
      assert (a ≠ b ∧ x ≠ b) as [? ?] by naive_solver. by links.
  - assert (ids = []) as ->.
    { by apply final_none. }
    split; [split|]; simpl; try done.
    + by links.
    + split; simpl; try done. intros b Hb. rewrite elem_of_cons in Hb.
      assert (a ≠ b) by naive_solver. by links.
Qed.

(** The front of the queue is taken off. *)
Definition unlink_first (σ : sudogs) (q : waitq) (sgp : Z) : sudogs * waitq :=
  match sg_next σ !! sgp with
  | None => (σ, Waitq None None)
  | Some y => (set_next (set_prev σ y None) sgp None, Waitq (Some y) (Chan.last q))
  end.

Lemma unlink_first_spec σ q a ids : holds σ q (a :: ids) →
  let '(σ', q') := unlink_first σ q a in
  holds σ' q' ids ∧ only_links σ σ' (a :: ids) ∧
  sg_next σ' !! a = None ∧ sg_prev σ' !! a = None.
Proof.
  intros [Hf Hl Hlk Hd]. unfold unlink_first. simpl in Hlk. destruct Hlk as (H1 & H2 & H3).
  assert (Hd' := Hd). apply NoDup_cons in Hd' as [Ha Hd'].
  rewrite H2. destruct ids as [|y r]; simpl.
  - split_and!; [by split; try apply NoDup_nil_2|by split|done|done].
  - assert (a ≠ y) as Hay by (rewrite elem_of_cons in Ha; tauto).
    split_and!; [split; simpl|split; simpl; try done| |]; try done.
    + simpl in H3. destruct H3 as (_ & H4 & H5). links. split; [done|]. split; [done|].
      apply (queue_linked_ext (sg_next σ) (sg_prev σ)); [done|].
      intros c Hc. apply NoDup_cons in Hd' as [Hy _].
      assert (a ≠ c) by (rewrite elem_of_cons in Ha; naive_solver). assert (y ≠ c) by naive_solver.
      by links.
    + intros b Hb. rewrite !elem_of_cons in Hb. assert (a ≠ b ∧ y ≠ b) as [? ?] by naive_solver.
      by links.
    + by links.
    + by links.
Qed.

(** Which sudog [dequeue] takes: the first that is not of a select, or whose
    select it wins; the ones before it are dropped. *)
Fixpoint pick (σ : sudogs) (dn : gmap Z Z) (ids : list Z) : gmap Z Z * list Z * option Z :=
  match ids with
  | [] => (dn, [], None)
  | a :: ids =>
      if decide (a ∈ isSelect σ) then
        let g := default 0 (sg_g σ !! a) in
        if decide (default 0 (dn !! g) = 0) then (<[g:=1]> dn, ids, Some a)
        else pick σ dn ids
      else (dn, ids, Some a)
  end.

Definition sudogs_ok (σ : sudogs) (ids : list Z) : Prop :=
  ∀ a, a ∈ ids → a ∈ inuse σ ∧ is_Some (sg_g σ !! a).

Lemma queue_links_trans σ σ' σ'' ids ids' : only_links σ σ' ids → only_links σ' σ'' ids' →
  (∀ a, a ∈ ids' → a ∈ ids) → only_links σ σ'' ids.
Proof.
  intros [A1 A2 A3 A4 A5 A6] [B1 B2 B3 B4 B5 B6] Hs. split; [congruence..|].
  intros b Hb. destruct (A6 b Hb) as [<- <-]. apply B6. naive_solver.
Qed.

Lemma queue_links_refl σ ids : only_links σ σ ids.
Proof. by split. Qed.

Lemma pick_ext σ σ' dn ids : isSelect σ' = isSelect σ → sg_g σ' = sg_g σ →
  pick σ' dn ids = pick σ dn ids.
Proof.
  intros E1 E2. revert dn. induction ids as [|a ids IH]; intros dn; simpl; [done|].
  rewrite E1, E2. case_decide; [|done]. case_decide; [done|]. apply IH.
Qed.

(** The loop of [dequeue] with fuel for the sudogs of the queue. *)
Lemma dequeue_loop fuel σ dn q ids : holds σ q ids → sudogs_ok σ ids → (length ids < fuel)%nat →
  ∃ σ' q', loop fuel (λ '(dn, σ, q),
    match first q with
    | None => mret (inr (dn, σ, q, None))
    | Some sgp =>
        let '(σ, q) := unlink_first σ q sgp in
        if bool_decide (sgp ∈ isSelect σ) then
          g ← g_of σ sgp;
          if default 0 (dn !! g) =? 0 then mret (inr (<[g:=1]> dn, σ, q, Some sgp))
          else mret (inl (dn, σ, q))
        else mret (inr (dn, σ, q, Some sgp))
    end) (dn, σ, q) =
      Ok (let '(dn', ids', sg) := pick σ dn ids in (dn', σ', q', sg)) ∧
  holds σ' q' (snd (fst (pick σ dn ids))) ∧ only_links σ σ' ids ∧
  ∀ a, snd (pick σ dn ids) = Some a → sg_next σ' !! a = None ∧ sg_prev σ' !! a = None.
Proof.
  revert fuel σ dn q. induction ids as [|a ids IH]; intros [|fuel] σ dn q Hq Hok Hfuel; try lia.
  { exists σ, q. destruct Hq as [Hf Hl Hlk Hd]. rewrite loop_S. cbv beta iota. rewrite Hf. split; [done|]. by split_and!. }
  pose proof (unlink_first_spec σ q a ids Hq) as Hu. rewrite loop_S. cbv beta iota. rewrite (h_first _ _ _ Hq).
  cbn [head]. destruct (unlink_first σ q a) as [σ1 q1]. destruct Hu as (Hq1 & Ho & Hn & Hp).
  simpl pick. rewrite (ol_select _ _ _ Ho).
  destruct (decide (a ∈ isSelect σ)) as [Hs|Hs].
  2: { rewrite bool_decide_false by done. exists σ1, q1. split; [done|]. split_and!; [done|done|].
       by intros b [= <-]. }
  rewrite bool_decide_true by done. unfold g_of. rewrite (ol_g _ _ _ Ho).
  destruct (Hok a ltac:(apply elem_of_cons; by left)) as [Hin [g Hg]]. rewrite Hg. simpl default.
  cbn [mbind res_bind]. destruct (decide (default 0 (dn !! g) = 0)) as [E|E].
  { rewrite (proj2 (Z.eqb_eq _ _) E). exists σ1, q1. split; [done|]. split_and!; [done|done|].
    by intros b [= <-]. }
  rewrite (proj2 (Z.eqb_neq _ _) E). cbn [mret res_ret mbind res_bind].
  destruct (IH fuel σ1 dn q1 Hq1) as (σ2 & q2 & E2 & Hq2 & Ho2 & Hl2); [|simpl in Hfuel; lia|].
  { intros b Hb. rewrite (ol_inuse _ _ _ Ho), (ol_g _ _ _ Ho). apply Hok. apply elem_of_cons. by right. }
  rewrite (pick_ext σ σ1) in E2, Hq2, Hl2 by apply Ho.
  exists σ2, q2. split; [exact E2|]. split_and!; [done| |done].
  apply (queue_links_trans _ _ _ _ _ Ho Ho2). intros. apply elem_of_cons. by right.
Qed.

Lemma dequeue_spec σ dn q ids : holds σ q ids → sudogs_ok σ ids →
  ∃ σ' q', dequeue σ dn q = Ok (let '(dn', ids', sg) := pick σ dn ids in (dn', σ', q', sg)) ∧
  holds σ' q' (snd (fst (pick σ dn ids))) ∧ only_links σ σ' ids ∧
  ∀ a, snd (pick σ dn ids) = Some a → sg_next σ' !! a = None ∧ sg_prev σ' !! a = None.
Proof.
  intros Hq Hok. apply dequeue_loop; [done|done|].
  assert (length ids ≤ size (inuse σ))%nat; [|lia].
  rewrite <-(size_list_to_set (C := gset Z) ids) by apply Hq. apply subseteq_size.
  intros a Ha%elem_of_list_to_set. by apply Hok.
Qed.

(** Without selects the first one is taken. *)
Lemma dequeue_first σ dn q ids : holds σ q ids → sudogs_ok σ ids →
  (∀ a, a ∈ ids → a ∉ isSelect σ) →
  ∃ σ' q', dequeue σ dn q = Ok (dn, σ', q', head ids) ∧
  holds σ' q' (tail ids) ∧ only_links σ σ' ids ∧
  ∀ a, head ids = Some a → sg_next σ' !! a = None ∧ sg_prev σ' !! a = None.
Proof.
  intros Hq Hok Hs. destruct (dequeue_spec σ dn q ids Hq Hok) as (σ' & q' & E & H).
  assert (pick σ dn ids = (dn, tail ids, head ids)) as Ep.
  { destruct ids as [|a ids]; [done|]. simpl. rewrite decide_False; [done|].
    apply Hs, elem_of_cons. by left. }
  rewrite Ep in E, H. by exists σ', q'.
Qed.

Lemma linked_at nx pv p l1 a l2 : linked nx pv p (l1 ++ a :: l2) →
  pv !! a = final p l1 ∧ nx !! a = head l2.
Proof.
  revert p. induction l1 as [|x l1 IH]; intros p; simpl; [tauto|]. intros (_ & _ & H). by apply IH.
Qed.

Lemma queue_head_in (l : list Z) b : head l = Some b → b ∈ l.
Proof. destruct l; [done|]. intros [= ->]. apply elem_of_cons. by left. Qed.

Lemma dequeueSudoG_spec σ q l1 a l2 : holds σ q (l1 ++ a :: l2) →
  let '(σ', q') := dequeueSudoG σ q a in
  holds σ' q' (l1 ++ l2) ∧ only_links σ σ' (l1 ++ a :: l2) ∧
  sg_next σ' !! a = None ∧ sg_prev σ' !! a = None.
Proof.
  intros [Hf Hl Hlk Hd]. unfold dequeueSudoG.
  destruct (linked_at _ _ _ _ _ _ Hlk) as [Hp Hn]. rewrite Hp, Hn.
  assert (NoDup (l1 ++ l2) ∧ a ∉ l1 ++ l2) as [Hd' Ha].
  { apply NoDup_app in Hd as (D1 & D2 & D3). apply NoDup_cons in D3 as [D3 D4].
    rewrite NoDup_app, elem_of_app.
    split; [|intros [H|H]; [apply (D2 a H), elem_of_cons; by left|done]].
    split; [done|]. split; [|done]. intros x Hx Hx2. apply (D2 x Hx). apply elem_of_cons. by right. }
  assert (∀ b, b ∈ l1 ++ l2 → a ≠ b) as Hne by congruence.
  assert (∀ b, final None l1 = Some b → b ∈ l1 ++ l2) as Hin1
    by (intros b Hb%final_in; apply elem_of_app; by left).
  assert (∀ b, head l2 = Some b → b ∈ l1 ++ l2) as Hin2
    by (intros b Hb%queue_head_in; apply elem_of_app; by right).
  assert (∀ b x, x ∈ l1 ++ l2 → b ∉ l1 ++ a :: l2 → a ≠ b ∧ x ≠ b) as Hout.
  { intros b x Hx Hb. rewrite elem_of_app in Hx. rewrite elem_of_app, elem_of_cons in Hb.
    split; [|intros ->]; naive_solver. }
  assert (∀ σ', (∀ b, b ∈ l1 ++ l2 → head l2 ≠ Some b → sg_prev σ' !! b = sg_prev σ !! b) →
    (∀ b, head l2 = Some b → sg_prev σ' !! b = final None l1) →
    (∀ b, b ∈ l1 ++ l2 → final None l1 ≠ Some b → sg_next σ' !! b = sg_next σ !! b) →
    (∀ b, final None l1 = Some b → sg_next σ' !! b = head l2) →
    holds σ' (Waitq (head (l1 ++ l2)) (final None (l1 ++ l2))) (l1 ++ l2)) as Hh.
  { intros σ' H1 H2 H3 H4. split; simpl; [done|done| |done].
    by apply (linked_remove (sg_next σ) (sg_prev σ) _ _ None l1 a l2). }
  assert (∀ σ' q', q' = Waitq (head (l1 ++ l2)) (final None (l1 ++ l2)) →
    only_links σ σ' (l1 ++ a :: l2) → sg_next σ' !! a = None → sg_prev σ' !! a = None →
    holds σ' (Waitq (head (l1 ++ l2)) (final None (l1 ++ l2))) (l1 ++ l2) →
    holds σ' q' (l1 ++ l2) ∧ only_links σ σ' (l1 ++ a :: l2) ∧
    sg_next σ' !! a = None ∧ sg_prev σ' !! a = None) as Hgoal by (by intros σ' q' ->).
  assert (q = Waitq (head (l1 ++ a :: l2)) (final None (l1 ++ a :: l2))) as Eq
    by (destruct q; simpl in *; congruence).
  rewrite final_app in *.
  destruct (final None l1) as [x|] eqn:Hx; destruct (head l2) as [y|] eqn:Hy.
  - destruct l1 as [|l0 l1]; [done|]. destruct l2 as [|l3 l2]; [done|]. injection Hy as ->.
    pose proof (Hin1 x eq_refl). pose proof (Hin2 y eq_refl).
    pose proof (Hne x ltac:(done)). pose proof (Hne y ltac:(done)).
    apply Hgoal; [done|split; try done| | |apply Hh]; simpl.
    + intros b Hb. destruct (Hout b x) as [? ?]; [done..|]. destruct (Hout b y) as [? ?]; [done..|]. by links.
    + by links.
    + by links.
    + intros b Hb Hyb. pose proof (Hne b Hb). assert (y ≠ b) by congruence. by links.
    + intros b [= <-]. by links.
    + intros b Hb Hxb. pose proof (Hne b Hb). assert (x ≠ b) by congruence. by links.
    + intros b [= <-]. by links.
  - destruct l1 as [|l0 l1]; [done|]. destruct l2 as [|l3 l2]; [|done].
    pose proof (Hin1 x eq_refl). pose proof (Hne x ltac:(done)).
    apply Hgoal; [subst q; simpl; by rewrite ?app_nil_r, <-Hx|split; try done| | |apply Hh]; simpl.
    + intros b Hb. destruct (Hout b x) as [? ?]; [done..|]. by links.
    + by links.
    + by links.
    + intros b Hb Hyb. pose proof (Hne b Hb). by links.
    + done.
    + intros b Hb Hxb. pose proof (Hne b Hb). assert (x ≠ b) by congruence. by links.
    + intros b [= <-]. by links.
  - apply final_none in Hx as ->. destruct l2 as [|l3 l2]; [done|]. injection Hy as ->.
    pose proof (Hin2 y eq_refl). pose proof (Hne y ltac:(done)).
    apply Hgoal; [by subst q|split; try done| | |apply Hh]; simpl.
    + intros b Hb. destruct (Hout b y) as [? ?]; [done..|]. by links.
    + by links.
    + by links.
    + intros b Hb Hyb. pose proof (Hne b Hb). assert (y ≠ b) by congruence. by links.
    + intros b [= <-]. by links.
    + intros b Hb Hxb. pose proof (Hne b Hb). by links.
    + done.
  - apply final_none in Hx as ->. destruct l2 as [|l3 l2]; [|done].
    apply Hgoal; [subst q; simpl; by rewrite bool_decide_true|by split|done|done|by apply Hh].
Qed.

(** A sudog that is not in the queue, and whose links are cleared. *)
Lemma dequeueSudoG_absent σ q ids a : holds σ q ids → a ∉ ids →
  sg_next σ !! a = None → sg_prev σ !! a = None → dequeueSudoG σ q a = (σ, q).
Proof.
  intros [Hf _ _ _] Ha Hn Hp. unfold dequeueSudoG. rewrite Hn, Hp, bool_decide_false; [done|].
  rewrite Hf. by intros ?%queue_head_in.
Qed.
