(* ===== verification/ChanProofs.v ===== *)
(** * runtime: the invariant of a channel and its goroutines

    The ring buffer as the sequence of the elements in it, and what holds at every
    point of every goroutine in every reachable state. *)

From stdpp Require Import gmap relations.
From S2P Require Import Prelude Threads Chan ChanQueue.

Section proofs.
Context {V : Type} (zero : V).
Implicit Types (c : hchan V) (w : world V) (ts : list (Z * chanpc)) (items : list V).

(** ** The ring buffer *)

(** The place of the [k]-th element. *)
Definition place c (k : Z) : Z :=
  if recvx c + k <? dataqsiz c then recvx c + k else recvx c + k - dataqsiz c.

Record ring_ok c items : Prop := {
  ro_len : len (buf c) = dataqsiz c;
  ro_size : dataqsiz c < 2 ^ 63;
  ro_count : qcount c = len items;
  ro_full : len items ≤ dataqsiz c;
  ro_recvx : 0 ≤ recvx c ∧ (dataqsiz c = 0 ∨ recvx c < dataqsiz c);
  ro_sendx : dataqsiz c = 0 ∨ sendx c = place c (qcount c);
  ro_items : ∀ k, 0 ≤ k < len items → zget items k = zget (buf c) (place c k);
}.

Lemma next_index_eq c x : 0 ≤ x < dataqsiz c → dataqsiz c < 2 ^ 63 →
  next_index c x = if x + 1 =? dataqsiz c then 0 else x + 1.
Proof. intros Hx Hs. unfold next_index. by rewrite uwrap_small by (unfold is_uint; lia). Qed.

Lemma store_zset (l : list V) i v : 0 ≤ i < len l → store l i v = Ok (zset l i v).
Proof. intros Hi. unfold store. by rewrite decide_True. Qed.

Lemma ring_push c items v : ring_ok c items → len items < dataqsiz c →
  ∃ b, store (buf c) (sendx c) v = Ok b ∧
    ring_ok (set_ring c b (next_index c (sendx c)) (recvx c) (u64 (qcount c + 1))) (items ++ [v]).
Proof.
  intros [H1 H2 H3 H4 [H5 H5'] H6 H7] Hlt. pose proof (len_nonneg items) as Hn.
  destruct H5' as [|H5']; [lia|]. destruct H6 as [|H6]; [lia|].
  assert (0 ≤ sendx c < dataqsiz c) as Hs by (rewrite H6; unfold place; zcases; lia).
  exists (zset (buf c) (sendx c) v). split; [apply store_zset; lia|].
  assert (len (items ++ [v]) = len items + 1) as El by (by rewrite len_app, len_cons, len_nil).
  assert (u64 (qcount c + 1) = qcount c + 1) as Eq by (apply uwrap_small; unfold is_uint; lia).
  split; simpl; rewrite ?El, ?Eq; try lia.
  - by rewrite len_zset.
  - right. rewrite next_index_eq, H6 by lia. unfold place. simpl. zcases; lia.
  - intros k Hk. change (place _ k) with (place c k).
    destruct (Z.eq_dec k (len items)) as [->|Hne].
    + rewrite zget_mid, <-H3, <-H6, zget_zset_eq by lia. done.
    + rewrite zget_app_l, H7 by lia. rewrite zget_zset_ne; [done|lia|].
      rewrite H6, H3. unfold place. zcases; lia.
Qed.

Lemma ring_pop c x items : ring_ok c (x :: items) →
  idx (buf c) (recvx c) = Ok x ∧
  ∃ b, store (buf c) (recvx c) zero = Ok b ∧
    ring_ok (set_ring c b (sendx c) (next_index c (recvx c)) (u64 (qcount c - 1))) items.
Proof.
  intros [H1 H2 H3 H4 [H5 H5'] H6 H7]. pose proof (len_nonneg items) as Hn. rewrite len_cons in *.
  destruct H5' as [|H5']; [lia|]. destruct H6 as [|H6]; [lia|].
  assert (place c 0 = recvx c) as E0 by (unfold place; zcases; lia).
  split. { apply idx_Ok. rewrite <-E0, <-H7 by lia. done. }
  exists (zset (buf c) (recvx c) zero). split; [apply store_zset; lia|].
  assert (u64 (qcount c - 1) = qcount c - 1) as Eq by (apply uwrap_small; unfold is_uint; lia).
  assert (∀ k, 0 ≤ k < dataqsiz c → place (set_ring c (zset (buf c) (recvx c) zero) (sendx c)
    (next_index c (recvx c)) (qcount c - 1)) k = place c (k + 1)) as Ep.
  { intros k Hk. unfold place. simpl. rewrite next_index_eq by lia. zcases; lia. }
  split; simpl; rewrite ?Eq; try lia.
  - by rewrite len_zset.
  - rewrite next_index_eq by lia. zcases; lia.
  - right. rewrite Ep, H6 by lia. f_equal. lia.
  - intros k Hk. rewrite Ep by lia. rewrite zget_zset_ne; [|lia|].
    + rewrite <-H7 by lia. rewrite (zget_cons _ _ (k + 1)) by lia. f_equal. lia.
    + unfold place. zcases; lia.
Qed.

(** [recv] on a full buffer: the front out, the sender's value in its place. *)
Lemma ring_swap c x items v : ring_ok c (x :: items) → len (x :: items) = dataqsiz c →
  idx (buf c) (recvx c) = Ok x ∧
  ∃ b, store (buf c) (recvx c) v = Ok b ∧
    let r := next_index c (recvx c) in ring_ok (set_ring c b r r (qcount c)) (items ++ [v]).
Proof.
  intros [H1 H2 H3 H4 [H5 H5'] H6 H7] Hfull. pose proof (len_nonneg items) as Hn. rewrite len_cons in *.
  destruct H5' as [|H5']; [lia|]. destruct H6 as [|H6]; [lia|].
  assert (place c 0 = recvx c) as E0 by (unfold place; zcases; lia).
  split. { apply idx_Ok. rewrite <-E0, <-H7 by lia. done. }
  exists (zset (buf c) (recvx c) v). split; [apply store_zset; lia|]. intros r.
  assert (len (items ++ [v]) = len items + 1) as El by (by rewrite len_app, len_cons, len_nil).
  assert (r = if recvx c + 1 =? dataqsiz c then 0 else recvx c + 1) as Er by by apply next_index_eq.
  assert (∀ k, 0 ≤ k < dataqsiz c → place (set_ring c (zset (buf c) (recvx c) v) r r (qcount c)) k
    = if k + 1 =? dataqsiz c then recvx c else place c (k + 1)) as Ep.
  { intros k Hk. unfold place. simpl. rewrite Er. zcases; lia. }
  split; simpl; rewrite ?El; try lia.
  - by rewrite len_zset.
  - rewrite Er. zcases; lia.
  - right. unfold place. simpl. rewrite Er. zcases; lia.
  - intros k Hk. rewrite Ep by lia. destruct (Z.eqb_spec (k + 1) (dataqsiz c)) as [E|E].
    + assert (k = len items) as -> by lia. by rewrite zget_mid, zget_zset_eq by lia.
    + rewrite zget_app_l by lia. rewrite zget_zset_ne; [|lia|].
      * rewrite <-H7 by lia. rewrite (zget_cons _ _ (k + 1)) by lia. f_equal. lia.
      * unfold place. zcases; lia.
Qed.

(** ** What holds at the points of the goroutines *)

Definition bit (P : Prop) `{Decision P} : Z := if decide P then 1 else 0.

Lemma bit_range P `{Decision P} : 0 ≤ bit P ≤ 1.
Proof. unfold bit. case_decide; lia. Qed.

Lemma bit_true P `{Decision P} : P → bit P = 1.
Proof. unfold bit. by case_decide. Qed.

Lemma bit_false P `{Decision P} : ¬ P → bit P = 0.
Proof. unfold bit. by case_decide. Qed.

Fixpoint occurs (g : Z) (l : list Z) : Z :=
  match l with [] => 0 | x :: l => bit (x = g) + occurs g l end.

Lemma occurs_nonneg g l : 0 ≤ occurs g l.
Proof. induction l as [|x l IH]; simpl; [lia|]. pose proof (bit_range (x = g)). lia. Qed.

Lemma occurs_pos l g : g ∈ l → 0 < occurs g l.
Proof.
  induction l as [|x l IH]; [by intros ?%elem_of_nil|]. pose proof (occurs_nonneg g l).
  pose proof (bit_range (x = g)). intros [<-|H1]%elem_of_cons; simpl; [|specialize (IH H1); lia].
  rewrite bit_true by done. lia.
Qed.

(** How often the goroutine still has to be made ready by another. *)
Definition wakes (g : Z) (t : Z * chanpc) : Z :=
  match snd t with
  | Wake g' _ _ => bit (g' = g)
  | CloseRecvs gl | CloseSends gl | CloseWake gl => occurs g gl
  | _ => 0
  end.

(** Who holds the lock over several steps. *)
Definition closing (t : Z * chanpc) : Z :=
  match snd t with CloseRecvs _ | CloseSends _ => 1 | _ => 0 end.

Definition thread ts (g : Z) (p : chanpc) : Prop := 0 ≤ g ∧ ts !! Z.to_nat g = Some (g, p).

(** The sudog that a parked goroutine waits on, and the variable in it. *)
Definition waits (p : chanpc) : option Z :=
  match p with SendParked a | RecvParked a _ => Some a | _ => None end.
Definition variable (g : Z) (p : chanpc) : option Z :=
  match p with RecvParked _ ep => ep | _ => Some g end.

(** When the call of a goroutine began: what it had sent and received before, and
    its variable. *)
Record past := Past { p_sent : list V; p_got : list V; p_value : V }.

(** The sudogs in the queues, the elements in the buffer, the calls. *)
Record view := View { rs : list Z; ss : list Z; items : list V; began : Z → past }.
Implicit Types (v : view).

Definition queued v (p : chanpc) : Prop :=
  match p with SendParked a => a ∈ ss v | RecvParked a _ => a ∈ rs v | _ => False end.
#[export] Instance queued_dec v p : Decision (queued v p).
Proof. destruct p; simpl; apply _. Defined.

Definition mine w (g a : Z) : Prop :=
  waiting w !! g = Some a ∧ sg_g (sgs w) !! a = Some g ∧ a ∈ inuse (sgs w) ∧ a ∉ isSelect (sgs w).

Definition cleared w (a : Z) : Prop :=
  sg_elem (sgs w) !! a = None ∧ sg_next (sgs w) !! a = None ∧ sg_prev (sgs w) !! a = None.

(** The values that [g] sent, or received. *)
Definition own (g : Z) (l : list (Z * V)) : list V :=
  omap (λ e, if decide (fst e = g) then Some (snd e) else None) l.

Definition its_variable (g : Z) (ep : option Z) : Prop := ep = None ∨ ep = Some g.

(** Since its call began [g] has sent [s] and received [r]. *)
Definition moved w v (g : Z) (s r : list V) : Prop :=
  own g (sent w) = p_sent (began v g) ++ s ∧ own g (received w) = p_got (began v g) ++ r.

(** Nothing yet, and its variable is as it was. *)
Definition pending w v (g : Z) : Prop := moved w v g [] [] ∧ value zero w g = p_value (began v g).

(** What is true when an operation returns. *)
Definition result w v (g : Z) (o : outcome) : Prop :=
  match o with
  | Sent true => moved w v g [p_value (began v g)] []
  | Received ep s ok => its_variable g ep ∧
      if s then if ok then ∃ x, moved w v g [] [x] ∧ (ep = Some g → value zero w g = x)
        else closed (ch w) ≠ 0 ∧ items v = [] ∧ moved w v g [] [] ∧ (ep = Some g → value zero w g = zero)
      else pending w v g
  | SendPanic | Closed | ClosePanic => closed (ch w) ≠ 0 ∧ pending w v g
  | Sent false | CloseNilPanic => pending w v g
  end.

(** What a parked goroutine returns when it is woken. *)
Definition resumed w v (g : Z) (p : chanpc) (ok : bool) : Prop :=
  match p with
  | SendParked _ => result w v g (if ok then Sent true else SendPanic)
  | RecvParked _ ep => result w v g (Received ep true ok)
  | _ => False
  end.

(** In the queue with its variable in the sudog, or taken out of it. *)
Definition asleep w v (g a : Z) (p : chanpc) : Prop :=
  mine w g a ∧ its_variable g (variable g p) ∧
  ((queued v p ∧ sg_elem (sgs w) !! a = variable g p ∧ pending w v g) ∨
   (a ∉ rs v ++ ss v ∧ cleared w a ∧
    (g ∉ parked w → resumed w v g p (bool_decide (a ∈ success (sgs w)))))).

(** Taken out by [closechan]. *)
Definition dropped w ts v (gl : list Z) : Prop := ∀ g, g ∈ gl →
  ∃ p a, thread ts g p ∧ waits p = Some a ∧ a ∉ success (sgs w) ∧ resumed w v g p false.

Definition local w ts v (g : Z) (p : chanpc) : Prop :=
  match p with
  | SendParked a | RecvParked a _ => asleep w v g a p
  | Wake g' a o =>
      (∃ p', thread ts g' p' ∧ waits p' = Some a ∧ resumed w v g' p' true) ∧ result w v g o
  | CloseRecvs gl => dropped w ts v gl ∧ closed (ch w) ≠ 0 ∧ pending w v g
  | CloseSends gl => dropped w ts v gl ∧ closed (ch w) ≠ 0 ∧ rs v = [] ∧ pending w v g
  | CloseWake gl => dropped w ts v gl ∧ closed (ch w) ≠ 0 ∧ pending w v g
  | RecvEmpty ep | RecvClosed ep | RecvLock ep _ => its_variable g ep ∧ pending w v g
  | RecvEmpty2 ep => its_variable g ep ∧ closed (ch w) ≠ 0 ∧ pending w v g
  | Return o => result w v g o
  | Throw => False
  | SendFast | SendFull | SendLock _ | CloseLock => pending w v g
  | Idle | Forever => True
  end.

(** A goroutine is asleep while it is in a queue or its wake-up is pending. *)
Definition ticket w ts v (g : Z) (p : chanpc) : Prop :=
  bit (queued v p) + total (wakes g) ts = bit (g ∈ parked w) ∧ (waits p = None → g ∉ parked w).

Record globals w ts v : Prop := {
  ci_ring : ring_ok (ch w) (items v);
  ci_history : map snd (sent w) = map snd (received w) ++ items v;
  ci_recvq : holds (sgs w) (recvq (ch w)) (rs v);
  ci_sendq : holds (sgs w) (sendq (ch w)) (ss v);
  ci_nodup : NoDup (rs v ++ ss v);
  ci_recvs : ∀ a, a ∈ rs v → ∃ g ep, thread ts g (RecvParked a ep);
  ci_sends : ∀ a, a ∈ ss v → ∃ g, thread ts g (SendParked a);
  ci_waiting_recvs : rs v ≠ [] → items v = [] ∧ ss v = [];
  ci_waiting_sends : ss v ≠ [] → len (items v) = dataqsiz (ch w);
  ci_lock : total closing ts = bit (lock (ch w) = true);
  ci_locked : lock (ch w) = true → closed (ch w) ≠ 0;
  ci_closed : closed (ch w) ≠ 0 → lock (ch w) = false → rs v = [] ∧ ss v = [];
}.

Record chan_inv w ts v : Prop := {
  ci_ids : ∀ i t, ts !! i = Some t → fst t = Z.of_nat i;
  ci_local : ∀ g p, thread ts g p → local w ts v g p;
  ci_ticket : ∀ g p, thread ts g p → ticket w ts v g p;
  ci_globals : globals w ts v;
}.

(** ** A goroutine that a step does not touch *)

Record same w w' ts ts' v v' (g : Z) : Prop := {
  sm_waiting : waiting w' !! g = waiting w !! g;
  sm_value : value zero w' g = value zero w g;
  sm_sent : own g (sent w') = own g (sent w);
  sm_got : own g (received w') = own g (received w);
  sm_began : began v' g = began v g;
  sm_parked : g ∈ parked w' ↔ g ∈ parked w;
  sm_wakes : total (wakes g) ts' = total (wakes g) ts;
  sm_sudog : ∀ a, mine w g a →
    sg_g (sgs w') !! a = sg_g (sgs w) !! a ∧ sg_elem (sgs w') !! a = sg_elem (sgs w) !! a ∧
    a ∈ inuse (sgs w') ∧ a ∉ isSelect (sgs w') ∧
    (a ∈ success (sgs w') ↔ a ∈ success (sgs w)) ∧
    (a ∈ rs v' ↔ a ∈ rs v) ∧ (a ∈ ss v' ↔ a ∈ ss v) ∧
    (a ∉ rs v ++ ss v → sg_next (sgs w') !! a = sg_next (sgs w) !! a ∧
                        sg_prev (sgs w') !! a = sg_prev (sgs w) !! a);
}.

(** What only grows. *)
Record grows w w' v v' : Prop := {
  gr_closed : closed (ch w) ≠ 0 → closed (ch w') ≠ 0;
  gr_drained : closed (ch w) ≠ 0 → items v = [] → items v' = [];
}.

Lemma same_mine w w' ts ts' v v' g a : same w w' ts ts' v v' g → mine w g a → mine w' g a.
Proof.
  intros [H1 _ _ _ _ _ _ H2] Hm. destruct (H2 a Hm) as (E & _ & Hu & Hs & _).
  destruct Hm as (M1 & M2 & _). unfold mine. by rewrite H1, E.
Qed.

Lemma same_moved w w' ts ts' v v' g s r : same w w' ts ts' v v' g → moved w v g s r → moved w' v' g s r.
Proof. intros H. unfold moved. by rewrite (sm_sent _ _ _ _ _ _ _ H), (sm_got _ _ _ _ _ _ _ H), (sm_began _ _ _ _ _ _ _ H). Qed.

Lemma same_pending w w' ts ts' v v' g : same w w' ts ts' v v' g → pending w v g → pending w' v' g.
Proof.
  intros H [H1 H2]. split; [by apply (same_moved w w' ts ts' v v')|].
  by rewrite (sm_value _ _ _ _ _ _ _ H), (sm_began _ _ _ _ _ _ _ H).
Qed.

Lemma same_result w w' ts ts' v v' g o : same w w' ts ts' v v' g → grows w w' v v' →
  result w v g o → result w' v' g o.
Proof.
  intros H [Hc Hd]. pose proof (same_pending w w' ts ts' v v' g H) as Hp.
  pose proof (λ s r, same_moved w w' ts ts' v v' g s r H) as Hm. unfold result.
  destruct o as [[]| |ep s ok| | |]; rewrite ?(sm_value _ _ _ _ _ _ _ H), ?(sm_began _ _ _ _ _ _ _ H); auto;
    try (intros [H1 H2]; by auto).
  intros [H1 H2]. split; [done|]. destruct s; [|by auto]. destruct ok.
  - destruct H2 as (x & H2 & H3). exists x. by auto.
  - destruct H2 as (H2 & H3 & H4 & H5). split_and!; by auto.
Qed.

Lemma same_resumed w w' ts ts' v v' g p ok : same w w' ts ts' v v' g → grows w w' v v' →
  resumed w v g p ok → resumed w' v' g p ok.
Proof.
  intros Hs Hg. destruct p; try done; cbn [resumed]; by apply (same_result w w' ts ts' v v').
Qed.

Lemma same_asleep w w' ts ts' v v' g a p : same w w' ts ts' v v' g → grows w w' v v' →
  waits p = Some a → asleep w v g a p → asleep w' v' g a p.
Proof.
  intros Hs Hg Hp (Hm & Hv & H). pose proof (same_mine _ _ _ _ _ _ _ _ Hs Hm) as Hm'.
  destruct (sm_sudog _ _ _ _ _ _ _ Hs a Hm) as (_ & He & _ & _ & Hsu & Hr & Hss & Hl).
  split; [done|]. split; [done|]. destruct H as [(Hq & Hel & Hpe)|(Hq & (C1 & C2 & C3) & Hres)].
  - left. split; [|split; [by rewrite He|by apply (same_pending w w' ts ts' v v')]].
    destruct p; simpl in *; simplify_eq; tauto.
  - right. destruct (Hl Hq) as [E1 E2]. split; [rewrite elem_of_app in *; tauto|].
    split; [unfold cleared; by rewrite He, E1, E2|]. intros Hpk.
    apply (same_resumed w w' ts ts' v v'); [done|done|].
    rewrite (bool_decide_ext _ (a ∈ success (sgs w))) by done. apply Hres.
    by rewrite <-(sm_parked _ _ _ _ _ _ _ Hs).
Qed.

Lemma dropped_frame w w' ts ts' v v' gl : grows w w' v v' →
  (∀ g p a, thread ts g p → waits p = Some a → mine w g a) →
  (∀ g, g ∈ gl → same w w' ts ts' v v' g ∧ ∀ p, thread ts g p → waits p ≠ None → thread ts' g p) →
  dropped w ts v gl → dropped w' ts' v' gl.
Proof.
  intros Hg Hmine Hgl Hd g Hin. destruct (Hd g Hin) as (p & a & Ht & Hp & Ha & Hr).
  destruct (Hgl g Hin) as [Hs Ht']. exists p, a. split_and!; [apply Ht'; [done|by rewrite Hp]|done| |].
  - destruct (sm_sudog _ _ _ _ _ _ _ Hs a) as (_ & _ & _ & _ & E & _); [by apply (Hmine g p)|].
    by rewrite E.
  - by apply (same_resumed w w' ts ts' v v').
Qed.

Lemma local_frame w w' ts ts' v v' g p : grows w w' v v' → same w w' ts ts' v v' g →
  (closing (g, p) = 1 → rs v = [] → rs v' = []) →
  (∀ g' p' a, thread ts g' p' → waits p' = Some a → mine w g' a) →
  (∀ g', 0 < wakes g' (g, p) → same w w' ts ts' v v' g' ∧
    ∀ p', thread ts g' p' → thread ts' g' p') →
  local w ts v g p → local w' ts' v' g p.
Proof.
  intros Hg Hs Hrs Hmine Hw.
  assert (∀ gl, (∀ g', wakes g' (g, p) = occurs g' gl) → dropped w ts v gl → dropped w' ts' v' gl) as Hdrop.
  { intros gl Hgl. apply (dropped_frame w); [done|done|]. intros g' Hin%occurs_pos. rewrite <-Hgl in Hin.
    destruct (Hw g' Hin) as [? Ht]. split; [done|]. intros q Hq _. by apply Ht. }
  pose proof (gr_closed _ _ _ _ Hg) as Hc. pose proof (same_pending w w' ts ts' v v' g Hs) as Hpe.
  destruct p; cbn [local]; try done; try (intros H; by auto); try (intros [H1 H2]; by auto);
    try (intros (H1 & H2 & H3); by auto).
  - by apply (same_asleep w w' ts ts').
  - by apply (same_asleep w w' ts ts').
  - intros (H1 & H2 & H3 & H4). split_and!; auto.
  - intros [(p' & Ht & Hp' & Hr) H2]. destruct (Hw g0) as [Hs' Ht'].
    { unfold wakes, bit. simpl. by rewrite decide_True. }
    split; [|by apply (same_result w w' ts ts' v v')]. exists p'.
    split; [by apply Ht'|]. split; [done|]. by apply (same_resumed w w' ts ts' v v').
  - by apply (same_result w w' ts ts' v v').
Qed.

(** ** One step *)

Lemma thread_insert ts g p p' g' q : thread ts g p →
  thread (<[Z.to_nat g:=(g, p')]> ts) g' q ↔ (g' = g ∧ q = p') ∨ (g' ≠ g ∧ thread ts g' q).
Proof.
  intros [Hg Ht]. unfold thread. destruct (decide (g' = g)) as [->|Hne].
  - rewrite list_lookup_insert_eq by (by eapply lookup_lt_Some). naive_solver.
  - split.
    + intros [Hg' H]. rewrite list_lookup_insert_ne in H by lia. naive_solver.
    + intros [[-> _]|(_ & Hg' & H)]; [done|]. rewrite list_lookup_insert_ne by lia. done.
Qed.

Lemma thread_fun ts g p q : thread ts g p → thread ts g q → p = q.
Proof. intros [_ H1] [_ H2]. congruence. Qed.

Lemma wakes_nonneg g t : 0 ≤ wakes g t.
Proof.
  unfold wakes. destruct (snd t); try lia; try apply occurs_nonneg. apply (bit_range (_ = _)).
Qed.

Lemma wakes_insert ts g p p' g' : thread ts g p →
  total (wakes g') (<[Z.to_nat g:=(g, p')]> ts) = total (wakes g') ts - wakes g' (g, p) + wakes g' (g, p').
Proof. intros [_ Ht]. by apply total_insert. Qed.

Lemma closing_insert ts g p p' : thread ts g p →
  total closing (<[Z.to_nat g:=(g, p')]> ts) = total closing ts - closing (g, p) + closing (g, p').
Proof. intros [_ Ht]. by apply total_insert. Qed.

Lemma local_mine w ts v g p a : local w ts v g p → waits p = Some a → mine w g a.
Proof. destruct p; simpl; try done; by intros [? _] [= ->]. Qed.

(** The others keep what holds at their points. [T] is the goroutine that the
    step takes out of a queue. *)
Lemma inv_step w w' ts v v' g p p' (T : option Z) : chan_inv w ts v → thread ts g p →
  let ts' := <[Z.to_nat g:=(g, p')]> ts in
  total (wakes g) ts = 0 →
  (∀ g', g' ≠ g → T ≠ Some g' → same w w' ts ts' v v' g') → grows w w' v v' →
  (lock (ch w) = true → rs v = [] → rs v' = []) →
  local w' ts' v' g p' → ticket w' ts' v' g p' →
  (∀ t, T = Some t → t ≠ g ∧ total (wakes t) ts = wakes t (g, p) ∧
    ∀ pt, thread ts t pt → local w' ts' v' t pt ∧ ticket w' ts' v' t pt) →
  globals w' ts' v' → chan_inv w' ts' v'.
Proof.
  intros [Hids Hloc Htick Hglob] Ht ts' Hw0 Hsame Hgr Hrs Hl' Htk' HT Hglob'.
  assert (∀ g' q, thread ts' g' q → (g' = g ∧ q = p') ∨ (g' ≠ g ∧ thread ts g' q)) as Hth
    by (intros g' q; by apply (thread_insert ts g p)).
  assert (∀ g' q, g' ≠ g → T ≠ Some g' → thread ts g' q → local w' ts' v' g' q ∧ ticket w' ts' v' g' q) as Hothers.
  { intros g' q Hne HTne Hq. pose proof (Hsame g' Hne HTne) as Hs. split.
    - apply (local_frame w w' ts ts' v v'); try done.
      + intros Hc. apply Hrs. pose proof (ci_lock _ _ _ Hglob) as Hlk.
        assert (1 ≤ total closing ts).
        { rewrite <-Hc. apply (total_at closing ts (Z.to_nat g')); [|apply Hq].
          intros [x y]; unfold closing; simpl; destruct y; lia. }
        unfold bit in Hlk. case_decide; [done|lia].
      + intros h ph a Hh Ha. by apply (local_mine w ts v h ph a); [apply Hloc|].
      + intros h Hpos. assert (0 < total (wakes h) ts) as Hh.
        { pose proof (total_at (wakes h) ts (Z.to_nat g') (g', q) (wakes_nonneg h) (proj2 Hq)). lia. }
        assert (h ≠ g) by (intros ->; lia).
        assert (Z.to_nat g' ≠ Z.to_nat g) as Hidx by (destruct Hq, Ht; lia).
        pose proof (total_two (wakes h) ts _ _ _ _ (wakes_nonneg h) Hidx (proj2 Hq) (proj2 Ht)).
        split.
        * apply Hsame; [done|]. intros E. destruct (HT h E) as (_ & E0 & _). lia.
        * intros ph Hph. apply (thread_insert ts g p); [done|]. by right.
      + by apply Hloc.
    - destruct (Htick g' q Hq) as [T1 T2]. split.
      + rewrite (sm_wakes _ _ _ _ _ _ _ Hs). unfold bit in *.
        rewrite (decide_ext (queued v' q) (queued v q)), (decide_ext (g' ∈ parked w') (g' ∈ parked w)); [done|apply Hs|].
        assert (∀ a, waits q = Some a → (a ∈ rs v' ↔ a ∈ rs v) ∧ (a ∈ ss v' ↔ a ∈ ss v)) as Hqa.
        { intros a Ha. destruct (sm_sudog _ _ _ _ _ _ _ Hs a) as (_ & _ & _ & _ & _ & ? & ? & _); [|done].
          by apply (local_mine w ts v g' q a); [apply Hloc|]. }
        destruct q; simpl in *; try done; by apply Hqa.
      + intros Hp. rewrite (sm_parked _ _ _ _ _ _ _ Hs). by apply T2. }
  split; [| | |done].
  - intros i t Hi. destruct (decide (i = Z.to_nat g)) as [->|Hne].
    + unfold ts' in Hi. rewrite list_lookup_insert_eq in Hi by (eapply lookup_lt_Some, Ht).
      injection Hi as <-. destruct Ht. simpl. lia.
    + unfold ts' in Hi. rewrite list_lookup_insert_ne in Hi by done. by apply Hids.
  - intros g' q [[-> ->]|[Hne Hq]]%Hth; [done|].
    destruct (decide (T = Some g')) as [E|E]; [by apply (HT g' E)|by apply Hothers].
  - intros g' q [[-> ->]|[Hne Hq]]%Hth; [done|].
    destruct (decide (T = Some g')) as [E|E]; [by apply (HT g' E)|by apply Hothers].
Qed.

(** ** Facts that the cases share *)

Lemma mine_owner w g g' a : mine w g a → mine w g' a → g = g'.
Proof. intros (_ & H & _) (_ & H' & _). congruence. Qed.

Lemma mine_sudog w g a a' : mine w g a → mine w g a' → a = a'.
Proof. intros (H & _) (H' & _). congruence. Qed.

Lemma awake_wakes w ts v g p : ticket w ts v g p → waits p = None → total (wakes g) ts = 0.
Proof.
  intros [H1 H2] Hp. specialize (H2 Hp). rewrite (bit_false (g ∈ parked w)) in H1 by done.
  pose proof (bit_range (queued v p)). pose proof (total_nonneg (wakes g) ts (wakes_nonneg g)). lia.
Qed.

Lemma queued_ticket w ts v g p : ticket w ts v g p → queued v p →
  g ∈ parked w ∧ total (wakes g) ts = 0.
Proof.
  intros [H1 _] Hq. rewrite (bit_true (queued v p)) in H1 by done.
  pose proof (total_nonneg (wakes g) ts (wakes_nonneg g)). unfold bit in H1.
  case_decide; [split; [done|lia]|lia].
Qed.

Lemma holds_frame σ σ' q ids : holds σ q ids →
  (∀ a, a ∈ ids → sg_next σ' !! a = sg_next σ !! a ∧ sg_prev σ' !! a = sg_prev σ !! a) →
  holds σ' q ids.
Proof. intros [H1 H2 H3 H4] He. split; [done|done| |done]. by apply (queue_linked_ext (sg_next σ) (sg_prev σ)). Qed.

Lemma own_snoc g g' x l : own g (l ++ [(g', x)]) = own g l ++ if decide (g' = g) then [x] else [].
Proof. unfold own. rewrite omap_app. simpl. by case_decide. Qed.

Lemma moved_sent w w' v g x : moved w v g [] [] → sent w' = sent w ++ [(g, x)] → own g (received w') = own g (received w) →
  moved w' v g [x] [].
Proof. intros [H1 H2] E1 E2. unfold moved. by rewrite E1, E2, own_snoc, decide_True, H1, H2, !app_nil_r. Qed.

Lemma moved_got w w' v g x : moved w v g [] [] → own g (sent w') = own g (sent w) → received w' = received w ++ [(g, x)] →
  moved w' v g [] [x].
Proof. intros [H1 H2] E1 E2. unfold moved. by rewrite E1, E2, own_snoc, decide_True, H1, H2, !app_nil_r. Qed.

Lemma value_set_mem w g a x : value zero (set_mem w a x) g = if decide (a = g) then x else value zero w g.
Proof.
  unfold value. simpl. case_decide; [subst; by rewrite lookup_insert_eq|by rewrite lookup_insert_ne].
Qed.

Lemma grows_refl w v : grows w w v v.
Proof. by split. Qed.

Section reach.
Context (w : world V) (ts : list (Z * chanpc)) (v : view) (Hinv : chan_inv w ts v).

Lemma recv_owner a : a ∈ rs v → ∃ g ep, thread ts g (RecvParked a ep) ∧ mine w g a ∧
  its_variable g ep ∧ sg_elem (sgs w) !! a = ep ∧ g ∈ parked w ∧ total (wakes g) ts = 0 ∧ pending w v g.
Proof.
  intros Ha. destruct (ci_recvs _ _ _ (ci_globals _ _ _ Hinv) a Ha) as (g & ep & Ht).
  destruct (ci_local _ _ _ Hinv g _ Ht) as (Hm & Hv & [(Hq & He & Hpe)|[Hq _]]).
  2: { exfalso. apply Hq, elem_of_app. by left. }
  exists g, ep. destruct (queued_ticket w ts v g _ (ci_ticket _ _ _ Hinv g _ Ht) Hq). done.
Qed.

Lemma send_owner a : a ∈ ss v → ∃ g, thread ts g (SendParked a) ∧ mine w g a ∧
  sg_elem (sgs w) !! a = Some g ∧ g ∈ parked w ∧ total (wakes g) ts = 0 ∧ pending w v g.
Proof.
  intros Ha. destruct (ci_sends _ _ _ (ci_globals _ _ _ Hinv) a Ha) as (g & Ht).
  destruct (ci_local _ _ _ Hinv g _ Ht) as (Hm & Hv & [(Hq & He & Hpe)|[Hq _]]).
  2: { exfalso. apply Hq, elem_of_app. by right. }
  exists g. destruct (queued_ticket w ts v g _ (ci_ticket _ _ _ Hinv g _ Ht) Hq). done.
Qed.

Lemma queue_mine a : a ∈ rs v ++ ss v → ∃ g, mine w g a.
Proof.
  intros [Ha|Ha]%elem_of_app.
  - destruct (recv_owner a Ha) as (g & ep & _ & H & _). by exists g.
  - destruct (send_owner a Ha) as (g & _ & H & _). by exists g.
Qed.

Lemma dequeue_recvq_spec : ∃ σ q,
  dequeue_recvq w = Ok (World (set_recvq (ch w) q) σ (param w) (waiting w) (selectDone w) (parked w)
                          (mem w) (sent w) (received w), head (rs v)) ∧
  holds σ q (tail (rs v)) ∧ holds σ (sendq (ch w)) (ss v) ∧ only_links (sgs w) σ (rs v) ∧
  ∀ a, head (rs v) = Some a → sg_next σ !! a = None ∧ sg_prev σ !! a = None.
Proof.
  pose proof (ci_globals _ _ _ Hinv) as G.
  destruct (dequeue_first (sgs w) (selectDone w) (recvq (ch w)) (rs v)) as (σ & q & E & Hq & Ho & Hl).
  - apply G.
  - intros a Ha. destruct (queue_mine a) as (g & _ & H2 & H3 & _); [apply elem_of_app; by left|].
    split; [done|by eexists].
  - intros a Ha. destruct (queue_mine a) as (g & _ & _ & _ & H4); [apply elem_of_app; by left|done].
  - exists σ, q. unfold dequeue_recvq. rewrite E. split; [done|]. split; [done|].
    split; [|done]. apply (holds_frame (sgs w)); [apply G|]. intros a Ha. apply Ho.
    intros Hr. pose proof (ci_nodup _ _ _ G) as Hd. apply NoDup_app in Hd as (_ & Hd & _). by apply (Hd a).
Qed.

Lemma dequeue_sendq_spec : ∃ σ q,
  dequeue_sendq w = Ok (World (set_sendq (ch w) q) σ (param w) (waiting w) (selectDone w) (parked w)
                          (mem w) (sent w) (received w), head (ss v)) ∧
  holds σ q (tail (ss v)) ∧ holds σ (recvq (ch w)) (rs v) ∧ only_links (sgs w) σ (ss v) ∧
  ∀ a, head (ss v) = Some a → sg_next σ !! a = None ∧ sg_prev σ !! a = None.
Proof.
  pose proof (ci_globals _ _ _ Hinv) as G.
  destruct (dequeue_first (sgs w) (selectDone w) (sendq (ch w)) (ss v)) as (σ & q & E & Hq & Ho & Hl).
  - apply G.
  - intros a Ha. destruct (queue_mine a) as (g & _ & H2 & H3 & _); [apply elem_of_app; by right|].
    split; [done|by eexists].
  - intros a Ha. destruct (queue_mine a) as (g & _ & _ & _ & H4); [apply elem_of_app; by right|done].
  - exists σ, q. unfold dequeue_sendq. rewrite E. split; [done|]. split; [done|].
    split; [|done]. apply (holds_frame (sgs w)); [apply G|]. intros a Ha. apply Ho.
    intros Hr. pose proof (ci_nodup _ _ _ G) as Hd. apply NoDup_app in Hd as (_ & Hd & _). by apply (Hd a).
Qed.
End reach.
End proofs.
