(* ===== verification/ChanSteps.v ===== *)
(** * runtime: the steps of a channel keep the invariant *)

From stdpp Require Import gmap relations.
From S2P Require Import Prelude Threads Chan ChanQueue ChanProofs.

Section steps.
Context {V : Type} (zero : V).
Implicit Types (c : hchan V) (w : world V) (ts : list (Z * chanpc)) (items : list V) (v : view (V := V)).

(** The sudogs but [a0] keep their fields, and those out of [ids] their links. *)
Definition beside (σ σ' : sudogs) (a0 : option Z) (ids : list Z) : Prop := ∀ a, a0 ≠ Some a →
  sg_g σ' !! a = sg_g σ !! a ∧ sg_elem σ' !! a = sg_elem σ !! a ∧
  (a ∈ inuse σ' ↔ a ∈ inuse σ) ∧ (a ∈ isSelect σ' ↔ a ∈ isSelect σ) ∧
  (a ∈ success σ' ↔ a ∈ success σ) ∧
  (a ∉ ids → sg_next σ' !! a = sg_next σ !! a ∧ sg_prev σ' !! a = sg_prev σ !! a).

Lemma beside_refl σ a0 ids : beside σ σ a0 ids.
Proof. by intros a _. Qed.

Lemma beside_trans σ σ' σ'' a0 ids : beside σ σ' a0 ids → beside σ' σ'' a0 ids → beside σ σ'' a0 ids.
Proof.
  intros H1 H2 a Ha. destruct (H1 a Ha) as (A1 & A2 & A3 & A4 & A5 & A6).
  destruct (H2 a Ha) as (B1 & B2 & B3 & B4 & B5 & B6).
  rewrite B1, B2, B3, B4, B5. split_and!; try done. intros Hin.
  destruct (A6 Hin) as [<- <-]. by apply B6.
Qed.

Lemma beside_links σ σ' a0 ids ids' : only_links σ σ' ids' → (∀ a, a ∈ ids' → a0 = Some a ∨ a ∈ ids) →
  beside σ σ' a0 ids.
Proof.
  intros [H1 H2 H3 H4 H5 H6] Hi a Ha. rewrite H1, H2, H3, H4, H5. split_and!; try done.
  intros Hin. apply H6. by intros [?|?]%Hi.
Qed.

Lemma beside_elem σ a0 ids p : beside σ (set_elem σ a0 p) (Some a0) ids.
Proof. intros a Ha. simpl. by rewrite put_ptr_ne by congruence. Qed.

Lemma beside_success σ a0 ids b : beside σ (set_success σ a0 b) (Some a0) ids.
Proof. intros a Ha. assert (a ≠ a0) by congruence. destruct b; simpl; set_solver. Qed.

Lemma beside_inuse σ a0 ids b : beside σ (set_inuse σ a0 b) (Some a0) ids.
Proof. intros a Ha. assert (a ≠ a0) by congruence. destruct b; simpl; set_solver. Qed.

Lemma beside_g σ a0 ids g : beside σ (set_g σ a0 g) (Some a0) ids.
Proof. intros a Ha. simpl. by rewrite lookup_insert_ne by congruence. Qed.

Lemma beside_select σ a0 ids b : beside σ (set_isSelect σ a0 b) (Some a0) ids.
Proof. intros a Ha. assert (a ≠ a0) by congruence. destruct b; simpl; set_solver. Qed.

Lemma same_intro w w' ts v v' g p p' g' a0 : thread ts g p →
  beside (sgs w) (sgs w') a0 (rs v ++ ss v) →
  waiting w' !! g' = waiting w !! g' → value zero w' g' = value zero w g' →
  own g' (sent w') = own g' (sent w) → own g' (received w') = own g' (received w) → began v' g' = began v g' →
  (g' ∈ parked w' ↔ g' ∈ parked w) → wakes g' (g, p') = wakes g' (g, p) →
  (∀ a, mine w g' a → a0 ≠ Some a ∧ (a ∈ rs v' ↔ a ∈ rs v) ∧ (a ∈ ss v' ↔ a ∈ ss v)) →
  same zero w w' ts (<[Z.to_nat g:=(g, p')]> ts) v v' g'.
Proof.
  intros Ht Hb H1 H2 H3 H3' H3'' H4 H5 H6. split; try done.
  { rewrite (wakes_insert ts g p) by done. lia. }
  intros a Ha. destruct (H6 a Ha) as (Hne & Hr & Hs). destruct (Hb a Hne) as (B1 & B2 & B3 & B4 & B5 & B6).
  destruct Ha as (_ & _ & Hu & Hse). rewrite B1, B2, B3, B4. by split_and!.
Qed.

(** A goroutine at another point, for one that is not in [gopark]. *)
Lemma parked_elsewhere ts g p p' h q : thread ts g p → waits p = None → is_Some (waits q) →
  thread ts h q → thread (<[Z.to_nat g:=(g, p')]> ts) h q.
Proof.
  intros Ht Hp Hq Hh. apply (thread_insert ts g p); [done|]. right. split; [|done].
  intros ->. rewrite (thread_fun ts g p q) in Hp by done. destruct Hq. congruence.
Qed.

Lemma queued_waits v p : waits p = None → ¬ queued v p.
Proof. intros Hp Hq. by destruct p. Qed.

(** ** Steps without the lock *)

Lemma inv_call w w' ts v b g p p' : chan_inv zero w ts v → thread ts g p →
  waits p = None → waits p' = None → (w' = w ∨ ∃ x, w' = set_mem w g x) → (∀ h, h ≠ g → b h = began v h) →
  (∀ g', wakes g' (g, p') = wakes g' (g, p)) → closing (g, p') = closing (g, p) →
  let v' := View (rs v) (ss v) (items v) b in
  ((∀ h, h ≠ g → same zero w w' ts (<[Z.to_nat g:=(g, p')]> ts) v v' h) →
    local zero w' (<[Z.to_nat g:=(g, p')]> ts) v' g p') →
  chan_inv zero w' (<[Z.to_nat g:=(g, p')]> ts) v'.
Proof.
  intros Hi Ht Hp Hp' Hw Hb Hwk Hcl v' Hl. pose proof (ci_ticket _ _ _ _ Hi g p Ht) as Htk.
  pose proof (awake_wakes _ _ _ _ _ Htk Hp) as Hz.
  assert (∀ g', g' ≠ g → value zero w' g' = value zero w g') as Hval.
  { intros g' Hne. destruct Hw as [->|[x ->]]; [done|]. by rewrite value_set_mem, decide_False. }
  assert (ch w' = ch w ∧ sgs w' = sgs w ∧ waiting w' = waiting w ∧ parked w' = parked w ∧
    sent w' = sent w ∧ received w' = received w) as (E1 & E2 & E3 & E4 & E5 & E6)
    by (by destruct Hw as [->|[x ->]]).
  assert (∀ h, h ≠ g → same zero w w' ts (<[Z.to_nat g:=(g, p')]> ts) v v' h) as Hsame.
  { intros g' Hne. apply (same_intro w w' ts v v' g p p' g' None); try done.
    + rewrite E2. apply beside_refl.
    + by rewrite E3.
    + by apply Hval.
    + by rewrite E5.
    + by rewrite E6.
    + by apply Hb.
    + by rewrite E4. }
  apply (inv_step zero w w' ts v v' g p p' None); auto; [..|done|].
  - destruct Hw as [->|[x ->]]; by split.
  - split; [|by rewrite E4; intros; apply Htk].
    rewrite E4, (wakes_insert ts g p), Hwk by done. rewrite bit_false by by apply queued_waits.
    destruct Htk as [Hk _]. rewrite bit_false in Hk by by apply queued_waits. lia.
  - pose proof (ci_globals _ _ _ _ Hi) as [G1 G2 G3 G4 G5 G6 G7 G8 G9 G10 G11 G12].
    split; rewrite ?E1, ?E2, ?E5, ?E6; try done.
    + intros a Ha. destruct (G6 a Ha) as (h & ep & Hh). exists h, ep.
      by apply (parked_elsewhere ts g p).
    + intros a Ha. destruct (G7 a Ha) as (h & Hh). exists h.
      by apply (parked_elsewhere ts g p).
    + rewrite (closing_insert ts g p) by done. lia.
Qed.

Lemma inv_quiet w w' ts v g p p' : chan_inv zero w ts v → thread ts g p →
  waits p = None → waits p' = None → (w' = w ∨ ∃ x, w' = set_mem w g x) →
  (∀ g', wakes g' (g, p') = wakes g' (g, p)) → closing (g, p') = closing (g, p) →
  ((∀ h, h ≠ g → same zero w w' ts (<[Z.to_nat g:=(g, p')]> ts) v v h) →
    local zero w' (<[Z.to_nat g:=(g, p')]> ts) v g p') →
  chan_inv zero w' (<[Z.to_nat g:=(g, p')]> ts) v.
Proof. intros. destruct v as [r s i b]. by apply (inv_call w w' ts (View r s i b) b g p p'). Qed.

(** ** Steps with the lock *)

(** The step of a goroutine that stays awake and takes nobody out of a queue. *)
Lemma inv_alone w w' ts v v' g p p' : chan_inv zero w ts v → thread ts g p →
  waits p = None → waits p' = None →
  beside (sgs w) (sgs w') None (rs v ++ ss v) → waiting w' = waiting w → parked w' = parked w →
  (∀ h, h ≠ g → value zero w' h = value zero w h ∧ own h (sent w') = own h (sent w) ∧
    own h (received w') = own h (received w)) → began v' = began v →
  rs v' = rs v → ss v' = ss v → (∀ h, wakes h (g, p') = wakes h (g, p)) → grows w w' v v' →
  ((∀ h, h ≠ g → same zero w w' ts (<[Z.to_nat g:=(g, p')]> ts) v v' h) →
    local zero w' (<[Z.to_nat g:=(g, p')]> ts) v' g p') →
  globals w' (<[Z.to_nat g:=(g, p')]> ts) v' →
  chan_inv zero w' (<[Z.to_nat g:=(g, p')]> ts) v'.
Proof.
  intros Hi Ht Hp Hp' Hb Ew Ep Hm Ebg Er Es Hwk Hg Hl HG.
  pose proof (ci_ticket _ _ _ _ Hi g p Ht) as Htk. pose proof (awake_wakes _ _ _ _ _ Htk Hp) as Hz.
  assert (∀ h, h ≠ g → same zero w w' ts (<[Z.to_nat g:=(g, p')]> ts) v v' h) as Hsame.
  { intros h Hne. destruct (Hm h Hne) as (? & ? & ?).
    apply (same_intro w w' ts v v' g p p' h None); try done; [by rewrite Ew|by rewrite Ebg|by rewrite Ep|].
    intros a _. by rewrite Er, Es. }
  apply (inv_step zero w w' ts v v' g p p' None); auto; [..|done].
  - by rewrite Er.
  - split; [|by rewrite Ep; intros; apply Htk].
    rewrite Ep, (wakes_insert ts g p), Hwk by done. rewrite bit_false by by apply queued_waits.
    destruct Htk as [Hk _]. rewrite bit_false in Hk by by apply queued_waits. lia.
Qed.

(** The step of a goroutine that takes [a0], the sudog of [t], out of its queue
    and has to wake [t]. *)
Lemma inv_take w w' ts v v' g p p' t pt a0 : chan_inv zero w ts v → thread ts g p →
  waits p = None → waits p' = None →
  thread ts t pt → waits pt = Some a0 → its_variable t (variable t pt) →
  t ∈ parked w → total (wakes t) ts = 0 →
  beside (sgs w) (sgs w') (Some a0) (rs v ++ ss v) → mine w' t a0 → cleared w' a0 →
  waiting w' = waiting w → parked w' = parked w →
  (∀ h, h ≠ g → h ≠ t → value zero w' h = value zero w h ∧ own h (sent w') = own h (sent w) ∧
    own h (received w') = own h (received w)) → began v' = began v →
  (∀ a, a ≠ a0 → (a ∈ rs v' ↔ a ∈ rs v) ∧ (a ∈ ss v' ↔ a ∈ ss v)) → a0 ∉ rs v' ++ ss v' →
  (∀ h, wakes h (g, p') = bit (t = h) + wakes h (g, p)) → grows w w' v v' →
  (rs v = [] → rs v' = []) →
  ((∀ h, h ≠ g → h ≠ t → same zero w w' ts (<[Z.to_nat g:=(g, p')]> ts) v v' h) →
    local zero w' (<[Z.to_nat g:=(g, p')]> ts) v' g p') →
  globals w' (<[Z.to_nat g:=(g, p')]> ts) v' →
  chan_inv zero w' (<[Z.to_nat g:=(g, p')]> ts) v'.
Proof.
  intros Hi Ht Hp Hp' Htt Hpt Hv Hpk Hz Hb Hm Hc Ew Ep Hvals Ebg Hq Ha0 Hwk Hg Hrs Hl HG.
  pose proof (ci_ticket _ _ _ _ Hi g p Ht) as Htk. pose proof (awake_wakes _ _ _ _ _ Htk Hp) as Hzg.
  assert (t ≠ g) as Hne by (intros ->; rewrite (thread_fun ts g p pt) in Hp by done; congruence).
  assert (wakes t (g, p) = 0) as Hz0.
  { pose proof (total_at (wakes t) ts _ _ (wakes_nonneg t) (proj2 Ht)).
    pose proof (wakes_nonneg t (g, p)). lia. }
  assert (¬ queued v' pt) as Hnq.
  { rewrite elem_of_app in Ha0. destruct pt; simpl in *; try done; simplify_eq; tauto. }
  assert (∀ h, h ≠ g → h ≠ t → same zero w w' ts (<[Z.to_nat g:=(g, p')]> ts) v v' h) as Hsame.
  { intros h Hhg Hht. destruct (Hvals h Hhg Hht) as (? & ? & ?).
    apply (same_intro w w' ts v v' g p p' h (Some a0)); try done.
    + by rewrite Ew.
    + by rewrite Ebg.
    + by rewrite Ep.
    + rewrite Hwk, bit_false by done. done.
    + intros a Ha. assert (a ≠ a0) as Haa.
      { intros ->. pose proof (ci_local _ _ _ _ Hi t pt Htt) as Hlt.
        pose proof (local_mine _ _ _ _ _ _ a0 Hlt Hpt) as Hmt.
        pose proof (mine_owner _ _ _ _ Hmt Ha). congruence. }
      split; [congruence|by apply Hq]. }
  apply (inv_step zero w w' ts v v' g p p' (Some t)); auto.
  - intros h Hhg Hht. apply Hsame; congruence.
  - split; [|by rewrite Ep; intros; apply Htk].
    rewrite Ep, (wakes_insert ts g p), Hwk, (bit_false (t = g)) by done.
    rewrite bit_false by by apply queued_waits.
    destruct Htk as [Hk _]. rewrite bit_false in Hk by by apply queued_waits. lia.
  - intros t' [= <-]. split; [done|]. split; [lia|]. intros q Hqt.
    assert (q = pt) as -> by (by apply (thread_fun ts t)). split.
    + assert (asleep zero w' v' t a0 pt) as Has.
      { split; [done|]. split; [done|]. right. split_and!; [done|done|]. by rewrite Ep. }
      destruct pt; simpl in Hpt; simplify_eq; done.
    + split; [|congruence]. rewrite Ep, (wakes_insert ts g p), Hwk, Hz by done.
      rewrite bit_false, !bit_true by done. lia.
Qed.
(** The global part, when the queues only lose sudogs. *)
Lemma globals_step w w' ts v v' g p p' : globals w ts v → thread ts g p → waits p = None →
  rs v' `sublist_of` rs v → ss v' `sublist_of` ss v →
  ring_ok (ch w') (items v') → map snd (sent w') = map snd (received w') ++ items v' →
  holds (sgs w') (recvq (ch w')) (rs v') → holds (sgs w') (sendq (ch w')) (ss v') →
  (rs v' ≠ [] → items v' = [] ∧ ss v' = []) → (ss v' ≠ [] → len (items v') = dataqsiz (ch w')) →
  closing (g, p') - closing (g, p) = bit (lock (ch w') = true) - bit (lock (ch w) = true) →
  (lock (ch w') = true → closed (ch w') ≠ 0) →
  (closed (ch w') ≠ 0 → lock (ch w') = false → rs v' = [] ∧ ss v' = []) →
  globals w' (<[Z.to_nat g:=(g, p')]> ts) v'.
Proof.
  intros [G1 G2 G3 G4 G5 G6 G7 G8 G9 G10 G11 G12] Ht Hp Hr Hs. intros. split; try done.
  - eapply sublist_NoDup; [exact G5|by apply sublist_app].
  - intros a Ha. destruct (G6 a) as (h & ep & Hh); [by eapply elem_of_sublist|].
    exists h, ep. by apply (parked_elsewhere ts g p).
  - intros a Ha. destruct (G7 a) as (h & Hh); [by eapply elem_of_sublist|].
    exists h. by apply (parked_elsewhere ts g p).
  - rewrite (closing_insert ts g p) by done. lia.
Qed.
Lemma ring_ok_ext c c' items : ring_ok c items → buf c' = buf c → dataqsiz c' = dataqsiz c →
  qcount c' = qcount c → recvx c' = recvx c → sendx c' = sendx c → ring_ok c' items.
Proof.
  intros [H1 H2 H3 H4 H5 H6 H7] E1 E2 E3 E4 E5. split; rewrite ?E1, ?E2, ?E3, ?E4, ?E5; try done.
  - unfold place. rewrite E2, E4. exact H6.
  - intros k Hk. unfold place. rewrite E2, E4. by apply H7.
Qed.

(** ** Sending *)

Lemma put_ptr_id m k p : m !! k = p → put_ptr m k p = m.
Proof.
  intros H. apply map_eq. intros j. destruct (decide (k = j)) as [<-|Hne].
  - by rewrite put_ptr_eq.
  - by rewrite put_ptr_ne.
Qed.

Lemma set_elem_nil σ s : sg_elem σ !! s = None → set_elem σ s None = σ.
Proof. intros H. unfold set_elem. rewrite put_ptr_id by done. by destruct σ. Qed.

Lemma set_sgs_id w : set_sgs w (sgs w) = w.
Proof. by destruct w. Qed.

(** Writing to the variable of a sudog and clearing the pointer. *)
Lemma through_elem w s x :
  (match sg_elem (sgs w) !! s with
   | Some a => set_sgs (set_mem w a x) (set_elem (sgs w) s None)
   | None => w
   end) = set_sgs (write w (sg_elem (sgs w) !! s) x) (set_elem (sgs w) s None).
Proof.
  destruct (sg_elem (sgs w) !! s) as [a|] eqn:E; simpl; [done|].
  by rewrite set_elem_nil, set_sgs_id.
Qed.

Lemma send_eq w s t g : sg_g (sgs w) !! s = Some t →
  send zero w s g = Ok (note_received (note_sent
    (set_sgs (write w (sg_elem (sgs w) !! s) (value zero w g)) (set_elem (sgs w) s None))
    g (value zero w g)) t (value zero w g), t).
Proof. intros Hg. unfold send. rewrite through_elem. unfold g_of. simpl. by rewrite Hg. Qed.

(** Only the memory changes. *)
Lemma write_eq w ep x : write w ep x = World (ch w) (sgs w) (param w) (waiting w) (selectDone w)
  (parked w) (mem (write w ep x)) (sent w) (received w).
Proof. destruct w, ep; reflexivity. Qed.

Lemma value_write w g t ep x : its_variable t ep →
  value zero (write w ep x) g = if decide (ep = Some g) then x else value zero w g.
Proof.
  intros [->| ->]; simpl; [done|]. rewrite value_set_mem.
  destruct (decide (t = g)), (decide (Some t = Some g)); congruence.
Qed.
Lemma mine_frame w w' g a : mine w g a → waiting w' !! g = waiting w !! g →
  sg_g (sgs w') = sg_g (sgs w) → inuse (sgs w') = inuse (sgs w) → isSelect (sgs w') = isSelect (sgs w) →
  mine w' g a.
Proof. unfold mine. by intros H -> -> -> ->. Qed.

(** The head of a queue is in no queue afterwards. *)
Lemma head_gone v a0 r : NoDup (rs v ++ ss v) → (rs v = a0 :: r → a0 ∉ r ++ ss v) ∧ (ss v = a0 :: r → a0 ∉ rs v ++ r).
Proof.
  intros Hd. split; intros E; rewrite E in Hd.
  - by apply NoDup_cons in Hd as [? _].
  - rewrite elem_of_app. apply NoDup_app in Hd as (_ & Hd & [Hr _]%NoDup_cons).
    intros [H|H]; [|done]. apply (Hd a0 H), elem_of_cons. by left.
Qed.

Lemma send_waiting w ts v g block a0 rest : chan_inv zero w ts v → thread ts g (SendLock block) →
  lock (ch w) = false → closed (ch w) = 0 → rs v = a0 :: rest →
  ∃ w1 w2 t, dequeue_recvq w = Ok (w1, Some a0) ∧ send zero w1 a0 g = Ok (w2, t) ∧
    chan_inv zero w2 (<[Z.to_nat g:=(g, Wake t a0 (Sent true))]> ts) (View rest (ss v) (items v) (began v)).
Proof.
  intros Hi Ht Hlk Hcl Er. pose proof (ci_globals _ _ _ _ Hi) as G.
  pose proof (ci_local _ _ _ _ Hi g _ Ht) as [Hmv Hval0].
  destruct (dequeue_recvq_spec zero w ts v Hi) as (σ & q & E & Hq & Hsq & Ho & Hl).
  rewrite Er in *. simpl in E, Hq. destruct (Hl a0 eq_refl) as [Hn1 Hn2].
  destruct (recv_owner zero w ts v Hi a0) as (t & ep & Htt & Hm & Hv & He & Hpk & Hz & Hpt).
  { rewrite Er. apply elem_of_cons. by left. }
  assert (t ≠ g) as Hne by (intros ->; by pose proof (thread_fun ts g _ _ Ht Htt)).
  destruct (ci_waiting_recvs _ _ _ G) as [Ei Es]; [by rewrite Er|].
  set (w1 := World _ σ _ _ _ _ _ _ _) in E.
  assert (sg_elem (sgs w1) !! a0 = ep) as He1 by (simpl; by rewrite (ol_elem _ _ _ Ho)).
  assert (sg_g (sgs w1) !! a0 = Some t) as Hg1 by (simpl; rewrite (ol_g _ _ _ Ho); by apply Hm).
  pose proof (send_eq w1 a0 t g Hg1) as Esend. rewrite He1 in Esend.
  eexists w1, _, t. split; [exact E|]. split; [exact Esend|].
  rewrite write_eq. set (w' := note_received _ _ _).
  assert (∀ h, value zero w' h = if decide (ep = Some h) then value zero w g else value zero w h) as Hval
    by (intros h; change (value zero w' h) with (value zero (write w1 ep (value zero w1 g)) h);
        by rewrite (value_write _ _ t)).
  apply (inv_take w _ ts v _ g (SendLock block) _ t (RecvParked a0 ep) a0); try done.
  - apply (beside_trans _ σ); [|apply beside_elem].
    apply (beside_links _ _ _ _ (a0 :: rest)); [done|]. intros a Ha. right. rewrite Er, elem_of_app. by left.
  - apply (mine_frame w); [done|done|..]; simpl; apply Ho.
  - split_and!; simpl; [by rewrite put_ptr_eq|done|done].
  - intros h Hhg Hht. rewrite Hval. simpl. rewrite !own_snoc, !decide_False, !app_nil_r by (done || destruct Hv; congruence).
    done.
  - intros a Ha. simpl. rewrite Er, elem_of_cons. tauto.
  - apply (head_gone v); [apply G|done].
  - intros h. unfold wakes. simpl. lia.
  - intros H. congruence.
  - intros _. split.
    + exists (RecvParked a0 ep). split; [|split; [done|]].
      * apply (thread_insert ts g (SendLock block)); [done|]. by right.
      * split; [done|]. exists (value zero w g). split; [|intros ->; by rewrite Hval, decide_True].
        apply (moved_got w); [apply Hpt| |done]. simpl. by rewrite own_snoc, decide_False, app_nil_r by done.
    + simpl. rewrite <-Hval0. apply (moved_sent w); [done..|]. simpl.
      by rewrite own_snoc, decide_False, app_nil_r by done.
  - apply (globals_step w _ ts v _ g (SendLock block)); try done; simpl.
    + rewrite Er. by apply sublist_cons.
    + by apply (ring_ok_ext (ch w)); [apply G|..].
    + rewrite Ei, app_nil_r, !map_app. rewrite (ci_history _ _ _ G), Ei, app_nil_r. done.
    + by apply (holds_frame σ).
    + by apply (holds_frame σ).
    + unfold closing. simpl. lia.
    + congruence.
Qed.
(** Nobody is in the queue. *)
Lemma dequeue_nil σ dn q : first q = None → dequeue σ dn q = Ok (dn, σ, q, None).
Proof. intros H. unfold dequeue. rewrite loop_S. cbv beta iota. by rewrite H. Qed.

Lemma dequeue_recvq_none w : first (recvq (ch w)) = None → dequeue_recvq w = Ok (w, None).
Proof. intros H. unfold dequeue_recvq. rewrite dequeue_nil by done. by destruct w as [[]]. Qed.

Lemma dequeue_sendq_none w : first (sendq (ch w)) = None → dequeue_sendq w = Ok (w, None).
Proof. intros H. unfold dequeue_sendq. rewrite dequeue_nil by done. by destruct w as [[]]. Qed.

Lemma send_buffered w ts v g block b : chan_inv zero w ts v → thread ts g (SendLock block) →
  closed (ch w) = 0 → rs v = [] → store (buf (ch w)) (sendx (ch w)) (value zero w g) = Ok b →
  let c := set_ring (ch w) b (next_index (ch w) (sendx (ch w))) (recvx (ch w)) (u64 (qcount (ch w) + 1)) in
  qcount (ch w) < dataqsiz (ch w) →
  chan_inv zero (note_sent (set_ch w c) g (value zero w g))
    (<[Z.to_nat g:=(g, Return (Sent true))]> ts) (View (rs v) (ss v) (items v ++ [value zero w g]) (began v)).
Proof.
  intros Hi Ht Hcl Er Eb c Hlt. pose proof (ci_globals _ _ _ _ Hi) as G.
  pose proof (ci_local _ _ _ _ Hi g _ Ht) as [Hmv Hval].
  pose proof (ci_ring _ _ _ G) as R. rewrite (ro_count _ _ R) in Hlt.
  destruct (ring_push (ch w) (items v) (value zero w g) R Hlt) as (b' & Eb' & R'). simplify_eq.
  apply (inv_alone w _ ts v _ g (SendLock block)); try done.
  - intros h Hh. simpl. by rewrite own_snoc, decide_False, app_nil_r by done.
  - intros _. simpl. rewrite <-Hval. by apply (moved_sent w).
  - pose proof (len_nonneg (items v)).
    apply (globals_step w _ ts v _ g (SendLock block)); try done; simpl.
    + by injection (eq_trans (eq_sym Eb) Eb') as ->.
    + by rewrite map_app, (ci_history _ _ _ G), app_assoc.
    + apply G.
    + apply G.
    + intros Hs. pose proof (ci_waiting_sends _ _ _ G Hs). lia.
    + unfold closing. simpl. lia.
    + apply G.
Qed.

(** The step of a goroutine that enters a queue with the sudog [a]. *)
Lemma inv_park w w' ts v v' g p p' a : chan_inv zero w ts v → thread ts g p → waits p = None →
  waits p' = Some a → a ∉ inuse (sgs w) → lock (ch w) = false →
  beside (sgs w) (sgs w') (Some a) (rs v ++ ss v) →
  (∀ h, h ≠ g → waiting w' !! h = waiting w !! h) →
  parked w' = {[g]} ∪ parked w → mem w' = mem w → sent w' = sent w → received w' = received w → began v' = began v → grows w w' v v' →
  (∀ b, b ≠ a → (b ∈ rs v' ↔ b ∈ rs v) ∧ (b ∈ ss v' ↔ b ∈ ss v)) →
  (∀ h, wakes h (g, p) = 0) → mine w' g a → its_variable g (variable g p') → pending zero w v g →
  queued v' p' → sg_elem (sgs w') !! a = variable g p' →
  globals w' (<[Z.to_nat g:=(g, p')]> ts) v' →
  chan_inv zero w' (<[Z.to_nat g:=(g, p')]> ts) v'.
Proof.
  intros Hi Ht Hp Hp' Ha Hlk Hb Ew Ep Em Est Erc Ebg Hg Hq Hwk Hm Hv Hpe Hqd Hel HG.
  pose proof (ci_ticket _ _ _ _ Hi g p Ht) as Htk. pose proof (awake_wakes _ _ _ _ _ Htk Hp) as Hz.
  assert (∀ h, wakes h (g, p') = 0) as Hwk' by (by intros h; destruct p').
  apply (inv_step zero w w' ts v v' g p p' None); try done; [..|by rewrite Hlk| |].
  - intros h Hne _. apply (same_intro w w' ts v v' g p p' h (Some a)); try done.
    + by apply Ew.
    + unfold value. by rewrite Em.
    + by rewrite Est.
    + by rewrite Erc.
    + by rewrite Ebg.
    + rewrite Ep. set_solver.
    + by rewrite Hwk, Hwk'.
    + intros b Hbm. assert (b ≠ a) by (intros ->; by apply Ha, Hbm). split; [congruence|by apply Hq].
  - assert (asleep zero w' v' g a p') as Has.
    { split; [done|]. split; [done|]. left. split_and!; [done..|].
      revert Hpe. unfold pending, moved, value. by rewrite Em, Est, Erc, Ebg. }
    destruct p'; simpl in Hp'; simplify_eq; done.
  - split; [|by rewrite Hp']. rewrite Ep, (wakes_insert ts g p), Hwk, Hwk', Hz by done.
    rewrite !bit_true; [done|set_solver|done].
Qed.

(** What filling a sudog and putting it into a queue does to the sudogs. *)
Lemma acquire_beside w g a ep ids q ids' : a ∉ ids →
  (∀ b, b ∈ ids → b ∈ ids') → holds (sgs w) q ids →
  let w1 := acquireSudog w g a ep in
  let '(σ, q1) := enqueue (sgs w1) q a in
  holds σ q1 (ids ++ [a]) ∧ beside (sgs w) σ (Some a) ids' ∧
  sg_g σ !! a = Some g ∧ a ∈ inuse σ ∧ a ∉ isSelect σ ∧ sg_elem σ !! a = ep ∧
  (∀ q' l, holds (sgs w) q' l → (∀ b, b ∈ l → b ∉ a :: ids) → holds σ q' l).
Proof.
  intros Hids Hsub Hq w1. pose proof (enqueue_spec (sgs w1) q ids a) as Hen.
  destruct (enqueue _ _ a) as [σ' q']. destruct Hen as [Hq' Ho]; [by apply (holds_frame (sgs w))|done|].
  split; [done|]. split.
  { apply (beside_trans _ (sgs w1)).
    - unfold w1, acquireSudog. simpl sgs.
      eapply beside_trans; [|apply beside_elem]. eapply beside_trans; [|apply beside_g].
      eapply beside_trans; [|apply beside_select]. apply beside_inuse.
    - apply (beside_links _ _ _ _ (a :: ids)); [done|].
      intros b [->|Hb]%elem_of_cons; [by left|right; by apply Hsub]. }
  rewrite (ol_g _ _ _ Ho), (ol_inuse _ _ _ Ho), (ol_select _ _ _ Ho), (ol_elem _ _ _ Ho). simpl.
  rewrite lookup_insert_eq, put_ptr_eq. split_and!; [done|set_solver|set_solver|done|].
  intros q2 l Hl Hne. apply (holds_frame (sgs w)); [done|]. intros b Hb.
  apply (ol_links _ _ _ Ho). by apply Hne.
Qed.
Lemma send_parks w ts v g a : chan_inv zero w ts v → thread ts g (SendLock true) →
  closed (ch w) = 0 → lock (ch w) = false → rs v = [] → dataqsiz (ch w) ≤ qcount (ch w) → a ∉ inuse (sgs w) →
  let w1 := acquireSudog w g a (Some g) in
  let '(σ, q) := enqueue (sgs w1) (sendq (ch w)) a in
  chan_inv zero (gopark (set_sgs (set_ch w1 (set_sendq (ch w) q)) σ) g)
    (<[Z.to_nat g:=(g, SendParked a)]> ts) (View (rs v) (ss v ++ [a]) (items v) (began v)).
Proof.
  intros Hi Ht Hcl Hlk Er Hfull Ha w1. pose proof (ci_globals _ _ _ _ Hi) as G.
  pose proof (ci_ring _ _ _ G) as R.
  assert (a ∉ ss v) as Hout by (intros (h & _ & Hm & _)%(send_owner zero w ts v Hi); by apply Ha, Hm).
  pose proof (acquire_beside w g a (Some g) (ss v) (sendq (ch w)) (rs v ++ ss v) Hout) as He.
  cbv zeta in He. fold w1 in He. destruct (enqueue _ _ a) as [σ q].
  destruct He as (Hq & Hb & Hg & Hu & Hs & Hel & Hoth); [intros b; rewrite elem_of_app; by right|apply G|].
  assert (∀ b, b ∈ ss v ++ [a] ↔ b ∈ ss v ∨ b = a) as Hin
    by (intros b; by rewrite elem_of_app, list_elem_of_singleton).
  apply (inv_park w _ ts v _ g (SendLock true) _ a); try done.
  - intros h Hh. simpl. by rewrite put_ptr_ne by done.
  - intros b Hb'. simpl. rewrite Hin. tauto.
  - split_and!; [by apply put_ptr_eq|done..].
  - by right.
  - apply (ci_local _ _ _ _ Hi g _ Ht).
  - simpl. rewrite Hin. by right.
  - pose proof G as [G1 G2 G3 G4 G5 G6 G7 G8 G9 G10 G11 G12].
    split; simpl; try done.
    + by apply (ring_ok_ext (ch w)).
    + apply Hoth; [done|]. rewrite Er. by intros b ?%elem_of_nil.
    + rewrite Er. simpl. rewrite Er in G5. apply NoDup_app. split; [done|].
      split; [by intros b Hb' ->%list_elem_of_singleton|apply NoDup_singleton].
    + rewrite Er. by intros b ?%elem_of_nil.
    + intros b [Hb'| ->]%Hin.
      * destruct (G7 b Hb') as [h Hh]. exists h. by apply (parked_elsewhere ts g (SendLock true)).
      * exists g. apply (thread_insert ts g (SendLock true)); [done|by left].
    + intros _. pose proof (ro_full _ _ R). rewrite <-(ro_count _ _ R) in *. lia.
    + rewrite (closing_insert ts g (SendLock true)), G10 by done. unfold closing. simpl. lia.
Qed.

Lemma chansend_inv w ts v g block a : chan_inv zero w ts v → thread ts g (SendLock block) →
  lock (ch w) = false → a ∉ inuse (sgs w) →
  ∃ w' p' v', chansend zero w g block a = Ok (w', p') ∧ began v' = began v ∧
    chan_inv zero w' (<[Z.to_nat g:=(g, p')]> ts) v'.
Proof.
  intros Hi Ht Hlk Ha. pose proof (ci_globals _ _ _ _ Hi) as G. unfold chansend.
  pose proof (ci_local _ _ _ _ Hi g _ Ht) as Hpe. simpl in Hpe.
  destruct (Z.eqb_spec (closed (ch w)) 0) as [Hcl|Hcl]; simpl.
  2: { eexists _, _, v. do 2 (split; [done|]). apply (inv_quiet w w ts v g (SendLock block)); auto. by intros _. }
  destruct (rs v) as [|a0 rest] eqn:Er.
  2: { destruct (send_waiting w ts v g block a0 rest) as (w1 & w2 & t & -> & E & Hi'); [done..|].
       cbn [mbind res_bind]. rewrite E. eexists _, _, _. split; [reflexivity|]. split; [|exact Hi']. done. }
  pose proof (h_first _ _ _ (ci_recvq _ _ _ G)) as Hf. rewrite Er in Hf.
  rewrite (dequeue_recvq_none w Hf). cbn [mbind res_bind].
  destruct (Z.ltb_spec (qcount (ch w)) (dataqsiz (ch w))) as [Hlt|Hge].
  - pose proof (ci_ring _ _ _ G) as R. pose proof Hlt as Hlt'. rewrite (ro_count _ _ R) in Hlt'.
    destruct (ring_push (ch w) (items v) (value zero w g) R Hlt') as (b & Eb & _).
    rewrite Eb. cbn [mbind res_bind]. eexists _, _, _. split; [reflexivity|].
    split; [|by apply (send_buffered w ts v g block b)]. done.
  - destruct block; simpl.
    + pose proof (send_parks w ts v g a Hi Ht Hcl Hlk Er Hge Ha) as Hi'. simpl in Hi'.
      destruct (enqueue _ _ _) as [σ q]. eexists _, _, _. split; [reflexivity|]. split; [|exact Hi']. done.
    + eexists _, _, v. do 2 (split; [reflexivity|]). by apply (inv_quiet w w ts v g (SendLock false)); auto.
Qed.
End steps.
