(* ===== verification/ChanRecv.v ===== *)
(** * runtime: receiving from a channel keeps the invariant *)

From stdpp Require Import gmap relations.
From S2P Require Import Prelude Threads Chan ChanQueue ChanProofs ChanSteps.

Section steps.
Context {V : Type} (zero : V).
Implicit Types (c : hchan V) (w : world V) (ts : list (Z * chanpc)) (items : list V) (v : view (V := V)).

(** ** Receiving *)

(** The sender's value goes behind the elements of the full buffer, the first of
    these to the receiver; without a buffer they are the same. *)
Lemma recv_eq w s src t g ep items : sg_elem (sgs w) !! s = Some src → sg_g (sgs w) !! s = Some t →
  ring_ok (ch w) items → len items = dataqsiz (ch w) →
  let x := value zero w src in ∃ y items' b sx rx,
    let c := set_ring (ch w) b sx rx (qcount (ch w)) in
    recv zero w s g ep = Ok (World c (set_elem (sgs w) s None) (param w) (waiting w) (selectDone w)
      (parked w) (mem (write w ep y)) (sent w ++ [(t, x)]) (received w ++ [(g, y)]), t) ∧
    items ++ [x] = y :: items' ∧ ring_ok c items'.
Proof.
  intros He Hg R Hfull x. unfold recv. rewrite He. cbn [mbind res_bind mret res_ret]. fold x.
  destruct (Z.eqb_spec (dataqsiz (ch w)) 0) as [E0|E0].
  - assert (items = []) as -> by (apply len_0_nil; lia). simpl.
    exists x, [], (buf (ch w)), (sendx (ch w)), (recvx (ch w)).
    rewrite write_eq. unfold g_of. simpl. rewrite Hg. cbn [mbind res_bind mret res_ret].
    assert (set_ring (ch w) (buf (ch w)) (sendx (ch w)) (recvx (ch w)) (qcount (ch w)) = ch w) as -> by by destruct (ch w).
    done.
  - destruct items as [|y items]; [by rewrite len_nil in Hfull|].
    destruct (ring_swap (ch w) y items x R Hfull) as (Ey & b & Eb & R'). cbv zeta in R'.
    rewrite Ey. cbn [mbind res_bind]. rewrite Eb. cbn [mbind res_bind mret res_ret].
    eexists y, (items ++ [x]), b, _, _. rewrite write_eq. unfold g_of. simpl. rewrite Hg.
    cbn [mbind res_bind mret res_ret]. split; [|split; [done|exact R']].
    by destruct ep.
Qed.

Lemma recv_waiting w ts v g ep block a0 rest : chan_inv zero w ts v → thread ts g (RecvLock ep block) →
  closed (ch w) = 0 → lock (ch w) = false → ss v = a0 :: rest →
  ∃ w1 w2 t items', dequeue_sendq w = Ok (w1, Some a0) ∧ recv zero w1 a0 g ep = Ok (w2, t) ∧
    chan_inv zero w2 (<[Z.to_nat g:=(g, Wake t a0 (Received ep true true))]> ts) (View (rs v) rest items' (began v)).
Proof.
  intros Hi Ht Hcl Hlk Es. pose proof (ci_globals _ _ _ _ Hi) as G.
  pose proof (ci_local _ _ _ _ Hi g _ Ht) as [Hep Hpe].
  destruct (dequeue_sendq_spec zero w ts v Hi) as (σ & q & E & Hq & Hrq & Ho & Hl).
  rewrite Es in *. simpl in E, Hq. destruct (Hl a0 eq_refl) as [Hn1 Hn2].
  destruct (send_owner zero w ts v Hi a0) as (t & Htt & Hm & He & Hpk & Hz & Hpt).
  { rewrite Es. apply elem_of_cons. by left. }
  assert (t ≠ g) as Hne by (intros ->; by pose proof (thread_fun ts g _ _ Ht Htt)).
  assert (rs v = []) as Er.
  { destruct (rs v) eqn:Er; [done|]. destruct (ci_waiting_recvs _ _ _ G) as [_ ?]; [by rewrite Er|congruence]. }
  set (w1 := World _ σ _ _ _ _ _ _ _) in E.
  destruct (recv_eq w1 a0 t t g ep (items v)) as (y & items' & b & sx & rx & Erecv & Ei & R'); simpl.
  { by rewrite (ol_elem _ _ _ Ho). }
  { rewrite (ol_g _ _ _ Ho). by apply Hm. }
  { by apply (ring_ok_ext (ch w)); [apply G|..]. }
  { apply (ci_waiting_sends _ _ _ G). by rewrite Es. }
  eexists w1, _, t, items'. split; [exact E|]. split; [exact Erecv|]. set (w' := World _ _ _ _ _ _ _ _ _).
  assert (∀ h, value zero w' h = if decide (ep = Some h) then y else value zero w h) as Hval
    by (intros h; change (value zero w' h) with (value zero (write w1 ep y) h); by rewrite (value_write zero _ _ g)).
  apply (inv_take zero w _ ts v _ g (RecvLock ep block) _ t (SendParked a0) a0); try done.
  - by right.
  - apply (beside_trans _ σ); [|apply beside_elem].
    apply (beside_links _ _ _ _ (a0 :: rest)); [done|]. intros a Ha. right. rewrite Es, elem_of_app. by right.
  - apply (mine_frame w); [done|done|..]; simpl; apply Ho.
  - split_and!; simpl; [by rewrite put_ptr_eq|done|done].
  - intros h Hhg Hht. rewrite Hval. simpl. rewrite !own_snoc, !decide_False, !app_nil_r by (done || destruct Hep; congruence).
    done.
  - intros a Ha. simpl. rewrite Es, elem_of_cons. tauto.
  - apply (head_gone v); [apply G|done].
  - intros h. unfold wakes. simpl. lia.
  - intros _. split.
    + exists (SendParked a0). split; [|split; [done|]].
      * apply (thread_insert ts g (RecvLock ep block)); [done|]. by right.
      * simpl. destruct Hpt as [Hmt Hvt]. rewrite <-Hvt. apply (moved_sent w); [done..|]. simpl.
        by rewrite own_snoc, decide_False, app_nil_r by done.
    + simpl. split; [done|]. exists y. split; [|intros ->; by rewrite Hval, decide_True].
      apply (moved_got w); [apply Hpe| |done]. simpl. by rewrite own_snoc, decide_False, app_nil_r by done.
  - apply (globals_step w _ ts v _ g (RecvLock ep block)); try done; simpl.
    + rewrite Es. by apply sublist_cons.
    + rewrite !map_app. simpl. rewrite <-app_assoc. simpl. rewrite <-Ei, (ci_history _ _ _ G).
      by rewrite app_assoc.
    + by apply (holds_frame σ).
    + by apply (holds_frame σ).
    + intros _. rewrite <-(ci_waiting_sends _ _ _ G) by (by rewrite Es).
      apply (f_equal len) in Ei. rewrite len_app, !len_cons, len_nil in Ei. lia.
    + unfold closing. simpl. lia.
    + congruence.
Qed.

Lemma recv_buffered w ts v g ep block y rest : chan_inv zero w ts v → thread ts g (RecvLock ep block) →
  lock (ch w) = false → ss v = [] → items v = y :: rest →
  idx (buf (ch w)) (recvx (ch w)) = Ok y ∧
  ∃ b, store (buf (ch w)) (recvx (ch w)) zero = Ok b ∧
  let c := set_ring (ch w) b (sendx (ch w)) (next_index (ch w) (recvx (ch w))) (u64 (qcount (ch w) - 1)) in
  chan_inv zero (note_received (write (set_ch w c) ep y) g y)
    (<[Z.to_nat g:=(g, Return (Received ep true true))]> ts) (View (rs v) (ss v) rest (began v)).
Proof.
  intros Hi Ht Hlk Es Ei. pose proof (ci_globals _ _ _ _ Hi) as G.
  pose proof (ci_local _ _ _ _ Hi g _ Ht) as [Hep Hpe].
  pose proof (ci_ring _ _ _ G) as R. rewrite Ei in R.
  destruct (ring_pop zero (ch w) y rest R) as (Ey & b & Eb & R'). split; [done|]. exists b. split; [done|].
  intros c. rewrite write_eq. set (w' := note_received _ _ _).
  assert (∀ h, value zero w' h = if decide (ep = Some h) then y else value zero w h) as Hval
    by (intros h; change (value zero w' h) with (value zero (write (set_ch w c) ep y) h); by rewrite (value_write zero _ _ g)).
  assert (rs v = []) as Er.
  { destruct (rs v) eqn:Er; [done|]. destruct (ci_waiting_recvs _ _ _ G) as [? _]; [by rewrite Er|congruence]. }
  apply (inv_alone zero w _ ts v _ g (RecvLock ep block)); try done.
  - intros h Hh. rewrite Hval. simpl. rewrite own_snoc, !decide_False, app_nil_r by (done || destruct Hep; congruence).
    done.
  - split; try done. simpl. by rewrite Ei.
  - intros _. split; [done|]. exists y. split; [|intros ->; by rewrite Hval, decide_True].
    by apply (moved_got w); [apply Hpe|..].
  - apply (globals_step w _ ts v _ g (RecvLock ep block)); try done; simpl.
    + rewrite map_app, <-app_assoc. simpl. by rewrite (ci_history _ _ _ G), Ei.
    + apply G.
    + apply G.
    + unfold closing. simpl. lia.
    + apply G.
Qed.
Lemma recv_parks w ts v g ep a : chan_inv zero w ts v → thread ts g (RecvLock ep true) →
  closed (ch w) = 0 → lock (ch w) = false → ss v = [] → qcount (ch w) = 0 → a ∉ inuse (sgs w) →
  let w1 := acquireSudog w g a ep in
  let '(σ, q) := enqueue (sgs w1) (recvq (ch w)) a in
  chan_inv zero (gopark (set_sgs (set_ch w1 (set_recvq (ch w) q)) σ) g)
    (<[Z.to_nat g:=(g, RecvParked a ep)]> ts) (View (rs v ++ [a]) (ss v) (items v) (began v)).
Proof.
  intros Hi Ht Hcl Hlk Es H0 Ha w1. pose proof (ci_globals _ _ _ _ Hi) as G.
  pose proof (ci_local _ _ _ _ Hi g _ Ht) as [Hep Hpe].
  pose proof (ci_ring _ _ _ G) as R.
  assert (items v = []) as Ei by (apply len_0_nil; by rewrite <-(ro_count _ _ R)).
  assert (a ∉ rs v) as Hout by (intros (h & e & _ & Hm & _)%(recv_owner zero w ts v Hi); by apply Ha, Hm).
  pose proof (acquire_beside w g a ep (rs v) (recvq (ch w)) (rs v ++ ss v) Hout) as He.
  cbv zeta in He. fold w1 in He. destruct (enqueue _ _ a) as [σ q].
  destruct He as (Hq & Hb & Hg & Hu & Hs & Hel & Hoth); [intros b; rewrite elem_of_app; by left|apply G|].
  assert (∀ b, b ∈ rs v ++ [a] ↔ b ∈ rs v ∨ b = a) as Hin
    by (intros b; by rewrite elem_of_app, list_elem_of_singleton).
  apply (inv_park zero w _ ts v _ g (RecvLock ep true) _ a); try done.
  - intros h Hh. simpl. by rewrite put_ptr_ne by done.
  - intros b Hb'. simpl. rewrite Hin. tauto.
  - split_and!; [by apply put_ptr_eq|done..].
  - simpl. rewrite Hin. by right.
  - pose proof G as [G1 G2 G3 G4 G5 G6 G7 G8 G9 G10 G11 G12].
    split; simpl; try done.
    + by apply (ring_ok_ext (ch w)).
    + apply Hoth; [done|]. rewrite Es. by intros b ?%elem_of_nil.
    + rewrite Es, app_nil_r in *. apply NoDup_app. split; [done|].
      split; [by intros b Hb' ->%list_elem_of_singleton|apply NoDup_singleton].
    + intros b [Hb'| ->]%Hin.
      * destruct (G6 b Hb') as (h & e & Hh). exists h, e. by apply (parked_elsewhere ts g (RecvLock ep true)).
      * exists g, ep. apply (thread_insert ts g (RecvLock ep true)); [done|by left].
    + rewrite Es. by intros b ?%elem_of_nil.
    + rewrite (closing_insert ts g (RecvLock ep true)), G10 by done. unfold closing. simpl. lia.
Qed.

Lemma chanrecv_inv w ts v g ep block a : chan_inv zero w ts v → thread ts g (RecvLock ep block) →
  lock (ch w) = false → a ∉ inuse (sgs w) →
  ∃ w' p' v', chanrecv zero w g ep block a = Ok (w', p') ∧ began v' = began v ∧
    chan_inv zero w' (<[Z.to_nat g:=(g, p')]> ts) v'.
Proof.
  intros Hi Ht Hlk Ha. pose proof (ci_globals _ _ _ _ Hi) as G. unfold chanrecv.
  pose proof (ci_local _ _ _ _ Hi g _ Ht) as [Hep Hpe].
  pose proof (ci_ring _ _ _ G) as R. pose proof (len_nonneg (items v)) as Hn.
  destruct (bool_decide (closed (ch w) ≠ 0 ∧ qcount (ch w) = 0)) eqn:Hdrained.
  { apply bool_decide_eq_true in Hdrained as [Hc Hq0].
    rewrite (proj2 (Z.eqb_neq _ _) Hc), (proj2 (Z.eqb_eq _ _) Hq0). simpl.
    assert (items v = []) as Ei by (apply len_0_nil; by rewrite <-(ro_count _ _ R)).
    eexists _, _, v. do 2 (split; [done|]). apply (inv_quiet zero w _ ts v g (RecvLock ep block)); try done.
    - destruct Hep as [->| ->]; [by left|by right; eexists].
    - intros _. split; [done|]. split; [by rewrite write_eq|]. split; [done|]. split; [|intros ->; simpl; by rewrite value_set_mem, decide_True].
      rewrite write_eq. apply Hpe. }
  apply bool_decide_eq_false in Hdrained.
  rewrite (proj2 (andb_false_iff _ _)).
  2: { destruct (Z.eqb_spec (closed (ch w)) 0); [by left|right]. apply Z.eqb_neq. tauto. }
  destruct (ss v) as [|a0 rest] eqn:Es.
  2: { destruct (Z.eq_dec (closed (ch w)) 0) as [Hcl|Hcl].
       2: { by destruct (ci_closed _ _ _ G) as [_ ?]; [..|congruence]. }
       destruct (recv_waiting w ts v g ep block a0 rest) as (w1 & w2 & t & it & E1 & E2 & Hi'); [done..|].
       rewrite (proj2 (Z.eqb_eq _ _) Hcl). simpl negb. cbv iota. rewrite E1. cbn [mbind res_bind].
       rewrite E2. eexists _, _, _. split; [reflexivity|]. split; [|exact Hi']. done. }
  pose proof (h_first _ _ _ (ci_sendq _ _ _ G)) as Hf. rewrite Es in Hf.
  rewrite (dequeue_sendq_none w Hf).
  replace (if negb (closed (ch w) =? 0) then _ else _) with (Ok (w, @None Z)) by by case_match.
  cbn [mbind res_bind]. destruct (Z.ltb_spec 0 (qcount (ch w))) as [Hlt|Hge].
  - destruct (items v) as [|y rest] eqn:Ei; [pose proof (ro_count _ _ R) as Hc0; rewrite len_nil in Hc0; lia|].
    destruct (recv_buffered w ts v g ep block y rest) as (Ey & b & Eb & Hi'); [done..|].
    rewrite Ey. cbn [mbind res_bind]. rewrite Eb. cbn [mbind res_bind].
    eexists _, _, _. split; [reflexivity|]. split; [|exact Hi']. done.
  - destruct block; simpl.
    + assert (qcount (ch w) = 0) as H0 by (rewrite (ro_count _ _ R) in *; lia).
      assert (closed (ch w) = 0) as Hcl by (destruct (Z.eq_dec (closed (ch w)) 0); tauto).
      pose proof (recv_parks w ts v g ep a Hi Ht Hcl Hlk Es H0 Ha) as Hi'. simpl in Hi'.
      destruct (enqueue _ _ _) as [σ q]. eexists _, _, _. split; [reflexivity|]. split; [|exact Hi']. done.
    + eexists _, _, v. do 2 (split; [reflexivity|]). apply (inv_quiet zero w w ts v g (RecvLock ep false)); auto. done.
Qed.
End steps.
