(* ===== verification/ChanClose.v ===== *)
(** * runtime: closing a channel and waking up keep the invariant *)

From stdpp Require Import gmap relations.
From S2P Require Import Prelude Threads Chan ChanQueue ChanProofs ChanSteps.

Section steps.
Context {V : Type} (zero : V).
Implicit Types (c : hchan V) (w : world V) (ts : list (Z * chanpc)) (items : list V) (v : view (V := V)).

(** ** Closing *)

(** The goroutines that [closechan] has collected are neither the one that closes
    nor one that is in a queue. *)
Lemma dropped_step w w' ts v v' g p p' gl : chan_inv zero w ts v → thread ts g p → waits p = None →
  grows w w' v v' →
  (∀ h, h ≠ g → h ∈ gl → same zero w w' ts (<[Z.to_nat g:=(g, p')]> ts) v v' h) →
  dropped zero w ts v gl → dropped zero w' (<[Z.to_nat g:=(g, p')]> ts) v' gl.
Proof.
  intros Hi Ht Hp Hg Hs Hd. apply (dropped_frame zero w _ ts _ v); try done.
  - intros h q a Hq. by apply (local_mine zero w ts v), Hi.
  - intros h Hh. destruct (Hd h Hh) as (q & a & Hq & Hw & _). split.
    + apply Hs; [|done]. intros ->. rewrite (thread_fun ts g p q) in Hp by done. congruence.
    + intros r Hr Hn. apply (parked_elsewhere ts g p); [done|done| |done].
      destruct (waits r); [by eexists|done].
Qed.

Lemma closechan_inv w ts v g : chan_inv zero w ts v → thread ts g CloseLock → lock (ch w) = false →
  let '(w', p') := closechan w in chan_inv zero w' (<[Z.to_nat g:=(g, p')]> ts) v.
Proof.
  intros Hi Ht Hlk. pose proof (ci_globals _ _ _ _ Hi) as G. unfold closechan.
  pose proof (ci_local _ _ _ _ Hi g _ Ht) as Hpe. simpl in Hpe.
  destruct (Z.eqb_spec (closed (ch w)) 0) as [Hcl|Hcl]; simpl.
  - apply (inv_alone zero w _ ts v _ g CloseLock); try done.
    + intros _. split; [by intros h ?%elem_of_nil|done].
    + apply (globals_step w _ ts v _ g CloseLock); try done; simpl; try by apply G.
      * by apply (ring_ok_ext (ch w)); [apply G|..].
      * rewrite Hlk. done.
  - apply (inv_quiet zero w w ts v g CloseLock); auto. by intros _.
Qed.

(** While the loops of [closechan] run the lock is held. *)
Lemma closing_locked w ts v g p : chan_inv zero w ts v → thread ts g p → closing (g, p) = 1 →
  lock (ch w) = true ∧ closed (ch w) ≠ 0.
Proof.
  intros Hi Ht Hc. pose proof (ci_globals _ _ _ _ Hi) as G.
  assert (lock (ch w) = true) as Hlk; [|split; [done|by apply (ci_locked _ _ _ G)]].
  assert (∀ t, 0 ≤ closing t) as Hn by (intros [x []]; unfold closing; simpl; lia).
  pose proof (total_at closing ts _ _ Hn (proj2 Ht)) as H1.
  pose proof (ci_lock _ _ _ G) as H2. unfold bit in H2. case_decide; [done|lia].
Qed.

Lemma closechan_recvs_inv w ts v g gl : chan_inv zero w ts v → thread ts g (CloseRecvs gl) →
  ∃ w' p' v', closechan_recvs zero w gl = Ok (w', p') ∧ began v' = began v ∧
    chan_inv zero w' (<[Z.to_nat g:=(g, p')]> ts) v' ∧
    ((p' = CloseSends gl ∧ v' = v) ∨ ∃ a t, rs v = a :: rs v' ∧ ss v' = ss v ∧ p' = CloseRecvs (t :: gl)).
Proof.
  intros Hi Ht. pose proof (ci_globals _ _ _ _ Hi) as G.
  destruct (closing_locked w ts v g _ Hi Ht eq_refl) as [Hlk Hcl].
  destruct (ci_local _ _ _ _ Hi g _ Ht) as (Hd & _ & Hpe). unfold closechan_recvs.
  destruct (rs v) as [|a0 rest] eqn:Er.
  { pose proof (h_first _ _ _ (ci_recvq _ _ _ G)) as Hf. rewrite Er in Hf.
    rewrite (dequeue_recvq_none w Hf). eexists _, _, v. do 2 (split; [done|]). split; [|by left].
    apply (inv_quiet zero w w ts v g (CloseRecvs gl)); auto. intros Hs.
    split; [|done]. apply (dropped_step w w ts v v g (CloseRecvs gl)); auto. apply grows_refl. }
  destruct (dequeue_recvq_spec zero w ts v Hi) as (σ & q & E & Hq & Hsq & Ho & Hl).
  rewrite Er in *. simpl in E, Hq. destruct (Hl a0 eq_refl) as [Hn1 Hn2].
  destruct (recv_owner zero w ts v Hi a0) as (t & ep & Htt & Hm & Hv & He & Hpk & Hz & Hpt).
  { rewrite Er. apply elem_of_cons. by left. }
  assert (t ≠ g) as Htg by (intros ->; by pose proof (thread_fun ts g _ _ Ht Htt)).
  destruct (ci_waiting_recvs _ _ _ G) as [Ei Es]; [by rewrite Er|].
  rewrite E. cbn [mbind res_bind]. set (w1 := World _ σ _ _ _ _ _ _ _).
  rewrite (through_elem w1). unfold release_waiter, g_of.
  assert (sg_elem (sgs w1) !! a0 = ep) as -> by (simpl; by rewrite (ol_elem _ _ _ Ho)).
  simpl sg_g. rewrite (ol_g _ _ _ Ho). rewrite (proj1 (proj2 Hm)). cbn [mbind res_bind mret res_ret].
  eexists _, _, (View rest (ss v) (items v) (began v)). do 2 (split; [reflexivity|]). split; [|right; by eexists _, _].
  rewrite write_eq. simpl sgs. set (w' := set_sgs (set_param _ _ _) _).
  assert (∀ h, value zero w' h = if decide (ep = Some h) then zero else value zero w h) as Hval
    by (intros h; change (value zero w' h) with (value zero (write w1 ep zero) h);
        by rewrite (value_write zero _ _ t)).
  assert (grows w w' v (View rest (ss v) (items v) (began v))) as Hg by by split.
  apply (inv_take zero w _ ts v _ g (CloseRecvs gl) _ t (RecvParked a0 ep) a0); try done.
  - apply (beside_trans _ σ).
    + apply (beside_links _ _ _ _ (a0 :: rest)); [done|]. intros a Ha. right. rewrite Er, elem_of_app. by left.
    + eapply beside_trans; [apply beside_elem|apply beside_success].
  - apply (mine_frame w); [done|done|..]; simpl; apply Ho.
  - split_and!; simpl; [by rewrite put_ptr_eq|done|done].
  - intros h Hhg Hht. rewrite Hval, decide_False; [done|]. destruct Hv; congruence.
  - intros a Ha. simpl. rewrite Er, elem_of_cons. tauto.
  - apply (head_gone v); [apply G|done].
  - intros H. congruence.
  - intros Hs. split.
    2: { split; [done|]. split; [apply Hpe|]. rewrite Hval, decide_False; [apply Hpe|]. destruct Hv; congruence. }
    intros h [->|Hh]%elem_of_cons.
    + exists (RecvParked a0 ep), a0. split_and!; [|done|simpl; set_solver|].
      * apply (parked_elsewhere ts g (CloseRecvs gl)); [done..|by eexists|done].
      * do 3 (split; [done|]). split; [apply Hpt|]. intros ->. by rewrite Hval, decide_True.
    + apply (dropped_step w w' ts v _ g (CloseRecvs gl) _ gl); try done.
      intros h' Hne Hh'. apply Hs; [done|]. intros ->. apply occurs_pos in Hh'.
      pose proof (total_at (wakes t) ts _ _ (wakes_nonneg t) (proj2 Ht)) as Hw. unfold wakes in Hw at 1.
      simpl in Hw. lia.
  - apply (globals_step w _ ts v _ g (CloseRecvs gl)); try done; simpl.
    + rewrite Er. by apply sublist_cons.
    + by apply (ring_ok_ext (ch w)); [apply G|..].
    + apply G.
    + by apply (holds_frame σ).
    + by apply (holds_frame σ).
    + unfold closing. simpl. lia.
    + congruence.
Qed.

Lemma closechan_sends_inv w ts v g gl : chan_inv zero w ts v → thread ts g (CloseSends gl) →
  ∃ w' p' v', closechan_sends w gl = Ok (w', p') ∧ began v' = began v ∧
    chan_inv zero w' (<[Z.to_nat g:=(g, p')]> ts) v' ∧
    (p' = CloseWake gl ∨ ∃ a t, ss v = a :: ss v' ∧ rs v' = rs v ∧ p' = CloseSends (t :: gl)).
Proof.
  intros Hi Ht. pose proof (ci_globals _ _ _ _ Hi) as G.
  destruct (closing_locked w ts v g _ Hi Ht eq_refl) as [Hlk Hcl].
  destruct (ci_local _ _ _ _ Hi g _ Ht) as (Hd & _ & Er & Hpe). unfold closechan_sends.
  destruct (ss v) as [|a0 rest] eqn:Es.
  { pose proof (h_first _ _ _ (ci_sendq _ _ _ G)) as Hf. rewrite Es in Hf.
    rewrite (dequeue_sendq_none w Hf). eexists _, _, v. do 2 (split; [done|]). split; [|by left].
    apply (inv_alone zero w _ ts v v g (CloseSends gl)); try done.
    - intros Hs. split; [|done]. by apply (dropped_step w _ ts v v g (CloseSends gl)); auto.
    - apply (globals_step w _ ts v v g (CloseSends gl)); try done; simpl; try by apply G.
      + by apply (ring_ok_ext (ch w)); [apply G|..].
      + by rewrite Hlk. }
  destruct (dequeue_sendq_spec zero w ts v Hi) as (σ & q & E & Hq & Hrq & Ho & Hl).
  rewrite Es in *. simpl in E, Hq. destruct (Hl a0 eq_refl) as [Hn1 Hn2].
  destruct (send_owner zero w ts v Hi a0) as (t & Htt & Hm & He & Hpk & Hz & Hpt).
  { rewrite Es. apply elem_of_cons. by left. }
  rewrite E. cbn [mbind res_bind]. unfold release_waiter, g_of.
  simpl sg_g. rewrite (ol_g _ _ _ Ho). rewrite (proj1 (proj2 Hm)). cbn [mbind res_bind mret res_ret].
  eexists _, _, (View (rs v) rest (items v) (began v)). do 2 (split; [reflexivity|]). split; [|right; by eexists _, _]. set (w' := set_sgs (set_param _ _ _) _).
  apply (inv_take zero w w' ts v _ g (CloseSends gl) _ t (SendParked a0) a0); try done.
  - by right.
  - apply (beside_trans _ σ).
    + apply (beside_links _ _ _ _ (a0 :: rest)); [done|]. intros a Ha. right. rewrite Es, elem_of_app. by right.
    + eapply beside_trans; [apply beside_elem|apply beside_success].
  - apply (mine_frame w); [done|done|..]; simpl; apply Ho.
  - split_and!; simpl; [by rewrite put_ptr_eq|done|done].
  - intros a Ha. simpl. rewrite Es, elem_of_cons. tauto.
  - apply (head_gone v); [apply G|done].
  - intros Hs. split; [|done]. intros h [->|Hh]%elem_of_cons.
    + exists (SendParked a0), a0. split_and!; [|done|simpl; set_solver|done].
      apply (parked_elsewhere ts g (CloseSends gl)); [done..|by eexists|done].
    + apply (dropped_step w w' ts v _ g (CloseSends gl) _ gl); try done.
      intros h' Hne Hh'. apply Hs; [done|]. intros ->. apply occurs_pos in Hh'.
      pose proof (total_at (wakes t) ts _ _ (wakes_nonneg t) (proj2 Ht)) as Hw. unfold wakes in Hw at 1.
      simpl in Hw. lia.
  - apply (globals_step w _ ts v _ g (CloseSends gl)); try done; simpl.
    + rewrite Es. by apply sublist_cons.
    + by apply (ring_ok_ext (ch w)); [apply G|..].
    + apply G.
    + by apply (holds_frame σ).
    + by apply (holds_frame σ).
    + intros _. apply (ci_waiting_sends _ _ _ G). by rewrite Es.
    + unfold closing. simpl. lia.
    + congruence.
Qed.
(** ** Waking up *)

(** A goroutine with a pending wake-up is parked, has no other and is in no queue. *)
Lemma woken w ts v g p t pt : chan_inv zero w ts v → thread ts g p → thread ts t pt →
  0 < wakes t (g, p) → t ∈ parked w ∧ wakes t (g, p) = 1 ∧ total (wakes t) ts = 1 ∧ ¬ queued v pt.
Proof.
  intros Hi Ht Htt Hw. destruct (ci_ticket _ _ _ _ Hi t pt Htt) as [Hk _].
  pose proof (total_at (wakes t) ts _ _ (wakes_nonneg t) (proj2 Ht)) as H1.
  unfold bit in Hk. repeat case_decide; split_and!; done || lia.
Qed.

(** The step that makes the goroutine [t] ready, which waits on [a]. *)
Lemma inv_release w w' ts v g p p' t pt a ok : chan_inv zero w ts v → thread ts g p →
  waits p = None → waits p' = None → thread ts t pt → waits pt = Some a → resumed zero w v t pt ok →
  ch w' = ch w → sg_g (sgs w') = sg_g (sgs w) → sg_elem (sgs w') = sg_elem (sgs w) →
  sg_next (sgs w') = sg_next (sgs w) → sg_prev (sgs w') = sg_prev (sgs w) →
  inuse (sgs w') = inuse (sgs w) → isSelect (sgs w') = isSelect (sgs w) →
  (∀ b, b ≠ a → b ∈ success (sgs w') ↔ b ∈ success (sgs w)) → (a ∈ success (sgs w') ↔ ok = true) →
  waiting w' = waiting w → parked w' = parked w ∖ {[t]} → mem w' = mem w → sent w' = sent w →
  received w' = received w → (∀ h, wakes h (g, p) = bit (t = h) + wakes h (g, p')) →
  closing (g, p') = closing (g, p) →
  ((∀ h, h ≠ g → h ≠ t → same zero w w' ts (<[Z.to_nat g:=(g, p')]> ts) v v h) →
    local zero w' (<[Z.to_nat g:=(g, p')]> ts) v g p') →
  chan_inv zero w' (<[Z.to_nat g:=(g, p')]> ts) v.
Proof.
  intros Hi Ht Hp Hp' Htt Hpt Hres Ech Eg Eel Enx Epv Eu Ese Hsu Hok Ew Ep Em Est Erc Hwk Hcl Hl.
  pose proof (ci_ticket _ _ _ _ Hi g p Ht) as Htk. pose proof (awake_wakes _ _ _ _ _ Htk Hp) as Hz.
  assert (t ≠ g) as Hne by (intros ->; rewrite (thread_fun ts g p pt) in Hp by done; congruence).
  assert (total (wakes t) ts = 1 ∧ wakes t (g, p) = 1 ∧ ¬ queued v pt ∧ t ∈ parked w) as (Hz1 & Hz2 & Hnq & Hpk).
  { pose proof (wakes_nonneg t (g, p')). destruct (woken w ts v g p t pt) as (? & ? & ? & ?); try done.
    rewrite Hwk, bit_true by done. lia. }
  assert (∀ h, h ≠ g → h ≠ t → same zero w w' ts (<[Z.to_nat g:=(g, p')]> ts) v v h) as Hsame.
  { intros h Hhg Hht. split.
    - by rewrite Ew.
    - unfold value. by rewrite Em.
    - by rewrite Est.
    - by rewrite Erc.
    - done.
    - rewrite Ep, elem_of_difference, elem_of_singleton. tauto.
    - rewrite (wakes_insert ts g p), Hwk, (bit_false (t = h)) by done. lia.
    - intros b Hb. rewrite Eg, Eel, Eu, Ese, Enx, Epv. destruct Hb as (B1 & B2 & B3 & B4).
      split_and!; try done. apply Hsu. intros ->.
      pose proof (local_mine _ _ _ _ _ _ a (ci_local _ _ _ _ Hi t pt Htt) Hpt) as (_ & M2 & _). congruence. }
  apply (inv_step zero w w' ts v v g p p' (Some t)); auto.
  - intros h Hhg Hht. apply Hsame; congruence.
  - split; try done; by rewrite ?Est, ?Ech.
  - assert (g ∉ parked w') as Hgp.
    { rewrite Ep, elem_of_difference. intros [? _]. by apply (proj2 Htk Hp). }
    split; [|done].
    rewrite (wakes_insert ts g p) by done. pose proof (Hwk g) as Hwg.
    rewrite (bit_false (t = g)) in Hwg by done.
    rewrite bit_false by by apply queued_waits. rewrite bit_false by done. lia.
  - intros t' [= <-]. split; [done|]. split; [lia|]. intros q Hqt.
    assert (q = pt) as -> by (by apply (thread_fun ts t)).
    pose proof (ci_local _ _ _ _ Hi t pt Htt) as Hlt. split.
    + assert (asleep zero w v t a pt) as (Hm & Hv & Has) by (destruct pt; simpl in Hpt; simplify_eq; done).
      destruct Has as [[? _]|(Hout & Hc & _)]; [done|].
      assert (asleep zero w' v t a pt) as Has'; [|by destruct pt; simpl in Hpt; simplify_eq].
      split; [by apply (mine_frame w); rewrite ?Ew|]. split; [done|]. right. split; [done|].
      split; [unfold cleared in *; by rewrite Eel, Enx, Epv|]. intros _.
      replace (bool_decide _) with ok by (symmetry; destruct ok;
        [apply bool_decide_eq_true|apply bool_decide_eq_false]; rewrite Hok; done).
      revert Hres. unfold resumed, result, pending, moved, value. by rewrite Em, Est, Erc, Ech.
    + split; [|congruence]. rewrite Ep, (wakes_insert ts g p) by done. pose proof (Hwk t) as Hwt.
      rewrite (bit_true (t = t)) in Hwt by done. rewrite !bit_false; [lia| |done].
      rewrite elem_of_difference, elem_of_singleton. tauto.
  - pose proof (ci_globals _ _ _ _ Hi) as G. apply (globals_step w w' ts v v g p); try done;
      rewrite ?Ech, ?Est, ?Erc; try by apply G.
    + apply (holds_frame (sgs w)); [apply G|by rewrite Enx, Epv].
    + apply (holds_frame (sgs w)); [apply G|by rewrite Enx, Epv].
    + lia.
Qed.

Lemma closechan_wake_inv w ts v g gl : chan_inv zero w ts v → thread ts g (CloseWake gl) →
  ∃ w' p', closechan_wake w gl = Ok (w', p') ∧
    chan_inv zero w' (<[Z.to_nat g:=(g, p')]> ts) v.
Proof.
  intros Hi Ht. destruct (ci_local _ _ _ _ Hi g _ Ht) as (Hd & Hcl & Hpe).
  destruct gl as [|t gl]; simpl.
  { eexists _, _. split; [done|]. apply (inv_quiet zero w w ts v g (CloseWake [])); auto. by intros _. }
  destruct (Hd t) as (pt & a & Htt & Hpt & Ha & Hres); [apply elem_of_cons; by left|].
  assert (wakes t (g, CloseWake (t :: gl)) = 1 + occurs t gl) as Hwt
    by (unfold wakes; simpl; by rewrite bit_true).
  unfold goready. rewrite bool_decide_true.
  2: { apply (woken w ts v g _ t pt Hi Ht Htt). rewrite Hwt. pose proof (occurs_nonneg t gl). lia. }
  cbn [mbind res_bind]. eexists _, _. split; [done|].
  apply (inv_release w _ ts v g (CloseWake (t :: gl)) _ t pt a false); try done.
  intros Hs. split; [|done]. apply (dropped_step w _ ts v v g (CloseWake (t :: gl))); try done.
  - intros h Hne Hh. apply Hs; [done|]. intros ->. apply occurs_pos in Hh.
    destruct (woken w ts v g _ t pt Hi Ht Htt) as (_ & H1 & _); lia.
  - intros h Hh. apply Hd. apply elem_of_cons. by right.
Qed.

Lemma wake_inv w ts v g t a o : chan_inv zero w ts v → thread ts g (Wake t a o) →
  ∃ w', wake w t a = Ok w' ∧ chan_inv zero w' (<[Z.to_nat g:=(g, Return o)]> ts) v.
Proof.
  intros Hi Ht. destruct (ci_local _ _ _ _ Hi g _ Ht) as [(pt & Htt & Hpt & Hres) Ho].
  unfold wake, goready. rewrite bool_decide_true.
  2: { apply (woken w ts v g _ t pt Hi Ht Htt). unfold wakes. simpl. by rewrite bit_true. }
  eexists. split; [reflexivity|].
  apply (inv_release w _ ts v g (Wake t a o) _ t pt a true); try done; simpl.
  - set_solver.
  - set_solver.
  - intros h. unfold wakes. simpl. lia.
Qed.
(** ** After [gopark] *)

(** The sudog is given back, and the operation ends as the waker decided. *)
Lemma unpark_inv w ts v g p a : chan_inv zero w ts v → thread ts g p → waits p = Some a →
  g ∉ parked w → let ok := bool_decide (a ∈ success (sgs w)) in
  ∃ w', unpark w g a = Ok (w', ok) ∧ resumed zero w v g p ok ∧ ch w' = ch w ∧
    ∀ o, (resumed zero w' v g p ok → result zero w' v g o) →
      chan_inv zero w' (<[Z.to_nat g:=(g, Return o)]> ts) v.
Proof.
  intros Hi Ht Hp Hpk ok. pose proof (ci_local _ _ _ _ Hi g p Ht) as Hl.
  pose proof (ci_ticket _ _ _ _ Hi g p Ht) as [Hk _]. rewrite (bit_false (g ∈ parked w)) in Hk by done.
  pose proof (total_nonneg (wakes g) ts (wakes_nonneg g)) as Hn.
  assert (¬ queued v p ∧ total (wakes g) ts = 0) as [Hnq Hz].
  { unfold bit in Hk. case_decide; [lia|]. split; [done|lia]. }
  assert (asleep zero w v g a p) as (Hm & Hv & [[? _]|(Hout & (C1 & C2 & C3) & Hres)])
    by (destruct p; simpl in Hp; simplify_eq; done); [done|].
  destruct Hm as (M1 & M2 & M3 & M4). specialize (Hres Hpk). unfold unpark, releaseSudog. simpl.
  rewrite bool_decide_true by done. rewrite C1, C2, C3, put_ptr_eq, (bool_decide_false (a ∈ isSelect _)) by done.
  cbn [is_nil negb mbind res_bind mret res_ret]. eexists. split; [reflexivity|].
  split; [done|]. split; [done|]. set (w' := set_sgs _ _). intros o Ho.
  apply (inv_step zero w w' ts v v g p (Return o) None); try done.
  - intros h Hh _. apply (same_intro zero w w' ts v v g p (Return o) h (Some a)); try done.
    + apply beside_inuse.
    + simpl. by rewrite put_ptr_ne by done.
    + by destruct p.
    + intros b (_ & Hb & _). split; [congruence|done].
  - apply Ho, Hres.
  - split; [|done]. rewrite (wakes_insert ts g p), Hz by done. 
    rewrite (bit_false (queued _ _)), (bit_false (g ∈ _)) by auto. by destruct p.
  - pose proof (ci_globals _ _ _ _ Hi) as G. pose proof G as [G1 G2 G3 G4 G5 G6 G7 G8 G9 G10 G11 G12].
    split; try done.
    + by apply (holds_frame (sgs w)).
    + by apply (holds_frame (sgs w)).
    + intros b Hb. destruct (G6 b Hb) as (h & e & Hh). exists h, e. apply (thread_insert ts g p); [done|].
      right. split; [|done]. intros ->. pose proof (thread_fun _ _ _ _ Ht Hh) as ->. done.
    + intros b Hb. destruct (G7 b Hb) as (h & Hh). exists h. apply (thread_insert ts g p); [done|].
      right. split; [|done]. intros ->. pose proof (thread_fun _ _ _ _ Ht Hh) as ->. done.
    + rewrite (closing_insert ts g p), G10 by done. destruct p; unfold closing; simpl in *; done || lia.
Qed.
End steps.
