(* ===== verification/ChanInv.v ===== *)
(** * runtime: every step of a channel keeps the invariant

    And brings its operation nearer to the end. *)

From stdpp Require Import gmap relations.
From S2P Require Import Prelude Threads Chan ChanQueue ChanProofs ChanSteps ChanRecv ChanClose.

Section invariant.
Context {V : Type} (zero : V).
Implicit Types (c : hchan V) (w : world V) (ts : list (Z * chanpc)) (items : list V) (v : view (V := V)).

(** The call of [g] begins in [w]. *)
Definition calls w v (g : Z) : view := View (rs v) (ss v) (items v) (λ h,
  if decide (h = g) then Past (own g (sent w)) (own g (received w)) (value zero w g) else began v h).

Lemma calls_pending w v g : pending zero w (calls w v g) g.
Proof. unfold pending, moved. simpl. by rewrite decide_True, !app_nil_r. Qed.

Lemma chancall_inv w ts v g act w' t : chan_inv zero w ts v → thread ts g Idle →
  chancall w g act = Some (w', t) → fst t = g ∧ chan_inv zero w' (<[Z.to_nat g:=t]> ts) (calls w' v g).
Proof.
  intros Hi Ht.
  assert (∀ w' p', waits p' = None → (w' = w ∨ ∃ x, w' = set_mem w g x) →
    (∀ h, wakes h (g, p') = 0) → closing (g, p') = 0 →
    local zero w' (<[Z.to_nat g:=(g, p')]> ts) (calls w' v g) g p' →
    chan_inv zero w' (<[Z.to_nat g:=(g, p')]> ts) (calls w' v g)) as Hcall.
  { intros. apply (inv_call zero w _ ts v _ g Idle); try done. intros h Hh. by rewrite decide_False. }
  assert (∀ want : bool, its_variable g (if want then Some g else None)) as Hv
    by (intros []; [by right|by left]).
  destruct act as [isnil x block|isnil want block|isnil|sg]; simpl; intros [= <- <-]; (split; [done|]); apply Hcall;
    try (by left); try (by right; eexists); destruct isnil; try destruct block; try done;
    try (split; [done|]); apply calls_pending.
Qed.

(** ** Every point of a goroutine that can go on *)

Definition enabled w (g : Z) (p : chanpc) : Prop :=
  match p with
  | Idle | Forever | Throw => False
  | SendLock _ | RecvLock _ _ | CloseLock => lock (ch w) = false
  | SendParked _ | RecvParked _ _ => g ∉ parked w
  | _ => True
  end.
#[export] Instance enabled_dec w g p : Decision (enabled w g p).
Proof. destruct p; simpl; apply _. Defined.

(** A bound on the steps of the goroutine to the end of its operation. *)
Definition rank v (p : chanpc) : Z :=
  let waiters := len (rs v) + len (ss v) in
  match p with
  | Idle | Forever | Throw => 0
  | Return _ => 1
  | SendParked _ | RecvParked _ _ | Wake _ _ _ => 2
  | SendLock _ | RecvLock _ _ => 3
  | SendFull | RecvEmpty2 _ => 4
  | SendFast | RecvClosed _ => 5
  | RecvEmpty _ => 6
  | CloseWake gl => len gl + 2
  | CloseSends gl => len gl + 2 * waiters + 3
  | CloseRecvs gl => len gl + 2 * waiters + 4
  | CloseLock => 2 * waiters + 5
  end.

Definition nearer v v' (p p' : chanpc) : Prop :=
  rank v' p' < rank v p ∧ (1 < rank v p → 0 < rank v' p').

Lemma rank_nonneg v p : 0 ≤ rank v p.
Proof.
  pose proof (len_nonneg (rs v)). pose proof (len_nonneg (ss v)).
  destruct p; simpl; try lia; pose proof (len_nonneg glist); lia.
Qed.

(** Where the sections under the lock end. *)
Lemma chansend_next w g block a w' p' v : chansend zero w g block a = Ok (w', p') → 0 < rank v p' ≤ 2.
Proof.
  unfold chansend, mbind, res_bind, mret, res_ret. intros H.
  repeat (case_match; simplify_eq/=; try done); try lia.
Qed.

Lemma chanrecv_next w g ep block a w' p' v : chanrecv zero w g ep block a = Ok (w', p') → 0 < rank v p' ≤ 2.
Proof.
  unfold chanrecv, mbind, res_bind, mret, res_ret. intros H.
  repeat (case_match; simplify_eq/=; try done); try lia.
Qed.
Lemma empty_items c items : ring_ok c items → dataqsiz c = 0 ∨ qcount c = 0 → items = [].
Proof.
  intros R H. apply len_0_nil. pose proof (len_nonneg items).
  pose proof (ro_full _ _ R). pose proof (ro_count _ _ R). lia.
Qed.

Lemma chansend_resume_inv w ts v g a : chan_inv zero w ts v → thread ts g (SendParked a) →
  g ∉ parked w → ∃ w' p' v', chansend_resume w g a = Ok (w', p') ∧ began v' = began v ∧
    chan_inv zero w' (<[Z.to_nat g:=(g, p')]> ts) v' ∧ ∃ o, p' = Return o.
Proof.
  intros Hi Ht Hpk. destruct (unpark_inv zero w ts v g _ a Hi Ht eq_refl Hpk) as (w1 & E & Hres & Ech & Hi').
  unfold chansend_resume. rewrite E. cbn [mbind res_bind]. destruct (bool_decide _); simpl.
  - eexists _, _, v. do 2 (split; [done|]). split; [by apply Hi'|by eexists].
  - rewrite Ech. simpl in Hres. rewrite (proj2 (Z.eqb_neq _ _) (proj1 Hres)).
    eexists _, _, v. do 2 (split; [done|]). split; [by apply Hi'|by eexists].
Qed.

Lemma chanrecv_resume_inv w ts v g a ep : chan_inv zero w ts v → thread ts g (RecvParked a ep) →
  g ∉ parked w → ∃ w' p' v', chanrecv_resume w g a ep = Ok (w', p') ∧ began v' = began v ∧
    chan_inv zero w' (<[Z.to_nat g:=(g, p')]> ts) v' ∧ ∃ o, p' = Return o.
Proof.
  intros Hi Ht Hpk. destruct (unpark_inv zero w ts v g _ a Hi Ht eq_refl Hpk) as (w1 & E & Hres & Ech & Hi').
  unfold chanrecv_resume. rewrite E. cbn [mbind res_bind]. eexists _, _, v. do 2 (split; [done|]). split; [by apply Hi'|by eexists].
Qed.

(** An enabled goroutine steps, nearer to the end of its operation. *)
Definition advances w ts v (g : Z) (p : chanpc) (r : option (world V * (Z * chanpc))) : Prop :=
  ∃ w' p' v', r = Some (w', (g, p')) ∧ began v' = began v ∧ chan_inv zero w' (<[Z.to_nat g:=(g, p')]> ts) v' ∧
    nearer v v' p p'.

Lemma caught_advances w ts v g p m : (∃ w' p' v', m = Ok (w', p') ∧ began v' = began v ∧
    chan_inv zero w' (<[Z.to_nat g:=(g, p')]> ts) v' ∧ nearer v v' p p') →
  advances w ts v g p (caught w g m).
Proof. intros (w' & p' & v' & -> & Hb & Hi & Hr). by exists w', p', v'. Qed.

(** The points where the lock is not held, and nothing happens but to the goroutine. *)
Lemma quiet_advances w ts v g p w' p' : chan_inv zero w ts v → thread ts g p →
  waits p = None → waits p' = None → (w' = w ∨ ∃ x, w' = set_mem w g x) →
  (∀ h, wakes h (g, p') = wakes h (g, p)) → closing (g, p') = closing (g, p) →
  local zero w' (<[Z.to_nat g:=(g, p')]> ts) v g p' → nearer v v p p' →
  advances w ts v g p (Some (w', (g, p'))).
Proof. intros. eexists _, _, v. do 2 (split; [done|]). split; [by apply (inv_quiet zero w w' ts v g p)|done]. Qed.

Lemma recv_advances w ts v g p : chan_inv zero w ts v → thread ts g p →
  match p with RecvEmpty _ | RecvClosed _ | RecvEmpty2 _ => True | _ => False end →
  ∀ sg, advances w ts v g p (chanrun zero w g p sg).
Proof.
  intros Hi Ht Hp sg. pose proof (ci_local _ _ _ _ Hi g p Ht) as Hl.
  pose proof (ci_ring _ _ _ (ci_globals _ _ _ _ Hi)) as R.
  destruct p; try done; simpl in Hl; simpl chanrun.
  - by destruct (empty (ch w)); apply quiet_advances; auto.
  - destruct Hl as [Hv Hpe]. destruct (Z.eqb_spec (closed (ch w)) 0); apply quiet_advances; auto; done.
  - destruct Hl as (Hv & Hc & Hpe). destruct (empty (ch w)) eqn:He; [|by apply quiet_advances; auto].
    apply quiet_advances; auto; [| |done].
    + destruct Hv as [->| ->]; [by left|by right; eexists].
    + split; [done|]. split; [by rewrite write_eq|]. split.
      2: { split; [rewrite write_eq; apply Hpe|]. intros ->. simpl. by rewrite value_set_mem, decide_True. }
      apply (empty_items (ch w)); [done|]. unfold empty in He.
      destruct (Z.eqb_spec (dataqsiz (ch w)) 0); [by left|right; by apply Z.eqb_eq].
Qed.

Lemma close_advances w ts v g p : chan_inv zero w ts v → thread ts g p → enabled w g p →
  match p with CloseLock | CloseRecvs _ | CloseSends _ | CloseWake _ => True | _ => False end →
  ∀ sg, advances w ts v g p (chanrun zero w g p sg).
Proof.
  intros Hi Ht He Hp sg. pose proof (len_nonneg (rs v)). pose proof (len_nonneg (ss v)).
  destruct p; try done; simpl chanrun; try rename glist into gl.
  - simpl in He. rewrite He. pose proof (closechan_inv zero w ts v g Hi Ht He) as Hc.
    destruct (closechan w) as [w1 p1] eqn:E. exists w1, p1, v. do 3 (split; [done|]).
    unfold closechan in E. case_match; simplify_eq; unfold nearer; cbn [rank]; rewrite ?len_nil; lia.
  - apply caught_advances.
    destruct (closechan_recvs_inv zero w ts v g gl Hi Ht) as (w' & p' & v' & E & Hb & Hi' & Hn).
    exists w', p', v'. do 3 (split; [done|]).
    destruct Hn as [[-> ->]|(a & t & Er & Es & ->)]; unfold nearer; cbn [rank]; [pose proof (len_nonneg gl); lia|];
      rewrite Er, Es, !len_cons; pose proof (len_nonneg gl);
      pose proof (len_nonneg (rs v')); pose proof (len_nonneg (ss v')); lia.
  - apply caught_advances.
    destruct (closechan_sends_inv zero w ts v g gl Hi Ht) as (w' & p' & v' & E & Hb & Hi' & Hn).
    exists w', p', v'. do 3 (split; [done|]).
    destruct Hn as [->|(a & t & Es & Er & ->)]; unfold nearer; cbn [rank]; [pose proof (len_nonneg gl); lia|];
      rewrite Er, Es, !len_cons; pose proof (len_nonneg gl);
      pose proof (len_nonneg (rs v')); pose proof (len_nonneg (ss v')); lia.
  - apply caught_advances.
    destruct (closechan_wake_inv zero w ts v g gl Hi Ht) as (w' & p' & E & Hi').
    exists w', p', v. do 3 (split; [done|]).
    destruct gl as [|t gl]; simpl in E; [by injection E as _ <-|].
    destruct (goready w t); [|done..]. injection E as _ <-. pose proof (len_nonneg gl).
    unfold nearer. cbn [rank]. rewrite len_cons. lia.
Qed.

Lemma chanrun_advances w ts v g p sg : chan_inv zero w ts v → thread ts g p → enabled w g p →
  sg ∉ inuse (sgs w) → advances w ts v g p (chanrun zero w g p sg).
Proof.
  intros Hi Ht He Hsg. pose proof (ci_local _ _ _ _ Hi g p Ht) as Hl. destruct p; try done; try (by apply recv_advances);
    try (by apply close_advances); simpl chanrun; simpl in He; rewrite ?He.
  - destruct (Z.eqb_spec (closed (ch w)) 0); apply quiet_advances; auto; done.
  - destruct (full (ch w)); apply quiet_advances; auto; done.
  - apply caught_advances.
    destruct (chansend_inv zero w ts v g block sg Hi Ht He Hsg) as (w' & p' & v' & E & Hb & Hi').
    exists w', p', v'. do 3 (split; [done|]). pose proof (chansend_next _ _ _ _ _ _ v' E). split; simpl; lia.
  - rewrite bool_decide_false by done. apply caught_advances.
    destruct (chansend_resume_inv w ts v g sg0 Hi Ht He) as (w' & p' & v' & E & Hb & Hi' & o & ->).
    by exists w', (Return o), v'.
  - apply caught_advances.
    destruct (chanrecv_inv zero w ts v g ep block sg Hi Ht He Hsg) as (w' & p' & v' & E & Hb & Hi').
    exists w', p', v'. do 3 (split; [done|]). pose proof (chanrecv_next _ _ _ _ _ _ _ v' E). split; simpl; lia.
  - rewrite bool_decide_false by done. apply caught_advances.
    destruct (chanrecv_resume_inv w ts v g sg0 ep Hi Ht He) as (w' & p' & v' & E & Hb & Hi' & o & ->).
    by exists w', (Return o), v'.
  - apply caught_advances. destruct (wake_inv zero w ts v g g0 sg0 o Hi Ht) as (w1 & E & Hi').
    rewrite E. by eexists _, _, v.
  - by apply quiet_advances; auto.
Qed.

Lemma chanrun_enabled w g p sg r : chanrun zero w g p sg = Some r → enabled w g p.
Proof. destruct p; simpl; repeat case_match; try done; repeat case_bool_decide; done. Qed.

(** Every step keeps the invariant, and the beginnings of the calls that go on. *)
Lemma chanstep_inv w ts v g p act w' t : chan_inv zero w ts v → thread ts g p →
  chanstep zero w (g, p) act = Some (w', t) →
  ∃ v', chan_inv zero w' (<[Z.to_nat g:=t]> ts) v' ∧
    (∀ h, h ≠ g ∨ p ≠ Idle → began v' h = began v h) ∧ (p = Idle → v' = calls w' v g).
Proof.
  intros Hi Ht. unfold chanstep.
  assert (p = Idle ∨ p ≠ Idle) as [->|Hp] by (destruct p; by auto).
  - intros H. exists (calls w' v g). split; [by eapply chancall_inv|]. split; [|done].
    intros h [Hh|]; [|done]. simpl. by rewrite decide_False.
  - intros H. assert (∃ u, chanrun zero w g p u = Some (w', t) ∧ u ∉ inuse (sgs w)) as (u & Hrun & Hsg).
    { destruct p; try done; destruct act as [| | |u]; try done; case_bool_decide; try done; by exists u. }
    pose proof (chanrun_enabled _ _ _ _ _ Hrun) as He.
    destruct (chanrun_advances w ts v g _ u Hi Ht He Hsg) as (w1 & p1 & v1 & E & Hb & Hi' & _).
    rewrite E in Hrun. injection Hrun as -> <-. exists v1. split; [done|]. split; [|done]. intros h _. by rewrite Hb.
Qed.
End invariant.
