(* ===== verification/ChanReach.v ===== *)
(** * runtime: the reachable states of a channel

    What [makechan] makes, that the invariant holds at the start, and that the
    capacity stays. *)

From Stdlib Require Import String.
From stdpp Require Import gmap relations.
From S2P Require Import Prelude Threads Chan ChanQueue ChanProofs ChanSteps ChanRecv ChanClose ChanInv Bytealg.

(** * The operations of a channel end *)

Section progress.
Context {V : Type} (zero : V).
Implicit Types (w : world V) (ts : list (Z * chanpc)) (v : view (V := V)).

(** There is a sudog that is not in use. *)
Lemma chanstep_run w ts v g p : chan_inv zero w ts v → thread ts g p → enabled w g p →
  ∃ w' p' v', step (chanstep zero) (Config w ts) (Config w' (<[Z.to_nat g:=(g, p')]> ts)) ∧
    chan_inv zero w' (<[Z.to_nat g:=(g, p')]> ts) v' ∧ nearer v v' p p'.
Proof.
  intros Hi Ht He. pose proof (is_fresh (inuse (sgs w))) as Hsg. set (sg := fresh _) in *.
  destruct (chanrun_advances zero w ts v g p sg Hi Ht He Hsg) as (w' & p' & v' & E & _ & Hi' & Hn).
  exists w', p', v'. split; [|done]. apply (step_thread _ w ts (Z.to_nat g) (g, p) (Run sg)); [apply Ht|].
  unfold chanstep. destruct p; try done; rewrite bool_decide_false by done; exact E.
Qed.

(** Nobody but [g] keeps the lock over its steps. *)
Definition holds_lock w g p : Prop := lock (ch w) = true → closing (g, p) = 1.

Lemma closing_nonneg t : 0 ≤ closing t.
Proof. destruct t as [x []]; unfold closing; simpl; lia. Qed.

Lemma holds_lock_step w ts v w' v' g p p' : chan_inv zero w ts v → thread ts g p → holds_lock w g p →
  chan_inv zero w' (<[Z.to_nat g:=(g, p')]> ts) v' → holds_lock w' g p'.
Proof.
  intros Hi Ht Hl Hi' Hlk. pose proof (ci_lock _ _ _ (ci_globals _ _ _ _ Hi)) as H1.
  pose proof (ci_lock _ _ _ (ci_globals _ _ _ _ Hi')) as H2.
  rewrite (closing_insert ts g p), H1, (bit_true (lock (ch w') = true)) in H2 by done.
  assert (bit (lock (ch w) = true) = closing (g, p)) as H3.
  { destruct (decide (lock (ch w) = true)) as [Hd|Hd]; [by rewrite bit_true, Hl|].
    rewrite bit_false in * by done.
    pose proof (total_at closing ts _ _ closing_nonneg (proj2 Ht)). pose proof (closing_nonneg (g, p)). lia. }
  lia.
Qed.

Lemma enabled_or w ts v g p : chan_inv zero w ts v → thread ts g p → holds_lock w g p → 0 < rank v p →
  enabled w g p ∨ (is_Some (waits p) ∧ g ∈ parked w).
Proof.
  intros Hi Ht Hl Hr. destruct (decide (g ∈ parked w)) as [Hpk|Hpk].
  - destruct (waits p) as [a|] eqn:Hp; [right; by split|].
    by apply (proj2 (ci_ticket _ _ _ _ Hi g p Ht)) in Hp.
  - left. assert (closing (g, p) = 0 → lock (ch w) = false) as Hfree.
    { intros Hc. destruct (lock (ch w)) eqn:E; [|done]. specialize (Hl E). lia. }
    destruct p; simpl in Hr; try lia; try done; by apply Hfree.
Qed.

Lemma enabled_awake w ts v g p : chan_inv zero w ts v → thread ts g p → enabled w g p → g ∉ parked w.
Proof.
  intros Hi Ht He. pose proof (ci_ticket _ _ _ _ Hi g p Ht) as [_ Hk]. destruct p; simpl in *; auto.
Qed.

(** A goroutine that parks is in a queue. *)
Lemma parks_queued w ts v g p w' v' p' : chan_inv zero w ts v → thread ts g p → g ∉ parked w →
  chan_inv zero w' (<[Z.to_nat g:=(g, p')]> ts) v' → is_Some (waits p') → g ∈ parked w' → queued v' p'.
Proof.
  intros Hi Ht Hpk Hi' Hw Hpk'. pose proof (ci_ticket _ _ _ _ Hi g p Ht) as [Hk _].
  assert (thread (<[Z.to_nat g:=(g, p')]> ts) g p') as Ht' by (apply (thread_insert ts g p); [done|by left]).
  destruct (ci_ticket _ _ _ _ Hi' g p' Ht') as [Hk' _]. rewrite (wakes_insert ts g p) in Hk' by done.
  rewrite (bit_false (g ∈ parked w)) in Hk by done. rewrite (bit_true (g ∈ parked w')) in Hk' by done.
  pose proof (total_at (wakes g) ts _ _ (wakes_nonneg g) (proj2 Ht)). pose proof (wakes_nonneg g (g, p)).
  pose proof (bit_range (queued v p)).
  assert (wakes g (g, p') = 0) by (destruct Hw, p'; done).
  destruct (decide (queued v' p')); [done|]. rewrite (bit_false (queued v' p')) in Hk' by done. lia.
Qed.

Lemma run_own k w ts v g p : chan_inv zero w ts v → thread ts g p → holds_lock w g p →
  enabled w g p → rank v p < Z.of_nat k →
  ∃ w' p' v', let ts' := <[Z.to_nat g:=(g, p')]> ts in
    rtc (step (chanstep zero)) (Config w ts) (Config w' ts') ∧ chan_inv zero w' ts' v' ∧
    lock (ch w') = false ∧ ((∃ o, p' = Return o) ∨ (queued v' p' ∧ g ∈ parked w')).
Proof.
  revert w ts v p. induction k as [|k IH]; intros w ts v p Hi Ht Hl He Hk.
  { pose proof (rank_nonneg v p). lia. }
  destruct (decide (1 < rank v p)) as [Hp|Hp].
  2: { assert (∃ o, p = Return o) as [o ->].
       { pose proof (len_nonneg (rs v)). pose proof (len_nonneg (ss v)).
         destruct p; cbn [rank] in Hp; try done; try lia; try (pose proof (len_nonneg glist); lia).
         by eexists. }
       exists w, (Return o), v. rewrite list_insert_id by apply Ht. split; [apply rtc_refl|].
       split; [done|]. split; [|by left; eexists]. destruct (lock (ch w)) eqn:E; [|done].
       by pose proof (Hl E). }
  destruct (chanstep_run w ts v g p Hi Ht He) as (w1 & p1 & v1 & Hst & Hi1 & [Hn1 Hn2]).
  set (ts1 := <[Z.to_nat g:=(g, p1)]> ts) in *.
  assert (thread ts1 g p1) as Ht1 by (apply (thread_insert ts g p); [done|by left]).
  pose proof (holds_lock_step w ts v w1 v1 g p p1 Hi Ht Hl Hi1) as Hl1.
  destruct (enabled_or w1 ts1 v1 g p1 Hi1 Ht1 Hl1) as [He1|[Hw1 Hpk1]]; [lia| |].
  - destruct (IH w1 ts1 v1 p1 Hi1 Ht1 Hl1 He1) as (w2 & p2 & v2 & Hr & H2); [lia|].
    exists w2, p2, v2. unfold ts1 in *. rewrite list_insert_insert_eq in *. split; [|done]. by eapply rtc_l.
  - exists w1, p1, v1. split; [by apply rtc_once|]. split; [done|]. split.
    + destruct (lock (ch w1)) eqn:E; [|done]. pose proof (Hl1 E) as Hc. unfold closing in Hc.
      by destruct Hw1, p1.
    + right. split; [|done]. pose proof (enabled_awake w ts v g p Hi Ht He).
      by apply (parks_queued w ts v g p w1).
Qed.
(** Where an operation ends, or waits. *)
Definition ends v w (g : Z) (p : chanpc) : Prop :=
  (∃ o, p = Return o) ∨ (queued v p ∧ g ∈ parked w).

Definition can_end w ts (g : Z) : Prop := ∃ w' ts' v' p',
  rtc (step (chanstep zero)) (Config w ts) (Config w' ts') ∧ chan_inv zero w' ts' v' ∧
  lock (ch w') = false ∧ thread ts' g p' ∧ ends v' w' g p'.

Lemma can_end_rtc w ts w' ts' g : rtc (step (chanstep zero)) (Config w ts) (Config w' ts') →
  can_end w' ts' g → can_end w ts g.
Proof.
  intros Hr (w2 & ts2 & v2 & p2 & Hr2 & H). exists w2, ts2, v2, p2. split; [by etrans|done].
Qed.

Lemma end_enabled w ts v g p : chan_inv zero w ts v → thread ts g p → holds_lock w g p →
  enabled w g p → can_end w ts g.
Proof.
  intros Hi Ht Hl He. pose proof (rank_nonneg v p).
  destruct (run_own (S (Z.to_nat (rank v p))) w ts v g p Hi Ht Hl He) as (w' & p' & v' & Hr & Hi' & Hlk & Hend);
    [lia|].
  exists w', (<[Z.to_nat g:=(g, p')]> ts), v', p'. split_and!; try done.
  apply (thread_insert ts g p); [done|by left].
Qed.

(** A parked goroutine waits in a queue or is woken. *)
Lemma end_unlocked w ts v g p : chan_inv zero w ts v → thread ts g p → lock (ch w) = false →
  0 < rank v p → can_end w ts g.
Proof.
  intros Hi Ht Hlk Hp. assert (∀ h q, holds_lock w h q) as Hl by (intros h q E; congruence).
  destruct (enabled_or w ts v g p Hi Ht (Hl g p) Hp) as [He|[Hw Hpk]]; [by apply (end_enabled w ts v g p)|].
  destruct (decide (queued v p)) as [Hq|Hq].
  { exists w, ts, v, p. split; [apply rtc_refl|]. split_and!; try done. by right. }
  destruct (ci_ticket _ _ _ _ Hi g p Ht) as [Hk _]. rewrite bit_false, bit_true in Hk by done.
  destruct (total_pos (wakes g) ts) as (i & [h q] & Hth & Hwk); [lia|].
  pose proof (ci_ids _ _ _ _ Hi i _ Hth) as Hh. simpl in Hh.
  assert (thread ts h q) as Hthq by (subst h; split; [lia|by rewrite Nat2Z.id]).
  assert (g ≠ h) as Hne.
  { intros ->. pose proof (thread_fun _ _ _ _ Ht Hthq) as ->. destruct Hw as [a Ha].
    unfold wakes in Hwk. simpl in Hwk. destruct q; simpl in *; done || lia. }
  assert (wakes g (h, q) = 1) as Hw1 by (by apply (woken zero w ts v h q g p)).
  assert (enabled w h q) as Hq1 by (unfold wakes in Hwk; simpl in Hwk; destruct q; simpl in *; done || lia).
  pose proof (rank_nonneg v q).
  destruct (run_own (S (Z.to_nat (rank v q))) w ts v h q Hi Hthq (Hl h q) Hq1)
    as (w' & q' & v' & Hr & Hi' & Hlk' & Hend); [lia|].
  set (ts' := <[Z.to_nat h:=(h, q')]> ts) in *.
  assert (thread ts' g p) as Ht' by (apply (thread_insert ts h q); [done|by right]).
  apply (can_end_rtc _ _ w' ts'); [done|].
  destruct (ci_ticket _ _ _ _ Hi' g p Ht') as [Hk' _].
  assert (total (wakes g) ts' = 0) as Hz.
  { unfold ts'. rewrite (wakes_insert ts h q) by done.
    assert (wakes g (h, q') = 0); [|lia]. destruct Hend as [[o ->]|[Hqq _]]; [done|by destruct q']. }
  destruct (decide (g ∈ parked w')) as [Hpk'|Hpk'].
  - exists w', ts', v', p. split; [apply rtc_refl|]. split_and!; try done. right. split; [|done].
    destruct (decide (queued v' p)); [done|]. rewrite bit_false, bit_true in Hk' by done. lia.
  - apply (end_enabled w' ts' v' g p); [done|done|intros E; congruence|].
    destruct Hw as [a Ha]. by destruct p.
Qed.

(** The closing goroutine ends its loops first. *)
Lemma end_always w ts v g p : chan_inv zero w ts v → thread ts g p → p ≠ Idle → p ≠ Forever →
  can_end w ts g.
Proof.
  intros Hi Ht Hp1 Hp2.
  assert (∀ v : view (V := V), 0 < rank v p) as Hp.
  { intros v1. pose proof (len_nonneg (rs v1)). pose proof (len_nonneg (ss v1)).
    pose proof (ci_local _ _ _ _ Hi g p Ht) as Hl.
    destruct p; cbn [rank]; try done; try lia; pose proof (len_nonneg glist); lia. }
  destruct (lock (ch w)) eqn:Hlk; [|by apply (end_unlocked w ts v g p)].
  pose proof (ci_lock _ _ _ (ci_globals _ _ _ _ Hi)) as Hc. rewrite bit_true in Hc by done.
  destruct (total_pos closing ts) as (i & [h q] & Hth & Hcl); [lia|].
  pose proof (ci_ids _ _ _ _ Hi i _ Hth) as Hh. simpl in Hh.
  assert (thread ts h q) as Hthq by (subst h; split; [lia|by rewrite Nat2Z.id]).
  assert (closing (h, q) = 1 ∧ enabled w h q) as [Hcl1 Hq]
    by (destruct q; try (exfalso; unfold closing in Hcl; simpl in Hcl; lia); by split).
  pose proof (rank_nonneg v q).
  destruct (decide (g = h)) as [->|Hne]; [by apply (end_enabled w ts v h q); [| |intros _|]|].
  destruct (run_own (S (Z.to_nat (rank v q))) w ts v h q Hi Hthq) as (w' & q' & v' & Hr & Hi' & Hlk' & _);
    [by intros _|done|lia|].
  apply (can_end_rtc _ _ w' (<[Z.to_nat h:=(h, q')]> ts)); [done|].
  apply (end_unlocked w' _ v' g p); [done| |done|done]. apply (thread_insert ts h q); [done|by right].
Qed.
End progress.

(** * The reachable states of a channel *)

(** ** Making *)

Lemma lor_lt a b k : 0 < k → 0 ≤ a → 0 ≤ b → Z.lor a b < 2 ^ k → a < 2 ^ k.
Proof.
  intros Hk Ha Hb H. destruct (Z.eq_dec a 0) as [->|Hne]; [by apply Z.pow_pos_nonneg; lia|].
  apply Z.log2_lt_pow2; [lia|]. pose proof (Z.log2_lor a b Ha Hb) as Hl.
  assert (0 < Z.lor a b) as Hp.
  { pose proof (proj2 (Z.lor_nonneg a b) (conj Ha Hb)). destruct (Z.eq_dec (Z.lor a b) 0) as [[? _]%Z.lor_eq_0_iff|]; lia. }
  apply (Z.log2_lt_pow2 _ k Hp) in H. lia.
Qed.

(** The product and whether it overflows. *)
Lemma MulUintptr_eq a b : is_uint 64 a → is_uint 64 b →
  MulUintptr a b = (u64 (a * b), bool_decide (2 ^ 64 ≤ a * b)).
Proof.
  intros [Ha Ha'] [Hb Hb']. unfold MulUintptr.
  replace (Z.shiftl 1 (4 * 8)) with (2 ^ 32) by reflexivity.
  destruct (Z.eqb_spec a 0) as [->|Hne].
  { rewrite orb_true_r, bool_decide_false; [done|]. pow2_consts. lia. }
  rewrite orb_false_r. destruct (Z.ltb_spec (Z.lor a b) (2 ^ 32)) as [H|H].
  - pose proof (lor_lt a b 32 ltac:(lia) Ha Hb H). rewrite Z.lor_comm in H.
    pose proof (lor_lt b a 32 ltac:(lia) Hb Ha H). rewrite bool_decide_false; [done|]. pow2_consts. nia.
  - f_equal. apply eq_true_iff_eq. rewrite Z.ltb_lt, bool_decide_eq_true.
    pose proof (Z.div_lt_upper_bound (2 ^ 64 - 1) a b) as H1.
    split.
    + intros Hd. destruct (Z_le_gt_dec (2 ^ 64) (a * b)) as [|Hg]; [done|].
      assert (b ≤ (2 ^ 64 - 1) / a); [|lia]. apply Z.div_le_lower_bound; lia.
    + intros Hg. apply H1; lia.
Qed.

Lemma makechan_eq {V} (zero : V) maxAlloc hchanSize elem size :
  is_uint 64 maxAlloc → 0 ≤ hchanSize ≤ maxAlloc → hchanSize mod maxAlign = 0 →
  0 ≤ Size_ elem < 2 ^ 16 → Align_ elem ≤ maxAlign → is_sint 64 size →
  makechan zero maxAlloc hchanSize elem size =
    if decide (0 ≤ size ∧ Size_ elem * size ≤ maxAlloc - hchanSize) then
      Ok (Hchan 0 size (replicate (Z.to_nat size) zero) 0 0 0 (Waitq None None) (Waitq None None) false)
    else Panic (PanicMsg (str "makechan: size out of range")).
Proof.
  intros HM Hh Hmod Hsz Hal Hs. unfold makechan.
  replace (Z.shiftl 1 16) with (2 ^ 16) by reflexivity. rewrite (proj2 (Z.leb_gt _ _)) by lia.
  rewrite (proj2 (Z.eqb_eq _ _) Hmod), (proj2 (Z.ltb_ge _ _) Hal). cbn [negb orb].
  rewrite MulUintptr_eq; [|unfold is_uint; pow2_consts; lia|apply uwrap_range; lia]. cbv beta iota zeta.
  rewrite (uwrap_small 64 (maxAlloc - hchanSize)) by (unfold is_uint in *; lia).
  destruct (Z.ltb_spec size 0) as [Hn|Hn].
  { rewrite orb_true_r, decide_False by lia. done. }
  assert (u64 size = size) as Es by (apply uwrap_small; unfold is_sint, is_uint in *; pow2_consts; lia).
  rewrite Es, orb_false_r. case_decide as Hd.
  - destruct Hd as [_ Hd]. assert (0 ≤ Size_ elem * size) by nia.
    rewrite bool_decide_false by (unfold is_uint in HM; lia).
    rewrite uwrap_small by (unfold is_uint in *; lia).
    rewrite (proj2 (Z.ltb_ge _ _)) by lia. done.
  - destruct (bool_decide _) eqn:Eo; [done|]. apply bool_decide_eq_false in Eo.
    rewrite uwrap_small by (unfold is_uint in *; nia). rewrite (proj2 (Z.ltb_lt _ _)) by lia. done.
Qed.

(** ** The first state *)

Lemma chanstart_thread {V} (c : hchan V) n g p : thread (threads (chanstart c n)) g p → p = Idle.
Proof.
  intros [Hg H]. simpl in H. rewrite list_lookup_imap in H.
  destruct (replicate n () !! Z.to_nat g); simplify_eq/=; done.
Qed.

Lemma total_zero {P} (f : P → Z) ts : (∀ i t, ts !! i = Some t → f t = 0) → total f ts = 0.
Proof.
  induction ts as [|t ts IH]; intros H; simpl; [done|]. rewrite (H 0%nat t), IH; [done| |done].
  intros i x Hi. by apply (H (S i) x).
Qed.

Lemma chanstart_inv {V} (zero : V) size n : 0 ≤ size < 2 ^ 63 →
  let c := Hchan 0 size (replicate (Z.to_nat size) zero) 0 0 0 (Waitq None None) (Waitq None None) false in
  chan_inv zero (shared (chanstart c n)) (threads (chanstart c n)) (View [] [] [] (λ _, Past [] [] zero)).
Proof.
  intros Hs c. pose proof (chanstart_thread c n) as Hth.
  assert (∀ f, (∀ i, f (Z.of_nat i, Idle) = 0) → total f (threads (chanstart c n)) = 0) as Htot.
  { intros f Hf. apply total_zero. intros i t Hi. simpl in Hi. rewrite list_lookup_imap in Hi.
    destruct (replicate n () !! i); simplify_eq/=. done. }
  split.
  - intros i t Hi. simpl in Hi. rewrite list_lookup_imap in Hi. by destruct (replicate n () !! i); simplify_eq/=.
  - by intros g p ->%Hth.
  - intros g p ->%Hth. split; [|simpl; set_solver]. rewrite Htot by done. rewrite !bit_false; [done|set_solver|by intros []].
  - split; simpl; try done; try set_solver.
    + split; simpl; try done; try lia.
      * unfold len. rewrite length_replicate. lia.
      * rewrite len_nil. lia.
      * destruct (Z.eq_dec size 0); [by left|right]. unfold place. simpl. zcases; lia.
      * intros k Hk. unfold len in Hk. simpl in Hk. lia.
    + split; simpl; try done. apply NoDup_nil_2.
    + split; simpl; try done. apply NoDup_nil_2.
    + apply NoDup_nil_2.
Qed.

(** The capacity stays, and a channel that is closed. *)
Section capacity.
Context {V : Type} (zero : V).
Implicit Types (w : world V).

Definition cap (b : bool) w : Z := if b then dataqsiz (ch w) else closed (ch w).
Definition stays w w' : Prop :=
  dataqsiz (ch w') = dataqsiz (ch w) ∧ (closed (ch w) ≠ 0 → closed (ch w') ≠ 0).

Lemma cap_stays w w' : (∀ b, cap b w' = cap b w) → stays w w'.
Proof. intros H. pose proof (H true) as H1. pose proof (H false) as H2. unfold cap, stays in *. by rewrite H1, H2. Qed.

Lemma cap_write b w ep x : cap b (write w ep x) = cap b w.
Proof. by destruct ep. Qed.

Lemma cap_dequeue_recvq b w w' s : dequeue_recvq w = Ok (w', s) → cap b w' = cap b w.
Proof.
  unfold dequeue_recvq. destruct (dequeue _ _ _) as [[[[dn σ] q] o]| |]; try done. by intros [= <- _].
Qed.

Lemma cap_dequeue_sendq b w w' s : dequeue_sendq w = Ok (w', s) → cap b w' = cap b w.
Proof.
  unfold dequeue_sendq. destruct (dequeue _ _ _) as [[[[dn σ] q] o]| |]; try done. by intros [= <- _].
Qed.

Ltac by_cases :=
  unfold mbind, res_bind, mret, res_ret in *; simplify_eq/=; repeat (case_match; simplify_eq/=; try done).

Lemma cap_chansend b w g block a w' p : chansend zero w g block a = Ok (w', p) → cap b w' = cap b w.
Proof.
  unfold chansend. destruct (dequeue_recvq w) as [[w1 s]| |] eqn:E.
  - apply (cap_dequeue_recvq b) in E. rewrite <-E. unfold send, acquireSudog. intros H. by by_cases.
  - intros H. by by_cases.
  - intros H. by by_cases.
Qed.

Lemma cap_chanrecv b w g ep block a w' p : chanrecv zero w g ep block a = Ok (w', p) → cap b w' = cap b w.
Proof.
  unfold chanrecv. destruct (dequeue_sendq w) as [[w1 s]| |] eqn:E.
  - apply (cap_dequeue_sendq b) in E. unfold recv, acquireSudog. intros H. rewrite (write_eq w) in H.
    by_cases; try done; rewrite <-?E; try by destruct ep.
  - intros H. unfold recv, acquireSudog in H. by_cases; try done; by destruct ep.
  - intros H. unfold recv, acquireSudog in H. by_cases; try done; by destruct ep.
Qed.

Lemma cap_unpark b w g a w' ok : unpark w g a = Ok (w', ok) → cap b w' = cap b w.
Proof. unfold unpark, releaseSudog. intros H. by by_cases. Qed.

Lemma cap_resume b w g a ep w' p :
  (chansend_resume w g a = Ok (w', p) → cap b w' = cap b w) ∧
  (chanrecv_resume w g a ep = Ok (w', p) → cap b w' = cap b w).
Proof.
  unfold chansend_resume, chanrecv_resume.
  destruct (unpark w g a) as [[w1 ok]| |] eqn:E; split; intros H; try done;
    apply (cap_unpark b) in E; rewrite <-E; by by_cases.
Qed.

Lemma cap_closechan b w gl w' p :
  (closechan w = (w', p) → stays w w') ∧
  (closechan_recvs zero w gl = Ok (w', p) → cap b w' = cap b w) ∧
  (closechan_sends w gl = Ok (w', p) → cap b w' = cap b w) ∧
  (closechan_wake w gl = Ok (w', p) → cap b w' = cap b w).
Proof.
  split_and!.
  - unfold closechan. intros H. unfold stays. by by_cases.
  - unfold closechan_recvs. destruct (dequeue_recvq w) as [[w1 s]| |] eqn:E; intros H; try done.
    apply (cap_dequeue_recvq b) in E. rewrite <-E. unfold release_waiter in H. by by_cases.
  - unfold closechan_sends. destruct (dequeue_sendq w) as [[w1 s]| |] eqn:E; intros H; try done.
    apply (cap_dequeue_sendq b) in E. rewrite <-E. unfold release_waiter in H. by by_cases.
  - unfold closechan_wake, goready. intros H. by by_cases.
Qed.

Lemma cap_step w g p act w' t : chanstep zero w (g, p) act = Some (w', t) → stays w w'.
Proof.
  unfold chanstep. intros H.
  destruct p; [destruct act; simpl in H; by simplify_eq|..]; (destruct act as [| | |u]; [done..|]);
    case_bool_decide; try done; simpl in H; unfold caught in H;
    repeat (case_match; simplify_eq/=; try done);
    match goal with
    | H : closechan _ = _ |- _ => by apply (cap_closechan true w []) in H
    | _ => apply cap_stays; intros b
    end; try apply cap_write;
    match goal with
    | H : chansend _ _ _ _ _ = _ |- _ => by apply (cap_chansend b) in H
    | H : chanrecv _ _ _ _ _ _ = _ |- _ => by apply (cap_chanrecv b) in H
    | H : chansend_resume _ _ _ = _ |- _ => by apply (cap_resume b _ _ _ None) in H
    | H : chanrecv_resume _ _ _ ?ep = _ |- _ => by apply (cap_resume b _ _ _ ep) in H
    | H : _ = Ok (_, _) |- _ => by apply (cap_closechan b w) in H
    | _ => unfold wake, goready in *; by by_cases
    end.
Qed.
End capacity.

(** ** Every reachable state *)

Lemma makechan_Ok {V} (zero : V) maxAlloc hchanSize elem size c : is_sint 64 size →
  makechan zero maxAlloc hchanSize elem size = Ok c →
  0 ≤ size < 2 ^ 63 ∧
  c = Hchan 0 size (replicate (Z.to_nat size) zero) 0 0 0 (Waitq None None) (Waitq None None) false.
Proof.
  intros Hs. unfold makechan. case_match; [done|]. case_match; [done|].
  destruct (MulUintptr _ _) as [m o]. destruct (Z.ltb_spec size 0) as [Hn|Hn].
  { by rewrite orb_true_r. }
  assert (u64 size = size) as -> by (apply uwrap_small; unfold is_sint, is_uint in *; pow2_consts; lia).
  case_match; [done|]. intros [= <-]. unfold is_sint in Hs. split; [pow2_consts; lia|done].
Qed.

Lemma chan_reachable {V} (zero : V) maxAlloc hchanSize elem size n c0 w ts : is_sint 64 size →
  makechan zero maxAlloc hchanSize elem size = Ok c0 →
  reachable (chanstep zero) (chanstart c0 n) (Config w ts) →
  (∃ v, chan_inv zero w ts v) ∧ dataqsiz (ch w) = size ∧ 0 ≤ size < 2 ^ 63.
Proof.
  intros Hs (Hsz & ->)%makechan_Ok Hr; [|done].
  apply (invariant (chanstep zero) (λ c, (∃ v, chan_inv zero (shared c) (threads c) v) ∧
    dataqsiz (ch (shared c)) = size)) in Hr; [by destruct Hr| |].
  - split; [|done]. eexists. by apply chanstart_inv.
  - intros c c' [[v Hi] Hc] Hstep. destruct Hstep as [w1 ts1 i [g p] act w2 t Hth Hst]. simpl in *.
    pose proof (ci_ids _ _ _ _ Hi i _ Hth) as Hg. simpl in Hg.
    assert (thread ts1 g p) as Ht by (subst g; split; [lia|by rewrite Nat2Z.id]).
    destruct (chanstep_inv zero w1 ts1 v g p act w2 t Hi Ht Hst) as (v' & Hi' & _).
    rewrite Hg, Nat2Z.id in Hi'. split; [by exists v'|]. rewrite <-Hc. by apply (cap_step zero w1 g p act w2 t Hst).
Qed.

Lemma local_at {V} (zero : V) w ts v i g p : chan_inv zero w ts v → ts !! i = Some (g, p) →
  thread ts g p ∧ local zero w ts v g p.
Proof.
  intros Hi Hth. pose proof (ci_ids _ _ _ _ Hi i _ Hth) as Hg. simpl in Hg.
  assert (thread ts g p) as Ht by (subst g; split; [lia|by rewrite Nat2Z.id]).
  split; [done|]. by apply Hi.
Qed.

(** Who is in a queue waits on a channel that cannot serve it. *)
Lemma queued_blocked {V} (zero : V) w ts v size p : chan_inv zero w ts v → lock (ch w) = false →
  dataqsiz (ch w) = size → queued v p →
  closed (ch w) = 0 ∧ lock (ch w) = false ∧
    ((∃ a ep, p = RecvParked a ep ∧ qcount (ch w) = 0 ∧ first (sendq (ch w)) = None) ∨
     (∃ a, p = SendParked a ∧ qcount (ch w) = size ∧ first (recvq (ch w)) = None)).
Proof.
  intros Hi Hlk Hcap Hq. pose proof (ci_globals _ _ _ _ Hi) as G. pose proof (ci_ring _ _ _ G) as R.
  assert (rs v ≠ [] ∨ ss v ≠ []) as Hne.
  { destruct p; simpl in Hq; try done; [right|left]; intros E; rewrite E in Hq; by apply elem_of_nil in Hq. }
  assert (closed (ch w) = 0) as Hcl.
  { destruct (Z.eq_dec (closed (ch w)) 0); [done|]. destruct (ci_closed _ _ _ G); tauto. }
  split; [done|]. split; [done|].
  rewrite (h_first _ _ _ (ci_recvq _ _ _ G)), (h_first _ _ _ (ci_sendq _ _ _ G)), (ro_count _ _ R), <-Hcap.
  destruct p; simpl in Hq; try done.
  - assert (ss v ≠ []) as Hs by (intros E; rewrite E in Hq; by apply elem_of_nil in Hq).
    right. eexists. split; [done|]. split; [by apply G|]. destruct (rs v) eqn:Er; [done|].
    destruct (ci_waiting_recvs _ _ _ G); [by rewrite Er|done].
  - assert (rs v ≠ []) as Hr by (intros E; rewrite E in Hq; by apply elem_of_nil in Hq).
    left. eexists _, _. split; [done|]. destruct (ci_waiting_recvs _ _ _ G Hr) as [-> ->]. by rewrite len_nil.
Qed.

Lemma run_final {S P A} (tstep : S → P → A → option (S * P)) sched c c' : run tstep sched c = Some c' →
  reachable tstep c (Config (shared c') (threads c')).
Proof. intros H. destruct c'. by apply (run_reachable tstep sched). Qed.
