(* ===== verification/ChanCalls.v ===== *)
(** * runtime: what a call of a channel operation returns

    The steps between a call and its return, with those of the other goroutines
    among them; what the states in between say about the value that comes back. *)

From stdpp Require Import gmap relations.
From S2P Require Import Prelude Threads Chan ChanQueue ChanProofs ChanSteps ChanRecv ChanClose ChanInv ChanReach.

Section calls.
Context {V : Type} (zero : V).
Implicit Types (w : world V) (ts : list (Z * chanpc)) (v : view (V := V)) (c : config (world V) (Z * chanpc)).

(** Steps in which goroutine [i] is inside of one call. *)
Definition inside (i : nat) c c' : Prop :=
  step (chanstep zero) c c' ∧ ∀ g, threads c' !! i ≠ Some (g, Idle).
Definition during (i : nat) : config (world V) (Z * chanpc) → config (world V) (Z * chanpc) → Prop :=
  rtc (inside i).

(** [P] holds in between, before [i] comes to its return. *)
Definition moment (i : nat) c c' (P : world V → Prop) : Prop := ∃ c1,
  during i c c1 ∧ during i c1 c' ∧ (∃ g p, threads c1 !! i = Some (g, p) ∧ ∀ o, p ≠ Return o) ∧ P (shared c1).

Definition open w : Prop := closed (ch w) = 0.
Definition shut w : Prop := closed (ch w) ≠ 0.
(** A send would wait: the buffer is full and there is no receiver. *)
Definition no_room w : Prop := qcount (ch w) = dataqsiz (ch w) ∧ first (recvq (ch w)) = None.
(** A receive would wait, or find the channel closed: there is no value and no sender. *)
Definition no_value w : Prop := qcount (ch w) = 0 ∧ first (sendq (ch w)) = None.

(** What a call [a] of goroutine [g] that begins in [c] may return in [c']. *)
Definition answers (i : nat) c c' (g : Z) (a : chanact V) (o : outcome) : Prop :=
  match a, o with
  | CallSend isnil _ block, Sent ok =>
      if ok then isnil = false
      else block = false ∧ (isnil = false → ∃ c1, during i c c1 ∧ open (shared c1) ∧ moment i c1 c' no_room)
  | CallSend isnil _ _, SendPanic => isnil = false ∧ moment i c c' shut
  | CallRecv isnil want block, Received ep selected ok =>
      ep = (if want then Some g else None) ∧
      if selected then isnil = false
      else ok = false ∧ block = false ∧ (isnil = false → moment i c c' (λ w, open w ∧ no_value w))
  | CallClose isnil, Closed => isnil = false ∧ moment i c c' open
  | CallClose isnil, ClosePanic => isnil = false ∧ moment i c c' shut
  | CallClose isnil, CloseNilPanic => isnil = true
  | _, _ => False
  end.

(** What the call has done: the values that [g] sent and received while it ran, and
    its variable. *)
Definition effect w w' (g : Z) (a : chanact V) (o : outcome) : Prop :=
  let moves s r := own g (sent w') = own g (sent w) ++ s ∧ own g (received w') = own g (received w) ++ r in
  let nothing := moves [] [] ∧ value zero w' g = value zero w g in
  match a, o with
  | CallSend _ x _, Sent true => moves [x] []
  | CallRecv _ want _, Received _ true true =>
      ∃ x, moves [] [x] ∧ (want = true → value zero w' g = x)
  | CallRecv _ want _, Received _ true false =>
      moves [] [] ∧ shut w' ∧ qcount (ch w') = 0 ∧ (want = true → value zero w' g = zero)
  | CallClose _, Closed => nothing ∧ shut w'
  | _, _ => nothing
  end.

(** The points of the call on its way there. *)
Definition track (i : nat) c c' (g : Z) (a : chanact V) (p : chanpc) : Prop :=
  match p with Return o => answers i c c' g a o | _ =>
  match a, p with
  | CallSend true _ _, Forever | CallRecv true _ _, Forever => True
  | CallSend false _ block, SendFast => block = false
  | CallSend false _ block, SendFull => block = false ∧ moment i c c' open
  | CallSend false _ block, SendLock b => b = block
  | CallSend false _ _, SendParked _ => True
  | CallSend false _ _, Wake _ _ o => o = Sent true
  | CallRecv false want block, p =>
      let ep := if want then Some g else None in
      match p with
      | RecvEmpty e => e = ep ∧ block = false
      | RecvClosed e => e = ep ∧ block = false ∧ moment i c c' no_value
      | RecvEmpty2 e => e = ep ∧ block = false
      | RecvParked _ e => e = ep
      | RecvLock e b => e = ep ∧ b = block
      | Wake _ _ o => o = Received ep true true
      | _ => False
      end
  | CallClose false, CloseLock => True
  | CallClose false, (CloseRecvs _ | CloseSends _ | CloseWake _) => moment i c c' open
  | _, _ => False
  end end.

Lemma moment_later i c c' c'' P : moment i c c' P → during i c' c'' → moment i c c'' P.
Proof. intros (c1 & H1 & H2 & H3) H. exists c1. split; [done|]. split; [by etrans|done]. Qed.

Lemma answers_later i c c' c'' g a o : answers i c c' g a o → during i c' c'' → answers i c c'' g a o.
Proof.
  intros H Hd. destruct a, o; simpl in *; try done.
  - destruct ok; [done|]. destruct H as [-> H]. split; [done|]. intros Hn.
    destruct (H Hn) as (c1 & H1 & H2 & H3). exists c1. split_and!; [done..|by apply (moment_later _ _ c')].
  - destruct H as [-> H]. split; [done|by apply (moment_later _ _ c')].
  - destruct H as [-> H]. split; [done|]. destruct selected; [done|]. destruct H as (-> & -> & H).
    split_and!; [done..|]. intros Hn. by apply (moment_later _ _ c'), Hd; apply H.
  - destruct H as [-> H]. split; [done|by apply (moment_later _ _ c')].
  - destruct H as [-> H]. split; [done|by apply (moment_later _ _ c')].
Qed.

(** ** Who finds the channel not ready *)

Lemma full_no_room w ts v : chan_inv zero w ts v → full (ch w) = true → no_room w.
Proof.
  intros Hi Hf. pose proof (ci_globals _ _ _ _ Hi) as G. pose proof (ci_ring _ _ _ G) as R.
  unfold full in Hf. unfold no_room. pose proof (ro_count _ _ R) as Hc. pose proof (ro_full _ _ R) as Hl.
  pose proof (len_nonneg (items v)). destruct (Z.eqb_spec (dataqsiz (ch w)) 0) as [H0|H0].
  - split; [lia|]. by destruct (first (recvq (ch w))).
  - apply Z.eqb_eq in Hf. split; [done|]. rewrite (h_first _ _ _ (ci_recvq _ _ _ G)).
    destruct (rs v) eqn:Er; [done|]. destruct (ci_waiting_recvs _ _ _ G) as [E _]; [by rewrite Er|].
    rewrite E, len_nil in Hc. lia.
Qed.

Lemma empty_no_value w ts v : chan_inv zero w ts v → empty (ch w) = true → no_value w.
Proof.
  intros Hi Hf. pose proof (ci_globals _ _ _ _ Hi) as G. pose proof (ci_ring _ _ _ G) as R.
  unfold empty in Hf. unfold no_value. pose proof (ro_count _ _ R) as Hc. pose proof (ro_full _ _ R) as Hl.
  pose proof (len_nonneg (items v)). destruct (Z.eqb_spec (dataqsiz (ch w)) 0) as [H0|H0].
  - split; [lia|]. by destruct (first (sendq (ch w))).
  - apply Z.eqb_eq in Hf. split; [done|]. rewrite (h_first _ _ _ (ci_sendq _ _ _ G)).
    destruct (ss v) eqn:Es; [done|]. pose proof (ci_waiting_sends _ _ _ G) as E. rewrite Es in E.
    specialize (E ltac:(done)). lia.
Qed.

(** What [chansend] ends with, under the lock. *)
Lemma chansend_points w ts v g block a w' p : chan_inv zero w ts v → thread ts g (SendLock block) →
  lock (ch w) = false → chansend zero w g block a = Ok (w', p) →
  match p with
  | Return SendPanic => shut w
  | Return (Sent ok) => ok = true ∨ (block = false ∧ open w ∧ no_room w)
  | Wake _ _ o => o = Sent true
  | SendParked _ => True
  | _ => False
  end.
Proof.
  intros Hi Ht Hlk. pose proof (ci_globals _ _ _ _ Hi) as G. unfold chansend.
  destruct (Z.eqb_spec (closed (ch w)) 0) as [Hcl|Hcl]; simpl; [|by intros [= <- <-]].
  destruct (rs v) as [|a0 rest] eqn:Er.
  2: { destruct (send_waiting zero w ts v g block a0 rest) as (w1 & w2 & t & -> & E & Hi'); [done..|].
       cbn [mbind res_bind]. rewrite E. by intros [= <- <-]. }
  pose proof (h_first _ _ _ (ci_recvq _ _ _ G)) as Hf. rewrite Er in Hf.
  rewrite (dequeue_recvq_none w Hf). cbn [mbind res_bind].
  pose proof (ro_full _ _ (ci_ring _ _ _ G)) as Hfull. rewrite <-(ro_count _ _ (ci_ring _ _ _ G)) in Hfull.
  destruct (Z.ltb_spec (qcount (ch w)) (dataqsiz (ch w))) as [Hlt|Hge].
  - destruct (store _ _ _); cbn; [|by intros ..]. intros [= <- <-]. by left.
  - destruct block; simpl; [destruct (enqueue _ _ _); by intros [= <- <-]|].
    intros [= <- <-]. right. do 2 (split; [done|]). split; [lia|done].
Qed.

Lemma chanrecv_points w ts v g ep block a w' p : chan_inv zero w ts v → thread ts g (RecvLock ep block) →
  lock (ch w) = false → chanrecv zero w g ep block a = Ok (w', p) →
  match p with
  | Return (Received e selected ok) => e = ep ∧ (selected = true ∨ (ok = false ∧ block = false ∧ open w ∧ no_value w))
  | Wake _ _ o => o = Received ep true true
  | RecvParked _ e => e = ep
  | _ => False
  end.
Proof.
  intros Hi Ht Hlk. pose proof (ci_globals _ _ _ _ Hi) as G. unfold chanrecv.
  pose proof (ro_count _ _ (ci_ring _ _ _ G)) as Hc. pose proof (len_nonneg (items v)).
  destruct (Z.eqb_spec (closed (ch w)) 0) as [Hcl|Hcl]; simpl.
  - destruct (ss v) as [|a0 rest] eqn:Es.
    2: { destruct (recv_waiting zero w ts v g ep block a0 rest) as (w1 & w2 & t & it & -> & E & _); [done..|].
         cbn [mbind res_bind]. rewrite E. by intros [= <- <-]. }
    pose proof (h_first _ _ _ (ci_sendq _ _ _ G)) as Hf. rewrite Es in Hf.
    rewrite (dequeue_sendq_none w Hf). cbn [mbind res_bind].
    destruct (Z.ltb_spec 0 (qcount (ch w))) as [Hlt|Hge].
    + destruct (idx _ _); cbn; [|by intros ..]. destruct (store _ _ _); cbn; [|by intros ..]. intros [= <- <-]. split; [done|by left].
    + destruct block; simpl; [destruct (enqueue _ _ _); by intros [= <- <-]|].
      intros [= <- <-]. split; [done|]. right. do 3 (split; [done|]). split; [lia|done].
  - destruct (Z.eqb_spec (qcount (ch w)) 0) as [Hq|Hq]; simpl; [intros [= <- <-]; split; [done|by left]|].
    rewrite (proj2 (Z.ltb_lt 0 (qcount (ch w)))) by lia.
    destruct (idx _ _); cbn; [|by intros ..]. destruct (store _ _ _); cbn; [|by intros ..]. intros [= <- <-]. split; [done|by left].
Qed.

Lemma track_later i c c' c'' g a p : track i c c' g a p → during i c' c'' → track i c c'' g a p.
Proof.
  intros H Hd. destruct p; try (by apply (answers_later _ _ c')); unfold track in *; destruct a as [[]|[]|[]|]; simpl in *; try done;
    try (destruct H as [? H]; split; [done|]); try (destruct H as [? H]; split; [done|]);
    by apply (moment_later _ _ c').
Qed.
(** ** The steps of the call *)

Lemma during_shut i c c' : during i c c' → shut (shared c) → shut (shared c').
Proof.
  induction 1 as [|c c1 c' [Hs _] _ IH]; [done|]. intros H. apply IH. unfold shut in *.
  destruct Hs as [w ts j [g p] a w' t Hth Hst]. by apply (cap_step zero w g p a w' t Hst).
Qed.

(** What follows a wake-up, and the points of [closechan]. *)
Lemma resume_points w g a ep w' p :
  (chansend_resume w g a = Ok (w', p) → p = Return (Sent true) ∨ (p = Return SendPanic ∧ shut w)) ∧
  (chanrecv_resume w g a ep = Ok (w', p) → ∃ ok, p = Return (Received ep true ok)).
Proof.
  unfold chansend_resume, chanrecv_resume.
  destruct (unpark w g a) as [[w1 ok]| |] eqn:E; split; intros H; try done; simpl in H.
  - apply (cap_unpark false) in E. simpl in E. destruct ok; simpl in H; [injection H as <- <-; by left|].
    destruct (Z.eqb_spec (closed (ch w1)) 0); [done|]. injection H as <- <-. right. unfold shut. by rewrite <-E.
  - injection H as <- <-. by exists ok.
Qed.

Lemma close_points w gl w' p :
  (closechan_recvs zero w gl = Ok (w', p) → ∃ gl', p = CloseRecvs gl' ∨ p = CloseSends gl') ∧
  (closechan_sends w gl = Ok (w', p) → ∃ gl', p = CloseSends gl' ∨ p = CloseWake gl') ∧
  (closechan_wake w gl = Ok (w', p) → p = Return Closed ∨ ∃ gl', p = CloseWake gl').
Proof.
  unfold closechan_recvs, closechan_sends, closechan_wake, release_waiter.
  split_and!; intros H; unfold mbind, res_bind, mret, res_ret in *;
    repeat (case_match; simplify_eq/=; try done); eauto.
Qed.

(** The point after a step of the goroutine itself. *)
Section track_run.
Context (i : nat) (c : config (world V) (Z * chanpc)) (w : world V) (ts : list (Z * chanpc)) (v : view (V := V)).
Context (g : Z) (a : chanact V) (sg : Z).
Hypothesis Hi : chan_inv zero w ts v.
Hypothesis Hd : during i c (Config w ts).

Definition moves (p : chanpc) : Prop := ∀ w' p', thread ts g p → ts !! i = Some (g, p) →
  track i c (Config w ts) g a p → chanrun zero w g p sg = Some (w', (g, p')) → p' ≠ Throw →
  track i c (Config w ts) g a p'.

Lemma here p (P : world V → Prop) : ts !! i = Some (g, p) → (∀ o, p ≠ Return o) → P w →
  moment i c (Config w ts) P.
Proof using Hd. intros Hth Hp HP. exists (Config w ts). split_and!; [done..|by exists g, p|done]. Qed.

Lemma moves_send p : match p with SendFast | SendFull | SendLock _ | SendParked _ => True | _ => False end → moves p.
Proof using Hi Hd.
  intros Hp w' p' Ht Hth Htr Hrun HT. pose proof (here p) as Hnow. pose proof (chanrun_enabled zero _ _ _ _ _ Hrun) as He.
  destruct p; try done; destruct a as [[] x b|[]|[]|]; simpl in Htr; try done; simpl in Hrun.
  - destruct (Z.eqb_spec (closed (ch w)) 0); injection Hrun as <- <-; simpl; [|done]. split; [done|by apply Hnow].
  - destruct (full (ch w)) eqn:Hf; injection Hrun as <- <-; simpl; [|by destruct Htr].
    destruct Htr as [-> (c1 & D1 & D2 & D3 & D4)]. split; [done|]. intros _. exists c1. split_and!; [done..|].
    exists (Config w ts). split_and!; [done..|by exists g, SendFull|by apply (full_no_room w ts v)].
  - simpl in He. rewrite He in Hrun. unfold caught in Hrun.
    destruct (chansend zero w g block sg) as [[w1 p1]| |] eqn:E; simplify_eq.
    pose proof (chansend_points w ts v g b sg w' p' Hi Ht He E) as Hpt.
    destruct p'; try done; destruct o as [[]| | | | |]; try done; simpl in *.
    + destruct Hpt as [|(-> & Ho & Hr)]; [done|]. split; [done|]. intros _. exists (Config w ts).
      split_and!; [done..|]. exists (Config w ts). split_and!; [done..|by exists g, (SendLock false)|done].
    + split; [done|by apply Hnow].
  - rewrite bool_decide_false in Hrun by done. unfold caught in Hrun.
    destruct (chansend_resume w g sg0) as [[w1 p1]| |] eqn:E; simplify_eq.
    destruct (proj1 (resume_points w g sg0 None w' p') E) as [->|[-> Hs]]; simpl; [done|].
    split; [done|by apply Hnow].
Qed.

Lemma moves_recv p : match p with RecvEmpty _ | RecvClosed _ | RecvEmpty2 _ | RecvLock _ _ | RecvParked _ _ => True
  | _ => False end → moves p.
Proof using Hi Hd.
  intros Hp w' p' Ht Hth Htr Hrun HT. pose proof (here p) as Hnow. pose proof (chanrun_enabled zero _ _ _ _ _ Hrun) as He.
  destruct p; try done; destruct a as [[]|[] want b|[]|]; simpl in Htr; try done; simpl in Hrun.
  - destruct Htr as [-> ->]. destruct (empty (ch w)) eqn:Hf; injection Hrun as <- <-; simpl; [|done].
    do 2 (split; [done|]). apply Hnow; [done..|]. by apply (empty_no_value w ts v).
  - destruct Htr as (-> & -> & c1 & D1 & D2 & D3 & D4).
    destruct (Z.eqb_spec (closed (ch w)) 0) as [Ho|Ho]; injection Hrun as <- <-; simpl; [|done].
    do 3 (split; [done|]). intros _. exists c1. do 3 (split; [done|]). split; [|done].
    destruct (Z.eq_dec (closed (ch (shared c1))) 0) as [|Hs]; [done|]. by apply (during_shut i c1 (Config w ts) D2) in Hs.
  - destruct Htr as [-> ->]. by destruct (empty (ch w)); injection Hrun as <- <-.
  - simpl in He. rewrite He in Hrun. unfold caught in Hrun. destruct Htr as [-> ->].
    destruct (chanrecv zero w g _ b sg) as [[w1 p1]| |] eqn:E; simplify_eq.
    pose proof (chanrecv_points w ts v g _ b sg w' p' Hi Ht He E) as Hpt.
    destruct p'; try done; destruct o as [[]| |ep s ok| | |]; try done; simpl in *.
    destruct Hpt as [-> [->|(-> & -> & Ho & Hr)]]; split; [done..|]. destruct s; [done|].
    do 2 (split; [done|]). intros _. by apply Hnow.
  - rewrite bool_decide_false in Hrun by done. unfold caught in Hrun. subst ep.
    destruct (chanrecv_resume w g sg0 _) as [[w1 p1]| |] eqn:E; simplify_eq.
    by destruct (proj2 (resume_points w g sg0 _ w' p') E) as [ok ->].
Qed.

Lemma moves_close p : match p with CloseLock | CloseRecvs _ | CloseSends _ | CloseWake _ => True | _ => False end →
  moves p.
Proof using Hi Hd.
  intros Hp w' p' Ht Hth Htr Hrun HT. pose proof (here p) as Hnow. pose proof (chanrun_enabled zero _ _ _ _ _ Hrun) as He.
  destruct p; try done; destruct a as [[]|[]|[]|]; simpl in Htr; try done; simpl in Hrun.
  - simpl in He. rewrite He in Hrun. unfold closechan in Hrun.
    destruct (Z.eqb_spec (closed (ch w)) 0); simpl in Hrun; injection Hrun as <- <-; simpl; [by apply Hnow|].
    split; [done|by apply Hnow].
  - unfold caught in Hrun. destruct (closechan_recvs zero w glist) as [[w1 p1]| |] eqn:E; simplify_eq.
    by destruct (proj1 (close_points w glist w' p') E) as [gl [-> | ->]].
  - unfold caught in Hrun. destruct (closechan_sends w glist) as [[w1 p1]| |] eqn:E; simplify_eq.
    by destruct (proj1 (proj2 (close_points w glist w' p')) E) as [gl [-> | ->]].
  - unfold caught in Hrun. destruct (closechan_wake w glist) as [[w1 p1]| |] eqn:E; simplify_eq.
    by destruct (proj2 (proj2 (close_points w glist w' p')) E) as [->|[gl ->]].
Qed.

Lemma moves_any p : p ≠ Idle → (∀ o, p ≠ Return o) → moves p.
Proof using Hi Hd.
  intros Hp Hr. destruct p; try done; try (by apply moves_send); try (by apply moves_recv);
    try (by apply moves_close); try (by edestruct Hr).
  intros w' p' Ht Hth Htr Hrun HT. simpl in Hrun. unfold caught in Hrun.
  destruct (wake w g0 sg0) as [w1| |]; simplify_eq/=.
  unfold track in *. by destruct a as [[]|[]|[]|]; simplify_eq/=.
Qed.
End track_run.

(** ** The whole call *)

Lemma call_track i c g a w w' p' : chancall w g a = Some (w', (g, p')) → track i c c g a p'.
Proof. by destruct a as [[] x []|[] [] []|[]|]; intros [= <- <-]. Qed.

Lemma track_step i c c' c'' v g a p : chan_inv zero (shared c') (threads c') v →
  threads c' !! i = Some (g, p) → p ≠ Idle → track i c c' g a p → during i c c' → inside i c' c'' →
  (∃ p', threads c'' !! i = Some (g, p') ∧ p' ≠ Idle ∧ track i c c'' g a p') ∧
  ∃ v', chan_inv zero (shared c'') (threads c'') v' ∧ began v' g = began v g.
Proof.
  intros Hi Hth Hp Htr Hd Hin. pose proof (rtc_once _ _ Hin) as Hd1. destruct Hin as [Hs Hidle].
  destruct Hs as [w ts j [h q] act w' [h' q'] Hj Hst]. simpl in *.
  destruct (local_at zero w ts v i g p Hi Hth) as [Ht _]. destruct (local_at zero w ts v j h q Hi Hj) as [Htj _].
  destruct (chanstep_inv zero w ts v h q act w' _ Hi Htj Hst) as (v' & Hi' & Hb & _).
  assert (Z.to_nat h = j) as Ej by (pose proof (ci_ids _ _ _ _ Hi j _ Hj) as Hh; simpl in Hh; lia). rewrite Ej in Hi'.
  assert (h' = h) as ->.
  { transitivity (Z.of_nat j); [apply (ci_ids _ _ _ _ Hi' j (h', q'))|symmetry; apply (ci_ids _ _ _ _ Hi j _ Hj)].
    rewrite list_lookup_insert_eq; [done|by eapply lookup_lt_Some]. }
  assert (thread (<[j:=(h, q')]> ts) h q') as Htj'
    by (rewrite <-Ej; apply (thread_insert ts h q); [done|by left]).
  destruct (decide (j = i)) as [->|Hne].
  2: { split.
       - exists p. rewrite list_lookup_insert_ne by done. split_and!; [done..|by apply (track_later i c (Config w ts))].
       - exists v'. split; [done|]. apply Hb. left. intros ->. destruct Ht as [_ Ht]. rewrite Ej in Ht.
         pose proof (ci_ids _ _ _ _ Hi i _ Hth). pose proof (ci_ids _ _ _ _ Hi j _ Hj). simpl in *. lia. }
  rewrite Hth in Hj. injection Hj as <- <-. split; [|by exists v'; auto].
  rewrite list_lookup_insert_eq in * by (by eapply lookup_lt_Some).
  exists q'. split; [done|]. assert (q' ≠ Idle) as Hq' by (intros ->; by apply (Hidle g)). split; [done|].
  apply (track_later i c (Config w ts)); [|done]. unfold chanstep in Hst.
  destruct act as [| | |sg]; try (by destruct p).
  assert (chanrun zero w g p sg = Some (w', (g, q'))) as Hrun by (destruct p; try done; by case_bool_decide).
  apply (moves_any i c w ts v g a sg Hi Hd p Hp) with w'; try done.
  - intros o ->. simpl in Hrun. injection Hrun as <- <-. by destruct Hq'.
  - intros ->. exact (ci_local _ _ _ _ Hi' g _ Htj').
Qed.

(** A schedule within a call. *)
Fixpoint run_inside (i : nat) (sched : list (nat * chanact V)) c : option (config (world V) (Z * chanpc)) :=
  match sched with
  | [] => Some c
  | (j, a) :: sched =>
      x ← threads c !! j; '(w, t) ← chanstep zero (shared c) x a;
      let ts := <[j:=t]> (threads c) in
      match ts !! i with Some (_, Idle) => None | _ => run_inside i sched (Config w ts) end
  end.

Lemma run_during i sched c c' : run_inside i sched c = Some c' → during i c c'.
Proof.
  revert c. induction sched as [|[j a] sched IH]; intros [w ts] H; simpl in H; [injection H as ->; apply rtc_refl|].
  apply bind_Some in H as ([g p] & Hj & H). apply bind_Some in H as ([w' t] & Hs & H).
  set (c1 := Config w' (<[j:=t]> ts)) in *.
  assert (∀ g, threads c1 !! i ≠ Some (g, Idle)) as Hi by (intros h E; unfold c1 in E; simpl in *; by rewrite E in H).
  apply (rtc_l _ _ c1); [split; [by apply (step_thread _ w ts j (g, p) a)|done]|].
  apply IH. by repeat case_match.
Qed.

Lemma during_track i g a c c' v p : chan_inv zero (shared c) (threads c) v →
  threads c !! i = Some (g, p) → p ≠ Idle → track i c c g a p → during i c c' →
  (∃ p', threads c' !! i = Some (g, p') ∧ p' ≠ Idle ∧ track i c c' g a p') ∧
  ∃ v', chan_inv zero (shared c') (threads c') v' ∧ began v' g = began v g.
Proof.
  intros Hv Hth Hp Htr Hd.
  enough (during i c c' ∧ (∃ p', threads c' !! i = Some (g, p') ∧ p' ≠ Idle ∧ track i c c' g a p') ∧
    ∃ v', chan_inv zero (shared c') (threads c') v' ∧ began v' g = began v g) as (_ & H) by exact H.
  pattern c'. apply (rtc_ind_r (R := inside i) _ c); [|..|exact Hd].
  - split; [done|]. split; [by exists p|by exists v].
  - intros c1 c2 _ Hin (Hd1 & (q & Hq & Hqi & Htq) & v1 & Hi1 & Hb1). split; [by eapply rtc_r|].
    destruct (track_step i c c1 c2 v1 g a q) as (H1 & v2 & Hi2 & Hb2); [done..|]. split; [done|].
    exists v2. split; [done|]. by rewrite Hb2.
Qed.

(** What a call returns and has done. *)
Lemma call_returns i g a w ts v w1 p c' o : chan_inv zero w ts v → ts !! i = Some (g, Idle) →
  chancall w g a = Some (w1, (g, p)) → let c := Config w1 (<[i:=(g, p)]> ts) in
  during i c c' → threads c' !! i = Some (g, Return o) → answers i c c' g a o ∧ effect w1 (shared c') g a o.
Proof.
  intros Hi Hth Hcall c Hd Ho. destruct (local_at zero w ts v i g Idle Hi Hth) as [Ht _].
  assert (Z.to_nat g = i) as Eg by (pose proof (ci_ids _ _ _ _ Hi i _ Hth) as Hh; simpl in Hh; lia).
  destruct (chancall_inv zero w ts v g a w1 _ Hi Ht Hcall) as [_ Hi1]. rewrite Eg in Hi1.
  assert (p ≠ Idle) as Hp by (intros ->; by destruct a as [[] ? []|[] ? []|[]|]).
  destruct (during_track i g a c c' (calls zero w1 v g) p) as ((q & Hq & _ & Htr) & v' & Hi' & Hb); try done.
  { simpl. rewrite list_lookup_insert_eq; [done|by eapply lookup_lt_Some]. }
  { by apply (call_track i c g a w w1). }
  rewrite Ho in Hq. injection Hq as <-. split; [exact Htr|].
  destruct (local_at zero (shared c') (threads c') v' i g (Return o) Hi' Ho) as [_ Hres]. simpl in Hres.
  simpl in Hb. rewrite decide_True in Hb by done. unfold result, pending, moved in Hres. rewrite Hb in Hres. simpl in Hres.
  pose proof (ro_count _ _ (ci_ring _ _ _ (ci_globals _ _ _ _ Hi'))) as Hc.
  destruct a as [isnil x b|isnil want b|isnil|], o as [[]| |ep s ok| | |]; simpl in *; try done; try apply Hres.
  - destruct isnil, b; injection Hcall as <- <-; try done; by rewrite value_set_mem, decide_True in Hres.
  - destruct Htr as [-> Htr]. destruct Hres as [_ Hres]. destruct s; [destruct ok|].
    + destruct Hres as (x & H1 & H2). exists x. split; [done|]. intros ->. by apply H2.
    + destruct Hres as (H1 & H2 & H3 & H4). rewrite H2, len_nil in Hc. split_and!; try done; [apply H3..|]. intros ->. by apply H4.
    + by destruct ok.
  - split; [apply Hres|]. apply Hres.
Qed.
End calls.
