(* ===== verification/ChanProps.v ===== *)
(** * Properties of the channels of the runtime *)

From Stdlib Require Import String.
From stdpp Require Import gmap relations.
From S2P Require Import Prelude Bytealg Threads Chan ChanQueue ChanProofs ChanSteps ChanInv ChanReach ChanCalls.

(** C40: the wait queue of a channel is the sequence of its sudogs. [enqueue] adds one at the
    end. [dequeue] takes the first one; it passes over those of a select that
    another channel has already won, and claims the select of the one it takes.
    [dequeueSudoG] takes out any, and does nothing for one that has left the queue.
    The links of the sudogs that stay are repaired, those of the one that goes are
    cleared, and no other sudog changes; [dequeue] ends and does not panic. *)
Theorem waitq_correct σ q ids : holds σ q ids →
  (∀ a, a ∉ ids → let '(σ', q') := enqueue σ q a in
    holds σ' q' (ids ++ [a]) ∧ only_links σ σ' (a :: ids)) ∧
  (sudogs_ok σ ids → ∀ dn, ∃ σ' q',
    dequeue σ dn q = Ok (let '(dn', ids', sg) := pick σ dn ids in (dn', σ', q', sg)) ∧
    holds σ' q' (snd (fst (pick σ dn ids))) ∧ only_links σ σ' ids ∧
    ∀ a, snd (pick σ dn ids) = Some a → sg_next σ' !! a = None ∧ sg_prev σ' !! a = None) ∧
  (∀ l1 a l2, ids = l1 ++ a :: l2 → let '(σ', q') := dequeueSudoG σ q a in
    holds σ' q' (l1 ++ l2) ∧ only_links σ σ' ids ∧ sg_next σ' !! a = None ∧ sg_prev σ' !! a = None) ∧
  (∀ a, a ∉ ids → sg_next σ !! a = None → sg_prev σ !! a = None → dequeueSudoG σ q a = (σ, q)).
Proof.
  intros H. split_and!.
  - intros a. by apply enqueue_spec.
  - intros Hok dn. by apply dequeue_spec.
  - intros l1 a l2 ->. by apply dequeueSudoG_spec.
  - intros a. by apply (dequeueSudoG_absent σ q ids a).
Qed.

(** Three sudogs in a queue, the first of them of a select that is over. *)
Definition three : sudogs * waitq :=
  let σ := Sudogs (list_to_map [(1, 10); (2, 20); (3, 30)]) ∅ ∅ ∅ {[1]} ∅ {[1; 2; 3]} in
  let '(σ, q) := enqueue σ (Waitq None None) 1 in
  let '(σ, q) := enqueue σ q 2 in enqueue σ q 3.

Lemma three_holds : holds (fst three) (snd three) [1; 2; 3].
Proof.
  split; [done|done| |apply (bool_decide_unpack (NoDup _)); by vm_compute].
  vm_compute. by repeat split.
Qed.

Lemma waitq_correct_witness :
  holds (fst three) (snd three) [1; 2; 3] ∧
  ∃ σ q, dequeue (fst three) {[10 := 1]} (snd three) = Ok ({[10 := 1]}, σ, q, Some 2) ∧ holds σ q [3].
Proof.
  split; [apply three_holds|].
  destruct (waitq_correct (fst three) (snd three) [1; 2; 3] three_holds) as (_ & H & _).
  destruct (H ltac:(intros a Ha; apply (bool_decide_unpack (_ ∧ _)); revert a Ha; by apply Forall_forall, (bool_decide_unpack _))
    {[10 := 1]}) as (σ & q & E & Hq & _).
  exists σ, q. split; [exact E|exact Hq].
Defined.

(** C38: [makechan] makes a channel whose buffer fits in the memory and panics for any
    other size. On its channel every interleaving of sends, receives and closes,
    blocking and not, of any number of goroutines keeps this: no goroutine meets a
    state in which the runtime throws; the buffer holds at most as many values as its
    size, and the values sent are the ones received followed by those in the buffer,
    in order, each once; the two queues hold goroutines that are parked; a receiver
    waits only while there is no value and no sender, a sender only while the buffer is
    full; nobody waits on a closed channel.
    And every call that returns says what it did and why. A send that returns true has
    sent its value, once, and received nothing. A receive that returns (true, true) has
    received one value and stored it in its variable; with (true, false) it has received
    nothing, the channel is closed and its buffer empty, and zero is stored. Every other
    return has sent and received nothing and leaves the variable alone: a send panics
    only after the channel was closed. Only a non-blocking call gives up: a receive
    because at one moment of the call the channel was open, without a value and without
    a sender; a send because it was open at a moment of the call, and full and without a
    receiver at that or a later one. [close] returns if it found the channel open, and
    leaves it closed; it panics only if it was closed already, or nil. A non-blocking call
    on a nil channel gives up, a blocking one never returns. *)
Theorem Chan_correct {V} (zero : V) maxAlloc hchanSize elem size :
  is_uint 64 maxAlloc → 0 ≤ hchanSize ≤ maxAlloc → hchanSize mod maxAlign = 0 →
  0 ≤ Size_ elem < 2 ^ 16 → Align_ elem ≤ maxAlign → is_sint 64 size →
  makechan zero maxAlloc hchanSize elem size =
    (if decide (0 ≤ size ∧ Size_ elem * size ≤ maxAlloc - hchanSize) then
      Ok (Hchan 0 size (replicate (Z.to_nat size) zero) 0 0 0 (Waitq None None) (Waitq None None) false)
    else Panic (PanicMsg (str "makechan: size out of range"))) ∧
  ∀ c0 n w ts, makechan zero maxAlloc hchanSize elem size = Ok c0 →
  reachable (chanstep zero) (chanstart c0 n) (Config w ts) →
  (∃ items receivers senders,
    ring_ok (ch w) items ∧ chanlen (Some (ch w)) = len items ∧ chancap (Some (ch w)) = size ∧
    len items ≤ size ∧ map snd (sent w) = map snd (received w) ++ items ∧
    holds (sgs w) (recvq (ch w)) receivers ∧ holds (sgs w) (sendq (ch w)) senders ∧
    (receivers ≠ [] → items = [] ∧ senders = []) ∧ (senders ≠ [] → len items = size) ∧
    (closed (ch w) ≠ 0 → lock (ch w) = false → receivers = [] ∧ senders = []) ∧
    (∀ a, a ∈ receivers → ∃ g ep, thread ts g (RecvParked a ep) ∧ g ∈ parked w) ∧
    (∀ a, a ∈ senders → ∃ g, thread ts g (SendParked a) ∧ g ∈ parked w)) ∧
  (∀ i g, ts !! i ≠ Some (g, Throw)) ∧
  (∀ i g a w1 p, ts !! i = Some (g, Idle) → chanstep zero w (g, Idle) a = Some (w1, (g, p)) →
    let c := Config w1 (<[i:=(g, p)]> ts) in
    ∀ c' o, during zero i c c' → threads c' !! i = Some (g, Return o) →
    answers zero i c c' g a o ∧ effect zero w1 (shared c') g a o).
Proof.
  intros HM Hh Hmod Hez Hal Hs. split; [by apply makechan_eq|]. intros c0 n w ts Hmake Hr.
  destruct (chan_reachable _ _ _ _ _ _ _ _ _ Hs Hmake Hr) as ([v Hi] & Hcap & Hsz).
  pose proof (ci_globals _ _ _ _ Hi) as G. pose proof (ci_ring _ _ _ G) as R.
  pose proof (ro_full _ _ R) as Hfull. pose proof (len_nonneg (items v)).
  split; [|split].
  2: { intros i g Hth. by destruct (local_at zero w ts v i g _ Hi Hth) as [_ Hl]. }
  2: { intros i g a w1 p Hth Hcall c c' o. by apply (call_returns zero i g a w ts v w1 p c' o). }
  exists (items v), (rs v), (ss v). split; [done|].
  unfold chanlen, chancap. rewrite (ro_count _ _ R), Hcap, !swrap_small by (unfold is_sint; pow2_consts; lia).
  rewrite Hcap in Hfull.
  split_and!; try done; try by apply G.
  - rewrite <-Hcap. apply G.
  - intros a Ha. destruct (recv_owner zero w ts v Hi a Ha) as (g & ep & ? & _ & _ & _ & ? & _). by exists g, ep.
  - intros a Ha. destruct (send_owner zero w ts v Hi a Ha) as (g & ? & _ & _ & ? & _). by exists g.
Qed.

(** A receiver waits, a sender hands its value over and fills the buffer; the channel is
    closed, and the first receiver comes back for the value in the buffer. *)
Definition chan_example : hchan Z :=
  default (Hchan 0 0 [] 0 0 0 (Waitq None None) (Waitq None None) false)
    match makechan 0 (2 ^ 48) 96 (Elemtype 8 8) 1 with Ok c => Some c | _ => None end.

Definition chan_schedule : list (nat * chanact Z) :=
  [(0%nat, CallRecv false true true); (0%nat, Run 100); (1%nat, CallSend false 7 true); (1%nat, Run 101);
   (1%nat, Run 101); (1%nat, Run 101); (1%nat, CallSend false 8 true); (1%nat, Run 101);
   (2%nat, CallClose false); (2%nat, Run 101); (2%nat, Run 101); (2%nat, Run 101); (0%nat, Run 101);
   (0%nat, Run 101); (0%nat, CallRecv false true true); (0%nat, Run 101)].

Definition chan_final : config (world Z) (Z * chanpc) :=
  default (chanstart chan_example 3) (run (chanstep 0) chan_schedule (chanstart chan_example 3)).

(** The buffer is full, a non-blocking send begins, and gives up. *)
Definition chan_full : config (world Z) (Z * chanpc) :=
  default (chanstart chan_example 3)
    (run (chanstep 0) [(0%nat, CallSend false 7 true); (0%nat, Run 100)] (chanstart chan_example 3)).

Definition chan_called : config (world Z) (Z * chanpc) :=
  default chan_full (run (chanstep 0) [(1%nat, CallSend false 9 false)] chan_full).

Definition chan_given_up : config (world Z) (Z * chanpc) :=
  default chan_full (run (chanstep 0) [(1%nat, Run 101); (1%nat, Run 101)] chan_called).

Lemma Chan_correct_witness :
  (threads chan_final = [(0, Return (Received (Some 0) true true)); (1, Return (Sent true)); (2, CloseWake [])] ∧
   ∃ items, map snd (sent (shared chan_final)) = map snd (received (shared chan_final)) ++ items ∧
     sent (shared chan_final) = [(1, 7); (1, 8)] ∧ received (shared chan_final) = [(0, 7); (0, 8)]) ∧
  (threads chan_given_up !! 1%nat = Some (1, Return (Sent false)) ∧
   ∃ c1, during 0 1 chan_called c1 ∧ open (shared c1) ∧ moment 0 1 c1 chan_given_up no_room).
Proof.
  assert (is_uint 64 (2 ^ 48) ∧ 0 ≤ 96 ≤ 2 ^ 48 ∧ is_sint 64 1) as (H1 & H2 & H3) by (by vm_compute).
  destruct (Chan_correct 0 (2 ^ 48) 96 (Elemtype 8 8) 1) as [_ H]; [by vm_compute..|].
  split.
  - split; [by vm_compute|].
    destruct (H chan_example 3%nat (shared chan_final) (threads chan_final)) as ((items & rs & ss & H') & _ & _);
      [by vm_compute|apply (run_final _ chan_schedule); by vm_compute|].
    exists items. split; [apply H'|by vm_compute].
  - split; [by vm_compute|].
    destruct (H chan_example 3%nat (shared chan_full) (threads chan_full)) as (_ & _ & H');
      [by vm_compute|apply (run_final _ [(0%nat, CallSend false 7 true); (0%nat, Run 100)]); by vm_compute|].
    destruct (H' 1%nat 1 (CallSend false 9 false) (shared chan_called) SendFast) with (c' := chan_given_up) (o := @Sent false)
      as [(_ & Ha) _]; [by vm_compute|by vm_compute| |by vm_compute|].
    + apply (run_during 0 1 [(1%nat, Run 101); (1%nat, Run 101)]). by vm_compute.
    + exact (Ha eq_refl).
Defined.

(** C39: an operation that has begun can always end. From every reachable state there is
    a schedule after which it returns, or its goroutine waits in the queue of an
    open channel that cannot serve it: a receiver of an empty one without a sender, a
    sender of a full one without a receiver. No wake-up is lost, and nobody waits for
    the lock forever: a goroutine that is parked and in no queue is made ready by
    another, and the loops of [closechan] end. *)
Theorem Chan_progress {V} (zero : V) maxAlloc hchanSize elem size n c0 w ts i g p :
  is_sint 64 size → makechan zero maxAlloc hchanSize elem size = Ok c0 →
  reachable (chanstep zero) (chanstart c0 n) (Config w ts) →
  ts !! i = Some (g, p) → p ≠ Idle → p ≠ Forever →
  ∃ w' ts' p', reachable (chanstep zero) (Config w ts) (Config w' ts') ∧ ts' !! i = Some (g, p') ∧
    ((∃ o, p' = Return o) ∨
     (closed (ch w') = 0 ∧ lock (ch w') = false ∧
      ((∃ a ep, p' = RecvParked a ep ∧ qcount (ch w') = 0 ∧ first (sendq (ch w')) = None) ∨
       (∃ a, p' = SendParked a ∧ qcount (ch w') = size ∧ first (recvq (ch w')) = None)))).
Proof.
  intros Hs Hmake Hr Hth Hp1 Hp2.
  destruct (chan_reachable _ _ _ _ _ _ _ _ _ Hs Hmake Hr) as ([v Hi] & Hcap & Hsz).
  destruct (local_at zero w ts v i g p Hi Hth) as [Ht _].
  pose proof (ci_ids _ _ _ _ Hi i _ Hth) as Hg. simpl in Hg.
  destruct (end_always zero w ts v g p Hi Ht Hp1 Hp2) as (w' & ts' & v' & p' & Hr' & Hi' & Hlk & Ht' & He).
  assert (dataqsiz (ch w') = size) as Hcap'.
  { assert (reachable (chanstep zero) (chanstart c0 n) (Config w' ts')) as Hr2 by (exact (rtc_trans _ _ _ Hr Hr')).
    by destruct (chan_reachable _ _ _ _ _ _ _ _ _ Hs Hmake Hr2) as (_ & ? & _). }
  exists w', ts', p'. split; [done|]. split; [rewrite <-(Nat2Z.id i), <-Hg; apply Ht'|].
  destruct He as [?|[Hq _]]; [by left|right]. by apply (queued_blocked zero w' ts' v' size p').
Qed.

(** The sender of a full channel is parked, its goroutine can end after a receive. *)
Definition full_schedule : list (nat * chanact Z) :=
  [(0%nat, CallSend false 7 true); (0%nat, Run 100); (1%nat, CallSend false 8 true); (1%nat, Run 100);
   (2%nat, CallRecv false true true); (2%nat, Run 101)].

Definition full_final : config (world Z) (Z * chanpc) :=
  default (chanstart chan_example 3) (run (chanstep 0) full_schedule (chanstart chan_example 3)).

Lemma Chan_progress_witness :
  threads full_final = [(0, Return (Sent true)); (1, SendParked 100); (2, Wake 1 100 (Received (Some 2) true true))] ∧
  ∃ w' ts' p', reachable (chanstep 0) (Config (shared full_final) (threads full_final)) (Config w' ts') ∧
    ts' !! 1%nat = Some (1, p') ∧
    ((∃ o, p' = Return o) ∨
     (closed (ch w') = 0 ∧ lock (ch w') = false ∧
      ((∃ a ep, p' = RecvParked a ep ∧ qcount (ch w') = 0 ∧ first (sendq (ch w')) = None) ∨
       (∃ a, p' = SendParked a ∧ qcount (ch w') = 1 ∧ first (recvq (ch w')) = None)))).
Proof.
  split; [by vm_compute|].
  apply (Chan_progress 0 (2 ^ 48) 96 (Elemtype 8 8) 1 3 chan_example (shared full_final) (threads full_final)
    1%nat 1 (SendParked 100)); [by vm_compute|by vm_compute| |by vm_compute|discriminate|discriminate].
  apply (run_final _ full_schedule). by vm_compute.
Defined.

(** A non-blocking send gives up although it never found the channel open and not
    ready: the receiver that was waiting when it read [c.closed] is taken out of the
    queue by [closechan] before it reads the queue. *)
Lemma nonblocking_send_gives_up :
  let unbuffered := Hchan 0 0 [] 0 0 0 (Waitq None None) (Waitq None None) false in
  let sched := [(0%nat, CallRecv false true true); (0%nat, Run 100); (1%nat, CallSend false 7 false)] in
  let sched' := [(1%nat, Run 101); (2%nat, CallClose false)] in
  let sched'' := [(2%nat, Run 101); (2%nat, Run 101); (1%nat, Run 101)] in
  let at_end (s : list (nat * chanact Z)) (f : world Z → list (Z * chanpc) → Prop) :=
    match run (chanstep 0) s (chanstart unbuffered 3) with Some c => f (shared c) (threads c) | None => False end in
  at_end sched (λ w _, closed (ch w) = 0 ∧ full (ch w) = false) ∧
  at_end (sched ++ sched') (λ w _, closed (ch w) = 0 ∧ full (ch w) = false) ∧
  at_end (sched ++ sched' ++ sched'') (λ w ts, closed (ch w) = 1 ∧ ts !! 1%nat = Some (1, Return (Sent false))).
Proof. by vm_compute. Qed.
