(* ===== verification/BigHeap.v ===== *)
(** * Slices of words in memory

    The operands of math/big are slices that can share their arrays: results are
    written over the arguments. The heap is the list of all arrays ever made,
    and a slice names its array, the offset of its first element, its length and
    its capacity. [words] reads a slice as a list, [upd] writes one; the lemmas
    say what a write does to the other slices. *)

From S2P Require Import Prelude.

Abbreviation heap := (list (list Z)).

Record vec := Vec { arr : nat; off : Z; vlen : Z; vcap : Z }.

Definition nilvec : vec := Vec 0 0 0 0.

Definition array (h : heap) (a : nat) : list Z := default [] (h !! a).

(** [s[i]], [s[i] = v], [s[i:j]], [len(s)], [cap(s)]. *)
Definition get (h : heap) (s : vec) (i : Z) : res Z :=
  if decide (0 ≤ i < vlen s) then idx (array h (arr s)) (off s + i) else Panic IndexOutOfRange.

Definition put (h : heap) (s : vec) (i v : Z) : res heap :=
  if decide (0 ≤ i < vlen s) then
    l ← store (array h (arr s)) (off s + i) v; mret (<[arr s := l]> h)
  else Panic IndexOutOfRange.

Definition sub (s : vec) (i j : Z) : res vec :=
  if decide (0 ≤ i ∧ i ≤ j ∧ j ≤ vcap s)
  then mret (Vec (arr s) (off s + i) (j - i) (vcap s - i)) else Panic SliceOutOfRange.

(** [make([]Word, n, c)] *)
Definition make_vec (h : heap) (n c : Z) : heap * vec :=
  (h ++ [replicate (Z.to_nat c) 0], Vec (length h) 0 n c).

(** The elements of a slice, and the heap with others in their place. *)
Definition words (h : heap) (s : vec) : list Z :=
  take (Z.to_nat (vlen s)) (drop (Z.to_nat (off s)) (array h (arr s))).

Definition upd (h : heap) (s : vec) (ws : list Z) : heap :=
  let l := array h (arr s) in
  <[arr s := take (Z.to_nat (off s)) l ++ ws ++ drop (Z.to_nat (off s) + length ws) l]> h.

(** [copy(z, x)], which works on overlapping slices too, and [clear(z)]. *)
Definition copy (h : heap) (z x : vec) : heap :=
  let n := Z.to_nat (vlen z `min` vlen x) in upd h z (take n (words h x)).
Definition clear (h : heap) (z : vec) : heap := upd h z (replicate (Z.to_nat (vlen z)) 0).

(** ** Well-formed slices *)

Record valid (h : heap) (s : vec) : Prop := {
  va_off : 0 ≤ off s;
  va_len : 0 ≤ vlen s ≤ vcap s;
  va_arr : (off s = 0 ∧ vcap s = 0) ∨ (off s + vcap s ≤ len (array h (arr s)) ∧ (arr s < length h)%nat);
}.

Definition word_heap (h : heap) : Prop := Forall (Forall (is_uint 64)) h.

(** The slices have no element in common. *)
Definition apart (s t : vec) : Prop :=
  arr s ≠ arr t ∨ off s + vlen s ≤ off t ∨ off t + vlen t ≤ off s.

Section algebra.
Implicit Types (h : heap) (s t : vec) (ws : list Z).

Lemma valid_range h s : valid h s → 0 ≤ off s ∧ 0 ≤ vlen s ∧
  (vlen s = 0 ∨ off s + vlen s ≤ len (array h (arr s)) ∧ (arr s < length h)%nat).
Proof. intros [H1 H2 [H3|[H3 H4]]]; split_and!; try lia. Qed.

Lemma len_words h s : valid h s → len (words h s) = vlen s.
Proof.
  intros (H1 & H2 & H3)%valid_range. unfold words. rewrite len_take, len_drop.
  pose proof (len_nonneg (array h (arr s))). lia.
Qed.

Lemma length_words h s : valid h s → length (words h s) = Z.to_nat (vlen s).
Proof. intros H. pose proof (len_words h s H). pose proof (va_len _ _ H). unfold len in *. lia. Qed.

Lemma zget_words h s i : valid h s → 0 ≤ i < vlen s → zget (words h s) i = zget (array h (arr s)) (off s + i).
Proof.
  intros (H1 & H2 & H3)%valid_range Hi. unfold words. rewrite zget_take, zget_drop by lia. f_equal. lia.
Qed.

Lemma get_words h s i : valid h s → 0 ≤ i < vlen s → get h s i = idx (words h s) i.
Proof. intros H Hi. unfold get, idx. by rewrite decide_True, zget_words by done. Qed.

Lemma array_upd_eq h s ws : (arr s < length h)%nat →
  array (upd h s ws) (arr s) =
    take (Z.to_nat (off s)) (array h (arr s)) ++ ws ++ drop (Z.to_nat (off s) + length ws) (array h (arr s)).
Proof. intros H. unfold array at 1, upd. by rewrite list_lookup_insert_eq. Qed.

Lemma array_upd_ne h s ws a : arr s ≠ a → array (upd h s ws) a = array h a.
Proof. intros H. unfold array at 1, upd. by rewrite list_lookup_insert_ne. Qed.

Lemma length_upd h s ws : length (upd h s ws) = length h.
Proof. apply length_insert. Qed.
(** Every cell after a write. *)
Lemma zget_upd h s ws a i : valid h s → len ws = vlen s → 0 ≤ i →
  zget (array (upd h s ws) a) i =
    if decide (a = arr s ∧ off s ≤ i < off s + vlen s) then zget ws (i - off s) else zget (array h a) i.
Proof.
  intros (H1 & H2 & H3)%valid_range Hl Hi. pose proof (len_nonneg (array h (arr s))) as Hn.
  destruct (decide (a = arr s)) as [->|Hne].
  2: { rewrite decide_False by tauto. by rewrite array_upd_ne by done. }
  destruct (decide (arr s < length h)%nat) as [Ha|Ha].
  2: { rewrite decide_False by lia. unfold array, upd. by rewrite list_insert_ge by lia. }
  rewrite array_upd_eq by done. set (l := array h (arr s)) in *.
  assert (len (take (Z.to_nat (off s)) l) = off s `min` len l) as Ht by (rewrite len_take; lia).
  assert (Z.of_nat (length ws) = vlen s) as Hws by (unfold len in Hl; lia).
  destruct (decide (off s ≤ len l)) as [Hol|Hol].
  - destruct (decide (i < off s)).
    { rewrite decide_False by lia. rewrite zget_app_l, zget_take by lia. done. }
    rewrite zget_app_r by lia. rewrite Ht, Z.min_l by lia.
    destruct (decide (i < off s + vlen s)).
    + rewrite decide_True by lia. by rewrite zget_app_l by lia.
    + rewrite decide_False by lia. rewrite zget_app_r by lia. rewrite zget_drop by lia. f_equal. lia.
  - rewrite decide_False by lia. destruct ws; [|simpl in Hws; lia]. simpl.
    rewrite drop_ge by (unfold len in *; lia). rewrite app_nil_r, take_ge by (unfold len in *; lia). done.
Qed.

Lemma len_array_upd h s ws a : valid h s → len ws = vlen s → len (array (upd h s ws) a) = len (array h a).
Proof.
  intros Hv Hl. apply Z.le_antisymm.
  - destruct (Z_lt_le_dec (len (array h a)) (len (array (upd h s ws) a))) as [H|H]; [|done].
    pose proof (len_nonneg (array h a)). pose proof (zget_upd h s ws a (len (array h a)) Hv Hl ltac:(lia)) as E.
    destruct (zget_lt (array (upd h s ws) a) (len (array h a))) as [x Hx]; [lia|].
    rewrite Hx in E. case_decide as Hd; [|by rewrite (proj2 (zget_None _ _)) in E by lia].
    apply valid_range in Hv as (_ & _ & [?|[? _]]); destruct Hd as [-> ?]; lia.
  - destruct (Z_lt_le_dec (len (array (upd h s ws) a)) (len (array h a))) as [H|H]; [|done].
    pose proof (len_nonneg (array (upd h s ws) a)).
    pose proof (zget_upd h s ws a (len (array (upd h s ws) a)) Hv Hl ltac:(lia)) as E.
    rewrite (proj2 (zget_None _ _)) in E by lia. case_decide as Hd.
    + destruct (zget_lt ws (len (array (upd h s ws) a) - off s)) as [x Hx]; [lia|congruence].
    + destruct (zget_lt (array h a) (len (array (upd h s ws) a))) as [x Hx]; [lia|congruence].
Qed.

Lemma valid_upd h s ws t : valid h s → len ws = vlen s → valid h t → valid (upd h s ws) t.
Proof.
  intros Hs Hl [T1 T2 T3]. split; [done|done|]. rewrite length_upd, len_array_upd by done. done.
Qed.

Lemma words_ext h h' s s' : valid h s → valid h' s' → vlen s = vlen s' →
  (∀ i, 0 ≤ i < vlen s → zget (array h (arr s)) (off s + i) = zget (array h' (arr s')) (off s' + i)) →
  words h s = words h' s'.
Proof.
  intros H1 H2 Hl Hi. apply zget_ext; rewrite !len_words by done; [done|].
  intros i Hr. rewrite !zget_words by (done || lia). by apply Hi.
Qed.

Lemma words_upd_eq h s ws : valid h s → len ws = vlen s → words (upd h s ws) s = ws.
Proof.
  intros Hs Hl. pose proof (valid_upd h s ws s Hs Hl Hs) as Hs'.
  apply zget_ext; rewrite len_words by done; [done|]. intros i Hi.
  rewrite zget_words by done. pose proof (va_off _ _ Hs). rewrite zget_upd by (done || lia).
  rewrite decide_True by lia. f_equal. lia.
Qed.

Lemma words_upd_apart h s ws t : valid h s → len ws = vlen s → valid h t → apart s t →
  words (upd h s ws) t = words h t.
Proof.
  intros Hs Hl Ht Ha. apply words_ext; [by apply valid_upd|done|done|]. intros i Hi.
  pose proof (va_off _ _ Ht). rewrite zget_upd by (done || lia).
  rewrite decide_False; [done|]. unfold apart in Ha. intros [E ?]. lia.
Qed.

Lemma heap_ext h h' : length h = length h' → (∀ a, array h a = array h' a) → h = h'.
Proof.
  intros Hl Ha. apply list_eq. intros a. specialize (Ha a). unfold array in Ha.
  destruct (h !! a) eqn:E, (h' !! a) eqn:E'; simpl in Ha; try congruence.
  - apply lookup_lt_Some in E. apply lookup_ge_None in E'. lia.
  - apply lookup_lt_Some in E'. apply lookup_ge_None in E. lia.
Qed.

Lemma upd_ext h h' : length h = length h' → (∀ a, len (array h a) = len (array h' a)) →
  (∀ a i, 0 ≤ i → zget (array h a) i = zget (array h' a) i) → h = h'.
Proof. intros Hl Ha Hi. apply heap_ext; [done|]. intros a. apply zget_ext; [done|]. intros i ?. apply Hi. lia. Qed.

Lemma upd_words h s : valid h s → upd h s (words h s) = h.
Proof.
  intros Hs. pose proof (len_words h s Hs) as Hl. apply upd_ext.
  - apply length_upd.
  - intros a. by apply len_array_upd.
  - intros a i Hi. rewrite zget_upd by done. case_decide as Hd; [|done]. destruct Hd as [-> Hd].
    rewrite zget_words by (done || lia). f_equal. lia.
Qed.

Lemma upd_upd h s ws ws' : valid h s → len ws = vlen s → len ws' = vlen s →
  upd (upd h s ws) s ws' = upd h s ws'.
Proof.
  intros Hs Hl Hl'. pose proof (valid_upd h s ws s Hs Hl Hs). apply upd_ext.
  - by rewrite !length_upd.
  - intros a. by rewrite !len_array_upd by done.
  - intros a i Hi. rewrite !zget_upd by done. by case_decide.
Qed.

Lemma put_upd h s i v : valid h s → 0 ≤ i < vlen s → put h s i v = Ok (upd h s (zset (words h s) i v)).
Proof.
  intros Hs Hi. unfold put. rewrite decide_True by done.
  destruct (valid_range _ _ Hs) as (H1 & H2 & [?|[H3 H4]]); [lia|].
  unfold store. rewrite decide_True by lia. cbn [mbind res_bind mret res_ret]. f_equal.
  assert (len (zset (words h s) i v) = vlen s) as Hl by (by rewrite len_zset, len_words).
  assert (∀ l, array (<[arr s:=l]> h) (arr s) = l) as Hself
    by (intros l; unfold array; by rewrite list_lookup_insert_eq).
  assert (∀ l a, arr s ≠ a → array (<[arr s:=l]> h) a = array h a) as Hother
    by (intros l a ?; unfold array; by rewrite list_lookup_insert_ne).
  apply upd_ext.
  - by rewrite length_insert, length_upd.
  - intros a. rewrite len_array_upd by done. destruct (decide (arr s = a)) as [<-|]; [|by rewrite Hother].
    by rewrite Hself, len_zset.
  - intros a j Hj. rewrite zget_upd by done. destruct (decide (arr s = a)) as [<-|Hne].
    + rewrite Hself, zget_zset by lia. destruct (decide (off s + i = j)) as [<-|].
      * rewrite decide_True by lia. rewrite zget_zset by (rewrite len_words by done; lia).
        by rewrite decide_True by lia.
      * case_decide; [|done]. rewrite zget_zset by (rewrite len_words by done; lia).
        rewrite decide_False by lia. rewrite zget_words by (done || lia). f_equal. lia.
    + rewrite Hother by done. by rewrite decide_False by naive_solver.
Qed.
(** ** Slicing *)

(** [s[i:j]] as a value. *)
Definition part s (i j : Z) : vec := Vec (arr s) (off s + i) (j - i) (vcap s - i).

Lemma sub_part s i j : 0 ≤ i → i ≤ j → j ≤ vcap s → sub s i j = Ok (part s i j).
Proof. intros. unfold sub. by rewrite decide_True. Qed.

Lemma valid_part h s i j : valid h s → 0 ≤ i → i ≤ j → j ≤ vcap s → valid h (part s i j).
Proof. intros [H1 H2 H3] ???. split; simpl; lia. Qed.

Lemma zget_slice (l : list Z) i j k : 0 ≤ i → 0 ≤ k < j - i →
  zget (take (Z.to_nat (j - i)) (drop (Z.to_nat i) l)) k = zget l (i + k).
Proof. intros Hi Hk. rewrite zget_take, zget_drop by lia. f_equal. lia. Qed.

Lemma words_part h s i j : valid h s → 0 ≤ i → i ≤ j → j ≤ vlen s →
  words h (part s i j) = take (Z.to_nat (j - i)) (drop (Z.to_nat i) (words h s)).
Proof.
  intros Hs Hi Hij Hj. pose proof (va_len _ _ Hs).
  assert (valid h (part s i j)) as Hp by (apply valid_part; (done || lia)).
  pose proof (len_words h s Hs) as Hl.
  apply zget_ext; rewrite (len_words h (part s i j)) by done; simpl vlen.
  - rewrite len_take, len_drop, Hl. lia.
  - intros k Hk. rewrite zget_words, zget_slice by (done || lia). simpl.
    rewrite zget_words by (done || lia). f_equal. lia.
Qed.

(** A write to a part of a slice. *)
Definition splice (l : list Z) (i : Z) (ws : list Z) : list Z :=
  take (Z.to_nat i) l ++ ws ++ drop (Z.to_nat i + length ws) l.

Lemma len_splice l i ws : 0 ≤ i → i + len ws ≤ len l → len (splice l i ws) = len l.
Proof. intros Hi Hl. unfold splice. rewrite !len_app, len_take, len_drop. unfold len in *. lia. Qed.

Lemma zget_splice l i ws k : 0 ≤ i → i + len ws ≤ len l → 0 ≤ k →
  zget (splice l i ws) k = if decide (i ≤ k < i + len ws) then zget ws (k - i) else zget l k.
Proof.
  intros Hi Hl Hk. unfold splice. pose proof (len_nonneg ws).
  assert (len (take (Z.to_nat i) l) = i) as Ht by (rewrite len_take; lia).
  destruct (decide (k < i)).
  - rewrite decide_False by lia. by rewrite zget_app_l, zget_take by lia.
  - rewrite zget_app_r, Ht by lia. destruct (decide (k < i + len ws)).
    + rewrite decide_True by lia. by rewrite zget_app_l by lia.
    + rewrite decide_False, zget_app_r, zget_drop by lia. f_equal. unfold len. lia.
Qed.

Lemma upd_part h s i j ws : valid h s → 0 ≤ i → i ≤ j → j ≤ vlen s → len ws = j - i →
  upd h (part s i j) ws = upd h s (splice (words h s) i ws).
Proof.
  intros Hs Hi Hij Hj Hl. pose proof (va_len _ _ Hs).
  assert (valid h (part s i j)) as Hp by (apply valid_part; (done || lia)).
  pose proof (len_words h s Hs) as Hlw.
  assert (len (splice (words h s) i ws) = vlen s) as Hls by (rewrite len_splice; lia).
  apply upd_ext.
  - by rewrite !length_upd.
  - intros a. rewrite !len_array_upd; done.
  - intros a k Hk. rewrite !zget_upd by done. simpl.
    destruct (decide (a = arr s ∧ off s ≤ k < off s + vlen s)) as [[-> Hin]|Hout].
    + rewrite zget_splice by lia. case_decide; case_decide; try lia.
      * f_equal. lia.
      * rewrite zget_words by (done || lia). f_equal. lia.
    + rewrite decide_False by (intros [-> ?]; apply Hout; split; [done|lia]). done.
Qed.

(** ** Words stay words *)

Lemma word_heap_words h s : word_heap h → Forall (is_uint 64) (words h s).
Proof.
  intros H. apply Forall_take, Forall_drop. unfold array. destruct (h !! arr s) eqn:E; simpl; [|by constructor].
  by apply (Forall_lookup_1 _ _ _ _ H E).
Qed.

Lemma word_heap_upd h s ws : word_heap h → Forall (is_uint 64) ws → word_heap (upd h s ws).
Proof.
  intros H Hw. apply Forall_insert; [done|].
  assert (Forall (is_uint 64) (array h (arr s))) as Ha.
  { unfold array. destruct (h !! arr s) eqn:E; simpl; [by apply (Forall_lookup_1 _ _ _ _ H E)|constructor]. }
  apply Forall_app. split; [by apply Forall_take|]. apply Forall_app. split; [done|by apply Forall_drop].
Qed.

Lemma word_heap_get h s i x : word_heap h → zget (words h s) i = Some x → is_uint 64 x.
Proof. intros H Hx%zget_elem_of. by apply (proj1 (Forall_forall _ _) (word_heap_words h s H)). Qed.

(** ** New arrays *)

Lemma array_make h n c a : (a < length h)%nat → array (fst (make_vec h n c)) a = array h a.
Proof. intros Ha. unfold array. simpl. by rewrite lookup_app_l. Qed.

Lemma valid_make_old h n c t : valid h t → valid (fst (make_vec h n c)) t ∧ words (fst (make_vec h n c)) t = words h t.
Proof.
  intros Ht. pose proof Ht as [T1 T2 T3]. assert (valid (fst (make_vec h n c)) t) as Hv.
  { split; [done|done|]. destruct T3 as [?|[E Ha]]; [by left|right]. rewrite array_make by done.
    split; [done|]. simpl. rewrite length_app. simpl. lia. }
  split; [done|]. apply words_ext; [done|done|done|]. intros i Hi.
  destruct T3 as [?|[E Ha]]; [lia|]. by rewrite array_make.
Qed.

Lemma valid_make_new h n c : 0 ≤ n ≤ c →
  let '(h', z) := make_vec h n c in valid h' z ∧ words h' z = replicate (Z.to_nat n) 0.
Proof.
  intros Hn. simpl. set (z := Vec _ _ _ _).
  assert (array (h ++ [replicate (Z.to_nat c) 0]) (length h) = replicate (Z.to_nat c) 0) as Ea.
  { unfold array. rewrite lookup_app_r, Nat.sub_diag by done. done. }
  assert (valid (h ++ [replicate (Z.to_nat c) 0]) z) as Hv.
  { split; simpl; [done|done|]. right. rewrite Ea, length_app. simpl. unfold len.
    rewrite length_replicate. lia. }
  split; [done|]. unfold words. simpl. rewrite Ea, drop_0, take_replicate. f_equal. lia.
Qed.

Lemma word_heap_make h n c : word_heap h → word_heap (fst (make_vec h n c)).
Proof. intros H. apply Forall_app. split; [done|]. constructor; [|done]. by apply Forall_replicate. Qed.

(** The new slice shares no array with a slice of the heap. *)
Lemma make_apart h n c t : valid h t → apart (snd (make_vec h n c)) t.
Proof.
  intros [T1 T2 T3]. destruct T3 as [?|[_ Ha]]; [|left; simpl; lia]. right. simpl. lia.
Qed.

(** ** Copying *)

Lemma words_copy h z x : valid h z → valid h x → vlen z ≤ vlen x →
  copy h z x = upd h z (take (Z.to_nat (vlen z)) (words h x)).
Proof. intros Hz Hx Hl. unfold copy. by rewrite Z.min_l by done. Qed.

Lemma apart_part_l s t i j : apart s t → 0 ≤ i → j ≤ vlen s → apart (part s i j) t.
Proof. unfold apart. simpl. intros [?|?] ??; [by left|right; lia]. Qed.

Lemma apart_part_r s t i j : apart s t → 0 ≤ i → j ≤ vlen t → apart s (part t i j).
Proof. unfold apart. simpl. intros [?|?] ??; [by left|right; lia]. Qed.

Lemma apart_sym s t : apart s t → apart t s.
Proof. unfold apart. intros [?|?]; [by left|right; lia]. Qed.
End algebra.
