(* ===== verification/BigArith.v ===== *)
(** * math/big: arithmetic on vectors of words

    The functions of math/big/arith.go, which read and write slices in memory, on
    a 64-bit machine. *)

From Stdlib Require Import String.
From S2P Require Import Prelude Bytealg Bits BigHeap.

Definition _W : Z := UintSize.
Definition _B : Z := Z.shiftl 1 _W.
Definition _M : Z := _B - 1.

(** ** One and two words *)

Definition mulWW (x y : Z) : Z * Z := let '(hi, lo) := Mul x y in (hi, lo).

Definition mulAddWWW_g (x y c : Z) : Z * Z :=
  let '(hi, lo) := Mul x y in
  let '(lo, cc) := Add lo c 0 in (u64 (hi + cc), lo).

Definition nlz (x : Z) : res Z := LeadingZeros x.

Definition divWW (x1 x0 y m : Z) : res (Z * Z) :=
  s ← nlz y;
  let '(x1, x0, y) :=
    if negb (s =? 0) then
      (Z.lor (u64 (Z.shiftl x1 s)) (Z.shiftr x0 (_W - s)), u64 (Z.shiftl x0 s), u64 (Z.shiftl y s))
    else (x1, x0, y) in
  let d := y in
  let '(t1, t0) := Mul m x1 in
  let '(_, c) := Add t0 x0 0 in
  let '(t1, _) := Add t1 x1 c in
  let qq := t1 in
  let '(dq1, dq0) := Mul d qq in
  let '(r0, b) := Sub x0 dq0 0 in
  let '(r1, _) := Sub x1 dq1 b in
  let '(qq, r0) := if negb (r1 =? 0) then (u64 (qq + 1), u64 (r0 - d)) else (qq, r0) in
  let '(qq, r0) := if d <=? r0 then (u64 (qq + 1), u64 (r0 - d)) else (qq, r0) in
  mret (qq, Z.shiftr r0 s).

Definition reciprocalWord (d1 : Z) : res Z :=
  s ← nlz d1;
  let u := u64 (Z.shiftl d1 s) in
  let x1 := u64 (Z.lnot u) in
  let x0 := _M in
  '(rec, _) ← Div x1 x0 u;
  mret rec.

(** ** Vectors *)

Definition len_panic (name : string) {A} : res A := Panic (PanicMsg (str name)).
Definition same_len (z x : vec) : bool := vlen x =? vlen z.

Definition addVV_g (h : heap) (z x y : vec) : res (heap * Z) :=
  if negb (same_len z x) || negb (same_len z y) then len_panic "addVV len" else
  foldM (λ '(h, c) i,
    xi ← get h x i; yi ← get h y i;
    let '(zi, cc) := Add xi yi c in
    h ← put h z i zi; mret (h, cc)) (seqZ 0 (vlen z)) (h, 0).

Definition subVV_g (h : heap) (z x y : vec) : res (heap * Z) :=
  if negb (same_len z x) || negb (same_len z y) then len_panic "subVV len" else
  foldM (λ '(h, c) i,
    xi ← get h x i; yi ← get h y i;
    let '(zi, cc) := Sub xi yi c in
    h ← put h z i zi; mret (h, cc)) (seqZ 0 (vlen z)) (h, 0).

Definition mulAddVWW_g (h : heap) (z x : vec) (y r : Z) : res (heap * Z) :=
  if negb (same_len z x) then len_panic "mulAddVWW len" else
  foldM (λ '(h, c) i,
    xi ← get h x i;
    let '(c, zi) := mulAddWWW_g xi y c in
    h ← put h z i zi; mret (h, c)) (seqZ 0 (vlen z)) (h, r).

Definition addMulVVWW_g (h : heap) (z x y : vec) (m a : Z) : res (heap * Z) :=
  if negb (same_len z x) || negb (same_len z y) then len_panic "rshVU len" else
  foldM (λ '(h, c) i,
    yi ← get h y i; xi ← get h x i;
    let '(z1, z0) := mulAddWWW_g yi m xi in
    let '(lo, cc) := Add z0 c 0 in
    h ← put h z i lo; mret (h, u64 (cc + z1))) (seqZ 0 (vlen z)) (h, a).

(** [&z[0] != &x[0]] *)
Definition other_place (z x : vec) : bool := negb (bool_decide (arr z = arr x)) || negb (off z =? off x).

Definition copy_rest (h : heap) (z x : vec) (i : Z) : res heap :=
  if other_place z x then
    z' ← sub z i (vlen z); x' ← sub x i (vlen x); mret (copy h z' x')
  else mret h.

Definition addVW (h : heap) (z x : vec) (y : Z) : res (heap * Z) :=
  if negb (same_len z x) then len_panic "addVW len" else
  if vlen z =? 0 then mret (h, y) else
  x0 ← get h x 0;
  let '(zi, cc) := Add x0 y 0 in
  h ← put h z 0 zi;
  if cc =? 0 then h ← copy_rest h z x 1; mret (h, 0) else
  loop (fuel_of (vlen z)) (λ '(h, i),
    if i <? vlen z then
      xi ← get h x i;
      if negb (xi =? u64 (Z.lnot 0)) then
        h ← put h z i (u64 (xi + 1));
        h ← copy_rest h z x (i + 1); mret (inr (h, 0))
      else h ← put h z i 0; mret (inl (h, i + 1))
    else mret (inr (h, 1))) (h, 1).

Definition subVW (h : heap) (z x : vec) (y : Z) : res (heap * Z) :=
  if negb (same_len z x) then len_panic "subVW len" else
  if vlen z =? 0 then mret (h, y) else
  x0 ← get h x 0;
  let '(zi, cc) := Sub x0 y 0 in
  h ← put h z 0 zi;
  if cc =? 0 then h ← copy_rest h z x 1; mret (h, 0) else
  loop (fuel_of (vlen z)) (λ '(h, i),
    if i <? vlen z then
      xi ← get h x i;
      if negb (xi =? 0) then
        h ← put h z i (u64 (xi - 1));
        h ← copy_rest h z x (i + 1); mret (inr (h, 0))
      else h ← put h z i (u64 (Z.lnot 0)); mret (inl (h, i + 1))
    else mret (inr (h, 1))) (h, 1).

Definition lshVU_g (h : heap) (z x : vec) (s : Z) : res (heap * Z) :=
  if negb (same_len z x) then len_panic "lshVU len" else
  if s =? 0 then mret (copy h z x, 0) else
  if vlen z =? 0 then mret (h, 0) else
  let s := Z.land s (_W - 1) in
  let s' := Z.land (u64 (_W - s)) (_W - 1) in
  xn ← get h x (vlen z - 1);
  let c := Z.shiftr xn s' in
  h ← foldM (λ h i,
    xi ← get h x i; xp ← get h x (i - 1);
    put h z i (Z.lor (u64 (Z.shiftl xi s)) (Z.shiftr xp s'))) (reverse (seqZ 1 (vlen z - 1))) h;
  x0 ← get h x 0;
  h ← put h z 0 (u64 (Z.shiftl x0 s));
  mret (h, c).

Definition rshVU_g (h : heap) (z x : vec) (s : Z) : res (heap * Z) :=
  if negb (same_len z x) then len_panic "rshVU len" else
  if s =? 0 then mret (copy h z x, 0) else
  if vlen z =? 0 then mret (h, 0) else
  let s := Z.land s (_W - 1) in
  let s' := Z.land (u64 (_W - s)) (_W - 1) in
  x0 ← get h x 0;
  let c := u64 (Z.shiftl x0 s') in
  h ← foldM (λ h i,
    xp ← get h x (i - 1); xi ← get h x i;
    put h z (i - 1) (Z.lor (Z.shiftr xp s) (u64 (Z.shiftl xi s')))) (seqZ 1 (vlen z - 1)) h;
  xn ← get h x (vlen z - 1);
  h ← put h z (vlen z - 1) (Z.shiftr xn s);
  mret (h, c).

(** arith_decl_pure.go: the assembly versions are other implementations of these. *)
Definition addVV := addVV_g.
Definition subVV := subVV_g.
Definition lshVU := lshVU_g.
Definition rshVU := rshVU_g.
Definition mulAddVWW := mulAddVWW_g.
Definition addMulVVWW := addMulVVWW_g.
