(* ===== verification/BigWords.v ===== *)
(** * math/big: one and two words

    What the functions of math/big/arith.go on single words compute: sums, products
    and differences with their carries, and the division of two words by one
    with a precomputed reciprocal. *)

From S2P Require Import Prelude Bits BitsProps BigHeap BigArith.

Abbreviation word := (is_uint 64).

Lemma B_eq : _B = 2 ^ 64.
Proof. reflexivity. Qed.

Lemma B_big : 2 < _B.
Proof. rewrite B_eq. lia. Qed.

Lemma word_B x : word x ↔ 0 ≤ x < _B.
Proof. by rewrite B_eq. Qed.

Ltac words := rewrite ?word_B in *; pose proof B_big.

Lemma Add_word x y c : word x → word y → 0 ≤ c ≤ 1 →
  ∃ z cc, Add x y c = (z, cc) ∧ word z ∧ 0 ≤ cc ≤ 1 ∧ z + _B * cc = x + y + c.
Proof.
  intros Hx Hy Hc. destruct (proj1 (arith_spec x y c ltac:(lia)) Hx Hy) as (E1 & E2 & E3 & E4 & E5 & E6).
  rewrite E4, E1. do 2 eexists. split; [reflexivity|]. clear E1 E2 E3 E4 E5 E6. rewrite B_eq.
  pose proof (Z.div_mod (x + y + c) (2 ^ 64) ltac:(lia)).
  pose proof (Z.mod_pos_bound (x + y + c) (2 ^ 64) ltac:(lia)).
  unfold is_uint in *. pow2_consts. split_and!; lia.
Qed.

Lemma Sub_word x y c : word x → word y → 0 ≤ c ≤ 1 →
  ∃ z cc, Sub x y c = (z, cc) ∧ word z ∧ 0 ≤ cc ≤ 1 ∧ z - _B * cc = x - y - c.
Proof.
  intros Hx Hy Hc. destruct (proj1 (arith_spec x y c ltac:(lia)) Hx Hy) as (E1 & E2 & E3 & E4 & E5 & E6).
  rewrite E5, E2. do 2 eexists. split; [reflexivity|]. clear E1 E2 E3 E4 E5 E6. rewrite B_eq.
  pose proof (Z.div_mod (x - y - c) (2 ^ 64) ltac:(lia)).
  pose proof (Z.mod_pos_bound (x - y - c) (2 ^ 64) ltac:(lia)).
  unfold is_uint in *. pow2_consts. zcases; split_and!; lia.
Qed.

Lemma Mul_word x y : word x → word y →
  ∃ hi lo, Mul x y = (hi, lo) ∧ word hi ∧ word lo ∧ hi * _B + lo = x * y.
Proof.
  intros Hx Hy. destruct (proj1 (arith_spec x y 0 ltac:(lia)) Hx Hy) as (E1 & E2 & E3 & E4 & E5 & E6).
  rewrite E6, E3. do 2 eexists. split; [reflexivity|]. clear E1 E2 E3 E4 E5 E6. rewrite <-B_eq in *. words.
  pose proof (Z.div_mod (x * y) _B ltac:(lia)). pose proof (Z.mod_pos_bound (x * y) _B ltac:(lia)).
  split_and!; try lia; [apply Z.div_pos; nia|]. apply Z.div_lt_upper_bound; nia.
Qed.

(** [x*y + c] fits in two words. *)
Lemma mulAddWWW_word x y c : word x → word y → word c →
  ∃ hi lo, mulAddWWW_g x y c = (hi, lo) ∧ word hi ∧ word lo ∧ hi * _B + lo = x * y + c.
Proof.
  intros Hx Hy Hc. unfold mulAddWWW_g.
  destruct (Mul_word x y Hx Hy) as (hi & lo & -> & Hhi & Hlo & E).
  destruct (Add_word lo c 0 Hlo Hc ltac:(lia)) as (lo' & cc & -> & Hlo' & Hcc & E').
  assert (0 ≤ hi + cc < _B) as Hs.
  { words. assert (x * y ≤ (_B - 1) * (_B - 1)) by nia. nia. }
  exists (hi + cc), lo'. rewrite uwrap_small by (by apply word_B).
  split_and!; [done|by apply word_B|done|lia].
Qed.

Lemma nlz_word y : word y → nlz y = Ok (64 - bit_len y).
Proof.
  intros Hy. unfold nlz, LeadingZeros, Len, UintSize. simpl (64 =? 32). cbv iota.
  by rewrite uwrap_small, Len64_spec by done.
Qed.

(** The normalized divisor. *)
Lemma nlz_normal y : word y → y ≠ 0 →
  let s := 64 - bit_len y in 0 ≤ s < 64 ∧ 0 < 2 ^ s ∧ _B ≤ 2 * (y * 2 ^ s) ∧ y * 2 ^ s < _B.
Proof.
  intros Hy H0 s. pose proof (proj1 (word_B y) Hy). pose proof (bit_len_bounds y ltac:(lia)) as Hb.
  pose proof (bit_len_le y 64 Hy ltac:(lia)). assert (1 ≤ bit_len y).
  { unfold bit_len. pose proof (Z.log2_nonneg y). zcases; lia. }
  assert (0 < 2 ^ s) by (apply Z.pow_pos_nonneg; lia).
  assert (_B = 2 * (2 ^ (bit_len y - 1) * 2 ^ s)) as E1.
  { rewrite <-Z.pow_add_r, <-Z.pow_succ_r by lia. rewrite B_eq. f_equal. lia. }
  assert (_B = 2 ^ bit_len y * 2 ^ s) as E2.
  { rewrite <-Z.pow_add_r by lia. rewrite B_eq. f_equal. lia. }
  split_and!; nia.
Qed.

(** The reciprocal of the normalized divisor. *)
Definition recip (y : Z) : Z := (_B * _B - 1) / (y * 2 ^ (64 - bit_len y)) - _B.

Lemma reciprocalWord_ok y : word y → y ≠ 0 → reciprocalWord y = Ok (recip y).
Proof.
  intros Hy H0. pose proof (nlz_normal y Hy H0) as (H1 & H2 & H3 & H4).
  unfold reciprocalWord, recip. rewrite nlz_word by done. cbn [mbind res_bind].
  set (s := 64 - bit_len y) in *. rewrite Z.shiftl_mul_pow2 by lia.
  words. rewrite (uwrap_small 64 (y * 2 ^ s)) by (apply word_B; nia).
  set (u := y * 2 ^ s) in *.
  assert (u64 (Z.lnot u) = _B - 1 - u) as ->.
  { unfold Z.lnot, uwrap. rewrite <-B_eq. symmetry. apply (Z.mod_unique_pos _ _ (-1)); lia. }
  unfold Div, UintSize. simpl (64 =? 32). cbv iota. rewrite !uwrap_small by (apply word_B; unfold _M; lia).
  rewrite Div64_ok; [|apply word_B; unfold _M; lia..|lia].
  cbn [mbind res_bind]. do 2 f_equal. rewrite <-B_eq. unfold _M.
  replace ((_B - 1 - u) * _B + (_B - 1)) with (_B * _B - 1 + (- _B) * u) by ring.
  rewrite Z.div_add by lia. lia.
Qed.

(** The quotient by a multiplication with the reciprocal is too small by two at
    most. *)
Lemma reciprocal_quotient B d x1 x0 m : 0 < B → B ≤ 2 * d → d < B → 0 ≤ x1 < d → 0 ≤ x0 < B →
  m = (B * B - 1) / d - B →
  let X := x1 * B + x0 in let q := (x1 * m + x1 * B + x0) / B in
  0 ≤ X - d * q < B + d.
Proof.
  intros HB Hd1 Hd2 Hx1 Hx0 Hm X q.
  pose proof (Z.div_mod (B * B - 1) d ltac:(lia)) as E1.
  pose proof (Z.mod_pos_bound (B * B - 1) d ltac:(lia)) as M1.
  pose proof (Z.div_mod (x1 * m + x1 * B + x0) B ltac:(lia)) as E2.
  pose proof (Z.mod_pos_bound (x1 * m + x1 * B + x0) B ltac:(lia)) as M2.
  fold q in E2. set (e := (B * B - 1) mod d) in *. set (f := (x1 * m + x1 * B + x0) mod B) in *.
  replace ((B * B - 1) / d) with (m + B) in E1 by lia.
  assert (B * (d * q) = x1 * (B * B - 1 - e) + d * x0 - d * f) as E3.
  { replace (B * B - 1 - e) with (d * (m + B)) by lia.
    replace (B * (d * q)) with (d * (x1 * m + x1 * B + x0 - f)) by (rewrite E2; ring). ring. }
  assert (B * (X - d * q) = x1 * (1 + e) + x0 * (B - d) + d * f) as E4.
  { rewrite Z.mul_sub_distr_l, E3. unfold X. ring. }
  assert (0 ≤ x1 * (1 + e) ≤ (d - 1) * d) by nia.
  assert (0 ≤ x0 * (B - d) ≤ (B - 1) * (B - d)) by nia.
  assert (0 ≤ d * f ≤ d * (B - 1)) by nia.
  split; nia.
Qed.

Lemma divWW_shift x1 x0 y s : word x1 → word x0 → 0 ≤ s < 64 → x1 < y → y * 2 ^ s < _B →
  let '(x1', x0', y') :=
    if negb (s =? 0) then
      (Z.lor (u64 (Z.shiftl x1 s)) (Z.shiftr x0 (_W - s)), u64 (Z.shiftl x0 s), u64 (Z.shiftl y s))
    else (x1, x0, y) in
  0 ≤ x1' < y' ∧ word x0' ∧ y' = y * 2 ^ s ∧ x1' * _B + x0' = (x1 * _B + x0) * 2 ^ s.
Proof.
  intros Hx1 Hx0 Hs Hlt Hy. destruct (Z.eqb_spec s 0) as [->|Hs0]; simpl negb; cbv iota.
  { rewrite Z.pow_0_r. words. split_and!; try lia. }
  unfold _W, UintSize. assert (0 < 2 ^ s) by (apply Z.pow_pos_nonneg; lia).
  rewrite lor_shiftl_shiftr; [|lia|done|words; rewrite <-B_eq; nia|words; lia].
  rewrite !Z.shiftl_mul_pow2 by lia.
  rewrite (uwrap_small 64 (y * 2 ^ s)) by (words; nia).
  assert (_B = 2 ^ (64 - s) * 2 ^ s) as E.
  { rewrite B_eq, <-Z.pow_add_r by lia. f_equal. lia. }
  assert (x0 / 2 ^ (64 - s) = x0 * 2 ^ s / _B) as ->.
  { rewrite E, Z.div_mul_cancel_r; [done| |lia]. apply Z.pow_nonzero; lia. }
  unfold uwrap. rewrite <-B_eq. words.
  pose proof (Z.div_mod (x0 * 2 ^ s) _B ltac:(lia)).
  pose proof (Z.mod_pos_bound (x0 * 2 ^ s) _B ltac:(lia)).
  split_and!; try lia; [|].
  - apply Z.add_nonneg_nonneg; [nia|]. apply Z.div_pos; nia.
  - assert (x0 * 2 ^ s / _B < 2 ^ s) by (apply Z.div_lt_upper_bound; nia). nia.
Qed.

(** The estimate and its corrections, for a normalized divisor. *)
Lemma divWW_core d x1 x0 m : word d → _B ≤ 2 * d → 0 ≤ x1 < d → word x0 →
  m = (_B * _B - 1) / d - _B →
  ∃ qq r0 : Z,
    (let '(t1, t0) := Mul m x1 in
     let '(_, c) := Add t0 x0 0 in
     let '(t1, _) := Add t1 x1 c in
     let qq := t1 in
     let '(dq1, dq0) := Mul d qq in
     let '(r0, b) := Sub x0 dq0 0 in
     let '(r1, _) := Sub x1 dq1 b in
     if negb (r1 =? 0) then (u64 (qq + 1), u64 (r0 - d)) else (qq, r0)) = (qq, r0) ∧
    word qq ∧ word r0 ∧ x1 * _B + x0 = d * qq + r0.
Proof.
  intros Hd HB Hx1 Hx0 Hm. pose proof Hd as Hd'. pose proof Hx0 as Hx0'. words.
  pose proof (reciprocal_quotient _B d x1 x0 m ltac:(lia) HB ltac:(lia) Hx1 Hx0' Hm) as Hq.
  cbv zeta in Hq. set (q := (x1 * m + x1 * _B + x0) / _B) in *.
  assert (x1 * _B + x0 < d * _B) as HX.
  { assert (x1 * _B ≤ (d - 1) * _B) by (apply Z.mul_le_mono_nonneg_r; lia). lia. }
  assert (0 ≤ m < _B) as Hmw.
  { rewrite Hm. split.
    - assert (_B ≤ (_B * _B - 1) / d); [apply Z.div_le_lower_bound; nia|lia].
    - assert ((_B * _B - 1) / d < 2 * _B); [apply Z.div_lt_upper_bound; nia|lia]. }
  destruct (Mul_word m x1) as (t1 & t0 & -> & Ht1 & Ht0 & E1); [by apply word_B|apply word_B; lia|].
  destruct (Add_word t0 x0 0 Ht0) as (z & c & -> & Hz & Hc & E2); [by apply word_B|lia|].
  destruct (Add_word t1 x1 c Ht1) as (qq & c' & -> & Hqq & Hc' & E3); [apply word_B; lia|lia|].
  words.
  assert (q = t1 + x1 + c) as Eq.
  { symmetry. apply (Z.div_unique_pos _ _ _ z); [lia|]. lia. }
  assert (0 ≤ q < _B) by (split; [lia|apply (Z.mul_lt_mono_pos_l d); lia]).
  assert (c' = 0 ∨ c' = 1) as [-> | ->] by lia; [|lia]. assert (qq = q) by lia. clearbody q. clear Eq. subst qq.
  cbv zeta.  destruct (Mul_word d q) as (dq1 & dq0 & -> & Hdq1 & Hdq0 & E4); [by apply word_B..|].
  destruct (Sub_word x0 dq0 0) as (r0 & b & -> & Hr0 & Hb & E5); [by apply word_B|done|lia|].
  destruct (Sub_word x1 dq1 b) as (r1 & b' & -> & Hr1 & Hb' & E6); [apply word_B; lia|done|lia|].
  words. assert (x1 * _B + x0 - d * q = r1 * _B + r0 - b' * _B * _B) as E by nia.
  assert (b' = 0 ∨ b' = 1) as [-> | ->] by lia.
  2: { exfalso. clear -E Hq Hr1 Hr0 H2. nia. }
  destruct (Z.eqb_spec r1 0) as [->|Hr]; simpl negb; cbv iota.
  - exists q, r0. split_and!; [done|apply word_B; lia..|lia].
  - assert (r1 = 1) as -> by (clear -E Hq Hr1 Hr0 Hr Hd'; nia).
    assert (d * (q + 1) ≤ x1 * _B + x0) by lia. assert (q + 1 < _B).
    { apply (Z.mul_lt_mono_pos_l d); lia. }
    exists (q + 1), (r0 + _B - d). split_and!; [|apply word_B; lia..|lia].
    f_equal; unfold uwrap; rewrite <-B_eq.
    + apply Z.mod_small. lia.
    + symmetry. apply (Z.mod_unique_pos _ _ (-1)); lia.
Qed.

(** [divWW] divides two words by one, given the reciprocal of the divisor. *)
Lemma divWW_ok x1 x0 y : word x0 → word y → 0 ≤ x1 < y →
  ∃ q r, divWW x1 x0 y (recip y) = Ok (q, r) ∧ word q ∧ 0 ≤ r < y ∧ x1 * _B + x0 = q * y + r.
Proof.
  intros Hx0 Hy Hx1. pose proof (nlz_normal y Hy ltac:(lia)) as (Hs & Hp & Hn1 & Hn2).
  unfold divWW. rewrite nlz_word by done. cbn [mbind res_bind]. unfold recip.
  set (s := 64 - bit_len y) in *.
  pose proof (divWW_shift x1 x0 y s) as Hsh.
  destruct (if negb (s =? 0) then _ else _) as [[x1' x0'] d]. 
  destruct Hsh as (H1 & H2 & -> & H3); [words; lia|done|done|lia|done|].
  set (d := y * 2 ^ s) in *. cbv zeta.
  assert (0 ≤ d < _B) as Hd by (pose proof B_big; lia).
  destruct (divWW_core d x1' x0' _ (proj2 (word_B d) Hd) ltac:(lia) H1 H2 eq_refl) as (q & r & E & Hq & Hr & Ed).
  revert E. cbv zeta. destruct (Mul _ x1') as [t1 t0], (Add t0 x0' 0) as [z c], (Add t1 x1' c) as [qq c'].
  destruct (Mul d qq) as [dq1 dq0], (Sub x0' dq0 0) as [s0 b], (Sub x1' dq1 b) as [s1 b'].
  intros ->. cbv iota.
  assert (∀ q r, word q → 0 ≤ r < d → x1' * _B + x0' = d * q + r →
    ∃ q' r', Ok (q, Z.shiftr r s) = Ok (q', r') ∧ word q' ∧ 0 ≤ r' < y ∧ x1 * _B + x0 = q' * y + r') as Hfin.
  { intros q1 r1 Hq1 Hr1 E. exists q1, ((x1 * _B + x0) - q1 * y).
    assert (r1 = ((x1 * _B + x0) - q1 * y) * 2 ^ s) as Er by (unfold d in E; nia).
    rewrite Er, Z.shiftr_div_pow2, Z.div_mul by lia. split_and!; try done; unfold d in *; nia. }
  words. destruct (Z.leb_spec d r).
  - assert (d * (q + 1) ≤ x1' * _B + x0') by nia. assert (0 ≤ q + 1 < _B) by nia.
    rewrite !uwrap_small by (words; lia). apply Hfin; [words; lia| |lia]. split; [lia|].
    nia.
  - apply Hfin; [by words|lia|done].
Qed.
