(* ===== verification/BigVec.v ===== *)
(** * math/big: vectors as numbers

    [val] is the number whose digits to the base [_B] a vector holds, the least
    first. The loops of math/big/arith.go write one vector while they read
    others that may overlap it: an upward loop may read a vector that starts no
    lower than the one it writes, a downward loop one that starts no higher. Each
    function writes only its first argument, and returns the carry that makes the
    value of the result exact. *)

From S2P Require Import Prelude BigHeap BigArith BigWords Bits.

(** * Vectors as numbers *)

(** ** Values *)

Fixpoint val (ws : list Z) : Z := match ws with [] => 0 | w :: l => w + _B * val l end.

Lemma Bpow_pos n : 0 ≤ n → 0 < _B ^ n.
Proof. intros. apply Z.pow_pos_nonneg; [pose proof B_big; lia|done]. Qed.

Lemma Bpow_S n : 0 ≤ n → _B ^ (1 + n) = _B * _B ^ n.
Proof. intros. rewrite Z.pow_add_r, Z.pow_1_r by lia. done. Qed.

Lemma val_app l l' : val (l ++ l') = val l + _B ^ len l * val l'.
Proof.
  induction l as [|w l IH]; simpl app; simpl val; [change (_B ^ len []) with 1; lia|].
  rewrite IH, len_cons, Bpow_S by apply len_nonneg. ring.
Qed.

Lemma val_range l : Forall word l → 0 ≤ val l < _B ^ len l.
Proof.
  induction 1 as [|w l Hw _ IH]; simpl; [change (_B ^ len []) with 1; lia|].
  rewrite len_cons, Bpow_S by apply len_nonneg. words. nia.
Qed.

Lemma val_snoc l w : val (l ++ [w]) = val l + _B ^ len l * w.
Proof. rewrite val_app. simpl. f_equal. ring. Qed.

Lemma val_zeros n : val (replicate n 0) = 0.
Proof. induction n as [|n IH]; simpl; lia. Qed.

(** A number of [n] digits has one representation. *)
Lemma val_inj l l' : Forall word l → Forall word l' → len l = len l' → val l = val l' → l = l'.
Proof.
  intros Hl. revert l'. induction Hl as [|w l Hw Hl IH]; intros [|w' l'] Hl' E; simpl_len; simpl; try done.
  - pose proof (len_nonneg l'). lia.
  - pose proof (len_nonneg l). lia.
  - intros Ev. apply Forall_cons in Hl' as [Hw' Hl']. words.
    assert (val l = val l') as Ed by nia. rewrite (IH l') by (done || lia). f_equal. lia.
Qed.

Lemma val_split l n : 0 ≤ n ≤ len l →
  val l = val (take (Z.to_nat n) l) + _B ^ n * val (drop (Z.to_nat n) l).
Proof.
  intros Hn. rewrite <-(take_drop (Z.to_nat n) l) at 1. rewrite val_app, len_take.
  do 3 f_equal. lia.
Qed.

Lemma val_take_S l i a : zget l i = Some a →
  val (take (Z.to_nat (i + 1)) l) = val (take (Z.to_nat i) l) + _B ^ i * a.
Proof.
  intros Ha. pose proof (zget_Some_range _ _ _ Ha). unfold zget in Ha. rewrite decide_True in Ha by lia.
  replace (Z.to_nat (i + 1)) with (S (Z.to_nat i)) by lia.
  rewrite (take_S_r _ _ _ Ha), val_snoc, len_take. do 3 f_equal. lia.
Qed.

(** ** Counting loops *)

Section counting.
Context {S : Type}.
Implicit Types (f : S → Z → res S) (I : Z → S → Prop).

Lemma wp_foldM_seqZ I f a n s : 0 ≤ n → I a s →
  (∀ i s, a ≤ i < a + n → I i s → wp (f s i) (I (i + 1))) →
  wp (foldM f (seqZ a n) s) (I (a + n)).
Proof.
  intros Hn. revert a s. pattern n. apply natlike_ind; [| |done]; clear n Hn.
  - intros a s H _. simpl. by rewrite Z.add_0_r.
  - intros n Hn IH a s H Hstep. rewrite seqZ_cons by lia. simpl. apply wp_bind.
    eapply wp_mono; [apply Hstep; [lia|done]|]. intros s' Hs'.
    replace (a + Z.succ n) with (Z.succ a + n) by lia. rewrite Z.pred_succ.
    apply IH; [by rewrite <-Z.add_1_r|]. intros i s2 Hi. apply Hstep. lia.
Qed.

Lemma wp_foldM_down I f a n s : 0 ≤ n → I (a + n) s →
  (∀ i s, a ≤ i < a + n → I (i + 1) s → wp (f s i) (I i)) →
  wp (foldM f (reverse (seqZ a n)) s) (I a).
Proof.
  intros Hn. revert s. pattern n. apply natlike_ind; [| |done]; clear n Hn.
  - intros s H _. simpl. by rewrite Z.add_0_r in H.
  - intros n Hn IH s H Hstep. rewrite <-Z.add_1_r, seqZ_app, reverse_app by lia.
    assert (seqZ (a + n) 1 = [a + n]) as -> by done. simpl. apply wp_bind.
    eapply wp_mono; [apply Hstep; [lia|]|].
    + replace (a + n + 1) with (a + Z.succ n) by lia. done.
    + intros s' Hs'. apply IH; [done|]. intros i s2 Hi. apply Hstep. lia.
Qed.
End counting.

(** ** Overlapping vectors *)

Definition up_ok (z x : vec) : Prop :=
  arr z ≠ arr x ∨ off z ≤ off x ∨ off x + vlen x ≤ off z.
Definition down_ok (z x : vec) : Prop :=
  arr z ≠ arr x ∨ off x ≤ off z ∨ off z + vlen z ≤ off x.

(** The heap while an upward loop writes [z], after [ws]; and a downward loop. *)
Definition upto (h : heap) (z : vec) (ws : list Z) : heap :=
  upd h z (ws ++ drop (length ws) (words h z)).
Definition downto (h : heap) (z : vec) (ws : list Z) : heap :=
  upd h z (take (Z.to_nat (vlen z - len ws)) (words h z) ++ ws).

Section overlap.
Context (h : heap) (z x : vec) (Hz : valid h z) (Hx : valid h x).
Implicit Types (ws : list Z) (i j v : Z).

Lemma len_upto ws : len ws ≤ vlen z → len (ws ++ drop (length ws) (words h z)) = vlen z.
Proof using Hz. intros Hl. rewrite len_app, len_drop, len_words by done. unfold len in *. lia. Qed.

Lemma len_downto ws : len ws ≤ vlen z →
  len (take (Z.to_nat (vlen z - len ws)) (words h z) ++ ws) = vlen z.
Proof using Hz.
  intros Hl. rewrite len_app, len_take, len_words by done. pose proof (len_nonneg ws). lia.
Qed.

Lemma valid_upto ws t : len ws ≤ vlen z → valid h t → valid (upto h z ws) t.
Proof using Hz. intros Hl Ht. apply valid_upd; [done|by apply len_upto|done]. Qed.

Lemma valid_downto ws t : len ws ≤ vlen z → valid h t → valid (downto h z ws) t.
Proof using Hz. intros Hl Ht. apply valid_upd; [done|by apply len_downto|done]. Qed.

Lemma get_upto ws j : up_ok z x → len ws ≤ j < vlen x → len ws ≤ vlen z →
  get (upto h z ws) x j = get h x j.
Proof using Hz Hx.
  intros Ho Hj Hl. pose proof (len_nonneg ws). pose proof (va_off _ _ Hx). unfold get.
  rewrite !decide_True by lia. unfold idx, upto. rewrite zget_upd by (done || lia || by apply len_upto).
  case_decide as Hd; [|done]. destruct Hd as [Ea Hd]. destruct Ho as [Ho|Ho]; [congruence|].
  rewrite zget_app_r, zget_drop by lia. rewrite zget_words by (done || (unfold len in *; lia)).
  rewrite Ea. by replace (off z + _) with (off x + j) by (unfold len; lia).
Qed.

Lemma get_downto ws j : down_ok z x → 0 ≤ j < vlen z - len ws → j < vlen x →
  get (downto h z ws) x j = get h x j.
Proof using Hz Hx.
  intros Ho Hj Hl. pose proof (len_nonneg ws). pose proof (va_off _ _ Hx). unfold get.
  rewrite !decide_True by lia. unfold idx, downto.
  rewrite zget_upd by (done || lia || (apply len_downto; lia)).
  case_decide as Hd; [|done]. destruct Hd as [Ea Hd]. destruct Ho as [Ho|Ho]; [congruence|].
  rewrite zget_app_l by (rewrite len_take, len_words by done; lia). rewrite zget_take by lia.
  rewrite zget_words by (done || lia). rewrite Ea. by replace (off z + _) with (off x + j) by lia.
Qed.

Lemma put_upto ws v : len ws < vlen z → put (upto h z ws) z (len ws) v = Ok (upto h z (ws ++ [v])).
Proof using Hz.
  intros Hl. pose proof (len_nonneg ws). pose proof (len_upto ws ltac:(lia)) as Hu.
  rewrite put_upd by (lia || (apply valid_upto; [lia|done])). f_equal. unfold upto.
  rewrite words_upd_eq, upd_upd by (done || by rewrite len_zset). f_equal.
  rewrite length_app. simpl length. assert (len [v] = 1) as Hv by done. apply zget_ext.
  - rewrite len_zset, Hu. rewrite !len_app, len_drop, len_words by done. unfold len in *; simpl; lia.
  - intros i Hi. rewrite zget_zset by lia. rewrite len_zset in Hi.
    destruct (decide (i < len ws)); [rewrite decide_False by lia|].
    { by rewrite !zget_app_l by (rewrite ?len_app; lia). }
    case_decide; [subst i; rewrite <-app_assoc; cbn [app]; by rewrite zget_mid|].
    rewrite !(zget_app_r _ (drop _ _)), !zget_drop by (rewrite ?len_app; lia).
    f_equal. rewrite len_app, Hv. unfold len. lia.
Qed.

Lemma put_downto ws v : len ws < vlen z →
  put (downto h z ws) z (vlen z - len ws - 1) v = Ok (downto h z (v :: ws)).
Proof using Hz.
  intros Hl. pose proof (len_nonneg ws). pose proof (len_downto ws ltac:(lia)) as Hu.
  rewrite put_upd by (lia || (apply valid_downto; [lia|done])). f_equal. unfold downto.
  rewrite words_upd_eq, upd_upd by (done || by rewrite len_zset). f_equal.
  rewrite len_cons. set (k := vlen z - len ws - 1).
  replace (vlen z - (1 + len ws)) with k by lia.
  assert (len (take (Z.to_nat k) (words h z)) = k) as Hk by (rewrite len_take, len_words by done; lia).
  apply zget_ext; [rewrite len_zset, Hu, len_app, len_cons; lia|].
  intros i Hi. rewrite len_zset in Hi. rewrite zget_zset by lia. case_decide as Hd.
  { pose proof (zget_mid (take (Z.to_nat k) (words h z)) v ws) as E. rewrite Hk in E. by rewrite <-Hd, E. }
  destruct (decide (i < k)).
  - rewrite !zget_app_l by (rewrite ?len_take, ?len_words by done; lia).
    by rewrite !zget_take by lia.
  - rewrite !zget_app_r by (rewrite ?len_take, ?len_words by done; lia).
    rewrite zget_cons by lia. f_equal. rewrite !len_take, !len_words by done. lia.
Qed.
End overlap.

(** * What the loops over vectors compute *)

(** ** Reading what an upward loop has left *)

Lemma words_upto h z x ws i : valid h z → valid h x → len ws ≤ vlen z → up_ok z x →
  len ws ≤ i → i ≤ vlen x → words (upto h z ws) (part x i (vlen x)) = words h (part x i (vlen x)).
Proof.
  intros Hz Hx Hl Ho Hi Hi'. pose proof (valid_upto h z Hz ws x Hl Hx) as Hx'.
  pose proof (len_nonneg ws). pose proof (va_len _ _ Hx).
  rewrite !words_part by (done || lia). f_equal.
  apply zget_ext; rewrite !len_drop, !len_words by done; [done|]. intros k Hk.
  rewrite !zget_drop by lia. rewrite !zget_words by (done || lia).
  pose proof (get_upto h z x Hz Hx ws (Z.of_nat (Z.to_nat i) + k) Ho ltac:(lia) Hl) as E.
  unfold get in E. rewrite !decide_True in E by lia. unfold idx in E.
  destruct (zget (array (upto _ _ _) _) _), (zget (array h _) _); congruence.
Qed.

(** ** Loops with a carry *)

Section kernel.
(** One step computes a word and a carry, a linear function of its arguments. *)
Context (f : Z → Z → Z → Z * Z) (σ α β : Z) (C : Z → Prop).
Context (Hf : ∀ x y c, word x → word y → C c →
  let '(z, c') := f x y c in word z ∧ C c' ∧ z + σ * _B * c' = α * x + β * y + σ * c).

Definition linear (h : heap) (z x y : vec) (c : Z) (r : heap * Z) : Prop :=
  let '(h', c') := r in ∃ ws, h' = upd h z ws ∧ len ws = vlen z ∧ Forall word ws ∧ C c' ∧
    val ws + σ * _B ^ vlen z * c' = α * val (words h x) + β * val (words h y) + σ * c.

Lemma wp_kernel h z x y (body : heap * Z → Z → res (heap * Z)) c :
  valid h z → valid h x → valid h y → word_heap h → vlen x = vlen z → vlen y = vlen z →
  up_ok z x → up_ok z y → C c →
  (∀ h' i c xi yi, get h' x i = Ok xi → get h' y i = Ok yi →
    body (h', c) i = h' ← put h' z i (fst (f xi yi c)); mret (h', snd (f xi yi c))) →
  wp (foldM body (seqZ 0 (vlen z)) (h, c)) (linear h z x y c).
Proof using Hf.
  intros Hz Hx Hy Hw Lx Ly Ox Oy Hc Hbody. pose proof (va_len _ _ Hz).
  eapply wp_mono.
  { apply (wp_foldM_seqZ (λ i '(h', c'), ∃ ws, h' = upto h z ws ∧ len ws = i ∧ Forall word ws ∧ C c' ∧
      val ws + σ * _B ^ i * c' = α * val (take (Z.to_nat i) (words h x))
        + β * val (take (Z.to_nat i) (words h y)) + σ * c)); [lia| |].
    - exists []. split_and!; try done; [|simpl; lia]. symmetry. apply (upd_words h z Hz).
    - intros i [h' c'] Hi (ws & -> & Hl & Hws & Hc' & Hv). subst i.
      destruct (zget_lt (words h x) (len ws)) as [xi Hxi]; [rewrite len_words by done; lia|].
      destruct (zget_lt (words h y) (len ws)) as [yi Hyi]; [rewrite len_words by done; lia|].
      assert (get (upto h z ws) x (len ws) = Ok xi) as Gx.
      { rewrite get_upto, get_words by (done || lia). by apply idx_Ok. }
      assert (get (upto h z ws) y (len ws) = Ok yi) as Gy.
      { rewrite get_upto, get_words by (done || lia). by apply idx_Ok. }
      rewrite (Hbody _ _ _ _ _ Gx Gy).
      pose proof (Hf xi yi c' (word_heap_get _ _ _ _ Hw Hxi) (word_heap_get _ _ _ _ Hw Hyi) Hc') as Hs.
      destruct (f xi yi c') as [zi cc]. destruct Hs as (Hzi & Hcc & E). simpl fst. simpl snd.
      rewrite put_upto by (done || lia). cbn. exists (ws ++ [zi]).
      split_and!; [done|by rewrite len_app|by apply Forall_app; auto|done|].
      rewrite val_snoc, (val_take_S _ _ _ Hxi), (val_take_S _ _ _ Hyi).
      rewrite (Z.add_comm (len ws) 1), Bpow_S by apply len_nonneg.
      transitivity ((val ws + σ * _B ^ len ws * c') + _B ^ len ws * (zi + σ * _B * cc - σ * c')); [ring|].
      rewrite Hv, E. ring. }
  rewrite Z.add_0_l. intros [h' c'] (ws & -> & Hl & Hws & Hc' & Hv). exists ws.
  split_and!; try done.
  - unfold upto. rewrite drop_ge, app_nil_r; [done|]. rewrite length_words by done. unfold len in Hl. lia.
  - by rewrite !take_ge in Hv by (rewrite length_words by done; lia).
Qed.
End kernel.

(** ** The vector operations *)

(** A vector that an upward loop over [z] may read. *)
Record operand (h : heap) (z x : vec) : Prop := {
  op_valid : valid h x;
  op_len : vlen x = vlen z;
  op_up : up_ok z x;
}.

Lemma same_len_ok h z x : operand h z x → same_len z x = true.
Proof. intros [_ H _]. unfold same_len. by rewrite H, Z.eqb_refl. Qed.

(** The outcome of an operation on vectors: only [z] is written, with words [ws]
    and a carry [c] that satisfy [P]. *)
Definition writes (h : heap) (z : vec) (r : res (heap * Z)) (P : list Z → Z → Prop) : Prop :=
  ∃ ws c, r = Ok (upd h z ws, c) ∧ len ws = vlen z ∧ Forall word ws ∧ P ws c.

Lemma writes_mono h z r (P Q : list Z → Z → Prop) :
  writes h z r P → (∀ ws c, P ws c → Q ws c) → writes h z r Q.
Proof. intros (ws & c & H1 & H2 & H3 & H4) H. exists ws, c. auto. Qed.

Lemma linear_writes h z x y (r : res (heap * Z)) σ α β C c (P : list Z → Z → Prop) :
  wp r (linear σ α β C h z x y c) →
  (∀ ws c', C c' → val ws + σ * _B ^ vlen z * c' = α * val (words h x) + β * val (words h y) + σ * c →
    P ws c') →
  writes h z r P.
Proof.
  intros ([h' c'] & -> & ws & -> & Hl & Hws & Hc & E)%wp_exists HP. exists ws, c'. eauto.
Qed.

Section ops.
Context (h : heap) (z x y : vec) (Hz : valid h z) (Hw : word_heap h).
Context (Hx : operand h z x) (Hy : operand h z y).

Lemma addVV_ok : writes h z (addVV h z x y) (λ ws c, 0 ≤ c ≤ 1 ∧
  val ws + _B ^ vlen z * c = val (words h x) + val (words h y)).
Proof using Hz Hw Hx Hy.
  unfold addVV, addVV_g. rewrite (same_len_ok h z x), (same_len_ok h z y) by done. simpl (negb _ || negb _).
  destruct Hx as [Vx Lx Ox], Hy as [Vy Ly Oy]. cbv iota.
  eapply (linear_writes h z x y _ 1 1 1 (λ c, 0 ≤ c ≤ 1) 0); [|intros ws c Hc E; lia].
  apply (wp_kernel (λ x y c, let '(zi, cc) := Add x y c in (zi, cc))); try (done || lia).
  - intros xi yi c Hxi Hyi Hc. destruct (Add_word xi yi c) as (zi & cc & -> & ? & ? & ?); auto with lia.
  - intros h' i c xi yi -> ->. cbn. by destruct (Add xi yi c).
Qed.

Lemma subVV_ok : writes h z (subVV h z x y) (λ ws c, 0 ≤ c ≤ 1 ∧
  val ws - _B ^ vlen z * c = val (words h x) - val (words h y)).
Proof using Hz Hw Hx Hy.
  unfold subVV, subVV_g. rewrite (same_len_ok h z x), (same_len_ok h z y) by done. simpl (negb _ || negb _).
  destruct Hx as [Vx Lx Ox], Hy as [Vy Ly Oy]. cbv iota.
  eapply (linear_writes h z x y _ (-1) 1 (-1) (λ c, 0 ≤ c ≤ 1) 0); [|intros ws c Hc E; lia].
  apply (wp_kernel (λ x y c, let '(zi, cc) := Sub x y c in (zi, cc))); try (done || lia).
  - intros xi yi c Hxi Hyi Hc. destruct (Sub_word xi yi c) as (zi & cc & -> & ? & ? & ?); auto with lia.
  - intros h' i c xi yi -> ->. cbn. by destruct (Sub xi yi c).
Qed.

Lemma mulAddVWW_ok m r : word m → word r → writes h z (mulAddVWW h z x m r) (λ ws c, word c ∧
  val ws + _B ^ vlen z * c = val (words h x) * m + r).
Proof using Hz Hw Hx.
  intros Hm Hr. unfold mulAddVWW, mulAddVWW_g. rewrite (same_len_ok h z x) by done. simpl (negb _).
  destruct Hx as [Vx Lx Ox]. cbv iota.
  eapply (linear_writes h z x x _ 1 m 0 word r); [|intros ws c Hc E; split; [done|lia]].
  apply (wp_kernel (λ x y c, let '(c', zi) := mulAddWWW_g x m c in (zi, c'))); try (done || lia).
  - intros xi yi c Hxi Hyi Hc. destruct (mulAddWWW_word xi m c) as (hi & lo & -> & ? & ? & ?); auto with lia.
  - intros h' i c xi yi -> _. cbn. by destruct (mulAddWWW_g xi m c).
Qed.

Lemma addMulVVWW_ok m a : word m → word a → writes h z (addMulVVWW h z x y m a) (λ ws c, word c ∧
  val ws + _B ^ vlen z * c = val (words h x) + val (words h y) * m + a).
Proof using Hz Hw Hx Hy.
  intros Hm Ha. unfold addMulVVWW, addMulVVWW_g.
  rewrite (same_len_ok h z x), (same_len_ok h z y) by done. simpl (negb _ || negb _).
  destruct Hx as [Vx Lx Ox], Hy as [Vy Ly Oy]. cbv iota.
  eapply (linear_writes h z x y _ 1 1 m word a); [|intros ws c Hc E; split; [done|lia]].
  apply (wp_kernel (λ x y c, let '(z1, z0) := mulAddWWW_g y m x in
    let '(lo, cc) := Add z0 c 0 in (lo, u64 (cc + z1)))); try (done || lia).
  - intros xi yi c Hxi Hyi Hc.
    destruct (mulAddWWW_word yi m xi) as (z1 & z0 & -> & H1 & H0 & E); [done..|].
    destruct (Add_word z0 c 0) as (lo & cc & -> & Hlo & Hcc & E'); [done|done|lia|].
    assert (0 ≤ cc + z1 < _B).
    { words. assert (yi * m ≤ (_B - 1) * (_B - 1)) by nia. nia. }
    rewrite uwrap_small by (by apply word_B). split_and!; [done|by apply word_B|lia].
  - intros h' i c xi yi -> ->. cbn. destruct (mulAddWWW_g yi m xi) as [z1 z0]. by destruct (Add z0 c 0).
Qed.
End ops.

(** ** Adding and subtracting one word *)

Section one_word.
Context (h : heap) (z x : vec) (Hz : valid h z) (Hw : word_heap h) (Hx : operand h z x).

Lemma words_same_place : other_place z x = false → words h z = words h x.
Proof using Hz Hx.
  unfold other_place. intros [Ha%negb_false_iff%bool_decide_eq_true Ho%negb_false_iff]%orb_false_iff.
  apply Z.eqb_eq in Ho. unfold words. by rewrite (op_len _ _ _ Hx), Ha, Ho.
Qed.

Lemma copy_rest_ok ws : len ws ≤ vlen z →
  copy_rest (upto h z ws) z x (len ws) = Ok (upd h z (ws ++ drop (length ws) (words h x))).
Proof using Hz Hx.
  intros Hl. destruct Hx as [Vx Lx Ox]. pose proof (len_nonneg ws). unfold copy_rest.
  destruct (other_place z x) eqn:Ep; [|by rewrite <-words_same_place].
  pose proof (va_len _ _ Hz). pose proof (va_len _ _ Vx).
  rewrite !sub_part by lia. cbn [mbind res_bind mret res_ret]. f_equal.
  pose proof (valid_upto h z Hz ws z Hl Hz) as Vz'. pose proof (valid_upto h z Hz ws x Hl Vx) as Vx'.
  rewrite words_copy by (try apply valid_part; simpl; done || lia).
  rewrite words_upto by (done || lia). simpl vlen.
  rewrite words_part by (done || lia). rewrite Lx.
  set (d := drop _ (words h x)).
  assert (len d = vlen z - len ws) as Hd by (unfold d; rewrite len_drop, len_words by done; lia).
  rewrite !(take_ge d) by (unfold len in *; lia).
  assert (Z.to_nat (len ws) = length ws) as Hn by (unfold len; lia).
  rewrite upd_part by (done || lia). unfold upto at 1.
  rewrite upd_upd; [|done|by apply len_upto|].
  2: { rewrite len_splice by (rewrite ?len_words by done; lia). by apply len_words. }
  f_equal. unfold upto. rewrite words_upd_eq by (done || by apply len_upto).
  unfold splice, d. rewrite Hn, take_app_length. f_equal.
  rewrite (drop_ge (ws ++ _)); [by rewrite app_nil_r|].
  rewrite length_app, length_drop, length_words, length_drop, length_words by done. unfold len in *. lia.
Qed.

(** The loop that looks for the word where the carry stops. *)
Definition carry_body (σ lim fil : Z) : heap * Z → res (heap * Z + heap * Z) := λ '(h, i),
  if i <? vlen z then
    xi ← get h x i;
    if negb (xi =? lim) then
      h ← put h z i (u64 (xi + σ));
      h ← copy_rest h z x (i + 1); mret (inr (h, 0))
    else h ← put h z i fil; mret (inl (h, i + 1))
  else mret (inr (h, 1)).

Lemma carry_loop σ lim fil c0 ws : (σ = 1 ∨ σ = -1) → word fil → fil + σ * _B = lim + σ →
  (∀ v, word v → v ≠ lim → word (v + σ)) → 1 ≤ len ws ≤ vlen z → Forall word ws →
  val ws + σ * _B ^ len ws = val (take (length ws) (words h x)) + σ * c0 →
  writes h z (loop (fuel_of (vlen z)) (carry_body σ lim fil) (upto h z ws, len ws)) (λ ws c,
    0 ≤ c ≤ 1 ∧ val ws + σ * _B ^ vlen z * c = val (words h x) + σ * c0).
Proof using Hz Hw Hx.
  intros Hσ Hfil Hlim Hstop Hl Hws Hv.
  set (good := λ r : heap * Z, ∃ ws c, r = (upd h z ws, c) ∧ len ws = vlen z ∧ Forall word ws ∧
    0 ≤ c ≤ 1 ∧ val ws + σ * _B ^ vlen z * c = val (words h x) + σ * c0).
  enough (wp (loop (fuel_of (vlen z)) (carry_body σ lim fil) (upto h z ws, len ws)) good) as H.
  { apply wp_exists in H as (r & -> & ws' & c & -> & H1 & H2 & H3). exists ws', c. done. }
  apply (wp_loop_measure (λ '(h', i) m, ∃ ws, h' = upto h z ws ∧ i = len ws ∧ m = vlen z - i ∧
    1 ≤ i ≤ vlen z ∧ Forall word ws ∧
    val ws + σ * _B ^ i = val (take (length ws) (words h x)) + σ * c0) _ _ _ (vlen z - len ws)).
  - exists ws. split_and!; done || lia.
  - intros [h' i] m (? & _ & _ & -> & ? & _). lia.
  - unfold fuel_of. lia.
  - clear ws Hl Hws Hv. intros [h' i] m (ws & -> & -> & -> & Hl & Hws & Hv). unfold carry_body.
    destruct (Z.ltb_spec (len ws) (vlen z)) as [Hlt|Hge].
    2: { cbn. exists ws, 1. assert (len ws = vlen z) as El by lia.
      assert (length ws = length (words h x)) as En.
      { destruct Hx as [Vx Lx Ox]. rewrite length_words, Lx by done. unfold len in El. lia. }
      split_and!; try done; try lia.
      - unfold upto. rewrite drop_ge, app_nil_r; [done|]. rewrite length_words by done. unfold len in El. lia.
      - rewrite <-El, Z.mul_1_r, Hv, take_ge by lia. done. }
    destruct Hx as [Vx Lx Ox].
    destruct (zget_lt (words h x) (len ws)) as [xi Hxi]; [rewrite len_words by done; lia|].
    rewrite get_upto, get_words by (done || lia). apply idx_in in Hxi as Hidx. rewrite Hidx. cbn [mbind res_bind].
    pose proof (word_heap_get _ _ _ _ Hw Hxi) as Wxi.
    rewrite !put_upto by (done || lia). cbn [mbind res_bind].
    pose proof (val_take_S _ _ _ Hxi) as Ht.
    replace (Z.to_nat (len ws + 1)) with (S (length ws)) in Ht by (unfold len; lia).
    replace (Z.to_nat (len ws)) with (length ws) in Ht by (unfold len; lia).
    assert (∀ w, length (ws ++ [w]) = S (length ws)) as Hlen by (intros; rewrite length_app; simpl; lia).
    destruct (Z.eqb_spec xi lim) as [->|Hne]; simpl negb; cbv iota.
    + cbn. exists (vlen z - (len ws + 1)). split; [|lia]. exists (ws ++ [fil]).
      rewrite Hlen, len_app. change (len [fil]) with 1.
      split_and!; try done; try lia; [by apply Forall_app; auto|].
      rewrite val_snoc, Ht, Z.add_comm, (Z.add_comm (len ws) 1), Bpow_S by lia.
      replace fil with (lim + σ - σ * _B) by lia. nia.
    + replace (len ws + 1) with (len (ws ++ [u64 (xi + σ)])) by (by rewrite len_app).
      rewrite copy_rest_ok by (rewrite len_app; change (len [_]) with 1; lia). cbn. 
      rewrite uwrap_small by auto. rewrite Hlen.
      exists ((ws ++ [xi + σ]) ++ drop (S (length ws)) (words h x)), 0. split_and!; try lia; [done|..].
      * rewrite !len_app, len_drop, len_words by done. change (len [_]) with 1. unfold len in *. lia.
      * apply Forall_app. split; [apply Forall_app; auto|]. apply Forall_drop. by apply word_heap_words.
      * rewrite (val_split (words h x) (1 + len ws)) by (rewrite len_words by done; lia).
        replace (Z.to_nat (1 + len ws)) with (S (length ws)) by (unfold len; lia).
        rewrite Ht, val_app, val_snoc, len_app. change (len [_]) with 1. rewrite (Z.add_comm (len ws) 1). nia.
Qed.

(** The first word, and then the others: the sum is [x + σ*y]. *)
Lemma carry_first σ lim fil y z0 cc : (σ = 1 ∨ σ = -1) → word fil → fil + σ * _B = lim + σ →
  (∀ v, word v → v ≠ lim → word (v + σ)) → 0 < vlen z → word z0 → 0 ≤ cc ≤ 1 →
  (∀ x0, zget (words h x) 0 = Some x0 → z0 + σ * _B * cc = x0 + σ * y) →
  writes h z
    (h ← put h z 0 z0;
     if cc =? 0 then h ← copy_rest h z x 1; mret (h, 0) else
     loop (fuel_of (vlen z)) (carry_body σ lim fil) (h, 1)) (λ ws c,
    0 ≤ c ≤ 1 ∧ val ws + σ * _B ^ vlen z * c = val (words h x) + σ * y).
Proof using Hz Hw Hx.
  intros Hσ Hfil Hlim Hstop Hl Hz0 Hcc Hsum. pose proof (put_upto h z Hz [] z0 ltac:(done)) as Hput.
  unfold upto in Hput at 1. simpl app in Hput. simpl length in Hput. rewrite drop_0, upd_words in Hput by done.
  change (len []) with 0 in Hput. rewrite Hput. cbn [mbind res_bind]. clear Hput.
  destruct (zget_lt (words h x) 0) as [x0 Hx0].
  { destruct Hx as [Vx Lx Ox]. rewrite len_words by done. lia. }
  specialize (Hsum x0 Hx0). pose proof (val_take_S _ _ _ Hx0) as Ht.
  change (Z.to_nat (0 + 1)) with 1%nat in Ht. rewrite Z.pow_0_r in Ht. simpl in Ht.
  destruct (Z.eqb_spec cc 0) as [->|Hc].
  - pose proof (copy_rest_ok [z0]) as Hcopy. change (len [z0]) with 1 in Hcopy.
    cbn [app]. rewrite Hcopy by lia. cbn.
    eexists (z0 :: drop 1 (words h x)), 0. split_and!; [done|..].
    + destruct Hx as [Vx Lx Ox]. rewrite len_cons, len_drop, len_words by done. lia.
    + constructor; [done|]. apply Forall_drop. by apply word_heap_words.
    + lia.
    + lia.
    + rewrite (val_split (words h x) 1); [change (Z.to_nat 1) with 1%nat; rewrite Z.pow_1_r; simpl; lia|].
      destruct Hx as [Vx Lx Ox]. rewrite len_words by done. lia.
  - apply (carry_loop σ lim fil y [z0]); try done; [change (len [z0]) with 1; lia|auto|].
    assert (cc = 1) as -> by lia. simpl val. change (len [z0]) with 1. simpl length. lia.
Qed.

Lemma words_nil s : valid h s → vlen s = 0 → words h s = [].
Proof using. intros Hs Hl. apply len_0_nil. by rewrite len_words. Qed.

Lemma empty_vw y : vlen z = 0 → word y → writes h z (Ok (h, y)) (λ ws c,
  word c ∧ (0 < vlen z → c ≤ 1) ∧ ∀ σ, val ws + σ * _B ^ vlen z * c = val (words h x) + σ * y).
Proof using Hz Hw Hx.
  intros H0 Hy. destruct Hx as [Vx Lx Ox]. exists [], y. rewrite H0, (words_nil x) by (done || lia).
  split_and!; try done; [|intros σ; rewrite Z.pow_0_r; simpl; lia].
  rewrite <-(words_nil z), upd_words by done. done.
Qed.

Lemma addVW_ok y : word y → writes h z (addVW h z x y) (λ ws c,
  word c ∧ (0 < vlen z → c ≤ 1) ∧ val ws + _B ^ vlen z * c = val (words h x) + y).
Proof using Hz Hw Hx.
  intros Hy. unfold addVW. rewrite (same_len_ok h z x Hx). simpl negb. cbv iota.
  pose proof (va_len _ _ Hz). destruct (Z.eqb_spec (vlen z) 0) as [H0|H0].
  { destruct (empty_vw y H0 Hy) as (ws & c & Hr & Hl & Hws & Hc & Hc1 & Hv). exists ws, c.
    specialize (Hv 1). split_and!; try done; lia. }
  destruct Hx as [Vx Lx Ox]. destruct (zget_lt (words h x) 0) as [x0 Hx0]; [rewrite len_words by done; lia|].
  rewrite get_words, (idx_in _ _ _ Hx0) by (done || lia). cbn [mbind res_bind].
  destruct (Add_word x0 y 0) as (z0 & cc & -> & Hz0 & Hcc & E); [by eapply word_heap_get|done|lia|].
  destruct (carry_first 1 (u64 (Z.lnot 0)) 0 y z0 cc) as (ws & c & Hr & Hl & Hws & Hc & Hv); try done; try lia.
  - intros v Hv Hne. words. change (u64 (Z.lnot 0)) with (_B - 1) in Hne. lia.
  - intros x0' Hx0'. assert (x0' = x0) as -> by congruence. lia.
  - exists ws, c. split_and!; try done; [words; lia|lia|lia].
Qed.

Lemma subVW_ok y : word y → writes h z (subVW h z x y) (λ ws c,
  word c ∧ (0 < vlen z → c ≤ 1) ∧ val ws - _B ^ vlen z * c = val (words h x) - y).
Proof using Hz Hw Hx.
  intros Hy. unfold subVW. rewrite (same_len_ok h z x Hx). simpl negb. cbv iota.
  pose proof (va_len _ _ Hz). destruct (Z.eqb_spec (vlen z) 0) as [H0|H0].
  { destruct (empty_vw y H0 Hy) as (ws & c & Hr & Hl & Hws & Hc & Hc1 & Hv). exists ws, c.
    specialize (Hv (-1)). split_and!; try done; lia. }
  destruct Hx as [Vx Lx Ox]. destruct (zget_lt (words h x) 0) as [x0 Hx0]; [rewrite len_words by done; lia|].
  rewrite get_words, (idx_in _ _ _ Hx0) by (done || lia). cbn [mbind res_bind].
  destruct (Sub_word x0 y 0) as (z0 & cc & -> & Hz0 & Hcc & E); [by eapply word_heap_get|done|lia|].
  destruct (carry_first (-1) 0 (u64 (Z.lnot 0)) y z0 cc) as (ws & c & Hr & Hl & Hws & Hc & Hv); try done; try lia.
  - intros v Hv Hne. words. lia.
  - intros x0' Hx0'. assert (x0' = x0) as -> by congruence. lia.
  - exists ws, c. split_and!; try done; [words; lia|lia|lia].
Qed.
End one_word.

(** * Shifts of vectors *)

(** ** One word and its neighbour *)

Section shift_words.
Context (s : Z) (Hs : 0 < s < 64).

Lemma pow_split : _B = 2 ^ (64 - s) * 2 ^ s ∧ 0 < 2 ^ s ∧ 0 < 2 ^ (64 - s).
Proof using Hs.
  split_and!; [|apply Z.pow_pos_nonneg; lia..].
  rewrite B_eq, <-Z.pow_add_r by lia. f_equal. lia.
Qed.

Lemma shift_join a b : 0 ≤ a → word b →
  Z.lor (u64 (Z.shiftl a s)) (Z.shiftr b (64 - s)) = a * 2 ^ s - _B * (a / 2 ^ (64 - s)) + b / 2 ^ (64 - s) ∧
  word (a * 2 ^ s - _B * (a / 2 ^ (64 - s)) + b / 2 ^ (64 - s)).
Proof using Hs.
  intros Ha Hb. destruct pow_split as (E & P1 & P2). rewrite word_B in Hb.
  assert (a * 2 ^ s - _B * (a / 2 ^ (64 - s)) = (a mod 2 ^ (64 - s)) * 2 ^ s) as ->.
  { rewrite Zmod_eq_full by lia. rewrite E. ring. }
  rewrite Z.shiftl_mul_pow2, Z.shiftr_div_pow2 by lia. unfold uwrap. rewrite <-B_eq.
  assert ((a * 2 ^ s) mod _B = (a mod 2 ^ (64 - s)) * 2 ^ s) as ->.
  { rewrite E. apply Z.mul_mod_distr_r; lia. }
  pose proof (Z.mod_pos_bound a (2 ^ (64 - s)) P2).
  assert (0 ≤ b / 2 ^ (64 - s) < 2 ^ s) as Hd.
  { split; [apply Z.div_pos; lia|]. apply Z.div_lt_upper_bound; [lia|]. lia. }
  rewrite lor_disjoint_add by (lia || done). split; [done|]. rewrite word_B, E. nia.
Qed.

(** The same, seen from the lower word. *)
Lemma shift_join_r a b : word a → word b →
  Z.lor (Z.shiftr a s) (u64 (Z.shiftl b (64 - s))) = a / 2 ^ s + (b mod 2 ^ s) * 2 ^ (64 - s) ∧
  word (a / 2 ^ s + (b mod 2 ^ s) * 2 ^ (64 - s)).
Proof using Hs.
  intros Ha Hb. destruct pow_split as (E & P1 & P2). rewrite word_B in Ha.
  rewrite Z.lor_comm, Z.shiftl_mul_pow2, Z.shiftr_div_pow2 by lia. unfold uwrap. rewrite <-B_eq.
  assert ((b * 2 ^ (64 - s)) mod _B = (b mod 2 ^ s) * 2 ^ (64 - s)) as ->.
  { rewrite E, Z.mul_comm. rewrite Z.mul_mod_distr_l by lia. lia. }
  pose proof (Z.mod_pos_bound b (2 ^ s) P1).
  assert (0 ≤ a / 2 ^ s < 2 ^ (64 - s)) as Hd.
  { split; [apply Z.div_pos; lia|]. apply Z.div_lt_upper_bound; lia. }
  rewrite lor_disjoint_add by (lia || done). split; [lia|]. rewrite word_B, E. nia.
Qed.
End shift_words.

Lemma shift_amount s : 0 < s < 64 → Z.land s (_W - 1) = s ∧ Z.land (u64 (_W - s)) (_W - 1) = 64 - s.
Proof.
  intros Hs. change (_W - 1) with (2 ^ 6 - 1). change _W with 64.
  rewrite !land_mask by lia. rewrite uwrap_small by (unfold is_uint; lia).
  split; apply Z.mod_small; lia.
Qed.

Section shift_loops.
Context (h : heap) (z x : vec) (Hz : valid h z) (Hw : word_heap h).
Context (Vx : valid h x) (Lx : vlen x = vlen z).
Context (s : Z) (Hs : 0 < s < 64).

Lemma word_at i : 0 ≤ i < vlen z → ∃ v, zget (words h x) i = Some v ∧ word v.
Proof using Hw Vx Lx.
  intros Hi. destruct (zget_lt (words h x) i) as [v Hv]; [rewrite len_words by done; lia|].
  exists v. split; [done|by eapply word_heap_get].
Qed.

Lemma val_drop_S l i a : zget l i = Some a →
  val (drop (Z.to_nat i) l) = a + _B * val (drop (Z.to_nat (i + 1)) l).
Proof using.
  intros Ha. pose proof (zget_Some_range _ _ _ Ha). unfold zget in Ha. rewrite decide_True in Ha by lia.
  rewrite (drop_S _ _ _ Ha). replace (Z.to_nat (i + 1)) with (S (Z.to_nat i)) by lia. done.
Qed.

Lemma get_word h' i v : get h' x i = get h x i → zget (words h x) i = Some v → get h' x i = Ok v.
Proof using Vx.
  intros E Hv. rewrite E. pose proof (zget_Some_range _ _ _ Hv) as Hr. rewrite len_words in Hr by done.
  rewrite get_words by done. by apply idx_in.
Qed.

(** After the words above [i]: they hold the shifted words, with the bits that
    come from the word below. *)
Definition lsh_inv (c i : Z) (h' : heap) : Prop :=
  ∃ ws b, h' = downto h z ws ∧ len ws = vlen z - i ∧ Forall word ws ∧
    zget (words h x) (i - 1) = Some b ∧
    val ws + _B ^ len ws * c = 2 ^ s * val (drop (Z.to_nat i) (words h x)) + b / 2 ^ (64 - s).

Lemma lsh_loop c xn : 0 < vlen z → down_ok z x → zget (words h x) (vlen z - 1) = Some xn →
  c = xn / 2 ^ (64 - s) →
  wp (foldM (λ h i, xi ← get h x i; xp ← get h x (i - 1);
      put h z i (Z.lor (u64 (Z.shiftl xi s)) (Z.shiftr xp (64 - s)))) (reverse (seqZ 1 (vlen z - 1))) h)
    (lsh_inv c 1).
Proof using Hz Hw Vx Lx Hs.
  intros Hn Ho Hxn Hc. apply (wp_foldM_down (lsh_inv c)); [lia| |].
  - replace (1 + (vlen z - 1)) with (vlen z) by lia. exists [], xn.
    split_and!; try done; [|change (len []) with 0; lia|].
    + unfold downto. rewrite app_nil_r, take_ge; [by rewrite upd_words|].
      rewrite length_words by done. change (len []) with 0. lia.
    + rewrite drop_ge by (rewrite length_words by done; lia). change (len []) with 0.
      rewrite Z.pow_0_r. simpl val. lia.
  - intros i h' Hi (ws & b & -> & Hl & Hws & Hb & Hv). replace (i + 1 - 1) with i in Hb by lia.
    destruct (word_at (i - 1) ltac:(lia)) as (a & Ha & Wa).
    rewrite (get_word _ i b), (get_word _ (i - 1) a) by (done || (apply get_downto; (done || lia))).
    cbn [mbind res_bind]. destruct (shift_join s Hs b a) as [-> Wj].
    { pose proof (word_heap_get _ _ _ _ Hw Hb) as Wb. words. lia. }
    { done. }
    replace i with (vlen z - len ws - 1) at 1 by lia. rewrite put_downto by (done || lia). cbn [wp].
    eexists (_ :: ws), a. split_and!; [done|rewrite len_cons; lia|by constructor|done|].
    rewrite len_cons, Bpow_S by apply len_nonneg. simpl val.
    rewrite (val_drop_S _ _ _ Hb). nia.
Qed.

(** After the words below [i]. *)
Definition rsh_inv (r i : Z) (h' : heap) : Prop :=
  ∃ ws b, h' = upto h z ws ∧ len ws = i - 1 ∧ Forall word ws ∧ zget (words h x) (i - 1) = Some b ∧
    val ws * 2 ^ s + r = val (take (Z.to_nat (i - 1)) (words h x)) + _B ^ (i - 1) * (b mod 2 ^ s).

Lemma rsh_loop r x0 : 0 < vlen z → up_ok z x → zget (words h x) 0 = Some x0 → r = x0 mod 2 ^ s →
  wp (foldM (λ h i, xp ← get h x (i - 1); xi ← get h x i;
      put h z (i - 1) (Z.lor (Z.shiftr xp s) (u64 (Z.shiftl xi (64 - s))))) (seqZ 1 (vlen z - 1)) h)
    (rsh_inv r (vlen z)).
Proof using Hz Hw Vx Lx Hs.
  intros Hn Ho Hx0 Hr. replace (vlen z) with (1 + (vlen z - 1)) at 2 by lia.
  apply (wp_foldM_seqZ (rsh_inv r)); [lia| |].
  - exists [], x0. split_and!; try done; [symmetry; apply (upd_words h z Hz)|].
    simpl. rewrite Z.pow_0_r. lia.
  - intros i h' Hi (ws & b & -> & Hl & Hws & Hb & Hv).
    destruct (word_at i ltac:(lia)) as (a & Ha & Wa).
    pose proof (word_heap_get _ _ _ _ Hw Hb) as Wb.
    rewrite (get_word _ (i - 1) b), (get_word _ i a) by (done || (apply get_upto; (done || lia))).
    cbn [mbind res_bind]. destruct (shift_join_r s Hs b a) as [-> Wj]; [done..|].
    rewrite <-Hl, put_upto by (done || lia). cbn [wp].
    eexists (ws ++ [_]), a. replace (i + 1 - 1) with i by lia.
    split_and!; [done|rewrite len_app, Hl; change (len [_]) with 1; lia|by apply Forall_app; auto|done|].
    pose proof (val_take_S _ _ _ Hb) as Ht. replace (i - 1 + 1) with i in Ht by lia.
    rewrite val_snoc, Ht, Hl. replace (_B ^ i) with (_B * _B ^ (i - 1)).
    2: { rewrite <-Bpow_S by lia. f_equal. lia. }
    destruct (pow_split s Hs) as (E & P1 & P2). pose proof (Z.div_mod b (2 ^ s) ltac:(lia)) as Eb.
    transitivity ((val ws * 2 ^ s + r) + _B ^ (i - 1) * (2 ^ s * (b / 2 ^ s) + (2 ^ (64 - s) * 2 ^ s) * (a mod 2 ^ s))); [ring|].
    rewrite <-E, Hv. rewrite Eb at 3. ring.
Qed.

Lemma shl_word a : word a → u64 (Z.shiftl a s) = a * 2 ^ s - _B * (a / 2 ^ (64 - s)) ∧
  word (u64 (Z.shiftl a s)).
Proof using Hs.
  intros Ha. destruct (shift_join s Hs a 0) as [E W]; [unfold is_uint in Ha; lia|done|].
  rewrite Z.shiftr_0_l, Z.lor_0_r, Zdiv_0_l, Z.add_0_r in *. by rewrite E.
Qed.

Lemma shr_word a k : word a → 0 ≤ k → Z.shiftr a k = a / 2 ^ k ∧ word (a / 2 ^ k).
Proof using.
  intros Ha Hk. rewrite Z.shiftr_div_pow2 by done. split; [done|]. rewrite <-Z.shiftr_div_pow2 by done.
  by apply is_uint_shiftr.
Qed.

Lemma lsh_words : down_ok z x → writes h z (lshVU h z x s) (λ ws c, word c ∧
  val ws + _B ^ vlen z * c = val (words h x) * 2 ^ s).
Proof using Hz Hw Vx Lx Hs.
  intros Ho. unfold lshVU, lshVU_g. unfold same_len. rewrite Lx, Z.eqb_refl. simpl negb. cbv iota.
  rewrite (proj2 (Z.eqb_neq s 0)) by lia. pose proof (va_len _ _ Hz).
  destruct (Z.eqb_spec (vlen z) 0) as [H0|H0].
  { exists [], 0. rewrite (words_nil h x), H0 by (done || lia). split_and!; try done.
    by rewrite <-(words_nil h z), upd_words by done. }
  destruct (shift_amount s Hs) as [-> ->].
  destruct (word_at (vlen z - 1) ltac:(lia)) as (xn & Hxn & Wxn).
  rewrite (get_word h (vlen z - 1) xn) by done. cbn [mbind res_bind].
  destruct (shr_word xn (64 - s) Wxn ltac:(lia)) as [-> Wc]. set (c := xn / 2 ^ (64 - s)) in *.
  pose proof (lsh_loop c xn ltac:(lia) Ho Hxn eq_refl) as (h' & -> & ws & x0 & -> & Hl & Hws & Hx0 & Hv)%wp_exists.
  cbn [mbind res_bind]. simpl (1 - 1) in Hx0. pose proof (word_heap_get _ _ _ _ Hw Hx0) as Wx0.
  rewrite (get_word _ 0 x0) by (done || (apply get_downto; (done || lia))). cbn [mbind res_bind].
  destruct (shl_word x0 Wx0) as [E W]. replace 0 with (vlen z - len ws - 1) at 1 by lia.
  rewrite put_downto by (done || lia). cbn [mbind res_bind mret res_ret].
  eexists (_ :: ws), c. split_and!; [|rewrite len_cons; lia|by constructor|done|].
  - unfold downto. rewrite len_cons. replace (vlen z - (1 + len ws)) with 0 by lia. done.
  - simpl val. rewrite E. pose proof (val_drop_S _ _ _ Hx0) as Hd.
    change (val (words h x) = x0 + _B * val (drop (Z.to_nat 1) (words h x))) in Hd.
    replace (vlen z) with (1 + len ws) by lia. rewrite Bpow_S, Hd by apply len_nonneg.
    transitivity (x0 * 2 ^ s - _B * (x0 / 2 ^ (64 - s)) + _B * (val ws + _B ^ len ws * c)); [ring|].
    rewrite Hv. ring.
Qed.

Lemma shl_out a q : word a → u64 (Z.shiftl a (64 - s)) = (a + _B * q) mod 2 ^ s * 2 ^ (64 - s).
Proof using Hs.
  intros Ha. destruct (pow_split s Hs) as (E & P1 & P2). unfold uwrap. rewrite Z.shiftl_mul_pow2 by lia.
  change (2 ^ 64) with _B. rewrite E at 1. rewrite (Z.mul_comm (2 ^ (64 - s)) (2 ^ s)), Z.mul_mod_distr_r by lia.
  f_equal. rewrite E. replace (a + _ * q) with (a + 2 ^ (64 - s) * q * 2 ^ s) by ring. by rewrite Z.mod_add by lia.
Qed.

Lemma rsh_words : up_ok z x → writes h z (rshVU h z x s) (λ ws c,
  c = val (words h x) mod 2 ^ s * 2 ^ (64 - s) ∧ val ws = val (words h x) / 2 ^ s).
Proof using Hz Hw Vx Lx Hs.
  intros Ho. unfold rshVU, rshVU_g. unfold same_len. rewrite Lx, Z.eqb_refl. simpl negb. cbv iota.
  rewrite (proj2 (Z.eqb_neq s 0)) by lia. pose proof (va_len _ _ Hz).
  destruct (Z.eqb_spec (vlen z) 0) as [H0|H0].
  { exists [], 0. rewrite (words_nil h x) by (done || lia). split_and!; try done.
    by rewrite <-(words_nil h z), upd_words by done. }
  destruct (shift_amount s Hs) as [-> ->].
  destruct (word_at 0 ltac:(lia)) as (x0 & Hx0 & Wx0).
  rewrite (get_word h 0 x0) by done. cbn [mbind res_bind].
  pose proof (rsh_loop _ x0 ltac:(lia) Ho Hx0 eq_refl) as (h' & -> & ws & xn & -> & Hl & Hws & Hxn & Hv)%wp_exists.
  cbn [mbind res_bind]. pose proof (word_heap_get _ _ _ _ Hw Hxn) as Wxn.
  rewrite (get_word _ (vlen z - 1) xn) by (done || (apply get_upto; (done || lia))). cbn [mbind res_bind].
  destruct (shr_word xn s Wxn ltac:(lia)) as [-> W].
  rewrite <-Hl, put_upto by (done || lia). cbn [mbind res_bind mret res_ret].
  exists (ws ++ [xn / 2 ^ s]), (u64 (Z.shiftl x0 (64 - s))). split_and!; [|rewrite len_app, Hl; change (len [_]) with 1; lia|by apply Forall_app; auto|..].
  - unfold upto. rewrite drop_ge, app_nil_r; [done|]. rewrite length_app, length_words by done.
    simpl. unfold len in Hl. lia.
  - pose proof (val_drop_S _ _ _ Hx0) as Hd.
    change (val (words h x) = x0 + _B * val (drop (Z.to_nat 1) (words h x))) in Hd. rewrite Hd. by apply shl_out.
  - pose proof (val_take_S _ _ _ Hxn) as Ht. replace (vlen z - 1 + 1) with (vlen z) in Ht by lia.
    rewrite take_ge in Ht by (rewrite length_words by done; lia).
    destruct (pow_split s Hs) as (E & P1 & P2). pose proof (Z.div_mod xn (2 ^ s) ltac:(lia)) as Eb.
    rewrite val_snoc, Hl, Ht. apply (Z.div_unique_pos _ _ _ (x0 mod 2 ^ s)); [by apply Z.mod_pos_bound|].
    transitivity (val (take (Z.to_nat (vlen z - 1)) (words h x)) + _B ^ (vlen z - 1) * (2 ^ s * (xn / 2 ^ s) + xn mod 2 ^ s)); [by rewrite <-Eb|].
    lia.
Qed.
End shift_loops.

(** ** Shifts by any amount below the word size *)

Lemma shift_copy h z x : valid h z → valid h x → vlen x = vlen z → word_heap h →
  copy h z x = upd h z (words h x) ∧ len (words h x) = vlen z ∧ Forall word (words h x).
Proof.
  intros Hz Hx Hl Hw. split_and!; [|by rewrite len_words|by apply word_heap_words].
  rewrite words_copy by (done || lia). by rewrite take_ge by (rewrite length_words by done; lia).
Qed.

Lemma lshVU_ok h z x s : valid h z → word_heap h → valid h x → vlen x = vlen z → down_ok z x → 0 ≤ s < 64 →
  writes h z (lshVU h z x s) (λ ws c, word c ∧ val ws + _B ^ vlen z * c = val (words h x) * 2 ^ s).
Proof.
  intros Hz Hw Hx Hl Ho Hs. destruct (decide (s = 0)) as [->|]; [|apply lsh_words; (done || lia)].
  unfold lshVU, lshVU_g, same_len. rewrite Hl, Z.eqb_refl. simpl.
  destruct (shift_copy h z x Hz Hx Hl Hw) as (-> & E1 & E2). exists (words h x), 0. split_and!; try done. lia.
Qed.

Lemma rshVU_ok h z x s : valid h z → word_heap h → valid h x → vlen x = vlen z → up_ok z x → 0 ≤ s < 64 →
  writes h z (rshVU h z x s) (λ ws c, c = val (words h x) mod 2 ^ s * 2 ^ (64 - s) ∧ val ws = val (words h x) / 2 ^ s).
Proof.
  intros Hz Hw Hx Hl Ho Hs. destruct (decide (s = 0)) as [->|]; [|apply rsh_words; (done || lia)].
  unfold rshVU, rshVU_g, same_len. rewrite Hl, Z.eqb_refl. simpl.
  destruct (shift_copy h z x Hz Hx Hl Hw) as (-> & E1 & E2). exists (words h x), 0. split_and!; try done.
  - by rewrite Z.mod_1_r.
  - by rewrite Z.div_1_r.
Qed.
