(* ===== verification/BigNat.v ===== *)
(** * math/big: natural numbers

    The methods of [nat] in math/big/nat.go. A [nat] is a slice of words, the
    least significant first; a result has no leading zero words. A method may
    reuse the memory of its receiver [z], which may share it with an operand. *)

From Stdlib Require Import String.
From S2P Require Import Prelude Bytealg Bits BigHeap BigArith.

(** [panic] with a string. *)
Definition panics {A} (msg : string) : res A := Panic (PanicMsg (str msg)).

(** ** Representation *)

(** [z[:n]], [z[i:]] *)
Definition to (z : vec) (n : Z) : res vec := sub z 0 n.
Definition from (z : vec) (i : Z) : res vec := sub z i (vlen z).

Definition nat_norm (h : heap) (z : vec) : res vec :=
  i ← loop (fuel_of (vlen z)) (λ i : Z,
    c ← andM (0 <? i) (v ← get h z (i - 1); mret (v =? 0));
    mret (if (c : bool) then inl (i - 1) else inr i)) (vlen z);
  sub z 0 i.

(** [return z.norm()] *)
Definition ret_norm (h : heap) (z : vec) : res (heap * vec) := z ← nat_norm h z; mret (h, z).

Definition nat_make (h : heap) (z : vec) (n : Z) : res (heap * vec) :=
  if n <=? vcap z then z ← to z n; mret (h, z) else
  if n =? 1 then mret (make_vec h 1 1) else
  let e := 4 in mret (make_vec h n (n + e)).

Definition nat_setWord (h : heap) (z : vec) (x : Z) : res (heap * vec) :=
  if x =? 0 then z ← to z 0; mret (h, z) else
  '(h, z) ← nat_make h z 1;
  h ← put h z 0 x;
  mret (h, z).

(** On a 64-bit machine every [uint64] is one word. *)
Definition nat_setUint64 (h : heap) (z : vec) (x : Z) : res (heap * vec) :=
  let w := u64 x in
  if w =? x then nat_setWord h z w else
  '(h, z) ← nat_make h z 2;
  h ← put h z 1 (Z.shiftr x 32);
  h ← put h z 0 (u64 x);
  mret (h, z).

Definition nat_set (h : heap) (z x : vec) : res (heap * vec) :=
  '(h, z) ← nat_make h z (vlen x);
  mret (copy h z x, z).

(** [alias] compares the addresses of the last elements of the arrays. *)
Definition alias (x y : vec) : bool :=
  (0 <? vcap x) && (0 <? vcap y) && bool_decide (arr x = arr y) && (off x + vcap x =? off y + vcap y).

Definition same (x y : vec) : bool :=
  (vlen x =? vlen y) && (0 <? vlen x) && negb (other_place x y).

(** ** Addition, subtraction, comparison *)

(** [add] once [len(x) >= len(y)]; the method calls itself with the operands
    swapped otherwise. *)
Definition add_long (h : heap) (z x y : vec) : res (heap * vec) :=
  let m := vlen x in
  let n := vlen y in
  if m =? 0 then z ← to z 0; mret (h, z) else
  if n =? 0 then nat_set h z x else
  '(h, z) ← nat_make h z (m + 1);
  zn ← to z n; xn ← to x n; yn ← to y n;
  '(h, c) ← addVV h zn xn yn;
  '(h, c) ← (if n <? m then zr ← sub z n m; xr ← from x n; addVW h zr xr c else mret (h, c));
  h ← put h z m c;
  ret_norm h z.

Definition nat_add (h : heap) (z x y : vec) : res (heap * vec) :=
  if vlen x <? vlen y then add_long h z y x else add_long h z x y.

Definition nat_sub (h : heap) (z x y : vec) : res (heap * vec) :=
  let m := vlen x in
  let n := vlen y in
  if m <? n then panics "underflow" else
  if m =? 0 then z ← to z 0; mret (h, z) else
  if n =? 0 then nat_set h z x else
  '(h, z) ← nat_make h z m;
  zn ← to z n; xn ← to x n; yn ← to y n;
  '(h, c) ← subVV h zn xn yn;
  '(h, c) ← (if n <? m then zr ← from z n; xr ← from x n; subVW h zr xr c else mret (h, c));
  if negb (c =? 0) then panics "underflow" else
  ret_norm h z.

Definition nat_cmp (h : heap) (x y : vec) : res Z :=
  let m := vlen x in
  let n := vlen y in
  if negb (m =? n) || (m =? 0) then
    mret (if m <? n then -1 else if n <? m then 1 else 0)
  else
    i ← loop (fuel_of m) (λ i : Z,
      c ← andM (0 <? i) (a ← get h x i; b ← get h y i; mret (a =? b));
      mret (if (c : bool) then inl (i - 1) else inr i)) (m - 1);
    a ← get h x i; b ← get h y i;
    mret (if a <? b then -1 else if b <? a then 1 else 0).

(** [addTo] adds [x] to [z] in place. *)
Definition addTo (h : heap) (z x : vec) : res heap :=
  let n := vlen x in
  if 0 <? n then
    zn ← to z n; xn ← to x n;
    '(h, c) ← addVV h zn zn xn;
    if negb (c =? 0) then
      if n <? vlen z then zr ← from z n; '(h, _) ← addVW h zr zr c; mret h else mret h
    else mret h
  else mret h.

(** ** Shifts *)

(** [lsh] and [rsh] once something is to be moved. *)
Definition lsh_body (h : heap) (z x : vec) (s : Z) : res (heap * vec) :=
  let m := vlen x in
  if m =? 0 then z ← to z 0; mret (h, z) else
  let n := m + s / _W in
  '(h, z) ← nat_make h z (n + 1);
  let s := s mod _W in
  h ← (if s =? 0 then
         zm ← sub z (n - m) n; put (copy h zm x) z n 0
       else
         zm ← sub z (n - m) n; '(h, c) ← lshVU h zm x s; put h z n c);
  zl ← sub z 0 (n - m);
  let h := clear h zl in
  ret_norm h z.

Definition nat_lsh (h : heap) (z x : vec) (s : Z) : res (heap * vec) :=
  if (s =? 0) && same z x then mret (h, z) else
  if (s =? 0) && negb (alias z x) then nat_set h z x else
  lsh_body h z x s.

Definition rsh_body (h : heap) (z x : vec) (s : Z) : res (heap * vec) :=
  let m := vlen x in
  let n := m - s / _W in
  if n <=? 0 then z ← to z 0; mret (h, z) else
  '(h, z) ← nat_make h z n;
  let s := s mod _W in
  xr ← from x (m - n);
  h ← (if s =? 0 then mret (copy h z xr) else '(h, _) ← rshVU h z xr s; mret h);
  ret_norm h z.

Definition nat_rsh (h : heap) (z x : vec) (s : Z) : res (heap * vec) :=
  if (s =? 0) && same z x then mret (h, z) else
  if (s =? 0) && negb (alias z x) then nat_set h z x else
  rsh_body h z x s.

(** ** Bits *)

Definition nat_bitLen (h : heap) (x : vec) : res Z :=
  let i := vlen x - 1 in
  if 0 <=? i then
    top ← get h x i;
    let top := Z.lor top (Z.shiftr top 1) in
    let top := Z.lor top (Z.shiftr top 2) in
    let top := Z.lor top (Z.shiftr top 4) in
    let top := Z.lor top (Z.shiftr top 8) in
    let top := Z.lor top (Z.shiftr top 16) in
    let top := Z.lor top (Z.shiftr (Z.shiftr top 16) 16) in
    l ← Len top; mret (i * _W + l)
  else mret 0.

(** [for x[i] == 0 { i++ }] *)
Definition skip_zeros (h : heap) (x : vec) : res Z :=
  loop (fuel_of (vlen x)) (λ i : Z, v ← get h x i; mret (if v =? 0 then inl (i + 1) else inr i)) 0.

Definition nat_trailingZeroBits (h : heap) (x : vec) : res Z :=
  if vlen x =? 0 then mret 0 else
  i ← skip_zeros h x;
  v ← get h x i;
  n ← TrailingZeros v;
  mret (u64 (u64 (i * _W) + n)).

Definition nat_isPow2 (h : heap) (x : vec) : res (Z * bool) :=
  i ← skip_zeros h x;
  v ← get h x i;
  if (i =? u64 (vlen x) - 1) && (Z.land v (u64 (v - 1)) =? 0) then
    n ← TrailingZeros v;
    mret (u64 (u64 (i * _W) + n), true)
  else mret (0, false).

Definition nat_bit (h : heap) (x : vec) (i : Z) : res Z :=
  let j := i / _W in
  if vlen x <=? j then mret 0 else
  v ← get h x j;
  mret (Z.land (Z.shiftr v (i mod _W)) 1).

Definition nat_setBit (h : heap) (z x : vec) (i b : Z) : res (heap * vec) :=
  let j := i / _W in
  let m := u64 (Z.shiftl 1 (i mod _W)) in
  let n := vlen x in
  if b =? 0 then
    '(h, z) ← nat_make h z n;
    let h := copy h z x in
    if n <=? j then mret (h, z) else
    v ← get h z j;
    h ← put h z j (Z.ldiff v m);
    ret_norm h z
  else if b =? 1 then
    '(h, z) ← (if n <=? j then
                 '(h, z) ← nat_make h z (j + 1); zr ← from z n; mret (clear h zr, z)
               else nat_make h z n);
    let h := copy h z x in
    v ← get h z j;
    h ← put h z j (Z.lor v m);
    mret (h, z)
  else panics "set bit is not 0 or 1".

Definition nat_sticky (h : heap) (x : vec) (i : Z) : res Z :=
  let j := i / _W in
  if vlen x <=? j then mret (if vlen x =? 0 then 0 else 1) else
  xj ← to x j;
  if existsb (λ w, negb (w =? 0)) (words h xj) then mret 1 else
  v ← get h x j;
  if negb (u64 (Z.shiftl v (_W - i mod _W)) =? 0) then mret 1 else mret 0.

(** [for i := 0; i < n; i++ { z[i] = op(x[i], y[i]) }] *)
Definition bitwise (op : Z → Z → Z) (h : heap) (z x y : vec) (n : Z) : res heap :=
  foldM (λ h i, a ← get h x i; b ← get h y i; put h z i (op a b)) (seqZ 0 n) h.

Definition nat_and (h : heap) (z x y : vec) : res (heap * vec) :=
  let m := vlen x in
  let n := vlen y in
  let m := if n <? m then n else m in
  '(h, z) ← nat_make h z m;
  h ← bitwise Z.land h z x y m;
  ret_norm h z.

Definition nat_trunc (h : heap) (z x : vec) (n : Z) : res (heap * vec) :=
  let w := u64 (n + _W - 1) / _W in
  if vlen x <? w then nat_set h z x else
  '(h, z) ← nat_make h z w;
  let h := copy h z x in
  h ← (if negb (n mod _W =? 0) then
         v ← get h z (vlen z - 1);
         put h z (vlen z - 1) (Z.land v (Z.shiftl 1 (n mod _W) - 1))
       else mret h);
  ret_norm h z.

Definition nat_andNot (h : heap) (z x y : vec) : res (heap * vec) :=
  let m := vlen x in
  let n := vlen y in
  let n := if m <? n then m else n in
  '(h, z) ← nat_make h z m;
  h ← bitwise Z.ldiff h z x y n;
  zr ← sub z n m; xr ← sub x n m;
  ret_norm (copy h zr xr) z.

(** [or] and [xor]: [s] is the longer operand. *)
Definition nat_bitop (op : Z → Z → Z) (h : heap) (z x y : vec) : res (heap * vec) :=
  let m := vlen x in
  let n := vlen y in
  let '(n, m, s) := if m <? n then (m, n, y) else (n, m, x) in
  '(h, z) ← nat_make h z m;
  h ← bitwise op h z x y n;
  zr ← sub z n m; sr ← sub s n m;
  ret_norm (copy h zr sr) z.

Definition nat_or := nat_bitop Z.lor.
Definition nat_xor := nat_bitop Z.lxor.

(** ** Multiplication and division by one word (natmul.go, natdiv.go) *)

Definition nat_mulAddWW (h : heap) (z x : vec) (y r : Z) : res (heap * vec) :=
  let m := vlen x in
  if (m =? 0) || (y =? 0) then nat_setWord h z r else
  '(h, z) ← nat_make h z (m + 1);
  zm ← sub z 0 m;
  '(h, c) ← mulAddVWW h zm x y r;
  h ← put h z m c;
  ret_norm h z.

Definition basicMul (h : heap) (z x y : vec) : res heap :=
  zc ← sub z 0 (vlen x + vlen y);
  let h := clear h zc in
  foldM (λ h i,
    d ← get h y i;
    if negb (d =? 0) then
      zi ← sub z i (i + vlen x);
      '(h, c) ← addMulVVWW h zi zi x d 0;
      put h z (vlen x + i) c
    else mret h) (seqZ 0 (vlen y)) h.

Definition divWVW (h : heap) (z : vec) (xn : Z) (x : vec) (y : Z) : res (heap * Z) :=
  let r := xn in
  if vlen x =? 1 then
    x0 ← get h x 0;
    '(qq, rr) ← Div r x0 y;
    h ← put h z 0 qq;
    mret (h, rr)
  else
    rec ← reciprocalWord y;
    foldM (λ '(h, r) i,
      xi ← get h x i;
      '(q, r) ← divWW r xi y rec;
      h ← put h z i q;
      mret (h, r)) (reverse (seqZ 0 (vlen z))) (h, r).

Definition nat_divW (h : heap) (z x : vec) (y : Z) : res (heap * vec * Z) :=
  let m := vlen x in
  if y =? 0 then panics "division by zero" else
  if y =? 1 then '(h, q) ← nat_set h z x; mret (h, q, 0) else
  if m =? 0 then q ← to z 0; mret (h, q, 0) else
  '(h, z) ← nat_make h z m;
  '(h, r) ← divWVW h z 0 x y;
  '(h, q) ← ret_norm h z;
  mret (h, q, r).

Definition nat_modW (h : heap) (x : vec) (d : Z) : res (heap * Z) :=
  '(h, q) ← nat_make h nilvec (vlen x);
  divWVW h q 0 x d.
