(* ===== verification/BigRes.v ===== *)
(** * math/big: what a method may change; addition, subtraction, comparison

    A method of [nat] returns a slice that begins where its receiver [z] begins,
    or one in a new array when [z] is too small. [result] states this, that the
    result has no leading zeros and a given value, and that the method changed
    no other slice. *)

From Stdlib Require Import String.
From S2P Require Import Prelude BigHeap BigArith BigWords BigVec BigNat.

(** * What a method may change *)

(** ** The heap after a method *)

(** The slices that are apart from those of [l] are as they were. *)
Definition keeps (h h' : heap) (l : list vec) : Prop :=
  ∀ t, valid h t → valid h' t ∧ (Forall (λ o, apart o t) l → words h' t = words h t).

(** [r] begins where [z] begins and has at most [n] elements, or it is new. *)
Definition extent (h : heap) (z : vec) (n : Z) (r : vec) : Prop :=
  (∃ s, r = part z 0 s ∧ 0 ≤ s ≤ n ∧ s ≤ vcap z) ∨
  ((length h ≤ arr r)%nat ∧ off r = 0 ∧ vcap z < n).

(** No leading zeros. *)
Definition normal (ws : list Z) : Prop := ∀ w, zget ws (len ws - 1) = Some w → w ≠ 0.

Record made (h : heap) (z : vec) (n : Z) (h1 : heap) (z1 : vec) : Prop := {
  md_words : word_heap h1;
  md_valid : valid h1 z1;
  md_extent : extent h z n z1;
  md_keeps : keeps h h1 [];
}.

Record result (h : heap) (z : vec) (n : Z) (v : Z) (h' : heap) (r : vec) : Prop := {
  rs_words : word_heap h';
  rs_normal : normal (words h' r);
  rs_val : val (words h' r) = v;
  rs_made : ∃ z1, extent h z n z1 ∧ valid h' z1 ∧ keeps h h' [z1] ∧ val (words h' z1) = v ∧
    ∃ k, r = part z1 0 k ∧ 0 ≤ k ≤ vlen z1;
}.

(** A method that returns. *)
Definition returns (h : heap) (z : vec) (n v : Z) (m : res (heap * vec)) : Prop :=
  ∃ h' r, m = Ok (h', r) ∧ result h z n v h' r.

Section frames.
Implicit Types (h : heap) (z t : vec) (l : list vec).

Lemma keeps_refl h l : keeps h h l.
Proof. by intros t Ht. Qed.

Lemma keeps_trans h h1 h2 l : keeps h h1 l → keeps h1 h2 l → keeps h h2 l.
Proof.
  intros H1 H2 t Ht. destruct (H1 t Ht) as [V1 W1]. destruct (H2 t V1) as [V2 W2].
  split; [done|]. intros Hl. by rewrite W2, W1.
Qed.

Lemma keeps_weaken h h' l l' : keeps h h' l → (∀ t, valid h t → Forall (λ o, apart o t) l' →
  Forall (λ o, apart o t) l) → keeps h h' l'.
Proof. intros H Hl t Ht. destruct (H t Ht) as [V W]. split; [done|]. intros Hl'. auto. Qed.

Lemma keeps_upd h z ws : valid h z → len ws = vlen z → keeps h (upd h z ws) [z].
Proof.
  intros Hz Hl t Ht. split; [by apply valid_upd|]. intros [Ha _]%Forall_cons. by apply words_upd_apart.
Qed.

Lemma apart_fresh h r t : (length h ≤ arr r)%nat → off r = 0 → valid h t → apart r t.
Proof. intros Hr H0 [T1 T2 [?|[_ Ha]]]; [right; lia|left; lia]. Qed.

Lemma apart_shorter z t i : apart z t → 0 ≤ i → i ≤ vlen z → apart (part z 0 i) t.
Proof. intros. by apply apart_part_l. Qed.

(** A new or shorter slice may be written where the receiver may. *)
Lemma extent_up_ok h z n r x : extent h z n r → valid h x → up_ok z x → up_ok r x.
Proof.
  intros [(s & -> & ?)|(Ha & H0 & _)] Hx Ho.
  - unfold up_ok in *. simpl. rewrite Z.add_0_r. done.
  - destruct Hx as [T1 T2 [?|[_ ?]]]; [right; left; lia|left; lia].
Qed.

Lemma extent_part h z n r : extent h z n r → vlen r ≤ n → ∀ k, 0 ≤ k ≤ vlen r → k ≤ vcap r → extent h z n (part r 0 k).
Proof.
  intros [(s & -> & ?)|(Ha & H0 & Hc)] Hn k Hk Hk'.
  - left. exists k. simpl in *. split_and!; try lia. unfold part. simpl. f_equal; lia.
  - right. simpl. split_and!; [done|lia|done].
Qed.
End frames.

Lemma made_keeps_upd h h1 z1 ws : keeps h h1 [] → valid h1 z1 → len ws = vlen z1 → keeps h (upd h1 z1 ws) [z1].
Proof. intros Hk Hv Hl. eapply keeps_trans; [|by apply keeps_upd]. eapply keeps_weaken; [exact Hk|]. auto. Qed.

(** ** make and norm *)

Lemma make_ok h z n : valid h z → word_heap h → 0 ≤ n →
  ∃ h1 z1, nat_make h z n = Ok (h1, z1) ∧ made h z n h1 z1 ∧ vlen z1 = n ∧ vlen z1 ≤ vcap z1 ∧ (length h ≤ length h1)%nat.
Proof.
  intros Hz Hw Hn. pose proof (va_len _ _ Hz). unfold nat_make, to. destruct (Z.leb_spec n (vcap z)).
  - rewrite sub_part by lia. cbn. exists h, (part z 0 n). simpl. split_and!; try lia; [done|].
    split; [done|apply valid_part; (done || lia)|left; exists n; split_and!; (done || lia)|apply keeps_refl].
  - assert (∀ c, n ≤ c → made h z n (fst (make_vec h n c)) (snd (make_vec h n c))) as Hmade.
    { intros c Hc. pose proof (valid_make_new h n c ltac:(lia)) as [V _].
      split; [by apply word_heap_make|done|right; simpl; lia|].
      intros t Ht. destruct (valid_make_old h n c t Ht) as [Vt Wt]. done. }
    destruct (Z.eqb_spec n 1) as [->|].
    + exists (fst (make_vec h 1 1)), (snd (make_vec h 1 1)). split_and!; try done; [by apply Hmade|].
      simpl. rewrite length_app. lia.
    + exists (fst (make_vec h n (n + 4))), (snd (make_vec h n (n + 4))).
      split_and!; try done; [apply Hmade; lia|simpl; lia|]. simpl. rewrite length_app. lia.
Qed.

Lemma words_to h z k : valid h z → 0 ≤ k ≤ vlen z → words h (part z 0 k) = take (Z.to_nat k) (words h z).
Proof. intros Hz Hk. rewrite words_part by (done || lia). rewrite drop_0. do 2 f_equal. lia. Qed.

Lemma norm_ok h z : valid h z → ∃ k, nat_norm h z = Ok (part z 0 k) ∧ 0 ≤ k ≤ vlen z ∧
  val (words h (part z 0 k)) = val (words h z) ∧ normal (words h (part z 0 k)).
Proof.
  intros Hz. pose proof (va_len _ _ Hz). pose proof (len_words _ _ Hz) as Hl.
  enough (wp (nat_norm h z) (λ r, ∃ k, r = part z 0 k ∧ 0 ≤ k ≤ vlen z ∧
    val (words h (part z 0 k)) = val (words h z) ∧ normal (words h (part z 0 k)))) as Hw.
  { apply wp_exists in Hw as (r & -> & k & -> & ?). by exists k. }
  unfold nat_norm. apply wp_bind. eapply wp_mono.
  { apply (wp_loop (λ k, 0 ≤ k ≤ vlen z ∧ val (take (Z.to_nat k) (words h z)) = val (words h z)) (λ k, k) _ _ _
      (λ k, 0 ≤ k ≤ vlen z ∧ val (take (Z.to_nat k) (words h z)) = val (words h z) ∧
         normal (take (Z.to_nat k) (words h z)))).
    - split; [lia|]. rewrite take_ge; [done|]. rewrite length_words by done. lia.
    - lia.
    - unfold fuel_of. lia.
    - intros k [Hk Hv]. assert (normal (take 0 (words h z))) as N0 by (intros w; by rewrite take_0).
      unfold andM. destruct (Z.ltb_spec 0 k).
      2: { assert (k = 0) as -> by lia. cbn. split_and!; (done || lia). }
      destruct (zget_lt (words h z) (k - 1)) as [w Hw]; [lia|].
      rewrite get_words, (idx_in _ _ _ Hw) by (done || lia). cbn.
      pose proof (val_take_S _ _ _ Hw) as Ht. replace (k - 1 + 1) with k in Ht by lia.
      destruct (Z.eqb_spec w 0) as [->|Hne]; [split; [split; lia|lia]|]. split_and!; [lia..|done|].
      intros w'. rewrite len_take, Z.min_l by lia. rewrite Z2Nat.id, zget_take by lia. rewrite Hw. congruence. }
  intros k (Hk & Hv & Hn). rewrite sub_part by lia. cbn. exists k. rewrite words_to by done. done.
Qed.

(** [return z.norm()] after [z] was written. *)
Lemma ret_norm_ok h z n h1 z1 v : extent h z n z1 → valid h1 z1 → word_heap h1 → keeps h h1 [z1] →
  val (words h1 z1) = v → returns h z n v (ret_norm h1 z1).
Proof.
  intros He Hv Hw Hk <-. destruct (norm_ok h1 z1 Hv) as (k & E & Hk' & Ev & Hn).
  unfold ret_norm. rewrite E. cbn. exists h1, (part z1 0 k). split; [done|]. split; try done.
  exists z1. split_and!; try done. exists k. done.
Qed.

(** [return z]: the result is the slice written. *)
Lemma whole_ok h z n h1 z1 v : extent h z n z1 → valid h1 z1 → word_heap h1 → keeps h h1 [z1] →
  normal (words h1 z1) → val (words h1 z1) = v → result h z n v h1 z1.
Proof.
  intros He Hv Hw Hk Hn Hval. split; try done. exists z1. split_and!; try done.
  pose proof (va_len _ _ Hv). exists (vlen z1). split; [|lia].
  destruct z1; unfold part; simpl. f_equal; lia.
Qed.

Lemma extent_mono h z n m r : extent h z n r → n ≤ m → extent h z m r.
Proof.
  intros [(s & ? & ? & ?)|(? & ? & ?)] Hm; [left; exists s; split_and!; (done || lia)|right; split_and!; (done || lia)].
Qed.

Lemma result_mono h z n m v h' r : result h z n v h' r → n ≤ m → result h z m v h' r.
Proof.
  intros [R1 R2 R3 (z1 & He & R4)] Hm. split; try done. exists z1. split; [by eapply extent_mono|done].
Qed.

Lemma returns_mono h z n m v r : returns h z n v r → n ≤ m → returns h z m v r.
Proof. intros (h' & r' & -> & R) Hm. exists h', r'. split; [done|by eapply result_mono]. Qed.

(** The common end: everything in the made slice [z1] is written with [ws]. *)
Lemma ret_norm_made h z n h1 z1 ws v : made h z n h1 z1 → len ws = vlen z1 → Forall word ws → val ws = v →
  returns h z n v (ret_norm (upd h1 z1 ws) z1).
Proof.
  intros [M1 M2 M3 M4] Hl Hws Hv. apply ret_norm_ok; [done|by apply valid_upd|by apply word_heap_upd| |].
  - by apply made_keeps_upd.
  - by rewrite words_upd_eq.
Qed.

(** [z[:0]] is zero. *)
Lemma zero_ok h z n : valid h z → word_heap h → 0 ≤ n →
  returns h z n 0 (z ← to z 0; mret (h, z)).
Proof.
  intros Hz Hw Hn. pose proof (va_len _ _ Hz). unfold to. rewrite sub_part by lia. cbn.
  assert (valid h (part z 0 0)) as Hp by (apply valid_part; (done || lia)).
  assert (words h (part z 0 0) = []) as Hnil by (by apply words_nil).
  exists h, (part z 0 0). split; [done|]. split; [done|by rewrite Hnil|by rewrite Hnil|].
  exists (part z 0 0). rewrite Hnil. split_and!; [|done|apply keeps_refl|done|].
  - left. exists 0. split_and!; (done || lia).
  - exists 0. simpl. split_and!; try lia. unfold part. simpl. f_equal; lia.
Qed.

(** The words of an operand are there after [make]. *)
Lemma made_operand h z n h1 z1 x : made h z n h1 z1 → valid h x → up_ok z x →
  valid h1 x ∧ words h1 x = words h x ∧ up_ok z1 x.
Proof.
  intros M Hx Ho. destruct (md_keeps _ _ _ _ _ M x Hx) as [V W]. split_and!; [done|auto|].
  by eapply extent_up_ok; [by apply (md_extent _ _ _ _ _ M)|..].
Qed.

(** * Addition, subtraction and comparison of natural numbers *)

(** An operand that a method with receiver [z] may read while it writes [z]. *)
Record reads (h : heap) (z x : vec) : Prop := {
  rd_valid : valid h x;
  rd_up : up_ok z x;
}.

(** The next [s[i:j]] in the goal. *)
Ltac cut :=
  match goal with |- context [sub ?s ?i ?j ≫= _] => rewrite (sub_part s i j) by lia end; cbn [mbind res_bind].

(** ** setWord and set *)

Lemma setWord_ok h z n x : valid h z → word_heap h → word x → 1 ≤ n → returns h z n x (nat_setWord h z x).
Proof.
  intros Hz Hw Hx Hn. unfold nat_setWord. destruct (Z.eqb_spec x 0) as [->|H0]; [apply zero_ok; (done || lia)|].
  destruct (make_ok h z 1 Hz Hw ltac:(lia)) as (h1 & z1 & -> & M & Hl & _). cbn [mbind res_bind].
  destruct M as [M1 M2 M3 M4]. pose proof (put_upto h1 z1 M2 [] x) as Hput.
  change (len []) with 0 in Hput. unfold upto at 1 in Hput. simpl in Hput. rewrite drop_0, upd_words in Hput by done.
  rewrite Hput by lia. cbn. assert (upto h1 z1 [x] = upd h1 z1 [x]) as ->.
  { unfold upto. rewrite drop_ge; [done|]. rewrite length_words, Hl by done. simpl. lia. }
  assert (len [x] = vlen z1) as Hlx by (by rewrite Hl).
  assert (words (upd h1 z1 [x]) z1 = [x]) as Hwx by (by apply words_upd_eq).
  eapply returns_mono; [|exact Hn]. exists (upd h1 z1 [x]), z1. split; [done|]. apply whole_ok; rewrite ?Hwx.
  - done.
  - by apply valid_upd.
  - apply word_heap_upd; [done|]. by constructor.
  - by apply made_keeps_upd.
  - intros w [= <-]. done.
  - simpl. lia.
Qed.

Lemma set_ok h z x : valid h z → word_heap h → valid h x → normal (words h x) →
  returns h z (vlen x) (val (words h x)) (nat_set h z x).
Proof.
  intros Hz Hw Hx Hn. pose proof (va_len _ _ Hx). unfold nat_set.
  destruct (make_ok h z (vlen x) Hz Hw ltac:(lia)) as (h1 & z1 & -> & [M1 M2 M3 M4] & Hl & _). cbn.
  destruct (M4 x Hx) as [V1 W1]. specialize (W1 ltac:(done)).
  rewrite words_copy, W1, take_ge by (done || (rewrite ?length_words by done; lia)).
  assert (len (words h x) = vlen z1) as Hlx by (by rewrite len_words).
  exists (upd h1 z1 (words h x)), z1. split; [done|]. apply whole_ok; rewrite ?words_upd_eq by done.
  - done.
  - by apply valid_upd.
  - apply word_heap_upd; [done|]. by apply word_heap_words.
  - by apply made_keeps_upd.
  - done.
  - done.
Qed.

(** ** Cutting operands *)

Lemma up_ok_part z x (i j : Z) : up_ok z x → 0 ≤ i → i ≤ j → j ≤ vlen x → up_ok (part z i j) (part x i j).
Proof. unfold up_ok. simpl. lia. Qed.

Lemma up_ok_prefix z x (j k : Z) : up_ok z x → 0 ≤ k ≤ vlen x → up_ok (part z 0 j) (part x 0 k).
Proof. unfold up_ok. simpl. lia. Qed.

Lemma operand_part h z x i j : reads h z x → 0 ≤ i → i ≤ j → j ≤ vlen x →
  operand h (part z i j) (part x i j).
Proof.
  intros [Vx Ux] Hi Hj Hl. pose proof (va_len _ _ Vx). split; [apply valid_part; (done || lia)|done|].
  by apply up_ok_part.
Qed.

Lemma part_part s i j k l : part (part s i j) k l = part s (i + k) (i + l).
Proof. unfold part. simpl. f_equal; lia. Qed.

(** A write after the first words of [z]. *)
Lemma upd_upto h z ws ws' : valid h z → len ws + len ws' ≤ vlen z →
  upd (upto h z ws) (part z (len ws) (len ws + len ws')) ws' = upto h z (ws ++ ws').
Proof.
  intros Hz Hl. pose proof (len_nonneg ws). pose proof (len_nonneg ws'). pose proof (va_len _ _ Hz).
  pose proof (valid_upto h z Hz ws z ltac:(lia) Hz) as V.
  rewrite upd_part by (done || lia). unfold upto at 1.
  pose proof (len_upto h z Hz ws ltac:(lia)) as Hu.
  rewrite upd_upd; [|done|done|].
  2: { rewrite len_splice by (rewrite ?len_words by done; lia). by apply len_words. }
  unfold upto. rewrite words_upd_eq by done. unfold splice. f_equal.
  assert (Z.to_nat (len ws) = length ws) as -> by (unfold len; lia).
  rewrite take_app_length, <-app_assoc. do 2 f_equal.
  rewrite drop_app_ge by lia. rewrite drop_drop, length_app. f_equal. lia.
Qed.

Lemma upto_0 h z : valid h z → upto h z [] = h.
Proof. apply upd_words. Qed.

Lemma upd_first h z ws : valid h z → len ws ≤ vlen z → upd h (part z 0 (len ws)) ws = upto h z ws.
Proof.
  intros Hz Hl. rewrite <-(upto_0 h z Hz) at 1. exact (upd_upto h z [] ws Hz Hl).
Qed.

Lemma upto_full h z ws : valid h z → len ws = vlen z → upto h z ws = upd h z ws.
Proof.
  intros Hz Hl. unfold upto. rewrite drop_ge, app_nil_r; [done|]. rewrite length_words by done.
  unfold len in Hl. lia.
Qed.

(** ** Addition and subtraction *)

(** The lower words, with both operands, and then the upper words, with the carry. *)
Section two_parts.
Context (σ : Z) (f : heap → vec → vec → vec → res (heap * Z)) (g : heap → vec → vec → Z → res (heap * Z)).
Context (f_ok : ∀ h z x y, valid h z → word_heap h → operand h z x → operand h z y →
  writes h z (f h z x y) (λ ws c, 0 ≤ c ≤ 1 ∧ val ws + σ * _B ^ vlen z * c = val (words h x) + σ * val (words h y))).
Context (g_ok : ∀ h z x c, valid h z → word_heap h → operand h z x → word c →
  writes h z (g h z x c) (λ ws c', word c' ∧ (0 < vlen z → c' ≤ 1) ∧
    val ws + σ * _B ^ vlen z * c' = val (words h x) + σ * c)).

Lemma two_parts_ok h z x y : valid h z → word_heap h → reads h z x → reads h z y →
  vlen y ≤ vlen x → vlen x ≤ vlen z →
  ∃ ws1 c1 ws c,
    (let n := vlen y in f h (part z 0 n) (part x 0 n) (part y 0 n)) = Ok (upto h z ws1, c1) ∧
    (if vlen y <? vlen x then
       g (upto h z ws1) (part z (vlen y) (vlen x)) (part x (vlen y) (vlen x)) c1
     else mret (upto h z ws1, c1)) = Ok (upto h z ws, c) ∧
    len ws = vlen x ∧ Forall word ws ∧ 0 ≤ c ≤ 1 ∧
    val ws + σ * _B ^ vlen x * c = val (words h x) + σ * val (words h y).
Proof using f_ok g_ok.
  intros Hz Hw [Vx Ux] [Vy Uy] Hl Hlz. set (n := vlen y) in *. set (m := vlen x) in *.
  pose proof (va_len _ _ Hz) as Lz. pose proof (va_len _ _ Vx) as Lx. pose proof (va_len _ _ Vy) as Ly.
  destruct (f_ok h (part z 0 n) (part x 0 n) (part y 0 n)) as (ws1 & c1 & E1 & L1 & W1 & C1 & V1);
    [apply valid_part; (done || lia)|done|apply operand_part; (done || lia)..|].
  simpl vlen in L1, V1. rewrite Z.sub_0_r in L1, V1.
  assert (upd h (part z 0 n) ws1 = upto h z ws1) as Eu by (rewrite <-L1; apply upd_first; (done || lia)).
  rewrite Eu in E1. rewrite !words_to in V1 by (done || lia).
  assert (val (take (Z.to_nat n) (words h y)) = val (words h y)) as Ey.
  { rewrite take_ge; [done|]. rewrite length_words by done. lia. }
  rewrite Ey in V1. exists ws1, c1. destruct (Z.ltb_spec n m).
  - destruct (g_ok (upto h z ws1) (part z n m) (part x n m) c1) as (ws2 & c2 & E2 & L2 & W2 & C2 & C2' & V2).
    + apply valid_part; try lia. apply valid_upto; (done || lia).
    + apply word_heap_upd; [done|]. apply Forall_app. split; [done|]. apply Forall_drop. by apply word_heap_words.
    + split; [|done|apply up_ok_part; (done || lia)]. apply valid_part; try lia. apply valid_upto; (done || lia).
    + unfold is_uint. lia.
    + simpl vlen in L2, C2', V2. rewrite words_upto in V2 by (done || lia).
      assert (upd (upto h z ws1) (part z n m) ws2 = upto h z (ws1 ++ ws2)) as Eu2.
      { rewrite <-upd_upto by (done || lia). do 2 f_equal; lia. }
      exists (ws1 ++ ws2), c2. split; [done|]. split; [|split_and!].
      * by rewrite E2, Eu2.
      * rewrite len_app. lia.
      * apply Forall_app; auto.
      * unfold is_uint in C2. lia.
      * apply C2'. lia.
      * rewrite val_app, L1. rewrite (val_split (words h x) n) by (rewrite len_words by done; lia).
        rewrite words_part in V2 by (done || lia).
        rewrite (take_ge (drop _ _)) in V2 by (rewrite length_drop, length_words by done; lia).
        replace (_B ^ m) with (_B ^ n * _B ^ (m - n)) by (rewrite <-Z.pow_add_r by lia; f_equal; lia).
        transitivity (val ws1 + _B ^ n * (val ws2 + σ * _B ^ (m - n) * c2)); [ring|]. rewrite V2. lia.
  - assert (n = m) as Enm by lia. exists ws1, c1. split_and!; try done; try lia.
    rewrite Enm in V1. rewrite take_ge in V1 by (rewrite length_words by done; lia). done.
Qed.
End two_parts.

Lemma made_reads h z n h1 z1 x : made h z n h1 z1 → reads h z x → reads h1 z1 x ∧ words h1 x = words h x.
Proof. intros M [Vx Ux]. destruct (made_operand h z n h1 z1 x M Vx Ux) as (V & W & U). by split; [split|]. Qed.

(** The upper part, the way the methods write it. *)
Lemma sub_tail {A} (z x : vec) (n m : Z) (f : vec → vec → res A) (r : res A) : 0 ≤ n → n ≤ m → m ≤ vcap z →
  vlen x = m → m ≤ vcap x →
  (if n <? m then zr ← sub z n m; xr ← from x n; f zr xr else r)
  = if n <? m then f (part z n m) (part x n m) else r.
Proof.
  intros. destruct (Z.ltb_spec n m); [|done]. unfold from. by rewrite !sub_part by lia; subst m.
Qed.

Lemma val_empty h s : valid h s → vlen s = 0 → val (words h s) = 0.
Proof. intros Hs Hl. by rewrite words_nil. Qed.

Lemma add_long_ok h z x y : valid h z → word_heap h → reads h z x → reads h z y →
  vlen y ≤ vlen x → normal (words h x) →
  returns h z (vlen x + 1) (val (words h x) + val (words h y)) (add_long h z x y).
Proof.
  intros Hz Hw Rx Ry Hl Hn. pose proof (va_len _ _ (rd_valid _ _ _ Rx)) as Lx.
  pose proof (va_len _ _ (rd_valid _ _ _ Ry)) as Ly. unfold add_long. cbv zeta.
  destruct (Z.eqb_spec (vlen x) 0) as [H0|H0].
  { rewrite !val_empty by (apply Rx || apply Ry || lia). apply zero_ok; (done || lia). }
  destruct (Z.eqb_spec (vlen y) 0) as [H0'|H0'].
  { rewrite (val_empty h y) by (apply Ry || lia). rewrite Z.add_0_r.
    eapply returns_mono; [apply set_ok; try done; apply Rx|lia]. }
  destruct (make_ok h z (vlen x + 1) Hz Hw ltac:(lia)) as (h1 & z1 & -> & M & L1 & L1' & _).
  cbn [mbind res_bind]. destruct (made_reads _ _ _ _ _ x M Rx) as [Rx1 Wx], (made_reads _ _ _ _ _ y M Ry) as [Ry1 Wy].
  unfold to. do 3 cut.
  destruct (two_parts_ok 1 addVV addVW) with (h := h1) (z := z1) (x := x) (y := y)
    as (ws1 & c1 & ws & c & E1 & E2 & Lw & Ww & Cc & Vv); try done; try lia; try apply M.
  { intros. eapply writes_mono; [by apply addVV_ok|]. cbv beta. intros; lia. }
  { intros. eapply writes_mono; [by apply addVW_ok|]. cbv beta. intros ?? (? & ? & ?). split_and!; [done..|lia]. }
  cbv zeta in E1. rewrite E1. cbn [mbind res_bind].
  rewrite sub_tail by lia. rewrite E2. cbn [mbind res_bind].
  rewrite <-Lw, put_upto by (done || lia || apply M). cbn [mbind res_bind].
  rewrite upto_full by (apply M || rewrite len_app; change (len [c]) with 1; lia).
  rewrite Lw. apply ret_norm_made; [done|..].
  - rewrite len_app. change (len [c]) with 1. lia.
  - apply Forall_app. split; [done|]. constructor; [unfold is_uint; lia|done].
  - rewrite val_snoc, Lw, <-Wx, <-Wy. lia.
Qed.

Lemma nat_add_ok h z x y : valid h z → word_heap h → reads h z x → reads h z y →
  normal (words h x) → normal (words h y) →
  returns h z (vlen x `max` vlen y + 1) (val (words h x) + val (words h y)) (nat_add h z x y).
Proof.
  intros Hz Hw Rx Ry Nx Ny. unfold nat_add. destruct (Z.ltb_spec (vlen x) (vlen y)).
  - rewrite (Z.add_comm (val _)), Z.max_r by lia. apply add_long_ok; (done || lia).
  - rewrite Z.max_l by lia. apply add_long_ok; (done || lia).
Qed.

(** The number of digits orders numbers without leading zeros. *)
Lemma normal_bound ws : Forall word ws → normal ws → 0 < len ws → _B ^ (len ws - 1) ≤ val ws.
Proof.
  intros Hw Hn Hl. destruct (zget_lt ws (len ws - 1)) as [w E]; [lia|]. pose proof (Hn w E) as Hne.
  pose proof (val_take_S _ _ _ E) as Ht. replace (len ws - 1 + 1) with (len ws) in Ht by lia.
  rewrite take_ge in Ht by (unfold len; lia). rewrite Ht.
  pose proof (val_range (take (Z.to_nat (len ws - 1)) ws) ltac:(by apply Forall_take)).
  assert (word w) as Ww by (apply (proj1 (Forall_forall _ _) Hw); by eapply zget_elem_of).
  pose proof (Bpow_pos (len ws - 1) ltac:(lia)). words. nia.
Qed.

Lemma shorter_less ws ws' : Forall word ws → Forall word ws' → normal ws' → len ws < len ws' → val ws < val ws'.
Proof.
  intros Hw Hw' Hn Hl. pose proof (val_range ws Hw). pose proof (len_nonneg ws).
  pose proof (normal_bound ws' Hw' Hn ltac:(lia)).
  assert (_B ^ len ws ≤ _B ^ (len ws' - 1)) by (apply Z.pow_le_mono_r; [pose proof B_big; lia|lia]). lia.
Qed.

(** The subtraction of the words, before the borrow is looked at. *)
Lemma nat_sub_run h z x y : valid h z → word_heap h → reads h z x → reads h z y → 0 < vlen y ≤ vlen x →
  ∃ h1 z1 ws c, made h z (vlen x) h1 z1 ∧ vlen z1 = vlen x ∧
    nat_sub h z x y = (if negb (c =? 0) then panics "underflow" else ret_norm (upd h1 z1 ws) z1) ∧
    len ws = vlen x ∧ Forall word ws ∧ 0 ≤ c ≤ 1 ∧
    val ws - _B ^ vlen x * c = val (words h x) - val (words h y).
Proof.
  intros Hz Hw Rx Ry Hl. pose proof (va_len _ _ (rd_valid _ _ _ Rx)) as Lx.
  pose proof (va_len _ _ (rd_valid _ _ _ Ry)) as Ly. unfold nat_sub. cbv zeta.
  rewrite (proj2 (Z.ltb_ge _ _)) by lia. rewrite !(proj2 (Z.eqb_neq _ _)) by lia.
  destruct (make_ok h z (vlen x) Hz Hw ltac:(lia)) as (h1 & z1 & -> & M & L1 & L1' & _).
  cbn [mbind res_bind]. destruct (made_reads _ _ _ _ _ x M Rx) as [Rx1 Wx], (made_reads _ _ _ _ _ y M Ry) as [Ry1 Wy].
  unfold to. do 3 cut.
  destruct (two_parts_ok (-1) subVV subVW) with (h := h1) (z := z1) (x := x) (y := y)
    as (ws1 & c1 & ws & c & E1 & E2 & Lw & Ww & Cc & Vv); try done; try lia; try apply M.
  { intros. eapply writes_mono; [by apply subVV_ok|]. cbv beta. intros; lia. }
  { intros. eapply writes_mono; [by apply subVW_ok|]. cbv beta. intros ?? (? & ? & ?). split_and!; [done..|lia]. }
  cbv zeta in E1. rewrite E1. cbn [mbind res_bind].
  change (from z1 (vlen y)) with (sub z1 (vlen y) (vlen z1)). rewrite L1, sub_tail by lia. rewrite E2. cbn [mbind res_bind].
  exists h1, z1, ws, c. rewrite upto_full by (apply M || lia). rewrite <-Wx, <-Wy. split_and!; (done || lia).
Qed.

Lemma nat_sub_ok h z x y : valid h z → word_heap h → reads h z x → reads h z y → normal (words h x) →
  val (words h y) ≤ val (words h x) → vlen y ≤ vlen x →
  returns h z (vlen x) (val (words h x) - val (words h y)) (nat_sub h z x y).
Proof.
  intros Hz Hw Rx Ry Hn Hv Hl. pose proof (va_len _ _ (rd_valid _ _ _ Ry)) as Ly.
  destruct (decide (vlen y = 0)) as [H0|H0].
  { unfold nat_sub. rewrite H0, (proj2 (Z.ltb_ge _ _)), (val_empty h y), Z.sub_0_r by (apply Ry || lia).
    destruct (Z.eqb_spec (vlen x) 0) as [Hx0|]; [|apply set_ok; try done; apply Rx].
    rewrite val_empty by (apply Rx || lia). apply zero_ok; (done || lia). }
  destruct (nat_sub_run h z x y) as (h1 & z1 & ws & c & M & L1 & -> & Lw & Ww & Cc & E); try done; [lia|].
  pose proof (val_range ws Ww) as Hr. rewrite Lw in Hr. pose proof (Bpow_pos (vlen x) ltac:(lia)).
  assert (c = 0) as -> by nia. apply ret_norm_made; (done || lia).
Qed.

(** [sub] panics when [x] is smaller. *)
Lemma nat_sub_underflow h z x y : valid h z → word_heap h → reads h z x → reads h z y →
  val (words h x) < val (words h y) → nat_sub h z x y = panics "underflow".
Proof.
  intros Hz Hw Rx Ry Hv. destruct (decide (vlen x < vlen y)) as [Hl|Hl].
  { unfold nat_sub. by rewrite (proj2 (Z.ltb_lt _ _) Hl). }
  pose proof (val_range (words h x) (word_heap_words h x Hw)) as Hx.
  destruct (decide (vlen y = 0)) as [H0|H0].
  { rewrite (val_empty h y) in Hv by (apply Ry || lia). lia. }
  pose proof (va_len _ _ (rd_valid _ _ _ Ry)) as Ly.
  destruct (nat_sub_run h z x y) as (h1 & z1 & ws & c & M & L1 & -> & Lw & Ww & Cc & E); try done; [lia|].
  pose proof (val_range ws Ww) as Hr. destruct (Z.eqb_spec c 0) as [->|]; [lia|done].
Qed.

(** ** Comparison *)

(** The sign of a difference is that of its top digit. *)
Lemma top_digit p r r' a b : 0 ≤ r < p → 0 ≤ r' < p → (a = b → r = r') →
  (if a <? b then -1 else if b <? a then 1 else 0)
  = if r + p * a <? r' + p * b then -1 else if r' + p * b <? r + p * a then 1 else 0.
Proof.
  intros Hr Hr' Heq. destruct (Z.ltb_spec a b).
  { rewrite (proj2 (Z.ltb_lt _ _)) by nia. done. }
  destruct (Z.ltb_spec b a).
  { rewrite (proj2 (Z.ltb_ge _ _)), (proj2 (Z.ltb_lt _ _)) by nia. done. }
  assert (a = b) as -> by lia. rewrite Heq by done. by rewrite !Z.ltb_irrefl.
Qed.

(** [nat.cmp] on two slices of the same length: [ws] and [ws'] are their words. *)
Section cmp_loop.
Context (h : heap) (x y : vec) (Vx : valid h x) (Vy : valid h y) (Hw : word_heap h) (El : vlen y = vlen x).
Let ws := words h x.
Let ws' := words h y.

Lemma cmp_digits i : 0 ≤ i < vlen x → ∃ a b, get h x i = Ok a ∧ get h y i = Ok b ∧ word a ∧ word b ∧
  val (take (Z.to_nat (i + 1)) ws) = val (take (Z.to_nat i) ws) + _B ^ i * a ∧
  val (take (Z.to_nat (i + 1)) ws') = val (take (Z.to_nat i) ws') + _B ^ i * b.
Proof using Vx Vy Hw El.
  intros Hi. destruct (zget_lt ws i) as [a Ha]; [unfold ws; rewrite len_words by done; lia|].
  destruct (zget_lt ws' i) as [b Hb]; [unfold ws'; rewrite len_words by done; lia|].
  exists a, b. rewrite !get_words by (done || lia). split_and!; try by apply idx_in.
  - by eapply word_heap_get.
  - by eapply word_heap_get.
  - by apply val_take_S.
  - by apply val_take_S.
Qed.

(** The difference is in the words up to [i]. *)
Definition cmp_upto (i : Z) : Prop := 0 ≤ i < vlen x ∧
  val ws - val ws' = val (take (Z.to_nat (i + 1)) ws) - val (take (Z.to_nat (i + 1)) ws').

Lemma cmp_loop : 0 < vlen x →
  wp (loop (fuel_of (vlen x)) (λ i : Z,
      c ← andM (0 <? i) (a ← get h x i; b ← get h y i; mret (a =? b));
      mret (if (c : bool) then inl (i - 1) else inr i)) (vlen x - 1))
    (λ i, cmp_upto i ∧ (i = 0 ∨ get h x i ≠ get h y i)).
Proof using Vx Vy Hw El.
  intros Hn. apply (wp_loop cmp_upto (λ i, i)).
  - split; [lia|]. replace (vlen x - 1 + 1) with (vlen x) by lia.
    rewrite !take_ge by (unfold ws, ws'; rewrite length_words by done; lia). done.
  - intros i [? _]. lia.
  - unfold fuel_of. lia.
  - intros i [Hin E]. unfold andM. destruct (Z.ltb_spec 0 i); [|cbn; split; [by split|lia]].
    destruct (cmp_digits i Hin) as (a & b & Ea & Eb & Wa & Wb & Ta & Tb). rewrite Ea, Eb. cbn.
    destruct (Z.eqb_spec a b) as [->|Hab]; [|split; [by split|right; congruence]].
    split; [|lia]. split; [lia|]. replace (i - 1 + 1) with i by lia. lia.
Qed.
End cmp_loop.

Lemma nat_cmp_ok h x y : word_heap h → valid h x → valid h y → normal (words h x) → normal (words h y) →
  nat_cmp h x y = Ok (if val (words h x) <? val (words h y) then -1
                      else if val (words h y) <? val (words h x) then 1 else 0).
Proof.
  intros Hw Vx Vy Nx Ny. pose proof (len_words _ _ Vx) as Lx. pose proof (len_words _ _ Vy) as Ly.
  pose proof (word_heap_words h x Hw) as Wx. pose proof (word_heap_words h y Hw) as Wy.
  unfold nat_cmp. cbv zeta. destruct (Z.eqb_spec (vlen x) (vlen y)) as [El|Hne]; simpl negb; simpl orb.
  2: { destruct (Z.ltb_spec (vlen x) (vlen y)).
    - pose proof (shorter_less _ _ Wx Wy Ny ltac:(lia)). zcases; done || lia.
    - pose proof (shorter_less _ _ Wy Wx Nx ltac:(lia)). zcases; done || lia. }
  destruct (Z.eqb_spec (vlen x) 0) as [E0|H0].
  { rewrite !val_empty by (done || lia). rewrite <-El, E0. done. }
  pose proof (va_len _ _ Vx).
  pose proof (cmp_loop h x y Vx Vy Hw (eq_sym El) ltac:(lia)) as (i & -> & [Hin E] & Hd)%wp_exists.
  cbn [mbind res_bind]. destruct (cmp_digits h x y Vx Vy Hw (eq_sym El) i Hin) as (a & b & Ea & Eb & Wa & Wb & Ta & Tb).
  rewrite Ea, Eb in *. cbn [mbind res_bind mret res_ret]. rewrite Ta, Tb in E. f_equal.
  set (r := val (take (Z.to_nat i) (words h x))) in *. set (r' := val (take (Z.to_nat i) (words h y))) in *.
  assert (∀ s, valid h s → vlen s = vlen x → 0 ≤ val (take (Z.to_nat i) (words h s)) < _B ^ i) as Hr.
  { intros s Vs Ls. pose proof (val_range (take (Z.to_nat i) (words h s))) as Hr.
    rewrite len_take, len_words, Ls, Z.min_l in Hr by (done || lia). rewrite Z2Nat.id in Hr by lia.
    apply Hr. apply Forall_take. by apply word_heap_words. }
  rewrite (top_digit (_B ^ i) r r' a b); [zcases; done || lia|by apply Hr|by apply Hr|].
  intros ->. destruct Hd as [->|]; [|congruence]. subst r r'. done.
Qed.
