(* ===== verification/BigMul.v ===== *)
(** * math/big: multiplication by a word and by the schoolbook method, division by a word *)

From Stdlib Require Import String.
From S2P Require Import Prelude BigHeap BigArith BigWords BigVec BigNat BigRes Bits BitsProps.

(** * Multiplication *)

(** ** Overwriting the middle of a vector *)

Lemma val_splice l i ws : 0 ≤ i → i + len ws ≤ len l →
  val (splice l i ws) = val l + _B ^ i * (val ws - val (take (length ws) (drop (Z.to_nat i) l))).
Proof.
  intros Hi Hl. pose proof (len_nonneg ws). unfold splice.
  rewrite !val_app, len_take, Z2Nat.id, Z.min_l by lia.
  rewrite (val_split l i) by lia.
  pose proof (val_split (drop (Z.to_nat i) l) (len ws)) as E. rewrite len_drop, drop_drop in E.
  replace (Z.to_nat (len ws)) with (length ws) in E by (unfold len; lia). rewrite E by lia. ring.
Qed.

Lemma Forall_splice l i ws : Forall word l → Forall word ws → Forall word (splice l i ws).
Proof.
  intros Hl Hws. unfold splice. apply Forall_app. split; [by apply Forall_take|].
  apply Forall_app. split; [done|by apply Forall_drop].
Qed.

Lemma zset_splice l i ws v : 0 ≤ i → i + len ws < len l →
  zset (splice l i ws) (i + len ws) v = splice l i (ws ++ [v]).
Proof.
  intros Hi Hl. pose proof (len_nonneg ws). assert (len [v] = 1) as Hv by done.
  apply zget_ext; rewrite len_zset, !len_splice by (rewrite ?len_app; lia); [done|].
  intros k Hk. rewrite zget_zset by (rewrite len_splice; lia). rewrite !zget_splice by (rewrite ?len_app; lia).
  rewrite len_app, Hv. destruct (decide (i + len ws = k)) as [<-|Hne].
  - rewrite decide_True by lia. rewrite zget_app_r by lia. replace (i + len ws - i - len ws) with 0 by lia. done.
  - destruct (decide (i ≤ k < i + len ws)).
    + rewrite decide_True by lia. by rewrite zget_app_l by lia.
    + by rewrite decide_False by lia.
Qed.

(** The words above a number are zero. *)
Lemma val_high l k : Forall word l → 0 ≤ k ≤ len l → val l < _B ^ k → val (drop (Z.to_nat k) l) = 0.
Proof.
  intros Hl Hk Hv. rewrite (val_split l k) in Hv by done.
  pose proof (val_range (take (Z.to_nat k) l) ltac:(by apply Forall_take)).
  pose proof (val_range (drop (Z.to_nat k) l) ltac:(by apply Forall_drop)).
  pose proof (Bpow_pos k ltac:(lia)). nia.
Qed.

(** The word above a number is zero. *)
Lemma val_take_high l i n : Forall word l → 0 ≤ i → 0 ≤ n → i + n < len l → val l < _B ^ (i + n) →
  val (take (Z.to_nat (n + 1)) (drop (Z.to_nat i) l)) = val (take (Z.to_nat n) (drop (Z.to_nat i) l)).
Proof.
  intros Hl Hi Hn Hlen Hv. pose proof (val_high l (i + n) Hl ltac:(lia) Hv) as H0.
  destruct (zget_lt l (i + n)) as [w Hw]; [lia|].
  assert (zget (drop (Z.to_nat i) l) n = Some w) as Hw'.
  { rewrite zget_drop by lia. by rewrite Z2Nat.id by lia. }
  rewrite (val_take_S _ _ _ Hw'). unfold zget in Hw. rewrite decide_True in Hw by lia.
  rewrite (drop_S _ _ _ Hw) in H0. simpl in H0.
  pose proof (val_range (drop (S (Z.to_nat (i + n))) l) ltac:(by apply Forall_drop)).
  assert (word w) as Ww by (apply (proj1 (Forall_forall _ _) Hl); by eapply list_elem_of_lookup_2).
  words. assert (w = 0) as -> by nia. lia.
Qed.

(** ** mulAddWW *)

Lemma mulAddWW_ok h z x y r : valid h z → word_heap h → reads h z x → word y → word r →
  returns h z (vlen x + 1) (val (words h x) * y + r) (nat_mulAddWW h z x y r).
Proof.
  intros Hz Hw Rx Wy Wr. pose proof (va_len _ _ (rd_valid _ _ _ Rx)) as Lx. unfold nat_mulAddWW. cbv zeta.
  destruct (Z.eqb_spec (vlen x) 0) as [H0|H0].
  { rewrite val_empty by (apply Rx || lia). apply setWord_ok; (done || lia). }
  destruct (Z.eqb_spec y 0) as [->|Hy0]; simpl orb; cbv iota.
  { rewrite Z.mul_0_r. apply setWord_ok; (done || lia). }
  destruct (make_ok h z (vlen x + 1) Hz Hw ltac:(lia)) as (h1 & z1 & -> & M & L1 & L1' & _).
  cbn [mbind res_bind]. destruct (made_reads _ _ _ _ _ x M Rx) as [[Vx1 Ux1] Wx]. cut.
  pose proof (md_valid _ _ _ _ _ M) as Vz1.
  destruct (mulAddVWW_ok h1 (part z1 0 (vlen x)) x) with (m := y) (r := r)
    as (ws & c & -> & Lw & Ww & Wc & E); try done; [apply valid_part; (done || lia)|apply M| |].
  { split; [done|simpl; lia|]. unfold up_ok in *. simpl. lia. }
  simpl vlen in Lw, E. rewrite Z.sub_0_r in Lw, E. cbn [mbind res_bind].
  assert (upd h1 (part z1 0 (vlen x)) ws = upto h1 z1 ws) as -> by (rewrite <-Lw; apply upd_first; (done || lia)).
  rewrite <-Lw, put_upto by (done || lia). cbn [mbind res_bind].
  rewrite upto_full by (done || (rewrite len_app; change (len [c]) with 1; lia)).
  apply ret_norm_made; [by rewrite Lw|..].
  - rewrite len_app. change (len [c]) with 1. lia.
  - apply Forall_app. split; [done|]. by constructor.
  - rewrite val_snoc, Lw, E, Wx. done.
Qed.

(** ** basicMul *)


Section basic_mul.
Context (h : heap) (z x y : vec) (Hz : valid h z) (Hw : word_heap h) (Vx : valid h x) (Vy : valid h y).
Let m := vlen x.
Let n := vlen y.
Let zz := part z 0 (m + n).
Context (Hl : m + n ≤ vlen z) (Ax : apart zz x) (Ay : apart zz y).

(** The product so far is in [ws]; the words above it are zero. *)
Lemma mul_row ws i d : 0 ≤ i < n → zget (words h y) i = Some d → len ws = m + n → Forall word ws →
  val ws < _B ^ (i + m) →
  wp (let h := upd h zz ws in
      d ← get h y i;
      if negb (d =? 0) then
        zi ← sub z i (i + m);
        '(h, c) ← addMulVVWW h zi zi x d 0;
        put h z (m + i) c
      else mret h)
    (λ h', ∃ ws', h' = upd h zz ws' ∧ len ws' = m + n ∧ Forall word ws' ∧
      val ws' = val ws + _B ^ i * (val (words h x) * d)).
Proof using Hz Hw Vx Vy Hl Ax Ay.
  intros Hi Hd Hlw Hws Hv. pose proof (va_len _ _ Hz) as Lz. pose proof (va_len _ _ Vx) as Lx. pose proof (va_len _ _ Vy) as Ly.
  assert (valid h zz) as Vzz by (apply valid_part; (done || lia)).
  assert (len ws = vlen zz) as Hlz by (simpl; lia).
  assert (∀ t, valid h t → valid (upd h zz ws) t) as Hval by (intros; by apply valid_upd).
  cbv zeta. rewrite get_words, words_upd_apart, (idx_in _ _ _ Hd) by (auto || lia). cbn [mbind res_bind].
  destruct (Z.eqb_spec d 0) as [->|Hd0]; simpl negb; cbv iota.
  { cbn. exists ws. split_and!; try done. lia. }
  rewrite sub_part by lia. cbn [mbind res_bind].
  assert (part z i (i + m) = part zz i (i + m)) as Ep by (unfold zz; rewrite part_part; f_equal; lia).
  rewrite Ep. set (zi := part zz i (i + m)).
  assert (valid (upd h zz ws) zi) as Vzi by (apply valid_part; auto; simpl; lia).
  assert (word_heap (upd h zz ws)) as Hw' by (by apply word_heap_upd).
  destruct (addMulVVWW_ok (upd h zz ws) zi zi x) with (m := d) (a := 0)
    as (ms & c & -> & Lm & Wm & Wc & E); try done.
  { split; [done|done|]. right. left. done. }
  { split; [auto|simpl; lia|]. unfold up_ok. clear -Ax Hi Hl. unfold apart in Ax. simpl in *. lia. }
  { exact (word_heap_get _ _ _ _ Hw Hd). }
  cbn [mbind res_bind]. simpl vlen in Lm, E. replace (i + m - i) with m in Lm, E by lia.
  rewrite (words_upd_apart h zz ws x) in E by done.
  assert (put (upd (upd h zz ws) zi ms) z (m + i) c = put (upd (upd h zz ws) zi ms) zz (m + i) c) as ->.
  { unfold put. rewrite !decide_True by (simpl; lia). simpl. by rewrite Z.add_0_r. }
  assert (upd (upd h zz ws) zi ms = upd (upd h zz ws) zz (splice ws i ms)) as ->.
  { unfold zi. rewrite upd_part by (auto || simpl; lia). by rewrite words_upd_eq. }
  assert (len (splice ws i ms) = vlen zz) as Hs1 by (rewrite len_splice; lia).
  rewrite upd_upd by done. rewrite put_upd; [|by apply valid_upd|simpl; lia].
  rewrite words_upd_eq by done. cbn [wp]. rewrite upd_upd by (done || by rewrite len_zset).
  replace (m + i) with (i + len ms) by lia. rewrite zset_splice by lia.
  assert (len (ms ++ [c]) = m + 1) as Lmc by (rewrite len_app, Lm; done).
  exists (splice ws i (ms ++ [c])). split_and!; [done| | |].
  - rewrite len_splice; lia.
  - apply Forall_splice; [done|]. apply Forall_app. split; [done|by constructor].
  - rewrite val_splice by lia. rewrite val_snoc, Lm, E.
    assert (length (ms ++ [c]) = Z.to_nat (m + 1)) as -> by (unfold len in Lmc; lia).
    rewrite val_take_high by (done || lia). unfold zi.
    rewrite words_part by (auto || simpl; lia). rewrite words_upd_eq by done.
    replace (i + m - i) with m by lia. lia.
Qed.

Lemma basicMul_ok : ∃ ws, basicMul h z x y = Ok (upd h zz ws) ∧ len ws = m + n ∧ Forall word ws ∧
  val ws = val (words h x) * val (words h y).
Proof using Hz Hw Vx Vy Hl Ax Ay.
  pose proof (va_len _ _ Hz) as Lz. pose proof (va_len _ _ Vx) as Lx. pose proof (va_len _ _ Vy) as Ly.
  unfold basicMul. rewrite sub_part by lia. cbn [mbind res_bind]. fold m n zz.
  assert (valid h zz) as Vzz by (apply valid_part; (done || lia)).
  enough (wp (foldM (λ h i, d ← get h y i;
    if negb (d =? 0) then
      zi ← sub z i (i + m); '(h, c) ← addMulVVWW h zi zi x d 0; put h z (m + i) c
    else mret h) (seqZ 0 n) (clear h zz))
    (λ h', ∃ ws, h' = upd h zz ws ∧ len ws = m + n ∧ Forall word ws ∧
      val ws = val (words h x) * val (take (Z.to_nat n) (words h y)))) as Hloop.
  { apply wp_exists in Hloop as (h' & E & ws & -> & Lw & Ww & V). rewrite E. exists ws. split_and!; try done.
    by rewrite take_ge in V by (rewrite length_words by done; lia). }
  replace n with (0 + n) at 2 3 by lia. 
  apply (wp_foldM_seqZ (λ i h', ∃ ws, h' = upd h zz ws ∧ len ws = m + n ∧ Forall word ws ∧
      val ws = val (words h x) * val (take (Z.to_nat i) (words h y)))); [lia| |].
  - exists (replicate (Z.to_nat (m + n)) 0). split_and!.
    + unfold clear. simpl. by rewrite Z.sub_0_r.
    + unfold len. rewrite length_replicate. lia.
    + by apply Forall_replicate.
    + rewrite val_zeros. simpl. lia.
  - intros i h' Hi (ws & -> & Lw & Ww & V).
    destruct (zget_lt (words h y) i) as [d Hd]; [rewrite len_words by done; lia|].
    pose proof (val_range (words h x) (word_heap_words h x Hw)) as Rx. rewrite len_words in Rx by done.
    pose proof (val_range (take (Z.to_nat i) (words h y)) ltac:(apply Forall_take, word_heap_words; done)) as Ry.
    rewrite len_take, len_words, Z.min_l in Ry by (done || lia). rewrite Z2Nat.id in Ry by lia.
    eapply wp_mono; [apply (mul_row ws i d); try done|].
    + assert (0 ≤ m) by (unfold m; lia). fold m in Rx. rewrite V, Z.pow_add_r by lia. nia.
    + cbv beta. intros h' (ws' & -> & Lw' & Ww' & V'). exists ws'. split_and!; try done.
      rewrite V', V, (val_take_S _ _ _ Hd). ring.
Qed.
End basic_mul.

(** * Division by one word *)

Lemma Div_word hi lo y : word lo → word y → 0 ≤ hi < y →
  ∃ q r, Div hi lo y = Ok (q, r) ∧ word q ∧ 0 ≤ r < y ∧ hi * _B + lo = q * y + r.
Proof.
  intros Hlo Hy Hhi. assert (word hi) as Whi by (words; lia).
  unfold Div, UintSize. simpl (64 =? 32). cbv iota. rewrite !uwrap_small by done.
  rewrite Div64_ok by (done || lia). rewrite <-B_eq. do 2 eexists. split; [reflexivity|].
  pose proof (Z.div_mod (hi * _B + lo) y ltac:(lia)). pose proof (Z.mod_pos_bound (hi * _B + lo) y ltac:(lia)).
  split_and!; try lia. words. split; [apply Z.div_pos; nia|]. apply Z.div_lt_upper_bound; nia.
Qed.

Section div_word.
Context (h : heap) (z x : vec) (Hz : valid h z) (Vx : valid h x) (Hw : word_heap h).
Context (Lx : vlen x = vlen z) (Ho : down_ok z x) (y : Z) (Wy : word y).

(** The quotient digits so far are in [ws], above [i], and [r] is the remainder. *)
Definition div_inv (r0 i : Z) (s : heap * Z) : Prop :=
  let '(h', r) := s in ∃ ws, h' = downto h z ws ∧ len ws = vlen z - i ∧ Forall word ws ∧ 0 ≤ r < y ∧
    r0 * _B ^ len ws + val (drop (Z.to_nat i) (words h x)) = val ws * y + r.

Lemma divWVW_ok r0 : 0 ≤ r0 < y →
  ∃ ws r, divWVW h z r0 x y = Ok (upd h z ws, r) ∧ len ws = vlen z ∧ Forall word ws ∧ 0 ≤ r < y ∧
    r0 * _B ^ vlen z + val (words h x) = val ws * y + r.
Proof using Hz Vx Hw Lx Ho Wy.
  intros Hr. pose proof (va_len _ _ Hz) as Lz. unfold divWVW. cbv zeta.
  destruct (Z.eqb_spec (vlen x) 1) as [H1|H1].
  { destruct (word_at h z x Hw Vx Lx 0) as (x0 & Hx0 & Wx0); [lia|].
    rewrite get_words, (idx_in _ _ _ Hx0) by (done || lia). cbn [mbind res_bind].
    destruct (Div_word r0 x0 y) as (q & r & -> & Wq & Rr & E); [done..|]. cbn [mbind res_bind].
    pose proof (put_upto h z Hz [] q) as Hput. rewrite upto_0 in Hput by done.
    change (len []) with 0 in Hput. rewrite Hput, upto_full by (done || (change (len ([] ++ [q])) with 1; lia)). cbn [mbind res_bind mret res_ret].
    exists [q], r. split_and!; try (done || lia); [change (len [q]) with 1; lia|by constructor|].
    pose proof (val_take_S _ _ _ Hx0) as Ht. rewrite take_ge in Ht by (rewrite length_words by done; lia).
    rewrite Ht. replace (vlen z) with 1 by lia. rewrite Z.pow_1_r, Z.pow_0_r. simpl. lia. }
  rewrite reciprocalWord_ok by (done || lia). cbn [mbind res_bind].
  enough (wp (foldM (λ '(h, r) i, xi ← get h x i; '(q, r) ← divWW r xi y (recip y);
      h ← put h z i q; mret (h, r)) (reverse (seqZ 0 (vlen z))) (h, r0)) (div_inv r0 0)) as Hloop.
  { apply wp_exists in Hloop as ([h' r] & E & ws & -> & Lw & Ww & Rr & V). rewrite Z.sub_0_r in Lw.
    rewrite Lw in V. simpl drop in V. rewrite drop_0 in V.
    exists ws, r. split_and!; try (done || lia). rewrite E. do 2 f_equal. unfold downto. by rewrite Lw, Z.sub_diag. }
  apply (wp_foldM_down (div_inv r0)); [lia| |].
  - exists []. change (len []) with 0. split_and!; try (done || lia).
    + unfold downto. change (len []) with 0. rewrite app_nil_r, take_ge by (rewrite length_words by done; lia).
      by rewrite upd_words.
    + rewrite drop_ge by (rewrite length_words by done; lia). rewrite Z.pow_0_r. simpl. lia.
  - intros i [h' r] Hi (ws & -> & Lw & Ww & Rr & V).
    destruct (word_at h z x Hw Vx Lx i) as (xi & Hxi & Wxi); [lia|].
    rewrite (get_word h x Vx _ i xi) by (done || (apply get_downto; (done || lia))). cbn [mbind res_bind].
    destruct (divWW_ok r xi y) as (q & r' & -> & Wq & Rr' & E); [done..|]. cbn [mbind res_bind].
    replace i with (vlen z - len ws - 1) at 1 by lia. rewrite put_downto by (done || lia). cbn.
    exists (q :: ws). split_and!; try (done || lia); [rewrite len_cons; lia|by constructor|].
    rewrite len_cons, Bpow_S by apply len_nonneg. rewrite (val_drop_S _ _ _ Hxi). simpl val. nia.
Qed.
End div_word.

Lemma div_exact a q y r : 0 ≤ r < y → a = q * y + r → q = a / y ∧ r = a mod y.
Proof.
  intros Hr E. split; [apply (Z.div_unique_pos _ _ _ r)|apply (Z.mod_unique_pos _ _ q)]; (done || lia).
Qed.

Lemma divW_ok h z x y : valid h z → word_heap h → reads h z x → (vlen x ≤ vcap z → down_ok (part z 0 (vlen x)) x) →
  normal (words h x) → word y → y ≠ 0 →
  ∃ h' q, nat_divW h z x y = Ok (h', q, val (words h x) mod y) ∧
    result h z (vlen x) (val (words h x) / y) h' q.
Proof.
  intros Hz Hw Rx Ho Hn Wy Hy. pose proof (va_len _ _ (rd_valid _ _ _ Rx)) as Lx.
  unfold nat_divW. cbv zeta. rewrite (proj2 (Z.eqb_neq y 0)) by done.
  destruct (Z.eqb_spec y 1) as [->|H1].
  { destruct (set_ok h z x Hz Hw) as (h' & q & -> & R); [apply Rx|done|]. cbn [mbind res_bind mret res_ret].
    exists h', q. by rewrite Z.mod_1_r, Z.div_1_r. }
  destruct (Z.eqb_spec (vlen x) 0) as [H0|H0].
  { rewrite (val_empty h x) by (apply Rx || done). rewrite Zmod_0_l, Zdiv_0_l.
    destruct (zero_ok h z (vlen x) Hz Hw) as (h' & q & E & R); [lia|]. unfold to in *.
    pose proof (va_len _ _ Hz). rewrite sub_part in * by lia. cbn in E |- *. injection E as <- <-. eauto. }
  destruct (make_ok h z (vlen x) Hz Hw ltac:(lia)) as (h1 & z1 & -> & M & L1 & L1' & _).
  cbn [mbind res_bind]. destruct (made_reads _ _ _ _ _ x M Rx) as [[Vx1 Ux1] Wx].
  assert (down_ok z1 x) as Ho1.
  { destruct (md_extent _ _ _ _ _ M) as [(s & -> & Hs)|(Ha & H00 & _)].
    - simpl in L1. assert (s = vlen x) as -> by lia. apply Ho. lia.
    - destruct (rd_valid _ _ _ Rx) as [T1 T2 [?|[_ ?]]]; [right; left; lia|left; lia]. }
  destruct (divWVW_ok h1 z1 x (md_valid _ _ _ _ _ M) Vx1 (md_words _ _ _ _ _ M) (eq_sym L1) Ho1 y Wy 0)
    as (ws & r & -> & Lw & Ww & Rr & E); [words; lia|]. cbn [mbind res_bind].
  rewrite Wx, Z.mul_0_l, Z.add_0_l in E. destruct (div_exact _ _ _ _ Rr E) as [Eq Er].
  destruct (ret_norm_made h z (vlen x) h1 z1 ws _ M Lw Ww Eq) as (h' & q & -> & R).
  cbn. exists h', q. by rewrite Er.
Qed.

Lemma divW_zero h z x : nat_divW h z x 0 = panics "division by zero".
Proof. done. Qed.

Lemma modW_ok h x d : word_heap h → valid h x → word d → d ≠ 0 →
  ∃ h', nat_modW h x d = Ok (h', val (words h x) mod d) ∧ keeps h h' [].
Proof.
  intros Hw Vx Wd Hd. pose proof (va_len _ _ Vx) as Lx. unfold nat_modW.
  assert (valid h nilvec) as Hnil by (split; simpl; auto with lia).
  destruct (make_ok h nilvec (vlen x) Hnil Hw ltac:(lia)) as (h1 & z1 & -> & M & L1 & L1' & _).
  cbn [mbind res_bind]. destruct (md_keeps _ _ _ _ _ M x Vx) as [Vx1 Wx]. specialize (Wx ltac:(done)).
  assert (down_ok z1 x ∧ ∀ t, valid h t → apart z1 t) as [Ho Ha].
  { destruct (md_extent _ _ _ _ _ M) as [(s & -> & Hs)|(Ha & H00 & _)].
    - simpl in *. assert (s = 0) as -> by lia. split; [right; right; simpl; pose proof (va_off _ _ Vx); lia|].
      intros t Vt. right. left. simpl. apply (va_off _ _ Vt).
    - split; [|intros t Vt; by eapply apart_fresh].
      destruct Vx as [T1 T2 [?|[_ ?]]]; [right; left; lia|left; lia]. }
  destruct (divWVW_ok h1 z1 x (md_valid _ _ _ _ _ M) Vx1 (md_words _ _ _ _ _ M) (eq_sym L1) Ho d Wd 0)
    as (ws & r & -> & Lw & Ww & Rr & E); [words; lia|].
  rewrite Wx, Z.mul_0_l, Z.add_0_l in E. destruct (div_exact _ _ _ _ Rr E) as [_ ->].
  exists (upd h1 z1 ws). split; [done|].
  eapply keeps_weaken; [apply made_keeps_upd; [apply M|apply M|done]|]. intros t Vt _. constructor; auto.
Qed.
