(* ===== verification/BigBits.v ===== *)
(** * math/big: shifts and bitwise operations of natural numbers *)

From S2P Require Import Prelude Bits BigHeap BigArith BigWords BigVec BigNat BigRes BigMul.

(** * Shifts of natural numbers *)

(** ** Receivers that are the operand or lie elsewhere *)

Definition whole (z : vec) : vec := Vec (arr z) (off z) (vcap z) (vcap z).

Record beside (h : heap) (z x : vec) : Prop := {
  bs_valid : valid h x;
  bs_place : arr z ≠ arr x ∨ off z = off x ∨ apart (whole z) x;
}.

Lemma beside_reads h z x : valid h z → beside h z x → reads h z x.
Proof.
  intros Hz [Vx Hp]. split; [done|]. unfold up_ok, apart in *. simpl in *. pose proof (va_len _ _ Hz).
  pose proof (va_len _ _ Vx). destruct Hp as [?|[?|[?|?]]]; [by left|right; lia|by left|right; lia].
Qed.

Lemma beside_down h z n z1 x i j : beside h z x → extent h z n z1 → 0 ≤ i → i ≤ j → j ≤ vlen z1 →
  down_ok (part z1 i j) x.
Proof.
  intros [Vx Hp] He Hi Hj Hl. pose proof (va_len _ _ Vx). destruct He as [(s & -> & Hs)|(Ha & H0 & _)].
  - unfold down_ok, apart in *. simpl in *. destruct Hp as [?|[?|[?|?]]]; [by left|right; lia|by left|right; lia].
  - destruct Vx as [T1 T2 [?|[_ ?]]]; [right; left; simpl; lia|left; simpl; lia].
Qed.

Lemma part_self h z : valid h z → part z 0 (vlen z) = z.
Proof. intros. destruct z; unfold part; simpl. f_equal; lia. Qed.

(** A method that returns its receiver, which is the operand. *)
Lemma same_ok h z x n : valid h z → word_heap h → valid h x → normal (words h x) → vlen x ≤ n → same z x = true →
  returns h z n (val (words h x)) (Ok (h, z)).
Proof.
  intros Hz Hw Vx Hn Hl Hs. unfold same in Hs. apply andb_true_iff in Hs as [[Hs1 Hs2]%andb_true_iff Hs3%negb_true_iff].
  apply Z.eqb_eq in Hs1. pose proof (va_len _ _ Hz).
  assert (words h z = words h x) as E.
  { unfold other_place in Hs3. apply orb_false_iff in Hs3 as [Ha%negb_false_iff%bool_decide_eq_true Ho%negb_false_iff%Z.eqb_eq].
    unfold words. by rewrite Hs1, Ha, Ho. }
  exists h, z. split; [done|]. apply whole_ok; rewrite ?E; try done.
  left. exists (vlen z). rewrite (part_self h) by done. split_and!; (done || lia).
Qed.

(** ** Slices and their whole arrays *)

Lemma valid_whole h z : valid h z → valid h (whole z).
Proof. intros [H1 H2 H3]. split; simpl; (done || lia). Qed.

Lemma apart_whole z t : 0 ≤ vlen z ≤ vcap z → apart (whole z) t → apart z t.
Proof. unfold apart. simpl. intros Hz [?|?]; [by left|right; lia]. Qed.

(** What [make] gives is apart from what the receiver's array is apart from. *)
Lemma extent_apart h z n r t : extent h z n r → valid h t → apart (whole z) t → apart r t.
Proof.
  intros [(s & -> & Hs)|(Ha & H0 & _)] Vt Ht; [|by eapply apart_fresh].
  unfold apart in *. simpl in *. destruct Ht as [?|?]; [by left|right; lia].
Qed.

Lemma result_keeps h z n v h' r : result h z n v h' r → keeps h h' [whole z].
Proof.
  intros [_ _ _ (z1 & He & _ & K & _)] t Vt. destruct (K t Vt) as [V W]. split; [done|].
  intros [At _]%Forall_cons. apply W, Forall_singleton. by eapply extent_apart.
Qed.

Lemma result_valid h z n v h' r : result h z n v h' r → valid h' r ∧ normal (words h' r) ∧ val (words h' r) = v.
Proof.
  intros [_ R2 R3 (z1 & _ & V1 & _ & _ & k & -> & Hk)]. pose proof (va_len _ _ V1).
  split_and!; try done. apply valid_part; (done || lia).
Qed.

Lemma result_apart h z n v h' r t : result h z n v h' r → valid h t → apart (whole z) t → apart r t.
Proof.
  intros [_ _ _ (z1 & He & V1 & _ & _ & k & -> & Hk)] Vt At. apply apart_part_l; [|lia|lia]. by eapply extent_apart.
Qed.

Lemma set_keeps_words h h' z t : keeps h h' [whole z] → valid h t → apart (whole z) t → valid h' t ∧ words h' t = words h t.
Proof. intros K Vt At. destruct (K t Vt) as [V W]. split; [done|]. by apply W, Forall_singleton. Qed.

(** ** Powers of two as words and bits *)

Lemma pow2_words s : 0 ≤ s → 2 ^ s = _B ^ (s / 64) * 2 ^ (s mod 64) ∧ 0 ≤ s / 64 ∧ 0 ≤ s mod 64 < 64.
Proof.
  intros Hs. pose proof (Z.div_mod s 64 ltac:(lia)). pose proof (Z.mod_pos_bound s 64 ltac:(lia)).
  assert (0 ≤ s / 64) by (apply Z.div_pos; lia). split_and!; try lia.
  rewrite B_eq, <-Z.pow_mul_r, <-Z.pow_add_r by lia. f_equal. lia.
Qed.

Lemma val_shift_words l k : Forall word l → 0 ≤ k ≤ len l → val l / _B ^ k = val (drop (Z.to_nat k) l).
Proof.
  intros Hl Hk. symmetry. apply (Z.div_unique_pos _ _ _ (val (take (Z.to_nat k) l))).
  - pose proof (val_range (take (Z.to_nat k) l) ltac:(by apply Forall_take)) as Hr.
    rewrite len_take, Z.min_l in Hr by lia. rewrite Z2Nat.id in Hr by lia. done.
  - rewrite (val_split l k) by done. lia.
Qed.

(** ** Left shift *)

Lemma splice_0 l ws : splice l 0 ws = ws ++ drop (length ws) l.
Proof. done. Qed.

Lemma drop_splice l k ws : 0 ≤ k → k + len ws = len l → drop (Z.to_nat k) (splice l k ws) = ws.
Proof.
  intros Hk Hl. unfold splice. pose proof (len_nonneg ws).
  assert (length (take (Z.to_nat k) l) = Z.to_nat k) as E by (rewrite length_take; unfold len in *; lia).
  rewrite drop_app_ge by lia. rewrite E, Nat.sub_diag, drop_0.
  rewrite (drop_ge l) by (unfold len in *; lia). apply app_nil_r.
Qed.

(** The three writes: the shifted words, the carry above them, zeros below. *)
Lemma lsh_writes h z m n ws c : valid h z → word_heap h → 0 ≤ m → m ≤ n → vlen z = n + 1 → len ws = m → 
  ∃ h', put (upd h (part z (n - m) n) ws) z n c = Ok h' ∧
    clear h' (part z 0 (n - m)) = upd h z (replicate (Z.to_nat (n - m)) 0 ++ ws ++ [c]).
Proof.
  intros Hz Hw Hm Hmn Hl Hlw. pose proof (va_len _ _ Hz). pose proof (len_words _ _ Hz) as Lz.
  assert (len (ws ++ [c]) = m + 1) as Lc by (rewrite len_app; change (len [c]) with 1; lia).
  rewrite upd_part by (done || lia).
  assert (len (splice (words h z) (n - m) ws) = vlen z) as L1 by (rewrite len_splice; lia).
  assert (len (splice (words h z) (n - m) (ws ++ [c])) = vlen z) as L2 by (rewrite len_splice; lia).
  rewrite put_upd; [|by apply valid_upd|lia]. rewrite words_upd_eq, upd_upd by (done || by rewrite len_zset).
  assert (zset (splice (words h z) (n - m) ws) n c = splice (words h z) (n - m) (ws ++ [c])) as ->.
  { rewrite <-zset_splice by lia. f_equal. lia. }
  eexists. split; [done|]. unfold clear. simpl vlen. rewrite Z.sub_0_r.
  set (zs := replicate _ 0). assert (len zs = n - m) as Lzs by (unfold zs, len; rewrite length_replicate; lia).
  rewrite upd_part by (by apply valid_upd || lia). rewrite words_upd_eq, upd_upd; try done.
  2: { rewrite splice_0, len_app, len_drop. unfold len in *. lia. }
  f_equal. rewrite splice_0. assert (length zs = Z.to_nat (n - m)) as -> by (unfold len in Lzs; lia).
  rewrite drop_splice by lia. done.
Qed.

(** The shifted words, also when whole words are moved. *)
Lemma lsh_part h z x s : valid h z → word_heap h → valid h x → vlen x = vlen z → down_ok z x → 0 ≤ s < 64 →
  ∃ ws c, (∀ (k : heap → Z → res heap), (if s =? 0 then k (copy h z x) 0 else '(h, c) ← lshVU h z x s; k h c)
      = k (upd h z ws) c) ∧
    len ws = vlen z ∧ Forall word ws ∧ word c ∧ val ws + _B ^ vlen z * c = val (words h x) * 2 ^ s.
Proof.
  intros Hz Hw Hx Hl Ho Hs. destruct (lshVU_ok h z x s) as (ws & c & E & Lw & Ww & Wc & V); try done.
  exists ws, c. split_and!; try done. intros k. destruct (Z.eqb_spec s 0) as [->|]; [|by rewrite E].
  unfold lshVU, lshVU_g, same_len in E. rewrite Hl, Z.eqb_refl in E. simpl in E. injection E as -> <-. done.
Qed.

Lemma lsh_body_ok h z x s : valid h z → word_heap h → beside h z x → 0 ≤ s →
  returns h z (vlen x + s / 64 + 1) (val (words h x) * 2 ^ s) (lsh_body h z x s).
Proof.
  intros Hz Hw Bx Hs. pose proof (bs_valid _ _ _ Bx) as Vx. pose proof (va_len _ _ Vx) as Lx.
  destruct (pow2_words s Hs) as (Ep & Hq & Hr). unfold lsh_body. change _W with 64. cbv zeta.
  destruct (Z.eqb_spec (vlen x) 0) as [H0|H0]; [rewrite (val_empty h x) by done; apply zero_ok; (done || lia)|].
  set (m := vlen x) in *. set (n := m + s / 64).
  destruct (make_ok h z (n + 1) Hz Hw ltac:(lia)) as (h1 & z1 & -> & M & L1 & L1' & _).
  pose proof (md_valid _ _ _ _ _ M) as Vz1. pose proof (md_words _ _ _ _ _ M) as Hw1.
  cbn [mbind res_bind]. destruct (made_reads _ _ _ _ _ x M (beside_reads h z x Hz Bx)) as [[Vx1 Ux1] Wx].
  rewrite !(sub_part z1 (n - m) n) by lia. cbn [mbind res_bind].
  destruct (lsh_part h1 (part z1 (n - m) n) x (s mod 64)) as (ws & c & Ek & Lw & Ww & Wc & V); try done.
  { apply valid_part; (done || lia). }
  { simpl. fold m. lia. }
  { eapply beside_down; [done|apply M|lia..]. }
  simpl vlen in Lw, V. replace (n - (n - m)) with m in Lw, V by lia.
  pose proof (Ek (λ h c, put h z1 n c)) as Ek'. cbv beta in Ek'. cbn [mbind res_bind] in Ek'. rewrite Ek'. clear Ek Ek'.
  destruct (lsh_writes h1 z1 m n ws c) as (h' & -> & Ec); try (done || lia).
  cbn [mbind res_bind]. rewrite sub_part by lia. cbn [mbind res_bind]. rewrite Ec.
  set (zs := replicate _ 0). assert (len zs = n - m) as Lzs by (unfold zs, len; rewrite length_replicate; lia).
  apply ret_norm_made; [done|..].
  - rewrite !len_app. change (len [c]) with 1. lia.
  - apply Forall_app. split; [by apply Forall_replicate|]. apply Forall_app. split; [done|by constructor].
  - rewrite val_app, val_snoc, Lzs. unfold zs at 1. rewrite val_zeros, Lw, V, Wx, Ep.
    replace (n - m) with (s / 64) by lia. ring.
Qed.

Lemma lsh_ok h z x s : valid h z → word_heap h → beside h z x → normal (words h x) → 0 ≤ s →
  returns h z (vlen x + s / 64 + 1) (val (words h x) * 2 ^ s) (nat_lsh h z x s).
Proof.
  intros Hz Hw Bx Hn Hs. pose proof (bs_valid _ _ _ Bx) as Vx. pose proof (va_len _ _ Vx) as Lx.
  unfold nat_lsh. pose proof (lsh_body_ok h z x s Hz Hw Bx Hs) as Hbody.
  destruct (Z.eqb_spec s 0) as [->|Hs0]; cbn [andb]; [|done]. change (0 / 64) with 0 in *. rewrite Z.mul_1_r in *.
  destruct (same z x) eqn:Es; [apply same_ok; (done || lia)|].
  destruct (negb (alias z x)); [|done]. eapply returns_mono; [by apply set_ok|lia].
Qed.

(** ** Right shift *)

Lemma rsh_part h z x s : valid h z → word_heap h → valid h x → vlen x = vlen z → up_ok z x → 0 ≤ s < 64 →
  ∃ ws, (if s =? 0 then mret (copy h z x) else '(h, _) ← rshVU h z x s; mret h) = Ok (upd h z ws) ∧
    len ws = vlen z ∧ Forall word ws ∧ val ws = val (words h x) / 2 ^ s.
Proof.
  intros Hz Hw Hx Hl Ho Hs. destruct (rshVU_ok h z x s) as (ws & c & E & Lw & Ww & Wc & V); try done.
  exists ws. split_and!; try done. destruct (Z.eqb_spec s 0) as [->|]; [|by rewrite E].
  unfold rshVU, rshVU_g, same_len in E. rewrite Hl, Z.eqb_refl in E. simpl in E. injection E as -> <-. done.
Qed.

Lemma rsh_body_ok h z x s : valid h z → word_heap h → beside h z x → 0 ≤ s →
  returns h z (vlen x) (val (words h x) / 2 ^ s) (rsh_body h z x s).
Proof.
  intros Hz Hw Bx Hs. pose proof (bs_valid _ _ _ Bx) as Vx. pose proof (va_len _ _ Vx) as Lx.
  destruct (pow2_words s Hs) as (Ep & Hq & Hr). unfold rsh_body. change _W with 64. cbv zeta.
  pose proof (val_range (words h x) (word_heap_words h x Hw)) as Rx. rewrite len_words in Rx by done.
  assert (0 < 2 ^ (s mod 64)) as Hp by (apply Z.pow_pos_nonneg; lia).
  set (m := vlen x) in *. set (n := m - s / 64).
  destruct (Z.leb_spec n 0) as [H0|H0].
  { replace (val (words h x) / 2 ^ s) with 0; [apply zero_ok; (done || lia)|].
    symmetry. apply Z.div_small. rewrite Ep.
    assert (_B ^ m ≤ _B ^ (s / 64)) by (apply Z.pow_le_mono_r; [pose proof B_big; lia|lia]). nia. }
  destruct (make_ok h z n Hz Hw ltac:(lia)) as (h1 & z1 & -> & M & L1 & L1' & _).
  pose proof (md_valid _ _ _ _ _ M) as Vz1. pose proof (md_words _ _ _ _ _ M) as Hw1.
  cbn [mbind res_bind]. destruct (made_reads _ _ _ _ _ x M (beside_reads h z x Hz Bx)) as [[Vx1 Ux1] Wx].
  unfold from. fold m. rewrite sub_part by lia. cbn [mbind res_bind].
  destruct (rsh_part h1 z1 (part x (m - n) m) (s mod 64)) as (ws & -> & Lw & Ww & V); try done.
  { apply valid_part; (done || lia). }
  { simpl. lia. }
  { unfold up_ok in *. simpl. fold m in Ux1. lia. }
  cbn [mbind res_bind]. eapply returns_mono; [apply (ret_norm_made h z n); [done|lia|done|]|lia].
  rewrite V, Ep. pose proof (Bpow_pos (s / 64) ltac:(lia)). rewrite <-Z.div_div by lia. f_equal.
  rewrite words_part by (done || lia). rewrite Wx. fold m. replace (m - (m - n)) with n by lia.
  rewrite take_ge by (rewrite length_drop, length_words by done; lia).
  rewrite val_shift_words; [|by apply word_heap_words|rewrite len_words by done; lia]. do 2 f_equal. lia.
Qed.

Lemma rsh_ok h z x s : valid h z → word_heap h → beside h z x → normal (words h x) → 0 ≤ s →
  returns h z (vlen x) (val (words h x) / 2 ^ s) (nat_rsh h z x s).
Proof.
  intros Hz Hw Bx Hn Hs. pose proof (bs_valid _ _ _ Bx) as Vx. pose proof (va_len _ _ Vx) as Lx.
  unfold nat_rsh. pose proof (rsh_body_ok h z x s Hz Hw Bx Hs) as Hbody.
  destruct (Z.eqb_spec s 0) as [->|Hs0]; cbn [andb]; [|done]. rewrite Z.div_1_r in *.
  destruct (same z x) eqn:Es; [apply same_ok; (done || lia)|].
  destruct (negb (alias z x)); [|done]. by apply set_ok.
Qed.

(** * Bits of natural numbers *)

(** ** Bitwise operations digit by digit *)

(** The boolean function of one bit, false on two zeros. *)
Class BitOp (op : Z → Z → Z) (b : bool → bool → bool) : Prop := {
  bitop_spec : ∀ x y i, 0 ≤ i → Z.testbit (op x y) i = b (Z.testbit x i) (Z.testbit y i);
  bitop_zero : b false false = false;
  bitop_nonneg : ∀ x y, 0 ≤ x → 0 ≤ y → 0 ≤ op x y;
}.

#[export] Instance land_bitop : BitOp Z.land andb.
Proof. split; [intros; apply Z.land_spec|done|intros; apply Z.land_nonneg; lia]. Qed.
#[export] Instance lor_bitop : BitOp Z.lor orb.
Proof. split; [intros; apply Z.lor_spec|done|intros; apply Z.lor_nonneg; lia]. Qed.
#[export] Instance lxor_bitop : BitOp Z.lxor xorb.
Proof. split; [intros; apply Z.lxor_spec|done|intros; apply Z.lxor_nonneg; lia]. Qed.
#[export] Instance ldiff_bitop : BitOp Z.ldiff (λ a b, a && negb b).
Proof. split; [intros; apply Z.ldiff_spec|done|intros; apply Z.ldiff_nonneg; lia]. Qed.

Section bit_op.
Context (op : Z → Z → Z) (b : bool → bool → bool) {HO : BitOp op b}.

Lemma op_range k x y : 0 ≤ k → is_uint k x → is_uint k y → is_uint k (op x y).
Proof using HO.
  intros Hk Hx Hy. assert (0 ≤ op x y) as H0 by (apply (bitop_nonneg (BitOp := HO)); unfold is_uint in *; lia).
  unfold is_uint in *. split; [done|].
  assert (op x y = op x y mod 2 ^ k) as ->; [|apply Z.mod_pos_bound, Z.pow_pos_nonneg; lia].
  apply Z.bits_inj'. intros i Hi. destruct (decide (i < k)); [by rewrite Z.mod_pow2_bits_low by lia|].
  rewrite Z.mod_pow2_bits_high by lia. rewrite bitop_spec by done.
  rewrite (testbit_high x k), (testbit_high y k) by lia. apply bitop_zero.
Qed.

Lemma testbit_join k a r i : 0 ≤ k → is_uint k a → 0 ≤ i →
  Z.testbit (a + 2 ^ k * r) i = if decide (i < k) then Z.testbit a i else Z.testbit r (i - k).
Proof using.
  intros Hk Ha Hi. assert (a + 2 ^ k * r = Z.lor (Z.shiftl r k) a) as -> by (rewrite lor_shiftl by done; lia).
  rewrite Z.lor_spec, Z.shiftl_spec by done. case_decide.
  - by rewrite Z.testbit_neg_r by lia.
  - by rewrite (testbit_high a k), orb_false_r by (done || lia).
Qed.

Lemma op_join k a a' r r' : 0 ≤ k → is_uint k a → is_uint k a' →
  op (a + 2 ^ k * r) (a' + 2 ^ k * r') = op a a' + 2 ^ k * op r r'.
Proof using HO.
  intros Hk Ha Ha'. apply Z.bits_inj'. intros i Hi. rewrite bitop_spec by done.
  rewrite !testbit_join by (done || by apply op_range). case_decide; by rewrite bitop_spec by lia.
Qed.

(** The same to the base [_B]. *)
Lemma op_digits n a a' r r' : 0 ≤ n → 0 ≤ a < _B ^ n → 0 ≤ a' < _B ^ n →
  op (a + _B ^ n * r) (a' + _B ^ n * r') = op a a' + _B ^ n * op r r'.
Proof using HO. intros Hn Ha Ha'. rewrite B_eq, <-!Z.pow_mul_r in * by lia. apply op_join; (done || lia). Qed.

Lemma op_zero_r_zero : op 0 0 = 0.
Proof using HO.
  apply Z.bits_inj'. intros i Hi. rewrite bitop_spec by done. rewrite !Z.bits_0. apply bitop_zero.
Qed.

Lemma val_take_range l i : Forall word l → 0 ≤ i ≤ len l → 0 ≤ val (take (Z.to_nat i) l) < _B ^ i.
Proof using.
  intros Hl Hi. pose proof (val_range (take (Z.to_nat i) l) ltac:(by apply Forall_take)) as Hr.
  rewrite len_take, Z.min_l in Hr by lia. by rewrite Z2Nat.id in Hr by lia.
Qed.

(** The loop over the words both operands have. *)
Lemma bitwise_ok h z x y n : valid h z → word_heap h → reads h z x → reads h z y →
  0 ≤ n → n ≤ vlen z → n ≤ vlen x → n ≤ vlen y →
  ∃ ws, bitwise op h z x y n = Ok (upto h z ws) ∧ len ws = n ∧ Forall word ws ∧
    val ws = op (val (take (Z.to_nat n) (words h x))) (val (take (Z.to_nat n) (words h y))).
Proof using HO.
  intros Hz Hw [Vx Ux] [Vy Uy] Hn Lz Lx Ly. unfold bitwise.
  enough (wp (foldM (λ h i, a ← get h x i; c ← get h y i; put h z i (op a c)) (seqZ 0 n) h)
    (λ h', ∃ ws, h' = upto h z ws ∧ len ws = n ∧ Forall word ws ∧
      val ws = op (val (take (Z.to_nat n) (words h x))) (val (take (Z.to_nat n) (words h y))))) as H.
  { apply wp_exists in H as (h' & -> & ws & -> & H). by exists ws. }
  apply (wp_foldM_seqZ (λ i h', ∃ ws, h' = upto h z ws ∧ len ws = i ∧ Forall word ws ∧
      val ws = op (val (take (Z.to_nat i) (words h x))) (val (take (Z.to_nat i) (words h y))))); [done| |].
  - exists []. split_and!; try done; [by rewrite upto_0|]. simpl. by rewrite op_zero_r_zero.
  - intros i h' Hi (ws & -> & <- & Ww & V).
    destruct (zget_lt (words h x) (len ws)) as [a Ha]; [rewrite len_words by done; lia|].
    destruct (zget_lt (words h y) (len ws)) as [c Hc]; [rewrite len_words by done; lia|].
    rewrite !get_upto, !get_words, (idx_in _ _ _ Ha), (idx_in _ _ _ Hc) by (done || lia). cbn [mbind res_bind].
    rewrite put_upto by (done || lia). cbn. exists (ws ++ [op a c]). split_and!; [done|by rewrite len_app| |].
    + apply Forall_app. split; [done|]. constructor; [|done].
      apply op_range; [lia|by eapply (word_heap_get h x)|by eapply (word_heap_get h y)].
    + rewrite val_snoc, (val_take_S _ _ _ Ha), (val_take_S _ _ _ Hc), V.
      rewrite op_digits; [done|lia|apply val_take_range..]; rewrite ?len_words by done; try lia; by apply word_heap_words.
Qed.
End bit_op.

(** ** and, or, xor, andNot *)

Lemma upto_copy h z ws x : valid h z → reads h z x → len ws ≤ vlen x → vlen x ≤ vlen z →
  copy (upto h z ws) (part z (len ws) (vlen x)) (part x (len ws) (vlen x))
  = upto h z (ws ++ drop (length ws) (words h x)).
Proof.
  intros Hz [Vx Ux] Hl Hl'. pose proof (len_nonneg ws). pose proof (va_len _ _ Hz). pose proof (va_len _ _ Vx).
  pose proof (valid_upto h z Hz ws z ltac:(lia) Hz). pose proof (valid_upto h z Hz ws x ltac:(lia) Vx).
  rewrite words_copy by (try apply valid_part; simpl; done || lia). rewrite words_upto by (done || lia).
  rewrite words_part by (done || lia). simpl vlen.
  set (d := drop _ (words h x)).
  assert (len d = vlen x - len ws) as Hd by (unfold d; rewrite len_drop, len_words by done; lia).
  rewrite !(take_ge d) by (unfold len in *; lia).
  replace (vlen x) with (len ws + len d) by lia. rewrite upd_upto by (done || lia). unfold d.
  do 4 f_equal. unfold len. lia.
Qed.

Lemma val_ge l n : Forall word l → len l ≤ n → val (take (Z.to_nat n) l) = val l.
Proof. intros _ Hl. rewrite take_ge; [done|]. unfold len in *. lia. Qed.

(** The longer operand beyond the shorter one. *)
Lemma op_longer op b {HO : BitOp op b} l l' n : Forall word l → Forall word l' → len l' = n → n ≤ len l →
  op (val l) (val l') = op (val (take (Z.to_nat n) l)) (val l') + _B ^ n * op (val (drop (Z.to_nat n) l)) 0.
Proof.
  intros Hl Hl' Hn Hle. pose proof (len_nonneg l'). rewrite (val_split l n) at 1 by lia.
  pose proof (val_range l' Hl') as Hr. rewrite Hn in Hr.
  replace (val l') with (val l' + _B ^ n * 0) at 1 by lia. rewrite (op_digits op b); [done|lia| |done].
  apply val_take_range; [done|lia].
Qed.

Lemma op_zero_r op b {HO : BitOp op b} x : (∀ a, b a false = a) → op x 0 = x.
Proof.
  intros Hb. apply Z.bits_inj'. intros i Hi. rewrite (bitop_spec (BitOp := HO)) by done. by rewrite Z.bits_0, Hb.
Qed.

(** The words both operands have combined, and the others copied from [s]. *)
Lemma bitop_finish op b {HO : BitOp op b} h z x y s n : valid h z → word_heap h → reads h z x → reads h z y →
  reads h z s → 0 ≤ n → n ≤ vlen x → n ≤ vlen y → vlen s = vlen z → n ≤ vlen s →
  ∃ ws, (h ← bitwise op h z x y n;
     zr ← sub z n (vlen z); sr ← sub s n (vlen z);
     ret_norm (copy h zr sr) z) = ret_norm (upd h z ws) z ∧ len ws = vlen z ∧ Forall word ws ∧
    val ws = op (val (take (Z.to_nat n) (words h x))) (val (take (Z.to_nat n) (words h y)))
      + _B ^ n * val (drop (Z.to_nat n) (words h s)).
Proof.
  intros Hz Hw Rx Ry Rs Hn Lx Ly Ls Hns. pose proof (va_len _ _ Hz). pose proof (va_len _ _ (rd_valid _ _ _ Rs)).
  destruct (bitwise_ok op b h z x y n) as (ws & -> & Lw & Ww & V); try (done || lia).
  cbn [mbind res_bind]. do 2 cut. exists (ws ++ drop (length ws) (words h s)).
  assert (length ws = Z.to_nat n) as Ln by (unfold len in Lw; lia).
  split_and!.
  - f_equal. rewrite <-Ls, <-Lw. rewrite upto_copy by (done || lia). apply upto_full; [done|].
    rewrite len_app, len_drop, len_words by apply Rs. unfold len in *. lia.
  - rewrite len_app, len_drop, len_words by apply Rs. unfold len in *. lia.
  - apply Forall_app. split; [done|]. apply Forall_drop. by apply word_heap_words.
  - by rewrite val_app, V, Lw, Ln.
Qed.

Lemma and_ok h z x y : valid h z → word_heap h → reads h z x → reads h z y →
  returns h z (vlen x `min` vlen y) (Z.land (val (words h x)) (val (words h y))) (nat_and h z x y).
Proof.
  intros Hz Hw Rx Ry. pose proof (rd_valid _ _ _ Rx) as Vx. pose proof (rd_valid _ _ _ Ry) as Vy.
  pose proof (va_len _ _ Vx). pose proof (va_len _ _ Vy). unfold nat_and. cbv zeta.
  assert ((if vlen y <? vlen x then vlen y else vlen x) = vlen x `min` vlen y) as -> by (zcases; lia).
  set (n := vlen x `min` vlen y).
  destruct (make_ok h z n Hz Hw ltac:(lia)) as (h1 & z1 & -> & M & L1 & L1' & _).
  cbn [mbind res_bind]. destruct (made_reads _ _ _ _ _ x M Rx) as [Rx1 Wx], (made_reads _ _ _ _ _ y M Ry) as [Ry1 Wy].
  destruct (bitwise_ok Z.land andb h1 z1 x y n) as (ws & -> & Lw & Ww & V); try (done || lia || apply M).
  cbn [mbind res_bind]. rewrite upto_full by (apply M || lia).
  apply ret_norm_made; [done|lia|done|]. rewrite V, Wx, Wy.
  pose proof (word_heap_words h x Hw). pose proof (word_heap_words h y Hw).
  destruct (Z.le_ge_cases (vlen x) (vlen y)) as [Hl|Hl].
  - assert (n = vlen x) as En by lia. rewrite En, (val_ge (words h x)) by (done || rewrite len_words by done; lia).
    rewrite Z.land_comm, (Z.land_comm (val (words h x))).
    rewrite (op_longer Z.land andb (words h y) (words h x) (vlen x)) by (done || rewrite len_words by done; lia).
    rewrite Z.land_0_r. lia.
  - assert (n = vlen y) as En by lia. rewrite En, (val_ge (words h y)) by (done || rewrite len_words by done; lia).
    rewrite (op_longer Z.land andb (words h x) (words h y) (vlen y)) by (done || rewrite len_words by done; lia).
    rewrite Z.land_0_r. lia.
Qed.

Lemma bitop_ok op b {HO : BitOp op b} h z x y : (∀ a, b a false = a) → (∀ u v, op u v = op v u) →
  valid h z → word_heap h → reads h z x → reads h z y →
  returns h z (vlen x `max` vlen y) (op (val (words h x)) (val (words h y))) (nat_bitop op h z x y).
Proof.
  intros Hb Hcomm Hz Hw Rx Ry. pose proof (rd_valid _ _ _ Rx) as Vx. pose proof (rd_valid _ _ _ Ry) as Vy.
  pose proof (va_len _ _ Vx). pose proof (va_len _ _ Vy). unfold nat_bitop. cbv zeta.
  assert (∃ s t, reads h z s ∧ reads h z t ∧ vlen t ≤ vlen s ∧ vlen s = vlen x `max` vlen y ∧
    op (val (words h x)) (val (words h y)) = op (val (words h s)) (val (words h t)) ∧
    op (val (take (Z.to_nat (vlen t)) (words h x))) (val (take (Z.to_nat (vlen t)) (words h y)))
      = op (val (take (Z.to_nat (vlen t)) (words h s))) (val (words h t)) ∧ vlen t ≤ vlen x ∧ vlen t ≤ vlen y ∧
    (if vlen x <? vlen y then (vlen x, vlen y, y) else (vlen y, vlen x, x)) = (vlen t, vlen s, s))
    as (s & t & Rs & Rt & Hst & Hs & Ev & Et & Htx & Hty & ->).
  { pose proof (word_heap_words h x Hw). pose proof (word_heap_words h y Hw).
    destruct (Z.ltb_spec (vlen x) (vlen y)); [exists y, x|exists x, y]; split_and!; try done; try lia.
    - rewrite Hcomm, (val_ge (words h x)); [done|done|rewrite len_words by done; lia].
    - rewrite (val_ge (words h y)); [done|done|rewrite len_words by done; lia]. }
  cbv iota. pose proof (va_len _ _ (rd_valid _ _ _ Rt)) as Lt.
  destruct (make_ok h z (vlen s) Hz Hw ltac:(lia)) as (h1 & z1 & -> & M & L1 & L1' & _).
  cbn [mbind res_bind]. destruct (made_reads _ _ _ _ _ x M Rx) as [Rx1 Wx], (made_reads _ _ _ _ _ y M Ry) as [Ry1 Wy].
  destruct (made_reads _ _ _ _ _ s M Rs) as [Rs1 Ws]. rewrite <-L1.
  destruct (bitop_finish op b h1 z1 x y s (vlen t)) as (ws & -> & Lw & Ww & V); try (done || lia || apply M).
  rewrite <-Hs. apply ret_norm_made; [by rewrite L1 in M || done|done|done|].
  rewrite V, Wx, Wy, Ws, Et, Ev. symmetry.
  rewrite (op_longer op b _ _ (vlen t)); [by rewrite (op_zero_r op b)| | | |]; try (by apply word_heap_words);
    rewrite len_words by (apply Rt || apply Rs); lia.
Qed.

Lemma or_ok h z x y : valid h z → word_heap h → reads h z x → reads h z y →
  returns h z (vlen x `max` vlen y) (Z.lor (val (words h x)) (val (words h y))) (nat_or h z x y).
Proof. apply (bitop_ok Z.lor orb); [apply orb_false_r|apply Z.lor_comm]. Qed.

Lemma xor_ok h z x y : valid h z → word_heap h → reads h z x → reads h z y →
  returns h z (vlen x `max` vlen y) (Z.lxor (val (words h x)) (val (words h y))) (nat_xor h z x y).
Proof. apply (bitop_ok Z.lxor xorb); [by intros []|apply Z.lxor_comm]. Qed.

Lemma andNot_ok h z x y : valid h z → word_heap h → reads h z x → reads h z y →
  returns h z (vlen x) (Z.ldiff (val (words h x)) (val (words h y))) (nat_andNot h z x y).
Proof.
  intros Hz Hw Rx Ry. pose proof (rd_valid _ _ _ Rx) as Vx. pose proof (rd_valid _ _ _ Ry) as Vy.
  pose proof (va_len _ _ Vx). pose proof (va_len _ _ Vy). unfold nat_andNot. cbv zeta.
  assert ((if vlen x <? vlen y then vlen x else vlen y) = vlen x `min` vlen y) as -> by (zcases; lia).
  set (n := vlen x `min` vlen y).
  destruct (make_ok h z (vlen x) Hz Hw ltac:(lia)) as (h1 & z1 & -> & M & L1 & L1' & _).
  cbn [mbind res_bind]. destruct (made_reads _ _ _ _ _ x M Rx) as [Rx1 Wx], (made_reads _ _ _ _ _ y M Ry) as [Ry1 Wy].
  pose proof (bitop_finish Z.ldiff (λ a b, a && negb b) h1 z1 x y x n) as (ws & E & Lw & Ww & V); try (done || lia || apply M).
  rewrite L1 in E. rewrite E. apply ret_norm_made; [done|done|done|].
  rewrite V, Wx, Wy. pose proof (word_heap_words h x Hw). pose proof (word_heap_words h y Hw).
  pose proof (len_words _ _ Vx) as Lwx. pose proof (len_words _ _ Vy) as Lwy.
  destruct (Z.le_ge_cases (vlen y) (vlen x)) as [Hl|Hl].
  - assert (n = vlen y) as -> by lia. rewrite (val_ge (words h y)) by (done || lia).
    rewrite (op_longer Z.ldiff (λ a b, a && negb b) (words h x) (words h y) (vlen y)) by (done || lia). by rewrite Z.ldiff_0_r.
  - assert (n = vlen x) as -> by lia. rewrite (val_ge (words h x)) by (done || lia).
    rewrite drop_ge by (rewrite length_words by done; lia). simpl (val []).
    pose proof (val_range (words h x) ltac:(done)) as Hr. rewrite Lwx in Hr.
    replace (val (words h x)) with (val (words h x) + _B ^ vlen x * 0) at 2 by lia.
    rewrite (val_split (words h y) (vlen x)) by lia.
    rewrite (op_digits Z.ldiff (λ a b, a && negb b)) by (lia || apply val_take_range; (done || lia)). by rewrite Z.ldiff_0_l.
Qed.

(** ** Single bits *)

Lemma testbit_val l i : Forall word l → 0 ≤ i → 
  Z.testbit (val l) i = match zget l (i / 64) with Some w => Z.testbit w (i mod 64) | None => false end.
Proof.
  intros Hl. revert i. induction Hl as [|w l Hw Hl IH]; intros i Hi; [by rewrite zget_nil, Z.bits_0|].
  simpl val. rewrite B_eq, testbit_join by (done || lia).
  pose proof (Z.div_mod i 64 ltac:(lia)). pose proof (Z.mod_pos_bound i 64 ltac:(lia)).
  case_decide as Hd.
  - assert (i / 64 = 0) as -> by lia. rewrite zget_cons_0. f_equal. lia.
  - rewrite zget_cons by lia. rewrite IH by lia.
    replace (i - 64) with (i + (-1) * 64) by lia. rewrite Z.div_add, Z.mod_add by lia. done.
Qed.

Lemma bit_ok h x i : word_heap h → valid h x → 0 ≤ i →
  nat_bit h x i = Ok (Z.b2z (Z.testbit (val (words h x)) i)).
Proof.
  intros Hw Vx Hi. unfold nat_bit. cbv zeta. change _W with 64.
  rewrite testbit_val by (done || by apply word_heap_words). assert (0 ≤ i / 64) by (apply Z.div_pos; lia).
  destruct (Z.leb_spec (vlen x) (i / 64)).
  { by rewrite (proj2 (zget_None _ _)) by (rewrite len_words by done; lia). }
  destruct (zget_lt (words h x) (i / 64)) as [w Ew]; [rewrite len_words by done; lia|].
  rewrite get_words, (idx_in _ _ _ Ew), Ew by (done || lia). cbn [mbind res_bind mret res_ret]. f_equal.

  assert (Z.land (Z.shiftr w (i mod 64)) 1 = Z.shiftr w (i mod 64) mod 2) as -> by (apply (Z.land_ones _ 1); lia).
  rewrite Z.shiftr_div_pow2 by (apply Z.mod_pos_bound; lia). symmetry. apply Z.testbit_spec'. apply Z.mod_pos_bound. lia.
Qed.
