(* ===== verification/BigLen.v ===== *)
(** * math/big: the length and the lowest bit of a natural number, single bits, reduction modulo a power of two *)

From Stdlib Require Import String.
From S2P Require Import Prelude Bits BitsProps BigHeap BigArith BigWords BigVec BigNat BigRes BigMul BigBits.

(** * The length and the lowest bit of a natural number, single bits *)

(** ** bitLen *)

Lemma bit_len_smear t k : 0 ≤ t → 0 ≤ k → 0 ≤ Z.lor t (Z.shiftr t k) ∧ bit_len (Z.lor t (Z.shiftr t k)) = bit_len t.
Proof.
  intros Ht Hk. assert (0 ≤ Z.shiftr t k) as Hs by (by apply Z.shiftr_nonneg).
  split; [by apply Z.lor_nonneg|]. unfold bit_len. destruct (Z.eqb_spec t 0) as [->|H0].
  { by rewrite Z.shiftr_0_l. }
  rewrite (proj2 (Z.eqb_neq _ _)); [|rewrite Z.lor_eq_0_iff; lia].
  rewrite Z.log2_lor by done. rewrite Z.max_l; [done|]. apply Z.log2_le_mono.
  rewrite Z.shiftr_div_pow2 by done. apply Z.div_le_upper_bound; [apply Z.pow_pos_nonneg; lia|].
  assert (0 < 2 ^ k) by (apply Z.pow_pos_nonneg; lia). nia.
Qed.

Lemma word_smear t k : word t → 0 ≤ k → word (Z.lor t (Z.shiftr t k)).
Proof. intros Ht Hk. apply is_uint_lor; [lia|done|]. by apply is_uint_shiftr. Qed.

(** The length of the top word, wherever the highest set bit is. *)
Lemma bitLen_top h x w : word_heap h → valid h x → 0 < vlen x → zget (words h x) (vlen x - 1) = Some w →
  nat_bitLen h x = Ok ((vlen x - 1) * 64 + bit_len w).
Proof.
  intros Hw Vx Hl Ew. unfold nat_bitLen. cbv zeta. rewrite (proj2 (Z.leb_le _ _)) by lia.
  rewrite get_words, (idx_in _ _ _ Ew) by (done || lia). cbn [mbind res_bind].
  pose proof (word_heap_get _ _ _ _ Hw Ew) as Ww.
  rewrite Z.shiftr_shiftr by lia. change (16 + 16) with 32.
  set (t1 := Z.lor w (Z.shiftr w 1)). set (t2 := Z.lor t1 (Z.shiftr t1 2)). set (t4 := Z.lor t2 (Z.shiftr t2 4)).
  set (t8 := Z.lor t4 (Z.shiftr t4 8)). set (t16 := Z.lor t8 (Z.shiftr t8 16)).
  assert (word t16) as W16 by (repeat apply word_smear; (done || lia)).
  assert (word (Z.lor t16 (Z.shiftr t16 32))) as Wt by (apply word_smear; (done || lia)).
  unfold Len, UintSize. simpl (64 =? 32). cbv iota. rewrite uwrap_small, Len64_spec by done.
  cbn [mbind res_bind mret res_ret]. do 2 f_equal. unfold is_uint in Ww.
  destruct (bit_len_smear w 1) as [P1 E1]; [lia..|]. destruct (bit_len_smear t1 2) as [P2 E2]; [done|lia|].
  destruct (bit_len_smear t2 4) as [P4 E4]; [done|lia|]. destruct (bit_len_smear t4 8) as [P8 E8]; [done|lia|].
  destruct (bit_len_smear t8 16) as [P16 E16]; [done|lia|]. destruct (bit_len_smear t16 32) as [P32 E32]; [done|lia|].
  fold t1 in E1. fold t2 in E2. fold t4 in E4. fold t8 in E8. fold t16 in E16. by rewrite E32, E16, E8, E4, E2, E1.
Qed.

Lemma bitLen_ok h x : word_heap h → valid h x → normal (words h x) →
  nat_bitLen h x = Ok (bit_len (val (words h x))).
Proof.
  intros Hw Vx Hn. pose proof (va_len _ _ Vx). pose proof (len_words _ _ Vx) as Lw.
  destruct (decide (vlen x = 0)) as [H0|H0].
  { unfold nat_bitLen. rewrite val_empty, H0 by done. done. }
  destruct (zget_lt (words h x) (vlen x - 1)) as [w Ew]; [lia|].
  rewrite (bitLen_top h x w) by (done || lia). f_equal. symmetry.
  assert (w ≠ 0) as Hne by (apply Hn; by rewrite Lw).
  pose proof (word_heap_get _ _ _ _ Hw Ew) as Ww. pose proof (bit_len_bounds w ltac:(unfold is_uint in Ww; lia)) as Hb.
  pose proof (val_take_S _ _ _ Ew) as Ht. replace (vlen x - 1 + 1) with (vlen x) in Ht by lia.
  rewrite take_ge in Ht by (rewrite length_words by done; lia).
  pose proof (val_take_range (words h x) (vlen x - 1) ltac:(by apply word_heap_words) ltac:(lia)) as Hr.
  assert (1 ≤ bit_len w) by (unfold bit_len; pose proof (Z.log2_nonneg w); zcases; lia).
  pose proof (Bpow_pos (vlen x - 1) ltac:(lia)) as Hp.
  apply bit_len_char; [lia|]. rewrite Ht.
  replace ((vlen x - 1) * 64 + bit_len w - 1) with (64 * (vlen x - 1) + (bit_len w - 1)) by lia.
  replace ((vlen x - 1) * 64 + bit_len w) with (64 * (vlen x - 1) + bit_len w) by lia.
  rewrite !Z.pow_add_r, Z.pow_mul_r, <-B_eq by lia. nia.
Qed.

(** The comment on [bitLen] says that it works for a [nat] that is not
    normalized; the length of the top word is added even when it is zero. *)
Lemma bitLen_not_normalized : let h := [[1; 0]] in let x := Vec 0 0 2 2 in
  val (words h x) = 1 ∧ bit_len (val (words h x)) = 1 ∧ nat_bitLen h x = Ok 64.
Proof. by vm_compute. Qed.

(** ** The lowest bit *)

(** The loop stops at the first word that is not zero. *)
Lemma skip_zeros_ok h x : word_heap h → valid h x → val (words h x) ≠ 0 →
  ∃ i w, skip_zeros h x = Ok i ∧ 0 ≤ i < vlen x ∧ get h x i = Ok w ∧ word w ∧ w ≠ 0 ∧
    val (words h x) = _B ^ i * (w + _B * val (drop (Z.to_nat (i + 1)) (words h x))).
Proof.
  intros Hw Vx H0. pose proof (va_len _ _ Vx) as Lx. pose proof (len_words _ _ Vx) as Lw.
  enough (wp (skip_zeros h x) (λ i, 0 ≤ i < vlen x ∧ val (take (Z.to_nat i) (words h x)) = 0 ∧ get h x i ≠ Ok 0)) as H.
  { apply wp_exists in H as (i & -> & Hi & Ht & Hg). destruct (zget_lt (words h x) i) as [w Ew]; [lia|].
    assert (get h x i = Ok w) as Eg by (rewrite get_words by (done || lia); by apply idx_in).
    rewrite Eg in Hg. exists i, w.
    assert (word w) by (by eapply word_heap_get). split_and!; try (done || lia); try congruence.
    rewrite (val_split _ i), Ht, (val_drop_S _ _ _ Ew) by lia. lia. }
  unfold skip_zeros. apply (wp_loop (λ i, 0 ≤ i ≤ vlen x ∧ val (take (Z.to_nat i) (words h x)) = 0) (λ i, vlen x - i)).
  - split; [lia|]. done.
  - lia.
  - unfold fuel_of. lia.
  - intros i [Hi Ht]. assert (i < vlen x) as Hlt.
    { destruct (decide (i = vlen x)) as [->|]; [|lia]. rewrite take_ge in Ht by (rewrite length_words by done; lia). done. }
    destruct (zget_lt (words h x) i) as [w Ew]; [lia|].
    assert (get h x i = Ok w) as Eg by (rewrite get_words by (done || lia); by apply idx_in). rewrite Eg. cbn.
    destruct (Z.eqb_spec w 0) as [->|Hne]; [|split_and!; [lia|lia|done|rewrite Eg; congruence]].
    split; [|lia]. split; [lia|]. rewrite (val_take_S _ _ _ Ew). lia.
Qed.

(** The odd part of a number whose lower words are zero. *)
Lemma odd_part_words i v n q : 0 ≤ i → 0 ≤ n → 0 ≤ q → word (2 ^ n * (2 * q + 1)) → n < 64 ∧
  _B ^ i * (2 ^ n * (2 * q + 1) + _B * v) = 2 ^ (i * 64 + n) * (2 * (q + 2 ^ (63 - n) * v) + 1).
Proof.
  intros Hi Hn Hq Hw. assert (n < 64) as Hn64.
  { destruct (Z_lt_le_dec n 64) as [|Hge]; [done|]. pose proof (Z.pow_le_mono_r 2 64 n ltac:(lia) Hge).
    rewrite word_B, B_eq in Hw. nia. }
  split; [done|]. assert (_B = 2 ^ n * (2 * 2 ^ (63 - n))) as EB.
  { rewrite B_eq, <-Z.pow_succ_r, <-Z.pow_add_r by lia. f_equal. lia. }
  rewrite Z.pow_add_r, (Z.mul_comm i), Z.pow_mul_r, <-B_eq by lia. rewrite EB at 2. ring.
Qed.

(** The two loops count the zero bits below the lowest set bit. *)
Record lowest (h : heap) (x : vec) (i w n q u : Z) : Prop := {
  lo_skip : skip_zeros h x = Ok i;
  lo_index : 0 ≤ i < vlen x;
  lo_get : get h x i = Ok w;
  lo_tz : TrailingZeros w = Ok n;
  lo_bits : 0 ≤ n < 64;
  lo_odd : 0 ≤ q ∧ w = 2 ^ n * (2 * q + 1) ∧ word w;
  lo_rest : u = val (drop (Z.to_nat (i + 1)) (words h x)) ∧ 0 ≤ u;
  lo_val : val (words h x) = 2 ^ (i * 64 + n) * (2 * (q + 2 ^ (63 - n) * u) + 1);
}.

Lemma lowest_set h x : word_heap h → valid h x → val (words h x) ≠ 0 → ∃ i w n q u, lowest h x i w n q u.
Proof.
  intros Hw Vx H0. destruct (skip_zeros_ok h x Hw Vx H0) as (i & w & Es & Hi & Eg & Ww & Hne & Ev).
  destruct (trailing_zeros_exists 64 w ltac:(lia) Ww Hne) as (n & (q & Hq & Hn & ->) & Hn0).
  pose proof (val_range (drop (Z.to_nat (i + 1)) (words h x)) ltac:(apply Forall_drop, word_heap_words; done)).
  destruct (odd_part_words i (val (drop (Z.to_nat (i + 1)) (words h x))) n q) as [_ E]; [lia|done..|].
  exists i, (2 ^ n * (2 * q + 1)), n, q, (val (drop (Z.to_nat (i + 1)) (words h x))).
  split; try done; [|split; [done|lia]|by rewrite Ev].
  unfold TrailingZeros, UintSize. simpl (64 =? 32). cbv iota. rewrite uwrap_small by done.
  apply TrailingZeros64_spec; [done|]. by exists q.
Qed.

Lemma lowest_trailing h x i w n q u : lowest h x i w n q u → trailing_zeros (val (words h x)) (i * 64 + n).
Proof.
  intros [_ Hi _ _ Hn [Hq _] [_ Hu] ->]. assert (0 < 2 ^ (63 - n)) by (apply Z.pow_pos_nonneg; lia).
  eexists. split_and!; [|lia|reflexivity]. nia.
Qed.

Lemma trailingZeroBits_ok h x : word_heap h → valid h x → vlen x < 2 ^ 58 → normal (words h x) →
  ∃ n, nat_trailingZeroBits h x = Ok n ∧
    (val (words h x) = 0 ∧ n = 0 ∨ trailing_zeros (val (words h x)) n).
Proof.
  intros Hw Vx Hl Hn. pose proof (va_len _ _ Vx) as Lx. unfold nat_trailingZeroBits.
  destruct (Z.eqb_spec (vlen x) 0) as [H0|H0].
  { exists 0. split; [done|]. left. by rewrite val_empty. }
  assert (val (words h x) ≠ 0) as Hne.
  { pose proof (normal_bound (words h x) (word_heap_words h x Hw) Hn) as Hb. rewrite len_words in Hb by done.
    pose proof (Bpow_pos (vlen x - 1) ltac:(lia)). lia. }
  destruct (lowest_set h x Hw Vx Hne) as (i & w & n & q & u & L). pose proof (lowest_trailing _ _ _ _ _ _ _ L).
  destruct L as [-> Hi Eg Et Hn0 _ _ _].
  cbn [mbind res_bind]. rewrite Eg. cbn [mbind res_bind]. rewrite Et. cbn [mbind res_bind mret res_ret].
  exists (i * 64 + n). split; [|by right]. f_equal. change _W with 64.
  rewrite uwrap_add_l, uwrap_small; [done|]. unfold is_uint. lia.
Qed.

(** ** Powers of two *)

Lemma land_pred n q : 0 ≤ n → 0 ≤ q → Z.land (2 ^ n * (2 * q + 1)) (2 ^ n * (2 * q + 1) - 1) = 2 ^ n * (2 * q).
Proof.
  intros Hn Hq. assert (0 < 2 ^ n) by (apply Z.pow_pos_nonneg; lia).
  replace (2 ^ n * (2 * q + 1) - 1) with ((2 ^ n - 1) + 2 ^ n * (2 * q)) by ring.
  replace (2 ^ n * (2 * q + 1)) with (0 + 2 ^ n * (2 * q + 1)) by ring.
  rewrite (op_join Z.land andb) by (done || unfold is_uint; lia). rewrite Z.land_0_l.
  replace (2 * q + 1) with (1 + 2 ^ 1 * q) by lia. replace (2 * q) with (0 + 2 ^ 1 * q) by lia.
  rewrite (op_join Z.land andb) by (done || (unfold is_uint; change (2 ^ 1) with 2; lia)). rewrite Z.land_diag. change (Z.land 1 0) with 0. ring.
Qed.

Lemma pow2_odd n q j : 0 ≤ n → 0 ≤ q → 0 ≤ j → 2 ^ n * (2 * q + 1) = 2 ^ j → q = 0.
Proof.
  intros Hn Hq Hj E. assert (0 < 2 ^ n) as Hp by (apply Z.pow_pos_nonneg; lia).
  destruct (Z_lt_le_dec n j) as [Hlt|Hge].
  - assert (2 ^ j = 2 ^ n * (2 * 2 ^ (j - n - 1))) as Ej.
    { rewrite <-Z.pow_succ_r, <-Z.pow_add_r by lia. f_equal. lia. }
    rewrite Ej in E. apply Z.mul_reg_l in E; lia.
  - pose proof (Z.pow_le_mono_r 2 j n ltac:(lia) Hge). nia.
Qed.

Lemma isPow2_ok h x : word_heap h → valid h x → vlen x < 2 ^ 58 → normal (words h x) → vlen x ≠ 0 →
  ∃ k c, nat_isPow2 h x = Ok (k, c) ∧
    (if c : bool then 0 ≤ k ∧ val (words h x) = 2 ^ k else k = 0 ∧ ∀ j, 0 ≤ j → val (words h x) ≠ 2 ^ j).
Proof.
  intros Hw Vx Hl Hn H0. pose proof (va_len _ _ Vx) as Lx. pose proof (len_words _ _ Vx) as Lw.
  pose proof (normal_bound (words h x) (word_heap_words h x Hw) Hn ltac:(lia)) as Hb.
  assert (val (words h x) ≠ 0) as Hne by (pose proof (Bpow_pos (len (words h x) - 1) ltac:(lia)); lia).
  unfold nat_isPow2. destruct (lowest_set h x Hw Vx Hne) as (i & w & n & q & u & L).
  destruct L as [-> Hi Eg Et Hn0 (Hq & Ew & Ww) [Eu Hu] Ev].
  cbn [mbind res_bind]. rewrite Eg. cbn [mbind res_bind]. rewrite Et. cbn [mbind res_bind mret res_ret].
  change _W with 64. rewrite uwrap_add_l, (uwrap_small 64 (i * 64 + n)) by (unfold is_uint; lia).
  rewrite (uwrap_small 64 (vlen x)) by (unfold is_uint; lia).
  assert (0 < 2 ^ n) by (apply Z.pow_pos_nonneg; lia). assert (0 < 2 ^ (63 - n)) by (apply Z.pow_pos_nonneg; lia).
  rewrite (uwrap_small 64 (w - 1)) by (unfold is_uint in *; nia).
  assert ((Z.land w (w - 1) =? 0) = (q =? 0)) as ->.
  { rewrite Ew, land_pred by lia. destruct (Z.eqb_spec q 0) as [->|]; [by rewrite Z.mul_0_r|]. apply Z.eqb_neq. nia. }
  assert (i = vlen x - 1 ↔ u = 0) as Htop.
  { split; [intros ->; rewrite Eu, drop_ge; [done|rewrite length_words by done; lia]|]. intros Hu0.
    destruct (decide (i = vlen x - 1)); [done|]. exfalso.
    pose proof (val_split (words h x) (i + 1) ltac:(lia)) as Es. rewrite <-Eu, Hu0 in Es.
    pose proof (val_take_range (words h x) (i + 1) ltac:(by apply word_heap_words) ltac:(lia)).
    pose proof (Z.pow_le_mono_r _B (i + 1) (len (words h x) - 1) ltac:(pose proof B_big; lia) ltac:(lia)). lia. }
  destruct (Z.eqb_spec i (vlen x - 1)) as [Ei|Ei], (Z.eqb_spec q 0) as [->|Hq0]; cbn [andb]; do 2 eexists; (split; [done|]); cbv iota.
  { split; [lia|]. rewrite Ev, (proj1 Htop Ei). ring. }
  all: split; [done|]; intros j Hj E; rewrite Ev in E; apply pow2_odd in E; [|lia..|nia]; nia.
Qed.
(** ** sticky *)

Lemma val_nonzero l : Forall word l → existsb (λ w, negb (w =? 0)) l = negb (val l =? 0).
Proof.
  induction 1 as [|w l Hw Hl IH]; [done|]. simpl. rewrite IH. pose proof (val_range l Hl). words.
  destruct (Z.eqb_spec w 0), (Z.eqb_spec (val l) 0), (Z.eqb_spec (w + _B * val l) 0); simpl; try done; nia.
Qed.

(** Whether a one is shifted out. *)
Lemma sticky_ok h x i : word_heap h → valid h x → normal (words h x) → 0 ≤ i →
  nat_sticky h x i = Ok (if val (words h x) mod 2 ^ i =? 0 then 0 else 1).
Proof.
  intros Hw Vx Nx Hi. pose proof (va_len _ _ Vx). pose proof (len_words _ _ Vx) as Lx. pose proof (word_heap_words h x Hw) as Wx.
  destruct (pow2_words i Hi) as (Ep & Hj & Hr). set (j := i / 64) in *. set (r := i mod 64) in *.
  assert (0 < 2 ^ r) as H2 by (apply Z.pow_pos_nonneg; lia). pose proof (Bpow_pos j Hj) as HB.
  unfold nat_sticky. cbv zeta. change _W with 64. fold j r. destruct (Z.leb_spec (vlen x) j) as [Hle|Hgt].
  - pose proof (val_range _ Wx) as R. rewrite Lx in R.
    assert (_B ^ vlen x ≤ _B ^ j) by (apply Z.pow_le_mono_r; [pose proof B_big; lia|done]).
    rewrite Z.mod_small by nia. destruct (Z.eqb_spec (vlen x) 0) as [E|E]; [by rewrite val_empty by done|].
    destruct (zget_lt (words h x) (len (words h x) - 1)) as [w Ew]; [lia|]. pose proof (Nx w Ew) as Hw0.
    pose proof (val_take_S _ _ _ Ew) as Et. rewrite take_ge in Et by (unfold len; lia).
    pose proof (val_take_range (words h x) (len (words h x) - 1) Wx ltac:(lia)).
    pose proof (Bpow_pos (len (words h x) - 1) ltac:(lia)). pose proof (word_heap_get _ _ _ _ Hw Ew) as Ww. words.
    rewrite (proj2 (Z.eqb_neq _ 0)); [done|nia].
  - destruct (zget_lt (words h x) j) as [w Ew]; [lia|]. pose proof (word_heap_get _ _ _ _ Hw Ew) as Ww.
    unfold to. rewrite sub_part by lia. cbn [mbind res_bind]. rewrite words_to by (done || lia).
    rewrite val_nonzero by (by apply Forall_take). pose proof (val_take_range (words h x) j Wx ltac:(lia)) as Hlow.
    set (lo := val (take (Z.to_nat j) (words h x))) in *.
    assert (val (words h x) mod 2 ^ i = lo + _B ^ j * (w mod 2 ^ r)) as Em.
    { rewrite (val_split (words h x) j), (val_drop_S _ _ _ Ew) by lia. fold lo. set (hi := val (drop _ _)).
      symmetry. apply (Z.mod_unique_pos _ _ (w / 2 ^ r + 2 ^ (64 - r) * hi)).
      - pose proof (Z.mod_pos_bound w (2 ^ r) H2). rewrite Ep. nia.
      - rewrite Ep. assert (_B = 2 ^ r * 2 ^ (64 - r)) as EB by (rewrite B_eq, <-Z.pow_add_r by lia; f_equal; lia).
        rewrite (Z.div_mod w (2 ^ r)) at 1 by lia. rewrite EB at 2. ring. }
    rewrite Em. rewrite get_words, (idx_in _ _ _ Ew) by (done || lia). cbn [mbind res_bind].
    assert (u64 (Z.shiftl w (64 - r)) = 2 ^ (64 - r) * (w mod 2 ^ r)) as ->.
    { unfold uwrap. rewrite Z.shiftl_mul_pow2 by lia. replace (2 ^ 64) with (2 ^ r * 2 ^ (64 - r)) by (rewrite <-Z.pow_add_r by lia; f_equal; lia).
      rewrite Z.mul_mod_distr_r by (try lia; apply Z.pow_nonzero; lia). ring. }
    pose proof (Z.mod_pos_bound w (2 ^ r) H2). assert (0 < 2 ^ (64 - r)) by (apply Z.pow_pos_nonneg; lia).
    destruct (Z.eqb_spec lo 0) as [->|Hlo]; simpl negb; cbv iota; cbn [mbind res_bind].
    + destruct (Z.eqb_spec (w mod 2 ^ r) 0) as [->|Hr0]; [by rewrite !Z.mul_0_r|].
      rewrite !(proj2 (Z.eqb_neq _ 0)) by nia. done.
    + rewrite (proj2 (Z.eqb_neq _ 0)) by nia. done.
Qed.

(** * Setting a bit, and reducing modulo a power of two *)

Lemma Forall_zset l j w : Forall word l → word w → Forall word (zset l j w).
Proof. intros Hl Hw. unfold zset. by apply Forall_insert. Qed.

(** The bits of a number of which one word was replaced. *)
Lemma testbit_zset l j w i : Forall word l → word w → 0 ≤ j < len l → 0 ≤ i →
  Z.testbit (val (zset l j w)) i = if decide (i / 64 = j) then Z.testbit w (i mod 64) else Z.testbit (val l) i.
Proof.
  intros Hl Hw Hj Hi. rewrite !testbit_val by (done || by apply Forall_zset).
  rewrite zget_zset by done. destruct (decide (j = i / 64)) as [->|]; [by rewrite decide_True|].
  by rewrite decide_False by lia.
Qed.

Lemma bit_index i j : 0 ≤ i → 0 ≤ j → i / 64 = j / 64 → i mod 64 = j mod 64 → i = j.
Proof. intros. rewrite (Z.div_mod i 64), (Z.div_mod j 64) by lia. lia. Qed.

Lemma word_bit k : 0 ≤ k < 64 → u64 (Z.shiftl 1 k) = 2 ^ k ∧ word (2 ^ k).
Proof.
  intros Hk. rewrite Z.shiftl_mul_pow2, Z.mul_1_l by lia.
  assert (word (2 ^ k)) by (split; [lia|apply Z.pow_lt_mono_r; lia]). by rewrite uwrap_small.
Qed.

(** Setting and clearing one bit of one word. *)
Lemma val_setbit l i w : Forall word l → 0 ≤ i → zget l (i / 64) = Some w →
  val (zset l (i / 64) (Z.lor w (2 ^ (i mod 64)))) = Z.setbit (val l) i ∧
  val (zset l (i / 64) (Z.ldiff w (2 ^ (i mod 64)))) = Z.clearbit (val l) i.
Proof.
  intros Hl Hi Ew. pose proof (Z.mod_pos_bound i 64 ltac:(lia)) as Hm.
  assert (word w) as Ww by (apply (proj1 (Forall_forall _ _) Hl); by eapply zget_elem_of).
  destruct (word_bit (i mod 64) Hm) as [_ Wb]. pose proof (zget_Some_range _ _ _ Ew).
  split; apply Z.bits_inj'; intros k Hk; (rewrite testbit_zset; [|done| |done..]).
  - rewrite Z.setbit_eqb by done. case_decide as Hd.
    + rewrite Z.lor_spec, Z.pow2_bits_eqb by lia. rewrite testbit_val, Hd, Ew by done.
      destruct (Z.eqb_spec (i mod 64) (k mod 64)), (Z.eqb_spec i k); try (by rewrite ?orb_true_r, ?orb_false_r); subst;
        [by exfalso; eauto using bit_index|done].
    + destruct (Z.eqb_spec i k) as [->|]; done.
  - apply (op_range Z.lor orb); (done || lia).
  - rewrite Z.clearbit_eqb by done. case_decide as Hd.
    + rewrite Z.ldiff_spec, Z.pow2_bits_eqb by lia. rewrite testbit_val, Hd, Ew by done.
      destruct (Z.eqb_spec (i mod 64) (k mod 64)), (Z.eqb_spec i k); try (by rewrite ?andb_true_r, ?andb_false_r); subst;
        [by exfalso; eauto using bit_index|done].
    + destruct (Z.eqb_spec i k) as [->|]; [done|]. by rewrite andb_true_r.
  - apply (op_range Z.ldiff (λ a b, a && negb b)); (done || lia).
Qed.

(** ** setBit *)

Lemma copy_prefix h z x : valid h z → valid h x → vlen x ≤ vlen z →
  copy h z x = upd h (part z 0 (vlen x)) (words h x).
Proof.
  intros Hz Hx Hl. pose proof (va_len _ _ Hx). unfold copy. rewrite Z.min_r by done.
  rewrite take_ge by (rewrite length_words by done; lia). unfold upd. simpl. by rewrite Z.add_0_r.
Qed.

Lemma beside_apart h z n z1 x i j : beside h z x → extent h z n z1 → vlen x ≤ i → i ≤ j → j ≤ vlen z1 →
  apart (part z1 i j) x.
Proof.
  intros [Vx Hp] He Hi Hj Hl. pose proof (va_len _ _ Vx). destruct He as [(s & -> & Hs)|(Ha & E0 & _)].
  - unfold apart in *. simpl in *. destruct Hp as [?|[?|[?|?]]]; [by left|right; lia|by left|right; lia].
  - destruct Vx as [T1 T2 [?|[_ ?]]]; [right; simpl; lia|left; simpl; lia].
Qed.

(** Zeros above the words of [x]. *)
Lemma copy_zeros h z1 x n : valid h x → valid h z1 → apart (part z1 (vlen x) n) x → vlen x ≤ n → vlen z1 = n →
  copy (clear h (part z1 (vlen x) n)) z1 x = upd h z1 (words h x ++ replicate (Z.to_nat (n - vlen x)) 0).
Proof.
  intros Vx Vz1 Ap Hl L1. pose proof (va_len _ _ Vx). pose proof (va_len _ _ Vz1).
  set (zs := replicate (Z.to_nat (n - vlen x)) 0).
  assert (len zs = n - vlen x) as Lzs by (unfold zs, len; rewrite length_replicate; lia).
  unfold clear. simpl vlen. fold zs.
  assert (valid h (part z1 (vlen x) n)) as Vp by (apply valid_part; (done || lia)).
  assert (len zs = vlen (part z1 (vlen x) n)) as Lp by done.
  rewrite copy_prefix by (try (apply valid_upd; done); lia). rewrite words_upd_apart by done.
  pose proof (len_words h x Vx) as Lx. pose proof (len_words h z1 Vz1) as Lz.
  rewrite (upd_part h z1) by (done || lia).
  assert (len (splice (words h z1) (vlen x) zs) = vlen z1) as Ls by (rewrite len_splice; lia).
  rewrite upd_part by (try (apply valid_upd; done); lia). rewrite words_upd_eq, upd_upd; try done.
  2: { rewrite splice_0, len_app, len_drop. unfold len in *. lia. }
  f_equal. rewrite splice_0. f_equal.
  assert (length (words h x) = Z.to_nat (vlen x)) as -> by (unfold len in Lx; lia).
  apply drop_splice; lia.
Qed.

Lemma setBit_put h z n1 h1 z1 l i (op : Z → Z → Z) v : made h z n1 h1 z1 → len l = vlen z1 → Forall word l → 0 ≤ i →
  i / 64 < vlen z1 →
  (∀ w, zget l (i / 64) = Some w → word (op w (2 ^ (i mod 64))) ∧ val (zset l (i / 64) (op w (2 ^ (i mod 64)))) = v) →
  ∃ w, zget l (i / 64) = Some w ∧ (∀ A (k : heap → res A),
    (w ← get (upd h1 z1 l) z1 (i / 64); h ← put (upd h1 z1 l) z1 (i / 64) (op w (2 ^ (i mod 64))); k h)
    = k (upd h1 z1 (zset l (i / 64) (op w (2 ^ (i mod 64)))))) ∧
    Forall word (zset l (i / 64) (op w (2 ^ (i mod 64)))) ∧ val (zset l (i / 64) (op w (2 ^ (i mod 64)))) = v.
Proof.
  intros M Hl Hw Hi Hlt Hop. assert (0 ≤ i / 64) by (apply Z.div_pos; lia).
  pose proof (md_valid _ _ _ _ _ M) as V1. destruct (zget_lt l (i / 64)) as [w Ew]; [lia|].
  destruct (Hop w Ew) as [Wo Vo]. exists w. split_and!; [done| |by apply Forall_zset|done].
  intros A k. pose proof (valid_upd h1 z1 l z1 V1 Hl V1). rewrite get_words by (done || lia). rewrite words_upd_eq by done.
  rewrite (idx_in _ _ _ Ew). cbn [mbind res_bind]. rewrite put_upd by (done || lia). cbn [mbind res_bind].
  rewrite words_upd_eq, upd_upd by (done || by rewrite len_zset). done.
Qed.

Lemma clearbit_high v i n : 0 ≤ v < _B ^ n → 0 ≤ n ≤ i / 64 → 0 ≤ i → Z.clearbit v i = v.
Proof.
  intros Hv Hn Hi. apply Z.bits_inj'. intros k Hk. rewrite Z.clearbit_eqb by done.
  destruct (Z.eqb_spec i k) as [->|]; [|by rewrite andb_true_r].
  rewrite andb_false_r. symmetry. rewrite B_eq, <-Z.pow_mul_r in Hv by lia.
  apply (testbit_high v (64 * n)); [done|]. pose proof (Z.div_mod k 64 ltac:(lia)).
  pose proof (Z.mod_pos_bound k 64 ltac:(lia)). lia.
Qed.

Lemma setBit_0_ok h z x i : valid h z → word_heap h → reads h z x → normal (words h x) → 0 ≤ i →
  returns h z (vlen x) (Z.clearbit (val (words h x)) i) (nat_setBit h z x i 0).
Proof.
  intros Hz Hw Rx Hn Hi. pose proof (va_len _ _ (rd_valid _ _ _ Rx)) as Lx.
  unfold nat_setBit. cbv zeta. change (0 =? 0) with true. change _W with 64. cbv iota.
  pose proof (Z.mod_pos_bound i 64 ltac:(lia)) as Hm. destruct (word_bit (i mod 64) Hm) as [-> _].
  destruct (make_ok h z (vlen x) Hz Hw ltac:(lia)) as (h1 & z1 & -> & M & L1 & L1' & _).
  cbn [mbind res_bind]. destruct (made_reads _ _ _ _ _ x M Rx) as [[Vx1 Ux1] Wx].
  pose proof (md_valid _ _ _ _ _ M) as V1. pose proof (word_heap_words h x Hw) as Ww.
  rewrite words_copy, L1, take_ge by (done || lia || (rewrite length_words by done; lia)). rewrite Wx.
  assert (len (words h x) = vlen z1) as Ll by (rewrite len_words by apply Rx; lia).
  destruct (Z.leb_spec (vlen x) (i / 64)).
  - rewrite (clearbit_high _ _ (vlen x)) by (lia || (rewrite <-L1, <-Ll; by apply val_range)).
    exists (upd h1 z1 (words h x)), z1. split; [done|]. apply whole_ok; rewrite ?words_upd_eq by done; try done;
      [apply M|by apply valid_upd|apply word_heap_upd; [apply M|done]|apply made_keeps_upd; (done || apply M)].
  - destruct (setBit_put h z (vlen x) h1 z1 (words h x) i Z.ldiff (Z.clearbit (val (words h x)) i))
      as (w & Ew & -> & Fw & Vw); try (done || lia).
    { intros w Ew. split; [|by apply val_setbit]. apply (op_range Z.ldiff (λ a b, a && negb b)); [lia| |by apply word_bit].
      by eapply (word_heap_get h). }
    apply ret_norm_made; [done|by rewrite len_zset|done|done].
Qed.

Lemma val_app_zeros l n : val (l ++ replicate n 0) = val l.
Proof. rewrite val_app, val_zeros. lia. Qed.

(** The words of [x], with zeros above them when the bit lies there. *)
Lemma setBit_start h z x n : valid h z → word_heap h → beside h z x → vlen x ≤ n →
  ∃ h1 z1, made h z n h1 z1 ∧ vlen z1 = n ∧ ∀ A (k : heap → vec → res A),
    ('(h, z) ← nat_make h z n; zr ← from z (vlen x); k (copy (clear h zr) z x) z)
    = k (upd h1 z1 (words h x ++ replicate (Z.to_nat (n - vlen x)) 0)) z1.
Proof.
  intros Hz Hw Bx Hl. pose proof (bs_valid _ _ _ Bx) as Vx. pose proof (va_len _ _ Vx) as Lx.
  destruct (make_ok h z n Hz Hw ltac:(lia)) as (h1 & z1 & -> & M & L1 & L1' & _). exists h1, z1.
  split_and!; [done|done|]. intros A k. cbn [mbind res_bind]. unfold from. rewrite sub_part by lia.
  cbn [mbind res_bind mret res_ret]. destruct (made_reads _ _ _ _ _ x M (beside_reads h z x Hz Bx)) as [[Vx1 Ux1] Wx].
  rewrite L1, <-Wx. f_equal. apply copy_zeros; [done|apply M| |lia|done].
  eapply beside_apart; [done|apply M|lia..].
Qed.

(** [make] and [clear] as the method does them, depending on where the bit lies. *)
Lemma setBit_made h z x i n h1 z1 l : valid h z → word_heap h → valid h x → 0 ≤ i / 64 →
  n = vlen x `max` (i / 64 + 1) →
  (∀ A (k : heap → vec → res A),
    ('(h, z) ← nat_make h z n; zr ← from z (vlen x); k (copy (clear h zr) z x) z) = k (upd h1 z1 l) z1) →
  ∀ A (k : heap → vec → res A),
    ('(h, z) ← (if vlen x <=? i / 64 then
       '(h, z) ← nat_make h z (i / 64 + 1); zr ← from z (vlen x); mret (clear h zr, z)
     else nat_make h z (vlen x)); k (copy h z x) z) = k (upd h1 z1 l) z1.
Proof.
  intros Hz Hw Vx Hj Hn Ek A k. pose proof (va_len _ _ Vx) as Lx.
  rewrite <-Ek. destruct (Z.leb_spec (vlen x) (i / 64)).
  - assert (n = i / 64 + 1) as -> by lia. destruct (nat_make h z _) as [[h' z']| |]; [|done..]. cbn [mbind res_bind].
    by destruct (from z' (vlen x)).
  - assert (n = vlen x) as -> by lia.
    destruct (make_ok h z (vlen x) Hz Hw ltac:(lia)) as (h3 & z3 & -> & M3 & L3 & L3' & _). cbn [mbind res_bind].
    unfold from. rewrite L3, sub_part by lia. cbn [mbind res_bind].
    f_equal. f_equal. unfold clear. simpl vlen. rewrite Z.sub_diag. simpl. symmetry.
    assert (valid h3 (part z3 (vlen x) (vlen x))) as Vp by (apply valid_part; [apply M3|lia..]).
    pose proof (upd_words _ _ Vp) as E. rewrite words_nil in E by (done || (simpl; lia)). done.
Qed.

Lemma setBit_1_ok h z x i : valid h z → word_heap h → beside h z x → normal (words h x) → 0 ≤ i →
  returns h z (vlen x `max` (i / 64 + 1)) (Z.setbit (val (words h x)) i) (nat_setBit h z x i 1).
Proof.
  intros Hz Hw Bx Hn Hi. pose proof (bs_valid _ _ _ Bx) as Vx. pose proof (va_len _ _ Vx) as Lx.
  assert (0 ≤ i / 64) as Hj by (apply Z.div_pos; lia).
  unfold nat_setBit. cbv zeta. change (1 =? 0) with false. change (1 =? 1) with true. change _W with 64. cbv iota.
  pose proof (Z.mod_pos_bound i 64 ltac:(lia)) as Hm. destruct (word_bit (i mod 64) Hm) as [-> Wb].
  set (n := vlen x `max` (i / 64 + 1)). set (l := words h x ++ replicate (Z.to_nat (n - vlen x)) 0).
  destruct (setBit_start h z x n Hz Hw Bx ltac:(lia)) as (h1 & z1 & M & L1 & Ek). fold l in Ek.
  pose proof (word_heap_words h x Hw) as Ww. pose proof (len_words h x Vx) as Lw.
  assert (len l = n) as Ll by (unfold l, len in *; rewrite length_app, length_replicate; lia).
  assert (Forall word l) as Fl by (apply Forall_app; split; [done|by apply Forall_replicate]).
  assert (val l = val (words h x)) as Vl by apply val_app_zeros.
  destruct (setBit_put h z n h1 z1 l i Z.lor (Z.setbit (val (words h x)) i))
    as (w & Ew & Eput & Fw & Vw); try (done || lia).
  { intros w Ew. rewrite <-Vl. split; [|by apply val_setbit]. apply (op_range Z.lor orb); [lia| |done].
    apply (proj1 (Forall_forall _ _) Fl). by eapply zget_elem_of. }
  set (l' := zset l (i / 64) (Z.lor w (2 ^ (i mod 64)))) in *.
  assert (len l' = n) as Ll' by (unfold l'; by rewrite len_zset).
  assert (normal l') as Nl'.
  { intros v Ev. rewrite Ll' in Ev. unfold l' in Ev. rewrite zget_zset in Ev by lia. case_decide as Hd.
    - injection Ev as <-. rewrite Z.lor_eq_0_iff. pose proof (Z.pow_pos_nonneg 2 (i mod 64)). lia.
    - assert (n = vlen x) as En by lia. unfold l in Ev. rewrite En, Z.sub_diag, app_nil_r in Ev. apply Hn. by rewrite Lw. }
  pose proof (setBit_made h z x i n h1 z1 l Hz Hw Vx Hj eq_refl Ek) as Estart.
  pose proof (Estart _ (λ h z, v ← get h z (i / 64); h ← put h z (i / 64) (Z.lor v (2 ^ (i mod 64))); mret (h, z))) as E.
  cbv beta in E. rewrite E, Eput. exists (upd h1 z1 l'), z1. split; [done|].
  pose proof (md_valid _ _ _ _ _ M) as V1. assert (len l' = vlen z1) as Ll1 by lia.
  apply whole_ok; rewrite ?words_upd_eq by done; try done;
    [apply M|by apply valid_upd|apply word_heap_upd; [apply M|done]|apply made_keeps_upd; (done || apply M)].
Qed.

Lemma setBit_other h z x i b : b ≠ 0 → b ≠ 1 → nat_setBit h z x i b = panics "set bit is not 0 or 1".
Proof. intros H0 H1. unfold nat_setBit. by rewrite (proj2 (Z.eqb_neq b 0)), (proj2 (Z.eqb_neq b 1)). Qed.

(** ** trunc *)

Lemma land_low v k : word v → 0 < k < 64 → Z.land v (Z.shiftl 1 k - 1) = v mod 2 ^ k ∧ word (v mod 2 ^ k).
Proof.
  intros Hv Hk. rewrite Z.shiftl_mul_pow2, Z.mul_1_l, land_mask by lia. split; [done|].
  assert (0 < 2 ^ k) by (apply Z.pow_pos_nonneg; lia). pose proof (Z.mod_pos_bound v (2 ^ k) ltac:(lia)).
  pose proof (Z.mod_le v (2 ^ k)). unfold is_uint in *. lia.
Qed.

(** The words up to the [n]th bit, the last one masked. *)
Lemma val_trunc l q r v : Forall word l → 0 ≤ q → 0 < r < 64 → zget l q = Some v →
  val (take (Z.to_nat q) l) + _B ^ q * (v mod 2 ^ r) = val l mod (_B ^ q * 2 ^ r).
Proof.
  intros Hl Hq Hr Ev. pose proof (zget_Some_range _ _ _ Ev) as Hlt.
  pose proof (val_take_range l q Hl ltac:(lia)) as Hlow. pose proof (Bpow_pos q Hq).
  destruct (pow_split r Hr) as (EB & P1 & P2).
  pose proof (Z.div_mod v (2 ^ r) ltac:(lia)) as Em. pose proof (Z.mod_pos_bound v (2 ^ r) P1) as Rm.
  apply (Z.mod_unique_pos _ _ (v / 2 ^ r + 2 ^ (64 - r) * val (drop (Z.to_nat (q + 1)) l))); [nia|].
  rewrite (val_split l q), (val_drop_S _ _ _ Ev) by lia. rewrite EB at 2. rewrite Em at 1. ring.
Qed.

Lemma trunc_ok h z x n : valid h z → word_heap h → reads h z x → normal (words h x) → 0 ≤ n < 2 ^ 64 - 64 →
  returns h z (vlen x) (val (words h x) mod 2 ^ n) (nat_trunc h z x n).
Proof.
  intros Hz Hw Rx Hn Hr. pose proof (rd_valid _ _ _ Rx) as Vx. pose proof (va_len _ _ Vx) as Lx.
  pose proof (word_heap_words h x Hw) as Ww. pose proof (len_words h x Vx) as Lw.
  unfold nat_trunc. cbv zeta. change _W with 64. rewrite uwrap_small by (unfold is_uint; lia).
  destruct (pow2_words n ltac:(lia)) as (Ep & Hq & Hm). pose proof (Z.div_mod n 64 ltac:(lia)) as Edm.
  assert ((n + 64 - 1) / 64 = n / 64 + (if n mod 64 =? 0 then 0 else 1)) as ->.
  { symmetry. destruct (Z.eqb_spec (n mod 64) 0) as [E0|E0].
    - apply (Z.div_unique_pos _ _ _ 63); lia.
    - apply (Z.div_unique_pos _ _ _ (n mod 64 - 1)); lia. }
  set (q := n / 64) in *. set (r := n mod 64) in *. set (w := q + (if r =? 0 then 0 else 1)).
  assert (0 < 2 ^ r) as Pr by (apply Z.pow_pos_nonneg; lia). pose proof (Bpow_pos q Hq) as Pq.
  destruct (Z.ltb_spec (vlen x) w) as [Hlt|Hge].
  { rewrite Z.mod_small; [by apply set_ok|]. rewrite Ep. pose proof (val_range _ Ww) as Rv. rewrite Lw in Rv.
    pose proof (Z.pow_le_mono_r _B (vlen x) q ltac:(pose proof B_big; lia)).
    unfold w in Hlt. destruct (r =? 0); nia. }
  assert (0 ≤ w) by (unfold w; zcases; lia).
  destruct (make_ok h z w Hz Hw ltac:(lia)) as (h1 & z1 & -> & M & L1 & L1' & _).
  cbn [mbind res_bind]. destruct (made_reads _ _ _ _ _ x M Rx) as [[Vx1 Ux1] Wx].
  pose proof (md_valid _ _ _ _ _ M) as V1. rewrite words_copy, L1, Wx by (done || lia).
  set (l := take (Z.to_nat w) (words h x)). assert (len l = vlen z1) as Ll by (unfold l; rewrite len_take; lia).
  assert (Forall word l) as Fl by (by apply Forall_take).
  eapply returns_mono; [|exact Hge]. destruct (Z.eqb_spec r 0) as [E0|E0]; simpl negb; cbv iota.
  { cbn [mbind res_bind mret res_ret]. apply ret_norm_made; [done..|]. rewrite Ep. replace (2 ^ r) with 1 by (by rewrite E0). rewrite Z.mul_1_r.
    assert (w = q) as Ewq by (unfold w; destruct (Z.eqb_spec r 0); lia). unfold l. rewrite Ewq.
    apply (Z.mod_unique_pos _ _ (val (drop (Z.to_nat q) (words h x)))); [apply val_take_range; (done || lia)|].
    rewrite (val_split (words h x) q) by lia. lia. }
  assert (w = q + 1) as Ew by (unfold w; destruct (Z.eqb_spec r 0); lia).
  destruct (zget_lt (words h x) q) as [v Ev]; [lia|].
  assert (zget l q = Some v) as El by (unfold l; rewrite zget_take by lia; done).
  pose proof (valid_upd h1 z1 l z1 V1 Ll V1). replace (w - 1) with q by lia.
  rewrite get_words by (done || lia). rewrite words_upd_eq, (idx_in _ _ _ El) by done. cbn [mbind res_bind].
  assert (word v) as Wv by (by eapply (word_heap_get h)). destruct (land_low v r Wv ltac:(lia)) as [-> Wm].
  rewrite put_upd by (done || lia). cbn [mbind res_bind]. rewrite words_upd_eq, upd_upd by (done || by rewrite len_zset).
  apply ret_norm_made; [done|by rewrite len_zset|by apply Forall_zset|].
  rewrite Ep, <-(val_trunc _ q r v) by (done || lia).
  assert (zget (zset l q (v mod 2 ^ r)) q = Some (v mod 2 ^ r)) as Ez by (apply zget_zset_eq; lia).
  pose proof (val_take_S _ _ _ Ez) as Ht. rewrite take_ge in Ht by (unfold zset; rewrite length_insert; unfold len in Ll; lia).
  rewrite Ht. f_equal. f_equal. apply zget_ext; rewrite ?len_take, ?len_zset; [lia|].
  intros k Hk. rewrite !zget_take by lia. rewrite zget_zset_ne by lia. unfold l. by rewrite zget_take by lia.
Qed.
