(* ===== verification/BigDiv.v ===== *)
(** * math/big: the stack of temporaries, and long division

    [stack] of math/big/nat.go and the long division of math/big/natdiv.go. The
    capacity that [append] gives a grown slice is a parameter: the language only
    says that the elements fit. *)

From Stdlib Require Import String.
From S2P Require Import Prelude Bytealg Bits BigHeap BigArith BigNat.

Section stack.
Context (append_cap : Z → Z → Z).

(** [slices.Grow(s, n)]: the elements are copied to a new array when there is
    no room for [n] more. *)
Definition Grow (h : heap) (s : vec) (n : Z) : res (heap * vec) :=
  if n <? 0 then panics "cannot be negative" else
  let n := n - (vcap s - vlen s) in
  if 0 <? n then
    full ← sub s 0 (vcap s);
    let '(h, t) := make_vec h (vcap s + n) (append_cap (vcap s) (vcap s + n)) in
    let h := copy h t full in
    t ← sub t 0 (vlen s);
    mret (h, t)
  else mret (h, s).

(** A stack is the slice [s.w]. [save] returns its length. *)
Definition stack_save (stk : vec) : Z := vlen stk.
Definition stack_restore (stk : vec) (n : Z) : res vec := sub stk 0 n.

(** [w[i:j:k]] *)
Definition sub3 (s : vec) (i j k : Z) : res vec :=
  if decide (0 ≤ i ∧ i ≤ j ∧ j ≤ k ∧ k ≤ vcap s)
  then mret (Vec (arr s) (off s + i) (j - i) (k - i)) else Panic SliceOutOfRange.

Definition stack_nat (h : heap) (stk : vec) (n : Z) : res (heap * vec * vec) :=
  let nr := Z.ldiff (n + 3) 3 in
  let off := vlen stk in
  '(h, stk) ← Grow h stk nr;
  stk ← sub stk 0 (off + nr);
  x ← sub3 stk off (off + n) (off + n);
  h ← (if 0 <? n then put h x 0 0xfedcb else mret h);
  mret (h, stk, x).

(** ** Long division *)

(** [x1 x2 > y1 y2] on numbers of two digits. *)
Definition greaterThan (x1 x2 y1 y2 : Z) : bool := (y1 <? x1) || ((x1 =? y1) && (y2 <? x2)).

(** The guess of one quotient digit from two digits of the dividend, refined with a third. *)
Definition refine (vn1 vn2 ujn2 : Z) (qhat rhat : Z) : res Z :=
  let '(x1, x2) := mulWW qhat vn2 in
  loop (fuel_of 2) (λ '(qhat, rhat, x1, x2),
    if greaterThan x1 x2 rhat ujn2 then
      let qhat := u64 (qhat - 1) in
      let prevRhat := rhat in
      let rhat := u64 (rhat + vn1) in
      if rhat <? prevRhat then mret (inr qhat) else
      let '(x1, x2) := mulWW qhat vn2 in
      mret (inl (qhat, rhat, x1, x2))
    else mret (inr qhat)) (qhat, rhat, x1, x2).

(** The body of the loop over the quotient digits, for the digit [j]. *)
Definition div_digit (q u v qhatv : vec) (m n vn1 rec : Z) (s : heap * Z) (j : Z) : res (heap * Z) :=
  let '(h, ujn) := s in
  qhat ← (if negb (ujn =? vn1) then
            un1 ← get h u (j + n - 1);
            '(qhat, rhat) ← divWW ujn un1 vn1 rec;
            vn2 ← get h v (n - 2);
            ujn2 ← get h u (j + n - 2);
            refine vn1 vn2 ujn2 qhat rhat
          else mret _M);
  qn ← sub qhatv 0 n;
  '(h, c) ← mulAddVWW h qn v qhat 0;
  h ← put h qhatv n c;
  top ← get h qhatv n;
  let qhl := if (vlen u <? j + vlen qhatv) && (top =? 0) then vlen qhatv - 1 else vlen qhatv in
  uj ← sub u j (j + qhl); ql ← sub qhatv 0 qhl;
  '(h, c) ← subVV h uj uj ql;
  '(h, qhat) ← (if negb (c =? 0) then
                  un ← sub u j (j + n);
                  '(h, c) ← addVV h un un v;
                  h ← (if n <? qhl then w ← get h u (j + n); put h u (j + n) (u64 (w + c)) else mret h);
                  mret (h, u64 (qhat - 1))
                else mret (h, qhat));
  ujn ← get h u (j + n - 1);
  if (j =? m) && (m =? vlen q) && (qhat =? 0) then mret (h, ujn) else
  h ← put h q j qhat;
  mret (h, ujn).

Definition divBasic (h : heap) (stk q u v : vec) : res (heap * vec) :=
  let n := vlen v in
  let m := vlen u - n in
  let mark := stack_save stk in
  '(h, stk, qhatv) ← stack_nat h stk (n + 1);
  vn1 ← get h v (n - 1);
  rec ← reciprocalWord vn1;
  '(h, _) ← foldM (div_digit q u v qhatv m n vn1 rec) (reverse (seqZ 0 (m + 1))) (h, 0);
  stk ← stack_restore stk mark;
  mret (h, stk).

(** The recursive division, for divisors of [divRecursiveThreshold] words or
    more, is an argument of the model. *)
Definition divRecursiveThreshold : Z := 40.
Context (divRecursive : heap → vec → vec → vec → vec → res (heap * vec)).

(** The operands scaled so that the divisor's top bit is set: [v] and [u] are
    copies. *)
Definition scale (h : heap) (v u uIn vIn : vec) (shift : Z) : res heap :=
  if shift =? 0 then
    let h := copy h v vIn in
    ul ← to u (vlen uIn);
    let h := copy h ul uIn in
    put h u (vlen uIn) 0
  else
    '(h, _) ← lshVU h v vIn shift;
    ul ← to u (vlen uIn);
    '(h, c) ← lshVU h ul uIn shift;
    put h u (vlen uIn) c.

Definition divLarge (h : heap) (stk z u uIn vIn : vec) : res (heap * vec * vec * vec) :=
  let n := vlen vIn in
  let m := vlen uIn - n in
  let mark := stack_save stk in
  top ← get h vIn (n - 1);
  shift ← nlz top;
  '(h, stk, v) ← stack_nat h stk n;
  '(h, u) ← nat_make h u (vlen uIn + 1);
  h ← scale h v u uIn vIn shift;
  let z := if alias z u then nilvec else z in
  '(h, q) ← nat_make h z (m + 1);
  '(h, stk) ← (if n <? divRecursiveThreshold then divBasic h stk q u v else divRecursive h stk q u v);
  q ← nat_norm h q;
  h ← (if negb (shift =? 0) then '(h, _) ← rshVU h u u shift; mret h else mret h);
  r ← nat_norm h u;
  stk ← stack_restore stk mark;
  mret (h, stk, q, r).

(** [div]; without a stack it takes [pooled] from the pool. The stack is
    returned after the quotient and the remainder. *)
Definition nat_div (h : heap) (stk : option vec) (pooled z z2 u v : vec) : res (heap * vec * vec * vec) :=
  let given := default pooled stk in
  if vlen v =? 0 then panics "division by zero" else
  if vlen v =? 1 then
    y ← get h v 0;
    '(h, q, r2) ← nat_divW h z u y;
    '(h, r) ← nat_setWord h z2 r2;
    mret (h, given, q, r)
  else
    c ← nat_cmp h u v;
    if c <? 0 then
      q ← to z 0;
      '(h, r) ← nat_set h z2 u;
      mret (h, given, q, r)
    else divLarge h given z z2 u v.

(** [rem], with the quotient on the stack. *)
Definition nat_rem (h : heap) (stk z u v : vec) : res (heap * vec * vec) :=
  let z := if alias z u then nilvec else z in
  let mark := stack_save stk in
  '(h, stk, q) ← stack_nat h stk (1 `max` (vlen u - (vlen v - 1)));
  '(h, stk, _, r) ← nat_div h (Some stk) stk q z u v;
  stk ← stack_restore stk mark;
  mret (h, stk, r).
End stack.
