(* ===== verification/BigLong.v ===== *)
(** * math/big: long division

    The guess from two digits, refined with a third, is the quotient of three
    digits by two; it exceeds the quotient digit by one at most. A step subtracts
    the product with the guess, adds the divisor back when that was too much, and
    stores the digit; the loop leaves quotient and remainder. *)

From S2P Require Import Prelude Bits BigHeap BigArith BigWords BigVec BigNat BigDiv BigRes BigMul BigBits.

(** * One digit of a long division *)

Lemma mulWW_word x y : word x → word y →
  ∃ hi lo, mulWW x y = (hi, lo) ∧ word hi ∧ word lo ∧ hi * _B + lo = x * y.
Proof.
  intros Hx Hy. destruct (Mul_word x y Hx Hy) as (hi & lo & E & ?). exists hi, lo. unfold mulWW. by rewrite E.
Qed.

Lemma greaterThan_ok x1 x2 y1 y2 : word x2 → word y2 → greaterThan x1 x2 y1 y2 = (y1 * _B + y2 <? x1 * _B + x2).
Proof.
  intros Hx Hy. unfold greaterThan. words.
  destruct (Z.ltb_spec (y1 * _B + y2) (x1 * _B + x2)) as [H1|H1], (Z.ltb_spec y1 x1) as [H2|H2],
    (Z.eqb_spec x1 y1) as [H3|H3], (Z.ltb_spec y2 x2) as [H4|H4]; simpl; try done; exfalso; nia.
Qed.

Section refine.
Context (vn1 vn2 u2 x1 : Z) (H1 : word vn1) (H2 : word vn2) (Hu : word u2) (Hn : _B ≤ 2 * vn1).

(** The state of the loop: a guess that is not too small, and its remainder. *)
Definition refine_inv (s : Z * Z * Z * Z) (k : Z) : Prop :=
  let '(qhat, rhat, p1, p2) := s in
  0 ≤ k ∧ word qhat ∧ word rhat ∧ word p2 ∧ p1 * _B + p2 = qhat * vn2 ∧ x1 = qhat * vn1 + rhat ∧
  x1 * _B + u2 < (qhat + 1) * (vn1 * _B + vn2) ∧ (2 - k) * vn1 ≤ rhat.

Lemma refine_ok qhat rhat : word qhat → 0 ≤ rhat < vn1 → x1 = qhat * vn1 + rhat →
  ∃ r, refine vn1 vn2 u2 qhat rhat = Ok r ∧ word r ∧
    r * (vn1 * _B + vn2) ≤ x1 * _B + u2 < (r + 1) * (vn1 * _B + vn2).
Proof using H1 H2 Hu Hn.
  intros Hq Hr E. unfold refine. destruct (mulWW_word qhat vn2 Hq H2) as (p1 & p2 & -> & W1 & W2 & Ep).
  apply (proj1 (wp_exists _ (λ r, word r ∧ r * (vn1 * _B + vn2) ≤ x1 * _B + u2 < (r + 1) * (vn1 * _B + vn2)))).
  apply (wp_loop_measure refine_inv _ _ _ 2).
  - words. unfold refine_inv. words. split_and!; try lia; nia.
  - intros [[[q r] a] b] k (Hk & _). done.
  - done.
  - clear qhat rhat p1 p2 Hq Hr E W1 W2 Ep. intros [[[q r] a] b] k (Hk & Hq & Hr & Hb & Ep & E & Hmax & Hrk).
    rewrite greaterThan_ok by done. rewrite Ep. words.
    destruct (Z.ltb_spec (r * _B + u2) (q * vn2)) as [Hgt|Hle].
    2: { cbn. split; [by apply word_B|]. split; [|done]. rewrite E. nia. }
    assert (0 < q) by nia. cbv zeta. rewrite (uwrap_small 64 (q - 1)) by (words; lia).
    assert (x1 * _B + u2 < (q - 1 + 1) * (vn1 * _B + vn2)) as Hmax' by (rewrite E; nia).
    destruct (Z_lt_le_dec (r + vn1) _B) as [Hlt|Hge].
    + rewrite uwrap_small by (words; lia). rewrite (proj2 (Z.ltb_ge _ _)) by lia.
      destruct (mulWW_word (q - 1) vn2) as (c & d & -> & Wc & Wd & Ecd); [words; lia|words; lia|].
      cbn. exists (k - 1). split; [|lia]. words. split_and!; try lia.
    + assert (u64 (r + vn1) = r + vn1 - _B) as ->.
      { unfold uwrap. rewrite <-B_eq. symmetry. apply (Z.mod_unique_pos _ _ 1); lia. }
      rewrite (proj2 (Z.ltb_lt _ _)) by lia. cbn. split; [words; lia|]. split; [|done].
      assert ((q - 1) * vn2 ≤ (_B - 1) * (_B - 1)) by nia. rewrite E. nia.
Qed.
End refine.

(** The quotient digit: the guess from the top digits is exact or one too large. *)
Lemma guess_digit P V vl X ul U v r : 0 < P → 0 ≤ vl < P → 0 ≤ ul < P → v = V * P + vl → U = X * P + ul →
  _B ≤ V → 0 ≤ r < _B → 0 ≤ X → r * V ≤ X < (r + 1) * V → U / v ≤ r ≤ U / v + 1.
Proof.
  intros HP Hvl Hul Ev EU HV Hr HX Hq. pose proof B_big.
  assert (0 < v) by nia. split.
  - apply Z.lt_succ_r, Z.div_lt_upper_bound; [done|]. rewrite Ev, EU. 
    assert (X + 1 ≤ (r + 1) * V) by lia. nia.
  - assert (r - 1 ≤ U / v); [|lia]. apply Z.div_le_lower_bound; [done|]. rewrite Ev, EU.
    assert (r * P ≤ V * P) by nia. assert (r * vl ≤ r * P) by nia. nia.
Qed.

(** When the top digits are equal the quotient digit is one of the two largest. *)
Lemma guess_max P vn1 vl U ul v : 0 < P → 0 ≤ vl < P → v = vn1 * P + vl → _B ≤ 2 * vn1 →
  U = vn1 * _B * P + ul → 0 ≤ ul → U < _B * v → U / v ≤ _B - 1 ≤ U / v + 1.
Proof.
  intros HP Hvl Ev Hn EU Hul HU. pose proof B_big. assert (0 < v) by nia. split.
  - assert (U / v < _B) by (apply Z.div_lt_upper_bound; lia). lia.
  - assert (_B - 2 ≤ U / v); [|lia]. apply Z.div_le_lower_bound; [done|].
    assert (v ≤ (vn1 + 1) * P) by nia. rewrite EU. nia.
Qed.

(** * One step of a long division in memory *)

(** ** The top digits of a number *)

Lemma val_take_one_more l i : Forall word l → 0 ≤ i ≤ len l →
  val (take (Z.to_nat (i + 1)) l) = val (take (Z.to_nat i) l) + _B ^ i * default 0 (zget l i).
Proof.
  intros Hl Hi. destruct (zget l i) as [w|] eqn:E; simpl; [by apply val_take_S|].
  apply zget_None in E. assert (i = len l) as -> by lia. rewrite !take_ge by (unfold len; lia). lia.
Qed.

(** A number below [_B ^ (n+1)], by its three top digits. *)
Lemma top_three l n : Forall word l → 2 ≤ n ≤ len l → val l < _B ^ (n + 1) →
  ∃ a b, zget l (n - 1) = Some a ∧ zget l (n - 2) = Some b ∧ word a ∧ word b ∧
    val l = ((default 0 (zget l n) * _B + a) * _B + b) * _B ^ (n - 2) + val (take (Z.to_nat (n - 2)) l) ∧
    0 ≤ val (take (Z.to_nat (n - 2)) l) < _B ^ (n - 2).
Proof.
  intros Hl Hn Hv. destruct (zget_lt l (n - 1)) as [a Ea]; [lia|]. destruct (zget_lt l (n - 2)) as [b Eb]; [lia|].
  exists a, b. assert (∀ i w, zget l i = Some w → word w) as Hw.
  { intros i w E. apply (proj1 (Forall_forall _ _) Hl). by eapply zget_elem_of. }
  split_and!; try done; [by eapply Hw|by eapply Hw| |apply val_take_range; (done || lia)|apply val_take_range; (done || lia)].
  assert (val l = val (take (Z.to_nat (n + 1)) l)) as E.
  { destruct (decide (n + 1 ≤ len l)); [|by rewrite take_ge by (unfold len in *; lia)].
    rewrite (val_split l (n + 1)) at 1 by lia. rewrite (val_high l (n + 1)) by (done || lia). lia. }
  rewrite E, val_take_one_more by (done || lia).
  pose proof (val_take_S _ _ _ Ea) as Ta. replace (n - 1 + 1) with n in Ta by lia.
  pose proof (val_take_S _ _ _ Eb) as Tb. replace (n - 2 + 1) with (n - 1) in Tb by lia.
  rewrite Ta, Tb. replace (_B ^ n) with (_B * _B * _B ^ (n - 2)).
  2: { rewrite <-Z.mul_assoc, <-!Bpow_S by lia. f_equal. lia. }
  replace (_B ^ (n - 1)) with (_B * _B ^ (n - 2)) by (rewrite <-Bpow_S by lia; f_equal; lia). ring.
Qed.

Lemma word_default l i : Forall word l → word (default 0 (zget l i)).
Proof.
  intros Hl. destruct (zget l i) as [w|] eqn:E; simpl; [|done].
  apply (proj1 (Forall_forall _ _) Hl). by eapply zget_elem_of.
Qed.

(** ** Writing inside what was written *)

Lemma splice_splice l j ws ws2 : 0 ≤ j → j + len ws ≤ len l → len ws2 ≤ len ws →
  splice (splice l j ws) j ws2 = splice l j (ws2 ++ drop (length ws2) ws).
Proof.
  intros Hj Hl Hl2. pose proof (len_nonneg ws2).
  assert (len (ws2 ++ drop (length ws2) ws) = len ws) as E by (rewrite len_app, len_drop; unfold len in *; lia).
  apply zget_ext; rewrite !len_splice by (rewrite ?len_splice; lia); [done|]. intros k Hk.
  rewrite !zget_splice by (rewrite ?len_splice; lia). rewrite E.
  destruct (decide (j ≤ k < j + len ws2)); [rewrite decide_True by lia; by rewrite zget_app_l by lia|].
  destruct (decide (j ≤ k < j + len ws)); [|done].
  rewrite zget_app_r, zget_drop by lia. f_equal. unfold len. lia.
Qed.

Lemma zset_splice_in l j ws k v : 0 ≤ j → j + len ws ≤ len l → 0 ≤ k < len ws →
  zset (splice l j ws) (j + k) v = splice l j (zset ws k v).
Proof.
  intros Hj Hl Hk. apply zget_ext; rewrite len_zset, !len_splice by (rewrite ?len_zset; lia); [done|].
  intros i Hi. rewrite zget_zset by (rewrite len_splice; lia). rewrite !zget_splice by (rewrite ?len_zset; lia).
  rewrite len_zset, zget_zset by lia. destruct (decide (j + k = i)) as [<-|].
  - rewrite decide_True by lia. by rewrite decide_True by lia.
  - case_decide; [|done]. by rewrite decide_False by lia.
Qed.

Lemma take_drop_splice l j ws k : 0 ≤ j → j + len ws ≤ len l → 0 ≤ k ≤ len ws →
  take (Z.to_nat k) (drop (Z.to_nat j) (splice l j ws)) = take (Z.to_nat k) ws.
Proof.
  intros Hj Hl Hk. apply zget_ext; rewrite !len_take, len_drop, len_splice by lia; [lia|].
  intros i Hi. rewrite !zget_take, zget_drop, zget_splice by lia. rewrite decide_True by lia. f_equal. lia.
Qed.

Lemma val_drop_splice l j ws : 0 ≤ j → j + len ws ≤ len l →
  val (drop (Z.to_nat j) (splice l j ws)) = val ws + _B ^ len ws * val (drop (Z.to_nat (j + len ws)) l).
Proof.
  intros Hj Hl. pose proof (len_nonneg ws). unfold splice.
  assert (length (take (Z.to_nat j) l) = Z.to_nat j) as E by (rewrite length_take; unfold len in *; lia).
  rewrite drop_app_ge by lia. rewrite E, Nat.sub_diag, drop_0, val_app. do 4 f_equal. unfold len. lia.
Qed.

(** ** Subtracting the product, and adding the divisor back *)

Section subtract.
Context (h : heap) (u v qhatv : vec) (Hw : word_heap h) (Vu : valid h u) (Vv : valid h v) (Vq : valid h qhatv).
Context (Auv : apart u v) (Auq : apart u qhatv).
Let n := vlen v.
Let us := words h u.
Context (j qhl : Z) (Hj : 0 ≤ j) (Hn : 1 ≤ n) (Hq : 0 ≤ qhl ≤ vlen qhatv).
Context (Hqhl : qhl = n + 1 ∧ j + n + 1 ≤ vlen u ∨ qhl = n ∧ j + n = vlen u).
Let uj := part u j (j + qhl).
Let ql := part qhatv 0 qhl.
Let un := part u j (j + n).
Context (U d r : Z) (EU : U = val (drop (Z.to_nat j) us)) (HU : 0 ≤ U < _B ^ (n + 1)).
Context (Hv : 0 < val (words h v) < _B ^ n) (Hd : 0 ≤ U - d * val (words h v) < val (words h v)).
Context (Hr : d ≤ r ≤ d + 1) (Wr : word r) (Hp : val (words h ql) = r * val (words h v)).

Lemma val_uj : val (words h uj) = U.
Proof using All.
  pose proof (len_words h u Vu). unfold uj. rewrite words_part by (done || lia). fold us.
  replace (j + qhl - j) with qhl by lia. rewrite EU. destruct Hqhl as [[-> Hl]|[-> Hl]].
  - rewrite (val_split (drop (Z.to_nat j) us) (n + 1)) by (unfold us; rewrite len_drop; lia).
    rewrite (val_high (drop (Z.to_nat j) us) (n + 1)); [lia| | |rewrite <-EU; lia].
    + by apply Forall_drop, word_heap_words.
    + unfold us. rewrite len_drop. lia.
  - rewrite take_ge; [done|]. unfold us. rewrite length_drop, length_words by done. lia.
Qed.

(** The borrow says that the guess was too large. *)
Lemma subtract_ok : ∃ ws c, subVV h uj uj ql = Ok (upd h u (splice us j ws), c) ∧ len ws = qhl ∧ Forall word ws ∧
  (c = 0 ∧ r = d ∧ val ws = U - d * val (words h v) ∨
   c = 1 ∧ r = d + 1 ∧ val ws = U - d * val (words h v) - val (words h v) + _B ^ qhl).
Proof using All.
  pose proof (va_len _ _ Vu). pose proof (va_len _ _ Vq). pose proof val_uj as Euj.
  assert (valid h uj) as Vuj by (apply valid_part; (done || lia)).
  destruct (subVV_ok h uj uj ql Vuj Hw) as (ws & c & -> & Lw & Ww & Hc & E).
  { split; [done|done|]. right. left. done. }
  { split; [apply valid_part; (done || lia)|simpl; lia|]. unfold apart, up_ok in *. simpl in *.
    destruct Auq as [?|?]; [by left|right; lia]. }
  simpl vlen in Lw, E. replace (j + qhl - j) with qhl in Lw, E by lia.
  exists ws, c. unfold uj. rewrite upd_part by (done || lia). fold us. split_and!; try done.
  pose proof (val_range ws Ww) as Rw. rewrite Lw in Rw. rewrite Euj, Hp in E.
  assert (0 < _B ^ qhl) by (apply Bpow_pos; lia).
  assert (c = 0 ∨ c = 1) as [-> | ->] by lia; [left|right]; (split; [done|]).
  - assert (r = d) as -> by nia. split; [done|lia].
  - assert (r = d + 1) as -> by nia. split; [done|lia].
Qed.

Lemma add_back_ok ws : len ws = qhl → Forall word ws → r = d + 1 →
  val ws = U - d * val (words h v) - val (words h v) + _B ^ qhl →
  ∃ seg, ('(h, c) ← addVV (upd h u (splice us j ws)) un un v;
     h ← (if n <? qhl then w ← get h u (j + n); put h u (j + n) (u64 (w + c)) else mret h);
     mret (h, u64 (r - 1))) = Ok (upd h u (splice us j seg), d) ∧ len seg = qhl ∧ Forall word seg ∧
    val seg = U - d * val (words h v).
Proof using All.
  intros Lw Ww Er Ev. pose proof (va_len _ _ Vu). pose proof (len_words h u Vu) as Lu. fold us in Lu.
  assert (len (splice us j ws) = vlen u) as Ls by (rewrite len_splice; lia).
  set (h1 := upd h u (splice us j ws)).
  assert (∀ t, valid h t → valid h1 t) as Vh1 by (intros; by apply valid_upd).
  assert (words h1 u = splice us j ws) as Wu1 by (by apply words_upd_eq).
  assert (words h1 v = words h v) as Wv1 by (by apply words_upd_apart).
  assert (word_heap h1) as Hw1.
  { apply word_heap_upd; [done|]. apply Forall_splice; [by apply word_heap_words|done]. }
  assert (valid h1 un) as Vun by (apply valid_part; auto; lia).
  destruct (addVV_ok h1 un un v Vun Hw1) as (w2 & c2 & -> & L2 & W2 & Hc2 & E2).
  { split; [done|done|]. right. left. done. }
  { split; [auto|simpl; lia|]. unfold apart, up_ok in *. simpl in *. fold n in Auv. destruct Auv as [?|?]; [by left|right; lia]. }
  simpl vlen in L2, E2. replace (j + n - j) with n in L2, E2 by lia. cbn [mbind res_bind].
  unfold un in *. rewrite words_part, Wu1 in E2 by (auto || lia). replace (j + n - j) with n in E2 by lia.
  rewrite take_drop_splice, Wv1 in E2 by lia.
  rewrite upd_part, Wu1 by (auto || lia). unfold h1. rewrite upd_upd; [|done|done|].
  2: { rewrite splice_splice by lia. rewrite len_splice; [done|lia|]. rewrite len_app, len_drop. unfold len in *; lia. }
  rewrite splice_splice by lia. assert (length w2 = Z.to_nat n) as Lw2 by (unfold len in L2; lia). rewrite Lw2.
  set (s2 := w2 ++ drop (Z.to_nat n) ws). assert (len s2 = qhl) as Ls2 by (unfold s2; rewrite len_app, len_drop; lia).
  pose proof (val_range w2 W2) as R2. rewrite L2 in R2.
  assert (u64 (r - 1) = d) as Ed by (rewrite uwrap_small; unfold is_uint in *; lia).
  pose proof (Bpow_pos n ltac:(lia)) as Pn. pose proof (val_split ws n ltac:(lia)) as Esp.
  destruct (Z.ltb_spec n qhl) as [Hlt|Hge].
  - assert (qhl = n + 1) as Eq by lia. destruct (zget_lt ws n) as [t Et]; [lia|].
    assert (word t) as Wt by (apply (proj1 (Forall_forall _ _) Ww); by eapply zget_elem_of).
    assert (zget s2 n = Some t) as Et2 by (unfold s2; rewrite zget_app_r, zget_drop by lia; rewrite L2, <-Et; f_equal; lia).
    assert (valid (upd h u (splice us j s2)) u) as Vu2 by (apply valid_upd; try done; rewrite len_splice; lia).
    assert (len (splice us j s2) = vlen u) as Ls3 by (rewrite len_splice; lia).
    rewrite get_words by (done || lia). rewrite words_upd_eq by done.
    rewrite (idx_in _ _ t) by (rewrite zget_splice, decide_True by lia; rewrite <-Et2; f_equal; lia). cbn [mbind res_bind].
    rewrite put_upd by (done || lia). cbn [mbind res_bind mret res_ret].
    rewrite words_upd_eq, upd_upd by (done || by rewrite len_zset). rewrite zset_splice_in by lia.
    exists (zset s2 n (u64 (t + c2))). rewrite Ed, len_zset.
    assert (drop (Z.to_nat n) ws = [t]) as Edr.
    { unfold zget in Et. rewrite decide_True in Et by lia. rewrite (drop_S _ _ _ Et), drop_ge; [done|]. unfold len in Lw. lia. }
    rewrite Edr in Esp. change (val [t]) with (t + _B * 0) in Esp.
    assert (_B ^ qhl = _B * _B ^ n) as EB by (rewrite <-Bpow_S by lia; f_equal; lia).
    assert (t + c2 = _B) as Etc by (words; nia).
    assert (u64 (t + c2) = 0) as -> by (rewrite Etc; reflexivity).
    split_and!; [done|done| |].
    + unfold zset. apply Forall_insert; [|done]. apply Forall_app. split; [done|by apply Forall_drop].
    + assert (zset s2 n 0 = w2 ++ [0]) as ->.
      { unfold s2. rewrite Edr. unfold zset. rewrite insert_app_r_alt by lia. by rewrite Lw2, Nat.sub_diag. }
      rewrite val_snoc. nia.
  - assert (qhl = n) as Eq by lia. cbn [mbind res_bind mret res_ret]. exists s2. rewrite Ed.
    assert (drop (Z.to_nat n) ws = []) as Edr by (apply drop_ge; unfold len in Lw; lia).
    rewrite Edr in Esp. unfold s2. rewrite Edr, app_nil_r.
    split_and!; [done|lia|done|]. simpl (val []) in Esp. rewrite Eq in Ev.
    assert (c2 = 0 ∨ c2 = 1) as [-> | ->] by lia; lia.
Qed.
End subtract.


(** ** The guess *)

Section digit.
Context (h : heap) (u v : vec) (Hw : word_heap h) (Vu : valid h u) (Vv : valid h v).
Let n := vlen v.
Let us := words h u.
Let vs := words h v.
Context (vn1 : Z) (Hn : 2 ≤ n) (Ev1 : zget vs (n - 1) = Some vn1) (Htop : _B ≤ 2 * vn1).
Context (j : Z) (Hj : 0 ≤ j) (Hjm : j + n ≤ vlen u).

(** The part of the dividend that the step divides, and its quotient. *)
Definition dividend : Z := val (drop (Z.to_nat j) us).
Definition digit : Z := dividend / val vs.

Context (HU : dividend < _B * val vs).

Lemma val_v : 0 < val vs < _B ^ n ∧ _B ^ n ≤ 2 * val vs.
Proof using Vv Hw Ev1 Htop Hn.
  pose proof (val_range vs ltac:(by apply word_heap_words)) as Hr. unfold vs in *. rewrite len_words in Hr by done.
  fold n in Hr. pose proof (val_take_S _ _ _ Ev1) as Ht. replace (n - 1 + 1) with n in Ht by lia.
  rewrite take_ge in Ht by (rewrite length_words by done; unfold n; lia).
  pose proof (val_take_range (words h v) (n - 1) ltac:(by apply word_heap_words)) as Hlow.
  rewrite len_words in Hlow by done. specialize (Hlow ltac:(unfold n; lia)).
  assert (_B ^ n = _B * _B ^ (n - 1)) as E by (rewrite <-Bpow_S by lia; f_equal; lia).
  pose proof (Bpow_pos (n - 1) ltac:(lia)). pose proof B_big. split; [|nia]. split; [nia|lia].
Qed.

Lemma dividend_range : 0 ≤ dividend < _B ^ (n + 1).
Proof using Vu Vv Hw Ev1 Htop Hn HU.
  destruct val_v as [Hv _]. split.
  - apply (val_range (drop (Z.to_nat j) us)). apply Forall_drop. by apply word_heap_words.
  - rewrite Z.add_comm, Bpow_S by lia. pose proof B_big. nia.
Qed.

Lemma zget_dividend k : 0 ≤ k → zget (drop (Z.to_nat j) us) k = zget us (j + k).
Proof using Hj. intros Hk. rewrite zget_drop by done. by rewrite Z2Nat.id by done. Qed.

(** The guess is the digit or one more; for the first digit it is at most one. *)
Lemma guess_ok ujn : ujn = default 0 (zget us (j + n)) →
  ∃ r, (if negb (ujn =? vn1) then
      un1 ← get h u (j + n - 1);
      '(qhat, rhat) ← divWW ujn un1 vn1 (recip vn1);
      vn2 ← get h v (n - 2);
      ujn2 ← get h u (j + n - 2);
      refine vn1 vn2 ujn2 qhat rhat
    else mret _M) = Ok r ∧ word r ∧ digit ≤ r ≤ digit + 1 ∧ (j + n = vlen u → r ≤ 1).
Proof using Vu Vv Hw Ev1 Htop Hn HU Hj Hjm.
  intros Eu. pose proof (word_heap_words h u Hw) as Wu. pose proof (word_heap_words h v Hw) as Wv.
  assert (len (drop (Z.to_nat j) us) = vlen u - j) as Ll by (unfold us; rewrite len_drop, len_words by done; lia).
  destruct (top_three (drop (Z.to_nat j) us) n) as (u1 & u2 & E1 & E2 & W1 & W2 & EU & Rl);
    [by apply Forall_drop|lia|apply dividend_range|].
  rewrite zget_dividend in E1, E2, EU by lia. rewrite <-Eu in EU.
  replace (j + (n - 1)) with (j + n - 1) in E1 by lia. replace (j + (n - 2)) with (j + n - 2) in E2 by lia.
  destruct (top_three vs n) as (v1 & v2 & F1 & F2 & X1 & X2 & EV & Rv); [done|unfold vs; rewrite len_words by done; lia|..].
  { destruct val_v as [? _]. rewrite Z.add_comm, Bpow_S by lia. pose proof B_big. pose proof (Bpow_pos n ltac:(lia)). nia. }
  rewrite (proj2 (zget_None vs n)) in EV by (right; unfold vs; rewrite len_words by done; lia). cbn [default] in EV.
  assert (v1 = vn1) as -> by congruence. clear F1. cbn in EV. rewrite ?Z.mul_0_l, ?Z.add_0_l in EV.
  assert (word ujn) as Wj by (rewrite Eu; by apply word_default).
  pose proof (Bpow_pos (n - 2) ltac:(lia)) as HP. set (P := _B ^ (n - 2)) in *.
  fold dividend in EU. destruct (Z.eqb_spec ujn vn1) as [->|Hne]; simpl negb; cbv iota.
  - exists _M. split; [done|]. split; [unfold _M; words; lia|]. split.
    + apply (guess_max (_B * P) vn1 (v2 * P + val (take (Z.to_nat (n - 2)) vs)) dividend
        ((u1 * _B + u2) * P + val (take (Z.to_nat (n - 2)) (drop (Z.to_nat j) us))) (val vs));
        words; try lia; try nia.
    + intros El. exfalso. rewrite (proj2 (zget_None us (j + n))) in Eu by (unfold us; rewrite len_words by done; lia).
      simpl in Eu. pose proof B_big. lia.
  - set (ul := val (take (Z.to_nat (n - 2)) (drop (Z.to_nat j) us))) in *. set (vl := val (take (Z.to_nat (n - 2)) vs)) in *.
    assert (word vn1) as Wvn by done. assert (ujn < vn1) as Hlt.
    { words. assert (_B * val vs ≤ _B * ((vn1 * _B + _B) * P)) by (apply Z.mul_le_mono_nonneg_l; [lia|]; rewrite EV; nia).
      assert (ujn * (_B * _B * P) < (vn1 + 1) * (_B * _B * P)) by nia.
      assert (0 < _B * _B * P) by nia. nia. }
    rewrite !(get_words h u) by (done || lia). rewrite (get_words h v) by (done || (unfold n in *; lia)). fold us vs.
    rewrite (idx_in _ _ _ E1), (idx_in _ _ _ E2), (idx_in _ _ _ F2). cbn [mbind res_bind].
    destruct (divWW_ok ujn u1 vn1) as (q & rr & -> & Wq & Rr & Eq); [done|done|words; lia|]. cbn [mbind res_bind].
    destruct (refine_ok vn1 v2 u2 (ujn * _B + u1) Wvn X2 W2 Htop q rr Wq Rr Eq) as (r & -> & Wr & Hr).
    exists r. split; [done|]. split; [done|]. words. split.
    + apply (guess_digit P (vn1 * _B + v2) vl ((ujn * _B + u1) * _B + u2) ul); try (done || lia); nia.
    + intros El. rewrite (proj2 (zget_None us (j + n))) in Eu by (unfold us; rewrite len_words by done; lia).
      simpl in Eu. subst ujn. nia.
Qed.
End digit.

(** * The loop over the quotient digits *)

Lemma keeps_incl h h' l l' : keeps h h' l → l ⊆ l' → keeps h h' l'.
Proof. intros H Hl. eapply keeps_weaken; [exact H|]. intros t _ F. rewrite Forall_forall in F. apply Forall_forall. auto. Qed.

(** The product of the divisor and the guess. *)
Lemma product_ok h qhatv v r : valid h qhatv → valid h v → word_heap h → vlen qhatv = vlen v + 1 →
  apart qhatv v → word r →
  ∃ h1 c ws, mulAddVWW h (part qhatv 0 (vlen v)) v r 0 = Ok (h1, c) ∧
    put h1 qhatv (vlen v) c = Ok (upd h qhatv (ws ++ [c])) ∧ get (upd h qhatv (ws ++ [c])) qhatv (vlen v) = Ok c ∧
    len ws = vlen v ∧ Forall word (ws ++ [c]) ∧ val ws + _B ^ vlen v * c = r * val (words h v).
Proof.
  intros Vq Vv Hw Lq Aq Wr. pose proof (va_len _ _ Vq). pose proof (va_len _ _ Vv).
  destruct (mulAddVWW_ok h (part qhatv 0 (vlen v)) v) with (m := r) (r := 0) as (ws & c & -> & Lw & Ww & Wc & E);
    [apply valid_part; (done || lia)|done| |done|done|].
  { split; [done|simpl; lia|]. unfold apart, up_ok in *. simpl in *. destruct Aq as [?|?]; [by left|right; lia]. }
  simpl vlen in Lw, E. rewrite Z.sub_0_r in Lw, E. exists (upd h (part qhatv 0 (vlen v)) ws), c, ws.
  assert (upd h (part qhatv 0 (vlen v)) ws = upto h qhatv ws) as -> by (rewrite <-Lw; apply upd_first; (done || lia)).
  assert (len (ws ++ [c]) = vlen qhatv) as Lc by (rewrite len_app; change (len [c]) with 1; lia).
  split; [done|]. rewrite <-Lw at 1. rewrite put_upto, upto_full by (done || lia). split; [done|]. split.
  - rewrite get_words by (try apply valid_upd; done || lia). rewrite words_upd_eq by done. apply idx_Ok.
    rewrite <-Lw. apply zget_mid.
  - split_and!; [done|apply Forall_app; auto|lia].
Qed.

Section step.
Context (h : heap) (q u v qhatv : vec) (Hw : word_heap h).
Context (Vq : valid h q) (Vu : valid h u) (Vv : valid h v) (Vh : valid h qhatv).
Context (Auv : apart u v) (Auh : apart u qhatv) (Aqu : apart q u) (Aqv : apart q v) (Aqh : apart q qhatv) (Ahv : apart qhatv v).
Let n := vlen v.
Let m := vlen u - n.
Let us := words h u.
Let vs := words h v.
Context (vn1 : Z) (Hn : 2 ≤ n) (Lh : vlen qhatv = n + 1) (Ev1 : zget vs (n - 1) = Some vn1) (Htop : _B ≤ 2 * vn1).
Context (j ujn : Z) (Hj : 0 ≤ j ≤ m) (Eu : ujn = default 0 (zget us (j + n))) (HU : dividend h u j < _B * val vs).
Context (Hq : j < vlen q ∨ j = m ∧ m = vlen q ∧ digit h u v j = 0).

(** What the step leaves. *)
Record stepped (h' : heap) (ujn' : Z) : Prop := {
  st_words : word_heap h';
  st_keeps : keeps h h' [q; u; qhatv];
  st_low : take (Z.to_nat j) (words h' u) = take (Z.to_nat j) us;
  st_rest : val (drop (Z.to_nat j) (words h' u)) = dividend h u j - digit h u v j * val vs;
  st_next : ujn' = default 0 (zget (words h' u) (j + n - 1));
  st_digit : words h' q = if j <? vlen q then zset (words h q) j (digit h u v j) else words h q;
}.

(** After the guess: [qhl] digits of the dividend and of the product take part. *)
Lemma reduce_ok r : word r → digit h u v j ≤ r ≤ digit h u v j + 1 → (j + n = vlen u → r ≤ 1) →
  ∃ h1 c h2 top qhl h3 c3 h4 seg,
    mulAddVWW h (part qhatv 0 n) v r 0 = Ok (h1, c) ∧ put h1 qhatv n c = Ok h2 ∧ get h2 qhatv n = Ok top ∧
    (if (vlen u <? j + vlen qhatv) && (top =? 0) then vlen qhatv - 1 else vlen qhatv) = qhl ∧
    0 ≤ qhl ≤ vlen qhatv ∧ n ≤ qhl ∧ j + qhl ≤ vlen u ∧
    subVV h2 (part u j (j + qhl)) (part u j (j + qhl)) (part qhatv 0 qhl) = Ok (h3, c3) ∧
    (if negb (c3 =? 0) then
       un ← sub u j (j + n); '(h, c) ← addVV h3 un un v;
       h ← (if n <? qhl then w ← get h u (j + n); put h u (j + n) (u64 (w + c)) else mret h);
       mret (h, u64 (r - 1))
     else mret (h3, r)) = Ok (h4, digit h u v j) ∧
    (∃ pr, len pr = vlen qhatv ∧ Forall word pr ∧ h4 = upd (upd h qhatv pr) u (splice us j seg)) ∧
    len seg = qhl ∧ Forall word seg ∧ val seg = dividend h u j - digit h u v j * val vs ∧
    val (drop (Z.to_nat (j + qhl)) us) = 0.
Proof using All.
  intros Wr Hr Hr1. pose proof (va_len _ _ Vu) as Lu'. pose proof (va_len _ _ Vh) as Lh'. pose proof (va_len _ _ Vv) as Lv'.
  pose proof (len_words h u Vu) as Lu. fold us in Lu.
  destruct (product_ok h qhatv v r Vh Vv Hw Lh Ahv Wr) as (h1 & c & ws & E1 & E2 & E3 & Lw & Ww & Ep). fold n in E1, E2, E3, Lw, Ep. fold vs in Ep.
  set (pr := ws ++ [c]) in *. assert (len pr = vlen qhatv) as Lp by (unfold pr; rewrite len_app; change (len [c]) with 1; lia).
  set (h2 := upd h qhatv pr) in *. assert (∀ t, valid h t → valid h2 t) as V2 by (intros; by apply valid_upd).
  assert (word_heap h2) as Hw2 by (by apply word_heap_upd).
  assert (words h2 u = us) as Wu2 by (by apply words_upd_apart; [..|apply apart_sym]).
  assert (words h2 v = vs) as Wv2 by (by apply words_upd_apart).
  assert (words h2 qhatv = pr) as Wp2 by (by apply words_upd_eq).
  destruct (val_v h v Hw Vv vn1 Hn Ev1 Htop) as [Hv Hv2]. fold n vs in Hv, Hv2.
  destruct (dividend_range h u v Hw Vu Vv vn1 Hn Ev1 Htop j HU) as [HU0 HU1].
  fold n in HU1. set (U := dividend h u j) in *. set (d := digit h u v j) in *.
  assert (0 ≤ U - d * val vs < val vs) as Hd.
  { pose proof (Z.div_mod U (val vs) ltac:(lia)) as Em. pose proof (Z.mod_pos_bound U (val vs) ltac:(lia)).
    change (U / val vs) with d in Em. lia. }
  assert (∃ qhl, (if (vlen u <? j + vlen qhatv) && (c =? 0) then vlen qhatv - 1 else vlen qhatv) = qhl ∧
    (qhl = n + 1 ∧ j + n + 1 ≤ vlen u ∨ qhl = n ∧ j + n = vlen u) ∧ val (take (Z.to_nat qhl) pr) = r * val vs)
    as (qhl & Eqhl & Hqhl & Epr).
  { destruct (decide (j = m)) as [Ejm|Hne].
    - assert (r ≤ 1) by (apply Hr1; unfold m in Ejm; lia).
      pose proof (val_range ws ltac:(by apply Forall_app in Ww as [? _])) as Rws. rewrite Lw in Rws.
      assert (0 ≤ c) by (apply Forall_app in Ww as [_ [? _]%Forall_cons]; unfold is_uint in *; lia).
      assert (r * val vs ≤ val vs) by nia.
      assert (c = 0) as ->.
      { destruct (decide (c = 0)); [done|]. exfalso. assert (_B ^ n * 1 ≤ _B ^ n * c) by (apply Z.mul_le_mono_nonneg_l; lia). lia. }
      rewrite (proj2 (Z.ltb_lt _ _)) by (unfold m in Ejm; lia). exists n. split_and!; [simpl; lia|unfold m in Ejm; lia|].
      unfold pr. rewrite take_app_le by (unfold len in Lw; lia). rewrite take_ge by (unfold len in Lw; lia). lia.
    - rewrite (proj2 (Z.ltb_ge _ _)) by (unfold m in *; lia). exists (n + 1).
      split_and!; [simpl; lia|unfold m in *; lia|]. rewrite take_ge by (unfold len in Lp; lia).
      unfold pr. rewrite val_snoc, Lw. lia. }
  destruct (subtract_ok h2 u v qhatv Hw2 (V2 u Vu) (V2 v Vv) (V2 qhatv Vh) Auv Auh j qhl) with (U := U) (d := d) (r := r)
    as (w3 & c3 & E4 & L3 & W3 & Hc3); rewrite ?Wu2, ?Wv2; try done; try (fold n; lia); [by rewrite words_to, Wp2 by (auto || lia)|].
  rewrite Wu2, Wv2 in *. 
  assert (∃ h4 seg, (if negb (c3 =? 0) then
       un ← sub u j (j + n); '(h, c) ← addVV (upd h2 u (splice us j w3)) un un v;
       h ← (if n <? qhl then w ← get h u (j + n); put h u (j + n) (u64 (w + c)) else mret h);
       mret (h, u64 (r - 1))
     else mret (upd h2 u (splice us j w3), r)) = Ok (h4, d) ∧ h4 = upd h2 u (splice us j seg) ∧
     len seg = qhl ∧ Forall word seg ∧ val seg = U - d * val vs) as (h4 & seg & E5 & Eh4 & L4 & W4 & V4).
  { destruct Hc3 as [(-> & Er & E)|(-> & Er & E)]; simpl negb; cbv iota.
    - exists (upd h2 u (splice us j w3)), w3. rewrite Er. done.
    - rewrite sub_part by lia. cbn [mbind res_bind].
      destruct (add_back_ok h2 u v qhatv Hw2 (V2 u Vu) (V2 v Vv) (V2 qhatv Vh) Auv Auh j qhl) with (U := U) (d := d) (r := r) (ws := w3)
        as (seg & E5 & L5 & W5 & V5); rewrite ?Wu2, ?Wv2; try done; try (fold n; lia); [by rewrite words_to, Wp2 by (auto || lia)|].
      rewrite Wu2, Wv2 in *. fold n in E5. rewrite E5. eexists _, seg. split_and!; done. }
  exists h1, c, h2, c, qhl, (upd h2 u (splice us j w3)), c3, h4, seg.
  assert (val (drop (Z.to_nat (j + qhl)) us) = 0) as Hhigh.
  { destruct Hqhl as [[-> Hl]|[-> Hl]]; [|rewrite drop_ge; [done|unfold len in Lu; lia]].
    replace (Z.to_nat (j + (n + 1))) with (Z.to_nat j + Z.to_nat (n + 1))%nat by lia. rewrite <-drop_drop.
    apply val_high; [by apply Forall_drop, word_heap_words|rewrite len_drop; lia|done]. }
  split_and!; try done; try lia. exists pr. split_and!; done.
Qed.

Lemma step_ok : ∃ h' ujn', div_digit q u v qhatv m n vn1 (recip vn1) (h, ujn) j = Ok (h', ujn') ∧ stepped h' ujn'.
Proof using All.
  pose proof (va_len _ _ Vu) as Lu'. pose proof (va_len _ _ Vh) as Lh'. pose proof (len_words h u Vu) as Lu. fold us in Lu.
  assert (j + n ≤ vlen u) as Hjm by (unfold m in Hj; lia).
  destruct (guess_ok h u v Hw Vu Vv vn1 Hn Ev1 Htop j (proj1 Hj) Hjm HU ujn Eu) as (r & Er & Wr & Hr & Hr1).
  fold n in Er, Hr1. destruct (reduce_ok r Wr Hr Hr1) as (h1 & c & h2 & top & qhl & h3 & c3 & h4 & seg &
    E1 & E2 & E3 & E4 & Hqhl & Hnq & Hjq & E5 & E6 & (pr & Lp & Wp & Eh4) & Ls & Ws & Vs & Hhigh).
  set (d := digit h u v j) in *. set (us' := splice us j seg) in *.
  assert (len us' = vlen u) as Lus' by (unfold us'; rewrite len_splice; lia).
  set (hq := upd h qhatv pr) in *. assert (∀ t, valid h t → valid hq t) as Vq1 by (intros; by apply valid_upd).
  assert (∀ t, valid h t → valid h4 t) as V4 by (intros; rewrite Eh4; apply valid_upd; auto).
  assert (word_heap h4) as Hw4.
  { rewrite Eh4. apply word_heap_upd; [by apply word_heap_upd|]. apply Forall_splice; [by apply word_heap_words|done]. }
  assert (words h4 u = us') as Wu4 by (rewrite Eh4; apply words_upd_eq; auto).
  assert (words h4 q = words h q) as Wq4.
  { rewrite Eh4, words_upd_apart by (auto || by apply apart_sym). by apply words_upd_apart; [..|apply apart_sym]. }
  assert (keeps h h4 [u; qhatv]) as K4.
  { rewrite Eh4. apply (keeps_trans h hq).
    - by apply (keeps_incl _ _ [qhatv]); [apply keeps_upd|set_solver].
    - apply (keeps_incl _ _ [u]); [apply keeps_upd; auto|set_solver]. }
  destruct (zget_lt us' (j + n - 1)) as [u' Eu']; [lia|].
  assert (get h4 u (j + n - 1) = Ok u') as Gu by (rewrite get_words, Wu4 by (auto || lia); by apply idx_in).
  assert (len (words h q) = vlen q) as Lq by (by apply len_words).
  set (skip := (j =? m) && (m =? vlen q) && (d =? 0)).
  assert (div_digit q u v qhatv m n vn1 (recip vn1) (h, ujn) j
    = if skip then mret (h4, u') else h ← put h4 q j d; mret (h, u')) as ->.
  { unfold div_digit. rewrite Er. cbn [mbind res_bind]. rewrite !sub_part by lia. cbn [mbind res_bind].
    rewrite E1. cbn [mbind res_bind]. rewrite E2. cbn [mbind res_bind]. rewrite E3. cbn [mbind res_bind]. cbv zeta.
    rewrite E4. rewrite !sub_part by lia. cbn [mbind res_bind]. rewrite E5. cbn [mbind res_bind].
    rewrite sub_part in E6 by lia. cbn [mbind res_bind] in E6. rewrite E6. cbn [mbind res_bind]. by rewrite Gu. }
  assert (take (Z.to_nat j) us' = take (Z.to_nat j) us) as Hlow.
  { unfold us', splice. rewrite take_app_le by (rewrite length_take; unfold len in Lu; lia). rewrite take_take. f_equal. lia. }
  assert (val (drop (Z.to_nat j) us') = dividend h u j - d * val vs) as Hrest.
  { unfold us'. rewrite val_drop_splice, Ls by lia. rewrite Hhigh. lia. }
  assert (skip = true ↔ vlen q ≤ j) as Hskip.
  { unfold skip. rewrite !andb_true_iff, !Z.eqb_eq. destruct Hq as [?|(-> & ? & ?)]; lia. }
  destruct skip.
  - exists h4, u'. split; [done|]. split; try done.
    + apply (keeps_incl _ _ _ _ K4). set_solver.
    + by rewrite Wu4.
    + by rewrite Wu4.
    + by rewrite Wu4, Eu'.
    + rewrite Wq4, (proj2 (Z.ltb_ge _ _)); [done|]. by apply Hskip.
  - assert (j < vlen q) as Hjq' by (destruct (decide (vlen q ≤ j)) as [Hd|]; [by apply Hskip in Hd|lia]).
    assert (word d) as Wd.
    { destruct (val_v h v Hw Vv vn1 Hn Ev1 Htop) as [Hv _]. fold vs in Hv.
      destruct (dividend_range h u v Hw Vu Vv vn1 Hn Ev1 Htop j HU) as [HU0 _]. words. split.
      - apply Z.div_pos; [done|fold vs; lia].
      - apply Z.div_lt_upper_bound; [fold vs; lia|]. fold vs. lia. }
    assert (len (zset (words h q) j d) = vlen q) as Lz by (by rewrite len_zset).
    rewrite put_upd by (auto || lia). cbn [mbind res_bind mret res_ret]. rewrite Wq4.
    eexists _, u'. split; [done|].
    assert (words (upd h4 q (zset (words h q) j d)) u = us') as Wu5 by (rewrite words_upd_apart; auto).
    split.
    + apply word_heap_upd; [done|]. unfold zset. apply Forall_insert; [by apply word_heap_words|done].
    + apply (keeps_trans h h4); [apply (keeps_incl _ _ _ _ K4); set_solver|].
      apply (keeps_incl _ _ [q]); [apply keeps_upd; auto|set_solver].
    + by rewrite Wu5.
    + by rewrite Wu5.
    + by rewrite Wu5, Eu'.
    + rewrite words_upd_eq, (proj2 (Z.ltb_lt _ _)) by auto. done.
Qed.
End step.
(** ** All the digits *)

Section loop.
Context (h0 : heap) (q u v qhatv : vec) (Hw0 : word_heap h0).
Context (Vq : valid h0 q) (Vu : valid h0 u) (Vv : valid h0 v) (Vh : valid h0 qhatv).
Context (Auv : apart u v) (Auh : apart u qhatv) (Aqu : apart q u) (Aqv : apart q v) (Aqh : apart q qhatv) (Ahv : apart qhatv v).
Let n := vlen v.
Let m := vlen u - n.
Let vs := words h0 v.
Context (vn1 : Z) (Hn : 2 ≤ n) (Lh : vlen qhatv = n + 1) (Ev1 : zget vs (n - 1) = Some vn1) (Htop : _B ≤ 2 * vn1).
Context (Hm : 0 ≤ m) (Hlq : m ≤ vlen q ≤ m + 1) (Hfit : val (words h0 u) < _B ^ vlen q * val vs).

(** When the digits from [j] on are found. *)
Record divided (j : Z) (s : heap * Z) : Prop := {
  dv_words : word_heap s.1;
  dv_keeps : keeps h0 s.1 [q; u; qhatv];
  dv_next : s.2 = default 0 (zget (words s.1 u) (j - 1 + n));
  dv_rem : val (drop (Z.to_nat j) (words s.1 u)) < val vs;
  dv_eq : val (words h0 u) = val (words s.1 u) + _B ^ j * val (drop (Z.to_nat j) (words s.1 q)) * val vs;
}.

Lemma divided_v j s : divided j s → valid s.1 q ∧ valid s.1 u ∧ valid s.1 v ∧ valid s.1 qhatv ∧ words s.1 v = vs.
Proof using All.
  intros [_ K _ _ _]. destruct (K v Vv) as [V4 W4]. split_and!; try done; try (by apply K).
  apply W4. rewrite !Forall_cons. split_and!; [done|done|done|by apply Forall_nil].
Qed.

Lemma divided_0 : divided (m + 1) (h0, 0).
Proof using All.
  pose proof (len_words h0 u Vu) as Lu. pose proof (len_words h0 q Vq) as Lq.
  destruct (val_v h0 v Hw0 Vv vn1 Hn Ev1 Htop) as [Hv Hv2]. fold n vs in Hv, Hv2.
  split; simpl; [done|apply keeps_refl| | |].
  - rewrite (proj2 (zget_None _ _)); [done|]. unfold m in *. lia.
  - pose proof (val_range (drop (Z.to_nat (m + 1)) (words h0 u)) ltac:(by apply Forall_drop, word_heap_words)) as R.
    rewrite len_drop, Lu in R. replace (_ `max` 0) with (n - 1) in R by (unfold m in *; lia).
    assert (_B ^ n = _B * _B ^ (n - 1)) as E by (rewrite <-Bpow_S by lia; f_equal; lia). pose proof B_big. pose proof (Bpow_pos (n - 1) ltac:(lia)). nia.
  - rewrite (drop_ge (words h0 q)) by (unfold len in Lq; lia). simpl. lia.
Qed.

Lemma divided_step j s : 0 ≤ j < m + 1 → divided (j + 1) s →
  wp (div_digit q u v qhatv m n vn1 (recip vn1) s j) (divided j).
Proof using All.
  intros Hj D. destruct (divided_v _ _ D) as (Vq' & Vu' & Vv' & Vh' & Ev). destruct D as [D1 D2 D3 D4 D5], s as [h ujn].
  cbn [fst snd] in *. replace (j + 1 - 1 + n) with (j + n) in D3 by lia.
  pose proof (len_words h0 u Vu) as Lu0. pose proof (len_words h u Vu') as Lu. pose proof (len_words h q Vq') as Lq.
  destruct (zget_lt (words h u) j) as [w Ew]; [unfold m in *; lia|]. pose proof (word_heap_get _ _ _ _ D1 Ew) as Ww.
  assert (dividend h u j < _B * val (words h v)) as HU.
  { unfold dividend. rewrite (val_drop_S _ _ _ Ew), Ev. unfold is_uint in Ww. rewrite B_eq in *. lia. }
  assert (zget (words h v) (n - 1) = Some vn1) as Ev1' by (by rewrite Ev).
  assert (j < vlen q ∨ j = m ∧ m = vlen q ∧ digit h u v j = 0) as Hq.
  { destruct (decide (j < vlen q)); [by left|right]. split_and!; [lia|lia|].
    rewrite (drop_ge (words h q)) in D5 by (unfold len in Lq; lia). simpl val in D5.
    rewrite (val_split (words h u) j) in D5 by (unfold m in *; lia).
    pose proof (val_take_range (words h u) j ltac:(by apply word_heap_words) ltac:(unfold m in *; lia)).
    pose proof (val_range (drop (Z.to_nat j) (words h u)) ltac:(by apply Forall_drop, word_heap_words)).
    unfold digit, dividend. rewrite Ev. apply Z.div_small. replace (vlen q) with j in Hfit by lia.
    pose proof (Bpow_pos j ltac:(lia)). nia. }
  destruct (step_ok h q u v qhatv D1 Vq' Vu' Vv' Vh' Auv Auh Aqu Aqv Aqh Ahv vn1 Hn Lh Ev1' Htop j ujn
    ltac:(fold n; unfold m in *; lia) D3 HU Hq) as (h' & ujn' & E & [S1 S2 S3 S4 S5 S6]).
  fold n in E. fold m in E. rewrite E. fold n in S5. rewrite Ev in *.
  assert (0 < val vs) as Hv by (by apply (val_v h0 v Hw0 Vv vn1 Hn Ev1 Htop)).
  assert (len (words h' u) = vlen u) as Lu' by (apply len_words; by apply S2).
  simpl. split; simpl; [done|by apply (keeps_trans _ h)| | |].
  - rewrite S5. do 2 f_equal. lia.
  - rewrite S4. pose proof (Z.mod_pos_bound (dividend h u j) (val vs) Hv). unfold digit. rewrite Ev.
    pose proof (Z.div_mod (dividend h u j) (val vs) ltac:(lia)). lia.
  - rewrite D5, (val_split (words h' u) j), S3, S4 by (unfold m in *; lia).
    rewrite (val_split (words h u) j) by (unfold m in *; lia). fold (dividend h u j).
    rewrite S6. set (d := digit h u v j) in *. rewrite (Z.add_comm j 1), Bpow_S by lia.
    destruct (Z.ltb_spec j (vlen q)) as [Hlt|Hge].
    + rewrite (val_drop_S (zset (words h q) j d) j d) by (rewrite zget_zset, decide_True; (done || lia)).
      unfold zset. rewrite drop_insert_lt by lia. rewrite (Z.add_comm 1 j). ring.
    + assert (d = 0) as -> by (destruct Hq as [?|(_ & _ & ?)]; (done || lia)).
      rewrite !drop_ge by (unfold len in Lq; lia). simpl. ring.
Qed.

Lemma digits_ok : ∃ h' x, foldM (div_digit q u v qhatv m n vn1 (recip vn1)) (reverse (seqZ 0 (m + 1))) (h0, 0) = Ok (h', x) ∧
  word_heap h' ∧ keeps h0 h' [q; u; qhatv] ∧
  val (words h' q) = val (words h0 u) / val vs ∧ val (words h' u) = val (words h0 u) mod val vs.
Proof using All.
  pose proof (wp_foldM_down divided (div_digit q u v qhatv m n vn1 (recip vn1)) 0 (m + 1) (h0, 0) ltac:(lia)
    divided_0 (λ i s Hi, divided_step i s ltac:(lia))) as ((h' & x) & E & D)%wp_exists.
  exists h', x. split; [done|]. destruct (divided_v _ _ D) as (_ & Vu' & _). destruct D as [D1 D2 _ D4 D5]. simpl in *.
  change (Z.to_nat 0) with 0%nat in *. rewrite !drop_0 in *.
  pose proof (val_range (words h' u) ltac:(by apply word_heap_words)).
  split_and!; [done|done|..]; [apply (div_exact _ _ (val vs) (val (words h' u)))|apply (div_exact _ (val (words h' q)) (val vs))]; lia.
Qed.
End loop.
