(* ===== verification/BigStack.v ===== *)
(** * math/big: temporaries on the stack, and the schoolbook division

    [stack.nat] hands out the part of the stack's array above the elements in
    use, and [restore] takes it back; [divBasic] keeps its product there. *)

From Stdlib Require Import String.
From S2P Require Import Prelude Bytealg Bits BigHeap BigArith BigWords BigVec BigNat BigRes BigMul BigBits BigDiv BigLong.

(** The room above the elements in use. *)
Definition free (stk : vec) : vec := part stk (vlen stk) (vcap stk).

(** What is clear of the room above a mark stays clear of it when the stack grows. *)
Definition clear_of (h : heap) (stk stk' : vec) : Prop :=
  ∀ t k, valid h t → 0 ≤ k ≤ vlen stk → apart (free (part stk 0 k)) t → apart (free (part stk' 0 k)) t.

Section stack.
Context (append_cap : Z → Z → Z) (Hcap : ∀ c n, n ≤ append_cap c n).
Implicit Types (h : heap) (s stk t : vec).

Lemma make_vec_ok h n c : word_heap h → 0 ≤ n ≤ c → ∃ h1 t, make_vec h n c = (h1, t) ∧ word_heap h1 ∧ valid h1 t ∧
  vlen t = n ∧ vcap t = c ∧ arr t = length h ∧ off t = 0 ∧ keeps h h1 [].
Proof using.
  intros Hw Hn. exists (fst (make_vec h n c)), (snd (make_vec h n c)). pose proof (valid_make_new h n c Hn) as [V _].
  split_and!; try done; [by apply word_heap_make|]. intros t Ht. destruct (valid_make_old h n c t Ht). done.
Qed.

Lemma Grow_ok h s n : valid h s → word_heap h → 0 ≤ n →
  ∃ h1 t, Grow append_cap h s n = Ok (h1, t) ∧ word_heap h1 ∧ valid h1 t ∧ vlen t = vlen s ∧
    vlen s + n ≤ vcap t ∧ keeps h h1 [] ∧ words h1 t = words h s ∧ (t = s ∨ (length h ≤ arr t)%nat ∧ off t = 0).
Proof using Hcap.
  intros Hs Hw Hn. pose proof (va_len _ _ Hs). unfold Grow. rewrite (proj2 (Z.ltb_ge n 0)) by lia.
  destruct (Z.ltb_spec 0 (n - (vcap s - vlen s))).
  2: { exists h, s. split_and!; try done; [lia|by left]. }
  rewrite sub_part by lia. cbn [mbind res_bind]. set (k := n - (vcap s - vlen s)) in *.
  set (c := append_cap (vcap s) (vcap s + k)). pose proof (Hcap (vcap s) (vcap s + k)) as Hc. fold c in Hc.
  destruct (make_vec_ok h (vcap s + k) c Hw ltac:(lia)) as (h1 & t & -> & Hw1 & V1 & Lt & Ct & At & Ot & K1).
  assert (valid h (part s 0 (vcap s))) as Vf by (apply valid_part; (done || lia)).
  destruct (K1 _ Vf) as [Vf1 Wf1]. specialize (Wf1 ltac:(done)). pose proof (len_words _ _ Vf) as Lf. simpl vlen in Lf. rewrite Z.sub_0_r in Lf.
  set (ws := words h (part s 0 (vcap s))) in *.
  assert (copy h1 t (part s 0 (vcap s)) = upto h1 t ws) as ->.
  { rewrite <-upd_first by (done || lia). unfold copy, upd, part. simpl vlen. rewrite Z.min_r by lia.
    change (words h1 _) with (words h1 (part s 0 (vcap s))). rewrite Wf1.
    rewrite (take_ge ws) by (unfold len in Lf; lia). cbn [arr off]. by rewrite Z.add_0_r. }
  assert (valid (upto h1 t ws) t) as V2 by (apply valid_upto; (done || lia)).
  rewrite sub_part by lia. cbn [mbind res_bind mret res_ret]. eexists _, (part t 0 (vlen s)). split; [done|].
  split_and!.
  - apply word_heap_upd; [done|]. apply Forall_app. split; [by apply word_heap_words|by apply Forall_drop, word_heap_words].
  - apply valid_part; (done || lia).
  - simpl. lia.
  - simpl. lia.
  - intros x Hx. destruct (K1 x Hx) as [Vx Wx]. split; [apply valid_upto; (done || lia)|]. intros _.
    rewrite <-Wx by done. apply words_upd_apart; try done; [apply len_upto; (done || lia)|].
    apply (apart_fresh h); [lia|done|done].
  - rewrite words_to by (done || lia). unfold upto. rewrite words_upd_eq by (done || (apply len_upto; (done || lia))).
    rewrite take_app_le by (unfold len in Lf; lia). unfold ws, words.
    simpl. rewrite take_take, Z.add_0_r. do 2 f_equal. lia.
  - right. simpl. lia.
Qed.

(** The numbers that the stack hands out. *)
Lemma stack_nat_ok h stk n : valid h stk → word_heap h → 0 ≤ n →
  ∃ h1 stk1 x, stack_nat append_cap h stk n = Ok (h1, stk1, x) ∧ word_heap h1 ∧ valid h1 stk1 ∧ valid h1 x ∧
    vlen x = n ∧ vcap x = n ∧ vlen stk ≤ vlen stk1 ∧ keeps h h1 [free stk] ∧
    (∀ t, valid h t → apart (free stk) t → apart x t ∧ apart (free stk1) t) ∧ clear_of h stk stk1 ∧
    apart x (free stk1) ∧ words h1 (part stk1 0 (vlen stk)) = words h stk.
Proof using Hcap.
  intros Hs Hw Hn. pose proof (va_len _ _ Hs) as Ls. unfold stack_nat. set (nr := Z.ldiff (n + 3) 3).
  assert (n ≤ nr ≤ n + 3) as Hnr.
  { unfold nr. change 3 with (Z.ones 2). rewrite Z.ldiff_ones_r by lia. rewrite Z.shiftl_mul_pow2, Z.shiftr_div_pow2 by lia.
    change (2 ^ 2) with 4. change (Z.ones 2) with 3. pose proof (Z.div_mod (n + 3) 4 ltac:(lia)).
    pose proof (Z.mod_pos_bound (n + 3) 4 ltac:(lia)). lia. }
  destruct (Grow_ok h stk nr Hs Hw ltac:(lia)) as (h1 & t & -> & Hw1 & Vt & Lt & Ct & K1 & Wt & Ht). cbn [mbind res_bind].
  rewrite sub_part by lia. cbn [mbind res_bind]. set (stk1 := part t 0 (vlen stk + nr)).
  unfold sub3. rewrite decide_True by (simpl; lia). cbn [mbind res_bind mret res_ret].
  set (x := Vec (arr stk1) (off stk1 + vlen stk) (vlen stk + n - vlen stk) (vlen stk + n - vlen stk)).
  assert (valid h1 stk1) as V1 by (apply valid_part; (done || lia)).
  assert (valid h1 x) as Vx by (destruct Vt as [A1 A2 A3]; split; unfold x, stk1; simpl; lia).
  assert (∀ s, valid h s → apart (free stk) s → apart x s ∧ apart (free stk1) s) as Ha.
  { intros s Vs Hap. destruct Ht as [->|[Ha H0]].
    - unfold apart, x, stk1 in *. simpl in *. destruct Hap as [?|?]; [split_and!; by left|split_and!; right; lia].
    - destruct Vs as [T1 T2 [?|[_ ?]]]; [|split_and!; left; simpl; lia]. split_and!; right; simpl; lia. }
  assert (clear_of h stk stk1) as Hc.
  { intros s k Vs Hk Hap. destruct Ht as [->|[Ha' H0]].
    - unfold apart, stk1 in *. simpl in *. destruct Hap as [?|?]; [by left|right; lia].
    - destruct Vs as [T1 T2 [?|[_ ?]]]; [|left; simpl; lia]. right; simpl; lia. }
  destruct (Z.ltb_spec 0 n).
  - rewrite put_upd by (simpl; done || lia). cbn [mbind res_bind mret res_ret].
    set (ws := zset (words h1 x) 0 0xfedcb). assert (len ws = vlen x) as Lws by (unfold ws; by rewrite len_zset, len_words).
    exists (upd h1 x ws), stk1, x. split_and!; try done.
    + apply word_heap_upd; [done|]. apply Forall_insert; [by apply word_heap_words|done].
    + by apply valid_upd.
    + by apply valid_upd.
    + simpl. lia.
    + simpl. lia.
    + simpl. lia.
    + intros s Vs. destruct (K1 s Vs) as [V1' W1']. split; [by apply valid_upd|]. intros [Has _]%Forall_cons.
      rewrite words_upd_apart; try done; [by apply W1'|by apply Ha].
    + unfold apart, x, stk1. simpl. right. lia.
    + rewrite words_upd_apart; try done; [|by apply valid_part; (done || (simpl; lia))|unfold apart, x, stk1; simpl; lia].
      rewrite <-Wt. unfold words, stk1. simpl. rewrite !Z.add_0_r, Z.sub_0_r. by rewrite Lt.
  - exists h1, stk1, x. split_and!; try done.
    + simpl. lia.
    + simpl. lia.
    + simpl. lia.
    + intros s Vs. destruct (K1 s Vs) as [V1' W1']. split; [done|]. intros _. by apply W1'.
    + unfold apart, x, stk1. simpl. right. lia.
    + rewrite <-Wt. unfold words, stk1. simpl. rewrite !Z.add_0_r, Z.sub_0_r. by rewrite Lt.
Qed.

(** [divBasic] overwrites [q] with the quotient and [u] with the remainder. *)
Lemma divBasic_ok h stk q u v vn1 : word_heap h → valid h stk → valid h q → valid h u → valid h v →
  apart u v → apart q u → apart q v → apart (free stk) q → apart (free stk) u → apart (free stk) v →
  2 ≤ vlen v ≤ vlen u → zget (words h v) (vlen v - 1) = Some vn1 → _B ≤ 2 * vn1 →
  vlen u - vlen v ≤ vlen q ≤ vlen u - vlen v + 1 → val (words h u) < _B ^ vlen q * val (words h v) →
  ∃ h' stk', divBasic append_cap h stk q u v = Ok (h', stk') ∧ word_heap h' ∧ valid h' stk' ∧ vlen stk' = vlen stk ∧
    keeps h h' [free stk; q; u] ∧ clear_of h stk stk' ∧
    val (words h' q) = val (words h u) / val (words h v) ∧ val (words h' u) = val (words h u) mod val (words h v).
Proof using Hcap.
  intros Hw Vs Vq Vu Vv Auv Aqu Aqv Asq Asu Asv Hn Ev Htop Hl Hfit.
  destruct (stack_nat_ok h stk (vlen v + 1) Vs Hw ltac:(lia))
    as (h1 & stk1 & x & E1 & Hw1 & Vs1 & Vx & Lx & Cx & Ls & K1 & Ha & Hc & Axs & _).
  assert (∀ t, valid h t → apart (free stk) t → valid h1 t ∧ words h1 t = words h t) as Hk.
  { intros t Vt At. destruct (K1 t Vt) as [V W]. split; [done|]. apply W. by apply Forall_singleton. }
  destruct (Hk q Vq Asq) as [Vq1 Wq1], (Hk u Vu Asu) as [Vu1 Wu1], (Hk v Vv Asv) as [Vv1 Wv1].
  destruct (Ha q Vq Asq) as [Axq _], (Ha u Vu Asu) as [Axu _], (Ha v Vv Asv) as [Axv _].
  assert (word vn1) as Wn by (exact (word_heap_get _ _ _ _ Hw Ev)). pose proof B_big.
  destruct (digits_ok h1 q u v x Hw1 Vq1 Vu1 Vv1 Vx) with (vn1 := vn1) as (h2 & r & E2 & Hw2 & K2 & Eq & Er);
    rewrite ?Wu1, ?Wv1; try done; try lia; try (by apply apart_sym).
  unfold divBasic, stack_save. cbv zeta. rewrite E1. cbn [mbind res_bind].
  rewrite get_words, Wv1, (idx_in _ _ _ Ev) by (done || lia). cbn [mbind res_bind].
  rewrite reciprocalWord_ok by (done || lia). cbn [mbind res_bind]. rewrite E2. cbn [mbind res_bind].
  pose proof (va_len _ _ Vs1). pose proof (va_len _ _ Vs).
  unfold stack_restore. rewrite sub_part by lia. cbn [mbind res_bind mret res_ret].
  rewrite Wu1, Wv1 in Eq, Er. eexists h2, _. split; [done|]. split_and!; try done.
  - apply valid_part; try lia. by apply K2.
  - simpl. lia.
  - intros t Vt. destruct (K1 t Vt) as [V1 W1], (K2 t V1) as [V2 W2]. split; [done|].
    rewrite !Forall_cons. intros (At & Aqt & Aut & _). destruct (Ha t Vt At) as [Axt _].
    rewrite W2, W1; [done|by apply Forall_singleton|]. by rewrite !Forall_cons.
  - intros t k Vt Hkk At. pose proof (Hc t k Vt Hkk At) as Hc'. unfold apart in *. simpl in *. destruct Hc' as [?|?]; [by left|right; lia].
Qed.
End stack.
