(* ===== verification/BigDivide.v ===== *)
(** * math/big: division of natural numbers *)

From Stdlib Require Import String.
From S2P Require Import Prelude Bytealg Bits BigHeap BigArith BigWords BigVec BigNat BigRes BigMul BigBits BigDiv BigLong BigStack.

Lemma beside_down_to h z x : beside h z x → vlen x ≤ vcap z → down_ok (part z 0 (vlen x)) x.
Proof.
  intros [Vx Hp] Hl. pose proof (va_len _ _ Vx). unfold down_ok, apart in *. simpl in *.
  destruct Hp as [?|[?|[?|?]]]; [by left|right; lia|by left|right; lia].
Qed.

(** ** The scaled copies *)

Section scale.
Context (h : heap) (v u uIn vIn : vec) (Hw : word_heap h).
Context (Vv : valid h v) (Vu : valid h u) (Vui : valid h uIn) (Vvi : valid h vIn).
Context (Lv : vlen v = vlen vIn) (Lu : vlen u = vlen uIn + 1).
Context (Av : apart v vIn) (Avu : apart v uIn) (Auv : apart u v) (Ho : down_ok (part u 0 (vlen uIn)) uIn).
Context (s : Z) (Hs : 0 ≤ s < 64) (Hfit : val (words h vIn) * 2 ^ s < _B ^ vlen vIn).

Lemma scale_shift : scale h v u uIn vIn s =
  ('(h, _) ← lshVU h v vIn s; ul ← to u (vlen uIn); '(h, c) ← lshVU h ul uIn s; put h u (vlen uIn) c).
Proof using All.
  pose proof (va_len _ _ Vu). pose proof (va_len _ _ Vui). unfold scale. destruct (Z.eqb_spec s 0) as [->|]; [|done]. 
  unfold lshVU, lshVU_g, same_len, to. rewrite Lv, Z.eqb_refl. simpl. rewrite sub_part by lia. cbn [mbind res_bind].
  simpl vlen. by rewrite Z.sub_0_r, !Z.eqb_refl.
Qed.

Lemma scale_ok : ∃ wv wu, scale h v u uIn vIn s = Ok (upd (upd h v wv) u wu) ∧
  len wv = vlen v ∧ Forall word wv ∧ val wv = val (words h vIn) * 2 ^ s ∧
  len wu = vlen u ∧ Forall word wu ∧ val wu = val (words h uIn) * 2 ^ s.
Proof using All.
  pose proof (va_len _ _ Vu). pose proof (va_len _ _ Vui). pose proof (va_len _ _ Vvi). rewrite scale_shift.
  destruct (lshVU_ok h v vIn s Vv Hw Vvi ltac:(lia)) as (wv & c & -> & Lwv & Wwv & Wc & Ev); [|done|].
  { unfold down_ok, apart in *. destruct Av as [?|?]; [by left|right; lia]. }
  cbn [mbind res_bind]. unfold to. rewrite sub_part by lia. cbn [mbind res_bind].
  assert (word_heap (upd h v wv)) as Hw1 by (by apply word_heap_upd).
  assert (∀ t, valid h t → valid (upd h v wv) t) as V1 by (intros; by apply valid_upd).
  assert (words (upd h v wv) uIn = words h uIn) as Wu1 by (by apply words_upd_apart).
  destruct (lshVU_ok (upd h v wv) (part u 0 (vlen uIn)) uIn s) as (ws & c2 & -> & Lws & Wws & Wc2 & Eu);
    [apply valid_part; auto; lia|done|auto|simpl; lia|done|done|].
  simpl vlen in Lws, Eu. rewrite Z.sub_0_r in Lws, Eu. rewrite Wu1 in Eu. cbn [mbind res_bind].
  exists wv, (ws ++ [c2]). assert (len (ws ++ [c2]) = vlen u) as Lc by (rewrite len_app; change (len [c2]) with 1; lia).
  split_and!; try done.
  - rewrite <-Lws, upd_first, put_upto, upto_full by (auto || lia). done.
  - pose proof (val_range wv Wwv). pose proof (Bpow_pos (vlen v) ltac:(lia)). rewrite Lwv in *. rewrite <-Lv in Hfit. unfold is_uint in Wc.
    assert (c = 0) as -> by nia. lia.
  - by apply Forall_app; auto.
  - rewrite val_snoc, Lws. lia.
Qed.
End scale.

(** ** Division of long operands *)

(** The heap, the stack, the quotient and the remainder that a division leaves. *)
Record divides (h : heap) (stk z z2 : vec) (a b : Z) (h' : heap) (stk' q r : vec) : Prop := {
  ds_words : word_heap h';
  ds_stack : valid h' stk' ∧ vlen stk' = vlen stk;
  ds_clear : clear_of h stk stk';
  ds_keeps : keeps h h' [free stk; whole z; whole z2];
  ds_quo : valid h' q ∧ normal (words h' q) ∧ val (words h' q) = a / b;
  ds_rem : valid h' r ∧ normal (words h' r) ∧ val (words h' r) = a mod b;
}.

(** The quotient of the scaled numbers, and their remainder scaled back. *)
Lemma unscale a b c : 0 ≤ a → 0 < b → 0 < c → a * c / (b * c) = a / b ∧ a * c mod (b * c) / c = a mod b.
Proof.
  intros Ha Hb Hc. rewrite Z.div_mul_cancel_r by lia. split; [done|].
  rewrite Zmult_mod_distr_r. by rewrite Z.div_mul by lia.
Qed.
(** After the long division: the quotient's leading zeros, and the remainder shifted back. *)
Lemma finish_ok h5 q u1 s : word_heap h5 → valid h5 q → valid h5 u1 → apart q u1 → 0 ≤ s < 64 →
  ∃ k h6 k2, nat_norm h5 q = Ok (part q 0 k) ∧
    (if negb (s =? 0) then '(h, _) ← rshVU h5 u1 u1 s; mret h else mret h5) = Ok h6 ∧
    nat_norm h6 u1 = Ok (part u1 0 k2) ∧ word_heap h6 ∧ keeps h5 h6 [u1] ∧
    (valid h6 (part q 0 k) ∧ normal (words h6 (part q 0 k)) ∧ val (words h6 (part q 0 k)) = val (words h5 q)) ∧
    (valid h6 (part u1 0 k2) ∧ normal (words h6 (part u1 0 k2)) ∧
     val (words h6 (part u1 0 k2)) = val (words h5 u1) / 2 ^ s).
Proof.
  intros Hw5 Vq Vu1 Aqu Hs. destruct (norm_ok h5 q Vq) as (k & E1 & Hk & Ev & Hn).
  assert (∃ ws, (if negb (s =? 0) then '(h, _) ← rshVU h5 u1 u1 s; mret h else mret h5) = Ok (upd h5 u1 ws) ∧
    len ws = vlen u1 ∧ Forall word ws ∧ val ws = val (words h5 u1) / 2 ^ s) as (ws & -> & Lws & Wws & Ews).
  { destruct (Z.eqb_spec s 0) as [->|]; simpl negb; cbv iota.
    - exists (words h5 u1). rewrite upd_words, len_words by done. split_and!; try done; [by apply word_heap_words|by rewrite Z.div_1_r].
    - destruct (rshVU_ok h5 u1 u1 s Vu1 Hw5 Vu1 eq_refl) as (ws & c & -> & L & W & _ & E); [right; left; done|done|].
      exists ws. done. }
  assert (valid (upd h5 u1 ws) u1) as Vu6 by (by apply valid_upd).
  destruct (norm_ok _ u1 Vu6) as (k2 & E2 & Hk2 & Ev2 & Hn2). rewrite words_upd_eq in Ev2 by done.
  pose proof (va_len _ _ Vq). pose proof (va_len _ _ Vu1). assert (valid h5 (part q 0 k)) as Vqk by (apply valid_part; (done || lia)).
  assert (words (upd h5 u1 ws) (part q 0 k) = words h5 (part q 0 k)) as Eq.
  { apply words_upd_apart; try done. apply apart_part_r; [by apply apart_sym|lia|lia]. }
  exists k, (upd h5 u1 ws), k2. rewrite Eq. split_and!; try done; [by apply word_heap_upd|by apply keeps_upd|by apply valid_upd| |].
  - apply valid_part; (done || lia).
  - congruence.
Qed.

Section large.
Context (append_cap : Z → Z → Z) (Hcap : ∀ c n, n ≤ append_cap c n) (divRecursive : heap → vec → vec → vec → vec → res (heap * vec)).
Context (h : heap) (stk z u uIn vIn : vec) (Hw : word_heap h) (Vs : valid h stk).
Context (Vz : valid h z) (Vu : valid h u) (Vvi : valid h vIn) (Hbs : beside h u uIn).
Context (Asz : apart (free stk) (whole z)) (Asu : apart (free stk) (whole u)).
Context (Asx : apart (free stk) uIn) (Asy : apart (free stk) vIn).
Context (Azu : apart (whole z) (whole u) ∨ alias z u = true).
Let n := vlen vIn.
Let m := vlen uIn - n.
Context (Hn : 2 ≤ n ≤ vlen uIn) (top : Z) (Etop : zget (words h vIn) (n - 1) = Some top) (Htop : top ≠ 0).

(** The receiver of the quotient does not overlap the scaled dividend. *)
Lemma receiver_ok h1 k u1 : extent h1 u k u1 → vlen u1 ≤ k → valid h1 z → ∃ z', (if alias z u1 then nilvec else z) = z' ∧
  apart (whole z') u1 ∧ (z' = nilvec ∨ z' = z).
Proof using All.
  intros He Hk Vz1. pose proof (va_len _ _ Vz). pose proof (va_off _ _ Vu). eexists. split; [done|]. destruct He as [(i & -> & Hi)|(Ha & Hz0 & _)].
  - assert (alias z (part u 0 i) = alias z u) as ->.
    { unfold alias. simpl. do 2 f_equal; [do 2 f_equal; lia|]. f_equal; lia. }
    destruct (alias z u); [split; [right; left; simpl; lia|by left]|]. destruct Azu as [Hd|?]; [|done].
    split; [|by right]. unfold apart in *. simpl in *. destruct Hd as [?|?]; [by left|right; lia].
  - assert (apart (whole z) u1) as Hap by (apply apart_sym; eapply apart_fresh; [done..|by apply valid_whole]).
    destruct (alias z u1); [split; [right; left; simpl; lia|by left]|]. split; [done|by right].
Qed.

Lemma top_digit_range w t : Forall word w → len w = n → zget w (n - 1) = Some t →
  t * _B ^ (n - 1) ≤ val w < (t + 1) * _B ^ (n - 1).
Proof using All.
  intros Hww Hl Ht. pose proof (val_take_S _ _ _ Ht) as E. replace (n - 1 + 1) with n in E by lia.
  rewrite take_ge in E by (unfold len in Hl; lia). pose proof (val_take_range w (n - 1) Hww ltac:(lia)). lia.
Qed.

Lemma top_ok : ∃ s, get h vIn (n - 1) = Ok top ∧ nlz top = Ok s ∧ 0 ≤ s < 64 ∧
  val (words h vIn) * 2 ^ s < _B ^ n ∧ ∀ w, Forall word w → len w = n → val w = val (words h vIn) * 2 ^ s →
    ∃ vn1, zget w (n - 1) = Some vn1 ∧ _B ≤ 2 * vn1.
Proof using All.
  pose proof (len_words _ _ Vvi) as L. pose proof (word_heap_words h vIn Hw) as Wv. fold n in L.
  assert (word top) as Wt by (exact (word_heap_get _ _ _ _ Hw Etop)).
  pose proof (nlz_normal top Wt Htop) as (Hs & Hp & H1 & H2). set (s := 64 - bit_len top) in *. exists s.
  pose proof (top_digit_range _ _ Wv L Etop) as Hv. pose proof (Bpow_pos (n - 1) ltac:(lia)) as HP.
  assert (_B ^ n = _B * _B ^ (n - 1)) as E by (rewrite <-Bpow_S by lia; f_equal; lia). set (P := _B ^ (n - 1)) in *.
  rewrite get_words, (idx_in _ _ _ Etop) by (done || (fold n; lia)). rewrite nlz_word by done. split_and!; try done; try lia.
  - assert (_B = 2 ^ (64 - s) * 2 ^ s) as EB by (rewrite B_eq, <-Z.pow_add_r by lia; f_equal; lia).
    assert (top + 1 ≤ 2 ^ (64 - s)) by nia. rewrite E.
    assert ((top + 1) * 2 ^ s * P ≤ _B * P) by (apply Z.mul_le_mono_nonneg_r; nia). nia.
  - intros w Ww Lw Ew. destruct (zget_lt w (n - 1)) as [t Et]; [lia|]. exists t. split; [done|].
    pose proof (top_digit_range _ _ Ww Lw Et) as Hw1. rewrite Ew in Hw1.
    assert (top * 2 ^ s * P < (t + 1) * P) by nia. assert (top * 2 ^ s < t + 1) by nia. lia.
Qed.

(** Both copies, and room for the quotient. *)
Record prepared (s : Z) (h4 : heap) (stk1 q u1 v : vec) : Prop := {
  pr_words : word_heap h4;
  pr_valid : valid h4 stk1 ∧ valid h4 q ∧ valid h4 u1 ∧ valid h4 v;
  pr_lens : vlen stk ≤ vlen stk1 ∧ vlen q = m + 1 ∧ vlen u1 = vlen uIn + 1 ∧ vlen v = n;
  pr_apart : apart u1 v ∧ apart q u1 ∧ apart q v ∧ apart (free stk1) q ∧ apart (free stk1) u1 ∧ apart (free stk1) v;
  pr_v : val (words h4 v) = val (words h vIn) * 2 ^ s;
  pr_u : val (words h4 u1) = val (words h uIn) * 2 ^ s;
  pr_clear : clear_of h stk stk1;
  pr_keeps : keeps h h4 [free stk; whole u];
  pr_out : ∀ t, valid h t → apart (free stk) t →
    apart (free stk1) t ∧ (apart (whole z) t → apart q t) ∧ (apart (whole u) t → apart u1 t);
}.

Lemma prepare_ok s : 0 ≤ s < 64 → val (words h vIn) * 2 ^ s < _B ^ n →
  ∃ h1 stk1 v h2 u1 h3 h4 q, stack_nat append_cap h stk n = Ok (h1, stk1, v) ∧
    nat_make h1 u (vlen uIn + 1) = Ok (h2, u1) ∧ scale h2 v u1 uIn vIn s = Ok h3 ∧
    nat_make h3 (if alias z u1 then nilvec else z) (m + 1) = Ok (h4, q) ∧ prepared s h4 stk1 q u1 v.
Proof using All.
  intros Hs Hfit. pose proof (va_len _ _ Vvi). destruct Hbs as [Vui _].
  destruct (stack_nat_ok _ Hcap h stk n Vs Hw ltac:(lia)) as (h1 & stk1 & v & E1 & Hw1 & Vs1 & Vv1 & Lv & Cv & Ls & K1 & Ha & Hc & Avs & _).
  assert (∀ t, valid h t → apart (free stk) t → valid h1 t ∧ words h1 t = words h t) as Hk.
  { intros t Vt At. destruct (K1 t Vt) as [V W]. split; [done|]. apply W. by apply Forall_singleton. }
  destruct (Hk uIn Vui Asx) as [Vx1 Wx1], (Hk vIn Vvi Asy) as [Vy1 Wy1].
  destruct (Ha uIn Vui Asx) as [Avx _], (Ha vIn Vvi Asy) as [Avy _].
  destruct (Ha _ (valid_whole _ _ Vu) Asu) as [Avu Afu], (Ha _ (valid_whole _ _ Vz) Asz) as [Avz Afz].
  destruct (make_ok h1 u (vlen uIn + 1)) as (h2 & u1 & E2 & M2 & L2 & _); [by apply K1|done|lia|].
  pose proof M2 as [Hw2 Vu2 He2 K2]. assert (∀ t, valid h1 t → valid h2 t ∧ words h2 t = words h1 t) as Hk2.
  { intros t Vt. destruct (K2 t Vt) as [V W]. split; [done|by apply W]. }
  assert (apart u1 v) as Auv by (eapply extent_apart; [done..|by apply apart_sym]).
  destruct (receiver_ok h1 _ u1 He2 ltac:(lia) ltac:(by apply K1)) as (z' & Ez & Azu1 & Hz').
  destruct (scale_ok h2 v u1 uIn vIn Hw2) with (s := s) as (wv & wu & E3 & Lwv & Wwv & Ewv & Lwu & Wwu & Ewu);
    try done; try (by apply Hk2); try lia.
  { eapply beside_down; [|done|lia..]. split; [done|]. by destruct Hbs. }
  { by rewrite (proj2 (Hk2 _ Vy1)), Wy1. }
  rewrite (proj2 (Hk2 _ Vy1)), Wy1 in Ewv. rewrite (proj2 (Hk2 _ Vx1)), Wx1 in Ewu.
  set (h3 := upd (upd h2 v wv) u1 wu) in *. assert (∀ t, valid h2 t → valid h3 t) as V3 by (intros; apply valid_upd; [apply valid_upd; try done; by apply Hk2|done|apply valid_upd; try done; by apply Hk2]).
  assert (word_heap h3) as Hw3 by (by apply word_heap_upd; [apply word_heap_upd|]).
  assert (valid h3 z') as Vz3.
  { destruct Hz' as [->| ->]; [split; simpl; (lia || auto)|]. by apply V3, Hk2, K1. }
  assert (∀ t, valid h3 t → apart (whole z) t → apart (whole z') t) as Hzz.
  { intros t [T _ _] At. destruct Hz' as [->| ->]; [|done]. right. left. done. }
  destruct (make_ok h3 z' (m + 1)) as (h4 & q & E4 & M4 & L4 & _); [done|done|unfold m; lia|].
  pose proof M4 as [Hw4 Vq4 He4 K4]. assert (∀ t, valid h3 t → valid h4 t ∧ words h4 t = words h3 t) as Hk4.
  { intros t Vt. destruct (K4 t Vt) as [V W]. split; [done|by apply W]. }
  assert (valid h1 (free stk1)) as Vf1 by (pose proof (va_len _ _ Vs1); apply valid_part; (done || lia)).
  assert (words h3 u1 = wu ∧ words h3 v = wv) as [Wu3 Wv3].
  { split; [apply words_upd_eq; [apply valid_upd; try done; by apply Hk2|done]|]. unfold h3.
    rewrite words_upd_apart; [|apply valid_upd; try done; by apply Hk2|done|apply valid_upd; try done; by apply Hk2|done]. apply words_upd_eq; [by apply Hk2|done]. }
  exists h1, stk1, v, h2, u1, h3, h4, q. rewrite Ez. split_and!; try done. split.
  - done.
  - split_and!; [..|done| |]; apply Hk4, V3; [by apply Hk2|done|by apply Hk2].
  - done.
  - split_and!; try done.
    + eapply extent_apart; [exact He4|by apply V3|done].
    + eapply extent_apart; [exact He4|by apply V3, Hk2|]. apply Hzz; [by apply V3, Hk2|by apply apart_sym].
    + apply apart_sym. eapply extent_apart; [exact He4|by apply V3, Hk2|]. apply Hzz; [by apply V3, Hk2|by apply apart_sym].
    + apply apart_sym. eapply extent_apart; [exact He2|done|by apply apart_sym].
    + by apply apart_sym.
  - by rewrite (proj2 (Hk4 _ (V3 _ (proj1 (Hk2 _ Vv1))))), Wv3.
  - by rewrite (proj2 (Hk4 _ (V3 _ Vu2))), Wu3.
  - done.
  - intros t Vt. split; [by apply Hk4, V3, Hk2, K1|]. rewrite !Forall_cons. intros (At & Aut & _).
    destruct (Hk t Vt At) as [Vt1 Wt1]. destruct (Hk2 t Vt1) as [Vt2 Wt2]. destruct (Ha t Vt At) as [Avt _].
    rewrite (proj2 (Hk4 _ (V3 _ Vt2))). unfold h3.
    rewrite !words_upd_apart; try done; [congruence|by apply Hk2|apply valid_upd; try done; by apply Hk2|apply valid_upd; try done; by apply Hk2|].
    eapply extent_apart; [exact He2|done|done].
  - intros t Vt At. destruct (Ha t Vt At) as [Avt Aft]. destruct (Hk t Vt At) as [Vt1 _].
    split_and!; [done|intros Hz|intros Hu].
    + eapply extent_apart; [exact He4|by apply V3, Hk2|]. apply Hzz; [by apply V3, Hk2|done].
    + eapply extent_apart; [exact He2|done|done].
Qed.

Lemma divLarge_ok : n < divRecursiveThreshold → ∃ h' stk' q r,
  divLarge append_cap divRecursive h stk z u uIn vIn = Ok (h', stk', q, r) ∧
  divides h stk z u (val (words h uIn)) (val (words h vIn)) h' stk' q r.
Proof using All.
  intros Hsmall. pose proof (len_words _ _ Vvi) as Lvi. fold n in Lvi. destruct Hbs as [Vui _]. pose proof (len_words _ _ Vui) as Lui.
  destruct top_ok as (s & Eg & En & Hs & Hfit & Hnorm).
  destruct (prepare_ok s Hs Hfit) as (h1 & stk1 & v & h2 & u1 & h3 & h4 & q & E1 & E2 & E3 & E4 & [P1 (PS & PQ & PU & PV) (L1 & L2 & L3 & L4) (A1 & A2 & A3 & A4 & A5 & A6) Pv Pu PC PK PO]).
  destruct (Hnorm (words h4 v)) as (vn1 & Ev1 & Htop1); [by apply word_heap_words|by rewrite len_words|done|].
  assert (0 < 2 ^ s) as H2 by (apply Z.pow_pos_nonneg; lia).
  pose proof (top_digit_range _ _ (word_heap_words _ vIn Hw) Lvi Etop) as Hvt.
  pose proof (proj1 (val_range _ (word_heap_words _ uIn Hw))) as Hu0. pose proof (proj2 (val_range _ (word_heap_words _ uIn Hw))) as Hu1.
  assert (word top) as [Ht0 _] by (exact (word_heap_get _ _ _ _ Hw Etop)).
  pose proof (Bpow_pos (n - 1) ltac:(lia)) as HP.
  assert (0 < val (words h vIn)) as Hv0 by nia.
  assert (val (words h uIn) < _B ^ (m + 1) * val (words h vIn)) as Hq.
  { rewrite Lui in Hu1. replace (vlen uIn) with (m + 1 + (n - 1)) in Hu1 by (unfold m; lia).
    rewrite Z.pow_add_r in Hu1 by (unfold m; lia). pose proof (Bpow_pos (m + 1) ltac:(unfold m; lia)). nia. }
  destruct (divBasic_ok _ Hcap h4 stk1 q u1 v vn1) as (h5 & stk2 & E5 & W5 & VS5 & LS5 & K5 & O5 & Q5 & R5);
    rewrite ?L2, ?L3, ?L4; try done; try lia.
  { rewrite Pu, Pv, Z.mul_assoc. by apply Z.mul_lt_mono_pos_r. }
  destruct (finish_ok h5 q u1 s W5 ltac:(by apply K5) ltac:(by apply K5) A2 Hs) as (k & h6 & k2 & E6 & E7 & E8 & W6 & K6 & Hqq & Hrr).
  rewrite Q5, Pu, Pv in Hqq. rewrite R5, Pu, Pv in Hrr. destruct (unscale (val (words h uIn)) (val (words h vIn)) (2 ^ s)) as [Eq Er]; [done..|].
  rewrite Eq in Hqq. rewrite Er in Hrr. pose proof (va_len _ _ Vs). pose proof (va_len _ _ VS5).
  exists h6, (part stk2 0 (vlen stk)), (part q 0 k), (part u1 0 k2). split.
  - unfold divLarge. cbv zeta. fold n. fold m. rewrite Eg. cbn [mbind res_bind]. rewrite En. cbn [mbind res_bind].
    rewrite E1. cbn [mbind res_bind]. rewrite E2. cbn [mbind res_bind]. rewrite E3. cbn [mbind res_bind]. rewrite E4. cbn [mbind res_bind].
    rewrite (proj2 (Z.ltb_lt _ _)) by done. rewrite E5. cbn [mbind res_bind]. rewrite E6. cbn [mbind res_bind].
    rewrite E7. cbn [mbind res_bind]. rewrite E8. cbn [mbind res_bind]. unfold stack_restore, stack_save. by rewrite sub_part by lia.
  - split; try done.
    + split; [apply valid_part; try lia; by apply K6|simpl; lia].
    + intros t i Vt Hi At. pose proof (O5 t i ltac:(by apply PK) ltac:(lia) (PC t i Vt Hi At)) as Hap.
      unfold apart in *. simpl in *. destruct Hap as [?|?]; [by left|right; lia].
    + intros t Vt. destruct (PK t Vt) as [V4 W4], (K5 t V4) as [V5 W5'], (K6 t V5) as [V6 W6']. split; [done|].
      rewrite !Forall_cons. intros (At & Azt & Aut & _). destruct (PO t Vt At) as (Aft & Aqt & Aut1).
      rewrite W6', W5', W4; [done| | |]; rewrite ?Forall_cons; auto.
Qed.
End large.

(** ** Division *)

Lemma clear_of_refl h stk : clear_of h stk stk.
Proof. by intros t k. Qed.

(** What the arguments of [div] must satisfy: [g] is the stack. *)
Record div_args (h : heap) (g z z2 u v : vec) : Prop := {
  da_words : word_heap h;
  da_valid : valid h g ∧ valid h z ∧ valid h z2 ∧ valid h v;
  da_beside : beside h z u ∧ beside h z2 u;
  da_results : apart (whole z) (whole z2);
  da_stack : apart (free g) (whole z) ∧ apart (free g) (whole z2) ∧ apart (free g) u ∧ apart (free g) v;
  da_normal : normal (words h u) ∧ normal (words h v);
}.

Section div.
Context (append_cap : Z → Z → Z) (Hcap : ∀ c n, n ≤ append_cap c n) (divRecursive : heap → vec → vec → vec → vec → res (heap * vec)).
Context (h : heap) (stk : option vec) (pooled z z2 u v : vec) (Hw : word_heap h).
Let g := default pooled stk.
Context (Vs : valid h g) (Vz : valid h z) (Vz2 : valid h z2) (Vv : valid h v).
Context (Hbz : beside h z u) (Hbz2 : beside h z2 u) (Hzz : apart (whole z) (whole z2)).
Context (Asz : apart (free g) (whole z)) (Asz2 : apart (free g) (whole z2)) (Asu : apart (free g) u) (Asv : apart (free g) v).
Context (Nu : normal (words h u)) (Nv : normal (words h v)).
Let div := nat_div append_cap divRecursive h stk pooled z z2 u v.

Lemma nat_div_zero : vlen v = 0 → div = panics "division by zero".
Proof using All. intros E. unfold div, nat_div. by rewrite E. Qed.

Lemma nat_div_word : vlen v = 1 → ∃ h' g' q r, div = Ok (h', g', q, r) ∧
  divides h g z z2 (val (words h u)) (val (words h v)) h' g' q r.
Proof using All.
  intros Hl. pose proof (len_words _ _ Vv) as Lv. destruct (zget_lt (words h v) 0) as [y Hy]; [lia|].
  assert (word y) as Wy by (exact (word_heap_get _ _ _ _ Hw Hy)).
  assert (y ≠ 0) as Hy0 by (apply (Nv y); rewrite <-Hy; f_equal; lia).
  assert (val (words h v) = y) as Ev.
  { pose proof (val_take_S _ _ _ Hy) as E. rewrite take_ge in E by (unfold len in Lv; lia).
    rewrite E. change (Z.to_nat 0) with 0%nat. rewrite take_0. simpl. change (_B ^ 0) with 1. lia. }
  pose proof (bs_valid _ _ _ Hbz) as Vu. pose proof (va_len _ _ Vu) as Lu.
  destruct (divW_ok h z u y Vz Hw (beside_reads _ _ _ Vz Hbz)) as (h1 & q & E1 & R1); try done.
  { by apply (beside_down_to h). }
  pose proof (result_keeps _ _ _ _ _ _ R1) as K1. destruct (result_valid _ _ _ _ _ _ R1) as (Vq & Nq & Eq).
  destruct (set_keeps_words _ _ _ _ K1 (valid_whole _ _ Vz2) Hzz) as [Vz21 _].
  destruct (setWord_ok h1 z2 1 (val (words h u) mod y)) as (h2 & r & E2 & R2); [by apply K1|by apply R1| |lia|].
  { words. pose proof (Z.mod_pos_bound (val (words h u)) y ltac:(lia)). lia. }
  pose proof (result_keeps _ _ _ _ _ _ R2) as K2.
  assert (apart (whole z2) q) as Hz2q by (apply apart_sym; eapply result_apart; [exact R1|by apply valid_whole|done]).
  destruct (set_keeps_words _ _ _ _ K2 Vq Hz2q) as [Vq2 Wq2].
  exists h2, g, q, r. split.
  - unfold div, nat_div. cbv zeta. rewrite Hl. simpl. rewrite get_words, (idx_in _ _ _ Hy) by (done || lia). cbn [mbind res_bind].
    rewrite E1. cbn [mbind res_bind]. rewrite E2. done.
  - rewrite Ev. split; [by apply R2|split; [by apply K2, K1|done]|by apply clear_of_refl| |by rewrite Wq2|by apply (result_valid _ _ _ _ _ _ R2)].
    eapply keeps_trans; [apply (keeps_incl _ _ _ _ K1); set_solver|apply (keeps_incl _ _ _ _ K2); set_solver].
Qed.

Lemma nat_div_less : 2 ≤ vlen v → val (words h u) < val (words h v) → ∃ h' g' q r, div = Ok (h', g', q, r) ∧
  divides h g z z2 (val (words h u)) (val (words h v)) h' g' q r.
Proof using All.
  intros Hl Hlt. pose proof (bs_valid _ _ _ Hbz) as Vu. pose proof (va_len _ _ Vz).
  destruct (set_ok h z2 u Vz2 Hw Vu Nu) as (h1 & r & E1 & R1). pose proof (result_keeps _ _ _ _ _ _ R1) as K1.
  assert (valid h (part z 0 0)) as V0 by (apply valid_part; (done || lia)).
  assert (valid h1 (part z 0 0)) as V01 by (by apply K1).
  assert (words h1 (part z 0 0) = []) as W0 by (by apply words_nil).
  pose proof (val_range _ (word_heap_words _ u Hw)).
  exists h1, g, (part z 0 0), r. split.
  - unfold div, nat_div. cbv zeta. rewrite (proj2 (Z.eqb_neq _ 0)), (proj2 (Z.eqb_neq _ 1)) by lia.
    rewrite nat_cmp_ok by done. cbn [mbind res_bind]. rewrite (proj2 (Z.ltb_lt (val (words h u)) _)) by done. simpl (-1 <? 0). cbv iota.
    unfold to. rewrite sub_part by lia. cbn [mbind res_bind]. by rewrite E1.
  - split; [by apply R1|split; [by apply K1|done]|by apply clear_of_refl| | |].
    + apply (keeps_incl _ _ _ _ K1). set_solver.
    + rewrite W0. split_and!; [done|done|]. by rewrite Z.div_small by lia.
    + rewrite Z.mod_small by lia. by apply (result_valid _ _ _ _ _ _ R1).
Qed.

Lemma nat_div_large : 2 ≤ vlen v < divRecursiveThreshold → val (words h v) ≤ val (words h u) → ∃ h' g' q r, div = Ok (h', g', q, r) ∧
  divides h g z z2 (val (words h u)) (val (words h v)) h' g' q r.
Proof using All.
  intros Hl Hle. pose proof (bs_valid _ _ _ Hbz) as Vu. pose proof (len_words _ _ Vv) as Lv. pose proof (len_words _ _ Vu) as Lu.
  destruct (zget_lt (words h v) (vlen v - 1)) as [top Htop]; [lia|].
  assert (vlen v ≤ vlen u) as Hvu.
  { destruct (decide (vlen v ≤ vlen u)); [done|]. 
    pose proof (shorter_less (words h u) (words h v) ltac:(by apply word_heap_words) ltac:(by apply word_heap_words) Nv ltac:(lia)). lia. }
  destruct (divLarge_ok append_cap Hcap divRecursive h g z z2 u v) with (top := top) as (h' & g' & q & r & E & D); try done; try lia.
  { by left. }
  { apply (Nv top). by rewrite Lv. }
  exists h', g', q, r. split; [|done]. unfold div, nat_div. cbv zeta. rewrite (proj2 (Z.eqb_neq _ 0)), (proj2 (Z.eqb_neq _ 1)) by lia.
  rewrite nat_cmp_ok by done. cbn [mbind res_bind]. rewrite (proj2 (Z.ltb_ge (val (words h u)) _)) by done.
  destruct (val (words h v) <? val (words h u)); exact E.
Qed.

Lemma nat_div_ok : 1 ≤ vlen v < divRecursiveThreshold → ∃ h' g' q r, div = Ok (h', g', q, r) ∧
  divides h g z z2 (val (words h u)) (val (words h v)) h' g' q r.
Proof using All.
  intros Hl. destruct (decide (vlen v = 1)); [by apply nat_div_word|].
  destruct (decide (val (words h u) < val (words h v))); [apply nat_div_less; (done || lia)|apply nat_div_large; lia].
Qed.
End div.

Section rem.
Context (append_cap : Z → Z → Z) (Hcap : ∀ c n, n ≤ append_cap c n) (divRecursive : heap → vec → vec → vec → vec → res (heap * vec)).

Lemma nat_rem_ok h stk z u v : word_heap h → valid h stk → valid h z → valid h v → beside h z u →
  apart (free stk) (whole z) → apart (free stk) u → apart (free stk) v →
  normal (words h u) → normal (words h v) → 1 ≤ vlen v < divRecursiveThreshold →
  ∃ h' stk' r, nat_rem append_cap divRecursive h stk z u v = Ok (h', stk', r) ∧
    word_heap h' ∧ valid h' stk' ∧ vlen stk' = vlen stk ∧ keeps h h' [free stk; whole z] ∧
    valid h' r ∧ normal (words h' r) ∧ val (words h' r) = val (words h u) mod val (words h v).
Proof using Hcap.
  intros Hw Vs Vz Vv Hb Asz Asu Asv Nu Nv Hl. pose proof (bs_valid _ _ _ Hb) as Vu.
  unfold nat_rem. cbv zeta. set (z' := if alias z u then nilvec else z).
  assert (valid h z' ∧ beside h z' u ∧ ∀ t, valid h t → apart (whole z) t → apart (whole z') t) as (Vz' & Hb' & Hz').
  { unfold z'. destruct (alias z u); [|done]. pose proof (va_off _ _ Vu). pose proof (va_len _ _ Vu). split_and!.
    - split; simpl; (lia || auto).
    - split; [done|]. right. right. right. left. done.
    - intros t [T _ _] _. right. left. done. }
  destruct (stack_nat_ok _ Hcap h stk (1 `max` (vlen u - (vlen v - 1))) Vs Hw ltac:(lia))
    as (h1 & stk1 & q & -> & Hw1 & Vs1 & Vq & Lq & Cq & Ls & K1 & Ha & Hc & Aqs & _). cbn [mbind res_bind].
  assert (∀ t, valid h t → apart (free stk) t → valid h1 t ∧ words h1 t = words h t) as Hk.
  { intros t Vt At. destruct (K1 t Vt) as [V W]. split; [done|]. apply W. by apply Forall_singleton. }
  assert (whole q = q) as Eq by (destruct q; simpl in *; unfold whole; simpl; congruence).
  assert (valid h (free stk)) as Vf by (pose proof (va_len _ _ Vs); apply valid_part; (done || lia)).
  assert (apart (free stk) (whole z')) as Asz' by (apply apart_sym, Hz'; [done|by apply apart_sym]).
  destruct (Hk u Vu Asu) as [Vu1 Wu1], (Hk v Vv Asv) as [Vv1 Wv1].
  destruct (Ha u Vu Asu) as [Aqu Afu], (Ha v Vv Asv) as [_ Afv], (Ha _ (valid_whole _ _ Vz') Asz') as [Aqz Afz].
  destruct (nat_div_ok append_cap Hcap divRecursive h1 (Some stk1) stk1 q z' u v) as (h2 & stk2 & q2 & r & -> & [W2 [VS2 LS2] C2 K2 _ R2]);
    rewrite ?Eq, ?Wu1, ?Wv1; simpl default; try done; [by apply K1| | |by apply apart_sym|].
  - split; [done|]. right. right. by rewrite Eq.
  - destruct Hb' as [_ Hp]. split; done.
  - cbn [mbind res_bind]. simpl default in *. pose proof (va_len _ _ Vs). pose proof (va_len _ _ VS2).
    unfold stack_restore, stack_save. rewrite sub_part by lia. cbn [mbind res_bind mret res_ret]. rewrite Wu1, Wv1 in R2.
    exists h2, (part stk2 0 (vlen stk)), r. split_and!; try done; try apply R2; [apply valid_part; (done || lia)|simpl; lia|].
    intros t Vt. destruct (K1 t Vt) as [V1 W1], (K2 t V1) as [V2 W2']. split; [done|].
    rewrite !Forall_cons. intros (At & Azt & _). destruct (Ha t Vt At) as [Aqt Aft].
    rewrite W2', W1; [done|by apply Forall_singleton|]. rewrite !Forall_cons, Eq. auto.
Qed.
End rem.
