(* ===== verification/BigMult.v ===== *)
(** * math/big: multiplication and squaring

    The methods of math/big/natmul.go, with the signed numbers of int.go that
    Karatsuba's method computes with. *)

From Stdlib Require Import String.
From S2P Require Import Prelude Bytealg Bits BigHeap BigArith BigNat BigDiv.

(** ** Signed numbers *)

(** An [Int] holds a sign and the slice of its absolute value. A method is given
    the fields of its receiver and operands and returns those of the receiver. *)
Record Int := MkInt { neg : bool; iabs : vec }.

(** The end of most methods: zero has no sign. *)
Definition signed (h : heap) (a : vec) (n : bool) : heap * Int := (h, MkInt ((0 <? vlen a) && n) a).

Definition diff (h : heap) (z : vec) (n : bool) (x y : vec) : res (heap * Int) :=
  c ← nat_cmp h x y;
  if 0 <=? c then '(h, a) ← nat_sub h z x y; mret (signed h a n)
  else '(h, a) ← nat_sub h z y x; mret (signed h a (negb n)).

Definition int_Add (h : heap) (z x y : Int) : res (heap * Int) :=
  if Bool.eqb (neg x) (neg y) then
    '(h, a) ← nat_add h (iabs z) (iabs x) (iabs y); mret (signed h a (neg x))
  else diff h (iabs z) (neg x) (iabs x) (iabs y).

Definition int_Sub (h : heap) (z x y : Int) : res (heap * Int) :=
  if negb (Bool.eqb (neg x) (neg y)) then
    '(h, a) ← nat_add h (iabs z) (iabs x) (iabs y); mret (signed h a (neg x))
  else diff h (iabs z) (neg x) (iabs x) (iabs y).

(** The temporaries of the methods below are on a stack, which grows with
    [append]; a multiplication takes the stack and returns it. *)
Definition multiplier : Type := heap → vec → vec → vec → vec → res (heap * vec * vec).
Definition squarer : Type := heap → vec → vec → vec → res (heap * vec * vec).

(** [Int.mul] of numbers that are not the same object. *)
Definition int_mul (mul : multiplier) (h : heap) (stk : vec) (z x y : Int) : res (heap * vec * Int) :=
  '(h, stk, a) ← mul h stk (iabs z) (iabs x) (iabs y);
  let '(h, z) := signed h a (xorb (neg x) (neg y)) in
  mret (h, stk, z).

Section mult.
Context (append_cap : Z → Z → Z).

(** ** Multiplication *)

Definition karatsubaThreshold : Z := 40.

Definition karatsuba (mul : multiplier) (h : heap) (stk z x y : vec) : res (heap * vec) :=
  let n := vlen y in
  if negb (vlen x =? n) || negb (vlen z =? 2 * n) then panics "bad karatsuba length" else
  if (n <? karatsubaThreshold) || (n <? 2) then h ← basicMul h z x y; mret (h, stk) else
  let n2 := (n + 1) / 2 in
  x0 ← to x n2; x0 ← nat_norm h x0; x1 ← from x n2; x1 ← nat_norm h x1;
  y0 ← to y n2; y0 ← nat_norm h y0; y1 ← from y n2; y1 ← nat_norm h y1;
  z0 ← sub z 0 (2 * n2); z2 ← from z (2 * n2);
  let mark := stack_save stk in
  '(h, stk, z1) ← stack_nat append_cap h stk (2 * n2 + 1);
  tx ← sub z 0 n2; ty ← sub z n2 (2 * n2);
  '(h, tx) ← int_Sub h (MkInt false tx) (MkInt false x0) (MkInt false x1);
  '(h, ty) ← int_Sub h (MkInt false ty) (MkInt false y1) (MkInt false y0);
  '(h, stk, z1) ← int_mul mul h stk (MkInt false z1) tx ty;
  let h := clear h z in
  '(h, stk, z0) ← int_mul mul h stk (MkInt false z0) (MkInt false x0) (MkInt false y0);
  '(h, stk, z2) ← int_mul mul h stk (MkInt false z2) (MkInt false x1) (MkInt false y1);
  '(h, z1) ← int_Add h z1 z1 z0;
  '(h, z1) ← int_Add h z1 z1 z2;
  zr ← from z n2;
  h ← addTo h zr (iabs z1);
  stk ← stack_restore stk mark;
  mret (h, stk).

(** [for i := n; i < m; i += n { ... }]: the rest of [x] in pieces as long as [y]. *)
Definition mul_pieces (mul : multiplier) (h : heap) (stk z x y t : vec) : res (heap * vec) :=
  let m := vlen x in
  let n := vlen y in
  loop (fuel_of m) (λ '(h, stk, t, i),
    if i <? m then
      xi ← sub x i ((i + n) `min` vlen x);
      '(h, stk, t) ← mul h stk t xi y;
      zi ← from z i;
      h ← addTo h zi t;
      mret (inl (h, stk, t, i + n))
    else mret (inr (h, stk))) (h, stk, t, n).

(** The product into a [z] that has its length and is apart from the operands. *)
Definition mul_into (mul : multiplier) (h : heap) (stk z x y : vec) : res (heap * vec) :=
  let m := vlen x in
  let n := vlen y in
  if n <? karatsubaThreshold then h ← basicMul h z x y; mret (h, stk) else
  zk ← to z (2 * n); xk ← to x n;
  '(h, stk) ← karatsuba mul h stk zk xk y;
  if n <? m then
    zr ← from z (2 * n);
    let h := clear h zr in
    let mark := stack_save stk in
    '(h, stk, t) ← stack_nat append_cap h stk (2 * n);
    '(h, stk) ← mul_pieces mul h stk z x y t;
    stk ← stack_restore stk mark;
    mret (h, stk)
  else mret (h, stk).

(** [mul] once [len(x) >= len(y)]. *)
Definition mul_long (mul : multiplier) (h : heap) (stk z x y : vec) : res (heap * vec * vec) :=
  let m := vlen x in
  let n := vlen y in
  if (m =? 0) || (n =? 0) then z ← to z 0; mret (h, stk, z) else
  if n =? 1 then y0 ← get h y 0; '(h, z) ← nat_mulAddWW h z x y0 0; mret (h, stk, z) else
  let z := if alias z x || alias z y then nilvec else z in
  '(h, z) ← nat_make h z (m + n);
  '(h, stk) ← mul_into mul h stk z x y;
  '(h, z) ← ret_norm h z;
  mret (h, stk, z).

Fixpoint mul_fuel (fuel : nat) : multiplier := λ h stk z x y,
  match fuel with
  | O => NoFuel
  | S fuel => if vlen x <? vlen y then mul_long (mul_fuel fuel) h stk z y x else mul_long (mul_fuel fuel) h stk z x y
  end.

(** Without a stack [mul] takes [pooled] from the pool. *)
Definition nat_mul (h : heap) (stk : option vec) (pooled z x y : vec) : res (heap * vec * vec) :=
  mul_fuel (fuel_of (2 * (vlen x `min` vlen y) + 2)) h (default pooled stk) z x y.

(** ** Squaring *)

Definition basicSqrThreshold : Z := 12.
Definition karatsubaSqrThreshold : Z := 80.

Definition basicSqr (h : heap) (stk z x : vec) : res (heap * vec) :=
  let n := vlen x in
  if n <? basicSqrThreshold then h ← basicMul h z x x; mret (h, stk) else
  let mark := stack_save stk in
  '(h, stk, t) ← stack_nat append_cap h stk (2 * n);
  let h := clear h t in
  x0 ← get h x 0;
  let '(w1, w0) := mulWW x0 x0 in
  h ← put h z 1 w1; h ← put h z 0 w0;
  h ← foldM (λ h i,
    d ← get h x i;
    let '(w1, w0) := mulWW d d in
    h ← put h z (2 * i + 1) w1; h ← put h z (2 * i) w0;
    ti ← sub t i (2 * i); xi ← sub x 0 i;
    '(h, c) ← addMulVVWW h ti ti xi d 0;
    put h t (2 * i) c) (seqZ 1 (n - 1)) h;
  tm ← sub t 1 (2 * n - 1);
  '(h, c) ← lshVU h tm tm 1;
  h ← put h t (2 * n - 1) c;
  '(h, _) ← addVV h z z t;
  stk ← stack_restore stk mark;
  mret (h, stk).

Definition karatsubaSqr (sqr : squarer) (h : heap) (stk z x : vec) : res (heap * vec) :=
  let n := vlen x in
  if negb (vlen z =? 2 * n) then panics "bad karatsubaSqr length" else
  if (n <? karatsubaSqrThreshold) || (n <? 2) then basicSqr h stk z x else
  let n2 := (n + 1) / 2 in
  x0 ← to x n2; x0 ← nat_norm h x0; x1 ← from x n2; x1 ← nat_norm h x1;
  z0 ← sub z 0 (2 * n2); z2 ← from z (2 * n2);
  let mark := stack_save stk in
  '(h, stk, z1) ← stack_nat append_cap h stk (2 * n2 + 1);
  tx ← sub z 0 n2;
  '(h, tx) ← int_Sub h (MkInt false tx) (MkInt false x0) (MkInt false x1);
  '(h, stk, z1) ← sqr h stk z1 (iabs tx);
  let h := clear h z in
  '(h, stk, z0) ← sqr h stk z0 x0;
  '(h, stk, z2) ← sqr h stk z2 x1;
  '(h, z1) ← int_Add h (MkInt true z1) (MkInt true z1) (MkInt false z0);
  '(h, z1) ← int_Add h z1 z1 (MkInt false z2);
  zr ← from z n2;
  h ← addTo h zr (iabs z1);
  stk ← stack_restore stk mark;
  mret (h, stk).

(** The square into a [z] that has its length and is apart from [x]. *)
Definition sqr_into (sqr : squarer) (h : heap) (stk z x : vec) : res (heap * vec) :=
  let n := vlen x in
  if (n <? basicSqrThreshold) && (n <? karatsubaSqrThreshold) then h ← basicMul h z x x; mret (h, stk) else
  if n <? karatsubaSqrThreshold then basicSqr h stk z x
  else karatsubaSqr sqr h stk z x.

Definition sqr_body (sqr : squarer) (h : heap) (stk z x : vec) : res (heap * vec * vec) :=
  let n := vlen x in
  if n =? 0 then z ← to z 0; mret (h, stk, z) else
  if n =? 1 then
    d ← get h x 0;
    '(h, z) ← nat_make h z 2;
    let '(w1, w0) := mulWW d d in
    h ← put h z 1 w1; h ← put h z 0 w0;
    '(h, z) ← ret_norm h z; mret (h, stk, z)
  else
  let z := if alias z x then nilvec else z in
  '(h, z) ← nat_make h z (2 * n);
  '(h, stk) ← sqr_into sqr h stk z x;
  '(h, z) ← ret_norm h z;
  mret (h, stk, z).

Fixpoint sqr_fuel (fuel : nat) : squarer := λ h stk z x,
  match fuel with
  | O => NoFuel
  | S fuel => sqr_body (sqr_fuel fuel) h stk z x
  end.

Definition nat_sqr (h : heap) (stk : option vec) (pooled z x : vec) : res (heap * vec * vec) :=
  sqr_fuel (fuel_of (vlen x)) h (default pooled stk) z x.
End mult.
