(* ===== verification/BigKara.v ===== *)
(** * math/big: signed numbers and the steps of Karatsuba multiplication *)

From Stdlib Require Import String.
From S2P Require Import Prelude Bytealg Bits BigHeap BigArith BigWords BigVec BigNat BigRes BigMul BigBits BigDiv BigLong BigStack BigDivide BigMult.

(** ** Sums and differences of signed numbers *)

Definition ival (h : heap) (x : Int) : Z := if neg x then - val (words h (iabs x)) else val (words h (iabs x)).

(** The value of a normalized number is zero exactly when it has no words. *)
Lemma normal_zero h x : word_heap h → valid h x → normal (words h x) → vlen x = 0 ↔ val (words h x) = 0.
Proof.
  intros Hw Vx Nx. pose proof (len_words _ _ Vx) as L. split; [intros; by apply val_empty|]. intros E.
  destruct (decide (vlen x = 0)) as [|H0]; [done|]. pose proof (va_len _ _ Vx).
  pose proof (normal_bound _ (word_heap_words h x Hw) Nx ltac:(lia)) as Hb.
  pose proof (Bpow_pos (len (words h x) - 1) ltac:(lia)). lia.
Qed.

(** A method that returns the signed number [v] in [n] words at most. *)
Definition returns_int (h : heap) (z : vec) (n v : Z) (m : res (heap * Int)) : Prop :=
  ∃ h' r, m = Ok (h', r) ∧ result h z n (Z.abs v) h' (iabs r) ∧ neg r = (v <? 0).

Lemma signed_ok h z n m v s : returns h z n (Z.abs v) m → (v ≠ 0 → s = (v <? 0)) →
  returns_int h z n v ('(h, a) ← m; mret (signed h a s)).
Proof.
  intros (h' & r & -> & R) Hs. cbn. exists h', (MkInt ((0 <? vlen r) && s) r). split; [done|]. split; [done|].
  destruct (result_valid _ _ _ _ _ _ R) as (V & N & E). pose proof (normal_zero _ _ (rs_words _ _ _ _ _ _ R) V N) as Hz.
  pose proof (va_len _ _ V). simpl. destruct (Z.ltb_spec 0 (vlen r)); simpl; [apply Hs; lia|].
  symmetry. apply Z.ltb_ge. lia.
Qed.

Lemma returns_int_mono h z n m v r : returns_int h z n v r → n ≤ m → returns_int h z m v r.
Proof. intros (h' & r' & -> & R & E) Hm. exists h', r'. split_and!; try done. by eapply result_mono. Qed.

Section signs.
Context (h : heap) (z x y : vec) (Hz : valid h z) (Hw : word_heap h) (Rx : reads h z x) (Ry : reads h z y).
Context (Nx : normal (words h x)) (Ny : normal (words h y)).
Let X := val (words h x).
Let Y := val (words h y).

Lemma sub_any (x' y' : vec) : reads h z x' → reads h z y' → normal (words h x') → normal (words h y') →
  val (words h y') ≤ val (words h x') → returns h z (vlen x') (val (words h x') - val (words h y')) (nat_sub h z x' y').
Proof using All.
  intros Rx' Ry' Nx' Ny' Hle. apply nat_sub_ok; try done. destruct (decide (vlen y' ≤ vlen x')) as [|Hlt]; [done|].
  pose proof (shorter_less (words h x') (words h y') ltac:(by apply word_heap_words) ltac:(by apply word_heap_words) Ny').
  rewrite !len_words in * by (apply Rx' || apply Ry'). lia.
Qed.

Lemma diff_ok (n : bool) : returns_int h z (vlen x `max` vlen y) (if n then Y - X else X - Y) (diff h z n x y).
Proof using All.
  pose proof (rd_valid _ _ _ Rx) as Vx. pose proof (rd_valid _ _ _ Ry) as Vy.
  unfold diff. rewrite nat_cmp_ok by done. fold X Y. cbn [mbind res_bind]. destruct (Z.ltb_spec X Y).
  - change (0 <=? -1) with false. cbv iota. apply signed_ok; [|intros; destruct n; simpl; symmetry; [apply Z.ltb_ge|apply Z.ltb_lt]; lia].
    replace (Z.abs _) with (Y - X) by (destruct n; lia). eapply returns_mono; [apply sub_any; (done || (fold X Y; lia))|lia].
  - replace (0 <=? _) with true by (symmetry; destruct (Z.ltb_spec Y X); done). cbv iota.
    apply signed_ok; [|intros; destruct n; simpl; symmetry; [apply Z.ltb_lt|apply Z.ltb_ge]; lia].
    replace (Z.abs _) with (X - Y) by (destruct n; lia). eapply returns_mono; [apply sub_any; (done || (fold X Y; lia))|lia].
Qed.

Lemma sum_ok (n : bool) : returns_int h z (vlen x `max` vlen y + 1) (if n then - (X + Y) else X + Y)
  ('(h, a) ← nat_add h z x y; mret (signed h a n)).
Proof using All.
  pose proof (val_range _ (word_heap_words h x Hw)). pose proof (val_range _ (word_heap_words h y Hw)).
  apply signed_ok; [|intros; destruct n; symmetry; [apply Z.ltb_lt|apply Z.ltb_ge]; unfold X, Y in *; lia].
  replace (Z.abs _) with (X + Y) by (destruct n; unfold X, Y; lia). by apply nat_add_ok.
Qed.
End signs.

(** An operand of the methods of [Int]. *)
Record iarg (h : heap) (z : vec) (x : Int) : Prop := {
  ia_reads : reads h z (iabs x);
  ia_normal : normal (words h (iabs x));
}.

Section int_ops.
Context (h : heap) (z x y : Int) (Hz : valid h (iabs z)) (Hw : word_heap h) (Ax : iarg h (iabs z) x) (Ay : iarg h (iabs z) y).
Let m := vlen (iabs x) `max` vlen (iabs y).

Lemma int_Add_ok : returns_int h (iabs z) (m + 1) (ival h x + ival h y) (int_Add h z x y).
Proof using All.
  destruct Ax as [Rx Nx], Ay as [Ry Ny]. unfold int_Add, ival. destruct (neg x), (neg y); simpl Bool.eqb; cbv iota.
  - replace (- _ + - _) with (- (val (words h (iabs x)) + val (words h (iabs y)))) by lia. by apply (sum_ok h (iabs z) _ _ Hz Hw Rx Ry Nx Ny true).
  - replace (- _ + _) with (val (words h (iabs y)) - val (words h (iabs x))) by lia. eapply returns_int_mono; [by apply (diff_ok h (iabs z) _ _ Hz Hw Rx Ry Nx Ny true)|lia].
  - rewrite Z.add_opp_r. eapply returns_int_mono; [by apply (diff_ok h (iabs z) _ _ Hz Hw Rx Ry Nx Ny false)|lia].
  - by apply (sum_ok h (iabs z) _ _ Hz Hw Rx Ry Nx Ny false).
Qed.

Lemma int_Sub_ok : returns_int h (iabs z) (if Bool.eqb (neg x) (neg y) then m else m + 1) (ival h x - ival h y) (int_Sub h z x y).
Proof using All.
  destruct Ax as [Rx Nx], Ay as [Ry Ny]. unfold int_Sub, ival. destruct (neg x), (neg y); simpl; cbv iota.
  - replace (- _ - - _) with (val (words h (iabs y)) - val (words h (iabs x))) by lia. by apply (diff_ok h (iabs z) _ _ Hz Hw Rx Ry Nx Ny true).
  - replace (- _ - _) with (- (val (words h (iabs x)) + val (words h (iabs y)))) by lia. by apply (sum_ok h (iabs z) _ _ Hz Hw Rx Ry Nx Ny true).
  - rewrite Z.sub_opp_r. by apply (sum_ok h (iabs z) _ _ Hz Hw Rx Ry Nx Ny false).
  - by apply (diff_ok h (iabs z) _ _ Hz Hw Rx Ry Nx Ny false).
Qed.
End int_ops.
(** ** Adding in place *)

Lemma addTo_ok h z x : valid h z → word_heap h → valid h x → apart z x → vlen x ≤ vlen z →
  val (words h z) + val (words h x) < _B ^ vlen z →
  ∃ ws, addTo h z x = Ok (upd h z ws) ∧ len ws = vlen z ∧ Forall word ws ∧
    val ws = val (words h z) + val (words h x).
Proof.
  intros Hz Hw Vx Ax Hl Hfit. pose proof (va_len _ _ Hz). pose proof (va_len _ _ Vx). pose proof (len_words _ _ Hz) as Lz.
  pose proof (word_heap_words h z Hw) as Wz. unfold addTo. cbv zeta. set (n := vlen x) in *. destruct (Z.ltb_spec 0 n) as [Hn|Hn].
  2: { exists (words h z). rewrite upd_words, (val_empty h x) by (done || lia). split_and!; (done || lia). }
  unfold to. do 2 cut. assert (part x 0 n = x) as -> by (by apply (part_self h)).
  destruct (addVV_ok h (part z 0 n) (part z 0 n) x) as (w1 & c1 & -> & L1 & W1 & C1 & V1).
  { apply valid_part; (done || lia). }
  { done. }
  { split; [apply valid_part; (done || lia)|done|right; left; done]. }
  { split; [done|simpl; lia|]. unfold up_ok, apart in *. simpl. destruct Ax as [?|?]; [by left|right; lia]. }
  simpl vlen in L1, V1. rewrite Z.sub_0_r in L1, V1. rewrite words_to in V1 by (done || lia). cbn [mbind res_bind].
  assert (upd h (part z 0 n) w1 = upto h z w1) as -> by (rewrite <-L1; apply upd_first; (done || lia)).
  pose proof (val_split (words h z) n ltac:(lia)) as Es. set (hi := drop (Z.to_nat n) (words h z)) in *.
  assert (Forall word hi) as Whi by (by apply Forall_drop). pose proof (val_range hi Whi) as Rhi.
  assert (len hi = vlen z - n) as Lhi by (unfold hi; rewrite len_drop; lia). rewrite Lhi in Rhi.
  pose proof (val_range w1 W1) as R1. rewrite L1 in R1. pose proof (Bpow_pos n ltac:(lia)) as HBn.
  assert (_B ^ vlen z = _B ^ n * _B ^ (vlen z - n)) as EB by (rewrite <-Z.pow_add_r by lia; f_equal; lia).
  destruct (Z.eqb_spec c1 0) as [->|Hc]; simpl negb; cbv iota.
  { exists (w1 ++ hi). split_and!; [|rewrite len_app; lia|apply Forall_app; auto|rewrite val_app, L1; lia].
    unfold upto, hi. do 3 f_equal. unfold len in L1. f_equal. lia. }
  assert (c1 = 1) as -> by lia. destruct (Z.ltb_spec n (vlen z)) as [Hlt|Hge].
  2: { exfalso. assert (vlen z - n = 0) as E0 by lia. rewrite E0 in *. change (_B ^ 0) with 1 in *. nia. }
  unfold from. cut. assert (valid (upto h z w1) z) as Vz1 by (apply valid_upto; (done || lia)).
  assert (word_heap (upto h z w1)) as Hw1 by (apply word_heap_upd; [done|]; apply Forall_app; split; [done|by apply Forall_drop]).
  assert (valid (upto h z w1) (part z n (vlen z))) as Vzr by (apply valid_part; (done || lia)).
  destruct (addVW_ok (upto h z w1) (part z n (vlen z)) (part z n (vlen z))) with (y := 1) as (w2 & c2 & -> & L2 & W2 & C2 & C2' & V2);
    [done|done|split; [done|done|right; left; done]|words; lia|].
  simpl vlen in L2, V2. rewrite words_upto, words_part in V2 by (done || lia || (right; left; lia)).
  fold hi in V2. rewrite (take_ge hi) in V2 by (unfold len in Lhi; lia). cbn [mbind res_bind mret res_ret].
  pose proof (val_range w2 W2) as R2. rewrite L2 in R2. assert (0 ≤ c2) by (unfold is_uint in C2; lia).
  assert (c2 = 0) as -> by nia.
  exists (w1 ++ w2). split_and!; [|rewrite len_app; lia|apply Forall_app; auto|rewrite val_app, L1; lia].
  f_equal. rewrite <-(upto_full h z (w1 ++ w2)), <-(upd_upto h z w1 w2) by (done || (rewrite ?len_app; lia)). do 2 f_equal; lia.
Qed.

(** ** What a multiplication may assume and returns *)

(** The operands of a multiplication: [x] is apart from the receiver, or the test
    for aliases finds that it is not. *)
Definition may_mul (z x : vec) : Prop := apart (whole z) x ∨ alias z x = true ∧ up_ok z x.

Record mul_args (h : heap) (stk z x y : vec) : Prop := {
  ma_words : word_heap h;
  ma_stk : valid h stk ∧ apart (free stk) (whole z) ∧ apart (free stk) x ∧ apart (free stk) y;
  ma_valid : valid h z ∧ valid h x ∧ valid h y;
  ma_place : may_mul z x ∧ may_mul z y;
}.

(** The result [r] is written over the receiver, or over nothing when [moved]. *)
Record product (h : heap) (stk z : vec) (n v : Z) (moved : bool) (h' : heap) (stk' r : vec) : Prop := {
  pd_words : word_heap h';
  pd_stk : valid h' stk' ∧ vlen stk' = vlen stk;
  pd_clear : clear_of h stk stk';
  pd_normal : normal (words h' r);
  pd_apart : apart (free stk') (whole r);
  pd_made : ∃ z' z1 k, (z' = z ∨ z' = nilvec ∧ moved = true) ∧ extent h z' n z1 ∧ valid h' z1 ∧
    keeps h h' [free stk; z1] ∧ val (words h' z1) = v ∧ r = part z1 0 k ∧ 0 ≤ k ≤ vlen z1 ∧ val (words h' r) = v;
}.

Definition multiplies (h : heap) (stk z x y : vec) (m : res (heap * vec * vec)) : Prop :=
  ∃ h' stk' r, m = Ok (h', stk', r) ∧
    product h stk z (vlen x + vlen y) (val (words h x) * val (words h y)) (alias z x || alias z y) h' stk' r.

(** ** Where results lie *)

Lemma nil_apart t : 0 ≤ off t → apart (whole nilvec) t.
Proof. intros. right. left. done. Qed.

Lemma nil_valid h : valid h nilvec.
Proof. split; simpl; (lia || auto). Qed.

Lemma extent_whole h z n r t : extent h z n r → valid h t → apart (whole z) t → apart (whole r) t.
Proof.
  intros [(s & -> & Hs)|(Ha & H0 & _)] Vt Ht.
  - unfold apart in *. simpl in *. destruct Ht as [?|?]; [by left|right; lia].
  - eapply apart_fresh; [|simpl; exact H0|exact Vt]. done.
Qed.

Lemma whole_part z k t : apart (whole z) t → apart (whole (part z 0 k)) t.
Proof. unfold apart. simpl. intros [?|?]; [by left|right; lia]. Qed.

(** A result in the signed numbers' methods. *)
Lemma result_whole h z n v h' r t : result h z n v h' r → valid h t → apart (whole z) t → apart (whole r) t.
Proof.
  intros [_ _ _ (z1 & He & _ & _ & _ & k & -> & _)] Vt At. apply whole_part. by eapply extent_whole.
Qed.

Lemma result_region h z n v h' r : result h z n v h' r → ∃ z1, extent h z n z1 ∧ keeps h h' [z1].
Proof. intros [_ _ _ (z1 & He & _ & K & _)]. eauto. Qed.

Lemma product_valid h stk z n v b h' stk' r : product h stk z n v b h' stk' r →
  valid h' r ∧ normal (words h' r) ∧ val (words h' r) = v.
Proof.
  intros [_ _ _ N _ (z' & z1 & k & _ & _ & V & _ & _ & -> & Hk & E)]. pose proof (va_len _ _ V).
  split_and!; try done. apply valid_part; (done || lia).
Qed.

Lemma product_region h stk z n v b h' stk' r : product h stk z n v b h' stk' r → ∃ z1, keeps h h' [free stk; z1] ∧
  ∀ t, valid h t → apart (whole z) t → apart z1 t ∧ apart (whole r) t.
Proof.
  intros [_ _ _ _ _ (z' & z1 & k & Hz & He & _ & K & _ & -> & _)]. exists z1. split; [done|]. intros t Vt At.
  assert (apart (whole z') t) as At' by (destruct Hz as [->|[-> _]]; [done|apply nil_apart, Vt]).
  split; [by eapply extent_apart|]. apply whole_part. by eapply extent_whole.
Qed.

Lemma val_all_zero l : Forall (λ w, w = 0) l → val l = 0.
Proof. induction 1 as [|w l -> _ IH]; simpl; lia. Qed.

(** A product over a receiver that is large enough, and was zero. *)
Lemma product_in_place h stk z n v h' stk' r : product h stk z n v false h' stk' r →
  valid h z → n ≤ vlen z → apart (free stk) z → Forall (λ w, w = 0) (words h z) →
  ∃ s k, keeps h h' [free stk; part z 0 s] ∧ 0 ≤ s ≤ n ∧ r = part z 0 k ∧ 0 ≤ k ≤ s ∧ val (words h' z) = v.
Proof.
  intros [_ _ _ _ _ (z' & z1 & k & [->|[_ ?]] & He & V1 & K & E1 & -> & Hk & E)] Vz Hn Az H0; [|done].
  pose proof (va_len _ _ Vz). destruct He as [(s & -> & Hs)|(_ & _ & ?)]; [|lia]. simpl in Hk. exists s, k.
  split; [done|]. split; [lia|]. split; [rewrite part_part; f_equal; lia|]. split; [lia|].
  assert (valid h (part z s (vlen z))) as Vhi by (apply valid_part; (done || lia)).
  destruct (K _ Vhi) as [_ Wk]. destruct (K z Vz) as [Vz' _].
  assert (words h' (part z s (vlen z)) = words h (part z s (vlen z))) as Ehi.
  { apply Wk. rewrite !Forall_cons. split_and!; [apply apart_part_r; (done || lia)| |by apply Forall_nil].
    unfold apart. simpl. right. lia. }
  rewrite !words_part in Ehi by (done || lia). rewrite !(take_ge (drop _ _)) in Ehi by (rewrite length_drop, length_words by done; lia).
  rewrite words_to in E1 by (done || lia).
  rewrite (val_split (words h' z) s) by (rewrite len_words by done; lia). rewrite E1, Ehi.
  rewrite (val_all_zero (drop _ _)) by (by apply Forall_drop). lia.
Qed.

Lemma normal_short l k : Forall word l → normal l → val l < _B ^ k → 0 ≤ k → len l ≤ k.
Proof.
  intros Hl Hn Hv Hk. destruct (decide (len l ≤ k)); [done|]. exfalso.
  pose proof (normal_bound l Hl Hn ltac:(lia)) as Hb.
  assert (_B ^ k ≤ _B ^ (len l - 1)) by (apply Z.pow_le_mono_r; [pose proof B_big; lia|lia]). lia.
Qed.

(** What two writes leave alone. *)
Lemma keeps_two h h' a b t : keeps h h' [a; b] → valid h t → apart a t → apart b t → words h' t = words h t.
Proof. intros K Vt Aa Ab. apply K; [done|]. rewrite !Forall_cons. split_and!; (done || by apply Forall_nil). Qed.

(** The free part of the stack stays clear of what it is clear of. *)
Lemma clear_apart h h' s s' t : valid h s → valid h' s' → vlen s' = vlen s → clear_of h s s' →
  valid h t → apart (free s) t → apart (free s') t.
Proof.
  intros V V' L C Vt At. pose proof (va_len _ _ V). pose proof (C t (vlen s) Vt ltac:(lia)) as Hc.
  rewrite (part_self h s V), <-L, (part_self h' s' V') in Hc. by apply Hc.
Qed.

(** ** The state of the method between its steps *)

Section steps.
Context (h : heap) (stk z : vec) (Vz : valid h z).

(** What the method must not change, the stack [si] and the receiver [wi] of the middle product. *)
Record between (hi : heap) (si wi : vec) : Prop := {
  bt_words : word_heap hi;
  bt_stk : valid hi si ∧ apart (free si) (whole z);
  bt_z : valid hi z;
  bt_w : valid hi wi ∧ apart (whole wi) (whole z);
  bt_out : ∀ t, valid h t → apart (free stk) t → apart z t →
    valid hi t ∧ words hi t = words h t ∧ apart (free si) t ∧ apart (whole wi) t;
  bt_clear : clear_of h stk si;
  bt_mark : vlen stk ≤ vlen si;
  bt_valid : ∀ t, valid h t → valid hi t;
}.

Lemma between_step hi si wi hj sj wj o : between hi si wi → word_heap hj → keeps hi hj [free si; o] →
  valid hj sj → vlen sj = vlen si → clear_of hi si sj → valid hj wj →
  (∀ t, valid hi t → apart (whole wi) t → apart (whole wj) t) →
  (∀ t, valid hi t → apart z t → apart (whole wi) t → apart o t) → between hj sj wj.
Proof using Vz.
  intros [B1 [B2 B2'] B3 [B4 B4'] B5 B6 B7 B8] Hw K Vs Ls C Vw Hww Ho.
  assert (∀ t, valid hi t → apart (free si) t → apart (free sj) t) as Hfree.
  { intros t. by apply (clear_apart hi hj). }
  split; try done.
  - split; [done|]. apply Hfree; [by apply valid_whole|done].
  - by apply K.
  - split; [done|]. apply Hww; [by apply valid_whole|done].
  - intros t Vt At Azt. destruct (B5 t Vt At Azt) as (V1 & E1 & F1 & W1). destruct (K t V1) as [V2 E2].
    split_and!; [done| |by apply Hfree|by apply Hww]. rewrite E2, E1; [done|]. rewrite !Forall_cons. split_and!; auto.
  - intros t k Vt Hk At. apply C; [by apply B8|lia|by apply B6].
  - lia.
  - intros t Vt. by apply K, B8.
Qed.

(** Writing [z]. *)
Lemma write_step hi si wi ws : between hi si wi → len ws = vlen z → Forall word ws → between (upd hi z ws) si wi.
Proof using Vz.
  intros B L W. pose proof (bt_z _ _ _ B) as Vzi. destruct (bt_w _ _ _ B) as [Vw Aw].
  apply (between_step hi si wi _ si wi z B); try done; [by apply word_heap_upd; [apply B|]|
    apply (keeps_incl _ _ [z]); [by apply keeps_upd|set_solver]|apply valid_upd; (done || apply B)|apply clear_of_refl|by apply valid_upd].
Qed.

(** The operands. *)
Record opd (x : vec) : Prop := {
  op_ok : valid h x;
  op_stk : apart (free stk) x;
  op_z : apart (whole z) x;
}.

Lemma opd_out x hi si wi : opd x → between hi si wi →
  valid hi x ∧ words hi x = words h x ∧ apart (free si) x ∧ apart (whole wi) x ∧ apart z x.
Proof using Vz.
  intros [Ox Os Oz] B. pose proof (va_len _ _ Vz) as Lz. pose proof (apart_whole z x Lz Oz) as Az.
  destruct (bt_out _ _ _ B x Ox Os Az) as (V & W & F & A). done.
Qed.

(** [tx.Sub(x0, x1)] in a part of [z]. *)
Lemma sub_step hi si wi x y i j : between hi si wi → opd x → opd y → normal (words h x) → normal (words h y) →
  0 ≤ i → vlen x ≤ j - i → vlen y ≤ j - i → j ≤ vlen z → i ≤ j →
  ∃ hj a s k, int_Sub hi (MkInt false (part z i j)) (MkInt false x) (MkInt false y) = Ok (hj, a) ∧ between hj si wi ∧
    keeps hi hj [part z i (i + s)] ∧ 0 ≤ k ≤ s ∧ s ≤ j - i ∧ iabs a = part z i (i + k) ∧ normal (words hj (iabs a)) ∧
    ival hj a = val (words h x) - val (words h y).
Proof using Vz.
  intros B Ox Oy Nx Ny Hi Hx Hy Hj Hij. pose proof (va_len _ _ Vz) as Lz.
  destruct (opd_out x _ _ _ Ox B) as (Vx & Wx & _ & _ & Ax), (opd_out y _ _ _ Oy B) as (Vy & Wy & _ & _ & Ay).
  assert (∀ t, apart z t → up_ok (part z i j) t) as Hup.
  { unfold up_ok, apart. simpl. intros t [?|?]; [by left|right; lia]. }
  destruct (int_Sub_ok hi (MkInt false (part z i j)) (MkInt false x) (MkInt false y)) as (hj & a & E & R & Ng);
    [apply valid_part; (lia || apply B)|apply B|split; simpl; [split; auto|by rewrite Wx]|split; simpl; [split; auto|by rewrite Wy]|].
  simpl in R. destruct (result_valid _ _ _ _ _ _ R) as (Va & Na & Ea).
  destruct R as [Rw _ _ (z1 & He & V1 & K & _ & k & Ek & Hk)].
  destruct He as [(s & -> & Hs & Hs')|(_ & _ & Hc)]; [|simpl in Hc; lia]. rewrite part_part in K, Ek. simpl in Hk, Hs'.
  exists hj, a, s, k. rewrite part_part in Ek. rewrite !Z.add_0_r in *.
  pose proof B as [B1 [B2 B2'] B3 [B4 B4'] B5 B6 B7 B8].
  split; [done|]. split.
  { apply (between_step hi si wi hj si wi (part z i (i + s))); try done.
    - apply (keeps_incl _ _ _ _ K). set_solver.
    - by apply K.
    - by apply clear_of_refl.
    - by apply K.
    - intros t Vt Azt _. apply apart_part_l; (done || lia). }
  split_and!; try done; try lia.
  unfold ival in *. simpl in *. rewrite Wx, Wy in *. rewrite Ea, Ng. destruct (Z.ltb_spec (val (words h x) - val (words h y)) 0); lia.
Qed.

(** A part of [z] is apart from what [z] is apart from. *)
Lemma part_apart i j o : apart o (whole z) → 0 ≤ i → j ≤ vlen z → apart o (part z i j).
Proof using Vz.
  intros Ao Hi Hj. pose proof (va_len _ _ Vz). unfold apart in *. simpl in *. destruct Ao as [?|?]; [by left|right; lia].
Qed.

(** [z1.Add(z1, z0)]: the receiver is the first operand, the second lies in [z]. *)
Lemma add_step hi si c p i j : between hi si (iabs c) → normal (words hi (iabs c)) →
  iabs p = part z i j → 0 ≤ i → i ≤ j → j ≤ vlen z → normal (words hi (iabs p)) →
  ∃ hj d, int_Add hi c c p = Ok (hj, d) ∧ between hj si (iabs d) ∧ normal (words hj (iabs d)) ∧
    ival hj d = ival hi c + ival hi p ∧ (∀ t, valid hi t → apart (whole (iabs c)) t → valid hj t ∧ words hj t = words hi t).
Proof using Vz.
  intros B Nc Ep Hi Hij Hj Np. pose proof B as [B1 [B2 B2'] B3 [B4 B4'] B5 B6 B7 B8]. pose proof (va_len _ _ Vz) as Lz.
  assert (valid hi (iabs p)) as Vp by (rewrite Ep; apply valid_part; (done || lia)).
  destruct (int_Add_ok hi c c p) as (hj & d & E & R & Ng); [done|done| | |].
  { split; [split; [done|right; left; done]|done]. }
  { split; [split; [done|]|done]. pose proof (va_len _ _ B4). apply apart_whole in B4'; [|done].
    pose proof (part_apart i j _ B4' Hi Hj) as Ap. rewrite Ep. unfold up_ok, apart in *. simpl in *. destruct Ap as [?|?]; [by left|right; lia]. }
  destruct (result_valid _ _ _ _ _ _ R) as (Vd & Nd & Ed). destruct (result_region _ _ _ _ _ _ R) as (z1 & He & K).
  exists hj, d. split; [done|]. split; [|split; [done|split]].
  - apply (between_step hi si (iabs c) hj si (iabs d) z1); try done; [apply R|apply (keeps_incl _ _ _ _ K); set_solver|by apply K|by apply clear_of_refl| |].
    + intros t Vt At. by eapply result_whole.
    + intros t Vt _ At. by eapply extent_apart.
  - unfold ival at 1. rewrite Ed, Ng. destruct (Z.ltb_spec (ival hi c + ival hi p) 0); lia.
  - intros t Vt At. destruct (K t Vt) as [V W]. split; [done|]. apply W, Forall_singleton. by eapply extent_apart.
Qed.

(** A new middle product's place, on the stack. *)
Lemma alloc_step append_cap n : (∀ c n, n ≤ append_cap c n) → word_heap h → valid h stk → apart (free stk) (whole z) → 0 ≤ n →
  ∃ h1 s1 w, stack_nat append_cap h stk n = Ok (h1, s1, w) ∧ between h1 s1 w ∧ apart (free s1) (whole w) ∧
    keeps h h1 [free stk] ∧ vlen w = n ∧ whole w = w.
Proof using Vz.
  intros Hcap Hw Vs Asz Hn. pose proof (va_len _ _ Vz). pose proof (va_len _ _ Vs).
  destruct (stack_nat_ok _ Hcap h stk n Vs Hw Hn) as (h1 & s1 & w & E1 & Hw1 & Vs1 & Vw & Lw & Cw & Ls1 & K1 & Ha & Hc1 & Aws & _).
  assert (whole w = w) as Eww by (destruct w; simpl in *; unfold whole; simpl; congruence).
  destruct (Ha _ (valid_whole _ _ Vz) Asz) as [Awz As1z]. exists h1, s1, w. rewrite Eww. split; [done|]. split; [|split; [by apply apart_sym|done]].
  split; [done|done|by apply K1|by rewrite Eww| |done|lia|by apply K1]. intros t Vt At Azt. destruct (Ha t Vt At) as [Awt Ast].
  split_and!; [by apply K1| |done|by rewrite Eww]. apply K1; [done|by apply Forall_singleton].
Qed.

(** A product whose operands lie in [z]: [m] is the call of [mul] or [sqr]. *)
Lemma mid_step hi si wi a b m i j i' j' : between hi si wi → apart (free si) (whole wi) →
  a = part z i j → 0 ≤ i → i ≤ j → j ≤ vlen z → b = part z i' j' → 0 ≤ i' → i' ≤ j' → j' ≤ vlen z →
  (mul_args hi si wi a b → multiplies hi si wi a b m) →
  ∃ hj sj r, m = Ok (hj, sj, r) ∧ between hj sj r ∧ apart (free sj) r ∧ normal (words hj r) ∧
    val (words hj r) = val (words hi a) * val (words hi b).
Proof using Vz.
  intros B Asw -> Hi Hij Hj -> Hi' Hij' Hj' Hm. pose proof B as [B1 [B2 B2'] B3 [B4 B4'] B5 B6 B7 B8].
  pose proof (va_len _ _ Vz) as Lz. destruct Hm as (hj & sj & r & E & P).
  { split; [done| | |].
    - split_and!; try done; by apply part_apart.
    - split_and!; [done|apply valid_part; (done || lia)|apply valid_part; (done || lia)].
    - split; left; by apply part_apart. }
  destruct (product_valid _ _ _ _ _ _ _ _ _ P) as (Vr & Nr & Er). destruct (product_region _ _ _ _ _ _ _ _ _ P) as (z1 & K & Hz1).
  exists hj, sj, r. split; [done|]. split; [|split; [|done]].
  - apply (between_step hi si wi hj sj r z1); try done; [apply P|apply P|apply P|apply P|intros t Vt; by apply Hz1|].
    intros t Vt _ At. by apply Hz1.
  - apply apart_sym, apart_whole; [apply (va_len _ _ Vr)|apply apart_sym, P].
Qed.

(** A product into a part of [z] that is zero. *)
Lemma low_step hi si wi x y m i j : between hi si wi → opd x → opd y → alias z x = false → alias z y = false →
  0 ≤ i → i ≤ j → j ≤ vlen z → vlen x + vlen y ≤ j - i → Forall (λ w, w = 0) (words hi (part z i j)) →
  (mul_args hi si (part z i j) x y → multiplies hi si (part z i j) x y m) →
  ∃ hj sj s k, m = Ok (hj, sj, part z i (i + k)) ∧
    between hj sj wi ∧ vlen sj = vlen si ∧ clear_of hi si sj ∧ keeps hi hj [free si; part z i (i + s)] ∧ 0 ≤ k ≤ s ∧ s ≤ j - i ∧
    normal (words hj (part z i (i + k))) ∧ val (words hj (part z i (i + k))) = val (words h x) * val (words h y) ∧
    val (words hj (part z i j)) = val (words h x) * val (words h y).
Proof using Vz.
  intros B Ox Oy Alx Aly Hi Hij Hj Hxy H0 Hm. pose proof B as [B1 [B2 B2'] B3 [B4 B4'] B5 B6 B7 B8].
  pose proof (va_len _ _ Vz) as Lz.
  destruct (opd_out x _ _ _ Ox B) as (Vx & Wx & Fx & _ & _), (opd_out y _ _ _ Oy B) as (Vy & Wy & Fy & _ & _).
  assert (∀ t, apart (whole z) t → apart (whole (part z i j)) t) as Hpw.
  { intros t At. unfold apart in *. simpl in *. destruct At as [?|?]; [by left|right; lia]. }
  assert (∀ t, alias z t = false → alias (part z i j) t = false) as Hal.
  { intros t At. unfold alias in *. simpl. destruct (Z.ltb_spec 0 (vcap z - i)); [|done]. rewrite (proj2 (Z.ltb_lt 0 (vcap z))) in At by lia.
    replace (off z + i + (vcap z - i)) with (off z + vcap z) by lia. done. }
  destruct Hm as (hj & sj & r & E & P).
  { split; [done| | |].
    - split_and!; try done. apply apart_sym, Hpw. by apply apart_sym.
    - split_and!; [apply valid_part; (done || lia)|done|done].
    - split; left; apply Hpw; [apply Ox|apply Oy]. }
  rewrite (Hal x Alx), (Hal y Aly) in P. simpl orb in P.
  destruct (product_valid _ _ _ _ _ _ _ _ _ P) as (Vr & Nr & Er).
  destruct (product_in_place _ _ _ _ _ _ _ _ P) as (s & k & K & Hs & -> & Hk & Ev); [apply valid_part; (done || lia)|simpl; lia| |done|].
  { by apply part_apart. }
  rewrite part_part, Z.add_0_r in K. rewrite part_part, Z.add_0_r in *. rewrite Wx, Wy in *.
  exists hj, sj, s, k. split; [done|]. split.
  { apply (between_step hi si wi hj sj wi (part z i (i + s))); try done; try apply P; [by apply K|].
    intros t Vt Azt _. apply apart_part_l; (done || lia). }
  split_and!; try done; try lia; apply P.
Qed.
End steps.

(** ** Products of signed numbers *)

Lemma int_mul_ok (mul : multiplier) h stk z a b h' stk' r : mul h stk z (iabs a) (iabs b) = Ok (h', stk', r) →
  word_heap h' → valid h' r → normal (words h' r) → val (words h' r) = val (words h (iabs a)) * val (words h (iabs b)) →
  ∃ c, int_mul mul h stk (MkInt false z) a b = Ok (h', stk', c) ∧ iabs c = r ∧ ival h' c = ival h a * ival h b.
Proof.
  intros E Hw Vr Nr Er. unfold int_mul. simpl iabs. rewrite E. cbn [mbind res_bind]. unfold signed. cbv zeta beta iota.
  eexists. split; [done|]. split; [done|]. unfold ival in *. simpl. rewrite Er. pose proof (normal_zero _ _ Hw Vr Nr) as Hz.
  pose proof (va_len _ _ Vr). destruct (Z.ltb_spec 0 (vlen r)); simpl; [destruct (neg a), (neg b); simpl; lia|].
  assert (val (words h (iabs a)) * val (words h (iabs b)) = 0) by (rewrite <-Er; apply Hz; lia).
  destruct (neg a), (neg b); lia.
Qed.

Lemma int_mul_pos (mul : multiplier) h stk z x y h' stk' r : mul h stk z x y = Ok (h', stk', r) →
  int_mul mul h stk (MkInt false z) (MkInt false x) (MkInt false y) = Ok (h', stk', MkInt false r).
Proof. intros E. unfold int_mul. simpl. rewrite E. cbn. by rewrite andb_false_r. Qed.
