(* ===== verification/BigKaratsuba.v ===== *)
(** * math/big: Karatsuba multiplication is correct *)

From Stdlib Require Import String.
From S2P Require Import Prelude Bytealg Bits BigHeap BigArith BigWords BigVec BigNat BigRes BigMul BigBits BigDiv BigLong BigStack BigDivide BigMult BigKara.

(** ** The method *)

(** The result of a method that writes all of [z]. *)
Record filled (h : heap) (stk z : vec) (v : Z) (h' : heap) (stk' : vec) : Prop := {
  fl_words : word_heap h';
  fl_stk : valid h' stk' ∧ vlen stk' = vlen stk;
  fl_clear : clear_of h stk stk';
  fl_keeps : keeps h h' [free stk; z];
  fl_val : val (words h' z) = v;
}.

Lemma alias_part_r z x i j : 0 ≤ i → alias z x = false → alias z (part x i j) = false.
Proof.
  intros Hi Al. unfold alias in *. simpl. destruct (Z.ltb_spec 0 (vcap x - i)); [|by rewrite !andb_false_r].
  rewrite (proj2 (Z.ltb_lt 0 (vcap x))) in Al by lia. replace (off x + i + (vcap x - i)) with (off x + vcap x) by lia. done.
Qed.

Lemma opd_part h stk z x i j : opd h stk z x → 0 ≤ i → i ≤ j → j ≤ vlen x → opd h stk z (part x i j).
Proof.
  intros [Ox Os Oz] Hi Hij Hj. pose proof (va_len _ _ Ox). split; [apply valid_part; (done || lia)|by apply apart_part_r|by apply apart_part_r].
Qed.

(** [x[i:j].norm()] *)
Lemma norm_part h x i j : valid h x → 0 ≤ i → i ≤ j → j ≤ vlen x →
  ∃ k, nat_norm h (part x i j) = Ok (part x i (i + k)) ∧ 0 ≤ k ≤ j - i ∧ normal (words h (part x i (i + k))) ∧
    val (words h (part x i (i + k))) = val (take (Z.to_nat (j - i)) (drop (Z.to_nat i) (words h x))).
Proof.
  intros Vx Hi Hij Hj. pose proof (va_len _ _ Vx). assert (valid h (part x i j)) as Vp by (apply valid_part; (done || lia)).
  destruct (norm_ok h (part x i j) Vp) as (k & E & Hk & Ev & Hn). simpl in Hk. exists k.
  rewrite part_part, Z.add_0_r in E, Ev, Hn. rewrite Ev, (words_part h x i j) by (done || lia). done.
Qed.

(** Both halves of an operand. *)
Lemma halves h stk z x n2 : opd h stk z x → 0 ≤ n2 → n2 ≤ vlen x →
  ∃ k0 k1, let x0 := part x 0 k0 in let x1 := part x n2 (n2 + k1) in
    to x n2 = Ok (part x 0 n2) ∧ nat_norm h (part x 0 n2) = Ok x0 ∧
    from x n2 = Ok (part x n2 (vlen x)) ∧ nat_norm h (part x n2 (vlen x)) = Ok x1 ∧
    0 ≤ k0 ≤ n2 ∧ 0 ≤ k1 ≤ vlen x - n2 ∧ normal (words h x0) ∧ normal (words h x1) ∧
    opd h stk z x0 ∧ opd h stk z x1 ∧ val (words h x) = val (words h x0) + _B ^ n2 * val (words h x1).
Proof.
  intros O H0 Hn. pose proof (op_ok _ _ _ _ O) as Vx. pose proof (va_len _ _ Vx).
  destruct (norm_part h x 0 n2) as (k0 & E0 & Hk0 & N0 & V0); [done|lia..|].
  destruct (norm_part h x n2 (vlen x)) as (k1 & E1 & Hk1 & N1 & V1); [done|lia..|].
  exists k0, k1. cbv zeta. unfold to, from. rewrite !sub_part by lia.
  rewrite Z.add_0_l in *. rewrite Z.sub_0_r in *. split_and!; try done; try lia; [apply opd_part; (done || lia)..|].
  rewrite V0, V1, drop_0, (val_split (words h x) n2) by (rewrite len_words by done; lia).
  rewrite (take_ge (drop _ _)); [done|]. rewrite length_drop, length_words by done. lia.
Qed.

Lemma opd_alias z x i j : alias z x = false → 0 ≤ i → alias z (part x i j) = false.
Proof. intros. by apply alias_part_r. Qed.

(** The middle product and its place. *)
Lemma kara_value X0 X1 Y0 Y1 P : (X0 + P * X1) * (Y0 + P * Y1) =
  (X0 * Y0 + P * P * (X1 * Y1)) + P * ((X0 - X1) * (Y1 - Y0) + X0 * Y0 + X1 * Y1).
Proof. ring. Qed.

(** Adding [d] above the lowest [k] words of [z]. *)
Lemma addTo_above h z k d T : valid h z → word_heap h → 0 ≤ k ≤ vlen z → valid h d → normal (words h d) → apart z d →
  val (words h z) + _B ^ k * val (words h d) = T → T < _B ^ vlen z →
  ∃ ws, (zr ← from z k; addTo h zr d) = Ok (upd h z ws) ∧ len ws = vlen z ∧ Forall word ws ∧ val ws = T.
Proof.
  intros Vz Hw Hk Vd Nd Ad ET HT. pose proof (va_len _ _ Vz). pose proof (len_words _ _ Vz) as Lz.
  pose proof (Bpow_pos k ltac:(lia)) as HP. pose proof (val_split (words h z) k ltac:(lia)) as Es.
  assert (valid h (part z k (vlen z))) as Vr by (apply valid_part; (done || lia)).
  assert (words h (part z k (vlen z)) = drop (Z.to_nat k) (words h z)) as Wr.
  { rewrite words_part by (done || lia). rewrite take_ge; [done|]. rewrite length_drop, length_words by done. lia. }
  pose proof (val_take_range (words h z) k ltac:(by apply word_heap_words) ltac:(lia)) as Rl.
  assert (_B ^ vlen z = _B ^ k * _B ^ (vlen z - k)) as EB by (rewrite <-Z.pow_add_r by lia; f_equal; lia).
  pose proof (val_range _ (word_heap_words h d Hw)) as Rd. pose proof (val_range (drop (Z.to_nat k) (words h z)) ltac:(by apply Forall_drop, word_heap_words)) as Rh.
  set (U := val (drop (Z.to_nat k) (words h z))) in *. set (D := val (words h d)) in *.
  assert (U + D < _B ^ (vlen z - k)) as Hfit by nia.
  destruct (addTo_ok h (part z k (vlen z)) d) as (ws & E & Lw & Ww & Ev); [done|done|done|apply apart_part_l; (done || lia)| |rewrite Wr; done|].
  { rewrite <-(len_words h d Vd). apply normal_short; [by apply word_heap_words|done|simpl; fold D; lia|simpl; lia]. }
  simpl vlen in Lw. unfold from. rewrite sub_part by lia. cbn [mbind res_bind]. rewrite E, upd_part by (done || lia).
  exists (splice (words h z) k ws). split; [done|]. split; [rewrite len_splice; lia|]. split; [by apply Forall_splice; [apply word_heap_words|]|].
  rewrite val_splice by lia. rewrite (take_ge (drop _ _)) by (rewrite length_drop, length_words by done; unfold len in Lw; lia).
  rewrite Ev, Wr. fold U D. lia.
Qed.

(** [basicMul] over all of [z]. *)
Lemma basic_filled h stk z x y : word_heap h → valid h stk → valid h z → valid h x → valid h y →
  apart z x → apart z y → vlen z = vlen x + vlen y →
  ∃ h', basicMul h z x y = Ok h' ∧ filled h stk z (val (words h x) * val (words h y)) h' stk.
Proof.
  intros Hw Vs Vz Vx Vy Ax Ay Lz. pose proof (va_len _ _ Vz).
  assert (part z 0 (vlen x + vlen y) = z) as Ez by (rewrite <-(part_self h z Vz) at 2; f_equal; lia).
  destruct (basicMul_ok h z x y Vz Hw Vx Vy) as (ws & E & Lw & Ww & Ev); [lia|by rewrite Ez..|].
  rewrite Ez in E. exists (upd h z ws). split; [done|]. assert (len ws = vlen z) as Lw' by lia. split.
  - by apply word_heap_upd.
  - split; [by apply valid_upd|done].
  - apply clear_of_refl.
  - apply (keeps_incl _ _ [z]); [by apply keeps_upd|set_solver].
  - by rewrite words_upd_eq.
Qed.

(** The stack after [restore]. *)
Lemma restore_ok h stk h' s : valid h stk → valid h' s → vlen stk ≤ vlen s → clear_of h stk s →
  ∃ s', stack_restore s (stack_save stk) = Ok s' ∧ valid h' s' ∧ vlen s' = vlen stk ∧ clear_of h stk s'.
Proof.
  intros Vs V L C. pose proof (va_len _ _ V). pose proof (va_len _ _ Vs). exists (part s 0 (vlen stk)). unfold stack_restore, stack_save.
  rewrite sub_part by lia. split; [done|]. split; [apply valid_part; (done || lia)|]. split; [simpl; lia|].
  intros t k Vt Hk At. pose proof (C t k Vt Hk At) as Hc. unfold apart in *. simpl in *. destruct Hc as [?|?]; [by left|right; lia].
Qed.

Lemma inner_apart z c : 0 ≤ vlen c ≤ vcap c → 0 ≤ vlen z ≤ vcap z → apart (whole c) (whole z) → apart z c.
Proof. unfold apart. simpl. intros Hc Hz [?|?]; [left; congruence|right; lia]. Qed.

(** Monadic steps whose outcome is known. *)
Ltac steps E := rewrite E; cbn [mbind res_bind].

(** ** The receiver and the stack between the steps *)
Section frames.
Context (h : heap) (stk z : vec) (Vs : valid h stk) (Vz : valid h z).

(** Parts of [z] before and after a product into another part. *)
Lemma low_keeps hi si wi hj i' j' i j : between h stk z hi si wi → keeps hi hj [free si; part z i' j'] →
  0 ≤ i → i ≤ j → j ≤ vlen z → j' ≤ i ∨ j ≤ i' → 0 ≤ i' → words hj (part z i j) = words hi (part z i j).
Proof using All.
  intros B K Hi Hij Hj Hd Hi'. pose proof (va_len _ _ Vz). eapply keeps_two; [exact K|apply valid_part; (lia || apply B)| |].
  - apply (part_apart h z Vz); (lia || apply B).
  - unfold apart. simpl. right. lia.
Qed.

(** The middle product is not in [z] and not free on the stack. *)
Lemma low_mid hi si wi hj sj i j : between h stk z hi si wi → valid hj sj → vlen sj = vlen si → clear_of hi si sj →
  keeps hi hj [free si; part z i j] → apart (free si) wi → 0 ≤ i → j ≤ vlen z →
  words hj wi = words hi wi ∧ apart (free sj) wi.
Proof using All.
  intros B V L C K As Hi Hj. pose proof (va_len _ _ Vz). destruct (bt_w _ _ _ _ _ _ B) as [Vw Aw].
  split; [|eapply (clear_apart hi hj si sj); try done; apply B].
  eapply keeps_two; [done..|]. apply apart_sym, (part_apart h z Vz); try done. by apply apart_whole; [apply (va_len _ _ Vw)|].
Qed.

(** [clear(z)] *)
Lemma clear_step hi si c : between h stk z hi si c → between h stk z (clear hi z) si c ∧
  words (clear hi z) c = words hi c ∧
  ∀ i j, 0 ≤ i → i ≤ j → j ≤ vlen z → Forall (λ w, w = 0) (words (clear hi z) (part z i j)).
Proof using All.
  intros B. pose proof (va_len _ _ Vz) as Lz'. unfold clear. set (zs := replicate (Z.to_nat (vlen z)) 0).
  assert (len zs = vlen z) as Lzs by (unfold zs, len; rewrite length_replicate; lia).
  assert (Forall word zs) as Wzs by (by apply Forall_replicate).
  pose proof (bt_z _ _ _ _ _ _ B) as Vzi. destruct (bt_w _ _ _ _ _ _ B) as [Vc Ac].
  split; [|split].
  - by apply (write_step h stk z Vz).
  - apply words_upd_apart; try done. by apply inner_apart; [apply (va_len _ _ Vc)|..].
  - intros i j Hi Hij Hj. rewrite words_part, words_upd_eq by (done || lia || by apply valid_upd). by apply Forall_take, Forall_drop, Forall_replicate.
Qed.

(** ** The sums *)

Context (n n2 : Z) (Hn2 : 0 ≤ n2 ≤ n) (Lz : vlen z = 2 * n).

(** [z1.Add(z1, z0)] and [z1.Add(z1, z2)] *)
Lemma kara_sum h7 s7 c k0 k2 : let z0 := part z 0 k0 in let z2 := part z (2 * n2) (2 * n2 + k2) in
  between h stk z h7 s7 (iabs c) → normal (words h7 (iabs c)) → 0 ≤ k0 ≤ vlen z → 0 ≤ k2 ≤ 2 * n - 2 * n2 →
  normal (words h7 z0) → normal (words h7 z2) →
  ∃ h8 d h9 e, int_Add h7 c c (MkInt false z0) = Ok (h8, d) ∧ int_Add h8 d d (MkInt false z2) = Ok (h9, e) ∧
    between h stk z h9 s7 (iabs e) ∧ normal (words h9 (iabs e)) ∧
    ival h9 e = ival h7 c + val (words h7 z0) + val (words h7 z2) ∧ words h9 z = words h7 z.
Proof using All.
  intros z0 z2 B7 Nc Hk0 Hk2 Np0 Np2. pose proof (va_len _ _ Vz) as Lz'.
  destruct (add_step h stk z Vz h7 s7 c (MkInt false z0) 0 k0 B7) as (h8 & d & E8 & B8 & Nd & Id & K8); try done; try lia.
  destruct (bt_w _ _ _ _ _ _ B7) as [_ Ac7]. destruct (bt_w _ _ _ _ _ _ B8) as [_ Ad8].
  assert (∀ i j, 0 ≤ i → i ≤ j → j ≤ vlen z → words h8 (part z i j) = words h7 (part z i j)) as Wz8.
  { intros i j Hi Hij Hj. apply K8; [apply valid_part; (lia || apply B7)|]. apply (part_apart h z Vz); done. }
  destruct (add_step h stk z Vz h8 s7 d (MkInt false z2) (2 * n2) (2 * n2 + k2) B8) as (h9 & e & E9 & B9 & Ne & Ie & K9); try done; try lia;
    [by simpl; unfold z2; rewrite Wz8 by lia|].
  exists h8, d, h9, e. split_and!; try done.
  - rewrite Ie, Id. unfold ival at 2 3. simpl. unfold z2. rewrite Wz8 by lia. done.
  - rewrite <-(part_self h z Vz), <-(Wz8 0 (vlen z)) by lia. apply K9; [apply valid_part; (lia || apply B8)|].
    apply (part_apart h z Vz); (done || lia).
Qed.

(** From the last addition, [z[n2:] += z1], to the end. *)
Lemma kara_end h9 s9 e m T : between h stk z h9 s9 (iabs e) → normal (words h9 (iabs e)) → ival h9 e = m → 0 ≤ m →
  val (words h9 z) + _B ^ n2 * m = T → T < _B ^ vlen z →
  ∃ zr h' stk', from z n2 = Ok zr ∧ addTo h9 zr (iabs e) = Ok h' ∧ stack_restore s9 (stack_save stk) = Ok stk' ∧
    filled h stk z T h' stk'.
Proof using All.
  intros B9 Ne Ie Hm ET HT. pose proof (bt_z _ _ _ _ _ _ B9) as Vz9. pose proof (va_len _ _ Vz) as Lz'.
  destruct (bt_w _ _ _ _ _ _ B9) as [Ve9 Ae9].
  assert (val (words h9 (iabs e)) = m) as Ve.
  { unfold ival in Ie. pose proof (proj1 (val_range _ (word_heap_words _ (iabs e) (bt_words _ _ _ _ _ _ B9)))). destruct (neg e); lia. }
  destruct (addTo_above h9 z n2 (iabs e) T) as (ws & E10 & Lws & Wws & Ews); [done|apply B9|lia|done|done| |by rewrite Ve|done|].
  { by apply (inner_apart z (iabs e)); [apply (va_len _ _ Ve9)|..]. }
  assert (between h stk z (upd h9 z ws) s9 (iabs e)) as B10 by (by apply (write_step h stk z Vz)).
  destruct (restore_ok h stk _ s9 Vs (proj1 (bt_stk _ _ _ _ _ _ B10)) (bt_mark _ _ _ _ _ _ B10) (bt_clear _ _ _ _ _ _ B10)) as (s' & E11 & Vs' & Ls'' & Cs').
  unfold from in *. rewrite sub_part in * by lia. cbn [mbind res_bind] in E10.
  exists (part z n2 (vlen z)), (upd h9 z ws), s'. split_and!; try done. split; [apply B10|done|done| |by rewrite words_upd_eq].
  intros t Vt. split; [by apply (bt_valid _ _ _ _ _ _ B10)|]. rewrite !Forall_cons. intros (At & Azt & _).
  by apply (bt_out _ _ _ _ _ _ B10).
Qed.
(** ** The low and the high product

    [n2] words are in the lower halves, [n - n2] in the upper ones. *)
Section low.
Context (x0 x1 y0 y1 : vec).
Context (Ox0 : opd h stk z x0) (Ox1 : opd h stk z x1) (Oy0 : opd h stk z y0) (Oy1 : opd h stk z y1).
Context (Al : alias z x0 = false ∧ alias z x1 = false ∧ alias z y0 = false ∧ alias z y1 = false).
Context (Lx0 : vlen x0 ≤ n2) (Lx1 : vlen x1 ≤ n - n2) (Ly0 : vlen y0 ≤ n2) (Ly1 : vlen y1 ≤ n - n2) (Hle : n ≤ 2 * n2 ≤ 2 * n).
Let a := val (words h x0) * val (words h y0).
Let b := val (words h x1) * val (words h y1).

(** After [clear(z)], [z0] is the product [m0] and [z2] the product [m2]. *)
Lemma kara_low hi si c m0 m2 : between h stk z hi si c → apart (free si) c →
  (let z0 := part z 0 (2 * n2) in mul_args (clear hi z) si z0 x0 y0 → multiplies (clear hi z) si z0 x0 y0 m0) →
  (∀ h s, let z2 := part z (2 * n2) (2 * n) in mul_args h s z2 x1 y1 → multiplies h s z2 x1 y1 (m2 h s)) →
  ∃ h6 s6 h7 s7 k0 k2, let z0 := part z 0 k0 in let z2 := part z (2 * n2) (2 * n2 + k2) in
  m0 = Ok (h6, s6, z0) ∧ m2 h6 s6 = Ok (h7, s7, z2) ∧ between h stk z h7 s7 c ∧ words h7 c = words hi c ∧
  0 ≤ k0 ≤ vlen z ∧ 0 ≤ k2 ≤ 2 * n - 2 * n2 ∧ normal (words h7 z0) ∧ normal (words h7 z2) ∧
  val (words h7 z0) = a ∧ val (words h7 z2) = b ∧ val (words h7 z) = a + _B ^ (2 * n2) * b.
Proof using All.
  intros B4 As4c H0 H2. pose proof (va_len _ _ Vz) as Lz'. destruct Al as (Al0 & Al1 & Al2 & Al3).
  destruct (clear_step hi si c B4) as (B5 & Wc5 & Hz5). set (h5 := clear hi z) in *.
  destruct (low_step h stk z Vz h5 si c x0 y0 m0 0 (2 * n2) B5) as (h6 & s6 & q0 & k0 & E6 & B6 & L6 & C6 & K6 & Hk0 & Hq0 & Mp0 & Vp0 & Vz0);
    try done; try lia; [apply Hz5; lia|].
  destruct (low_mid _ _ _ h6 s6 _ _ B5 (proj1 (bt_stk _ _ _ _ _ _ B6)) L6 C6 K6 As4c) as [Wc6 As6]; [lia..|].
  destruct (low_step h stk z Vz h6 s6 c x1 y1 (m2 h6 s6) (2 * n2) (2 * n) B6) as (h7 & s7 & q2 & k2 & E7 & B7 & L7 & C7 & K7 & Hk2 & Hq2 & Mp2 & Vp2 & Vz2);
    try done; try lia; [rewrite (low_keeps _ _ _ _ _ _ _ _ B5 K6) by lia; apply Hz5; lia|by apply H2|].
  destruct (low_mid _ _ _ h7 s7 _ _ B6 (proj1 (bt_stk _ _ _ _ _ _ B7)) L7 C7 K7 As6) as [Wc7 As7]; [lia..|].
  rewrite Z.add_0_l in *. pose proof (bt_z _ _ _ _ _ _ B7) as Vz7.
  assert (words h7 (part z 0 k0) = words h6 (part z 0 k0)) as Wp7 by (apply (low_keeps _ _ _ _ _ _ _ _ B6 K7); lia).
  exists h6, s6, h7, s7, k0, k2. cbv zeta. rewrite Wp7. split_and!; try done; try lia; [congruence|].
  unfold a, b. rewrite <-Vz0, <-Vz2, <-(low_keeps _ _ _ _ _ _ 0 (2 * n2) B6 K7) by lia.
  rewrite (val_split (words h7 z) (2 * n2)) by (rewrite len_words by done; lia). rewrite !words_part by (done || lia).
  rewrite Z.sub_0_r, drop_0. f_equal. rewrite (take_ge (drop _ _)); [done|]. rewrite length_drop, length_words by done. lia.
Qed.
End low.
End frames.

Section karatsuba.
Context (append_cap : Z → Z → Z) (Hcap : ∀ c n, n ≤ append_cap c n).
Context (h : heap) (stk z x y : vec) (Hw : word_heap h) (Vs : valid h stk) (Vz : valid h z).
Context (Ox : opd h stk z x) (Oy : opd h stk z y) (Asz : apart (free stk) (whole z)).
Context (Alx : alias z x = false) (Aly : alias z y = false).
Let n := vlen y.
Context (Lx : vlen x = n) (Lz : vlen z = 2 * n).
Context (mul : multiplier) (N : Z).
Context (Hmul : ∀ h stk z x y, mul_args h stk z x y → vlen x ≤ N → vlen y ≤ N → multiplies h stk z x y (mul h stk z x y)).
Notation int := (MkInt false).

(** From [stk.nat] to [z1.mul(tx, ty)]. *)
Lemma kara_mid n2 x0 x1 y0 y1 : 0 ≤ n2 ≤ N → 2 * n2 ≤ vlen z → opd h stk z x0 → opd h stk z x1 → opd h stk z y0 → opd h stk z y1 →
  normal (words h x0) → normal (words h x1) → normal (words h y0) → normal (words h y1) →
  vlen x0 ≤ n2 → vlen x1 ≤ n2 → vlen y0 ≤ n2 → vlen y1 ≤ n2 →
  ∃ h1 s1 w h2 tx h3 ty h4 s4 c, stack_nat append_cap h stk (2 * n2 + 1) = Ok (h1, s1, w) ∧
  int_Sub h1 (int (part z 0 n2)) (int x0) (int x1) = Ok (h2, tx) ∧
  int_Sub h2 (int (part z n2 (2 * n2))) (int y1) (int y0) = Ok (h3, ty) ∧
  int_mul mul h3 s1 (int w) tx ty = Ok (h4, s4, c) ∧
  between h stk z h4 s4 (iabs c) ∧ apart (free s4) (iabs c) ∧ normal (words h4 (iabs c)) ∧
  ival h4 c = (val (words h x0) - val (words h x1)) * (val (words h y1) - val (words h y0)).
Proof using All.
  intros HN Hz Ox0 Ox1 Oy0 Oy1 Nx0 Nx1 Ny0 Ny1 Lx0 Lx1 Ly0 Ly1. pose proof (va_len _ _ Vz) as Lz'.
  destruct (alloc_step h stk z Vz append_cap (2 * n2 + 1)) as (h1 & s1 & w & E1 & B1 & A1 & _ & _); try done; try lia.
  destruct (sub_step h stk z Vz h1 s1 w x0 x1 0 n2 B1) as (h2 & tx & sx & kx & E2 & B2 & K2 & Hkx & Hsx & Etx & Ntx & Ix); try done; try lia.
  destruct (sub_step h stk z Vz h2 s1 w y1 y0 n2 (2 * n2) B2) as (h3 & ty & sy & ky & E3 & B3 & K3 & Hky & Hsy & Ety & Nty & Iy); try done; try lia.
  assert (valid h2 (iabs tx)) as Vtx by (rewrite Etx; apply valid_part; (lia || apply B2)).
  assert (words h3 (iabs tx) = words h2 (iabs tx)) as Wtx.
  { apply K3; [done|]. apply Forall_singleton. rewrite Etx. unfold apart. simpl. right. lia. }
  destruct (mid_step h stk z Vz h3 s1 w (iabs tx) (iabs ty) (mul h3 s1 w (iabs tx) (iabs ty)) 0 (0 + kx) n2 (n2 + ky) B3)
    as (h4 & s4 & r & E4 & B4 & A4 & Nr & Er); try done; try lia.
  { intros MA. apply Hmul; [done|rewrite Etx; simpl; lia|rewrite Ety; simpl; lia]. }
  destruct (int_mul_ok mul h3 s1 w tx ty h4 s4 r E4) as (c & E5 & <- & Ic); [apply B4|apply B4|done|done|].
  assert (ival h3 tx = ival h2 tx) as Itx by (unfold ival; by rewrite Wtx). rewrite Itx, Ix, Iy in Ic.
  by exists h1, s1, w, h2, tx, h3, ty, h4, s4, c.
Qed.

Context (HN : (n + 1) / 2 ≤ N).

Lemma karatsuba_ok : ∃ h' stk', karatsuba append_cap mul h stk z x y = Ok (h', stk') ∧
  filled h stk z (val (words h x) * val (words h y)) h' stk'.
Proof using All.
  unfold karatsuba. cbv zeta. fold n. rewrite Lx, Lz, !Z.eqb_refl. simpl orb. cbv iota. pose proof (va_len _ _ Vz) as Lz'.
  destruct ((n <? karatsubaThreshold) || (n <? 2)) eqn:Es.
  { destruct (basic_filled h stk z x y Hw Vs Vz (op_ok _ _ _ _ Ox) (op_ok _ _ _ _ Oy)) as (h' & -> & F);
      [apply apart_whole; (done || apply Ox)|apply apart_whole; (done || apply Oy)|lia|by exists h', stk]. }
  apply orb_false_iff in Es as [_ Hn2%Z.ltb_ge]. pose proof (Z.div_mod (n + 1) 2 ltac:(lia)). pose proof (Z.mod_pos_bound (n + 1) 2 ltac:(lia)).
  set (n2 := (n + 1) / 2) in *. assert (n ≤ 2 * n2 ≤ n + 1) as Hb by lia.
  destruct (halves h stk z x n2 Ox) as (kx0 & kx1 & Tx0 & Ex0 & Tx1 & Ex1 & Hx0 & Hx1 & Nx0 & Nx1 & Ox0 & Ox1 & Vx); [lia..|].
  destruct (halves h stk z y n2 Oy) as (ky0 & ky1 & Ty0 & Ey0 & Ty1 & Ey1 & Hy0 & Hy1 & Ny0 & Ny1 & Oy0 & Oy1 & Vy); [lia..|].
  set (x0 := part x 0 kx0) in *. set (x1 := part x n2 (n2 + kx1)) in *. set (y0 := part y 0 ky0) in *. set (y1 := part y n2 (n2 + ky1)) in *.
  steps Tx0. steps Ex0. steps Tx1. steps Ex1. steps Ty0. steps Ey0. steps Ty1. steps Ey1.
  rewrite !sub_part by (pose proof (va_len _ _ Vz); lia). cbn [mbind res_bind].
  assert (from z (2 * n2) = Ok (part z (2 * n2) (2 * n))) as -> by (unfold from; rewrite sub_part, Lz by (pose proof (va_len _ _ Vz); lia); done). cbn [mbind res_bind].
  destruct (kara_mid n2 x0 x1 y0 y1) as (h1 & s1 & w & h2 & tx & h3 & ty & h4 & s4 & c & E1 & E2 & E3 & E4 & B4 & A4 & Nc & Ic); try done; try (simpl; lia).
  steps E1. steps E2. steps E3. steps E4.
  destruct (kara_low h stk z Vs Vz n n2 ltac:(lia) Lz x0 x1 y0 y1) with (hi := h4) (si := s4) (c := iabs c)
    (m0 := mul (clear h4 z) s4 (part z 0 (2 * n2)) x0 y0) (m2 := λ h s, mul h s (part z (2 * n2) (2 * n)) x1 y1)
    as (h6 & s6 & h7 & s7 & k0 & k2 & E6 & E7 & B7 & Wc7 & Hk0 & Hk2 & Np0 & Np2 & Ip0 & Ip2 & Vz7); try done; try (simpl; lia).
  { by split_and!; apply opd_alias; (done || lia). }
  { intros z0 MA. apply Hmul; (done || simpl; lia). }
  { intros h' s' z2 MA. apply Hmul; (done || simpl; lia). }
  steps (int_mul_pos mul _ _ _ _ _ _ _ _ E6). steps (int_mul_pos mul _ _ _ _ _ _ _ _ E7).
  destruct (kara_sum h stk z Vs Vz n n2 ltac:(lia) Lz h7 s7 c k0 k2 B7 ltac:(by rewrite Wc7) Hk0 Hk2 Np0 Np2)
    as (h8 & d & h9 & e & E8 & E9 & B9 & Ne & Ie & Wz9).
  steps E8. steps E9. assert (ival h7 c = ival h4 c) as Ec by (unfold ival; by rewrite Wc7). rewrite Ec, Ic, Ip0, Ip2 in Ie.
  set (X0 := val (words h x0)) in *. set (X1 := val (words h x1)) in *. set (Y0 := val (words h y0)) in *. set (Y1 := val (words h y1)) in *.
  assert (0 ≤ X0 ∧ 0 ≤ X1 ∧ 0 ≤ Y0 ∧ 0 ≤ Y1) as (PX0 & PX1 & PY0 & PY1) by (split_and!; by apply val_range, word_heap_words).
  destruct (kara_end h stk z Vs Vz n n2 ltac:(lia) Lz h9 s7 e _ (val (words h x) * val (words h y)) B9 Ne Ie)
    as (zr & h' & stk' & E10 & E11 & E12 & F).
  - nia.
  - assert (_B ^ (2 * n2) = _B ^ n2 * _B ^ n2) as EB by (rewrite <-Z.pow_add_r by lia; f_equal; lia).
    rewrite Wz9, Vz7, Vx, Vy, EB. ring.
  - pose proof (op_ok _ _ _ _ Ox) as Vx'. pose proof (op_ok _ _ _ _ Oy) as Vy'.
    pose proof (val_range _ (word_heap_words h x Hw)) as Rx. rewrite len_words, Lx in Rx by done.
    pose proof (val_range _ (word_heap_words h y Hw)) as Ry. rewrite len_words in Ry by done. fold n in Ry.
    rewrite Lz. replace (2 * n) with (n + n) by lia. rewrite Z.pow_add_r by lia. nia.
  - steps E10. steps E11. steps E12. exists h', stk'. done.
Qed.
End karatsuba.
