(* ===== verification/BigProduct.v ===== *)
(** * math/big: products of numbers of any length *)

From Stdlib Require Import String.
From S2P Require Import Prelude Bytealg Bits BigHeap BigArith BigWords BigVec BigNat BigRes BigMul BigBits BigDiv BigLong BigStack BigDivide BigMult BigKara BigKaratsuba.

(** ** From a result to a product *)

Lemma valid_free h stk : valid h stk → valid h (free stk).
Proof.
  intros V. pose proof V as [T1 T2 T3]. unfold free, part. split; simpl; [lia|lia|]. destruct T3 as [[? ?]|[? ?]]; [left; lia|right; split; [lia|done]].
Qed.

Lemma alias_sym z x : alias z x = alias x z.
Proof.
  unfold alias. rewrite (Z.eqb_sym (off z + vcap z)), (andb_comm (0 <? vcap z)). f_equal. f_equal. apply bool_decide_ext. naive_solver.
Qed.

Lemma may_mul_reads h z x : valid h z → valid h x → may_mul z x → reads h z x.
Proof.
  intros Vz Vx [A|[_ U]]; split; try done. pose proof (va_len _ _ Vz). apply apart_whole in A; [|done].
  unfold up_ok, apart in *. pose proof (va_len _ _ Vx). destruct A as [?|[?|?]]; [by left|right; left; lia|right; right; lia].
Qed.

(** A result is a product that left the stack alone. *)
Lemma result_product h stk z z' n v b h' r : result h z' n v h' r → (z' = z ∨ z' = nilvec ∧ b = true) → valid h stk →
  apart (free stk) (whole z') → product h stk z n v b h' stk r.
Proof.
  intros R Hz Vs As. pose proof (result_whole _ _ _ _ _ _ (free stk) R (valid_free h stk Vs)) as A.
  destruct (result_valid _ _ _ _ _ _ R) as (V & N & E). pose proof R as [Rw _ _ (z1 & He & V1 & K & E1 & k & -> & Hk)].
  split; [done|split; [by apply K|done]|apply clear_of_refl|done|apply apart_sym, A; by apply apart_sym|].
  exists z', z1, k. split_and!; try done; try lia. apply (keeps_incl _ _ _ _ K). set_solver.
Qed.

(** All of the made slice was written; the stack may have grown. *)
Lemma made_product h stk z z' n v b h1 z1 h' stk' : made h z' n h1 z1 → (z' = z ∨ z' = nilvec ∧ b = true) →
  valid h stk → apart (free stk) (whole z') → filled h1 stk z1 v h' stk' →
  ∃ r, ret_norm h' z1 = Ok (h', r) ∧ product h stk z n v b h' stk' r.
Proof.
  intros M Hz Vs As [F1 [F2 F2'] F3 F4 F5]. pose proof (md_valid _ _ _ _ _ M) as V1.
  destruct (md_keeps _ _ _ _ _ M stk Vs) as [Vs1 _].
  assert (valid h' z1) as V1' by (by apply F4). destruct (norm_ok h' z1 V1') as (k & E & Hk & Ev & Hn).
  unfold ret_norm. rewrite E. cbn. exists (part z1 0 k). split; [done|].
  assert (apart (free stk') (whole (part z1 0 k))) as Ar.
  { apply apart_sym, whole_part, apart_sym. apply (clear_apart h1 h' stk stk'); try done; [by apply valid_whole|].
    apply apart_sym. eapply extent_whole; [by apply (md_extent _ _ _ _ _ M)|by apply valid_free|by apply apart_sym]. }
  split; [done|done| |done|done|].
  - intros t i Vt Hi. apply F3; [by apply (md_keeps _ _ _ _ _ M)|done].
  - exists z', z1, k. split_and!; try done; try lia; try congruence; [apply M|].
    eapply keeps_trans; [|exact F4]. apply (keeps_incl _ _ _ _ (md_keeps _ _ _ _ _ M)). set_solver.
Qed.

Lemma clear_of_trans h h1 s s1 s2 : clear_of h s s1 → clear_of h1 s1 s2 → vlen s ≤ vlen s1 →
  (∀ t, valid h t → valid h1 t) → clear_of h s s2.
Proof. intros C1 C2 L V t k Vt Hk At. apply C2; [by apply V|lia|by apply C1]. Qed.

(** ** The rest of the longer operand *)

(** How deep the calls nest: two calls for each word of the shorter operand. *)
Definition need (m n : Z) : Z := 2 * (m `min` n) + (if m `max` n =? m `min` n then 0 else 1).

Section pieces.
Context (h : heap) (stk z x y : vec) (Hw : word_heap h) (Vz : valid h z) (Ox : opd h stk z x) (Oy : opd h stk z y).
Context (mul : multiplier).
Let m := vlen x.
Let n := vlen y.
Context (Lz : vlen z = m + n) (Hn : 0 < n).
Context (Hmul : ∀ h stk z a b, mul_args h stk z a b → vlen a ≤ n → vlen b = n → multiplies h stk z a b (mul h stk z a b)).
Let Y := val (words h y).

(** The product of the first [i] words is in [z]. *)
Record added (hi : heap) (si ti : vec) (i : Z) : Prop := {
  ad_between : between h stk z hi si ti;
  ad_apart : apart (free si) (whole ti);
  ad_i : n ≤ i;
  ad_val : val (words hi z) = val (take (Z.to_nat i) (words h x)) * Y;
}.

Lemma pieces_step hi si ti i : added hi si ti i → i < m →
  ∃ xi hj sj t zr hk, sub x i ((i + n) `min` m) = Ok xi ∧ mul hi si ti xi y = Ok (hj, sj, t) ∧ from z i = Ok zr ∧
    addTo hj zr t = Ok hk ∧ added hk sj t (i + n).
Proof using All.
  intros [B A Hi Ev] Him. pose proof (va_len _ _ Vz) as Lz'. pose proof (op_ok _ _ _ _ Ox) as Vx. pose proof (va_len _ _ Vx) as Lx.
  set (j := (i + n) `min` m) in *. set (xi := part x i j).
  assert (opd h stk z xi) as Oxi by (apply opd_part; (done || lia)).
  pose proof B as [B1 [B2 B2'] B3 [B4 B4'] B5 B6 B7 B8].
  destruct (opd_out h stk z Vz xi _ _ _ Oxi B) as (Vxi & Wxi & Fx & Ax & _), (opd_out h stk z Vz y _ _ _ Oy B) as (Vy & Wy & Fy & Ay & _).
  assert (mul_args hi si ti xi y) as MA by (split; [done|done|done|split; by left]).
  destruct (Hmul _ _ _ _ _ MA) as (hj & sj & r & E & P); [simpl; lia|done|].
  destruct (product_valid _ _ _ _ _ _ _ _ _ P) as (Vr & Nr & Er). destruct (product_region _ _ _ _ _ _ _ _ _ P) as (z1 & K & Hz1).
  assert (between h stk z hj sj r) as Bj.
  { apply (between_step h stk z Vz hi si ti hj sj r z1); try done; [apply P|apply P|apply P|apply P|intros t Vt; by apply Hz1|].
    intros t Vt _ At. by apply Hz1. }
  assert (words hj z = words hi z) as Wz.
  { eapply keeps_two; [exact K|done|apply apart_sym, apart_whole; [done|by apply apart_sym]|apply Hz1; [done|]]. apply apart_sym, apart_whole; [done|by apply apart_sym]. }
  pose proof (bt_z _ _ _ _ _ _ Bj) as Vzj. pose proof (bt_w _ _ _ _ _ _ Bj) as [_ Ar].
  assert (words h xi = drop (Z.to_nat i) (take (Z.to_nat j) (words h x))) as Exi.
  { unfold xi. rewrite words_part by (done || lia). rewrite skipn_firstn_comm. f_equal. lia. }
  assert (val (take (Z.to_nat j) (words h x)) = val (take (Z.to_nat i) (words h x)) + _B ^ i * val (words h xi)) as Ej.
  { rewrite Exi, (val_split (take (Z.to_nat j) (words h x)) i) by (rewrite len_take, len_words by done; fold m; lia).
    rewrite take_take. do 3 f_equal. lia. }
  destruct (addTo_above hj z i r (val (take (Z.to_nat j) (words h x)) * Y)) as (ws & E2 & Lws & Wws & Ews); [done|apply Bj|lia|done|done| | | |].
  { apply inner_apart; [apply (va_len _ _ Vr)|done|done]. }
  { rewrite Wz, Ev, Er, Wxi, Wy, Ej. fold Y. ring. }
  { pose proof (val_take_range (words h x) j (word_heap_words _ _ Hw) ltac:(rewrite len_words by done; fold m; lia)) as Rj.
    pose proof (val_range _ (word_heap_words h y Hw)) as Ry. rewrite len_words in Ry by apply Oy. fold n Y in Ry.
    rewrite Lz, Z.pow_add_r by (fold m; lia). pose proof (Z.pow_le_mono_r _B j m ltac:(pose proof B_big; lia) ltac:(lia)). nia. }
  unfold from in *. rewrite sub_part in * by lia. cbn [mbind res_bind] in E2.
  exists xi, hj, sj, r, (part z i (vlen z)), (upd hj z ws). split_and!; try done; [apply sub_part; lia|].
  split; [by apply (write_step h stk z Vz)|apply P|lia|]. rewrite words_upd_eq by done. rewrite Ews. do 2 f_equal.
  destruct (decide (i + n ≤ m)); [f_equal; lia|].
  rewrite !take_ge by (rewrite length_words by done; fold m; lia). done.
Qed.

Lemma pieces_ok hi si ti : added hi si ti n → ∃ h' s' t', mul_pieces mul hi si z x y ti = Ok (h', s') ∧
  between h stk z h' s' t' ∧ val (words h' z) = val (words h x) * Y.
Proof using All.
  intros Ad. pose proof (va_len _ _ (op_ok _ _ _ _ Ox)) as Lx.
  enough (wp (mul_pieces mul hi si z x y ti) (λ '(h', s'), ∃ t', between h stk z h' s' t' ∧ val (words h' z) = val (words h x) * Y)) as Hwp.
  { apply wp_exists in Hwp as ([h' s'] & E & t' & B & V). by exists h', s', t'. }
  unfold mul_pieces. fold m n.
  apply (wp_loop (λ '(hi, si, ti, i), added hi si ti i ∧ i ≤ m + n) (λ '(_, _, _, i), m + n - i)).
  - split; [done|lia].
  - intros [[[h1 s1] t1] i] [_ ?]. lia.
  - unfold fuel_of. fold m n. lia.
  - intros [[[h1 s1] t1] i] [A Hi]. destruct (Z.ltb_spec i m).
    + destruct (pieces_step h1 s1 t1 i A) as (xi & hj & sj & t & zr & hk & E1 & E2 & E3 & E4 & A'); [done|]. fold m n.
      steps E1. steps E2. steps E3. steps E4. cbn. split; [split; [done|lia]|lia].
    + cbn. exists t1. split; [apply A|]. rewrite (ad_val _ _ _ _ A), take_ge; [done|]. rewrite length_words by apply Ox. fold m. lia.
Qed.
End pieces.

Section long.
Context (append_cap : Z → Z → Z) (Hcap : ∀ c n, n ≤ append_cap c n).
Context (h : heap) (stk z x y : vec) (Hw : word_heap h) (Vs : valid h stk) (Vz : valid h z).
Context (Ox : opd h stk z x) (Oy : opd h stk z y) (Asz : apart (free stk) (whole z)).
Context (Alx : alias z x = false) (Aly : alias z y = false).
Let m := vlen x.
Let n := vlen y.
Context (Lz : vlen z = m + n) (Hn : 2 ≤ n ≤ m).
Context (mul : multiplier).
Context (Hmul : ∀ h stk z a b, mul_args h stk z a b → need (vlen a) (vlen b) < need m n → multiplies h stk z a b (mul h stk z a b)).
Let X := val (words h x).
Let Y := val (words h y).
Let zk := part z 0 (2 * n).
Let xk := part x 0 n.

(** The first [n] words of [x]. *)
Lemma long_first : ∃ h2 stk2, karatsuba append_cap mul h stk zk xk y = Ok (h2, stk2) ∧
  filled h stk zk (val (take (Z.to_nat n) (words h x)) * Y) h2 stk2.
Proof using All.
  pose proof (va_len _ _ Vz) as Lz'. pose proof (op_ok _ _ _ _ Ox) as Vx. pose proof (va_len _ _ Vx) as Lx.
  assert (val (words h xk) = val (take (Z.to_nat n) (words h x))) as Exk by (unfold xk; rewrite words_to by (done || fold m; lia); done).
  pose proof (Z.div_mod (n + 1) 2 ltac:(lia)). pose proof (Z.mod_pos_bound (n + 1) 2 ltac:(lia)).
  rewrite <-Exk. eapply (karatsuba_ok append_cap Hcap) with (N := (n + 1) / 2); try done.
  - apply valid_part; (done || lia).
  - destruct (opd_part h stk z x 0 n Ox) as [O1 O2 O3]; [lia|lia|fold m; lia|]. split; [done|done|by apply whole_part].
  - destruct Oy as [O1 O2 O3]. split; [done|done|by apply whole_part].
  - apply apart_sym, whole_part. by apply apart_sym.
  - unfold zk. rewrite alias_sym. apply alias_part_r; [lia|]. rewrite alias_sym. by apply alias_part_r.
  - unfold zk. rewrite alias_sym. apply alias_part_r; [lia|]. by rewrite alias_sym.
  - simpl. fold n. lia.
  - simpl. fold n. lia.
  - intros h' s' z' a b MA La Lb. apply Hmul; [done|]. unfold need. repeat case_match; lia.
Qed.

(** The rest of [x]. *)
Lemma long_rest h2 stk2 : n < m → filled h stk zk (val (take (Z.to_nat n) (words h x)) * Y) h2 stk2 →
  ∃ zr h3 stk3 t h4 stk4 stk5, from z (2 * n) = Ok zr ∧
    stack_nat append_cap (clear h2 zr) stk2 (2 * n) = Ok (h3, stk3, t) ∧
    mul_pieces mul h3 stk3 z x y t = Ok (h4, stk4) ∧ stack_restore stk4 (stack_save stk2) = Ok stk5 ∧
    filled h stk z (X * Y) h4 stk5.
Proof using All.
  intros Hlt [F1 [F2 F2'] F3 F4 F5]. pose proof (va_len _ _ Vz) as Lz'. pose proof (op_ok _ _ _ _ Ox) as Vx.
  unfold from. rewrite sub_part by lia. set (zr := part z (2 * n) (vlen z)). set (hc := clear h2 zr).
  assert (valid h2 z) as Vz2 by (by apply F4). assert (valid h2 zr) as Vzr by (apply valid_part; (done || lia)).
  set (zs := replicate (Z.to_nat (vlen zr)) 0). assert (len zs = vlen zr) as Lzs by (unfold zs, len; rewrite length_replicate; simpl; lia).
  assert (keeps h2 hc [zr]) as Kc by (by apply keeps_upd).
  assert (word_heap hc) as Hwc by (by apply word_heap_upd; [|apply Forall_replicate]).
  assert (∀ t, valid h t → valid hc t) as Vc by (intros; by apply Kc, F4).
  assert (∀ t, valid h t → apart (free stk) t → apart z t → words hc t = words h t) as Wc.
  { intros t Vt At Azt. destruct (F4 t Vt) as [Vt2 Wt]. transitivity (words h2 t).
    - apply Kc; [done|]. apply Forall_singleton. apply apart_part_l; (done || lia).
    - apply Wt. rewrite !Forall_cons. split_and!; [done|apply apart_part_l; (done || lia)|by apply Forall_nil]. }
  assert (val (words hc z) = val (take (Z.to_nat n) (words h x)) * Y) as Ez.
  { unfold hc, clear. fold zs. unfold zr. rewrite upd_part by (done || lia). pose proof (len_words h2 z Vz2) as Lw. change (vlen zr) with (vlen z - 2 * n) in Lzs.
    rewrite words_upd_eq, val_splice by (rewrite ?len_splice; (done || lia)). rewrite (val_split (words h2 z) (2 * n)) at 1 by lia.
    rewrite (take_ge (drop _ _)) by (rewrite length_drop; unfold len in Lw, Lzs; lia).
    rewrite (val_all_zero zs) by (by apply Forall_replicate). rewrite <-F5. unfold zk. rewrite words_to by (done || lia). lia. }
  assert (∀ t, valid h t → apart (free stk) t → apart (free stk2) t) as Hfree by (intros; by apply (clear_apart h h2 stk)).
  assert (valid hc stk2) as Vs2 by (by apply Kc).
  assert (apart (free stk2) (whole z)) as As2 by (by apply Hfree; [apply valid_whole|]).
  destruct (alloc_step hc stk2 z (Vc z Vz) append_cap (2 * n)) as (h3 & s3 & t & E3 & B3 & A3 & K3 & _); try done; try lia.
  assert (∀ u, opd h stk z u → opd hc stk2 z u) as Hop by (intros u [O1 O2 O3]; split; auto).
  assert (words hc x = words h x ∧ words hc y = words h y) as [Wx Wy].
  { split; apply Wc; try apply Ox; try apply Oy; apply apart_whole; (done || apply Ox || apply Oy). }
  destruct (pieces_ok hc stk2 z x y) with (mul := mul) (hi := h3) (si := s3) (ti := t) as (h4 & s4 & t4 & E4 & B4 & Ev4); try done; try (by apply Vc); try (by apply Hop); try lia.
  { intros h' s' z' a b MA La Lb. apply Hmul; [done|]. unfold need. fold n in La, Lb. repeat case_match; lia. }
  { split; [done|done|done|]. rewrite Wx, Wy. fold n Y. rewrite <-Ez. f_equal. apply K3; [by apply Vc|].
    apply Forall_singleton. by apply apart_sym, apart_whole; [|apply apart_sym]. }
  destruct (restore_ok hc stk2 _ s4 Vs2 (proj1 (bt_stk _ _ _ _ _ _ B4)) (bt_mark _ _ _ _ _ _ B4) (bt_clear _ _ _ _ _ _ B4)) as (s5 & E5 & Vs5 & Ls5 & Cs5).
  exists zr, h3, s3, t, h4, s4, s5. split_and!; try done. split.
  - apply B4.
  - split; [done|lia].
  - eapply clear_of_trans; [exact F3|exact Cs5|lia|exact Vc].
  - intros u Vu. split; [by apply (bt_valid _ _ _ _ _ _ B4), Vc|]. rewrite !Forall_cons. intros (Au & Azu & _).
    rewrite <-Wc by done. apply (bt_out _ _ _ _ _ _ B4); auto.
  - by rewrite Ev4, Wx, Wy.
Qed.
End long.

(** ** The whole method *)

Section product.
Context (append_cap : Z → Z → Z) (Hcap : ∀ c n, n ≤ append_cap c n).

Lemma extent_alias h z n r x : extent h z n r → valid h x → alias z x = false → alias r x = false.
Proof.
  intros [(s & -> & _)|(Ha & _ & _)] Vx Al.
  - rewrite alias_sym. rewrite alias_sym in Al. by apply alias_part_r.
  - unfold alias. destruct (Z.ltb_spec 0 (vcap x)); [|by rewrite !andb_false_r].
    destruct Vx as [_ _ [?|[_ Hx]]]; [lia|]. rewrite (bool_decide_false (arr r = arr x)) by lia. by rewrite !andb_false_r.
Qed.

(** Once [z] has been made, and is apart from the operands. *)
Lemma mul_made mul h stk z x y : word_heap h → valid h stk → valid h z → opd h stk z x → opd h stk z y →
  apart (free stk) (whole z) → alias z x = false → alias z y = false →
  vlen z = vlen x + vlen y → 2 ≤ vlen y ≤ vlen x →
  (∀ h stk z a b, mul_args h stk z a b → need (vlen a) (vlen b) < need (vlen x) (vlen y) → multiplies h stk z a b (mul h stk z a b)) →
  ∃ h' stk', mul_into append_cap mul h stk z x y = Ok (h', stk') ∧ filled h stk z (val (words h x) * val (words h y)) h' stk'.
Proof using Hcap.
  intros Hw Vs Vz Ox Oy As Alx Aly Lz Hn Hmul. pose proof (va_len _ _ Vz) as Lz'. pose proof (op_ok _ _ _ _ Ox) as Vx. pose proof (va_len _ _ Vx) as Lx.
  unfold mul_into. destruct (vlen y <? karatsubaThreshold).
  { destruct (basic_filled h stk z x y Hw Vs Vz Vx (op_ok _ _ _ _ Oy)) as (h' & -> & F);
      [apply apart_whole; (done || apply Ox)|apply apart_whole; (done || apply Oy)|lia|by exists h', stk]. }
  unfold to. rewrite !sub_part by lia. cbn [mbind res_bind].
  destruct (long_first append_cap Hcap h stk z x y Hw Vs Vz Ox Oy As Alx Aly Lz Hn mul Hmul) as (h2 & stk2 & E & F).
  steps E. destruct (Z.ltb_spec (vlen y) (vlen x)).
  - destruct (long_rest append_cap Hcap h stk z x y Hw Vs Vz Ox Oy As Alx Aly Lz Hn mul Hmul h2 stk2) as (zr & h3 & s3 & t & h4 & s4 & s5 & E1 & E2 & E3 & E4 & F'); [done|done|].
    steps E1. steps E2. steps E3. steps E4. by exists h4, s5.
  - assert (vlen y = vlen x) as Ey by lia. exists h2, stk2. split; [done|].
    rewrite take_ge in F by (rewrite length_words by done; lia). rewrite <-(part_self h z Vz) at 1. by replace (vlen z) with (2 * vlen y) by lia.
Qed.

(** Where the result may go: over [z], or into a new array. *)
Lemma reuse h stk z x y b : b = alias z x || alias z y → mul_args h stk z x y →
  let z' := if b then nilvec else z in
  valid h z' ∧ apart (free stk) (whole z') ∧ (z' = z ∨ z' = nilvec ∧ b = true) ∧ apart (whole z') x ∧ apart (whole z') y ∧
  alias z' x = false ∧ alias z' y = false.
Proof.
  intros -> [Hw (Vs & Asz & Asx & Asy) (Vz & Vx & Vy) (Px & Py)] z'. unfold z'. destruct (alias z x || alias z y) eqn:Ea.
  - split_and!; try done; [apply nil_valid|apply apart_sym, nil_apart; pose proof (va_off _ _ Vs); simpl; pose proof (va_len _ _ Vs); lia|by right|apply nil_apart, Vx|apply nil_apart, Vy].
  - apply orb_false_iff in Ea as [Ex Ey]. destruct Px as [Px|[? _]], Py as [Py|[? _]]; try congruence. split_and!; (done || by left).
Qed.

(** The state once [z] has been made. *)
Lemma made_ready h stk z n h1 z1 : made h z n h1 z1 → valid h stk → apart (free stk) (whole z) →
  word_heap h1 ∧ valid h1 stk ∧ valid h1 z1 ∧ apart (free stk) (whole z1) ∧
  ∀ t, valid h t → apart (free stk) t → apart (whole z) t →
    opd h1 stk z1 t ∧ words h1 t = words h t ∧ (alias z t = false → alias z1 t = false).
Proof.
  intros M Vs As. pose proof (md_extent _ _ _ _ _ M) as He. assert (∀ t, valid h t → valid h1 t ∧ words h1 t = words h t) as Hk.
  { intros t Vt. destruct (md_keeps _ _ _ _ _ M t Vt). auto. }
  split_and!; [apply M|by apply Hk|apply M| |].
  - apply apart_sym. eapply extent_whole; [exact He|by apply valid_free|by apply apart_sym].
  - intros t Vt At Azt. split_and!; [|by apply Hk|by eapply extent_alias]. split; [by apply Hk|done|by eapply extent_whole].
Qed.

Lemma mul_long_ok mul h stk z x y : mul_args h stk z x y → vlen y ≤ vlen x →
  (∀ h stk z a b, mul_args h stk z a b → need (vlen a) (vlen b) < need (vlen x) (vlen y) → multiplies h stk z a b (mul h stk z a b)) →
  multiplies h stk z x y (mul_long append_cap mul h stk z x y).
Proof using Hcap.
  intros MA Hxy Hmul. pose proof MA as [Hw (Vs & Asz & Asx & Asy) (Vz & Vx & Vy) (Px & Py)]. pose proof (va_len _ _ Vx). pose proof (va_len _ _ Vy) as Ly.
  pose proof (may_mul_reads h z x Vz Vx Px) as Rx. unfold multiplies, mul_long. cbv zeta.
  destruct (Z.eqb_spec (vlen y) 0) as [H0|H0].
  { rewrite orb_true_r. destruct (zero_ok h z (vlen x + vlen y) Vz Hw ltac:(lia)) as (h' & r & E & R).
    destruct (to z 0) as [z0| |]; try done. cbn in *. injection E as <- <-. rewrite (val_empty h y Vy H0), Z.mul_0_r.
    exists h, stk, z0. split; [done|]. eapply result_product; [exact R|by left|done|done]. }
  rewrite (proj2 (Z.eqb_neq (vlen x) 0)) by lia. simpl orb. destruct (Z.eqb_spec (vlen y) 1) as [H1|H1].
  { destruct (zget_lt (words h y) 0) as [d Hd]; [rewrite len_words by done; lia|].
    rewrite get_words, (idx_in _ _ _ Hd) by (done || lia). cbn [mbind res_bind]. pose proof (word_heap_words h y Hw) as Wy.
    assert (val (words h y) = d) as ->.
    { pose proof (len_words h y Vy) as Ly'. destruct (words h y) as [|e [|]]; unfold len in Ly'; simpl in *; try lia. unfold zget in Hd. simpl in Hd. injection Hd as ->. lia. }
    assert (word d) as Wd by (eapply Forall_lookup_1; [exact Wy|exact Hd]).
    destruct (mulAddWW_ok h z x d 0 Vz Hw Rx Wd ltac:(words; lia)) as (h' & r & E & R). steps E. rewrite Z.add_0_r in R. rewrite H1.
    exists h', stk, r. split; [done|]. eapply result_product; [exact R|by left|done|done]. }
  set (b := alias z x || alias z y) in *. set (z' := if b then nilvec else z).
  destruct (reuse h stk z x y b eq_refl MA) as (Vz' & As' & Hz' & Ax' & Ay' & Alx & Aly). fold z' in Vz', As', Hz', Ax', Ay', Alx, Aly.
  destruct (make_ok h z' (vlen x + vlen y) Vz' Hw ltac:(lia)) as (h1 & z1 & E & M & L1 & _). steps E.
  destruct (made_ready _ _ _ _ _ _ M Vs As') as (Hw1 & Vs1 & Vz1 & As1 & Ho).
  destruct (Ho x Vx Asx Ax') as (Ox & Wx & Bx), (Ho y Vy Asy Ay') as (Oy & Wy & By).
  destruct (mul_made mul h1 stk z1 x y) as (h' & stk' & E2 & F); try done; try lia; [by apply Bx|by apply By|].
  steps E2. rewrite Wx, Wy in F.
  destruct (made_product _ _ _ _ _ _ b _ _ _ _ M Hz' Vs As' F) as (r & -> & P). by exists h', stk', r.
Qed.

Lemma product_comm h stk z x y m : multiplies h stk z y x m → multiplies h stk z x y m.
Proof. unfold multiplies. by rewrite (Z.add_comm (vlen x)), (Z.mul_comm (val (words h x))), (orb_comm (alias z x)). Qed.

Lemma mul_fuel_ok fuel h stk z x y : mul_args h stk z x y → need (vlen x) (vlen y) < Z.of_nat fuel →
  multiplies h stk z x y (mul_fuel append_cap fuel h stk z x y).
Proof using Hcap.
  revert h stk z x y. induction fuel as [|fuel IH]; intros h stk z x y MA Hf.
  { destruct MA as [_ _ (_ & Vx & Vy) _]. pose proof (va_len _ _ Vx). pose proof (va_len _ _ Vy). unfold need in Hf. case_match; lia. }
  simpl. destruct (Z.ltb_spec (vlen x) (vlen y)).
  - apply product_comm, mul_long_ok; [by destruct MA as [? (? & ? & ? & ?) (? & ? & ?) (? & ?)]|lia|].
    intros h' s' z' a b MA' Hd. apply IH; [done|]. unfold need in *. rewrite (Z.min_comm (vlen y)), (Z.max_comm (vlen y)) in Hd. lia.
  - apply mul_long_ok; [done|done|]. intros h' s' z' a b MA' Hd. apply IH; [done|lia].
Qed.

(** The fuel of [nat_mul] is enough. *)
Lemma nat_mul_ok h stk p z x y : mul_args h (default p stk) z x y →
  multiplies h (default p stk) z x y (nat_mul append_cap h stk p z x y).
Proof using Hcap.
  intros MA. apply mul_fuel_ok; [done|]. destruct MA as [_ _ (_ & Vx & Vy) _]. pose proof (va_len _ _ Vx). pose proof (va_len _ _ Vy).
  unfold need, fuel_of. case_match; lia.
Qed.
End product.
