(* ===== verification/BigSquare.v ===== *)
(** * math/big: squares *)

From Stdlib Require Import String.
From S2P Require Import Prelude Bytealg Bits BigHeap BigArith BigWords BigVec BigNat BigRes BigMul BigBits BigDiv BigLong BigStack BigDivide BigMult BigKara BigKaratsuba BigProduct BigLen.

(** ** The rows of basicSqr *)

(** [z[2*i+1], z[2*i] = w1, w0] *)
Lemma sqr_pair h z i w1 w0 : valid h z → word_heap h → 0 ≤ i → 2 * i + 1 < vlen z → word w1 → word w0 →
  ∃ h1 ws, put h z (2 * i + 1) w1 = Ok h1 ∧ put h1 z (2 * i) w0 = Ok (upd h z ws) ∧ len ws = vlen z ∧ Forall word ws ∧
    val (take (Z.to_nat (2 * (i + 1))) ws) = val (take (Z.to_nat (2 * i)) (words h z)) + _B ^ (2 * i) * (w1 * _B + w0).
Proof.
  intros Vz Hw Hi Hl W1 W0. pose proof (len_words h z Vz) as Lw. set (us := zset (words h z) (2 * i + 1) w1).
  assert (len us = vlen z) as Lu by (unfold us; by rewrite len_zset).
  rewrite put_upd by (done || lia). fold us. do 2 eexists. split; [done|].
  rewrite put_upd by (lia || by apply valid_upd). rewrite words_upd_eq, upd_upd by (done || by rewrite len_zset).
  split; [done|]. split; [by rewrite len_zset|]. split; [do 2 (apply Forall_zset; [|done]); by apply word_heap_words|].
  replace (2 * (i + 1)) with (2 * i + 1 + 1) by lia.
  rewrite (val_take_S _ (2 * i + 1) w1), (val_take_S _ (2 * i) w0).
  - rewrite Z.pow_add_r by lia. change (_B ^ 1) with _B. enough (take (Z.to_nat (2 * i)) (zset us (2 * i) w0) = take (Z.to_nat (2 * i)) (words h z)) as -> by lia.
    apply zget_ext; [rewrite !len_take, len_zset; lia|]. intros k Hk. rewrite len_take, len_zset in Hk.
    rewrite !zget_take by lia. unfold us. rewrite !zget_zset_ne by lia. done.
  - apply zget_zset_eq. lia.
  - unfold us. rewrite zget_zset_ne by lia. apply zget_zset_eq. lia.
Qed.

(** [t[2*i] = addMulVVWW(t[i:2*i], t[i:2*i], x[0:i], d, 0)] *)
Lemma sqr_row h t x i d : valid h t → valid h x → word_heap h → apart t x → 0 ≤ i → 2 * i < vlen t → i ≤ vlen x → word d →
  val (words h t) < _B ^ (2 * i) →
  ∃ ti xi h1 c ws, sub t i (2 * i) = Ok ti ∧ sub x 0 i = Ok xi ∧ addMulVVWW h ti ti xi d 0 = Ok (h1, c) ∧
    put h1 t (2 * i) c = Ok (upd h t ws) ∧ len ws = vlen t ∧ Forall word ws ∧
    val ws = val (words h t) + _B ^ i * (val (take (Z.to_nat i) (words h x)) * d).
Proof.
  intros Vt Vx Hw A Hi Hl Hx Wd Hv. pose proof (va_len _ _ Vt). pose proof (va_len _ _ Vx). pose proof (len_words h t Vt) as Lw.
  rewrite !sub_part by lia. assert (valid h (part t i (2 * i))) as Vti by (apply valid_part; (done || lia)).
  assert (valid h (part x 0 i)) as Vxi by (apply valid_part; (done || lia)).
  destruct (addMulVVWW_ok h (part t i (2 * i)) (part t i (2 * i)) (part x 0 i)) with (m := d) (a := 0)
    as (ms & c & E & Lm & Wm & Wc & Ev); try done.
  { split; [done|done|]. right. left. done. }
  { split; [done|simpl; lia|]. unfold up_ok, apart in *. simpl. lia. }
  simpl vlen in Lm, Ev. replace (2 * i - i) with i in * by lia.
  assert (len (splice (words h t) i ms) = vlen t) as Ls by (rewrite len_splice; lia).
  rewrite upd_part in E by (done || lia).
  do 4 eexists. exists (splice (words h t) i (ms ++ [c])). split; [done|]. split; [done|]. split; [exact E|].
  assert (len (ms ++ [c]) = i + 1) as Lmc by (rewrite len_app, Lm; done).
  split; [|split; [rewrite len_splice; lia|split; [apply Forall_splice; [by apply word_heap_words|apply Forall_app; split; [done|by constructor]]|]]].
  - rewrite put_upd by (lia || by apply valid_upd). rewrite words_upd_eq, upd_upd by (done || by rewrite len_zset).
    replace (2 * i) with (i + len ms) by lia. rewrite zset_splice by lia. done.
  - rewrite val_splice by lia. rewrite val_snoc, Lm. assert (length (ms ++ [c]) = Z.to_nat (i + 1)) as -> by (unfold len in Lmc; lia).
    rewrite val_take_high by (done || lia || (by apply word_heap_words) || (by replace (i + i) with (2 * i) by lia)).
    rewrite words_to in Ev by (done || lia). rewrite words_part in Ev by (done || lia).
    replace (2 * i - i) with i in Ev by lia. lia.
Qed.

(** ** basicSqr *)

(** Writing the temporary. *)
Lemma place_step h stk z hi si w ws : valid h z → between h stk z hi si w → whole w = w → len ws = vlen w → Forall word ws →
  between h stk z (upd hi w ws) si w ∧ words (upd hi w ws) z = words hi z ∧ words (upd hi w ws) w = ws.
Proof.
  intros Vz B Ew Lw Ww. destruct (bt_w _ _ _ _ _ _ B) as [Vw Aw]. rewrite Ew in Aw. pose proof (bt_z _ _ _ _ _ _ B) as Vzi.
  split; [|split; [apply words_upd_apart; try done; apply apart_sym, apart_whole; [apply (va_len _ _ Vz)|by apply apart_sym]|by apply words_upd_eq]].
  apply (between_step h stk z Vz hi si w _ si w w B); try done; [by apply word_heap_upd; [apply B|]|
    apply (keeps_incl _ _ [w]); [by apply keeps_upd|set_solver]|apply valid_upd; (done || apply B)|apply clear_of_refl|by apply valid_upd|].
  intros t _ _ At. by rewrite Ew in At.
Qed.

Section basic_sqr.
Context (append_cap : Z → Z → Z) (Hcap : ∀ c n, n ≤ append_cap c n).
Context (h : heap) (stk z x : vec) (Hw : word_heap h) (Vs : valid h stk) (Vz : valid h z).
Context (Ox : opd h stk z x) (Asz : apart (free stk) (whole z)).
Let n := vlen x.
Context (Lz : vlen z = 2 * n).
Let W := words h x.

(** The squares of the first [k] words are in [z], and half of the other products in [t]. *)
Record squared (si t : vec) (k : Z) (hi : heap) : Prop := {
  sq_between : between h stk z hi si t;
  sq_val : val (take (Z.to_nat (2 * k)) (words hi z)) + 2 * val (words hi t) = val (take (Z.to_nat k) W) * val (take (Z.to_nat k) W);
  sq_high : val (words hi t) < _B ^ (2 * k - 1);
  sq_low : val (words hi t) mod _B = 0;
}.

Lemma squared_step si t k hi : whole t = t → vlen t = 2 * n → squared si t k hi → 1 ≤ k < n →
  ∃ d w1 w0 h1 h2 ti xi h3 c h4, get hi x k = Ok d ∧ mulWW d d = (w1, w0) ∧
    put hi z (2 * k + 1) w1 = Ok h1 ∧ put h1 z (2 * k) w0 = Ok h2 ∧ sub t k (2 * k) = Ok ti ∧ sub x 0 k = Ok xi ∧
    addMulVVWW h2 ti ti xi d 0 = Ok (h3, c) ∧ put h3 t (2 * k) c = Ok h4 ∧ squared si t (k + 1) h4.
Proof using All.
  intros Et Lt [B Ev Hh Hlow] Hk. pose proof (op_ok _ _ _ _ Ox) as Vx. pose proof (va_len _ _ Vz) as Lz'.
  destruct (opd_out h stk z Vz x _ _ _ Ox B) as (Vxi & Wxi & Fx & Ax & Azx). rewrite Et in Ax.
  destruct (zget_lt W k) as [d Hd]; [unfold W; rewrite len_words by done; fold n; lia|].
  assert (word d) as Wd by (by apply (word_heap_get h x k)). destruct (mulWW_word d d Wd Wd) as (w1 & w0 & Em & W1 & W0 & Emv).
  destruct (sqr_pair hi z k w1 w0) as (h1 & zs & E1 & E2 & Lzs & Wzs & Ezs); [apply B|apply B|lia|lia|done|done|].
  set (h2 := upd hi z zs) in *. assert (between h stk z h2 si t) as B2 by (by apply (write_step h stk z Vz)).
  destruct (bt_w _ _ _ _ _ _ B) as [Vti Ati]. rewrite Et in Ati.
  assert (words h2 t = words hi t) as Wt2.
  { apply words_upd_apart; [apply B|done|done|]. apply apart_whole; [done|by apply apart_sym]. }
  destruct (opd_out h stk z Vz x _ _ _ Ox B2) as (Vx2 & Wx2 & _). destruct (bt_w _ _ _ _ _ _ B2) as [Vt2 _].
  destruct (sqr_row h2 t x k d) as (ti & xi & h3 & c & ts & E3 & E4 & E5 & E6 & Lts & Wts & Ets); try done; try lia; [apply B2| |].
  { rewrite Wt2. eapply Z.lt_le_trans; [exact Hh|]. apply Z.pow_le_mono_r; [pose proof B_big; lia|lia]. }
  destruct (place_step h stk z h2 si t ts Vz B2 Et Lts Wts) as (B4 & Wz4 & Wt4).
  exists d, w1, w0, h1, h2, ti, xi, h3, c, (upd h2 t ts). rewrite get_words, Wxi by (done || fold n; lia). fold W. rewrite (idx_in _ _ _ Hd).
  do 8 (split; [done|]). rewrite Wt2, Wx2 in Ets. fold W in Ets. set (C := val (words hi t)) in *. set (V := val (take (Z.to_nat k) W)) in *.
  assert (0 ≤ V < _B ^ k) as HV by (apply val_take_range; [by apply word_heap_words|unfold W; rewrite len_words by done; fold n; lia]).
  assert (_B ^ (2 * k) = _B ^ k * _B ^ k) as EB by (rewrite <-Z.pow_add_r by lia; f_equal; lia).
  assert (_B ^ (2 * k) = _B * _B ^ (2 * k - 1)) as EB1 by (rewrite <-Bpow_S by lia; f_equal; lia).
  assert (_B ^ k = _B * _B ^ (k - 1)) as EB2 by (rewrite <-Bpow_S by lia; f_equal; lia).
  split; [done| | |]; rewrite ?Wz4, ?Wt4.
  - unfold h2. rewrite words_upd_eq by (done || apply B). rewrite Ezs, Ets, (val_take_S _ _ _ Hd), Emv. fold V. rewrite EB in *. nia.
  - rewrite Ets. replace (2 * (k + 1) - 1) with (1 + 2 * k) by lia. rewrite Z.pow_add_r, EB by lia. change (_B ^ 1) with _B.
    assert (0 ≤ d < _B) as Hd' by (words; lia). pose proof (Bpow_pos (2 * k - 1) ltac:(lia)). pose proof (Bpow_pos k ltac:(lia)).
    assert (V * d ≤ (_B ^ k - 1) * (_B - 1)) by nia. pose proof B_big. nia.
  - rewrite Ets, EB2, <-Z.mul_assoc, (Z.mul_comm _B), Z_mod_plus_full. done.
Qed.

(** The doubling of [t], one word up to one word from its ends. *)
Lemma double_ok hi t : valid hi t → word_heap hi → 1 ≤ n → vlen t = 2 * n → val (words hi t) < _B ^ (2 * n - 1) → val (words hi t) mod _B = 0 →
  ∃ tm h1 c ws, sub t 1 (2 * n - 1) = Ok tm ∧ lshVU hi tm tm 1 = Ok (h1, c) ∧ put h1 t (2 * n - 1) c = Ok (upd hi t ws) ∧
    len ws = vlen t ∧ Forall word ws ∧ val ws = 2 * val (words hi t).
Proof using All.
  intros Vt Hwi Hn Lt Hh Hl. pose proof (va_len _ _ Vt). pose proof (len_words hi t Vt) as Lw. set (T := words hi t) in *.
  rewrite sub_part by lia. assert (valid hi (part t 1 (2 * n - 1))) as Vtm by (apply valid_part; (done || lia)).
  destruct (lshVU_ok hi (part t 1 (2 * n - 1)) (part t 1 (2 * n - 1)) 1) as (ms & c & E & Lm & Wm & Wc & Ev); try done; [right; left; done|].
  simpl vlen in Lm, Ev. rewrite upd_part in E by (done || lia). fold T in E.
  assert (len (splice T 1 ms) = vlen t) as Ls by (rewrite len_splice; lia).
  assert (len (ms ++ [c]) = 2 * n - 1) as Lmc by (rewrite len_app; change (len [c]) with 1; lia).
  eexists _, _, _. exists (splice T 1 (ms ++ [c])). split; [done|]. split; [exact E|].
  split; [|split; [rewrite len_splice; lia|split; [apply Forall_splice; [by apply word_heap_words|apply Forall_app; split; [done|by constructor]]|]]].
  - rewrite put_upd by (lia || by apply valid_upd). rewrite words_upd_eq, upd_upd by (done || by rewrite len_zset).
    replace (2 * n - 1) with (1 + len ms) by lia. rewrite zset_splice by lia. done.
  - rewrite val_splice by lia. rewrite val_snoc, Lm. assert (length (ms ++ [c]) = Z.to_nat (2 * n - 2 + 1)) as -> by (unfold len in Lmc; lia).
    rewrite words_part in Ev by (done || lia). fold T in Ev. replace (2 * n - 1 - 1) with (2 * n - 2) in * by lia.
    pose proof (val_take_high T 1 (2 * n - 2) ltac:(by apply word_heap_words) ltac:(lia) ltac:(lia) ltac:(lia) ltac:(by replace (1 + (2 * n - 2)) with (2 * n - 1) by lia)) as Et.
    rewrite Et. pose proof (val_split T 1 ltac:(lia)) as Es. rewrite (take_ge (drop _ _)) in Et by (rewrite length_drop; unfold len in Lw; lia).
    pose proof (val_take_range T 1 ltac:(by apply word_heap_words) ltac:(lia)) as R1. change (_B ^ 1) with _B in *.
    rewrite Es, (Z.mul_comm _B), Z_mod_plus_full, Z.mod_small in Hl by lia. nia.
Qed.

Lemma sqr_finish si t hi : 1 ≤ n → whole t = t → vlen t = 2 * n → squared si t n hi →
  ∃ tm h1 c h2 h3 c' stk', sub t 1 (2 * n - 1) = Ok tm ∧ lshVU hi tm tm 1 = Ok (h1, c) ∧ put h1 t (2 * n - 1) c = Ok h2 ∧
    addVV h2 z z t = Ok (h3, c') ∧ stack_restore si (stack_save stk) = Ok stk' ∧ filled h stk z (val W * val W) h3 stk'.
Proof using All.
  intros Hn Et Lt [B Ev Hh Hl]. pose proof (op_ok _ _ _ _ Ox) as Vx. pose proof (len_words h x Vx) as Lx. fold n W in Lx.
  destruct (bt_w _ _ _ _ _ _ B) as [Vt At]. pose proof (va_len _ _ Vz) as Lz'.
  destruct (double_ok hi t Vt (bt_words _ _ _ _ _ _ B) Hn Lt Hh Hl) as (tm & h1 & c & ts & E1 & E2 & E3 & Lts & Wts & Ets).
  destruct (place_step h stk z hi si t ts Vz B Et Lts Wts) as (B2 & Wz2 & Wt2). set (h2 := upd hi t ts) in *.
  destruct (bt_w _ _ _ _ _ _ B2) as [Vt2 _]. pose proof (bt_z _ _ _ _ _ _ B2) as Vz2.
  destruct (addVV_ok h2 z z t) as (ws & c' & E4 & Lws & Wws & Hc' & Ews); [done|apply B2|split; [done|done|right; left; done]|split; [done|lia|]|].
  { rewrite Et in At. apply apart_sym in At. apply apart_whole in At; [|done]. unfold up_ok, apart in *. destruct At as [?|?]; [by left|right; lia]. }
  assert (between h stk z (upd h2 z ws) si t) as B4 by (by apply (write_step h stk z Vz)).
  destruct (restore_ok h stk _ si Vs (proj1 (bt_stk _ _ _ _ _ _ B4)) (bt_mark _ _ _ _ _ _ B4) (bt_clear _ _ _ _ _ _ B4)) as (s' & E5 & Vs' & Ls' & Cs').
  exists tm, h1, c, h2, (upd h2 z ws), c', s'. do 5 (split; [done|]). split; [apply B4|done|done| |rewrite words_upd_eq by done].
  - intros u Vu. split; [by apply (bt_valid _ _ _ _ _ _ B4)|]. rewrite !Forall_cons. intros (Au & Azu & _). by apply (bt_out _ _ _ _ _ _ B4).
  - rewrite Wz2, Wt2, Ets, Lz in Ews. assert (valid hi z) as Vzi by apply B.
    rewrite (take_ge W) in Ev by (unfold len in Lx; lia). rewrite (take_ge (words hi z)) in Ev by (rewrite length_words by done; lia).
    pose proof (val_range ws Wws) as Rw. pose proof (val_range W ltac:(by apply word_heap_words)) as RW. rewrite Lx in RW. rewrite Lws, Lz in Rw.
    assert (_B ^ (2 * n) = _B ^ n * _B ^ n) as EB by (rewrite <-Z.pow_add_r by lia; f_equal; lia).
    assert (val W * val W < _B ^ n * _B ^ n) by nia. assert (c' = 0 ∨ c' = 1) as [-> | ->] by lia; lia.
Qed.

(** The first square. *)
Lemma squared_first si t hi : 1 ≤ n → whole t = t → vlen t = 2 * n → between h stk z hi si t →
  ∃ d w1 w0 h1 h2, get (clear hi t) x 0 = Ok d ∧ mulWW d d = (w1, w0) ∧ put (clear hi t) z 1 w1 = Ok h1 ∧ put h1 z 0 w0 = Ok h2 ∧
    squared si t 1 h2.
Proof using All.
  intros Hn Et Lt B. pose proof (op_ok _ _ _ _ Ox) as Vx. pose proof (va_len _ _ Vz) as Lz'.
  destruct (place_step h stk z hi si t (replicate (Z.to_nat (vlen t)) 0) Vz B Et) as (B1 & Wz1 & Wt1);
    [unfold len; rewrite length_replicate; lia|by apply Forall_replicate|]. fold (clear hi t) in B1, Wz1, Wt1. set (h0 := clear hi t) in *.
  destruct (opd_out h stk z Vz x _ _ _ Ox B1) as (Vx1 & Wx1 & _).
  destruct (zget_lt W 0) as [d Hd]; [unfold W; rewrite len_words by done; fold n; lia|].
  assert (word d) as Wd by (by apply (word_heap_get h x 0)). destruct (mulWW_word d d Wd Wd) as (w1 & w0 & Em & W1 & W0 & Emv).
  destruct (sqr_pair h0 z 0 w1 w0) as (h1 & zs & E1 & E2 & Lzs & Wzs & Ezs); [apply B1|apply B1|lia|lia|done|done|].
  assert (between h stk z (upd h0 z zs) si t) as B2 by (by apply (write_step h stk z Vz)).
  assert (words (upd h0 z zs) t = words h0 t) as Wt2.
  { destruct (bt_w _ _ _ _ _ _ B1) as [Vt At]. rewrite Et in At. apply words_upd_apart; [apply B1|done|done|].
    apply apart_whole; [done|by apply apart_sym]. }
  exists d, w1, w0, h1, (upd h0 z zs). rewrite get_words, Wx1 by (done || fold n; lia). fold W. rewrite (idx_in _ _ _ Hd).
  do 4 (split; [done|]). split; [done| | |]; rewrite Wt2, Wt1, val_zeros; [|done|done].
  pose proof (val_take_S _ _ _ Hd) as Ed. simpl take in Ed. rewrite words_upd_eq by (done || apply B1).
  replace (2 * 1) with (2 * (0 + 1)) by lia. replace 1 with (0 + 1) at 2 3 by lia. rewrite Ezs, Ed, Emv. simpl. lia.
Qed.

Lemma basicSqr_ok : 0 < n → ∃ h' stk', basicSqr append_cap h stk z x = Ok (h', stk') ∧ filled h stk z (val W * val W) h' stk'.
Proof using All.
  intros Hn. pose proof (op_ok _ _ _ _ Ox) as Vx. pose proof (va_len _ _ Vz) as Lz'. unfold basicSqr. cbv zeta. fold n.
  destruct (Z.ltb_spec n basicSqrThreshold) as [_|Ht].
  { assert (apart z x) as Azx by (apply apart_whole; [lia|apply Ox]).
    destruct (basic_filled h stk z x x Hw Vs Vz Vx Vx Azx Azx) as (h' & -> & F); [fold n; lia|by exists h', stk]. }
  unfold basicSqrThreshold in Ht.
  destruct (alloc_step h stk z Vz append_cap (2 * n)) as (h1 & s1 & t & E1 & B1 & A1 & _ & Lt & Et); try done; try lia.
  steps E1.
  destruct (squared_first s1 t h1 ltac:(lia) Et Lt B1) as (d & w1 & w0 & h2 & h3 & E2 & E3 & E4 & E5 & S1). steps E2. rewrite E3. steps E4. steps E5.
  match goal with |- ∃ _ _, (foldM ?f ?l ?s ≫= _) = _ ∧ _ => enough (wp (foldM f l s) (squared s1 t (1 + (n - 1)))) as Hloop end.
  { apply wp_exists in Hloop as (h4 & E6 & S). replace (1 + (n - 1)) with n in S by lia. steps E6.
    destruct (sqr_finish s1 t h4 ltac:(lia) Et Lt S) as (tm & h5 & c & h6 & h7 & c' & stk' & F1 & F2 & F3 & F4 & F5 & F).
    steps F1. steps F2. steps F3. steps F4. steps F5. by exists h7, stk'. }
  apply wp_foldM_seqZ; [lia|done|]. intros k hi Hk S.
  destruct (squared_step s1 t k hi Et Lt S ltac:(lia)) as (e & v1 & v0 & h4 & h5 & ti & xi & h6 & c & h7 & F1 & F2 & F3 & F4 & F5 & F6 & F7 & F8 & S').
  rewrite F1. cbn [mbind res_bind]. rewrite F2, F3. cbn [mbind res_bind]. steps F4. steps F5. steps F6. steps F7. by rewrite F8.
Qed.
End basic_sqr.

(** ** karatsubaSqr *)

Section karatsuba_sqr.
Context (append_cap : Z → Z → Z) (Hcap : ∀ c n, n ≤ append_cap c n).
Context (h : heap) (stk z x : vec) (Hw : word_heap h) (Vs : valid h stk) (Vz : valid h z).
Context (Ox : opd h stk z x) (Asz : apart (free stk) (whole z)) (Al : alias z x = false).
Let n := vlen x.
Context (Lz : vlen z = 2 * n) (Hn : 0 < n).
Context (sqr : squarer).
Context (Hsqr : ∀ h stk z a, mul_args h stk z a a → vlen a ≤ (n + 1) / 2 → multiplies h stk z a a (sqr h stk z a)).
Notation int := (MkInt false).

Lemma sqr_mid n2 x0 x1 : 0 ≤ n2 ≤ (n + 1) / 2 → 2 * n2 ≤ vlen z → opd h stk z x0 → opd h stk z x1 →
  normal (words h x0) → normal (words h x1) → vlen x0 ≤ n2 → vlen x1 ≤ n2 →
  ∃ h1 s1 w h2 tx h4 s4 r, stack_nat append_cap h stk (2 * n2 + 1) = Ok (h1, s1, w) ∧
  int_Sub h1 (int (part z 0 n2)) (int x0) (int x1) = Ok (h2, tx) ∧ sqr h2 s1 w (iabs tx) = Ok (h4, s4, r) ∧
  between h stk z h4 s4 r ∧ apart (free s4) r ∧ normal (words h4 r) ∧
  val (words h4 r) = (val (words h x0) - val (words h x1)) * (val (words h x0) - val (words h x1)).
Proof using All.
  intros HN Hz Ox0 Ox1 Nx0 Nx1 Lx0 Lx1. pose proof (va_len _ _ Vz) as Lz'.
  destruct (alloc_step h stk z Vz append_cap (2 * n2 + 1)) as (h1 & s1 & w & E1 & B1 & A1 & _ & _); try done; try lia.
  destruct (sub_step h stk z Vz h1 s1 w x0 x1 0 n2 B1) as (h2 & tx & sx & kx & E2 & B2 & K2 & Hkx & Hsx & Etx & Ntx & Ix); try done; try lia.
  destruct (mid_step h stk z Vz h2 s1 w (iabs tx) (iabs tx) (sqr h2 s1 w (iabs tx)) 0 (0 + kx) 0 (0 + kx) B2)
    as (h4 & s4 & r & E4 & B4 & A4 & Nr & Er); try done; try lia.
  { intros MA. apply Hsqr; [done|rewrite Etx; simpl; lia]. }
  exists h1, s1, w, h2, tx, h4, s4, r. do 6 (split; [done|]). rewrite Er, <-Ix. unfold ival. destruct (neg tx); ring.
Qed.

Lemma karatsubaSqr_ok : ∃ h' stk', karatsubaSqr append_cap sqr h stk z x = Ok (h', stk') ∧
  filled h stk z (val (words h x) * val (words h x)) h' stk'.
Proof using All.
  unfold karatsubaSqr. cbv zeta. fold n. rewrite Lz, Z.eqb_refl. simpl negb. cbv iota. pose proof (va_len _ _ Vz) as Lz'.
  destruct ((n <? karatsubaSqrThreshold) || (n <? 2)) eqn:Es; [by apply basicSqr_ok|].
  apply orb_false_iff in Es as [_ Hn2%Z.ltb_ge]. pose proof (Z.div_mod (n + 1) 2 ltac:(lia)). pose proof (Z.mod_pos_bound (n + 1) 2 ltac:(lia)).
  set (n2 := (n + 1) / 2) in *. assert (n ≤ 2 * n2 ≤ n + 1) as Hb by lia.
  destruct (halves h stk z x n2 Ox) as (kx0 & kx1 & Tx0 & Ex0 & Tx1 & Ex1 & Hx0 & Hx1 & Nx0 & Nx1 & Ox0 & Ox1 & Vx); [lia..|].
  set (x0 := part x 0 kx0) in *. set (x1 := part x n2 (n2 + kx1)) in *.
  steps Tx0. steps Ex0. steps Tx1. steps Ex1. rewrite !sub_part by lia. cbn [mbind res_bind].
  assert (from z (2 * n2) = Ok (part z (2 * n2) (2 * n))) as -> by (unfold from; rewrite sub_part, Lz by lia; done). cbn [mbind res_bind].
  destruct (sqr_mid n2 x0 x1) as (h1 & s1 & w & h2 & tx & h4 & s4 & r & E1 & E2 & E4 & B4 & A4 & Nr & Er); try done; try (simpl; lia).
  steps E1. steps E2. steps E4.
  destruct (kara_low h stk z Vs Vz n n2 ltac:(lia) Lz x0 x1 x0 x1) with (hi := h4) (si := s4) (c := r)
    (m0 := sqr (clear h4 z) s4 (part z 0 (2 * n2)) x0) (m2 := λ h s, sqr h s (part z (2 * n2) (2 * n)) x1)
    as (h6 & s6 & h7 & s7 & k0 & k2 & E6 & E7 & B7 & Wc7 & Hk0 & Hk2 & Np0 & Np2 & Ip0 & Ip2 & Vz7); try done; try (simpl; lia).
  { by split_and!; apply opd_alias; (done || lia). }
  { intros z0 MA. apply Hsqr; (done || simpl; lia). }
  { intros h' s' z2 MA. apply Hsqr; (done || simpl; lia). }
  steps E6. steps E7.
  destruct (kara_sum h stk z Vs Vz n n2 ltac:(lia) Lz h7 s7 (MkInt true r) k0 k2 B7 ltac:(simpl; by rewrite Wc7) Hk0 Hk2 Np0 Np2)
    as (h8 & d & h9 & e & E8 & E9 & B9 & Ne & Ie & Wz9).
  steps E8. steps E9. unfold ival at 2 in Ie. simpl in Ie. rewrite Wc7, Er, Ip0, Ip2 in Ie.
  set (X0 := val (words h x0)) in *. set (X1 := val (words h x1)) in *.
  assert (0 ≤ X0 ∧ 0 ≤ X1) as [PX0 PX1] by (split; by apply val_range, word_heap_words).
  destruct (kara_end h stk z Vs Vz n n2 ltac:(lia) Lz h9 s7 e _ (val (words h x) * val (words h x)) B9 Ne Ie)
    as (zr & h' & stk' & E10 & E11 & E12 & F).
  - nia.
  - assert (_B ^ (2 * n2) = _B ^ n2 * _B ^ n2) as EB by (rewrite <-Z.pow_add_r by lia; f_equal; lia).
    rewrite Wz9, Vz7, Vx, EB. ring.
  - pose proof (val_range _ (word_heap_words h x Hw)) as Rx. rewrite len_words in Rx by apply Ox. fold n in Rx.
    rewrite Lz. replace (2 * n) with (n + n) by lia. rewrite Z.pow_add_r by lia. nia.
  - steps E10. steps E11. steps E12. by exists h', stk'.
Qed.
End karatsuba_sqr.

(** ** The whole method *)

Section square.
Context (append_cap : Z → Z → Z) (Hcap : ∀ c n, n ≤ append_cap c n).

Lemma sqr_one h stk z x : mul_args h stk z x x → vlen x = 1 →
  ∃ d h1 z1 w1 w0 h2 h3 r, get h x 0 = Ok d ∧ nat_make h z 2 = Ok (h1, z1) ∧ mulWW d d = (w1, w0) ∧ put h1 z1 1 w1 = Ok h2 ∧
    put h2 z1 0 w0 = Ok h3 ∧ ∃ h', ret_norm h3 z1 = Ok (h', r) ∧ result h z 2 (val (words h x) * val (words h x)) h' r.
Proof.
  intros [Hw (Vs & Asz & Asx & _) (Vz & Vx & _) _] H1. pose proof (len_words h x Vx) as Lx.
  destruct (zget_lt (words h x) 0) as [d Hd]; [lia|]. assert (word d) as Wd by (by apply (word_heap_get h x 0)).
  assert (val (words h x) = d) as Ev.
  { pose proof (val_take_S _ _ _ Hd) as Et. rewrite take_ge in Et by (unfold len in Lx; lia). rewrite Et. simpl. lia. }
  destruct (make_ok h z 2 Vz Hw ltac:(lia)) as (h1 & z1 & E & M & L1 & _). destruct (mulWW_word d d Wd Wd) as (w1 & w0 & Em & W1 & W0 & Emv).
  destruct (sqr_pair h1 z1 0 w1 w0) as (h2 & ws & E1 & E2 & Lws & Wws & Ews); [apply M|apply M|lia|lia|done|done|].
  destruct (ret_norm_made h z 2 h1 z1 ws (d * d) M Lws Wws) as (h' & r & E3 & R).
  { rewrite take_ge in Ews by (unfold len in Lws; lia). rewrite Ews. simpl. lia. }
  exists d, h1, z1, w1, w0, h2, (upd h1 z1 ws), r. rewrite get_words, (idx_in _ _ _ Hd), Ev by (done || lia). eauto 9.
Qed.

Lemma sqr_made sqr h stk z x : word_heap h → valid h stk → valid h z → opd h stk z x → apart (free stk) (whole z) → alias z x = false →
  vlen z = 2 * vlen x → 2 ≤ vlen x →
  (∀ h stk z a, mul_args h stk z a a → vlen a < vlen x → multiplies h stk z a a (sqr h stk z a)) →
  ∃ h' stk', sqr_into append_cap sqr h stk z x = Ok (h', stk') ∧ filled h stk z (val (words h x) * val (words h x)) h' stk'.
Proof using Hcap.
  intros Hw Vs Vz Ox As Al Lz Hn Hsqr. pose proof (va_len _ _ Vz). unfold sqr_into. cbv zeta. case_match.
  { assert (apart z x) as Azx by (apply apart_whole; [lia|apply Ox]). pose proof (op_ok _ _ _ _ Ox) as Vx.
    destruct (basic_filled h stk z x x Hw Vs Vz Vx Vx Azx Azx) as (h' & -> & F); [lia|by exists h', stk]. }
  case_match; [apply basicSqr_ok; (done || lia)|]. apply karatsubaSqr_ok; try done; [lia|].
  pose proof (Z.div_mod (vlen x + 1) 2 ltac:(lia)). pose proof (Z.mod_pos_bound (vlen x + 1) 2 ltac:(lia)).
  intros h' s' z' a MA Ha. apply Hsqr; [done|lia].
Qed.

Lemma sqr_body_ok sqr h stk z x : mul_args h stk z x x →
  (∀ h stk z a, mul_args h stk z a a → vlen a < vlen x → multiplies h stk z a a (sqr h stk z a)) →
  multiplies h stk z x x (sqr_body append_cap sqr h stk z x).
Proof using Hcap.
  intros MA Hsqr. pose proof MA as [Hw (Vs & Asz & Asx & _) (Vz & Vx & _) (Px & _)]. pose proof (va_len _ _ Vx). unfold multiplies, sqr_body. cbv zeta.
  destruct (Z.eqb_spec (vlen x) 0) as [H0|H0].
  { destruct (zero_ok h z (vlen x + vlen x) Vz Hw ltac:(lia)) as (h' & r & E & R).
    destruct (to z 0) as [z0| |]; try done. cbn in *. injection E as <- <-. rewrite (val_empty h x Vx H0).
    exists h, stk, z0. split; [done|]. eapply result_product; [exact R|by left|done|done]. }
  destruct (Z.eqb_spec (vlen x) 1) as [H1|H1].
  { destruct (sqr_one h stk z x MA H1) as (d & h1 & z1 & w1 & w0 & h2 & h3 & r & E1 & E2 & E3 & E4 & E5 & h' & E6 & R).
    steps E1. steps E2. rewrite E3. steps E4. steps E5. steps E6. rewrite H1. exists h', stk, r. split; [done|].
    eapply result_product; [exact R|by left|done|done]. }
  set (b := alias z x). destruct (reuse h stk z x x b ltac:(by rewrite orb_diag) MA) as (Vz' & As' & Hz' & Ax' & _ & Al & _).
  rewrite orb_diag. fold b. set (z' := if b then nilvec else z) in *.
  destruct (make_ok h z' (2 * vlen x) Vz' Hw ltac:(lia)) as (h1 & z1 & E & M & L1 & _). steps E.
  destruct (made_ready _ _ _ _ _ _ M Vs As') as (Hw1 & Vs1 & Vz1 & As1 & Ho). destruct (Ho x Vx Asx Ax') as (Ox & Wx & Bx).
  destruct (sqr_made sqr h1 stk z1 x) as (h' & stk' & E2 & F); try done; try lia; [by apply Bx|].
  steps E2. rewrite Wx in F. destruct (made_product _ _ _ _ _ _ b _ _ _ _ M Hz' Vs As' F) as (r & -> & P).
  exists h', stk', r. split; [done|]. by replace (vlen x + vlen x) with (2 * vlen x) by lia.
Qed.

Lemma sqr_fuel_ok fuel h stk z x : mul_args h stk z x x → vlen x < Z.of_nat fuel → multiplies h stk z x x (sqr_fuel append_cap fuel h stk z x).
Proof using Hcap.
  revert h stk z x. induction fuel as [|fuel IH]; intros h stk z x MA Hf.
  { destruct MA as [_ _ (_ & Vx & _) _]. pose proof (va_len _ _ Vx). lia. }
  simpl. apply sqr_body_ok; [done|]. intros h' s' z' a MA' Ha. apply IH; [done|lia].
Qed.

(** The fuel of [nat_sqr] is enough. *)
Lemma nat_sqr_ok h stk p z x : mul_args h (default p stk) z x x →
  multiplies h (default p stk) z x x (nat_sqr append_cap h stk p z x).
Proof using Hcap. intros MA. apply sqr_fuel_ok; [done|]. destruct MA as [_ _ (_ & Vx & _) _]. pose proof (va_len _ _ Vx). unfold fuel_of. lia. Qed.
End square.
