(* ===== verification/BigProps.v ===== *)
(** * math/big: the properties of vectors and natural numbers *)

From Stdlib Require Import String.
From S2P Require Import Prelude Bytealg Bits BitsProps BigHeap BigArith BigWords BigVec BigNat BigRes BigMul BigBits BigLen BigDiv BigStack BigDivide BigMult BigKara BigProduct BigSquare.

(** A heap with a number of three words, one of two, and one of one, each in an array of its own. *)
Definition heap3 : heap := [[5; 7; 9]; [3; 2]; [6]; [0; 0; 0; 0; 0]].
Definition num0 : vec := Vec 0 0 3 3.
Definition num1 : vec := Vec 1 0 2 2.
Definition num2 : vec := Vec 2 0 1 1.
Definition room : vec := Vec 3 0 0 5.

Lemma heap3_ok : word_heap heap3 ∧ valid heap3 num0 ∧ valid heap3 num1 ∧ valid heap3 num2 ∧ valid heap3 room ∧
  valid heap3 nilvec.
Proof.
  split; [repeat (constructor; [repeat (constructor; [vm_compute; split; congruence|]); constructor|]); constructor|].
  split_and!; (split; [vm_compute; congruence|vm_compute; split; congruence|]);
    first [left; vm_compute; split; congruence|right; split; [vm_compute; congruence|simpl; lia]].
Qed.

Lemma heap3_normal : normal (words heap3 num0) ∧ normal (words heap3 num1) ∧ normal (words heap3 num2).
Proof. split_and!; intros w Hw; vm_compute in Hw; injection Hw as <-; done. Qed.

(** C33: the loops of arith.go over vectors of words, least significant word first,
    at any length: [addVV], [subVV], [addVW], [subVW], [mulAddVWW], [addMulVVWW] and the
    shifts [lshVU] and [rshVU] return, change the words of [z] only, and those words and
    the carry are the sum, difference, product and shift of the numbers: the carry of
    [lshVU] is the bits shifted out, at the bottom of the word, the one of [rshVU] is the
    bits shifted out, at the top. The result may be over an operand, or below part of it;
    for [lshVU], which goes from the last word to the first, above part of it.
    A vector of another length than that of [z] makes each of them panic. *)
Theorem vector_correct h z x y : valid h z → word_heap h → operand h z x → operand h z y →
  let X := val (words h x) in let Y := val (words h y) in let top := _B ^ vlen z in
  writes h z (addVV h z x y) (λ ws c, 0 ≤ c ≤ 1 ∧ val ws + top * c = X + Y) ∧
  writes h z (subVV h z x y) (λ ws c, 0 ≤ c ≤ 1 ∧ val ws - top * c = X - Y) ∧
  (∀ w, word w →
    writes h z (addVW h z x w) (λ ws c, word c ∧ (0 < vlen z → c ≤ 1) ∧ val ws + top * c = X + w) ∧
    writes h z (subVW h z x w) (λ ws c, word c ∧ (0 < vlen z → c ≤ 1) ∧ val ws - top * c = X - w)) ∧
  (∀ m a, word m → word a →
    writes h z (mulAddVWW h z x m a) (λ ws c, word c ∧ val ws + top * c = X * m + a) ∧
    writes h z (addMulVVWW h z x y m a) (λ ws c, word c ∧ val ws + top * c = X + Y * m + a)) ∧
  (∀ t s, valid h t → vlen t = vlen z → 0 ≤ s < 64 → let T := val (words h t) in
    (down_ok z t → writes h z (lshVU h z t s) (λ ws c, word c ∧ val ws + top * c = T * 2 ^ s)) ∧
    (up_ok z t → writes h z (rshVU h z t s) (λ ws c, c = T mod 2 ^ s * 2 ^ (64 - s) ∧ val ws = T / 2 ^ s))) ∧
  (∀ t u w a, vlen t ≠ vlen z →
    (addVV h z t u = len_panic "addVV len" ∧ addVV h z u t = len_panic "addVV len") ∧
    (subVV h z t u = len_panic "subVV len" ∧ subVV h z u t = len_panic "subVV len") ∧
    addVW h z t w = len_panic "addVW len" ∧ subVW h z t w = len_panic "subVW len" ∧
    mulAddVWW h z t w a = len_panic "mulAddVWW len" ∧
    (addMulVVWW h z t u w a = len_panic "rshVU len" ∧ addMulVVWW h z u t w a = len_panic "rshVU len") ∧
    lshVU h z t w = len_panic "lshVU len" ∧ rshVU h z t w = len_panic "rshVU len").
Proof.
  intros Hz Hw Ox Oy X Y top. split_and!.
  - by apply addVV_ok.
  - by apply subVV_ok.
  - intros w Ww. split; [by apply addVW_ok|by apply subVW_ok].
  - intros m a Wm Wa. split; [by apply mulAddVWW_ok|by apply addMulVVWW_ok].
  - intros t s Vt Lt Hs T. split; intros Ho; [by apply lshVU_ok|by apply rshVU_ok].
  - intros t u w a Hl%Z.eqb_neq. assert (same_len z t = false) as Hs by exact Hl.
    unfold addVV, subVV, mulAddVWW, addMulVVWW, addVW, subVW, lshVU, rshVU, addVV_g, subVV_g, mulAddVWW_g,
      addMulVVWW_g, lshVU_g, rshVU_g.
    rewrite Hs. simpl. by rewrite !orb_true_r.
Qed.

(** [5 + 7·2^64] plus itself, over itself. *)
Lemma vector_correct_witness : ∃ ws c, addVV heap3 num1 num1 num1 = Ok (upd heap3 num1 ws, c) ∧
  val ws + _B ^ 2 * c = 2 * val [3; 2].
Proof.
  destruct heap3_ok as (Hw & _ & Hv & _).
  assert (operand heap3 num1 num1) as Ho by (split; [exact Hv|reflexivity|right; left; reflexivity]).
  destruct (proj1 (vector_correct heap3 num1 num1 num1 Hv Hw Ho Ho)) as (ws & c & E & _ & _ & _ & Ev).
  exists ws, c. split; [exact E|]. change (vlen num1) with 2 in Ev. rewrite Ev. vm_compute. reflexivity.
Defined.

(** C34: arithmetic on natural numbers. For numbers without leading zeros, with
    the receiver apart from the operands, one of them, or below part of one:
    [add] is the sum; [sub] the difference, and panics exactly when it would be
    negative; [cmp] the order; [set], [setWord] and [setUint64] copy; [mulAddWW] is
    [x*y + r] for words, [basicMul] leaves the product in [z]. The results have no
    leading zeros, are written into the receiver's array when it is large enough
    and into a new one otherwise, and no other number changes. *)
Theorem nat_arith_correct h z x y : valid h z → word_heap h → reads h z x → reads h z y →
  normal (words h x) → normal (words h y) →
  let X := val (words h x) in let Y := val (words h y) in
  returns h z (vlen x `max` vlen y + 1) (X + Y) (nat_add h z x y) ∧
  (Y ≤ X → returns h z (vlen x) (X - Y) (nat_sub h z x y)) ∧
  (X < Y → nat_sub h z x y = panics "underflow") ∧
  nat_cmp h x y = Ok (if X <? Y then -1 else if Y <? X then 1 else 0) ∧
  returns h z (vlen x) X (nat_set h z x) ∧
  (∀ w, word w → returns h z 1 w (nat_setWord h z w) ∧ returns h z 1 w (nat_setUint64 h z w)) ∧
  (∀ w r, word w → word r → returns h z (vlen x + 1) (X * w + r) (nat_mulAddWW h z x w r)) ∧
  (vlen x + vlen y ≤ vlen z → let zz := part z 0 (vlen x + vlen y) in apart zz x → apart zz y →
    ∃ ws, basicMul h z x y = Ok (upd h zz ws) ∧ len ws = vlen x + vlen y ∧ Forall word ws ∧ val ws = X * Y).
Proof.
  intros Hz Hw Rx Ry Nx Ny X Y. pose proof (rd_valid _ _ _ Rx) as Vx. pose proof (rd_valid _ _ _ Ry) as Vy. split_and!.
  - by apply nat_add_ok.
  - intros Hle. apply nat_sub_ok; try done. destruct (decide (vlen y ≤ vlen x)) as [|Hlt]; [done|].
    pose proof (shorter_less (words h x) (words h y) ltac:(by apply word_heap_words) ltac:(by apply word_heap_words) Ny).
    rewrite !len_words in * by done. unfold X, Y in *. lia.
  - by apply nat_sub_underflow.
  - by apply nat_cmp_ok.
  - by apply set_ok.
  - intros w Ww. split; [by apply setWord_ok|]. unfold nat_setUint64. cbv zeta. rewrite uwrap_small, Z.eqb_refl by done. by apply setWord_ok.
  - intros w r Ww Wr. by apply mulAddWW_ok.
  - intros Hl zz Ax Ay. by apply basicMul_ok.
Qed.

(** [9·2^128 + 7·2^64 + 5] minus [2·2^64 + 3], over the minuend. *)
Lemma nat_arith_correct_witness : (∃ h' r, nat_sub heap3 num0 num0 num1 = Ok (h', r) ∧ val (words h' r) = val [2; 5; 9]) ∧
  nat_sub heap3 num1 num1 num0 = panics "underflow".
Proof.
  destruct heap3_ok as (Hw & H0 & H1 & _), heap3_normal as (N0 & N1 & _).
  assert (∀ x, valid heap3 x → reads heap3 x x) as Hself by (intros x Hx; split; [exact Hx|right; left; lia]).
  assert (reads heap3 num0 num1 ∧ reads heap3 num1 num0) as [R01 R10] by (split; split; try assumption; left; discriminate).
  split.
  - destruct (nat_arith_correct heap3 num0 num0 num1 H0 Hw (Hself _ H0) R01 N0 N1) as (_ & Hsub & _).
    destruct Hsub as (h' & r & E & [_ _ Ev _]); [vm_compute; congruence|]. exists h', r. split; [exact E|].
    rewrite Ev. vm_compute. reflexivity.
  - apply (nat_arith_correct heap3 num1 num1 num0 H1 Hw (Hself _ H1) R10 N1 N0). vm_compute. reflexivity.
Defined.

(** The receiver must not be above part of an operand: [add] to [7·2^64 + 5] of
    [2^64 + 1], over its second word, leaves [7·2^64 + 6]. *)
Lemma nat_add_above :
  match nat_add [[5; 7; 0; 0]; [1; 1]] (Vec 0 1 1 3) (Vec 0 0 2 2) (Vec 1 0 2 2) with
  | Ok (h, r) => words h r = [6; 7]
  | _ => False
  end.
Proof. by vm_compute. Qed.

(** C35: natural numbers as bits. [and], [or], [xor], [andNot], [trunc], [lsh], [rsh] and
    [setBit] are the operations of the integers, for receivers as in the
    arithmetic; [bit] reads a bit, [sticky] says whether a one lies below a
    position; [bitLen] is the position of the highest one, [trailingZeroBits] of
    the lowest; [isPow2] finds the powers of two and their exponents. A bit value
    other than 0 and 1 makes [setBit] panic. The number must have no leading zeros:
    [bitLen] of the two words [1; 0] is 64, not 1. *)
Theorem nat_bits_correct h z x y i : valid h z → word_heap h → beside h z x → reads h z y →
  normal (words h x) → 0 ≤ i < 2 ^ 64 - 64 → vlen x < 2 ^ 58 →
  let X := val (words h x) in let Y := val (words h y) in
  (returns h z (vlen x `min` vlen y) (Z.land X Y) (nat_and h z x y) ∧
   returns h z (vlen x `max` vlen y) (Z.lor X Y) (nat_or h z x y) ∧
   returns h z (vlen x `max` vlen y) (Z.lxor X Y) (nat_xor h z x y) ∧
   returns h z (vlen x) (Z.ldiff X Y) (nat_andNot h z x y)) ∧
  (returns h z (vlen x + i / 64 + 1) (X * 2 ^ i) (nat_lsh h z x i) ∧
   returns h z (vlen x) (X / 2 ^ i) (nat_rsh h z x i) ∧
   returns h z (vlen x) (X mod 2 ^ i) (nat_trunc h z x i)) ∧
  (returns h z (vlen x) (Z.clearbit X i) (nat_setBit h z x i 0) ∧
   returns h z (vlen x `max` (i / 64 + 1)) (Z.setbit X i) (nat_setBit h z x i 1) ∧
   ∀ b, b ≠ 0 → b ≠ 1 → nat_setBit h z x i b = panics "set bit is not 0 or 1") ∧
  (nat_bit h x i = Ok (Z.b2z (Z.testbit X i)) ∧ nat_sticky h x i = Ok (if X mod 2 ^ i =? 0 then 0 else 1) ∧
   nat_bitLen h x = Ok (bit_len X)) ∧
  (∃ n, nat_trailingZeroBits h x = Ok n ∧ (X = 0 ∧ n = 0 ∨ trailing_zeros X n)) ∧
  (vlen x ≠ 0 → ∃ k c, nat_isPow2 h x = Ok (k, c) ∧
     if (c : bool) then 0 ≤ k ∧ X = 2 ^ k else k = 0 ∧ ∀ j, 0 ≤ j → X ≠ 2 ^ j) ∧
  nat_bitLen [[1; 0]] (Vec 0 0 2 2) = Ok 64.
Proof.
  intros Hz Hw Bx Ry Nx Hi Hl X Y. pose proof (beside_reads _ _ _ Hz Bx) as Rx. pose proof (rd_valid _ _ _ Rx) as Vx. split_and!.
  - by apply and_ok.
  - by apply or_ok.
  - by apply xor_ok.
  - by apply andNot_ok.
  - apply lsh_ok; (done || lia).
  - apply rsh_ok; (done || lia).
  - by apply trunc_ok.
  - apply setBit_0_ok; (done || lia).
  - apply setBit_1_ok; (done || lia).
  - intros b. apply setBit_other.
  - apply bit_ok; (done || lia).
  - apply sticky_ok; (done || lia).
  - by apply bitLen_ok.
  - by apply trailingZeroBits_ok.
  - by apply isPow2_ok.
  - apply bitLen_not_normalized.
Qed.

Lemma nat_bits_correct_witness : (∃ h' r, nat_lsh heap3 num1 num1 65 = Ok (h', r) ∧ val (words h' r) = val [0; 6; 4]) ∧
  nat_bitLen heap3 num1 = Ok 66.
Proof.
  destruct heap3_ok as (Hw & H0 & H1 & _), heap3_normal as (_ & N1 & _).
  assert (beside heap3 num1 num1) as Hb by (split; [exact H1|right; left; reflexivity]).
  assert (reads heap3 num1 num0) as Hr by (split; [exact H0|left; discriminate]).
  destruct (nat_bits_correct heap3 num1 num1 num0 65 H1 Hw Hb Hr N1) as (_ & ((h' & r & E & [_ _ Ev _]) & _) & _ & (_ & _ & Hn) & _);
    [lia|vm_compute; reflexivity|].
  split; [|rewrite Hn; vm_compute; reflexivity]. exists h', r. split; [exact E|]. rewrite Ev. vm_compute. reflexivity.
Defined.

(** C36: division. [reciprocalWord] and [divWW] divide two words by one; [divW] and
    [modW] a number by a word. [div] returns the floored quotient and the
    remainder of any numbers whose divisor has fewer than [divRecursiveThreshold] words,
    by a word, by comparison or by the long division with its guessed and
    corrected digits; the numbers are normalized, only the two receivers' arrays
    and the free part of the stack change, and the stack is as long as before. It
    panics for a zero divisor. [rem] is its remainder. What [append] allocates
    and how the recursive division works do not matter. *)
Theorem nat_div_correct append_cap divRecursive h stk pooled z z2 u v : (∀ c n, n ≤ append_cap c n) →
  let g := default pooled stk in div_args h g z z2 u v →
  let U := val (words h u) in let V := val (words h v) in
  (vlen v = 0 → nat_div append_cap divRecursive h stk pooled z z2 u v = panics "division by zero") ∧
  (1 ≤ vlen v < divRecursiveThreshold →
    (∃ h' g' q r, nat_div append_cap divRecursive h stk pooled z z2 u v = Ok (h', g', q, r) ∧ divides h g z z2 U V h' g' q r) ∧
    (∃ h' g' r, nat_rem append_cap divRecursive h g z u v = Ok (h', g', r) ∧
      word_heap h' ∧ valid h' g' ∧ vlen g' = vlen g ∧ keeps h h' [free g; whole z] ∧
      valid h' r ∧ normal (words h' r) ∧ val (words h' r) = U mod V)) ∧
  (∀ y, word y → y ≠ 0 →
    (∃ h' q, nat_divW h z u y = Ok (h', q, U mod y) ∧ result h z (vlen u) (U / y) h' q) ∧
    (∃ h', nat_modW h u y = Ok (h', U mod y) ∧ keeps h h' []) ∧
    (∀ x1 x0, word x0 → 0 ≤ x1 < y → ∃ rec q r, reciprocalWord y = Ok rec ∧ divWW x1 x0 y rec = Ok (q, r) ∧
      word q ∧ q = (x1 * _B + x0) / y ∧ r = (x1 * _B + x0) mod y)).
Proof.
  intros Hcap g [Hw (Vg & Vz & Vz2 & Vv) [Bz Bz2] Hzz (A1 & A2 & A3 & A4) [Nu Nv]] U V. pose proof (bs_valid _ _ _ Bz) as Vu. split_and!.
  - by apply nat_div_zero.
  - intros Hl. split; [by apply nat_div_ok|by apply nat_rem_ok].
  - intros y Wy Hy. split_and!.
    + apply divW_ok; try done; [by apply beside_reads|by apply (beside_down_to h)].
    + by apply modW_ok.
    + intros x1 x0 W0 Hx. destruct (divWW_ok x1 x0 y W0 Wy Hx) as (q & r & E & Wq & Hr & Eq).
      destruct (div_exact _ _ _ _ Hr Eq) as [-> ->]. exists (recip y). do 2 eexists. by rewrite reciprocalWord_ok.
Qed.

(** [div(9·2^128 + 7·2^64 + 5, 2·2^64 + 3)], with its results in new arrays and its temporaries on an empty stack. *)
Lemma nat_div_correct_witness : ∃ h' g' q r,
  nat_div (λ _ n, n) (λ _ _ _ _ _, Panic SliceOutOfRange) heap3 (Some room) nilvec nilvec nilvec num0 num1 = Ok (h', g', q, r) ∧
  val (words h' q) = val [5; 7; 9] / val [3; 2] ∧ val (words h' r) = val [5; 7; 9] mod val [3; 2].
Proof.
  destruct heap3_ok as (Hw & H0 & H1 & _ & Hr & Hn), heap3_normal as (N0 & N1 & _).
  assert (beside heap3 nilvec num0) as Hb by (split; [exact H0|right; left; reflexivity]).
  assert (div_args heap3 room nilvec nilvec num0 num1) as Ha.
  { split; [exact Hw|exact (conj Hr (conj Hn (conj Hn H1)))|exact (conj Hb Hb)|right; left; simpl; lia| |exact (conj N0 N1)].
    refine (conj _ (conj _ (conj _ _))); solve [left; discriminate|right; right; simpl; lia]. }
  destruct (nat_div_correct (λ _ n, n) (λ _ _ _ _ _, Panic SliceOutOfRange) heap3 (Some room) nilvec nilvec nilvec num0 num1
    (λ c n, Z.le_refl n) Ha) as (_ & Hd & _).
  destruct (Hd ltac:(vm_compute; split; [congruence|reflexivity])) as [(h' & g' & q & r & E & [_ _ _ _ (_ & _ & Eq) (_ & _ & Er)]) _].
  exists h', g', q, r. split; [exact E|]. split; [exact Eq|exact Er].
Defined.

(** C37: multiplication. For numbers of any lengths, with the receiver apart from
    the operands or beginning in the array where one of them ends, [mul] returns
    the product and [sqr] the square, normalized: by one word, by rows, by
    Karatsuba's method in halves of halves (whose signed differences and middle
    product share the memory of [z] and of the stack with the rest), and in pieces
    when one operand is longer. The recursion ends. Only the receiver's array, or a
    new one, and the free part of the stack change, and the stack is as long as
    before. [karatsuba] and [karatsubaSqr] panic for slices of other lengths. *)
Theorem nat_mul_correct append_cap h stk pooled z x y : (∀ c n, n ≤ append_cap c n) →
  let g := default pooled stk in mul_args h g z x y →
  multiplies h g z x y (nat_mul append_cap h stk pooled z x y) ∧
  multiplies h g z x x (nat_sqr append_cap h stk pooled z x) ∧
  (∀ mul sqr a b, (vlen a ≠ vlen b ∨ vlen z ≠ 2 * vlen b) →
    karatsuba append_cap mul h g z a b = panics "bad karatsuba length" ∧
    (vlen z ≠ 2 * vlen b → karatsubaSqr append_cap sqr h g z b = panics "bad karatsubaSqr length")).
Proof.
  intros Hcap g MA. split; [by apply nat_mul_ok|]. split.
  - apply nat_sqr_ok; [done|]. destruct MA as [Hw (? & ? & ? & ?) (? & ? & ?) (? & ?)]. done.
  - intros mul sqr a b Hl. unfold karatsuba, karatsubaSqr. split.
    + destruct (Z.eqb_spec (vlen a) (vlen b)), (Z.eqb_spec (vlen z) (2 * vlen b)); try done. by destruct Hl.
    + intros H. by rewrite (proj2 (Z.eqb_neq _ _) H).
Qed.

(** The product of 45 and 41 words, over a new array, with a stack of two words. *)
Definition heap4 : heap := [replicate 45 (2 ^ 64 - 1); replicate 41 7; [0; 0]].

Lemma nat_mul_correct_witness : ∃ h' g' r,
  nat_mul (λ _ n, n) heap4 None (Vec 2 0 0 2) nilvec (Vec 0 0 45 45) (Vec 1 0 41 41) = Ok (h', g', r) ∧
  val (words h' r) = val (replicate 45 (2 ^ 64 - 1)) * val (replicate 41 7).
Proof.
  assert (mul_args heap4 (Vec 2 0 0 2) nilvec (Vec 0 0 45 45) (Vec 1 0 41 41)) as Ha.
  { split.
    - repeat (constructor; [apply Forall_forall; intros w Hw; try (apply elem_of_replicate in Hw as [-> _]; vm_compute; split; congruence)|]);
        [|constructor]. assert (w = 0) as -> by (repeat (apply elem_of_cons in Hw as [Hw|Hw]; [exact Hw|]); by apply elem_of_nil in Hw).
      vm_compute; split; congruence.
    - split; [split; [vm_compute; congruence|vm_compute; split; congruence|right; split; [vm_compute; congruence|simpl; lia]]|].
      split_and!; left; discriminate.
    - split_and!; (split; [vm_compute; congruence|vm_compute; split; congruence|]);
        first [left; vm_compute; split; congruence|right; split; [vm_compute; congruence|simpl; lia]].
    - split; left; right; left; simpl; lia. }
  destruct (nat_mul_correct (λ _ n, n) heap4 None (Vec 2 0 0 2) nilvec _ _ (λ c n, Z.le_refl n) Ha) as ((h' & g' & r & E & P) & _).
  destruct (product_valid _ _ _ _ _ _ _ _ _ P) as (_ & _ & Ev). exists h', g', r. split; [exact E|exact Ev].
Defined.
